(* ===== verification/_CoqProject ===== *)
-Q . S2P
Prelude.v
Gf.v
Linear.v
Erasure.v
ErasureDecode.v
VTags.v
Crypto.v
Cheque.v
Attestation.v
Sequencer.v
SequenceNode.v
SequenceKeeps.v
SequenceRuns.v
Token.v
Ledger.v
Subscription.v
Reward.v
Epoch.v
Settlement.v
Records.v
Economy.v
SettleService.v
SortedVec.v
Registry.v
Gov.v
Hlc.v
DhtTable.v
DhtRecord.v
DhtNode.v
DhtLookup.v
DhtRuns.v
Sched.v
Wire.v
Membership.v
MembershipViews.v
MembershipMerge.v
MembershipCensus.v
Verification.v
Host.v
HostRun.v
Invoke.v
Routing.v
RoutingRuns.v
Pager.v
PagerIndex.v
PagerCommit.v
PagerFile.v
SqlReach.v
SqlDb.v
SqlDurable.v
SqlSync.v
SqlRuns.v
Holdings.v
Repair.v
RepairIndex.v
HoldingsTrack.v
HeadReg.v
HeadRegElect.v
HeadRegState.v
HeadRegReshard.v
PieceStore.v
PieceStoreDisk.v
PieceStoreEvict.v
ActiveSet.v
Cipher.v
ObjManifest.v
ObjCore.v
ObjLogic.v
ObjFetch.v
ObjRebuild.v
ObjHonest.v
ObjWalk.v
ObjFiles.v
ObjServe.v
ObjScan.v
ObjMaint.v
ObjJobs.v
ObjBand.v
ObjIngest.v
ObjRuns.v
