(* ===== verification/Prelude.v ===== *)
(** * ZephCraft: a verification development

    ** The program

    ZephCraft is a peer-to-peer node in Rust.  Content is stored as coded
    pieces spread over nodes; nodes are paid for the bytes they serve; small
    programs run on the nodes under grants.  The parts modelled here, and how
    they meet:

    - the erasure codec turns a generation of [k] source pieces into coded
      pieces, mints new ones from those it holds (repair) and decodes any [k]
      independent ones; verification tags let any node check a piece without
      the sources; a data-key cipher seals objects and grants access to them;
    - the piece store keeps generations, pieces and whole contents on disk
      under a budget; the object engine publishes, fetches, serves, repairs,
      sheds and rebalances objects over it, with a choke on concurrent
      transfers; holdings manifests tell peers what a node holds, and the
      death of a peer starts the repair of what it held;
    - content routing announces providers in a Kademlia table of signed
      records; membership gossips who is alive, and a census of members is
      what elections are drawn from; a hybrid logical clock stamps events; a
      scheduler runs background tasks; messages travel in tagged frames;
    - a consumer signs cumulative serving cheques; the provider's book keeps
      the latest of each consumer, and settlement divides a paid quota or a
      subscription's entitlement over them;
    - the token folds each account's ordered writes into a balance (transfer,
      claim, pay, reward claim) and alone may mint, up to a cap;
    - an account's writes are ordered by a committee: a commit needs k-of-n
      signatures of a quorum with 2k > n, and an honest member signs one write
      per (account, nonce); committees are drawn per epoch from the census, or
      are quorums that amend themselves along an attestation chain;
    - at the end of an epoch the settlement store computes the reward record
      (issuance, each provider's share, the next economic state and its hash),
      commits it and pays claims against it; the members of the epoch's
      committee sign the record, and other nodes adopt what a quorum signed;
    - governance is a chain of the same kind, from which every node derives
      the program and configuration registries; owner-signed heads live in a
      registry sharded over the nodes, whose shards elect a writer per epoch
      and move as the census grows;
    - a database is SQLite over a pager of content-addressed pages: a commit
      is a root id, a write is swept into durable generations, readers sync
      from the owner; programs run in a sandbox whose host interface is bound
      by the capabilities granted, can be invoked from another node, and their
      outputs can be attested by independent verifiers on a board.

    ** Files

    Support:
    - [Prelude.v]: machine integers (saturating, checked, casts), the [Ord]
      trait with its laws, sorting, byte strings, sums over lists, maps and
      sets, ordered iteration of maps; tactics and the hint base [zeph].
    - [Crypto.v]: [crates/crypto/src/lib.rs], [Cid] of [crates/core/src/lib.rs].
      Ed25519, BLAKE3 and the postcard codec are classes of operations with
      classes of their documented laws; a concrete instance of each evaluates
      the witnesses.
    - [SortedVec.v]: [binary_search_by] on a sorted [Vec] and the insert-or-
      replace idiom built on it, refined to a map.

    Coding and sealing:
    - [Gf.v]: [crates/erasure/src/gf.rs], the log/exp tables and slice loops.
    - [Linear.v]: linear algebra over that field.
    - [Erasure.v], [ErasureDecode.v]: [crates/erasure/src/lib.rs]; the model and
      its shape lemmas, then the decoder's invariant and the properties.
    - [VTags.v]: [crates/erasure/src/vtags.rs].
    - [Cipher.v]: [crates/cipher/src/lib.rs].

    Objects:
    - [PieceStore.v], [PieceStoreDisk.v], [PieceStoreEvict.v]:
      [crates/store/src/lib.rs]; the operations, what is on disk and reopening,
      eviction.
    - [ActiveSet.v]: [crates/obj/src/active_set.rs].
    - [ObjManifest.v]: [crates/obj/src/manifest.rs], [encrypted.rs].
    - [ObjCore.v], [ObjServe.v], [ObjScan.v]: [crates/obj/src/lib.rs]; publishing,
      fetching and walking objects; serving, ingesting, repairing and shedding;
      the health scan, rebalancing and the other maintenance passes.  The
      effects on the engine run in a small state monad over a network that is
      an argument.  [ObjLogic.v] is its program logic.
    - [ObjFetch.v], [ObjRebuild.v], [ObjHonest.v], [ObjWalk.v], [ObjFiles.v],
      [ObjMaint.v], [ObjJobs.v], [ObjBand.v], [ObjIngest.v]: the properties of
      fetching, rebuilding, fetching from honest peers, chain walks, files,
      maintenance passes, single jobs, the scan's bands, pushes.  [ObjRuns.v]
      evaluates them on concrete networks.
    - [Holdings.v], [HoldingsTrack.v]: [crates/noded/src/manifest.rs]; [Repair.v],
      [RepairIndex.v]: [crates/noded/src/repair.rs].

    Network:
    - [Hlc.v]: [crates/core/src/hlc.rs].
    - [DhtTable.v]: [crates/dht/src/table.rs]; [DhtRecord.v]:
      [crates/dht/src/record.rs]; [DhtNode.v], [DhtLookup.v], [DhtRuns.v]:
      [crates/dht/src/node.rs], [proto.rs].
    - [Routing.v], [RoutingRuns.v]: [crates/routing/src/].
    - [Membership.v], [MembershipViews.v], [MembershipMerge.v],
      [MembershipCensus.v]: [crates/membership/src/lib.rs]; the handlers, the
      invariant of the views, gossip, the census.
    - [Sched.v]: [crates/sched/src/lib.rs].
    - [Wire.v]: [crates/wire/src/lib.rs].

    Ordering and authority:
    - [Attestation.v]: [crates/com/src/attestation.rs].
    - [Sequencer.v]: [crates/com/src/sequencer.rs] and the store of
      [crates/noded/src/sequence.rs]; [SequenceNode.v]: the store on a node, with
      its files, peers and solicitations; [SequenceKeeps.v], [SequenceRuns.v].
    - [Epoch.v]: [crates/noded/src/epoch.rs], [epoch_committee.rs].
    - [Registry.v]: [crates/com/src/registry.rs].
    - [HeadReg.v], [HeadRegElect.v], [HeadRegState.v], [HeadRegReshard.v]:
      [crates/noded/src/headreg.rs], [registry_net.rs].
    - [Gov.v]: [crates/com/src/gov.rs].

    Economy:
    - [Cheque.v]: [crates/cheque/src/lib.rs].
    - [Token.v]: [crates/token/src/lib.rs].
    - [Ledger.v]: [crates/noded/src/ledger.rs].
    - [Subscription.v]: [crates/economy-egress/src/subscription.rs].
    - [Reward.v]: [crates/reward/src/lib.rs].
    - [Settlement.v]: [crates/noded/src/settlement.rs].
    - [Records.v]: [crates/noded/src/record_attest.rs], [record_chain.rs].
    - [Economy.v]: [crates/noded/src/econ_store.rs], [economy_egress.rs].
    - [SettleService.v]: [crates/noded/src/settlement_service.rs].

    Databases and programs:
    - [Pager.v], [PagerIndex.v], [PagerCommit.v], [PagerFile.v]:
      [crates/sql/src/pager.rs], [store.rs], [gen.rs]; the page store, its
      index tree, commits, byte access and generations.
    - [SqlReach.v]: what the walk over the index finds; [SqlDb.v]:
      [crates/sql/src/db.rs], [vfs.rs], [net.rs]; [SqlDurable.v], [SqlSync.v]:
      writing and recovery, readers; [SqlRuns.v]: concrete runs.
    - [Verification.v]: [crates/com/src/verification.rs].
    - [Host.v], [HostRun.v]: [crates/com/src/capability.rs], [transition.rs];
      [Invoke.v]: [crates/com/src/invoke.rs].

    A Rust struct is a record with the same fields (prefixed where two structs
    of a file share a field name), an enum an inductive type, a method a
    function from the old state to its result and the new state.  A [HashMap]
    or [BTreeMap] is a [gmap]; iterating a [BTreeMap] is [btree_iter], in key
    order.  [u64] values are [Z] with their saturation, checks and casts
    written out; plain [+] and [-] panic on overflow in this workspace, and a
    function that can panic returns an [option].  A [Mutex] makes a call
    atomic; the lock-free clock and counters, the scheduler and the choke are
    step relations over threads (the release of a scheduler slot, three
    accesses in the code, is one step).  What the network, the disk or another crate
    answers is a function given to the definitions, with its laws, where a
    theorem needs them, as a class or a hypothesis that a witness satisfies.

    ** What the theorems show

    - Coding: the tables compute GF(2^8) ([Gf]); any [k] independent valid
      pieces decode to the sources, no feed of valid pieces decodes to anything
      else or panics, recoded pieces are valid, and a piece is accepted exactly
      when it raises the rank ([ErasureDecode]); tag verification accepts
      exactly the pieces whose error is orthogonal to the derived vectors
      ([VTags]); what is sealed opens for the owner and for grantees ([Cipher]).
    - Objects: a fetch returns content that hashes to the id or an error,
      whatever peers send, and returns it when enough honest peers hold
      independent pieces ([ObjFetch], [ObjHonest]); files and private files
      round-trip through segments and manifests, provided no mark of an earlier
      distribution outlives its content or the file is pinned ([ObjFiles]);
      chain walks
      terminate and act on what is reachable ([ObjWalk]); maintenance never
      drops what is pinned or wanted, sheds only a surplus that distinct holders
      confirm, repairs no more than the deficit, and acts by band and election
      ([ObjJobs], [ObjBand], [ObjMaint]); a push is stored exactly when it fits ([ObjIngest]).  The
      store reopens to what it was, with the generations last written, and
      evicts oldest first
      ([PieceStoreDisk], [PieceStoreEvict]); active peers stay within the limit
      ([ActiveSet]).  A reader of holdings deltas tracks the publisher, and one
      survivor repairs each object of a dead peer ([HoldingsTrack],
      [RepairIndex]); the reader's claim is for objects it holds throughout.
    - Network: clock values are strictly increasing under every interleaving
      and a peer cannot drag the clock past the tolerance ([Hlc]); the routing
      table keeps its invariant and answers with the nearest contacts
      ([DhtTable]); the record store keeps the freshest signed record, and a
      snapshot restores what has not expired and can inject nothing
      ([DhtRecord]); lookups converge and reads return the freshest record
      found ([DhtLookup]); an announcement and its withdrawal read back
      ([RoutingRuns]); membership views stay well formed, gossip converges and
      a refutation prevails ([MembershipViews], [MembershipMerge]); the
      scheduler runs a key once at a time and drains ([Sched]); frames
      round-trip and every malformed frame has its error ([Wire]).
    - Ordering: with at most 2k - n - 1 equivocating members two verified
      sequences of an account never disagree; appending is incremental
      verification; the node's store only grows ([Sequencer]); a member signs
      one write per slot across anything it does, and across restarts when the
      files of its signed set are written in the order of the signatures and
      none of these writes fails, and a write that its quorum answers commits
      ([SequenceKeeps]).  Every link of an attestation
      or governance chain carries a quorum of the set before it ([Attestation],
      [Gov]); drawn committees are intersection-sized and agree across nodes
      ([Epoch]).  Registry merge is idempotent, associative and, without
      double signing, commutative ([Registry]); shard tables refine it, a shard
      has one writer per epoch and census, and resharding keeps every head at
      every round, for versions that fit the tables' i64 column ([HeadRegState], [HeadRegElect], [HeadRegReshard]); governed registries
      resolve to the last approval ([Gov]).
    - Economy: minting respects the cap and a displayed amount reads back
      ([Token]); an account's balance is exactly what it was credited less what
      it moved out, a written transfer is credited at most once and only to its
      recipient, so the ledger creates no value when no rejected transfer is
      claimed, and its cached totals equal a rescan ([Ledger]); cheque books keep the latest valid
      cheque and quota is allocated first-come ([Cheque]); entitlement is spent
      exactly and one seeding allowance is given per window ([Subscription]);
      shares divide the pool, the record does not depend on collection order,
      its hash binds the state, a day's issuance is exact ([Reward]); settling
      commits the signed state, a checkpoint restores it elsewhere, shares stay
      backed, a claim pays once ([Settlement]); two nodes never find different
      canonical records of an epoch, and the shares of a quorum give one
      ([Records]); the economic position survives its database ([Economy]);
      what a settlement uses is proven, and nodes with the same chains compute
      the same record whatever they have cached ([SettleService]).
    - Databases: a committed database opens to the same pages, its root id
      binds them, and the pager is a file of bytes ([PagerFile]); after a
      successful write the whole database is in the durable generations,
      through compaction, and recovery gives it back ([SqlDurable]); a synced
      reader has the owner's database or an error ([SqlSync]).
    - Programs: a run calls nothing it was not granted and every access stays
      in the guest's memory ([HostRun]); a produced claim verifies on every
      node ([HostRun]), a certificate is exactly the authentic verdicts of
      distinct eligible verifiers, and one honest among them makes the output
      true ([Verification]); a remote invocation runs under the grant with the
      authenticated caller ([Invoke]).

    These theorems state behaviour that departs from what the code or its
    documentation means; the positive theorems next to them carry the
    hypothesis that excludes the case.  Economy and ordering:
    [Ledger.rejected_transfer_is_claimable],
    [Ledger.rejected_payment_counts_as_paid],
    [Sequencer.cross_program_signatures_fork],
    [Settlement.claimed_share_is_distributed_twice],
    [Reward.compute_issuance_ignores_epoch],
    [Subscription.allocate_spends_expired_grant],
    [Registry.double_signed_heads_do_not_converge],
    [Cheque.total_earned_sums_or_panics],
    [HeadRegReshard.remote_answer_for_another_owner_accepted],
    [HeadRegElect.grace_does_not_remove_the_race],
    [SequenceRuns.racing_snapshots_forget_a_signature],
    [SequenceRuns.one_forged_answer_blocks_the_write],
    [Records.RecordsRuns.borrowed_name_blocks_finality],
    [SettleService.SettleRuns.colluding_cheques_stop_the_settlement],
    [SettleService.SettleRuns.restart_discards_the_saved_state],
    [SettleService.SettleRuns.late_record_is_not_adopted].  Network:
    [Sched.high_pressure_starts_scan],
    [MembershipMerge.refutation_fails_at_max],
    [MembershipMerge.future_member_stays], [DhtRuns.tombstoned_peer_dialed_again],
    [RoutingRuns.stale_app_announce_reports_success],
    [RoutingRuns.withdrawal_behind_the_clock_is_dropped].  Objects:
    [RepairIndex.late_object_not_indexed], [HoldingsTrack.diff_sides_confused],
    [PieceStoreEvict.republished_generation_differs_on_disk],
    [PieceStoreEvict.piece_before_generation_is_not_indexed],
    [ObjBand.health_epoch_shorter_than_a_millisecond],
    [ObjFetch.pin_of_unheld_object_fails], [ObjRuns.zero_k_push_stops_scans],
    [ObjRuns.forged_push_is_accepted], [ObjRuns.republished_content_is_not_kept],
    [ObjRuns.one_liar_fails_the_fetch],
    [ObjRuns.unconfirmed_records_offload_the_copy],
    [ObjRuns.crafted_lengths_overflow],
    [ObjRuns.clocks_a_millisecond_apart_disagree].  Databases and programs:
    [PagerFile.grown_empty_database_does_not_reopen],
    [SqlRuns.compact_behind_the_registry_loses_the_newest_write],
    [SqlRuns.recover_keeps_a_damaged_object], [SqlRuns.lazy_page_is_not_verified],
    [Verification.forged_verdict_displaces_vote],
    [Verification.squatted_request_blocks_true_one],
    [HostRun.deterministic_grant_reads_the_backend],
    [HostRun.verifier_is_full_without_host_varying].

    ** Bounds and fuel

    The random generator of the codec is a tape of bytes: [encode] and
    [recode] resample while a draw is all zero, with one round of fuel per
    draw the tape can supply, and the theorems show the result as soon as the
    tape offers a usable draw.  [digits] runs with fuel 20, the number of
    decimal digits of a u64, and the round trip is proved for all of u64.
    [binary_search_by] halves its interval with fuel the length of the vector,
    which its specification shows is enough; the scans of a records chain
    and of a settlement chain have fuel the chain's length.  The pager's depth is computed
    with fuel 4, enough for a u32 page count; a byte access runs with fuel its
    length.  A holdings chain is walked for the 34 steps the code allows, a DHT
    lookup with fuel the number of node ids, a fetch for its 64 rounds over 16
    providers.  Object walks and the rebalance loops have fuel that
    [ObjWalk.chain_walks_act_on_reachable_objects] and [ObjMaint.move_loop_fuel]
    show is enough.  A program run and a batch of SQL statements are finite
    trees of calls.  All other loops are structural on the list they traverse.

    ** Not modelled

    The transport, the operating system's files and clocks, the keystore, the
    control socket, the node binary with its command line, events and the test
    kit: input and output, whose answers the modelled parts take as arguments.
    The wasm engine and SQLite: a run of either is the tree of its host or file
    calls.  The bodies of the bundled wasm programs, and the craft backend,
    which delegates to the modelled object and database operations.  The
    services of the node that carry cheques, attestations, boards and
    governance proposals between nodes are partly input and output around the
    modelled stores; their message handling is not modelled. *)

From stdpp Require Export base numbers list gmap strings sorting option.
From Stdlib Require Export ZArith Lia.

Declare Scope zeph_scope.
Delimit Scope zeph_scope with zeph.
Open Scope Z_scope.

(** ** Machine integers

    A w-bit unsigned integer is a [Z] in [0, 2^w).  The workspace builds with
    [overflow-checks = true], so plain [+]/[-] panic outside that range; a
    function whose arithmetic can leave it returns an [option], [None] being
    the panic.  The [saturating_*] and [checked_*] families and the [as]
    casts are the functions below. *)

Definition U8_MAX : Z := 255.
Definition U32_MAX : Z := 4294967295.
Definition U64_MAX : Z := 18446744073709551615.
Definition U128_MAX : Z := 340282366920938463463374607431768211455.

Definition is_u8 (x : Z) : Prop := 0 <= x <= U8_MAX.
Definition is_u64 (x : Z) : Prop := 0 <= x <= U64_MAX.
Definition is_u128 (x : Z) : Prop := 0 <= x <= U128_MAX.

#[export] Instance is_u8_dec x : Decision (is_u8 x).
Proof. unfold is_u8. apply _. Defined.

#[export] Instance is_u64_dec x : Decision (is_u64 x).
Proof. unfold is_u64. apply _. Defined.

(** [a.saturating_add(b)], [a.saturating_sub(b)] on u64. *)
Definition sat_add (a b : Z) : Z := Z.min (a + b) U64_MAX.
Definition sat_sub (a b : Z) : Z := Z.max (a - b) 0.

(** [a.checked_add(b)], [a.checked_sub(b)] on u64; also plain [a + b] and
    [a - b] under overflow checks, [None] being the panic. *)
Definition checked_add (a b : Z) : option Z :=
  if a + b <=? U64_MAX then Some (a + b) else None.
Definition checked_sub (a b : Z) : option Z :=
  if b <=? a then Some (a - b) else None.

(** The truncating casts [x as u8], [x as u32], [x as u64]. *)
Definition as_u8 (x : Z) : Z := x mod 256.
Definition as_u32 (x : Z) : Z := x mod 4294967296.
Definition as_u64 (x : Z) : Z := x mod 18446744073709551616.

(** [a.div_ceil(b)]. *)
Definition div_ceil (a b : Z) : Z := if a mod b =? 0 then a / b else a / b + 1.

Create HintDb zeph discriminated.

Ltac unfold_int :=
  unfold is_u8, is_u64, is_u128, sat_add, sat_sub, checked_add, checked_sub,
    U8_MAX, U32_MAX, U64_MAX, U128_MAX in *.

(** Arithmetic with the machine-integer wrappers unfolded. *)
Ltac ulia := unfold_int; repeat case_match; simplify_eq; lia.

Lemma sat_add_u64 a b : is_u64 a -> is_u64 b -> is_u64 (sat_add a b).
Proof. unfold_int; lia. Qed.

Lemma sat_sub_u64 a b : is_u64 a -> 0 <= b -> is_u64 (sat_sub a b).
Proof. unfold_int; lia. Qed.

Lemma sat_add_id a b : a + b <= U64_MAX -> sat_add a b = a + b.
Proof. unfold_int; lia. Qed.

Lemma sat_sub_id a b : b <= a -> sat_sub a b = a - b.
Proof. unfold_int; lia. Qed.

Lemma checked_add_Some a b c :
  checked_add a b = Some c <-> c = a + b /\ a + b <= U64_MAX.
Proof. unfold checked_add. case_match eqn:E; [apply Z.leb_le in E|apply Z.leb_gt in E]; split; intros; simplify_eq; try split; try lia; try f_equal; lia. Qed.

Lemma checked_sub_Some a b c :
  checked_sub a b = Some c <-> c = a - b /\ b <= a.
Proof. unfold checked_sub. case_match eqn:E; [apply Z.leb_le in E|apply Z.leb_gt in E]; split; intros; simplify_eq; try split; try lia; try f_equal; lia. Qed.

Lemma as_u64_id x : is_u64 x -> as_u64 x = x.
Proof. intros. apply Z.mod_small. unfold_int; lia. Qed.

Lemma as_u64_range x : is_u64 (as_u64 x).
Proof. unfold as_u64. pose proof (Z.mod_pos_bound x 18446744073709551616). unfold_int; lia. Qed.

Lemma as_u64_le x : 0 <= x -> as_u64 x <= x.
Proof. intros. apply Z.mod_le; lia. Qed.

Lemma lxor_u8 a b : is_u8 a -> is_u8 b -> is_u8 (Z.lxor a b).
Proof.
  intros Ha Hb. unfold_int. split; [apply Z.lxor_nonneg; lia|].
  destruct (decide (Z.lxor a b = 0)); [lia|].
  enough (Z.lxor a b < 2 ^ 8) by lia.
  assert (0 <= Z.lxor a b) by (apply Z.lxor_nonneg; lia).
  apply Z.log2_lt_pow2; [lia|].
  eapply Z.le_lt_trans; [apply Z.log2_lxor; lia|].
  apply Z.max_lub_lt; (destruct (decide (a = 0)) as [->|]; [reflexivity|] || idtac);
    (destruct (decide (b = 0)) as [->|]; [reflexivity|] || idtac);
    apply Z.log2_lt_pow2; lia.
Qed.

#[export] Hint Resolve sat_add_u64 sat_sub_u64 as_u64_range : zeph.

(** ** Total orders

    Rust's [Ord] trait: a three-way comparison with its laws.  The derived
    instances on tuples and on byte arrays are lexicographic. *)

Class Ord (A : Type) := cmp : A -> A -> comparison.

Class OrdLaws (A : Type) `{Ord A} := {
  cmp_eq : forall x y : A, cmp x y = Eq <-> x = y;
  cmp_opp : forall x y : A, cmp y x = CompOpp (cmp x y);
  cmp_lt_trans : forall x y z : A, cmp x y = Lt -> cmp y z = Lt -> cmp x z = Lt
}.

(** [x <= y] in that order, as the relation the sorting lemmas use. *)
Definition ole {A} `{Ord A} (x y : A) : Prop := cmp x y <> Gt.

#[export] Instance ole_dec {A} `{Ord A} (x y : A) : Decision (ole x y).
Proof. unfold ole. destruct (cmp x y); [left|left|right]; congruence. Defined.

#[export] Instance Ord_Z : Ord Z := Z.compare.

#[export] Instance OrdLaws_Z : OrdLaws Z.
Proof.
  split; unfold cmp, Ord_Z.
  - apply Z.compare_eq_iff.
  - intros. apply Z.compare_antisym.
  - intros x y z. rewrite !Z.compare_lt_iff. lia.
Qed.

#[export] Instance Ord_nat : Ord nat := Nat.compare.

#[export] Instance OrdLaws_nat : OrdLaws nat.
Proof.
  split; unfold cmp, Ord_nat.
  - apply Nat.compare_eq_iff.
  - intros. apply Nat.compare_antisym.
  - intros x y z. rewrite !Nat.compare_lt_iff. lia.
Qed.

#[export] Instance Ord_pair {A B} `{Ord A, Ord B} : Ord (A * B) := fun p q =>
  match cmp (fst p) (fst q) with Eq => cmp (snd p) (snd q) | c => c end.

Fixpoint list_cmp {A} `{Ord A} (l k : list A) : comparison :=
  match l, k with
  | [], [] => Eq
  | [], _ :: _ => Lt
  | _ :: _, [] => Gt
  | x :: l', y :: k' => match cmp x y with Eq => list_cmp l' k' | c => c end
  end.

#[export] Instance Ord_list {A} `{Ord A} : Ord (list A) := list_cmp.

Section ord_laws.
Context {A B : Type} `{OrdLaws A, OrdLaws B}.

Lemma cmp_refl (x : A) : cmp x x = Eq.
Proof. by apply cmp_eq. Qed.

#[export] Instance ole_refl : Reflexive (ole (A:=A)).
Proof. intros x. unfold ole. by rewrite cmp_refl. Qed.

#[export] Instance ole_trans : Transitive (ole (A:=A)).
Proof.
  intros x y z. unfold ole. destruct (cmp x y) eqn:E1, (cmp y z) eqn:E2; try done.
  - apply cmp_eq in E1 as ->. by rewrite E2.
  - apply cmp_eq in E1 as ->. by rewrite E2.
  - apply cmp_eq in E2 as ->. by rewrite E1.
  - by rewrite (cmp_lt_trans _ _ _ E1 E2).
Qed.

#[export] Instance ole_antisym : AntiSymm (=) (ole (A:=A)).
Proof.
  intros x y. unfold ole. rewrite (cmp_opp x y).
  destruct (cmp x y) eqn:E; try done. intros _ _. by apply cmp_eq.
Qed.

#[export] Instance ole_total : Total (ole (A:=A)).
Proof.
  intros x y. unfold ole. rewrite (cmp_opp x y). destruct (cmp x y); [left|left|right]; done.
Qed.

#[export] Instance OrdLaws_pair : OrdLaws (A * B).
Proof.
  split; unfold cmp, Ord_pair.
  - intros [a b] [a' b']. cbn. destruct (cmp a a') eqn:E.
    + apply cmp_eq in E as ->. rewrite cmp_eq. split; congruence.
    + split; [done|]. intros [= -> ->]. by rewrite cmp_refl in E.
    + split; [done|]. intros [= -> ->]. by rewrite cmp_refl in E.
  - intros [a b] [a' b']. cbn. rewrite (cmp_opp a a').
    destruct (cmp a a'); cbn; try done. apply cmp_opp.
  - intros [a b] [a' b'] [a'' b'']. cbn.
    destruct (cmp a a') eqn:E1, (cmp a' a'') eqn:E2; try done.
    + apply cmp_eq in E1 as ->. rewrite E2. apply cmp_lt_trans.
    + apply cmp_eq in E1 as ->. by rewrite E2.
    + apply cmp_eq in E2 as ->. by rewrite E1.
    + by rewrite (cmp_lt_trans _ _ _ E1 E2).
Qed.

#[export] Instance OrdLaws_list : OrdLaws (list A).
Proof.
  split; unfold cmp, Ord_list.
  - induction x as [|x l IH]; intros [|y k]; cbn; try (split; congruence).
    destruct (cmp x y) eqn:E.
    + apply cmp_eq in E as ->. rewrite IH. split; congruence.
    + split; [done|]. intros [= -> ->]. by rewrite cmp_refl in E.
    + split; [done|]. intros [= -> ->]. by rewrite cmp_refl in E.
  - induction x as [|x l IH]; intros [|y k]; cbn; try done.
    rewrite (cmp_opp x y). destruct (cmp x y); cbn; auto.
  - induction x as [|x l IH]; intros [|y k] [|z m]; cbn; try done.
    destruct (cmp x y) eqn:E1, (cmp y z) eqn:E2; try done.
    + apply cmp_eq in E1 as ->. rewrite E2. apply IH.
    + apply cmp_eq in E1 as ->. by rewrite E2.
    + apply cmp_eq in E2 as ->. by rewrite E1.
    + by rewrite (cmp_lt_trans _ _ _ E1 E2).
Qed.
End ord_laws.

(** ** Stable sorting

    [sort_by] stands for [slice::sort], [sort_by] and [sort_by_key]: the
    result is the unique stable arrangement, so an insertion sort computes the
    same list as the library's merge sort. *)

Fixpoint insert_by {A} (le : A -> A -> bool) (x : A) (l : list A) : list A :=
  match l with
  | [] => [x]
  | y :: l' => if le x y then x :: l else y :: insert_by le x l'
  end.

Fixpoint sort_by {A} (le : A -> A -> bool) (l : list A) : list A :=
  match l with
  | [] => []
  | x :: l' => insert_by le x (sort_by le l')
  end.

(** Comparison of a projected key, [sort_by_key(|x| f x)]. *)
Definition le_on {A K} `{Ord K} (f : A -> K) (x y : A) : bool :=
  match cmp (f x) (f y) with Gt => false | _ => true end.

Lemma Sorted_impl {A} (R S : A -> A -> Prop) l :
  (forall x y, R x y -> S x y) -> Sorted R l -> Sorted S l.
Proof.
  intros HRS; induction 1 as [|x l Hs IH Hh]; constructor; auto.
  destruct Hh; constructor; auto.
Qed.

Section sorting.
Context {A : Type} (le : A -> A -> bool).

Lemma insert_by_perm x l : insert_by le x l ≡ₚ x :: l.
Proof.
  induction l as [|y l IH]; cbn; [done|]. destruct (le x y); [done|].
  rewrite IH. apply Permutation_swap.
Qed.

Lemma sort_by_perm l : sort_by le l ≡ₚ l.
Proof. induction l as [|x l IH]; cbn; [done|]. by rewrite insert_by_perm, IH. Qed.

Lemma sort_by_length l : length (sort_by le l) = length l.
Proof. by rewrite sort_by_perm. Qed.

Lemma elem_of_sort_by x l : x ∈ sort_by le l <-> x ∈ l.
Proof. by rewrite sort_by_perm. Qed.

Context (Htot : forall x y, le x y = false -> le y x = true).

Lemma insert_by_sorted x l :
  Sorted (fun a b => le a b = true) l -> Sorted (fun a b => le a b = true) (insert_by le x l).
Proof.
  induction 1 as [|y l Hs IH Hh]; cbn; [by repeat constructor|].
  destruct (le x y) eqn:E; [by repeat constructor|].
  constructor; [done|]. destruct Hh as [|z l Hz]; cbn; [constructor; auto|].
  destruct (le x z); constructor; auto.
Qed.

Lemma sort_by_sorted l : Sorted (fun a b => le a b = true) (sort_by le l).
Proof. induction l; cbn; [constructor|]. by apply insert_by_sorted. Qed.

(** On an already sorted list the sort changes nothing. *)
Lemma sort_by_id l : Sorted (fun a b => le a b = true) l -> sort_by le l = l.
Proof.
  induction 1 as [|x l Hs IH Hh]; cbn; [done|]. rewrite IH.
  destruct Hh as [|y l Hy]; cbn; [done|]. by rewrite Hy.
Qed.
End sorting.

Section sorting_by_key.
Context {A K : Type} `{OrdLaws K} (f : A -> K).

Lemma le_on_spec x y : le_on f x y = true <-> ole (f x) (f y).
Proof. unfold le_on, ole. destruct (cmp _ _); naive_solver. Qed.

Lemma le_on_total x y : le_on f x y = false -> le_on f y x = true.
Proof.
  unfold le_on. rewrite (cmp_opp (f x) (f y)). by destruct (cmp (f x) (f y)).
Qed.

#[local] Instance le_on_trans : Transitive (fun x y => le_on f x y = true).
Proof. intros x y z. rewrite !le_on_spec. apply transitivity. Qed.

Lemma sort_by_key_strongly_sorted l :
  StronglySorted (fun x y => ole (f x) (f y)) (sort_by (le_on f) l).
Proof.
  assert (Transitive (fun x y => ole (f x) (f y))) by (intros x y z; apply transitivity).
  apply Sorted_StronglySorted; [done|].
  eapply Sorted_impl; [|apply sort_by_sorted, le_on_total].
  intros x y. apply le_on_spec.
Qed.

(** Two lists that are permutations of each other, sorted by a key that is
    injective on them, sort to the same list: the order of the input does not
    matter. *)
Lemma sort_by_key_canonical l k :
  l ≡ₚ k -> (forall x y, x ∈ l -> y ∈ l -> f x = f y -> x = y) ->
  sort_by (le_on f) l = sort_by (le_on f) k.
Proof.
  intros Hp Hinj.
  assert (forall l k : list A,
    StronglySorted (fun x y => ole (f x) (f y)) l ->
    StronglySorted (fun x y => ole (f x) (f y)) k -> l ≡ₚ k ->
    (forall x y, x ∈ l -> y ∈ l -> f x = f y -> x = y) -> l = k) as Huniq.
  { clear Hp Hinj l k. intros l; induction l as [|x l IH]; intros [|y k] Hl Hk Hp Hinj; auto.
    - by apply Permutation_nil_l in Hp.
    - by symmetry in Hp; apply Permutation_nil_l in Hp.
    - inversion_clear Hl as [|?? Hl' Hx]. inversion_clear Hk as [|?? Hk' Hy].
      assert (x = y) as ->.
      { assert (y ∈ x :: l) as Hyl by (rewrite Hp; left).
        assert (x ∈ y :: k) as Hxk by (rewrite <-Hp; left).
        apply elem_of_cons in Hyl as [->|Hyl]; [done|].
        apply elem_of_cons in Hxk as [->|Hxk]; [done|].
        rewrite list.Forall_forall in Hx, Hy.
        apply Hinj; [left|by right|]. apply (anti_symm ole); [by apply Hx|by apply Hy]. }
      f_equal. apply IH; auto; [by eapply Permutation_cons_inv|].
      intros; apply Hinj; auto; by right. }
  apply Huniq; [apply sort_by_key_strongly_sorted..| |].
  - by rewrite !sort_by_perm.
  - intros x y. rewrite !elem_of_sort_by. auto.
Qed.
End sorting_by_key.

(** ** Byte strings and 32-byte keys *)

(** [Vec<u8>] and [&[u8]]: a list of [Z], each a u8 where [is_bytes] says so. *)
Notation bytes := (list Z).
Definition is_bytes (l : bytes) : Prop := Forall is_u8 l.

(** [[u8; 32]]: node ids, content ids, DHT keys. *)
Notation key := (list Z).

(** [[b; 32]]. *)
Definition key_of (b : Z) : key := replicate 32 b.

(** Lower-case hexadecimal text. *)
Definition hex_digit (d : Z) : Z := if d <? 10 then 48 + d else 87 + d.
Definition hex_encode (b : bytes) : bytes := flat_map (fun x => [hex_digit (x / 16); hex_digit (x mod 16)]) b.

(** The bytes of an ASCII literal, [b"..."]. *)
Definition str_bytes (s : string) : bytes :=
  map (fun a => Z.of_N (Ascii.N_of_ascii a)) (String.list_ascii_of_string s).

(** [x.to_le_bytes()] and [x.to_be_bytes()] of an [n]-byte integer. *)
Fixpoint le_bytes (n : nat) (x : Z) : bytes :=
  match n with
  | O => []
  | S n' => x mod 256 :: le_bytes n' (x / 256)
  end.
Definition be_bytes (n : nat) (x : Z) : bytes := rev (le_bytes n x).

Lemma le_bytes_length n x : length (le_bytes n x) = n.
Proof. revert x; induction n; intros; cbn; auto. Qed.

Lemma le_bytes_inj n x y :
  0 <= x < 256 ^ Z.of_nat n -> 0 <= y < 256 ^ Z.of_nat n ->
  le_bytes n x = le_bytes n y -> x = y.
Proof.
  revert x y; induction n as [|n IH]; intros x y Hx Hy E; cbn in E; [lia|].
  rewrite Nat2Z.inj_succ, Z.pow_succ_r in Hx, Hy by lia.
  injection E as Em Ed.
  assert (x / 256 = y / 256).
  { apply IH; auto; split; try (apply Z.div_pos; lia); apply Z.div_lt_upper_bound; lia. }
  rewrite (Z.div_mod x 256), (Z.div_mod y 256) by lia. congruence.
Qed.

(** Two concatenations with equally long heads are equal piecewise. *)
Lemma app_inj_length {A} (l1 l2 k1 k2 : list A) :
  length l1 = length l2 -> l1 ++ k1 = l2 ++ k2 -> l1 = l2 /\ k1 = k2.
Proof. apply app_inj_1. Qed.

Lemma be_bytes_length n x : length (be_bytes n x) = n.
Proof. unfold be_bytes. by rewrite length_rev, le_bytes_length. Qed.

Lemma le_bytes8_inj x y : is_u64 x -> is_u64 y -> le_bytes 8 x = le_bytes 8 y -> x = y.
Proof. intros Hx Hy. apply le_bytes_inj; unfold_int; cbn; lia. Qed.

Lemma be_bytes8_inj x y : is_u64 x -> is_u64 y -> be_bytes 8 x = be_bytes 8 y -> x = y.
Proof.
  unfold be_bytes. intros Hx Hy E%(f_equal (@rev Z)). rewrite !rev_involutive in E.
  by apply le_bytes8_inj.
Qed.

(** ** Maps and sums *)

Section map_sums.
Context {K V : Type} `{Countable K} (f : V -> Z).

(** The sum of [f] over the values of a map. *)
Definition map_sum (m : gmap K V) : Z := map_fold (fun _ v acc => f v + acc) 0 m.

Lemma map_sum_empty : map_sum ∅ = 0.
Proof. apply map_fold_empty. Qed.

Lemma map_sum_insert_new m k v :
  m !! k = None -> map_sum (<[k := v]> m) = f v + map_sum m.
Proof. intros. unfold map_sum. rewrite map_fold_insert_L; [done|intros; lia|done]. Qed.

Lemma map_sum_delete m k v : m !! k = Some v -> map_sum m = f v + map_sum (delete k m).
Proof.
  intros Hk. rewrite <-(insert_delete_id m k v Hk) at 1.
  apply map_sum_insert_new, lookup_delete_eq.
Qed.

Lemma map_sum_insert m k v :
  map_sum (<[k := v]> m) = f v + map_sum (delete k m).
Proof.
  rewrite <-insert_delete_eq. apply map_sum_insert_new, lookup_delete_eq.
Qed.

Lemma map_sum_update m k v w :
  m !! k = Some w -> map_sum (<[k := v]> m) = map_sum m - f w + f v.
Proof. intros Hk. rewrite map_sum_insert, (map_sum_delete m k w Hk). lia. Qed.

Lemma map_sum_nonneg m : map_Forall (fun _ v => 0 <= f v) m -> 0 <= map_sum m.
Proof.
  induction m as [|k v m Hk IH] using map_ind; [by rewrite map_sum_empty|].
  rewrite map_Forall_insert by done. intros [Hv Hm]. rewrite map_sum_insert_new by done.
  specialize (IH Hm). lia.
Qed.
End map_sums.

(** ** [Result<A, E>] *)

Inductive result (A E : Type) : Type :=
| Ok (a : A)
| Err (e : E).
Arguments Ok {A E} a.
Arguments Err {A E} e.

(** ** Sums over lists *)

Definition sum_Z (l : list Z) : Z := foldr Z.add 0 l.

Lemma sum_Z_app l k : sum_Z (l ++ k) = sum_Z l + sum_Z k.
Proof. unfold sum_Z. induction l; cbn; lia. Qed.

Lemma sum_Z_zeros {A} (l : list A) : sum_Z (map (fun _ => 0) l) = 0.
Proof. unfold sum_Z. induction l; cbn; lia. Qed.

Lemma sum_Z_perm l k : l ≡ₚ k -> sum_Z l = sum_Z k.
Proof. unfold sum_Z. induction 1; cbn; lia. Qed.

Lemma sum_Z_nonneg l : Forall (fun x => 0 <= x) l -> 0 <= sum_Z l.
Proof. unfold sum_Z. induction 1; cbn; lia. Qed.

Lemma sum_Z_le {A} (f g : A -> Z) l :
  (forall x, x ∈ l -> f x <= g x) -> sum_Z (map f l) <= sum_Z (map g l).
Proof.
  unfold sum_Z. induction l as [|x l IH]; cbn; intros Hfg; [lia|].
  pose proof (Hfg x ltac:(left)). enough (foldr Z.add 0 (map f l) <= foldr Z.add 0 (map g l)) by lia.
  apply IH. intros; apply Hfg; by right.
Qed.

(** Folds that saturate: [iter().fold(0u64, |a, b| a.saturating_add(b))]. *)
Definition sat_sum (l : list Z) : Z := foldl sat_add 0 l.

Lemma sat_sum_from a l :
  0 <= a <= U64_MAX -> Forall (fun x => 0 <= x) l ->
  foldl sat_add a l = Z.min (a + sum_Z l) U64_MAX.
Proof.
  unfold sum_Z. intros Ha Hl; revert a Ha.
  induction Hl as [|x l Hx Hl IH]; cbn; intros a Ha; [lia|].
  pose proof (sum_Z_nonneg _ Hl). unfold sum_Z in *.
  rewrite IH; unfold sat_add; lia.
Qed.

Lemma sat_sum_spec l : Forall (fun x => 0 <= x) l -> sat_sum l = Z.min (sum_Z l) U64_MAX.
Proof. intros. unfold sat_sum. rewrite sat_sum_from; auto. unfold_int; lia. Qed.

(** [iter().sum()] on u64: [None] is the overflow panic. *)
Definition checked_sum (l : list Z) : option Z :=
  foldl (fun acc x => acc ≫= fun a => checked_add a x) (Some 0) l.

Lemma checked_sum_from a l :
  a <= U64_MAX -> Forall (fun x => 0 <= x) l ->
  foldl (fun acc x => acc ≫= fun a => checked_add a x) (Some a) l =
    if a + sum_Z l <=? U64_MAX then Some (a + sum_Z l) else None.
Proof.
  intros Ha Hl; revert a Ha. induction Hl as [|x l Hx Hl IH]; cbn; intros a Ha.
  - rewrite Z.add_0_r. destruct (Z.leb_spec a U64_MAX); [done|lia].
  - pose proof (sum_Z_nonneg _ Hl). unfold sum_Z in *. unfold checked_add at 2.
    destruct (Z.leb_spec (a + x) U64_MAX).
    + rewrite IH by lia. by rewrite !Z.add_assoc.
    + destruct (Z.leb_spec (a + (x + foldr Z.add 0 l)) U64_MAX); [lia|].
      clear. induction l; cbn; auto.
Qed.

Lemma checked_sum_spec l :
  Forall (fun x => 0 <= x) l ->
  checked_sum l = if sum_Z l <=? U64_MAX then Some (sum_Z l) else None.
Proof. intros. unfold checked_sum. rewrite checked_sum_from; [done|unfold_int; lia|done]. Qed.

Lemma map_sum_list {K V} `{Countable K} (f : V -> Z) (m : gmap K V) :
  map_sum f m = sum_Z (map f (map snd (map_to_list m))).
Proof.
  unfold map_sum. rewrite map_fold_foldr. unfold sum_Z.
  induction (map_to_list m) as [|[k v] l IH]; cbn; [done|]. by rewrite IH.
Qed.

Lemma map_sum_list_to_map {K V} `{Countable K} (f : V -> Z) (l : list (K * V)) :
  NoDup (map fst l) -> map_sum f (list_to_map l : gmap K V) = sum_Z (map f (map snd l)).
Proof.
  intros Hl. rewrite map_sum_list. apply sum_Z_perm.
  by rewrite (map_to_list_to_map l Hl).
Qed.

(** ** [slice::sort] + [dedup], and [slice::binary_search]

    The loop of the standard library: halve the window [base, base + size)
    while it has more than one element, then compare with the element at
    [base]. *)

Section binary_search.
Context {A : Type} `{OrdLaws A, !EqDecision A}.

Fixpoint bsearch_loop (fuel : nat) (l : list A) (x : A) (base size : nat) : nat :=
  match fuel with
  | O => base
  | S fuel' =>
      if (size <=? 1)%nat then base
      else
        let half := Nat.div2 size in
        let mid := (base + half)%nat in
        let base' := match l !! mid with
                     | Some y => match cmp y x with Gt => base | _ => mid end
                     | None => base
                     end in
        bsearch_loop fuel' l x base' (size - half)
  end.

Definition binary_search (l : list A) (x : A) : option nat :=
  match l with
  | [] => None
  | _ :: _ =>
      let base := bsearch_loop (length l) l x 0 (length l) in
      match l !! base with
      | Some y => match cmp y x with Eq => Some base | _ => None end
      | None => None
      end
  end.

(** [v.sort()] and [v.dedup()]. *)
Definition sort (l : list A) : list A := sort_by (le_on id) l.

Fixpoint dedup (l : list A) : list A :=
  match l with
  | [] => []
  | x :: l' =>
      match l' with
      | y :: _ => if decide (x = y) then dedup l' else x :: dedup l'
      | [] => [x]
      end
  end.

Definition sorted (l : list A) : Prop := StronglySorted ole l.
(** Strictly ascending: sorted without duplicates. *)
Definition ascending (l : list A) : Prop := StronglySorted (fun x y => cmp x y = Lt) l.

Lemma ascending_lookup_lt l i j x y :
  ascending l -> l !! i = Some x -> l !! j = Some y -> (i < j)%nat -> cmp x y = Lt.
Proof.
  intros Hl; revert i j; induction Hl as [|z l Hs IH Hz]; intros i j Hi Hj Hlt; [done|].
  destruct j as [|j]; [lia|]. destruct i as [|i]; cbn in *; simplify_eq.
  - rewrite list.Forall_forall in Hz. apply Hz. by eapply list_elem_of_lookup_2.
  - eapply IH; eauto. lia.
Qed.

Lemma ascending_NoDup l : ascending l -> NoDup l.
Proof.
  induction 1 as [|z l Hs IH Hz]; [constructor|]. constructor; [|done].
  intros Hin. rewrite list.Forall_forall in Hz. specialize (Hz z Hin). cbn in Hz.
  by rewrite cmp_refl in Hz.
Qed.

(** The searched element stays in the window. *)
Lemma bsearch_loop_spec fuel l x base size i :
  ascending l -> l !! i = Some x -> (base <= i < base + size)%nat ->
  (base + size <= length l)%nat -> (size <= S fuel)%nat ->
  bsearch_loop fuel l x base size = i.
Proof.
  intros Hl Hi; revert base size; induction fuel as [|fuel IH]; intros base size Hw Hlen Hf; cbn.
  - lia.
  - destruct (Nat.leb_spec size 1); [lia|].
    pose proof (Nat.div2_div size) as Hd.
    assert (2 * Nat.div2 size <= size /\ 1 <= Nat.div2 size)%nat as [Hlt Hge].
    { rewrite Hd. split; [apply Nat.Div0.mul_div_le|]. apply (Nat.div_le_lower_bound size 2 1); lia. }
    set (half := Nat.div2 size) in *. clearbody half.
    destruct (l !! (base + half)%nat) as [y|] eqn:Ey; [|apply lookup_ge_None in Ey; lia].
    destruct (Nat.lt_trichotomy (base + half) i) as [Hc|[Hc|Hc]].
    + rewrite (ascending_lookup_lt l _ _ _ _ Hl Ey Hi Hc). apply IH; lia.
    + subst i. rewrite Ey in Hi. injection Hi as ->. rewrite cmp_refl. apply IH; lia.
    + assert (cmp y x = Gt) as ->.
      { rewrite (cmp_opp x y), (ascending_lookup_lt l _ _ _ _ Hl Hi Ey Hc). done. }
      apply IH; lia.
Qed.

Lemma binary_search_is_Some l x : ascending l -> is_Some (binary_search l x) <-> x ∈ l.
Proof.
  intros Hl. unfold binary_search. destruct l as [|z l]; [split; [by intros []|by intros ?%not_elem_of_nil]|].
  set (k := z :: l) in *. split.
  - intros [i Hi]. destruct (k !! _) as [y|] eqn:Ey; [|done].
    destruct (cmp y x) eqn:E; try done. apply cmp_eq in E as ->. by eapply list_elem_of_lookup_2.
  - intros [i Hi]%list_elem_of_lookup. pose proof (lookup_lt_Some _ _ _ Hi).
    rewrite (bsearch_loop_spec _ k x 0 (length k) i) by (done || lia).
    rewrite Hi, cmp_refl. by eexists.
Qed.

Lemma sort_perm l : sort l ≡ₚ l.
Proof. apply sort_by_perm. Qed.

Lemma sort_sorted l : sorted (sort l).
Proof. apply (sort_by_key_strongly_sorted (id : A -> A)). Qed.

Lemma elem_of_dedup x l : x ∈ dedup l <-> x ∈ l.
Proof.
  induction l as [|y l IH]; [done|]. cbn. destruct l as [|z l]; [done|].
  destruct (decide (y = z)) as [->|Hne].
  - rewrite IH. set_solver.
  - rewrite elem_of_cons, IH. set_solver.
Qed.

Lemma dedup_ascending l : sorted l -> ascending (dedup l).
Proof.
  induction 1 as [|x l Hs IH Hx]; [constructor|]. cbn. destruct l as [|y l]; [repeat constructor|].
  destruct (decide (x = y)) as [->|Hne]; [done|]. constructor; [done|].
  rewrite list.Forall_forall in Hx |- *. intros z Hz%(elem_of_dedup z (y :: l)).
  assert (ole x z) as Hxz by by apply Hx.
  assert (x <> z).
  { intros <-. assert (ole x y) as Hxy by (apply Hx; left).
    apply elem_of_cons in Hz as [Hz|Hz]; [done|].
    inversion_clear Hs as [|?? _ Hy]. rewrite list.Forall_forall in Hy.
    apply Hne. apply (anti_symm ole); [done|by apply Hy]. }
  destruct (cmp x z) eqn:E; [by apply cmp_eq in E|done|by destruct Hxz].
Qed.

Lemma sorted_NoDup_ascending l : sorted l -> NoDup l -> ascending l.
Proof.
  induction 1 as [|x l Hs IH Hx]; intros Hnd; [constructor|].
  apply list.NoDup_cons in Hnd as [Hnx Hnd]. constructor; [by apply IH|].
  rewrite list.Forall_forall in Hx |- *. intros z Hz.
  destruct (cmp x z) eqn:E; [by apply cmp_eq in E as ->|done|by destruct (Hx z Hz)].
Qed.

Lemma ascending_filter (P : A -> Prop) `{!forall x, Decision (P x)} l :
  ascending l -> ascending (filter P l).
Proof.
  induction 1 as [|x l Hs IH Hx]; [constructor|]. rewrite filter_cons.
  destruct (decide (P x)); [|done]. constructor; [done|].
  rewrite list.Forall_forall in Hx |- *. intros z [_ Hz]%list_elem_of_filter. by apply Hx.
Qed.
End binary_search.

(** ** Sums over finite sets *)

Section set_sums.
Context {K : Type} `{Countable K} (f : K -> Z).

Definition set_sum (X : gset K) : Z := sum_Z (map f (elements X)).

Lemma set_sum_empty : set_sum ∅ = 0.
Proof. unfold set_sum. by rewrite elements_empty. Qed.

Lemma set_sum_union X Y : X ## Y -> set_sum (X ∪ Y) = set_sum X + set_sum Y.
Proof.
  intros Hd. unfold set_sum. rewrite <-sum_Z_app, <-map_app. apply sum_Z_perm.
  by rewrite elements_disj_union.
Qed.

Lemma set_sum_singleton x : set_sum {[x]} = f x.
Proof. unfold set_sum. rewrite elements_singleton. cbn. lia. Qed.

Lemma set_sum_nonneg X : (forall x, 0 <= f x) -> 0 <= set_sum X.
Proof. intros Hf. apply sum_Z_nonneg, Forall_map, Forall_true. auto. Qed.

Lemma set_sum_le_list X l :
  (forall x, 0 <= f x) -> (forall x, x ∈ X -> x ∈ l) -> set_sum X <= sum_Z (map f l).
Proof.
  intros Hf; revert X; induction l as [|y l IH]; intros X Hsub.
  - assert (X = ∅) as -> by set_solver. rewrite set_sum_empty. done.
  - destruct (decide (y ∈ X)) as [Hy|Hy].
    + assert (X = {[y]} ∪ X ∖ {[y]}) as -> by (by rewrite <-union_difference_singleton_L).
      rewrite set_sum_union, set_sum_singleton by set_solver. cbn.
      enough (set_sum (X ∖ {[y]}) <= sum_Z (map f l)) by (unfold sum_Z in *; cbn in *; lia).
      apply IH. intros x Hx. specialize (Hsub x). set_solver.
    + assert (set_sum X <= sum_Z (map f l)) by (apply IH; intros x Hx; specialize (Hsub x); set_solver).
      specialize (Hf y). unfold sum_Z in *; cbn in *; lia.
Qed.

(** A family of pairwise disjoint sets. *)
Lemma set_sum_family {I} (l : list I) (C : I -> gset K) :
  NoDup l -> (forall i j, i ∈ l -> j ∈ l -> i <> j -> C i ## C j) ->
  sum_Z (map (fun i => set_sum (C i)) l) = set_sum (⋃ (map C l)).
Proof.
  induction 1 as [|i l Hi Hl IH]; intros Hd; [symmetry; apply set_sum_empty|].
  cbn [map union_list foldr]. change (foldr union ∅ (map C l)) with (⋃ (map C l)).
  rewrite set_sum_union.
  - cbn. rewrite <-IH; [done|]. intros; apply Hd; set_solver.
  - intros x Hx (Y & HY & Hx')%elem_of_union_list. apply list_elem_of_fmap in HY as (j & -> & Hj).
    assert (C i ## C j) as Hij by (apply Hd; set_solver). set_solver.
Qed.
End set_sums.

(** ** [BTreeMap]: iteration in ascending key order *)

Definition btree_iter {K V} `{Countable K, Ord K} (m : gmap K V) : list (K * V) :=
  sort_by (le_on fst) (map_to_list m).

Section btree.
Context {K V : Type} `{Countable K, OrdLaws K}.
Implicit Types m : gmap K V.

Lemma elem_of_btree_iter m k v : (k, v) ∈ btree_iter m <-> m !! k = Some v.
Proof. unfold btree_iter. by rewrite elem_of_sort_by, elem_of_map_to_list. Qed.

Lemma btree_iter_perm m : btree_iter m ≡ₚ map_to_list m.
Proof. apply sort_by_perm. Qed.

Lemma NoDup_btree_keys m : NoDup (map fst (btree_iter m)).
Proof. rewrite btree_iter_perm. apply NoDup_fst_map_to_list. Qed.
End btree.

(** A fold whose steps commute on the elements of the list does not depend on
    their order. *)
Lemma foldl_perm {A B} (f : B -> A -> B) (l k : list A) (m : B) :
  (forall m a b, a ∈ l -> b ∈ l -> f (f m a) b = f (f m b) a) -> l ≡ₚ k ->
  foldl f m l = foldl f m k.
Proof.
  intros Hc Hp; revert m Hc. induction Hp as [|x l k Hp IH|x y l|l k n Hp1 IH1 Hp2 IH2]; intros m Hc; cbn.
  - done.
  - apply IH. intros; apply Hc; by right.
  - by rewrite Hc by set_solver.
  - rewrite IH1 by done. apply IH2. intros m' a b Ha Hb. apply Hc; by rewrite Hp1.
Qed.

(** The sorted arrangement of a list does not depend on the list's order. *)
Lemma sort_canonical {A} `{OrdLaws A} (l k : list A) : l ≡ₚ k -> sort l = sort k.
Proof. intros Hp. apply sort_by_key_canonical; [done|]. by intros x y _ _. Qed.

(** The floors of a proportional split add up to the whole, less than one unit
    per part being lost. *)
Lemma floor_split (D T : Z) (l : list Z) :
  0 <= D -> 0 < T -> Forall (fun b => 0 <= b) l ->
  let s := sum_Z (map (fun b => D * b / T) l) in
  s * T <= D * sum_Z l <= s * T + Z.of_nat (length l) * (T - 1).
Proof.
  intros HD HT. unfold sum_Z. induction 1 as [|b l Hb Hl IH]; cbn [map foldr length]; [lia|].
  pose proof (Z.div_mod (D * b) T ltac:(lia)) as Hd. pose proof (Z.mod_pos_bound (D * b) T HT).
  cbv zeta in *. rewrite Nat2Z.inj_succ. nia.
Qed.

(** ** Sums over the entries of a map *)

Section entry_sums.
Context {K V : Type} `{Countable K} (f : K -> V -> Z).
Implicit Types m : gmap K V.

Definition entry_sum m : Z := sum_Z (map (fun '(k, v) => f k v) (map_to_list m)).

Lemma entry_sum_insert_new m k v : m !! k = None -> entry_sum (<[k := v]> m) = f k v + entry_sum m.
Proof.
  intros Hk. unfold entry_sum.
  rewrite (sum_Z_perm _ (map (fun '(k, v) => f k v) ((k, v) :: map_to_list m))); [done|].
  by rewrite map_to_list_insert.
Qed.

Lemma entry_sum_delete m k v : m !! k = Some v -> entry_sum m = f k v + entry_sum (delete k m).
Proof.
  intros Hk. rewrite <-(insert_delete_id m k v Hk) at 1. apply entry_sum_insert_new, lookup_delete_eq.
Qed.

Lemma entry_sum_nonneg m : (forall k v, m !! k = Some v -> 0 <= f k v) -> 0 <= entry_sum m.
Proof.
  intros Hf. apply sum_Z_nonneg, Forall_map, list.Forall_forall.
  intros [k v] Hkv%elem_of_map_to_list. by apply Hf.
Qed.

Lemma entry_sum_delete_le m k :
  (forall k v, m !! k = Some v -> 0 <= f k v) -> entry_sum (delete k m) <= entry_sum m.
Proof.
  intros Hf. destruct (m !! k) as [v|] eqn:E.
  - rewrite (entry_sum_delete m k v E). specialize (Hf k v E). lia.
  - by rewrite delete_id.
Qed.
End entry_sums.

Lemma entry_sum_le {K V} `{Countable K} (f g : K -> V -> Z) (m : gmap K V) :
  (forall k v, m !! k = Some v -> f k v <= g k v) -> entry_sum f m <= entry_sum g m.
Proof.
  intros Hfg. unfold entry_sum. apply sum_Z_le. intros [k v] Hkv%elem_of_map_to_list. by apply Hfg.
Qed.

Lemma sum_Z_concat (l : list (list Z)) : sum_Z (concat l) = sum_Z (map sum_Z l).
Proof. induction l as [|x l IH]; [done|]. cbn. by rewrite sum_Z_app, IH. Qed.

(** A set in ascending order ([BTreeSet::iter]). *)
Definition bset_iter {A} `{Countable A, Ord A} (X : gset A) : list A := sort (elements X).

(** ** Canonical iteration orders are fixed points of sorting *)

Section iteration.
Context {K : Type} `{Countable K, OrdLaws K}.

Lemma key_sorted_strict {A} (f : A -> K) (l : list A) :
  StronglySorted (fun x y => ole (f x) (f y)) l -> NoDup (map f l) ->
  StronglySorted (fun x y => cmp (f x) (f y) = Lt) l.
Proof.
  induction 1 as [|x l Hs IH Hx]; intros Hnd; [constructor|].
  apply list.NoDup_cons in Hnd as [Hnx Hnd]. constructor; [by apply IH|].
  rewrite list.Forall_forall in Hx |- *. intros y Hy.
  destruct (cmp (f x) (f y)) eqn:E; [|done|by destruct (Hx y Hy)].
  apply cmp_eq in E. destruct Hnx. rewrite E. apply list_elem_of_fmap. by exists y.
Qed.

Lemma btree_iter_strict {V} (m : gmap K V) :
  StronglySorted (fun x y => cmp (fst x) (fst y) = Lt) (btree_iter m).
Proof.
  apply (key_sorted_strict fst); [apply (sort_by_key_strongly_sorted fst)|apply NoDup_btree_keys].
Qed.

Lemma StronglySorted_weaken {A} (R S : A -> A -> Prop) l :
  (forall x y, R x y -> S x y) -> StronglySorted R l -> StronglySorted S l.
Proof.
  intros HRS; induction 1 as [|x l Hs IH Hx]; constructor; [done|]. revert Hx. apply Forall_impl. auto.
Qed.

Lemma sort_id {A} `{OrdLaws A} (l : list A) : StronglySorted (fun x y => cmp x y = Lt) l -> sort l = l.
Proof.
  intros Hl. apply sort_by_id. apply StronglySorted_Sorted. revert Hl. apply StronglySorted_weaken.
  intros x y E. unfold le_on. cbn. by rewrite E.
Qed.

Lemma sort_btree_iter {V} `{OrdLaws V} (m : gmap K V) : sort (btree_iter m) = btree_iter m.
Proof.
  apply sort_id. eapply StronglySorted_weaken; [|apply btree_iter_strict].
  intros x y E. unfold cmp at 1, Ord_pair. by rewrite E.
Qed.

Lemma dedup_ascending_id (l : list K) : ascending l -> dedup l = l.
Proof.
  induction 1 as [|x l Hs IH Hx]; [done|]. cbn. destruct l as [|y l]; [done|].
  rewrite decide_False; [by rewrite IH|]. intros ->. apply Forall_cons_iff in Hx as [Hx _].
  by rewrite cmp_refl in Hx.
Qed.

Lemma bset_iter_ascending (X : gset K) : ascending (bset_iter X).
Proof.
  apply sorted_NoDup_ascending; [apply sort_sorted|]. unfold bset_iter. rewrite sort_perm. apply NoDup_elements.
Qed.

Lemma bset_iter_canonical (X : gset K) : dedup (sort (bset_iter X)) = bset_iter X.
Proof.
  rewrite sort_id by apply bset_iter_ascending. apply dedup_ascending_id, bset_iter_ascending.
Qed.
End iteration.
