(* ===== verification/Gf.v ===== *)
(** GF(2⁸) arithmetic: the log/exp tables of [crates/erasure/src/gf.rs] built
    by its loops, the table-driven operations, and the field laws.

    The laws come from the two facts the tables encode: [EXP] lists the powers
    of the generator 2 (each entry is the [xtime] of the one before) and [LOG]
    inverts it.  Multiplication by [EXP k] is therefore [k] applications of
    [xtime], which is linear for xor, so distributivity needs no enumeration
    of the field. *)

From S2P Require Import Prelude.

Open Scope Z_scope.

Definition POLY : Z := 0x11D.

(** One round of the table loop: [x <<= 1; if x & 0x100 != 0 { x ^= POLY }].
    [x] is a u16 below 0x100, so the shift stays in range. *)
Definition xtime (x : Z) : Z :=
  let x' := Z.shiftl x 1 in
  if Z.land x' 0x100 =? 0 then x' else Z.lxor x' POLY.

(** [while i < 255]: [exp[i] = x; log[x] = i; ...; i += 1]. *)
Fixpoint tables_loop (n i : nat) (x : Z) (exp log : bytes) : bytes * bytes :=
  match n with
  | O => (exp, log)
  | S n' =>
      tables_loop n' (S i) (xtime x)
        (<[i := as_u8 x]> exp) (<[Z.to_nat x := as_u8 (Z.of_nat i)]> log)
  end.

(** [while j < 512 { exp[j] = exp[j - 255] }]. *)
Fixpoint dup_loop (n j : nat) (exp : bytes) : bytes :=
  match n with
  | O => exp
  | S n' => dup_loop n' (S j) (<[j := nth (j - 255) exp 0]> exp)
  end.

Definition TABLES : bytes * bytes :=
  let '(exp, log) := tables_loop 255 0 1 (replicate 512 0) (replicate 256 0) in
  (dup_loop 257 255 exp, log).

Definition EXP : bytes := Eval vm_compute in fst TABLES.
Definition LOG : bytes := Eval vm_compute in snd TABLES.

(** Table reads; the indices are in range (below). *)
Definition exp_at (i : Z) : Z := nth (Z.to_nat i) EXP 0.
Definition log_at (x : Z) : Z := nth (Z.to_nat x) LOG 0.

Definition add (a b : Z) : Z := Z.lxor a b.

Definition mul (a b : Z) : Z :=
  if (a =? 0) || (b =? 0) then 0 else exp_at (log_at a + log_at b).

(** [None] is the [assert!] panic on 0. *)
Definition inv (a : Z) : option Z :=
  if a =? 0 then None else Some (exp_at (255 - log_at a)).

(** [while x < 256 { table[x] = EXP[log_c + LOG[x]] }] from [x = 1]. *)
Fixpoint mul_table_loop (n x : nat) (log_c : Z) (table : bytes) : bytes :=
  match n with
  | O => table
  | S n' => mul_table_loop n' (S x) log_c (<[x := exp_at (log_c + log_at (Z.of_nat x))]> table)
  end.

Definition mul_table (c : Z) : bytes :=
  if c =? 0 then replicate 256 0
  else mul_table_loop 255 1 (log_at c) (replicate 256 0).

Definition table_at (t : bytes) (x : Z) : Z := nth (Z.to_nat x) t 0.

(** [for (d, s) in dst.iter_mut().zip(src) { *d = f d s }]: the loop stops at
    the shorter of the two and leaves the rest of [dst] as it was. *)
Fixpoint zip_update (f : Z -> Z -> Z) (dst src : bytes) : bytes :=
  match dst, src with
  | d :: dst', s :: src' => f d s :: zip_update f dst' src'
  | _, _ => dst
  end.

Definition axpy (dst src : bytes) (c : Z) : bytes :=
  if c =? 0 then dst
  else if c =? 1 then zip_update (fun d s => Z.lxor d s) dst src
  else let table := mul_table c in
       zip_update (fun d s => Z.lxor d (table_at table s)) dst src.

Definition scale (dst : bytes) (c : Z) : bytes :=
  if c =? 1 then dst
  else let table := mul_table c in map (fun d => table_at table d) dst.

(** [acc ^= mul(x, y)] over the zipped slices. *)
Fixpoint dot_loop (a b : bytes) (acc : Z) : Z :=
  match a, b with
  | x :: a', y :: b' => dot_loop a' b' (Z.lxor acc (mul x y))
  | _, _ => acc
  end.

Definition dot (a b : bytes) : Z := dot_loop a b 0.

(** ** The tables *)

Lemma EXP_eq : EXP = fst TABLES.
Proof. vm_compute. reflexivity. Qed.

Lemma LOG_eq : LOG = snd TABLES.
Proof. vm_compute. reflexivity. Qed.

Lemma Forall_range_dec (P : Z -> bool) (lo n : nat) :
  forallb P (map Z.of_nat (seq lo n)) = true ->
  forall z, Z.of_nat lo <= z < Z.of_nat (lo + n) -> P z = true.
Proof.
  rewrite forallb_forall. intros HP z Hz. apply HP, in_map_iff.
  exists (Z.to_nat z). split; [lia|]. apply in_seq. lia.
Qed.

(** A finite check over [lo, lo+n) by evaluation. *)
Ltac by_range P lo n := apply (Forall_range_dec P lo n); [vm_compute; reflexivity | lia].

Lemma log_exp i : 0 <= i < 255 -> log_at (exp_at i) = i.
Proof. intros. apply Z.eqb_eq. by_range (fun i => log_at (exp_at i) =? i) 0%nat 255%nat. Qed.

Lemma exp_log a : 0 < a < 256 -> exp_at (log_at a) = a.
Proof. intros. apply Z.eqb_eq. by_range (fun a => exp_at (log_at a) =? a) 1%nat 255%nat. Qed.

Lemma log_range a : 0 < a < 256 -> 0 <= log_at a < 255.
Proof.
  intros. enough ((0 <=? log_at a) && (log_at a <? 255) = true) by lia.
  by_range (fun a => (0 <=? log_at a) && (log_at a <? 255)) 1%nat 255%nat.
Qed.

Lemma exp_range i : 0 <= i < 512 -> 0 < exp_at i < 256.
Proof.
  intros. enough ((0 <? exp_at i) && (exp_at i <? 256) = true) by lia.
  by_range (fun i => (0 <? exp_at i) && (exp_at i <? 256)) 0%nat 512%nat.
Qed.

(** The duplicated half: no [mod 255] is ever needed by [mul]. *)
Lemma exp_mod i : 0 <= i < 512 -> exp_at i = exp_at (i mod 255).
Proof.
  intros. apply Z.eqb_eq. by_range (fun i => exp_at i =? exp_at (i mod 255)) 0%nat 512%nat.
Qed.

Lemma exp_succ i : 0 <= i < 511 -> exp_at (i + 1) = xtime (exp_at i).
Proof.
  intros. apply Z.eqb_eq. by_range (fun i => exp_at (i + 1) =? xtime (exp_at i)) 0%nat 511%nat.
Qed.

Lemma exp_log_add a i :
  0 < a < 256 -> 0 <= i < 255 -> exp_at (log_at a + i) = exp_at ((log_at a + i) mod 255).
Proof. intros Ha Hi. pose proof (log_range a Ha). apply exp_mod. lia. Qed.

Lemma log_mul_exp i j :
  0 <= i < 255 -> 0 <= j < 255 -> log_at (exp_at (i + j)) = (i + j) mod 255.
Proof.
  intros. rewrite exp_mod by lia. apply log_exp. apply Z.mod_pos_bound. lia.
Qed.

(** ** Field laws of [mul] *)

Lemma mul_0_l a : mul 0 a = 0.
Proof. reflexivity. Qed.

Lemma mul_0_r a : mul a 0 = 0.
Proof. unfold mul. by rewrite orb_true_r. Qed.

Lemma mul_nz a b : a <> 0 -> b <> 0 -> mul a b = exp_at (log_at a + log_at b).
Proof.
  intros. unfold mul. destruct (Z.eqb_spec a 0), (Z.eqb_spec b 0); try lia. done.
Qed.

Lemma mul_comm a b : mul a b = mul b a.
Proof. unfold mul. rewrite orb_comm, Z.add_comm. done. Qed.

Lemma mul_pos a b : 0 < a < 256 -> 0 < b < 256 -> 0 < mul a b < 256.
Proof.
  intros Ha Hb. rewrite mul_nz by lia. apply exp_range.
  pose proof (log_range a Ha); pose proof (log_range b Hb). lia.
Qed.

Lemma u8_zero_or_pos a : is_u8 a -> a = 0 \/ 0 < a < 256.
Proof. unfold_int. lia. Qed.

Lemma mul_u8 a b : is_u8 a -> is_u8 b -> is_u8 (mul a b).
Proof.
  intros [->|Ha]%u8_zero_or_pos [->|Hb]%u8_zero_or_pos; rewrite ?mul_0_l, ?mul_0_r;
    try (unfold_int; lia).
  pose proof (mul_pos a b Ha Hb). unfold_int; lia.
Qed.

Lemma mul_1_l a : is_u8 a -> mul 1 a = a.
Proof.
  intros [->|Ha]%u8_zero_or_pos; [done|]. rewrite mul_nz by lia.
  change (log_at 1) with 0. rewrite Z.add_0_l. by apply exp_log.
Qed.

Lemma mul_assoc a b c : is_u8 a -> is_u8 b -> is_u8 c -> mul a (mul b c) = mul (mul a b) c.
Proof.
  intros [->|Ha]%u8_zero_or_pos [->|Hb]%u8_zero_or_pos [->|Hc]%u8_zero_or_pos;
    rewrite ?mul_0_l, ?mul_0_r, ?mul_0_l; try done.
  pose proof (mul_pos b c Hb Hc). pose proof (mul_pos a b Ha Hb).
  pose proof (log_range a Ha). pose proof (log_range b Hb). pose proof (log_range c Hc).
  rewrite (mul_nz a (mul b c)), (mul_nz (mul a b) c) by lia.
  rewrite (mul_nz b c), (mul_nz a b) by lia.
  rewrite !log_mul_exp by lia.
  rewrite (exp_mod (_ + _ mod _)), (exp_mod (_ mod _ + _))
    by (pose proof (Z.mod_pos_bound (log_at b + log_at c) 255);
        pose proof (Z.mod_pos_bound (log_at a + log_at b) 255); lia).
  f_equal. rewrite Zplus_mod_idemp_r, Zplus_mod_idemp_l. f_equal. lia.
Qed.

Lemma inv_spec a i : is_u8 a -> inv a = Some i -> is_u8 i /\ i <> 0 /\ mul a i = 1.
Proof.
  intros [->|Ha]%u8_zero_or_pos; [done|]. unfold inv.
  destruct (Z.eqb_spec a 0); [lia|]. intros [= <-].
  pose proof (log_range a Ha) as Hl. pose proof (exp_range (255 - log_at a) ltac:(lia)) as He.
  split; [unfold_int; lia|]. split; [lia|].
  rewrite mul_nz by lia. destruct (decide (log_at a = 0)) as [E|E].
  - rewrite E. reflexivity.
  - rewrite log_exp by lia. replace (log_at a + (255 - log_at a)) with 255 by lia. reflexivity.
Qed.

Lemma inv_total a : is_u8 a -> a <> 0 -> is_Some (inv a).
Proof. intros. unfold inv. destruct (Z.eqb_spec a 0); [done|eauto]. Qed.

(** ** Distributivity

    [mul (EXP k)] is [k] rounds of the generator's doubling, and doubling is
    linear for xor. *)

Lemma land_bit8 y : (Z.land y 0x100 =? 0) = negb (Z.testbit y 8).
Proof.
  assert (Z.land y 0x100 = if Z.testbit y 8 then 0x100 else 0) as ->.
  { apply Z.bits_inj'. intros n Hn. rewrite Z.land_spec.
    change 0x100 with (2 ^ 8). rewrite Z.pow2_bits_eqb by lia.
    destruct (Z.eqb_spec 8 n) as [<-|Hne].
    - destruct (Z.testbit y 8); [by rewrite Z.pow2_bits_true|by rewrite Z.testbit_0_l].
    - rewrite andb_false_r. destruct (Z.testbit y 8);
        [by rewrite Z.pow2_bits_false by lia|by rewrite Z.testbit_0_l]. }
  by destruct (Z.testbit y 8).
Qed.

Lemma xtime_spec x :
  xtime x = Z.lxor (Z.shiftl x 1) (if Z.testbit x 7 then POLY else 0).
Proof.
  unfold xtime. rewrite land_bit8, Z.shiftl_spec by lia.
  change (8 - 1) with 7. destruct (Z.testbit x 7); cbn [negb]; [done|].
  by rewrite Z.lxor_0_r.
Qed.

Lemma lxor_swap4 a b c d :
  Z.lxor (Z.lxor a b) (Z.lxor c d) = Z.lxor (Z.lxor a c) (Z.lxor b d).
Proof.
  rewrite !Z.lxor_assoc. f_equal. rewrite <-!Z.lxor_assoc. f_equal. apply Z.lxor_comm.
Qed.

Lemma xtime_lxor a b : xtime (Z.lxor a b) = Z.lxor (xtime a) (xtime b).
Proof.
  rewrite !xtime_spec, Z.shiftl_lxor, Z.lxor_spec, lxor_swap4. f_equal.
  by destruct (Z.testbit a 7), (Z.testbit b 7).
Qed.

(** [k] rounds of doubling. *)
Fixpoint xtimes (k : nat) (x : Z) : Z :=
  match k with O => x | S k' => xtime (xtimes k' x) end.

Lemma xtime_iter_lxor k a b :
  xtimes k (Z.lxor a b) = Z.lxor (xtimes k a) (xtimes k b).
Proof. induction k as [|k IH]; cbn; [done|]. by rewrite IH, xtime_lxor. Qed.

Lemma xtime_iter_0 k : xtimes k 0 = 0.
Proof. induction k as [|k IH]; cbn; [done|]. by rewrite IH. Qed.

Lemma mul_exp_iter k x :
  (k < 255)%nat -> is_u8 x -> mul (exp_at (Z.of_nat k)) x = xtimes k x.
Proof.
  intros Hk [->|Hx]%u8_zero_or_pos; [by rewrite mul_0_r, xtime_iter_0|].
  pose proof (log_range x Hx).
  induction k as [|k IH].
  - change (exp_at (Z.of_nat 0)) with 1. cbn. apply mul_1_l. unfold_int; lia.
  - cbn [xtimes]. rewrite <-IH by lia.
    pose proof (exp_range (Z.of_nat (S k)) ltac:(lia)).
    pose proof (exp_range (Z.of_nat k) ltac:(lia)).
    rewrite !mul_nz by lia. rewrite !log_exp by lia.
    rewrite <-exp_succ by lia. f_equal. lia.
Qed.

Lemma mul_lxor_r c a b :
  is_u8 c -> is_u8 a -> is_u8 b -> mul c (Z.lxor a b) = Z.lxor (mul c a) (mul c b).
Proof.
  intros [->|Hc]%u8_zero_or_pos Ha Hb; [done|].
  pose proof (log_range c Hc).
  rewrite <-(exp_log c Hc). replace (log_at c) with (Z.of_nat (Z.to_nat (log_at c))) by lia.
  rewrite !mul_exp_iter by (auto using lxor_u8; lia).
  apply xtime_iter_lxor.
Qed.

Lemma mul_lxor_l a b c :
  is_u8 a -> is_u8 b -> is_u8 c -> mul (Z.lxor a b) c = Z.lxor (mul a c) (mul b c).
Proof. intros. by rewrite (mul_comm (Z.lxor a b)), (mul_comm a), (mul_comm b), mul_lxor_r. Qed.

Lemma mul_eq_0 a b : is_u8 a -> is_u8 b -> mul a b = 0 -> a = 0 \/ b = 0.
Proof.
  intros [->|Ha]%u8_zero_or_pos [->|Hb]%u8_zero_or_pos E; auto.
  pose proof (mul_pos a b Ha Hb). lia.
Qed.

(** ** The multiplication table *)

Lemma mul_table_loop_length n x lc t : length (mul_table_loop n x lc t) = length t.
Proof. revert x t; induction n as [|n IH]; intros; cbn; [done|]. by rewrite IH, length_insert. Qed.

Lemma mul_table_loop_lookup n x lc t j :
  (x + n <= length t)%nat ->
  nth j (mul_table_loop n x lc t) 0 =
  if decide (x <= j < x + n)%nat then exp_at (lc + log_at (Z.of_nat j)) else nth j t 0.
Proof.
  revert x t; induction n as [|n IH]; intros x t Hl; cbn; [by case_decide; [lia|]|].
  rewrite IH by (rewrite length_insert; lia).
  destruct (decide (S x <= j < S x + n)%nat), (decide (x <= j < x + S n)%nat); try lia; try done.
  - assert (j = x) as -> by lia.
    rewrite !nth_lookup, list_lookup_insert_eq by lia. done.
  - rewrite !nth_lookup, list_lookup_insert_ne by lia. done.
Qed.

(** The per-coefficient table is the multiplication by that coefficient. *)
Lemma mul_table_spec c x : is_u8 c -> is_u8 x -> table_at (mul_table c) x = mul c x.
Proof.
  intros Hc Hx. unfold table_at, mul_table.
  assert (forall j, nth j (replicate 256 0) 0 = 0) as Hrep.
  { intros j. rewrite nth_lookup. destruct (replicate 256 0 !! j) eqn:E; [|done].
    apply lookup_replicate in E as [-> _]. done. }
  destruct (Z.eqb_spec c 0) as [->|Hc0]; [by rewrite Hrep|].
  rewrite mul_table_loop_lookup by (rewrite length_replicate; lia).
  apply u8_zero_or_pos in Hx as [->|Hx].
  - rewrite Hrep, mul_0_r. by case_decide; [lia|].
  - rewrite decide_True by lia. rewrite mul_nz by lia. by rewrite Z2Nat.id by lia.
Qed.

(** ** The bulk operations, as the vector operations they implement *)

(** Scalar multiple and sum of byte vectors. *)
Definition vscale (c : Z) (v : bytes) : bytes := map (mul c) v.
Definition vadd (v w : bytes) : bytes := zip_with Z.lxor v w.

Lemma zip_update_zip_with f d s :
  length d = length s -> zip_update f d s = zip_with f d s.
Proof. revert s; induction d; destruct s; cbn; intros; try done. f_equal; auto. Qed.

Lemma vscale_0 v : vscale 0 v = replicate (length v) 0.
Proof. induction v; cbn; f_equal; auto. Qed.

Lemma vscale_1 v : is_bytes v -> vscale 1 v = v.
Proof. induction 1; cbn; f_equal; auto using mul_1_l. Qed.

Lemma vadd_zero_r v n : length v = n -> vadd v (replicate n 0) = v.
Proof. intros <-. induction v; cbn; f_equal; auto using Z.lxor_0_r. Qed.

(** [axpy] is [dst + c * src] on every branch: the two fast paths and the
    table path agree. *)
Lemma axpy_spec d s c :
  is_u8 c -> is_bytes s -> length d = length s -> axpy d s c = vadd d (vscale c s).
Proof.
  intros Hc Hs Hl. unfold axpy.
  destruct (Z.eqb_spec c 0) as [->|]; [by rewrite vscale_0, vadd_zero_r|].
  destruct (Z.eqb_spec c 1) as [->|].
  - by rewrite zip_update_zip_with, vscale_1.
  - rewrite zip_update_zip_with by done. unfold vadd, vscale. rewrite zip_with_fmap_r.
    clear Hl. revert d. induction Hs as [|x s Hx Hs IH]; intros [|y d]; cbn; try done.
    by rewrite mul_table_spec, IH.
Qed.

Lemma scale_spec d c : is_u8 c -> is_bytes d -> scale d c = vscale c d.
Proof.
  intros Hc Hd. unfold scale. destruct (Z.eqb_spec c 1) as [->|]; [by rewrite vscale_1|].
  unfold vscale. induction Hd; cbn; [done|]. f_equal; auto using mul_table_spec.
Qed.

(** ** The reference multiplication

    Polynomial multiplication modulo [POLY], bit by bit: the sum of [a * x^i]
    over the bits [i] set in [b]. *)

Definition bit_terms {A} (f : nat -> A) (z : A) (b : Z) : list A :=
  map (fun i => if Z.testbit b (Z.of_nat i) then f i else z) (seq 0 8).

Definition poly_mul (a b : Z) : Z := foldr Z.lxor 0 (bit_terms (fun i => xtimes i a) 0 b).

(** A byte is the sum of its bits. *)
Lemma byte_bits b : is_u8 b -> foldr Z.lxor 0 (bit_terms (fun i => exp_at (Z.of_nat i)) 0 b) = b.
Proof.
  intros Hb.
  assert (forallb (fun n => foldr Z.lxor 0 (bit_terms (fun i => exp_at (Z.of_nat i)) 0 (Z.of_nat n)) =? Z.of_nat n)
    (seq 0 256) = true) as Hall by (vm_compute; reflexivity).
  rewrite forallb_forall in Hall. specialize (Hall (Z.to_nat b)). rewrite Z2Nat.id in Hall by (unfold_int; lia).
  apply Z.eqb_eq, Hall, in_seq. unfold_int; lia.
Qed.

Lemma exp_at_u8 i : (i < 255)%nat -> is_u8 (exp_at (Z.of_nat i)).
Proof. intros Hi. pose proof (exp_range (Z.of_nat i) ltac:(lia)). unfold_int; lia. Qed.

Lemma mul_sum_l (l : list Z) a :
  is_bytes l -> is_u8 a -> is_u8 (foldr Z.lxor 0 l) /\
  mul (foldr Z.lxor 0 l) a = foldr Z.lxor 0 (map (fun x => mul x a) l).
Proof.
  intros Hl Ha. induction Hl as [|x l Hx Hl [IHr IH]]; cbn; [split; [unfold_int; lia|done]|].
  split; [by apply lxor_u8|]. by rewrite mul_lxor_l, IH.
Qed.

Lemma mul_poly a b : is_u8 a -> is_u8 b -> mul a b = poly_mul a b.
Proof.
  intros Ha Hb. rewrite mul_comm. rewrite <-(byte_bits b Hb) at 1.
  assert (is_bytes (bit_terms (fun i => exp_at (Z.of_nat i)) 0 b)) as Hl.
  { apply Forall_map, list.Forall_forall. intros i Hi%elem_of_seq.
    destruct (Z.testbit b (Z.of_nat i)); [apply exp_at_u8; lia|unfold_int; lia]. }
  rewrite (proj2 (mul_sum_l _ a Hl Ha)). unfold poly_mul, bit_terms. f_equal. rewrite map_map.
  apply map_ext_in. intros i Hi%in_seq. destruct (Z.testbit b (Z.of_nat i)); [|apply mul_0_l].
  apply mul_exp_iter; [lia|done].
Qed.

(** The table-driven arithmetic is GF(2^8).  On bytes, [mul] through the
    log/exp tables is polynomial multiplication modulo 0x11D computed bit by
    bit; with xor as addition it is a field: commutative, associative,
    distributive, with unit 1, no zero divisors, and [inv] a true inverse of
    every non-zero byte; and the slice routines [axpy] and [scale], with all
    their fast paths, are element-wise [d + c * s] and [c * d]. *)
Theorem gf_tables_compute_field (a b c : Z) (d s : bytes) :
  is_u8 a -> is_u8 b -> is_u8 c -> is_bytes d -> is_bytes s -> length d = length s ->
  mul a b = poly_mul a b /\ is_u8 (mul a b) /\ mul a b = mul b a /\ mul a (mul b c) = mul (mul a b) c /\
  mul a (add b c) = add (mul a b) (mul a c) /\ mul 1 a = a /\
  (mul a b = 0 -> a = 0 \/ b = 0) /\
  (a <> 0 -> exists i, inv a = Some i /\ is_u8 i /\ mul a i = 1) /\
  axpy d s c = zip_with (fun x y => add x (mul c y)) d s /\ scale d c = map (mul c) d.
Proof.
  intros Ha Hb Hc Hd Hs Hl. split_and!.
  - by apply mul_poly.
  - by apply mul_u8.
  - apply mul_comm.
  - by apply mul_assoc.
  - by apply mul_lxor_r.
  - by apply mul_1_l.
  - by apply mul_eq_0.
  - intros Hnz. destruct (inv_total a Ha Hnz) as [i Hi]. exists i. split; [done|].
    by destruct (inv_spec a i Ha Hi) as (? & _ & ?).
  - rewrite axpy_spec by done. unfold vadd, vscale. clear Hd Hs. revert s Hl.
    induction d; destruct s; cbn; intros; try done. f_equal; auto.
  - by apply scale_spec.
Qed.

Lemma gf_tables_compute_field_witness : mul 0x53 0xCA = poly_mul 0x53 0xCA.
Proof.
  apply (gf_tables_compute_field 0x53 0xCA 1 [] []); try (unfold_int; lia); try constructor.
Defined.
