(* ===== verification/Linear.v ===== *)
(** Linear algebra over GF(2⁸) on byte vectors: the laws of [vadd]/[vscale],
    the combination of source rows by a coding vector, and the bilinear dot
    product.  Shared by the erasure coder and the verification tags. *)

From S2P Require Import Prelude Gf.

Open Scope Z_scope.

(** A vector of [n] bytes. *)
Definition is_vec (n : nat) (v : bytes) : Prop := length v = n /\ is_bytes v.

Definition zeros (n : nat) : bytes := replicate n 0.

(** Entry [i]; the callers keep [i] in range. *)
Definition at_ (v : bytes) (i : nat) : Z := nth i v 0.

Lemma is_u8_0 : is_u8 0.
Proof. unfold_int; lia. Qed.
#[export] Hint Resolve is_u8_0 mul_u8 lxor_u8 : zeph.

Lemma zeros_vec n : is_vec n (zeros n).
Proof.
  split; [apply length_replicate|]. apply Forall_replicate. apply is_u8_0.
Qed.

Lemma vadd_length v w : length v = length w -> length (vadd v w) = length v.
Proof. intros E. unfold vadd. rewrite length_zip_with. lia. Qed.

Lemma vscale_length c v : length (vscale c v) = length v.
Proof. apply length_map. Qed.

Lemma vadd_bytes v w : is_bytes v -> is_bytes w -> is_bytes (vadd v w).
Proof.
  intros Hv; revert w; induction Hv; intros [|y w] Hw; cbn; try constructor;
    inversion_clear Hw; auto with zeph.
  apply IHHv; auto.
Qed.

Lemma vscale_bytes c v : is_u8 c -> is_bytes v -> is_bytes (vscale c v).
Proof. intros Hc. induction 1; cbn; constructor; auto with zeph. Qed.

Lemma vadd_vec n v w : is_vec n v -> is_vec n w -> is_vec n (vadd v w).
Proof.
  intros [Hl Hv] [Hl' Hw]. split; [|by apply vadd_bytes]. rewrite vadd_length; congruence.
Qed.

Lemma vscale_vec n c v : is_u8 c -> is_vec n v -> is_vec n (vscale c v).
Proof. intros Hc [Hl Hv]. split; [by rewrite vscale_length|by apply vscale_bytes]. Qed.

#[export] Hint Resolve zeros_vec vadd_vec vscale_vec : zeph.

Lemma vec_nil v : is_vec 0 v -> v = [].
Proof. intros [Hl _]. by destruct v. Qed.

Lemma vec_cons n v : is_vec (S n) v -> exists c v', v = c :: v' /\ is_u8 c /\ is_vec n v'.
Proof.
  intros [Hl Hv]. destruct v as [|c v]; [done|]. inversion_clear Hv.
  exists c, v. split_and!; auto. split; [by injection Hl|done].
Qed.

Lemma is_vec_cons n c v : is_vec (S n) (c :: v) <-> is_u8 c /\ is_vec n v.
Proof.
  unfold is_vec, is_bytes. rewrite Forall_cons_iff. cbn. split; intros; intuition lia.
Qed.

Lemma at_u8 n v i : is_vec n v -> is_u8 (at_ v i).
Proof.
  intros [_ Hv]. unfold at_. rewrite nth_lookup. destruct (v !! i) eqn:E; cbn; [|apply is_u8_0].
  by eapply Forall_lookup_1.
Qed.
#[export] Hint Resolve at_u8 : zeph.

Lemma at_vadd v w i : length v = length w -> at_ (vadd v w) i = Z.lxor (at_ v i) (at_ w i).
Proof.
  unfold at_, vadd. revert w i. induction v; intros [|y w] [|i] Hl; cbn in *; try done. auto.
Qed.

Lemma at_vscale c v i : at_ (vscale c v) i = mul c (at_ v i).
Proof.
  unfold at_, vscale. revert i. induction v as [|x v IH]; intros [|i]; cbn;
    rewrite ?mul_0_r; auto.
Qed.

Lemma at_zeros n i : at_ (zeros n) i = 0.
Proof.
  unfold at_, zeros. revert i. induction n as [|n IH]; intros [|i]; cbn; auto.
Qed.

Lemma vec_ext n v w :
  is_vec n v -> is_vec n w -> (forall i, (i < n)%nat -> at_ v i = at_ w i) -> v = w.
Proof.
  revert v w; induction n as [|n IH]; intros v w Hv Hw Hat.
  - by rewrite (vec_nil _ Hv), (vec_nil _ Hw).
  - apply vec_cons in Hv as (c & v' & -> & _ & Hv), Hw as (d & w' & -> & _ & Hw).
    f_equal; [by apply (Hat 0%nat); lia|].
    apply IH; auto. intros i Hi. apply (Hat (S i)). lia.
Qed.

Lemma vadd_comm v w : vadd v w = vadd w v.
Proof.
  unfold vadd. revert w. induction v; intros [|y w]; cbn; f_equal; auto using Z.lxor_comm.
Qed.

Lemma vadd_assoc u v w : vadd u (vadd v w) = vadd (vadd u v) w.
Proof.
  unfold vadd. revert v w. induction u; intros [|y v] [|z w]; cbn; f_equal; auto.
  symmetry; apply Z.lxor_assoc.
Qed.

Lemma vadd_swap4 a b c d : vadd (vadd a b) (vadd c d) = vadd (vadd a c) (vadd b d).
Proof.
  rewrite <-!vadd_assoc. f_equal. rewrite !vadd_assoc. f_equal. apply vadd_comm.
Qed.

Lemma vadd_self v : vadd v v = zeros (length v).
Proof. unfold vadd, zeros. induction v; cbn; f_equal; auto using Z.lxor_nilpotent. Qed.

Lemma vadd_zeros_r n v : length v = n -> vadd v (zeros n) = v.
Proof. apply vadd_zero_r. Qed.

Lemma vadd_zeros_l n v : length v = n -> vadd (zeros n) v = v.
Proof. rewrite vadd_comm. apply vadd_zero_r. Qed.

Lemma vadd_cancel n v w : is_vec n v -> is_vec n w -> vadd (vadd v w) w = v.
Proof.
  intros [Hv _] [Hw _]. rewrite <-vadd_assoc, vadd_self, vadd_zeros_r; auto. congruence.
Qed.

Lemma vscale_vadd c v w :
  is_u8 c -> is_bytes v -> is_bytes w -> vscale c (vadd v w) = vadd (vscale c v) (vscale c w).
Proof.
  intros Hc Hv. revert w. induction Hv; intros [|y w] Hw; cbn; try done.
  inversion_clear Hw. f_equal; [by apply mul_lxor_r|]. by apply IHHv.
Qed.

Lemma vscale_lxor c d v :
  is_u8 c -> is_u8 d -> is_bytes v -> vscale (Z.lxor c d) v = vadd (vscale c v) (vscale d v).
Proof. intros Hc Hd. induction 1; cbn; f_equal; auto using mul_lxor_l. Qed.

Lemma vscale_mul c d v :
  is_u8 c -> is_u8 d -> is_bytes v -> vscale (mul c d) v = vscale c (vscale d v).
Proof. intros Hc Hd. induction 1; cbn; f_equal; auto. by rewrite mul_assoc. Qed.

Lemma vscale_zeros c n : vscale c (zeros n) = zeros n.
Proof. unfold vscale, zeros. induction n; cbn; f_equal; auto using mul_0_r. Qed.

Lemma vscale_cons c x v : vscale c (x :: v) = mul c x :: vscale c v.
Proof. reflexivity. Qed.

Lemma vadd_cons x v y w : vadd (x :: v) (y :: w) = Z.lxor x y :: vadd v w.
Proof. reflexivity. Qed.

Lemma vscale_zero v : vscale 0 v = zeros (length v).
Proof. apply vscale_0. Qed.

Lemma zeros_S n : zeros (S n) = 0 :: zeros n.
Proof. reflexivity. Qed.

#[global] Arguments vscale : simpl never.
#[global] Arguments vadd : simpl never.
#[global] Arguments zeros : simpl never.

(** ** Combining rows by a coding vector *)

(** [comb len S v] = the sum of [v_i * S_i], vectors of length [len]. *)
Fixpoint comb (len : nat) (S : list bytes) (v : bytes) : bytes :=
  match S, v with
  | s :: S', c :: v' => vadd (vscale c s) (comb len S' v')
  | _, _ => zeros len
  end.

(** Sources of one generation: [k] rows of [len] bytes. *)
Definition is_rows (k len : nat) (S : list bytes) : Prop :=
  length S = k /\ Forall (is_vec len) S.

Lemma is_rows_cons k len s S :
  is_rows (Datatypes.S k) len (s :: S) <-> is_vec len s /\ is_rows k len S.
Proof. unfold is_rows. rewrite Forall_cons_iff. cbn. split; intros; intuition lia. Qed.

Lemma comb_vec k len S v : is_rows k len S -> is_bytes v -> is_vec len (comb len S v).
Proof.
  revert k v; induction S as [|s S IH]; intros k v HS Hv; cbn; [auto with zeph|].
  destruct v as [|c v]; [auto with zeph|].
  destruct k as [|k]; [by destruct HS|]. apply is_rows_cons in HS as [Hs HS].
  inversion_clear Hv. eauto with zeph.
Qed.
#[export] Hint Resolve comb_vec : zeph.

(** The combination is linear in the coding vector. *)
Lemma comb_vadd k len S v w :
  is_rows k len S -> is_vec k v -> is_vec k w ->
  comb len S (vadd v w) = vadd (comb len S v) (comb len S w).
Proof.
  revert k v w; induction S as [|s S IH]; intros k v w HS Hv Hw.
  - cbn [comb]. rewrite vadd_zeros_r; [done|apply zeros_vec].
  - destruct k as [|k]; [by destruct HS|]. apply is_rows_cons in HS as [Hs HS].
    apply vec_cons in Hv as (c & v' & -> & Hc & Hv), Hw as (d & w' & -> & Hd & Hw).
    rewrite vadd_cons. cbn [comb].
    rewrite vscale_lxor by (auto; apply Hs). rewrite vadd_swap4. f_equal.
    by apply (IH k).
Qed.

Lemma comb_vscale k len S c v :
  is_rows k len S -> is_u8 c -> is_vec k v -> comb len S (vscale c v) = vscale c (comb len S v).
Proof.
  revert k v; induction S as [|s S IH]; intros k v HS Hc Hv.
  - cbn [comb]. by rewrite vscale_zeros.
  - destruct k as [|k]; [by destruct HS|]. apply is_rows_cons in HS as [Hs HS].
    apply vec_cons in Hv as (d & v' & -> & Hd & Hv).
    rewrite vscale_cons. cbn [comb]. rewrite (IH k), vscale_mul by (auto; apply Hs).
    rewrite vscale_vadd; auto; [apply vscale_bytes; auto; apply Hs|].
    eapply comb_vec; [done|apply Hv].
Qed.

Lemma comb_zeros k len S : is_rows k len S -> comb len S (zeros k) = zeros len.
Proof.
  revert k; induction S as [|s S IH]; intros k HS; [done|].
  destruct k as [|k]; [by destruct HS|]. apply is_rows_cons in HS as [Hs HS].
  rewrite zeros_S. cbn [comb]. rewrite vscale_zero, vadd_zeros_l; [by apply IH|].
  rewrite (proj1 Hs). apply (comb_vec k); [done|apply zeros_vec].
Qed.

(** The unit vector [e_i]. *)
Definition unit_vec (k i : nat) : bytes := <[i := 1]> (zeros k).

Lemma at_unit k i j : (i < k)%nat -> at_ (unit_vec k i) j = if decide (i = j) then 1 else 0.
Proof.
  intros Hi. unfold at_, unit_vec. rewrite nth_lookup. case_decide as E.
  - subst j. rewrite list_lookup_insert_eq; [done|]. unfold zeros. by rewrite length_replicate.
  - rewrite list_lookup_insert_ne by done. rewrite <-nth_lookup. apply at_zeros.
Qed.

Lemma unit_vec_vec k i : is_vec k (unit_vec k i).
Proof.
  split; [by unfold unit_vec, zeros; rewrite length_insert, length_replicate|].
  apply Forall_insert; [apply zeros_vec|unfold_int; lia].
Qed.
#[export] Hint Resolve unit_vec_vec : zeph.

(** Combining by [e_i] selects row [i]. *)
Lemma comb_unit k len S i s :
  is_rows k len S -> S !! i = Some s -> comb len S (unit_vec k i) = s.
Proof.
  revert k i; induction S as [|r S IH]; intros k i HS Hi; [done|].
  destruct k as [|k]; [by destruct HS|]. apply is_rows_cons in HS as [Hr HS].
  destruct i as [|i]; cbn in Hi.
  - injection Hi as ->. unfold unit_vec. rewrite zeros_S. cbn.
    rewrite (comb_zeros k), vscale_1, vadd_zeros_r; auto; apply Hr.
  - unfold unit_vec. rewrite zeros_S. cbn. change (<[i:=1]> (zeros k)) with (unit_vec k i).
    rewrite (IH k i), vscale_zero by done. rewrite vadd_zeros_l; [done|].
    rewrite (proj1 Hr). assert (is_vec len s) as [-> _]; [|done].
    eapply Forall_lookup_1; [apply HS|done].
Qed.

(** ** The dot product *)

Fixpoint dsum (a b : bytes) : Z :=
  match a, b with
  | x :: a', y :: b' => Z.lxor (mul x y) (dsum a' b')
  | _, _ => 0
  end.

Lemma dot_loop_dsum a b acc : dot_loop a b acc = Z.lxor acc (dsum a b).
Proof.
  revert b acc; induction a as [|x a IH]; intros [|y b] acc; cbn; rewrite ?Z.lxor_0_r; auto.
  rewrite IH. apply Z.lxor_assoc.
Qed.

Lemma dot_dsum a b : dot a b = dsum a b.
Proof. unfold dot. by rewrite dot_loop_dsum, Z.lxor_0_l. Qed.

Lemma dsum_u8 a b : is_bytes a -> is_bytes b -> is_u8 (dsum a b).
Proof.
  intros Ha; revert b; induction Ha; intros [|y b] Hb; cbn; auto with zeph.
  inversion_clear Hb. auto with zeph.
Qed.
#[export] Hint Resolve dsum_u8 : zeph.

Lemma dsum_vadd_l n a b w :
  is_vec n a -> is_vec n b -> is_bytes w -> dsum (vadd a b) w = Z.lxor (dsum a w) (dsum b w).
Proof.
  revert a b w; induction n as [|n IH]; intros a b w Ha Hb Hw.
  - by rewrite (vec_nil _ Ha), (vec_nil _ Hb).
  - apply vec_cons in Ha as (x & a' & -> & Hx & Ha), Hb as (y & b' & -> & Hy & Hb).
    destruct w as [|z w]; [done|]. inversion_clear Hw. rewrite vadd_cons. cbn.
    rewrite mul_lxor_l by done. rewrite lxor_swap4. f_equal. by apply IH.
Qed.

Lemma dsum_vscale_l c a w :
  is_u8 c -> is_bytes a -> is_bytes w -> dsum (vscale c a) w = mul c (dsum a w).
Proof.
  intros Hc Ha; revert w; induction Ha as [|x a Hx Ha IH]; intros w Hw;
    [cbn; by rewrite mul_0_r|].
  rewrite vscale_cons. destruct w as [|z w]; cbn; [by rewrite mul_0_r|]. inversion_clear Hw.
  rewrite mul_lxor_r by auto with zeph. rewrite mul_assoc, IH by done. done.
Qed.

Lemma dsum_zeros_l n w : dsum (zeros n) w = 0.
Proof. revert w; induction n as [|n IH]; intros [|z w]; rewrite ?zeros_S; cbn [dsum]; auto. by rewrite mul_0_l, IH. Qed.

(** Exchange of the two sums: [(Σ v_i S_i) . w = Σ v_i (S_i . w)]. *)
Lemma dsum_comb k len S v w :
  is_rows k len S -> is_vec k v -> is_bytes w ->
  dsum (comb len S v) w = dsum v (map (fun s => dsum s w) S).
Proof.
  revert k v; induction S as [|s S IH]; intros k v HS Hv Hw.
  - cbn [comb]. rewrite dsum_zeros_l. by destruct v.
  - destruct k as [|k]; [by destruct HS|]. apply is_rows_cons in HS as [Hs HS].
    apply vec_cons in Hv as (c & v' & -> & Hc & Hv). cbn.
    rewrite (dsum_vadd_l len).
    + rewrite dsum_vscale_l by (auto; apply Hs). f_equal. by apply (IH k).
    + by apply vscale_vec.
    + eapply comb_vec; [done|apply Hv].
    + done.
Qed.
