(* ===== verification/Erasure.v ===== *)
(** RLNC erasure coding ([crates/erasure/src/lib.rs]): encode, recode and the
    progressive Gaussian-elimination decoder.

    A source of randomness is a tape of bytes that the draws consume; a
    function that runs off the tape returns [None], so "the resampling loop
    ends" is a statement about the tape.  Index reads and [gf::inv] that would
    panic make [add_piece] return [None]; the theorems show they never do. *)

From S2P Require Import Prelude Gf Linear.

Open Scope Z_scope.

(** [n = k * (2 + ceil(16/k))]; [None] is the [assert!] or a usize overflow. *)
Definition target_pieces (k : Z) : option Z :=
  if k <=? 0 then None
  else let n := k * (2 + div_ceil 16 k) in
       if n <=? U64_MAX then Some n else None.

Record CodedPiece := mk_piece { coding_vector : bytes; data : bytes }.

Inductive ErasureError :=
| BadSources
| Shape (expected_k expected_len : nat)
| NothingToRecode
| Incomplete (rank k : nat).

Definition check_sources (sources : list bytes) : result nat ErasureError :=
  match sources with
  | [] => Err BadSources
  | first :: _ =>
      if (length first =? 0)%nat
         || existsb (fun s => negb (length s =? length first)%nat) sources
      then Err BadSources
      else Ok (length first)
  end.

(** ** Randomness *)

Notation tape := (list Z).

(** [rng.fill_bytes] on a buffer of [n] bytes. *)
Definition fill_bytes (n : nat) (t : tape) : option (bytes * tape) :=
  if (n <=? length t)%nat then Some (take n t, drop n t) else None.

Definition nonzero (v : bytes) : bool := existsb (fun c => negb (c =? 0)) v.

(** [loop { rng.fill_bytes(&mut cv); if cv has a nonzero entry { break } }].
    Every round consumes [k >= 1] bytes, so [S (length t)] rounds are enough. *)
Fixpoint sample_loop (fuel k : nat) (t : tape) : option (bytes * tape) :=
  match fuel with
  | O => None
  | S fuel' =>
      match fill_bytes k t with
      | None => None
      | Some (cv, t') => if nonzero cv then Some (cv, t') else sample_loop fuel' k t'
      end
  end.

(** [for (i, source) in sources.iter().enumerate() { axpy(&mut data, source, cv[i]) }]. *)
Fixpoint combine_loop (sources : list bytes) (i : nat) (cv data : bytes) : bytes :=
  match sources with
  | [] => data
  | source :: rest => combine_loop rest (S i) cv (axpy data source (nth i cv 0))
  end.

Definition encode (sources : list bytes) (t : tape)
  : option (result CodedPiece ErasureError * tape) :=
  match check_sources sources with
  | Err e => Some (Err e, t)
  | Ok piece_len =>
      match sample_loop (S (length t)) (length sources) t with
      | None => None
      | Some (cv, t') =>
          Some (Ok (mk_piece cv (combine_loop sources 0 cv (replicate piece_len 0))), t')
      end
  end.

(** [(0..n).map(|_| encode(sources, rng)).collect()]: stops at the first error. *)
Fixpoint encode_n (sources : list bytes) (n : nat) (t : tape)
  : option (result (list CodedPiece) ErasureError * tape) :=
  match n with
  | O => Some (Ok [], t)
  | S n' =>
      match encode sources t with
      | None => None
      | Some (Err e, t') => Some (Err e, t')
      | Some (Ok p, t') =>
          match encode_n sources n' t' with
          | None => None
          | Some (Err e, t'') => Some (Err e, t'')
          | Some (Ok ps, t'') => Some (Ok (p :: ps), t'')
          end
      end
  end.

(** One pass of the recoding loop: a fresh coefficient per held piece. *)
Fixpoint recode_pass (held : list CodedPiece) (t : tape) (cv data : bytes)
  : option (bytes * bytes * tape) :=
  match held with
  | [] => Some (cv, data, t)
  | p :: held' =>
      match t with
      | [] => None
      | c :: t' =>
          recode_pass held' t' (axpy cv (coding_vector p) c) (axpy data (Erasure.data p) c)
      end
  end.

(** Passes until the combination is not degenerate; a pass consumes
    [length held >= 1] draws, so [S (length t)] passes are enough. *)
Fixpoint recode_loop (fuel : nat) (held : list CodedPiece) (k piece_len : nat) (t : tape)
  : option (CodedPiece * tape) :=
  match fuel with
  | O => None
  | S fuel' =>
      match recode_pass held t (replicate k 0) (replicate piece_len 0) with
      | None => None
      | Some (cv, d, t') =>
          if nonzero cv then Some (mk_piece cv d, t')
          else recode_loop fuel' held k piece_len t'
      end
  end.

Definition recode (held : list CodedPiece) (t : tape)
  : option (result CodedPiece ErasureError * tape) :=
  match held with
  | [] => Some (Err NothingToRecode, t)
  | first :: _ =>
      let k := length (coding_vector first) in
      let piece_len := length (data first) in
      if existsb (fun p => negb (length (coding_vector p) =? k)%nat
                           || negb (length (data p) =? piece_len)%nat) held
      then Some (Err (Shape k piece_len), t)
      else match recode_loop (S (length t)) held k piece_len t with
           | None => None
           | Some (p, t') => Some (Ok p, t')
           end
  end.

(** ** The decoder *)

Record Decoder := mk_dec {
  dec_k : nat;
  dec_len : nat;
  rows : list (bytes * bytes);
  pivots : list nat
}.

Definition new (k piece_len : nat) : Decoder := mk_dec k piece_len [] [].

Definition rank (d : Decoder) : nat := length (rows d).

Definition is_complete (d : Decoder) : bool := (rank d =? dec_k d)%nat.

(** [for (row, &pivot) in rows.iter().zip(&pivots)]: reduce by the existing pivots. *)
Fixpoint reduce_loop (rows : list (bytes * bytes)) (pivots : list nat) (v d : bytes)
  : bytes * bytes :=
  match rows, pivots with
  | row :: rows', pivot :: pivots' =>
      let c := nth pivot v 0 in
      if c =? 0 then reduce_loop rows' pivots' v d
      else reduce_loop rows' pivots' (axpy v (fst row) c) (axpy d (snd row) c)
  | _, _ => (v, d)
  end.

(** [vector.iter().position(|&c| c != 0)]. *)
Fixpoint position_nonzero (v : bytes) : option nat :=
  match v with
  | [] => None
  | c :: v' => if c =? 0 then option_map S (position_nonzero v') else Some O
  end.

(** Eliminate the new pivot from the existing rows. *)
Fixpoint eliminate_loop (rows : list (bytes * bytes)) (pivots : list nat) (pivot : nat)
    (v d : bytes) : list (bytes * bytes) :=
  match rows, pivots with
  | row :: rows', _ :: pivots' =>
      let c := nth pivot (fst row) 0 in
      (if c =? 0 then row else (axpy (fst row) v c, axpy (snd row) d c))
      :: eliminate_loop rows' pivots' pivot v d
  | _, _ => rows
  end.

Definition add_piece (self : Decoder) (piece : CodedPiece)
  : option (result bool ErasureError * Decoder) :=
  if negb (length (coding_vector piece) =? dec_k self)%nat
     || negb (length (data piece) =? dec_len self)%nat
  then Some (Err (Shape (dec_k self) (dec_len self)), self)
  else if is_complete self then Some (Ok false, self)
  else
    let '(vector, d) := reduce_loop (rows self) (pivots self)
                          (coding_vector piece) (data piece) in
    match position_nonzero vector with
    | None => Some (Ok false, self)
    | Some pivot =>
        match inv (nth pivot vector 0) with
        | None => None
        | Some i =>
            let vector := scale vector i in
            let d := scale d i in
            Some (Ok true,
                  mk_dec (dec_k self) (dec_len self)
                    (eliminate_loop (rows self) (pivots self) pivot vector d ++ [(vector, d)])
                    (pivots self ++ [pivot]))
        end
    end.

Definition decode (self : Decoder) : result (list bytes) ErasureError :=
  if negb (is_complete self) then Err (Incomplete (rank self) (dec_k self))
  else Ok (map snd (sort_by (le_on fst) (zip (pivots self) (map snd (rows self))))).

(** ** Valid pieces

    A piece is valid for a generation [S] when its data is the combination of
    the sources that its coding vector names. *)

Definition valid (k len : nat) (S : list bytes) (p : CodedPiece) : Prop :=
  is_vec k (coding_vector p) /\ data p = comb len S (coding_vector p).

Lemma nth_at v i : nth i v 0 = at_ v i.
Proof. reflexivity. Qed.

Lemma axpy_eq n d s c :
  is_u8 c -> is_vec n d -> is_vec n s -> axpy d s c = vadd d (vscale c s).
Proof. intros Hc [Hd Hdb] [Hs Hsb]. apply axpy_spec; auto; congruence. Qed.

Lemma axpy_vec n d s c : is_u8 c -> is_vec n d -> is_vec n s -> is_vec n (axpy d s c).
Proof. intros. rewrite (axpy_eq n) by done. auto with zeph. Qed.

Lemma scale_eq n d c : is_u8 c -> is_vec n d -> scale d c = vscale c d.
Proof. intros Hc [_ Hd]. by apply scale_spec. Qed.

#[local] Hint Resolve axpy_vec : zeph.

Section generation.
Context (k len : nat) (S : list bytes) (HS : is_rows k len S).

Lemma valid_data_vec p : valid k len S p -> is_vec len (data p).
Proof. intros [[Hl Hv] ->]. by eapply comb_vec. Qed.

(** Validity is closed under the two row operations. *)
Lemma valid_axpy p q c :
  is_u8 c -> valid k len S p -> valid k len S q ->
  valid k len S (mk_piece (axpy (coding_vector p) (coding_vector q) c)
                          (axpy (data p) (data q) c)).
Proof.
  intros Hc Hp Hq. pose proof (valid_data_vec p Hp). pose proof (valid_data_vec q Hq).
  destruct Hp as [Hpv Hpd], Hq as [Hqv Hqd]. split; cbn [coding_vector data].
  - by apply axpy_vec.
  - rewrite (axpy_eq len), (axpy_eq k) by done.
    rewrite (comb_vadd k), (comb_vscale k) by auto with zeph. by rewrite Hpd, Hqd.
Qed.

Lemma valid_scale p c :
  is_u8 c -> valid k len S p ->
  valid k len S (mk_piece (scale (coding_vector p) c) (scale (data p) c)).
Proof.
  intros Hc Hp. pose proof (valid_data_vec p Hp). destruct Hp as [Hpv Hpd].
  split; cbn [coding_vector data]; [rewrite (scale_eq k) by done; auto with zeph|].
  rewrite (scale_eq len (data p)), (scale_eq k (coding_vector p)), (comb_vscale k) by done.
  by rewrite Hpd.
Qed.

Lemma valid_zero : valid k len S (mk_piece (zeros k) (zeros len)).
Proof. split; cbn; [apply zeros_vec|]. by rewrite (comb_zeros k). Qed.
End generation.

(** ** Encoding *)

Lemma combine_loop_comb k len S i cv acc :
  is_rows k len S -> is_vec (i + k) cv -> is_vec len acc ->
  combine_loop S i cv acc = vadd acc (comb len S (drop i cv)).
Proof.
  revert k i acc; induction S as [|s S IH]; intros k i acc HS Hcv Hacc; cbn [combine_loop].
  - destruct Hacc as [Hl _]. cbn [comb]. by rewrite vadd_zeros_r.
  - destruct k as [|k]; [by destruct HS|]. apply is_rows_cons in HS as [Hs HS].
    assert (i < length cv)%nat as Hi by (destruct Hcv; lia).
    pose proof (at_u8 _ cv i Hcv) as Hu.
    assert (is_vec (Datatypes.S i + k) cv) as Hcv'
      by (by replace (Datatypes.S i + k)%nat with (i + Datatypes.S k)%nat by lia).
    rewrite (IH k) by auto with zeph.
    destruct (lookup_lt_is_Some_2 _ _ Hi) as [c Hc].
    rewrite (drop_S cv c i Hc). cbn [comb]. rewrite (axpy_eq len) by done.
    rewrite <-vadd_assoc. do 2 f_equal. rewrite nth_lookup, Hc. done.
Qed.

Lemma fill_bytes_Some n t v t' :
  fill_bytes n t = Some (v, t') <-> (n <= length t)%nat /\ v = take n t /\ t' = drop n t.
Proof. unfold fill_bytes. case_match eqn:E; [apply Nat.leb_le in E|apply Nat.leb_gt in E]; naive_solver lia. Qed.

Lemma sample_loop_Some fuel k t v t' :
  sample_loop fuel k t = Some (v, t') -> is_bytes t ->
  is_vec k v /\ nonzero v = true /\ is_bytes t'.
Proof.
  revert t; induction fuel as [|fuel IH]; intros t; cbn; [done|].
  destruct (fill_bytes k t) as [[cv t1]|] eqn:Ef; [|done].
  apply fill_bytes_Some in Ef as (Hk & -> & ->). intros E Ht.
  assert (is_bytes (drop k t)) by by apply Forall_drop.
  destruct (nonzero (take k t)) eqn:En; [|by apply IH in E].
  injection E as <- <-. split_and!; auto. split; [rewrite length_take; lia|by apply Forall_take].
Qed.

(** The resampling loop ends at the first chunk of the tape that is not all
    zero, whatever number of all-zero chunks precede it. *)
Lemma sample_loop_returns fuel k m v rest :
  (m < fuel)%nat -> length v = k -> nonzero v = true ->
  sample_loop fuel k (replicate (m * k) 0 ++ v ++ rest) = Some (v, rest).
Proof.
  revert fuel; induction m as [|m IH]; intros [|fuel] Hf Hv Hn; try lia; cbn [sample_loop].
  - cbn. unfold fill_bytes. rewrite length_app. destruct (Nat.leb_spec k (length v + length rest)); [|lia].
    rewrite <-Hv, take_app_length, drop_app_length, Hn. done.
  - assert (replicate (Datatypes.S m * k) 0 = replicate k 0 ++ replicate (m * k) 0) as ->
      by (by rewrite <-replicate_add).
    unfold fill_bytes. rewrite <-app_assoc, length_app, length_replicate.
    destruct (Nat.leb_spec k (k + length (replicate (m * k) 0 ++ v ++ rest))); [|lia].
    rewrite take_app_length', drop_app_length' by (by rewrite length_replicate).
    assert (nonzero (replicate k 0) = false) as -> by (clear; induction k; done).
    apply IH; auto; lia.
Qed.

Lemma check_sources_Ok sources n :
  check_sources sources = Ok n <->
  (0 < n)%nat /\ sources <> [] /\ Forall (fun s => length s = n) sources.
Proof.
  unfold check_sources. destruct sources as [|s0 ss]; [naive_solver|].
  set (all := s0 :: ss).
  destruct (length s0 =? 0)%nat eqn:E0; cbn [orb].
  { apply Nat.eqb_eq in E0. split; [done|]. intros (Hn & _ & Hall).
    inversion_clear Hall. lia. }
  apply Nat.eqb_neq in E0.
  destruct (existsb _ all) eqn:Ex.
  - split; [done|]. intros (_ & _ & Hall). apply existsb_exists in Ex as (s & Hin & Hne).
    rewrite Forall_forall in Hall. pose proof (Hall s Hin). pose proof (Hall s0 ltac:(by left)).
    apply negb_true_iff, Nat.eqb_neq in Hne. lia.
  - rewrite <-not_true_iff_false, existsb_exists in Ex. split.
    + intros [= <-]. split_and!; [lia|done|]. apply Forall_forall. intros s Hin.
      destruct (Nat.eq_dec (length s) (length s0)) as [|Hne]; [done|]. exfalso. apply Ex.
      exists s. split; [done|]. by apply negb_true_iff, Nat.eqb_neq.
    + intros (_ & _ & Hall). inversion_clear Hall. congruence.
Qed.

Lemma check_sources_rows k len S :
  is_rows k len S -> (0 < k)%nat -> (0 < len)%nat -> check_sources S = Ok len.
Proof.
  intros [Hk HS] Hk0 Hl0. apply check_sources_Ok. split_and!; [done|by destruct S; cbn in *; [lia|]|].
  eapply Forall_impl; [|exact HS]. intros s [Hs _]. done.
Qed.

Lemma encode_valid k len S t p t' :
  is_rows k len S -> is_bytes t ->
  encode S t = Some (Ok p, t') ->
  valid k len S p /\ nonzero (coding_vector p) = true /\ is_bytes t'.
Proof.
  intros HS Ht. unfold encode. destruct (check_sources S) as [n|e] eqn:Ec; [|done].
  destruct (sample_loop _ _ _) as [[cv t1]|] eqn:Es; [|done]. intros [= <- <-].
  apply sample_loop_Some in Es as (Hcv & Hnz & Ht'); [|done].
  assert (n = len) as ->.
  { apply check_sources_Ok in Ec as (_ & Hne & Hall). destruct S as [|s S]; [done|].
    destruct HS as [_ HS]. inversion_clear HS. inversion_clear Hall.
    match goal with H : is_vec len s |- _ => destruct H; congruence end. }
  rewrite (proj1 HS) in Hcv.
  split_and!; auto. split; cbn [coding_vector data]; [done|].
  rewrite (combine_loop_comb k len) by (auto; apply zeros_vec).
  rewrite drop_0. change (replicate len 0) with (zeros len).
  rewrite vadd_zeros_l; [done|]. eapply comb_vec; [exact HS|apply Hcv].
Qed.

(** ** Recoding *)

Lemma recode_pass_valid k len S held t cv d cv' d' t' :
  is_rows k len S -> Forall (valid k len S) held -> is_bytes t ->
  valid k len S (mk_piece cv d) ->
  recode_pass held t cv d = Some (cv', d', t') ->
  valid k len S (mk_piece cv' d') /\ is_bytes t'.
Proof.
  intros HS Hheld. revert t cv d. induction Hheld as [|p held Hp Hheld IH];
    intros t cv d Ht Hv E; cbn in E; [by simplify_eq|].
  destruct t as [|c t]; [done|]. inversion_clear Ht as [|?? Hc Ht'].
  eapply IH; [exact Ht'| |exact E].
  apply (valid_axpy k len S HS (mk_piece cv d) p c Hc Hv Hp).
Qed.

Lemma recode_loop_valid fuel held k len S t p t' :
  is_rows k len S -> Forall (valid k len S) held -> is_bytes t ->
  recode_loop fuel held k len t = Some (p, t') ->
  valid k len S p /\ nonzero (coding_vector p) = true /\ is_bytes t'.
Proof.
  intros HS Hheld. revert t. induction fuel as [|fuel IH]; intros t Ht E; cbn in E; [done|].
  destruct (recode_pass _ _ _ _) as [[[cv d] t1]|] eqn:Ep; [|done].
  eapply recode_pass_valid in Ep as [Hv Ht1]; [|done..|by apply valid_zero].
  destruct (nonzero cv) eqn:En; [|by apply (IH t1)]. by simplify_eq.
Qed.

Lemma recode_pass_total held t cv d :
  (length held <= length t)%nat ->
  exists cv' d', recode_pass held t cv d = Some (cv', d', drop (length held) t).
Proof.
  revert t cv d; induction held as [|p held IH]; intros t cv d Hl; cbn; [by eauto|].
  destruct t as [|c t]; cbn in Hl; [lia|]. apply IH. lia.
Qed.

Lemma shape_ok k len S held :
  is_rows k len S -> Forall (valid k len S) held ->
  existsb (fun p => negb (length (coding_vector p) =? k)%nat
                    || negb (length (data p) =? len)%nat) held = false.
Proof.
  intros HS. induction 1 as [|p held Hp Hheld IH]; cbn; [done|]. rewrite IH.
  pose proof (valid_data_vec k len S HS p Hp) as [-> _]. destruct Hp as [[-> _] _].
  by rewrite !Nat.eqb_refl.
Qed.

Lemma recode_unfold k len S held t :
  is_rows k len S -> Forall (valid k len S) held -> held <> [] ->
  recode held t = match recode_loop (Datatypes.S (length t)) held k len t with
                  | None => None
                  | Some (p, t') => Some (Ok p, t')
                  end.
Proof.
  intros HS Hheld Hne. destruct held as [|p held]; [done|]. unfold recode.
  assert (length (coding_vector p) = k) as -> by (inversion_clear Hheld; by destruct H as [[??]?]).
  assert (length (data p) = len) as ->
    by (inversion_clear Hheld; by destruct (valid_data_vec k len S HS p H)).
  by rewrite (shape_ok k len S).
Qed.

(** ** The span of a list of coding vectors *)

Definition in_span (k : nat) (vs : list bytes) (v : bytes) : Prop :=
  exists cs, is_vec (length vs) cs /\ v = comb k vs cs.

Section span.
Context (k : nat).

Lemma rows_self vs : Forall (is_vec k) vs -> is_rows (length vs) k vs.
Proof. done. Qed.
#[local] Hint Resolve rows_self : zeph.

Lemma span_vec vs v : Forall (is_vec k) vs -> in_span k vs v -> is_vec k v.
Proof. intros Hvs (cs & Hcs & ->). eapply comb_vec; [by apply rows_self|apply Hcs]. Qed.

Lemma span_zero vs : Forall (is_vec k) vs -> in_span k vs (zeros k).
Proof.
  intros. exists (zeros (length vs)). split; [apply zeros_vec|]. by erewrite comb_zeros.
Qed.

Lemma span_vadd vs v w :
  Forall (is_vec k) vs -> in_span k vs v -> in_span k vs w -> in_span k vs (vadd v w).
Proof.
  intros Hvs (cs & Hcs & ->) (ds & Hds & ->). exists (vadd cs ds).
  split; [by apply vadd_vec|]. by erewrite comb_vadd by eauto with zeph.
Qed.

Lemma span_vscale vs c v :
  Forall (is_vec k) vs -> is_u8 c -> in_span k vs v -> in_span k vs (vscale c v).
Proof.
  intros Hvs Hc (cs & Hcs & ->). exists (vscale c cs).
  split; [by apply vscale_vec|]. by erewrite comb_vscale by eauto with zeph.
Qed.

Lemma span_elem vs v : Forall (is_vec k) vs -> v ∈ vs -> in_span k vs v.
Proof.
  intros Hvs [i Hi]%list_elem_of_lookup. exists (unit_vec (length vs) i).
  split; [apply unit_vec_vec|]. by erewrite comb_unit.
Qed.

(** A combination of vectors of the span of [vs] is in the span of [vs]. *)
Lemma span_trans vs ws v :
  Forall (is_vec k) vs -> Forall (in_span k vs) ws -> in_span k ws v -> in_span k vs v.
Proof.
  intros Hvs Hws (cs & Hcs & ->). revert cs Hcs.
  induction Hws as [|w ws Hw Hws IH]; intros cs Hcs; cbn [comb]; [by apply span_zero|].
  apply vec_cons in Hcs as (c & cs' & -> & Hc & Hcs).
  apply span_vadd; auto. by apply span_vscale.
Qed.

Lemma span_incl vs ws v :
  Forall (is_vec k) ws -> vs ⊆ ws -> in_span k vs v -> in_span k ws v.
Proof.
  intros Hws Hsub. apply span_trans; [done|]. apply list.Forall_forall. intros x Hx.
  apply span_elem; auto.
Qed.
End span.

(** Reading column [q] of a combination. *)
Lemma at_comb n k vs cs q :
  is_rows n k vs -> is_vec n cs ->
  at_ (comb k vs cs) q = dsum cs (map (fun v => at_ v q) vs).
Proof.
  revert n cs; induction vs as [|v vs IH]; intros n cs Hvs Hcs; cbn [comb map].
  - rewrite at_zeros. by destruct cs.
  - destruct n as [|n]; [by destruct Hvs|]. apply is_rows_cons in Hvs as [Hv Hvs].
    apply vec_cons in Hcs as (c & cs' & -> & Hc & Hcs). cbn [dsum].
    rewrite at_vadd, at_vscale, (IH n) by
      (done || (rewrite vscale_length, (proj1 Hv);
                symmetry; apply (comb_vec n k vs cs'); [done|apply Hcs])).
    done.
Qed.

Lemma dsum_unit n cs j : is_vec n cs -> (j < n)%nat -> dsum cs (unit_vec n j) = at_ cs j.
Proof.
  revert cs j; induction n as [|n IH]; intros cs j Hcs Hj; [lia|].
  apply vec_cons in Hcs as (c & cs' & -> & Hc & Hcs).
  unfold unit_vec. rewrite zeros_S. destruct j as [|j]; cbn [insert list_insert dsum].
  - rewrite (mul_comm c), mul_1_l by done.
    assert (dsum cs' (zeros n) = 0) as ->; [|by rewrite Z.lxor_0_r].
    clear -n. revert cs'. induction n as [|n IH]; intros [|x cs]; rewrite ?zeros_S; cbn [dsum]; auto.
    by rewrite mul_0_r, IH.
  - rewrite mul_0_r, Z.lxor_0_l. apply (IH cs' j); [done|lia].
Qed.

(** ** Decoder invariant

    Rows and pivots correspond one to one; every pivot column is a unit
    vector (reduced form). *)

Record dec_wf (d : Decoder) : Prop := {
  wf_len : length (rows d) = length (pivots d);
  wf_rows : Forall (fun r => is_vec (dec_k d) (fst r) /\ is_vec (dec_len d) (snd r)) (rows d);
  wf_pivots : Forall (fun p => p < dec_k d)%nat (pivots d);
  wf_reduced : forall i j r p,
    rows d !! i = Some r -> pivots d !! j = Some p ->
    at_ (fst r) p = if decide (i = j) then 1 else 0
}.

(** The same property of a row/pivot suffix, as the loops see it. *)
Definition reduced (rs : list (bytes * bytes)) (ps : list nat) : Prop :=
  forall i j r p, rs !! i = Some r -> ps !! j = Some p ->
    at_ (fst r) p = if decide (i = j) then 1 else 0.

Lemma reduced_cons r rs p ps :
  reduced (r :: rs) (p :: ps) ->
  at_ (fst r) p = 1 /\ reduced rs ps /\
  (forall r', r' ∈ rs -> at_ (fst r') p = 0) /\ (forall p', p' ∈ ps -> at_ (fst r) p' = 0).
Proof.
  intros H. split_and!.
  - apply (H 0%nat 0%nat); done.
  - intros i j r' p' Hi Hj. specialize (H (S i) (S j) r' p' Hi Hj). rewrite H.
    destruct (decide (i = j)), (decide (S i = S j)); congruence || lia.
  - intros r' [i Hi]%list_elem_of_lookup. apply (H (S i) 0%nat); done.
  - intros p' [j Hj]%list_elem_of_lookup. apply (H 0%nat (S j)); done.
Qed.

(** Skipping the row operation when the coefficient is 0 changes nothing. *)
Lemma axpy_skip v r c : (if c =? 0 then v else axpy v r c) = axpy v r c.
Proof. unfold axpy. by destruct (c =? 0). Qed.

Lemma reduce_loop_step row rs p ps v d :
  reduce_loop (row :: rs) (p :: ps) v d =
  reduce_loop rs ps (axpy v (fst row) (at_ v p)) (axpy d (snd row) (at_ v p)).
Proof.
  cbn [reduce_loop]. rewrite nth_at. rewrite <-(axpy_skip v), <-(axpy_skip d).
  by destruct (at_ v p =? 0).
Qed.

Section reduce.
Context (k len : nat).
Notation good_row := (fun r : bytes * bytes => is_vec k (fst r) /\ is_vec len (snd r)).

Lemma reduce_loop_vec rs ps v d :
  Forall good_row rs -> is_vec k v -> is_vec len d ->
  is_vec k (fst (reduce_loop rs ps v d)) /\ is_vec len (snd (reduce_loop rs ps v d)).
Proof.
  intros Hrs; revert ps v d; induction Hrs as [|r rs [Hr1 Hr2] Hrs IH];
    intros [|p ps] v d Hv Hd; try done.
  rewrite reduce_loop_step. apply IH; eauto with zeph.
Qed.

(** After the reduction every pivot entry is 0; entries where all rows are 0
    are untouched. *)
Lemma reduce_loop_pivots rs ps v d :
  length rs = length ps -> Forall good_row rs -> is_vec k v -> is_vec len d -> reduced rs ps ->
  (forall p, p ∈ ps -> at_ (fst (reduce_loop rs ps v d)) p = 0) /\
  (forall q, (forall r, r ∈ rs -> at_ (fst r) q = 0) ->
     at_ (fst (reduce_loop rs ps v d)) q = at_ v q).
Proof.
  intros Hl Hrs; revert ps v d Hl; induction Hrs as [|r rs [Hr1 Hr2] Hrs IH];
    intros [|p ps] v d Hl Hv Hd Hred; cbn in Hl; try lia.
  { split; [intros p; by inversion 1|done]. }
  apply reduced_cons in Hred as (Hp1 & Hred & Hrs0 & Hps0).
  pose proof (at_u8 _ v p Hv) as Hc.
  rewrite reduce_loop_step.
  assert (forall q, at_ (axpy v (fst r) (at_ v p)) q = Z.lxor (at_ v q) (mul (at_ v p) (at_ (fst r) q))) as Hat.
  { intros q. rewrite (axpy_eq k) by done. rewrite at_vadd, at_vscale; [done|].
    rewrite vscale_length. destruct Hv, Hr1. congruence. }
  destruct (IH ps (axpy v (fst r) (at_ v p)) (axpy d (snd r) (at_ v p))) as [IH1 IH2];
    eauto with zeph.
  split.
  - intros q [->|Hq]%elem_of_cons; [|by apply IH1].
    rewrite IH2 by done. rewrite Hat, Hp1, (mul_comm _ 1), mul_1_l by done.
    apply Z.lxor_nilpotent.
  - intros q Hq. rewrite IH2 by (intros; apply Hq; by right).
    rewrite Hat, (Hq r) by left. by rewrite mul_0_r, Z.lxor_0_r.
Qed.

(** The reduced vector differs from the input by an element of the row span. *)
Lemma reduce_loop_span rs ps vs v d :
  Forall good_row rs -> is_vec k v -> Forall (is_vec k) vs ->
  (forall r, r ∈ rs -> in_span k vs (fst r)) ->
  exists u, in_span k vs u /\ fst (reduce_loop rs ps v d) = vadd v u.
Proof.
  intros Hrs Hv Hvs; revert ps v d Hv; induction Hrs as [|r rs [Hr1 Hr2] Hrs IH];
    intros ps v d Hv Hsp.
  { exists (zeros k). split; [by apply span_zero|]. destruct ps; cbn; rewrite vadd_zeros_r; auto; apply Hv. }
  destruct ps as [|p ps].
  { exists (zeros k). split; [by apply span_zero|]. cbn. rewrite vadd_zeros_r; auto; apply Hv. }
  rewrite reduce_loop_step. pose proof (at_u8 _ v p Hv) as Hc.
  destruct (IH ps (axpy v (fst r) (at_ v p)) (axpy d (snd r) (at_ v p))) as (u & Hu & E);
    [by apply axpy_vec|intros; apply Hsp; by right|].
  exists (vadd (vscale (at_ v p) (fst r)) u). split.
  - apply span_vadd; auto. apply span_vscale; auto. apply Hsp. left.
  - rewrite E, (axpy_eq k) by done. by rewrite vadd_assoc.
Qed.

(** Validity with respect to a generation goes through the reduction. *)
Lemma reduce_loop_valid S rs ps v d :
  is_rows k len S -> Forall (fun r => valid k len S (mk_piece (fst r) (snd r))) rs ->
  valid k len S (mk_piece v d) ->
  valid k len S (mk_piece (fst (reduce_loop rs ps v d)) (snd (reduce_loop rs ps v d))).
Proof.
  intros HS Hrs; revert ps v d; induction Hrs as [|r rs Hr Hrs IH];
    intros [|p ps] v d Hv; try done.
  rewrite reduce_loop_step. apply IH.
  pose proof (at_u8 _ v p (proj1 Hv)) as Hc.
  apply (valid_axpy k len S HS (mk_piece v d) _ _ Hc Hv Hr).
Qed.
End reduce.

Lemma position_nonzero_None v : position_nonzero v = None -> v = zeros (length v).
Proof.
  induction v as [|c v IH]; cbn; [done|]. destruct (Z.eqb_spec c 0) as [->|]; [|done].
  destruct (position_nonzero v); cbn; [done|]. intros _. rewrite zeros_S. f_equal. by apply IH.
Qed.

Lemma position_nonzero_Some v p :
  position_nonzero v = Some p -> (p < length v)%nat /\ at_ v p <> 0.
Proof.
  revert p; induction v as [|c v IH]; cbn; [done|]. intros p.
  destruct (Z.eqb_spec c 0) as [->|Hc].
  - destruct (position_nonzero v) as [q|]; cbn; [|done]. intros [= <-].
    destruct (IH q eq_refl). split; [lia|done].
  - intros [= <-]. split; [lia|done].
Qed.
