(* ===== verification/ErasureDecode.v ===== *)
(** Correctness of the decoder of [crates/erasure/src/lib.rs]: [add_piece]
    keeps the reduced form and answers whether the piece was independent; a
    complete decoder returns the sources; any [k] independent pieces complete
    it. *)

From S2P Require Import Prelude Gf Linear Erasure.

Open Scope Z_scope.

Notation row_vecs d := (map fst (rows d)).

(** ** Pivots *)

Section pivots.
Context (d : Decoder) (Hwf : dec_wf d).

Lemma pivots_NoDup : NoDup (pivots d).
Proof.
  apply NoDup_alt. intros i j p Hi Hj.
  destruct (decide (i = j)) as [|Hne]; [done|]. exfalso.
  destruct (lookup_lt_is_Some_2 (rows d) i) as [r Hr].
  { rewrite (wf_len d Hwf). by eapply lookup_lt_Some. }
  pose proof (wf_reduced d Hwf i i r p Hr Hi) as H1.
  pose proof (wf_reduced d Hwf i j r p Hr Hj) as H2.
  rewrite decide_True in H1 by done. rewrite decide_False in H2 by done. congruence.
Qed.

Lemma pivots_incl : incl (pivots d) (seq 0 (dec_k d)).
Proof.
  intros p Hp. apply in_seq. pose proof (wf_pivots d Hwf) as H.
  rewrite Forall_forall in H. specialize (H p Hp). lia.
Qed.

Lemma pivot_lt i p : pivots d !! i = Some p -> (p < dec_k d)%nat.
Proof.
  intros Hp. pose proof (wf_pivots d Hwf) as H. rewrite Forall_lookup in H. by apply (H i).
Qed.

Lemma rank_le : (rank d <= dec_k d)%nat.
Proof.
  unfold rank. rewrite (wf_len d Hwf), <-(length_seq (dec_k d) 0).
  apply NoDup_incl_length; [apply NoDup_ListNoDup, pivots_NoDup|apply pivots_incl].
Qed.

Lemma pivots_perm : is_complete d = true -> pivots d ≡ₚ seq 0 (dec_k d).
Proof.
  intros Hc%Nat.eqb_eq. unfold rank in Hc.
  apply NoDup_Permutation_bis; [apply NoDup_ListNoDup, pivots_NoDup| |apply pivots_incl].
  rewrite length_seq, <-(wf_len d Hwf). lia.
Qed.

Lemma row_vecs_vec : Forall (is_vec (dec_k d)) (row_vecs d).
Proof.
  apply Forall_fmap. eapply Forall_impl; [|apply (wf_rows d Hwf)]. by intros r [? ?].
Qed.

Lemma row_vecs_reduced : reduced (rows d) (pivots d).
Proof. intros i j r p. apply (wf_reduced d Hwf). Qed.

(** The reduction of a vector of the row span is zero exactly at a complete
    cancellation: coordinates of a combination are read off the pivots. *)
Lemma span_zero_at_pivots u :
  in_span (dec_k d) (row_vecs d) u -> (forall p, p ∈ pivots d -> at_ u p = 0) -> u = zeros (dec_k d).
Proof.
  intros (cs & Hcs & ->) H0. rewrite length_map in Hcs.
  assert (cs = zeros (length (rows d))) as ->.
  { eapply vec_ext; [exact Hcs|apply zeros_vec|]. intros j Hj. rewrite at_zeros.
    destruct (lookup_lt_is_Some_2 (pivots d) j) as [p Hp]; [by rewrite <-(wf_len d Hwf)|].
    assert (p ∈ pivots d) as Hin by (apply list_elem_of_lookup; eauto).
    rewrite <-(H0 p Hin). rewrite (at_comb (length (rows d))); [|split; [apply length_map|apply row_vecs_vec]|done].
    rewrite <-(dsum_unit (length (rows d))) by done. f_equal.
    eapply vec_ext; [apply unit_vec_vec| |].
    - split; [by rewrite !length_map|]. apply Forall_fmap, Forall_fmap.
      eapply Forall_impl; [|apply (wf_rows d Hwf)]. intros r [Hr _]. by eapply at_u8.
    - intros i Hi. rewrite at_unit by done. unfold at_ at 1.
      rewrite nth_lookup, !list_lookup_fmap.
      destruct (lookup_lt_is_Some_2 (rows d) i) as [r Hr]; [done|]. rewrite Hr. cbn.
      rewrite (wf_reduced d Hwf i j r p) by done.
      destruct (decide (i = j)), (decide (j = i)); congruence. }
  apply comb_zeros. split; [apply length_map|apply row_vecs_vec].
Qed.
End pivots.

(** ** Elimination of the new pivot *)

Lemma eliminate_loop_map rs ps pivot v d :
  length rs = length ps ->
  eliminate_loop rs ps pivot v d =
  map (fun r => (axpy (fst r) v (at_ (fst r) pivot), axpy (snd r) d (at_ (fst r) pivot))) rs.
Proof.
  revert ps; induction rs as [|[rv rd] rs IH]; intros [|p ps] Hl; cbn in *; try done.
  rewrite nth_at, IH by lia. f_equal.
  rewrite <-(axpy_skip rv), <-(axpy_skip rd). by destruct (at_ rv pivot =? 0).
Qed.

(** The decoder after an accepted piece with reduced, normalized row [(w, e)]
    and pivot [p]. *)
Definition accept (d : Decoder) (w e : bytes) (p : nat) : Decoder :=
  mk_dec (dec_k d) (dec_len d)
    (eliminate_loop (rows d) (pivots d) p w e ++ [(w, e)]) (pivots d ++ [p]).

Section accept.
Context (d : Decoder) (Hwf : dec_wf d) (w e : bytes) (p : nat).
Context (Hw : is_vec (dec_k d) w) (He : is_vec (dec_len d) e) (Hp : (p < dec_k d)%nat).
Context (Hone : at_ w p = 1) (Hzero : forall q, q ∈ pivots d -> at_ w q = 0).

Lemma new_row_at r q :
  is_vec (dec_k d) r -> at_ (axpy r w (at_ r p)) q = Z.lxor (at_ r q) (mul (at_ r p) (at_ w q)).
Proof.
  intros Hr. rewrite (axpy_eq (dec_k d)) by eauto with zeph.
  rewrite at_vadd, at_vscale; [done|]. rewrite vscale_length. destruct Hr, Hw. congruence.
Qed.

Lemma accept_wf : dec_wf (accept d w e p).
Proof.
  split; cbn [accept rows pivots dec_k dec_len]; rewrite ?eliminate_loop_map by apply (wf_len d Hwf).
  - rewrite !length_app, length_map, (wf_len d Hwf). done.
  - apply Forall_app. split; [|by apply Forall_singleton].
    apply Forall_fmap. eapply Forall_impl; [|apply (wf_rows d Hwf)]. intros r [Hr1 Hr2]. cbn.
    split; apply axpy_vec; eauto with zeph.
  - apply Forall_app. split; [apply (wf_pivots d Hwf)|by apply Forall_singleton].
  - pose proof (wf_len d Hwf) as Hl.
    intros i j r q Hi Hj.
    apply lookup_app_Some in Hi as [Hi|[Hil Hi]], Hj as [Hj|[Hjl Hj]].
    + apply list_lookup_fmap_Some in Hi as (r0 & -> & Hi). cbn [fst].
      assert (is_vec (dec_k d) (fst r0)) as Hr0 by (eapply Forall_lookup_1 in Hi; [|apply (wf_rows d Hwf)]; apply Hi).
      rewrite new_row_at, (Hzero q), mul_0_r, Z.lxor_0_r by (done || apply list_elem_of_lookup; eauto).
      by apply (wf_reduced d Hwf).
    + apply list_lookup_fmap_Some in Hi as (r0 & -> & Hi). cbn [fst].
      assert (is_vec (dec_k d) (fst r0)) as Hr0 by (eapply Forall_lookup_1 in Hi; [|apply (wf_rows d Hwf)]; apply Hi).
      apply list_lookup_singleton_Some in Hj as [Hj <-].
      apply lookup_lt_Some in Hi. rewrite decide_False by lia.
      rewrite new_row_at, Hone, (mul_comm _ 1), mul_1_l by eauto with zeph. apply Z.lxor_nilpotent.
    + apply list_lookup_singleton_Some in Hi as [Hi <-]. cbn [fst]. rewrite length_map in Hil.
      pose proof (lookup_lt_Some _ _ _ Hj). rewrite decide_False by (rewrite length_map in Hi; lia).
      apply Hzero, list_elem_of_lookup; eauto.
    + apply list_lookup_singleton_Some in Hi as [Hi <-], Hj as [Hj <-]. rewrite length_map in Hi, Hil.
      by rewrite decide_True by lia.
Qed.

Lemma accept_rank : rank (accept d w e p) = S (rank d).
Proof.
  unfold rank. cbn. rewrite eliminate_loop_map by apply (wf_len d Hwf).
  rewrite length_app, length_map. apply Nat.add_1_r.
Qed.

Lemma accept_row_vecs :
  row_vecs (accept d w e p) = map (fun r => axpy r w (at_ r p)) (row_vecs d) ++ [w].
Proof.
  cbn. rewrite eliminate_loop_map by apply (wf_len d Hwf).
  rewrite map_app, !map_map. done.
Qed.

(** The new rows span what the old rows and the new vector span. *)
Lemma accept_span v :
  in_span (dec_k d) (row_vecs (accept d w e p)) v <-> in_span (dec_k d) (row_vecs d ++ [w]) v.
Proof.
  pose proof (row_vecs_vec d Hwf) as Hrv.
  pose proof (row_vecs_vec _ accept_wf) as Hrv'. cbn [accept dec_k] in Hrv'.
  assert (Forall (is_vec (dec_k d)) (row_vecs d ++ [w])) as Hrw
    by (apply Forall_app; split; [done|by apply Forall_singleton]).
  rewrite accept_row_vecs in Hrv' |- *.
  assert (in_span (dec_k d) (row_vecs d ++ [w]) w) as Hsw
    by (apply span_elem; [done|]; apply elem_of_app; right; left).
  assert (in_span (dec_k d) (map (fun r => axpy r w (at_ r p)) (row_vecs d) ++ [w]) w) as Hsw'
    by (apply span_elem; [done|]; apply elem_of_app; right; left).
  split; apply span_trans; auto; apply Forall_app; (split; [|by apply Forall_singleton]);
    apply list.Forall_forall; intros r Hr.
  - apply list_elem_of_fmap in Hr as (r0 & -> & Hr0).
    assert (is_vec (dec_k d) r0) as Hv0 by (rewrite list.Forall_forall in Hrv; auto).
    rewrite (axpy_eq (dec_k d)) by eauto with zeph.
    apply span_vadd; [done| |apply span_vscale; eauto with zeph].
    apply span_elem; [done|]. apply elem_of_app. by left.
  - assert (is_vec (dec_k d) r) as Hv0 by (rewrite list.Forall_forall in Hrv; auto).
    rewrite <-(vadd_cancel (dec_k d) r (vscale (at_ r p) w)) by eauto with zeph.
    apply span_vadd; [done| |apply span_vscale; eauto with zeph].
    rewrite <-(axpy_eq (dec_k d)) by eauto with zeph.
    apply span_elem; [done|]. apply elem_of_app. left.
    apply list_elem_of_fmap. eauto.
Qed.
End accept.

(** ** One call of [add_piece] *)

(** What an accepted piece adds to the decoder. *)
Record accepted (d : Decoder) (piece : CodedPiece) (w e : bytes) (p : nat) : Prop := {
  acc_w : is_vec (dec_k d) w;
  acc_e : is_vec (dec_len d) e;
  acc_p : (p < dec_k d)%nat;
  acc_one : at_ w p = 1;
  acc_zero : forall q, q ∈ pivots d -> at_ w q = 0;
  acc_w_span : in_span (dec_k d) (row_vecs d ++ [coding_vector piece]) w;
  acc_cv_span : in_span (dec_k d) (row_vecs d ++ [w]) (coding_vector piece);
  acc_valid : forall S, is_rows (dec_k d) (dec_len d) S ->
    Forall (fun r => valid (dec_k d) (dec_len d) S (mk_piece (fst r) (snd r))) (rows d) ->
    valid (dec_k d) (dec_len d) S piece -> valid (dec_k d) (dec_len d) S (mk_piece w e)
}.

(** The reduced piece [(v', d')] that [add_piece] computes. *)
Record reduction (d : Decoder) (piece : CodedPiece) (v' d' u : bytes) : Prop := {
  red_eq : reduce_loop (rows d) (pivots d) (coding_vector piece) (data piece) = (v', d');
  red_v : is_vec (dec_k d) v';
  red_d : is_vec (dec_len d) d';
  red_zero : forall q, q ∈ pivots d -> at_ v' q = 0;
  red_u : in_span (dec_k d) (row_vecs d) u;
  red_uv : is_vec (dec_k d) u;
  red_v_eq : v' = vadd (coding_vector piece) u;
  red_cv_eq : coding_vector piece = vadd v' u
}.

Lemma reduction_exists d piece :
  dec_wf d -> is_vec (dec_k d) (coding_vector piece) -> is_vec (dec_len d) (data piece) ->
  exists v' d' u, reduction d piece v' d' u.
Proof.
  intros Hwf Hcv Hd. pose proof (row_vecs_vec d Hwf) as Hrv.
  destruct (reduce_loop (rows d) (pivots d) (coding_vector piece) (data piece)) as [v' d'] eqn:Er.
  destruct (reduce_loop_vec (dec_k d) (dec_len d) (rows d) (pivots d) (coding_vector piece) (data piece))
    as [Hv' Hd']; [apply (wf_rows d Hwf)|done..|].
  destruct (reduce_loop_pivots (dec_k d) (dec_len d) (rows d) (pivots d) (coding_vector piece) (data piece))
    as [Hpz _]; [apply (wf_len d Hwf)|apply (wf_rows d Hwf)|done|done|by apply row_vecs_reduced|].
  destruct (reduce_loop_span (dec_k d) (dec_len d) (rows d) (pivots d) (row_vecs d)
              (coding_vector piece) (data piece)) as (u & Hu & Eu); [apply (wf_rows d Hwf)|done|done| |].
  { intros r Hr. apply span_elem; [done|]. apply list_elem_of_fmap; eauto. }
  rewrite Er in Hv', Hd', Hpz, Eu. cbn [fst snd] in *.
  assert (is_vec (dec_k d) u) as Huv by (by eapply span_vec).
  exists v', d', u. split; auto. rewrite Eu. symmetry. by eapply vadd_cancel.
Qed.

(** A complete decoder spans everything. *)
Lemma complete_span d v :
  dec_wf d -> is_complete d = true -> is_vec (dec_k d) v -> in_span (dec_k d) (row_vecs d) v.
Proof.
  intros Hwf Hc Hv.
  destruct (reduction_exists d (mk_piece v (zeros (dec_len d))) Hwf Hv (zeros_vec _))
    as (v' & d' & u & [? Hv' _ Hz Hu Huv _ Ecv]). cbn in Ecv.
  assert (v' = zeros (dec_k d)) as ->.
  { eapply vec_ext; [exact Hv'|apply zeros_vec|]. intros q Hq. rewrite at_zeros. apply Hz.
    rewrite (pivots_perm d Hwf Hc). apply list_elem_of_In, in_seq. lia. }
  rewrite Ecv, vadd_zeros_l; [done|apply Huv].
Qed.

Section one_piece.
Context (d : Decoder) (piece : CodedPiece) (Hwf : dec_wf d).
Context (v' d' u : bytes) (Hred : reduction d piece v' d' u).
Context (Hcv : is_vec (dec_k d) (coding_vector piece)).

Lemma Forall_snoc_vec w : is_vec (dec_k d) w -> Forall (is_vec (dec_k d)) (row_vecs d ++ [w]).
Proof.
  intros. apply Forall_app. split; [by apply row_vecs_vec|by apply Forall_singleton].
Qed.

Lemma span_last w : is_vec (dec_k d) w -> in_span (dec_k d) (row_vecs d ++ [w]) w.
Proof. intros. apply span_elem; [by apply Forall_snoc_vec|]. apply elem_of_app. right. left. Qed.

Lemma span_weaken w x :
  is_vec (dec_k d) w -> in_span (dec_k d) (row_vecs d) x -> in_span (dec_k d) (row_vecs d ++ [w]) x.
Proof. intros. eapply span_incl; [by apply Forall_snoc_vec| |done]. set_solver. Qed.

Lemma reduced_dependent : position_nonzero v' = None -> in_span (dec_k d) (row_vecs d) (coding_vector piece).
Proof.
  intros Ep%position_nonzero_None. rewrite (proj1 (red_v _ _ _ _ _ Hred)) in Ep.
  rewrite (red_cv_eq _ _ _ _ _ Hred), Ep, vadd_zeros_l; [apply (red_u _ _ _ _ _ Hred)|].
  apply (red_uv _ _ _ _ _ Hred).
Qed.

Lemma reduced_independent p :
  at_ v' p <> 0 -> ~ in_span (dec_k d) (row_vecs d) (coding_vector piece).
Proof.
  intros Hnz Hin. apply Hnz. enough (v' = zeros (dec_k d)) as -> by apply at_zeros.
  apply span_zero_at_pivots; [done| |apply (red_zero _ _ _ _ _ Hred)].
  rewrite (red_v_eq _ _ _ _ _ Hred). apply span_vadd; [by apply row_vecs_vec|done|].
  apply (red_u _ _ _ _ _ Hred).
Qed.

Lemma reduced_accepted p i :
  (p < dec_k d)%nat -> is_u8 i -> mul (at_ v' p) i = 1 ->
  accepted d piece (vscale i v') (vscale i d') p.
Proof.
  intros Hp Hi Hmul. destruct Hred as [Er Hv' Hd' Hz Hu Huv Ev Ecv].
  split; eauto with zeph.
  - by rewrite at_vscale, mul_comm.
  - intros q Hq. by rewrite at_vscale, Hz, mul_0_r.
  - apply span_vscale; [by apply Forall_snoc_vec|done|]. rewrite Ev.
    apply span_vadd; [by apply Forall_snoc_vec|by apply span_last|by apply span_weaken].
  - assert (is_vec (dec_k d) (vscale i v')) as Hw by auto with zeph.
    rewrite Ecv. apply span_vadd; [by apply Forall_snoc_vec| |by apply span_weaken].
    assert (is_u8 (at_ v' p)) as Ha by (by eapply at_u8).
    pose proof (span_vscale _ _ (at_ v' p) _ (Forall_snoc_vec _ Hw) Ha (span_last _ Hw)) as Hsp.
    by rewrite <-vscale_mul, Hmul, vscale_1 in Hsp by (done || apply Hv').
  - intros S HS Hrows Hp0.
    pose proof (reduce_loop_valid (dec_k d) (dec_len d) S (rows d) (pivots d)
                  (coding_vector piece) (data piece) HS Hrows) as Hval.
    rewrite Er in Hval. cbn [fst snd] in Hval.
    pose proof (valid_scale _ _ _ HS (mk_piece v' d') i Hi) as Hs. cbn [coding_vector data] in Hs.
    rewrite (scale_eq (dec_k d)), (scale_eq (dec_len d)) in Hs by done.
    apply Hs, Hval. by destruct piece.
Qed.
End one_piece.

(** [add_piece] never panics on a well-shaped piece: it rejects exactly the
    dependent ones, leaving the decoder as it was, and accepts the others. *)
Lemma add_piece_cases d piece :
  dec_wf d -> is_vec (dec_k d) (coding_vector piece) -> is_vec (dec_len d) (data piece) ->
  (in_span (dec_k d) (row_vecs d) (coding_vector piece) /\
   add_piece d piece = Some (Ok false, d)) \/
  (~ in_span (dec_k d) (row_vecs d) (coding_vector piece) /\
   exists w e p, add_piece d piece = Some (Ok true, accept d w e p) /\ accepted d piece w e p).
Proof.
  intros Hwf Hcv Hd. unfold add_piece.
  rewrite (proj1 Hcv), (proj1 Hd), !Nat.eqb_refl. cbn [negb orb].
  destruct (is_complete d) eqn:Hc; [left; split; [by apply complete_span|done]|].
  destruct (reduction_exists d piece Hwf Hcv Hd) as (v' & d' & u & Hred).
  rewrite (red_eq _ _ _ _ _ Hred). pose proof (red_v _ _ _ _ _ Hred) as Hv'.
  destruct (position_nonzero v') as [p|] eqn:Ep;
    [right|left; split; [by eapply reduced_dependent|done]].
  apply position_nonzero_Some in Ep as [Hp Hnz]. rewrite (proj1 Hv') in Hp.
  split; [by eapply reduced_independent|].
  destruct (inv_total (at_ v' p)) as [i Hi]; [by eapply at_u8|done|]. rewrite nth_at, Hi.
  apply inv_spec in Hi as (Hi8 & _ & Hmul); [|by eapply at_u8].
  rewrite (scale_eq (dec_k d)), (scale_eq (dec_len d)) by (done || apply (red_d _ _ _ _ _ Hred)).
  exists (vscale i v'), (vscale i d'), p. split; [done|]. by eapply reduced_accepted.
Qed.

(** ** Feeding pieces *)

(** [for piece in pieces { decoder.add_piece(piece) }]; [None] is a panic. *)
Fixpoint feed (d : Decoder) (ps : list CodedPiece) : option Decoder :=
  match ps with
  | [] => Some d
  | p :: ps' => match add_piece d p with
                | None => None
                | Some (_, d') => feed d' ps'
                end
  end.

Notation vectors ps := (map coding_vector ps).

(** Every piece is linearly independent of the ones before it. *)
Definition independent (k : nat) (ps : list CodedPiece) : Prop :=
  forall i p, ps !! i = Some p -> ~ in_span k (vectors (take i ps)) (coding_vector p).

Section feeding.
Context (k len : nat) (S : list bytes) (HS : is_rows k len S).

(** The decoder after it has been fed [ps]. *)
Record fed (d : Decoder) (ps : list CodedPiece) : Prop := {
  fed_wf : dec_wf d;
  fed_k : dec_k d = k;
  fed_len : dec_len d = len;
  fed_valid : Forall (fun r => valid k len S (mk_piece (fst r) (snd r))) (rows d);
  fed_pieces : Forall (valid k len S) ps;
  fed_span : forall v, in_span k (row_vecs d) v <-> in_span k (vectors ps) v
}.

Lemma new_fed : fed (new k len) [].
Proof.
  split; cbn; auto; try apply Forall_nil_2; done.
Qed.

Lemma vectors_vec ps : Forall (valid k len S) ps -> Forall (is_vec k) (vectors ps).
Proof. intros H. apply Forall_fmap. eapply Forall_impl; [|exact H]. by intros p [? _]. Qed.

Lemma accept_fed_valid d w e p :
  dec_wf d -> dec_k d = k -> dec_len d = len -> at_ w p = 1 ->
  Forall (fun r => valid k len S (mk_piece (fst r) (snd r))) (rows d) ->
  valid k len S (mk_piece w e) ->
  Forall (fun r => valid k len S (mk_piece (fst r) (snd r))) (rows (accept d w e p)).
Proof.
  intros Hwf Hk Hl Hone Hrows Hw. cbn. rewrite eliminate_loop_map by apply (wf_len d Hwf).
  apply Forall_app. split; [|by apply Forall_singleton].
  apply Forall_fmap. eapply Forall_impl; [|exact Hrows]. intros r Hr. cbn.
  apply (valid_axpy k len S HS (mk_piece (fst r) (snd r)) (mk_piece w e)); auto.
  eapply at_u8, (proj1 Hr).
Qed.

Lemma feed_step d ps p :
  fed d ps -> valid k len S p ->
  exists b d', add_piece d p = Some (Ok b, d') /\ fed d' (ps ++ [p]) /\
    rank d' = (if b then Datatypes.S (rank d) else rank d) /\
    (b = true <-> ~ in_span k (vectors ps) (coding_vector p)).
Proof.
  intros [Hwf Hk Hl Hval Hps Hspan] Hp. pose proof (valid_data_vec k len S HS p Hp) as Hpd.
  pose proof (row_vecs_vec d Hwf) as Hrv. pose proof (vectors_vec ps Hps) as Hvs.
  assert (Forall (valid k len S) (ps ++ [p])) as Hps' by (apply Forall_app; split; [done|by apply Forall_singleton]).
  pose proof (vectors_vec _ Hps') as Hvs'. rewrite map_app in Hvs'. cbn in Hvs'.
  assert (forall x, in_span k (row_vecs d) x -> in_span k (vectors ps ++ [coding_vector p]) x) as Hold.
  { intros x Hx%Hspan. eapply span_incl; [done| |done]. set_solver. }
  assert (in_span k (vectors ps ++ [coding_vector p]) (coding_vector p)) as Hlast
    by (apply span_elem; [done|]; apply elem_of_app; right; left).
  destruct (add_piece_cases d p Hwf) as [[Hin E]|[Hnin (w & e & q & E & Hacc)]];
    rewrite ?Hk, ?Hl in *; [apply Hp|done| |].
  - exists false, d. split_and!; [done| |done|rewrite <-Hspan; naive_solver].
    split; auto. intros v. rewrite map_app. cbn. split; [apply Hold|].
    apply span_trans; [done|]. apply Forall_app. split; [|by apply Forall_singleton].
    apply list.Forall_forall. intros x Hx. apply Hspan. by apply span_elem.
  - exists true, (accept d w e q). destruct Hacc as [Hw He Hq Hone Hzero Hws Hcs Hvl].
    rewrite Hk, Hl in *. split_and!; [done| |by apply accept_rank|rewrite <-Hspan; naive_solver].
    assert (dec_wf (accept d w e q)) as Hwf' by (apply accept_wf; rewrite ?Hk, ?Hl; auto).
    split; auto; [apply accept_fed_valid; auto|].
    intros v. pose proof (accept_span d Hwf w e q) as Hsp. rewrite Hk, Hl in Hsp.
    rewrite Hsp by auto. rewrite map_app. cbn.
    assert (Forall (is_vec k) (row_vecs d ++ [w])) as Hrw
      by (apply Forall_app; split; [done|by apply Forall_singleton]).
    split; apply span_trans; auto; apply Forall_app; split.
    + apply list.Forall_forall. intros x Hx. apply Hold. by apply span_elem.
    + apply Forall_singleton. eapply span_trans; [done| |exact Hws].
      apply Forall_app. split; [|by apply Forall_singleton].
      apply list.Forall_forall. intros x Hx. apply Hold. by apply span_elem.
    + apply list.Forall_forall. intros x Hx.
      eapply span_incl; [exact Hrw| |apply Hspan; by apply span_elem]. set_solver.
    + by apply Forall_singleton.
Qed.
End feeding.

Section decoding.
Context (k len : nat) (S : list bytes) (HS : is_rows k len S).

Lemma feed_total d ps qs :
  fed k len S d ps -> Forall (valid k len S) qs ->
  exists d', feed d qs = Some d' /\ fed k len S d' (ps ++ qs).
Proof.
  intros Hfed Hqs. revert d ps Hfed. induction Hqs as [|q qs Hq Hqs IH]; intros d ps Hfed; cbn.
  - exists d. by rewrite app_nil_r.
  - destruct (feed_step k len S HS d ps q Hfed Hq) as (b & d1 & -> & Hfed1 & _).
    destruct (IH d1 _ Hfed1) as (d2 & -> & Hfed2). exists d2. by rewrite <-app_assoc in Hfed2.
Qed.

Lemma feed_independent_rank d ps qs :
  fed k len S d ps -> Forall (valid k len S) qs ->
  (forall i q, qs !! i = Some q -> ~ in_span k (vectors (ps ++ take i qs)) (coding_vector q)) ->
  exists d', feed d qs = Some d' /\ fed k len S d' (ps ++ qs) /\ rank d' = (rank d + length qs)%nat.
Proof.
  intros Hfed Hqs. revert d ps Hfed. induction Hqs as [|q qs Hq Hqs IH]; intros d ps Hfed Hind; cbn.
  - exists d. rewrite app_nil_r. split_and!; auto. 
  - destruct (feed_step k len S HS d ps q Hfed Hq) as (b & d1 & -> & Hfed1 & Hr & Hb).
    assert (b = true) as ->.
    { apply Hb. specialize (Hind 0%nat q eq_refl). cbn in Hind. by rewrite app_nil_r in Hind. }
    destruct (IH d1 _ Hfed1) as (d2 & -> & Hfed2 & Hr2).
    { intros i q' Hi. specialize (Hind (Datatypes.S i) q' Hi). cbn in Hind.
      by rewrite <-app_assoc. }
    exists d2. rewrite <-app_assoc in Hfed2. split_and!; auto. rewrite Hr2, Hr. lia.
Qed.

(** In a complete reduced decoder row [i] is the unit vector of its pivot. *)
Lemma complete_row_unit d i r p :
  dec_wf d -> is_complete d = true -> rows d !! i = Some r -> pivots d !! i = Some p ->
  fst r = unit_vec (dec_k d) p.
Proof.
  intros Hwf Hc Hr Hp.
  assert (p < dec_k d)%nat as Hpk by (by eapply pivot_lt).
  eapply vec_ext; [|apply unit_vec_vec|].
  { eapply Forall_lookup_1 in Hr; [|apply (wf_rows d Hwf)]. apply Hr. }
  intros q Hq. rewrite at_unit by done.
  assert (q ∈ pivots d) as [j Hj]%list_elem_of_lookup.
  { rewrite (pivots_perm d Hwf Hc). apply list_elem_of_In, in_seq. lia. }
  rewrite (wf_reduced d Hwf i j r q) by done.
  pose proof (pivots_NoDup d Hwf) as Hnd. rewrite NoDup_alt in Hnd.
  destruct (decide (i = j)) as [<-|Hne], (decide (p = q)) as [->|Hpq]; try done; try congruence.
  exfalso. eauto.
Qed.

Lemma complete_zip d ps :
  fed k len S d ps -> is_complete d = true ->
  zip (pivots d) (map snd (rows d)) = map (fun p => (p, nth p S [])) (pivots d).
Proof.
  intros [Hwf Hk Hl Hval _ _] Hc. apply list_eq. intros i.
  rewrite lookup_zip_with, !list_lookup_fmap.
  destruct (pivots d !! i) as [p|] eqn:Hp; cbn; [|done].
  destruct (lookup_lt_is_Some_2 (rows d) i) as [r Hr].
  { rewrite (wf_len d Hwf). by eapply lookup_lt_Some. }
  rewrite Hr. cbn. do 2 f_equal.
  pose proof (complete_row_unit d i r p Hwf Hc Hr Hp) as Hu.
  eapply Forall_lookup_1 in Hr; [|exact Hval]. destruct Hr as [_ Hd]. cbn in Hd. rewrite Hd, Hu, Hk.
  assert (p < length S)%nat as Hlt.
  { rewrite (proj1 HS), <-Hk. by eapply pivot_lt. }
  destruct (lookup_lt_is_Some_2 S p Hlt) as [s Hs].
  rewrite (comb_unit k len S p s) by done. by rewrite nth_lookup, Hs.
Qed.

Lemma seq_pairs_sorted (l : list bytes) n m :
  Sorted (fun a b : nat * bytes => le_on fst a b = true) (map (fun p => (p, nth p l [])) (seq n m)).
Proof.
  revert n; induction m as [|m IH]; intros n; cbn; constructor; [apply IH|].
  destruct m; cbn; constructor.
  apply le_on_spec. unfold ole. cbn [fst]. unfold cmp, Ord_nat. by rewrite Nat.compare_gt_iff; lia.
Qed.

Lemma map_nth_seq (l : list bytes) : map (fun p => nth p l []) (seq 0 (length l)) = l.
Proof.
  apply list_eq. intros i. rewrite list_lookup_fmap.
  destruct (decide (i < length l)%nat) as [Hi|Hi].
  - rewrite lookup_seq_lt by done. cbn. rewrite nth_lookup.
    by destruct (lookup_lt_is_Some_2 l i Hi) as [x ->].
  - rewrite lookup_seq_ge by lia. cbn. by rewrite lookup_ge_None_2 by lia.
Qed.

Lemma complete_decodes d ps :
  fed k len S d ps -> is_complete d = true -> decode d = Ok S.
Proof.
  intros Hfed Hc. unfold decode. rewrite Hc. cbn. f_equal.
  rewrite (complete_zip d ps Hfed Hc). pose proof (fed_wf _ _ _ _ _ Hfed) as Hwf.
  rewrite (sort_by_key_canonical fst _ (map (fun p => (p, nth p S [])) (seq 0 (dec_k d)))).
  - rewrite (sort_by_id (le_on fst)) by apply seq_pairs_sorted.
    rewrite map_map. cbn. rewrite (fed_k _ _ _ _ _ Hfed), <-(proj1 HS). apply map_nth_seq.
  - apply fmap_Permutation. by apply pivots_perm.
  - intros x y (p & -> & _)%list_elem_of_fmap (q & -> & _)%list_elem_of_fmap. cbn. by intros ->.
Qed.
End decoding.

(** ** Recoding, pass by pass *)

Lemma recode_pass_comb k len held cs rest cv d :
  Forall (fun p => is_vec k (coding_vector p) /\ is_vec len (data p)) held ->
  is_vec (length held) cs -> is_vec k cv -> is_vec len d ->
  recode_pass held (cs ++ rest) cv d =
  Some (vadd cv (comb k (vectors held) cs), vadd d (comb len (map data held) cs), rest).
Proof.
  intros Hh. revert cs cv d. induction Hh as [|p held [Hp1 Hp2] Hh IH]; intros cs cv d Hcs Hcv Hd.
  - rewrite (vec_nil _ Hcs). cbn [recode_pass app map comb].
    rewrite !vadd_zeros_r by (apply Hcv || apply Hd). done.
  - apply vec_cons in Hcs as (c & cs' & -> & Hc & Hcs). cbn [recode_pass app map comb].
    rewrite IH by (done || by apply axpy_vec).
    rewrite (axpy_eq k), (axpy_eq len), !vadd_assoc by done. done.
Qed.

Lemma nonzero_zeros n : nonzero (zeros n) = false.
Proof. induction n; [done|]. rewrite zeros_S. cbn. done. Qed.

Section recoding.
Context (k len : nat) (S : list bytes) (HS : is_rows k len S).
Context (held : list CodedPiece) (Hheld : Forall (valid k len S) held).

Lemma held_vecs : Forall (fun p => is_vec k (coding_vector p) /\ is_vec len (data p)) held.
Proof.
  eapply Forall_impl; [|exact Hheld]. intros p Hp. split; [apply Hp|by apply (valid_data_vec k len S HS)].
Qed.

Lemma recode_first_pass cs rest :
  is_vec (length held) cs ->
  recode_pass held (cs ++ rest) (replicate k 0) (replicate len 0) =
  Some (comb k (vectors held) cs, comb len (map data held) cs, rest).
Proof.
  intros Hcs. rewrite (recode_pass_comb k len) by (apply held_vecs || apply zeros_vec || done).
  change (replicate k 0) with (zeros k). change (replicate len 0) with (zeros len).
  assert (Forall (is_vec k) (vectors held)) by by apply (vectors_vec k len S).
  rewrite !vadd_zeros_l; [done| |].
  - apply (comb_vec (length held) len (map data held) cs); [|apply Hcs].
    split; [apply length_map|]. apply Forall_fmap. eapply Forall_impl; [|apply held_vecs]. by intros p [_ ?].
  - apply (comb_vec (length held) k (vectors held) cs); [|apply Hcs].
    split; [apply length_map|done].
Qed.

(** All-zero passes are degenerate and retried. *)
Lemma recode_loop_returns m fuel cs rest :
  (m < fuel)%nat -> is_vec (length held) cs -> nonzero (comb k (vectors held) cs) = true ->
  recode_loop fuel held k len (replicate (m * length held) 0 ++ cs ++ rest) =
  Some (mk_piece (comb k (vectors held) cs) (comb len (map data held) cs), rest).
Proof.
  revert fuel. induction m as [|m IH]; intros [|fuel] Hf Hcs Hn; try lia; cbn [recode_loop].
  - cbn [Nat.mul replicate app]. rewrite recode_first_pass, Hn by done. done.
  - assert (replicate (Datatypes.S m * length held) 0
            = zeros (length held) ++ replicate (m * length held) 0) as -> by (unfold zeros; by rewrite <-replicate_add).
    rewrite <-app_assoc, recode_first_pass by apply zeros_vec.
    rewrite (comb_zeros (length held)), nonzero_zeros.
    + apply IH; [lia|done..].
    + split; [apply length_map|by apply (vectors_vec k len S)].
Qed.

(** The data of the recoded piece is what its coding vector says. *)
Lemma comb_data_vectors cs :
  is_vec (length held) cs -> comb len (map data held) cs = comb len S (comb k (vectors held) cs).
Proof.
  clear -HS Hheld. intros Hcs. revert cs Hcs.
  induction Hheld as [|p ps Hp Hps IH]; intros cs Hcs.
  - cbn [map comb]. by rewrite (comb_zeros k).
  - apply vec_cons in Hcs as (c & cs' & -> & Hc & Hcs). cbn [map comb].
    destruct Hp as [Hpv ->].
    assert (is_vec k (comb k (vectors ps) cs')) as Hcv.
    { eapply (comb_vec (length ps)); [|apply Hcs]. split; [apply length_map|by apply (vectors_vec k len S)]. }
    rewrite (comb_vadd k), (comb_vscale k) by auto with zeph. f_equal. by apply IH.
Qed.
End recoding.

(** ** Properties *)

(** C4: any [k] valid, linearly independent pieces of a generation of [k]
    sources reconstruct it: feeding them to a fresh decoder never panics,
    completes it, and [decode] returns exactly the sources, in order. *)
Theorem any_k_independent_pieces_decode k len S ps :
  is_rows k len S -> Forall (valid k len S) ps -> length ps = k -> independent k ps ->
  exists d, feed (new k len) ps = Some d /\ is_complete d = true /\ decode d = Ok S.
Proof.
  intros HS Hps Hl Hind.
  destruct (feed_independent_rank k len S HS (new k len) [] ps) as (d & E & Hfed & Hr);
    [by apply new_fed|done|exact Hind|].
  exists d. assert (is_complete d = true) as Hc.
  { apply Nat.eqb_eq. rewrite Hr, (fed_k _ _ _ _ _ Hfed). cbn. lia. }
  split_and!; auto. by eapply complete_decodes.
Qed.

(** Two sources of one byte, two unit pieces. *)
Definition ex_sources : list bytes := [[5]; [7]].
Definition ex_pieces : list CodedPiece := [mk_piece [0; 1] [7]; mk_piece [3; 1] [Z.lxor (mul 3 5) 7]].

Lemma ex_rows : is_rows 2 1 ex_sources.
Proof. split; [done|]. repeat constructor; unfold_int; lia. Qed.

Lemma ex_valid : Forall (valid 2 1 ex_sources) ex_pieces.
Proof.
  repeat constructor; try done; unfold_int; lia.
Qed.

Lemma ex_independent : independent 2 ex_pieces.
Proof.
  intros [|[|i]] p; cbn; intros [= <-]; intros (cs & Hcs & E); cbn in *.
  - by destruct cs.
  - apply vec_cons in Hcs as (c & cs' & -> & Hc & Hcs). cbn in E.
    assert (at_ [3; 1] 0 = 0) as H; [|done]. rewrite E.
    rewrite at_vadd by done. rewrite at_vscale. cbn. by rewrite mul_0_r.
Qed.

Lemma any_k_independent_pieces_decode_witness :
  length ex_pieces = 2%nat /\
  exists d, feed (new 2 1) ex_pieces = Some d /\ is_complete d = true /\ decode d = Ok ex_sources.
Proof.
  split; [done|]. apply (any_k_independent_pieces_decode 2 1 ex_sources ex_pieces).
  - apply ex_rows.
  - apply ex_valid.
  - done.
  - apply ex_independent.
Defined.

(** whatever valid pieces arrive, in whatever order and however many are
    dependent, feeding them never panics; [decode] then either returns exactly
    the sources or reports the decoder incomplete, and it is never wrong. *)
Theorem decode_sound_any_feed k len S ps :
  is_rows k len S -> Forall (valid k len S) ps ->
  exists d, feed (new k len) ps = Some d /\ (rank d <= k)%nat /\
    decode d = if is_complete d then Ok S else Err (Incomplete (rank d) k).
Proof.
  intros HS Hps.
  destruct (feed_total k len S HS (new k len) [] ps) as (d & E & Hfed); [by apply new_fed|done|].
  exists d. split; [done|]. pose proof (rank_le d (fed_wf _ _ _ _ _ Hfed)) as Hr.
  rewrite (fed_k _ _ _ _ _ Hfed) in Hr. split; [done|].
  destruct (is_complete d) eqn:Hc; [by eapply complete_decodes|].
  unfold decode. by rewrite Hc, (fed_k _ _ _ _ _ Hfed).
Qed.

Lemma decode_sound_any_feed_witness :
  exists d, feed (new 2 1) (ex_pieces ++ ex_pieces) = Some d /\ (rank d <= 2)%nat /\
    decode d = if is_complete d then Ok ex_sources else Err (Incomplete (rank d) 2).
Proof.
  apply (decode_sound_any_feed 2 1 ex_sources (ex_pieces ++ ex_pieces)).
  - apply ex_rows.
  - apply Forall_app. split; apply ex_valid.
Defined.

(** after any valid pieces [ps], [add_piece] on a valid piece returns
    [Ok true] exactly when its coding vector is outside the span of the coding
    vectors of [ps]; a dependent piece leaves the decoder unchanged and an
    independent one raises the rank by one. *)
Theorem add_piece_accepts_iff_independent k len S ps p :
  is_rows k len S -> Forall (valid k len S) ps -> valid k len S p ->
  exists d b d', feed (new k len) ps = Some d /\ add_piece d p = Some (Ok b, d') /\
    (b = true <-> ~ in_span k (vectors ps) (coding_vector p)) /\
    rank d' = (if b then Datatypes.S (rank d) else rank d) /\ (b = false -> d' = d).
Proof.
  intros HS Hps Hp.
  destruct (feed_total k len S HS (new k len) [] ps) as (d & E & Hfed); [by apply new_fed|done|].
  destruct (feed_step k len S HS d _ p Hfed Hp) as (b & d' & Ea & _ & Hr & Hb).
  exists d, b, d'. split_and!; auto. intros ->.
  pose proof (fed_wf _ _ _ _ _ Hfed) as Hwf.
  pose proof (valid_data_vec k len S HS p Hp) as Hd. destruct Hp as [Hpv _].
  destruct (add_piece_cases d p Hwf) as [[_ E']|(_ & w & e & q & E' & _)];
    rewrite ?(fed_k _ _ _ _ _ Hfed), ?(fed_len _ _ _ _ _ Hfed); auto; congruence.
Qed.

Lemma add_piece_accepts_iff_independent_witness :
  exists d b d', feed (new 2 1) (take 1 ex_pieces) = Some d /\
    add_piece d (mk_piece [3; 1] [Z.lxor (mul 3 5) 7]) = Some (Ok b, d') /\
    (b = true <-> ~ in_span 2 (vectors (take 1 ex_pieces)) [3; 1]) /\
    rank d' = (if b then Datatypes.S (rank d) else rank d) /\ (b = false -> d' = d).
Proof.
  apply (add_piece_accepts_iff_independent 2 1 ex_sources (take 1 ex_pieces)
           (mk_piece [3; 1] [Z.lxor (mul 3 5) 7])).
  - apply ex_rows.
  - apply Forall_take, ex_valid.
  - pose proof ex_valid as H. inversion_clear H as [|?? _ H']. by inversion_clear H'.
Defined.

(** [encode] on a non-empty generation of equal-length, non-empty sources
    returns as soon as the random tape offers a chunk that is not all zero,
    however many all-zero chunks come first, and the piece it returns is valid:
    that chunk is its coding vector and its data the combination of the
    sources by it. *)
Theorem encode_returns_valid_piece k len S m v rest :
  is_rows k len S -> (0 < k)%nat -> (0 < len)%nat -> is_vec k v -> nonzero v = true ->
  encode S (replicate (m * k) 0 ++ v ++ rest) = Some (Ok (mk_piece v (comb len S v)), rest) /\
  valid k len S (mk_piece v (comb len S v)).
Proof.
  intros HS Hk Hl Hv Hn. split; [|by split].
  unfold encode. rewrite (check_sources_rows k len S) by done. rewrite (proj1 HS).
  rewrite sample_loop_returns; [|rewrite !length_app, length_replicate; destruct k; lia|apply Hv|done].
  do 2 f_equal. f_equal. f_equal.
  rewrite (combine_loop_comb k len) by (auto; apply zeros_vec).
  rewrite drop_0. change (replicate len 0) with (zeros len).
  rewrite vadd_zeros_l; [done|]. eapply comb_vec; [exact HS|apply Hv].
Qed.

Lemma encode_returns_valid_piece_witness :
  encode ex_sources ([0; 0] ++ [2; 3] ++ [9]) = Some (Ok (mk_piece [2; 3] (comb 1 ex_sources [2; 3])), [9]) /\
  valid 2 1 ex_sources (mk_piece [2; 3] (comb 1 ex_sources [2; 3])).
Proof.
  apply (encode_returns_valid_piece 2 1 ex_sources 1 [2; 3] [9]).
  - apply ex_rows.
  - lia.
  - lia.
  - split; [done|]. repeat constructor; unfold_int; lia.
  - done.
Defined.

(** [recode] over valid held pieces returns as soon as a pass of random
    coefficients combines their coding vectors to something nonzero (all-zero
    passes before it are retried); the minted piece combines coding vectors
    and data alike, so it is itself a valid piece of the same generation,
    without any decoding. *)
Theorem recode_mints_valid_piece k len S held m cs rest :
  is_rows k len S -> Forall (valid k len S) held -> held <> [] ->
  is_vec (length held) cs -> nonzero (comb k (vectors held) cs) = true ->
  let p := mk_piece (comb k (vectors held) cs) (comb len (map data held) cs) in
  recode held (replicate (m * length held) 0 ++ cs ++ rest) = Some (Ok p, rest) /\
  valid k len S p.
Proof.
  intros HS Hheld Hne Hcs Hn p. split.
  - rewrite (recode_unfold k len S) by done.
    rewrite (recode_loop_returns k len S) by
      (done || (rewrite !length_app, length_replicate; destruct held; cbn in *; [done|lia])).
    done.
  - split; cbn [coding_vector data p].
    + apply (comb_vec (length held) k (vectors held) cs); [|apply Hcs].
      split; [apply length_map|by apply (vectors_vec k len S)].
    + by apply comb_data_vectors.
Qed.

Lemma recode_mints_valid_piece_witness :
  let p := mk_piece (comb 2 (vectors ex_pieces) [1; 2]) (comb 1 (map data ex_pieces) [1; 2]) in
  recode ex_pieces ([0; 0] ++ [1; 2] ++ []) = Some (Ok p, []) /\ valid 2 1 ex_sources p.
Proof.
  apply (recode_mints_valid_piece 2 1 ex_sources ex_pieces 1 [1; 2] []).
  - apply ex_rows.
  - apply ex_valid.
  - done.
  - split; [done|]. repeat constructor; unfold_int; lia.
  - vm_compute. reflexivity.
Defined.
