(* ===== verification/VTags.v ===== *)
(** Null-space verification tags ([crates/erasure/src/vtags.rs]).

    BLAKE3's extendable output is not part of the repository: it is the
    parameter [xof] (input bytes, output length), of which the code relies only
    on returning that many bytes. *)

From S2P Require Import Prelude Gf Linear Erasure ErasureDecode.

Open Scope Z_scope.

Definition L : nat := 8.
Definition SCHEME_NULL_SPACE_V1 : Z := 1.

Record VTag := mk_vtag { seed : bytes; coeff_part : bytes }.

Record VTags := mk_vtags {
  scheme : Z;
  vt_k : Z;
  vt_piece_len : Z;
  tags : list VTag
}.

Definition VTAG_DOMAIN : bytes := str_bytes "zeph-vtag-v1".

(** The output stream of a finalized hasher, filled into a buffer. *)
Class Xof := xof : bytes -> nat -> bytes.

(** Filling a buffer of [n] bytes yields [n] bytes. *)
Class XofLaws `{Xof} := xof_vec : forall input n, is_vec n (xof input n).

Section vtags.
Context `{XofLaws}.

(** [update(b"zeph-vtag-v1"); update(seed); finalize_xof().fill(out)]. *)
Definition derive_v_d (seed : bytes) (piece_len : nat) : bytes :=
  xof (VTAG_DOMAIN ++ seed) piece_len.

(** One tag: a fresh seed from the tape, then one dot product per source. *)
Definition gen_tag (sources : list bytes) (piece_len : nat) (t : tape) : option (VTag * tape) :=
  match fill_bytes 32 t with
  | None => None
  | Some (sd, t') =>
      let v_d := derive_v_d sd piece_len in
      Some (mk_vtag sd (map (fun s => dot s v_d) sources), t')
  end.

(** [(0..n).map(..).collect()]. *)
Fixpoint gen_tags (n : nat) (sources : list bytes) (piece_len : nat) (t : tape)
  : option (list VTag * tape) :=
  match n with
  | O => Some ([], t)
  | S n' =>
      match gen_tag sources piece_len t with
      | None => None
      | Some (tag, t') =>
          match gen_tags n' sources piece_len t' with
          | None => None
          | Some (tags, t'') => Some (tag :: tags, t'')
          end
      end
  end.

Definition generate (sources : list bytes) (t : tape)
  : option (result VTags ErasureError * tape) :=
  match sources with
  | [] => Some (Err BadSources, t)
  | first :: _ =>
      let piece_len := length first in
      if (piece_len =? 0)%nat || existsb (fun s => negb (length s =? piece_len)%nat) sources
      then Some (Err BadSources, t)
      else match gen_tags L sources piece_len t with
           | None => None
           | Some (tags, t') =>
               Some (Ok (mk_vtags SCHEME_NULL_SPACE_V1 (as_u32 (Z.of_nat (length sources)))
                           (Z.of_nat piece_len) tags), t')
           end
  end.

Definition verify (vtags : VTags) (piece : CodedPiece) : bool :=
  if negb (scheme vtags =? SCHEME_NULL_SPACE_V1) then false
  else if negb (Z.of_nat (length (coding_vector piece)) =? vt_k vtags)
          || negb (Z.of_nat (length (data piece)) =? vt_piece_len vtags)
  then false
  else forallb (fun tag =>
         let v_d := derive_v_d (seed tag) (Z.to_nat (vt_piece_len vtags)) in
         Z.lxor (dot (coding_vector piece) (coeff_part tag)) (dot (data piece) v_d) =? 0)
       (tags vtags).

(** ** The tags of a generation *)

(** A tag is right for [S] when its coefficient part is [S_i . v_d]. *)
Definition tag_for (len : nat) (S : list bytes) (tag : VTag) : Prop :=
  coeff_part tag = map (fun s => dsum s (derive_v_d (seed tag) len)) S.

Lemma gen_tag_for S len t tag t' : gen_tag S len t = Some (tag, t') -> tag_for len S tag.
Proof.
  unfold gen_tag, tag_for. destruct (fill_bytes 32 t) as [[sd t1]|]; [|done].
  intros [= <- <-]. cbn. apply map_ext. intros. apply dot_dsum.
Qed.

Lemma gen_tags_for n S len t ts t' :
  gen_tags n S len t = Some (ts, t') -> length ts = n /\ Forall (tag_for len S) ts.
Proof.
  revert t ts; induction n as [|n IH]; intros t ts E; cbn in E; [by simplify_eq|].
  destruct (gen_tag S len t) as [[tag t1]|] eqn:Eg; [|done].
  destruct (gen_tags n S len t1) as [[ts' t2]|] eqn:Es; [|done]. simplify_eq.
  apply IH in Es as [<- Hts]. apply gen_tag_for in Eg. split; [done|by constructor].
Qed.

Lemma gen_tags_total n S len t :
  (n * 32 <= length t)%nat -> exists ts, gen_tags n S len t = Some (ts, drop (n * 32) t).
Proof.
  revert t; induction n as [|n IH]; intros t Ht; cbn [gen_tags]; [by eauto|].
  unfold gen_tag, fill_bytes. rewrite (proj2 (Nat.leb_le 32 (length t))) by lia.
  destruct (IH (drop 32 t)) as [ts ->]; [rewrite length_drop; lia|].
  eexists. do 2 f_equal. by rewrite drop_drop.
Qed.

Lemma generate_tags k len S t :
  is_rows k len S -> (0 < k)%nat -> (0 < len)%nat -> (L * 32 <= length t)%nat ->
  exists ts, generate S t =
      Some (Ok (mk_vtags SCHEME_NULL_SPACE_V1 (as_u32 (Z.of_nat k)) (Z.of_nat len) ts), drop (L * 32) t) /\
    length ts = L /\ Forall (tag_for len S) ts.
Proof.
  intros HS Hk Hl Ht. pose proof (check_sources_rows k len S HS Hk Hl) as Hc.
  destruct HS as [HkS HS]. unfold generate. destruct S as [|s S]; [cbn in *; lia|].
  unfold check_sources in Hc. destruct (_ || _) eqn:Eo; [done|]. injection Hc as ->.
  destruct (gen_tags_total L (s :: S) len t Ht) as [ts Ets]. rewrite Ets, HkS.
  exists ts. split; [done|]. by eapply gen_tags_for.
Qed.

(** The check of one tag, as a statement about the error in the data. *)
Lemma tag_check k len S tag p :
  is_rows k len S -> is_vec k (coding_vector p) -> is_vec len (data p) -> tag_for len S tag ->
  (Z.lxor (dot (coding_vector p) (coeff_part tag))
          (dot (data p) (derive_v_d (seed tag) len)) =? 0) = true <->
  dsum (vadd (data p) (comb len S (coding_vector p))) (derive_v_d (seed tag) len) = 0.
Proof.
  intros HS Hcv Hd Htag. rewrite Z.eqb_eq, !dot_dsum, Htag.
  assert (is_bytes (derive_v_d (seed tag) len)) as Hx by apply (xof_vec (VTAG_DOMAIN ++ seed tag) len).
  assert (is_vec len (comb len S (coding_vector p))) as Hc by (eapply comb_vec; [done|apply Hcv]).
  rewrite <-(dsum_comb k len) by done.
  rewrite (dsum_vadd_l len) by done. by rewrite Z.lxor_comm.
Qed.

Lemma verify_tags k len S vt p ts :
  is_rows k len S -> Z.of_nat k <= U32_MAX ->
  vt = mk_vtags SCHEME_NULL_SPACE_V1 (as_u32 (Z.of_nat k)) (Z.of_nat len) ts ->
  Forall (tag_for len S) ts -> is_vec k (coding_vector p) -> is_vec len (data p) ->
  verify vt p = true <->
  (forall tag, tag ∈ ts ->
     dsum (vadd (data p) (comb len S (coding_vector p))) (derive_v_d (seed tag) len) = 0).
Proof.
  intros HS Hk -> Hts Hcv Hd. unfold verify. cbn.
  assert (as_u32 (Z.of_nat k) = Z.of_nat k) as -> by (apply Z.mod_small; unfold_int; lia).
  rewrite (proj1 Hcv), (proj1 Hd), !Z.eqb_refl, Nat2Z.id. cbn [negb orb].
  rewrite forallb_forall. rewrite Forall_forall in Hts.
  split; intros H2 tag Hin.
  - apply list_elem_of_In in Hin. apply (tag_check k len S tag p); auto.
  - apply (tag_check k len S tag p); auto. apply H2. by apply list_elem_of_In.
Qed.
End vtags.

(** ** Properties *)

(** for tags generated from a generation, [verify] accepts a piece of the
    right shape exactly when the error of its data (its difference from the
    combination its coding vector names) is orthogonal to every derived vector
    [v_d].  In particular valid pieces, original or recoded, always verify,
    and a piece is wrongly accepted only if all [L = 8] dot products of its
    error vanish. *)
Theorem verify_iff_error_orthogonal `{XofLaws} k len S t p :
  is_rows k len S -> (0 < k)%nat -> (0 < len)%nat -> Z.of_nat k <= U32_MAX ->
  (L * 32 <= length t)%nat -> is_vec k (coding_vector p) -> is_vec len (data p) ->
  exists vt, generate S t = Some (Ok vt, drop (L * 32) t) /\ length (tags vt) = L /\
    (verify vt p = true <->
     forall tag, tag ∈ tags vt ->
       dsum (vadd (data p) (comb len S (coding_vector p))) (derive_v_d (seed tag) len) = 0) /\
    (valid k len S p -> verify vt p = true).
Proof.
  intros HS Hk Hl Hk32 Ht Hcv Hd.
  destruct (generate_tags k len S t HS Hk Hl Ht) as (ts & E & Hlen & Hts).
  eexists. split; [exact E|]. split; [done|].
  assert (forall tag, tag ∈ ts -> valid k len S p ->
    dsum (vadd (data p) (comb len S (coding_vector p))) (derive_v_d (seed tag) len) = 0) as Hv.
  { intros tag _ [_ ->]. rewrite vadd_self. apply dsum_zeros_l. }
  rewrite (verify_tags k len S _ p ts) by done. split; [done|]. intros. by apply Hv.
Qed.

(** An [xof] that answers with a constant stream. *)
Definition const_xof : Xof := fun _ n => replicate n 3.

Lemma const_xof_laws : @XofLaws const_xof.
Proof.
  intros input n. split; [apply length_replicate|]. apply Forall_replicate. unfold_int; lia.
Qed.

Lemma verify_iff_error_orthogonal_witness :
  exists vt, @generate const_xof ex_sources (replicate 256 1) = Some (Ok vt, drop (L * 32) (replicate 256 1)) /\
    length (tags vt) = L /\
    (@verify const_xof vt (mk_piece [0; 1] [7]) = true <->
     forall tag, tag ∈ tags vt ->
       dsum (vadd [7] (comb 1 ex_sources [0; 1])) (@derive_v_d const_xof (seed tag) 1) = 0) /\
    (valid 2 1 ex_sources (mk_piece [0; 1] [7]) -> @verify const_xof vt (mk_piece [0; 1] [7]) = true).
Proof.
  apply (@verify_iff_error_orthogonal const_xof const_xof_laws 2 1 ex_sources (replicate 256 1)
           (mk_piece [0; 1] [7])).
  - apply ex_rows.
  - lia.
  - lia.
  - unfold_int; lia.
  - vm_compute. lia.
  - split; [done|]. repeat constructor; unfold_int; lia.
  - split; [done|]. repeat constructor; unfold_int; lia.
Defined.

(** [verify] refuses a piece under any other scheme and a piece whose
    coding vector or data does not have the recorded length, without reading
    the tags. *)
Lemma verify_refuses_bad_shape `{Xof} vt p :
  scheme vt <> SCHEME_NULL_SPACE_V1 \/
  Z.of_nat (length (coding_vector p)) <> vt_k vt \/
  Z.of_nat (length (data p)) <> vt_piece_len vt ->
  verify vt p = false.
Proof.
  unfold verify. intros Hd.
  destruct (Z.eqb_spec (scheme vt) SCHEME_NULL_SPACE_V1); cbn [negb]; [|done].
  destruct (Z.eqb_spec (Z.of_nat (length (coding_vector p))) (vt_k vt)); cbn [negb orb]; [|done].
  destruct (Z.eqb_spec (Z.of_nat (length (data p))) (vt_piece_len vt)); cbn [negb]; [|done].
  naive_solver.
Qed.
