(* ===== verification/Crypto.v ===== *)
(** Node identities ([crates/crypto/src/lib.rs]) over Ed25519, content ids
    ([crates/core/src/lib.rs]) over BLAKE3, and the postcard codec.

    The three libraries are not part of the repository.  Each is a class of
    operations with a class of the documented laws the code relies on. *)

From S2P Require Import Prelude.

Open Scope Z_scope.

(** ed25519-dalek: key pairs, signing, point decoding and strict verification. *)
Class Ed25519 := {
  SigningKey : Type;
  verifying_key : SigningKey -> key;
  dalek_sign : SigningKey -> bytes -> bytes;
  from_bytes_ok : key -> bool;
  verify_strict : key -> bytes -> bytes -> bool
}.

Class Ed25519Laws `{Ed25519} := {
  verifying_key_length : forall sk, length (verifying_key sk) = 32%nat;
  verifying_key_ok : forall sk, from_bytes_ok (verifying_key sk) = true;
  sign_length : forall sk m, length (dalek_sign sk m) = 64%nat;
  sign_verifies : forall sk m, verify_strict (verifying_key sk) m (dalek_sign sk m) = true
}.

(** BLAKE3. *)
Class Blake3 := {
  blake3 : bytes -> key
}.

(** postcard's [to_allocvec]/[from_bytes] on a serializable type. *)
Class Postcard (A : Type) := {
  to_allocvec : A -> bytes;
  from_bytes : bytes -> option A
}.

Class PostcardLaws (A : Type) `{Postcard A} := {
  postcard_roundtrip : forall a : A, from_bytes (to_allocvec a) = Some a
}.

Lemma to_allocvec_inj {A} `{PostcardLaws A} (a b : A) : to_allocvec a = to_allocvec b -> a = b.
Proof.
  intros E. pose proof (postcard_roundtrip a) as Ha. rewrite E, postcard_roundtrip in Ha. congruence.
Qed.

Section identity.
Context `{Ed25519}.

Definition NodeIdentity := SigningKey.

Definition node_id (id : NodeIdentity) : key := verifying_key id.

Definition sign (id : NodeIdentity) (msg : bytes) : bytes := dalek_sign id msg.

Definition verify (node_id : key) (msg sig : bytes) : bool :=
  if from_bytes_ok node_id then verify_strict node_id msg sig else false.

(** [let Ok(sig) = <[u8; 64]>::try_from(sig) else { return false };
    NodeIdentity::verify(..)], the check every signed record makes. *)
Definition verify_slice (node_id : key) (msg sig : bytes) : bool :=
  if (length sig =? 64)%nat then verify node_id msg sig else false.

Lemma verify_slice_sign `{!Ed25519Laws} id msg :
  verify_slice (node_id id) msg (sign id msg) = true.
Proof.
  unfold verify_slice, verify, sign, node_id.
  by rewrite sign_length, verifying_key_ok, sign_verifies.
Qed.
End identity.

Section cid.
Context `{Blake3}.

Definition Cid_of (b : bytes) : key := blake3 b.

Definition Cid_verifies (cid : key) (b : bytes) : bool := bool_decide (Cid_of b = cid).
End cid.

(** A concrete instance of the laws, used to evaluate the models: the secret
    key is the public key, and a signature is a 64-byte digest of the key and
    the message. *)
Definition toy_digest (b : bytes) : Z := foldl (fun h x => (h * 257 + x + 1) mod (2 ^ 61 - 1)) 7 b.

Definition toy_sign (sk m : bytes) : bytes :=
  be_bytes 8 (toy_digest (sk ++ m)) ++ replicate 56 (toy_digest sk mod 256).

Definition toy_ed25519 : Ed25519 := {|
  SigningKey := Z;
  verifying_key := key_of;
  dalek_sign := fun sk m => toy_sign (key_of sk) m;
  from_bytes_ok := fun _ => true;
  verify_strict := fun k m s => bool_decide (s = toy_sign k m)
|}.

Lemma toy_ed25519_laws : @Ed25519Laws toy_ed25519.
Proof.
  split; intros; unfold verifying_key, dalek_sign, from_bytes_ok, verify_strict, toy_ed25519.
  - apply length_replicate.
  - done.
  - unfold toy_sign. by rewrite length_app, be_bytes_length, length_replicate.
  - by apply bool_decide_eq_true.
Qed.

Definition toy_blake3 : Blake3 := {| blake3 := fun b => key_of (toy_digest b mod 256) |}.

(** A codec for any countable type: its number, as one element. *)
Definition countable_codec {A} `{Countable A} : Postcard A := {|
  to_allocvec := fun a => [Zpos (encode a)];
  from_bytes := fun b => match b with [Zpos n] => decode n | _ => None end
|}.

Lemma countable_codec_laws {A} `{Countable A} : @PostcardLaws A countable_codec.
Proof. split. intros a. cbn. apply decode_encode. Qed.
