(* ===== verification/Cheque.v ===== *)
(** Serving cheques ([crates/cheque/src/lib.rs]): signed cumulative bandwidth
    tallies, the consumer's issuer, the provider's book, and the settlement
    allocation of a paid quota. *)

From S2P Require Import Prelude Crypto.

Open Scope Z_scope.

Definition CHEQUE_DOMAIN : bytes := str_bytes "craftec/serving-cheque/1".

Definition cheque_bytes (server consumer : key) (cumulative timestamp : Z) : bytes :=
  CHEQUE_DOMAIN ++ server ++ consumer ++ le_bytes 8 cumulative ++ le_bytes 8 timestamp.

Record ServingCheque := mk_cheque {
  server : key;
  consumer : key;
  cumulative_bytes : Z;
  timestamp : Z;
  consumer_sig : bytes
}.

#[export] Instance ServingCheque_eq_dec : EqDecision ServingCheque.
Proof. solve_decision. Defined.

Section cheques.
Context `{Ed25519}.

Definition sign_cheque (identity : NodeIdentity) (srv : key) (cum ts : Z) : ServingCheque :=
  let con := node_id identity in
  mk_cheque srv con cum ts (sign identity (cheque_bytes srv con cum ts)).

Definition verify_cheque (c : ServingCheque) : bool :=
  verify_slice (consumer c)
    (cheque_bytes (server c) (consumer c) (cumulative_bytes c) (timestamp c)) (consumer_sig c).

(** ** The consumer's issuer: [server -> cumulative bytes acknowledged] *)

Record ChequeIssuer := mk_issuer { issued : gmap key Z }.

Definition issuer_new : ChequeIssuer := mk_issuer ∅.

Definition owed_to (self : ChequeIssuer) (srv : key) : Z := default 0 (issued self !! srv).

Definition issue (self : ChequeIssuer) (identity : NodeIdentity) (srv : key) (additional ts : Z)
  : ServingCheque * ChequeIssuer :=
  let cumulative := sat_add (default 0 (issued self !! srv)) additional in
  (sign_cheque identity srv cumulative ts, mk_issuer (<[srv := cumulative]> (issued self))).

(** ** The provider's book: the latest cheque of each consumer *)

Record ChequeBook := mk_book { me : key; received : gmap key ServingCheque }.

Definition book_new (me : key) : ChequeBook := mk_book me ∅.

Definition record (self : ChequeBook) (c : ServingCheque) : bool * ChequeBook :=
  if negb (bool_decide (server c = me self)) || negb (verify_cheque c) then (false, self)
  else
    let accept := (true, mk_book (me self) (<[consumer c := c]> (received self))) in
    match received self !! consumer c with
    | Some prev => if cumulative_bytes c <=? cumulative_bytes prev then (false, self) else accept
    | None => accept
    end.

Definition load (me : key) (cheques : list ServingCheque) : ChequeBook :=
  foldl (fun book c => snd (record book c)) (book_new me) cheques.

(** [values().map(|c| c.cumulative_bytes).sum()]: [None] is the overflow panic. *)
Definition total_earned (self : ChequeBook) : option Z :=
  checked_sum (map cumulative_bytes (map snd (map_to_list (received self)))).

Definition latest_from (self : ChequeBook) (con : key) : option ServingCheque :=
  received self !! con.

Definition cheques (self : ChequeBook) : list ServingCheque :=
  map snd (map_to_list (received self)).
End cheques.

(** ** Settlement allocation *)

(** The loop over the cheques in [(timestamp, server)] order. *)
Fixpoint allocate_loop (ordered : list ServingCheque) (remaining : Z) (out : gmap key (Z * Z))
  : gmap key (Z * Z) :=
  match ordered with
  | [] => out
  | c :: rest =>
      let paid := Z.min remaining (cumulative_bytes c) in
      allocate_loop rest (remaining - paid)
        (<[server c := (paid, cumulative_bytes c - paid)]> out)
  end.

Definition allocate_quota (cheques : list ServingCheque) (quota : Z) : gmap key (Z * Z) :=
  allocate_loop (sort_by (le_on (fun c => (timestamp c, server c))) cheques) quota ∅.

(** ** What a signature covers *)

(** The signed bytes determine the pair, the amount and the time: a cheque
    cannot be read as one for another server, consumer, cumulative or time. *)
Lemma cheque_bytes_inj s c n t s' c' n' t' :
  length s = 32%nat -> length s' = 32%nat -> length c = 32%nat -> length c' = 32%nat ->
  is_u64 n -> is_u64 n' -> is_u64 t -> is_u64 t' ->
  cheque_bytes s c n t = cheque_bytes s' c' n' t' -> s = s' /\ c = c' /\ n = n' /\ t = t'.
Proof.
  unfold cheque_bytes. intros Hs Hs' Hc Hc' ???? E.
  apply app_inj_length in E as [_ E]; [|done].
  apply app_inj_length in E as [-> E]; [|congruence].
  apply app_inj_length in E as [-> E]; [|congruence].
  apply app_inj_length in E as [E1 E2]; [|by rewrite !le_bytes_length].
  by repeat split; apply le_bytes8_inj.
Qed.

(** ** The book *)

Section book.
Context `{Ed25519}.

(** A cheque the book [me] may credit to [con]. *)
Definition creditable (me con : key) (c : ServingCheque) : Prop :=
  server c = me /\ verify_cheque c = true /\ consumer c = con.

(** What the book keeps for each consumer: a creditable cheque of that consumer. *)
Definition book_wf (b : ChequeBook) : Prop :=
  map_Forall (fun con c => creditable (me b) con c) (received b).

Lemma record_me b c : me (snd (record b c)) = me b.
Proof. unfold record. repeat case_match; done. Qed.

(** [record] on every branch, as a lookup in the resulting book. *)
Lemma record_lookup b c con :
  latest_from (snd (record b c)) con =
    if bool_decide (server c = me b) && verify_cheque c && bool_decide (consumer c = con) &&
       match latest_from b con with
       | Some p => cumulative_bytes p <? cumulative_bytes c
       | None => true
       end
    then Some c else latest_from b con.
Proof.
  unfold record, latest_from. destruct (decide (consumer c = con)) as [<-|Hne].
  - rewrite (bool_decide_true (consumer c = _)) by done.
    destruct (bool_decide (server c = me b)), (verify_cheque c); cbn; try done.
    destruct (received b !! consumer c) as [p|] eqn:Ep.
    + rewrite Z.ltb_antisym. destruct (_ <=? _); cbn; [done|apply lookup_insert_eq].
    + cbn. apply lookup_insert_eq.
  - rewrite (bool_decide_false (consumer c = _)) by done. rewrite andb_false_r. cbn.
    repeat case_match; cbn; try done; by rewrite lookup_insert_ne.
Qed.

Lemma record_wf b c : book_wf b -> book_wf (snd (record b c)).
Proof.
  unfold book_wf. intros Hb con c' Hc'. rewrite record_me.
  change (latest_from (snd (record b c)) con = Some c') in Hc'. rewrite record_lookup in Hc'.
  destruct (_ && _) eqn:E in Hc'; [|by apply Hb]. simplify_eq.
  apply andb_true_iff in E as [[[E1 E2]%andb_true_iff E3]%andb_true_iff _].
  by apply bool_decide_eq_true in E1, E3.
Qed.

(** [c] is the first of the largest creditable cheques of [con] in [cs]. *)
Definition is_latest (me con : key) (cs : list ServingCheque) (c : ServingCheque) : Prop :=
  exists before after, cs = before ++ c :: after /\ creditable me con c /\
    (forall c', c' ∈ before -> creditable me con c' -> cumulative_bytes c' < cumulative_bytes c) /\
    (forall c', c' ∈ after -> creditable me con c' -> cumulative_bytes c' <= cumulative_bytes c).

Lemma load_snoc m cs c : load m (cs ++ [c]) = snd (record (load m cs) c).
Proof. unfold load. by rewrite foldl_snoc. Qed.

Lemma load_me m cs : me (load m cs) = m.
Proof.
  induction cs as [|c cs IH] using rev_ind; [done|]. by rewrite load_snoc, record_me.
Qed.

Lemma load_wf m cs : book_wf (load m cs).
Proof.
  induction cs as [|c cs IH] using rev_ind; [apply map_Forall_empty|].
  rewrite load_snoc. by apply record_wf.
Qed.

Lemma load_spec m cs con :
  match latest_from (load m cs) con with
  | Some c => is_latest m con cs c
  | None => forall c, c ∈ cs -> ~ creditable m con c
  end.
Proof.
  induction cs as [|x cs IH] using rev_ind; [by unfold latest_from; cbn; rewrite lookup_empty; intros c ?%not_elem_of_nil|].
  rewrite load_snoc, record_lookup, load_me.
  destruct (bool_decide (server x = m) && verify_cheque x && bool_decide (consumer x = con)) eqn:Ex.
  - assert (creditable m con x) as Hx.
    { apply andb_true_iff in Ex as [[E1 E2]%andb_true_iff E3].
      by apply bool_decide_eq_true in E1, E3. }
    destruct (latest_from (load m cs) con) as [p|] eqn:Ep; cbn.
    + destruct (cumulative_bytes p <? cumulative_bytes x) eqn:E;
        [apply Z.ltb_lt in E|apply Z.ltb_ge in E]; destruct IH as (bf & af & -> & Hp & Hb & Ha).
      * exists (bf ++ p :: af), []. repeat split; try apply Hx.
        -- intros c' [Hc'|[->|Hc']%elem_of_cons]%elem_of_app Hcr; [specialize (Hb _ Hc' Hcr); lia|lia|].
           specialize (Ha _ Hc' Hcr). lia.
        -- intros c' Hc'. inversion Hc'.
      * exists bf, (af ++ [x]). rewrite <-app_assoc. repeat split; try apply Hp; [done|].
        intros c' [Hc'| ->%list_elem_of_singleton]%elem_of_app Hcr; [by apply Ha|lia].
    + exists cs, []. repeat split; try apply Hx.
      * intros c' Hc' Hcr. by destruct (IH _ Hc').
      * intros c' Hc'. inversion Hc'.
  - assert (~ creditable m con x) as Hx.
    { intros (E1 & E2 & E3). by rewrite !bool_decide_true, E2 in Ex. }
    cbn. destruct (latest_from (load m cs) con) as [p|] eqn:Ep.
    + destruct IH as (bf & af & -> & Hp & Hb & Ha). exists bf, (af ++ [x]).
      rewrite <-app_assoc. repeat split; try apply Hp; [done|].
      intros c' [Hc'| ->%list_elem_of_singleton]%elem_of_app Hcr; [by apply Ha|done].
    + intros c [Hc| ->%list_elem_of_singleton]%elem_of_app; [by apply IH|done].
Qed.

Lemma elem_of_cheques b c : c ∈ cheques b <-> exists con, latest_from b con = Some c.
Proof.
  unfold cheques, latest_from. rewrite list_elem_of_fmap. split.
  - intros ([con c'] & -> & Hc). exists con. by apply elem_of_map_to_list.
  - intros [con Hc]. exists (con, c). split; [done|]. by apply elem_of_map_to_list.
Qed.

Lemma book_wf_consumer b con c : book_wf b -> latest_from b con = Some c -> consumer c = con.
Proof. intros Hb Hc. by destruct (Hb _ _ Hc) as (_ & _ & ?). Qed.

Lemma load_cheques b : book_wf b -> load (me b) (cheques b) = b.
Proof.
  intros Hb. destruct (load (me b) (cheques b)) as [m r] eqn:El.
  pose proof (load_me (me b) (cheques b)) as Hm. rewrite El in Hm. cbn in Hm. subst m.
  destruct b as [m0 r0]. f_equal. apply map_eq. intros con.
  pose proof (load_spec m0 (cheques (mk_book m0 r0)) con) as Hs. cbn in El. rewrite El in Hs.
  unfold latest_from in Hs at 1. cbn in Hs. destruct (r !! con) as [c|] eqn:Ec; symmetry.
  - destruct Hs as (bf & af & Ecs & Hcr & _).
    assert (c ∈ cheques (mk_book m0 r0)) as [k Hk]%elem_of_cheques by (rewrite Ecs; set_solver).
    pose proof (book_wf_consumer _ _ _ Hb Hk). destruct Hcr as (_ & _ & <-). by subst k.
  - destruct (r0 !! con) as [c|] eqn:E0; [|done]. destruct (Hs c); [|by apply (Hb con)].
    apply elem_of_cheques. by exists con.
Qed.
End book.

(** ** The allocation *)

(** The [(server, (paid, subsidy))] entries the loop writes, in order. *)
Fixpoint alloc_list (ordered : list ServingCheque) (remaining : Z) : list (key * (Z * Z)) :=
  match ordered with
  | [] => []
  | c :: rest =>
      let paid := Z.min remaining (cumulative_bytes c) in
      (server c, (paid, cumulative_bytes c - paid)) :: alloc_list rest (remaining - paid)
  end.

Lemma alloc_list_servers cs r : map fst (alloc_list cs r) = map server cs.
Proof. revert r; induction cs; intros; cbn; [done|]. by f_equal. Qed.

Lemma allocate_loop_list cs r out :
  NoDup (map server cs) ->
  allocate_loop cs r out = list_to_map (alloc_list cs r) ∪ out.
Proof.
  revert r out; induction cs as [|c cs IH]; intros r out Hnd; cbn; [by rewrite map_empty_union|].
  cbn in Hnd. apply list.NoDup_cons in Hnd as [Hc Hnd]. rewrite IH by done.
  rewrite <-insert_union_l. rewrite insert_union_r; [done|].
  apply not_elem_of_list_to_map_1. by rewrite alloc_list_servers.
Qed.

Lemma alloc_list_paid_sum cs r :
  0 <= r -> Forall (fun c => 0 <= cumulative_bytes c) cs ->
  sum_Z (map fst (map snd (alloc_list cs r))) = Z.min r (sum_Z (map cumulative_bytes cs)).
Proof.
  intros Hr Hcs; revert r Hr. induction Hcs as [|c cs Hc Hcs IH]; cbn; intros r Hr; [lia|].
  unfold sum_Z in *. rewrite IH by lia.
  assert (0 <= foldr Z.add 0 (map cumulative_bytes cs)) by (apply (sum_Z_nonneg _), Forall_map, Hcs).
  lia.
Qed.

(** Each cheque is split exactly, and a positive payment means every earlier
    cheque was paid in full. *)
Lemma alloc_list_entry cs r k c :
  0 <= r -> Forall (fun c => 0 <= cumulative_bytes c) cs -> cs !! k = Some c ->
  let before := sum_Z (map cumulative_bytes (take k cs)) in
  let paid := Z.max 0 (Z.min (r - before) (cumulative_bytes c)) in
  alloc_list cs r !! k = Some (server c, (paid, cumulative_bytes c - paid)).
Proof.
  intros Hr Hcs; revert r k Hr. induction Hcs as [|c0 cs Hc Hcs IH]; intros r k Hr Hk; [done|].
  destruct k as [|k]; cbn in *.
  - simplify_eq. do 2 f_equal. f_equal; lia.
  - rewrite IH by (done || lia). unfold sum_Z.
    assert (0 <= foldr Z.add 0 (map cumulative_bytes (take k cs))).
    { apply (sum_Z_nonneg _), Forall_map, Forall_take, Hcs. }
    assert (0 <= cumulative_bytes c) by (rewrite Forall_lookup in Hcs; eauto).
    do 2 f_equal. f_equal; lia.
Qed.

(** The settlement order of a set of cheques. *)
Definition settle_order (cs : list ServingCheque) : list ServingCheque :=
  sort_by (le_on (fun c => (timestamp c, server c))) cs.

Lemma settle_order_servers cs : NoDup (map server cs) -> NoDup (map server (settle_order cs)).
Proof. unfold settle_order. by rewrite sort_by_perm. Qed.

Lemma allocate_quota_list cs q :
  NoDup (map server cs) -> allocate_quota cs q = list_to_map (alloc_list (settle_order cs) q).
Proof.
  intros Hnd. unfold allocate_quota. fold (settle_order cs).
  rewrite allocate_loop_list by by apply settle_order_servers. apply map_union_empty.
Qed.

Lemma servers_determine cs x y :
  NoDup (map server cs) -> x ∈ cs -> y ∈ cs -> server x = server y -> x = y.
Proof.
  intros Hnd Hx Hy E. apply list_elem_of_lookup in Hx as [i Hi], Hy as [j Hj].
  assert (i = j) as ->; [|congruence].
  eapply NoDup_lookup; [exact Hnd| |]; rewrite list_lookup_fmap; [by rewrite Hi|].
  rewrite Hj. cbn. by rewrite E.
Qed.

(** ** Properties *)

Section properties.
Context `{Ed25519}.

(** Whatever sequence of cheques is fed to a provider's book, the book
    holds, for each consumer, the first of the largest cheques that are
    addressed to this provider, carry a valid signature of that consumer, and
    nothing for a consumer without such a cheque; persisting the book and
    reloading it (which re-validates every cheque) gives the same book. *)
Theorem cheque_book_keeps_latest (m : key) (cs : list ServingCheque) :
  (forall con, match latest_from (load m cs) con with
               | Some c => is_latest m con cs c
               | None => forall c, c ∈ cs -> ~ creditable m con c
               end) /\
  load m (cheques (load m cs)) = load m cs.
Proof.
  split; [intros con; apply load_spec|].
  rewrite <-(load_me m cs) at 1. apply load_cheques, load_wf.
Qed.

(** [total_earned] is the sum of the latest cumulatives when that sum is a
    u64, and panics (overflow checks are on) exactly when it is not: the book
    accepts any signed cumulative, so two colluding consumers can make their
    provider's measurement panic. *)
Theorem total_earned_sums_or_panics (m : key) (cs : list ServingCheque) :
  Forall (fun c => is_u64 (cumulative_bytes c)) cs ->
  total_earned (load m cs) =
    let total := map_sum cumulative_bytes (received (load m cs)) in
    if total <=? U64_MAX then Some total else None.
Proof.
  intros Hcs. cbv zeta. unfold total_earned. rewrite map_sum_list. apply checked_sum_spec.
  apply Forall_map. rewrite list.Forall_forall in Hcs |- *.
  intros c Hc%(proj1 (elem_of_cheques (load m cs) c)). destruct Hc as [con Hc].
  pose proof (load_spec m cs con) as Hs. rewrite Hc in Hs. destruct Hs as (bf & af & E & _).
  apply Hcs. rewrite E. set_solver.
Qed.

(** A fresh cheque of the consumer's issuer is accepted by the provider's
    book: it acknowledges exactly the prior total plus the new bytes, it
    verifies, it supersedes the consumer's previous cheque and no other
    consumer's, and issuer and book agree on the new cumulative, so the next
    cheque will be accepted too. *)
Theorem issued_cheque_is_recorded `{!Ed25519Laws}
    (iss : ChequeIssuer) (b : ChequeBook) (id : NodeIdentity) (additional ts : Z) :
  0 < additional -> owed_to iss (me b) + additional <= U64_MAX ->
  (forall p, latest_from b (node_id id) = Some p -> cumulative_bytes p <= owed_to iss (me b)) ->
  let '(c, iss') := issue iss id (me b) additional ts in
  let '(accepted, b') := record b c in
  accepted = true /\
  cumulative_bytes c = owed_to iss (me b) + additional /\
  owed_to iss' (me b') = cumulative_bytes c /\
  latest_from b' (node_id id) = Some c /\
  forall con, con <> node_id id -> latest_from b' con = latest_from b con.
Proof.
  intros Hadd Hmax Hsync. unfold issue. fold (owed_to iss (me b)).
  set (c := sign_cheque _ _ _ _).
  assert (verify_cheque c = true) as Hv by apply verify_slice_sign.
  assert (cumulative_bytes c = owed_to iss (me b) + additional) as Hcum by by apply sat_add_id.
  assert (record b c = (true, mk_book (me b) (<[node_id id := c]> (received b)))) as ->.
  { unfold record. rewrite Hv. change (server c) with (me b). rewrite bool_decide_true by done.
    cbn [negb orb]. change (consumer c) with (node_id id). fold (latest_from b (node_id id)).
    destruct (latest_from b _) as [p|] eqn:Ep; [|done].
    specialize (Hsync p eq_refl). destruct (Z.leb_spec (cumulative_bytes c) (cumulative_bytes p)); [lia|done]. }
  cbn. unfold owed_to, latest_from. cbn. rewrite !lookup_insert_eq. cbn.
  split_and!; try done. intros con Hne. by rewrite lookup_insert_ne.
Qed.
End properties.

(** The settlement allocation of a consumer's paid quota over cheques of
    distinct providers.  Every provider's cumulative is split exactly into a
    paid and a subsidy part; the paid parts add up to the quota or to all the
    service, whichever is less, so no more than the quota is ever paid; the
    quota is consumed first-come in (timestamp, server) order, each cheque
    being paid what the cheques before it left; and the result does not
    depend on the order in which the cheques are listed. *)
Theorem allocate_quota_first_come (cs : list ServingCheque) (quota : Z) :
  NoDup (map server cs) -> Forall (fun c => is_u64 (cumulative_bytes c)) cs -> is_u64 quota ->
  map_sum fst (allocate_quota cs quota) = Z.min quota (sum_Z (map cumulative_bytes cs)) /\
  (forall k c, settle_order cs !! k = Some c ->
     let before := sum_Z (map cumulative_bytes (take k (settle_order cs))) in
     let paid := Z.max 0 (Z.min (quota - before) (cumulative_bytes c)) in
     allocate_quota cs quota !! server c = Some (paid, cumulative_bytes c - paid)) /\
  (forall cs', cs ≡ₚ cs' -> allocate_quota cs' quota = allocate_quota cs quota).
Proof.
  intros Hnd Hcs Hq.
  assert (Forall (fun c => 0 <= cumulative_bytes c) (settle_order cs)) as Hord.
  { unfold settle_order. rewrite sort_by_perm. revert Hcs. apply Forall_impl. unfold_int. lia. }
  rewrite allocate_quota_list by done. split_and!.
  - rewrite map_sum_list_to_map by (rewrite alloc_list_servers; by apply settle_order_servers).
    rewrite alloc_list_paid_sum; [|unfold_int; lia|done]. f_equal. apply sum_Z_perm.
    unfold settle_order. by rewrite sort_by_perm.
  - intros k c Hk. cbv zeta. apply elem_of_list_to_map_1.
    + rewrite alloc_list_servers. by apply settle_order_servers.
    + eapply list_elem_of_lookup_2, alloc_list_entry; [unfold_int; lia|done|done].
  - intros cs' Hp. rewrite allocate_quota_list by by rewrite <-Hp. do 2 f_equal.
    symmetry. apply sort_by_key_canonical; [done|]. intros x y Hx Hy [= _ E].
    by eapply servers_determine.
Qed.

(** ** Witnesses *)

Definition ex_c1 : ServingCheque := @sign_cheque toy_ed25519 1 (key_of 9) 600 20.
Definition ex_c2 : ServingCheque := @sign_cheque toy_ed25519 1 (key_of 8) 700 10.

Lemma total_earned_sums_or_panics_witness :
  @total_earned (@load toy_ed25519 (key_of 9) [ex_c1; ex_c2]) = Some 600.
Proof.
  rewrite (@total_earned_sums_or_panics toy_ed25519 (key_of 9) [ex_c1; ex_c2]);
    [vm_compute; reflexivity|].
  rewrite !Forall_cons_iff. unfold_int. cbn. split_and!; try lia. constructor.
Defined.

Lemma issued_cheque_is_recorded_witness :
  let iss := @issuer_new in
  let b := book_new (key_of 9) in
  fst (@record toy_ed25519 b (fst (@issue toy_ed25519 iss 1 (key_of 9) 100 5))) = true.
Proof.
  pose proof (@issued_cheque_is_recorded toy_ed25519 toy_ed25519_laws
    issuer_new (book_new (key_of 9)) 1 100 5 ltac:(lia) ltac:(vm_compute; discriminate)
    ltac:(intros p Hp; vm_compute in Hp; discriminate)) as Hw.
  cbv zeta. change (me (book_new (key_of 9))) with (key_of 9) in Hw.
  destruct (@issue toy_ed25519 issuer_new 1 (key_of 9) 100 5) as [c iss'].
  cbn [fst]. destruct (@record toy_ed25519 _ c). apply Hw.
Defined.

Lemma allocate_quota_first_come_witness :
  map_sum fst (allocate_quota [ex_c1; ex_c2] 1000) = 1000.
Proof.
  destruct (allocate_quota_first_come [ex_c1; ex_c2] 1000) as [Hs _].
  - cbn. apply list.NoDup_cons. split; [|by apply NoDup_singleton].
    intros E%list_elem_of_singleton. discriminate E.
  - rewrite !Forall_cons_iff. unfold_int. cbn. split_and!; try lia. constructor.
  - unfold_int; lia.
  - rewrite Hs. reflexivity.
Defined.
