(* ===== verification/Attestation.v ===== *)
(** Quorum authority ([crates/com/src/attestation.rs]): named quorums with a
    k-of-n threshold, attestations, the self-amending quorum chain, and the
    owner-signed wrapper of a chain. *)

From S2P Require Import Prelude Crypto.

Open Scope Z_scope.

Definition ATTEST_DOMAIN : bytes := str_bytes "craftec/attest/1".
Definition GENESIS_DOMAIN : bytes := str_bytes "craftec/attest-genesis/1".

Inductive AttestAction :=
| Statement (s : bytes)
| AddMember (member : key)
| RemoveMember (member : key)
| SetThreshold (threshold : Z).

Record AttestProposal := mk_aproposal { action : AttestAction; pseq : Z }.

Record MemberSignature := mk_msig { member : key; signature : bytes }.

Inductive MemberChange :=
| Add (m : key)
| Remove (m : key)
| SetThresholdTo (t : Z).

Record Attestation := mk_attestation { proposal : AttestProposal; signatures : list MemberSignature }.

Record Quorum := mk_quorum { members : list key; threshold : Z; seq : Z }.

#[export] Instance AttestAction_eq_dec : EqDecision AttestAction.
Proof. solve_decision. Defined.

(** [x.clamp(lo, hi)]. *)
Definition clamp (x lo hi : Z) : Z := Z.max lo (Z.min x hi).

(** [self.members.len()]. *)
Definition n_members (q : Quorum) : Z := Z.of_nat (length (members q)).

Definition genesis (ms : list key) (t : Z) : Quorum :=
  let m := dedup (sort ms) in
  mk_quorum m (clamp t 1 (Z.max (Z.of_nat (length m)) 1)) 0.

Definition is_member (q : Quorum) (id : key) : bool :=
  match binary_search (members q) id with Some _ => true | None => false end.

Definition is_intersection_sized (q : Quorum) : bool := n_members q <? 2 * threshold q.

Definition byzantine_tolerance (q : Quorum) : Z := sat_sub (2 * threshold q) (n_members q + 1).

(** [Quorum::advance]; [None] is the overflow panic of [seq += 1]. *)
Definition advance (q : Quorum) (change : option MemberChange) : option Quorum :=
  s ← checked_add (seq q) 1;
  Some match change with
  | Some (Add m) =>
      match binary_search (members q) m with
      | Some _ => mk_quorum (members q) (threshold q) s
      | None => mk_quorum (sort (members q ++ [m])) (threshold q) s
      end
  | Some (Remove m) =>
      let ms := filter (fun x => x <> m) (members q) in
      mk_quorum ms (Z.min (threshold q) (Z.max (Z.of_nat (length ms)) 1)) s
  | Some (SetThresholdTo t) =>
      mk_quorum (members q) (clamp t 1 (Z.max (n_members q) 1)) s
  | None => mk_quorum (members q) (threshold q) s
  end.

Definition member_change (a : AttestAction) : option MemberChange :=
  match a with
  | AddMember m => Some (Add m)
  | RemoveMember m => Some (Remove m)
  | SetThreshold t => Some (SetThresholdTo t)
  | Statement _ => None
  end.

Section signing.
Context `{Ed25519}.

(** The loop body of [count_signers]. *)
Definition signer_step (q : Quorum) (msg : bytes) (set : gset key) (s : MemberSignature) : gset key :=
  if negb (is_member q (member s)) then set
  else if verify_slice (member s) msg (signature s) then {[member s]} ∪ set
  else set.

(** The distinct members with a valid signature over [msg]. *)
Definition signer_set (q : Quorum) (msg : bytes) (sigs : list MemberSignature) : gset key :=
  foldl (signer_step q msg) ∅ sigs.

Definition count_signers (q : Quorum) (msg : bytes) (sigs : list MemberSignature) : Z :=
  Z.of_nat (size (signer_set q msg sigs)).

Context `{Postcard AttestProposal, Postcard Quorum}.

Definition proposal_bytes (p : AttestProposal) : bytes := ATTEST_DOMAIN ++ to_allocvec p.

Definition sign_proposal (p : AttestProposal) (id : NodeIdentity) : MemberSignature :=
  mk_msig (node_id id) (sign id (proposal_bytes p)).

Definition owner_signing_bytes (q : Quorum) (program_cid : key) : bytes :=
  GENESIS_DOMAIN ++ program_cid ++ to_allocvec q.

(** [Attestation::authorizes]; [None] is the overflow panic of [q.seq + 1]. *)
Definition authorizes (a : Attestation) (q : Quorum) : option bool :=
  s ← checked_add (seq q) 1;
  Some ((pseq (proposal a) =? s) &&
        (threshold q <=? count_signers q (proposal_bytes (proposal a)) (signatures a))).

(** [Attestation::apply_to]: the outer [None] is a panic, the inner one a refusal. *)
Definition apply_to (a : Attestation) (q : Quorum) : option (option Quorum) :=
  ok ← authorizes a q;
  if ok : bool then q' ← advance q (member_change (action (proposal a))); Some (Some q')
  else Some None.

(** ** The chain *)

Record QuorumChain := mk_chain { chain_genesis : Quorum; attestations : list Attestation }.

Definition chain_new (g : Quorum) : QuorumChain := mk_chain g [].

Definition chain_seq (c : QuorumChain) : option Z :=
  checked_add (seq (chain_genesis c)) (Z.of_nat (length (attestations c))).

(** The loop of [current]. *)
Fixpoint fold_chain (q : Quorum) (l : list Attestation) : option (option Quorum) :=
  match l with
  | [] => Some (Some q)
  | a :: l' =>
      r ← apply_to a q;
      match r with
      | Some q' => fold_chain q' l'
      | None => Some None
      end
  end.

Definition current (c : QuorumChain) : option (option Quorum) :=
  fold_chain (chain_genesis c) (attestations c).

Definition append (c : QuorumChain) (att : Attestation) : option (bool * QuorumChain) :=
  cur ← current c;
  match cur with
  | Some q =>
      r ← apply_to att q;
      match r with
      | Some _ => Some (true, mk_chain (chain_genesis c) (attestations c ++ [att]))
      | None => Some (false, c)
      end
  | None => Some (false, c)
  end.

(** The loop of [authorized_statements]. *)
Fixpoint statements_loop (q : Quorum) (l : list Attestation) (out : list bytes)
  : option (list bytes) :=
  match l with
  | [] => Some out
  | a :: l' =>
      r ← apply_to a q;
      match r with
      | None => Some out
      | Some q' =>
          statements_loop q' l'
            (match action (proposal a) with Statement s => out ++ [s] | _ => out end)
      end
  end.

Definition authorized_statements (c : QuorumChain) : option (list bytes) :=
  statements_loop (chain_genesis c) (attestations c) [].

Definition is_authorized (c : QuorumChain) (statement : bytes) : option bool :=
  l ← authorized_statements c; Some (bool_decide (statement ∈ l)).

(** ** The owner-signed wrapper *)

Record AttestedChain := mk_attested { owner : key; owner_sig : bytes; chain : QuorumChain }.

Definition attested_new (id : NodeIdentity) (program_cid : key) (c : QuorumChain) : AttestedChain :=
  mk_attested (node_id id) (sign id (owner_signing_bytes (chain_genesis c) program_cid)) c.

(** [AttestedChain::verify]: the signature first, then (only if it holds) the fold. *)
Definition attested_verify (a : AttestedChain) (program_cid : key) : option bool :=
  if verify_slice (owner a) (owner_signing_bytes (chain_genesis (chain a)) program_cid) (owner_sig a)
  then cur ← current (chain a); Some (match cur with Some _ => true | None => false end)
  else Some false.
End signing.

(** [QuorumChain::encode], [decode] and [root] (and [AttestedChain]'s). *)
Section codec.
Context {A} `{Blake3, Postcard A}.

Definition encode (a : A) : bytes := to_allocvec a.
Definition decode (b : bytes) : option A := from_bytes b.
Definition root (a : A) : key := Cid_of (encode a).
End codec.

(** ** Well-formed quorums *)

Definition quorum_wf (q : Quorum) : Prop :=
  ascending (members q) /\ 1 <= threshold q <= Z.max (n_members q) 1.

Lemma is_member_spec q x : quorum_wf q -> is_member q x = true <-> x ∈ members q.
Proof.
  intros [Hm _]. unfold is_member. rewrite <-(binary_search_is_Some _ _ Hm).
  destruct (binary_search _ _); split; naive_solver.
Qed.

Lemma genesis_wf ms t : quorum_wf (genesis ms t).
Proof.
  unfold quorum_wf, genesis, n_members, clamp; cbn. split; [|lia].
  apply dedup_ascending, sort_sorted.
Qed.

Lemma genesis_members ms t x : x ∈ members (genesis ms t) <-> x ∈ ms.
Proof. cbn. by rewrite elem_of_dedup, sort_perm. Qed.

Lemma advance_wf q ch q' : quorum_wf q -> advance q ch = Some q' -> quorum_wf q'.
Proof.
  intros [Hm Ht] (s & [-> _]%checked_add_Some & E)%bind_Some. injection E as <-.
  unfold quorum_wf, n_members, clamp in *. destruct ch as [[m|m|t]|]; cbn; try (split; [done|lia]).
  - destruct (binary_search (members q) m) eqn:Eb; cbn; [done|].
    assert (m ∉ members q) as Hni.
    { intros [? E]%(binary_search_is_Some _ _ Hm). by rewrite E in Eb. }
    split; [|rewrite sort_perm, length_app; cbn; lia].
    apply sorted_NoDup_ascending; [apply sort_sorted|]. rewrite sort_perm.
    apply list.NoDup_app. split_and!; [by apply ascending_NoDup| |apply NoDup_singleton].
    intros x Hx ->%list_elem_of_singleton. done.
  - split; [by apply ascending_filter|]. lia.
Qed.

Lemma advance_seq q ch q' : advance q ch = Some q' -> seq q' = seq q + 1.
Proof.
  intros (s & [-> _]%checked_add_Some & E)%bind_Some. injection E as <-.
  by destruct ch as [[m|m|t]|]; cbn; try case_match.
Qed.

(** ** Who signed *)

Section authority.
Context `{Ed25519}.

Lemma signer_set_from (q : Quorum) (msg : bytes) (sigs : list MemberSignature) (set : gset key) (x : key) :
  x ∈ foldl (signer_step q msg) set sigs <->
  x ∈ set \/ (is_member q x = true /\
    exists s, s ∈ sigs /\ member s = x /\ verify_slice x msg (signature s) = true).
Proof.
  revert set; induction sigs as [|s sigs IH]; intros set; cbn; [set_solver|].
  rewrite IH. unfold signer_step. destruct (is_member q (member s)) eqn:Em; cbn;
    [destruct (verify_slice (member s) msg (signature s)) eqn:Ev|].
  - rewrite elem_of_union, elem_of_singleton. split.
    + intros [[->|?]|(? & s' & ? & ?)]; [|by left|]; right; (split; [done|]); [exists s|exists s']; set_solver.
    + intros [?|(? & s' & [->|?]%elem_of_cons & <- & ?)]; [auto..|]. right. eauto.
  - split; [set_solver|]. intros [?|(? & s' & [->|?]%elem_of_cons & <- & ?)]; [auto|congruence|eauto 10].
  - split; [set_solver|]. intros [?|(? & s' & [->|?]%elem_of_cons & <- & ?)]; [auto|congruence|eauto 10].
Qed.

(** A signer is a member with a valid signature in the list; duplicates and
    outsiders do not count. *)
Lemma elem_of_signer_set q msg sigs x :
  x ∈ signer_set q msg sigs <->
  is_member q x = true /\
    exists s, s ∈ sigs /\ member s = x /\ verify_slice x msg (signature s) = true.
Proof. unfold signer_set. rewrite signer_set_from. set_solver. Qed.

Lemma signer_set_members q msg sigs : quorum_wf q -> signer_set q msg sigs ⊆ list_to_set (members q).
Proof.
  intros Hq x [Hx _]%elem_of_signer_set. rewrite elem_of_list_to_set. by apply is_member_spec.
Qed.

Lemma size_members q : quorum_wf q -> Z.of_nat (size (list_to_set (members q) : gset key)) = n_members q.
Proof. intros [Hm _]. unfold n_members. by rewrite size_list_to_set by by apply ascending_NoDup. Qed.

Lemma count_signers_le q msg sigs : quorum_wf q -> count_signers q msg sigs <= n_members q.
Proof.
  intros Hq. rewrite <-size_members by done. unfold count_signers.
  apply inj_le, subseteq_size, signer_set_members, Hq.
Qed.
End authority.

(** ** The chain *)

Section chains.
Context `{Ed25519, Postcard AttestProposal, Postcard Quorum}.

Lemma apply_to_Some a q q' :
  apply_to a q = Some (Some q') <->
  authorizes a q = Some true /\ advance q (member_change (action (proposal a))) = Some q'.
Proof.
  unfold apply_to. split.
  - intros (ok & Ha & E)%bind_Some. destruct ok; [|done].
    apply bind_Some in E as (q2 & Hq & [= ->]). done.
  - intros [-> ->]. done.
Qed.

Lemma authorizes_true a q :
  authorizes a q = Some true ->
  pseq (proposal a) = seq q + 1 /\
  threshold q <= count_signers q (proposal_bytes (proposal a)) (signatures a).
Proof.
  intros (s & [-> _]%checked_add_Some & E)%bind_Some. injection E as E.
  apply andb_true_iff in E as [E1%Z.eqb_eq E2%Z.leb_le]. done.
Qed.

Lemma fold_chain_app q l k :
  fold_chain q (l ++ k) =
    r ← fold_chain q l; match r with Some q' => fold_chain q' k | None => Some None end.
Proof.
  revert q; induction l as [|a l IH]; intros q; cbn; [done|].
  destruct (apply_to a q) as [[q'|]|]; cbn; [apply IH|done|done].
Qed.

Lemma fold_chain_wf q l q' :
  quorum_wf q -> fold_chain q l = Some (Some q') ->
  quorum_wf q' /\ seq q' = seq q + Z.of_nat (length l).
Proof.
  revert q; induction l as [|a l IH]; cbn; intros q Hq E; [simplify_eq; split; [done|lia]|].
  destruct (apply_to a q) as [[q1|]|] eqn:Ea; cbn in E; [|done|done].
  apply apply_to_Some in Ea as [_ Ha]. destruct (IH q1) as [Hw Hs]; [by eapply advance_wf|done|].
  apply advance_seq in Ha. split; [done|lia].
Qed.

(** A valid chain is valid at every prefix, and each attestation was applied
    to the quorum its prefix folds to. *)
Lemma fold_chain_split q pre a post q' :
  fold_chain q (pre ++ a :: post) = Some (Some q') ->
  exists q0 q1, fold_chain q pre = Some (Some q0) /\ apply_to a q0 = Some (Some q1) /\
    fold_chain q1 post = Some (Some q').
Proof.
  rewrite fold_chain_app. intros (r & Er & E)%bind_Some. destruct r as [q0|]; [|done].
  cbn in E. apply bind_Some in E as (r1 & Er1 & E). destruct r1 as [q1|]; [|done].
  by exists q0, q1.
Qed.

Lemma statements_loop_spec q l out st res :
  statements_loop q l out = Some res ->
  st ∈ res <-> st ∈ out \/ exists pre a post q', l = pre ++ a :: post /\
    fold_chain q (pre ++ [a]) = Some (Some q') /\ action (proposal a) = Statement st.
Proof.
  revert q out; induction l as [|a l IH]; intros q out; cbn.
  - intros [= <-]. split; [auto|]. by intros [?|([|] & ? & ? & ? & ? & _)].
  - intros (r & Er & E)%bind_Some. destruct r as [q1|].
    + rewrite (IH _ _ E). split.
      * intros [Hin|(pre & a' & post & q' & -> & Hf & Ha)].
        -- assert (st ∈ out \/ action (proposal a) = Statement st) as [?|Ha]; [|by auto|].
           { destruct (action (proposal a)); try by left.
             apply elem_of_app in Hin as [?| ->%list_elem_of_singleton]; auto. }
           right. exists [], a, l, q1. cbn. by rewrite Er.
        -- right. exists (a :: pre), a', post, q'. cbn. by rewrite Er.
      * intros [Hin|([|a0 pre] & a' & post & q' & [= -> ->] & Hf & Ha)].
        -- left. destruct (action (proposal a)); try done. set_solver.
        -- left. rewrite Ha. set_solver.
        -- right. cbn in Hf. rewrite Er in Hf. cbn in Hf. by exists pre, a', post, q'.
    + injection E as <-. split; [auto|].
      intros [?|([|a0 pre] & a' & post & q' & [= -> ->] & Hf & Ha)]; [done| |];
        cbn in Hf; rewrite Er in Hf; done.
Qed.

(** C2: Every link of an adopted chain carries real authority.  When a chain
    from a genesis quorum folds to a current quorum: each attestation in it was
    made at the next sequence number of the quorum its own prefix folds to, and
    was signed, with valid signatures in the attestation, by a set of at least
    threshold-many distinct members of that quorum; the quorum is well-formed
    there (members sorted and distinct, threshold between 1 and the number of
    members), and the current sequence number counts the attestations. *)
Theorem chain_links_are_authorized (ms : list key) (t : Z) (l : list Attestation) (q : Quorum) :
  current (mk_chain (genesis ms t) l) = Some (Some q) ->
  quorum_wf q /\ seq q = Z.of_nat (length l) /\
  forall pre a post, l = pre ++ a :: post ->
    exists q0, current (mk_chain (genesis ms t) pre) = Some (Some q0) /\ quorum_wf q0 /\
      pseq (proposal a) = seq q0 + 1 /\
      exists S : gset key, threshold q0 <= Z.of_nat (size S) /\
        forall m, m ∈ S -> m ∈ members q0 /\
          exists s, s ∈ signatures a /\ member s = m /\
            verify_slice m (proposal_bytes (proposal a)) (signature s) = true.
Proof.
  unfold current; cbn [chain_genesis attestations]. intros Hc.
  destruct (fold_chain_wf _ _ _ (genesis_wf ms t) Hc) as [Hq Hs]. split_and!; [done|done|].
  intros pre a post ->. destruct (fold_chain_split _ _ _ _ _ Hc) as (q0 & q1 & Hpre & Ha & _).
  destruct (fold_chain_wf _ _ _ (genesis_wf ms t) Hpre) as [Hq0 _].
  apply apply_to_Some in Ha as [[Hseq Hcount]%authorizes_true _].
  exists q0. split_and!; [done|done|done|].
  exists (signer_set q0 (proposal_bytes (proposal a)) (signatures a)). split; [done|].
  intros m [Hm Hsig]%elem_of_signer_set. split; [by apply is_member_spec|done].
Qed.

(** A program's authority query is exact: [is_authorized] says yes to a
    statement if and only if some attestation of that statement stands in the
    chain with the whole chain up to and including it valid; nothing after the
    first invalid attestation counts.  Appending keeps a valid chain valid. *)
Theorem is_authorized_iff_valid_prefix (c : QuorumChain) (st : bytes) (res : bool) :
  is_authorized c st = Some res ->
  (res = true <->
   exists pre a post q', attestations c = pre ++ a :: post /\
     current (mk_chain (chain_genesis c) (pre ++ [a])) = Some (Some q') /\
     action (proposal a) = Statement st) /\
  (forall att c', append c att = Some (true, c') ->
     exists q q', current c = Some (Some q) /\ apply_to att q = Some (Some q') /\
       current c' = Some (Some q') /\ attestations c' = attestations c ++ [att]).
Proof.
  intros (l & Hl & [= <-])%bind_Some. split.
  - rewrite bool_decide_eq_true, (statements_loop_spec _ _ _ _ _ Hl). unfold current. cbn.
    split; [|by right]. by intros [?%not_elem_of_nil|?].
  - intros att c' (r & Er & E)%bind_Some. destruct r as [q|]; [|done].
    apply bind_Some in E as (r & Er2 & E). destruct r as [q'|]; [|done]. injection E as <-.
    exists q, q'. split_and!; try done. unfold current in *. cbn.
    rewrite fold_chain_app, Er. cbn. by rewrite Er2.
Qed.
End chains.

(** ** A concrete chain *)

(** A stand-in codec for the evaluations: the sequence number and a tag. *)
Definition toy_postcard {A} (f : A -> bytes) : Postcard A :=
  {| to_allocvec := f; from_bytes := fun _ => None |}.
Definition toy_proposal : Postcard AttestProposal :=
  toy_postcard (fun p => le_bytes 8 (pseq p) ++
    match action p with Statement s => 0 :: s | AddMember m => 1 :: m
    | RemoveMember m => 2 :: m | SetThreshold t => 3 :: le_bytes 8 t end).

Definition ex_att : Attestation :=
  let p := mk_aproposal (Statement [42]) 1 in
  mk_attestation p [@sign_proposal toy_ed25519 toy_proposal p 1; @sign_proposal toy_ed25519 toy_proposal p 2].

Lemma chain_links_are_authorized_witness :
  exists q, @current toy_ed25519 toy_proposal (mk_chain (genesis [key_of 2; key_of 1; key_of 3] 2) [ex_att])
    = Some (Some q) /\ quorum_wf q /\ seq q = 1.
Proof.
  destruct (@current toy_ed25519 toy_proposal (mk_chain (genesis [key_of 2; key_of 1; key_of 3] 2) [ex_att]))
    as [[q|]|] eqn:E; [|vm_compute in E; discriminate E..].
  exists q. destruct (@chain_links_are_authorized toy_ed25519 toy_proposal _ _ _ _ E) as (Hq & Hs & _).
  split; [reflexivity|]. split; [exact Hq|exact Hs].
Defined.

Lemma is_authorized_iff_valid_prefix_witness :
  let c := mk_chain (genesis [key_of 2; key_of 1; key_of 3] 2) [ex_att] in
  exists pre a post q', attestations c = pre ++ a :: post /\
     @current toy_ed25519 toy_proposal (mk_chain (chain_genesis c) (pre ++ [a])) = Some (Some q') /\
     action (proposal a) = Statement [42].
Proof.
  cbv zeta. apply (@is_authorized_iff_valid_prefix toy_ed25519 toy_proposal
    (mk_chain (genesis [key_of 2; key_of 1; key_of 3] 2) [ex_att]) [42] true);
    [vm_compute; reflexivity|reflexivity].
Defined.
