(* ===== verification/Sequencer.v ===== *)
(** The ordering sequencer ([crates/com/src/sequencer.rs]): owner-signed
    per-account writes, quorum-authorized commits, the account sequence, and
    the member's non-equivocating signer; with the node's persistent signer
    and adoption rule ([crates/noded/src/sequence.rs]). *)

From S2P Require Import Prelude Crypto Attestation.

Open Scope Z_scope.

Definition SEQUENCER_DOMAIN : bytes := str_bytes "craftec/sequencer/1".
Definition OWNER_DOMAIN : bytes := str_bytes "craftec/sequencer-owner/1".

Record SequencedWrite := mk_write {
  account : key;
  nonce : Z;
  payload : bytes;
  owner_sig : bytes
}.

#[export] Instance SequencedWrite_eq_dec : EqDecision SequencedWrite.
Proof. solve_decision. Defined.

Definition authored_bytes (account : key) (nonce : Z) (payload : bytes) : bytes :=
  OWNER_DOMAIN ++ account ++ le_bytes 8 nonce ++ payload.

Record SequencedCommit := mk_commit { write : SequencedWrite; commit_sigs : list MemberSignature }.

Record AccountSequence := mk_seq { seq_account : key; commits : list SequencedCommit }.

Definition seq_new (a : key) : AccountSequence := mk_seq a [].

Definition next_nonce (s : AccountSequence) : Z := Z.of_nat (length (commits s)).

Definition payload_at (s : AccountSequence) (n : Z) : option bytes :=
  c ← commits s !! Z.to_nat n; Some (payload (write c)).

Section sequencer.
Context `{Ed25519, Postcard SequencedWrite}.

Definition author (id : NodeIdentity) (n : Z) (p : bytes) : SequencedWrite :=
  let a := node_id id in mk_write a n p (sign id (authored_bytes a n p)).

Definition owner_authentic (w : SequencedWrite) : bool :=
  verify_slice (account w) (authored_bytes (account w) (nonce w) (payload w)) (owner_sig w).

Definition signing_bytes (w : SequencedWrite) : bytes := SEQUENCER_DOMAIN ++ to_allocvec w.

Definition write_sign (w : SequencedWrite) (id : NodeIdentity) : MemberSignature :=
  mk_msig (node_id id) (sign id (signing_bytes w)).

(** [SequencedCommit::authorizes]. *)
Definition commit_authorizes (c : SequencedCommit) (q : Quorum) : bool :=
  owner_authentic (write c) && is_intersection_sized q &&
  (threshold q <=? count_signers q (signing_bytes (write c)) (commit_sigs c)).

(** [AccountSequence::append]. *)
Definition seq_append (s : AccountSequence) (c : SequencedCommit) (q : Quorum)
  : bool * AccountSequence :=
  if bool_decide (account (write c) = seq_account s) && (nonce (write c) =? next_nonce s) &&
     commit_authorizes c q
  then (true, mk_seq (seq_account s) (commits s ++ [c]))
  else (false, s).

(** The [enumerate().all(..)] of [AccountSequence::verify], from position [i]. *)
Fixpoint verify_from (a : key) (q : Quorum) (i : Z) (l : list SequencedCommit) : bool :=
  match l with
  | [] => true
  | c :: l' =>
      bool_decide (account (write c) = a) && (nonce (write c) =? i) && commit_authorizes c q &&
      verify_from a q (i + 1) l'
  end.

Definition seq_verify (s : AccountSequence) (q : Quorum) : bool :=
  verify_from (seq_account s) q 0 (commits s).

(** ** The signing member *)

Record SequencerMember := mk_member {
  identity : NodeIdentity;
  signed : gmap (key * Z) SequencedWrite
}.

Definition member_new (id : NodeIdentity) : SequencerMember := mk_member id ∅.

Definition member_sign (m : SequencerMember) (w : SequencedWrite)
  : option MemberSignature * SequencerMember :=
  if negb (owner_authentic w) then (None, m)
  else
    let slot := (account w, nonce w) in
    let accept := (Some (write_sign w (identity m)),
                   mk_member (identity m) (<[slot := w]> (signed m))) in
    match signed m !! slot with
    | Some prev => if bool_decide (prev = w) then accept else (None, m)
    | None => accept
    end.

(** The writes a member signed while serving the requests [reqs]. *)
Fixpoint signed_in (m : SequencerMember) (reqs : list SequencedWrite) : list SequencedWrite :=
  match reqs with
  | [] => []
  | w :: reqs' =>
      let '(r, m') := member_sign m w in
      match r with Some _ => w :: signed_in m' reqs' | None => signed_in m' reqs' end
  end.

End sequencer.

(** ** The node's sequence store ([noded/sequence.rs])

    The committed sequences by [(owner, program_cid, account)] and the
    persisted set of ordering signatures this node issued, by
    [(owner, program_cid, account, nonce)], holding the hash of the write. *)

Notation SeqKey := (key * key * key)%type.
Notation SignedKey := (key * key * key * Z)%type.

#[export] Instance MemberSignature_eq_dec : EqDecision MemberSignature.
Proof. solve_decision. Defined.
#[export] Instance SequencedCommit_eq_dec : EqDecision SequencedCommit.
Proof. solve_decision. Defined.

(** [extends(base, longer)]: no fork on [base]'s prefix. *)
Definition extends (base longer : AccountSequence) : bool :=
  (length (commits base) <=? length (commits longer))%nat &&
  forallb (fun '(a, b) => bool_decide (a = b)) (zip (commits base) (commits longer)).

Section store.
Context `{Ed25519, Blake3, Postcard SequencedWrite}.

Record SequenceStore := mk_store {
  store_id : NodeIdentity;
  sequences : gmap SeqKey AccountSequence;
  store_signed : gmap SignedKey key
}.

(** [sign_write_locally], [quorum] being the one [quorum_for] resolved. *)
Definition sign_write_locally (st : SequenceStore) (quorum : option Quorum)
    (owner program_cid : key) (w : SequencedWrite) : option MemberSignature * SequenceStore :=
  match quorum with
  | None => (None, st)
  | Some q =>
      if negb (is_member q (node_id (store_id st))) || negb (is_intersection_sized q) ||
         negb (owner_authentic w)
      then (None, st)
      else
        let k := (owner, program_cid, account w, nonce w) in
        let h := Cid_of (signing_bytes w) in
        let accept := (Some (write_sign w (store_id st)),
                       mk_store (store_id st) (sequences st) (<[k := h]> (store_signed st))) in
        match store_signed st !! k with
        | Some prev => if bool_decide (prev = h) then accept else (None, st)
        | None => accept
        end
  end.

(** [adopt]: take over a fetched sequence that verifies and extends ours. *)
Definition adopt (st : SequenceStore) (k : SeqKey) (fetched : AccountSequence) (q : Quorum)
  : bool * SequenceStore :=
  if negb (bool_decide (seq_account fetched = k.2)) || negb (seq_verify fetched q) then (false, st)
  else
    let cur := sequences st !! k in
    let cur_len := match cur with Some s => next_nonce s | None => 0 end in
    if match cur with Some c => negb (extends c fetched) | None => false end then (false, st)
    else if cur_len <? next_nonce fetched then
      (true, mk_store (store_id st) (<[k := fetched]> (sequences st)) (store_signed st))
    else (true, st).

(** [submit], after its [sync] (a series of [adopt]s). *)
Definition submit (st : SequenceStore) (quorum : option Quorum) (owner program_cid : key)
    (c : SequencedCommit) : bool * SequenceStore :=
  match quorum with
  | None => (false, st)
  | Some q =>
      let k := (owner, program_cid, account (write c)) in
      let s := default (seq_new (account (write c))) (sequences st !! k) in
      let '(ok, s') := seq_append s c q in
      if negb ok then (false, st)
      else (true, mk_store (store_id st) (<[k := s']> (sequences st)) (store_signed st))
  end.
End store.

(** ** Non-equivocation of the member *)

Definition slot (w : SequencedWrite) : key * Z := (account w, nonce w).

(** At most one write per slot. *)
Definition non_equivocating (ws : list SequencedWrite) : Prop :=
  forall w w', w ∈ ws -> w' ∈ ws -> slot w = slot w' -> w = w'.

Section member.
Context `{Ed25519, Postcard SequencedWrite}.

Lemma member_sign_keeps m w s p :
  signed m !! s = Some p -> signed (snd (member_sign m w)) !! s = Some p.
Proof.
  intros Hs. unfold member_sign. destruct (negb (owner_authentic w)); [done|].
  fold (slot w). destruct (decide (slot w = s)) as [<-|Hne].
  - rewrite Hs. case_bool_decide as Hw; [|done]. subst. cbn. by rewrite lookup_insert_eq.
  - destruct (signed m !! slot w); [case_bool_decide|]; cbn; try done; by rewrite lookup_insert_ne.
Qed.

Lemma member_sign_Some m w sig m' :
  member_sign m w = (Some sig, m') ->
  owner_authentic w = true /\ sig = write_sign w (identity m) /\ identity m' = identity m /\
  signed m' !! slot w = Some w /\ (forall p, signed m !! slot w = Some p -> p = w).
Proof.
  unfold member_sign. destruct (owner_authentic w); [|done]. cbn. fold (slot w).
  destruct (signed m !! slot w) as [p|] eqn:Ep; [case_bool_decide as Hw; [|done]|];
    intros [= <- <-]; cbn; rewrite lookup_insert_eq; naive_solver.
Qed.

Lemma signed_in_agrees m reqs w p :
  w ∈ signed_in m reqs -> signed m !! slot w = Some p -> p = w.
Proof.
  revert m; induction reqs as [|r reqs IH]; cbn; intros m Hw Hp; [by apply not_elem_of_nil in Hw|].
  pose proof (member_sign_keeps m r _ _ Hp) as Hkeep.
  destruct (member_sign m r) as [[sig|] m'] eqn:E; cbn in Hkeep; [|by eapply IH].
  apply elem_of_cons in Hw as [->|Hw]; [|by eapply IH].
  by apply member_sign_Some in E as (_ & _ & _ & _ & ?); auto.
Qed.

Lemma signed_in_non_equivocating m reqs : non_equivocating (signed_in m reqs).
Proof.
  revert m; induction reqs as [|r reqs IH]; cbn; intros m; [by intros ?? ?%not_elem_of_nil|].
  destruct (member_sign m r) as [[sig|] m'] eqn:E; [|apply IH].
  apply member_sign_Some in E as (_ & _ & _ & Hr & _).
  intros w w' [->|Hw]%elem_of_cons [->|Hw']%elem_of_cons Hs; [done| | |by eapply IH].
  - eapply signed_in_agrees; [done|]. by rewrite <-Hs.
  - symmetry. eapply signed_in_agrees; [done|]. by rewrite Hs.
Qed.
End member.

(** ** Quorum intersection *)

(** Two threshold-sized signer sets share a member outside any set of at most
    [byzantine_tolerance] members. *)
Lemma intersection_has_honest (q : Quorum) (S1 S2 B : gset key) :
  quorum_wf q -> is_intersection_sized q = true ->
  S1 ⊆ list_to_set (members q) -> S2 ⊆ list_to_set (members q) ->
  threshold q <= Z.of_nat (size S1) -> threshold q <= Z.of_nat (size S2) ->
  Z.of_nat (size B) <= byzantine_tolerance q ->
  exists m, m ∈ S1 /\ m ∈ S2 /\ m ∉ B.
Proof.
  intros Hq Hint H1 H2 Ht1 Ht2 HB.
  destruct (decide (S1 ∩ S2 ⊆ B)) as [Hsub|Hns].
  - exfalso. apply subseteq_size in Hsub.
    assert (size (S1 ∪ S2) <= size (list_to_set (members q) : gset key))%nat as Hle
      by (apply subseteq_size; set_solver).
    rewrite size_union_alt, size_difference_alt in Hle.
    pose proof (size_members q Hq). unfold is_intersection_sized in Hint. apply Z.ltb_lt in Hint.
    pose proof (subseteq_size (S2 ∩ S1) S2 ltac:(set_solver)).
    replace (S1 ∩ S2) with (S2 ∩ S1) in Hsub by set_solver.
    unfold byzantine_tolerance in HB. unfold_int. lia.
  - destruct (set_choose_L ((S1 ∩ S2) ∖ B)) as [m Hm]; [|exists m; set_solver].
    intros E. apply Hns. intros x Hx. destruct (decide (x ∈ B)); [done|]. set_solver.
Qed.

Section no_fork.
Context `{Ed25519, Postcard SequencedWrite, !PostcardLaws SequencedWrite}.

Lemma signing_bytes_inj w w' : signing_bytes w = signing_bytes w' -> w = w'.
Proof. intros E%app_inv_head. by apply to_allocvec_inj. Qed.

(** Every valid signature of [m] among the commit's is over a write of [ws]. *)
Definition sigs_from (m : key) (ws : list SequencedWrite) (c : SequencedCommit) : Prop :=
  forall s, s ∈ commit_sigs c -> member s = m ->
    verify_slice m (signing_bytes (write c)) (signature s) = true ->
    exists w, w ∈ ws /\ signing_bytes w = signing_bytes (write c).

(** The members outside [B] run the signer of this file, from their start,
    over some requests, and a signature that verifies under an honest key is
    one that its signer issued. *)
Definition honest_outside (q : Quorum) (B : gset key) (c : SequencedCommit) (reqs : key -> list SequencedWrite)
    (ids : key -> NodeIdentity) : Prop :=
  forall m, m ∈ members q -> m ∉ B -> sigs_from m (signed_in (member_new (ids m)) (reqs m)) c.

Lemma commit_authorizes_true c q :
  commit_authorizes c q = true ->
  owner_authentic (write c) = true /\ is_intersection_sized q = true /\
  threshold q <= Z.of_nat (size (signer_set q (signing_bytes (write c)) (commit_sigs c))).
Proof.
  intros [[H1 H2]%andb_true_iff H3%Z.leb_le]%andb_true_iff. done.
Qed.

Lemma authorized_commits_agree q B reqs ids c1 c2 :
  quorum_wf q -> Z.of_nat (size B) <= byzantine_tolerance q ->
  honest_outside q B c1 reqs ids -> honest_outside q B c2 reqs ids ->
  commit_authorizes c1 q = true -> commit_authorizes c2 q = true ->
  slot (write c1) = slot (write c2) -> write c1 = write c2.
Proof.
  intros Hq HB Hh1 Hh2 (_ & Hint & Ht1)%commit_authorizes_true (_ & _ & Ht2)%commit_authorizes_true Hslot.
  destruct (intersection_has_honest q _ _ B Hq Hint
    (signer_set_members q _ _ Hq) (signer_set_members q _ _ Hq) Ht1 Ht2 HB) as (m & Hm1 & Hm2 & HmB).
  apply elem_of_signer_set in Hm1 as (Hmem & s1 & Hs1 & Em1 & Hv1).
  apply elem_of_signer_set in Hm2 as (_ & s2 & Hs2 & Em2 & Hv2).
  apply (is_member_spec q m Hq) in Hmem.
  destruct (Hh1 m Hmem HmB s1 Hs1 Em1 Hv1) as (w1 & Hw1 & ->%signing_bytes_inj).
  destruct (Hh2 m Hmem HmB s2 Hs2 Em2 Hv2) as (w2 & Hw2 & ->%signing_bytes_inj).
  by eapply signed_in_non_equivocating.
Qed.

Lemma verify_from_lookup a q i l k c :
  verify_from a q i l = true -> l !! k = Some c ->
  account (write c) = a /\ nonce (write c) = i + Z.of_nat k /\ commit_authorizes c q = true.
Proof.
  revert i k; induction l as [|c0 l IH]; cbn; intros i k Hv Hk; [done|].
  apply andb_true_iff in Hv as [[[H1%bool_decide_eq_true H2%Z.eqb_eq]%andb_true_iff H3]%andb_true_iff H4].
  destruct k as [|k]; cbn in Hk; [simplify_eq; split_and!; [done|lia|done]|].
  destruct (IH (i + 1) k H4 Hk) as (?&?&?). split_and!; [done|lia|done].
Qed.

Lemma verify_from_snoc a q i l c :
  verify_from a q i (l ++ [c]) =
    verify_from a q i l && (bool_decide (account (write c) = a) &&
      (nonce (write c) =? i + Z.of_nat (length l)) && commit_authorizes c q).
Proof.
  revert i; induction l as [|c0 l IH]; intros i; cbn.
  - by rewrite Z.add_0_r, andb_true_r.
  - rewrite IH, !andb_assoc. by replace (i + 1 + Z.of_nat (length l)) with (i + Z.of_nat (S (length l))) by lia.
Qed.
End no_fork.

(** ** The sequences *)

Section properties.
Context `{Ed25519, Postcard SequencedWrite, !PostcardLaws SequencedWrite}.

(** C1: No fork.  Two nodes that each hold a verified sequence of the same
    account under the same quorum agree on every slot they both have: one
    sequence of writes is a prefix of the other, whatever the Byzantine members
    do, as long as there are at most [byzantine_tolerance] = 2k - n - 1 of them
    and the others run the non-equivocating signer. *)
Theorem sequences_never_fork (q : Quorum) (B : gset key)
    (reqs : key -> list SequencedWrite) (ids : key -> NodeIdentity) (s1 s2 : AccountSequence) :
  quorum_wf q -> Z.of_nat (size B) <= byzantine_tolerance q ->
  seq_account s1 = seq_account s2 ->
  (forall c, c ∈ commits s1 ++ commits s2 -> honest_outside q B c reqs ids) ->
  seq_verify s1 q = true -> seq_verify s2 q = true ->
  (length (commits s1) <= length (commits s2))%nat ->
  map write (commits s1) = take (length (commits s1)) (map write (commits s2)).
Proof.
  intros Hq HB Hacc Hh Hv1 Hv2 Hlen. apply list_eq. intros k.
  destruct (decide (k < length (commits s1))%nat) as [Hk|Hk].
  - destruct (lookup_lt_is_Some_2 (commits s1) k Hk) as [c1 Hc1].
    destruct (lookup_lt_is_Some_2 (commits s2) k ltac:(lia)) as [c2 Hc2].
    rewrite lookup_take_lt by done. rewrite !list_lookup_fmap, Hc1, Hc2. cbn. f_equal.
    destruct (verify_from_lookup _ _ _ _ _ _ Hv1 Hc1) as (Ha1 & Hn1 & Hau1).
    destruct (verify_from_lookup _ _ _ _ _ _ Hv2 Hc2) as (Ha2 & Hn2 & Hau2).
    eapply (authorized_commits_agree q B reqs ids); eauto using list_elem_of_lookup_2.
    + apply Hh. apply elem_of_app. left. by eapply list_elem_of_lookup_2.
    + apply Hh. apply elem_of_app. right. by eapply list_elem_of_lookup_2.
    + unfold slot. congruence.
  - rewrite lookup_ge_None_2 by (rewrite length_map; lia).
    rewrite lookup_ge_None_2; [done|]. rewrite length_take, length_map. lia.
Qed.

(** [append] is exactly the incremental form of [verify]: starting from a
    verified sequence it accepts a commit if and only if the sequence with the
    commit added verifies, and it never touches the committed prefix, so an
    occupied slot is never rewritten. *)
Theorem append_is_incremental_verify (s : AccountSequence) (c : SequencedCommit) (q : Quorum) :
  seq_verify s q = true ->
  (fst (seq_append s c q) = seq_verify (mk_seq (seq_account s) (commits s ++ [c])) q) /\
  seq_verify (snd (seq_append s c q)) q = true /\
  (forall n p, payload_at s n = Some p -> payload_at (snd (seq_append s c q)) n = Some p) /\
  (fst (seq_append s c q) = true ->
     payload_at (snd (seq_append s c q)) (next_nonce s) = Some (payload (write c))).
Proof.
  intros Hv. unfold seq_verify in *. cbn [seq_account commits]. rewrite verify_from_snoc, Hv. cbn [andb].
  unfold seq_append, next_nonce. rewrite Z.add_0_l.
  destruct (bool_decide _ && _ && _) eqn:E; cbn [fst snd seq_account commits].
  - split_and!; [done|by rewrite verify_from_snoc, Hv, Z.add_0_l, E| |].
    + intros n p. unfold payload_at; cbn. intros (c' & Hc' & E')%bind_Some.
      by rewrite (lookup_app_l_Some _ _ _ _ Hc').
    + intros _. unfold payload_at; cbn. rewrite Nat2Z.id, lookup_app_r, Nat.sub_diag by done. done.
  - split_and!; done.
Qed.
End properties.

(** ** A concrete quorum of three, two of them signing *)

(** A length-prefixed codec of writes with its round trip. *)
Definition toy_write_codec : Postcard SequencedWrite := {|
  to_allocvec := fun w =>
    [Z.of_nat (length (account w)); Z.of_nat (length (payload w)); nonce w] ++
    account w ++ payload w ++ owner_sig w;
  from_bytes := fun b =>
    match b with
    | la :: lp :: n :: r =>
        let a := Z.to_nat la in let p := Z.to_nat lp in
        Some (mk_write (take a r) n (take p (drop a r)) (drop p (drop a r)))
    | _ => None
    end
|}.

Lemma toy_write_codec_laws : @PostcardLaws SequencedWrite toy_write_codec.
Proof.
  split. intros [a n p o]. cbn. rewrite !Nat2Z.id, take_app_length, drop_app_length.
  by rewrite take_app_length, drop_app_length.
Qed.

Lemma signed_in_one `{Ed25519, Postcard SequencedWrite} id w :
  owner_authentic w = true -> signed_in (member_new id) [w] = [w].
Proof. intros Hw. cbn. unfold member_sign. rewrite Hw. cbn. by rewrite lookup_empty. Qed.

Definition ex_q : Quorum := genesis [key_of 1; key_of 2; key_of 3] 2.
Definition ex_w : SequencedWrite := @author toy_ed25519 7 0 [1; 2].
Definition ex_commit (m1 m2 : Z) : SequencedCommit :=
  mk_commit ex_w [@write_sign toy_ed25519 toy_write_codec ex_w m1; @write_sign toy_ed25519 toy_write_codec ex_w m2].
Definition ex_seq (m1 m2 : Z) : AccountSequence := mk_seq (key_of 7) [ex_commit m1 m2].

Lemma sequences_never_fork_witness :
  map write (commits (ex_seq 1 2)) = take 1 (map write (commits (ex_seq 2 3))).
Proof.
  apply (@sequences_never_fork toy_ed25519 toy_write_codec toy_write_codec_laws ex_q ∅
    (fun _ => [ex_w]) (fun _ => 0) (ex_seq 1 2) (ex_seq 2 3)).
  - apply genesis_wf.
  - vm_compute. discriminate.
  - reflexivity.
  - intros c Hc m _ _ s _ _ _. exists ex_w. split.
    + rewrite (@signed_in_one toy_ed25519 toy_write_codec); [left|]. vm_compute. reflexivity.
    + apply elem_of_app in Hc as [->%list_elem_of_singleton| ->%list_elem_of_singleton]; reflexivity.
  - vm_compute. reflexivity.
  - vm_compute. reflexivity.
  - apply le_n.
Defined.

Lemma append_is_incremental_verify_witness :
  fst (@seq_append toy_ed25519 toy_write_codec (seq_new (key_of 7)) (ex_commit 1 3) ex_q) = true.
Proof.
  destruct (@append_is_incremental_verify toy_ed25519 toy_write_codec
    (seq_new (key_of 7)) (ex_commit 1 3) ex_q ltac:(reflexivity)) as [E _].
  rewrite E. vm_compute. reflexivity.
Defined.

(** ** The node's store *)

Section store_properties.
Context `{Ed25519, Blake3, Postcard SequencedWrite}.

(** Every stored sequence is the key's account's and verifies. *)
Definition store_wf (q : Quorum) (st : SequenceStore) : Prop :=
  map_Forall (fun k s => seq_account s = k.2 /\ seq_verify s q = true) (sequences st).

(** [st'] has every commit of [st], in place. *)
Definition grows (st st' : SequenceStore) : Prop :=
  forall k s, sequences st !! k = Some s ->
    exists s', sequences st' !! k = Some s' /\ commits s `prefix_of` commits s'.

Lemma zip_equal_prefix (l k : list SequencedCommit) :
  (length l <= length k)%nat -> forallb (fun '(a, b) => bool_decide (a = b)) (zip l k) = true ->
  l `prefix_of` k.
Proof.
  revert k; induction l as [|a l IH]; intros [|b k]; cbn; intros Hlen Hz; try lia.
  - apply prefix_nil.
  - apply prefix_nil.
  - apply andb_true_iff in Hz as [->%bool_decide_eq_true Hz]. apply prefix_cons, IH; [lia|done].
Qed.

Lemma extends_prefix s s' : extends s s' = true -> commits s `prefix_of` commits s'.
Proof. intros [Hl%Nat.leb_le Hz]%andb_true_iff. by apply zip_equal_prefix. Qed.

Lemma grows_refl st : grows st st.
Proof. intros k s Hs. by exists s. Qed.

Lemma grows_insert st k s' :
  (forall s, sequences st !! k = Some s -> commits s `prefix_of` commits s') ->
  grows st (mk_store (store_id st) (<[k := s']> (sequences st)) (store_signed st)).
Proof.
  intros Hk k0 s Hs. cbn. destruct (decide (k = k0)) as [<-|Hne].
  - exists s'. split; [apply lookup_insert_eq|by apply Hk].
  - exists s. by rewrite lookup_insert_ne.
Qed.

Lemma seq_append_verified s c q :
  seq_verify s q = true -> seq_verify (snd (seq_append s c q)) q = true /\
  seq_account (snd (seq_append s c q)) = seq_account s /\
  commits s `prefix_of` commits (snd (seq_append s c q)).
Proof.
  intros Hv. unfold seq_append. destruct (_ && _ && _) eqn:E; cbn; [|done].
  split_and!; [|done|by apply prefix_app_r]. unfold seq_verify in *. cbn.
  rewrite verify_from_snoc, Hv, Z.add_0_l. exact E.
Qed.

(** The node's store of committed sequences stays verified and only grows:
    adopting any fetched sequence and submitting any commit keep every stored
    sequence one that verifies for its account under the quorum, and every
    commit already stored stays where it is; a fetched fork is refused. *)
Theorem store_stays_verified_and_grows (q : Quorum) (st : SequenceStore) :
  store_wf q st ->
  (forall k fetched,
     let '(ok, st') := adopt st k fetched q in
     store_wf q st' /\ grows st st' /\
     (forall s, sequences st !! k = Some s -> extends s fetched = false -> ok = false /\ st' = st)) /\
  (forall owner program_cid c,
     let '(ok, st') := submit st (Some q) owner program_cid c in
     store_wf q st' /\ grows st st' /\ (ok = false -> st' = st)).
Proof.
  intros Hwf. split.
  - intros k f. unfold adopt.
    destruct (bool_decide (seq_account f = k.2)) eqn:Ea; [apply bool_decide_eq_true in Ea|];
      cbn; [|by split_and!; auto using grows_refl].
    destruct (seq_verify f q) eqn:Ev; cbn; [|by split_and!; auto using grows_refl].
    destruct (sequences st !! k) as [cur|] eqn:Ek.
    + destruct (extends cur f) eqn:Ex; cbn; [|by split_and!; auto using grows_refl].
      destruct (_ <? _); split_and!; auto using grows_refl; try (intros s [= <-]; congruence).
      * by apply map_Forall_insert_2.
      * apply grows_insert. rewrite Ek. intros s [= <-]. by apply extends_prefix.
    + destruct (_ <? _); split_and!; auto using grows_refl; try done.
      * by apply map_Forall_insert_2.
      * apply grows_insert. by rewrite Ek.
  - intros o p c. unfold submit.
    set (k := (o, p, account (write c))).
    set (s := default (seq_new (account (write c))) (sequences st !! k)).
    assert (seq_account s = k.2 /\ seq_verify s q = true) as [Ha Hv].
    { unfold s. destruct (sequences st !! k) as [cur|] eqn:Ek; cbn; [by apply (Hwf k)|done]. }
    destruct (seq_append_verified s c q Hv) as (Hv' & Ha' & Hpre).
    destruct (seq_append s c q) as [ok s'] eqn:E. cbn in *. destruct ok; cbn.
    + split_and!; [|apply grows_insert|done].
      * apply map_Forall_insert_2; [|done]. split; [etrans; [exact Ha'|exact Ha]|done].
      * intros s0 Hs0. unfold s in Hpre. by rewrite Hs0 in Hpre.
    + split_and!; auto using grows_refl.
Qed.

(** The writes the store signed under [(owner, program_cid)] while serving
    [reqs] (each with the program it was requested for). *)
Fixpoint store_signed_in (st : SequenceStore) (quorum : option Quorum)
    (reqs : list (key * key * SequencedWrite)) : list (key * key * SequencedWrite) :=
  match reqs with
  | [] => []
  | (o, p, w) :: reqs' =>
      let '(r, st') := sign_write_locally st quorum o p w in
      match r with
      | Some _ => (o, p, w) :: store_signed_in st' quorum reqs'
      | None => store_signed_in st' quorum reqs'
      end
  end.

(** The slot the store's persisted set is keyed by. *)
Definition store_slot (r : key * key * SequencedWrite) : SignedKey :=
  let '(o, p, w) := r in (o, p, account w, nonce w).

Lemma sign_locally_keeps st quorum o p w k h :
  store_signed st !! k = Some h ->
  store_signed (snd (sign_write_locally st quorum o p w)) !! k = Some h.
Proof.
  intros Hk. unfold sign_write_locally. destruct quorum as [q|]; [|done].
  destruct (_ || _ || _); [done|]. set (k0 := (o, p, account w, nonce w)).
  destruct (decide (k0 = k)) as [<-|Hne].
  - rewrite Hk. case_bool_decide as Hh; [|done]. subst. cbn. by rewrite lookup_insert_eq.
  - destruct (store_signed st !! k0); [case_bool_decide|]; cbn; try done; by rewrite lookup_insert_ne.
Qed.

Lemma sign_locally_Some st quorum o p w sig st' :
  sign_write_locally st quorum o p w = (Some sig, st') ->
  store_signed st' !! store_slot (o, p, w) = Some (Cid_of (signing_bytes w)) /\
  (forall h, store_signed st !! store_slot (o, p, w) = Some h -> h = Cid_of (signing_bytes w)).
Proof.
  unfold sign_write_locally. destruct quorum as [q|]; [|done]. destruct (_ || _ || _); [done|].
  cbn. destruct (store_signed st !! _) as [h|]; [case_bool_decide as Hh; [|done]|];
    intros [= <- <-]; cbn; rewrite lookup_insert_eq; naive_solver.
Qed.

Lemma store_signed_in_agrees st quorum reqs o p w h :
  (o, p, w) ∈ store_signed_in st quorum reqs ->
  store_signed st !! store_slot (o, p, w) = Some h -> h = Cid_of (signing_bytes w).
Proof.
  revert st; induction reqs as [|[[o0 p0] w0] reqs IH]; cbn [store_signed_in]; intros st Hw Hh;
    [by apply not_elem_of_nil in Hw|].
  pose proof (sign_locally_keeps st quorum o0 p0 w0 _ _ Hh) as Hkeep.
  destruct (sign_write_locally st quorum o0 p0 w0) as [[sig|] st'] eqn:E; cbn in Hkeep;
    [|by eapply IH].
  apply elem_of_cons in Hw as [[= -> -> ->]|Hw]; [|by eapply IH].
  apply sign_locally_Some in E as [_ E]. by apply E.
Qed.

Lemma store_signed_in_hash st quorum reqs o p w w' :
  (o, p, w) ∈ store_signed_in st quorum reqs -> (o, p, w') ∈ store_signed_in st quorum reqs ->
  slot w = slot w' -> Cid_of (signing_bytes w) = Cid_of (signing_bytes w').
Proof.
  unfold slot. revert st; induction reqs as [|[[o0 p0] w0] reqs IH]; cbn [store_signed_in]; intros st Hw Hw' Hs;
    [by apply not_elem_of_nil in Hw|].
  destruct (sign_write_locally st quorum o0 p0 w0) as [[sig|] st'] eqn:E; [|by eapply IH].
  apply sign_locally_Some in E as [Hh _]. injection Hs as Ha Hn.
  apply elem_of_cons in Hw as [Hw|Hw], Hw' as [Hw'|Hw']; simplify_eq; [done| | |].
  - eapply store_signed_in_agrees; [exact Hw'|]. unfold store_slot in *. by rewrite <-Ha, <-Hn.
  - symmetry. eapply store_signed_in_agrees; [exact Hw|]. unfold store_slot in *. by rewrite Ha, Hn.
  - eapply (IH st'); [done|done|congruence].
Qed.
End store_properties.

Section store_signer.
Context `{Ed25519, Blake3, Postcard SequencedWrite, !PostcardLaws SequencedWrite}.

(** The node's persistent signer never equivocates within a program: among
    all the writes it signed for one [(owner, program_cid)], over any requests
    and from any persisted set (so across restarts too), two writes at the same
    account and nonce are the same write.  The hash kept in the set stands for
    the write because BLAKE3 does not collide on the two. *)
Theorem store_signer_non_equivocating (st : SequenceStore) (quorum : option Quorum)
    (reqs : list (key * key * SequencedWrite)) (o p : key) (w w' : SequencedWrite) :
  (Cid_of (signing_bytes w) = Cid_of (signing_bytes w') -> signing_bytes w = signing_bytes w') ->
  (o, p, w) ∈ store_signed_in st quorum reqs -> (o, p, w') ∈ store_signed_in st quorum reqs ->
  slot w = slot w' -> w = w'.
Proof.
  intros Hcr Hw Hw' Hs. apply signing_bytes_inj, Hcr. by eapply store_signed_in_hash.
Qed.
End store_signer.

(** A member's ordering signature covers the write and not the program it
    orders the write for, while the persisted set is keyed per program: two
    honest members who order [ex_w] for one program and another write of the
    same account and nonce for a second program have thereby produced two
    commits that both authorize under their quorum, at the same slot. *)
Definition ex_w' : SequencedWrite := @author toy_ed25519 7 0 [9].

Definition ex_store (id : Z) : @SequenceStore toy_ed25519 := @mk_store toy_ed25519 id ∅ ∅.

Definition ex_sign_both (id : Z) : option (MemberSignature * MemberSignature) :=
  let '(r1, st1) := @sign_write_locally toy_ed25519 toy_blake3 toy_write_codec
                      (ex_store id) (Some ex_q) (key_of 100) (key_of 101) ex_w in
  let '(r2, _) := @sign_write_locally toy_ed25519 toy_blake3 toy_write_codec
                      st1 (Some ex_q) (key_of 100) (key_of 102) ex_w' in
  s1 ← r1; s2 ← r2; Some (s1, s2).

Theorem cross_program_signatures_fork :
  exists a1 a2 b1 b2,
    ex_sign_both 1 = Some (a1, b1) /\ ex_sign_both 2 = Some (a2, b2) /\
    @commit_authorizes toy_ed25519 toy_write_codec (mk_commit ex_w [a1; a2]) ex_q = true /\
    @commit_authorizes toy_ed25519 toy_write_codec (mk_commit ex_w' [b1; b2]) ex_q = true /\
    slot ex_w = slot ex_w' /\ ex_w <> ex_w'.
Proof.
  exists (@write_sign toy_ed25519 toy_write_codec ex_w 1), (@write_sign toy_ed25519 toy_write_codec ex_w 2),
    (@write_sign toy_ed25519 toy_write_codec ex_w' 1), (@write_sign toy_ed25519 toy_write_codec ex_w' 2).
  split_and!; [vm_compute; reflexivity..|]. intros E%(f_equal payload). discriminate E.
Qed.

Lemma store_stays_verified_and_grows_witness :
  exists st, @store_wf toy_ed25519 toy_write_codec ex_q st /\
    sequences st !! (key_of 100, key_of 101, key_of 7) = Some (ex_seq 1 2).
Proof.
  destruct (@store_stays_verified_and_grows toy_ed25519 toy_write_codec ex_q (ex_store 1)
    (map_Forall_empty _)) as [Ha _].
  specialize (Ha (key_of 100, key_of 101, key_of 7) (ex_seq 1 2)).
  assert (sequences (snd (@adopt toy_ed25519 toy_write_codec (ex_store 1)
    (key_of 100, key_of 101, key_of 7) (ex_seq 1 2) ex_q)) !! (key_of 100, key_of 101, key_of 7)
    = Some (ex_seq 1 2)) as E by (vm_compute; reflexivity).
  destruct (@adopt toy_ed25519 toy_write_codec _ _ _ _) as [ok st]. exists st. split; [apply Ha|exact E].
Defined.

Lemma store_signer_non_equivocating_witness :
  @store_signed_in toy_ed25519 toy_blake3 toy_write_codec (ex_store 1) (Some ex_q)
    [(key_of 100, key_of 101, ex_w); (key_of 100, key_of 101, ex_w')]
    = [(key_of 100, key_of 101, ex_w)] /\ ex_w = ex_w.
Proof.
  assert (@store_signed_in toy_ed25519 toy_blake3 toy_write_codec (ex_store 1) (Some ex_q)
    [(key_of 100, key_of 101, ex_w); (key_of 100, key_of 101, ex_w')]
    = [(key_of 100, key_of 101, ex_w)]) as E by (vm_compute; reflexivity).
  split; [exact E|].
  apply (@store_signer_non_equivocating toy_ed25519 toy_blake3 toy_write_codec toy_write_codec_laws
    (ex_store 1) (Some ex_q) [(key_of 100, key_of 101, ex_w); (key_of 100, key_of 101, ex_w')]
    (key_of 100) (key_of 101) ex_w ex_w).
  - intros _. reflexivity.
  - rewrite E. left.
  - rewrite E. left.
  - reflexivity.
Defined.
