(* ===== verification/SequenceNode.v ===== *)
(** The sequence store on a node ([crates/noded/src/sequence.rs]): its files,
    publishing and pulling sequences, collecting the signatures of a quorum, and
    answering solicitations.  The store itself is [Sequencer.SequenceStore].

    The quorum source, the object engine, the routing, the membership and the
    transport are functions on a [World]; the time is an argument.  The
    directory is a map from file names to contents; what a write of a file leaves
    in it is a function of the [World] too, since errors of a write are ignored.
    A definition runs a whole call; the signed set is saved after the lock on it
    is released, and [SequenceKeeps.node_step] interleaves the two halves. *)

From S2P Require Import Prelude Crypto Attestation Sequencer.

Open Scope Z_scope.

Definition SYNC_DEBOUNCE : Z := 2000.
Definition FULL_ANTI_ENTROPY : Z := 60000.
Definition MAX_SOLICIT_FRAME : nat := 65536.

(** ** File names *)

Definition hex_value (c : Z) : option Z :=
  if (48 <=? c) && (c <=? 57) then Some (c - 48)
  else if (97 <=? c) && (c <=? 102) then Some (c - 87)
  else if (65 <=? c) && (c <=? 70) then Some (c - 55)
  else None.

(** [hex::decode]. *)
Fixpoint hex_decode (s : bytes) : option bytes :=
  match s with
  | [] => Some []
  | [_] => None
  | a :: b :: s' => x ← hex_value a; y ← hex_value b; r ← hex_decode s'; Some (x * 16 + y :: r)
  end.

Definition parse32 (hex : bytes) : option key :=
  b ← hex_decode hex; if (length b =? 32)%nat then Some b else None.

(** [s.split(c)]. *)
Fixpoint split_at (c : Z) (s : bytes) : list bytes :=
  match s with
  | [] => [[]]
  | x :: s' => if x =? c then [] :: split_at c s' else match split_at c s' with h :: t => (x :: h) :: t | [] => [[x]] end
  end.

Definition parse_key (stem : bytes) : option SeqKey :=
  match split_at 95 stem with
  | o :: p :: a :: _ => o ← parse32 o; p ← parse32 p; a ← parse32 a; Some (o, p, a)
  | _ => None
  end.

(** [file_stem] and [extension]: around the last dot, unless it comes first. *)
Fixpoint split_ext (s : bytes) : option (bytes * bytes) :=
  match s with
  | [] => None
  | x :: s' =>
      match split_ext s' with
      | Some (stem, ext) => Some (x :: stem, ext)
      | None => if x =? 46 then Some ([], s') else None
      end
  end.

Definition seq_stem (k : SeqKey) : bytes := hex_encode k.1.1 ++ [95] ++ hex_encode k.1.2 ++ [95] ++ hex_encode k.2.
Definition SEQ_EXT : bytes := str_bytes "seq".
Definition seq_path (k : SeqKey) : bytes := seq_stem k ++ [46] ++ SEQ_EXT.
Definition SIGNED_SET : bytes := str_bytes "signed.set".

(** The DHT name of a sequence's head. *)
Definition sequence_head_name (k : SeqKey) : bytes :=
  [1] ++ str_bytes "sequence-" ++ hex_encode k.1.1 ++ [45] ++ hex_encode k.1.2 ++ [45] ++ hex_encode k.2.

Record SignSolicit := mk_solicit { so_owner : key; so_program : key; so_write : SequencedWrite }.

Inductive HeadReply := Newer (s : AccountSequence) | UpToDate | NoAnswer.

Section node.
Context {World Addr : Type}.
Context {E : Ed25519} {B3 : Blake3} {PW : Postcard SequencedWrite}.
Context {PA : Postcard AccountSequence} {PS : Postcard (gmap SignedKey key)} {PQ : Postcard SignSolicit} {PM : Postcard MemberSignature}.

(** What the node is connected to; [None] is an error. *)
Record Net := mk_net {
  quorum_for : key -> key -> World -> option Quorum;
  resolve_app : key -> bytes -> World -> option (option (key * Z)) * World;
  get_following_manifest : key -> World -> option bytes * World;
  publish_system : bytes -> World -> option key * World;
  announce_app : bytes -> key -> Z -> World -> World;
  census : World -> list key;
  member_addr : key -> World -> option Addr;
  request_tagged : Addr -> bytes -> World -> option bytes * World;
  fs_write : bytes -> bytes -> option bytes -> World -> option bytes
}.

Record SeqNode := mk_node {
  sn_store : SequenceStore;
  sn_dir : gmap bytes bytes;
  sn_joined : bool;
  sn_last_sync : gmap SeqKey Z;
  sn_last_full : gmap SeqKey Z
}.

Definition with_store (n : SeqNode) (st : SequenceStore) : SeqNode := mk_node st (sn_dir n) (sn_joined n) (sn_last_sync n) (sn_last_full n).
Definition with_dir (n : SeqNode) (d : gmap bytes bytes) : SeqNode := mk_node (sn_store n) d (sn_joined n) (sn_last_sync n) (sn_last_full n).

Definition me (n : SeqNode) : key := node_id (store_id (sn_store n)).

(** ** Files *)

(** One directory entry of [open]. *)
Definition load_entry (e : bytes * bytes) : option (SeqKey * AccountSequence) :=
  '(stem, ext) ← split_ext e.1;
  if bool_decide (ext = SEQ_EXT) && negb (bool_decide (stem = [])) then
    k ← parse_key stem;
    s ← from_bytes e.2;
    if bool_decide (seq_account s = k.2) then Some (k, s) else None
  else None.

(** [SequenceStore::open]; a later entry of a key replaces an earlier one. *)
Definition open (id : NodeIdentity) (dir : gmap bytes bytes) : SeqNode :=
  mk_node (mk_store id (list_to_map (reverse (omap load_entry (map_to_list dir)))) (default ∅ (dir !! SIGNED_SET ≫= from_bytes)))
    dir false ∅ ∅.

Definition set_membership (n : SeqNode) : SeqNode := mk_node (sn_store n) (sn_dir n) true (sn_last_sync n) (sn_last_full n).

(** [let _ = std::fs::write(name, content)]: what is in the file afterwards. *)
Definition write_file (net : Net) (name content : bytes) (n : SeqNode) (w : World) : SeqNode :=
  with_dir n (partial_alter (fun old => fs_write net name content old w) name (sn_dir n)).

Definition persist (net : Net) (k : SeqKey) (s : AccountSequence) (n : SeqNode) (w : World) : SeqNode := write_file net (seq_path k) (to_allocvec s) n w.
Definition persist_signed (net : Net) (signed : gmap SignedKey key) (n : SeqNode) (w : World) : SeqNode := write_file net SIGNED_SET (to_allocvec signed) n w.

(** ** Pulling *)

Definition local_len (n : SeqNode) (k : SeqKey) : Z := match sequences (sn_store n) !! k with Some s => next_nonce s | None => 0 end.

Definition fetch_if_newer (net : Net) (k : SeqKey) (from : key) (len : Z) (w : World) : HeadReply * World :=
  match resolve_app net from (sequence_head_name k) w with
  | (Some (Some (cid, version)), w) =>
      if version <=? len + 1 then (UpToDate, w)
      else
        let '(b, w) := get_following_manifest net cid w in
        (match b ≫= from_bytes with Some s => Newer s | None => NoAnswer end, w)
  | (_, w) => (NoAnswer, w)
  end.

(** [t.elapsed() < d]. *)
Definition recent (last : gmap SeqKey Z) (k : SeqKey) (now d : Z) : bool :=
  match last !! k with Some t => sat_sub now t <? d | None => false end.

Definition full_round_due (n : SeqNode) (k : SeqKey) (now : Z) : bool * SeqNode :=
  if recent (sn_last_full n) k now FULL_ANTI_ENTROPY then (false, n)
  else (true, mk_node (sn_store n) (sn_dir n) (sn_joined n) (sn_last_sync n) (<[k := now]> (sn_last_full n))).

(** [adopt], which writes the file of what it takes over. *)
Definition adopt (net : Net) (n : SeqNode) (k : SeqKey) (fetched : AccountSequence) (q : Quorum) (w : World) : bool * SeqNode :=
  let '(ok, st) := Sequencer.adopt (sn_store n) k fetched q in
  (ok, if ok && (local_len n k <? next_nonce fetched) then persist net k fetched (with_store n st) w else n).

(** The walk over the census. *)
Fixpoint pull (net : Net) (k : SeqKey) (q : Quorum) (targets : list key) (n : SeqNode) (w : World) : SeqNode * World :=
  match targets with
  | [] => (n, w)
  | peer :: targets' =>
      match fetch_if_newer net k peer (local_len n k) w with
      | (Newer f, w) => pull net k q targets' (adopt net n k f q w).2 w
      | (_, w) => pull net k q targets' n w
      end
  end.

(** The account's own record first; whether it settles the question. *)
Definition ask_writer (net : Net) (k : SeqKey) (q : Quorum) (n : SeqNode) (w : World) : bool * SeqNode * World :=
  if bool_decide (k.2 = me n) && (0 <? local_len n k) then (true, n, w)
  else
    match fetch_if_newer net k k.2 (local_len n k) w with
    | (Newer f, w) => let '(ok, n) := adopt net n k f q w in (ok, n, w)
    | (UpToDate, w) => (true, n, w)
    | (NoAnswer, w) => (false, n, w)
    end.

Definition sync (net : Net) (k : SeqKey) (now : Z) (n : SeqNode) (w : World) : SeqNode * World :=
  match quorum_for net k.1.1 k.1.2 w with
  | None => (n, w)
  | Some q =>
      if negb (is_intersection_sized q) then (n, w)
      else
        let '(due, n) := full_round_due n k now in
        let '(settled, n, w) := if due : bool then (false, n, w) else ask_writer net k q n w in
        if settled || negb (sn_joined n) then (n, w)
        else pull net k q (filter (fun id => id <> me n) (census net w)) n w
  end.

Definition sync_debounced (net : Net) (k : SeqKey) (now : Z) (n : SeqNode) (w : World) : SeqNode * World :=
  if recent (sn_last_sync n) k now SYNC_DEBOUNCE then (n, w)
  else sync net k now (mk_node (sn_store n) (sn_dir n) (sn_joined n) (<[k := now]> (sn_last_sync n)) (sn_last_full n)) w.

Definition sequence_of (net : Net) (owner program_cid account : key) (now : Z) (n : SeqNode) (w : World) : option AccountSequence * SeqNode * World :=
  let k := (owner, program_cid, account) in
  let '(n, w) := sync_debounced net k now n w in (sequences (sn_store n) !! k, n, w).

(** ** Committing *)

Definition publish (net : Net) (k : SeqKey) (n : SeqNode) (w : World) : World :=
  match sequences (sn_store n) !! k with
  | None => w
  | Some s =>
      match publish_system net (to_allocvec s) w with
      | (Some cid, w) => announce_app net (sequence_head_name k) cid (next_nonce s + 1) w
      | (None, w) => w
      end
  end.

Definition submit (net : Net) (owner program_cid : key) (c : SequencedCommit) (now : Z) (n : SeqNode) (w : World) : bool * SeqNode * World :=
  match quorum_for net owner program_cid w with
  | None => (false, n, w)
  | Some q =>
      let k := (owner, program_cid, account (write c)) in
      let '(n, w) := sync net k now n w in
      let '(ok, st) := Sequencer.submit (sn_store n) (Some q) owner program_cid c in
      if ok : bool then
        let s := default (seq_new (account (write c))) (sequences st !! k) in
        let n := persist net k s (with_store n st) w in
        (true, n, publish net k n w)
      else (false, n, w)
  end.

(** [sign_write_locally] up to the write of the file, with the set to write. *)
Definition sign_in_memory (net : Net) (owner program_cid : key) (wr : SequencedWrite) (n : SeqNode) (w : World) :
  option (MemberSignature * gmap SignedKey key) * SeqNode :=
  let '(r, st) := Sequencer.sign_write_locally (sn_store n) (quorum_for net owner program_cid w) owner program_cid wr in
  match r with
  | Some sig => (Some (sig, store_signed st), with_store n st)
  | None => (None, n)
  end.

Definition sign_write_locally (net : Net) (owner program_cid : key) (wr : SequencedWrite) (n : SeqNode) (w : World) : option MemberSignature * SeqNode :=
  match sign_in_memory net owner program_cid wr n w with
  | (Some (sig, snapshot), n) => (Some sig, persist_signed net snapshot n w)
  | (None, n) => (None, n)
  end.

Definition solicit_member (net : Net) (m : key) (s : SignSolicit) (w : World) : option MemberSignature * World :=
  match member_addr net m w with
  | None => (None, w)
  | Some addr =>
      let '(r, w) := request_tagged net addr (to_allocvec s) w in
      (match r with Some (1 :: sig) => from_bytes sig | _ => None end, w)
  end.

(** The loop of [collect] over the members. *)
Fixpoint gather (net : Net) (s : SignSolicit) (t : Z) (ms : list key) (sigs : list MemberSignature) (n : SeqNode) (w : World) :
  list MemberSignature * SeqNode * World :=
  match ms with
  | [] => (sigs, n, w)
  | m :: ms' =>
      if t <=? Z.of_nat (length sigs) then (sigs, n, w)
      else
        let '(r, n, w) :=
          if bool_decide (m = me n) then let '(r, n) := sign_write_locally net (so_owner s) (so_program s) (so_write s) n w in (r, n, w)
          else let '(r, w) := solicit_member net m s w in (r, n, w) in
        gather net s t ms'
          match r with
          | Some x => if bool_decide (member x ∈ map member sigs) then sigs else sigs ++ [x]
          | None => sigs
          end n w
  end.

Definition collect (net : Net) (owner program_cid : key) (wr : SequencedWrite) (q : Quorum) (now : Z) (n : SeqNode) (w : World) : bool * SeqNode * World :=
  let '(sigs, n, w) := gather net (mk_solicit owner program_cid wr) (threshold q) (members q) [] n w in
  if Z.of_nat (length sigs) <? threshold q then (false, n, w)
  else submit net owner program_cid (mk_commit wr sigs) now n w.

Definition sequence (net : Net) (owner program_cid : key) (wr : SequencedWrite) (now : Z) (n : SeqNode) (w : World) : bool * SeqNode * World :=
  match quorum_for net owner program_cid w with
  | None => (false, n, w)
  | Some q =>
      if negb (is_intersection_sized q) || negb (owner_authentic wr) then (false, n, w)
      else collect net owner program_cid wr q now n w
  end.

(** One solicitation of [serve]: the reply, [None] where the stream is
    dropped. *)
Definition serve (net : Net) (req : bytes) (n : SeqNode) (w : World) : option bytes * SeqNode :=
  if (MAX_SOLICIT_FRAME <? length req)%nat then (None, n)
  else
    match from_bytes req with
    | None => (Some [0], n)
    | Some s =>
        match sign_write_locally net (so_owner s) (so_program s) (so_write s) n w with
        | (Some sig, n) => (Some (1 :: to_allocvec sig), n)
        | (None, n) => (Some [0], n)
        end
    end.
End node.
