(* ===== verification/SequenceKeeps.v ===== *)
(** What the node's sequence store keeps: its files across a restart, its
    signed set across any run, and the commits a quorum that answers gives. *)

From S2P Require Import Prelude Crypto Attestation Sequencer SequenceNode.

Open Scope Z_scope.

(** ** File names *)

Definition is_byte (x : Z) : Prop := 0 <= x < 256.
Definition key32 (k : key) : Prop := length k = 32%nat /\ Forall is_byte k.

(** A character of a hex string. *)
Definition hex_char (c : Z) : Prop := 48 <= c <= 57 \/ 97 <= c <= 102.

Lemma hex_digit_char d : 0 <= d < 16 -> hex_char (hex_digit d).
Proof. intros Hd. unfold hex_char, hex_digit. destruct (Z.ltb_spec d 10); lia. Qed.

Lemma hex_value_digit d : 0 <= d < 16 -> hex_value (hex_digit d) = Some d.
Proof.
  intros Hd. unfold hex_value, hex_digit. destruct (Z.ltb_spec d 10).
  - rewrite (proj2 (Z.leb_le 48 _)), (proj2 (Z.leb_le _ 57)) by lia. cbn [andb]. f_equal. lia.
  - rewrite (proj2 (Z.leb_gt (87 + d) 57)), andb_false_r by lia. rewrite (proj2 (Z.leb_le 97 _)), (proj2 (Z.leb_le _ 102)) by lia. cbn [andb]. f_equal. lia.
Qed.

Lemma byte_digits x : is_byte x -> 0 <= x / 16 < 16 /\ 0 <= x mod 16 < 16.
Proof. intros Hx. unfold is_byte in Hx. split; [split; [apply Z.div_pos; lia|apply Z.div_lt_upper_bound; lia]|apply Z.mod_pos_bound; lia]. Qed.

Lemma hex_encode_chars b : Forall is_byte b -> Forall hex_char (hex_encode b).
Proof.
  induction 1 as [|x b Hx _ IH]; cbn; [constructor|]. destruct (byte_digits x Hx).
  constructor; [by apply hex_digit_char|]. constructor; [by apply hex_digit_char|exact IH].
Qed.

Lemma hex_round_trip b : Forall is_byte b -> hex_decode (hex_encode b) = Some b.
Proof.
  induction 1 as [|x b Hx _ IH]; [done|]. destruct (byte_digits x Hx). cbn [hex_encode flat_map app hex_decode].
  rewrite !hex_value_digit by done. cbn [mbind option_bind]. unfold hex_encode in IH. rewrite IH. cbn [mbind option_bind].
  do 2 f_equal. rewrite (Z.div_mod x 16) at 3 by lia. lia.
Qed.

Lemma parse32_hex k : key32 k -> parse32 (hex_encode k) = Some k.
Proof. intros [Hl Hb]. unfold parse32. rewrite hex_round_trip by done. cbn. by rewrite Hl. Qed.

Lemma split_at_none c s : Forall (fun x => x <> c) s -> split_at c s = [s].
Proof. induction 1 as [|x s Hx _ IH]; [done|]. cbn. rewrite IH. by destruct (Z.eqb_spec x c). Qed.

Lemma split_at_app c s t : Forall (fun x => x <> c) s -> split_at c (s ++ c :: t) = s :: split_at c t.
Proof. induction 1 as [|x s Hx _ IH]; cbn; [by rewrite Z.eqb_refl|]. rewrite IH. by destruct (Z.eqb_spec x c). Qed.

Lemma hex_no_char b c : Forall is_byte b -> ~ hex_char c -> Forall (fun x => x <> c) (hex_encode b).
Proof. intros Hb Hc. eapply list.Forall_impl; [by apply hex_encode_chars|]. intros x Hx ->. done. Qed.

Lemma parse_seq_stem k : key32 k.1.1 -> key32 k.1.2 -> key32 k.2 -> parse_key (seq_stem k) = Some k.
Proof.
  intros H1 H2 H3. assert (Hc : ~ hex_char 95) by (unfold hex_char; lia). unfold parse_key, seq_stem. cbn [app].
  rewrite !split_at_app, split_at_none by (apply hex_no_char; [apply H1 || apply H2 || apply H3|done]).
  rewrite !parse32_hex by done. by destruct k as [[??]?].
Qed.

Lemma split_ext_none s : Forall (fun x => x <> 46) s -> split_ext s = None.
Proof. induction 1 as [|x s Hx _ IH]; [done|]. cbn. rewrite IH. by destruct (Z.eqb_spec x 46). Qed.

Lemma split_ext_app s t : Forall (fun x => x <> 46) t -> split_ext (s ++ 46 :: t) = Some (s, t).
Proof. intros Ht. induction s as [|x s IH]; cbn; [by rewrite split_ext_none|]. by rewrite IH. Qed.

Lemma split_seq_path k : split_ext (seq_path k) = Some (seq_stem k, SEQ_EXT).
Proof. unfold seq_path. apply split_ext_app. cbn. repeat constructor; lia. Qed.

Lemma seq_path_not_signed k : seq_path k <> SIGNED_SET.
Proof. intros E. pose proof (split_seq_path k) as Hs. rewrite E in Hs. vm_compute in Hs. congruence. Qed.

Lemma seq_path_inj k k' : key32 k.1.1 -> key32 k.1.2 -> key32 k.2 -> key32 k'.1.1 -> key32 k'.1.2 -> key32 k'.2 -> seq_path k = seq_path k' -> k = k'.
Proof.
  intros H1 H2 H3 H4 H5 H6 E%(f_equal split_ext). rewrite !split_seq_path in E. injection E as E.
  apply (f_equal parse_key) in E. rewrite !parse_seq_stem in E by done. congruence.
Qed.

Lemma seq_stem_nonempty k : seq_stem k <> [].
Proof. unfold seq_stem. by destruct (hex_encode k.1.1). Qed.

Section keeps.
Context {World Addr : Type}.
Context {E : Ed25519} {B3 : Blake3} {PW : Postcard SequencedWrite} {PWL : PostcardLaws SequencedWrite}.
Context {PA : Postcard AccountSequence} {PAL : PostcardLaws AccountSequence}.
Context {PS : Postcard (gmap SignedKey key)} {PSL : PostcardLaws (gmap SignedKey key)}.
Context {PQ : Postcard SignSolicit} {PM : Postcard MemberSignature}.

Implicit Types (n : SeqNode) (k : SeqKey) (net : Net (World := World) (Addr := Addr)) (w : World) (q : Quorum).

(** ** Restart *)

Definition wide k : Prop := key32 k.1.1 /\ key32 k.1.2 /\ key32 k.2.

(** The files are the store's. *)
Record disk_ok n : Prop := {
  dk_seq : forall k s, sequences (sn_store n) !! k = Some s -> sn_dir n !! seq_path k = Some (to_allocvec s) /\ wide k /\ seq_account s = k.2;
  dk_files : forall name b, sn_dir n !! name = Some b -> name = SIGNED_SET \/ exists k s, sequences (sn_store n) !! k = Some s /\ name = seq_path k;
  dk_signed : default ∅ (sn_dir n !! SIGNED_SET ≫= from_bytes) = store_signed (sn_store n)
}.

Lemma load_seq_path k s : wide k -> seq_account s = k.2 -> load_entry (seq_path k, to_allocvec s) = Some (k, s).
Proof.
  intros (H1 & H2 & H3) Ha. unfold load_entry. cbn [fst snd]. rewrite split_seq_path. cbn.
  rewrite bool_decide_true, bool_decide_false by (done || apply seq_stem_nonempty). cbn. rewrite parse_seq_stem by done. cbn.
  rewrite postcard_roundtrip. cbn. by rewrite bool_decide_true.
Qed.

Lemma load_signed b : load_entry (SIGNED_SET, b) = None.
Proof. reflexivity. Qed.

(** What [open] reads is what was in memory. *)
Lemma open_store n : disk_ok n -> sn_store (open (store_id (sn_store n)) (sn_dir n)) = sn_store n.
Proof.
  intros Hd. unfold open. cbn [sn_store]. rewrite (dk_signed _ Hd). destruct (sn_store n) as [id seqs signed] eqn:Est. cbn [store_id store_signed]. f_equal.
  assert (Hentry : forall k s, (k, s) ∈ omap load_entry (map_to_list (sn_dir n)) <-> seqs !! k = Some s).
  { intros k s. rewrite list_elem_of_omap. split.
    - intros ([name b] & Hin%elem_of_map_to_list & Hl). pose proof (dk_files _ Hd name b Hin) as Hf. rewrite Est in Hf.
      destruct Hf as [->|(k' & s' & Hk' & ->)]; [by rewrite load_signed in Hl|]. pose proof (dk_seq _ Hd k' s') as Hq. rewrite Est in Hq.
      destruct (Hq Hk') as (Hf & Hw & Ha). rewrite Hin in Hf. injection Hf as ->. rewrite load_seq_path in Hl by done. by injection Hl as <- <-.
    - intros Hk. pose proof (dk_seq _ Hd k s) as Hq. rewrite Est in Hq. destruct (Hq Hk) as (Hf & Hw & Ha).
      exists (seq_path k, to_allocvec s). split; [by apply elem_of_map_to_list|by apply load_seq_path]. }
  apply map_eq. intros k. destruct (seqs !! k) as [s|] eqn:Ek.
  - apply elem_of_list_to_map_1'.
    + intros s' Hs'. rewrite elem_of_reverse in Hs'. apply Hentry in Hs'. congruence.
    + rewrite elem_of_reverse. by apply Hentry.
  - apply not_elem_of_list_to_map_1. intros ([k' s] & -> & Hin)%list_elem_of_fmap. rewrite elem_of_reverse in Hin. apply Hentry in Hin. cbn in Ek. congruence.
Qed.

(** Every write of a file leaves its content there. *)
Definition writes_land net : Prop := forall name b old w, fs_write net name b old w = Some b.

Lemma write_file_lands net name b n w : writes_land net -> sn_dir (write_file net name b n w) = <[name := b]> (sn_dir n).
Proof. intros Hl. unfold write_file. cbn. apply map_eq. intros x. destruct (decide (x = name)) as [->|Hx]; [by rewrite lookup_partial_alter_eq, lookup_insert_eq, Hl|by rewrite lookup_partial_alter_ne, lookup_insert_ne]. Qed.

Lemma write_file_other net name b n w x : x <> name -> sn_dir (write_file net name b n w) !! x = sn_dir n !! x.
Proof. intros Hx. unfold write_file. cbn. by rewrite lookup_partial_alter_ne. Qed.

Lemma persist_ok net n k s st w :
  writes_land net -> disk_ok n -> wide k -> seq_account s = k.2 -> sequences st = <[k := s]> (sequences (sn_store n)) -> store_signed st = store_signed (sn_store n) ->
  disk_ok (persist net k s (with_store n st) w).
Proof.
  intros Hl Hd Hw Ha Es Eg. unfold persist. constructor; rewrite (write_file_lands _ _ _ _ _ Hl); cbn.
  - intros k' s'. rewrite Es. destruct (decide (k = k')) as [<-|Hne].
    + rewrite lookup_insert_eq. intros [= <-]. by rewrite lookup_insert_eq.
    + rewrite lookup_insert_ne by done. intros Hk'. destruct (dk_seq _ Hd k' s' Hk') as (Hf & Hw' & Ha'). split; [|done].
      rewrite lookup_insert_ne; [done|]. intros Ep. apply Hne. destruct Hw as (?&?&?), Hw' as (?&?&?). by apply seq_path_inj.
  - intros name b. rewrite Es, lookup_insert_Some. intros [[<- <-]|[Hne Hin]].
    + right. exists k, s. by rewrite lookup_insert_eq.
    + destruct (dk_files _ Hd name b Hin) as [->|(k' & s' & Hk' & ->)]; [by left|]. right.
      destruct (decide (k = k')) as [<-|Hnk]; [done|]. exists k', s'. by rewrite lookup_insert_ne.
  - rewrite Eg, lookup_insert_ne by apply seq_path_not_signed. apply Hd.
Qed.

Lemma persist_signed_ok net n st w :
  writes_land net -> disk_ok n -> sequences st = sequences (sn_store n) -> disk_ok (persist_signed net (store_signed st) (with_store n st) w).
Proof.
  intros Hl Hd Es. unfold persist_signed. constructor; rewrite (write_file_lands _ _ _ _ _ Hl); cbn.
  - intros k s. rewrite Es. intros Hk. destruct (dk_seq _ Hd k s Hk) as (Hf & ?). split; [|done]. rewrite lookup_insert_ne; [done|]. intros Ee. by apply (seq_path_not_signed k).
  - intros name b. rewrite Es, lookup_insert_Some. intros [[<- <-]|[Hne Hin]]; [by left|]. by apply (dk_files _ Hd name b).
  - rewrite lookup_insert_eq. cbn. by rewrite postcard_roundtrip.
Qed.

(** ** What every operation keeps *)

(** The signed set a restart would read. *)
Definition saved n : gmap SignedKey key := default ∅ (sn_dir n !! SIGNED_SET ≫= from_bytes).

(** The logs are their accounts'. *)
Definition mem_ok n : Prop := forall k s, sequences (sn_store n) !! k = Some s -> seq_account s = k.2.

Lemma disk_mem_ok n : disk_ok n -> mem_ok n.
Proof. intros Hd k s Hs. by apply (dk_seq _ Hd k s). Qed.

Record kept net n n' : Prop := {
  kp_disk : writes_land net -> disk_ok n -> disk_ok n';
  kp_mem : mem_ok n -> mem_ok n';
  kp_id : store_id (sn_store n') = store_id (sn_store n);
  kp_signed : forall x h, store_signed (sn_store n) !! x = Some h -> store_signed (sn_store n') !! x = Some h;
  kp_grows : grows (sn_store n) (sn_store n')
}.

#[local] Instance kept_preorder net : PreOrder (kept net).
Proof.
  split; [intros n; constructor; auto using grows_refl|]. intros a b c [D1 M1 I1 S1 G1] [D2 M2 I2 S2 G2]. constructor; [auto|auto|congruence|auto|].
  intros k s Hs. destruct (G1 k s Hs) as (s1 & Hs1 & Hp1). destruct (G2 k s1 Hs1) as (s2 & Hs2 & Hp2). exists s2. split; [done|]. by etrans.
Qed.

Lemma kept_same net n n' : sn_store n' = sn_store n -> sn_dir n' = sn_dir n -> kept net n n'.
Proof.
  intros Es Ed. constructor; unfold mem_ok; rewrite ?Es; auto using grows_refl. intros _ [H1 H2 H3]. by constructor; rewrite ?Es, ?Ed.
Qed.

Lemma adopt_kept net n k f q w : wide k -> kept net n (adopt net n k f q w).2.
Proof.
  intros Hw. unfold adopt. destruct (Sequencer.adopt (sn_store n) k f q) as [ok st] eqn:Ea. cbn [fst snd].
  destruct (ok && (local_len n k <? next_nonce f)) eqn:Eb; [|done]. apply andb_true_iff in Eb as [-> Hl].
  assert (Hc : seq_account f = k.2 /\ st = mk_store (store_id (sn_store n)) (<[k := f]> (sequences (sn_store n))) (store_signed (sn_store n)) /\
    forall c, sequences (sn_store n) !! k = Some c -> commits c `prefix_of` commits f).
  { unfold Sequencer.adopt in Ea. unfold local_len in Hl. case_bool_decide as Hacc; [|done]. cbn in Ea. destruct (seq_verify f q); [|done]. cbn in Ea.
    destruct (sequences (sn_store n) !! k) as [cur|] eqn:Ek.
    - destruct (extends cur f) eqn:Ex; [|done]. cbn in Ea. rewrite Hl in Ea. injection Ea as <-. split; [done|]. split; [done|].
      intros c [= <-]. by apply extends_prefix.
    - rewrite Hl in Ea. injection Ea as <-. split; [done|]. split; [done|]. done. }
  destruct Hc as (Hacc & -> & Hpre). constructor; cbn; auto.
  - intros Hl' Hd. by apply persist_ok.
  - intros Hm k' s'. cbn. rewrite lookup_insert_Some. intros [[<- <-]|[_ Hs']]; [done|by apply Hm].
  - by apply grows_insert.
Qed.

Lemma pull_kept net k q targets n w : wide k -> kept net n (pull net k q targets n w).1.
Proof.
  intros Hw. revert n w. induction targets as [|peer targets IH]; intros n w; cbn [pull]; [done|].
  destruct (fetch_if_newer net k peer (local_len n k) w) as [[f| |] w']; [|done..]. etrans; [by apply adopt_kept|apply IH].
Qed.

Lemma ask_writer_kept net k q n w : wide k -> kept net n (ask_writer net k q n w).1.2.
Proof.
  intros Hw. unfold ask_writer. destruct (_ && _); [done|]. destruct (fetch_if_newer net k k.2 _ w) as [[f| |] w']; [|done..].
  pose proof (adopt_kept net n k f q w' Hw) as Ha. by destruct (adopt net n k f q w').
Qed.

Lemma sync_kept net k now n w : wide k -> kept net n (sync net k now n w).1.
Proof.
  intros Hw. unfold sync. destruct (quorum_for net _ _ w) as [q|]; [|done]. destruct (negb _); [done|].
  assert (Hdue : kept net n (full_round_due n k now).2) by (unfold full_round_due; destruct (recent _ _ _ _); [done|by apply kept_same]).
  destruct (full_round_due n k now) as [due n1]. cbn in Hdue.
  assert (Hask : kept net n1 (if due then (false, n1, w) else ask_writer net k q n1 w).1.2) by (destruct due; [done|by apply ask_writer_kept]).
  destruct (if due then _ else _) as [[settled n2] w2]. cbn in Hask. destruct (settled || _); [by etrans|].
  etrans; [exact Hdue|]. etrans; [exact Hask|by apply pull_kept].
Qed.

Lemma sign_kept net o p wr n w : kept net n (sign_write_locally net o p wr n w).2.
Proof.
  unfold sign_write_locally, sign_in_memory. destruct (Sequencer.sign_write_locally _ _ o p wr) as [[sig|] st] eqn:Es; [|done]. cbn [snd].
  pose proof (sign_locally_keeps (sn_store n) (quorum_for net o p w) o p wr) as Hk. rewrite Es in Hk. cbn in Hk.
  assert (Hst : sequences st = sequences (sn_store n) /\ store_id st = store_id (sn_store n)).
  { unfold Sequencer.sign_write_locally in Es. destruct (quorum_for net o p w); [|done]. destruct (_ || _); [done|].
    destruct (store_signed (sn_store n) !! _); [case_bool_decide; [|done]|]; by injection Es as _ <-. }
  destruct Hst as [Hs Hi]. constructor; cbn; [| |done| |].
  - intros Hl Hd. by apply persist_signed_ok.
  - unfold mem_ok. cbn. by rewrite Hs.
  - intros x h Hx. by apply Hk.
  - intros k s Hks. exists s. rewrite Hs. done.
Qed.

Lemma submit_kept net o p c now n w : wide (o, p, account (write c)) -> kept net n (submit net o p c now n w).1.2.
Proof.
  intros Hw. unfold submit. destruct (quorum_for net o p w) as [q|]; [|done]. set (k := (o, p, account (write c))) in *.
  pose proof (sync_kept net k now n w Hw) as Hs. destruct (sync net k now n w) as [n1 w1]. cbn in Hs.
  destruct (Sequencer.submit (sn_store n1) (Some q) o p c) as [[] st] eqn:Ec; [|done]. cbn [fst snd]. etrans; [exact Hs|].
  unfold Sequencer.submit in Ec. fold k in Ec. unfold seq_append in Ec. set (s := default (seq_new (account (write c))) (sequences (sn_store n1) !! k)) in *.
  destruct (_ && _ && _); [|done]. cbn in Ec. injection Ec as <-. cbn [sequences]. rewrite lookup_insert_eq. cbn [default].
  assert (Hacc : mem_ok n1 -> seq_account s = k.2).
  { intros Hm. unfold s. destruct (sequences (sn_store n1) !! k) as [cur|] eqn:Ek; [|done]. by apply (Hm k cur). }
  constructor; cbn [sn_store with_store persist write_file with_dir store_id store_signed]; [| |done|done|].
  - intros Hl Hd. apply persist_ok; [done|done|done|by apply Hacc, disk_mem_ok|done|done].
  - intros Hm k' s'. cbn. rewrite lookup_insert_Some. intros [[<- <-]|[_ Hs']]; [by apply Hacc|by apply Hm].
  - apply grows_insert. intros s0 Hs0. unfold s. rewrite Hs0. cbn. by apply prefix_app_r.
Qed.

Lemma gather_kept net s t ms sigs n w : kept net n (gather net s t ms sigs n w).1.2.
Proof.
  revert sigs n w. induction ms as [|m ms IH]; intros sigs n w; cbn [gather]; [done|]. destruct (_ <=? _); [done|].
  case_bool_decide.
  - pose proof (sign_kept net (so_owner s) (so_program s) (so_write s) n w) as Hs. destruct (sign_write_locally _ _ _ _ _ _) as [r n1]. etrans; [exact Hs|apply IH].
  - destruct (solicit_member net m s w) as [r w1]. apply IH.
Qed.

Lemma sequence_kept net o p wr now n w : wide (o, p, account wr) -> kept net n (sequence net o p wr now n w).1.2.
Proof.
  intros Hw. unfold sequence. destruct (quorum_for net o p w) as [q|]; [|done]. destruct (_ || _); [done|]. unfold collect.
  pose proof (gather_kept net (mk_solicit o p wr) (threshold q) (members q) [] n w) as Hg. destruct (gather _ _ _ _ _ _ _) as [[sigs n1] w1]. cbn in Hg.
  destruct (_ <? _); [done|]. etrans; [exact Hg|]. by apply submit_kept.
Qed.

Lemma serve_kept net req n w : kept net n (serve net req n w).2.
Proof.
  unfold serve. destruct (_ <? _)%nat; [done|]. destruct (from_bytes req) as [s|]; [|done].
  pose proof (sign_kept net (so_owner s) (so_program s) (so_write s) n w) as Hs. by destruct (sign_write_locally _ _ _ _ _ _) as [[sig|] n1].
Qed.

(** ** Runs *)

(** A request that has been signed in memory and not yet answered: its set is
    still to be written. *)
Record Task := mk_task { tk_owner : key; tk_program : key; tk_write : SequencedWrite; tk_sig : MemberSignature; tk_snapshot : gmap SignedKey key }.

Record System := mk_system { sy_node : SeqNode; sy_tasks : list Task }.

Definition task_slot (t : Task) : SignedKey := (tk_owner t, tk_program t, account (tk_write t), nonce (tk_write t)).
Definition task_hash (t : Task) : key := Cid_of (signing_bytes (tk_write t)).

(** What can be seen of a step: an answer, with the place of its task among
    those waiting and whether its file was written; a restart; or nothing. *)
Inductive Event := Answered (t : Task) (place : nat) (landed : bool) | Restarted | Silent.

(** Anything the node does, with any answers from outside.  A request is signed
    under the lock on the signed set; its set is written, and it is answered,
    later. *)
Inductive node_step : System -> Event -> System -> Prop :=
  | ns_join n ts : node_step (mk_system n ts) Silent (mk_system (set_membership n) ts)
  | ns_sync net k now n w ts : wide k -> node_step (mk_system n ts) Silent (mk_system (sync net k now n w).1 ts)
  | ns_read net o p a now n w ts : wide (o, p, a) -> node_step (mk_system n ts) Silent (mk_system (sequence_of net o p a now n w).1.2 ts)
  | ns_submit net o p c now n w ts : wide (o, p, account (write c)) -> node_step (mk_system n ts) Silent (mk_system (submit net o p c now n w).1.2 ts)
  | ns_sign net o p wr sig snap n n' w ts :
      sign_in_memory net o p wr n w = (Some (sig, snap), n') -> node_step (mk_system n ts) Silent (mk_system n' (ts ++ [mk_task o p wr sig snap]))
  | ns_answer net i t n w ts :
      ts !! i = Some t ->
      node_step (mk_system n ts)
        (Answered t i (bool_decide (fs_write net SIGNED_SET (to_allocvec (tk_snapshot t)) (sn_dir n !! SIGNED_SET) w = Some (to_allocvec (tk_snapshot t)))))
        (mk_system (persist_signed net (tk_snapshot t) n w) (delete i ts))
  | ns_restart n ts : node_step (mk_system n ts) Restarted (mk_system (open (store_id (sn_store n)) (sn_dir n)) []).

Inductive node_run : System -> list Event -> System -> Prop :=
  | nr_refl s : node_run s [] s
  | nr_snoc s tr s1 e s2 : node_run s tr s1 -> node_step s1 e s2 -> node_run s (tr ++ [e]) s2.

(** ** Whole calls are runs *)

Lemma node_run_app s tr s1 tr' s2 : node_run s tr s1 -> node_run s1 tr' s2 -> node_run s (tr ++ tr') s2.
Proof. intros H1 H2. revert H1. induction H2 as [|s1 tr' s2 e s3 _ IH Hs]; intros H1; [by rewrite app_nil_r|]. rewrite (assoc_L (++)). econstructor; [by apply IH|done]. Qed.

Lemma node_run_one s e s' : node_step s e s' -> node_run s [e] s'.
Proof. intros Hs. apply (nr_snoc s [] s e s'); [constructor|done]. Qed.

Lemma sign_is_run net o p wr n w ts : exists tr, node_run (mk_system n ts) tr (mk_system (sign_write_locally net o p wr n w).2 ts).
Proof.
  unfold sign_write_locally. destruct (sign_in_memory net o p wr n w) as [[[sig snap]|] n'] eqn:Es.
  - eexists. eapply node_run_app; [apply node_run_one; by eapply ns_sign|]. apply node_run_one.
    pose proof (ns_answer net (length ts) (mk_task o p wr sig snap) n' w (ts ++ [mk_task o p wr sig snap])) as Ha.
    rewrite delete_middle, app_nil_r in Ha. apply Ha. by apply list_lookup_middle.
  - assert (n' = n) as ->; [|by exists []; constructor]. unfold sign_in_memory in Es. destruct (Sequencer.sign_write_locally _ _ o p wr) as [[?|] ?]; [done|by injection Es as <-].
Qed.

Lemma gather_is_run net s t ms sigs n w ts : exists tr, node_run (mk_system n ts) tr (mk_system (gather net s t ms sigs n w).1.2 ts).
Proof.
  revert sigs n w. induction ms as [|m ms IH]; intros sigs n w; cbn [gather]; [exists []; constructor|]. destruct (_ <=? _); [exists []; constructor|].
  case_bool_decide.
  - destruct (sign_is_run net (so_owner s) (so_program s) (so_write s) n w ts) as [tr1 H1]. destruct (sign_write_locally _ _ _ _ _ _) as [r n1]. cbn in H1.
    edestruct IH as [tr2 H2]. exists (tr1 ++ tr2). eapply node_run_app; [exact H1|exact H2].
  - destruct (solicit_member net m s w) as [r w1]. apply IH.
Qed.

(** Collecting a write and answering a solicitation, uninterrupted, are runs. *)
Lemma sequence_is_run net o p wr now n w ts :
  wide (o, p, account wr) -> exists tr, node_run (mk_system n ts) tr (mk_system (sequence net o p wr now n w).1.2 ts).
Proof.
  intros Hw. unfold sequence. destruct (quorum_for net o p w) as [q|]; [|exists []; constructor]. destruct (_ || _); [exists []; constructor|]. unfold collect.
  destruct (gather_is_run net (mk_solicit o p wr) (threshold q) (members q) [] n w ts) as [tr Hg]. destruct (gather _ _ _ _ _ _ _) as [[sigs n1] w1]. cbn in Hg.
  destruct (_ <? _); [by exists tr|]. eexists. eapply node_run_app; [exact Hg|]. apply node_run_one. by apply ns_submit.
Qed.

Lemma serve_is_run net req n w ts : exists tr, node_run (mk_system n ts) tr (mk_system (serve net req n w).2 ts).
Proof.
  unfold serve. destruct (_ <? _)%nat; [exists []; constructor|]. destruct (from_bytes req) as [s|]; [|exists []; constructor].
  pose proof (sign_is_run net (so_owner s) (so_program s) (so_write s) n w ts) as Hs. by destruct (sign_write_locally _ _ _ _ _ _) as [[sig|] n1].
Qed.

(** ** The signed set *)

Lemma sequence_of_kept net o p a now n w : wide (o, p, a) -> kept net n (sequence_of net o p a now n w).1.2.
Proof.
  intros Hw. unfold sequence_of, sync_debounced. destruct (recent _ _ _ _); [done|].
  match goal with |- context [sync net ?k now ?n1 w] => pose proof (sync_kept net k now n1 w Hw) as Hs; destruct (sync net k now n1 w) end.
  etrans; [|exact Hs]. by apply kept_same.
Qed.

Lemma sign_in_memory_spec net o p wr sig snap n n' w :
  sign_in_memory net o p wr n w = (Some (sig, snap), n') ->
  let x := (o, p, account wr, nonce wr) in let h := Cid_of (signing_bytes wr) in
  store_signed (sn_store n') = <[x := h]> (store_signed (sn_store n)) /\ snap = store_signed (sn_store n') /\ sn_dir n' = sn_dir n /\
  forall h', store_signed (sn_store n) !! x = Some h' -> h' = h.
Proof.
  unfold sign_in_memory. destruct (Sequencer.sign_write_locally _ _ o p wr) as [[sig'|] st] eqn:Es; [|done]. intros [= <- <- <-]. cbn.
  unfold Sequencer.sign_write_locally in Es. destruct (quorum_for _ _ _ _); [|done]. destruct (_ || _); [done|].
  destruct (store_signed (sn_store n) !! _) as [prev|] eqn:Ep; [case_bool_decide as Hh; [|done]|]; injection Es as _ <-; cbn; naive_solver.
Qed.

(** Logs come and go without touching the signed set or its file. *)
Definition aside n n' : Prop :=
  store_signed (sn_store n') = store_signed (sn_store n) /\ sn_dir n' !! SIGNED_SET = sn_dir n !! SIGNED_SET.

#[local] Instance aside_preorder : PreOrder aside.
Proof. split; [by intros n|]. intros a b c [S1 F1] [S2 F2]. split; congruence. Qed.

Lemma persist_aside net k s n w : aside n (persist net k s n w).
Proof. split; [done|]. apply write_file_other. intros Ee. by apply (seq_path_not_signed k). Qed.

Lemma adopt_aside net n k f q w : aside n (adopt net n k f q w).2.
Proof.
  unfold adopt. destruct (Sequencer.adopt (sn_store n) k f q) as [ok st] eqn:Ea. cbn [snd]. destruct (_ && _); [|done].
  etrans; [|apply persist_aside]. split; [|done]. cbn. unfold Sequencer.adopt in Ea. destruct (_ || _); [by injection Ea as _ <-|].
  destruct (sequences (sn_store n) !! k) as [c|]; [destruct (negb (extends c f)); [by injection Ea as _ <-|]|]; destruct (_ <? _); by injection Ea as _ <-.
Qed.

Lemma pull_aside net k q targets n w : aside n (pull net k q targets n w).1.
Proof.
  revert n w. induction targets as [|peer targets IH]; intros n w; cbn [pull]; [done|].
  destruct (fetch_if_newer net k peer _ w) as [[f| |] w']; [|done..]. etrans; [apply adopt_aside|apply IH].
Qed.

Lemma sync_aside net k now n w : aside n (sync net k now n w).1.
Proof.
  unfold sync. destruct (quorum_for net _ _ w) as [q|]; [|done]. destruct (negb _); [done|].
  assert (Hdue : aside n (full_round_due n k now).2) by (unfold full_round_due; by destruct (recent _ _ _ _)).
  destruct (full_round_due n k now) as [due n1]. cbn in Hdue.
  assert (Hask : aside n1 (if due then (false, n1, w) else ask_writer net k q n1 w).1.2).
  { destruct due; [done|]. unfold ask_writer. destruct (_ && _); [done|]. destruct (fetch_if_newer net k k.2 _ w) as [[f| |] w']; [|done..].
    pose proof (adopt_aside net n1 k f q w') as Ha. by destruct (adopt net n1 k f q w'). }
  destruct (if due then _ else _) as [[settled n2] w2]. cbn in Hask. destruct (settled || _); [by etrans|].
  etrans; [exact Hdue|]. etrans; [exact Hask|apply pull_aside].
Qed.

Lemma read_aside net o p a now n w : aside n (sequence_of net o p a now n w).1.2.
Proof.
  unfold sequence_of, sync_debounced. destruct (recent _ _ _ _); [done|].
  match goal with |- context [sync net ?k now ?n1 w] => pose proof (sync_aside net k now n1 w) as Hs; destruct (sync net k now n1 w) end. exact Hs.
Qed.

Lemma submit_aside net o p c now n w : aside n (submit net o p c now n w).1.2.
Proof.
  unfold submit. destruct (quorum_for net o p w) as [q|]; [|done]. set (k := (o, p, account (write c))).
  pose proof (sync_aside net k now n w) as Hs. destruct (sync net k now n w) as [n1 w1]. cbn in Hs.
  destruct (Sequencer.submit (sn_store n1) (Some q) o p c) as [[] st] eqn:Ec; [|done]. cbn [fst snd]. etrans; [exact Hs|]. etrans; [|apply persist_aside].
  split; [|done]. cbn. unfold Sequencer.submit in Ec. destruct (seq_append _ c q) as [[] ?]; [injection Ec as <-|discriminate Ec]; done.
Qed.

(** The writes are made in the order of the signatures, and none fails. *)
Definition orderly (tr : list Event) : Prop := forall t i landed, Answered t i landed ∈ tr -> i = 0%nat /\ landed = true.

Definition in_set (t : Task) (m : gmap SignedKey key) : Prop := m !! task_slot t = Some (task_hash t).

(** Each waiting set holds its own request and what the sets before it hold. *)
Fixpoint waiting (low : gmap SignedKey key) (ts : list Task) (high : gmap SignedKey key) : Prop :=
  match ts with
  | [] => low ⊆ high
  | t :: ts' => low ⊆ tk_snapshot t /\ in_set t (tk_snapshot t) /\ waiting (tk_snapshot t) ts' high
  end.

Lemma waiting_le low ts high : waiting low ts high -> low ⊆ high.
Proof. revert low. induction ts as [|t ts IH]; intros low; cbn; [done|]. intros (Hl & _ & Hw). etrans; [exact Hl|by apply IH]. Qed.

Lemma waiting_snoc low ts high t high' :
  waiting low ts high -> high ⊆ high' -> tk_snapshot t = high' -> in_set t high' -> waiting low (ts ++ [t]) high'.
Proof.
  revert low. induction ts as [|u ts IH]; intros low; cbn [app waiting]; [intros Hl Hh -> Ht; split; [by etrans|]; by split|].
  intros (Hl & Hu & Hw) Hh Es Ht. split; [done|]. split; [done|]. by apply IH.
Qed.

(** Between restarts: everything answered or waiting is in memory. *)
Definition in_memory_inv (tr : list Event) (s : System) : Prop :=
  (forall t i l, Answered t i l ∈ tr -> in_set t (store_signed (sn_store (sy_node s)))) /\
  (forall t, t ∈ sy_tasks s -> in_set t (store_signed (sn_store (sy_node s)))).

(** With orderly writes: everything answered is in the file, and the file is
    behind the waiting sets. *)
Definition saved_inv (tr : list Event) (s : System) : Prop :=
  (forall t i l, Answered t i l ∈ tr -> in_set t (saved (sy_node s))) /\
  waiting (saved (sy_node s)) (sy_tasks s) (store_signed (sn_store (sy_node s))).

Lemma signed_insert_le (m : gmap SignedKey key) x h : (forall h', m !! x = Some h' -> h' = h) -> m ⊆ <[x := h]> m.
Proof.
  intros Hx. apply map_subseteq_spec. intros y v Hy. rewrite lookup_insert_Some. destruct (decide (x = y)) as [<-|]; [left; split; [done|symmetry; by apply Hx]|by right].
Qed.

Lemma in_memory_step tr s e s' : in_memory_inv tr s -> e <> Restarted -> node_step s e s' -> in_memory_inv (tr ++ [e]) s'.
Proof.
  intros [Ha Ht] He Hs.
  assert (Hgen : forall n n' ts, s = mk_system n ts -> aside n n' -> in_memory_inv (tr ++ [Silent]) (mk_system n' ts)).
  { intros n n' ts -> [Hm _]. cbn in *. split; cbn; rewrite Hm; [|done]. intros t i l [Hin|[=]%list_elem_of_singleton]%elem_of_app. by eapply Ha. }
  destruct Hs as [n ts|net k now n w ts Hw|net o p a now n w ts Hw|net o p c now n w ts Hw|net o p wr sig snap n n' w ts Es|net i t n w ts Hi|n ts];
    [by eapply Hgen|eapply Hgen; [done|apply sync_aside]|eapply Hgen; [done|apply read_aside]|eapply Hgen; [done|apply submit_aside]| | |done].
  - destruct (sign_in_memory_spec _ _ _ _ _ _ _ _ _ Es) as (Em & -> & _ & Hold). pose proof (signed_insert_le _ _ _ Hold) as Hle. cbn in Ha, Ht.
    assert (Hup : forall t, in_set t (store_signed (sn_store n)) -> in_set t (store_signed (sn_store n'))) by (intros t Hin; unfold in_set; rewrite Em; by eapply lookup_weaken).
    split; cbn.
    + intros t i l [Hin|[=]%list_elem_of_singleton]%elem_of_app. eapply Hup, Ha, Hin.
    + intros t [Hin| ->%list_elem_of_singleton]%elem_of_app; [by apply Hup, Ht|]. unfold in_set. cbn. rewrite Em. apply lookup_insert_eq.
  - split; cbn.
    + intros t' i' l [Hin|[= -> -> _]%list_elem_of_singleton]%elem_of_app; [by eapply Ha|]. apply Ht. cbn. by eapply list_elem_of_lookup_2.
    + intros t' Hin. apply Ht. cbn. apply list_elem_of_lookup in Hin as [j Hj]. destruct (decide (j < i)%nat) as [Hlt|Hge].
      * rewrite list_lookup_delete_lt in Hj by done. by eapply list_elem_of_lookup_2.
      * rewrite list_lookup_delete_ge in Hj by lia. by eapply list_elem_of_lookup_2.
Qed.

Lemma saved_step tr s e s' : orderly (tr ++ [e]) -> saved_inv tr s -> node_step s e s' -> saved_inv (tr ++ [e]) s'.
Proof.
  intros Hord [Ha Hw] Hs.
  assert (Hgen : forall n n' ts, s = mk_system n ts -> aside n n' -> saved_inv (tr ++ [Silent]) (mk_system n' ts)).
  { intros n n' ts -> [Hm Hf]. unfold saved_inv. cbn [sy_node sy_tasks] in *. rewrite Hm. unfold saved in *. rewrite Hf. split; [|done]. intros t i l [Hin|[=]%list_elem_of_singleton]%elem_of_app. by eapply Ha. }
  destruct Hs as [n ts|net k now n w ts Hwd|net o p a now n w ts Hwd|net o p c now n w ts Hwd|net o p wr sig snap n n' w ts Es|net i t n w ts Hi|n ts];
    [by eapply Hgen|eapply Hgen; [done|apply sync_aside]|eapply Hgen; [done|apply read_aside]|eapply Hgen; [done|apply submit_aside]| | |].
  - destruct (sign_in_memory_spec _ _ _ _ _ _ _ _ _ Es) as (Em & -> & Ed & Hold). pose proof (signed_insert_le _ _ _ Hold) as Hle.
    unfold saved_inv, saved in *. cbn [sy_node sy_tasks] in *. rewrite Ed. split.
    + intros t i l [Hin|[=]%list_elem_of_singleton]%elem_of_app. by eapply Ha.
    + eapply waiting_snoc; [exact Hw|by rewrite Em|done|]. unfold in_set. cbn. rewrite Em. apply lookup_insert_eq.
  - destruct (Hord t i _ ltac:(apply elem_of_app; right; by left)) as [-> Hland%bool_decide_eq_true]. destruct ts as [|u ts]; [done|]. injection Hi as ->.
    cbn [sy_node sy_tasks waiting] in *. destruct Hw as (Hl & Ht & Hw). assert (Esv : saved (persist_signed net (tk_snapshot t) n w) = tk_snapshot t).
    { unfold saved, persist_signed, write_file. cbn [sn_dir with_dir]. rewrite lookup_partial_alter_eq, Hland. cbn [mbind option_bind]. by rewrite postcard_roundtrip. }
    unfold saved_inv. cbn [sy_node sy_tasks]. rewrite Esv. split; [|done]. intros t' i' l [Hin|[= -> _ _]%list_elem_of_singleton]%elem_of_app; [|done].
    eapply lookup_weaken; [by eapply Ha|done].
  - unfold saved_inv. cbn [sy_node sy_tasks waiting]. split; [|exact (reflexivity (R := (⊆)) (saved n))]. intros t i l [Hin|[=]%list_elem_of_singleton]%elem_of_app. by eapply Ha.
Qed.


(** ** Collecting *)

Section collecting.
Context (net : Net (World := World) (Addr := Addr)) (o p : key) (wr : SequencedWrite) (q : Quorum) (Hq : quorum_wf q).

(** A member's own valid signature over the write. *)
Definition own_signature (m : key) (x : MemberSignature) : Prop :=
  member x = m /\ verify_slice m (signing_bytes wr) (signature x) = true.

(** What the members answer: nothing, or their own signature. *)
Context (ans : key -> option MemberSignature).
Context (ans_own : forall m x, ans m = Some x -> own_signature m x).

Lemma gather_enough ms sigs n w :
  base.NoDup ms -> (forall m, m ∈ ms -> m ∉ map member sigs) ->
  (forall m w, m <> me n -> exists w', solicit_member net m (mk_solicit o p wr) w = (ans m, w')) ->
  (me n ∈ ms -> forall w, (sign_write_locally net o p wr n w).1 = ans (me n)) ->
  threshold q <= Z.of_nat (length sigs + length (omap ans ms)) ->
  exists sigs' n' w', gather net (mk_solicit o p wr) (threshold q) ms sigs n w = (sigs', n', w') /\
    threshold q <= Z.of_nat (length sigs') /\ exists new, sigs' = sigs ++ new /\ base.NoDup (map member new) /\
      (forall x, x ∈ new -> member x ∈ ms /\ own_signature (member x) x).
Proof.
  intros Hnd Hdis Hsol. revert sigs n w Hdis Hsol. induction ms as [|m ms IH]; intros sigs n w Hdis Hsol Hloc Ht; cbn [gather so_owner so_program so_write].
  - exists sigs, n, w. split; [done|]. cbn in Ht. split; [lia|]. exists []. rewrite app_nil_r. split; [done|]. split; [constructor|]. intros x Hx. by apply elem_of_nil in Hx.
  - apply list.NoDup_cons in Hnd as [Hm Hnd]. destruct (Z.leb_spec (threshold q) (Z.of_nat (length sigs))) as [Hle|Hgt].
    { exists sigs, n, w. split; [done|]. split; [done|]. exists []. rewrite app_nil_r. split; [done|]. split; [constructor|]. intros x Hx. by apply elem_of_nil in Hx. }
    assert (Hstep : exists n1 w1, (if bool_decide (m = me n) then let '(r, n) := sign_write_locally net o p wr n w in (r, n, w)
        else let '(r, w) := solicit_member net m (mk_solicit o p wr) w in (r, n, w)) = (ans m, n1, w1) /\ me n1 = me n /\ (m <> me n -> n1 = n)).
    { case_bool_decide as Hme.
      - subst m. pose proof (Hloc (list_elem_of_here _ _) w) as Ha. pose proof (sign_kept net o p wr n w) as Hk.
        destruct (sign_write_locally net o p wr n w) as [r n1]. cbn in *. subst r. exists n1, w. split; [done|]. split; [|done].
        unfold me. by rewrite (kp_id _ _ _ Hk).
      - destruct (Hsol m w Hme) as [w' ->]. by exists n, w'. }
    destruct Hstep as (n1 & w1 & -> & Hme1 & Hsame).
    set (sigs1 := match ans m with Some x => _ | None => _ end).
    assert (Hs1 : exists add, sigs1 = sigs ++ add /\ add = option_list (ans m) /\ forall x, x ∈ add -> member x = m /\ own_signature m x).
    { unfold sigs1. destruct (ans m) as [x|] eqn:Ea; [|exists []; rewrite app_nil_r; split; [done|]; split; [done|]; intros y Hy; by apply elem_of_nil in Hy].
      destruct (ans_own m x Ea) as [Ex Hv]. rewrite bool_decide_false by (rewrite Ex; apply Hdis; by left).
      exists [x]. split; [done|]. split; [done|]. intros y ->%list_elem_of_singleton. done. }
    destruct Hs1 as (add & Es1 & Eadd & Hadd). rewrite Es1.
    destruct (IH Hnd (sigs ++ add) n1 w1) as (sigs' & n' & w' & Eg & Hlen & new & -> & Hnn & Hnew).
    + intros m' Hm'. rewrite map_app, elem_of_app. intros [Hin|(x & -> & Hx)%list_elem_of_fmap]; [by eapply Hdis; [right|]|].
      destruct (Hadd x Hx) as [Ex _]. rewrite Ex in Hm'. done.
    + intros m' w2. rewrite Hme1. apply Hsol.
    + rewrite Hme1. intros Hin. assert (m <> me n) by (intros ->; done). rewrite Hsame by done. apply Hloc. by right.
    + rewrite length_app, Eadd. cbn [omap list_omap] in Ht. destruct (ans m); cbn in Ht |- *; lia.
    + exists ((sigs ++ add) ++ new), n', w'. split; [done|]. split; [done|]. exists (add ++ new). rewrite <- app_assoc. split; [done|]. split.
      * rewrite map_app. apply list.NoDup_app. split; [rewrite Eadd; destruct (ans m); cbn; [apply NoDup_singleton|constructor]|]. split; [|done].
        intros y (x & -> & Hx)%list_elem_of_fmap (x' & Ex' & Hx')%list_elem_of_fmap. destruct (Hadd x Hx) as [Ex _]. destruct (Hnew x' Hx') as [Hin _].
        rewrite <- Ex', Ex in Hin. done.
      * intros x [Hx|Hx]%elem_of_app.
        -- destruct (Hadd x Hx) as [Ex Ho]. rewrite Ex. split; [by left|done].
        -- destruct (Hnew x Hx) as [Hin Ho]. split; [by right|done].
Qed.

(** Enough valid signatures of distinct members authorize. *)
Lemma own_signatures_count sigs :
  base.NoDup (map member sigs) -> (forall x, x ∈ sigs -> member x ∈ members q /\ own_signature (member x) x) ->
  count_signers q (signing_bytes wr) sigs = Z.of_nat (length sigs).
Proof.
  intros Hnd Hall. unfold count_signers. rewrite <- (length_map member sigs), <- (size_list_to_set (C := gset key) (map member sigs)) by done.
  do 2 f_equal. apply set_eq. intros m. rewrite elem_of_signer_set, elem_of_list_to_set, list_elem_of_fmap. split.
  - intros (_ & x & Hx & Ex & _). by exists x.
  - intros (x & -> & Hx). destruct (Hall x Hx) as [Hm [_ Hv]]. split; [by apply is_member_spec|]. by exists x.
Qed.

(** C15: A write its quorum answers commits.  When the quorum is intersection-sized,
    the write is its account's, every member answers with its own valid
    signature or not at all and at least [threshold] of them answer, then
    [sequence] succeeds exactly when the write has the next nonce of the log the
    node has once the answers are collected and it has synced, and the log then
    has the write at that nonce. *)
Theorem answered_write_commits n w now :
  mem_ok n -> is_intersection_sized q = true -> owner_authentic wr = true -> (forall w, quorum_for net o p w = Some q) ->
  (forall m w, m <> me n -> exists w', solicit_member net m (mk_solicit o p wr) w = (ans m, w')) ->
  (me n ∈ members q -> forall w, (sign_write_locally net o p wr n w).1 = ans (me n)) ->
  threshold q <= Z.of_nat (length (omap ans (members q))) -> wide (o, p, account wr) ->
  let k := (o, p, account wr) in
  let '(_, n1, w1) := gather net (mk_solicit o p wr) (threshold q) (members q) [] n w in
  let '(ok, n', _) := sequence net o p wr now n w in
  (ok = true <-> nonce wr = local_len (sync net k now n1 w1).1 k) /\
  (ok = true -> exists s, sequences (sn_store n') !! k = Some s /\ payload_at s (nonce wr) = Some (payload wr)).
Proof.
  intros Hmem Hint Hauth Hqf Hsol Hloc Ht Hw k. unfold sequence. rewrite Hqf, Hint, Hauth. cbn [negb orb]. unfold collect.
  destruct (gather_enough (members q) [] n w) as (sigs & n1 & w1 & Eg & Hlen & new & -> & Hnd & Hnew);
    [apply ascending_NoDup, Hq|intros m _ Hm; by apply elem_of_nil in Hm|exact Hsol|exact Hloc|exact Ht|].
  pose proof (gather_kept net (mk_solicit o p wr) (threshold q) (members q) [] n w) as Hk1. rewrite Eg in Hk1 |- *. cbn [fst snd app] in Hk1, Hlen |- *.
  destruct (Z.ltb_spec (Z.of_nat (length new)) (threshold q)) as [Hlt|_]; [lia|].
  unfold submit. rewrite Hqf. cbn [write account]. fold k. pose proof (sync_kept net k now n1 w1 Hw) as Hk2.
  destruct (sync net k now n1 w1) as [n2 w2] eqn:Es. cbn [fst] in Hk2.
  assert (Hm2 : mem_ok n2) by (apply (kp_mem _ _ _ Hk2), (kp_mem _ _ _ Hk1), Hmem).
  unfold Sequencer.submit, seq_append. cbn [write account]. fold k. set (s := default (seq_new (account wr)) (sequences (sn_store n2) !! k)).
  assert (Hacc : account wr = seq_account s).
  { unfold s. destruct (sequences (sn_store n2) !! k) as [cur|] eqn:Ek; [|done]. symmetry. by apply (Hm2 k cur). }
  assert (Hll : next_nonce s = local_len n2 k) by (unfold s, local_len; by destruct (sequences (sn_store n2) !! k)).
  assert (Hca : commit_authorizes (mk_commit wr new) q = true).
  { unfold commit_authorizes. cbn [write commit_sigs]. rewrite Hauth, Hint, own_signatures_count by done. cbn. by apply Z.leb_le. }
  rewrite bool_decide_true, Hca, andb_true_r by done. cbn [andb]. rewrite Hll. destruct (Z.eqb_spec (nonce wr) (local_len n2 k)) as [En|En]; cbn [negb].
  - split; [done|]. intros _. cbn [with_store persist write_file with_dir sn_store sequences]. rewrite lookup_insert_eq. eexists. split; [done|].
    unfold payload_at. cbn [commits]. rewrite En, <- Hll. unfold next_nonce. rewrite Nat2Z.id, lookup_app_r, Nat.sub_diag by done. done.
  - split; [split; [done|intros ?; done]|done].
Qed.
End collecting.
End keeps.
