(* ===== verification/SequenceRuns.v ===== *)
(** The node's sequence store on concrete quorums: a collected write, a member
    across a restart, and two runs that go wrong. *)

From S2P Require Import Prelude Crypto Attestation Sequencer SequenceNode SequenceKeeps.

Open Scope Z_scope.

#[local] Instance SequencedWrite_countable : Countable SequencedWrite.
Proof. refine (inj_countable' (fun w => (account w, nonce w, payload w, owner_sig w)) (fun '(a, b, c, d) => mk_write a b c d) _). by intros []. Defined.
#[local] Instance MemberSignature_countable : Countable MemberSignature.
Proof. refine (inj_countable' (fun w => (member w, signature w)) (fun '(a, b) => mk_msig a b) _). by intros []. Defined.
#[local] Instance SequencedCommit_countable : Countable SequencedCommit.
Proof. refine (inj_countable' (fun w => (write w, commit_sigs w)) (fun '(a, b) => mk_commit a b) _). by intros []. Defined.
#[local] Instance AccountSequence_eq_dec : EqDecision AccountSequence.
Proof. solve_decision. Defined.
#[local] Instance AccountSequence_countable : Countable AccountSequence.
Proof. refine (inj_countable' (fun w => (seq_account w, commits w)) (fun '(a, b) => mk_seq a b) _). by intros []. Defined.
#[local] Instance SignSolicit_eq_dec : EqDecision SignSolicit.
Proof. solve_decision. Defined.
#[local] Instance SignSolicit_countable : Countable SignSolicit.
Proof. refine (inj_countable' (fun w => (so_owner w, so_program w, so_write w)) (fun '(a, b, c) => mk_solicit a b c) _). by intros []. Defined.

#[local] Existing Instances toy_ed25519 toy_blake3 toy_write_codec toy_write_codec_laws | 0.
#[local] Existing Instances countable_codec countable_codec_laws | 10.

Definition toy_o : key := key_of 100.
Definition toy_p : key := key_of 101.

(** A member of the quorum that has just started. *)
Definition fresh (id : Z) : SeqNode := open id ∅.

Lemma fresh_ok id : disk_ok (fresh id).
Proof. constructor; cbn; [intros k s|intros name b|]; by rewrite lookup_empty. Qed.

(** A network in which the members' addresses are their numbers and [reply]
    is what they answer; nothing is published. *)
Definition toy_net (reply : Z -> bytes -> option bytes) : Net (World := unit) (Addr := Z) := {|
  quorum_for := fun _ _ _ => Some ex_q;
  resolve_app := fun _ _ w => (Some None, w);
  get_following_manifest := fun _ w => (None, w);
  publish_system := fun _ w => (None, w);
  announce_app := fun _ _ _ w => w;
  census := fun _ => [];
  member_addr := fun m _ => if bool_decide (m = key_of 2) then Some 2 else if bool_decide (m = key_of 3) then Some 3 else None;
  request_tagged := fun a b w => (reply a b, w);
  fs_write := fun _ b _ _ => Some b
|}.

(** Members 2 and 3 serve; 3 is unreachable where [up] says so. *)
Definition serving (up : bool) (a : Z) (b : bytes) : option bytes :=
  if (a =? 3) && negb up then None else (serve (toy_net (fun _ _ => None)) b (fresh a) tt).1.

Definition toy_ans (m : key) : option MemberSignature :=
  if bool_decide (m = key_of 1) then Some (write_sign ex_w 1)
  else if bool_decide (m = key_of 2) then Some (write_sign ex_w 2) else None.

Lemma toy_ans_own m x : toy_ans m = Some x -> own_signature ex_w m x.
Proof.
  unfold toy_ans. repeat case_bool_decide; subst; [| |done]; intros [= <-]; (split; [reflexivity|vm_compute; reflexivity]).
Qed.

Lemma toy_wide : wide (toy_o, toy_p, account ex_w).
Proof. repeat split; try reflexivity; apply list.Forall_forall; intros x Hx; vm_compute in Hx; repeat (apply elem_of_cons in Hx as [->|Hx]; [unfold is_byte; lia|]); by apply elem_of_nil in Hx. Qed.

Definition toy_sequence : bool * SeqNode * unit := sequence (toy_net (serving false)) toy_o toy_p ex_w 0 (fresh 1) tt.

Lemma toy_sequence_ok : toy_sequence.1.1 = true.
Proof. vm_compute. reflexivity. Qed.

Lemma answered_write_commits_witness :
  exists s, sequences (sn_store toy_sequence.1.2) !! (toy_o, toy_p, account ex_w) = Some s /\ payload_at s 0 = Some (payload ex_w).
Proof.
  pose proof toy_sequence_ok as Hok. unfold toy_sequence in *.
  pose proof (answered_write_commits (toy_net (serving false)) toy_o toy_p ex_w ex_q (genesis_wf _ _) toy_ans toy_ans_own (fresh 1) tt 0 (disk_mem_ok _ (fresh_ok 1))) as Ht.
  destruct (gather _ _ _ _ _ (fresh 1) tt) as [[sigs n1] w1]. destruct (sequence (toy_net (serving false)) toy_o toy_p ex_w 0 (fresh 1) tt) as [[ok n'] w']. cbn [fst snd] in *.
  destruct Ht as [Hiff Hc].
  - vm_compute. reflexivity.
  - vm_compute. reflexivity.
  - reflexivity.
  - intros m [] Hm. exists tt. unfold solicit_member. cbn [member_addr toy_net]. unfold toy_ans.
    assert (m <> key_of 1) by exact Hm. rewrite (bool_decide_false (m = key_of 1)) by done.
    case_bool_decide as H2; [vm_compute; reflexivity|]. case_bool_decide as H3; [|done]. vm_compute. reflexivity.
  - intros _ []. vm_compute. reflexivity.
  - vm_compute. discriminate.
  - exact toy_wide.
  - exact (Hc Hok).
Defined.

(** ** A restart between two solicitations *)

Definition ask (wr : SequencedWrite) : bytes := to_allocvec (mk_solicit toy_o toy_p wr).
Definition member_net : Net (World := unit) (Addr := Z) := toy_net (fun _ _ => None).


Definition signed_reply (r : option bytes) : bool := match r with Some (1 :: _) => true | _ => false end.

(** Signed and answered, restarted, and asked again. *)
Definition signed_in (n : SeqNode) : option (MemberSignature * gmap SignedKey key) * SeqNode := sign_in_memory member_net toy_o toy_p ex_w n tt.
Definition task_of (n : SeqNode) : Task :=
  match (signed_in n).1 with Some (sig, snap) => mk_task toy_o toy_p ex_w sig snap | None => mk_task toy_o toy_p ex_w (write_sign ex_w 1) ∅ end.
Definition answered_in (n : SeqNode) : SeqNode := persist_signed member_net (tk_snapshot (task_of n)) (signed_in n).2 tt.
Definition again : SeqNode := open (store_id (sn_store (answered_in (fresh 1)))) (sn_dir (answered_in (fresh 1))).

Lemma sign_and_answer n :
  (if (signed_in n).1 then true else false) = true ->
  node_run (World := unit) (Addr := Z) (mk_system n []) [Silent; Answered (task_of n) 0 true] (mk_system (answered_in n) []).
Proof.
  intros Hs. unfold answered_in, task_of, signed_in in *. destruct (sign_in_memory member_net toy_o toy_p ex_w n tt) as [[[sig snap]|] n'] eqn:Es; [|discriminate]. cbn [fst snd] in *.
  apply (nr_snoc _ [Silent] (mk_system n' [mk_task toy_o toy_p ex_w sig snap])).
  - apply node_run_one. by apply (ns_sign member_net toy_o toy_p ex_w sig snap n n' tt []).
  - pose proof (ns_answer member_net 0 (mk_task toy_o toy_p ex_w sig snap) n' tt [mk_task toy_o toy_p ex_w sig snap] eq_refl) as Ha.
    cbn [fs_write member_net toy_net] in Ha. rewrite bool_decide_true in Ha by done. exact Ha.
Qed.

Lemma first_in : (if (signed_in (fresh 1)).1 then true else false) = true.
Proof. vm_compute. reflexivity. Qed.
Lemma second_in : (if (signed_in again).1 then true else false) = true.
Proof. vm_compute. reflexivity. Qed.

Definition two_answers (a b : Task) : list Event := [Silent; Answered a 0 true] ++ [Restarted] ++ [Silent; Answered b 0 true].

Lemma two_answers_orderly a b : orderly (two_answers a b).
Proof. intros t i l Hin. unfold two_answers in Hin. cbn [app] in Hin. rewrite !elem_of_cons, elem_of_nil in Hin. destruct Hin as [[=]|[[= _ -> ->]|[[=]|[[=]|[[= _ -> ->]|[]]]]]]; done. Qed.

Lemma two_answers_in a b : Answered a 0 true ∈ two_answers a b /\ Answered b 0 true ∈ two_answers a b /\ Restarted ∈ two_answers a b.
Proof. unfold two_answers. set_solver. Qed.

Definition toy_trace : list Event := two_answers (task_of (fresh 1)) (task_of again).

Lemma toy_run : node_run (World := unit) (Addr := Z) (mk_system (fresh 1) []) toy_trace (mk_system (answered_in again) []).
Proof.
  eapply node_run_app; [exact (sign_and_answer (fresh 1) first_in)|]. eapply node_run_app; [apply node_run_one, ns_restart|]. exact (sign_and_answer again second_in).
Qed.

(** The same write is signed again after the restart, another one is not. *)
Example signs_again_and_not_another :
  (signed_reply (serve member_net (ask ex_w) again tt).1, signed_reply (serve member_net (ask ex_w') again tt).1) = (true, false).
Proof. vm_compute. reflexivity. Qed.


(** ** Two solicitations at once *)

(** Another write of the account, at its next nonce, and one that competes
    with it. *)
Definition next_w : SequencedWrite := author 7 1 [3].
Definition next_w' : SequencedWrite := author 7 1 [4].

Definition in_memory (wr : SequencedWrite) (n : SeqNode) : gmap SignedKey key * SeqNode :=
  match sign_in_memory member_net toy_o toy_p wr n tt with (Some (_, snap), n) => (snap, n) | (None, n) => (∅, n) end.

(** Two requests are signed; each writes the set as it was when it was signed,
    the first one last. *)
Definition raced : SeqNode :=
  let '(snap1, n) := in_memory ex_w (fresh 1) in
  let '(snap2, n) := in_memory next_w n in
  persist_signed member_net snap1 (persist_signed member_net snap2 n tt) tt.

(** The file is written after the lock is released, so an older set can
    replace a newer one: after a restart the member signs a second write at a
    slot it has signed. *)
Example racing_snapshots_forget_a_signature :
  let n := open (store_id (sn_store raced)) (sn_dir raced) in
  (signed_reply (serve member_net (ask next_w') raced tt).1, signed_reply (serve member_net (ask next_w') n tt).1) = (false, true).
Proof. vm_compute. reflexivity. Qed.

(** ** A member that answers for another *)

(** Member 2 answers with a signature in member 3's name. *)
Definition lying (a : Z) (b : bytes) : option bytes :=
  if a =? 2 then Some (1 :: to_allocvec (mk_msig (key_of 3) (replicate 64 0))) else serving true a b.

(** Answers are counted towards the threshold unchecked: the forged one ends
    the collection, and the commit does not verify, although members 1 and 3
    would have signed. *)
Example one_forged_answer_blocks_the_write :
  ((sequence (toy_net lying) toy_o toy_p ex_w 0 (fresh 1) tt).1.1, (sequence (toy_net (fun a => if a =? 2 then fun _ => None else serving true a)) toy_o toy_p ex_w 0 (fresh 1) tt).1.1)
  = (false, true).
Proof. vm_compute. reflexivity. Qed.
