(* ===== verification/Token.v ===== *)
(** The token program ([crates/token/src/lib.rs]): the supply counter and its
    mint gate, the protocol pool, the account-chain transition [apply_token]
    and its wire entry [run_transition], and the display of amounts. *)

From S2P Require Import Prelude Crypto.

Open Scope Z_scope.

Definition DECIMALS : nat := 8.
Definition ONE_TOKEN : Z := 100000000.

(** ** Supply and pool *)

Record SupplyState := mk_supply { minted : Z; cap : Z }.

Definition total_supply (s : SupplyState) : Z := minted s.

Definition headroom (s : SupplyState) : Z := sat_sub (cap s) (minted s).

Definition set_cap (s : SupplyState) (c : Z) : SupplyState := mk_supply (minted s) c.

Definition observe_minted (s : SupplyState) (value : Z) : SupplyState :=
  mk_supply (Z.max (minted s) value) (cap s).

Definition authorize_mint (s : SupplyState) (want : Z) : Z * SupplyState :=
  let granted := Z.min want (headroom s) in
  (granted, mk_supply (sat_add (minted s) granted) (cap s)).

Record ProtocolState := mk_proto { supply : SupplyState; pool : Z }.

Definition fold_pay (p : ProtocolState) (amount : Z) : ProtocolState :=
  mk_proto (supply p) (sat_add (pool p) amount).

Definition mint_into_pool (p : ProtocolState) (want : Z) : Z * ProtocolState :=
  let '(granted, s') := authorize_mint (supply p) want in
  (granted, mk_proto s' (sat_add (pool p) granted)).

Definition debit_for_claim (p : ProtocolState) (amount : Z) : bool * ProtocolState :=
  match checked_sub (pool p) amount with
  | Some rest => (true, mk_proto (supply p) rest)
  | None => (false, p)
  end.

Definition set_pool (p : ProtocolState) (v : Z) : ProtocolState := mk_proto (supply p) v.

Definition conserves (p : ProtocolState) (sum_of_balances : Z) : bool :=
  sat_add sum_of_balances (pool p) =? total_supply (supply p).

(** ** The account chain *)

Record TransferOp := mk_transfer { to : key; amount : Z; memo : bytes }.

Record ClaimOp := mk_claim { debit_account : key; debit_nonce : Z }.

Inductive LedgerOp :=
| Transfer (t : TransferOp)
| Claim (c : ClaimOp)
| Pay (amount : Z)
| RewardClaim (epoch : Z).

Record TokenState := mk_token {
  balance : Z;
  processed_claims : gset (key * Z);
  claimed_epochs : gset Z
}.

Definition token_default : TokenState := mk_token 0 ∅ ∅.

Record ResolvedDebit := mk_debit { transfer : TransferOp }.

Record Resolved := mk_resolved { debit : option ResolvedDebit; reward_share : option Z }.

Definition resolved_default : Resolved := mk_resolved None None.

Record LedgerInput := mk_input { account : key; op : LedgerOp; resolved : Resolved }.

#[export] Instance TransferOp_eq_dec : EqDecision TransferOp.
Proof. solve_decision. Defined.
#[export] Instance ClaimOp_eq_dec : EqDecision ClaimOp.
Proof. solve_decision. Defined.
#[export] Instance LedgerOp_eq_dec : EqDecision LedgerOp.
Proof. solve_decision. Defined.

Definition with_balance (st : TokenState) (b : Z) : TokenState :=
  mk_token b (processed_claims st) (claimed_epochs st).

(** [None] is a rejection: the write commits nothing. *)
Definition apply_token (state : TokenState) (op : LedgerOp) (caller : key) (resolved : Resolved)
  : option TokenState :=
  match op with
  | Transfer t =>
      if amount t =? 0 then None
      else b ← checked_sub (balance state) (amount t); Some (with_balance state b)
  | Claim c =>
      d ← debit resolved;
      if negb (bool_decide (to (transfer d) = caller)) then None
      else
        let k := (debit_account c, debit_nonce c) in
        if bool_decide (k ∈ processed_claims state) then None
        else
          b ← checked_add (balance state) (amount (transfer d));
          Some (mk_token b ({[k]} ∪ processed_claims state) (claimed_epochs state))
  | Pay amount =>
      if amount =? 0 then None
      else b ← checked_sub (balance state) amount; Some (with_balance state b)
  | RewardClaim epoch =>
      share ← reward_share resolved;
      if share =? 0 then None
      else if bool_decide (epoch ∈ claimed_epochs state) then None
      else
        b ← checked_add (balance state) share;
        Some (mk_token b (processed_claims state) ({[epoch]} ∪ claimed_epochs state))
  end.

Section wire.
Context `{Postcard TokenState, Postcard LedgerInput}.

(** [TokenState::decode]: an empty blob is a fresh account. *)
Definition decode (prev : bytes) : option TokenState :=
  match prev with
  | [] => Some token_default
  | _ => from_bytes prev
  end.

Definition run_transition (prev_state input : bytes) : option bytes :=
  state ← decode prev_state;
  inp ← from_bytes input;
  next ← apply_token state (op inp) (account inp) (resolved inp);
  Some (to_allocvec next).
End wire.

(** ** Display *)

(** The decimal digits of [n], most significant first ([{n}]); a u64 has at
    most 20 of them. *)
Fixpoint digits_loop (fuel : nat) (n : Z) (acc : bytes) : bytes :=
  match fuel with
  | O => acc
  | S fuel' =>
      let acc' := 48 + n mod 10 :: acc in
      if n / 10 =? 0 then acc' else digits_loop fuel' (n / 10) acc'
  end.
Definition digits (n : Z) : bytes := digits_loop 20 n [].

(** [{n:0width$}]: padded with zeros on the left. *)
Definition digits_padded (width : nat) (n : Z) : bytes :=
  let d := digits n in replicate (width - length d) 48 ++ d.

(** [while s.ends_with('0') { s.pop(); }], on the reversed string. *)
Fixpoint drop_zeros (r : bytes) : bytes :=
  match r with
  | c :: r' => if c =? 48 then drop_zeros r' else r
  | [] => []
  end.

Definition format_amount (base_units : Z) : bytes :=
  let whole := base_units / ONE_TOKEN in
  let frac := base_units mod ONE_TOKEN in
  let s := digits whole ++ [46] ++ digits_padded DECIMALS frac in
  let r := drop_zeros (rev s) in
  match r with
  | 46 :: _ => rev r ++ [48]
  | _ => rev r
  end.

Example format_examples :
  map format_amount [0; 1; 150000000; 100000000; U64_MAX] =
  map str_bytes ["0.0"; "0.00000001"; "1.5"; "1.0"; "184467440737.09551615"]%string.
Proof. reflexivity. Qed.

(** ** Reading a displayed amount back *)

Definition value (l : bytes) : Z := foldl (fun a c => a * 10 + (c - 48)) 0 l.

Definition is_digits (l : bytes) : Prop := Forall (fun c => 48 <= c <= 57) l.

(** The part before the point, and the part after it. *)
Fixpoint split_point (s : bytes) : bytes * bytes :=
  match s with
  | [] => ([], [])
  | c :: s' => if c =? 46 then ([], s') else let '(w, f) := split_point s' in (c :: w, f)
  end.

(** The reference reading of a decimal token amount, in base units. *)
Definition parse_amount (s : bytes) : Z :=
  let '(w, f) := split_point s in
  value w * ONE_TOKEN + value (f ++ replicate (DECIMALS - length f) 48).

Lemma value_snoc l c : value (l ++ [c]) = value l * 10 + (c - 48).
Proof. unfold value. by rewrite foldl_snoc. Qed.

Lemma value_zeros k l : value (replicate k 48 ++ l) = value l.
Proof. induction k as [|k IH]; [done|]. cbn. exact IH. Qed.

Lemma digits_loop_spec fuel n acc :
  0 <= n < 10 ^ Z.of_nat fuel -> (0 < fuel)%nat ->
  exists d, digits_loop fuel n acc = d ++ acc /\ value d = n /\ is_digits d /\
    (length d <= fuel)%nat /\
    forall w, (0 < w)%nat -> n < 10 ^ Z.of_nat w -> (length d <= w)%nat.
Proof.
  revert n acc; induction fuel as [|fuel IH]; intros n acc Hn Hf; [lia|]. cbn.
  pose proof (Z.mod_pos_bound n 10 ltac:(lia)) as Hm.
  pose proof (Z.div_mod n 10 ltac:(lia)) as Hd.
  destruct (Z.eqb_spec (n / 10) 0) as [E|E].
  - exists [48 + n mod 10]. cbn. split_and!; try done; try lia.
    unfold is_digits. apply Forall_singleton. lia.
  - rewrite Nat2Z.inj_succ, Z.pow_succ_r in Hn by lia.
    assert (0 <= n / 10 < 10 ^ Z.of_nat fuel).
    { split; [apply Z.div_pos; lia|]. apply Z.div_lt_upper_bound; lia. }
    destruct fuel as [|fuel]; [cbn in H; lia|].
    destruct (IH (n / 10) (48 + n mod 10 :: acc)) as (d & -> & Hv & Hdig & Hlen & Hw); [done|lia|].
    exists (d ++ [48 + n mod 10]). rewrite <-app_assoc, value_snoc, length_app, Hv. cbn.
    split_and!; try done; try lia.
    + apply Forall_app; split; [done|]. apply Forall_singleton. lia.
    + intros [|[|w]] Hpos Hlt; [lia|cbn in Hlt; lia|].
      assert (length d <= S w)%nat; [|lia]. apply Hw; [lia|].
      rewrite (Nat2Z.inj_succ (S w)), Z.pow_succ_r in Hlt by lia.
      apply Z.div_lt_upper_bound; lia.
Qed.

Lemma digits_spec n : 0 <= n < 10 ^ 20 ->
  value (digits n) = n /\ is_digits (digits n) /\
  forall w, (0 < w)%nat -> n < 10 ^ Z.of_nat w -> (length (digits n) <= w)%nat.
Proof.
  intros Hn. destruct (digits_loop_spec 20 n []) as (d & E & Hv & Hd & _ & Hw); [exact Hn|lia|].
  unfold digits. by rewrite E, app_nil_r.
Qed.

Lemma digits_padded_spec n : 0 <= n < ONE_TOKEN ->
  value (digits_padded DECIMALS n) = n /\ is_digits (digits_padded DECIMALS n) /\
  length (digits_padded DECIMALS n) = DECIMALS.
Proof.
  intros Hn. unfold ONE_TOKEN in Hn. destruct (digits_spec n) as (Hv & Hd & Hw); [lia|].
  unfold digits_padded. rewrite value_zeros. split_and!; [done| |].
  - apply Forall_app; split; [|done]. apply Forall_replicate. lia.
  - rewrite length_app, length_replicate.
    specialize (Hw DECIMALS ltac:(unfold DECIMALS; lia) ltac:(unfold DECIMALS; cbn; lia)). lia.
Qed.

(** Dropping the zeros of a fraction leaves the rest of the string alone. *)
Lemma drop_zeros_point f w : is_digits f ->
  exists f' k, f = f' ++ replicate k 48 /\ drop_zeros (rev f ++ 46 :: w) = rev f' ++ 46 :: w.
Proof.
  induction f as [|c f IH] using rev_ind; intros Hf; [by exists [], 0%nat|].
  apply Forall_app in Hf as [Hf Hc]. apply Forall_singleton in Hc.
  rewrite rev_app_distr. cbn. destruct (Z.eqb_spec c 48) as [->|Hne].
  - destruct (IH Hf) as (f' & k & -> & E). exists f', (S k). split; [|done].
    by rewrite replicate_S_end, app_assoc.
  - exists (f ++ [c]), 0%nat. rewrite app_nil_r, rev_app_distr. done.
Qed.

Lemma split_point_app w f : is_digits w -> split_point (w ++ 46 :: f) = (w, f).
Proof.
  induction 1 as [|c w Hc Hw IH]; [done|]. cbn. destruct (Z.eqb_spec c 46); [lia|]. by rewrite IH.
Qed.

Lemma not_point {A} (c : Z) (r : bytes) (x y : A) :
  c <> 46 -> match c :: r with 46 :: _ => x | _ => y end = y.
Proof.
  intros Hc. destruct c as [|p|p]; try done.
  do 6 (destruct p as [p|p|]; try reflexivity). congruence.
Qed.

Lemma format_amount_shape n : is_u64 n ->
  exists f' k, digits_padded DECIMALS (n mod ONE_TOKEN) = f' ++ replicate k 48 /\
    format_amount n =
      digits (n / ONE_TOKEN) ++ 46 :: (match f' with [] => [48] | _ => f' end).
Proof.
  intros Hn. assert (0 <= n mod ONE_TOKEN < ONE_TOKEN) as Hm by (apply Z.mod_pos_bound; done).
  destruct (digits_padded_spec _ Hm) as (_ & Hd & _).
  destruct (drop_zeros_point _ (rev (digits (n / ONE_TOKEN))) Hd) as (f' & k & Ef & E).
  exists f', k. split; [done|]. unfold format_amount. cbv zeta.
  rewrite !rev_app_distr. cbn [rev app]. rewrite <-app_assoc. cbn [app]. rewrite E.
  assert (is_digits f') as Hf' by (rewrite Ef in Hd; by apply Forall_app in Hd as []).
  destruct f' as [|c f'] using rev_ind.
  - cbn. by rewrite rev_involutive, <-app_assoc.
  - clear IHf'. apply Forall_app in Hf' as [_ Hc]. rewrite Forall_singleton in Hc.
    rewrite rev_app_distr. cbn [rev app].
    replace (match f' ++ [c] with [] => [48] | _ => f' ++ [c] end) with (f' ++ [c]) by by destruct f'.
    assert (rev (c :: rev f' ++ 46 :: rev (digits (n / ONE_TOKEN))) =
            digits (n / ONE_TOKEN) ++ 46 :: f' ++ [c]) as <-.
    { cbn. rewrite rev_app_distr. cbn. by rewrite !rev_involutive, <-!app_assoc. }
    apply (not_point c []). lia.
Qed.

(** A displayed amount reads back exactly: for every u64 number of base
    units, the decimal string [format_amount] produces (trailing zeros
    dropped, at least one decimal kept) denotes that number. *)
Theorem format_amount_reads_back (n : Z) : is_u64 n -> parse_amount (format_amount n) = n.
Proof.
  intros Hn. destruct (format_amount_shape n Hn) as (f' & k & Ef & ->).
  assert (0 <= n mod ONE_TOKEN < ONE_TOKEN) as Hm by (apply Z.mod_pos_bound; done).
  destruct (digits_padded_spec _ Hm) as (Hv & _ & Hlen).
  assert (0 <= n / ONE_TOKEN < 10 ^ 20) as Hw.
  { unfold ONE_TOKEN. unfold_int. split; [apply Z.div_pos; lia|apply Z.div_lt_upper_bound; lia]. }
  destruct (digits_spec _ Hw) as (Hvw & Hdw & _).
  unfold parse_amount. rewrite split_point_app by done. rewrite Hvw.
  assert (value (match f' with [] => [48] | _ => f' end ++
    replicate (DECIMALS - length (match f' with [] => [48] | _ => f' end)) 48) = n mod ONE_TOKEN) as ->.
  { rewrite <-Hv, Ef. rewrite Ef, length_app, length_replicate in Hlen. destruct f' as [|c f'].
    - cbn in Hlen. by subst k.
    - by replace (DECIMALS - length (c :: f'))%nat with k by lia. }
  rewrite (Z.div_mod n ONE_TOKEN) at 3 by done. lia.
Qed.

Lemma format_amount_reads_back_witness : parse_amount (format_amount 123456789) = 123456789.
Proof. apply (format_amount_reads_back 123456789). unfold_int; lia. Defined.

(** ** What one accepted write does *)

(** The change of the caller's balance. *)
Definition delta (op : LedgerOp) (r : Resolved) : Z :=
  match op with
  | Transfer t => - amount t
  | Claim _ => match debit r with Some d => amount (transfer d) | None => 0 end
  | Pay a => - a
  | RewardClaim _ => default 0 (reward_share r)
  end.

(** The debits and the reward epochs a write consumes. *)
Definition claim_keys (op : LedgerOp) : gset (key * Z) :=
  match op with Claim c => {[ (debit_account c, debit_nonce c) ]} | _ => ∅ end.
Definition epoch_keys (op : LedgerOp) : gset Z :=
  match op with RewardClaim e => {[ e ]} | _ => ∅ end.

(** The amounts of a write are machine integers. *)
Definition op_u64 (op : LedgerOp) : Prop :=
  match op with
  | Transfer t => is_u64 (amount t)
  | Pay a => is_u64 a
  | _ => True
  end.
Definition resolved_u64 (r : Resolved) : Prop :=
  (forall d, debit r = Some d -> is_u64 (amount (transfer d))) /\
  (forall s, reward_share r = Some s -> is_u64 s).

Lemma apply_token_step st op me r st' :
  apply_token st op me r = Some st' ->
  balance st' = balance st + delta op r /\
  processed_claims st' = claim_keys op ∪ processed_claims st /\
  claimed_epochs st' = epoch_keys op ∪ claimed_epochs st /\
  claim_keys op ## processed_claims st /\ epoch_keys op ## claimed_epochs st /\
  (op_u64 op -> resolved_u64 r -> is_u64 (balance st) -> is_u64 (balance st')).
Proof.
  destruct op as [t|c|a|e]; cbn.
  - case_match; [done|]. intros (b & [-> ?]%checked_sub_Some & [= <-])%bind_Some. cbn.
    split_and!; try set_solver; try lia. intros; unfold_int; lia.
  - intros (d & Ed & H)%bind_Some. rewrite Ed. repeat case_match; try done.
    apply bind_Some in H as (b & [-> ?]%checked_add_Some & [= <-]). cbn.
    apply bool_decide_eq_false in H1.
    split_and!; try set_solver; try lia. intros _ [Hd _]. specialize (Hd d Ed). unfold_int; lia.
  - case_match; [done|]. intros (b & [-> ?]%checked_sub_Some & [= <-])%bind_Some. cbn.
    split_and!; try set_solver; try lia. intros; unfold_int; lia.
  - intros (s & Es & H)%bind_Some. rewrite Es. repeat case_match; try done.
    apply bind_Some in H as (b & [-> ?]%checked_add_Some & [= <-]). cbn.
    apply bool_decide_eq_false in H1.
    split_and!; try set_solver; try lia. intros _ [_ Hs]. specialize (Hs s Es). unfold_int; lia.
Qed.

(** ** The mint gate *)

(** A mint grants what the cap still allows and counts exactly that. *)
Lemma authorize_mint_spec s want :
  is_u64 want -> is_u64 (minted s) -> is_u64 (cap s) ->
  let '(g, s') := authorize_mint s want in
  g = Z.min want (Z.max 0 (cap s - minted s)) /\ minted s' = minted s + g /\ cap s' = cap s /\
  minted s' <= Z.max (minted s) (cap s).
Proof. intros. unfold authorize_mint, headroom. cbn. unfold_int. lia. Qed.
