(* ===== verification/Ledger.v ===== *)
(** The node's ledger service ([crates/noded/src/ledger.rs]): the fold of an
    account's committed sequence into its token state, the resolution of
    claimed debits, the cached scan of paid amounts, and the writes a node
    submits. *)

From S2P Require Import Prelude Crypto Attestation Sequencer Token.

Open Scope Z_scope.

Section ledger.
Context `{Ed25519, Postcard SequencedWrite, Postcard LedgerOp}.

(** [sequence_of(owner, cid, account)] of the sequence store, and the share
    the economy service resolves for [(epoch, account)]. *)
Variable sequence_of : key -> option AccountSequence.
Variable reward_share_of : Z -> key -> Z.

Definition resolve_debit (account : key) (nonce : Z) : option ResolvedDebit :=
  seq ← sequence_of account;
  payload ← payload_at seq nonce;
  op ← from_bytes payload;
  match op with
  | Transfer t => Some (mk_debit t)
  | Claim _ | Pay _ | RewardClaim _ => None
  end.

Definition resolve (account : key) (op : LedgerOp) : Resolved :=
  match op with
  | Claim c => mk_resolved (resolve_debit (debit_account c) (debit_nonce c)) None
  | RewardClaim epoch => mk_resolved None (Some (reward_share_of epoch account))
  | _ => resolved_default
  end.

(** The body of [balance]'s loop: a rejected or undecodable write is a no-op. *)
Definition fold_write (account : key) (state : TokenState) (payload : bytes) : TokenState :=
  match from_bytes payload with
  | None => state
  | Some op => default state (apply_token state op account (resolve account op))
  end.

(** [for nonce in 0..seq.next_nonce()]. *)
Fixpoint balance_loop (account : key) (seq : AccountSequence) (n : nat) (nonce : Z) (state : TokenState)
  : TokenState :=
  match n with
  | O => state
  | S n' =>
      match payload_at seq nonce with
      | None => state
      | Some payload => balance_loop account seq n' (nonce + 1) (fold_write account state payload)
      end
  end.

Definition balance_of (account : key) : TokenState :=
  match sequence_of account with
  | None => token_default
  | Some seq => balance_loop account seq (Z.to_nat (next_nonce seq)) 0 token_default
  end.

(** The scan of [paid_total], from the cached [(next, total)]. *)
Fixpoint paid_loop (seq : AccountSequence) (n : nat) (next total : Z) : Z * Z :=
  match n with
  | O => (next, total)
  | S n' =>
      match payload_at seq next with
      | None => (next, total)
      | Some payload =>
          let total' := match from_bytes payload with
                        | Some (Pay amount) => sat_add total amount
                        | _ => total
                        end in
          paid_loop seq n' (next + 1) total'
      end
  end.

Definition paid_total (cache : gmap key (Z * Z)) (account : key) : Z * gmap key (Z * Z) :=
  match sequence_of account with
  | None => (default 0 (snd <$> cache !! account), cache)
  | Some seq =>
      let '(next, total) := default (0, 0) (cache !! account) in
      let e := next_nonce seq in
      let '(next', total') := paid_loop seq (Z.to_nat (e - next)) next total in
      (total', <[account := (next', total')]> cache)
  end.

(** The write [submit_own] authors and hands to the sequencer. *)
Definition submit_own (id : NodeIdentity) (op : LedgerOp) : SequencedWrite :=
  let nonce := match sequence_of (node_id id) with Some s => next_nonce s | None => 0 end in
  author id nonce (to_allocvec op).

Definition transfer_write (id : NodeIdentity) (dest : key) (amt : Z) : SequencedWrite :=
  submit_own id (Transfer (mk_transfer dest amt (key_of 0))).
Definition claim_write (id : NodeIdentity) (a : key) (n : Z) : SequencedWrite :=
  submit_own id (Claim (mk_claim a n)).
Definition pay_write (id : NodeIdentity) (amt : Z) : SequencedWrite := submit_own id (Pay amt).
Definition reward_claim_write (id : NodeIdentity) (epoch : Z) : SequencedWrite :=
  submit_own id (RewardClaim epoch).

(** ** The fold as a list function *)

Definition payloads (seq : AccountSequence) : list bytes := map (fun c => payload (write c)) (commits seq).

Lemma payload_at_lookup seq n : 0 <= n -> payload_at seq n = payloads seq !! Z.to_nat n.
Proof. intros. unfold payload_at, payloads. rewrite list_lookup_fmap. by destruct (commits seq !! _). Qed.

Lemma payloads_length seq : Z.of_nat (length (payloads seq)) = next_nonce seq.
Proof. unfold payloads, next_nonce. by rewrite length_map. Qed.

Lemma balance_loop_fold a seq n k st :
  (k + n = length (payloads seq))%nat ->
  balance_loop a seq n (Z.of_nat k) st = foldl (fold_write a) st (drop k (payloads seq)).
Proof.
  revert k st; induction n as [|n IH]; intros k st Hk; cbn.
  - by rewrite drop_ge by lia.
  - rewrite payload_at_lookup, Nat2Z.id by lia.
    destruct (lookup_lt_is_Some_2 (payloads seq) k ltac:(lia)) as [p Hp]. rewrite Hp.
    rewrite (drop_S _ _ _ Hp). cbn. replace (Z.of_nat k + 1) with (Z.of_nat (S k)) by lia.
    apply IH. lia.
Qed.

Lemma balance_of_fold a seq :
  sequence_of a = Some seq -> balance_of a = foldl (fold_write a) token_default (payloads seq).
Proof.
  intros E. unfold balance_of. rewrite E.
  rewrite <-payloads_length, Nat2Z.id. by rewrite (balance_loop_fold a seq _ 0).
Qed.
End ledger.

(** ** The cached scan *)

Section paid.
Context `{Ed25519, Postcard SequencedWrite, Postcard LedgerOp}.

(** The amount a payload adds to the scan. *)
Definition pay_amount (p : bytes) : Z :=
  match from_bytes p with Some (Pay amount) => amount | _ => 0 end.

(** The scan from scratch. *)
Definition paid_rescan (seq : AccountSequence) : Z := sat_sum (map pay_amount (payloads seq)).

Definition entry_ok (seq : AccountSequence) (e : Z * Z) : Prop :=
  0 <= fst e <= next_nonce seq /\
  snd e = sat_sum (map pay_amount (take (Z.to_nat (fst e)) (payloads seq))).

(** Every cached position is a correct partial scan of the account's chain. *)
Definition cache_ok (sequence_of : key -> option AccountSequence) (cache : gmap key (Z * Z)) : Prop :=
  forall a e seq, cache !! a = Some e -> sequence_of a = Some seq -> entry_ok seq e.

(** Payments are machine integers: decoding a u64 gives one. *)
Definition decodes_u64 : Prop := forall b op, from_bytes b = Some op -> op_u64 op.

Lemma pay_amount_u64 b : decodes_u64 -> is_u64 (pay_amount b).
Proof.
  intros Hd. unfold pay_amount. destruct (from_bytes b) as [[]|] eqn:E; try (unfold_int; lia).
  by apply Hd in E.
Qed.

Lemma sat_sum_snoc l x : sat_sum (l ++ [x]) = sat_add (sat_sum l) x.
Proof. unfold sat_sum. by rewrite foldl_snoc. Qed.

Lemma sat_sum_u64 l : Forall is_u64 l -> is_u64 (sat_sum l).
Proof.
  intros Hl. rewrite sat_sum_spec.
  - assert (0 <= sum_Z l); [|unfold_int; lia].
    apply sum_Z_nonneg. revert Hl. apply Forall_impl. unfold_int; lia.
  - revert Hl. apply Forall_impl. unfold_int; lia.
Qed.

Lemma paid_loop_spec seq n k total :
  decodes_u64 -> (k + n = length (payloads seq))%nat ->
  total = sat_sum (map pay_amount (take k (payloads seq))) ->
  paid_loop seq n (Z.of_nat k) total = (next_nonce seq, paid_rescan seq).
Proof.
  intros Hd; revert k total; induction n as [|n IH]; intros k total Hk Ht; cbn.
  - rewrite Ht, take_ge by lia. rewrite <-payloads_length. f_equal. lia.
  - rewrite payload_at_lookup, Nat2Z.id by lia.
    destruct (lookup_lt_is_Some_2 (payloads seq) k ltac:(lia)) as [p Hp]. rewrite Hp.
    replace (Z.of_nat k + 1) with (Z.of_nat (S k)) by lia. apply IH; [lia|].
    rewrite (take_S_r _ _ _ Hp), map_app. cbn. rewrite sat_sum_snoc, <-Ht.
    assert (is_u64 total).
    { rewrite Ht. apply sat_sum_u64, Forall_map, Forall_true. intros; by apply pay_amount_u64. }
    unfold pay_amount. destruct (from_bytes p) as [[]|]; try done; rewrite sat_add_id; unfold_int; lia.
Qed.

(** The cached scan of an account's payments gives what a scan of the whole
    chain gives, leaves a correct cache, and a correct cache stays correct when
    the chains grow, so resuming is always sound. *)
Theorem paid_total_cache_transparent (sequence_of : key -> option AccountSequence)
    (cache : gmap key (Z * Z)) (a : key) (seq : AccountSequence) :
  decodes_u64 -> cache_ok sequence_of cache -> sequence_of a = Some seq ->
  fst (paid_total sequence_of cache a) = paid_rescan seq /\
  cache_ok sequence_of (snd (paid_total sequence_of cache a)) /\
  (forall sequence_of',
     (forall b s', sequence_of' b = Some s' -> is_Some (cache !! b) ->
        exists s, sequence_of b = Some s /\ commits s `prefix_of` commits s') ->
     cache_ok sequence_of' cache).
Proof.
  intros Hd Hc Hs.
  assert (entry_ok seq (default (0, 0) (cache !! a))) as [Hn Ht].
  { destruct (cache !! a) as [e|] eqn:E; cbn; [by eapply Hc|].
    split; cbn; [|done]. unfold next_nonce. lia. }
  assert (exists e', entry_ok seq e' /\ snd e' = paid_rescan seq /\
    paid_total sequence_of cache a = (snd e', <[a := e']> cache)) as (e' & He' & Hr & ->).
  { exists (next_nonce seq, paid_rescan seq). split_and!.
    - split; cbn; [unfold next_nonce; lia|].
      by rewrite <-payloads_length, Nat2Z.id, firstn_all.
    - done.
    - unfold paid_total. rewrite Hs. destruct (default (0, 0) (cache !! a)) as [next total].
      cbn in Hn, Ht. rewrite <-(Z2Nat.id next) at 2 by lia. rewrite paid_loop_spec; [done|done| |done].
      pose proof (payloads_length seq). lia. }
  split_and!; [done| |].
  - intros b e s Hb Hsb. cbn in Hb. destruct (decide (a = b)) as [<-|Hne].
    + rewrite lookup_insert_eq in Hb. by simplify_eq.
    + rewrite lookup_insert_ne in Hb by done. by eapply Hc.
  - intros so' Hgrow b e s' Hb Hsb. destruct (Hgrow b s' Hsb) as (s & Hs0 & [k Hk]); [by eexists|].
    destruct (Hc b e s Hb Hs0) as [Hn0 Ht0]. unfold entry_ok, next_nonce, payloads in *.
    rewrite Hk, length_app, map_app, take_app_le; [split; [lia|done]|]. rewrite length_map. lia.
Qed.
End paid.

(** ** Value across the accounts *)

Section value.
Context `{Ed25519, Postcard SequencedWrite, Postcard LedgerOp}.
Context (seqs : gmap key AccountSequence) (reward_share_of : Z -> key -> Z).

Notation sequence_of := (fun a => seqs !! a).
Notation debit_at := (resolve_debit sequence_of).

(** Decoded amounts and nonces are u64s. *)
Definition decodes_range : Prop :=
  forall b op, from_bytes b = Some op -> op_u64 op /\
    match op with Claim c => is_u64 (debit_nonce c) | _ => True end.

(** The amount a debit position carries, and the share of an epoch. *)
Definition debit_amount (k : key * Z) : Z :=
  match debit_at k.1 k.2 with Some d => amount (transfer d) | None => 0 end.
Definition share_of (a : key) (e : Z) : Z := reward_share_of e a.

(** The state with the totals of the accepted transfers and payments. *)
Record totals := mk_totals { t_state : TokenState; t_transferred : Z; t_paid : Z }.

Definition fold_totals (a : key) (x : totals) (p : bytes) : totals :=
  match from_bytes p with
  | None => x
  | Some op =>
      match apply_token (t_state x) op a (resolve sequence_of reward_share_of a op) with
      | None => x
      | Some st' =>
          mk_totals st'
            (t_transferred x + match op with Transfer t => amount t | _ => 0 end)
            (t_paid x + match op with Pay v => v | _ => 0 end)
      end
  end.

Definition totals_of (a : key) (seq : AccountSequence) : totals :=
  foldl (fold_totals a) (mk_totals token_default 0 0) (payloads seq).

(** Every transfer written on the chain, accepted or not. *)
Definition written_transfers (seq : AccountSequence) : Z :=
  sum_Z (map (fun p => match from_bytes p with Some (Transfer t) => amount t | _ => 0 end) (payloads seq)).

Definition rewards_of (a : key) (st : TokenState) : Z := set_sum (share_of a) (claimed_epochs st).

Lemma fold_totals_state a x p :
  t_state (fold_totals a x p) = fold_write sequence_of reward_share_of a (t_state x) p.
Proof.
  unfold fold_totals, fold_write. destruct (from_bytes p) as [op|]; [|done].
  by destruct (apply_token _ _ _ _).
Qed.

Lemma totals_state a seq : seqs !! a = Some seq ->
  t_state (totals_of a seq) = balance_of sequence_of reward_share_of a.
Proof.
  intros Hs. rewrite (balance_of_fold _ _ a seq Hs). unfold totals_of.
  change token_default with (t_state (mk_totals token_default 0 0)) at 2.
  generalize (mk_totals token_default 0 0) as x. induction (payloads seq) as [|p l IH]; intros x; cbn; [done|].
  by rewrite IH, fold_totals_state.
Qed.

(** The books of one account: what it has is what it claimed, less what it
    moved out; and it claims only transfers made out to it. *)
Definition books (a : key) (x : totals) : Prop :=
  balance (t_state x) + t_transferred x + t_paid x =
    set_sum debit_amount (processed_claims (t_state x)) + rewards_of a (t_state x) /\
  forall k, k ∈ processed_claims (t_state x) -> 0 <= k.2 /\
    exists d, debit_at k.1 k.2 = Some d /\ to (transfer d) = a.

Lemma fold_totals_books a x p : decodes_range -> books a x -> books a (fold_totals a x p).
Proof.
  intros Hd [Hb Hk]. unfold fold_totals. destruct (from_bytes p) as [op|] eqn:Ep; [|done].
  destruct (apply_token _ _ _ _) as [st'|] eqn:Ea; [|done]. apply Hd in Ep as [_ Hrange].
  assert (forall c, op = Claim c -> exists d, debit_at (debit_account c) (debit_nonce c) = Some d /\ to (transfer d) = a) as Hcl.
  { intros c ->. cbn in Ea. apply bind_Some in Ea as (d & Ed & Ea). exists d. split; [done|].
    case_bool_decide as Hto; [done|]. done. }
  destruct (apply_token_step _ _ _ _ _ Ea) as (Hbal & Hpc & Hce & Hdc & Hde & _).
  unfold books, rewards_of in *. cbn [t_state t_transferred t_paid]. rewrite Hbal, Hpc, Hce.
  rewrite !set_sum_union by done. split.
  - destruct op as [t|c|v|e]; cbn [delta claim_keys epoch_keys resolve debit reward_share];
      rewrite ?set_sum_empty, ?set_sum_singleton; try lia.
    + destruct (Hcl c eq_refl) as (d & Ed & _).
      assert (debit_amount (debit_account c, debit_nonce c) = amount (transfer d)) as ->
        by (unfold debit_amount; cbn [fst snd]; by rewrite Ed).
      rewrite Ed. lia.
    + change (share_of a e) with (reward_share_of e a). cbn. lia.
  - intros k [Hin|Hin]%elem_of_union; [|by apply Hk].
    destruct op as [t|c|v|e]; cbn in Hin; try by apply elem_of_empty in Hin.
    apply elem_of_singleton in Hin as ->. split; [cbn in *; unfold_int; lia|by apply Hcl].
Qed.

Lemma totals_books a seq : decodes_range -> books a (totals_of a seq).
Proof.
  intros Hd. unfold totals_of.
  assert (books a (mk_totals token_default 0 0)) as H0'.
  { unfold books, rewards_of. cbn. rewrite !set_sum_empty. split; [done|].
    by intros k ?%elem_of_empty. }
  revert H0'. generalize (mk_totals token_default 0 0) as x.
  induction (payloads seq) as [|p l IH]; intros x Hx; cbn; [done|]. by apply IH, fold_totals_books.
Qed.

(** All the positions of all the chains. *)
Definition positions : list (key * Z) :=
  concat (map (fun '(a, s) => map (fun i => (a, Z.of_nat i)) (List.seq 0 (length (payloads s)))) (map_to_list seqs)).

Lemma debit_at_position k d : 0 <= k.2 -> debit_at k.1 k.2 = Some d -> k ∈ positions.
Proof.
  destruct k as [a n]; cbn. intros Hn (s & Hs & E)%bind_Some. cbn in Hs.
  rewrite payload_at_lookup in E by done. apply bind_Some in E as (p & Hp & _).
  unfold positions. apply list_elem_of_In, in_concat.
  exists (map (fun i => (a, Z.of_nat i)) (List.seq 0 (length (payloads s)))). split.
  - apply in_map_iff. exists (a, s). split; [done|]. by apply list_elem_of_In, elem_of_map_to_list.
  - apply in_map_iff. exists (Z.to_nat n). split; [f_equal; lia|].
    apply in_seq. apply lookup_lt_Some in Hp. lia.
Qed.

Lemma debit_amount_nonneg k : decodes_range -> 0 <= debit_amount k.
Proof.
  intros Hd. unfold debit_amount, resolve_debit. destruct (seqs !! k.1) as [s|]; cbn; [|done].
  destruct (payload_at s k.2) as [p|]; cbn; [|done].
  destruct (from_bytes p) as [[t|c|v|e]|] eqn:E; cbn; try done.
  apply Hd in E as [E _]. cbn in E. unfold_int; lia.
Qed.

Lemma positions_sum :
  sum_Z (map debit_amount positions) = sum_Z (map (fun '(_, s) => written_transfers s) (map_to_list seqs)).
Proof.
  unfold positions.
  assert (forall a s, (a, s) ∈ map_to_list seqs ->
    sum_Z (map debit_amount (map (fun i => (a, Z.of_nat i)) (List.seq 0 (length (payloads s))))) = written_transfers s) as Hone.
  { intros a s Hs%elem_of_map_to_list. unfold written_transfers. f_equal. apply list_eq. intros i.
    rewrite map_map. rewrite !list_lookup_fmap.
    destruct (decide (i < length (payloads s))%nat) as [Hi|Hi].
    - rewrite lookup_seq_lt by done. cbn. unfold debit_amount, resolve_debit. cbn. rewrite Hs. cbn.
      rewrite payload_at_lookup, Nat2Z.id by lia.
      destruct (lookup_lt_is_Some_2 _ _ Hi) as [p ->]. cbn. by destruct (from_bytes p) as [[]|].
    - rewrite lookup_seq_ge by lia. by rewrite (lookup_ge_None_2 (payloads s)) by lia. }
  induction (map_to_list seqs) as [|[a s] l IH]; cbn; [done|].
  rewrite map_app, sum_Z_app, Hone by left. rewrite IH; [done|]. intros; apply Hone; by right.
Qed.

(** Sums over all the accounts. *)
Definition over_accounts (f : key -> AccountSequence -> Z) : Z :=
  sum_Z (map (fun '(a, s) => f a s) (map_to_list seqs)).

Lemma over_accounts_add f g :
  over_accounts (fun a s => f a s + g a s) = over_accounts f + over_accounts g.
Proof. unfold over_accounts, sum_Z. induction (map_to_list seqs) as [|[] l IH]; cbn; lia. Qed.

Lemma over_accounts_ext f g :
  (forall a s, seqs !! a = Some s -> f a s = g a s) -> over_accounts f = over_accounts g.
Proof.
  intros Hfg. unfold over_accounts. f_equal. apply map_ext_in. intros [a s] Hin.
  apply Hfg. by apply elem_of_map_to_list, list_elem_of_In.
Qed.

(** Different accounts claim different debits, so together they claim at most
    what was written. *)
Lemma claims_le_written : decodes_range ->
  over_accounts (fun a s => set_sum debit_amount (processed_claims (t_state (totals_of a s)))) <=
  over_accounts (fun _ s => written_transfers s).
Proof.
  intros Hd. unfold over_accounts at 2. rewrite <-positions_sum.
  set (C := fun p : key * AccountSequence => processed_claims (t_state (totals_of p.1 p.2))).
  assert (over_accounts (fun a s => set_sum debit_amount (processed_claims (t_state (totals_of a s)))) =
    set_sum debit_amount (⋃ (map C (map_to_list seqs)))) as ->.
  { rewrite <-set_sum_family.
    - unfold over_accounts. f_equal. apply map_ext. by intros [a s].
    - apply NoDup_map_to_list.
    - intros [a s] [b s'] Ha%elem_of_map_to_list Hb%elem_of_map_to_list Hne k Hk Hk'. unfold C in *. cbn in *.
      destruct (totals_books a s Hd) as [_ Ha']. destruct (totals_books b s' Hd) as [_ Hb'].
      destruct (Ha' k Hk) as (_ & d & Ed & <-). destruct (Hb' k Hk') as (_ & d' & Ed' & <-).
      rewrite Ed in Ed'. simplify_eq. }
  apply set_sum_le_list; [intros; by apply debit_amount_nonneg|].
  intros k (Y & HY & Hk)%elem_of_union_list. apply list_elem_of_fmap in HY as ([a s] & -> & _).
  destruct (totals_books a s Hd) as [_ Ha]. destruct (Ha k Hk) as (Hn & d & Ed & _).
  by eapply debit_at_position.
Qed.

(** The credits of an account name transfers written to it. *)
Lemma credit_is_written a s k : decodes_range -> k ∈ processed_claims (t_state (totals_of a s)) ->
  exists sender p t, seqs !! k.1 = Some sender /\ payloads sender !! Z.to_nat k.2 = Some p /\ from_bytes p = Some (Transfer t) /\
    to t = a /\ debit_amount k = amount t.
Proof.
  intros Hd Hk. destruct (totals_books a s Hd) as [_ Ha]. destruct (Ha k Hk) as (Hn & d & Ed & Hto).
  unfold debit_amount. rewrite Ed. unfold resolve_debit in Ed. apply bind_Some in Ed as (sd & Es & Ed).
  rewrite payload_at_lookup in Ed by done. apply bind_Some in Ed as (p & Ep & Ed). apply bind_Some in Ed as (op & Eo & Ed).
  destruct op as [t|c|v|e]; try done. injection Ed as <-. by exists sd, p, t.
Qed.

(** C33: Value across the whole ledger.  Over any set of committed chains, with
    the shares the economy resolves, the credits of an account being the
    claims its fold accepted: an account's balance, its payments and its
    accepted transfers add up exactly to the transfers credited to it, each
    once, plus the shares of the epochs it claimed, each once; a credited
    transfer stands on the sender's chain at the position claimed and names
    this account as its recipient; and no transfer is credited to two
    accounts.  So all balances, payments and accepted transfers together
    never exceed the rewards credited plus the transfers written; and when
    every written transfer was accepted by its sender's own fold, the balances
    plus the payments never exceed the rewards credited. (A transfer its
    sender's fold rejected can be credited all the same:
    [rejected_transfer_is_claimable].) *)
Theorem ledger_creates_no_value :
  decodes_range ->
  (forall a s, seqs !! a = Some s ->
     let st := balance_of sequence_of reward_share_of a in
     balance st + t_transferred (totals_of a s) + t_paid (totals_of a s) =
       set_sum debit_amount (processed_claims st) + set_sum (fun e => reward_share_of e a) (claimed_epochs st) /\
     (forall k, k ∈ processed_claims st ->
        exists sender p t, seqs !! k.1 = Some sender /\ payloads sender !! Z.to_nat k.2 = Some p /\
          from_bytes p = Some (Transfer t) /\ to t = a /\ debit_amount k = amount t) /\
     (forall b, b <> a -> processed_claims st ## processed_claims (balance_of sequence_of reward_share_of b))) /\
  over_accounts (fun a s => balance (balance_of sequence_of reward_share_of a)) +
  over_accounts (fun a s => t_paid (totals_of a s)) +
  over_accounts (fun a s => t_transferred (totals_of a s)) <=
    over_accounts (fun a s => rewards_of a (balance_of sequence_of reward_share_of a)) +
    over_accounts (fun _ s => written_transfers s) /\
  ((forall a s, seqs !! a = Some s -> t_transferred (totals_of a s) = written_transfers s) ->
   over_accounts (fun a s => balance (balance_of sequence_of reward_share_of a)) +
   over_accounts (fun a s => t_paid (totals_of a s)) <=
     over_accounts (fun a s => rewards_of a (balance_of sequence_of reward_share_of a))).
Proof.
  intros Hd. split.
  { intros a s Hs. cbv zeta. rewrite <- (totals_state a s Hs). split; [by destruct (totals_books a s Hd)|].
    split; [intros k Hk; by eapply credit_is_written|]. intros b Hb k Hk Hk'.
    destruct (seqs !! b) as [s'|] eqn:Hs'; [|unfold balance_of in Hk'; rewrite Hs' in Hk'; by apply elem_of_empty in Hk'].
    rewrite <- (totals_state b s' Hs') in Hk'.
    destruct (credit_is_written a s k Hd Hk) as (sd & p & t & E1 & E2 & E3 & Ea & _).
    destruct (credit_is_written b s' k Hd Hk') as (sd' & p' & t' & E1' & E2' & E3' & Eb & _). congruence. }
  pose proof (claims_le_written Hd) as Hle.
  assert (over_accounts (fun a s => balance (balance_of sequence_of reward_share_of a)) +
    over_accounts (fun a s => t_transferred (totals_of a s)) + over_accounts (fun a s => t_paid (totals_of a s)) =
    over_accounts (fun a s => set_sum debit_amount (processed_claims (t_state (totals_of a s)))) +
    over_accounts (fun a s => rewards_of a (balance_of sequence_of reward_share_of a))) as Heq.
  { rewrite <-!over_accounts_add. apply over_accounts_ext. intros a s Hs.
    rewrite <-(totals_state a s Hs). by destruct (totals_books a s Hd) as [? _]. }
  split; [lia|]. intros Hall. rewrite (over_accounts_ext _ _ Hall) in Heq. lia.
Qed.
End value.

(** ** Concrete chains *)

(** A codec of ledger operations for the evaluations: a tag and the fields. *)
Definition toy_op_codec : Postcard LedgerOp := {|
  to_allocvec := fun op =>
    match op with
    | Transfer t => [0; amount t] ++ to t
    | Claim c => [1; debit_nonce c] ++ debit_account c
    | Pay v => [2; v]
    | RewardClaim e => [3; e]
    end;
  from_bytes := fun b =>
    match b with
    | tag :: v :: r =>
        if negb (bool_decide (is_u64 v)) then None
        else if tag =? 0 then Some (Transfer (mk_transfer r v []))
        else if tag =? 1 then Some (Claim (mk_claim r v))
        else if tag =? 2 then Some (Pay v)
        else if tag =? 3 then Some (RewardClaim v)
        else None
    | _ => None
    end
|}.

Lemma toy_op_codec_range : @decodes_range toy_op_codec.
Proof.
  intros [|tag [|v r]] op E; cbn in E; try done.
  case_bool_decide as Hv; cbn in E; [|done].
  repeat case_match; simplify_eq; cbn; auto.
Qed.

(** A chain of account [a] with the given operations. *)
Definition ex_ledger_chain (a : key) (ops : list LedgerOp) : AccountSequence :=
  mk_seq a (imap (fun i op => mk_commit (mk_write a (Z.of_nat i) (@to_allocvec _ toy_op_codec op) []) []) ops).

Definition alice := key_of 1.
Definition bob := key_of 2.

(** Alice earns 100 in epoch 1, sends Bob 60, pays 30; Bob claims the 60. *)
Definition ex_ledger : gmap key AccountSequence :=
  <[alice := ex_ledger_chain alice [RewardClaim 1; Transfer (mk_transfer bob 60 []); Pay 30]]>
  (<[bob := ex_ledger_chain bob [Claim (mk_claim alice 1)]]> ∅).

Lemma ledger_creates_no_value_witness :
  over_accounts ex_ledger (fun a s => balance (@balance_of toy_op_codec (fun b => ex_ledger !! b) (fun _ _ => 100) a)) = 70 /\
  70 + 30 <= 100.
Proof.
  split; [vm_compute; reflexivity|].
  destruct (@ledger_creates_no_value toy_op_codec ex_ledger (fun _ _ => 100) toy_op_codec_range) as (_ & _ & Hw).
  assert (over_accounts ex_ledger (fun a s => balance (@balance_of toy_op_codec (fun b => ex_ledger !! b) (fun _ _ => 100) a)) = 70)
    as E1 by (vm_compute; reflexivity).
  assert (over_accounts ex_ledger (fun a s => t_paid (@totals_of toy_op_codec ex_ledger (fun _ _ => 100) a s)) = 30)
    as E2 by (vm_compute; reflexivity).
  assert (over_accounts ex_ledger (fun a s => rewards_of (fun _ _ => 100) a
    (@balance_of toy_op_codec (fun b => ex_ledger !! b) (fun _ _ => 100) a)) = 100) as E3 by (vm_compute; reflexivity).
  rewrite E1, E2, E3 in Hw. apply Hw.
  intros a s Hs. unfold ex_ledger in Hs. apply lookup_insert_Some in Hs as [[<- <-]|[_ Hs]]; [vm_compute; reflexivity|].
  apply lookup_insert_Some in Hs as [[<- <-]|[_ Hs]]; [vm_compute; reflexivity|done].
Defined.

(** The debit a claim refers to is looked up in the sender's sequence of
    writes, accepted or not: Alice, with nothing, writes a transfer of 100 to
    Bob, which her own fold rejects, and Bob claims it. *)
Definition ex_overdraft : gmap key AccountSequence :=
  <[alice := ex_ledger_chain alice [Transfer (mk_transfer bob 100 [])]]>
  (<[bob := ex_ledger_chain bob [Claim (mk_claim alice 0)]]> ∅).

Theorem rejected_transfer_is_claimable :
  balance (@balance_of toy_op_codec (fun b => ex_overdraft !! b) (fun _ _ => 0) alice) = 0 /\
  t_transferred (@totals_of toy_op_codec ex_overdraft (fun _ _ => 0) alice (ex_ledger_chain alice [Transfer (mk_transfer bob 100 [])])) = 0 /\
  balance (@balance_of toy_op_codec (fun b => ex_overdraft !! b) (fun _ _ => 0) bob) = 100.
Proof. vm_compute. auto. Qed.

(** Likewise the paid total counts a payment that the payer's fold rejected. *)
Theorem rejected_payment_counts_as_paid :
  let seqs := fun a : key => Some (ex_ledger_chain a [Pay 500]) in
  balance (@balance_of toy_op_codec seqs (fun _ _ => 0) alice) = 0 /\
  fst (@paid_total toy_op_codec seqs ∅ alice) = 500.
Proof. vm_compute. auto. Qed.

Lemma paid_total_cache_transparent_witness :
  fst (@paid_total toy_op_codec (fun b => ex_ledger !! b) {[ alice := (2, 0) ]} alice) = 30.
Proof.
  destruct (@paid_total_cache_transparent toy_op_codec (fun b => ex_ledger !! b) {[ alice := (2, 0) ]} alice
    (ex_ledger_chain alice [RewardClaim 1; Transfer (mk_transfer bob 60 []); Pay 30])) as [E _].
  - intros b op Hb. by apply toy_op_codec_range in Hb as [? _].
  - intros a e s Ha Hs. apply lookup_singleton_Some in Ha as [<- <-]. unfold ex_ledger in Hs.
    rewrite lookup_insert_eq in Hs. injection Hs as <-. split; [split; discriminate|reflexivity].
  - apply lookup_insert_eq.
  - rewrite E. reflexivity.
Defined.
