(* ===== verification/Subscription.v ===== *)
(** Subscriptions ([crates/economy-egress/src/subscription.rs]): the windowed
    egress entitlements that payments buy and the per-window seeding
    allowance. *)

From S2P Require Import Prelude.

Open Scope Z_scope.

Definition ONE_TOKEN : Z := 100000000.
Definition DEFAULT_BYTES_PER_TOKEN : Z := Z.shiftl 1 40.
Definition SEEDING_PAID_TIER_BYTES : Z := Z.shiftl 1 40.

Record Grant := mk_grant { expires_at : Z; remaining : Z }.

Record SubscriptionLedger := mk_ledger {
  grants : gmap key (list Grant);
  seeding_paid_tier : Z;
  seeding_window : Z;
  seeding_next : gmap key Z
}.

Definition ledger_new : SubscriptionLedger := mk_ledger ∅ SEEDING_PAID_TIER_BYTES 0 ∅.

Definition set_seeding_paid_tier (l : SubscriptionLedger) (bytes window_epochs : Z) : SubscriptionLedger :=
  mk_ledger (grants l) bytes window_epochs (seeding_next l).

Definition seeding_eligibility (l : SubscriptionLedger) : list (key * Z) := btree_iter (seeding_next l).

Definition restore_seeding_eligibility (l : SubscriptionLedger) (rows : list (key * Z))
  : SubscriptionLedger :=
  mk_ledger (grants l) (seeding_paid_tier l) (seeding_window l)
    (foldl (fun m '(account, next) => <[account := Z.max (default 0 (m !! account)) next]> m)
       (seeding_next l) rows).

(** [grants.entry(consumer).or_default().push_back(g)]. *)
Definition push_grant (m : gmap key (list Grant)) (consumer : key) (g : Grant) : gmap key (list Grant) :=
  <[consumer := default [] (m !! consumer) ++ [g]]> m.

(** The bytes a payment buys: u128 arithmetic, then the truncating cast. *)
Definition purchased_bytes (tokens bytes_per_token : Z) : Z :=
  as_u64 (Z.min (tokens * bytes_per_token) U128_MAX / ONE_TOKEN).

Definition purchase (l : SubscriptionLedger) (consumer : key) (tokens bytes_per_token epoch window : Z)
  : SubscriptionLedger :=
  let bytes := purchased_bytes tokens bytes_per_token in
  if bytes =? 0 then l
  else mk_ledger (push_grant (grants l) consumer (mk_grant (sat_add epoch window) bytes))
         (seeding_paid_tier l) (seeding_window l) (seeding_next l).

(** [while front.expires_at <= epoch { pop_front }]. *)
Fixpoint drop_expired (q : list Grant) (epoch : Z) : list Grant :=
  match q with
  | g :: q' => if expires_at g <=? epoch then drop_expired q' epoch else q
  | [] => []
  end.

(** Store a consumer's queue, removing the entry when it is empty. *)
Definition put_queue (m : gmap key (list Grant)) (consumer : key) (q : list Grant) : gmap key (list Grant) :=
  match q with [] => delete consumer m | _ => <[consumer := q]> m end.

Definition expire (m : gmap key (list Grant)) (consumer : key) (epoch : Z) : gmap key (list Grant) :=
  match m !! consumer with
  | Some q => put_queue m consumer (drop_expired q epoch)
  | None => m
  end.

(** The [while want > 0] loop.  When the front grant is not used up, [take]
    was all that was wanted and the loop ends. *)
Fixpoint consume (q : list Grant) (want used : Z) : Z * list Grant :=
  match q with
  | [] => (used, [])
  | front :: q' =>
      if want <=? 0 then (used, q)
      else
        let take := Z.min (remaining front) want in
        if remaining front - take =? 0 then consume q' (want - take) (used + take)
        else (used + take, mk_grant (expires_at front) (remaining front - take) :: q')
  end.

Definition allocate (l : SubscriptionLedger) (consumer : key) (bytes epoch : Z)
  : Z * SubscriptionLedger :=
  let g0 := expire (grants l) consumer epoch in
  let eligible := default 0 (seeding_next l !! consumer) <=? epoch in
  let '(g1, next1) :=
    if (0 <? seeding_paid_tier l) && eligible then
      let window := if seeding_window l =? 0 then 1 else seeding_window l in
      (push_grant g0 consumer (mk_grant (sat_add epoch window) (seeding_paid_tier l)),
       <[consumer := sat_add epoch window]> (seeding_next l))
    else (g0, seeding_next l) in
  match g1 !! consumer with
  | None => (0, mk_ledger g1 (seeding_paid_tier l) (seeding_window l) next1)
  | Some q =>
      let '(used, q') := consume q bytes 0 in
      (used, mk_ledger (put_queue g1 consumer q') (seeding_paid_tier l) (seeding_window l) next1)
  end.

(** The unexpired bytes of a queue. *)
Definition live (q : list Grant) (epoch : Z) : Z :=
  sat_sum (map remaining (filter (fun g => epoch < expires_at g) q)).

Definition balances (l : SubscriptionLedger) (epoch : Z) : list (key * Z) :=
  omap (fun '(c, q) => let rem := live q epoch in if 0 <? rem then Some (c, rem) else None)
    (btree_iter (grants l)).

Definition available (l : SubscriptionLedger) (consumer : key) (epoch : Z) : Z :=
  match grants l !! consumer with Some q => live q epoch | None => 0 end.

(** ** Queues *)

Definition queue (m : gmap key (list Grant)) (c : key) : list Grant := default [] (m !! c).

(** Without saturation: the unexpired bytes, and all the bytes, of a queue. *)
Definition live_sum (q : list Grant) (epoch : Z) : Z :=
  sum_Z (map remaining (filter (fun g => epoch < expires_at g) q)).
Definition total (q : list Grant) : Z := sum_Z (map remaining q).

(** A grant in a queue is not empty. *)
Definition queue_ok (q : list Grant) : Prop := Forall (fun g => 0 < remaining g) q.

(** Oldest first: the order the documentation relies on. *)
Definition fifo (q : list Grant) : Prop := StronglySorted (fun g h => expires_at g <= expires_at h) q.

Definition ledger_wf (l : SubscriptionLedger) : Prop :=
  map_Forall (fun _ q => q <> [] /\ queue_ok q) (grants l).

Lemma total_nonneg q : queue_ok q -> 0 <= total q.
Proof. intros Hq. apply sum_Z_nonneg, Forall_map. revert Hq. apply Forall_impl. lia. Qed.

Lemma total_app q r : total (q ++ r) = total q + total r.
Proof. unfold total. by rewrite map_app, sum_Z_app. Qed.

Lemma drop_expired_fifo q epoch :
  fifo q -> drop_expired q epoch = filter (fun g => epoch < expires_at g) q.
Proof.
  induction 1 as [|g q Hs IH Hg]; [done|]. cbn [drop_expired]. rewrite filter_cons.
  destruct (Z.leb_spec (expires_at g) epoch) as [Hle|Hlt].
  - rewrite decide_False by lia. exact IH.
  - rewrite decide_True by done. f_equal. symmetry. clear IH Hs.
    induction Hg as [|h q Hh Hq IH]; [done|]. rewrite filter_cons, decide_True by lia. by f_equal.
Qed.

Lemma drop_expired_ok q epoch : queue_ok q -> queue_ok (drop_expired q epoch).
Proof. induction 1 as [|g q Hg Hq IH]; cbn; [constructor|]. case_match; [done|by constructor]. Qed.

Lemma drop_expired_total q epoch : queue_ok q -> total (drop_expired q epoch) <= total q.
Proof.
  induction 1 as [|g q Hg Hq IH]; cbn; [done|]. case_match; [|done].
  unfold total, sum_Z in *. cbn. lia.
Qed.

Lemma consume_spec q want used :
  queue_ok q -> 0 <= want ->
  let '(used', q') := consume q want used in
  used' = used + Z.min want (total q) /\ total q' = total q - Z.min want (total q) /\ queue_ok q' /\
  (forall epoch, Forall (fun g => epoch < expires_at g) q -> Forall (fun g => epoch < expires_at g) q').
Proof.
  intros Hq; revert want used. induction Hq as [|g q Hg Hq IH]; intros want used Hw; cbn [consume].
  - unfold total, sum_Z. cbn. split_and!; [lia|lia|constructor|auto].
  - pose proof (total_nonneg q Hq).
    assert (total (g :: q) = remaining g + total q) as Ht by done.
    destruct (Z.leb_spec want 0); [split_and!; [lia|lia|by constructor|auto]|].
    destruct (Z.eqb_spec (remaining g - Z.min (remaining g) want) 0).
    + specialize (IH (want - Z.min (remaining g) want) (used + Z.min (remaining g) want) ltac:(lia)).
      destruct (consume _ _ _) as [u q']. destruct IH as (-> & -> & Hok & Hlive).
      split_and!; [lia|lia|done|]. intros ep [_ He]%Forall_cons_iff. auto.
    + split_and!; [lia| |constructor; [cbn; lia|done]|].
      * unfold total, sum_Z in *. cbn in *. lia.
      * intros ep [He1 He2]%Forall_cons_iff. constructor; done.
Qed.

Lemma live_sum_all q epoch : Forall (fun g => epoch < expires_at g) q -> live_sum q epoch = total q.
Proof.
  unfold live_sum, total. induction 1 as [|g q Hg Hq IH]; [done|].
  rewrite filter_cons, decide_True by done. unfold sum_Z in *. cbn. by rewrite IH.
Qed.

Lemma queue_put m c q : queue (put_queue m c q) c = q.
Proof. unfold queue, put_queue. destruct q; [by rewrite lookup_delete_eq|by rewrite lookup_insert_eq]. Qed.

Lemma put_queue_ne m c q c' : c' <> c -> put_queue m c q !! c' = m !! c'.
Proof. intros. unfold put_queue. destruct q; [by rewrite lookup_delete_ne|by rewrite lookup_insert_ne]. Qed.

Lemma queue_expire m c epoch : queue (expire m c epoch) c = drop_expired (queue m c) epoch.
Proof.
  unfold expire, queue at 2. destruct (m !! c) as [q|] eqn:E; cbn; [apply queue_put|].
  unfold queue. by rewrite E.
Qed.

Lemma expire_ne m c epoch c' : c' <> c -> expire m c epoch !! c' = m !! c'.
Proof. intros. unfold expire. destruct (m !! c); [by apply put_queue_ne|done]. Qed.

Definition grants_ok (m : gmap key (list Grant)) : Prop := map_Forall (fun _ q => q <> [] /\ queue_ok q) m.

Lemma queue_ok_of m c : grants_ok m -> queue_ok (queue m c).
Proof. intros Hm. unfold queue. destruct (m !! c) eqn:E; cbn; [by eapply Hm|constructor]. Qed.

Lemma put_queue_ok m c q : grants_ok m -> queue_ok q -> grants_ok (put_queue m c q).
Proof.
  intros Hm Hq. unfold put_queue. destruct q; [by apply map_Forall_delete|by apply map_Forall_insert_2].
Qed.

Lemma expire_ok m c epoch : grants_ok m -> grants_ok (expire m c epoch).
Proof.
  intros Hm. unfold expire. destruct (m !! c) as [q|] eqn:E; [|done].
  apply put_queue_ok, drop_expired_ok; [done|]. by eapply Hm.
Qed.

Lemma push_grant_ok m c g : grants_ok m -> 0 < remaining g -> grants_ok (push_grant m c g).
Proof.
  intros Hm Hg. apply map_Forall_insert_2; [|done]. split; [by destruct (default [] (m !! c))|].
  apply Forall_app. split; [by apply (queue_ok_of m c)|]. by apply Forall_singleton.
Qed.

(** The seeding grant a call at [epoch] receives, if any. *)
Definition seeded (l : SubscriptionLedger) (c : key) (epoch : Z) : list Grant :=
  if (0 <? seeding_paid_tier l) && (default 0 (seeding_next l !! c) <=? epoch)
  then [mk_grant (sat_add epoch (if seeding_window l =? 0 then 1 else seeding_window l)) (seeding_paid_tier l)]
  else [].

(** [allocate] through the queue of its consumer: what is left of the queue
    after expiry, then the seeding grant, is consumed from the front. *)
Lemma allocate_queue l c bytes epoch :
  ledger_wf l -> 0 <= bytes ->
  let q := drop_expired (queue (grants l) c) epoch ++ seeded l c epoch in
  let '(used, l') := allocate l c bytes epoch in
  used = Z.min bytes (total q) /\ total (queue (grants l') c) = total q - used /\
  (Forall (fun g => epoch < expires_at g) q -> Forall (fun g => epoch < expires_at g) (queue (grants l') c)) /\
  ledger_wf l' /\ (forall c', c' <> c -> grants l' !! c' = grants l !! c') /\
  seeding_paid_tier l' = seeding_paid_tier l /\ seeding_window l' = seeding_window l /\
  seeding_next l' !! c =
    (if (0 <? seeding_paid_tier l) && (default 0 (seeding_next l !! c) <=? epoch)
     then Some (sat_add epoch (if seeding_window l =? 0 then 1 else seeding_window l))
     else seeding_next l !! c).
Proof.
  intros Hwf Hb q. unfold allocate.
  set (next1 := (_, _)). set (g1 := if _ && _ then _ else _).
  assert (exists m1 n1, g1 = (m1, n1) /\ queue m1 c = q /\ grants_ok m1 /\
    (forall c', c' <> c -> m1 !! c' = grants l !! c') /\
    n1 !! c = (if (0 <? seeding_paid_tier l) && (default 0 (seeding_next l !! c) <=? epoch)
     then Some (sat_add epoch (if seeding_window l =? 0 then 1 else seeding_window l))
     else seeding_next l !! c)) as (m1 & n1 & -> & Hq & Hok & Hne & Hn1).
  { unfold g1, q, seeded, next1. destruct (Z.ltb_spec 0 (seeding_paid_tier l)); cbn [andb];
      [destruct (default 0 (seeding_next l !! c) <=? epoch)|].
    - eexists _, _. split; [done|]. rewrite lookup_insert_eq. split_and!; [| | |done].
      + unfold push_grant, queue at 1. rewrite lookup_insert_eq. cbn. f_equal. apply queue_expire.
      + apply push_grant_ok; [by apply expire_ok|done].
      + intros c' Hc'. unfold push_grant. rewrite lookup_insert_ne by done. by apply expire_ne.
    - eexists _, _. split; [done|]. rewrite app_nil_r. split_and!; [apply queue_expire|by apply expire_ok| |done].
      intros. by apply expire_ne.
    - eexists _, _. split; [done|]. rewrite app_nil_r. split_and!; [apply queue_expire|by apply expire_ok| |done].
      intros. by apply expire_ne. }
  clearbody q. pose proof (queue_ok_of m1 c Hok) as Hqok. rewrite Hq in Hqok.
  unfold queue in Hq. destruct (m1 !! c) as [q0|] eqn:E; cbn in Hq; subst q.
  - pose proof (consume_spec q0 bytes 0 Hqok Hb) as Hs. destruct (consume q0 bytes 0) as [u q'].
    destruct Hs as (-> & Ht & Hok' & Hlive). cbn [grants seeding_paid_tier seeding_window seeding_next].
    rewrite queue_put. split_and!; try done; try lia; [by apply Hlive| |].
    + by apply put_queue_ok.
    + intros c' Hc'. rewrite put_queue_ne by done. by apply Hne.
  - cbn. unfold queue. rewrite E. cbn. split_and!; try done. unfold total, sum_Z; cbn. lia.
Qed.

Lemma live_sum_fifo q epoch : fifo q -> live_sum q epoch = total (drop_expired q epoch).
Proof. intros Hq. rewrite drop_expired_fifo by done. done. Qed.

Lemma filter_live q epoch : Forall (fun g => epoch < expires_at g) (filter (fun g => epoch < expires_at g) q).
Proof. apply list.Forall_forall. by intros g [? _]%list_elem_of_filter. Qed.

(** The window of a seeding grant. *)
Definition window_of (l : SubscriptionLedger) : Z := if seeding_window l =? 0 then 1 else seeding_window l.

Definition seed_amount (l : SubscriptionLedger) (c : key) (epoch : Z) : Z :=
  if (0 <? seeding_paid_tier l) && (default 0 (seeding_next l !! c) <=? epoch) then seeding_paid_tier l else 0.

Lemma seeded_total l c epoch : total (seeded l c epoch) = seed_amount l c epoch.
Proof. unfold seeded, seed_amount. case_match; unfold total, sum_Z; cbn; lia. Qed.

Lemma seeded_live l c epoch :
  0 <= epoch < U64_MAX -> 0 <= seeding_window l ->
  Forall (fun g => epoch < expires_at g) (seeded l c epoch).
Proof.
  intros He Hw. unfold seeded. destruct (_ && _); [|constructor]. apply Forall_singleton. cbn.
  destruct (Z.eqb_spec (seeding_window l) 0); unfold_int; lia.
Qed.

(** With grants in expiry order, [allocate] spends exactly the consumer's
    live entitlement: it rewards the requested bytes up to the unexpired bytes
    of the consumer's grants plus the seeding allowance this call is due, what
    is left over is exactly the difference, an expired byte is never spent, and
    no other consumer's entitlement changes. *)
Theorem allocate_spends_live_entitlement (l : SubscriptionLedger) (c : key) (bytes epoch : Z) :
  ledger_wf l -> fifo (queue (grants l) c) -> 0 <= bytes -> 0 <= epoch < U64_MAX -> 0 <= seeding_window l ->
  let '(used, l') := allocate l c bytes epoch in
  let entitled := live_sum (queue (grants l) c) epoch + seed_amount l c epoch in
  used = Z.min bytes entitled /\
  live_sum (queue (grants l') c) epoch = entitled - used /\
  ledger_wf l' /\ (forall c', c' <> c -> grants l' !! c' = grants l !! c').
Proof.
  intros Hwf Hf Hb He Hw. pose proof (allocate_queue l c bytes epoch Hwf Hb) as Ha. cbv zeta in Ha.
  destruct (allocate l c bytes epoch) as [used l']. destruct Ha as (Hu & Ht & Hl & Hwf' & Hne & _).
  rewrite total_app, seeded_total, <-live_sum_fifo in Hu, Ht by done. cbv zeta.
  assert (Forall (fun g => epoch < expires_at g) (queue (grants l') c)) as Hlive.
  { apply Hl, Forall_app. split; [|by apply seeded_live]. rewrite drop_expired_fifo by done. apply filter_live. }
  rewrite (live_sum_all (queue (grants l') c)) by done. split_and!; [lia|lia|done|done].
Qed.

(** A series of calls of one consumer. *)
Fixpoint allocate_all (l : SubscriptionLedger) (c : key) (calls : list (Z * Z)) : Z * SubscriptionLedger :=
  match calls with
  | [] => (0, l)
  | (bytes, epoch) :: calls' =>
      let '(u, l1) := allocate l c bytes epoch in
      let '(us, l2) := allocate_all l1 c calls' in (u + us, l2)
  end.

(** What the consumer can still be allocated before epoch [till]. *)
Definition potential (l : SubscriptionLedger) (c : key) (till : Z) : Z :=
  total (queue (grants l) c) +
  (if default 0 (seeding_next l !! c) <? till then seeding_paid_tier l else 0).

Lemma potential_nonneg l c till : ledger_wf l -> 0 <= seeding_paid_tier l -> 0 <= potential l c till.
Proof.
  intros Hwf Ht. unfold potential. pose proof (total_nonneg _ (queue_ok_of _ c Hwf)). case_match; lia.
Qed.

Lemma allocate_potential l c bytes epoch e :
  ledger_wf l -> 0 <= bytes -> 0 <= e <= epoch -> 0 <= seeding_window l -> 0 <= seeding_paid_tier l ->
  epoch < e + window_of l <= U64_MAX ->
  let '(used, l') := allocate l c bytes epoch in
  used + potential l' c (e + window_of l) <= potential l c (e + window_of l) /\ ledger_wf l' /\
  seeding_paid_tier l' = seeding_paid_tier l /\ seeding_window l' = seeding_window l.
Proof.
  intros Hwf Hb He Hw Ht Hend. pose proof (allocate_queue l c bytes epoch Hwf Hb) as Ha. cbv zeta in Ha.
  destruct (allocate l c bytes epoch) as [used l'].
  destruct Ha as (Hu & Htot & _ & Hwf' & _ & Htier & Hwin & Hnext). split_and!; try done.
  rewrite total_app, seeded_total in Hu, Htot.
  pose proof (drop_expired_total _ epoch (queue_ok_of _ c Hwf)).
  assert (default 0 (seeding_next l' !! c) =
    if (0 <? seeding_paid_tier l) && (default 0 (seeding_next l !! c) <=? epoch)
    then sat_add epoch (window_of l) else default 0 (seeding_next l !! c)) as Hn.
  { rewrite Hnext. by destruct (_ && _). }
  unfold potential. rewrite Hn, Htier, Htot. clear Htot Hnext Hn. revert Hu. unfold seed_amount.
  generalize (default 0 (seeding_next l !! c)) as n. intros n.
  assert (e + window_of l <= sat_add epoch (window_of l)) by (unfold sat_add; lia).
  generalize dependent (sat_add epoch (window_of l)). intros s Hs.
  destruct (Z.ltb_spec 0 (seeding_paid_tier l)); cbn [andb]; [destruct (Z.leb_spec n epoch)|].
  - destruct (Z.ltb_spec s (e + window_of l)); [lia|]. destruct (Z.ltb_spec n (e + window_of l)); lia.
  - destruct (_ <? _); lia.
  - destruct (_ <? _); lia.
Qed.

(** One seeding allowance per window.  However a consumer times and sizes
    its calls within one window, all that is allocated to it together is at
    most what its grants held before, plus one allowance: spending the
    allowance early, or in many small calls, earns no second one. *)
Theorem seeding_bounded_per_window (l : SubscriptionLedger) (c : key) (e : Z) (calls : list (Z * Z)) :
  ledger_wf l -> 0 <= e -> 0 <= seeding_window l -> 0 <= seeding_paid_tier l ->
  e + window_of l <= U64_MAX ->
  Forall (fun '(bytes, epoch) => 0 <= bytes /\ e <= epoch < e + window_of l) calls ->
  fst (allocate_all l c calls) <= total (queue (grants l) c) + seeding_paid_tier l.
Proof.
  intros Hwf He Hw Ht Hend Hcalls.
  enough (fst (allocate_all l c calls) <= potential l c (e + window_of l)) as Hp.
  { unfold potential in Hp. case_match; lia. }
  revert l Hwf Hw Ht Hend Hcalls. induction calls as [|[b ep] calls IH]; intros l Hwf Hw Ht Hend Hcalls;
    cbn [allocate_all fst]; [by apply potential_nonneg|].
  apply Forall_cons_iff in Hcalls as [[Hb Hep] Hcalls].
  pose proof (allocate_potential l c b ep e Hwf Hb ltac:(lia) Hw Ht ltac:(lia)) as Ha.
  destruct (allocate l c b ep) as [u l1]. destruct Ha as (Hu & Hwf1 & Ht1 & Hw1).
  assert (window_of l1 = window_of l) as Hwin by (unfold window_of; by rewrite Hw1).
  specialize (IH l1 Hwf1 ltac:(lia) ltac:(lia) ltac:(lia)). rewrite Hwin in IH. specialize (IH Hcalls).
  destruct (allocate_all l1 c calls) as [us l2]. cbn [fst] in *. lia.
Qed.

(** The bytes granted are never more than what was paid for. *)
Lemma purchased_bytes_le t b : 0 <= t -> 0 <= b -> purchased_bytes t b * ONE_TOKEN <= t * b.
Proof.
  intros Ht Hb. unfold purchased_bytes.
  pose proof (as_u64_le (Z.min (t * b) U128_MAX / ONE_TOKEN)
    ltac:(apply Z.div_pos; [unfold_int; lia|done])).
  pose proof (Z.mul_div_le (Z.min (t * b) U128_MAX) ONE_TOKEN ltac:(done)).
  unfold ONE_TOKEN in *. lia.
Qed.

(** Grants are not always in expiry order: with the node's initial
    [seeding_window] of 0 the seeding grant lives one epoch, behind a purchase
    that lives 100, and the next call spends the expired seeding grant. *)
Theorem allocate_spends_expired_grant :
  let c := key_of 1 in
  let l1 := purchase (set_seeding_paid_tier ledger_new 500 0) c ONE_TOKEN 10 0 100 in
  let '(_, l2) := allocate l1 c 0 0 in
  available l2 c 50 = 10 /\ fst (allocate (set_seeding_paid_tier l2 0 0) c 510 50) = 510.
Proof. vm_compute. auto. Qed.

(** ** Witnesses *)

Definition ex_sub : SubscriptionLedger :=
  mk_ledger {[ key_of 1 := [mk_grant 5 100; mk_grant 9 200] ]} 1000 10 ∅.

Lemma ex_sub_wf : ledger_wf ex_sub.
Proof.
  apply map_Forall_singleton. split; [done|]. constructor; [cbn; lia|]. constructor; [cbn; lia|constructor].
Qed.

Lemma allocate_spends_live_entitlement_witness :
  fst (allocate ex_sub (key_of 1) 1500 6) = 1200.
Proof.
  pose proof (allocate_spends_live_entitlement ex_sub (key_of 1) 1500 6 ex_sub_wf) as Hw.
  destruct (allocate ex_sub (key_of 1) 1500 6) as [u l']. cbn [fst].
  destruct Hw as [-> _].
  - vm_compute. repeat constructor; intros E; discriminate E.
  - lia.
  - unfold_int; lia.
  - cbn. lia.
  - reflexivity.
Defined.

Lemma seeding_bounded_per_window_witness :
  fst (allocate_all ex_sub (key_of 1) [(900, 6); (900, 7)]) <= 1300.
Proof.
  apply (seeding_bounded_per_window ex_sub (key_of 1) 6 [(900, 6); (900, 7)] ex_sub_wf).
  - lia.
  - cbn; lia.
  - cbn; lia.
  - vm_compute; discriminate.
  - constructor; [cbn; lia|]. constructor; [cbn; lia|constructor].
Defined.
