(* ===== verification/Reward.v ===== *)
(** The epoch valuation ([crates/reward/src/lib.rs]): the issuance schedule,
    the contribution-ratio shares, the canonical reward record, and the
    committed economic state with its hash. *)

From S2P Require Import Prelude Crypto.

Open Scope Z_scope.

Definition ONE_TOKEN : Z := 100000000.
Definition DEFAULT_ISSUANCE_TOKENS_PER_DAY : Z := ONE_TOKEN.
Definition DEFAULT_ISSUANCE_TOTAL_CAP : Z := 1000000 * ONE_TOKEN.
Definition CHECKPOINT_EVERY : Z := 32.

Record IssuanceParams := mk_issuance { tokens_per_day : Z; epochs_per_day : Z; total_cap : Z }.

Definition issuance_for (epoch cumulative_issued : Z) (has_contribution : bool) (params : IssuanceParams) : Z :=
  if negb has_contribution || (tokens_per_day params =? 0) || (epochs_per_day params =? 0) then 0
  else
    let r := tokens_per_day params in
    let e := epochs_per_day params in
    let scheduled := as_u64 (Z.max 0 ((epoch + 1) * r / e - epoch * r / e)) in
    let headroom := sat_sub (total_cap params) cumulative_issued in
    if scheduled <? headroom then scheduled else headroom.

Record Contribution := mk_contribution { provider : key; cbytes : Z; cumulative_bytes : Z }.

Record Entitlement := mk_entitlement { consumer : key; spent : Z; remaining : Z }.

Record Share := mk_share { sprovider : key; amount : Z; sbytes : Z; scumulative_bytes : Z }.

Notation ServedWatermark := ((key * key) * Z)%type.

Record EconomicSnapshot := mk_snapshot {
  spool : Z;
  minted : Z;
  paid_watermarks : list (key * Z);
  served_watermarks : list ServedWatermark;
  seeding_next : list (key * Z);
  claimed : list (Z * key)
}.

Record RewardInput := mk_input {
  iepoch : Z;
  ipool : Z;
  contributions : list Contribution;
  entitlements : list Entitlement;
  icumulative_issued : Z;
  issuance : IssuanceParams;
  paid_marks : list (key * Z);
  served_marks : list ServedWatermark;
  paid : Z;
  claim_payouts : Z;
  istate : EconomicSnapshot
}.

Record RewardRecord := mk_record {
  epoch : Z;
  pool : Z;
  shares : list Share;
  rentitlements : list Entitlement;
  issued : Z;
  checkpoint : option EconomicSnapshot;
  rpaid_marks : list (key * Z);
  rserved_marks : list ServedWatermark;
  committed_pool : Z;
  state_hash : key;
  cumulative_issued : Z
}.

Definition is_checkpoint (epoch : Z) : bool := epoch mod CHECKPOINT_EVERY =? 0.

(** ** The committed state *)

Definition STATE_DOMAIN : bytes := str_bytes "zeph.econ.v1".

(** [v.len() as u64] in little-endian bytes. *)
Definition len_bytes {A} (l : list A) : bytes := le_bytes 8 (Z.of_nat (length l)).

Definition mark_bytes (kv : key * Z) : bytes := kv.1 ++ le_bytes 8 kv.2.
Definition served_bytes (x : ServedWatermark) : bytes := x.1.1 ++ x.1.2 ++ le_bytes 8 x.2.
Definition claimed_bytes (ep : Z * key) : bytes := le_bytes 8 ep.1 ++ ep.2.

(** The bytes fed to the hasher. *)
Definition state_preimage (s : EconomicSnapshot) : bytes :=
  STATE_DOMAIN ++ le_bytes 8 (spool s) ++ le_bytes 8 (minted s) ++
  len_bytes (paid_watermarks s) ++ concat (map mark_bytes (paid_watermarks s)) ++
  len_bytes (served_watermarks s) ++ concat (map served_bytes (served_watermarks s)) ++
  len_bytes (seeding_next s) ++ concat (map mark_bytes (seeding_next s)) ++
  len_bytes (claimed s) ++ concat (map claimed_bytes (claimed s)).

Definition hash_of_state `{Blake3} (s : EconomicSnapshot) : key := blake3 (state_preimage s).

(** ** Record queries *)

(** [self.shares.iter().find(|s| &s.provider == provider)]. *)
Definition find_share (r : RewardRecord) (p : key) : option Share :=
  head (filter (fun s => sprovider s = p) (shares r)).
Definition find_entitlement (r : RewardRecord) (c : key) : option Entitlement :=
  head (filter (fun e => consumer e = c) (rentitlements r)).

Definition share_of (r : RewardRecord) (p : key) : Z := default 0 (amount <$> find_share r p).
Definition bytes_of (r : RewardRecord) (p : key) : Z := default 0 (sbytes <$> find_share r p).
Definition spent_by (r : RewardRecord) (c : key) : Z := default 0 (spent <$> find_entitlement r c).
Definition remaining_for (r : RewardRecord) (c : key) : option Z := remaining <$> find_entitlement r c.
Definition cumulative_bytes_of (r : RewardRecord) (p : key) : option Z :=
  scumulative_bytes <$> find_share r p.

(** [None] is the overflow panic of the sum of the shares. *)
Definition pool_remaining (r : RewardRecord) : option Z :=
  allocated ← checked_sum (map amount (shares r)); Some (sat_sub (pool r) allocated).

(** ** The computation *)

(** [v.sort_unstable()] on tuples and [v.dedup_by_key(|(k, _)| *k)], which
    keeps the first entry of each run. *)
Fixpoint dedup_from {A K} `{EqDecision K} (f : A -> K) (prev : K) (l : list A) : list A :=
  match l with
  | [] => []
  | x :: l' => if decide (f x = prev) then dedup_from f prev l' else x :: dedup_from f (f x) l'
  end.
Definition dedup_by_key {A K} `{EqDecision K} (f : A -> K) (l : list A) : list A :=
  match l with [] => [] | x :: l' => x :: dedup_from f (f x) l' end.

Definition canonical_marks (l : list (key * Z)) : list (key * Z) := dedup_by_key fst (sort l).
Definition canonical_served (l : list ServedWatermark) : list ServedWatermark := dedup_by_key fst (sort l).

(** Bytes sum across duplicate entries, cumulatives take the maximum. *)
Definition add_contribution (m : gmap key (Z * Z)) (c : Contribution) : gmap key (Z * Z) :=
  let '(b, cum) := default (0, 0) (m !! provider c) in
  <[provider c := (b + cbytes c, Z.max cum (cumulative_bytes c))]> m.

Definition by_provider (l : list Contribution) : gmap key (Z * Z) := foldl add_contribution ∅ l.

Definition add_entitlement (m : gmap key (Z * Z)) (e : Entitlement) : gmap key (Z * Z) :=
  let '(s, r) := default (0, 0) (m !! consumer e) in
  <[consumer e := (sat_add s (spent e), Z.max r (remaining e))]> m.

Definition by_consumer (l : list Entitlement) : gmap key (Z * Z) := foldl add_entitlement ∅ l.

(** Multiplication on u128: [None] is the overflow panic. *)
Definition checked_mul_u128 (a b : Z) : option Z := if a * b <=? U128_MAX then Some (a * b) else None.

Definition share_amount (distributable b total : Z) : option Z :=
  if total =? 0 then Some 0
  else p ← checked_mul_u128 distributable b; Some (as_u64 (p / total)).

Definition next_state (input : RewardInput) (issued : Z) : EconomicSnapshot :=
  let s := istate input in
  mk_snapshot
    (sat_sub (sat_add (sat_add (spool s) (paid input)) issued) (claim_payouts input))
    (sat_add (icumulative_issued input) issued)
    (canonical_marks (paid_watermarks s))
    (canonical_served (served_watermarks s))
    (canonical_marks (seeding_next s))
    (dedup (sort (claimed s))).

(** [compute].  The sums of contributed bytes are u128, which fewer than 2^64
    contributions cannot overflow; the product with the pool is checked. *)
Definition compute `{Blake3} (input : RewardInput) : option RewardRecord :=
  let providers := by_provider (contributions input) in
  let total := map_sum fst providers in
  let iss := issuance_for (ipool input) (icumulative_issued input) (0 <? total) (issuance input) in
  let distributable := sat_add (ipool input) iss in
  shares ← mapM (fun '(p, (b, cum)) =>
      a ← share_amount distributable b total; Some (mk_share p a (as_u64 b) cum))
    (btree_iter providers);
  let ents := map (fun '(c, (s, r)) => mk_entitlement c s r) (btree_iter (by_consumer (entitlements input))) in
  let state := next_state input iss in
  Some (mk_record (iepoch input) distributable shares ents iss
    (if is_checkpoint (iepoch input) then Some state else None)
    (canonical_marks (paid_marks input)) (canonical_served (served_marks input))
    (spool state) (hash_of_state state) (sat_add (icumulative_issued input) iss)).

Definition run_reward `{Blake3, Postcard RewardInput, Postcard RewardRecord} (input : bytes)
  : option (option bytes) :=
  match from_bytes input with
  | None => Some None
  | Some inp => r ← compute inp; Some (Some (to_allocvec r))
  end.

(** ** The issuance schedule *)

Definition params_ok (p : IssuanceParams) : Prop :=
  is_u64 (tokens_per_day p) /\ is_u64 (epochs_per_day p) /\ is_u64 (total_cap p).

Lemma issuance_bound ep cum has p :
  params_ok p -> 0 <= cum ->
  0 <= issuance_for ep cum has p <= Z.max 0 (total_cap p - cum).
Proof.
  intros (_ & _ & Hc) Hcum. unfold issuance_for. case_match; [lia|]. cbv zeta.
  pose proof (as_u64_range (Z.max 0 ((ep + 1) * tokens_per_day p / epochs_per_day p -
    ep * tokens_per_day p / epochs_per_day p))). unfold is_u64 in H0.
  destruct (Z.ltb_spec (as_u64 (Z.max 0 ((ep + 1) * tokens_per_day p / epochs_per_day p -
    ep * tokens_per_day p / epochs_per_day p))) (sat_sub (total_cap p) cum)); unfold sat_sub in *; lia.
Qed.

(** The sum of the scheduled amounts of [n] consecutive epochs. *)
Fixpoint issued_over (n : nat) (ep cum : Z) (p : IssuanceParams) : Z :=
  match n with
  | O => 0
  | S n' => issuance_for ep cum true p + issued_over n' (ep + 1) cum p
  end.

(** Below the cap, an epoch's issuance is the step of the cumulative schedule. *)
Lemma issuance_step ep cum p :
  params_ok p -> 0 <= ep -> tokens_per_day p <> 0 -> epochs_per_day p <> 0 ->
  tokens_per_day p < total_cap p - cum ->
  issuance_for ep cum true p =
    (ep + 1) * tokens_per_day p / epochs_per_day p - ep * tokens_per_day p / epochs_per_day p.
Proof.
  intros (Hr & He & _) Hep Hr0 He0 Hcap. unfold issuance_for. cbn [negb orb].
  destruct (Z.eqb_spec (tokens_per_day p) 0); [done|]. destruct (Z.eqb_spec (epochs_per_day p) 0); [done|].
  cbn [orb]. cbv zeta. set (r := tokens_per_day p) in *. set (e := epochs_per_day p) in *.
  assert (0 <= (ep + 1) * r / e - ep * r / e <= r) as Hs.
  { pose proof (Z.div_le_mono (ep * r) ((ep + 1) * r) e). unfold_int.
    split; [lia|].
    assert ((ep + 1) * r / e <= ep * r / e + r); [|lia].
    rewrite <-Z.div_add by lia. apply Z.div_le_mono; [lia|]. nia. }
  rewrite Z.max_r, as_u64_id by (unfold_int; lia).
  destruct (Z.ltb_spec ((ep + 1) * r / e - ep * r / e) (sat_sub (total_cap p) cum)); [done|].
  unfold_int; lia.
Qed.

Lemma issued_over_telescopes n ep cum p :
  params_ok p -> 0 <= ep -> tokens_per_day p <> 0 -> epochs_per_day p <> 0 ->
  tokens_per_day p < total_cap p - cum ->
  issued_over n ep cum p =
    (ep + Z.of_nat n) * tokens_per_day p / epochs_per_day p - ep * tokens_per_day p / epochs_per_day p.
Proof.
  intros Hp Hep Hr He Hcap; revert ep Hep. induction n as [|n IH]; intros ep Hep; cbn [issued_over].
  - replace (ep + Z.of_nat 0) with ep by lia. lia.
  - rewrite issuance_step, IH by (done || lia).
    replace (ep + 1 + Z.of_nat n) with (ep + Z.of_nat (S n)) by lia. lia.
Qed.

(** The issuance schedule is exact.  Over any day of [epochs_per_day]
    consecutive epochs, wherever it starts, the scheduled issuance adds up to
    exactly [tokens_per_day], although a single epoch's share may be less than
    one unit; and no call ever issues past the cap. *)
Theorem issuance_day_is_exact (p : IssuanceParams) (ep cum : Z) :
  params_ok p -> 0 <= ep -> 0 <= cum -> 0 < tokens_per_day p -> 0 < epochs_per_day p ->
  tokens_per_day p < total_cap p - cum ->
  issued_over (Z.to_nat (epochs_per_day p)) ep cum p = tokens_per_day p /\
  (forall e' c' has, 0 <= c' -> c' <= total_cap p ->
     0 <= issuance_for e' c' has p /\ c' + issuance_for e' c' has p <= total_cap p).
Proof.
  intros Hp Hep Hcum Hr He Hcap. split.
  - rewrite issued_over_telescopes by (done || lia). rewrite Z2Nat.id by lia.
    rewrite Z.mul_add_distr_r, (Z.mul_comm (epochs_per_day p)), Z.div_add by lia. lia.
  - intros e' c' has Hc Hle. pose proof (issuance_bound e' c' has p Hp Hc). lia.
Qed.

Lemma issuance_day_is_exact_witness :
  issued_over 288 1000 0 (mk_issuance 100 288 1000000) = 100.
Proof.
  refine (proj1 (issuance_day_is_exact (mk_issuance 100 288 1000000) 1000 0 _ _ _ _ _ _));
    unfold params_ok; cbn; unfold_int; lia.
Defined.

(** [compute] asks for the issuance of the epoch number [input.pool]: two
    inputs of the same epoch with different pools are issued different amounts,
    and the epoch itself has no influence. *)
Theorem compute_issuance_ignores_epoch `{Blake3} (input : RewardInput) (e' : Z) (r r' : RewardRecord) :
  compute input = Some r ->
  compute (mk_input e' (ipool input) (contributions input) (entitlements input) (icumulative_issued input)
    (issuance input) (paid_marks input) (served_marks input) (paid input) (claim_payouts input) (istate input)) = Some r' ->
  issued r' = issued r.
Proof.
  unfold compute. cbn [iepoch ipool contributions entitlements icumulative_issued issuance].
  intros (s & _ & [= <-])%bind_Some (s' & _ & [= <-])%bind_Some. done.
Qed.

(** ** Grouping by provider *)

(** All the bytes of a provider's contributions. *)
Definition contributed (l : list Contribution) (p : key) : Z :=
  sum_Z (map cbytes (filter (fun c => provider c = p) l)).

Definition total_bytes (l : list Contribution) : Z := sum_Z (map cbytes l).

Lemma by_provider_snoc l c : by_provider (l ++ [c]) = add_contribution (by_provider l) c.
Proof. unfold by_provider. by rewrite foldl_snoc. Qed.

Lemma by_provider_sum l : map_sum fst (by_provider l) = total_bytes l.
Proof.
  unfold total_bytes. induction l as [|c l IH] using rev_ind; [done|].
  rewrite by_provider_snoc, map_app, sum_Z_app, <-IH. unfold add_contribution.
  destruct (by_provider l !! provider c) as [[b cum]|] eqn:E; cbn [default from_option id].
  - rewrite (map_sum_update _ _ _ _ _ E). cbn. lia.
  - rewrite map_sum_insert_new by done. cbn. lia.
Qed.

Lemma by_provider_bytes l p : default 0 (fst <$> by_provider l !! p) = contributed l p.
Proof.
  unfold contributed. induction l as [|c l IH] using rev_ind; [done|].
  rewrite by_provider_snoc, list.filter_app, map_app, sum_Z_app, <-IH. unfold add_contribution.
  destruct (by_provider l !! provider c) as [[b cum]|] eqn:E; cbn [default from_option id];
    rewrite filter_cons, filter_nil; destruct (decide (provider c = p)) as [<-|Hne].
  - rewrite lookup_insert_eq, E. cbn. lia.
  - rewrite lookup_insert_ne by done. cbn. lia.
  - rewrite lookup_insert_eq, E. cbn. lia.
  - rewrite lookup_insert_ne by done. cbn. lia.
Qed.

Lemma by_provider_dom l p : is_Some (by_provider l !! p) <-> exists c, c ∈ l /\ provider c = p.
Proof.
  induction l as [|c l IH] using rev_ind.
  - unfold by_provider. cbn. rewrite lookup_empty. split; [by intros []|].
    by intros (c & ?%not_elem_of_nil & _).
  - rewrite by_provider_snoc. unfold add_contribution.
    destruct (default (0, 0) (by_provider l !! provider c)) as [b cum].
    destruct (decide (provider c = p)) as [<-|Hne].
    + rewrite lookup_insert_eq. split; [|by eexists]. intros _. exists c. set_solver.
    + rewrite lookup_insert_ne, IH by done. set_solver.
Qed.

Lemma contributed_le_total l p :
  Forall (fun c => 0 <= cbytes c) l -> 0 <= contributed l p <= total_bytes l.
Proof.
  unfold contributed, total_bytes, sum_Z. induction 1 as [|c l Hc Hl IH]; [cbn; lia|].
  rewrite filter_cons. destruct (decide _); cbn; lia.
Qed.

Lemma btree_bytes_sum l :
  sum_Z (map (fun x => x.2.1) (btree_iter (by_provider l))) = total_bytes l.
Proof.
  rewrite <-by_provider_sum, map_sum_list, map_map. apply sum_Z_perm.
  by rewrite btree_iter_perm.
Qed.

Section shares.
Context `{Blake3}.

(** The ranges of a decoded input. *)
Definition input_ok (i : RewardInput) : Prop :=
  is_u64 (ipool i) /\ 0 <= icumulative_issued i /\ params_ok (issuance i) /\
  Forall (fun c => is_u64 (cbytes c)) (contributions i) /\ total_bytes (contributions i) <= U64_MAX.

Lemma share_amount_spec D b T :
  is_u64 D -> 0 <= b <= T -> T <= U64_MAX -> 0 < T -> share_amount D b T = Some (D * b / T).
Proof.
  intros HD Hb HT Hpos. unfold share_amount. destruct (Z.eqb_spec T 0); [lia|].
  unfold checked_mul_u128.
  assert (D * b <= U64_MAX * U64_MAX) by (unfold_int; nia).
  destruct (Z.leb_spec (D * b) U128_MAX); [|unfold_int; lia]. cbn. f_equal.
  apply as_u64_id. unfold_int. split; [apply Z.div_pos; nia|].
  assert (D * b / T <= D); [|lia]. apply Z.div_le_upper_bound; nia.
Qed.

(** The share of one provider's row. *)
Definition row_share (D T : Z) (x : key * (Z * Z)) : Share :=
  let '(p, (b, cum)) := x in mk_share p (if T =? 0 then 0 else D * b / T) (as_u64 b) cum.

Lemma shares_mapM D T (l : list (key * (Z * Z))) :
  is_u64 D -> 0 <= T <= U64_MAX -> Forall (fun x => 0 <= x.2.1 <= T) l ->
  mapM (fun '(p, (b, cum)) =>
      a ← share_amount D b T; Some (mk_share p a (as_u64 b) cum)) l = Some (map (row_share D T) l).
Proof.
  intros HD HT. induction 1 as [|[p [b cum]] l Hb Hl IH]; [done|]. cbn.
  assert (share_amount D b T = Some (if T =? 0 then 0 else D * b / T)) as ->.
  { destruct (Z.eqb_spec T 0) as [->|Hne]; [done|]. apply share_amount_spec; cbn in *; (done || lia). }
  cbn. cbn in IH. by rewrite IH.
Qed.

(** The record [compute] returns, with its shares in closed form. *)
Lemma compute_record i :
  input_ok i ->
  let iss := issuance_for (ipool i) (icumulative_issued i) (0 <? total_bytes (contributions i)) (issuance i) in
  exists r, compute i = Some r /\ issued r = iss /\ pool r = sat_add (ipool i) iss /\
    is_u64 (pool r) /\
    shares r = map (row_share (pool r) (total_bytes (contributions i))) (btree_iter (by_provider (contributions i))).
Proof.
  intros (Hp & Hc & Hpar & Hcon & Htot) iss.
  assert (Forall (fun c => 0 <= cbytes c) (contributions i)) as Hnn
    by (revert Hcon; apply Forall_impl; unfold_int; lia).
  pose proof (issuance_bound (ipool i) _ (0 <? total_bytes (contributions i)) _ Hpar Hc) as Hiss.
  fold iss in Hiss.
  assert (is_u64 (sat_add (ipool i) iss)) as HD by (unfold_int; lia).
  pose proof (shares_mapM (sat_add (ipool i) iss) (total_bytes (contributions i))
    (btree_iter (by_provider (contributions i))) HD) as Hm.
  unfold compute. rewrite by_provider_sum. fold iss. eexists.
  rewrite Hm; [cbn; split_and!; done| |].
  - split; [apply sum_Z_nonneg, Forall_map, Hnn|done].
  - apply list.Forall_forall. intros [p [b cum]] Hx%elem_of_btree_iter. cbn.
    pose proof (by_provider_bytes (contributions i) p) as Hb. rewrite Hx in Hb. cbn in Hb. rewrite Hb.
    by apply contributed_le_total.
Qed.

Lemma find_share_row D T l p :
  NoDup (map fst l) ->
  head (filter (fun s => sprovider s = p) (map (row_share D T) l)) =
    (fun v => row_share D T (p, v)) <$> (list_to_map l : gmap key (Z * Z)) !! p.
Proof.
  induction l as [|[p' [b cum]] l IH]; intros Hnd; [done|].
  apply list.NoDup_cons in Hnd as [Hni Hnd]. cbn [map]. rewrite filter_cons, list_to_map_cons.
  cbn [row_share sprovider].
  destruct (decide (p' = p)) as [->|Hne]; [by rewrite lookup_insert_eq|].
  rewrite lookup_insert_ne by done. by apply IH.
Qed.

(** The amounts of the rows: floors of a proportional split. *)
Lemma row_amounts D T (L : list (key * (Z * Z))) :
  map amount (map (row_share D T) L) = map (fun b => if T =? 0 then 0 else D * b / T) (map (fun x => x.2.1) L).
Proof. rewrite !map_map. apply map_ext. by intros [p [b cum]]. Qed.

Lemma row_amounts_sum D T (L : list (key * (Z * Z))) :
  0 <= D -> 0 <= T -> Forall (fun b => 0 <= b) (map (fun x => x.2.1) L) ->
  sum_Z (map (fun x => x.2.1) L) = T ->
  let am := map amount (map (row_share D T) L) in
  Forall (fun x => 0 <= x) am /\ sum_Z am <= D /\ (0 < T -> D - sum_Z am < Z.of_nat (length L)).
Proof.
  intros HD HT HL HLT. cbv zeta. rewrite row_amounts. destruct (Z.eqb_spec T 0) as [E|E].
  - rewrite sum_Z_zeros. split_and!; [apply Forall_map, Forall_true; lia|done|lia].
  - pose proof (floor_split D T _ HD ltac:(lia) HL) as Hfs. cbv zeta in Hfs.
    rewrite length_map, HLT in Hfs.
    assert (0 < length L)%nat as Hlen by (destruct L; [cbn in HLT; lia|cbn; lia]).
    generalize dependent (sum_Z (map (fun b => D * b / T) (map (fun x => x.2.1) L))). intros s Hs.
    split_and!; [|nia|nia]. apply Forall_map. revert HL. apply Forall_impl. intros b Hb.
    apply Z.div_pos; [nia|lia].
Qed.

Lemma rows_nonneg cs :
  Forall (fun c => 0 <= cbytes c) cs ->
  Forall (fun b => 0 <= b) (map (fun x => x.2.1) (btree_iter (by_provider cs))).
Proof.
  intros Hnn. apply Forall_map, list.Forall_forall. intros [p [b cum]] Hx%elem_of_btree_iter. cbn.
  pose proof (by_provider_bytes cs p) as Hb. rewrite Hx in Hb. cbn in Hb. rewrite Hb.
  by apply contributed_le_total.
Qed.

Lemma share_of_row D T cs p :
  default 0 (amount <$> head (filter (fun s => sprovider s = p)
    (map (row_share D T) (btree_iter (by_provider cs))))) =
  if T =? 0 then 0 else D * contributed cs p / T.
Proof.
  rewrite find_share_row by apply NoDup_btree_keys.
  assert ((list_to_map (btree_iter (by_provider cs)) : gmap key (Z * Z)) = by_provider cs) as ->.
  { rewrite <-(list_to_map_to_list (by_provider cs)) at 2.
    apply list_to_map_proper; [apply NoDup_btree_keys|apply btree_iter_perm]. }
  rewrite <-by_provider_bytes. destruct (by_provider cs !! p) as [[b cum]|]; cbn; [done|].
  rewrite Z.mul_0_r, Zdiv_0_l. by destruct (T =? 0).
Qed.

Lemma pool_remaining_spec r :
  is_u64 (pool r) -> Forall (fun x => 0 <= x) (map amount (shares r)) ->
  sum_Z (map amount (shares r)) <= pool r ->
  pool_remaining r = Some (pool r - sum_Z (map amount (shares r))).
Proof.
  intros Hp Hnn Hle. unfold pool_remaining. rewrite checked_sum_spec by done.
  destruct (Z.leb_spec (sum_Z (map amount (shares r))) U64_MAX); [|unfold is_u64 in Hp; lia].
  cbn. by rewrite sat_sub_id.
Qed.

(** The epoch's shares divide the distributable pool.  For every decoded
    input whose bytes fit a u64, [compute] returns a record (no overflow): each
    provider's share is the pool times its contributed bytes over all bytes,
    rounded down; the shares never exceed the pool, and when anything was
    contributed the rounding leaves less than one base unit per provider, which
    is what [pool_remaining] reports. *)
Theorem compute_shares_divide_pool (i : RewardInput) :
  input_ok i ->
  exists r, compute i = Some r /\
    pool r = sat_add (ipool i) (issued r) /\
    (forall p, share_of r p =
       if total_bytes (contributions i) =? 0 then 0
       else pool r * contributed (contributions i) p / total_bytes (contributions i)) /\
    sum_Z (map amount (shares r)) <= pool r /\
    pool_remaining r = Some (pool r - sum_Z (map amount (shares r))) /\
    (0 < total_bytes (contributions i) ->
       pool r - sum_Z (map amount (shares r)) < Z.of_nat (length (shares r))).
Proof.
  intros Hi. destruct (compute_record i Hi) as (r & Hr & Hiss & Hpool & HD & Hsh). exists r.
  destruct Hi as (_ & _ & _ & Hcon & _). set (cs := contributions i) in *. clearbody cs.
  assert (Forall (fun c => 0 <= cbytes c) cs) as Hnn by (revert Hcon; apply Forall_impl; unfold is_u64; lia).
  destruct (row_amounts_sum (pool r) (total_bytes cs) (btree_iter (by_provider cs)))
    as (Ham & Hsum & Hdust); [unfold is_u64 in HD; lia| | |apply btree_bytes_sum|].
  { apply sum_Z_nonneg, Forall_map, Hnn. }
  { by apply rows_nonneg. }
  rewrite <-Hsh in Ham, Hsum, Hdust.
  split_and!; [exact Hr|by rewrite Hiss, Hpool| |exact Hsum|by apply pool_remaining_spec|].
  - intros p. unfold share_of, find_share. rewrite Hsh. apply share_of_row.
  - intros Hpos. rewrite Hsh, length_map. rewrite <-Hsh. by apply Hdust.
Qed.
End shares.

(** ** Canonical records *)

Lemma add_contribution_comm m a b :
  add_contribution (add_contribution m a) b = add_contribution (add_contribution m b) a.
Proof.
  unfold add_contribution. destruct (decide (provider a = provider b)) as [E|Hne].
  - rewrite E. destruct (default (0, 0) (m !! provider b)) as [s c].
    rewrite !lookup_insert_eq. cbn. rewrite !insert_insert_eq. do 2 f_equal; lia.
  - destruct (default (0, 0) (m !! provider a)) as [s c] eqn:Ea.
    destruct (default (0, 0) (m !! provider b)) as [s' c'] eqn:Eb.
    rewrite !lookup_insert_ne by congruence. rewrite Ea, Eb. by apply insert_insert_ne.
Qed.

Lemma sat_add_comm3 s a b : 0 <= a -> 0 <= b -> sat_add (sat_add s a) b = sat_add (sat_add s b) a.
Proof. unfold sat_add. lia. Qed.

Lemma add_entitlement_comm m a b :
  0 <= spent a -> 0 <= spent b ->
  add_entitlement (add_entitlement m a) b = add_entitlement (add_entitlement m b) a.
Proof.
  intros Ha Hb. unfold add_entitlement. destruct (decide (consumer a = consumer b)) as [E|Hne].
  - rewrite E. destruct (default (0, 0) (m !! consumer b)) as [s c].
    rewrite !lookup_insert_eq. cbn. rewrite !insert_insert_eq. f_equal. f_equal; [|lia].
    by apply sat_add_comm3.
  - destruct (default (0, 0) (m !! consumer a)) as [s c] eqn:Ea.
    destruct (default (0, 0) (m !! consumer b)) as [s' c'] eqn:Eb.
    rewrite !lookup_insert_ne by congruence. rewrite Ea, Eb. by apply insert_insert_ne.
Qed.

(** The same economic state with its collections listed in another order. *)
Definition same_snapshot (s t : EconomicSnapshot) : Prop :=
  spool s = spool t /\ minted s = minted t /\ paid_watermarks s ≡ₚ paid_watermarks t /\
  served_watermarks s ≡ₚ served_watermarks t /\ seeding_next s ≡ₚ seeding_next t /\ claimed s ≡ₚ claimed t.

(** The same input with its collections listed in another order. *)
Definition same_input (i j : RewardInput) : Prop :=
  iepoch i = iepoch j /\ ipool i = ipool j /\ contributions i ≡ₚ contributions j /\
  entitlements i ≡ₚ entitlements j /\ icumulative_issued i = icumulative_issued j /\
  issuance i = issuance j /\ paid_marks i ≡ₚ paid_marks j /\ served_marks i ≡ₚ served_marks j /\
  paid i = paid j /\ claim_payouts i = claim_payouts j /\ same_snapshot (istate i) (istate j).

Lemma next_state_same i j iss : same_input i j -> next_state i iss = next_state j iss.
Proof.
  intros (_ & _ & _ & _ & Hcum & _ & _ & _ & Hpaid & Hcl & Hs).
  destruct Hs as (Hp & _ & Hpw & Hsw & Hsn & Hcd). unfold next_state, canonical_marks, canonical_served.
  by rewrite Hp, Hcum, Hpaid, Hcl, (sort_canonical _ _ Hpw), (sort_canonical _ _ Hsw),
    (sort_canonical _ _ Hsn), (sort_canonical _ _ Hcd).
Qed.

(** The record is canonical: two nodes that hold the same contributions,
    entitlements, watermarks and state, collected in whatever order, compute
    the identical record, state hash included, and so sign the same bytes. *)
Theorem compute_is_canonical `{Blake3} (i j : RewardInput) :
  Forall (fun e => is_u64 (spent e)) (entitlements i) -> same_input i j -> compute i = compute j.
Proof.
  intros He Hij. pose proof (fun iss => next_state_same i j iss Hij) as Hns.
  assert (by_consumer (entitlements i) = by_consumer (entitlements j)) as Hbc.
  { apply foldl_perm; [|apply Hij]. rewrite list.Forall_forall in He. intros m a b Ha Hb.
    apply add_entitlement_comm; [by apply He|by apply He]. }
  assert (by_provider (contributions i) = by_provider (contributions j)) as Hbp.
  { apply foldl_perm; [|apply Hij]. intros m a b _ _. apply add_contribution_comm. }
  unfold compute. rewrite Hbp, Hbc, Hns.
  destruct Hij as (-> & -> & _ & _ & -> & -> & Hpm & Hsm & _).
  unfold canonical_marks, canonical_served. by rewrite (sort_canonical _ _ Hpm), (sort_canonical _ _ Hsm).
Qed.

(** ** What the state hash commits to *)

(** Every key is 32 bytes and every number a u64. *)
Definition mark_ok (x : key * Z) : Prop := length x.1 = 32%nat /\ is_u64 x.2.
Definition served_ok (x : ServedWatermark) : Prop :=
  length x.1.1 = 32%nat /\ length x.1.2 = 32%nat /\ is_u64 x.2.
Definition claim_ok (x : Z * key) : Prop := is_u64 x.1 /\ length x.2 = 32%nat.

Definition snapshot_ok (s : EconomicSnapshot) : Prop :=
  is_u64 (spool s) /\ is_u64 (minted s) /\
  Forall mark_ok (paid_watermarks s) /\ Forall mark_ok (seeding_next s) /\
  Forall served_ok (served_watermarks s) /\ Forall claim_ok (claimed s) /\
  Z.of_nat (length (paid_watermarks s)) <= U64_MAX /\ Z.of_nat (length (served_watermarks s)) <= U64_MAX /\
  Z.of_nat (length (seeding_next s)) <= U64_MAX /\ Z.of_nat (length (claimed s)) <= U64_MAX.

(** A length-prefixed section of fixed-width rows determines its rows and
    what follows it. *)
Lemma section_inj {A} (f : A -> bytes) (ok : A -> Prop) (n : nat) (l k : list A) r r' :
  (forall x, ok x -> length (f x) = n) -> (forall x y, ok x -> ok y -> f x = f y -> x = y) ->
  Forall ok l -> Forall ok k -> Z.of_nat (length l) <= U64_MAX -> Z.of_nat (length k) <= U64_MAX ->
  len_bytes l ++ concat (map f l) ++ r = len_bytes k ++ concat (map f k) ++ r' -> l = k /\ r = r'.
Proof.
  intros Hn Hinj Hl Hk Hll Hlk E. unfold len_bytes in E.
  apply app_inj_length in E as [E1 E2]; [|by rewrite !le_bytes_length].
  apply le_bytes8_inj in E1; [|unfold is_u64; lia..]. apply Nat2Z.inj in E1.
  clear Hll Hlk. revert k Hk E1 E2. induction Hl as [|x l Hx Hl IH]; intros [|y k] Hk E1 E2; try done.
  apply Forall_cons_iff in Hk as [Hy Hk]. cbn in E2. rewrite <-!app_assoc in E2.
  apply app_inj_length in E2 as [Exy E2]; [|by rewrite !Hn]. apply Hinj in Exy; [|done..]. subst.
  injection E1 as E1. destruct (IH k Hk E1 E2) as [-> ->]. done.
Qed.

Lemma mark_bytes_length x : mark_ok x -> length (mark_bytes x) = 40%nat.
Proof. intros [Hx _]. unfold mark_bytes. rewrite length_app, le_bytes_length, Hx. done. Qed.

Lemma served_bytes_length x : served_ok x -> length (served_bytes x) = 72%nat.
Proof. intros (Hx & Hy & _). unfold served_bytes. rewrite !length_app, le_bytes_length, Hx, Hy. done. Qed.

Lemma claimed_bytes_length x : claim_ok x -> length (claimed_bytes x) = 40%nat.
Proof. intros [_ Hx]. unfold claimed_bytes. rewrite length_app, le_bytes_length, Hx. done. Qed.

Lemma mark_bytes_inj (x y : key * Z) :
  mark_ok x -> mark_ok y -> mark_bytes x = mark_bytes y -> x = y.
Proof.
  destruct x, y. unfold mark_ok, mark_bytes. cbn [fst snd]. intros [] [] E.
  apply app_inj_length in E as [-> E]; [|congruence]. apply le_bytes8_inj in E; [by subst|done..].
Qed.

Lemma served_bytes_inj (x y : ServedWatermark) :
  served_ok x -> served_ok y -> served_bytes x = served_bytes y -> x = y.
Proof.
  destruct x as [[]], y as [[]]. unfold served_ok, served_bytes. cbn [fst snd]. intros (?&?&?) (?&?&?) E.
  apply app_inj_length in E as [-> E]; [|congruence]. apply app_inj_length in E as [-> E]; [|congruence].
  apply le_bytes8_inj in E; [by subst|done..].
Qed.

Lemma claimed_bytes_inj (x y : Z * key) :
  claim_ok x -> claim_ok y -> claimed_bytes x = claimed_bytes y -> x = y.
Proof.
  destruct x, y. unfold claim_ok, claimed_bytes. cbn [fst snd]. intros [] [] E.
  apply app_inj_length in E as [E ->]; [|by rewrite !le_bytes_length].
  apply le_bytes8_inj in E; [by subst|done..].
Qed.

(** The committed state hash binds the whole economic state: unless BLAKE3
    collides, a snapshot that hashes to a record's [state_hash] is that
    record's state, pool, supply, every watermark, every seeding entry and
    every claim included (the sections are length-prefixed, so no entry can
    move from one to another). *)
Theorem state_hash_binds_state `{Blake3} (s t : EconomicSnapshot) :
  snapshot_ok s -> snapshot_ok t ->
  (blake3 (state_preimage s) = blake3 (state_preimage t) -> state_preimage s = state_preimage t) ->
  hash_of_state s = hash_of_state t -> s = t.
Proof.
  intros (Hp & Hm & Hpw & Hsn & Hsw & Hcl & L1 & L2 & L3 & L4)
    (Hp' & Hm' & Hpw' & Hsn' & Hsw' & Hcl' & L1' & L2' & L3' & L4') Hcr E%Hcr. clear Hcr.
  unfold state_preimage in E.
  apply app_inj_length in E as [_ E]; [|done].
  apply app_inj_length in E as [E1 E]; [|by rewrite !le_bytes_length].
  apply app_inj_length in E as [E2 E]; [|by rewrite !le_bytes_length].
  apply le_bytes8_inj in E1; [|done..]. apply le_bytes8_inj in E2; [|done..].
  apply (section_inj mark_bytes mark_ok 40) in E as [E3 E];
    [|exact mark_bytes_length|exact mark_bytes_inj|done..].
  apply (section_inj served_bytes served_ok 72) in E as [E4 E];
    [|exact served_bytes_length|exact served_bytes_inj|done..].
  apply (section_inj mark_bytes mark_ok 40) in E as [E5 E];
    [|exact mark_bytes_length|exact mark_bytes_inj|done..].
  rewrite <-(app_nil_r (concat (map claimed_bytes (claimed s)))),
    <-(app_nil_r (concat (map claimed_bytes (claimed t)))) in E.
  apply (section_inj claimed_bytes claim_ok 40) in E as [E6 _];
    [|exact claimed_bytes_length|exact claimed_bytes_inj|done..].
  destruct s, t. cbn in *. congruence.
Qed.

(** ** Witnesses *)

Definition ex_state : EconomicSnapshot := mk_snapshot 40 7 [(key_of 3, 9)] [((key_of 1, key_of 2), 5)] [] [(4, key_of 1)].

Definition ex_input : RewardInput :=
  mk_input 32 1000 [mk_contribution (key_of 1) 10 10; mk_contribution (key_of 2) 20 25; mk_contribution (key_of 1) 5 15]
    [mk_entitlement (key_of 9) 35 0] 7 (mk_issuance 0 0 0) [] [] 1000 0 ex_state.

Lemma ex_input_ok : input_ok ex_input.
Proof.
  unfold input_ok, params_ok, ex_input. cbn. split_and!; try (unfold_int; lia).
  - repeat (apply Forall_cons_iff; split; [cbn; unfold_int; lia|]). constructor.
Qed.

Lemma compute_shares_divide_pool_witness :
  exists r, @compute toy_blake3 ex_input = Some r /\ share_of r (key_of 1) = 428 /\ share_of r (key_of 2) = 571.
Proof.
  destruct (@compute_shares_divide_pool toy_blake3 ex_input ex_input_ok) as (r & Hr & Hp & Hs & _).
  exists r. split; [exact Hr|]. rewrite !Hs.
  assert (pool r = 1000) as ->; [|split; reflexivity].
  rewrite Hp. assert (issued r = 0) as ->; [|reflexivity].
  apply (f_equal (fmap issued)) in Hr. vm_compute in Hr. by injection Hr.
Defined.

Lemma compute_is_canonical_witness :
  @compute toy_blake3 ex_input = @compute toy_blake3
    (mk_input 32 1000 [mk_contribution (key_of 2) 20 25; mk_contribution (key_of 1) 10 10; mk_contribution (key_of 1) 5 15]
      [mk_entitlement (key_of 9) 35 0] 7 (mk_issuance 0 0 0) [] [] 1000 0 ex_state).
Proof.
  apply (@compute_is_canonical toy_blake3 ex_input).
  - apply Forall_singleton. cbn. unfold_int; lia.
  - unfold same_input, same_snapshot. cbn. split_and!; try done. apply Permutation_swap.
Defined.

Lemma state_hash_binds_state_witness : ex_state = ex_state.
Proof.
  assert (snapshot_ok ex_state) as Hok.
  { unfold snapshot_ok, ex_state. cbn [spool minted paid_watermarks served_watermarks seeding_next claimed length].
    split_and!; try (unfold_int; lia); try (apply Forall_singleton; repeat split; cbn; unfold_int; lia). constructor. }
  apply (@state_hash_binds_state toy_blake3 ex_state ex_state Hok Hok); [intros _; reflexivity|reflexivity].
Defined.
