(* ===== verification/Epoch.v ===== *)
(** Epoch arithmetic ([crates/noded/src/epoch.rs]) and the rotating epoch
    committee ([crates/noded/src/epoch_committee.rs]). *)

From S2P Require Import Prelude Crypto Attestation.

Open Scope Z_scope.

Definition EPOCH_MILLIS : Z := 300000.

Definition epoch_at (now_millis : Z) : Z := now_millis / EPOCH_MILLIS.

(** [epochs_in(d)], [d] in milliseconds ([d.as_millis() as u64]). *)
Definition epochs_in (d_millis : Z) : Z :=
  let n := div_ceil (as_u64 d_millis) EPOCH_MILLIS in
  if n =? 0 then 1 else n.

Lemma epochs_in_pos d : 1 <= epochs_in d.
Proof.
  unfold epochs_in, div_ceil, EPOCH_MILLIS. pose proof (as_u64_range d) as Hr. unfold is_u64 in Hr.
  pose proof (Z.div_pos (as_u64 d) 300000 ltac:(lia) ltac:(lia)).
  destruct (Z.eqb_spec (as_u64 d mod 300000) 0); cbv zeta; case_match; lia.
Qed.

(** Enough epochs to cover the duration, and no more than one too many. *)
Lemma epochs_in_covers d : is_u64 d -> 0 < d ->
  d <= epochs_in d * EPOCH_MILLIS < d + EPOCH_MILLIS.
Proof.
  intros Hd Hpos. unfold epochs_in, div_ceil, EPOCH_MILLIS. rewrite as_u64_id by done.
  pose proof (Z.div_mod d 300000 ltac:(lia)). pose proof (Z.mod_pos_bound d 300000 ltac:(lia)).
  destruct (Z.eqb_spec (d mod 300000) 0); cbv zeta; case_match; lia.
Qed.

(** ** The committee *)

Definition N_DEFAULT : Z := 4.
Definition K_DEFAULT : Z := 3.
Definition COMMITTEE_TAG : bytes := str_bytes "craftec/epoch-committee/1".

(** [eligible()]: this node and the census, without itself. *)
Definition eligible (self_id : key) (census : list key) : list key :=
  self_id :: filter (fun n => n <> self_id) census.

Section committee.
Context `{Blake3}.

(** The draw of a node for a program and an epoch. *)
Definition lot (program_cid : key) (epoch : Z) (id : key) : key :=
  Cid_of (COMMITTEE_TAG ++ program_cid ++ le_bytes 8 epoch ++ id).

Definition committee_for (program_cid : key) (epoch : Z) (eligible : list key) : option Quorum :=
  match eligible with
  | [] => None
  | _ =>
      let ids := sort_by (le_on (lot program_cid epoch)) eligible in
      let n := Z.max (Z.min N_DEFAULT (Z.of_nat (length ids))) 1 in
      let ids := take (Z.to_nat n) ids in
      let k := Z.max (Z.min K_DEFAULT n) (n / 2 + 1) in
      Some (genesis ids k)
  end.

Lemma dedup_length {A} `{EqDecision A} (l : list A) : (length (dedup l) <= length l)%nat.
Proof.
  induction l as [|x l IH]; [done|]. cbn. destruct l as [|y l]; [done|].
  destruct (decide (x = y)); cbn in *; lia.
Qed.

Lemma dedup_NoDup_length {A} `{OrdLaws A, !EqDecision A} (l : list A) :
  NoDup l -> length (dedup (sort l)) = length l.
Proof.
  intros Hl. apply Permutation_length. apply NoDup_Permutation; [|done|].
  - apply ascending_NoDup, dedup_ascending, sort_sorted.
  - intros x. by rewrite elem_of_dedup, sort_perm.
Qed.

Lemma dedup_sort_nonempty {A} `{OrdLaws A, !EqDecision A} (l : list A) :
  l <> [] -> (1 <= length (dedup (sort l)))%nat.
Proof.
  destruct l as [|x l]; [done|]. intros _.
  assert (x ∈ dedup (sort (x :: l))) as Hx by (rewrite elem_of_dedup, sort_perm; left).
  destruct (dedup (sort (x :: l))); [by apply not_elem_of_nil in Hx|cbn; lia].
Qed.

(** Every epoch committee is safe to sequence under.  For any non-empty
    eligible set the draw succeeds; its members are eligible nodes, sorted and
    distinct; the quorum is intersection-sized (2k > n), so its commits cannot
    fork; with four or more distinct eligible nodes it is a 3-of-4 quorum that
    tolerates one equivocating member; and two nodes that list the same
    eligible set in different orders draw the same committee, unless BLAKE3
    gives two of them the same lot. *)
Theorem committee_is_intersection_sized (program_cid : key) (ep : Z) (el : list key) :
  el <> [] ->
  exists q, committee_for program_cid ep el = Some q /\ quorum_wf q /\
    is_intersection_sized q = true /\ (forall m, m ∈ members q -> m ∈ el) /\
    (NoDup el -> (4 <= length el)%nat -> n_members q = 4 /\ threshold q = 3 /\ byzantine_tolerance q = 1) /\
    (forall el', el ≡ₚ el' ->
       (forall x y, x ∈ el -> y ∈ el -> lot program_cid ep x = lot program_cid ep y -> x = y) ->
       committee_for program_cid ep el' = Some q).
Proof.
  intros Hne. unfold committee_for.
  assert (forall {B} (a b : B), match el with [] => a | _ => b end = b) as Hel by by destruct el.
  rewrite Hel. eexists. split; [done|]. clear Hel.
  set (ids := sort_by (le_on (lot program_cid ep)) el).
  assert (length ids = length el) as Hlen by apply sort_by_length.
  assert (1 <= length el)%nat as Hpos by (destruct el; [done|cbn; lia]).
  rewrite Hlen. set (n := Z.max (Z.min N_DEFAULT (Z.of_nat (length el))) 1).
  assert (1 <= n <= 4 /\ n <= Z.of_nat (length el)) as [Hn Hnl] by (unfold n, N_DEFAULT; lia).
  set (tk := take (Z.to_nat n) ids).
  assert (length tk = Z.to_nat n) as Htk by (unfold tk; rewrite length_take; lia).
  assert (tk <> []) as Htne by (intros E; rewrite E in Htk; cbn in Htk; lia).
  split_and!.
  - apply genesis_wf.
  - unfold is_intersection_sized, genesis, n_members, clamp. cbn [members threshold].
    pose proof (dedup_sort_nonempty tk Htne). pose proof (dedup_length (sort tk)) as Hd.
    rewrite (Permutation_length (sort_perm tk)), Htk in Hd. apply Z.ltb_lt.
    pose proof (Z.div_mod n 2 ltac:(lia)). pose proof (Z.mod_pos_bound n 2 ltac:(lia)). unfold K_DEFAULT. lia.
  - intros m Hm%genesis_members. unfold tk in Hm. apply elem_of_take in Hm as (i & Hi & _).
    apply list_elem_of_lookup_2 in Hi. unfold ids in Hi. by rewrite elem_of_sort_by in Hi.
  - intros Hnd H4. assert (n = 4) as E by (unfold n, N_DEFAULT; lia).
    assert (NoDup tk) as Hndt.
    { unfold tk. apply sublist_NoDup with ids; [|apply sublist_take]. unfold ids. by rewrite sort_by_perm. }
    unfold byzantine_tolerance, genesis, n_members, clamp. cbn [members threshold].
    rewrite dedup_NoDup_length, Htk, E by done. done.
  - intros el' Hp Hinj. destruct el' as [|x el']; [by apply Permutation_nil_r in Hp|].
    rewrite <-(sort_by_key_canonical _ el (x :: el') Hp Hinj). fold ids.
    by rewrite Hlen.
Qed.
End committee.

Lemma committee_is_intersection_sized_witness :
  exists q, @committee_for toy_blake3 (key_of 0) 7 [key_of 1; key_of 2; key_of 3; key_of 4; key_of 5] = Some q /\
    byzantine_tolerance q = 1.
Proof.
  destruct (@committee_is_intersection_sized toy_blake3 (key_of 0) 7
    [key_of 1; key_of 2; key_of 3; key_of 4; key_of 5] ltac:(discriminate)) as (q & Hq & _ & _ & _ & H4 & _).
  exists q. split; [exact Hq|]. apply H4; [|cbn; lia].
  apply (bool_decide_eq_true_1 _). vm_compute. reflexivity.
Defined.
