(* ===== verification/Settlement.v ===== *)
(** Epoch settlement ([crates/noded/src/settlement.rs]): the store of settled
    records, claims and watermarks, the settling of an epoch from cheques, and
    the adoption of canonical records. *)

From S2P Require Import Prelude Crypto Attestation Token Subscription Reward Epoch.

Open Scope Z_scope.

Definition CLAIM_WINDOW_EPOCHS : Z := 8.

(** [DEFAULT_WINDOW], 30 days, and a day, in milliseconds. *)
Definition DEFAULT_WINDOW_MILLIS : Z := 30 * 24 * 3600 * 1000.
Definition epochs_per_day : Z := Z.max (epochs_in (24 * 3600 * 1000)) 1.

Record SettlementStore := mk_sstore {
  protocol : ProtocolState;
  records : gmap Z RewardRecord;
  claims : gset (Z * key);
  paid_watermark : gmap key Z;
  served_pair_wm : gmap (key * key) Z;
  subs : SubscriptionLedger;
  bytes_per_token : Z;
  window_epochs : Z;
  rewardable : gmap key Z;
  pending_payouts : Z;
  pending_paid : Z;
  pending_paid_marks : gmap key Z;
  pending_served_marks : gmap (key * key) Z;
  committed : EconomicSnapshot;
  issuance_tokens_per_day : Z
}.

Definition sstore_new : SettlementStore :=
  mk_sstore (mk_proto (mk_supply 0 DEFAULT_ISSUANCE_TOTAL_CAP) 0) ∅ ∅ ∅ ∅ ledger_new
    DEFAULT_BYTES_PER_TOKEN (epochs_in DEFAULT_WINDOW_MILLIS) ∅ 0 0 ∅ ∅
    (mk_snapshot 0 0 [] [] [] []) DEFAULT_ISSUANCE_TOKENS_PER_DAY.

(** Field updates. *)
Definition with_protocol (s : SettlementStore) p := mk_sstore p (records s) (claims s) (paid_watermark s)
  (served_pair_wm s) (subs s) (bytes_per_token s) (window_epochs s) (rewardable s) (pending_payouts s)
  (pending_paid s) (pending_paid_marks s) (pending_served_marks s) (committed s) (issuance_tokens_per_day s).
Definition with_records (s : SettlementStore) r c := mk_sstore (protocol s) r c (paid_watermark s)
  (served_pair_wm s) (subs s) (bytes_per_token s) (window_epochs s) (rewardable s) (pending_payouts s)
  (pending_paid s) (pending_paid_marks s) (pending_served_marks s) (committed s) (issuance_tokens_per_day s).
Definition with_marks (s : SettlementStore) pw sw := mk_sstore (protocol s) (records s) (claims s) pw sw
  (subs s) (bytes_per_token s) (window_epochs s) (rewardable s) (pending_payouts s)
  (pending_paid s) (pending_paid_marks s) (pending_served_marks s) (committed s) (issuance_tokens_per_day s).
Definition with_subs (s : SettlementStore) su := mk_sstore (protocol s) (records s) (claims s) (paid_watermark s)
  (served_pair_wm s) su (bytes_per_token s) (window_epochs s) (rewardable s) (pending_payouts s)
  (pending_paid s) (pending_paid_marks s) (pending_served_marks s) (committed s) (issuance_tokens_per_day s).
Definition with_rewardable (s : SettlementStore) rw := mk_sstore (protocol s) (records s) (claims s) (paid_watermark s)
  (served_pair_wm s) (subs s) (bytes_per_token s) (window_epochs s) rw (pending_payouts s)
  (pending_paid s) (pending_paid_marks s) (pending_served_marks s) (committed s) (issuance_tokens_per_day s).
Definition with_pending (s : SettlementStore) po pa pm sm := mk_sstore (protocol s) (records s) (claims s)
  (paid_watermark s) (served_pair_wm s) (subs s) (bytes_per_token s) (window_epochs s) (rewardable s) po pa pm sm
  (committed s) (issuance_tokens_per_day s).
Definition with_committed (s : SettlementStore) c := mk_sstore (protocol s) (records s) (claims s) (paid_watermark s)
  (served_pair_wm s) (subs s) (bytes_per_token s) (window_epochs s) (rewardable s) (pending_payouts s)
  (pending_paid s) (pending_paid_marks s) (pending_served_marks s) c (issuance_tokens_per_day s).
Definition with_params (s : SettlementStore) bpt w iss := mk_sstore (protocol s) (records s) (claims s) (paid_watermark s)
  (served_pair_wm s) (subs s) bpt w (rewardable s) (pending_payouts s)
  (pending_paid s) (pending_paid_marks s) (pending_served_marks s) (committed s) iss.

(** ** Governed parameters *)

Definition set_bytes_per_token (s : SettlementStore) (b : Z) : SettlementStore :=
  with_params s b (window_epochs s) (issuance_tokens_per_day s).
Definition set_window (s : SettlementStore) (window_millis : Z) : SettlementStore :=
  with_params s (bytes_per_token s) (epochs_in window_millis) (issuance_tokens_per_day s).
Definition set_seeding_tier (s : SettlementStore) (b : Z) : SettlementStore :=
  with_subs s (set_seeding_paid_tier (subs s) b (window_epochs s)).
Definition set_issuance (s : SettlementStore) (tokens_per_day total_cap : Z) : SettlementStore :=
  let s := with_params s (bytes_per_token s) (window_epochs s) tokens_per_day in
  with_protocol s (mk_proto (set_cap (supply (protocol s)) total_cap) (Token.pool (protocol s))).

(** ** Snapshots *)

Definition snapshot (s : SettlementStore) : EconomicSnapshot :=
  mk_snapshot (Token.pool (protocol s)) (total_supply (supply (protocol s)))
    (btree_iter (paid_watermark s)) (btree_iter (served_pair_wm s))
    (seeding_eligibility (subs s)) (bset_iter (claims s)).

Definition restore (s : SettlementStore) (snap : EconomicSnapshot) : SettlementStore :=
  let p := mk_proto (mk_supply (Z.max (total_supply (supply (protocol s))) (Reward.minted snap))
                               (cap (supply (protocol s)))) (spool snap) in
  let s := with_protocol s p in
  (* [iter().copied().collect()]: a later pair of the same key wins *)
  let s := with_marks s (foldl (fun m '(k, v) => <[k := v]> m) ∅ (paid_watermarks snap))
                        (foldl (fun m '(k, v) => <[k := v]> m) ∅ (served_watermarks snap)) in
  let s := with_subs s (restore_seeding_eligibility (subs s) (Reward.seeding_next snap)) in
  with_records s (records s) (list_to_set (Reward.claimed snap)).

(** The monotone merge of carried watermarks. *)
Definition merge_marks {K} `{Countable K} (m : gmap K Z) (l : list (K * Z)) : gmap K Z :=
  foldl (fun m '(k, mark) => <[k := Z.max (default 0 (m !! k)) mark]> m) m l.

Definition adopt_canonical (s : SettlementStore) (rec : RewardRecord) : SettlementStore :=
  let p := set_pool (protocol s) (committed_pool rec) in
  let s := with_protocol s (mk_proto (observe_minted (supply p) (Reward.cumulative_issued rec)) (Token.pool p)) in
  match checkpoint rec with
  | Some full =>
      let s := with_committed (restore s full) full in
      with_records s (<[Reward.epoch rec := rec]> (records s)) (claims s)
  | None =>
      let s := with_marks s (merge_marks (paid_watermark s) (rpaid_marks rec))
                            (merge_marks (served_pair_wm s) (rserved_marks rec)) in
      let s := with_committed s (snapshot s) in
      with_records s (<[Reward.epoch rec := rec]> (records s)) (claims s)
  end.

(** ** The pool *)

Definition pay_in (s : SettlementStore) (amount : Z) : SettlementStore :=
  with_pending s (pending_payouts s) (sat_add (pending_paid s) amount) (pending_paid_marks s) (pending_served_marks s).

(** The unclaimed shares of a record. *)
Definition unclaimed (cl : gset (Z * key)) (e : Z) (rec : RewardRecord) : list Z :=
  map Reward.amount (filter (fun sh => (e, sprovider sh) ∉ cl) (shares rec)).

Definition owed_outstanding (s : SettlementStore) : Z :=
  sat_sum (concat (map (fun '(e, rec) => unclaimed (claims s) e rec) (btree_iter (records s)))).

Definition pool_total (s : SettlementStore) : Z := Token.pool (protocol s).

Definition unallocated (s : SettlementStore) : Z :=
  sat_sub (sat_add (Token.pool (protocol s)) (pending_paid s)) (owed_outstanding s).

(** [expire]: drop the records before the claim window, and their claims. *)
Definition expire (s : SettlementStore) (now_epoch : Z) : SettlementStore :=
  let cutoff := sat_sub now_epoch CLAIM_WINDOW_EPOCHS in
  let stale := filter (fun e => e < cutoff) (map fst (btree_iter (records s))) in
  let '(recs, cl) :=
    foldl (fun '(recs, cl) e => (delete e recs, filter (fun x => x.1 <> e) cl))
      (records s, claims s) stale in
  with_records s recs cl.

(** ** Settling *)

Definition settle_input (s : SettlementStore) (epoch : Z) (contributions : list Contribution)
    (entitlements : list Entitlement) : RewardInput :=
  mk_input epoch (unallocated s) contributions entitlements (total_supply (supply (protocol s)))
    (mk_issuance (issuance_tokens_per_day s) epochs_per_day (cap (supply (protocol s))))
    (btree_iter (pending_paid_marks s)) (btree_iter (pending_served_marks s))
    (pending_paid s) (pending_payouts s) (snapshot s).

Section settle.
Context `{Blake3}.

(** [None] is a panic of [compute]. *)
Definition settle_epoch (s : SettlementStore) (epoch : Z) (contributions : list Contribution)
    (entitlements : list Entitlement) : option (RewardRecord * SettlementStore) :=
  match records s !! epoch with
  | Some existing => Some (existing, s)
  | None =>
      let s := expire s epoch in
      record ← compute (settle_input s epoch contributions entitlements);
      let '(_, p) := mint_into_pool (protocol s) (Reward.issued record) in
      let s := with_protocol s (set_pool p (committed_pool record)) in
      let s := with_pending s 0 0 ∅ ∅ in
      let s := with_committed s (snapshot s) in
      Some (record, with_records s (<[epoch := record]> (records s)) (claims s))
  end.

(** The loop over the paid cumulatives: the pool delta and the purchases. *)
Definition paid_step (epoch : Z) (acc : Z * SettlementStore) (row : key * Z) : Z * SettlementStore :=
  let '(pool_add, s) := acc in
  let '(node, paid_cum) := row in
  let mark s v := with_pending (with_marks s (<[node := v]> (paid_watermark s)) (served_pair_wm s))
    (pending_payouts s) (pending_paid s) (<[node := v]> (pending_paid_marks s)) (pending_served_marks s) in
  match paid_watermark s !! node with
  | None => (pool_add, mark s paid_cum)
  | Some w =>
      let delta := sat_sub paid_cum w in
      let s := with_subs s (purchase (subs s) node delta (bytes_per_token s) epoch (window_epochs s)) in
      (sat_add pool_add delta, mark s (Z.max paid_cum w))
  end.

(** [*m.entry(k).or_default() += v]: [None] is the overflow panic. *)
Definition bump (m : gmap key Z) (k : key) (v : Z) : option (gmap key Z) :=
  x ← checked_add (default 0 (m !! k)) v; Some (<[k := x]> m).

Record ChequeRow := mk_row { row_provider : key; row_consumer : key; row_cum : Z; row_ts : Z }.

(** The loop over the cheque rows: served deltas drawn from the consumers'
    entitlements. *)
Definition cheque_step (epoch : Z) (acc : option (gmap key Z * gmap key Z * SettlementStore)) (row : ChequeRow)
  : option (gmap key Z * gmap key Z * SettlementStore) :=
  x ← acc;
  let '(contrib, spent, s) := x in
  let k := (row_provider row, row_consumer row) in
  let w := default 0 (served_pair_wm s !! k) in
  let delta := sat_sub (row_cum row) w in
  let advanced := Z.max (row_cum row) w in
  let s := with_pending (with_marks s (paid_watermark s) (<[k := advanced]> (served_pair_wm s)))
    (pending_payouts s) (pending_paid s) (pending_paid_marks s) (<[k := advanced]> (pending_served_marks s)) in
  if delta =? 0 then Some (contrib, spent, s)
  else
    let '(rew, sl) := allocate (subs s) (row_consumer row) delta epoch in
    let s := with_subs s sl in
    if rew =? 0 then Some (contrib, spent, s)
    else
      contrib' ← bump contrib (row_provider row) rew;
      spent' ← bump spent (row_consumer row) rew;
      rw' ← bump (rewardable s) (row_provider row) rew;
      Some (contrib', spent', with_rewardable s rw').

(** The entitlement rows: who spent, and who still holds. *)
Definition entitlement_rows (spent : gmap key Z) (held : list (key * Z)) : list Entitlement :=
  let rows := foldl (fun m '(c, b) => <[c := (b, snd (default (0, 0) (m !! c)))]> m) ∅ (btree_iter spent) in
  let rows := foldl (fun m '(c, r) => <[c := (fst (default (0, 0) (m !! c)), r)]> m) rows held in
  map (fun '(c, (sp, re)) => mk_entitlement c sp re) (btree_iter rows).

Definition settle_epoch_from_cheques (s : SettlementStore) (epoch : Z) (paid : list (key * Z))
    (cheques : list ChequeRow) : option (RewardRecord * SettlementStore) :=
  match records s !! epoch with
  | Some existing => Some (existing, s)
  | None =>
      let '(pool_add, s) := foldl (paid_step epoch) (0, s) paid in
      let ordered := sort_by (le_on (fun r => (row_ts r, (row_provider r, row_consumer r)))) cheques in
      x ← foldl (cheque_step epoch) (Some (∅, ∅, s)) ordered;
      let '(contrib, spent, s) := x in
      let s := pay_in s pool_add in
      let contributions := map (fun '(p, b) => mk_contribution p b (default 0 (rewardable s !! p))) (btree_iter contrib) in
      let entitlements := entitlement_rows spent (balances (subs s) epoch) in
      settle_epoch s epoch contributions entitlements
  end.

Definition settle_epoch_with_pool (s : SettlementStore) (epoch pool_add : Z) (contributions : list Contribution)
  : option (RewardRecord * SettlementStore) :=
  match records s !! epoch with
  | Some existing => Some (existing, s)
  | None => settle_epoch (pay_in s pool_add) epoch contributions []
  end.
End settle.

(** [SettlementStore::share_of]. *)
Definition store_share_of (s : SettlementStore) (epoch : Z) (provider : key) : Z :=
  if bool_decide ((epoch, provider) ∈ claims s) then 0
  else match records s !! epoch with Some r => Reward.share_of r provider | None => 0 end.

Definition claim (s : SettlementStore) (epoch : Z) (provider : key) : Z * SettlementStore :=
  match records s !! epoch with
  | None => (0, s)
  | Some rec =>
      let share := Reward.share_of rec provider in
      if (share =? 0) || bool_decide ((epoch, provider) ∈ claims s) then (0, s)
      else
        let s := with_pending s (sat_add (pending_payouts s) share) (pending_paid s) (pending_paid_marks s)
                   (pending_served_marks s) in
        (share, with_records s (records s) ({[(epoch, provider)]} ∪ claims s))
  end.

(** ** The committed snapshot *)

Lemma dedup_from_strict {A K} `{OrdLaws K, !EqDecision K} (f : A -> K) (x : A) (l : list A) :
  StronglySorted (fun x y => cmp (f x) (f y) = Lt) (x :: l) -> dedup_from f (f x) l = l.
Proof.
  revert x; induction l as [|y l IH]; intros x Hs; [done|]. cbn.
  inversion_clear Hs as [|?? Hs' Hx]. apply Forall_cons_iff in Hx as [Hxy _].
  rewrite decide_False; [by rewrite IH|]. intros E. rewrite E, cmp_refl in Hxy. done.
Qed.

Lemma dedup_by_key_strict {A K} `{OrdLaws K, !EqDecision K} (f : A -> K) (l : list A) :
  StronglySorted (fun x y => cmp (f x) (f y) = Lt) l -> dedup_by_key f l = l.
Proof. destruct l as [|x l]; [done|]. intros Hs. cbn. by rewrite dedup_from_strict. Qed.

Lemma canonical_marks_id (m : gmap key Z) : canonical_marks (btree_iter m) = btree_iter m.
Proof. unfold canonical_marks. rewrite sort_btree_iter. apply dedup_by_key_strict, btree_iter_strict. Qed.

Lemma canonical_served_id (m : gmap (key * key) Z) : canonical_served (btree_iter m) = btree_iter m.
Proof. unfold canonical_served. rewrite sort_btree_iter. apply dedup_by_key_strict, btree_iter_strict. Qed.

(** The ranges of a store's counters. *)
Definition sstore_ok (s : SettlementStore) : Prop :=
  is_u64 (Token.pool (protocol s)) /\ is_u64 (Token.minted (supply (protocol s))) /\
  is_u64 (cap (supply (protocol s))) /\ is_u64 (pending_paid s) /\ is_u64 (pending_payouts s) /\
  is_u64 (issuance_tokens_per_day s) /\
  map_Forall (fun _ r => Forall (fun sh => 0 <= Reward.amount sh) (shares r)) (records s).

Lemma expire_fields s e :
  protocol (expire s e) = protocol s /\ paid_watermark (expire s e) = paid_watermark s /\
  served_pair_wm (expire s e) = served_pair_wm s /\ subs (expire s e) = subs s /\
  pending_paid (expire s e) = pending_paid s /\ pending_payouts (expire s e) = pending_payouts s /\
  issuance_tokens_per_day (expire s e) = issuance_tokens_per_day s.
Proof. unfold expire. destruct (foldl _ _ _). done. Qed.

(** The state [compute] commits to, from a store's input: the pool recurrence,
    the mint, and the store's own collections. *)
Lemma next_state_of_store s e cs es iss :
  next_state (settle_input s e cs es) iss =
    mk_snapshot (sat_sub (sat_add (sat_add (Token.pool (protocol s)) (pending_paid s)) iss) (pending_payouts s))
      (sat_add (total_supply (supply (protocol s))) iss)
      (btree_iter (paid_watermark s)) (btree_iter (served_pair_wm s))
      (seeding_eligibility (subs s)) (bset_iter (claims s)).
Proof.
  unfold next_state, settle_input, snapshot, seeding_eligibility.
  cbn [istate spool Reward.minted paid_watermarks served_watermarks Reward.seeding_next Reward.claimed
       paid icumulative_issued claim_payouts].
  by rewrite !canonical_marks_id, canonical_served_id, bset_iter_canonical.
Qed.

Section settle_lemmas.
Context `{Blake3}.

Lemma compute_fields i r :
  compute i = Some r ->
  let iss := issuance_for (ipool i) (icumulative_issued i) (0 <? total_bytes (contributions i)) (issuance i) in
  Reward.issued r = iss /\ committed_pool r = spool (next_state i iss) /\
  Reward.state_hash r = hash_of_state (next_state i iss) /\ Reward.epoch r = iepoch i /\
  Reward.cumulative_issued r = sat_add (icumulative_issued i) iss /\
  checkpoint r = (if is_checkpoint (iepoch i) then Some (next_state i iss) else None).
Proof.
  unfold compute. rewrite by_provider_sum. intros (sh & _ & [= <-])%bind_Some. done.
Qed.

Lemma epochs_per_day_u64 : is_u64 epochs_per_day.
Proof. vm_compute. split; discriminate. Qed.

(** The supply gate grants what the record committed to. *)
Lemma mint_grants_issued p iss want :
  0 <= iss <= Z.max 0 (cap (supply p) - Token.minted (supply p)) -> want = iss ->
  is_u64 (Token.minted (supply p)) -> is_u64 (cap (supply p)) ->
  mint_into_pool p want =
    (iss, mk_proto (mk_supply (sat_add (Token.minted (supply p)) iss) (cap (supply p))) (sat_add (Token.pool p) iss)).
Proof.
  intros Hiss -> Hm Hc. unfold mint_into_pool, authorize_mint, headroom. cbn.
  assert (Z.min iss (sat_sub (cap (supply p)) (Token.minted (supply p))) = iss) as ->; [|done].
  unfold sat_sub. lia.
Qed.

(** What one settling does, all in one place. *)
Lemma settle_epoch_spec s e cs es r s' :
  sstore_ok s -> records s !! e = None -> settle_epoch s e cs es = Some (r, s') ->
  let s0 := expire s e in
  compute (settle_input s0 e cs es) = Some r /\
  0 <= Reward.issued r <= Z.max 0 (cap (supply (protocol s)) - Token.minted (supply (protocol s))) /\
  protocol s' = mk_proto (mk_supply (sat_add (Token.minted (supply (protocol s))) (Reward.issued r))
                           (cap (supply (protocol s)))) (committed_pool r) /\
  committed_pool r = sat_sub (sat_add (sat_add (Token.pool (protocol s)) (pending_paid s)) (Reward.issued r)) (pending_payouts s) /\
  records s' = <[e := r]> (records s0) /\ claims s' = claims s0 /\
  pending_paid s' = 0 /\ pending_payouts s' = 0 /\
  committed s' = snapshot s' /\ hash_of_state (committed s') = Reward.state_hash r /\
  checkpoint r = (if is_checkpoint e then Some (committed s') else None).
Proof.
  intros (Hp & Hm & Hc & _ & _ & Hi & _) He. unfold settle_epoch. rewrite He.
  destruct (expire_fields s e) as (Epr & Epw & Esw & Esu & Epp & Epo & Eis).
  intros (rec & Hrec & E)%bind_Some. pose proof (compute_fields _ _ Hrec) as Hf. cbv zeta in Hf.
  destruct Hf as (Hiss & Hcp & Hh & Hep & Hcum & Hck).
  assert (0 <= Reward.issued rec <= Z.max 0 (cap (supply (protocol s)) - Token.minted (supply (protocol s)))) as Hb.
  { rewrite Hiss. cbn [settle_input ipool icumulative_issued issuance]. rewrite Epr.
    apply (issuance_bound _ _ _ (mk_issuance _ _ _)); [|unfold total_supply; unfold is_u64 in Hm; lia].
    unfold params_ok. cbn. rewrite Eis. split_and!; [done|apply epochs_per_day_u64|done]. }
  rewrite <-Hiss in Hcp, Hh, Hck. rewrite next_state_of_store in Hcp, Hh, Hck.
  rewrite Epr in *. rewrite (mint_grants_issued _ (Reward.issued rec)) in E by done.
  unfold total_supply in *. rewrite Epp, Epo, Epw, Esw, Esu in *.
  injection E as <- <-. cbv zeta. cbn [spool] in Hcp.
  split_and!; try done; try lia.
  - rewrite Hh. unfold snapshot. cbn. by rewrite Epw, Esw, Esu, Hcp.
  - rewrite Hck. unfold snapshot. cbn. by rewrite Epw, Esw, Esu, Hcp.
Qed.
End settle_lemmas.

(** ** What the pool owes *)

Definition owed (cl : gset (Z * key)) (recs : gmap Z RewardRecord) : Z :=
  entry_sum (fun e r => sum_Z (unclaimed cl e r)) recs.

Definition shares_nonneg (r : RewardRecord) : Prop := Forall (fun sh => 0 <= Reward.amount sh) (shares r).

Lemma unclaimed_nonneg cl e r : shares_nonneg r -> Forall (fun x => 0 <= x) (unclaimed cl e r).
Proof.
  intros Hr. unfold shares_nonneg in Hr. rewrite list.Forall_forall in Hr.
  apply Forall_map, list.Forall_forall. intros sh [_ Hsh]%list_elem_of_filter. by apply Hr.
Qed.

Lemma unclaimed_sum_nonneg cl e r : shares_nonneg r -> 0 <= sum_Z (unclaimed cl e r).
Proof. intros. by apply sum_Z_nonneg, unclaimed_nonneg. Qed.

Lemma owed_nonneg cl recs : map_Forall (fun _ r => shares_nonneg r) recs -> 0 <= owed cl recs.
Proof. intros Hr. apply entry_sum_nonneg. intros e r Er. by eapply unclaimed_sum_nonneg, Hr. Qed.

Lemma owed_outstanding_spec s :
  map_Forall (fun _ r => shares_nonneg r) (records s) ->
  owed_outstanding s = Z.min (owed (claims s) (records s)) U64_MAX.
Proof.
  intros Hr. unfold owed_outstanding. rewrite sat_sum_spec.
  - f_equal. rewrite sum_Z_concat, map_map. unfold owed, entry_sum. apply sum_Z_perm.
    rewrite btree_iter_perm. apply Permutation_refl'. apply map_ext. by intros [].
  - apply Forall_concat, Forall_map, list.Forall_forall. intros [e r] Her%elem_of_btree_iter.
    by eapply unclaimed_nonneg, Hr.
Qed.

Lemma owed_claims_ext cl cl' recs :
  (forall e r p, recs !! e = Some r -> (e, p) ∈ cl <-> (e, p) ∈ cl') -> owed cl recs = owed cl' recs.
Proof.
  intros Hext. unfold owed, entry_sum. f_equal. apply map_ext_in. intros [e r] Her.
  apply list_elem_of_In, elem_of_map_to_list in Her. unfold unclaimed. do 2 f_equal.
  apply list_filter_iff. intros sh. by rewrite (Hext e r).
Qed.

Lemma expire_loop stale recs cl :
  map_Forall (fun _ r => shares_nonneg r) recs ->
  let '(recs', cl') := foldl (fun '(recs, cl) e => (delete e recs, filter (fun x : Z * key => x.1 <> e) cl)) (recs, cl) stale in
  owed cl' recs' <= owed cl recs /\ map_Forall (fun _ r => shares_nonneg r) recs' /\ recs' ⊆ recs.
Proof.
  revert recs cl; induction stale as [|e stale IH]; intros recs cl Hr; [done|]. cbn [foldl].
  specialize (IH (delete e recs) (filter (fun x : Z * key => x.1 <> e) cl) (map_Forall_delete _ _ _ Hr)).
  destruct (foldl _ _ _) as [recs' cl']. destruct IH as (Hle & Hr' & Hsub). split_and!; [|done|].
  - etrans; [exact Hle|]. etrans; [|apply (entry_sum_delete_le _ recs e)].
    + apply Z.eq_le_incl, owed_claims_ext. intros e' r p He'%lookup_delete_Some.
      rewrite elem_of_filter. cbn. naive_solver.
    + intros e' r Er. by eapply unclaimed_sum_nonneg, Hr.
  - etrans; [exact Hsub|]. apply delete_subseteq.
Qed.

Lemma expire_owed s e :
  map_Forall (fun _ r => shares_nonneg r) (records s) ->
  owed (claims (expire s e)) (records (expire s e)) <= owed (claims s) (records s) /\
  map_Forall (fun _ r => shares_nonneg r) (records (expire s e)) /\ records (expire s e) ⊆ records s.
Proof.
  intros Hr. unfold expire.
  pose proof (expire_loop (filter (fun x => x < sat_sub e CLAIM_WINDOW_EPOCHS) (map fst (btree_iter (records s))))
    (records s) (claims s) Hr) as Hl. destruct (foldl _ _ _) as [recs cl]. exact Hl.
Qed.

Lemma unclaimed_le_shares cl e r : shares_nonneg r -> sum_Z (unclaimed cl e r) <= sum_Z (map Reward.amount (shares r)).
Proof.
  unfold unclaimed, shares_nonneg, sum_Z. induction 1 as [|sh l Hsh Hl IH]; [done|].
  rewrite filter_cons. destruct (decide _); cbn; lia.
Qed.

(** Claiming removes the share from what is owed. *)
Lemma unclaimed_after_claim cl e p r :
  shares_nonneg r -> (e, p) ∉ cl ->
  sum_Z (unclaimed ({[(e, p)]} ∪ cl) e r) + Reward.share_of r p <= sum_Z (unclaimed cl e r).
Proof.
  intros Hr Hcl. unfold Reward.share_of, find_share, unclaimed, shares_nonneg in *.
  induction Hr as [|sh l Hsh Hl IH]; [done|]. rewrite !filter_cons.
  destruct (decide (sprovider sh = p)) as [Ep|Ep].
  - rewrite decide_False by set_solver. rewrite decide_True by (rewrite Ep; done). cbn [map head fmap option_fmap option_map default from_option].
    assert (sum_Z (map Reward.amount (filter (fun sh0 => (e, sprovider sh0) ∉ {[(e, p)]} ∪ cl) l)) <=
      sum_Z (map Reward.amount (filter (fun sh0 => (e, sprovider sh0) ∉ cl) l))).
    { clear IH. unfold sum_Z. induction Hl as [|x l Hx Hl IH]; [done|]. rewrite !filter_cons.
      destruct (decide ((e, sprovider x) ∉ {[(e, p)]} ∪ cl)), (decide ((e, sprovider x) ∉ cl));
        try set_solver; cbn; lia. }
    unfold sum_Z in *; cbn; lia.
  - destruct (decide ((e, sprovider sh) ∉ cl)).
    + rewrite decide_True by set_solver. unfold sum_Z in *; cbn; lia.
    + rewrite decide_False by set_solver. exact IH.
Qed.

(** Every share outstanding, and every payout still to be folded, is covered
    by the pool and the payments not yet folded. *)
Definition solvent (s : SettlementStore) : Prop :=
  owed (claims s) (records s) + pending_payouts s <= Token.pool (protocol s) + pending_paid s.

Lemma solvent_pay_in s x :
  solvent s -> 0 <= x -> pending_paid s + x <= U64_MAX -> solvent (pay_in s x).
Proof. unfold solvent, pay_in. cbn. intros. rewrite sat_add_id by done. lia. Qed.

Lemma claim_spec s e p :
  let '(share, s') := claim s e p in
  share = store_share_of s e p /\
  (share = 0 -> s' = s) /\
  (share <> 0 -> records s' = records s /\ claims s' = {[(e, p)]} ∪ claims s /\ protocol s' = protocol s /\
     pending_paid s' = pending_paid s /\ pending_payouts s' = sat_add (pending_payouts s) share).
Proof.
  unfold claim, store_share_of. destruct (records s !! e) as [r|] eqn:Er.
  - destruct (Z.eqb_spec (Reward.share_of r p) 0) as [E|E]; cbn [orb].
    + rewrite E. by case_bool_decide.
    + by case_bool_decide.
  - split_and!; [by case_bool_decide|done|done].
Qed.

Lemma solvent_claim s e p :
  sstore_ok s -> solvent s -> pending_payouts s + store_share_of s e p <= U64_MAX ->
  solvent (snd (claim s e p)).
Proof.
  intros (_ & _ & _ & _ & _ & _ & Hrec) Hs Hmax. pose proof (claim_spec s e p) as Hc.
  destruct (claim s e p) as [sh s'] eqn:Ec. destruct Hc as (Hsh & H0 & H1). cbn.
  destruct (decide (sh = 0)) as [E|E]; [by rewrite H0|].
  destruct (H1 E) as (Hr & Hcl & Hpr & Hpp & Hpo). unfold solvent in *. rewrite Hr, Hcl, Hpr, Hpp, Hpo.
  rewrite sat_add_id by lia.
  enough (owed ({[(e, p)]} ∪ claims s) (records s) + sh <= owed (claims s) (records s)) by lia.
  unfold store_share_of in Hsh. destruct (bool_decide ((e, p) ∈ claims s)) eqn:Ein; [done|].
  apply bool_decide_eq_false in Ein. destruct (records s !! e) as [r|] eqn:Er; [|done].
  unfold owed.
  rewrite (entry_sum_delete (fun e' r => sum_Z (unclaimed ({[(e, p)]} ∪ claims s) e' r)) _ _ _ Er).
  rewrite (entry_sum_delete (fun e r => sum_Z (unclaimed (claims s) e r)) _ _ _ Er).
  assert (shares_nonneg r) as Hrn by by apply (Hrec e).
  pose proof (unclaimed_after_claim (claims s) e p r Hrn Ein).
  enough (entry_sum (fun e' r => sum_Z (unclaimed ({[(e, p)]} ∪ claims s) e' r)) (delete e (records s)) =
          entry_sum (fun e r => sum_Z (unclaimed (claims s) e r)) (delete e (records s))) by lia.
  apply owed_claims_ext. intros e' r' p' [Hne _]%lookup_delete_Some. set_solver.
Qed.

Section settle_properties.
Context `{Blake3}.

Lemma settle_input_ok s e cs es :
  sstore_ok s -> Forall (fun c => is_u64 (cbytes c)) cs -> total_bytes cs <= U64_MAX ->
  input_ok (settle_input (expire s e) e cs es).
Proof.
  intros (Hp & Hm & Hc & Hpp & _ & Hi & Hrec) Hcs Ht.
  destruct (expire_fields s e) as (Epr & _ & _ & _ & Epp & _ & Eis).
  destruct (expire_owed s e Hrec) as (_ & Hrec' & _).
  unfold input_ok, settle_input. cbn. unfold unallocated. rewrite Epr, Epp, Eis.
  rewrite owed_outstanding_spec by done. pose proof (owed_nonneg (claims (expire s e)) _ Hrec').
  split_and!; try done; try (unfold total_supply; unfold is_u64 in *; lia).
  unfold sat_sub, sat_add, is_u64 in *. lia.
Qed.

Lemma compute_shares_nonneg i r : input_ok i -> compute i = Some r ->
  shares_nonneg r /\ sum_Z (map Reward.amount (shares r)) <= sat_add (ipool i) (Reward.issued r).
Proof.
  intros Hi Hr. destruct (compute_record i Hi) as (r' & Hr' & Hiss & Hpool & HD & Hsh).
  rewrite Hr in Hr'. injection Hr' as <-.
  destruct Hi as (_ & _ & _ & Hcon & _).
  assert (Forall (fun c => 0 <= cbytes c) (contributions i)) as Hnn
    by (revert Hcon; apply Forall_impl; unfold is_u64; lia).
  destruct (row_amounts_sum (Reward.pool r) (total_bytes (contributions i)) (btree_iter (by_provider (contributions i))))
    as (Ham & Hsum & _); [unfold is_u64 in HD; lia| |by apply rows_nonneg|apply btree_bytes_sum|].
  { apply sum_Z_nonneg, Forall_map, Hnn. }
  rewrite <-Hsh in Ham, Hsum. split; [apply (proj1 (Forall_map _ _ _)) in Ham; exact Ham|]. rewrite Hpool, <-Hiss in Hsum. done.
Qed.

Lemma solvent_settle s e cs es :
  sstore_ok s -> solvent s -> pending_payouts s = 0 -> records s !! e = None ->
  Token.pool (protocol s) + pending_paid s + cap (supply (protocol s)) <= U64_MAX ->
  Forall (fun c => is_u64 (cbytes c)) cs -> total_bytes cs <= U64_MAX ->
  exists r s', settle_epoch s e cs es = Some (r, s') /\ solvent s' /\
    Token.pool (protocol s') = Token.pool (protocol s) + pending_paid s + Reward.issued r.
Proof.
  intros Hok Hsol Hpo He Hmax Hcs Ht. pose proof (settle_input_ok s e cs es Hok Hcs Ht) as Hin.
  destruct (compute_record _ Hin) as (r & Hr & _).
  assert (exists s', settle_epoch s e cs es = Some (r, s')) as [s' Hset].
  { unfold settle_epoch. rewrite He, Hr. cbn. by eexists. }
  exists r, s'. split; [done|].
  pose proof (settle_epoch_spec s e cs es r s' Hok He Hset) as Hspec. cbv zeta in Hspec.
  destruct Hspec as (_ & Hiss & Hpr & Hcp & Hrecs & Hcl & Hpp & Hpo' & _).
  destruct Hok as (Hp & Hm & Hc & Hpd & _ & _ & Hrec).
  destruct (expire_fields s e) as (Epr & _ & _ & _ & Epp & _ & _).
  destruct (expire_owed s e Hrec) as (Hle & Hrec' & Hsub).
  destruct (compute_shares_nonneg _ _ Hin Hr) as [Hnn Hsum].
  cbn [settle_input ipool] in Hsum. unfold unallocated in Hsum.
  rewrite Epr, Epp, owed_outstanding_spec in Hsum by done.
  pose proof (owed_nonneg (claims (expire s e)) _ Hrec').
  rewrite Hpo in Hcp. unfold solvent in *. rewrite Hrecs, Hcl, Hpp, Hpo', Hpr. cbn [Token.pool].
  assert (records (expire s e) !! e = None) as Hnone
    by (destruct (records (expire s e) !! e) eqn:E; [|done]; apply (lookup_weaken _ _ _ _ E) in Hsub; congruence).
  unfold owed at 1. rewrite entry_sum_insert_new by done. fold (owed (claims (expire s e)) (records (expire s e))).
  pose proof (unclaimed_le_shares (claims (expire s e)) e r Hnn).
  unfold sat_add, sat_sub, is_u64 in *. lia.
Qed.
End settle_properties.

(** ** Rebuilding maps from their iteration *)

Lemma foldl_insert_to_map {K V} `{Countable K} (l : list (K * V)) (m : gmap K V) :
  NoDup (map fst l) -> foldl (fun m '(k, v) => <[k := v]> m) m l = list_to_map l ∪ m.
Proof.
  revert m; induction l as [|[k v] l IH]; intros m Hnd; cbn [foldl]; [by cbn; rewrite (left_id_L ∅ (∪))|].
  apply list.NoDup_cons in Hnd as [Hk Hnd]. rewrite IH, list_to_map_cons, <-insert_union_l by done.
  symmetry. apply insert_union_r. by apply not_elem_of_list_to_map_1.
Qed.

Lemma list_to_map_btree {K V} `{Countable K, OrdLaws K} (m : gmap K V) : list_to_map (btree_iter m) = m.
Proof.
  rewrite <-(list_to_map_to_list m) at 2. apply list_to_map_proper; [apply NoDup_btree_keys|apply btree_iter_perm].
Qed.

Lemma collect_btree {K V} `{Countable K, OrdLaws K} (m : gmap K V) :
  foldl (fun m '(k, v) => <[k := v]> m) ∅ (btree_iter m) = m.
Proof. rewrite foldl_insert_to_map by apply NoDup_btree_keys. by rewrite list_to_map_btree, map_union_empty. Qed.

Lemma max_merge_fresh (l : list (key * Z)) (m : gmap key Z) :
  NoDup (map fst l) -> Forall (fun kv => 0 <= kv.2) l -> (forall k, k ∈ map fst l -> m !! k = None) ->
  foldl (fun m '(a, next) => <[a := Z.max (default 0 (m !! a)) next]> m) m l =
  foldl (fun m '(k, v) => <[k := v]> m) m l.
Proof.
  revert m; induction l as [|[k v] l IH]; intros m Hnd Hl Hm; [done|]. cbn [foldl].
  apply list.NoDup_cons in Hnd as [Hk Hnd]. apply Forall_cons_iff in Hl as [Hv Hl].
  rewrite (Hm k) by left. cbn [default from_option]. cbn in Hv. rewrite Z.max_r by done.
  apply IH; [done|done|]. intros k' Hk'. rewrite lookup_insert_ne by (intros <-; done). apply Hm. by right.
Qed.

Lemma list_to_set_bset {A} `{Countable A, OrdLaws A} (X : gset A) : list_to_set (bset_iter X) = X.
Proof. apply set_eq. intros x. unfold bset_iter. by rewrite elem_of_list_to_set, sort_perm, elem_of_elements. Qed.

Section properties.
Context `{Blake3}.

(** C27: A node commits exactly the state it signs.  Settling an epoch leaves a
    store whose committed snapshot is its own state and hashes to the record's
    [state_hash]; the supply advanced by exactly the record's issuance, through
    the token's mint gate and never past the cap; the pool is the record's
    recurrence pool + paid + issued - payouts; and settling the epoch again,
    with whatever contributions, returns the same record and changes
    nothing. *)
Theorem settle_commits_signed_state (s : SettlementStore) (e : Z) (cs : list Contribution)
    (es : list Entitlement) (r : RewardRecord) (s' : SettlementStore) :
  sstore_ok s -> records s !! e = None -> settle_epoch s e cs es = Some (r, s') ->
  committed s' = snapshot s' /\ hash_of_state (committed s') = Reward.state_hash r /\
  Token.minted (supply (protocol s')) = Token.minted (supply (protocol s)) + Reward.issued r /\
  Token.minted (supply (protocol s')) <= Z.max (Token.minted (supply (protocol s))) (cap (supply (protocol s))) /\
  Token.pool (protocol s') =
    sat_sub (sat_add (sat_add (Token.pool (protocol s)) (pending_paid s)) (Reward.issued r)) (pending_payouts s) /\
  (forall cs' es', settle_epoch s' e cs' es' = Some (r, s')).
Proof.
  intros Hok He Hset. pose proof (settle_epoch_spec s e cs es r s' Hok He Hset) as Hs. cbv zeta in Hs.
  destruct Hs as (_ & Hiss & Hpr & Hcp & Hrecs & _ & _ & _ & Hcom & Hh & _).
  destruct Hok as (_ & Hm & Hc & _).
  rewrite Hpr. cbn [supply Token.minted Token.pool]. rewrite sat_add_id by (unfold is_u64 in *; lia).
  split_and!; try done; try lia.
  intros cs' es'. unfold settle_epoch. by rewrite Hrecs, lookup_insert_eq.
Qed.

(** A node with no history reaches the settler's exact state from a
    checkpoint record: after adopting the record of a checkpoint epoch, its
    snapshot equals the settler's (pool, supply, watermarks, seeding and
    claims), and what it keeps as committed hashes to the record's
    [state_hash]. *)
Theorem checkpoint_restores_settler_state (s j : SettlementStore) (e : Z) (cs : list Contribution)
    (es : list Entitlement) (r : RewardRecord) (s' : SettlementStore) :
  sstore_ok s -> records s !! e = None -> settle_epoch s e cs es = Some (r, s') ->
  is_checkpoint e = true -> map_Forall (fun _ n => 0 <= n) (Subscription.seeding_next (subs s')) ->
  Subscription.seeding_next (subs j) = ∅ ->
  Token.minted (supply (protocol j)) <= Token.minted (supply (protocol s')) ->
  let j' := adopt_canonical j r in
  snapshot j' = snapshot s' /\ committed j' = snapshot j' /\ hash_of_state (committed j') = Reward.state_hash r.
Proof.
  intros Hok He Hset Hck Hsn Hj Hmj. pose proof (settle_epoch_spec s e cs es r s' Hok He Hset) as Hs. cbv zeta in Hs.
  destruct Hs as (Hcomp & Hiss & Hpr & Hcp & _ & _ & _ & _ & Hcom & Hh & Hchk). rewrite Hck in Hchk.
  pose proof (compute_fields _ _ Hcomp) as Hf. cbv zeta in Hf. destruct Hf as (Hi & _ & _ & _ & Hcum & _).
  rewrite <-Hi in Hcum. destruct (expire_fields s e) as (Epr & _). cbn [settle_input icumulative_issued] in Hcum.
  rewrite Epr in Hcum. unfold total_supply in Hcum.
  assert (Reward.cumulative_issued r = Token.minted (supply (protocol s'))) as Hcum' by by rewrite Hcum, Hpr.
  assert (snapshot (adopt_canonical j r) = snapshot s') as E.
  { unfold adopt_canonical. rewrite Hchk, Hcom. unfold snapshot, restore, seeding_eligibility, restore_seeding_eligibility.
    cbn. rewrite Hj, Hcum'. unfold total_supply. f_equal.
    - lia.
    - by rewrite collect_btree.
    - by rewrite collect_btree.
    - rewrite max_merge_fresh; [by rewrite collect_btree|apply NoDup_btree_keys| |done].
      apply list.Forall_forall. intros [k v] Hkv%elem_of_btree_iter. by apply (Hsn k).
    - by rewrite list_to_set_bset. }
  cbv zeta. rewrite E. unfold adopt_canonical. rewrite Hchk. cbn. by rewrite <-Hcom.
Qed.

(** Outstanding shares stay backed.  If every unclaimed share and pending
    payout is covered by the pool and the unfolded payments, then so it is
    after a payment, after any claim, and after settling an epoch when no
    payout is pending, whatever the contributions; the settling succeeds, and
    moves the pool by exactly the payments and the issuance. *)
Theorem outstanding_shares_stay_backed (s : SettlementStore) :
  sstore_ok s -> solvent s ->
  (forall x, 0 <= x -> pending_paid s + x <= U64_MAX -> solvent (pay_in s x)) /\
  (forall e p, pending_payouts s + store_share_of s e p <= U64_MAX -> solvent (snd (claim s e p))) /\
  (forall e cs es, pending_payouts s = 0 -> records s !! e = None ->
     Token.pool (protocol s) + pending_paid s + cap (supply (protocol s)) <= U64_MAX ->
     Forall (fun c => is_u64 (cbytes c)) cs -> total_bytes cs <= U64_MAX ->
     exists r s', settle_epoch s e cs es = Some (r, s') /\ solvent s' /\
       Token.pool (protocol s') = Token.pool (protocol s) + pending_paid s + Reward.issued r).
Proof.
  intros Hok Hs. split_and!.
  - intros x Hx Hm. by apply solvent_pay_in.
  - intros e p Hm. by apply solvent_claim.
  - intros e cs es. by apply solvent_settle.
Qed.
End properties.

(** A claim pays once.  It returns exactly the share still owed to the
    provider for that epoch; afterwards nothing is owed and a second claim
    returns nothing and changes nothing, while every other provider and epoch
    is owed what it was. *)
Theorem claim_pays_once (s : SettlementStore) (e : Z) (p : key) :
  let '(share, s1) := claim s e p in
  share = store_share_of s e p /\ store_share_of s1 e p = 0 /\ claim s1 e p = (0, s1) /\
  forall e' p', (e', p') <> (e, p) -> store_share_of s1 e' p' = store_share_of s e' p'.
Proof.
  unfold claim, store_share_of. destruct (records s !! e) as [r|] eqn:Er.
  - destruct (bool_decide ((e, p) ∈ claims s)) eqn:Eb.
    + rewrite orb_true_r. rewrite Er, Eb, orb_true_r. done.
    + destruct (Z.eqb_spec (Reward.share_of r p) 0) as [E|E]; cbn [orb].
      * rewrite Er, Eb, E. done.
      * cbn [claims records with_records with_pending]. rewrite Er.
        rewrite (bool_decide_true ((e, p) ∈ _)) by set_solver. rewrite orb_true_r.
        split_and!; try done. intros e' p' Hne.
        by rewrite (bool_decide_ext _ ((e', p') ∈ claims s)) by set_solver.
  - rewrite Er. split_and!; try done; by case_bool_decide.
Qed.

(** ** The pool is divided again after a claim

    [unallocated] subtracts the unclaimed shares and not the claimed ones that
    the pool has not paid out yet: after a claim, the claimed tokens are
    distributed a second time by the next epoch.  Of 100 paid in, 200 are
    claimed, and the saturating recurrence hides it. *)
Definition settle_and_claim `{Blake3} (s : SettlementStore) (e : Z) (p : Z) : option (Z * SettlementStore) :=
  '(_, s1) ← settle_epoch s e [mk_contribution (key_of p) 10 10] [];
  Some (claim s1 e (key_of p)).

Theorem claimed_share_is_distributed_twice :
  let s0 := pay_in (set_issuance sstore_new 0 0) 100 in
  ('(c1, s1) ← @settle_and_claim toy_blake3 s0 1 1;
   '(c2, s2) ← @settle_and_claim toy_blake3 s1 2 2;
   Some (pending_paid s0, c1, c2, pool_total s2)) = Some (100, 100, 100, 0).
Proof. vm_compute. reflexivity. Qed.

(** ** Witnesses *)

Definition ex_sstore : SettlementStore := pay_in (set_issuance sstore_new 0 0) 100.

Lemma ex_sstore_ok : sstore_ok ex_sstore.
Proof. unfold sstore_ok. split_and!; [vm_compute; split; discriminate..|apply map_Forall_empty]. Qed.

Definition ex_contributions : list Contribution := [mk_contribution (key_of 1) 10 10].

Lemma ex_settles : is_Some (@settle_epoch toy_blake3 ex_sstore 32 ex_contributions []).
Proof. unfold settle_epoch. by eexists. Qed.

Lemma settle_commits_signed_state_witness :
  exists r s', @settle_epoch toy_blake3 ex_sstore 32 ex_contributions [] = Some (r, s') /\
    @hash_of_state toy_blake3 (committed s') = Reward.state_hash r.
Proof.
  destruct ex_settles as [[r s'] E]. exists r, s'. split; [exact E|].
  exact (proj1 (proj2 (@settle_commits_signed_state toy_blake3 ex_sstore 32 _ _ r s' ex_sstore_ok eq_refl E))).
Defined.

Lemma checkpoint_restores_settler_state_witness :
  exists r s', @settle_epoch toy_blake3 ex_sstore 32 ex_contributions [] = Some (r, s') /\
    snapshot (adopt_canonical sstore_new r) = snapshot s'.
Proof.
  destruct ex_settles as [[r s'] E]. exists r, s'. split; [exact E|].
  assert (Subscription.seeding_next (subs s') = ∅ /\ Token.minted (supply (protocol s')) = 0) as [Esn Em].
  { apply (f_equal (fmap (fun x => (Subscription.seeding_next (subs x.2), Token.minted (supply (protocol x.2)))))) in E.
    vm_compute in E. injection E as E1 E2. split; [exact (eq_sym E1)|exact (eq_sym E2)]. }
  apply (@checkpoint_restores_settler_state toy_blake3 ex_sstore sstore_new 32 _ _ r s' ex_sstore_ok eq_refl E).
  - reflexivity.
  - rewrite Esn. apply map_Forall_empty.
  - reflexivity.
  - rewrite Em. vm_compute. discriminate.
Defined.

Lemma outstanding_shares_stay_backed_witness :
  exists r s', @settle_epoch toy_blake3 ex_sstore 3 ex_contributions [] = Some (r, s') /\ solvent s'.
Proof.
  destruct (@outstanding_shares_stay_backed toy_blake3 ex_sstore ex_sstore_ok) as (_ & _ & Hs).
  - vm_compute. discriminate.
  - destruct (Hs 3 ex_contributions []) as (r & s' & E & Hsol & _).
    + reflexivity.
    + reflexivity.
    + vm_compute. discriminate.
    + apply Forall_singleton. vm_compute. split; discriminate.
    + vm_compute. discriminate.
    + exists r, s'. split; [exact E|exact Hsol].
Defined.
