(* ===== verification/Records.v ===== *)
(** Committee-attested epoch records ([crates/noded/src/record_attest.rs],
    [record_chain.rs]): a member's signed share, the attestation the shares add
    up to, the scan of each member's records chain with its cache, and the
    canonical record of an epoch; then that two nodes never find different
    canonical records and that the shares of a quorum give one, and in
    [RecordsRuns] the concrete committees.

    The sequence store and the committee source are functions on a [World]; the
    order in which a [HashMap] is iterated is an argument. *)

From S2P Require Import Prelude Crypto Attestation Sequencer Reward Settlement.

Open Scope Z_scope.

Definition RECORD_DOMAIN : bytes := str_bytes "craftec/epoch-record/1".
Definition RECORDS_PROGRAM_TAG : bytes := str_bytes "craftec/settlement-records/1".

Record CommitteeSig := mk_csig { cs_member : key; cs_sig : bytes }.
Record RecordAttestation := mk_ra { ra_epoch : Z; ra_record : RewardRecord; ra_sigs : list CommitteeSig }.
Record SignedRecord := mk_sr { sr_record : RewardRecord; sr_sig : CommitteeSig }.

#[export] Instance Share_eq_dec : EqDecision Share.
Proof. solve_decision. Defined.
#[export] Instance Entitlement_eq_dec : EqDecision Entitlement.
Proof. solve_decision. Defined.
#[export] Instance EconomicSnapshot_eq_dec : EqDecision EconomicSnapshot.
Proof. solve_decision. Defined.
#[export] Instance RewardRecord_eq_dec : EqDecision RewardRecord.
Proof. solve_decision. Defined.
#[export] Instance CommitteeSig_eq_dec : EqDecision CommitteeSig.
Proof. solve_decision. Defined.
#[export] Instance SignedRecord_eq_dec : EqDecision SignedRecord.
Proof. solve_decision. Defined.

Section attest.
Context `{Ed25519} `{Blake3} `{Postcard RewardRecord}.

Definition record_signing_bytes (epoch : Z) (r : RewardRecord) : bytes :=
  RECORD_DOMAIN ++ le_bytes 8 epoch ++ Cid_of (to_allocvec r).

Definition sign_share (epoch : Z) (r : RewardRecord) (id : NodeIdentity) : CommitteeSig :=
  mk_csig (node_id id) (sign id (record_signing_bytes epoch r)).

Definition ra_new (epoch : Z) (r : RewardRecord) (first : CommitteeSig) : RecordAttestation := mk_ra epoch r [first].

Definition sig_valid (a : RecordAttestation) (s : CommitteeSig) : bool :=
  verify_slice (cs_member s) (record_signing_bytes (ra_epoch a) (ra_record a)) (cs_sig s).

Definition add_sig (a : RecordAttestation) (s : CommitteeSig) : bool * RecordAttestation :=
  if existsb (fun x => bool_decide (cs_member x = cs_member s)) (ra_sigs a) || negb (sig_valid a s) then (false, a)
  else (true, mk_ra (ra_epoch a) (ra_record a) (ra_sigs a ++ [s])).

(** The distinct members of the committee with a valid signature. *)
Definition record_signers (a : RecordAttestation) (committee : Quorum) : gset key :=
  foldl (fun set s => if is_member committee (cs_member s) && sig_valid a s then {[cs_member s]} ∪ set else set) ∅ (ra_sigs a).

Definition is_canonical (a : RecordAttestation) (committee : Quorum) : bool :=
  threshold committee <=? Z.of_nat (size (record_signers a committee)).
End attest.

(** ** The records chain *)

Record MemberRecordCache := mk_mrc { mrc_next : Z; mrc_by_epoch : gmap Z SignedRecord }.
Definition mrc_default : MemberRecordCache := mk_mrc 0 ∅.

(** [by_epoch.keys().max()]. *)
Definition max_epoch (m : gmap Z SignedRecord) : option Z :=
  foldr (fun e acc => Some (match acc with Some x => Z.max e x | None => e end)) None (map fst (map_to_list m)).

(** The epochs before the claim window are dropped. *)
Definition prune (m : gmap Z SignedRecord) : gmap Z SignedRecord :=
  match max_epoch m with
  | Some top => filter (fun kv => sat_sub top (CLAIM_WINDOW_EPOCHS + 2) <= kv.1) m
  | None => m
  end.

Section chain.
Context {World : Type}.
Context `{Ed25519} `{Blake3} `{Postcard RewardRecord} `{Postcard SignedRecord} `{Postcard SequencedWrite}.

(** What the node is connected to. *)
Record RecordNet := mk_rnet {
  committee_for_epoch : key -> Z -> World -> option Quorum;
  sequence_of : key -> key -> key -> World -> option AccountSequence * World;
  sequence : key -> key -> SequencedWrite -> World -> bool * World;
  anchor_owner : key -> key
}.

Record RecordChain := mk_rc {
  rc_identity : NodeIdentity;
  rc_scan : gmap key MemberRecordCache;
  rc_canonical : gmap Z RewardRecord
}.

Definition records_cid : key := Cid_of RECORDS_PROGRAM_TAG.
Definition records_owner (net : RecordNet) : key := anchor_owner net records_cid.

Definition rc_new (id : NodeIdentity) : RecordChain := mk_rc id ∅ ∅.

Definition is_committee_for (net : RecordNet) (epoch : Z) (c : RecordChain) (w : World) : bool :=
  match committee_for_epoch net records_cid epoch w with Some q => is_member q (node_id (rc_identity c)) | None => false end.

Definition attest (net : RecordNet) (epoch : Z) (r : RewardRecord) (c : RecordChain) (w : World) : bool * World :=
  if bool_decide (shares r = []) then (false, w)
  else
    let me := node_id (rc_identity c) in
    match committee_for_epoch net records_cid epoch w with
    | None => (false, w)
    | Some q =>
        if negb (is_member q me) then (false, w)
        else
          let payload := to_allocvec (mk_sr r (sign_share epoch r (rc_identity c))) in
          let '(s, w) := sequence_of net (records_owner net) records_cid me w in
          let nonce := match s with Some s => next_nonce s | None => 0 end in
          sequence net (records_owner net) records_cid (author (rc_identity c) nonce payload) w
    end.

Definition index_record (m : gmap Z SignedRecord) (payload : bytes) : gmap Z SignedRecord :=
  match from_bytes payload with Some sr => <[epoch (sr_record sr) := sr]> m | None => m end.

(** [while entry.next_nonce < end]: one payload per pass. *)
Fixpoint scan_new (fuel : nat) (s : AccountSequence) (c : MemberRecordCache) : MemberRecordCache :=
  match fuel with
  | O => c
  | S fuel' =>
      if mrc_next c <? next_nonce s then
        match payload_at s (mrc_next c) with
        | Some p => scan_new fuel' s (mk_mrc (mrc_next c + 1) (index_record (mrc_by_epoch c) p))
        | None => c
        end
      else c
  end.

Definition rescan (s : AccountSequence) (c : MemberRecordCache) : MemberRecordCache :=
  let c := scan_new (length (commits s)) s c in mk_mrc (mrc_next c) (prune (mrc_by_epoch c)).

Definition share_of_member (net : RecordNet) (member : key) (epoch : Z) (c : RecordChain) (w : World) : option SignedRecord * RecordChain * World :=
  let '(s, w) := sequence_of net (records_owner net) records_cid member w in
  match s with
  | None => (None, c, w)
  | Some s =>
      let entry := rescan s (default mrc_default (rc_scan c !! member)) in
      (mrc_by_epoch entry !! epoch, mk_rc (rc_identity c) (<[member := entry]> (rc_scan c)) (rc_canonical c), w)
  end.

(** One member's share, in the group of the record it signed. *)
Definition group_share (epoch : Z) (g : gmap key RecordAttestation) (sr : SignedRecord) : gmap key RecordAttestation :=
  let k := Cid_of (to_allocvec (sr_record sr)) in
  match g !! k with
  | Some a => <[k := (add_sig a (sr_sig sr)).2]> g
  | None => <[k := ra_new epoch (sr_record sr) (sr_sig sr)]> g
  end.

Fixpoint group_members (net : RecordNet) (epoch : Z) (ms : list key) (g : gmap key RecordAttestation) (c : RecordChain) (w : World) :
  gmap key RecordAttestation * RecordChain * World :=
  match ms with
  | [] => (g, c, w)
  | m :: ms' =>
      let '(r, c, w) := share_of_member net m epoch c w in
      group_members net epoch ms' (match r with Some sr => group_share epoch g sr | None => g end) c w
  end.

Definition canonical_record (order : gmap key RecordAttestation -> list RecordAttestation) (net : RecordNet) (epoch : Z) (c : RecordChain) (w : World) :
  option RewardRecord * RecordChain * World :=
  match rc_canonical c !! epoch with
  | Some r => (Some r, c, w)
  | None =>
      match committee_for_epoch net records_cid epoch w with
      | None => (None, c, w)
      | Some q =>
          let '(g, c, w) := group_members net epoch (members q) ∅ c w in
          match List.find (fun a => is_canonical a q) (order g) with
          | Some a => (Some (ra_record a), mk_rc (rc_identity c) (rc_scan c) (<[epoch := ra_record a]> (rc_canonical c)), w)
          | None => (None, c, w)
          end
      end
  end.
End chain.

(** ** Pruning *)

Lemma max_epoch_spec m :
  match max_epoch m with
  | Some t => is_Some (m !! t) /\ forall e, is_Some (m !! e) -> e <= t
  | None => m = ∅
  end.
Proof.
  unfold max_epoch. assert (Hf : forall l : list Z,
    match foldr (fun e acc => Some (match acc with Some x => Z.max e x | None => e end)) None l with
    | Some t => t ∈ l /\ forall e, e ∈ l -> e <= t
    | None => l = []
    end).
  { induction l as [|x l IH]; cbn; [done|]. destruct (foldr _ None l) as [t|].
    - destruct IH as [Ht Hmax]. split; [destruct (Z.max_spec x t) as [[_ ->]|[_ ->]]; [by right|by left]|].
      intros e [->|He]%elem_of_cons; [lia|]. specialize (Hmax e He). lia.
    - subst l. split; [by left|]. intros e [->|He]%elem_of_cons; [lia|by apply elem_of_nil in He]. }
  specialize (Hf (map fst (map_to_list m))).
  assert (Hd : forall e, e ∈ map fst (map_to_list m) <-> is_Some (m !! e)).
  { intros e. rewrite list_elem_of_fmap. split; [intros ([e' x] & -> & Hin%elem_of_map_to_list); by eexists|].
    intros [x Hx]. exists (e, x). split; [done|]. by apply elem_of_map_to_list. }
  destruct (foldr _ None _) as [t|]; [by setoid_rewrite Hd in Hf|]. apply map_eq. intros e. rewrite lookup_empty.
  destruct (m !! e) eqn:E; [|done]. assert (e ∈ map fst (map_to_list m)) as Hin by (apply Hd; by eexists). rewrite Hf in Hin. by apply elem_of_nil in Hin.
Qed.

Lemma max_epoch_eq m t : is_Some (m !! t) -> (forall e, is_Some (m !! e) -> e <= t) -> max_epoch m = Some t.
Proof.
  intros Ht Hmax. pose proof (max_epoch_spec m) as Hs. destruct (max_epoch m) as [t'|].
  - destruct Hs as [Ht' Hmax']. f_equal. specialize (Hmax t' Ht'). specialize (Hmax' t Ht). lia.
  - subst m. rewrite lookup_empty in Ht. by destruct Ht.
Qed.

Definition cutoff (top : Z) : Z := sat_sub top (CLAIM_WINDOW_EPOCHS + 2).

Lemma prune_lookup m t e : max_epoch m = Some t -> prune m !! e = if decide (cutoff t <= e) then m !! e else None.
Proof.
  intros Ht. unfold prune. rewrite Ht, map_lookup_filter. destruct (m !! e) as [x|]; cbn; [|by case_decide].
  fold (cutoff t). case_decide; [by rewrite option_guard_True|by rewrite option_guard_False].
Qed.

(** Pruning before adding is pruning after. *)
Lemma prune_union (A M : gmap Z SignedRecord) :
  (forall e, is_Some (M !! e) -> 0 <= e) -> prune (A ∪ prune M) = prune (A ∪ M).
Proof.
  intros Hpos. pose proof (max_epoch_spec M) as HM. destruct (max_epoch M) as [t|] eqn:Et; [|by subst M].
  destruct HM as [Ht Hmax]. pose proof (Hpos t Ht) as Ht0. assert (Hct : cutoff t <= t) by (unfold cutoff, sat_sub, CLAIM_WINDOW_EPOCHS; lia).
  assert (Hl : forall e, (A ∪ prune M) !! e = if decide (cutoff t <= e) then (A ∪ M) !! e else A !! e).
  { intros e. rewrite !lookup_union, (prune_lookup M t e Et). case_decide; [done|]. by destruct (A !! e). }
  pose proof (max_epoch_spec (A ∪ M)) as HN. destruct (max_epoch (A ∪ M)) as [u|] eqn:Eu.
  - destruct HN as [Hu Humax]. assert (Htu : t <= u) by (apply Humax; rewrite lookup_union_is_Some; by right).
    assert (Eu' : max_epoch (A ∪ prune M) = Some u).
    { apply max_epoch_eq; [by rewrite Hl, decide_True by lia|]. intros e. rewrite Hl. case_decide; [apply Humax|].
      intros He. apply Humax. rewrite lookup_union_is_Some. by left. }
    apply map_eq. intros e. rewrite (prune_lookup _ u e Eu), (prune_lookup _ u e Eu'), Hl.
    destruct (decide (cutoff u <= e)) as [Hc|]; [|done]. rewrite decide_True; [done|]. unfold cutoff, sat_sub in *. lia.
  - exfalso. assert (E : (A ∪ M) !! t = None) by (rewrite HN; apply lookup_empty). rewrite lookup_union_None in E. destruct Ht. destruct E. congruence.
Qed.

(** ** Scanning *)

Definition payloads (s : AccountSequence) : list bytes := map (fun c => payload (write c)) (commits s).

Section scan.
Context `{Postcard SignedRecord}.

(** Epochs are u64. *)
Context (epochs_unsigned : forall p sr, from_bytes p = Some sr -> 0 <= epoch (sr_record sr)).

Lemma index_union l m : foldl index_record m l = foldl index_record ∅ l ∪ m.
Proof.
  revert m. induction l as [|p l IH] using rev_ind; intros m; [cbn [foldl]; by rewrite (left_id_L ∅ (∪))|].
  rewrite !foldl_app. cbn [foldl]. rewrite IH. unfold index_record at 1 3. destruct (from_bytes p) as [sr|]; [|done]. by rewrite insert_union_l.
Qed.

Lemma index_unsigned l e : is_Some (foldl index_record ∅ l !! e) -> 0 <= e.
Proof.
  induction l as [|p l IH] using rev_ind; [cbn [foldl]; rewrite lookup_empty; by intros []|]. rewrite foldl_app. cbn [foldl]. unfold index_record at 1.
  destruct (from_bytes p) as [sr|] eqn:Ep; [|done]. rewrite lookup_insert_is_Some'. intros [<-|He]; [by eapply epochs_unsigned|auto].
Qed.

Lemma scan_new_spec fuel s c :
  0 <= mrc_next c <= next_nonce s -> next_nonce s - mrc_next c <= Z.of_nat fuel ->
  scan_new fuel s c = mk_mrc (next_nonce s) (foldl index_record (mrc_by_epoch c) (drop (Z.to_nat (mrc_next c)) (payloads s))).
Proof.
  revert c. induction fuel as [|fuel IH]; intros [n m] Hn Hf; cbn [scan_new mrc_next mrc_by_epoch] in *.
  - assert (n = next_nonce s) as -> by lia. f_equal. rewrite drop_ge; [done|]. unfold payloads, next_nonce. rewrite length_map. lia.
  - destruct (Z.ltb_spec n (next_nonce s)) as [Hlt|Hge].
    + unfold payload_at. destruct (commits s !! Z.to_nat n) as [c|] eqn:Ec; [|apply lookup_ge_None in Ec; unfold next_nonce in Hlt; lia].
      cbn [mbind option_bind]. rewrite IH by (cbn [mrc_next]; lia). cbn [mrc_next mrc_by_epoch]. f_equal.
      rewrite (drop_S (payloads s) (payload (write c)) (Z.to_nat n)) by (unfold payloads; by rewrite list_lookup_fmap, Ec).
      cbn [foldl]. by replace (Z.to_nat (n + 1)) with (S (Z.to_nat n)) by lia.
    + assert (n = next_nonce s) as -> by lia. f_equal. rewrite drop_ge; [done|]. unfold payloads, next_nonce. rewrite length_map. lia.
Qed.

(** The cache of a chain scanned from the start. *)
Definition scanned (s : AccountSequence) : MemberRecordCache := mk_mrc (next_nonce s) (prune (foldl index_record ∅ (payloads s))).

Lemma rescan_default s : rescan s mrc_default = scanned s.
Proof.
  unfold rescan. rewrite scan_new_spec; [|cbn; unfold next_nonce; lia|cbn; unfold next_nonce; lia]. cbn [mrc_next mrc_by_epoch mrc_default]. by rewrite drop_0.
Qed.

(** Resuming the scan of a chain that has grown gives what a scan from the
    start gives. *)
Lemma rescan_grown s s' : commits s `prefix_of` commits s' -> rescan s' (scanned s) = scanned s'.
Proof.
  intros [l El]. unfold rescan, scanned. assert (Ep : payloads s' = payloads s ++ map (fun c => payload (write c)) l) by (unfold payloads; by rewrite El, map_app).
  assert (Hl : length (payloads s) = length (commits s)) by apply length_map.
  rewrite scan_new_spec; [|cbn; unfold next_nonce; rewrite El, length_app; lia|cbn; unfold next_nonce; rewrite El, length_app; lia].
  cbn [mrc_next mrc_by_epoch]. f_equal. unfold next_nonce. rewrite Nat2Z.id, Ep, <- Hl, drop_app_length.
  rewrite foldl_app, index_union, (index_union _ (foldl index_record ∅ (payloads s))). apply prune_union. apply index_unsigned.
Qed.
End scan.

(** ** Agreement *)

Section agree.
Context {World : Type}.
Context {E : Ed25519} {B3 : Blake3} {PR : Postcard RewardRecord} {PS : Postcard SignedRecord} {PW : Postcard SequencedWrite}.

Implicit Types (net : RecordNet (World := World)) (c : RecordChain) (w : World) (q : Quorum).

Lemma elem_of_record_signers a q m :
  m ∈ record_signers a q <-> is_member q m = true /\ exists s, s ∈ ra_sigs a /\ cs_member s = m /\ sig_valid a s = true.
Proof.
  unfold record_signers. assert (Hf : forall l (X : gset key), m ∈ foldl (fun set s => if is_member q (cs_member s) && sig_valid a s then {[cs_member s]} ∪ set else set) X l <->
    m ∈ X \/ (is_member q m = true /\ exists s, s ∈ l /\ cs_member s = m /\ sig_valid a s = true)).
  { induction l as [|s l IH]; intros X; cbn [foldl].
    - split; [by left|]. intros [|(_ & s & Hs & _)]; [done|]. by apply elem_of_nil in Hs.
    - rewrite IH. setoid_rewrite elem_of_cons. destruct (is_member q (cs_member s) && sig_valid a s) eqn:Eb.
      + apply andb_true_iff in Eb as [Hm Hv]. rewrite elem_of_union, elem_of_singleton. split.
        * intros [[->|Hx]|(Hmm & s' & Hs' & Hr)]; [right; split; [done|]; exists s; auto|by left|right; split; [done|]; exists s'; auto].
        * intros [Hx|(Hmm & s' & [->|Hs'] & Em & Hr)]; [auto|left; left; congruence|right; split; [done|]; exists s'; auto].
      + split; [intros [Hx|(Hmm & s' & Hs' & Hr)]; [by left|right; split; [done|]; exists s'; auto]|].
        intros [Hx|(Hmm & s' & [->|Hs'] & Em & Hr)]; [by left|exfalso; subst m; rewrite Hmm, Hr in Eb; done|right; split; [done|]; exists s'; auto]. }
  rewrite Hf. set_solver.
Qed.

(** The signatures in circulation: those of the records chains. *)
Context (Circ : CommitteeSig -> Prop).

Definition chains_ok net : Prop :=
  forall m w s w', sequence_of net (records_owner net) records_cid m w = (Some s, w') ->
    forall p sr, p ∈ payloads s -> from_bytes p = Some sr -> Circ (sr_sig sr).

(** A record that enough of the committee signed. *)
Definition certified q (ep : Z) (r : RewardRecord) : Prop :=
  exists sigs, (forall s, s ∈ sigs -> Circ s) /\ is_canonical (mk_ra ep r sigs) q = true.

Record rc_ok q (ep : Z) c : Prop := {
  rk_scan : forall m e x sr, rc_scan c !! m = Some e -> mrc_by_epoch e !! x = Some sr -> Circ (sr_sig sr);
  rk_canon : forall r, rc_canonical c !! ep = Some r -> certified q ep r
}.

Lemma scan_new_from fuel s (c : MemberRecordCache) x sr :
  mrc_by_epoch (scan_new fuel s c) !! x = Some sr -> mrc_by_epoch c !! x = Some sr \/ exists p, p ∈ payloads s /\ from_bytes p = Some sr.
Proof.
  revert c. induction fuel as [|fuel IH]; intros c; cbn [scan_new]; [by left|]. destruct (_ <? _); [|by left].
  destruct (payload_at s (mrc_next c)) as [p|] eqn:Ep; [|by left]. intros [Hx|Hx]%IH; [|by right]. cbn in Hx. unfold index_record in Hx.
  destruct (from_bytes p) as [sr'|] eqn:Ef; [|by left]. apply lookup_insert_Some in Hx as [[_ <-]|[_ Hx]]; [|by left]. right. exists p. split; [|done].
  unfold payload_at in Ep. apply bind_Some in Ep as (c' & Hc & [= <-]). unfold payloads. apply list_elem_of_fmap. exists c'. split; [done|by eapply list_elem_of_lookup_2].
Qed.

Lemma prune_from m x sr : prune m !! x = Some sr -> m !! x = Some sr.
Proof. unfold prune. destruct (max_epoch m); [|done]. by intros [? _]%map_lookup_filter_Some. Qed.

Lemma share_ok net m ep c w q :
  chains_ok net -> rc_ok q ep c ->
  let '(r, c', _) := share_of_member net m ep c w in rc_ok q ep c' /\ forall sr, r = Some sr -> Circ (sr_sig sr).
Proof.
  intros Hch Hc. unfold share_of_member. destruct (sequence_of net _ _ m w) as [[s|] w'] eqn:Es; [|done].
  set (e := rescan s _). assert (He : forall x sr, mrc_by_epoch e !! x = Some sr -> Circ (sr_sig sr)).
  { intros x sr. unfold e, rescan. cbn [mrc_by_epoch]. intros [Hx|(p & Hp & Hf)]%prune_from%scan_new_from; [|by eapply Hch].
    destruct (rc_scan c !! m) as [e0|] eqn:E0; [by eapply (rk_scan _ _ _ Hc m e0)|]. cbn in Hx. by rewrite lookup_empty in Hx. }
  split; [|intros sr Hsr; by eapply He]. constructor; cbn; [|apply Hc]. intros m' e' x sr. rewrite lookup_insert_Some.
  intros [[_ <-]|[_ He']] Hx; [by eapply He|by eapply (rk_scan _ _ _ Hc)].
Qed.

Definition groups_ok (ep : Z) (g : gmap key RecordAttestation) : Prop :=
  forall k a, g !! k = Some a -> ra_epoch a = ep /\ forall s, s ∈ ra_sigs a -> Circ s.

Lemma group_share_ok ep g sr : groups_ok ep g -> Circ (sr_sig sr) -> groups_ok ep (group_share ep g sr).
Proof.
  intros Hg Hs. unfold group_share. set (k := Cid_of _). destruct (g !! k) as [a|] eqn:Ea.
  - destruct (Hg k a Ea) as [He Hc]. intros k' a'. rewrite lookup_insert_Some. intros [[_ <-]|[_ Ha']]; [|by eapply Hg].
    unfold add_sig. destruct (_ || _); cbn; [done|]. split; [done|]. intros s [Hin| ->%list_elem_of_singleton]%elem_of_app; auto.
  - intros k' a'. rewrite lookup_insert_Some. intros [[_ <-]|[_ Ha']]; [|by eapply Hg]. cbn. split; [done|]. by intros s ->%list_elem_of_singleton.
Qed.

Lemma group_members_ok net ep ms g c w q :
  chains_ok net -> rc_ok q ep c -> groups_ok ep g ->
  let '(g', c', _) := group_members net ep ms g c w in rc_ok q ep c' /\ groups_ok ep g'.
Proof.
  intros Hch. revert g c w. induction ms as [|m ms IH]; intros g c w Hc Hg; cbn [group_members]; [done|].
  pose proof (share_ok net m ep c w q Hch Hc) as Hs. destruct (share_of_member net m ep c w) as [[r c1] w1]. destruct Hs as [Hc1 Hr].
  apply IH; [done|]. destruct r as [sr|]; [|done]. apply group_share_ok; auto.
Qed.

(** What [canonical_record] answers is certified. *)
Lemma canonical_certified order net ep c w q :
  (forall g a, a ∈ order g -> exists k, g !! k = Some a) -> chains_ok net -> rc_ok q ep c ->
  (forall w, committee_for_epoch net records_cid ep w = Some q) ->
  let '(r, c', _) := canonical_record order net ep c w in rc_ok q ep c' /\ forall rec, r = Some rec -> certified q ep rec.
Proof.
  intros Ho Hch Hc Hq. unfold canonical_record. destruct (rc_canonical c !! ep) as [r|] eqn:Er; [split; [done|]; intros rec [= <-]; by apply Hc|].
  rewrite Hq. pose proof (group_members_ok net ep (members q) ∅ c w q Hch Hc) as Hg. destruct (group_members _ _ _ _ _ _) as [[g c1] w1].
  destruct Hg as [Hc1 Hg]; [intros k a; by rewrite lookup_empty|]. destruct (List.find _ (order g)) as [a|] eqn:Ef; [|done].
  apply List.find_some in Ef as [Hin%list_elem_of_In Hcan]. destruct (Ho g a Hin) as [k Hk]. destruct (Hg k a Hk) as [He Hs].
  assert (Hcert : certified q ep (ra_record a)) by (exists (ra_sigs a); destruct a; cbn in *; by subst).
  split; [|by intros rec [= <-]]. constructor; cbn; [apply Hc1|]. intros r. rewrite lookup_insert_eq. by intros [= <-].
Qed.

(** C24: One canonical record per epoch.  Two nodes that each find a canonical
    record of an epoch under the same committee find the same one, whatever the
    chains they read and the caches they have, as long as at most
    [byzantine_tolerance] members sign more than one record for the epoch. *)
Theorem canonical_records_agree (order1 order2 : gmap key RecordAttestation -> list RecordAttestation) net1 net2 (ep : Z) c1 c2 w1 w2 q (B : gset key)
    (signed : key -> option RewardRecord) (r1 r2 : RewardRecord) :
  quorum_wf q -> is_intersection_sized q = true -> Z.of_nat (size B) <= byzantine_tolerance q ->
  (forall s r, Circ s -> cs_member s ∈ members q -> cs_member s ∉ B ->
    verify_slice (cs_member s) (record_signing_bytes ep r) (cs_sig s) = true -> signed (cs_member s) = Some r) ->
  (forall g a, a ∈ order1 g -> exists k, g !! k = Some a) -> (forall g a, a ∈ order2 g -> exists k, g !! k = Some a) ->
  chains_ok net1 -> chains_ok net2 -> rc_ok q ep c1 -> rc_ok q ep c2 ->
  (forall w, committee_for_epoch net1 records_cid ep w = Some q) -> (forall w, committee_for_epoch net2 records_cid ep w = Some q) ->
  (canonical_record order1 net1 ep c1 w1).1.1 = Some r1 -> (canonical_record order2 net2 ep c2 w2).1.1 = Some r2 ->
  r1 = r2.
Proof.
  intros Hq Hint HB Hsig Ho1 Ho2 Hn1 Hn2 Hc1 Hc2 Hq1 Hq2 H1 H2.
  pose proof (canonical_certified order1 net1 ep c1 w1 q Ho1 Hn1 Hc1 Hq1) as C1. destruct (canonical_record order1 net1 ep c1 w1) as [[x1 ?] ?].
  pose proof (canonical_certified order2 net2 ep c2 w2 q Ho2 Hn2 Hc2 Hq2) as C2. destruct (canonical_record order2 net2 ep c2 w2) as [[x2 ?] ?].
  cbn in H1, H2. destruct C1 as [_ C1]. destruct C2 as [_ C2]. destruct (C1 r1 H1) as (s1 & Hs1 & Hk1%Z.leb_le). destruct (C2 r2 H2) as (s2 & Hs2 & Hk2%Z.leb_le).
  assert (Hsub : forall a, record_signers a q ⊆ list_to_set (members q)) by (intros a m [Hm _]%elem_of_record_signers; rewrite elem_of_list_to_set; by apply is_member_spec).
  destruct (intersection_has_honest q _ _ B Hq Hint (Hsub _) (Hsub _) Hk1 Hk2 HB) as (m & Hm1 & Hm2 & HmB).
  apply elem_of_record_signers in Hm1 as (Hmem & x & Hx & Ex & Hv). apply elem_of_record_signers in Hm2 as (_ & y & Hy & Ey & Hv').
  apply (is_member_spec q m Hq) in Hmem. unfold sig_valid in Hv, Hv'. cbn in Hv, Hv', Hx, Hy.
  pose proof (Hsig x r1 (Hs1 x Hx)) as Hp. pose proof (Hsig y r2 (Hs2 y Hy)) as Hp'. rewrite Ex in Hp, Hv. rewrite Ey in Hp', Hv'.
  specialize (Hp Hmem HmB Hv). specialize (Hp' Hmem HmB Hv'). congruence.
Qed.
End agree.

(** ** Finality *)

Section final.
Context {World : Type}.
Context {E : Ed25519} {B3 : Blake3} {PR : Postcard RewardRecord} {PS : Postcard SignedRecord} {PW : Postcard SequencedWrite}.
Context (epochs_unsigned : forall p sr, from_bytes p = Some sr -> 0 <= epoch (sr_record sr)).
Context (net : RecordNet (World := World)) (ep : Z) (q : Quorum) (Hq : quorum_wf q).

(** The chains, as the node reads them. *)
Context (chain : key -> option AccountSequence).
Context (reads : forall m w, exists w', sequence_of net (records_owner net) records_cid m w = (chain m, w')).

Definition latest_share (m : key) : option SignedRecord := s ← chain m; mrc_by_epoch (scanned s) !! ep.

(** A cache is the scan of what its chain was. *)
Definition scan_ok (c : RecordChain) : Prop :=
  forall m e, rc_scan c !! m = Some e -> exists s s0, chain m = Some s /\ e = scanned s0 /\ commits s0 `prefix_of` commits s.

Lemma share_of_member_latest m (c : RecordChain) (w : World) :
  scan_ok c -> exists c' w', share_of_member net m ep c w = (latest_share m, c', w') /\ scan_ok c'.
Proof.
  intros Hc. unfold share_of_member, latest_share. destruct (reads m w) as [w' ->]. destruct (chain m) as [s|] eqn:Es; [|by exists c, w'].
  assert (Hr : rescan s (default mrc_default (rc_scan c !! m)) = scanned s).
  { destruct (rc_scan c !! m) as [e|] eqn:Ee; cbn [default]; [|apply rescan_default]. destruct (Hc m e Ee) as (s1 & s0 & E1 & -> & Hp).
    assert (s1 = s) as -> by congruence. by apply rescan_grown. }
  rewrite Hr. eexists _, w'. split; [done|]. intros m' e. cbn. rewrite lookup_insert_Some. intros [[<- <-]|[_ He]]; [|by apply Hc].
  exists s, s. split; [done|]. split; [done|]. done.
Qed.

Context (r : RewardRecord).
Context (no_collision : forall r', Cid_of (to_allocvec r') = Cid_of (to_allocvec r) -> r' = r).

(** A member whose latest share is the record under its own valid signature. *)
Definition agrees (m : key) (s : CommitteeSig) : Prop :=
  latest_share m = Some (mk_sr r s) /\ cs_member s = m /\ verify_slice m (record_signing_bytes ep r) (cs_sig s) = true.

Definition gathered (done : list key) (g : gmap key RecordAttestation) : Prop :=
  match g !! Cid_of (to_allocvec r) with
  | Some a => ra_record a = r /\ ra_epoch a = ep /\ (forall s, s ∈ ra_sigs a -> cs_member s ∈ done) /\ forall m s, m ∈ done -> agrees m s -> s ∈ ra_sigs a
  | None => forall m s, m ∈ done -> ~ agrees m s
  end.

Lemma gathered_share done m g sr :
  gathered done g -> m ∉ done -> latest_share m = Some sr -> cs_member (sr_sig sr) = m -> gathered (done ++ [m]) (group_share ep g sr).
Proof.
  intros Hg Hm Hl Hown. assert (Hold : forall m' s, m' ∈ done ++ [m] -> agrees m' s -> m' ∈ done \/ (sr = mk_sr r s /\ cs_member s = m /\ verify_slice m (record_signing_bytes ep r) (cs_sig s) = true)).
  { intros m' s [Hin| ->%list_elem_of_singleton]%elem_of_app; [by left|]. intros (Hl' & Hs & Hv). right. split; [congruence|done]. }
  unfold gathered, group_share in *. set (k := Cid_of (to_allocvec (sr_record sr))). destruct (decide (k = Cid_of (to_allocvec r))) as [Ek|Hk].
  - assert (Er : sr_record sr = r) by (by apply no_collision). rewrite Ek. destruct (g !! Cid_of (to_allocvec r)) as [a|]; rewrite lookup_insert_eq.
    + destruct Hg as (Ea & Ee & Hin & Hall). unfold add_sig.
      assert (Hno : existsb (fun x => bool_decide (cs_member x = cs_member (sr_sig sr))) (ra_sigs a) = false).
      { apply not_true_iff_false. intros (x & Hx%list_elem_of_In & Ex%bool_decide_eq_true)%existsb_exists. rewrite Hown in Ex. apply Hm. rewrite <- Ex. by apply Hin. }
      rewrite Hno. cbn [orb]. destruct (sig_valid a (sr_sig sr)) eqn:Ev; cbn [negb snd ra_record ra_epoch ra_sigs].
      * split; [done|]. split; [done|]. split.
        -- intros s [Hs| ->%list_elem_of_singleton]%elem_of_app; apply elem_of_app; [left; auto|right; rewrite Hown; by apply list_elem_of_singleton].
        -- intros m' s Hm' Hag. apply elem_of_app. destruct (Hold m' s Hm' Hag) as [Hd|(-> & _)]; [left; by eapply Hall|right; by apply list_elem_of_singleton].
      * split; [done|]. split; [done|]. split; [intros s Hs; apply elem_of_app; auto|]. intros m' s Hm' Hag.
        destruct (Hold m' s Hm' Hag) as [Hd|(-> & Em & Hv)]; [by eapply Hall|]. unfold sig_valid in Ev. cbn [sr_sig] in Ev. rewrite Ea, Ee, Em in Ev. rewrite Hv in Ev. done.
    + cbn. split; [done|]. split; [done|]. split; [intros s ->%list_elem_of_singleton; apply elem_of_app; right; rewrite Hown; by apply list_elem_of_singleton|].
      intros m' s Hm' Hag. destruct (Hold m' s Hm' Hag) as [Hd|(-> & _)]; [by destruct (Hg m' s)|by left].
  - assert (Hstep : forall m' s, m' ∈ done ++ [m] -> agrees m' s -> m' ∈ done) by (intros m' s Hm' Hag; destruct (Hold m' s Hm' Hag) as [|(-> & _)]; [done|by destruct Hk]).
    assert (El : match g !! k with Some a => <[k := (add_sig a (sr_sig sr)).2]> g | None => <[k := ra_new ep (sr_record sr) (sr_sig sr)]> g end !! Cid_of (to_allocvec r) = g !! Cid_of (to_allocvec r))
      by (destruct (g !! k); by rewrite lookup_insert_ne).
    rewrite El. destruct (g !! Cid_of (to_allocvec r)) as [a|].
    + destruct Hg as (Ea & Ee & Hin & Hall). split; [done|]. split; [done|]. split; [intros s Hs; apply elem_of_app; auto|]. intros m' s Hm' Hag. by eapply Hall; [eapply Hstep|].
    + intros m' s Hm' Hag. by eapply Hg; [eapply Hstep|].
Qed.

Lemma gathered_members ms done g (c : RecordChain) (w : World) :
  (forall m sr, latest_share m = Some sr -> m ∈ ms -> cs_member (sr_sig sr) = m) -> base.NoDup (done ++ ms) -> scan_ok c -> gathered done g ->
  exists g' c' w', group_members net ep ms g c w = (g', c', w') /\ gathered (done ++ ms) g'.
Proof.
  revert done g c w. induction ms as [|m ms IH]; intros done g c w Hown Hnd Hc Hg; cbn [group_members]; [exists g, c, w; by rewrite app_nil_r|].
  destruct (share_of_member_latest m c w Hc) as (c1 & w1 & -> & Hc1). assert (Hm : m ∉ done).
  { apply list.NoDup_app in Hnd as (_ & Hd & _). intros Hin. apply (Hd m Hin). by left. }
  rewrite (assoc_L (++) done [m] ms : done ++ m :: ms = (done ++ [m]) ++ ms) in Hnd |- *.
  apply IH; [intros m' sr Hl Hin; apply Hown; [done|by right]|done|done|]. destruct (latest_share m) as [sr|] eqn:El.
  - apply gathered_share; [done|done|done|]. apply Hown; [done|by left].
  - unfold gathered in *. destruct (g !! _) as [a|].
    + destruct Hg as (Ea & Ee & Hin & Hall). split; [done|]. split; [done|]. split; [intros s Hs; apply elem_of_app; auto|].
      intros m' s [Hd| ->%list_elem_of_singleton]%elem_of_app Hag; [by eapply Hall|]. destruct Hag as [Hag _]. congruence.
    + intros m' s [Hd| ->%list_elem_of_singleton]%elem_of_app Hag; [by eapply Hg|]. destruct Hag as [Hag _]. congruence.
Qed.

(** C25: The shares of a quorum finalize an epoch.  When every member's latest share
    carries that member's signature and a threshold of the committee signed the
    same record, a node finds a canonical record, whatever part of the members'
    chains its scan cache has already seen. *)
Theorem quorum_of_shares_finalizes (order : gmap key RecordAttestation -> list RecordAttestation) (c : RecordChain) (w : World) (agreeing : list key) :
  (forall g k a, g !! k = Some a -> a ∈ order g) ->
  (forall w, committee_for_epoch net records_cid ep w = Some q) -> scan_ok c ->
  (forall m sr, latest_share m = Some sr -> m ∈ members q -> cs_member (sr_sig sr) = m) ->
  base.NoDup agreeing -> (forall m, m ∈ agreeing -> m ∈ members q /\ exists s, agrees m s) -> threshold q <= Z.of_nat (length agreeing) ->
  is_Some (canonical_record order net ep c w).1.1.
Proof.
  intros Ho Hcom Hc Hown Hnd Hag Ht. unfold canonical_record. destruct (rc_canonical c !! ep) as [rec|]; [by eexists|]. rewrite Hcom.
  destruct (gathered_members (members q) [] ∅ c w Hown) as (g & c1 & w1 & -> & Hg); [apply ascending_NoDup, Hq|done|unfold gathered; rewrite lookup_empty; intros m s Hm; by apply elem_of_nil in Hm|].
  cbn [app] in Hg. destruct (List.find _ (order g)) as [a|] eqn:Ef; [by eexists|]. exfalso.
  assert (Hthr : 1 <= threshold q) by apply Hq. destruct agreeing as [|m0 ms0] eqn:Eag; [cbn in Ht; lia|]. rewrite <- Eag in *.
  unfold gathered in Hg. destruct (g !! Cid_of (to_allocvec r)) as [a|] eqn:Ea.
  - destruct Hg as (Er & Ee & _ & Hall). pose proof (List.find_none _ _ Ef a) as Hn. rewrite <- list_elem_of_In in Hn. specialize (Hn (Ho _ _ _ Ea)).
    cbn in Hn. unfold is_canonical in Hn. apply Z.leb_gt in Hn.
    assert (Hsub : (list_to_set agreeing : gset key) ⊆ record_signers a q).
    { intros m Hm%elem_of_list_to_set. destruct (Hag m Hm) as (Hmem & s & Hs). apply elem_of_record_signers. split; [by apply is_member_spec|].
      exists s. split; [by eapply Hall|]. destruct Hs as (_ & Em & Hv). split; [done|]. unfold sig_valid. by rewrite Er, Ee, Em. }
    apply subseteq_size in Hsub. rewrite size_list_to_set in Hsub by done. lia.
  - assert (Hm0 : m0 ∈ agreeing) by (rewrite Eag; by left). destruct (Hag m0 Hm0) as (Hmem & s & Hs). by eapply Hg.
Qed.
End final.

(** ** Concrete committees *)

Module RecordsRuns.
#[local] Instance Share_countable : Countable Share.
Proof. refine (inj_countable' (fun s => (sprovider s, amount s, sbytes s, scumulative_bytes s)) (fun '(a, b, c, d) => mk_share a b c d) _). by intros []. Defined.
#[local] Instance Entitlement_countable : Countable Entitlement.
Proof. refine (inj_countable' (fun s => (consumer s, spent s, remaining s)) (fun '(a, b, c) => mk_entitlement a b c) _). by intros []. Defined.
#[local] Instance EconomicSnapshot_countable : Countable EconomicSnapshot.
Proof.
  refine (inj_countable' (fun s => (spool s, minted s, paid_watermarks s, served_watermarks s, seeding_next s, claimed s))
    (fun '(a, b, c, d, e, f) => mk_snapshot a b c d e f) _). by intros [].
Defined.
#[local] Instance RewardRecord_countable : Countable RewardRecord.
Proof.
  refine (inj_countable' (fun s => (epoch s, pool s, issued s, committed_pool s, cumulative_issued s, rpaid_marks s, rserved_marks s, rentitlements s, checkpoint s, shares s, state_hash s))
    (fun '(a, b, e, i, k, g, h, d, f, c, j) => mk_record a b c d e f g h i j k) _). by intros [].
Defined.
#[local] Instance CommitteeSig_countable : Countable CommitteeSig.
Proof. refine (inj_countable' (fun s => (cs_member s, cs_sig s)) (fun '(a, b) => mk_csig a b) _). by intros []. Defined.
#[local] Instance SignedRecord_countable : Countable SignedRecord.
Proof. refine (inj_countable' (fun s => (sr_record s, sr_sig s)) (fun '(a, b) => mk_sr a b) _). by intros []. Defined.

(** Signatures and hashes that bind what they are made of. *)
Definition coded (k m : bytes) : bytes := Zpos (countable.encode (k, m)) :: replicate 63 0.
#[local] Instance ed : Ed25519 := {|
  SigningKey := Z; verifying_key := key_of; dalek_sign := fun sk m => coded (key_of sk) m;
  from_bytes_ok := fun _ => true; verify_strict := fun k m s => bool_decide (s = coded k m)
|}.
#[local] Instance hash : Blake3 := {| blake3 := fun b => b |}.
#[local] Instance record_codec : Postcard RewardRecord := countable_codec.
#[local] Instance share_codec : Postcard SignedRecord := {|
  to_allocvec := fun a => [Zpos (countable.encode a)];
  from_bytes := fun b => match b with
    | [Zpos n] => sr ← countable.decode n; if 0 <=? epoch (sr_record sr) then Some sr else None
    | _ => None
    end
|}.
#[local] Existing Instance toy_write_codec.

Lemma coded_inj k m k' m' : coded k m = coded k' m' -> (k, m) = (k', m').
Proof. unfold coded. intros [= Ec]. by apply (inj countable.encode) in Ec. Qed.

Lemma epochs_unsigned p sr : from_bytes p = Some sr -> 0 <= epoch (sr_record sr).
Proof.
  cbn. destruct p as [|[|n|] [|? ?]]; try discriminate. intros (x & _ & Hx)%bind_Some. destruct (Z.leb_spec 0 (epoch (sr_record x))); [|discriminate].
  by injection Hx as <-.
Qed.

Definition toy_record : RewardRecord := mk_record 5 100 [mk_share [7] 100 10 10] [] 0 None [] [] 0 [] 0.
Definition committee (n : nat) (t : nat) : Quorum := genesis (map key_of (seqZ 1 (Z.of_nat n))) (Z.of_nat t).

Definition toy_share (id : Z) : CommitteeSig := sign_share 5 toy_record id.

(** The records chain of a member that wrote one payload. *)
Definition chain_with (m : key) (p : bytes) : AccountSequence := mk_seq m [mk_commit (mk_write m 0 p []) []].
Definition honest_chain (id : Z) : AccountSequence := chain_with (key_of id) (@to_allocvec SignedRecord share_codec (mk_sr toy_record (toy_share id))).

(** The chains of the first [n] members. *)
Definition first_members (n : Z) (m : key) : option AccountSequence :=
  match List.find (fun id => bool_decide (m = key_of id)) (seqZ 1 n) with Some id => Some (honest_chain id) | None => None end.

Definition toy_net (q : Quorum) (chain : key -> option AccountSequence) : RecordNet (World := unit) := {|
  committee_for_epoch := fun _ _ _ => Some q;
  sequence_of := fun _ _ m w => (chain m, w);
  sequence := fun _ _ _ w => (true, w);
  anchor_owner := fun k => k
|}.

Definition listed (g : gmap key RecordAttestation) : list RecordAttestation := map snd (map_to_list g).

Lemma listed_all g k a : g !! k = Some a -> a ∈ listed g.
Proof. intros Hk. apply list_elem_of_fmap. exists (k, a). split; [done|]. by apply elem_of_map_to_list. Qed.

Lemma listed_from g a : a ∈ listed g -> exists k, g !! k = Some a.
Proof. intros ([k x] & -> & Hin%elem_of_map_to_list)%list_elem_of_fmap. by exists k. Qed.

(** What the members signed. *)
Definition toy_circ (s : CommitteeSig) : Prop := exists id, s = toy_share id.

Lemma toy_signed s r : toy_circ s -> verify_slice (cs_member s) (record_signing_bytes 5 r) (cs_sig s) = true -> toy_record = r.
Proof.
  intros [id ->]. unfold toy_share, sign_share, verify_slice. cbn [cs_member cs_sig]. change (@sign ed id ?x) with (coded (key_of id) x). rewrite (eq_refl : length (coded _ _) =? 64 = true)%nat.
  unfold verify. cbn [from_bytes_ok verify_strict ed andb node_id]. intros Hv%bool_decide_eq_true. apply coded_inj, (f_equal snd) in Hv. cbn [snd] in Hv. unfold record_signing_bytes in Hv.
  do 2 apply app_inv_head in Hv. unfold Cid_of in Hv. cbn [blake3 hash to_allocvec record_codec countable_codec] in Hv.
  assert (Er : countable.encode toy_record = countable.encode r) by congruence. by apply (inj countable.encode) in Er.
Qed.

Lemma first_members_inv n m s : first_members n m = Some s -> exists id, m = key_of id /\ s = honest_chain id.
Proof.
  unfold first_members. destruct (List.find _ _) as [id|] eqn:Ef; [|done]. intros [= <-]. apply List.find_some in Ef as [_ Em%bool_decide_eq_true]. by exists id.
Qed.

Lemma share_roundtrip (sr : SignedRecord) : 0 <= epoch (sr_record sr) -> from_bytes (@to_allocvec SignedRecord share_codec sr) = Some sr.
Proof. intros He. cbn [from_bytes to_allocvec share_codec]. rewrite decode_encode. cbn [mbind option_bind]. by rewrite (proj2 (Z.leb_le _ _) He). Qed.

Lemma toy_chains_ok q n : chains_ok toy_circ (toy_net q (first_members n)).
Proof.
  intros m w s w'. cbn [sequence_of toy_net]. intros [= Hs _]. apply first_members_inv in Hs as (id & -> & ->). intros p sr ->%list_elem_of_singleton.
  cbn [write payload]. rewrite share_roundtrip by done. intros [= <-]. by exists id.
Qed.

Lemma new_chain_ok q id : rc_ok toy_circ q 5 (rc_new id).
Proof. split; cbn; intros *; rewrite lookup_empty; discriminate. Qed.

Lemma honest_latest id : mrc_by_epoch (scanned (honest_chain id)) !! 5 = Some (mk_sr toy_record (toy_share id)).
Proof.
  set (sr := mk_sr toy_record (toy_share id)).
  assert (Ei : foldl index_record ∅ (payloads (honest_chain id)) = {[ 5 := sr ]}).
  { cbn [foldl payloads honest_chain chain_with commits map write payload]. unfold index_record. by rewrite share_roundtrip. }
  unfold scanned. cbn [mrc_by_epoch]. rewrite Ei, (prune_lookup _ 5); [by rewrite decide_True, lookup_singleton_eq by (vm_compute; discriminate)|].
  apply max_epoch_eq; [by rewrite lookup_singleton_eq; eexists|]. intros e [x Hx]. apply lookup_singleton_Some in Hx as [<- _]. lia.
Qed.


(** Two of three members have signed for one node, all three for the other. *)
Lemma first_node_finds : (canonical_record listed (toy_net (committee 3 2) (first_members 2)) 5 (rc_new 9) ()).1.1 = Some toy_record.
Proof. by vm_compute. Qed.

Lemma second_node_finds : (canonical_record listed (toy_net (committee 3 2) (first_members 3)) 5 (rc_new 8) ()).1.1 = Some toy_record.
Proof. by vm_compute. Qed.

Lemma canonical_records_agree_witness :
  exists r1 r2,
    (canonical_record listed (toy_net (committee 3 2) (first_members 2)) 5 (rc_new 9) ()).1.1 = Some r1 /\
    (canonical_record listed (toy_net (committee 3 2) (first_members 3)) 5 (rc_new 8) ()).1.1 = Some r2 /\ r1 = r2.
Proof.
  exists toy_record, toy_record. split; [exact first_node_finds|]. split; [exact second_node_finds|].
  refine (canonical_records_agree toy_circ listed listed (toy_net (committee 3 2) (first_members 2)) (toy_net (committee 3 2) (first_members 3)) 5
    (rc_new 9) (rc_new 8) () () (committee 3 2) ∅ (fun _ => Some toy_record) toy_record toy_record
    (genesis_wf _ _) _ _ _ listed_from listed_from (toy_chains_ok _ _) (toy_chains_ok _ _) (new_chain_ok _ _) (new_chain_ok _ _) (fun _ => eq_refl) (fun _ => eq_refl)
    first_node_finds second_node_finds).
  - by vm_compute.
  - by vm_compute.
  - intros s r Hs _ _ Hv. f_equal. by apply (toy_signed s).
Defined.

Lemma member_agrees id r :
  first_members 2 (key_of id) = Some (honest_chain id) -> r = toy_record -> agrees 5 (first_members 2) r (key_of id) (toy_share id).
Proof.
  intros Hf ->. split; [unfold latest_share; rewrite Hf; cbn [mbind option_bind]; apply honest_latest|]. split; [done|].
  unfold toy_share, sign_share, verify_slice. cbn [cs_sig]. change (@sign ed id ?x) with (coded (key_of id) x). rewrite (eq_refl : length (coded _ _) =? 64 = true)%nat.
  unfold verify. cbn [from_bytes_ok verify_strict ed andb]. by apply bool_decide_eq_true.
Qed.

Lemma toy_binding r' : Cid_of (to_allocvec r') = Cid_of (to_allocvec toy_record) -> r' = toy_record.
Proof.
  unfold Cid_of. cbn [blake3 hash to_allocvec record_codec countable_codec]. intros Hr.
  assert (Er : countable.encode r' = countable.encode toy_record) by congruence. by apply (inj countable.encode) in Er.
Qed.

Lemma latest_own m sr : latest_share 5 (first_members 2) m = Some sr -> cs_member (sr_sig sr) = m.
Proof.
  unfold latest_share. intros (s & (id & -> & ->)%first_members_inv & Hl)%bind_Some. rewrite honest_latest in Hl. by injection Hl as <-.
Qed.

(** Two shares of three finalize an epoch. *)
Lemma quorum_of_shares_finalizes_witness :
  is_Some (canonical_record listed (toy_net (committee 3 2) (first_members 2)) 5 (rc_new 9) ()).1.1.
Proof.
  refine (quorum_of_shares_finalizes epochs_unsigned (toy_net (committee 3 2) (first_members 2)) 5 (committee 3 2) (genesis_wf _ _) (first_members 2)
    (fun m w => ex_intro _ w eq_refl) toy_record toy_binding listed (rc_new 9) () [key_of 1; key_of 2] listed_all (fun _ => eq_refl) _ _ _ _ _).
  - intros m e. cbn. by rewrite lookup_empty.
  - intros m sr Hl _. by apply latest_own.
  - by apply (bool_decide_unpack _); vm_compute.
  - intros m Hm. apply elem_of_cons in Hm as [->|Hm]; [|apply list_elem_of_singleton in Hm as ->];
      (split; [by apply (bool_decide_unpack _); vm_compute|eexists; by apply member_agrees]).
  - by vm_compute.
Defined.

(** ** A share in another member's name *)

(** The first member's chain: the record under the second member's name. *)
Definition borrowed_chain : AccountSequence :=
  chain_with (key_of 1) (@to_allocvec SignedRecord share_codec (mk_sr toy_record (mk_csig (key_of 2) (replicate 64 0)))).

Definition three_honest (first : option AccountSequence) (m : key) : option AccountSequence :=
  if bool_decide (m = key_of 1) then first else first_members 4 m.

(** Three of four members sign; the first member's share, in the second's name,
    takes the place of the second's, and no record is found. *)
Example borrowed_name_blocks_finality :
  (canonical_record listed (toy_net (committee 4 3) (three_honest None)) 5 (rc_new 9) ()).1.1 = Some toy_record /\
  (canonical_record listed (toy_net (committee 4 3) (three_honest (Some borrowed_chain))) 5 (rc_new 9) ()).1.1 = None.
Proof. split; by vm_compute. Qed.
End RecordsRuns.
