(* ===== verification/Economy.v ===== *)
(** The egress economy of a node.  First its economic store
    ([crates/noded/src/econ_store.rs]): the economic position as five SQL tables,
    written as a batch of statements and read back in key order; a batch stops at
    the first statement that fails, a primary key being there already, and what
    ran before it stays.  Then the service ([economy_egress.rs]): the settlement
    store with its database, the adoption of canonical records, the share of a
    claim, and an account's view of its own position. *)

From S2P Require Import Prelude Crypto Attestation Sequencer Token Subscription Reward Settlement Records.

Open Scope Z_scope.

(** [v as i64]. *)
Definition to_i64 (v : Z) : Z := (v + 9223372036854775808) mod 18446744073709551616 - 9223372036854775808.

Record EconDb := mk_econ {
  econ_singleton : gmap string Z;
  econ_paid_wm : gmap key Z;
  econ_served_wm : gmap (key * key) Z;
  econ_seeding : gmap key Z;
  econ_claims : gset (Z * key)
}.

Definition econ_empty : EconDb := mk_econ ∅ ∅ ∅ ∅ ∅.

(** The statements of a batch; the schema creates what is not there. *)
Inductive Stmt :=
  | Schema
  | DeleteAll
  | InsSingle (pool minted : Z)
  | InsPaid (account : key) (v : Z)
  | InsServed (provider consumer : key) (v : Z)
  | InsSeeding (account : key) (next : Z)
  | InsClaim (epoch : Z) (provider : key).

Definition insert_row {K} `{Countable K} (k : K) (v : Z) (t : gmap K Z) : option (gmap K Z) :=
  match t !! k with Some _ => None | None => Some (<[k := v]> t) end.

Definition exec (s : Stmt) (db : EconDb) : option EconDb :=
  match s with
  | Schema => Some db
  | DeleteAll => Some econ_empty
  | InsSingle pool minted =>
      t ← insert_row "pool"%string pool (econ_singleton db); t ← insert_row "minted"%string minted t;
      Some (mk_econ t (econ_paid_wm db) (econ_served_wm db) (econ_seeding db) (econ_claims db))
  | InsPaid a v =>
      t ← insert_row a v (econ_paid_wm db); Some (mk_econ (econ_singleton db) t (econ_served_wm db) (econ_seeding db) (econ_claims db))
  | InsServed p c v =>
      t ← insert_row (p, c) v (econ_served_wm db); Some (mk_econ (econ_singleton db) (econ_paid_wm db) t (econ_seeding db) (econ_claims db))
  | InsSeeding a n =>
      t ← insert_row a n (econ_seeding db); Some (mk_econ (econ_singleton db) (econ_paid_wm db) (econ_served_wm db) t (econ_claims db))
  | InsClaim e p =>
      if bool_decide ((e, p) ∈ econ_claims db) then None
      else Some (mk_econ (econ_singleton db) (econ_paid_wm db) (econ_served_wm db) (econ_seeding db) ({[(e, p)]} ∪ econ_claims db))
  end.

Fixpoint exec_batch (l : list Stmt) (db : EconDb) : bool * EconDb :=
  match l with
  | [] => (true, db)
  | s :: l' => match exec s db with Some db' => exec_batch l' db' | None => (false, db) end
  end.

Definition persist_batch (snap : EconomicSnapshot) : list Stmt :=
  [Schema; DeleteAll; InsSingle (to_i64 (spool snap)) (to_i64 (Reward.minted snap))] ++
  map (fun kv => InsPaid kv.1 (to_i64 kv.2)) (paid_watermarks snap) ++
  map (fun x => InsServed x.1.1 x.1.2 (to_i64 x.2)) (served_watermarks snap) ++
  map (fun kv => InsSeeding kv.1 (to_i64 kv.2)) (Reward.seeding_next snap) ++
  map (fun ep => InsClaim (to_i64 ep.1) ep.2) (Reward.claimed snap).

Definition persist (db : EconDb) (snap : EconomicSnapshot) : bool * EconDb := exec_batch (persist_batch snap) db.

(** [<[u8; 32]>::try_from(a)]. *)
Definition is_key (a : key) : bool := (length a =? 32)%nat.

Definition load (db : EconDb) : EconomicSnapshot :=
  mk_snapshot (as_u64 (default 0 (econ_singleton db !! "pool"%string))) (as_u64 (default 0 (econ_singleton db !! "minted"%string)))
    (omap (fun kv => if is_key kv.1 then Some (kv.1, as_u64 kv.2) else None) (btree_iter (econ_paid_wm db)))
    (omap (fun x => if is_key x.1.1 && is_key x.1.2 then Some (x.1, as_u64 x.2) else None) (btree_iter (econ_served_wm db)))
    (omap (fun kv => if is_key kv.1 then Some (kv.1, as_u64 kv.2) else None) (btree_iter (econ_seeding db)))
    (omap (fun ep => if is_key ep.2 then Some (as_u64 ep.1, ep.2) else None) (bset_iter (econ_claims db))).

(** ** Rows *)

Lemma to_i64_back v : is_u64 v -> as_u64 (to_i64 v) = v.
Proof.
  unfold is_u64, U64_MAX, as_u64, to_i64. intros Hv. rewrite Zminus_mod_idemp_l. rewrite Z.add_simpl_r. apply Z.mod_small. lia.
Qed.

Lemma to_i64_small v : 0 <= v < 9223372036854775808 -> to_i64 v = v.
Proof. intros Hv. unfold to_i64. rewrite Z.mod_small by lia. lia. Qed.

Lemma exec_batch_app l k db db' : exec_batch l db = (true, db') -> exec_batch (l ++ k) db = exec_batch k db'.
Proof.
  revert db. induction l as [|s l IH]; intros db; cbn; [by intros [= ->]|]. destruct (exec s db); [apply IH|discriminate].
Qed.

(** Inserting rows with fresh, distinct keys. *)
Definition add_rows {K} `{Countable K} (l : list (K * Z)) (t : gmap K Z) : gmap K Z := foldl (fun m '(k, v) => <[k := v]> m) t l.

Lemma exec_rows {K} `{Countable K} (f : K * Z -> Stmt) (put : gmap K Z -> EconDb -> EconDb) (get : EconDb -> gmap K Z) (l : list (K * Z)) db :
  (forall kv db, exec (f kv) db = t ← insert_row kv.1 (to_i64 kv.2) (get db); Some (put t db)) ->
  (forall t db, get (put t db) = t) -> (forall t u db, put t (put u db) = put t db) -> (forall db, put (get db) db = db) ->
  NoDup (map fst l) -> (forall k, k ∈ map fst l -> get db !! k = None) ->
  exec_batch (map f l) db = (true, put (add_rows (map (prod_map id to_i64) l) (get db)) db).
Proof.
  intros Hf Hgp Hpp Hpg. revert db. induction l as [|[k v] l IH]; intros db Hnd Hfresh; cbn [map exec_batch add_rows foldl]; [by rewrite Hpg|].
  apply list.NoDup_cons in Hnd as [Hk Hnd]. rewrite Hf. unfold insert_row. cbn [fst snd]. rewrite (Hfresh k) by (by left). cbn [mbind option_bind].
  rewrite IH; [by rewrite Hgp, Hpp|done|]. intros k' Hk'. rewrite Hgp, lookup_insert_ne; [apply Hfresh; by right|]. by intros <-.
Qed.

Lemma exec_claims l db :
  NoDup l -> Forall (fun ep : Z * key => 0 <= ep.1 < 9223372036854775808) l -> (forall x, x ∈ l -> x ∉ econ_claims db) ->
  exec_batch (map (fun ep => InsClaim (to_i64 ep.1) ep.2) l) db =
    (true, mk_econ (econ_singleton db) (econ_paid_wm db) (econ_served_wm db) (econ_seeding db) (list_to_set l ∪ econ_claims db)).
Proof.
  revert db. induction l as [|[e p] l IH]; intros db Hnd Hs Hfresh; cbn [map exec_batch list_to_set].
  - rewrite (left_id_L ∅ (∪)). by destruct db.
  - apply list.NoDup_cons in Hnd as [Hk Hnd]. apply Forall_cons_iff in Hs as [He Hs]. cbn [exec fst snd]. rewrite to_i64_small by done.
    rewrite bool_decide_eq_false_2 by (apply Hfresh; by left). rewrite IH; [|done|done|].
    + cbn. do 2 f_equal. set_solver.
    + cbn. intros x Hx. specialize (Hfresh x). set_solver.
Qed.

(** Reading back in key order what was inserted in key order. *)
Lemma btree_iter_fmap {K} `{Countable K, OrdLaws K} (f : Z -> Z) (m : gmap K Z) :
  btree_iter (f <$> m) = map (prod_map id f) (btree_iter m).
Proof.
  assert (Hs : StronglySorted (fun x y => cmp (fst x) (fst y) = Lt) (map (prod_map id f) (btree_iter m))).
  { pose proof (btree_iter_strict m) as Hm. induction Hm as [|x l Hl IH Hx]; cbn; constructor; [done|]. rewrite Forall_map. by revert Hx; apply Forall_impl. }
  assert (Hp : map_to_list (f <$> m) ≡ₚ map (prod_map id f) (btree_iter m)) by (by rewrite map_to_list_fmap, btree_iter_perm).
  unfold btree_iter at 1. rewrite (sort_by_key_canonical fst _ _ Hp).
  - apply sort_by_id, StronglySorted_Sorted. revert Hs. apply StronglySorted_weaken. intros x y E. unfold le_on. by rewrite E.
  - intros [k v] [k' v'] Hx Hy. cbn. intros <-. apply elem_of_map_to_list in Hx, Hy. congruence.
Qed.

Lemma table_back {K} `{Countable K, OrdLaws K} (ok : K -> bool) (m : gmap K Z) :
  Forall (fun kv => ok kv.1 = true /\ is_u64 kv.2) (btree_iter m) ->
  omap (fun kv => if ok kv.1 then Some (kv.1, as_u64 kv.2) else None) (btree_iter (add_rows (map (prod_map id to_i64) (btree_iter m)) ∅)) = btree_iter m.
Proof.
  intros Hok. unfold add_rows. rewrite <- btree_iter_fmap, collect_btree, btree_iter_fmap.
  induction Hok as [|[k v] l [Hk Hv] Hl IH]; [done|]. cbn in *. rewrite Hk. cbn. by rewrite to_i64_back, IH.
Qed.

Lemma exec_header db pool minted :
  exec_batch [Schema; DeleteAll; InsSingle pool minted] db = (true, mk_econ (<["minted"%string := minted]> {["pool"%string := pool]}) ∅ ∅ ∅ ∅).
Proof. reflexivity. Qed.

(** The economic position survives the store.  Writing the snapshot of a
    settlement store replaces whatever the tables held, succeeds, and reads back
    as the same snapshot, so its hash is the one the record committed to; the
    epochs of its claims have to fit an i64. *)
Theorem economic_state_survives_the_store (db : EconDb) (s : SettlementStore) :
  snapshot_ok (snapshot s) -> Forall (fun ep => ep.1 < 9223372036854775808) (Reward.claimed (snapshot s)) ->
  (persist db (snapshot s)).1 = true /\ load (persist db (snapshot s)).2 = snapshot s.
Proof.
  intros (Hp & Hm & Hpw & Hsn & Hsw & Hcl & _) Hsmall. unfold persist, persist_batch.
  rewrite (exec_batch_app _ _ _ _ (exec_header db _ _)).
  cbn [snapshot paid_watermarks served_watermarks Reward.seeding_next Reward.claimed spool Reward.minted] in *. unfold seeding_eligibility in *.
  erewrite exec_batch_app by (apply (exec_rows _ (fun t db => mk_econ (econ_singleton db) t (econ_served_wm db) (econ_seeding db) (econ_claims db)) econ_paid_wm); [done|done|done|by intros []|apply NoDup_btree_keys|intros; apply lookup_empty]).
  erewrite exec_batch_app by (apply (exec_rows _ (fun t db => mk_econ (econ_singleton db) (econ_paid_wm db) t (econ_seeding db) (econ_claims db)) econ_served_wm); [by intros [[]] |done|done|by intros []|apply NoDup_btree_keys|intros; apply lookup_empty]).
  erewrite exec_batch_app by (apply (exec_rows _ (fun t db => mk_econ (econ_singleton db) (econ_paid_wm db) (econ_served_wm db) t (econ_claims db)) econ_seeding); [done|done|done|by intros []|apply NoDup_btree_keys|intros; apply lookup_empty]).
  rewrite exec_claims; [|apply ascending_NoDup, bset_iter_ascending| |intros x _; cbn; apply not_elem_of_empty].
  2:{ rewrite list.Forall_forall in Hcl, Hsmall |- *. intros x Hx. specialize (Hcl x Hx) as [He _]. specialize (Hsmall x Hx). unfold is_u64 in He. lia. }
  cbn [fst snd]. split; [done|]. unfold load. cbn [econ_singleton econ_paid_wm econ_served_wm econ_seeding econ_claims].
  unfold snapshot, seeding_eligibility. f_equal.
  - rewrite lookup_insert_ne, lookup_singleton_eq by done. by apply to_i64_back.
  - rewrite lookup_insert_eq. by apply to_i64_back.
  - apply table_back. revert Hpw. apply Forall_impl. intros x [Hk Hv]. split; [by apply Nat.eqb_eq|done].
  - apply (table_back (fun k => is_key k.1 && is_key k.2)). revert Hsw. apply Forall_impl. intros x (Hk & Hk' & Hv). split; [|done].
    unfold is_key. by rewrite Hk, Hk'.
  - apply table_back. revert Hsn. apply Forall_impl. intros x [Hk Hv]. split; [by apply Nat.eqb_eq|done].
  - rewrite (right_id_L ∅ (∪)). assert (El : (list_to_set (bset_iter (claims s)) : gset (Z * key)) = claims s).
    { apply set_eq. intros x. rewrite elem_of_list_to_set. unfold bset_iter, sort. by rewrite elem_of_sort_by, elem_of_elements. }
    rewrite El. clear El Hsmall. induction Hcl as [|[e k] l [He Hk] Hl IH]; [done|]. cbn in *. unfold is_key. rewrite Hk. cbn. rewrite as_u64_id by done. by f_equal.
Qed.

Definition ex_position : SettlementStore :=
  with_records (with_marks sstore_new {[ key_of 1 := 5; key_of 2 := 9 ]} {[ (key_of 1, key_of 2) := 7 ]}) ∅ {[ (3, key_of 1) ]}.

Lemma economic_state_survives_the_store_witness :
  (persist econ_empty (snapshot ex_position)).1 = true /\ load (persist econ_empty (snapshot ex_position)).2 = snapshot ex_position.
Proof.
  assert (Es : snapshot ex_position = mk_snapshot 0 0 [(key_of 1, 5); (key_of 2, 9)] [((key_of 1, key_of 2), 7)] [] [(3, key_of 1)]) by (vm_compute; reflexivity).
  apply economic_state_survives_the_store; rewrite Es.
  - unfold snapshot_ok, is_u64, U64_MAX. cbn. split_and!; try lia; repeat (constructor; [unfold mark_ok, served_ok, claim_ok, is_u64, U64_MAX; cbn; split_and!; first [done|lia]|]); constructor.
  - repeat constructor.
Defined.

(** ** The service *)

(** [VIEW_TTL], 20 seconds, in milliseconds. *)
Definition VIEW_TTL : Z := 20000.

Record MyView := mk_view { settled_bytes : Z; subscription_bytes : Z; view_pool : Z; view_owed : Z }.
Definition view_default : MyView := mk_view 0 0 0 0.

(** The record chain is shared with the settlement loop; here is whether it has
    been attached. *)
Record EconomyEgressService := mk_ee {
  ee_settlement : SettlementStore;
  ee_chain : bool;
  ee_view : option (Z * key * MyView);
  ee_db : option EconDb
}.

Definition ee_new : EconomyEgressService := mk_ee sstore_new false None None.

Definition with_settlement (e : EconomyEgressService) (s : SettlementStore) : EconomyEgressService :=
  mk_ee s (ee_chain e) (ee_view e) (ee_db e).

Definition set_record_chain (e : EconomyEgressService) : EconomyEgressService :=
  mk_ee (ee_settlement e) true (ee_view e) (ee_db e).
Definition set_econ_db (e : EconomyEgressService) (db : EconDb) : EconomyEgressService :=
  mk_ee (ee_settlement e) (ee_chain e) (ee_view e) (Some db).

Definition ee_set_bytes_per_token (e : EconomyEgressService) (b : Z) := with_settlement e (set_bytes_per_token (ee_settlement e) b).
Definition ee_set_seeding_paid_tier (e : EconomyEgressService) (b : Z) := with_settlement e (set_seeding_tier (ee_settlement e) b).
Definition ee_set_issuance (e : EconomyEgressService) (per_day total_cap : Z) := with_settlement e (set_issuance (ee_settlement e) per_day total_cap).
Definition ee_set_window (e : EconomyEgressService) (millis : Z) := with_settlement e (set_window (ee_settlement e) millis).

Definition local_record (e : EconomyEgressService) (epoch : Z) : option RewardRecord := Settlement.records (ee_settlement e) !! epoch.
Definition mark_claimed (e : EconomyEgressService) (epoch : Z) (node : key) := with_settlement e (claim (ee_settlement e) epoch node).2.

(** The pure sum: a claimed epoch is not owed. *)
Definition sum_unclaimed_shares (account : key) (window : list RewardRecord) (claimed : gset Z) : Z :=
  foldl sat_add 0 (map (fun r => share_of r account) (filter (fun r => epoch r ∉ claimed) window)).

(** [window.iter().find_map(f)]. *)
Fixpoint find_map {A B} (f : A -> option B) (l : list A) : option B :=
  match l with [] => None | x :: l' => match f x with Some y => Some y | None => find_map f l' end end.

Section economy.
Context {World : Type}.
Context `{Ed25519} `{Blake3} `{Postcard RewardRecord} `{Postcard SignedRecord} `{Postcard SequencedWrite}.
Context (order : gmap key RecordAttestation -> list RecordAttestation) (net : RecordNet (World := World)).

(** [None] is a panic. *)
Definition settle_from_board (e : EconomyEgressService) (ep : Z) (paid : list (key * Z)) (rows : list ChequeRow) : option (RewardRecord * EconomyEgressService) :=
  '(r, s) ← settle_epoch_from_cheques (ee_settlement e) ep paid rows; Some (r, with_settlement e s).

Definition dev_settle_epoch (e : EconomyEgressService) (ep pool : Z) (cs : list Contribution) : option (RewardRecord * EconomyEgressService) :=
  '(r, s) ← settle_epoch_with_pool (ee_settlement e) ep pool cs; Some (r, with_settlement e s).

Definition adopt_canonical_state (ep : Z) (e : EconomyEgressService) (c : RecordChain) (w : World) : bool * EconomyEgressService * RecordChain * World :=
  if negb (ee_chain e) then (false, e, c, w)
  else
    let '(r, c, w) := canonical_record order net ep c w in
    match r with
    | None => (false, e, c, w)
    | Some rec => (true, with_settlement e (adopt_canonical (ee_settlement e) rec), c, w)
    end.

Definition persist_economic_state (e : EconomyEgressService) : bool * EconomyEgressService :=
  match ee_db e with
  | None => (true, e)
  | Some db =>
      let '(ok, db) := persist db (committed (ee_settlement e)) in
      (ok, mk_ee (ee_settlement e) (ee_chain e) (ee_view e) (Some db))
  end.

Definition load_and_verify_economic_state (expected : key) (e : EconomyEgressService) : bool * EconomyEgressService :=
  match ee_db e with
  | None => (false, e)
  | Some db =>
      let loaded := load db in
      if bool_decide (hash_of_state loaded <> expected) then (false, e)
      else (true, with_settlement e (restore (ee_settlement e) loaded))
  end.

(** ** An account's view *)

Definition cached_view (now : Z) (account : key) (e : EconomyEgressService) : option MyView :=
  match ee_view e with
  | Some (at_, who, view) => if bool_decide (who = account) && (now - at_ <? VIEW_TTL) then Some view else None
  | None => None
  end.

Definition last_view (account : key) (e : EconomyEgressService) : option MyView :=
  match ee_view e with
  | Some (_, who, view) => if bool_decide (who = account) then Some view else None
  | None => None
  end.

(** The canonical records of a list of epochs. *)
Fixpoint collect_window (es : list Z) (c : RecordChain) (w : World) : list RewardRecord * RecordChain * World :=
  match es with
  | [] => ([], c, w)
  | e :: es' =>
      let '(r, c, w) := canonical_record order net e c w in
      let '(rs, c, w) := collect_window es' c w in
      (match r with Some rec => rec :: rs | None => rs end, c, w)
  end.

Definition window_epochs_desc (now_epoch : Z) : list Z :=
  let start := sat_sub now_epoch CLAIM_WINDOW_EPOCHS in rev (seqZ start (now_epoch - start + 1)).

(** [None] is the panic of [pool_remaining]. *)
Definition view_of (account : key) (claimed : gset Z) (window : list RewardRecord) : option MyView :=
  pool ← match window with r :: _ => pool_remaining r | [] => Some 0 end;
  Some (mk_view (default 0 (find_map (fun r => cumulative_bytes_of r account) window)) (default 0 (find_map (fun r => remaining_for r account) window))
    pool (sum_unclaimed_shares account window claimed)).

Definition derive_view (account : key) (claimed : gset Z) (now_epoch : Z) (e : EconomyEgressService) (c : RecordChain) (w : World) : option (MyView * RecordChain * World) :=
  if negb (ee_chain e) then Some (view_default, c, w)
  else
    let '(window, c, w) := collect_window (window_epochs_desc now_epoch) c w in
    v ← view_of account claimed window; Some (v, c, w).

(** [locked]: the derivation lock is taken.  [now] is when the cache is read,
    [done_at] when the derivation ends.  The cache is not filled in between, so
    the second look at it finds what the first found. *)
Definition my_view_from_records (locked : bool) (now done_at : Z) (account : key) (claimed : gset Z) (now_epoch : Z) (e : EconomyEgressService) (c : RecordChain) (w : World) :
  option (MyView * EconomyEgressService * RecordChain * World) :=
  match cached_view now account e with
  | Some v => Some (v, e, c, w)
  | None =>
      if locked then Some (default view_default (last_view account e), e, c, w)
      else
        '(v, c, w) ← derive_view account claimed now_epoch e c w;
        Some (v, mk_ee (ee_settlement e) (ee_chain e) (Some (done_at, account, v)) (ee_db e), c, w)
  end.

Definition reward_share (ep : Z) (account : key) (e : EconomyEgressService) (c : RecordChain) (w : World) : Z * RecordChain * World :=
  if negb (ee_chain e) then (0, c, w)
  else
    let '(r, c, w) := canonical_record order net ep c w in
    (match r with Some rec => share_of rec account | None => 0 end, c, w).
End economy.
