(* ===== verification/SettleService.v ===== *)
(** The settlement loop of a node ([crates/noded/src/settlement_service.rs], with
    the cheque book of [cheque.rs]): reporting its cumulatives on its settlement
    chain, reading and verifying the reports of the participants, settling,
    adopting and verifying epochs, and the reconstruction after a start.

    What a settlement reads of the chains does not depend on what the node has
    scanned before, every row it uses is backed by cheques and payments, and nodes
    with the same chains settle alike; [SettleRuns] has concrete runs, three of
    which depart from what the loop means to do.

    An operation runs in a monad over the service and the world it is connected
    to; [None] is a panic. *)

From S2P Require Import Prelude Crypto Attestation Sequencer Token Subscription Reward Epoch Settlement Cheque Records Economy.

Open Scope Z_scope.

Definition SETTLE_GRACE_EPOCHS : Z := 1.
Definition VERIFY_SAMPLE : Z := 4.
Definition SETTLE_PROGRAM_TAG : bytes := str_bytes "craftec/settlement-chain/1".
Definition INLINE_PROOF_MAX : Z := 16 * 1024.

Inductive ServedProof := Inline (cs : list ServingCheque) | Ref (cid : key).

Record SettleReport := mk_report { rp_epoch : Z; rp_paid : Z; rp_served : Z; rp_proof : ServedProof }.

Section proof.
Context `{Ed25519}.

(** The loop over a proof: the highest cumulative of each consumer. *)
Fixpoint proven_map (node : key) (proof : list ServingCheque) (m : gmap key Z) : option (gmap key Z) :=
  match proof with
  | [] => Some m
  | c :: rest =>
      if bool_decide (server c <> node) || negb (verify_cheque c) then None
      else proven_map node rest (<[Cheque.consumer c := Z.max (default 0 (m !! Cheque.consumer c)) (cumulative_bytes c)]> m)
  end.

(** [None] is the overflow panic of [values().sum()]. *)
Definition proven_cumulative (node : key) (proof : list ServingCheque) : option (option Z) :=
  match proven_map node proof ∅ with
  | None => Some None
  | Some m => t ← checked_sum (map snd (btree_iter m)); Some (Some t)
  end.
End proof.

(** [u64::from_le_bytes]. *)
Definition from_le_bytes (l : bytes) : Z := foldr (fun x a => x + 256 * a) 0 l.

Definition elected_to_verify `{Blake3} (node : key) (epoch : Z) : bool :=
  from_le_bytes (take 8 (Cid_of (node ++ le_bytes 8 epoch))) mod VERIFY_SAMPLE =? 0.

(** A verified report: epoch, paid, served and the cheques. *)
Record VReport := mk_vr { vr_epoch : Z; vr_paid : Z; vr_served : Z; vr_cheques : list ServingCheque }.
Record ReportCache := mk_cache { rc_next : Z; rc_verified : list VReport }.
Definition cache_default : ReportCache := mk_cache 0 [].

(** [filter(ep <= epoch).max_by_key(ep)]: the last of the largest. *)
Definition latest_report (epoch : Z) (l : list VReport) : option VReport :=
  foldl (fun acc r => match acc with Some a => if vr_epoch a <=? vr_epoch r then Some r else acc | None => Some r end) None
    (filter (fun r => vr_epoch r <= epoch) l).

Section service.
Context {World : Type}.
Context `{Ed25519} `{Blake3} `{Postcard RewardRecord} `{Postcard SignedRecord} `{Postcard SequencedWrite} `{Postcard SettleReport} `{Postcard (list ServingCheque)}.

(** What the service is connected to. *)
Record SettleNet := mk_snet {
  sn_records : RecordNet (World := World);
  sn_get : key -> World -> option bytes * World;
  sn_publish_system : bytes -> World -> option key * World;
  sn_census : World -> option (list key);
  sn_paid_total : key -> World -> Z * World;
  sn_millis : World -> Z * World;
  sn_order : gmap key RecordAttestation -> list RecordAttestation
}.

Record SettlementService := mk_svc {
  sv_identity : NodeIdentity;
  sv_book : ChequeBook;
  sv_economy : EconomyEgressService;
  sv_records : RecordChain;
  sv_scan : gmap key ReportCache;
  sv_verified : Z;
  sv_mismatched : Z
}.

Definition with_book (s : SettlementService) b := mk_svc (sv_identity s) b (sv_economy s) (sv_records s) (sv_scan s) (sv_verified s) (sv_mismatched s).
Definition with_economy (s : SettlementService) e := mk_svc (sv_identity s) (sv_book s) e (sv_records s) (sv_scan s) (sv_verified s) (sv_mismatched s).
Definition with_chain (s : SettlementService) c := mk_svc (sv_identity s) (sv_book s) (sv_economy s) c (sv_scan s) (sv_verified s) (sv_mismatched s).
Definition with_scan (s : SettlementService) x := mk_svc (sv_identity s) (sv_book s) (sv_economy s) (sv_records s) x (sv_verified s) (sv_mismatched s).
Definition with_tally (s : SettlementService) v m := mk_svc (sv_identity s) (sv_book s) (sv_economy s) (sv_records s) (sv_scan s) v m.

Definition Svc (A : Type) : Type := SettlementService -> World -> option (A * SettlementService * World).
#[global] Instance Svc_ret : MRet Svc := fun A a s w => Some (a, s, w).
#[global] Instance Svc_bind : MBind Svc := fun A B k m s w => match m s w with Some (a, s', w') => k a s' w' | None => None end.

Definition gets {A} (f : SettlementService -> A) : Svc A := fun s w => Some (f s, s, w).
Definition modify (f : SettlementService -> SettlementService) : Svc unit := fun s w => Some ((), f s, w).
Definition call {A} (f : World -> A * World) : Svc A := fun s w => let '(a, w) := f w in Some (a, s, w).
Definition lift {A} (x : option A) : Svc A := fun s w => match x with Some a => Some (a, s, w) | None => None end.

Context (net : SettleNet).

Definition settle_cid : key := Cid_of SETTLE_PROGRAM_TAG.
Definition settle_owner : key := anchor_owner (sn_records net) settle_cid.
Definition my_id : Svc key := gets (fun s => node_id (sv_identity s)).
Definition chain_of (account : key) : Svc (option AccountSequence) := call (sequence_of (sn_records net) settle_owner settle_cid account).

Definition canonical (epoch : Z) : Svc (option RewardRecord) := fun s w =>
  let '(r, c, w) := canonical_record (sn_order net) (sn_records net) epoch (sv_records s) w in Some (r, with_chain s c, w).

Definition verify_epoch (epoch : Z) : Svc unit :=
  r ← canonical epoch;
  match r with
  | None => mret ()
  | Some canon =>
      l ← gets (fun s => local_record (sv_economy s) epoch);
      match l with
      | None => mret ()
      | Some local =>
          if bool_decide (local = canon) then modify (fun s => with_tally s (as_u64 (sv_verified s + 1)) (sv_mismatched s))
          else modify (fun s => with_tally s (sv_verified s) (as_u64 (sv_mismatched s + 1)))
      end
  end.

Definition should_settle (epoch : Z) : Svc bool := fun s w =>
  Some (is_committee_for (sn_records net) epoch (sv_records s) w || elected_to_verify (node_id (sv_identity s)) epoch, s, w).

Definition epoch_now : Svc Z := t ← call (sn_millis net); mret (t / EPOCH_MILLIS).

(** A proof too large for a report is published and referred to. *)
Definition proof_of (cs : list ServingCheque) : Svc ServedProof :=
  let b := to_allocvec cs in
  if INLINE_PROOF_MAX <? Z.of_nat (length b) then
    r ← call (sn_publish_system net b); mret (match r with Some cid => Ref cid | None => Inline cs end)
  else mret (Inline cs).

Definition report (epoch : Z) : Svc bool :=
  account ← my_id;
  paid ← call (sn_paid_total net account);
  cs ← gets (fun s => cheques (sv_book s));
  served ← lift (proven_cumulative account cs);
  proof ← proof_of cs;
  let payload := to_allocvec (mk_report epoch paid (default 0 served) proof) in
  seq ← chain_of account;
  let nonce := match seq with Some q => next_nonce q | None => 0 end in
  id ← gets sv_identity;
  call (sequence (sn_records net) settle_owner settle_cid (author id nonce payload)).

(** [None]: the proof cannot be fetched now.  [Some None]: it is not a proof. *)
Definition resolve_proof (p : ServedProof) : Svc (option (option (list ServingCheque))) :=
  match p with
  | Inline cs => mret (Some (Some cs))
  | Ref cid => b ← call (sn_get net cid); mret (match b with Some b => Some (from_bytes b) | None => None end)
  end.

(** [while n < end]; the reports verified and how far the scan came. *)
Fixpoint scan_reports (fuel : nat) (account : key) (seq : AccountSequence) (n : Z) (fresh : list VReport) : Svc (list VReport * Z) :=
  match fuel with
  | O => mret (fresh, n)
  | S fuel' =>
      if negb (n <? next_nonce seq) then mret (fresh, n)
      else
        match payload_at seq n with
        | None => mret (fresh, n)
        | Some payload =>
            match from_bytes payload with
            | None => scan_reports fuel' account seq (n + 1) fresh
            | Some rp =>
                resolved ← resolve_proof (rp_proof rp);
                match resolved with
                | None => mret (fresh, n)
                | Some None => scan_reports fuel' account seq (n + 1) fresh
                | Some (Some cs) =>
                    t ← lift (proven_cumulative account cs);
                    scan_reports fuel' account seq (n + 1)
                      (if bool_decide (t = Some (rp_served rp)) then fresh ++ [mk_vr (rp_epoch rp) (rp_paid rp) (rp_served rp) cs] else fresh)
                end
            end
        end
  end.

Definition merge_scan (account : key) (start advanced : Z) (fresh : list VReport) (s : SettlementService) : SettlementService :=
  let entry := default cache_default (sv_scan s !! account) in
  let entry := if rc_next entry =? start then mk_cache advanced (rc_verified entry ++ fresh) else entry in
  with_scan s (<[account := entry]> (sv_scan s)).

Definition cumulatives_of (account : key) (epoch : Z) : Svc (option (Z * list ServingCheque)) :=
  q ← chain_of account;
  match q with
  | None => mret None
  | Some seq =>
      start ← gets (fun s => match sv_scan s !! account with Some c => rc_next c | None => 0 end);
      '(fresh, advanced) ← scan_reports (length (commits seq)) account seq start [];
      modify (merge_scan account start advanced fresh);;
      r ← gets (fun s => latest_report epoch (rc_verified (default cache_default (sv_scan s !! account))));
      match r with
      | None => mret None
      | Some r => p ← call (sn_paid_total net account); mret (Some (Z.min (vr_paid r) p, vr_cheques r))
      end
  end.

Definition participants : Svc (list key) := fun s w =>
  let me := node_id (sv_identity s) in
  Some (sort (me :: match sn_census net w with Some l => filter (fun n => n <> me) l | None => [] end), s, w).

Definition rows_of (cs : list ServingCheque) : list ChequeRow :=
  map (fun c => mk_row (server c) (Cheque.consumer c) (cumulative_bytes c) (timestamp c)) cs.

Fixpoint read_all (epoch : Z) (accounts : list key) : Svc (list (key * Z) * list ChequeRow) :=
  match accounts with
  | [] => mret ([], [])
  | a :: rest =>
      x ← cumulatives_of a epoch;
      '(paid, rows) ← read_all epoch rest;
      mret (match x with Some (p, cs) => ((a, p) :: paid, rows_of cs ++ rows) | None => (paid, rows) end)
  end.

Definition settle_epoch_state (epoch : Z) : Svc RewardRecord :=
  ps ← participants;
  '(paid, rows) ← read_all epoch ps;
  e ← gets sv_economy;
  '(r, e) ← lift (settle_from_board e epoch paid rows);
  modify (fun s => with_economy s e);;
  mret r.

Definition settle (epoch : Z) : Svc unit :=
  r ← settle_epoch_state epoch;
  c ← gets sv_records;
  call (attest (sn_records net) epoch r c);;
  mret ().

Fixpoint settle_states (es : list Z) : Svc unit :=
  match es with [] => mret () | e :: es' => settle_epoch_state e;; settle_states es' end.

(** [lo..=hi]. *)
Definition epochs_from (lo hi : Z) : list Z := seqZ lo (hi - lo + 1).

Definition reconstruct_through (through : Z) : Svc unit :=
  let start := sat_sub through CLAIM_WINDOW_EPOCHS in
  (if 0 <? start then
     r ← canonical (start - 1);
     match r with
     | Some prev => modify (fun s => with_economy s (load_and_verify_economic_state (state_hash prev) (sv_economy s)).2)
     | None => mret ()
     end
   else mret ());;
  settle_states (epochs_from start through).

Definition last_own_report (seq : AccountSequence) : option SettleReport :=
  foldl (fun acc p => match from_bytes p with Some r => Some r | None => acc end) None (map (fun c => payload (write c)) (commits seq)).

Definition load_cheques (cs : list ServingCheque) (b : ChequeBook) : ChequeBook := foldl (fun b c => (record b c).2) b cs.

Definition reconstruct_cheque_book : Svc unit :=
  account ← my_id;
  q ← chain_of account;
  match q with
  | None => mret ()
  | Some seq =>
      match last_own_report seq with
      | None => mret ()
      | Some rp =>
          resolved ← resolve_proof (rp_proof rp);
          match resolved with
          | None => mret ()
          | Some cs => modify (fun s => with_book s (load_cheques (default [] cs) (sv_book s)))
          end
      end
  end.

(** ** The loop *)

Record Loop := mk_loop {
  last_reported : option Z;
  last_settled : option Z;
  last_verified : option Z;
  sent_paid : Z;
  sent_served : Z;
  initialized : bool
}.

Definition loop_start : Loop := mk_loop None None None 0 0 false.

Definition first_tick (now : Z) : Svc Loop :=
  reconstruct_cheque_book;;
  let settled_through := sat_sub now (1 + SETTLE_GRACE_EPOCHS) in
  reconstruct_through settled_through;;
  account ← my_id;
  paid ← call (sn_paid_total net account);
  served ← (b ← gets sv_book; lift (total_earned b));
  mret (mk_loop (Some (sat_sub now 1)) (Some settled_through) (Some settled_through) paid served true).

Definition report_step (now : Z) (l : Loop) : Svc Loop :=
  let closed := now - 1 in
  if match last_reported l with Some e => e <? closed | None => true end then
    account ← my_id;
    paid_now ← call (sn_paid_total net account);
    served_now ← (b ← gets sv_book; lift (total_earned b));
    sent ← (if (sent_paid l <? paid_now) || (sent_served l <? served_now) then report closed else mret false);
    mret (mk_loop (Some closed) (last_settled l) (last_verified l) (if (sent : bool) then paid_now else sent_paid l) (if (sent : bool) then served_now else sent_served l) (initialized l))
  else mret l.

Definition adopt_state (e : Z) : Svc bool := fun s w =>
  let '(ok, ec, c, w) := adopt_canonical_state (sn_order net) (sn_records net) e (sv_economy s) (sv_records s) w in
  Some (ok, with_economy (with_chain s c) ec, w).

(** One epoch: settle it, or adopt it; whether the position advanced. *)
Definition handle_epoch (e : Z) : Svc bool :=
  b ← should_settle e;
  if (b : bool) then settle e;; mret true else adopt_state e.

Fixpoint handle_epochs (es : list Z) (advanced : bool) : Svc bool :=
  match es with
  | [] => mret advanced
  | e :: es' => a ← handle_epoch e; handle_epochs es' (advanced || a)
  end.

Definition persist_state : Svc unit := modify (fun s => with_economy s (persist_economic_state (sv_economy s)).2).

Definition settle_step (now : Z) (l : Loop) : Svc Loop :=
  if SETTLE_GRACE_EPOCHS + 1 <? now then
    let target := now - 1 - SETTLE_GRACE_EPOCHS in
    let start := match last_settled l with Some e => e + 1 | None => target end in
    advanced ← handle_epochs (epochs_from start target) false;
    (if (advanced : bool) then persist_state else mret ());;
    mret (mk_loop (last_reported l) (Some target) (last_verified l) (sent_paid l) (sent_served l) (initialized l))
  else mret l.

Fixpoint verify_epochs (es : list Z) : Svc unit :=
  match es with [] => mret () | e :: es' => verify_epoch e;; verify_epochs es' end.

Definition verify_step (now : Z) (l : Loop) : Svc Loop :=
  if SETTLE_GRACE_EPOCHS + 2 <? now then
    let vtarget := now - 2 - SETTLE_GRACE_EPOCHS in
    let start := match last_verified l with Some e => e + 1 | None => vtarget end in
    verify_epochs (epochs_from start vtarget);;
    mret (mk_loop (last_reported l) (last_settled l) (Some vtarget) (sent_paid l) (sent_served l) (initialized l))
  else mret l.

(** One pass of [run]. *)
Definition tick (l : Loop) : Svc Loop :=
  now ← epoch_now;
  if now =? 0 then mret l
  else if negb (initialized l) then first_tick now
  else l ← report_step now l; l ← settle_step now l; verify_step now l.
End service.

(** ** Agreement *)

Section reference.
Context {E : Ed25519} {PL : Postcard (list ServingCheque)} {PT : Postcard SettleReport}.
Context (content : key -> option bytes).

(** The cheques a report refers to. *)
Definition cheques_of (p : ServedProof) : option (list ServingCheque) :=
  match p with Inline cs => Some cs | Ref cid => b ← content cid; from_bytes b end.

(** The verified report of a payload, if it is one; [None] is a panic. *)
Definition read_report (account : key) (payload : bytes) : option (list VReport) :=
  match from_bytes payload with
  | None => Some []
  | Some rp =>
      match cheques_of (rp_proof rp) with
      | None => Some []
      | Some cs => t ← proven_cumulative account cs; Some (if bool_decide (t = Some (rp_served rp)) then [mk_vr (rp_epoch rp) (rp_paid rp) (rp_served rp) cs] else [])
      end
  end.

Fixpoint read_reports (account : key) (ps : list bytes) : option (list VReport) :=
  match ps with [] => Some [] | p :: ps' => x ← read_report account p; y ← read_reports account ps'; Some (x ++ y) end.

Lemma read_reports_app account ps qs : read_reports account (ps ++ qs) = x ← read_reports account ps; y ← read_reports account qs; Some (x ++ y).
Proof.
  induction ps as [|p ps IH]; cbn [app read_reports]; [cbn; by destruct (read_reports account qs)|]. rewrite IH.
  destruct (read_report account p) as [x|]; cbn; [|done]. destruct (read_reports account ps) as [y|]; cbn; [|done].
  destruct (read_reports account qs) as [z|]; cbn; [|done]. by rewrite (assoc_L (++)).
Qed.

(** The proofs of a chain can be fetched. *)
Definition fetchable (ps : list bytes) : Prop :=
  forall p rp cid, p ∈ ps -> from_bytes p = Some rp -> rp_proof rp = Ref cid -> is_Some (content cid).
End reference.

Section exact.
Context {World : Type}.
Context {E : Ed25519} {B3 : Blake3} {PR : Postcard RewardRecord} {PS : Postcard SignedRecord} {PW : Postcard SequencedWrite} {PT : Postcard SettleReport} {PL : Postcard (list ServingCheque)}.
Context (net : SettleNet (World := World)) (content : key -> option bytes) (chain : key -> option AccountSequence) (paid : key -> Z).

(** The settlement chains, the objects and the ledger, as the node reads them. *)
Record Reads : Prop := {
  rd_chain : forall a w, exists w', sequence_of (sn_records net) (settle_owner net) settle_cid a w = (chain a, w');
  rd_get : forall cid b w, content cid = Some b -> exists w', sn_get net cid w = (Some b, w');
  rd_paid : forall a w, exists w', sn_paid_total net a w = (paid a, w')
}.
Context (Hreads : Reads).

Implicit Types (s : SettlementService) (w : World).

Lemma scan_reports_spec fuel a seq n fresh s w l :
  0 <= n <= next_nonce seq -> next_nonce seq - n <= Z.of_nat fuel -> fetchable content (payloads seq) ->
  read_reports content a (drop (Z.to_nat n) (payloads seq)) = Some l ->
  exists w', scan_reports net fuel a seq n fresh s w = Some ((fresh ++ l, next_nonce seq), s, w').
Proof.
  intros Hn Hf Hfetch. revert n fresh w l Hn Hf. induction fuel as [|fuel IH]; intros n fresh w l Hn Hf Hl; cbn [scan_reports].
  - assert (n = next_nonce seq) as -> by lia. rewrite drop_ge in Hl by (unfold payloads, next_nonce; rewrite length_map; lia). injection Hl as <-.
    exists w. by rewrite app_nil_r.
  - destruct (Z.ltb_spec n (next_nonce seq)) as [Hlt|Hge]; cbn [negb].
    2:{ assert (n = next_nonce seq) as -> by lia. rewrite drop_ge in Hl by (unfold payloads, next_nonce; rewrite length_map; lia). injection Hl as <-.
        exists w. by rewrite app_nil_r. }
    destruct (payloads seq !! Z.to_nat n) as [p|] eqn:Ep; [|apply lookup_ge_None in Ep; unfold payloads, next_nonce in *; rewrite length_map in Ep; lia].
    assert (Epa : payload_at seq n = Some p) by (unfold payload_at, payloads in *; rewrite list_lookup_fmap in Ep; destruct (commits seq !! Z.to_nat n); [exact Ep|discriminate]).
    rewrite Epa. rewrite (drop_S _ _ _ Ep) in Hl. cbn [read_reports] in Hl. apply bind_Some in Hl as (x & Hx & Hl). apply bind_Some in Hl as (y & Hy & [= <-]).
    replace (S (Z.to_nat n)) with (Z.to_nat (n + 1)) in Hy by lia. unfold read_report in Hx. destruct (from_bytes p) as [rp|] eqn:Er.
    2:{ injection Hx as <-. apply IH; [lia|lia|done]. }
    assert (Hres : exists w', resolve_proof net (rp_proof rp) s w = Some (Some (cheques_of content (rp_proof rp)), s, w')).
    { unfold resolve_proof, cheques_of. destruct (rp_proof rp) as [cs|cid] eqn:Epf; [by exists w|].
      destruct (Hfetch p rp cid) as [b Hb]; [by eapply list_elem_of_lookup_2|done|done|]. rewrite Hb. destruct (rd_get Hreads cid b w Hb) as [w' Hg].
      exists w'. unfold mbind, Svc_bind, call. by rewrite Hg. }
    destruct Hres as [w1 Hres]. unfold mbind, Svc_bind. rewrite Hres. destruct (cheques_of content (rp_proof rp)) as [cs|] eqn:Ec.
    + apply bind_Some in Hx as (t & Ht & [= <-]). unfold lift at 1. rewrite Ht.
      destruct (IH (n + 1) (if bool_decide (t = Some (rp_served rp)) then fresh ++ [mk_vr (rp_epoch rp) (rp_paid rp) (rp_served rp) cs] else fresh) w1 y) as [w2 H2]; [lia|lia|done|].
      exists w2. rewrite H2. do 3 f_equal. case_bool_decide; [by rewrite <- (assoc_L (++))|done].
    + injection Hx as <-. apply IH; [lia|lia|done].
Qed.

(** A cache holds the reports of a prefix of its chain. *)
Definition cache_ok s : Prop :=
  forall a c, sv_scan s !! a = Some c -> exists seq, chain a = Some seq /\ 0 <= rc_next c <= next_nonce seq /\
    read_reports content a (take (Z.to_nat (rc_next c)) (payloads seq)) = Some (rc_verified c).

(** A chain whose reports can be read. *)
Definition readable (a : key) (l : list VReport) : Prop :=
  match chain a with Some seq => fetchable content (payloads seq) /\ read_reports content a (payloads seq) = Some l | None => l = [] end.

(** The position of an account at an epoch. *)
Definition position (ep : Z) (a : key) (l : list VReport) : option (Z * list ServingCheque) :=
  r ← latest_report ep l; Some (Z.min (vr_paid r) (paid a), vr_cheques r).

Lemma cumulatives_of_spec a ep s w l :
  cache_ok s -> readable a l ->
  exists x w', cumulatives_of net a ep s w = Some (position ep a l, with_scan s x, w') /\ cache_ok (with_scan s x).
Proof.
  intros Hc Hr. unfold cumulatives_of, chain_of, mbind, Svc_bind, call. destruct (rd_chain Hreads a w) as [w1 ->]. unfold readable in Hr.
  destruct (chain a) as [seq|] eqn:Ea; [|subst l; exists (sv_scan s), w1; by destruct s]. destruct Hr as [Hf Hl]. unfold gets at 1.
  set (c0 := default cache_default (sv_scan s !! a)).
  assert (Hc0 : match sv_scan s !! a with Some c => rc_next c | None => 0 end = rc_next c0 /\ 0 <= rc_next c0 <= next_nonce seq /\
                read_reports content a (take (Z.to_nat (rc_next c0)) (payloads seq)) = Some (rc_verified c0)).
  { unfold c0. destruct (sv_scan s !! a) as [c|] eqn:Es; cbn; [|by split_and!; [..|unfold next_nonce; lia|]]. split; [done|].
    destruct (Hc a c Es) as (seq' & E' & Hn & Hv). assert (seq' = seq) as -> by congruence. done. }
  destruct Hc0 as (-> & Hn & Hv). rewrite <- (take_drop (Z.to_nat (rc_next c0)) (payloads seq)), read_reports_app, Hv in Hl. cbn [mbind option_bind] in Hl.
  apply bind_Some in Hl as (y & Hy & [= <-]).
  destruct (scan_reports_spec (length (commits seq)) a seq (rc_next c0) [] s w1 y) as [w2 H2]; [done|unfold next_nonce; lia|done|done|]. rewrite H2. cbn [app].
  unfold modify at 1, merge_scan. fold c0. rewrite Z.eqb_refl. cbn [rc_verified sv_scan with_scan]. unfold gets at 1. cbn [sv_scan with_scan]. rewrite lookup_insert_eq. cbn [default rc_verified].
  set (c1 := mk_cache (next_nonce seq) (rc_verified c0 ++ y)).
  assert (Hok : cache_ok (with_scan s (<[a := c1]> (sv_scan s)))).
  { intros a' c'. cbn [sv_scan with_scan]. rewrite lookup_insert_Some. intros [[<- <-]|[_ H']]; [|by apply Hc]. exists seq. split; [done|]. cbn [rc_next c1 rc_verified].
    split; [unfold next_nonce; lia|]. rewrite take_ge by (unfold payloads, next_nonce; rewrite length_map; lia).
    rewrite <- (take_drop (Z.to_nat (rc_next c0)) (payloads seq)), read_reports_app, Hv. cbn. by rewrite Hy. }
  unfold position. cbn [from_option id c1 rc_verified]. destruct (latest_report ep (rc_verified c0 ++ y)) as [r|]; cbn [mbind option_bind].
  - destruct (rd_paid Hreads a w2) as [w3 ->]. by exists (<[a := c1]> (sv_scan s)), w3.
  - by exists (<[a := c1]> (sv_scan s)), w2.
Qed.

(** What a settlement reads of a list of accounts. *)
Fixpoint readings (ep : Z) (reports : key -> list VReport) (accounts : list key) : list (key * Z) * list ChequeRow :=
  match accounts with
  | [] => ([], [])
  | a :: rest =>
      let '(ps, rows) := readings ep reports rest in
      match position ep a (reports a) with Some (p, cs) => ((a, p) :: ps, rows_of cs ++ rows) | None => (ps, rows) end
  end.

Lemma read_all_spec ep reports accounts s w :
  cache_ok s -> (forall a, a ∈ accounts -> readable a (reports a)) ->
  exists x w', read_all net ep accounts s w = Some (readings ep reports accounts, with_scan s x, w') /\ cache_ok (with_scan s x).
Proof.
  revert s w. induction accounts as [|a rest IH]; intros s w Hc Hr; cbn [read_all readings]; [exists (sv_scan s), w; by destruct s|].
  destruct (cumulatives_of_spec a ep s w (reports a) Hc) as (x1 & w1 & H1 & Hc1); [apply Hr; by left|]. unfold mbind, Svc_bind. rewrite H1.
  destruct (IH (with_scan s x1) w1 Hc1) as (x2 & w2 & H2 & Hc2); [intros b Hb; apply Hr; by right|]. rewrite H2. exists x2, w2.
  destruct (readings ep reports rest) as [ps rows]. destruct (position ep a (reports a)) as [[p cs]|]; by split.
Qed.

Definition census_of (s : SettlementService) (w : World) : list key :=
  node_id (sv_identity s) :: match sn_census net w with Some l => filter (fun n => n <> node_id (sv_identity s)) l | None => [] end.

Lemma settle_epoch_state_spec ep reports s w :
  cache_ok s -> (forall a, a ∈ census_of s w -> readable a (reports a)) ->
  (fun x => (x.1.1, ee_settlement (sv_economy x.1.2))) <$> settle_epoch_state net ep s w =
  let '(ps, rows) := readings ep reports (sort (census_of s w)) in settle_epoch_from_cheques (ee_settlement (sv_economy s)) ep ps rows.
Proof.
  intros Hc Hr. unfold settle_epoch_state, participants. unfold mbind at 1, Svc_bind at 1. fold (census_of s w). unfold mbind at 1, Svc_bind at 1.
  destruct (read_all_spec ep reports (sort (census_of s w)) s w Hc) as (x & w' & -> & _).
  { intros a Ha. apply Hr. unfold sort in Ha. by rewrite elem_of_sort_by in Ha. }
  destruct (readings ep reports _) as [ps rows]. unfold mbind, Svc_bind, gets, lift, settle_from_board. cbn [sv_economy with_scan].
  destruct (settle_epoch_from_cheques _ ep ps rows) as [[r st]|]; done.
Qed.
End exact.

(** C23: Nodes with the same chains settle alike.  Two nodes that hold the same
    settlement store, census, settlement chains, proofs and ledger compute the
    same record and reach the same store, whatever part of the chains each of
    them has already scanned and in whatever order they list the census: the one
    that comes from reading every chain from the start. *)
Theorem nodes_settle_alike {W1 W2 : Type} {E : Ed25519} {B3 : Blake3} {PR : Postcard RewardRecord} {PS : Postcard SignedRecord} {PW : Postcard SequencedWrite}
    {PT : Postcard SettleReport} {PL : Postcard (list ServingCheque)} (net1 : SettleNet (World := W1)) (net2 : SettleNet (World := W2))
    content chain paid (s1 s2 : SettlementService) (w1 : W1) (w2 : W2) (reports : key -> list VReport) (ep : Z) :
  Reads net1 content chain paid -> Reads net2 content chain paid -> cache_ok content chain s1 -> cache_ok content chain s2 ->
  census_of net1 s1 w1 ≡ₚ census_of net2 s2 w2 -> (forall a, a ∈ census_of net1 s1 w1 -> readable content chain a (reports a)) ->
  ee_settlement (sv_economy s1) = ee_settlement (sv_economy s2) ->
  let result {W} (x : RewardRecord * SettlementService * W) := (x.1.1, ee_settlement (sv_economy x.1.2)) in
  result <$> settle_epoch_state net1 ep s1 w1 = result <$> settle_epoch_state net2 ep s2 w2 /\
  result <$> settle_epoch_state net1 ep s1 w1 =
    let '(ps, rows) := readings paid ep reports (sort (census_of net1 s1 w1)) in settle_epoch_from_cheques (ee_settlement (sv_economy s1)) ep ps rows.
Proof.
  intros R1 R2 C1 C2 Hp Hr Hs result. unfold result. pose proof (settle_epoch_state_spec net1 content chain paid R1 ep reports s1 w1 C1 Hr) as H1.
  pose proof (settle_epoch_state_spec net2 content chain paid R2 ep reports s2 w2 C2) as H2. rewrite H1. split; [|done]. rewrite H2.
  - by rewrite (sort_canonical _ _ Hp), Hs.
  - intros a Ha. apply Hr. by rewrite Hp.
Qed.

(** ** What a settlement is based on *)

Section proven.
Context {World : Type}.
Context {E : Ed25519} {B3 : Blake3} {PR : Postcard RewardRecord} {PS : Postcard SignedRecord} {PW : Postcard SequencedWrite} {PT : Postcard SettleReport} {PL : Postcard (list ServingCheque)}.
Context (net : SettleNet (World := World)).

Implicit Types (s : SettlementService) (w : World).

Definition proven (a : key) (r : VReport) : Prop := proven_cumulative a (vr_cheques r) = Some (Some (vr_served r)).
Definition cache_proven s : Prop := forall a c r, sv_scan s !! a = Some c -> r ∈ rc_verified c -> proven a r.

Lemma proven_map_cheques a cs m m' : proven_map a cs m = Some m' -> forall c, c ∈ cs -> server c = a /\ verify_cheque c = true.
Proof.
  revert m. induction cs as [|c cs IH]; intros m; cbn [proven_map]; [intros _ c Hc; by apply elem_of_nil in Hc|].
  destruct (bool_decide (server c <> a) || negb (verify_cheque c)) eqn:Eb; [discriminate|]. apply orb_false_iff in Eb as [Es%bool_decide_eq_false Ev%negb_false_iff].
  intros Hm c' [->|Hc']%elem_of_cons; [split; [by destruct (decide (server c = a))|done]|by eapply IH].
Qed.

Lemma proven_cheques a r c : proven a r -> c ∈ vr_cheques r -> server c = a /\ verify_cheque c = true.
Proof.
  unfold proven, proven_cumulative. destruct (proven_map a (vr_cheques r) ∅) as [m|] eqn:Em; [|discriminate]. intros _. by eapply proven_map_cheques.
Qed.

Lemma scan_reports_proven fuel a seq n fresh s w l n' s' w' :
  scan_reports net fuel a seq n fresh s w = Some ((l, n'), s', w') -> (forall r, r ∈ fresh -> proven a r) -> s' = s /\ forall r, r ∈ l -> proven a r.
Proof.
  revert n fresh w. induction fuel as [|fuel IH]; intros n fresh w; cbn [scan_reports]; [by intros [= <- _ <- _]|].
  destruct (negb (n <? next_nonce seq)); [by intros [= <- _ <- _]|]. destruct (payload_at seq n) as [p|]; [|by intros [= <- _ <- _]].
  destruct (from_bytes p) as [rp|]; [|apply IH]. unfold mbind, Svc_bind.
  assert (Hres : exists x w1, resolve_proof net (rp_proof rp) s w = Some (x, s, w1)).
  { unfold resolve_proof. destruct (rp_proof rp) as [cs|cid]; [by eexists _, w|]. unfold mbind, Svc_bind, call. destruct (sn_get net cid w) as [b w1]. by eexists _, w1. }
  destruct Hres as (x & w1 & ->). destruct x as [[cs|]|]; [|apply IH|by intros [= <- _ <- _]].
  unfold lift at 1. destruct (proven_cumulative a cs) as [t|] eqn:Et; [|discriminate]. intros Hs Hf. eapply IH; [exact Hs|].
  case_bool_decide as Ht; [|done]. intros r [Hin| ->%list_elem_of_singleton]%elem_of_app; [auto|]. unfold proven. cbn. by rewrite Et, Ht.
Qed.

Lemma latest_report_in ep l r : latest_report ep l = Some r -> r ∈ l.
Proof.
  unfold latest_report. assert (Hf : forall l acc, foldl (fun acc r => match acc with Some a => if vr_epoch a <=? vr_epoch r then Some r else acc | None => Some r end) acc l = Some r -> acc = Some r \/ r ∈ l).
  { clear l. induction l as [|x l IH]; intros acc; cbn; [by left|]. intros [He|Hin]%IH; [|right; by right]. destruct acc as [a|].
    - destruct (vr_epoch a <=? vr_epoch x); [|by left]. injection He as ->. right. by left.
    - injection He as ->. right. by left. }
  intros [|Hin]%Hf; [done|]. by apply list_elem_of_filter in Hin as [_ Hin].
Qed.

Lemma cumulatives_proven a ep s w x s' w' :
  cumulatives_of net a ep s w = Some (x, s', w') -> cache_proven s ->
  cache_proven s' /\ forall p cs, x = Some (p, cs) -> (exists w0, p <= (sn_paid_total net a w0).1) /\ forall c, c ∈ cs -> server c = a /\ verify_cheque c = true.
Proof.
  intros Hcum Hc. unfold cumulatives_of, chain_of, mbind, Svc_bind, call in Hcum. destruct (sequence_of _ _ _ a w) as [[seq|] w1]; [|by injection Hcum as <- <- _].
  unfold gets at 1 in Hcum. destruct (scan_reports net _ a seq _ [] s w1) as [[[[fresh adv] s1] w2]|] eqn:Es; [|discriminate].
  apply scan_reports_proven in Es as [-> Hfresh]; [|intros r Hr; by apply elem_of_nil in Hr]. unfold modify at 1 in Hcum.
  set (s1 := merge_scan a _ adv fresh s) in Hcum. assert (H1 : cache_proven s1).
  { intros a' c r. unfold s1, merge_scan. cbn [sv_scan with_scan]. rewrite lookup_insert_Some. intros [[<- <-]|[_ Hl]] Hr; [|by eapply Hc].
    assert (H0 : forall r, r ∈ rc_verified (default cache_default (sv_scan s !! a)) -> proven a r)
      by (intros r'; destruct (sv_scan s !! a) as [c0|] eqn:E0; cbn; [by apply Hc|intros Hr'; by apply elem_of_nil in Hr']).
    destruct (_ =? _); [|by apply H0]. cbn in Hr. apply elem_of_app in Hr as [Hr|Hr]; auto. }
  unfold gets at 1 in Hcum. destruct (latest_report ep _) as [r|] eqn:El; [|by injection Hcum as <- <- _].
  destruct (sn_paid_total net a w2) as [p w3] eqn:Ep. injection Hcum as <- <- _. split; [done|]. intros p' cs [= <- <-].
  split; [exists w2; rewrite Ep; cbn; lia|]. intros c. apply proven_cheques.
  apply latest_report_in in El. destruct (sv_scan s1 !! a) as [c1|] eqn:E1; cbn in El; [by eapply H1|by apply elem_of_nil in El].
Qed.

(** C26: A settlement is based on proofs.  Whatever the chains say and however
    fetching fails, every amount a node takes as paid is within what the ledger
    says the participant paid, and every row of serving it takes is a cheque that
    names the participant as server and that its consumer signed; what the node
    keeps for later settlements is as sound. *)
Theorem settled_rows_are_proven (ep : Z) (accounts : list key) s w paid rows s' w' :
  read_all net ep accounts s w = Some ((paid, rows), s', w') -> cache_proven s ->
  cache_proven s' /\
  (forall a p, (a, p) ∈ paid -> a ∈ accounts /\ exists w0, p <= (sn_paid_total net a w0).1) /\
  (forall row, row ∈ rows -> exists c, verify_cheque c = true /\ server c ∈ accounts /\ row = mk_row (server c) (Cheque.consumer c) (cumulative_bytes c) (timestamp c)).
Proof.
  revert s w paid rows. induction accounts as [|a rest IH]; intros s w paid rows Hr Hc; cbn [read_all] in Hr.
  - injection Hr as <- <- <- _. split; [done|]. split; intros; by apply elem_of_nil in H.
  - unfold mbind, Svc_bind in Hr. destruct (cumulatives_of net a ep s w) as [[[x s1] w1]|] eqn:E1; [|discriminate]. destruct (cumulatives_proven _ _ _ _ _ _ _ E1 Hc) as [Hc1 Hx].
    destruct (read_all net ep rest s1 w1) as [[[[ps rs] s2] w2]|] eqn:E2; [|discriminate]. unfold mret, Svc_ret in Hr. injection Hr as Hpair -> ->.
    destruct (IH s1 w1 ps rs E2 Hc1) as (Hc2 & Hp & Hrow). split; [done|].
    assert (Hp' : forall b p, (b, p) ∈ ps -> b ∈ a :: rest /\ exists w0, p <= (sn_paid_total net b w0).1) by (intros b p [Hb Hw]%Hp; split; [by right|done]).
    assert (Hrow' : forall row, row ∈ rs -> exists c, verify_cheque c = true /\ server c ∈ a :: rest /\ row = mk_row (server c) (Cheque.consumer c) (cumulative_bytes c) (timestamp c))
      by (intros row (c & ? & ? & ?)%Hrow; exists c; split; [done|]; split; [by right|done]).
    destruct x as [[p cs]|]; injection Hpair as <- <-; [|done]. destruct (Hx p cs eq_refl) as [Hle Hcs]. split.
    + intros b q [[= -> ->]|Hb]%elem_of_cons; [split; [by left|done]|by apply Hp'].
    + intros row [(c & -> & Hin)%list_elem_of_fmap|Hin]%elem_of_app; [|by apply Hrow']. destruct (Hcs c Hin) as [Hsv Hv]. exists c. split; [done|].
      split; [rewrite Hsv; by left|done].
Qed.
End proven.

(** ** Concrete runs *)

Module SettleRuns.
Import RecordsRuns.

#[local] Existing Instances RecordsRuns.Share_countable RecordsRuns.Entitlement_countable RecordsRuns.EconomicSnapshot_countable RecordsRuns.RewardRecord_countable.
#[local] Existing Instances toy_ed25519 toy_blake3 RecordsRuns.record_codec RecordsRuns.share_codec toy_write_codec.

#[local] Instance ServingCheque_countable : Countable ServingCheque.
Proof.
  refine (inj_countable' (fun c => (server c, Cheque.consumer c, cumulative_bytes c, timestamp c, consumer_sig c)) (fun '(a, b, c, d, e) => mk_cheque a b c d e) _). by intros [].
Defined.
#[local] Instance ServedProof_eq_dec : EqDecision ServedProof.
Proof. solve_decision. Defined.
#[local] Instance ServedProof_countable : Countable ServedProof.
Proof.
  refine (inj_countable' (fun p => match p with Inline cs => inl cs | Ref c => inr c end) (fun x => match x with inl cs => Inline cs | inr c => Ref c end) _). by intros [].
Defined.
#[local] Instance SettleReport_eq_dec : EqDecision SettleReport.
Proof. solve_decision. Defined.
#[local] Instance SettleReport_countable : Countable SettleReport.
Proof. refine (inj_countable' (fun r => (rp_epoch r, rp_paid r, rp_served r, rp_proof r)) (fun '(a, b, c, d) => mk_report a b c d) _). by intros []. Defined.
#[local] Instance report_codec : Postcard SettleReport := countable_codec.
#[local] Instance cheques_codec : Postcard (list ServingCheque) := countable_codec.

Lemma report_roundtrip (r : SettleReport) : from_bytes (@to_allocvec SettleReport report_codec r) = Some r.
Proof. apply countable_codec_laws. Qed.

Definition cheque_for (con : Z) (cum ts : Z) : ServingCheque := sign_cheque con (key_of 1) cum ts.
Definition reports_chain (a : key) (rs : list SettleReport) : AccountSequence :=
  mk_seq a (map (fun r => mk_commit (mk_write a 0 (@to_allocvec SettleReport report_codec r) []) []) rs).

(** The first node serves, the second pays; the proof of the second report of
    the first node is an object. *)
Definition big_proof : bytes := @to_allocvec (list ServingCheque) cheques_codec [cheque_for 2 200 20].
Definition toy_content (cid : key) : option bytes := if bool_decide (cid = key_of 77) then Some big_proof else None.
Definition reports_1 : list SettleReport := [mk_report 11 0 100 (Inline [cheque_for 2 100 10]); mk_report 20 0 200 (Ref (key_of 77))].
Definition reports_2 : list SettleReport := [mk_report 10 0 0 (Inline []); mk_report 11 5 0 (Inline []); mk_report 20 9 0 (Inline [])].
Definition toy_chain (a : key) : option AccountSequence :=
  if bool_decide (a = key_of 1) then Some (reports_chain a reports_1) else if bool_decide (a = key_of 2) then Some (reports_chain a reports_2) else None.
Definition toy_paid (a : key) : Z := if bool_decide (a = key_of 2) then 9 else 0.

(** The world is the records chain of the first node, which alone is the
    committee; a write to it is committed. *)
Definition toy_records_net (chain : key -> option AccountSequence) : RecordNet (World := AccountSequence) := {|
  committee_for_epoch := fun _ _ _ => Some (committee 1 1);
  sequence_of := fun _ cid a w => (if bool_decide (cid = settle_cid) then chain a else if bool_decide (a = key_of 1) then Some w else None, w);
  sequence := fun _ _ x w => (true, mk_seq (key_of 1) (commits w ++ [mk_commit x []]));
  anchor_owner := fun k => k
|}.

Definition toy_settle_net (chain : key -> option AccountSequence) (census : list key) : SettleNet (World := AccountSequence) := {|
  sn_records := toy_records_net chain;
  sn_get := fun cid w => (toy_content cid, w);
  sn_publish_system := fun _ w => (None, w);
  sn_census := fun _ => Some census;
  sn_paid_total := fun a w => (toy_paid a, w);
  sn_millis := fun w => (0, w);
  sn_order := listed
|}.

Definition toy_service (id : Z) (scan : gmap key ReportCache) : SettlementService :=
  mk_svc id (book_new (key_of id)) (mk_ee sstore_new true None (Some econ_empty)) (rc_new id) scan 0 0.

Definition no_records : AccountSequence := mk_seq (key_of 1) [].
Definition net_a := toy_settle_net toy_chain [key_of 1; key_of 2].
Definition net_b := toy_settle_net toy_chain [key_of 2; key_of 1].

(** A cache that holds the first report of the first node. *)
Definition part_scanned : gmap key ReportCache := {[ key_of 1 := mk_cache 1 [mk_vr 11 0 100 [cheque_for 2 100 10]] ]}.

Lemma toy_reads census : Reads (toy_settle_net toy_chain census) toy_content toy_chain toy_paid.
Proof. split; [by intros a w; exists w|by intros cid b w Hb; exists w; cbn; rewrite Hb|by intros a w; exists w]. Qed.

Lemma toy_fetchable a rs : (forall r cid, r ∈ rs -> rp_proof r = Ref cid -> is_Some (toy_content cid)) -> fetchable toy_content (payloads (reports_chain a rs)).
Proof.
  intros Hrs p rp cid Hp Hd Hc. unfold payloads, reports_chain in Hp. cbn [commits] in Hp. rewrite map_map in Hp. apply list_elem_of_fmap in Hp as (r & -> & Hr).
  cbn [write payload] in Hd. rewrite report_roundtrip in Hd. injection Hd as <-. by eapply Hrs.
Qed.

Definition toy_reports (a : key) : list VReport :=
  match toy_chain a with Some seq => default [] (read_reports toy_content a (payloads seq)) | None => [] end.

Lemma toy_readable a : readable toy_content toy_chain a (toy_reports a).
Proof.
  unfold readable, toy_reports, toy_chain. case_bool_decide as H1; [subst a|case_bool_decide as H2; [subst a|done]]; (split; [|by vm_compute]); apply toy_fetchable.
  - intros r cid. unfold reports_1. rewrite elem_of_cons, list_elem_of_singleton. intros [->| ->]; [discriminate|]. intros [= <-]. by eexists.
  - intros r cid. unfold reports_2. rewrite !elem_of_cons, elem_of_nil. by intros [->|[->|[->|[]]]].
Qed.

Lemma empty_cache_ok id : cache_ok toy_content toy_chain (toy_service id ∅).
Proof. intros a c. cbn. by rewrite lookup_empty. Qed.

Lemma part_scanned_ok id : cache_ok toy_content toy_chain (toy_service id part_scanned).
Proof.
  intros a c. cbn [sv_scan toy_service]. unfold part_scanned. intros [<- <-]%lookup_singleton_Some. exists (reports_chain (key_of 1) reports_1). split; [done|]. split; [by vm_compute|]. by vm_compute.
Qed.

Lemma settles_at_20 : (if settle_epoch_state net_a 20 (toy_service 1 ∅) no_records then true else false) = true.
Proof. by vm_compute. Qed.

Lemma nodes_settle_alike_witness :
  is_Some (settle_epoch_state net_a 20 (toy_service 1 ∅) no_records) /\
  (fun x => x.1.1) <$> settle_epoch_state net_a 20 (toy_service 1 ∅) no_records = (fun x => x.1.1) <$> settle_epoch_state net_b 20 (toy_service 2 part_scanned) no_records.
Proof.
  split; [pose proof settles_at_20 as Hs; destruct (settle_epoch_state net_a 20 _ _); [by eexists|discriminate]|].
  destruct (nodes_settle_alike net_a net_b toy_content toy_chain toy_paid (toy_service 1 ∅) (toy_service 2 part_scanned) no_records no_records toy_reports 20
    (toy_reads _) (toy_reads _) (empty_cache_ok 1) (part_scanned_ok 2)) as [Hr _].
  - apply Permutation_swap.
  - intros a _. apply toy_readable.
  - reflexivity.
  - apply (f_equal (fmap fst)) in Hr. rewrite <- !option_fmap_compose in Hr. exact Hr.
Defined.

Lemma reads_at_20 : (if read_all net_a 20 [key_of 1; key_of 2] (toy_service 1 ∅) no_records then true else false) = true.
Proof. by vm_compute. Qed.

Lemma settled_rows_are_proven_witness :
  exists paid rows s w, read_all net_a 20 [key_of 1; key_of 2] (toy_service 1 ∅) no_records = Some ((paid, rows), s, w) /\ cache_proven s /\
    forall row, row ∈ rows -> exists c, verify_cheque c = true /\ server c ∈ [key_of 1; key_of 2] /\ row = mk_row (server c) (Cheque.consumer c) (cumulative_bytes c) (timestamp c).
Proof.
  pose proof reads_at_20 as Hs. destruct (read_all net_a 20 [key_of 1; key_of 2] (toy_service 1 ∅) no_records) as [[[[paid rows] s] w]|] eqn:Er; [|discriminate Hs]. clear Hs.
  exists paid, rows, s, w. split; [reflexivity|]. destruct (settled_rows_are_proven net_a 20 [key_of 1; key_of 2] (toy_service 1 ∅) no_records paid rows s w Er) as (Hc & _ & Hrow).
  - intros a c r. cbn. rewrite lookup_empty. discriminate.
  - by split.
Defined.

(** ** Two signatures that stop the settlement *)

(** The third node reports two cheques of the largest amount, signed by two
    identities of its own. *)
Definition colluding_chain (a : key) : option AccountSequence :=
  if bool_decide (a = key_of 3) then
    Some (reports_chain a [mk_report 20 0 0 (Inline [sign_cheque 4 (key_of 3) U64_MAX 1; sign_cheque 5 (key_of 3) U64_MAX 1])])
  else toy_chain a.

(** The sum of the cumulatives overflows, and settling panics on every node that
    reads the report. *)
Lemma colluding_panics :
  (if settle_epoch_state (toy_settle_net colluding_chain [key_of 1; key_of 2; key_of 3]) 20 (toy_service 1 ∅) no_records then true else false) = false.
Proof. by vm_compute. Qed.

Example colluding_cheques_stop_the_settlement :
  settle_epoch_state (toy_settle_net colluding_chain [key_of 1; key_of 2; key_of 3]) 20 (toy_service 1 ∅) no_records = None.
Proof. pose proof colluding_panics as Hp. by destruct (settle_epoch_state _ 20 _ _). Qed.

(** ** A restart *)

(** The first node settles the epochs 10 to 20, attests and saves its state. *)
Definition before_restart : option (SettlementService * AccountSequence) :=
  '(_, s, w) ← (handle_epochs net_a (epochs_from 10 20) false ≫= fun _ => persist_state) (toy_service 1 ∅) no_records; Some (s, w).

(** It starts again at once with what it saved. *)
Definition restarted (s : SettlementService) : SettlementService :=
  mk_svc 1 (book_new (key_of 1)) (mk_ee sstore_new true None (ee_db (sv_economy s))) (rc_new 1) ∅ 0 0.

Definition after_restart : option (SettlementService * AccountSequence) :=
  '(s, w) ← before_restart; '(_, s, w) ← reconstruct_through net_a 20 (restarted s) w; Some (s, w).

Definition store_of (x : SettlementService * AccountSequence) : SettlementStore := ee_settlement (sv_economy x.1).
Definition canonical_at (e : Z) (x : SettlementService * AccountSequence) : option RewardRecord :=
  (canonical_record listed (toy_records_net toy_chain) e (rc_new 8) x.2).1.1.

(** What the node saved is the state the record of epoch 20 commits to.  The
    start compares it with the record of epoch 11, nine epochs before the last
    one settled, drops it and replays from nothing: payments and serving of epoch
    12 become a baseline, and the record the node recomputes for epoch 20 is not
    the one it attested. *)
Example restart_discards_the_saved_state :
  (x ← before_restart; rec ← canonical_at 20 x; db ← ee_db (sv_economy x.1);
   Some (bool_decide (hash_of_state (load db) = state_hash rec), pool_total (store_of x))) = Some (true, 694453) /\
  (x ← after_restart; rec ← canonical_at 20 x; own ← local_record (sv_economy x.1) 20;
   Some (bool_decide (own = rec), pool_total (store_of x))) = Some (false, 694449).
Proof. split; vm_compute; reflexivity. Qed.

(** ** An epoch that finalizes late *)

Definition net_at (epoch : Z) : SettleNet (World := AccountSequence) := {|
  sn_records := toy_records_net (fun _ => None);
  sn_get := fun _ w => (None, w);
  sn_publish_system := fun _ w => (None, w);
  sn_census := fun _ => None;
  sn_paid_total := fun _ w => (0, w);
  sn_millis := fun w => (epoch * EPOCH_MILLIS, w);
  sn_order := listed
|}.

Definition attested : AccountSequence := chain_with (key_of 1) (@to_allocvec SignedRecord RecordsRuns.share_codec (mk_sr toy_record (sign_share 5 toy_record 1))).

(** A node off the committee passes epoch 5 before its record is attested, and
    comes round again when it is. *)
Definition two_passes : option (Loop * SettlementService) :=
  '(l, s, _) ← tick (net_at 7) (mk_loop (Some 5) (Some 4) (Some 3) 0 0 true) (toy_service 9 ∅) no_records;
  '(l, s, _) ← tick (net_at 8) l s attested; Some (l, s).

Example late_record_is_not_adopted :
  ('(l, s) ← two_passes; Some (last_settled l, bool_decide (local_record (sv_economy s) 5 = None))) = Some (Some 6, true) /\
  bool_decide ((canonical_record listed (toy_records_net (fun _ => None)) 5 (rc_new 9) attested).1.1 = Some toy_record) = true.
Proof. split; vm_compute; reflexivity. Qed.
End SettleRuns.
