(* ===== verification/SortedVec.v ===== *)
(** A sorted [Vec] used as a map: [slice::binary_search_by], and the
    look-up-and-insert idiom of the registries of
    [crates/com/src/registry.rs], refined to a finite map. *)

From S2P Require Import Prelude.

Open Scope Z_scope.

Section search.
Context {A : Type} (f : A -> comparison).

(** The halving loop of the standard library. *)
Fixpoint search_loop (fuel : nat) (l : list A) (base size : nat) : nat :=
  match fuel with
  | O => base
  | S fuel' =>
      if (size <=? 1)%nat then base
      else
        let half := Nat.div2 size in
        let mid := (base + half)%nat in
        let base' := match f <$> l !! mid with Some Gt | None => base | Some _ => mid end in
        search_loop fuel' l base' (size - half)
  end.

(** [Ok i]: found at [i]; [Err i]: to be inserted at [i]. *)
Definition binary_search_by (l : list A) : result nat nat :=
  match l with
  | [] => Err 0%nat
  | _ :: _ =>
      let base := search_loop (length l) l 0 (length l) in
      match f <$> l !! base with
      | Some Eq => Ok base
      | Some Lt => Err (S base)
      | _ => Err base
      end
  end.

(** [l] splits into the elements before, at and after the searched position. *)
Record splits (l pre mid post : list A) : Prop := {
  splits_app : l = pre ++ mid ++ post;
  splits_pre : Forall (fun x => f x = Lt) pre;
  splits_mid : Forall (fun x => f x = Eq) mid;
  splits_mid_len : (length mid <= 1)%nat;
  splits_post : Forall (fun x => f x = Gt) post
}.

Lemma splits_gt l pre mid post i x :
  splits l pre mid post -> l !! i = Some x -> f x = Gt <-> (length pre + length mid <= i)%nat.
Proof.
  intros [-> Hp Hm Hl Hg] Hi. rewrite lookup_app_Some in Hi. destruct Hi as [Hi|[Hle Hi]].
  - rewrite Forall_lookup in Hp. rewrite (Hp _ _ Hi). apply lookup_lt_Some in Hi. split; [done|lia].
  - rewrite lookup_app_Some in Hi. destruct Hi as [Hi|[Hle' Hi]].
    + rewrite Forall_lookup in Hm. rewrite (Hm _ _ Hi). apply lookup_lt_Some in Hi. split; [done|lia].
    + rewrite Forall_lookup in Hg. rewrite (Hg _ _ Hi). split; [lia|done].
Qed.

Lemma search_loop_spec fuel l pre mid post base size :
  splits l pre mid post -> let q := (length pre + length mid)%nat in
  (base = 0 \/ base < q)%nat -> (q <= base + size)%nat -> (base + size <= length l)%nat ->
  (1 <= size)%nat -> (size <= S fuel)%nat ->
  let b := search_loop fuel l base size in (b = 0 \/ b < q)%nat /\ (q <= S b)%nat /\ (b < length l)%nat.
Proof.
  intros Hs q. cbv zeta. revert base size. induction fuel as [|fuel IH]; intros base size Hb Hq Hl Hsz Hf; cbn; [lia|].
  destruct (Nat.leb_spec size 1); [lia|].
  assert (2 * Nat.div2 size <= size /\ 1 <= Nat.div2 size)%nat as [Hlt Hge].
  { rewrite Nat.div2_div. split; [apply Nat.Div0.mul_div_le|]. apply (Nat.div_le_lower_bound size 2 1); lia. }
  set (half := Nat.div2 size) in *. clearbody half.
  destruct (lookup_lt_is_Some_2 l (base + half) ltac:(lia)) as [y Hy]. rewrite Hy. cbn.
  pose proof (splits_gt l pre mid post _ _ Hs Hy) as Hg. fold q in Hg.
  destruct (f y); apply IH; try lia.
  - destruct (decide (q <= base + half)%nat); [|lia]. assert (Eq = Gt) by tauto. done.
  - destruct (decide (q <= base + half)%nat); [|lia]. assert (Lt = Gt) by tauto. done.
  - assert (q <= base + half)%nat by tauto. lia.
Qed.

Lemma binary_search_by_spec l pre mid post :
  splits l pre mid post ->
  binary_search_by l = if mid is [] then Err (length pre) else Ok (length pre).
Proof.
  intros Hs. unfold binary_search_by. destruct l as [|z l0] eqn:El.
  { destruct Hs as [E _ _ _ _]. by destruct pre, mid, post. }
  rewrite <-El in *. assert (1 <= length l)%nat as Hpos by (rewrite El; cbn; lia). clear z l0 El.
  destruct (search_loop_spec (length l) l pre mid post 0 (length l) Hs) as (Hb & Hq & Hl);
    [by left| |lia|done|lia|].
  { destruct Hs as [-> _ _ _ _]. rewrite !length_app. lia. }
  set (b := search_loop _ _ _ _) in *. clearbody b.
  destruct (lookup_lt_is_Some_2 l b Hl) as [y Hy]. rewrite Hy. cbn.
  destruct Hs as [-> Hp Hm Hlen Hg]. destruct mid as [|m mid]; cbn in Hb, Hq, Hlen.
  - destruct (decide (length pre = 0)%nat) as [E|E].
    + assert (b = 0)%nat as -> by lia. apply nil_length_inv in E as ->. cbn in *.
      rewrite Forall_lookup in Hg. by rewrite (Hg _ _ Hy).
    + assert (b = pred (length pre)) as -> by lia.
      rewrite lookup_app_l in Hy by lia. rewrite Forall_lookup in Hp. rewrite (Hp _ _ Hy). f_equal. lia.
  - assert (b = length pre) as -> by lia.
    rewrite lookup_app_r, Nat.sub_diag in Hy by lia. cbn in Hy. injection Hy as ->.
    apply Forall_cons_iff in Hm as [-> _]. done.
Qed.
End search.

(** ** The sorted vector as a map *)

Section vec_map.
Context {A K : Type} `{OrdLaws K, Countable K} (key_of_entry : A -> K).

(** [binary_search_by(|e| key(e).cmp(k))]. *)
Definition find (l : list A) (k : K) : result nat nat :=
  binary_search_by (fun e => cmp (key_of_entry e) k) l.

(** [Ok(i) => l[i] = e, Err(i) => l.insert(i, e)]: [Vec::insert] shifts. *)
Definition put (l : list A) (e : A) : list A :=
  match find l (key_of_entry e) with
  | Ok i => <[i := e]> l
  | Err i => take i l ++ e :: drop i l
  end.

(** The entry under a key. *)
Definition get (l : list A) (k : K) : option A :=
  match find l k with Ok i => l !! i | Err _ => None end.

(** Strictly ascending keys. *)
Definition vec_sorted (l : list A) : Prop :=
  StronglySorted (fun x y => cmp (key_of_entry x) (key_of_entry y) = Lt) l.

(** The map the vector stands for. *)
Definition to_map (l : list A) : gmap K A := list_to_map (map (fun e => (key_of_entry e, e)) l).

Lemma sorted_splits l k : vec_sorted l ->
  exists pre mid post, splits (fun e => cmp (key_of_entry e) k) l pre mid post.
Proof.
  induction 1 as [|x l Hs (pre & mid & post & [-> Hp Hm Hl Hg]) Hx].
  - exists [], [], []. split; [done|constructor|constructor|cbn; lia|constructor].
  - destruct (cmp (key_of_entry x) k) eqn:E.
    + apply cmp_eq in E. subst k.
      exists [], [x], (pre ++ mid ++ post). split; [done|constructor|constructor; [apply cmp_refl|constructor]|cbn; lia|].
      revert Hx. apply Forall_impl. intros y Hy. rewrite cmp_opp, Hy. done.
    + exists (x :: pre), mid, post. split; try done. by constructor.
    + exists [], [], (x :: pre ++ mid ++ post). split; [done|constructor|constructor|cbn; lia|].
      constructor; [done|]. revert Hx. apply Forall_impl. intros y Hy.
      rewrite cmp_opp.
      assert (cmp k (key_of_entry x) = Lt) as Hk by (rewrite (cmp_opp (key_of_entry x) k), E; done).
      by rewrite (cmp_lt_trans _ _ _ Hk Hy).
Qed.

Lemma to_map_lookup_pre l k :
  Forall (fun e => cmp (key_of_entry e) k <> Eq) l -> to_map l !! k = None.
Proof.
  intros Hl. apply not_elem_of_list_to_map_1. rewrite map_map. cbn.
  intros (e & -> & He)%list_elem_of_fmap. rewrite list.Forall_forall in Hl. apply (Hl e He), cmp_refl.
Qed.

Lemma to_map_app l1 l2 : to_map (l1 ++ l2) = to_map l1 ∪ to_map l2.
Proof. unfold to_map. by rewrite map_app, list_to_map_app. Qed.

Lemma splits_lookup l k pre mid post :
  splits (fun e => cmp (key_of_entry e) k) l pre mid post ->
  to_map l !! k = head mid /\ get l k = head mid.
Proof.
  intros Hs. split.
  - destruct Hs as [-> Hp Hm Hl Hg]. rewrite !to_map_app.
    rewrite lookup_union_r by (apply to_map_lookup_pre; revert Hp; apply Forall_impl; intros ? ->; done).
    destruct mid as [|m mid]; cbn.
    + rewrite (left_id_L ∅ (∪)). apply to_map_lookup_pre. revert Hg. apply Forall_impl. intros ? ->; done.
    + apply Forall_cons_iff in Hm as [->%cmp_eq _]. apply lookup_union_Some_l.
      unfold to_map. cbn. apply lookup_insert_eq.
  - unfold get, find. rewrite (binary_search_by_spec _ _ _ _ _ Hs).
    destruct Hs as [-> Hp Hm Hl Hg]. destruct mid as [|m mid]; [done|].
    by rewrite lookup_app_r, Nat.sub_diag by lia.
Qed.

(** [get] reads the map. *)
Lemma get_spec l k : vec_sorted l -> get l k = to_map l !! k.
Proof.
  intros Hl. destruct (sorted_splits l k Hl) as (pre & mid & post & Hs).
  by destruct (splits_lookup l k pre mid post Hs) as [-> ->].
Qed.

(** [put] keeps the vector sorted and inserts into the map. *)
Lemma put_spec l e : vec_sorted l ->
  vec_sorted (put l e) /\ to_map (put l e) = <[key_of_entry e := e]> (to_map l).
Proof.
  intros Hl. destruct (sorted_splits l (key_of_entry e) Hl) as (pre & mid & post & Hs).
  assert (put l e = pre ++ e :: post) as ->.
  { unfold put, find. rewrite (binary_search_by_spec _ _ _ _ _ Hs). destruct Hs as [-> Hp Hm Hlen Hg].
    destruct mid as [|m [|]]; cbn in Hlen; [|cbn|lia].
    - cbn. by rewrite take_app_length, drop_app_length.
    - rewrite insert_app_r_alt by lia. by rewrite Nat.sub_diag. }
  destruct Hs as [-> Hp Hm Hlen Hg]. split.
  - unfold vec_sorted in *. apply StronglySorted_app in Hl as (Hpm & Hs1 & Hs2).
    apply StronglySorted_app in Hs2 as (_ & _ & Hs3).
    apply StronglySorted_app. split_and!; [|done|].
    + intros x y Hx [->|Hy]%elem_of_cons.
      * rewrite list.Forall_forall in Hp. by apply Hp.
      * apply Hpm; [done|]. apply elem_of_app. by right.
    + constructor; [done|]. revert Hg. apply Forall_impl. intros y Hy. rewrite cmp_opp, Hy. done.
  - rewrite !to_map_app. apply map_eq. intros k.
    assert (forall l k, Forall (fun x => cmp (key_of_entry x) (key_of_entry e) <> Eq) l -> k = key_of_entry e -> to_map l !! k = None)
      as Hnone by (intros l k' Hf ->; by apply to_map_lookup_pre).
    assert (to_map (e :: post) = <[key_of_entry e := e]> (to_map post)) as -> by done.
    destruct (decide (k = key_of_entry e)) as [->|Hne].
    + rewrite lookup_insert_eq. rewrite lookup_union_r; [apply lookup_insert_eq|].
      apply to_map_lookup_pre. revert Hp. apply Forall_impl. intros ? ->; done.
    + rewrite lookup_insert_ne by done. rewrite !lookup_union, lookup_insert_ne by done.
      assert (to_map mid !! k = None) as ->.
      { apply to_map_lookup_pre. revert Hm. apply Forall_impl. intros x Hx%cmp_eq. rewrite Hx.
        intros E%cmp_eq. congruence. }
      by destruct (to_map pre !! k), (to_map post !! k).
Qed.

(** Two sorted vectors with the same map are the same vector. *)
Lemma vec_sorted_ext l l' : vec_sorted l -> vec_sorted l' -> to_map l = to_map l' -> l = l'.
Proof.
  intros Hl Hl' E.
  assert (forall l, vec_sorted l -> NoDup (map fst (map (fun e => (key_of_entry e, e)) l))) as Hnd.
  { clear l l' Hl Hl' E. intros l Hl. rewrite map_map. cbn. induction Hl as [|x l Hs IH Hx]; [constructor|]. cbn. constructor; [|done].
    intros (y & Ey & Hy)%list_elem_of_fmap. rewrite list.Forall_forall in Hx. specialize (Hx y Hy). cbn in Hx.
    rewrite Ey, cmp_refl in Hx. done. }
  assert (map (fun e => (key_of_entry e, e)) l ≡ₚ map (fun e => (key_of_entry e, e)) l') as Hp.
  { apply list_to_map_inj; [by apply Hnd|by apply Hnd|exact E]. }
  apply (Permutation_map snd) in Hp. rewrite !map_map in Hp. cbn in Hp. rewrite !map_id in Hp.
  assert (forall l, vec_sorted l -> sort_by (le_on key_of_entry) l = l) as Hsort.
  { intros l0 Hl0. apply sort_by_id. apply StronglySorted_Sorted. revert Hl0. apply StronglySorted_weaken.
    intros x y Hxy. unfold le_on. by rewrite Hxy. }
  rewrite <-(Hsort l Hl), <-(Hsort l' Hl'). apply sort_by_key_canonical; [done|].
  intros x y Hx Hy Exy.
  assert (forall z, z ∈ l -> to_map l !! key_of_entry z = Some z) as Hz.
  { intros z Hz. apply elem_of_list_to_map_1; [by apply Hnd|]. apply list_elem_of_fmap. by exists z. }
  pose proof (Hz x Hx) as Hx'. rewrite Exy, (Hz y Hy) in Hx'. congruence.
Qed.
End vec_map.
