(* ===== verification/Registry.v ===== *)
(** The registries ([crates/com/src/registry.rs]): the owner-signed head
    registry with its submission transition and its replica merge, and the
    governed program and configuration registries. *)

From S2P Require Import Prelude Crypto SortedVec.

Open Scope Z_scope.

Definition HEAD_DOMAIN : bytes := str_bytes "craftec/head/1".

(** Names are strings, as their UTF-8 bytes: Rust orders them bytewise. *)
Record HeadSubmission := mk_sub {
  sub_owner : key; sub_name : bytes; sub_cid : key; sub_version : Z; sub_signature : bytes
}.

Record HeadEntry := mk_entry {
  owner : key; name : bytes; cid : key; version : Z; signature : bytes
}.

#[export] Instance HeadEntry_eq_dec : EqDecision HeadEntry.
Proof. solve_decision. Defined.

Definition head_signing_bytes (owner : key) (name : bytes) (cid : key) (version : Z) : bytes :=
  HEAD_DOMAIN ++ owner ++ be_bytes 4 (as_u32 (Z.of_nat (length name))) ++ name ++ cid ++ be_bytes 8 version.

Inductive RegistryError := BadSignature | StaleVersion.

(** [RegistryState]: the sorted entries. *)
Record RegistryState := mk_registry { entries : list HeadEntry }.

Definition registry_default : RegistryState := mk_registry [].

Definition entry_key (e : HeadEntry) : key * bytes := (owner e, name e).

(** [find(owner, name)]. *)
Definition registry_find (s : RegistryState) (o : key) (n : bytes) : result nat nat :=
  find entry_key (entries s) (o, n).

Definition registry_resolve (s : RegistryState) (o : key) (n : bytes) : option HeadEntry :=
  match registry_find s o n with Ok i => entries s !! i | Err _ => None end.

(** [Vec::insert]. *)
Definition vec_insert {A} (i : nat) (x : A) (l : list A) : list A := take i l ++ x :: drop i l.

Section heads.
Context `{Ed25519}.

Definition sign_head (id : NodeIdentity) (n : bytes) (c : key) (v : Z) : HeadSubmission :=
  let o := node_id id in mk_sub o n c v (sign id (head_signing_bytes o n c v)).

Definition verify_submission (s : HeadSubmission) : bool :=
  verify_slice (sub_owner s) (head_signing_bytes (sub_owner s) (sub_name s) (sub_cid s) (sub_version s)) (sub_signature s).

Definition verify_entry (e : HeadEntry) : bool :=
  verify_slice (owner e) (head_signing_bytes (owner e) (name e) (cid e) (version e)) (signature e).

Definition apply (s : RegistryState) (sub : HeadSubmission) : result RegistryState RegistryError :=
  if negb (verify_submission sub) then Err BadSignature
  else
    let entry := mk_entry (sub_owner sub) (sub_name sub) (sub_cid sub) (sub_version sub) (sub_signature sub) in
    match registry_find s (sub_owner sub) (sub_name sub) with
    | Ok i =>
        match entries s !! i with
        | Some cur =>
            if sub_version sub <=? version cur then Err StaleVersion
            else Ok (mk_registry (<[i := entry]> (entries s)))
        | None => Err StaleVersion
        end
    | Err i => Ok (mk_registry (vec_insert i entry (entries s)))
    end.

(** The body of [merge]'s and [merge_entries]'s loop. *)
Definition merge_entry (l : list HeadEntry) (e : HeadEntry) : list HeadEntry :=
  if negb (verify_entry e) then l
  else
    match find entry_key l (owner e, name e) with
    | Ok i =>
        match l !! i with
        | Some cur => if version cur <? version e then <[i := e]> l else l
        | None => l
        end
    | Err i => vec_insert i e l
    end.

Definition merge_entries (s : RegistryState) (es : list HeadEntry) : RegistryState :=
  mk_registry (foldl merge_entry (entries s) es).

Definition merge (s other : RegistryState) : RegistryState := merge_entries s (entries other).
End heads.

(** [RegistryState::decode]: empty bytes are the default state. *)
Definition decode_or {A} `{Postcard A} (default : A) (b : bytes) : option A :=
  match b with [] => Some default | _ => from_bytes b end.

Section program.
Context `{Ed25519, Postcard RegistryState, Postcard HeadSubmission}.

(** [RegistryProgram::run]; [None] is an error return. *)
Definition run_registry (prev_state request : bytes) : option bytes :=
  state ← decode_or registry_default prev_state;
  sub ← from_bytes request;
  match apply state sub with
  | Ok next => Some (to_allocvec next)
  | Err _ => None
  end.
End program.

(** ** The governed registries *)

(** [(name, value, version)]; [V] is a content id or an i64. *)
Notation reg_row V := (bytes * V * Z)%type.

Definition row_name {V} (r : reg_row V) : bytes := r.1.1.

Record ProgramRegistryState := mk_programs { programs : list (reg_row key) }.
Record ConfigRegistryState := mk_configs { values : list (reg_row Z) }.

(** The shared body of the two [set]s and the two [resolve]s. *)
Definition row_set {V} (l : list (reg_row V)) (n : bytes) (v : V) (ver : Z)
  : result (list (reg_row V)) RegistryError :=
  match find row_name l n with
  | Ok i =>
      match l !! i with
      | Some cur => if ver <=? cur.2 then Err StaleVersion else Ok (<[i := (n, v, ver)]> l)
      | None => Err StaleVersion
      end
  | Err i => Ok (vec_insert i (n, v, ver) l)
  end.

Definition row_resolve {V} (l : list (reg_row V)) (n : bytes) : option V :=
  match find row_name l n with
  | Ok i => r ← l !! i; Some (r.1.2)
  | Err _ => None
  end.

Definition program_set (s : ProgramRegistryState) (n : bytes) (c : key) (ver : Z)
  : result ProgramRegistryState RegistryError :=
  match row_set (programs s) n c ver with Ok l => Ok (mk_programs l) | Err e => Err e end.
Definition program_resolve (s : ProgramRegistryState) (n : bytes) : option key := row_resolve (programs s) n.

Definition config_set (s : ConfigRegistryState) (n : bytes) (v ver : Z)
  : result ConfigRegistryState RegistryError :=
  match row_set (values s) n v ver with Ok l => Ok (mk_configs l) | Err e => Err e end.
Definition config_resolve (s : ConfigRegistryState) (n : bytes) : option Z := row_resolve (values s) n.

(** ** The registry as a map *)

(** The map of a state, and its well-formedness: sorted, every entry signed. *)
Definition head_map (s : RegistryState) : gmap (key * bytes) HeadEntry := to_map entry_key (entries s).

(** Last writer wins: the entry of the higher version, the first on a tie. *)
Definition newer (x y : option HeadEntry) : option HeadEntry :=
  match x, y with
  | Some p, Some e => if version p <? version e then Some e else Some p
  | None, y => y
  | x, None => x
  end.

Lemma newer_None_r x : newer x None = x.
Proof. by destruct x. Qed.

Section registry_map.
Context `{Ed25519}.

Definition registry_wf (s : RegistryState) : Prop :=
  vec_sorted entry_key (entries s) /\ Forall (fun e => verify_entry e = true) (entries s).

Lemma resolve_spec s o n : vec_sorted entry_key (entries s) -> registry_resolve s o n = head_map s !! (o, n).
Proof. intros Hs. apply (get_spec entry_key (entries s) (o, n) Hs). Qed.

(** Through [find]: either the key is present, and writing there is [put], or
    it is not, and inserting there is [put]. *)
Lemma find_cases l (e : HeadEntry) :
  vec_sorted entry_key l ->
  match find entry_key l (entry_key e) with
  | Ok i => exists cur, l !! i = Some cur /\ to_map entry_key l !! entry_key e = Some cur /\ <[i := e]> l = put entry_key l e
  | Err i => to_map entry_key l !! entry_key e = None /\ vec_insert i e l = put entry_key l e
  end.
Proof.
  intros Hl. pose proof (get_spec entry_key l (entry_key e) Hl) as Hg. unfold get, put, vec_insert in *.
  destruct (sorted_splits entry_key l (entry_key e) Hl) as (pre & mid & post & Hs).
  unfold find in *. rewrite (binary_search_by_spec _ _ _ _ _ Hs) in *.
  destruct mid as [|m mid]; [done|]. destruct Hs as [-> _ _ _ _].
  rewrite lookup_app_r, Nat.sub_diag in Hg by lia. exists m. rewrite lookup_app_r, Nat.sub_diag by lia. done.
Qed.

Lemma merge_entry_spec l e :
  vec_sorted entry_key l ->
  vec_sorted entry_key (merge_entry l e) /\
  (forall k, to_map entry_key (merge_entry l e) !! k =
     if verify_entry e && bool_decide (k = entry_key e)
     then newer (to_map entry_key l !! k) (Some e) else to_map entry_key l !! k).
Proof.
  intros Hl. unfold merge_entry. destruct (verify_entry e); cbn [negb andb]; [|done].
  pose proof (find_cases l e Hl) as Hf. fold (entry_key e). pose proof (put_spec entry_key l e Hl) as [Hps Hpm].
  destruct (find entry_key l (entry_key e)) as [i|i].
  - destruct Hf as (cur & -> & Hm & Hput). destruct (Z.ltb_spec (version cur) (version e)).
    + rewrite Hput. split; [done|]. intros k. rewrite Hpm. case_bool_decide as Hk; [subst|by rewrite lookup_insert_ne].
      rewrite lookup_insert_eq, Hm. cbn. destruct (Z.ltb_spec (version cur) (version e)); [done|lia].
    + split; [done|]. intros k. case_bool_decide as Hk; [subst|done]. rewrite Hm. cbn.
      destruct (Z.ltb_spec (version cur) (version e)); [lia|done].
  - destruct Hf as [Hm Hput]. rewrite Hput. split; [done|]. intros k. rewrite Hpm.
    case_bool_decide as Hk; [subst|by rewrite lookup_insert_ne]. by rewrite lookup_insert_eq, Hm.
Qed.

Lemma merge_entry_verified l e :
  Forall (fun e => verify_entry e = true) l -> Forall (fun e => verify_entry e = true) (merge_entry l e).
Proof.
  intros Hl. unfold merge_entry. destruct (verify_entry e) eqn:Ev; cbn [negb]; [|done].
  destruct (find entry_key l _) as [i|i].
  - destruct (l !! i); [|done]. case_match; [|done]. by apply Forall_insert.
  - unfold vec_insert. apply Forall_app. split; [by apply Forall_take|]. constructor; [done|by apply Forall_drop].
Qed.

(** Merging a sorted vector: each key gets the newer of the two entries. *)
Lemma merge_lookup l es k :
  vec_sorted entry_key l -> vec_sorted entry_key es -> Forall (fun e => verify_entry e = true) es ->
  vec_sorted entry_key (foldl merge_entry l es) /\
  to_map entry_key (foldl merge_entry l es) !! k = newer (to_map entry_key l !! k) (to_map entry_key es !! k).
Proof.
  intros Hl Hes Hv; revert l Hl. induction Hes as [|e es Hs IH Hx]; intros l Hl; cbn [foldl].
  - split; [done|]. unfold to_map at 3. cbn. rewrite lookup_empty. by destruct (to_map entry_key l !! k).
  - apply Forall_cons_iff in Hv as [Hve Hv]. destruct (merge_entry_spec l e Hl) as [Hms Hmm].
    destruct (IH Hv (merge_entry l e) Hms) as [Hfs Hfm]. split; [done|]. rewrite Hfm, Hmm, Hve. cbn [andb].
    assert (to_map entry_key (e :: es) !! k =
      if bool_decide (k = entry_key e) then Some e else to_map entry_key es !! k) as ->.
    { unfold to_map. cbn. case_bool_decide as Hk; [subst; apply lookup_insert_eq|by rewrite lookup_insert_ne]. }
    case_bool_decide as Hk; [|done]. subst k.
    rewrite (to_map_lookup_pre entry_key es (entry_key e)).
    + apply newer_None_r.
    + revert Hx. apply Forall_impl. intros y Hy E%cmp_eq. rewrite E, cmp_refl in Hy. done.
Qed.
End registry_map.

(** ** Properties *)

(** No owner signed two different heads of one name with one version. *)
Definition no_double_sign (s t : RegistryState) : Prop :=
  forall k e e', head_map s !! k = Some e -> head_map t !! k = Some e' -> version e = version e' -> e = e'.

Lemma newer_comm x y :
  (forall e e', x = Some e -> y = Some e' -> version e = version e' -> e = e') -> newer x y = newer y x.
Proof.
  intros Hxy. destruct x as [p|], y as [e|]; try done. cbn. specialize (Hxy p e eq_refl eq_refl).
  destruct (Z.ltb_spec (version p) (version e)), (Z.ltb_spec (version e) (version p)); try done; try lia.
  f_equal. apply Hxy. lia.
Qed.

Lemma newer_assoc x y z : newer x (newer y z) = newer (newer x y) z.
Proof.
  destruct x as [p|], y as [q|], z as [r|]; unfold newer; try done;
    repeat match goal with |- context [?a <? ?b] => destruct (Z.ltb_spec a b) end; done || lia.
Qed.

Lemma newer_idem x : newer x x = x.
Proof. destruct x as [p|]; [|done]. cbn. by rewrite Z.ltb_irrefl. Qed.

Section properties.
Context `{Ed25519}.

Lemma merge_wf s t : registry_wf s -> registry_wf t ->
  registry_wf (merge s t) /\ forall k, head_map (merge s t) !! k = newer (head_map s !! k) (head_map t !! k).
Proof.
  intros [Hs Hvs] [Ht Hvt]. split; [split|].
  - by apply (merge_lookup (entries s) (entries t) ([], [])).
  - unfold merge, merge_entries. cbn. clear Hs Ht Hvt. revert Hvs. generalize (entries s) as l.
    induction (entries t) as [|e es IH]; intros l Hl; cbn; [done|]. by apply IH, merge_entry_verified.
  - intros k. by apply (merge_lookup (entries s) (entries t) k).
Qed.

Lemma registry_ext s t : registry_wf s -> registry_wf t -> (forall k, head_map s !! k = head_map t !! k) -> s = t.
Proof.
  intros [Hs _] [Ht _] E. destruct s as [l], t as [l']. f_equal.
  apply (vec_sorted_ext entry_key); [done|done|]. apply map_eq. exact E.
Qed.

(** Replicas converge.  On states that hold verified entries in order, a
    merge keeps for every name the entry of the higher version; it is
    idempotent and associative, and, when no owner signed two heads of the same
    name and version, commutative: replicas that exchange their states in any
    order reach the same state, bit for bit. *)
Theorem registry_merge_converges (s t u : RegistryState) :
  registry_wf s -> registry_wf t -> registry_wf u ->
  registry_wf (merge s t) /\
  (forall o n, registry_resolve (merge s t) o n = newer (registry_resolve s o n) (registry_resolve t o n)) /\
  merge s s = s /\ merge s (merge t u) = merge (merge s t) u /\
  (no_double_sign s t -> merge s t = merge t s).
Proof.
  intros Hs Ht Hu.
  destruct (merge_wf s t Hs Ht) as [Hst Est]. destruct (merge_wf t s Ht Hs) as [Hts Ets].
  destruct (merge_wf t u Ht Hu) as [Htu Etu]. destruct (merge_wf s s Hs Hs) as [Hss Ess].
  destruct (merge_wf s (merge t u) Hs Htu) as [H1 E1]. destruct (merge_wf (merge s t) u Hst Hu) as [H2 E2].
  split_and!; [done| | | |].
  - intros o n. rewrite !resolve_spec by (apply Hst || apply Hs || apply Ht). apply Est.
  - apply registry_ext; [done|done|]. intros k. rewrite Ess. apply newer_idem.
  - apply registry_ext; [done|done|]. intros k. rewrite E1, E2, Etu, Est. apply newer_assoc.
  - intros Hnd. apply registry_ext; [done|done|]. intros k. rewrite Est, Ets. apply newer_comm.
    intros e e'. apply Hnd.
Qed.

(** The submission transition.  On a well-formed registry, a submission is
    accepted if and only if its owner's signature verifies and its version is
    strictly higher than the one on record; then exactly that name of that
    owner resolves to it, and the registry stays sorted and signed.  A refused
    submission reports why. *)
Theorem registry_apply_is_monotone_upsert (s : RegistryState) (sub : HeadSubmission) :
  registry_wf s ->
  let e := mk_entry (sub_owner sub) (sub_name sub) (sub_cid sub) (sub_version sub) (sub_signature sub) in
  let fresh := match registry_resolve s (sub_owner sub) (sub_name sub) with
               | Some cur => version cur <? sub_version sub | None => true end in
  (if negb (verify_submission sub) then apply s sub = Err BadSignature
   else if negb fresh then apply s sub = Err StaleVersion
   else exists s', apply s sub = Ok s' /\ registry_wf s' /\
     forall o n, registry_resolve s' o n =
       if bool_decide ((o, n) = (sub_owner sub, sub_name sub)) then Some e else registry_resolve s o n).
Proof.
  intros [Hs Hv] e fresh. unfold apply. destruct (verify_submission sub) eqn:Ever; cbn [negb]; [|done]. fold e.
  assert (fresh = match head_map s !! entry_key e with Some cur => version cur <? sub_version sub | None => true end) as ->
    by (unfold fresh; by rewrite resolve_spec).
  pose proof (find_cases (entries s) e Hs) as Hf. pose proof (put_spec entry_key (entries s) e Hs) as [Hps Hpm].
  unfold registry_find. change (sub_owner sub, sub_name sub) with (entry_key e).
  assert (verify_entry e = true) as Hve by exact Ever.
  assert (forall l, l = put entry_key (entries s) e -> Forall (fun e => verify_entry e = true) l ->
    registry_wf (mk_registry l) /\ forall o n, registry_resolve (mk_registry l) o n =
       if bool_decide ((o, n) = entry_key e) then Some e else registry_resolve s o n) as Hok.
  { intros l -> Hl. split; [by split|]. intros o n. rewrite !resolve_spec by done. unfold head_map. cbn [entries].
    rewrite Hpm. case_bool_decide as Hk; [rewrite Hk; apply lookup_insert_eq|by rewrite lookup_insert_ne]. }
  destruct (find entry_key (entries s) (entry_key e)) as [i|i].
  - destruct Hf as (cur & -> & Hm & Hput). unfold head_map. rewrite Hm.
    destruct (Z.ltb_spec (version cur) (sub_version sub)), (Z.leb_spec (sub_version sub) (version cur)); cbn [negb]; try lia; [|done].
    eexists. split; [done|]. apply Hok; [done|]. by apply Forall_insert.
  - destruct Hf as [Hm Hput]. unfold head_map. rewrite Hm. cbn [negb]. eexists. split; [done|]. apply Hok; [done|].
    unfold vec_insert. apply Forall_app. split; [by apply Forall_take|]. constructor; [done|by apply Forall_drop].
Qed.
End properties.

(** A merge keeps its own entry on a version tie, so when an owner signs two
    heads of the same name and version, the result depends on the order. *)
Definition ex_head (c : Z) : HeadEntry :=
  let s := @sign_head toy_ed25519 1 [110] (key_of c) 7 in
  mk_entry (sub_owner s) (sub_name s) (sub_cid s) (sub_version s) (sub_signature s).

Theorem double_signed_heads_do_not_converge :
  let a := mk_registry [ex_head 1] in let b := mk_registry [ex_head 2] in
  @merge toy_ed25519 a b = a /\ @merge toy_ed25519 b a = b /\ a <> b.
Proof.
  cbv zeta. split_and!; [vm_compute; reflexivity..|].
  intros E%(f_equal (fun r => map cid (entries r))). discriminate E.
Qed.

Lemma ex_head_wf c : @verify_entry toy_ed25519 (ex_head c) = true ->
  @registry_wf toy_ed25519 (mk_registry [ex_head c]).
Proof. intros Hv. split; [repeat constructor|]. by apply Forall_singleton. Qed.

Lemma registry_merge_converges_witness :
  @merge toy_ed25519 (mk_registry [ex_head 1]) (mk_registry [ex_head 1]) = mk_registry [ex_head 1].
Proof.
  assert (@registry_wf toy_ed25519 (mk_registry [ex_head 1])) as Hw by (apply ex_head_wf; vm_compute; reflexivity).
  destruct (@registry_merge_converges toy_ed25519 _ _ _ Hw Hw Hw) as (_ & _ & E & _). exact E.
Defined.

Lemma registry_apply_is_monotone_upsert_witness :
  exists s', @apply toy_ed25519 (mk_registry [ex_head 1]) (@sign_head toy_ed25519 1 [110] (key_of 5) 8) = Ok s'.
Proof.
  assert (@registry_wf toy_ed25519 (mk_registry [ex_head 1])) as Hw by (apply ex_head_wf; vm_compute; reflexivity).
  pose proof (@registry_apply_is_monotone_upsert toy_ed25519 (mk_registry [ex_head 1])
    (@sign_head toy_ed25519 1 [110] (key_of 5) 8) Hw) as Ha. cbv zeta in Ha.
  assert (@verify_submission toy_ed25519 (@sign_head toy_ed25519 1 [110] (key_of 5) 8) = true) as E1
    by (vm_compute; reflexivity).
  rewrite E1 in Ha. cbn [negb] in Ha.
  assert ((match registry_resolve (mk_registry [ex_head 1]) (sub_owner (@sign_head toy_ed25519 1 [110] (key_of 5) 8))
    (sub_name (@sign_head toy_ed25519 1 [110] (key_of 5) 8)) with
    | Some cur => version cur <? sub_version (@sign_head toy_ed25519 1 [110] (key_of 5) 8) | None => true end) = true) as E2
    by (vm_compute; reflexivity).
  rewrite E2 in Ha. cbn [negb] in Ha. destruct Ha as (s' & E & _). exists s'. exact E.
Defined.
