(* ===== verification/Gov.v ===== *)
(** Governance ([crates/com/src/gov.rs]): k-of-n approvals, the governance
    chain, and the registries replayed from it. *)

From S2P Require Import Prelude Crypto Attestation SortedVec Registry.

Open Scope Z_scope.

Definition GOV_DOMAIN : bytes := str_bytes "craftec/gov/1".

Inductive GovAction :=
| SetProgram (name : bytes) (cid : key)
| SetConfig (key : bytes) (value : Z)
| AddGovernor (governor : key)
| RemoveGovernor (governor : key)
| GovSetThreshold (threshold : Z).

Record GovernanceProposal := mk_gproposal { gaction : GovAction; gseq : Z }.

Record GovernanceApproval := mk_approval { gproposal : GovernanceProposal; gsignatures : list MemberSignature }.

Definition gov_member_change (a : GovAction) : option MemberChange :=
  match a with
  | AddGovernor g => Some (Add g)
  | RemoveGovernor g => Some (Remove g)
  | GovSetThreshold t => Some (SetThresholdTo t)
  | SetProgram _ _ | SetConfig _ _ => None
  end.

Section governance.
Context `{Ed25519, Postcard GovernanceProposal}.

Definition gov_signing_bytes (p : GovernanceProposal) : bytes := GOV_DOMAIN ++ to_allocvec p.

Definition gov_sign (p : GovernanceProposal) (id : NodeIdentity) : MemberSignature :=
  mk_msig (node_id id) (sign id (gov_signing_bytes p)).

(** [GovernanceApproval::authorizes]; [None] is the overflow panic. *)
Definition gov_authorizes (a : GovernanceApproval) (set : Quorum) : option bool :=
  s ← checked_add (seq set) 1;
  Some ((gseq (gproposal a) =? s) &&
        (threshold set <=? count_signers set (gov_signing_bytes (gproposal a)) (gsignatures a))).

Definition gov_apply_to (a : GovernanceApproval) (set : Quorum) : option (option Quorum) :=
  ok ← gov_authorizes a set;
  if ok : bool then q' ← advance set (gov_member_change (gaction (gproposal a))); Some (Some q')
  else Some None.

Record GovernanceChain := mk_gchain { ggenesis : Quorum; approvals : list GovernanceApproval }.

Definition gchain_new (g : Quorum) : GovernanceChain := mk_gchain g [].

Definition gchain_seq (c : GovernanceChain) : option Z :=
  checked_add (seq (ggenesis c)) (Z.of_nat (length (approvals c))).

Fixpoint gov_fold (set : Quorum) (l : list GovernanceApproval) : option (option Quorum) :=
  match l with
  | [] => Some (Some set)
  | a :: l' =>
      r ← gov_apply_to a set;
      match r with Some set' => gov_fold set' l' | None => Some None end
  end.

Definition gov_current (c : GovernanceChain) : option (option Quorum) := gov_fold (ggenesis c) (approvals c).

Definition gov_append (c : GovernanceChain) (a : GovernanceApproval) : option (bool * GovernanceChain) :=
  cur ← gov_current c;
  match cur with
  | Some set =>
      r ← gov_apply_to a set;
      match r with
      | Some _ => Some (true, mk_gchain (ggenesis c) (approvals c ++ [a]))
      | None => Some (false, c)
      end
  | None => Some (false, c)
  end.

(** The replay loops of [program_registry] and [config_registry]; [None] is
    the overflow panic of [seq += 1]. *)
Fixpoint program_loop (prg : ProgramRegistryState) (seq : Z) (l : list GovernanceApproval)
  : option ProgramRegistryState :=
  match l with
  | [] => Some prg
  | a :: l' =>
      s ← checked_add seq 1;
      let prg' := match gaction (gproposal a) with
                  | SetProgram n c => match program_set prg n c s with Ok next => next | Err _ => prg end
                  | _ => prg
                  end in
      program_loop prg' s l'
  end.

Definition program_registry (c : GovernanceChain) : option ProgramRegistryState :=
  program_loop (mk_programs []) (seq (ggenesis c)) (approvals c).

Fixpoint config_loop (cfg : ConfigRegistryState) (seq : Z) (l : list GovernanceApproval)
  : option ConfigRegistryState :=
  match l with
  | [] => Some cfg
  | a :: l' =>
      s ← checked_add seq 1;
      let cfg' := match gaction (gproposal a) with
                  | SetConfig k v => match config_set cfg k v s with Ok next => next | Err _ => cfg end
                  | _ => cfg
                  end in
      config_loop cfg' s l'
  end.

Definition config_registry (c : GovernanceChain) : option ConfigRegistryState :=
  config_loop (mk_configs []) (seq (ggenesis c)) (approvals c).
End governance.

(** ** Replaying the registries *)

Section rows.
Context {V : Type}.

(** Every row is at most [s] versions old. *)
Definition rows_ok (l : list (reg_row V)) (s : Z) : Prop :=
  vec_sorted row_name l /\ Forall (fun r => r.2 <= s) l.

Lemma row_set_spec (l : list (reg_row V)) n v s :
  rows_ok l s -> exists l', row_set l n v (s + 1) = Ok l' /\ rows_ok l' (s + 1) /\
    forall m, row_resolve l' m = if bool_decide (m = n) then Some v else row_resolve l m.
Proof.
  intros [Hs Hv]. pose proof (put_spec row_name l (n, v, s + 1) Hs) as [Hps Hpm].
  assert (forall (l0 : list (reg_row V)) m, vec_sorted row_name l0 -> row_resolve l0 m = (fun r => r.1.2) <$> to_map row_name l0 !! m) as Hres.
  { intros l0 m Hl0. unfold row_resolve. pose proof (get_spec row_name l0 m Hl0) as Hg. unfold get in Hg.
    rewrite <-Hg. destruct (find row_name l0 m); [|done]. by destruct (l0 !! a). }
  exists (put row_name l (n, v, s + 1)).
  assert (Forall (fun r => r.2 <= s + 1) (put row_name l (n, v, s + 1))) as Hvp.
  { assert (Forall (fun r : reg_row V => r.2 <= s + 1) l) as Hv' by (revert Hv; apply Forall_impl; lia).
    unfold put. destruct (find _ _ _); [apply Forall_insert; [done|cbn; lia]|].
    apply Forall_app. split; [by apply Forall_take|]. constructor; [cbn; lia|by apply Forall_drop]. }
  split_and!; [|by split|].
  - unfold row_set, put. cbn [row_name fst]. change (row_name (n, v, s + 1)) with n.
    destruct (sorted_splits row_name l n Hs) as (pre & mid & post & Hsp).
    unfold find. rewrite (binary_search_by_spec _ _ _ _ _ Hsp). destruct mid as [|m mid]; [done|].
    destruct Hsp as [-> _ _ _ _]. rewrite lookup_app_r, Nat.sub_diag by lia. cbn.
    apply Forall_app in Hv as [_ Hv]. apply Forall_cons_iff in Hv as [Hm _].
    destruct (Z.leb_spec (s + 1) m.2); [lia|done].
  - intros m. rewrite !Hres by done. rewrite Hpm. change (row_name (n, v, s + 1)) with n.
    case_bool_decide as E; [subst; by rewrite lookup_insert_eq|by rewrite lookup_insert_ne].
Qed.
End rows.

Section replay.
Context `{Ed25519, Postcard GovernanceProposal}.

(** What the approvals last said of a name, or of a configuration key. *)
Definition last_program (l : list GovernanceApproval) (n : bytes) : option key :=
  foldl (fun acc a => match gaction (gproposal a) with
                      | SetProgram m c => if bool_decide (n = m) then Some c else acc
                      | _ => acc
                      end) None l.
Definition last_config (l : list GovernanceApproval) (k : bytes) : option Z :=
  foldl (fun acc a => match gaction (gproposal a) with
                      | SetConfig m v => if bool_decide (k = m) then Some v else acc
                      | _ => acc
                      end) None l.

Lemma program_loop_spec prg s l :
  rows_ok (programs prg) s -> 0 <= s -> s + Z.of_nat (length l) <= U64_MAX ->
  exists prg', program_loop prg s l = Some prg' /\
    forall n, program_resolve prg' n =
      foldl (fun acc a => match gaction (gproposal a) with
                          | SetProgram m c => if bool_decide (n = m) then Some c else acc
                          | _ => acc
                          end) (program_resolve prg n) l.
Proof.
  revert prg s; induction l as [|a l IH]; intros prg s Hok Hs Hmax; cbn [program_loop foldl]; [by exists prg|].
  cbn [length] in Hmax. unfold checked_add. destruct (Z.leb_spec (s + 1) U64_MAX); [|lia]. cbn [mbind option_bind].
  assert (exists prg1, match gaction (gproposal a) with
      | SetProgram n c => match program_set prg n c (s + 1) with Ok next => next | Err _ => prg end
      | _ => prg end = prg1 /\ rows_ok (programs prg1) (s + 1) /\
      forall n, program_resolve prg1 n = match gaction (gproposal a) with
        | SetProgram m c => if bool_decide (n = m) then Some c else program_resolve prg n
        | _ => program_resolve prg n end) as (prg1 & -> & Hok1 & Hres).
  { eexists. split; [done|].
    assert (rows_ok (programs prg) (s + 1)) as Hok' by (destruct Hok as [? Hv]; split; [done|]; revert Hv; apply Forall_impl; lia).
    destruct (gaction (gproposal a)) as [n c| | | |]; try done.
    destruct (row_set_spec (programs prg) n c s Hok) as (l' & E & Hl' & Hr).
    unfold program_set. rewrite E. split; [done|]. intros m. apply Hr. }
  destruct (IH prg1 (s + 1) Hok1 ltac:(lia) ltac:(lia)) as (prg' & E & Hr). exists prg'. split; [done|].
  intros n. rewrite Hr, Hres. done.
Qed.

Lemma config_loop_spec cfg s l :
  rows_ok (values cfg) s -> 0 <= s -> s + Z.of_nat (length l) <= U64_MAX ->
  exists cfg', config_loop cfg s l = Some cfg' /\
    forall k, config_resolve cfg' k =
      foldl (fun acc a => match gaction (gproposal a) with
                          | SetConfig m v => if bool_decide (k = m) then Some v else acc
                          | _ => acc
                          end) (config_resolve cfg k) l.
Proof.
  revert cfg s; induction l as [|a l IH]; intros cfg s Hok Hs Hmax; cbn [config_loop foldl]; [by exists cfg|].
  cbn [length] in Hmax. unfold checked_add. destruct (Z.leb_spec (s + 1) U64_MAX); [|lia]. cbn [mbind option_bind].
  assert (exists cfg1, match gaction (gproposal a) with
      | SetConfig k v => match config_set cfg k v (s + 1) with Ok next => next | Err _ => cfg end
      | _ => cfg end = cfg1 /\ rows_ok (values cfg1) (s + 1) /\
      forall k, config_resolve cfg1 k = match gaction (gproposal a) with
        | SetConfig m v => if bool_decide (k = m) then Some v else config_resolve cfg k
        | _ => config_resolve cfg k end) as (cfg1 & -> & Hok1 & Hres).
  { eexists. split; [done|].
    assert (rows_ok (values cfg) (s + 1)) as Hok' by (destruct Hok as [? Hv]; split; [done|]; revert Hv; apply Forall_impl; lia).
    destruct (gaction (gproposal a)) as [|n c| | |]; try done.
    destruct (row_set_spec (values cfg) n c s Hok) as (l' & E & Hl' & Hr).
    unfold config_set. rewrite E. split; [done|]. intros m. apply Hr. }
  destruct (IH cfg1 (s + 1) Hok1 ltac:(lia) ltac:(lia)) as (cfg' & E & Hr). exists cfg'. split; [done|].
  intros n. rewrite Hr, Hres. done.
Qed.

Lemma rows_ok_nil {V} s : rows_ok (V:=V) [] s.
Proof. split; constructor. Qed.

(** Every node reads the same governed values off the chain: the replayed
    program and configuration registries exist for any chain whose sequence
    number fits a u64, and each name resolves to what the last approval that
    sets it says (a later approval always supersedes an earlier one, since its
    version is its sequence number), and to nothing when no approval does. *)
Theorem governed_registries_follow_chain (c : GovernanceChain) :
  is_u64 (seq (ggenesis c)) -> is_Some (gchain_seq c) ->
  exists prg cfg, program_registry c = Some prg /\ config_registry c = Some cfg /\
    (forall n, program_resolve prg n = last_program (approvals c) n) /\
    (forall k, config_resolve cfg k = last_config (approvals c) k).
Proof.
  intros Hs [x [-> Hmax]%checked_add_Some].
  destruct (program_loop_spec (mk_programs []) (seq (ggenesis c)) (approvals c)) as (prg & Ep & Hp);
    [apply rows_ok_nil|unfold is_u64 in Hs; lia|done|].
  destruct (config_loop_spec (mk_configs []) (seq (ggenesis c)) (approvals c)) as (cfg & Ec & Hc);
    [apply rows_ok_nil|unfold is_u64 in Hs; lia|done|].
  by exists prg, cfg.
Qed.

(** ** Authority *)

Lemma gov_apply_to_Some a q q' :
  gov_apply_to a q = Some (Some q') ->
  gseq (gproposal a) = seq q + 1 /\
  threshold q <= count_signers q (gov_signing_bytes (gproposal a)) (gsignatures a) /\
  advance q (gov_member_change (gaction (gproposal a))) = Some q'.
Proof.
  intros (ok & Ha & E)%bind_Some. destruct ok; [|done]. apply bind_Some in E as (q2 & Hq & [= ->]).
  apply bind_Some in Ha as (s & [-> _]%checked_add_Some & E). injection E as E.
  apply andb_true_iff in E as [E1%Z.eqb_eq E2%Z.leb_le]. done.
Qed.

Lemma gov_fold_wf q l q' :
  quorum_wf q -> gov_fold q l = Some (Some q') -> quorum_wf q' /\ seq q' = seq q + Z.of_nat (length l).
Proof.
  revert q; induction l as [|a l IH]; cbn; intros q Hq E; [simplify_eq; split; [done|lia]|].
  destruct (gov_apply_to a q) as [[q1|]|] eqn:Ea; cbn in E; [|done|done].
  apply gov_apply_to_Some in Ea as (_ & _ & Ha). destruct (IH q1) as [Hw Hs]; [by eapply advance_wf|done|].
  apply advance_seq in Ha. split; [done|lia].
Qed.

Lemma gov_fold_app q l k :
  gov_fold q (l ++ k) = r ← gov_fold q l; match r with Some q' => gov_fold q' k | None => Some None end.
Proof.
  revert q; induction l as [|a l IH]; intros q; cbn; [done|].
  destruct (gov_apply_to a q) as [[q'|]|]; cbn; [apply IH|done|done].
Qed.

(** The governance set can only be changed by itself.  [append] accepts an
    approval exactly when the chain is valid, the approval is for the next
    sequence number, and at least threshold-many distinct current governors
    signed it with valid signatures; the chain with it is valid again, and the
    resulting set keeps a threshold between 1 and its size. *)
Theorem governance_append_needs_quorum (ms : list key) (t : Z) (l : list GovernanceApproval) (a : GovernanceApproval) (c' : GovernanceChain) :
  gov_append (mk_gchain (genesis ms t) l) a = Some (true, c') ->
  exists q q', gov_current (mk_gchain (genesis ms t) l) = Some (Some q) /\ gov_current c' = Some (Some q') /\
    quorum_wf q' /\ approvals c' = l ++ [a] /\ gseq (gproposal a) = Z.of_nat (length l) + 1 /\
    exists S : gset key, threshold q <= Z.of_nat (size S) /\
      forall m, m ∈ S -> m ∈ members q /\ exists s, s ∈ gsignatures a /\ Attestation.member s = m /\
        verify_slice m (gov_signing_bytes (gproposal a)) (Attestation.signature s) = true.
Proof.
  intros (r & Hcur & E)%bind_Some. destruct r as [q|]; [|done].
  apply bind_Some in E as (r & Hap & E). destruct r as [q'|]; [|done]. injection E as <-.
  unfold gov_current in *. cbn [ggenesis approvals] in *.
  destruct (gov_fold_wf _ _ _ (genesis_wf ms t) Hcur) as [Hq Hseq]. cbn [seq genesis] in Hseq.
  destruct (gov_apply_to_Some _ _ _ Hap) as (Hgs & Hcount & Hadv).
  exists q, q'. split_and!; [done| |by eapply advance_wf|done|lia|].
  - rewrite gov_fold_app, Hcur. cbn. by rewrite Hap.
  - exists (signer_set q (gov_signing_bytes (gproposal a)) (gsignatures a)). split; [done|].
    intros m [Hm Hsig]%elem_of_signer_set. split; [by apply is_member_spec|done].
Qed.
End replay.

(** ** Witnesses *)

Definition toy_gproposal : Postcard GovernanceProposal :=
  toy_postcard (fun p => le_bytes 8 (gseq p) ++
    match gaction p with SetProgram n c => 0 :: n ++ c | SetConfig n v => 1 :: v :: n | AddGovernor g => 2 :: g
    | RemoveGovernor g => 3 :: g | GovSetThreshold t => [4; t] end).

Definition ex_approval (n : Z) (a : GovAction) : GovernanceApproval :=
  let p := mk_gproposal a n in
  mk_approval p [@gov_sign toy_ed25519 toy_gproposal p 1; @gov_sign toy_ed25519 toy_gproposal p 2].

Definition ex_gchain : GovernanceChain :=
  mk_gchain (genesis [key_of 1; key_of 2] 2) [ex_approval 1 (SetConfig [7] 5); ex_approval 2 (SetConfig [7] 6)].

Lemma governed_registries_follow_chain_witness :
  exists cfg, config_registry ex_gchain = Some cfg /\ config_resolve cfg [7] = Some 6.
Proof.
  destruct (governed_registries_follow_chain ex_gchain) as (prg & cfg & _ & Hc & _ & Hr).
  - vm_compute. split; discriminate.
  - vm_compute. by eexists.
  - exists cfg. split; [exact Hc|]. rewrite Hr. reflexivity.
Defined.

Lemma governance_append_needs_quorum_witness :
  exists q', @gov_current toy_ed25519 toy_gproposal (mk_gchain (ggenesis ex_gchain) (approvals ex_gchain ++ [ex_approval 3 (GovSetThreshold 1)]))
    = Some (Some q') /\ quorum_wf q'.
Proof.
  destruct (@governance_append_needs_quorum toy_ed25519 toy_gproposal [key_of 1; key_of 2] 2 (approvals ex_gchain)
    (ex_approval 3 (GovSetThreshold 1))
    (mk_gchain (ggenesis ex_gchain) (approvals ex_gchain ++ [ex_approval 3 (GovSetThreshold 1)])))
    as (q & q' & _ & Hc & Hw & _).
  - vm_compute. reflexivity.
  - exists q'. split; [exact Hc|exact Hw].
Defined.
