(* ===== verification/Hlc.v ===== *)
(** The hybrid logical clock ([crates/core/src/hlc.rs]): packed timestamps, and
    the lock-free [Clock] that threads share.

    [now] and [merge] retry a compare-exchange on one atomic.  The model keeps
    the interleaving: a world holds the atomic, the program point of every
    thread and the values returned so far, and each step is one thread's load,
    computation or compare-exchange. *)

From S2P Require Import Prelude.

Open Scope Z_scope.

Definition MAX_SKEW_MS : Z := 500.

(** [x << n] on u64: bits shifted past the top are lost. *)
Definition shl_u64 (x n : Z) : Z := as_u64 (Z.shiftl x n).

Definition from_parts (millis logical : Z) : Z :=
  Z.lor (shl_u64 (Z.land millis 0xFFFFFFFFFFFF) 16) logical.

Definition millis (ts : Z) : Z := Z.shiftr ts 16.

Definition logical (ts : Z) : Z := Z.land ts 0xFFFF.

Record Merge := mk_merge { now_ts : Z; skew_ms : Z; clamped : bool }.

(** The candidate [now] computes from the wall time and the loaded value. *)
Definition now_candidate (wall last : Z) : option Z :=
  next ← checked_add last 1; Some (Z.max (shl_u64 wall 16) next).

(** What [merge] fixes before its loop: the effective remote value, the skew
    and whether the remote was clamped. *)
Definition merge_start (wall remote : Z) : option (Z * Z * bool) :=
  let skew := Z.abs (millis remote - wall) in
  limit ← checked_add wall MAX_SKEW_MS;
  let c := limit <? millis remote in
  Some (if c then from_parts limit 0 else remote, skew, c).

Definition merge_candidate (wall effective last : Z) : option Z :=
  next ← checked_add last 1;
  past ← checked_add effective 1;
  Some (Z.max (Z.max (shl_u64 wall 16) next) past).

(** Both calls run by one thread alone, on a clock holding [last]: the result
    and the value the atomic holds afterwards. *)
Definition now (wall last : Z) : option (Z * Z) :=
  c ← now_candidate wall last; Some (c, c).

Definition merge (wall remote last : Z) : option (Merge * Z) :=
  '(effective, skew, cl) ← merge_start wall remote;
  c ← merge_candidate wall effective last;
  Some (mk_merge c skew cl, c).

(** ** Threads *)

(** A call in progress; [merge] reads the wall clock once, before its loop. *)
Inductive Call :=
| CallNow
| CallMerge (wall effective : Z).

Definition candidate (c : Call) (wall last : Z) : option Z :=
  match c with
  | CallNow => now_candidate wall last
  | CallMerge w e => merge_candidate w e last
  end.

(** Where a thread stands in the loop of its call. *)
Inductive Pc :=
| Idle
| Loading (c : Call)
| Loaded (c : Call) (last : Z)
| Exchanging (c : Call) (last cand : Z)
| Panicked.

Record World := mk_world {
  last : Z;
  threads : gmap nat Pc;
  returned : list (nat * Z)
}.

Definition clock_new : World := mk_world 0 ∅ [].

Definition pc (w : World) (t : nat) : Pc := default Idle (threads w !! t).

Definition goto (w : World) (t : nat) (p : Pc) : World :=
  mk_world (last w) (<[t := p]> (threads w)) (returned w).

Definition call_or_panic (r : option Pc) : Pc := default Panicked r.

Inductive step (t : nat) (w : World) : World -> Prop :=
| step_now : pc w t = Idle -> step t w (goto w t (Loading CallNow))
| step_merge wall remote : pc w t = Idle -> is_u64 wall -> is_u64 remote ->
    step t w (goto w t (call_or_panic
      ('(e, _, _) ← merge_start wall remote; Some (Loading (CallMerge wall e)))))
| step_load c : pc w t = Loading c -> step t w (goto w t (Loaded c (last w)))
| step_candidate c l wall : pc w t = Loaded c l -> is_u64 wall ->
    step t w (goto w t (call_or_panic (v ← candidate c wall l; Some (Exchanging c l v))))
| step_exchange c l v : pc w t = Exchanging c l v -> last w = l ->
    step t w (mk_world v (<[t := Idle]> (threads w)) (returned w ++ [(t, v)]))
| step_retry c l v : pc w t = Exchanging c l v -> last w <> l ->
    step t w (goto w t (Loading c)).

Inductive steps (w0 : World) : World -> Prop :=
| steps_refl : steps w0 w0
| steps_step t w w' : steps w0 w -> step t w w' -> steps w0 w'.

(** ** Arithmetic of the packed value *)

Lemma shl_u64_id x : 0 <= x < 2 ^ 48 -> shl_u64 x 16 = x * 2 ^ 16.
Proof. intros Hx. unfold shl_u64. rewrite Z.shiftl_mul_pow2 by lia. apply as_u64_id. unfold is_u64, U64_MAX. lia. Qed.

Lemma land_mask48 x : Z.land x 0xFFFFFFFFFFFF = x mod 2 ^ 48.
Proof. change 0xFFFFFFFFFFFF with (Z.ones 48). apply Z.land_ones. lia. Qed.

Lemma from_parts_val m l :
  0 <= l < 2 ^ 16 -> from_parts m l = (m mod 2 ^ 48) * 2 ^ 16 + l.
Proof.
  intros Hl. unfold from_parts. rewrite land_mask48, shl_u64_id by (apply Z.mod_pos_bound; lia).
  rewrite <- Z.shiftl_mul_pow2 by lia.
  assert (E : Z.land (Z.shiftl (m mod 2 ^ 48) 16) l = 0).
  { apply Z.bits_inj'. intros n Hn. rewrite Z.land_spec, Z.bits_0. destruct (Z.lt_ge_cases n 16).
    - by rewrite Z.shiftl_spec_low.
    - rewrite (Z.bits_above_log2 l), andb_comm; [done|lia|].
      destruct (Z.eq_dec l 0) as [->|]; [cbn; lia|].
      assert (Z.log2 l < 16) by (apply Z.log2_lt_pow2; lia). lia. }
  pose proof (Z.add_lor_land (Z.shiftl (m mod 2 ^ 48) 16) l). lia.
Qed.

Lemma millis_val ts : millis ts = ts / 2 ^ 16.
Proof. unfold millis. by rewrite Z.shiftr_div_pow2. Qed.

Lemma timestamp_roundtrip m l :
  0 <= m < 2 ^ 48 -> 0 <= l < 2 ^ 16 ->
  millis (from_parts m l) = m /\ logical (from_parts m l) = l.
Proof.
  intros Hm Hl. rewrite millis_val, from_parts_val, (Z.mod_small m) by lia. unfold logical.
  change 0xFFFF with (Z.ones 16). rewrite Z.land_ones by lia. split.
  - rewrite Z.div_add_l, Z.div_small by lia. lia.
  - rewrite Z.add_comm, Z.mod_add, Z.mod_small by lia. done.
Qed.

Lemma shl_u64_range x : is_u64 (shl_u64 x 16).
Proof. apply as_u64_range. Qed.

(** ** A single call *)

Lemma now_candidate_Some wall l v :
  now_candidate wall l = Some v -> l < v /\ shl_u64 wall 16 <= v /\ v <= U64_MAX.
Proof.
  intros (n & [-> Hn]%checked_add_Some & E)%bind_Some. injection E as <-.
  pose proof (shl_u64_range wall) as Hr. unfold is_u64 in Hr. lia.
Qed.

Lemma merge_candidate_Some wall e l v :
  merge_candidate wall e l = Some v ->
  v = Z.max (Z.max (shl_u64 wall 16) (l + 1)) (e + 1) /\ v <= U64_MAX.
Proof.
  intros (n & [-> Hn]%checked_add_Some & E)%bind_Some.
  apply bind_Some in E as (p & [-> Hp]%checked_add_Some & E). injection E as <-.
  pose proof (shl_u64_range wall) as Hr. unfold is_u64 in Hr. lia.
Qed.

Lemma candidate_Some c wall l v : candidate c wall l = Some v -> l < v <= U64_MAX.
Proof.
  destruct c as [|w e]; cbn [candidate]; intros E.
  - apply now_candidate_Some in E. lia.
  - apply merge_candidate_Some in E. lia.
Qed.

(** ** Interleavings *)

Definition pc_ok (l : Z) (p : Pc) : Prop :=
  match p with
  | Loaded _ l' => 0 <= l' <= l
  | Exchanging _ l' v => 0 <= l' <= l /\ l' < v <= U64_MAX
  | _ => True
  end.

Record clock_inv (w : World) : Prop := {
  inv_range : is_u64 (last w);
  inv_sorted : StronglySorted (fun x y => x.2 < y.2) (returned w);
  inv_bound : Forall (fun x => 0 < x.2 <= last w) (returned w);
  inv_last : last w = 0 \/ exists t, (t, last w) ∈ returned w;
  inv_pc : forall t, pc_ok (last w) (pc w t)
}.

Lemma pc_insert l m r t p t' : pc (mk_world l (<[t := p]> m) r) t' = if decide (t = t') then p else default Idle (m !! t').
Proof.
  unfold pc. cbn. destruct (decide (t = t')) as [->|Hne].
  - by rewrite lookup_insert_eq.
  - by rewrite lookup_insert_ne.
Qed.

Lemma goto_inv w t p : clock_inv w -> pc_ok (last w) p -> clock_inv (goto w t p).
Proof.
  intros [] Hp. constructor; cbn; try done.
  intros t'. unfold goto. rewrite pc_insert. case_decide; [done|apply inv_pc0].
Qed.

Lemma pc_ok_mono l l' p : l <= l' -> pc_ok l p -> pc_ok l' p.
Proof. destruct p; cbn; lia. Qed.

Lemma sorted_snoc (l : list (nat * Z)) t v b :
  StronglySorted (fun x y => x.2 < y.2) l -> Forall (fun x => 0 < x.2 <= b) l -> b < v ->
  StronglySorted (fun x y => x.2 < y.2) (l ++ [(t, v)]).
Proof.
  induction 1 as [|x l Hs IH Hx]; intros Hb Hv; cbn; [repeat constructor|].
  inversion Hb; subst. constructor; [by apply IH|].
  apply Forall_app. split; [done|]. constructor; [cbn; lia|constructor].
Qed.

Lemma step_inv t w w' : clock_inv w -> step t w w' -> clock_inv w'.
Proof.
  intros Hinv Hstep. pose proof Hinv as [Hr Hs Hb Hl Hp].
  destruct Hstep as [|wall remote| c| c l wall E|c l v E El|c l v E]; try (by apply goto_inv).
  - apply goto_inv; [done|]. unfold call_or_panic. by destruct (merge_start wall remote) as [[[e ?] ?]|].
  - apply goto_inv; [done|]. unfold is_u64 in Hr. cbn. lia.
  - apply goto_inv; [done|]. unfold call_or_panic. specialize (Hp t). rewrite E in Hp. cbn in Hp.
    destruct (candidate c wall l) as [v|] eqn:Ec; cbn; [|done]. apply candidate_Some in Ec. lia.
  - specialize (Hp t) as Ht. rewrite E in Ht. cbn in Ht. subst l. unfold is_u64 in Hr. constructor; cbn.
    + unfold is_u64. lia.
    + apply sorted_snoc with (last w); [done|done|lia].
    + apply Forall_app. split; [|repeat constructor; cbn; lia].
      revert Hb. apply Forall_impl. intros x. lia.
    + right. exists t. apply elem_of_app. right. by left.
    + intros t'. rewrite pc_insert. case_decide; [done|]. apply pc_ok_mono with (last w); [lia|apply Hp].
Qed.

Lemma clock_new_inv : clock_inv clock_new.
Proof. constructor; cbn; try constructor; try done. Qed.

Lemma steps_inv w w' : clock_inv w -> steps w w' -> clock_inv w'.
Proof. intros Hw. induction 1; [done|]. by eapply step_inv. Qed.

Lemma step_returned t w w' :
  clock_inv w -> step t w w' ->
  last w <= last w' /\ exists new, returned w' = returned w ++ new /\ Forall (fun x => last w < x.2) new.
Proof.
  intros [Hr Hs Hb Hl Hp] Hstep.
  destruct Hstep as [|wall remote| c| c l wall E|c l v E El|c l v E]; cbn;
    try (split; [lia|]; exists []; by rewrite app_nil_r).
  specialize (Hp t). rewrite E in Hp. cbn in Hp. split; [lia|]. exists [(t, v)].
  split; [done|]. repeat constructor. cbn. lia.
Qed.

Lemma steps_returned w w' :
  clock_inv w -> steps w w' ->
  last w <= last w' /\ exists new, returned w' = returned w ++ new /\ Forall (fun x => last w < x.2) new.
Proof.
  intros Hw. induction 1 as [|t w1 w2 H1 (Hle & new & E & Hn) H2].
  - split; [lia|]. exists []. by rewrite app_nil_r.
  - destruct (step_returned t w1 w2 (steps_inv _ _ Hw H1) H2) as (Hle2 & new2 & E2 & Hn2).
    split; [lia|]. exists (new ++ new2). rewrite E2, E, app_assoc. split; [done|].
    apply Forall_app. split; [done|]. revert Hn2. apply Forall_impl. intros x. lia.
Qed.

(** C39: Every value the shared clock hands out is new.  Whatever the threads do
    and however their loads and exchanges interleave, the values returned by
    [now] and [merge] are strictly increasing in the order the calls complete;
    any value returned from here on is greater than the clock now and so than
    every value returned already; and an exchange fails only because some
    other call returned a value since this one loaded the clock. *)
Theorem clock_values_strictly_increase (w w' : World) :
  steps clock_new w -> steps w w' ->
  StronglySorted (fun x y => x.2 < y.2) (returned w') /\
  (exists new, returned w' = returned w ++ new /\
     forall x y, x ∈ returned w -> y ∈ new -> x.2 <= last w < y.2) /\
  (forall t c l v, pc w' t = Exchanging c l v -> last w' <> l ->
     exists t' v', (t', v') ∈ returned w' /\ l < v').
Proof.
  intros H0 H1. pose proof (steps_inv _ _ clock_new_inv H0) as Hw.
  destruct (steps_inv _ _ Hw H1) as [Hr Hs Hb Hl Hp]. split_and!; [done| |].
  - destruct (steps_returned _ _ Hw H1) as (_ & new & E & Hn). exists new. split; [done|].
    intros x y Hx Hy. rewrite list.Forall_forall in Hn. specialize (Hn y Hy).
    pose proof (inv_bound _ Hw) as Hb'. rewrite list.Forall_forall in Hb'. specialize (Hb' x Hx). lia.
  - intros t c l v E Hne. specialize (Hp t). rewrite E in Hp. cbn in Hp.
    destruct Hl as [Hz|[t' Ht']]; [lia|]. exists t', (last w'). split; [done|lia].
Qed.

(** ** What a merge does to the clock *)

Lemma merge_start_Some wall remote e skew c :
  0 <= wall < 2 ^ 48 - MAX_SKEW_MS - 1 -> is_u64 remote ->
  merge_start wall remote = Some (e, skew, c) ->
  skew = Z.abs (millis remote - wall) /\ (c = true <-> wall + MAX_SKEW_MS < millis remote) /\
  e = (if c then (wall + MAX_SKEW_MS) * 2 ^ 16 else remote) /\ 0 <= e < (wall + MAX_SKEW_MS + 1) * 2 ^ 16.
Proof.
  unfold MAX_SKEW_MS, is_u64, U64_MAX. intros Hw Hr (lim & [-> Hl]%checked_add_Some & E)%bind_Some.
  unfold MAX_SKEW_MS in *. injection E as <- <- <-. rewrite Z.ltb_lt, millis_val. split; [done|split; [done|split]];
  case_match eqn:Hc; try apply Z.ltb_lt in Hc; try apply Z.ltb_ge in Hc; try done.
  - rewrite from_parts_val, Z.mod_small by lia. lia.
  - rewrite from_parts_val, Z.mod_small by lia. lia.
  - 
    pose proof (Z.div_mod remote (2 ^ 16) ltac:(lia)). pose proof (Z.mod_pos_bound remote (2 ^ 16) ltac:(lia)). lia.
Qed.

Lemma merge_candidate_returns wall e l :
  l < U64_MAX -> e < U64_MAX ->
  merge_candidate wall e l = Some (Z.max (Z.max (shl_u64 wall 16) (l + 1)) (e + 1)).
Proof.
  intros Hl He. unfold merge_candidate.
  rewrite (proj2 (checked_add_Some l 1 (l + 1))), (proj2 (checked_add_Some e 1 (e + 1))); [done|lia|lia].
Qed.

Lemma merge_start_returns wall remote :
  wall + MAX_SKEW_MS <= U64_MAX -> exists e skew c, merge_start wall remote = Some (e, skew, c).
Proof.
  intros Hw. unfold merge_start. rewrite (proj2 (checked_add_Some wall MAX_SKEW_MS (wall + MAX_SKEW_MS))); [|done].
  by do 3 eexists.
Qed.

Lemma merge_returns wall remote l e skew c v :
  merge_start wall remote = Some (e, skew, c) -> merge_candidate wall e l = Some v ->
  merge wall remote l = Some (mk_merge v skew c, v).
Proof. intros E1 E2. unfold merge. rewrite E1. simpl. rewrite E2. done. Qed.

(** A peer cannot drag the clock into the future.  For wall times of the
    48-bit range and any remote timestamp, [merge] on a clock below the top of
    the range returns; the result is past the previous value, past the wall
    time and past the remote value, except that a remote more than the
    tolerance ahead counts as exactly the tolerance and is reported clamped;
    and the clock ends at most one millisecond past the tolerance, or one tick
    past where it already was. *)
Theorem merge_bounds_drift (wall remote l : Z) :
  0 <= wall < 2 ^ 48 - MAX_SKEW_MS - 1 -> is_u64 remote -> 0 <= l < U64_MAX ->
  exists m, merge wall remote l = Some (m, now_ts m) /\
    l < now_ts m /\ wall <= millis (now_ts m) /\
    (clamped m = true <-> wall + MAX_SKEW_MS < millis remote) /\
    (clamped m = false -> remote < now_ts m) /\
    (clamped m = true -> from_parts (wall + MAX_SKEW_MS) 0 < now_ts m) /\
    skew_ms m = Z.abs (millis remote - wall) /\
    now_ts m <= Z.max (l + 1) ((wall + MAX_SKEW_MS + 1) * 2 ^ 16).
Proof.
  intros Hw Hr Hl. pose proof Hr as Hr'. unfold is_u64, U64_MAX in Hr', Hl.
  destruct (merge_start_returns wall remote) as (e & skew & c & Es); [unfold MAX_SKEW_MS, U64_MAX in *; lia|].
  destruct (merge_start_Some _ _ _ _ _ Hw Hr Es) as (-> & Hc & He & Hb). unfold MAX_SKEW_MS in *.
  pose proof (merge_candidate_returns wall e l ltac:(unfold U64_MAX; lia) ltac:(unfold U64_MAX; lia)) as Hcand.
  exists (mk_merge (Z.max (Z.max (shl_u64 wall 16) (l + 1)) (e + 1)) (Z.abs (millis remote - wall)) c).
  split; [by apply (merge_returns _ _ _ e)|]. cbn [now_ts clamped skew_ms]. rewrite shl_u64_id by lia. split_and!; [lia| |done| | |done|lia].
  - rewrite millis_val. apply Z.div_le_lower_bound; lia.
  - intros ->. lia.
  - intros ->. unfold MAX_SKEW_MS. rewrite from_parts_val, Z.mod_small by lia. lia.
Qed.

(** ** Witnesses *)

(** Two threads call [now] at wall time 1; the second one wins the exchange. *)
Definition ex_race : World :=
  mk_world 65536 {[0%nat := Exchanging CallNow 0 65536; 1%nat := Idle]} [(1%nat, 65536)].

Lemma ex_race_reachable : steps clock_new ex_race.
Proof.
  pose proof (steps_refl clock_new) as H0.
  eassert (steps clock_new _) as H1 by (eapply steps_step; [exact H0|]; apply (step_now 0%nat _); reflexivity).
  eassert (steps clock_new _) as H2 by (eapply steps_step; [exact H1|]; apply (step_now 1%nat _); reflexivity).
  eassert (steps clock_new _) as H3 by (eapply steps_step; [exact H2|]; apply (step_load 0%nat _ CallNow); reflexivity).
  eassert (steps clock_new _) as H4 by (eapply steps_step; [exact H3|]; apply (step_load 1%nat _ CallNow); reflexivity).
  assert (Hw : is_u64 1) by (vm_compute; split; discriminate).
  eassert (steps clock_new _) as H5 by (eapply steps_step; [exact H4|]; apply (step_candidate 0%nat _ CallNow 0 1); [reflexivity|exact Hw]).
  eassert (steps clock_new _) as H6 by (eapply steps_step; [exact H5|]; apply (step_candidate 1%nat _ CallNow 0 1); [reflexivity|exact Hw]).
  eassert (steps clock_new _) as H7 by (eapply steps_step; [exact H6|]; apply (step_exchange 1%nat _ CallNow 0 65536); reflexivity).
  exact H7.
Qed.

Lemma clock_values_strictly_increase_witness :
  exists t' v', (t', v') ∈ returned ex_race /\ 0 < v'.
Proof.
  destruct (clock_values_strictly_increase clock_new ex_race (steps_refl _) ex_race_reachable) as (_ & _ & Hfail).
  apply (Hfail 0%nat CallNow 0 65536); [reflexivity|discriminate].
Defined.

Lemma merge_bounds_drift_witness :
  exists m, merge 1000 (from_parts 9000 0) 7 = Some (m, now_ts m) /\ clamped m = true /\ skew_ms m = 8000.
Proof.
  destruct (merge_bounds_drift 1000 (from_parts 9000 0) 7) as (m & E & _ & _ & Hc & _ & _ & Hs & _).
  - unfold MAX_SKEW_MS. lia.
  - vm_compute. split; discriminate.
  - unfold U64_MAX. lia.
  - exists m. split; [exact E|]. split; [apply Hc; vm_compute; reflexivity|rewrite Hs; vm_compute; reflexivity].
Defined.
