(* ===== verification/DhtTable.v ===== *)
(** The Kademlia routing table ([crates/dht/src/table.rs]): XOR distance on
    32-byte keys, bucket index, and the 256 k-buckets with their operations.

    A contact's dialable address ([PeerAddr]) is carried, never inspected; it
    is a type parameter. *)

From S2P Require Import Prelude.

Open Scope Z_scope.

Definition K : nat := 20.
Definition BUCKETS : nat := 256.

Definition distance (a b : key) : key := zip_with Z.lxor a b.

(** [u8::leading_zeros]. *)
Definition leading_zeros (x : Z) : nat := if x =? 0 then 8%nat else (7 - Z.to_nat (Z.log2 x))%nat.

Fixpoint bucket_loop (i : nat) (a b : key) : option nat :=
  match a, b with
  | x :: a', y :: b' =>
      let d := Z.lxor x y in
      if d =? 0 then bucket_loop (S i) a' b'
      else let msb_from_top := (i * 8 + leading_zeros d)%nat in Some (255 - msb_from_top)%nat
  | _, _ => None
  end.

Definition bucket_index (self_id other : key) : option nat := bucket_loop 0 self_id other.

Definition closer_to (target a b : key) : comparison := cmp (distance a target) (distance b target).

Section table.
Context {PeerAddr : Type}.

Record Contact := mk_contact { id : key; addr : PeerAddr }.

Record RoutingTable := mk_table { self_id : key; buckets : list (list Contact) }.

Definition table_new (self_id : key) : RoutingTable := mk_table self_id (replicate BUCKETS []).

Definition bucket_insert (contact : Contact) (bucket : list Contact) : list Contact :=
  match list_find (fun c => id c = id contact) bucket with
  | Some (pos, existing) => delete pos bucket ++ [mk_contact (id existing) (addr contact)]
  | None => if (length bucket <? K)%nat then bucket ++ [contact] else bucket
  end.

(** [self.buckets[idx]] is in range: [bucket_index] is below [BUCKETS]. *)
Definition insert (t : RoutingTable) (contact : Contact) : RoutingTable :=
  match bucket_index (self_id t) (id contact) with
  | None => t
  | Some idx => mk_table (self_id t) (alter (bucket_insert contact) idx (buckets t))
  end.

Definition remove (t : RoutingTable) (n : key) : RoutingTable :=
  match bucket_index (self_id t) n with
  | None => t
  | Some idx => mk_table (self_id t) (alter (filter (fun c => id c <> n)) idx (buckets t))
  end.

Definition contacts (t : RoutingTable) : list Contact := concat (buckets t).

Definition len (t : RoutingTable) : nat := sum_list_with length (buckets t).

Definition is_empty (t : RoutingTable) : bool := (len t =? 0)%nat.

Definition closest (t : RoutingTable) (target : key) (count : nat) : list Contact :=
  take count (sort_by (fun a b => match closer_to target (id a) (id b) with Gt => false | _ => true end)
    (contacts t)).

Definition contains (t : RoutingTable) (n : key) : bool :=
  match bucket_index (self_id t) n with
  | None => false
  | Some idx => match buckets t !! idx with
                | Some b => existsb (fun c => bool_decide (id c = n)) b
                | None => false
                end
  end.

End table.

Arguments Contact : clear implicits.
Arguments RoutingTable : clear implicits.

(** ** Distance as a number *)

(** A key read as a big-endian 256-bit integer. *)
Definition be_value (l : bytes) : Z := foldl (fun a x => a * 256 + x) 0 l.

Definition dist (a b : key) : Z := be_value (distance a b).

(** A node id: 32 bytes. *)
Definition is_key (k : key) : Prop := length k = 32%nat /\ is_bytes k.

Lemma be_value_from a l : foldl (fun a x => a * 256 + x) a l = a * 256 ^ Z.of_nat (length l) + be_value l.
Proof.
  unfold be_value. revert a. induction l as [|x l IH]; intros a; cbn [foldl length]; [lia|].
  rewrite IH, (IH (0 * 256 + x)), Nat2Z.inj_succ, Z.pow_succ_r by lia. lia.
Qed.

Lemma be_value_cons x l : be_value (x :: l) = x * 256 ^ Z.of_nat (length l) + be_value l.
Proof. unfold be_value at 1. cbn [foldl]. rewrite be_value_from. lia. Qed.

Lemma be_value_range l : is_bytes l -> 0 <= be_value l < 256 ^ Z.of_nat (length l).
Proof.
  induction 1 as [|x l Hx _ IH]; [done|]. rewrite be_value_cons. cbn [length].
  rewrite Nat2Z.inj_succ, Z.pow_succ_r by lia. unfold is_u8, U8_MAX in Hx. nia.
Qed.

(** The array order of the source is the order of the integers. *)
Lemma cmp_be_value l k :
  length l = length k -> is_bytes l -> is_bytes k -> cmp l k = Z.compare (be_value l) (be_value k).
Proof.
  intros E Hl. revert k E. induction Hl as [|x l Hx Hl IH]; intros [|y k] E Hk; try done.
  cbn in E. injection E as E. inversion Hk; subst. rewrite !be_value_cons, <- E.
  pose proof (be_value_range l Hl). pose proof (be_value_range k ltac:(done)) as Hkr. rewrite <- E in Hkr.
  change (cmp (x :: l) (y :: k)) with (match Z.compare x y with Eq => cmp l k | r => r end).
  destruct (Z.compare_spec x y) as [->|Hlt|Hgt].
  - rewrite IH by done. symmetry. apply Z.add_compare_mono_l.
  - symmetry. apply Z.compare_lt_iff. nia.
  - symmetry. apply Z.compare_gt_iff. nia.
Qed.

Lemma distance_length a b : length a = length b -> length (distance a b) = length a.
Proof. intros E. unfold distance. rewrite length_zip_with. lia. Qed.

Lemma distance_bytes a b : is_bytes a -> is_bytes b -> is_bytes (distance a b).
Proof.
  intros Ha. revert b. induction Ha as [|x a Hx Ha IH]; intros b Hb; [constructor|].
  destruct Hb as [|y b Hy Hb]; [constructor|]. constructor; [by apply lxor_u8|by apply IH].
Qed.

(** The bucket loop finds the top bit of the distance. *)
Lemma bucket_loop_log2 i a b :
  length a = length b -> (i + length a = 32)%nat -> is_bytes a -> is_bytes b ->
  match bucket_loop i a b with
  | None => be_value (distance a b) = 0
  | Some n => 2 ^ Z.of_nat n <= be_value (distance a b) < 2 ^ Z.of_nat (S n) /\ (n < 8 * length a)%nat
  end.
Proof.
  intros E Hi Ha. revert i b E Hi. induction Ha as [|x a Hx Ha IH]; intros i [|y b] E Hi Hb; try done.
  inversion Hb; subst. cbn [bucket_loop distance zip_with]. cbn [length] in *.
  assert (Hd : is_u8 (Z.lxor x y)) by (by apply lxor_u8).
  pose proof (be_value_range (distance a b) ltac:(by apply distance_bytes)) as Hr.
  rewrite distance_length in Hr by lia. rewrite be_value_cons.
  change (zip_with Z.lxor a b) with (distance a b). rewrite distance_length by lia.
  destruct (Z.eqb_spec (Z.lxor x y) 0) as [E0|Hne].
  - rewrite E0. specialize (IH (S i) b ltac:(lia) ltac:(lia) ltac:(done)).
    destruct (bucket_loop (S i) a b); [|lia]. destruct IH as [IH1 IH2]. split; [lia|lia].
  - set (d := Z.lxor x y) in *. unfold leading_zeros. destruct (Z.eqb_spec d 0); [done|].
    assert (Hd0 : 0 < d) by (unfold is_u8 in Hd; lia).
    assert (Hlog : Z.log2 d < 8) by (apply Z.log2_lt_pow2; unfold is_u8, U8_MAX in Hd; lia).
    pose proof (Z.log2_spec d Hd0) as Hs. pose proof (Z.log2_nonneg d).
    assert (En : Z.of_nat (255 - (i * 8 + (7 - Z.to_nat (Z.log2 d)))) = Z.log2 d + 8 * Z.of_nat (length a)) by lia.
    rewrite Nat2Z.inj_succ, En. split; [|lia].
    rewrite <- Z.add_succ_l, !Z.pow_add_r by lia. rewrite (Z.pow_mul_r 2 8) by lia.
    change (2 ^ 8) with 256. nia.
Qed.

Lemma bucket_index_log2 a b n :
  is_key a -> is_key b -> bucket_index a b = Some n ->
  (n < 256)%nat /\ 2 ^ Z.of_nat n <= dist a b < 2 ^ Z.of_nat (S n).
Proof.
  intros [La Ha] [Lb Hb] E. pose proof (bucket_loop_log2 0 a b ltac:(lia) ltac:(lia) Ha Hb) as H.
  unfold bucket_index in E. rewrite E in H. destruct H as [H1 H2]. split; [lia|exact H1].
Qed.

Lemma bucket_index_None a b : is_key a -> is_key b -> bucket_index a b = None <-> a = b.
Proof.
  intros [La Ha] [Lb Hb]. unfold bucket_index. split.
  - assert (forall i, bucket_loop i a b = None -> a = b); [|by eauto].
    assert (E : length a = length b) by lia. clear La Lb Ha Hb. revert b E.
    induction a as [|x a IH]; intros [|y b] E i; try done. cbn [bucket_loop].
    destruct (Z.eqb_spec (Z.lxor x y) 0) as [E0|]; [|done]. intros Hn.
    apply Z.lxor_eq in E0. injection E as E. by rewrite E0, (IH b E (S i) Hn).
  - intros ->. generalize 0%nat. clear. induction b as [|x b IH]; intros i; [done|]. cbn.
    rewrite Z.lxor_nilpotent. apply IH.
Qed.

(** ** The table invariant *)

Section table_laws.
Context {PeerAddr : Type}.
Implicit Types (t : RoutingTable PeerAddr) (c : Contact PeerAddr) (b : list (Contact PeerAddr)).

Record bucket_ok (self : key) (i : nat) b : Prop := {
  bok_len : (length b <= K)%nat;
  bok_nodup : NoDup (map id b);
  bok_place : Forall (fun c => is_key (id c) /\ bucket_index self (id c) = Some i) b
}.

Record table_wf t : Prop := {
  wf_self : is_key (self_id t);
  wf_len : length (buckets t) = BUCKETS;
  wf_bucket : forall i b, buckets t !! i = Some b -> bucket_ok (self_id t) i b
}.

(** The bucket a key belongs to. *)
Definition bucket_of t (n : key) : list (Contact PeerAddr) :=
  match bucket_index (self_id t) n with
  | Some i => default [] (buckets t !! i)
  | None => []
  end.

Lemma bucket_insert_known c b pos x :
  list_find (fun c' => id c' = id c) b = Some (pos, x) ->
  exists r, b ≡ₚ x :: r /\ id x = id c /\ bucket_insert c b ≡ₚ c :: r.
Proof.
  intros E. unfold bucket_insert. rewrite E. apply list_find_Some in E as (Hl & Hx & _).
  exists (delete pos b). split; [by apply delete_Permutation|split; [done|]].
  rewrite Hx, (Permutation_app_comm _ [_]). by destruct c.
Qed.

Lemma list_find_unknown c b : list_find (fun c' => id c' = id c) b = None -> id c ∉ map id b.
Proof.
  intros H%list_find_None Hin. apply list_elem_of_fmap in Hin as (y & E & Hy).
  rewrite list.Forall_forall in H. by apply (H y).
Qed.

Lemma bucket_insert_ids c b n :
  n ∈ map id (bucket_insert c b) <-> n ∈ map id b \/ (n = id c /\ (length b < K)%nat).
Proof.
  destruct (list_find (fun c' => id c' = id c) b) as [[pos x]|] eqn:E.
  - destruct (bucket_insert_known _ _ _ _ E) as (r & Hb & Hx & ->). rewrite Hb. cbn [map].
    rewrite !elem_of_cons, Hx. naive_solver.
  - unfold bucket_insert. rewrite E. destruct (Nat.ltb_spec (length b) K).
    + rewrite map_app, elem_of_app. cbn. rewrite list_elem_of_singleton. naive_solver.
    + split; [tauto|]. intros [?|[_ ?]]; [done|lia].
Qed.

Lemma bucket_insert_ok self i c b :
  bucket_ok self i b -> is_key (id c) -> bucket_index self (id c) = Some i ->
  bucket_ok self i (bucket_insert c b).
Proof.
  intros [Hl Hn Hp] Hk Hi. destruct (list_find (fun c' => id c' = id c) b) as [[pos x]|] eqn:E.
  - destruct (bucket_insert_known _ _ _ _ E) as (r & Hb & Hx & Hins). rewrite Hb in Hl, Hn, Hp.
    inversion Hp; subst. constructor; rewrite Hins; [done| |by constructor].
    cbn in *. by rewrite <- Hx.
  - apply list_find_unknown in E as Hnot. unfold bucket_insert. rewrite E. destruct (Nat.ltb_spec (length b) K); [|done].
    constructor.
    + rewrite length_app. cbn. lia.
    + rewrite map_app. apply list.NoDup_app. split_and!; [done| |apply NoDup_singleton].
      intros x Hx Hin. cbn in Hin. apply list_elem_of_singleton in Hin as ->. done.
    + apply Forall_app. split; [done|]. by constructor.
Qed.

Lemma bucket_insert_mem c b x :
  x ∈ b -> id x <> id c -> x ∈ bucket_insert c b.
Proof.
  intros Hx Hne. destruct (list_find (fun c' => id c' = id c) b) as [[pos y]|] eqn:E.
  - destruct (bucket_insert_known _ _ _ _ E) as (r & Hb & Hy & ->). rewrite Hb in Hx.
    apply elem_of_cons in Hx as [->|Hx]; [done|]. by right.
  - unfold bucket_insert. rewrite E. case_match; [|done]. apply elem_of_app. by left.
Qed.

Lemma bucket_insert_fresh c b : id c ∈ map id (bucket_insert c b) -> c ∈ bucket_insert c b.
Proof.
  intros Hin. destruct (list_find (fun c' => id c' = id c) b) as [[pos y]|] eqn:E.
  - destruct (bucket_insert_known _ _ _ _ E) as (r & _ & _ & ->). by left.
  - apply list_find_unknown in E as Hnot. unfold bucket_insert in *. rewrite E in *. case_match; [|done].
    apply elem_of_app. right. by left.
Qed.

Lemma bucket_remove_ok self i n b : bucket_ok self i b -> bucket_ok self i (filter (fun c => id c <> n) b).
Proof.
  intros [Hl Hn Hp]. constructor.
  - etrans; [apply length_filter|done].
  - clear Hl Hp. induction b as [|x b IH]; [done|]. apply list.NoDup_cons in Hn as [Hx Hn]. rewrite filter_cons.
    case_decide; [|by apply IH]. cbn. apply list.NoDup_cons. split; [|by apply IH].
    contradict Hx. apply list_elem_of_fmap in Hx as (y & -> & [_ Hy]%list_elem_of_filter).
    by apply (list_elem_of_fmap_2 id).
  - rewrite list.Forall_forall in *. intros x [_ Hx]%list_elem_of_filter. by apply Hp.
Qed.

(** ** Whole-table operations *)

Lemma contains_spec t n : contains t n = true <-> n ∈ map id (bucket_of t n).
Proof.
  unfold contains, bucket_of. destruct (bucket_index (self_id t) n) as [i|]; [|by cbn; rewrite elem_of_nil].
  destruct (buckets t !! i) as [b|]; cbn; [|by rewrite elem_of_nil].
  rewrite existsb_exists, list_elem_of_fmap. split; intros (x & H1 & H2); exists x.
  - apply bool_decide_eq_true in H2. split; [done|]. by apply list_elem_of_In.
  - rewrite bool_decide_eq_true. split; [|done]. by apply list_elem_of_In.
Qed.

Lemma elem_of_contacts t c : c ∈ contacts t <-> exists i b, buckets t !! i = Some b /\ c ∈ b.
Proof.
  unfold contacts. rewrite list_elem_of_In, in_concat. setoid_rewrite <- list_elem_of_In. split.
  - intros (b & Hb & Hc). apply list_elem_of_lookup in Hb as [i Hi]. by exists i, b.
  - intros (i & b & Hi & Hc). exists b. split; [by eapply list_elem_of_lookup_2|done].
Qed.

Lemma contact_place t i b c :
  table_wf t -> buckets t !! i = Some b -> c ∈ b -> is_key (id c) /\ bucket_index (self_id t) (id c) = Some i.
Proof.
  intros Hwf Hi Hc. destruct (wf_bucket _ Hwf _ _ Hi) as [_ _ Hp].
  rewrite list.Forall_forall in Hp. by apply Hp.
Qed.

Lemma bucket_of_lookup t n i :
  table_wf t -> is_key n -> bucket_index (self_id t) n = Some i -> buckets t !! i = Some (bucket_of t n).
Proof.
  intros Hwf Hn Hi. unfold bucket_of. rewrite Hi.
  destruct (bucket_index_log2 _ _ _ (wf_self _ Hwf) Hn Hi) as [Hlt _].
  destruct (lookup_lt_is_Some_2 (buckets t) i) as [b ->]; [|done].
  rewrite (wf_len _ Hwf). unfold BUCKETS. lia.
Qed.

Lemma contains_contacts t c : table_wf t -> c ∈ contacts t -> contains t (id c) = true.
Proof.
  intros Hwf (i & b & Hi & Hc)%elem_of_contacts. destruct (contact_place _ _ _ _ Hwf Hi Hc) as [Hk Hp].
  apply contains_spec. unfold bucket_of. rewrite Hp, Hi. cbn. by apply (list_elem_of_fmap_2 id).
Qed.

(** A change of one bucket: what the other keys see. *)
Lemma bucket_of_alter t f i n j :
  table_wf t -> is_key n -> bucket_index (self_id t) n = Some j ->
  bucket_of (mk_table (self_id t) (alter f i (buckets t))) n =
  if decide (i = j) then f (bucket_of t n) else bucket_of t n.
Proof.
  intros Hwf Hn Hj. pose proof (bucket_of_lookup _ _ _ Hwf Hn Hj) as Hl.
  unfold bucket_of at 1. cbn [self_id buckets]. rewrite Hj. case_decide as E.
  - subst j. by rewrite list_lookup_alter_eq, Hl.
  - by rewrite list_lookup_alter_ne, Hl.
Qed.

Lemma alter_wf t f i :
  table_wf t -> (forall b, bucket_ok (self_id t) i b -> bucket_ok (self_id t) i (f b)) ->
  table_wf (mk_table (self_id t) (alter f i (buckets t))).
Proof.
  intros [Hs Hl Hb] Hf. constructor; cbn [self_id buckets]; [done|by rewrite length_alter|].
  intros j b E. destruct (decide (i = j)) as [->|Hne].
  - rewrite list_lookup_alter_eq in E. destruct (buckets t !! j) eqn:Ej; cbn in E; [|done].
    injection E as <-. by apply Hf, Hb.
  - rewrite list_lookup_alter_ne in E by done. by apply Hb.
Qed.

Lemma table_new_wf (self : key) : is_key self -> table_wf (table_new self).
Proof.
  intros Hs. constructor; [done|apply length_replicate|].
  intros i b [-> _]%lookup_replicate. constructor; cbn; [lia|constructor|constructor].
Qed.

Lemma insert_wf t c : table_wf t -> is_key (id c) -> table_wf (insert t c).
Proof.
  intros Hwf Hc. unfold insert. destruct (bucket_index (self_id t) (id c)) as [i|] eqn:Ei; [|done].
  apply alter_wf; [done|]. intros b Hb. by apply bucket_insert_ok.
Qed.

Lemma insert_contains t c n :
  table_wf t -> is_key (id c) -> is_key n ->
  contains (insert t c) n = true <->
  contains t n = true \/ (n = id c /\ id c <> self_id t /\ (length (bucket_of t (id c)) < K)%nat).
Proof.
  intros Hwf Hc Hn. unfold insert. destruct (bucket_index (self_id t) (id c)) as [i|] eqn:Ei.
  2:{ apply bucket_index_None in Ei; [|apply Hwf|done]. naive_solver. }
  assert (Hne : id c <> self_id t).
  { intros E. symmetry in E. apply (bucket_index_None (self_id t)) in E; [congruence|apply Hwf|done]. }
  rewrite !contains_spec. destruct (bucket_index (self_id t) n) as [j|] eqn:Ej.
  2:{ unfold bucket_of at 1 2. cbn [self_id]. rewrite Ej. cbn. rewrite elem_of_nil.
      split; [done|]. intros [?|[-> _]]; [done|congruence]. }
  rewrite (bucket_of_alter _ _ _ _ _ Hwf Hn Ej). case_decide as E.
  - subst j. rewrite bucket_insert_ids. assert (bucket_of t n = bucket_of t (id c)) as ->; [|naive_solver].
    unfold bucket_of. by rewrite Ei, Ej.
  - split; [tauto|]. intros [?|[-> _]]; [done|congruence].
Qed.

Lemma insert_mem t c x :
  table_wf t -> x ∈ contacts t -> id x <> id c -> x ∈ contacts (insert t c).
Proof.
  intros Hwf Hx Hne. unfold insert. destruct (bucket_index (self_id t) (id c)) as [i|]; [|done].
  apply elem_of_contacts in Hx as (j & b & Hj & Hx). apply elem_of_contacts. cbn [buckets].
  exists j. destruct (decide (i = j)) as [->|Hij].
  - rewrite list_lookup_alter_eq, Hj. eexists. split; [done|]. by apply bucket_insert_mem.
  - rewrite list_lookup_alter_ne by done. by exists b.
Qed.

Lemma insert_refresh t c :
  table_wf t -> is_key (id c) -> contains (insert t c) (id c) = true -> c ∈ contacts (insert t c).
Proof.
  intros Hwf Hc. unfold insert. destruct (bucket_index (self_id t) (id c)) as [i|] eqn:Ei.
  2:{ unfold contains. by rewrite Ei. }
  rewrite contains_spec, (bucket_of_alter _ _ _ _ _ Hwf Hc Ei), decide_True by done.
  pose proof (bucket_of_lookup _ _ _ Hwf Hc Ei) as Hl.
  intros Hin%bucket_insert_fresh. apply elem_of_contacts. cbn [buckets].
  exists i. rewrite list_lookup_alter_eq, Hl. by eexists.
Qed.

Lemma remove_contains t n m :
  table_wf t -> is_key n -> is_key m ->
  contains (remove t n) m = true <-> contains t m = true /\ m <> n.
Proof.
  intros Hwf Hn Hm. unfold remove. destruct (bucket_index (self_id t) n) as [i|] eqn:Ei.
  2:{ split; [|tauto]. intros E. split; [done|]. intros ->. unfold contains in E. by rewrite Ei in E. }
  rewrite !contains_spec. destruct (bucket_index (self_id t) m) as [j|] eqn:Ej.
  2:{ unfold bucket_of. cbn [self_id]. rewrite Ej. cbn. rewrite elem_of_nil. tauto. }
  rewrite (bucket_of_alter _ _ _ _ _ Hwf Hm Ej). case_decide as E.
  - subst j. rewrite !list_elem_of_fmap. setoid_rewrite list_elem_of_filter. split.
    + intros (x & -> & Hx & Hb). split; [by exists x|done].
    + intros [(x & -> & Hx) Hne]. by exists x.
  - split; [|tauto]. intros. split; [done|congruence].
Qed.

(** The routing table keeps its shape and does what Kademlia asks.  Starting
    from a well-formed table, [insert] and [remove] keep it well formed (256
    buckets, at most 20 contacts each, no id twice, every contact in the bucket
    of the top bit of its XOR distance, never the node itself).  After an
    insert the table contains what it contained, plus the new id exactly when
    it is not ours and its bucket had room; a contact that is in the table
    afterwards carries the new address, and no other contact is touched.
    After a remove it contains exactly the other ids. *)
Theorem routing_table_operations t c (n : key) :
  table_wf t -> is_key (id c) -> is_key n ->
  table_wf (insert t c) /\ table_wf (remove t n) /\
  (forall m, is_key m -> contains (insert t c) m = true <->
     contains t m = true \/ (m = id c /\ id c <> self_id t /\ (length (bucket_of t (id c)) < K)%nat)) /\
  (contains (insert t c) (id c) = true -> c ∈ contacts (insert t c)) /\
  (forall x, x ∈ contacts t -> id x <> id c -> x ∈ contacts (insert t c)) /\
  (forall m, is_key m -> contains (remove t n) m = true <-> contains t m = true /\ m <> n).
Proof.
  intros Hwf Hc Hn. split_and!.
  - by apply insert_wf.
  - unfold remove. destruct (bucket_index (self_id t) n) as [i|] eqn:Ei; [|done].
    apply alter_wf; [done|]. intros b Hb. by apply bucket_remove_ok.
  - intros m Hm. by apply insert_contains.
  - by apply insert_refresh.
  - intros x Hx Hne. by apply insert_mem.
  - intros m Hm. by apply remove_contains.
Qed.

(** ** The closest contacts *)

Lemma closer_le target c c' :
  is_key target -> is_key (id c) -> is_key (id c') ->
  ole (distance (id c) target) (distance (id c') target) <-> dist (id c) target <= dist (id c') target.
Proof.
  intros [Lt Bt] [Lc Bc] [Lc' Bc']. unfold ole. rewrite cmp_be_value.
  - unfold dist. rewrite Z.compare_le_iff. done.
  - rewrite !distance_length; lia.
  - by apply distance_bytes.
  - by apply distance_bytes.
Qed.

Lemma closest_sort t target n :
  closest t target n = take n (sort_by (le_on (fun c => distance (id c) target)) (contacts t)).
Proof. done. Qed.

Lemma concat_ids_NoDup (self : key) (off : nat) (bs : list (list (Contact PeerAddr))) :
  (forall i b, bs !! i = Some b -> bucket_ok self (off + i)%nat b) -> NoDup (map id (concat bs)).
Proof.
  revert off. induction bs as [|b bs IH]; intros off Hb; cbn; [constructor|].
  destruct (Hb 0%nat b eq_refl) as [_ Hn Hp]. rewrite map_app. apply list.NoDup_app. split_and!; [done| |].
  - intros x Hx Hin. apply list_elem_of_fmap in Hx as (c & -> & Hc). rewrite list.Forall_forall in Hp.
    destruct (Hp c Hc) as [_ Hi]. apply list_elem_of_fmap in Hin as (c' & E & Hc').
    apply list_elem_of_In, in_concat in Hc' as (b' & Hb' & Hc'). rewrite <- !list_elem_of_In in *.
    apply list_elem_of_lookup in Hb' as [j Hj]. destruct (Hb (S j) b' Hj) as [_ _ Hp'].
    rewrite list.Forall_forall in Hp'. destruct (Hp' c' Hc') as [_ Hi']. rewrite <- E, Hi in Hi'. injection Hi'. lia.
  - apply (IH (S off)). intros i b' Hi. specialize (Hb (S i) b' Hi). by rewrite Nat.add_succ_r in Hb.
Qed.

Lemma contacts_NoDup t : table_wf t -> NoDup (map id (contacts t)).
Proof. intros Hwf. apply (concat_ids_NoDup (self_id t) 0). apply wf_bucket, Hwf. Qed.

(** [closest] answers a lookup with the nearest contacts.  On a well-formed
    table it returns [min(count, len)] of the held contacts, none twice, in
    order of XOR distance to the target read as a 256-bit number, and no held
    contact left out is nearer to the target than one that is returned. *)
Theorem closest_returns_nearest t (target : key) (n : nat) :
  table_wf t -> is_key target ->
  length (closest t target n) = Nat.min n (len t) /\ NoDup (map id (closest t target n)) /\
  StronglySorted (fun c c' => dist (id c) target <= dist (id c') target) (closest t target n) /\
  (exists rest, contacts t ≡ₚ closest t target n ++ rest /\
     forall c c', c ∈ closest t target n -> c' ∈ rest -> dist (id c) target <= dist (id c') target).
Proof.
  intros Hwf Ht. rewrite closest_sort. set (f := fun c : Contact PeerAddr => distance (id c) target).
  set (l := sort_by (le_on f) (contacts t)). pose proof (sort_by_perm (le_on f) (contacts t)) as Hp.
  pose proof (sort_by_key_strongly_sorted f (contacts t)) as Hs. fold l in Hp, Hs.
  assert (Hk : forall c, c ∈ l -> is_key (id c)).
  { intros c Hc. rewrite Hp in Hc. apply elem_of_contacts in Hc as (i & b & Hi & Hc).
    by eapply contact_place. }
  rewrite <- (take_drop n l) in Hs, Hk. split_and!.
  - rewrite length_take, Hp. f_equal. unfold contacts, len. clear. induction (buckets t) as [|b bs IH]; [done|].
    cbn. by rewrite length_app, IH.
  - pose proof (contacts_NoDup t Hwf) as Hn. rewrite <- Hp, <- (take_drop n l), map_app in Hn.
    by apply list.NoDup_app in Hn as [Hn _].
  - apply StronglySorted_app_1_l in Hs. revert Hs Hk. generalize (take n l) as k. intros k Hs Hk.
    assert (Hk' : forall c, c ∈ k -> is_key (id c)) by (intros c Hc; apply Hk, elem_of_app; by left). clear Hk.
    induction Hs as [|x k Hs IH Hx]; [constructor|]. constructor; [apply IH; intros; apply Hk'; by right|].
    rewrite list.Forall_forall in *. intros y Hy. apply closer_le; [done|apply Hk'; by left|apply Hk'; by right|by apply Hx].
  - exists (drop n l). rewrite take_drop. split; [by rewrite Hp|]. intros c c' Hc Hc'.
    apply closer_le; [done|apply Hk, elem_of_app; by left|apply Hk, elem_of_app; by right|].
    by apply (StronglySorted_app_1_elem_of _ _ _ _ _ Hs Hc Hc').
Qed.
End table_laws.

(** ** Witnesses *)

Lemma is_key_of b : is_u8 b -> is_key (key_of b).
Proof. intros Hb. split; [apply length_replicate|by apply Forall_replicate]. Qed.

Definition ex_table : RoutingTable unit := table_new (key_of 0).
Definition ex_contact (b : Z) : Contact unit := mk_contact (key_of b) ().

Lemma routing_table_operations_witness :
  contains (insert ex_table (ex_contact 5)) (key_of 5) = true /\
  contains (remove ex_table (key_of 5)) (key_of 5) = false.
Proof.
  assert (H5 : is_key (key_of 5)) by (apply is_key_of; vm_compute; split; discriminate).
  assert (Hwf : table_wf ex_table) by (apply table_new_wf, is_key_of; vm_compute; split; discriminate).
  destruct (routing_table_operations ex_table (ex_contact 5) (key_of 5) Hwf H5 H5) as (_ & _ & Hin & _ & _ & Hrm).
  split.
  - apply (Hin (key_of 5) H5). right. split; [reflexivity|]. split; [discriminate|]. vm_compute. lia.
  - apply not_true_is_false. rewrite (Hrm (key_of 5) H5). intros [_ Hne]. apply Hne. reflexivity.
Defined.

Definition ex_table2 : RoutingTable unit := insert (insert ex_table (ex_contact 7)) (ex_contact 8).

Lemma closest_returns_nearest_witness :
  length (closest ex_table2 (key_of 9) 1) = 1%nat /\ closest ex_table2 (key_of 9) 1 = [ex_contact 8].
Proof.
  split; [|vm_compute; reflexivity].
  destruct (closest_returns_nearest ex_table2 (key_of 9) 1) as (Hlen & _).
  - do 2 (apply insert_wf; [|apply is_key_of; vm_compute; split; discriminate]).
    apply table_new_wf, is_key_of. vm_compute. split; discriminate.
  - apply is_key_of. vm_compute. split; discriminate.
  - rewrite Hlen. vm_compute. reflexivity.
Defined.
