(* ===== verification/DhtRecord.v ===== *)
(** Signed DHT records and the local record store ([crates/dht/src/record.rs]):
    signature checks on store and on load, highest sequence number wins per
    (key, publisher), expiry, and the on-disk snapshot.

    The store's mutex makes each call atomic, so the operations are functions
    on the guarded map.  The file behind [save]/[load_from] is its bytes;
    [None] is a file that cannot be read. *)

From S2P Require Import Prelude Crypto.

Open Scope Z_scope.

Record StoredRecord := mk_stored {
  rkey : key;
  publisher : key;
  rseq : Z;
  rvalue : bytes;
  rsig : bytes
}.

#[export] Instance StoredRecord_eq_dec : EqDecision StoredRecord.
Proof. solve_decision. Defined.

(** A record with its expiry, in wall-clock milliseconds; also the unit of the
    on-disk snapshot ([PersistedRecord]). *)
Notation Expiring := (StoredRecord * Z)%type.

Notation PerKey := (gmap key Expiring).

Record RecordStore := mk_rstore { inner : gmap key PerKey; ttl_millis : Z }.

Definition rstore_new (ttl : Z) : RecordStore := mk_rstore ∅ ttl.

Definition record_bytes (k p : key) (s : Z) (v : bytes) : bytes := k ++ p ++ be_bytes 8 s ++ v.

(** The tail [put] and [load_from] share: fetch (or create) the key's map and
    keep the publisher's existing record unless the new one's sequence number
    is strictly higher. *)
Definition upsert (m : gmap key PerKey) (rec : StoredRecord) (expires : Z) : bool * gmap key PerKey :=
  let per_key := default ∅ (m !! rkey rec) in
  let stale := match per_key !! publisher rec with
               | Some (existing, _) => rseq rec <=? rseq existing
               | None => false
               end in
  if stale then (false, <[rkey rec := per_key]> m)
  else (true, <[rkey rec := <[publisher rec := (rec, expires)]> per_key]> m).

Section records.
Context `{Ed25519}.

Definition sign_record (id : NodeIdentity) (k : key) (s : Z) (v : bytes) : StoredRecord :=
  let p := node_id id in
  mk_stored k p s v (sign id (record_bytes k p s v)).

Definition verify_record (r : StoredRecord) : bool :=
  verify_slice (publisher r) (record_bytes (rkey r) (publisher r) (rseq r) (rvalue r)) (rsig r).

Definition put (s : RecordStore) (rec : StoredRecord) (now_millis : Z) : bool * RecordStore :=
  if verify_record rec then
    let expires := sat_add now_millis (ttl_millis s) in
    let '(ok, m) := upsert (inner s) rec expires in
    (ok, mk_rstore m (ttl_millis s))
  else (false, s).

Definition get (s : RecordStore) (k : key) (now_millis : Z) : list StoredRecord :=
  match inner s !! k with
  | Some per_key => map fst (filter (fun e => now_millis < e.2) (map snd (map_to_list per_key)))
  | None => []
  end.

Definition retain_live (now_millis : Z) (per_key : PerKey) : option PerKey :=
  let kept := filter (fun e : key * Expiring => now_millis < e.2.2) per_key in
  if bool_decide (kept = ∅) then None else Some kept.

Definition expire (s : RecordStore) (now_millis : Z) : nat * RecordStore :=
  let removed := map_fold (fun _ per_key n =>
    (n + (size per_key - size (filter (fun e : key * Expiring => (now_millis < e.2.2)%Z) per_key)))%nat) 0%nat (inner s) in
  (removed, mk_rstore (omap (retain_live now_millis) (inner s)) (ttl_millis s)).

Definition rstore_len (s : RecordStore) : nat := map_fold (fun _ per_key n => (n + size per_key)%nat) 0%nat (inner s).

(** The snapshot's rows: every stored record with its expiry. *)
Definition persisted (s : RecordStore) : list Expiring :=
  flat_map (fun e => map snd (map_to_list e.2)) (map_to_list (inner s)).

Fixpoint load_loop (now_millis : Z) (rows : list Expiring) (m : gmap key PerKey) (loaded : nat)
  : nat * gmap key PerKey :=
  match rows with
  | [] => (loaded, m)
  | (rec, expires) :: rows' =>
      if expires <=? now_millis then load_loop now_millis rows' m loaded
      else if negb (verify_record rec) then load_loop now_millis rows' m loaded
      else let '(ok, m') := upsert m rec expires in
           load_loop now_millis rows' m' (if ok then S loaded else loaded)
  end.

Context `{Postcard (list Expiring)}.

Definition save (s : RecordStore) : bytes := to_allocvec (persisted s).

Definition load_from (s : RecordStore) (file : option bytes) (now_millis : Z) : nat * RecordStore :=
  match file with
  | None => (0%nat, s)
  | Some b => match from_bytes b with
              | None => (0%nat, s)
              | Some rows => let '(n, m) := load_loop now_millis rows (inner s) 0 in
                             (n, mk_rstore m (ttl_millis s))
              end
  end.
End records.

(** ** Slots *)

(** The record held for a key and a publisher. *)
Definition slot (m : gmap key PerKey) (k p : key) : option Expiring := default ∅ (m !! k) !! p.

Definition slot_of (r : StoredRecord) : key * key := (rkey r, publisher r).

Definition stale_for (m : gmap key PerKey) (r : StoredRecord) : Prop :=
  exists e t, slot m (rkey r) (publisher r) = Some (e, t) /\ rseq r <= rseq e.

Lemma slot_insert m k0 pk k p :
  slot (<[k0 := pk]> m) k p = if decide (k0 = k) then pk !! p else slot m k p.
Proof.
  unfold slot. case_decide as E.
  - subst. by rewrite lookup_insert_eq.
  - by rewrite lookup_insert_ne.
Qed.

Lemma upsert_spec m r t ok m' :
  upsert m r t = (ok, m') ->
  (ok = false /\ stale_for m r /\ forall k p, slot m' k p = slot m k p) \/
  (ok = true /\ ~ stale_for m r /\
   forall k p, slot m' k p = if decide ((k, p) = slot_of r) then Some (r, t) else slot m k p).
Proof.
  unfold upsert, stale_for. change (default ∅ (m !! rkey r) !! publisher r) with (slot m (rkey r) (publisher r)).
  intros E. case_match eqn:Hst; injection E as <- <-; [left|right]; split; try done; split.
  - destruct (slot m (rkey r) (publisher r)) as [[e t']|]; [|done]. exists e, t'. split; [done|lia].
  - intros k p. rewrite slot_insert. case_decide as E; [|done]. by subst.
  - intros (e & t' & E & Hle). rewrite E in Hst. lia.
  - intros k p. rewrite slot_insert. unfold slot_of. case_decide as E.
    + subst. destruct (decide (publisher r = p)) as [->|Hne].
      * by rewrite lookup_insert_eq, decide_True.
      * rewrite lookup_insert_ne, decide_False; [done|congruence|done].
    + rewrite decide_False; [done|congruence].
Qed.

Section record_laws.
Context `{Ed25519}.

(** Every record held is signed and sits in its own slot. *)
Definition rstore_ok (m : gmap key PerKey) : Prop :=
  forall k p r t, slot m k p = Some (r, t) -> slot_of r = (k, p) /\ verify_record r = true.

(** A sequence of [put] calls, each with its time. *)
Fixpoint put_all (s : RecordStore) (calls : list (StoredRecord * Z)) : RecordStore :=
  match calls with
  | [] => s
  | (r, now) :: calls' => put_all (put s r now).2 calls'
  end.

(** The valid records of [calls] for one slot. *)
Definition offered (calls : list (StoredRecord * Z)) (k p : key) (r : StoredRecord) : Prop :=
  r ∈ map fst calls /\ verify_record r = true /\ slot_of r = (k, p).

Lemma put_all_snoc s calls r now : put_all s (calls ++ [(r, now)]) = (put (put_all s calls) r now).2.
Proof. revert s. induction calls as [|[r' n'] calls IH]; intros s; cbn; [done|]. apply IH. Qed.

Lemma offered_snoc calls r now k p r' :
  offered (calls ++ [(r, now)]) k p r' <->
  offered calls k p r' \/ (r' = r /\ verify_record r = true /\ slot_of r = (k, p)).
Proof.
  unfold offered. rewrite map_app, elem_of_app. cbn. rewrite list_elem_of_singleton. naive_solver.
Qed.

Lemma offered_other calls r now k p r' :
  verify_record r = false \/ slot_of r <> (k, p) ->
  offered (calls ++ [(r, now)]) k p r' <-> offered calls k p r'.
Proof. intros Hr. rewrite offered_snoc. split; [|tauto]. intros [?|(-> & Hv & Hs)]; [done|]. destruct Hr; congruence. Qed.

(** What a store holds after [calls]: per slot a record of highest sequence
    number among the valid ones offered, or nothing when none was. *)
Definition freshest (m : gmap key PerKey) (calls : list (StoredRecord * Z)) : Prop :=
  forall k p, match slot m k p with
  | Some (r, _) => offered calls k p r /\ forall r', offered calls k p r' -> rseq r' <= rseq r
  | None => forall r', ~ offered calls k p r'
  end.

Lemma freshest_put s calls r now :
  freshest (inner s) calls -> freshest (inner (put s r now).2) (calls ++ [(r, now)]).
Proof.
  intros Hf. unfold put. destruct (verify_record r) eqn:Hv.
  2:{ intros k p. specialize (Hf k p). cbn [snd].
      destruct (slot (inner s) k p) as [[e t]|]; setoid_rewrite offered_other; auto. }
  destruct (upsert (inner s) r (sat_add now (ttl_millis s))) as [ok m'] eqn:E. cbn.
  apply upsert_spec in E as [(-> & (e & t & He & Hle) & Hs)|(-> & Hns & Hs)]; intros k p; rewrite Hs;
    specialize (Hf k p).
  - destruct (decide ((k, p) = slot_of r)) as [Ekp|Hne].
    + injection Ekp as -> ->. rewrite He in *. destruct Hf as [Ho Hmax]. setoid_rewrite offered_snoc. split; [by left|].
      intros r' [Ho'|(-> & _)]; [by apply Hmax|done].
    + destruct (slot (inner s) k p) as [[e' t']|]; setoid_rewrite offered_other; auto.
  - case_decide as Ekp.
    + setoid_rewrite offered_snoc. split; [by right|]. intros r' [Ho'|(-> & _)]; [|lia]. injection Ekp as -> ->.
      destruct (slot (inner s) (rkey r) (publisher r)) as [[e t]|] eqn:He; [|by destruct (Hf r')].
      destruct Hf as [_ Hmax]. specialize (Hmax r' Ho').
      destruct (Z.le_gt_cases (rseq r) (rseq e)); [|lia]. destruct Hns. by exists e, t.
    + destruct (slot (inner s) k p) as [[e' t']|]; setoid_rewrite offered_other; auto.
Qed.

Lemma put_all_freshest ttl calls : freshest (inner (put_all (rstore_new ttl) calls)) calls.
Proof.
  induction calls as [|[r now] calls IH] using rev_ind.
  - intros k p. unfold slot. cbn. rewrite lookup_empty. cbn. rewrite lookup_empty.
    intros r' [Hr _]. by apply elem_of_nil in Hr.
  - rewrite put_all_snoc. by apply freshest_put.
Qed.

Lemma freshest_ok m calls : freshest m calls -> rstore_ok m.
Proof. intros Hf k p r t E. specialize (Hf k p). rewrite E in Hf. by destruct Hf as [(_ & Hv & Hs) _]. Qed.

(** The record store holds, for every key and publisher, the freshest
    validly signed record it was ever offered, and a replay changes nothing.
    After any sequence of [put] calls on a new store: a slot's record was
    offered, is signed by that publisher for that key and has the highest
    sequence number of all such records offered; an empty slot means none was.
    A further [put] is accepted exactly when its signature is valid and its
    sequence number exceeds that of every valid record offered before for the
    slot; otherwise no slot changes. *)
Theorem record_store_keeps_freshest (ttl : Z) (calls : list (StoredRecord * Z)) (r : StoredRecord) (now : Z) :
  let s := put_all (rstore_new ttl) calls in
  freshest (inner s) calls /\
  ((put s r now).1 = true <->
     verify_record r = true /\ forall r', offered calls (rkey r) (publisher r) r' -> rseq r' < rseq r) /\
  ((put s r now).1 = false -> forall k p, slot (inner (put s r now).2) k p = slot (inner s) k p).
Proof.
  intros s. pose proof (put_all_freshest ttl calls) as Hf. fold s in Hf. split; [done|].
  pose proof (Hf (rkey r) (publisher r)) as Hr. unfold put. destruct (verify_record r) eqn:Hv; [|cbn; naive_solver].
  destruct (upsert (inner s) r (sat_add now (ttl_millis s))) as [ok m'] eqn:E. cbn.
  apply upsert_spec in E as [(-> & (e & t & He & Hle) & Hs)|(-> & Hns & Hs)]; (split; [|done]).
  - rewrite He in Hr. split; [done|]. intros [_ Hlt]. destruct Hr as [Ho _]. specialize (Hlt e Ho). lia.
  - split; [|done]. intros _. split; [done|]. intros r' Ho.
    destruct (slot (inner s) (rkey r) (publisher r)) as [[e t]|] eqn:He; [|by destruct (Hr r')].
    destruct Hr as [_ Hmax]. specialize (Hmax r' Ho).
    destruct (Z.le_gt_cases (rseq r) (rseq e)); [|lia]. destruct Hns. by exists e, t.
Qed.

(** ** Expiry and snapshots *)

(** The part of a slot that has not expired. *)
Definition live_slot (m : gmap key PerKey) (now : Z) (k p : key) : option Expiring :=
  match slot m k p with
  | Some (r, t) => if now <? t then Some (r, t) else None
  | None => None
  end.

Lemma upsert_ok m r t :
  rstore_ok m -> verify_record r = true -> rstore_ok (upsert m r t).2.
Proof.
  intros Hm Hv. destruct (upsert m r t) as [ok m'] eqn:E. cbn.
  apply upsert_spec in E as [(_ & _ & Hs)|(_ & _ & Hs)]; intros k p r' t'; rewrite Hs; [by apply Hm|].
  case_decide; [|by apply Hm]. intros [= <- <-]. by split.
Qed.

Lemma upsert_grows m r t k p e te :
  slot m k p = Some (e, te) ->
  exists e' te', slot (upsert m r t).2 k p = Some (e', te') /\ rseq e <= rseq e'.
Proof.
  intros He. destruct (upsert m r t) as [ok m'] eqn:E. cbn.
  apply upsert_spec in E as [(_ & _ & Hs)|(_ & Hns & Hs)]; rewrite Hs.
  - by exists e, te.
  - case_decide as Ekp; [|by exists e, te]. injection Ekp as -> ->. exists r, t. split; [done|].
    destruct (Z.le_gt_cases (rseq r) (rseq e)); [|lia]. destruct Hns. by exists e, te.
Qed.

Lemma load_loop_ok now rows m n : rstore_ok m -> rstore_ok (load_loop now rows m n).2.
Proof.
  revert m n. induction rows as [|[r t] rows IH]; intros m n Hm; cbn; [done|].
  case_match; [by apply IH|]. destruct (verify_record r) eqn:Hv; cbn; [|by apply IH].
  pose proof (upsert_ok m r t Hm Hv). destruct (upsert m r t). by apply IH.
Qed.

Lemma load_loop_grows now rows m n k p e te :
  slot m k p = Some (e, te) ->
  exists e' te', slot (load_loop now rows m n).2 k p = Some (e', te') /\ rseq e <= rseq e'.
Proof.
  revert m n e te. induction rows as [|[r t] rows IH]; intros m n e te He; cbn; [by exists e, te|].
  case_match; [by eapply IH|]. destruct (verify_record r) eqn:Hv; cbn; [|by eapply IH].
  destruct (upsert_grows m r t _ _ _ _ He) as (e1 & t1 & E1 & Hle). destruct (upsert m r t) as [ok m'].
  destruct (IH m' (if ok then S n else n) e1 t1 E1) as (e2 & t2 & E2 & Hle2). exists e2, t2. split; [done|lia].
Qed.

(** Rows in which a slot occurs with one content only, as a snapshot has. *)
Definition functional_rows (rows : list Expiring) : Prop :=
  forall x y, x ∈ rows -> y ∈ rows -> slot_of x.1 = slot_of y.1 -> x = y.

Lemma load_loop_slots now rows m n k p x :
  functional_rows rows ->
  (forall y, y ∈ rows -> slot m (rkey y.1) (publisher y.1) = None \/ slot m (rkey y.1) (publisher y.1) = Some y) ->
  slot (load_loop now rows m n).2 k p = Some x <->
  slot m k p = Some x \/ (x ∈ rows /\ now < x.2 /\ verify_record x.1 = true /\ slot_of x.1 = (k, p)).
Proof.
  revert m n. induction rows as [|[r t] rows IH]; intros m n Hf Hm; cbn [load_loop].
  { cbn. setoid_rewrite elem_of_nil. naive_solver. }
  assert (Hf' : functional_rows rows) by (intros y z Hy Hz; apply Hf; by right).
  assert (Hm' : forall y, y ∈ rows -> slot m (rkey y.1) (publisher y.1) = None \/ slot m (rkey y.1) (publisher y.1) = Some y)
    by (intros y Hy; apply Hm; by right).
  assert (Hskip : ~ (now < t /\ verify_record r = true) -> slot (load_loop now rows m n).2 k p = Some x <->
    slot m k p = Some x \/ (x ∈ (r, t) :: rows /\ now < x.2 /\ verify_record x.1 = true /\ slot_of x.1 = (k, p))).
  { intros Hdead. rewrite IH by done. rewrite elem_of_cons. split; [tauto|].
    intros [?|([->|?] & H1 & H2 & H3)]; [tauto| |tauto]. destruct Hdead. done. }
  case_match eqn:Et; [apply Hskip; lia|]. destruct (verify_record r) eqn:Hv; cbn [negb]; [|apply Hskip; naive_solver].
  clear Hskip. destruct (upsert m r t) as [ok m'] eqn:E. apply upsert_spec in E.
  assert (Hslot : slot m' (rkey r) (publisher r) = Some (r, t)).
  { destruct (Hm (r, t)) as [Hn|Hs]; [by left| |]; cbn in *.
    - destruct E as [(_ & (e & te & He & _) & _)|(_ & _ & E)]; [congruence|]. by rewrite E, decide_True.
    - destruct E as [(_ & _ & E)|(_ & _ & E)]; rewrite E; [done|by rewrite decide_True]. }
  assert (Hrest : forall k' p', (k', p') <> slot_of r -> slot m' k' p' = slot m k' p').
  { intros k' p' Hne. destruct E as [(_ & _ & E)|(_ & _ & E)]; rewrite E; [done|by rewrite decide_False]. }
  rewrite IH; [|done|].
  - rewrite elem_of_cons. destruct (decide ((k, p) = slot_of r)) as [Ekp|Hne].
    + injection Ekp as -> ->. rewrite Hslot. split.
      * intros [[= <-]|?]; [|naive_solver]. right. cbn. split_and!; [by left|lia|done|done].
      * intros [Hx|([->|Hx] & H1 & H2 & H3)]; [|by left|naive_solver].
        destruct (Hm (r, t)) as [Hn|Hs]; [by left| |]; cbn in *; [congruence|]. left. congruence.
    + rewrite (Hrest _ _ Hne). split; [tauto|]. intros [?|([->|?] & H1 & H2 & H3)]; [tauto|cbn in H3; congruence|tauto].
  - intros y Hy. destruct (decide (slot_of y.1 = slot_of r)) as [Ey|Hne].
    + right. rewrite (Hf y (r, t)); [done|by right|by left|done].
    + rewrite Hrest by done. by apply Hm'.
Qed.

Lemma elem_of_persisted s x : x ∈ persisted s <-> exists k p, slot (inner s) k p = Some x.
Proof.
  unfold persisted. rewrite list_elem_of_In, in_flat_map. split.
  - intros ([k pk] & Hk & Hx). apply list_elem_of_In, elem_of_map_to_list in Hk.
    apply list_elem_of_In, list_elem_of_fmap in Hx as ([p y] & -> & Hy). apply elem_of_map_to_list in Hy.
    exists k, p. unfold slot. by rewrite Hk.
  - intros (k & p & E). unfold slot in E. destruct (inner s !! k) as [pk|] eqn:Hk; cbn in E; [|by rewrite lookup_empty in E].
    exists (k, pk). split; [by apply list_elem_of_In, elem_of_map_to_list|].
    apply list_elem_of_In, list_elem_of_fmap. exists (p, x). split; [done|by apply elem_of_map_to_list].
Qed.

Lemma persisted_functional s : rstore_ok (inner s) -> functional_rows (persisted s).
Proof.
  intros Hok [r t] [r' t'] (k & p & E)%elem_of_persisted (k' & p' & E')%elem_of_persisted Heq. cbn in Heq.
  destruct (Hok _ _ _ _ E) as [E1 _], (Hok _ _ _ _ E') as [E2 _].
  assert (k = k') by congruence. assert (p = p') by congruence. congruence.
Qed.

Lemma expire_slot s now k p : slot (inner (expire s now).2) k p = live_slot (inner s) now k p.
Proof.
  unfold live_slot, slot. cbn [expire snd inner]. rewrite lookup_omap.
  destruct (inner s !! k) as [pk|] eqn:Hk; cbn; [|by rewrite lookup_empty].
  unfold retain_live. set (kept := filter (fun e : key * Expiring => now < e.2.2) pk).
  assert (Hkept : kept !! p = match pk !! p with Some (r, t) => if now <? t then Some (r, t) else None | None => None end).
  { destruct (pk !! p) as [[r t]|] eqn:Hp.
    - destruct (Z.ltb_spec now t).
      + by apply map_lookup_filter_Some.
      + apply map_lookup_filter_None. right. intros x Hx Hlt. cbn in Hlt. simplify_eq. cbn in Hlt. lia.
    - apply map_lookup_filter_None. by left. }
  case_bool_decide as E; cbn; [|done]. by rewrite <- Hkept, E.
Qed.

Lemma elem_of_get s k now r : r ∈ get s k now <-> exists p t, slot (inner s) k p = Some (r, t) /\ now < t.
Proof.
  unfold get, slot. destruct (inner s !! k) as [pk|]; cbn.
  - rewrite list_elem_of_fmap. split.
    + intros ([r' t] & -> & Hx). apply list_elem_of_filter in Hx as [Hlt Hx].
      apply list_elem_of_fmap in Hx as ([p y] & E & Hy). apply elem_of_map_to_list in Hy. cbn in *. subst y. by exists p, t.
    + intros (p & t & Hp & Hlt). exists (r, t). split; [done|]. apply list_elem_of_filter. split; [done|].
      apply list_elem_of_fmap. exists (p, (r, t)). split; [done|by apply elem_of_map_to_list].
  - split; [by rewrite elem_of_nil|]. intros (p & t & E & _). by rewrite lookup_empty in E.
Qed.

Context `{PostcardLaws (list Expiring)}.

Lemma reload_slot s ttl now k p :
  rstore_ok (inner s) -> slot (inner (load_from (rstore_new ttl) (Some (save s)) now).2) k p = live_slot (inner s) now k p.
Proof.
  intros Hok. unfold load_from, save. rewrite postcard_roundtrip. cbn [inner rstore_new ttl_millis].
  destruct (load_loop now (persisted s) ∅ 0) as [n m] eqn:E. cbn [snd inner].
  assert (Hs : forall x, slot m k p = Some x <-> x ∈ persisted s /\ now < x.2 /\ verify_record x.1 = true /\ slot_of x.1 = (k, p)).
  { intros x. change m with ((n, m).2). rewrite <- E, load_loop_slots.
    - unfold slot at 1. rewrite lookup_empty. cbn. rewrite lookup_empty. naive_solver.
    - by apply persisted_functional.
    - intros y _. left. unfold slot. rewrite lookup_empty. apply lookup_empty. }
  apply option_eq. intros [r t]. rewrite Hs, elem_of_persisted. unfold live_slot. cbn. split.
  - intros ((k' & p' & E') & Hlt & _ & Hkp). destruct (Hok _ _ _ _ E') as [Hkp' _].
    assert (k' = k) as -> by congruence. assert (p' = p) as -> by congruence. rewrite E'. by rewrite (proj2 (Z.ltb_lt _ _) Hlt).
  - intros E'. destruct (slot (inner s) k p) as [[r' t']|] eqn:Hsl; [|done].
    destruct (Z.ltb_spec now t'); [|done]. injection E' as -> ->.
    destruct (Hok _ _ _ _ Hsl) as [Hkp Hv]. split_and!; [by exists k, p|done|done|done].
Qed.

(** A restart keeps the store, and a file on disk can inject nothing.
    Loading into a new store the snapshot of a store whose records are signed
    and in their slots yields, slot by slot, exactly the records that have not
    expired, which is also what [expire] leaves; queries at that time or later
    return the same records before and after.  Whatever bytes the file holds,
    loading it keeps every record signed and in its slot, and never replaces a
    record by one with a lower sequence number. *)
Theorem snapshot_restores_live_records (s s0 : RecordStore) (file : option bytes) (ttl now : Z) :
  rstore_ok (inner s) -> rstore_ok (inner s0) ->
  let s' := (load_from (rstore_new ttl) (Some (save s)) now).2 in
  let s1 := (load_from s0 file now).2 in
  (forall k p, slot (inner s') k p = live_slot (inner s) now k p /\
               slot (inner (expire s now).2) k p = live_slot (inner s) now k p) /\
  (forall k t r, now <= t -> r ∈ get s' k t <-> r ∈ get s k t) /\
  rstore_ok (inner s') /\ rstore_ok (inner s1) /\
  (forall k p r t, slot (inner s0) k p = Some (r, t) ->
     exists r' t', slot (inner s1) k p = Some (r', t') /\ rseq r <= rseq r').
Proof.
  intros Hok Hok0 s' s1.
  assert (Hs : forall k p, slot (inner s') k p = live_slot (inner s) now k p) by (intros; by apply reload_slot).
  split_and!.
  - intros k p. split; [apply Hs|apply expire_slot].
  - intros k t r Ht. rewrite !elem_of_get. setoid_rewrite Hs. unfold live_slot. split.
    + intros (p & t' & E & Hlt). destruct (slot (inner s) k p) as [[r0 t0]|] eqn:Hsl; [|done].
      case_match; [|done]. injection E as -> ->. by exists p, t'.
    + intros (p & t' & E & Hlt). exists p, t'. rewrite E. by rewrite (proj2 (Z.ltb_lt now t') ltac:(lia)).
  - intros k p r t. rewrite Hs. unfold live_slot. destruct (slot (inner s) k p) as [[r0 t0]|] eqn:Hsl; [|done].
    case_match; [|done]. intros [= <- <-]. by apply (Hok _ _ _ _ Hsl).
  - unfold s1, load_from. destruct file as [b|]; [|done]. destruct (from_bytes b) as [rows|]; [|done].
    pose proof (load_loop_ok now rows (inner s0) 0 Hok0) as H2. by destruct (load_loop now rows (inner s0) 0).
  - intros k p r t E. unfold s1, load_from. destruct file as [b|]; [|by exists r, t].
    destruct (from_bytes b) as [rows|]; [|by exists r, t].
    pose proof (load_loop_grows now rows (inner s0) 0 k p r t E) as H2. by destruct (load_loop now rows (inner s0) 0).
Qed.
End record_laws.

(** ** Witness *)

#[local] Instance StoredRecord_countable : Countable StoredRecord.
Proof.
  apply (inj_countable' (fun r => (rkey r, publisher r, rseq r, rvalue r, rsig r))
    (fun '(k, p, n, v, g) => mk_stored k p n v g)). by intros [].
Defined.

Definition ex_record : StoredRecord := @sign_record toy_ed25519 1 (key_of 5) 3 [42].
Definition ex_rstore : RecordStore := @put_all toy_ed25519 (rstore_new 100) [(ex_record, 10)].

Lemma snapshot_restores_live_records_witness :
  ex_record ∈ get (@load_from toy_ed25519 countable_codec (rstore_new 100) (Some (@save countable_codec ex_rstore)) 50).2
    (key_of 5) 60.
Proof.
  assert (Hok : @rstore_ok toy_ed25519 (inner ex_rstore))
    by (apply (@freshest_ok toy_ed25519 _ [(ex_record, 10)]), put_all_freshest).
  destruct (@snapshot_restores_live_records toy_ed25519 countable_codec countable_codec_laws
    ex_rstore ex_rstore None 100 50 Hok Hok) as (_ & Hget & _).
  apply Hget; [lia|]. apply elem_of_get. exists (key_of 1), 110. split; [|lia]. vm_compute. reflexivity.
Defined.
