(* ===== verification/DhtNode.v ===== *)
(** The DHT node ([crates/dht/src/node.rs], [proto.rs]): failure counts and
    tombstones, what it learns, the reply to each inbound message, iterative
    lookups and the record operations that ride on them.

    Within one lookup a peer is asked once, in at most two attempts, so the
    network is a function from a contact, a message and an attempt to the bytes
    that came back.  Every read of the clock takes the time as an argument; a
    loop reads [clock i] in its i-th pass.  Replies of a batch are folded in
    the batch's order. *)

From S2P Require Import Prelude Crypto DhtTable DhtRecord.

Open Scope Z_scope.

Definition ALPHA : nat := 3.
Definition EVICT_AFTER : Z := 3.
Definition TOMBSTONE_TTL_MS : Z := 600000.

(** Dialable addresses and their text form. *)
Class DhtAddr := {
  DAddr : Type;
  addr_text : DAddr -> bytes;
  addr_of_text : bytes -> option DAddr
}.

Class DhtAddrLaws `{DhtAddr} := {
  addr_text_parses : forall a, addr_of_text (addr_text a) = Some a
}.

Record WireContact := mk_wire { wc_id : key; wc_addr : bytes }.

Inductive DhtMessage :=
  | Ping (from : WireContact)
  | Pong (from : WireContact)
  | FindNode (from : WireContact) (target : key)
  | Nodes (contacts : list WireContact)
  | Store (record : StoredRecord)
  | StoreAck (stored : bool)
  | FindValue (from : WireContact) (k : key)
  | Value (records : list StoredRecord) (closer : list WireContact).

Section node.
Context `{Ed25519} `{DhtAddr} `{Postcard DhtMessage} `{Postcard (list WireContact)}.

Notation Contact := (DhtTable.Contact DAddr).
Notation RoutingTable := (DhtTable.RoutingTable DAddr).

Definition to_wire (c : Contact) : WireContact := mk_wire (id c) (addr_text (addr c)).

Definition into_contact (w : WireContact) : option Contact :=
  a ← addr_of_text (wc_addr w); Some (mk_contact (wc_id w) a).

Record DhtNode := mk_node {
  identity : NodeIdentity;
  me : Contact;
  table : RoutingTable;
  records : RecordStore;
  failures : gmap key Z;
  tombstones : gmap key Z;
  seeds : gset key
}.

Definition node_new (identity : NodeIdentity) (a : DAddr) (record_ttl_millis : Z) : DhtNode :=
  let me := mk_contact (node_id identity) a in
  mk_node identity me (table_new (id me)) (rstore_new record_ttl_millis) ∅ ∅ ∅.

Definition with_table (n : DhtNode) (t : RoutingTable) : DhtNode :=
  mk_node (identity n) (me n) t (records n) (failures n) (tombstones n) (seeds n).
Definition with_records (n : DhtNode) (r : RecordStore) : DhtNode :=
  mk_node (identity n) (me n) (table n) r (failures n) (tombstones n) (seeds n).
Definition with_failures (n : DhtNode) (f : gmap key Z) : DhtNode :=
  mk_node (identity n) (me n) (table n) (records n) f (tombstones n) (seeds n).
Definition with_tombstones (n : DhtNode) (t : gmap key Z) : DhtNode :=
  mk_node (identity n) (me n) (table n) (records n) (failures n) t (seeds n).
Definition with_seeds (n : DhtNode) (s : gset key) : DhtNode :=
  mk_node (identity n) (me n) (table n) (records n) (failures n) (tombstones n) s.

(** ** Liveness *)

Definition note_alive (n : DhtNode) (p : key) : DhtNode := with_failures n (delete p (failures n)).

Definition note_dead (n : DhtNode) (peer : Contact) (now : Z) : DhtNode :=
  let p := id peer in
  if bool_decide (p ∈ seeds n) then n
  else
    let count := default 0 (failures n !! p) + 1 in
    if EVICT_AFTER <=? count then
      mk_node (identity n) (me n) (remove (table n) p) (records n) (delete p (failures n))
        (<[p := now + TOMBSTONE_TTL_MS]> (tombstones n)) (seeds n)
    else with_failures n (<[p := count]> (failures n)).

Definition tombstoned (n : DhtNode) (p : key) (now : Z) : bool * DhtNode :=
  match tombstones n !! p with
  | Some expiry => if now <? expiry then (true, n) else (false, with_tombstones n (delete p (tombstones n)))
  | None => (false, n)
  end.

(** ** Learning *)

(** The filter of [learn]: the tombstone check sweeps as it goes. *)
Fixpoint learn_fresh (n : DhtNode) (cs : list Contact) (now : Z) : list Contact * DhtNode :=
  match cs with
  | [] => ([], n)
  | c :: cs' =>
      if bool_decide (id c = id (me n)) then learn_fresh n cs' now
      else
        let '(dead, n) := tombstoned n (id c) now in
        let '(rest, n) := learn_fresh n cs' now in
        (if (dead : bool) then rest else c :: rest, n)
  end.

Definition learn (n : DhtNode) (cs : list Contact) (now : Z) : DhtNode :=
  let '(fresh, n) := learn_fresh n cs now in with_table n (foldl insert (table n) fresh).

Definition closest_local (n : DhtNode) (target : key) : list Contact := closest (table n) target K.

Definition self_wire (n : DhtNode) : WireContact := to_wire (me n).

Definition save_table (n : DhtNode) : bytes := to_allocvec (map to_wire (contacts (table n))).

Definition load_table (n : DhtNode) (file : option bytes) : nat * DhtNode :=
  match file ≫= from_bytes with
  | None => (0%nat, n)
  | Some wire =>
      let cs := omap into_contact wire in
      (length cs, with_table n (foldl insert (table n) cs))
  end.

(** ** Serving *)

Definition learn_sender (n : DhtNode) (from : WireContact) (now : Z) : DhtNode :=
  match into_contact from with Some c => learn n [c] now | None => n end.

Definition handle (n : DhtNode) (msg : DhtMessage) (now : Z) : DhtMessage * DhtNode :=
  match msg with
  | Ping from => let n := learn_sender n from now in (Pong (self_wire n), n)
  | FindNode from target =>
      let n := learn_sender n from now in (Nodes (map to_wire (closest_local n target)), n)
  | Store record => let '(stored, s) := put (records n) record now in (StoreAck stored, with_records n s)
  | FindValue from k =>
      let n := learn_sender n from now in
      (Value (get (records n) k now) (map to_wire (closest_local n k)), n)
  | _ => (Nodes [], n)
  end.

(** ** Asking *)

Definition Network := Contact -> DhtMessage -> nat -> option bytes.

Definition attempt (net : Network) (peer : Contact) (msg : DhtMessage) (i : nat) : option DhtMessage :=
  net peer msg i ≫= from_bytes.

Definition request (net : Network) (n : DhtNode) (peer : Contact) (msg : DhtMessage) (now : Z) : option DhtMessage * DhtNode :=
  match attempt net peer msg 0 with
  | Some reply => (Some reply, note_alive n (id peer))
  | None =>
      match attempt net peer msg 1 with
      | Some reply => (Some reply, note_alive n (id peer))
      | None => (None, note_dead n peer now)
      end
  end.

Definition find_node (net : Network) (n : DhtNode) (peer : Contact) (target : key) (now : Z) : list Contact * DhtNode :=
  let '(reply, n) := request net n peer (FindNode (self_wire n) target) now in
  (match reply with Some (Nodes cs) => omap into_contact cs | _ => [] end, n).

(** [join_all] over the batch. *)
Fixpoint find_nodes (net : Network) (n : DhtNode) (batch : list Contact) (target : key) (now : Z) : list Contact * DhtNode :=
  match batch with
  | [] => ([], n)
  | c :: batch' =>
      let '(found, n) := find_node net n c target now in
      let '(rest, n) := find_nodes net n batch' target now in
      (found ++ rest, n)
  end.

Definition shortlist (known : gmap key Contact) (target : key) : list Contact :=
  take K (sort_by (fun a b => match closer_to target (id a) (id b) with Gt => false | _ => true end)
    (map snd (map_to_list known))).

Definition add_known (known : gmap key Contact) (cs : list Contact) : gmap key Contact :=
  foldl (fun k c => <[id c := c]> k) known cs.

Definition next_batch (sl : list Contact) (queried : gset key) : list Contact :=
  take ALPHA (filter (fun c => id c ∉ queried) sl).

Fixpoint lookup_loop (fuel : nat) (net : Network) (clock : nat -> Z) (i : nat) (target : key)
  (known : gmap key Contact) (queried : gset key) (n : DhtNode) : option (list Contact * DhtNode) :=
  match fuel with
  | O => None
  | S fuel' =>
      let sl := shortlist known target in
      match next_batch sl queried with
      | [] => Some (sl, n)
      | batch =>
          let queried := list_to_set (map id batch) ∪ queried in
          let '(discovered, n) := find_nodes net n batch target (clock i) in
          let n := learn n discovered (clock i) in
          lookup_loop fuel' net clock (S i) target (add_known known discovered) queried n
      end
  end.

Definition lookup (fuel : nat) (net : Network) (clock : nat -> Z) (n : DhtNode) (target : key) : option (list Contact * DhtNode) :=
  lookup_loop fuel net clock 0 target (add_known ∅ (closest_local n target)) ∅ n.

Definition bootstrap (fuel : nat) (net : Network) (clock : nat -> Z) (n : DhtNode) (ss : list Contact) (now : Z) : option DhtNode :=
  let n := with_seeds n (list_to_set (map id ss) ∪ seeds n) in
  let n := learn n ss now in
  '(found, n) ← lookup fuel net clock n (id (me n));
  Some (learn n found now).

(** ** Records *)

Fixpoint send_all (net : Network) (n : DhtNode) (targets : list Contact) (msg : DhtMessage) (now : Z) : DhtNode :=
  match targets with
  | [] => n
  | c :: cs => send_all net (request net n c msg now).2 cs msg now
  end.

Definition dht_put (fuel : nat) (net : Network) (clock : nat -> Z) (n : DhtNode) (k : key) (seq : Z) (value : bytes) (now : Z) : option DhtNode :=
  let record := sign_record (identity n) k seq value in
  let n := with_records n (put (records n) record now).2 in
  '(targets, n) ← lookup fuel net clock n k;
  Some (send_all net n targets (Store record) now).

Definition merge_best (best : gmap key StoredRecord) (r : StoredRecord) : gmap key StoredRecord :=
  match best !! publisher r with
  | Some existing => if rseq r <=? rseq existing then best else <[publisher r := r]> best
  | None => <[publisher r := r]> best
  end.

Definition usable (k : key) (r : StoredRecord) : bool := bool_decide (rkey r = k) && verify_record r.

(** One batch of FIND_VALUE: the replies in order, then each folded. *)
Fixpoint find_values (net : Network) (n : DhtNode) (batch : list Contact) (k : key) (now : Z) : list DhtMessage * DhtNode :=
  match batch with
  | [] => ([], n)
  | c :: batch' =>
      let '(reply, n) := request net n c (FindValue (self_wire n) k) now in
      let '(rest, n) := find_values net n batch' k now in
      (match reply with Some m => m :: rest | None => rest end, n)
  end.

Definition fold_value (k : key) (now : Z) (st : gmap key StoredRecord * gmap key Contact * DhtNode) (m : DhtMessage) :
  gmap key StoredRecord * gmap key Contact * DhtNode :=
  let '(best, known, n) := st in
  match m with
  | Value rs closer =>
      let cs := omap into_contact closer in
      (foldl merge_best best (filter (fun r => usable k r = true) rs), add_known known cs, learn n cs now)
  | _ => st
  end.

Fixpoint get_loop (fuel : nat) (net : Network) (clock : nat -> Z) (i : nat) (k : key)
  (best : gmap key StoredRecord) (known : gmap key Contact) (queried : gset key) (n : DhtNode) :
  option (gmap key StoredRecord * DhtNode) :=
  match fuel with
  | O => None
  | S fuel' =>
      let sl := shortlist known k in
      match next_batch sl queried with
      | [] => Some (best, n)
      | batch =>
          let queried := list_to_set (map id batch) ∪ queried in
          let '(replies, n) := find_values net n batch k (clock i) in
          let '(best, known, n) := foldl (fold_value k (clock i)) (best, known, n) replies in
          get_loop fuel' net clock (S i) k best known queried n
      end
  end.

Definition dht_get (fuel : nat) (net : Network) (clock : nat -> Z) (n : DhtNode) (k : key) (now : Z) : option (list StoredRecord * DhtNode) :=
  '(best, n) ← get_loop fuel net clock 0 k (foldl merge_best ∅ (get (records n) k now)) (add_known ∅ (closest_local n k)) ∅ n;
  Some (map snd (map_to_list best), n).
End node.
