(* ===== verification/DhtLookup.v ===== *)
(** The searches of [DhtNode]: when they end, what they have asked, and what
    they return; and what never leaves the routing table. *)

From S2P Require Import Prelude Crypto DhtTable DhtRecord DhtNode.

Open Scope Z_scope.

Section lookup.
Context `{Ed25519} `{DhtAddr} `{Postcard DhtMessage} `{Postcard (list WireContact)}.

Notation Contact := (DhtTable.Contact DAddr).

(** ** Shortlists *)

Definition nearer (target a b : key) : Prop := ole (distance a target) (distance b target).

Lemma add_known_dom cs known x : x ∈ dom (add_known known cs) <-> x ∈ dom known \/ x ∈ map id cs.
Proof.
  revert known. induction cs as [|c cs IH]; intros known; cbn [add_known foldl map]; [set_solver|].
  unfold add_known in IH. rewrite IH, dom_insert. set_solver.
Qed.

(** A map from ids to contacts of that id. *)
Definition keyed (known : gmap key Contact) : Prop := forall k c, known !! k = Some c -> id c = k.

Lemma add_known_keyed cs known : keyed known -> keyed (add_known known cs).
Proof.
  revert known. induction cs as [|c cs IH]; intros known Hk; [done|]. cbn. apply IH.
  intros k x [[<- <-]|[_ Hx]]%lookup_insert_Some; auto.
Qed.

Lemma known_ids known : keyed known -> map id (map snd (map_to_list known)) = map fst (map_to_list known).
Proof.
  intros Hk. rewrite map_map. apply map_ext_in. intros [k c] Hin%list_elem_of_In%elem_of_map_to_list. by apply Hk.
Qed.

Lemma shortlist_spec known target :
  keyed known ->
  let sl := shortlist known target in
  NoDup (map id sl) /\ (length sl <= K)%nat /\
  StronglySorted (fun a b => nearer target (id a) (id b)) sl /\
  (forall c, c ∈ sl -> id c ∈ dom known) /\
  (forall x, x ∈ dom known -> x ∈ map id sl \/ (length sl = K /\ forall c, c ∈ sl -> nearer target (id c) x)).
Proof.
  intros Hk sl. set (f := fun c : Contact => distance (id c) target).
  change sl with (take K (sort_by (le_on f) (map snd (map_to_list known)))). clear sl.
  set (all := map snd (map_to_list known)). pose proof (sort_by_perm (le_on f) all) as Hp.
  pose proof (sort_by_key_strongly_sorted f all) as Hs. set (l := sort_by (le_on f) all) in *.
  assert (Hids : map id all = map fst (map_to_list known)) by by apply known_ids.
  assert (Hdom : forall x, x ∈ map id l <-> x ∈ dom known).
  { intros x. rewrite Hp, Hids, list_elem_of_fmap, elem_of_dom. split.
    - intros ([k c] & -> & Hin%elem_of_map_to_list). by eexists.
    - intros [c Hc]. exists (x, c). split; [done|]. by apply elem_of_map_to_list. }
  assert (Hnd : NoDup (map id l)) by (rewrite Hp, Hids; apply NoDup_fst_map_to_list).
  rewrite <- (take_drop K l) in Hnd, Hdom, Hs. split_and!.
  - rewrite map_app in Hnd. by apply list.NoDup_app in Hnd as [? _].
  - rewrite length_take. lia.
  - by apply StronglySorted_app_1_l in Hs.
  - intros c Hc. apply Hdom. rewrite map_app. apply elem_of_app. left. apply list_elem_of_fmap. by exists c.
  - intros x Hx%Hdom. rewrite map_app in Hx. apply elem_of_app in Hx as [Hx|Hx]; [by left|right].
    apply list_elem_of_fmap in Hx as (c' & -> & Hc'). split.
    + rewrite length_take. apply list_elem_of_lookup in Hc' as [i Hi]. apply lookup_lt_Some in Hi. rewrite length_drop in Hi. lia.
    + intros c Hc. by apply (StronglySorted_app_1_elem_of _ _ _ _ _ Hs Hc Hc').
Qed.

Lemma next_batch_nil sl queried : next_batch sl queried = [] -> forall c : Contact, c ∈ sl -> id c ∈ queried.
Proof.
  intros E c Hc. destruct (decide (id c ∈ queried)) as [?|Hn]; [done|]. unfold next_batch in E.
  assert (Hin : c ∈ filter (fun c : Contact => id c ∉ queried) sl) by by apply list_elem_of_filter.
  destruct (filter _ sl); [set_solver|]. unfold ALPHA in E. discriminate E.
Qed.

Lemma next_batch_mem sl queried (c : Contact) : c ∈ next_batch sl queried -> c ∈ sl /\ id c ∉ queried.
Proof. unfold next_batch. intros (i & Hi%list_elem_of_lookup_2 & _)%elem_of_take. apply list_elem_of_filter in Hi. tauto. Qed.

(** ** Steps of the node *)

(** What a step keeps: the node's own contact, the seeds, and the presence of
    every seed in the table. *)
Record keeps (n n' : DhtNode) : Prop := {
  kp_me : me n' = me n;
  kp_seeds : seeds n ⊆ seeds n';
  kp_table : forall p, p ∈ seeds n -> contains (table n) p = true -> contains (table n') p = true
}.

Lemma keeps_refl n : keeps n n.
Proof. by constructor. Qed.

Lemma keeps_trans n1 n2 n3 : keeps n1 n2 -> keeps n2 n3 -> keeps n1 n3.
Proof. intros [M1 S1 T1] [M2 S2 T2]. constructor; [congruence|set_solver|]. intros p Hp Hc. apply T2; [set_solver|auto]. Qed.

Lemma contains_alter_keep (t : RoutingTable DAddr) f i p :
  (forall b, p ∈ map id b -> p ∈ map id (f b)) -> contains t p = true ->
  contains (mk_table (self_id t) (alter f i (buckets t))) p = true.
Proof.
  intros Hf. unfold contains. cbn [self_id buckets]. destruct (bucket_index (self_id t) p) as [j|]; [|done].
  assert (Hex : forall b : list Contact, existsb (fun c => bool_decide (id c = p)) b = true <-> p ∈ map id b).
  { intros b. rewrite existsb_exists, list_elem_of_fmap. split.
    - intros (c & Hin & E%bool_decide_eq_true). exists c. split; [done|]. by apply list_elem_of_In.
    - intros (c & -> & Hin). exists c. split; [by apply list_elem_of_In|]. by apply bool_decide_eq_true. }
  destruct (decide (i = j)) as [->|Hne].
  - rewrite list_lookup_alter_eq. destruct (buckets t !! j) as [b|]; [|done]. cbn. rewrite !Hex. apply Hf.
  - by rewrite list_lookup_alter_ne.
Qed.

Lemma insert_keep (t : RoutingTable DAddr) c p : contains t p = true -> contains (insert t c) p = true.
Proof.
  unfold insert. destruct (bucket_index (self_id t) (id c)) as [i|]; [|done]. apply contains_alter_keep.
  intros b Hb. apply bucket_insert_ids. by left.
Qed.

Lemma inserts_keep cs (t : RoutingTable DAddr) p : contains t p = true -> contains (foldl insert t cs) p = true.
Proof. revert t. induction cs as [|c cs IH]; intros t Ht; [done|]. cbn. by apply IH, insert_keep. Qed.

Lemma remove_keep (t : RoutingTable DAddr) q p : p <> q -> contains t p = true -> contains (remove t q) p = true.
Proof.
  intros Hne. unfold remove. destruct (bucket_index (self_id t) q) as [i|]; [|done]. apply contains_alter_keep.
  intros b (c & -> & Hc)%list_elem_of_fmap. apply list_elem_of_fmap. exists c. split; [done|]. by apply list_elem_of_filter.
Qed.

Lemma note_dead_keeps n c now : keeps n (note_dead n c now).
Proof.
  unfold note_dead. case_bool_decide as Hs; [apply keeps_refl|]. destruct (EVICT_AFTER <=? _); [|by constructor].
  constructor; cbn; try done. intros p Hp. apply remove_keep. by intros ->.
Qed.

Lemma request_keeps net n c m now : keeps n (request net n c m now).2.
Proof.
  unfold request. destruct (attempt net c m 0); [by constructor|]. destruct (attempt net c m 1); [by constructor|].
  apply note_dead_keeps.
Qed.

Lemma tombstoned_keeps n p now : keeps n (tombstoned n p now).2 /\ table (tombstoned n p now).2 = table n.
Proof.
  unfold tombstoned. destruct (tombstones n !! p) as [e|]; [|by split; [apply keeps_refl|]].
  destruct (now <? e); [by split; [apply keeps_refl|]|by split; [constructor|]].
Qed.

Lemma learn_fresh_keeps cs n now : keeps n (learn_fresh n cs now).2 /\ table (learn_fresh n cs now).2 = table n.
Proof.
  revert n. induction cs as [|c cs IH]; intros n; cbn [learn_fresh]; [split; [apply keeps_refl|done]|].
  case_bool_decide; [apply IH|]. destruct (tombstoned_keeps n (id c) now) as [Hk Ht].
  destruct (tombstoned n (id c) now) as [dead n1]. cbn [snd] in *. destruct (IH n1) as [Hk' Ht'].
  destruct (learn_fresh n1 cs now) as [rest n2]. cbn [snd] in *. split; [by eapply keeps_trans|congruence].
Qed.

Lemma learn_keeps n cs now : keeps n (learn n cs now).
Proof.
  unfold learn. destruct (learn_fresh_keeps cs n now) as [[Hm Hs _] Ht]. destruct (learn_fresh n cs now) as [fresh n1].
  cbn [snd] in *. constructor; cbn; [done|done|]. intros p _ Hp. apply inserts_keep. by rewrite Ht.
Qed.

(** ** What peers answer *)

Definition answer (net : Network) (c : Contact) (m : DhtMessage) : option DhtMessage :=
  match attempt net c m 0 with Some r => Some r | None => attempt net c m 1 end.

Lemma request_answer net n c m now : (request net n c m now).1 = answer net c m.
Proof. unfold request, answer. destruct (attempt net c m 0); [done|]. by destruct (attempt net c m 1). Qed.

(** The contacts a peer names for a target. *)
Definition told (net : Network) (w : WireContact) (target : key) (c : Contact) : list Contact :=
  match answer net c (FindNode w target) with Some (Nodes cs) => omap into_contact cs | _ => [] end.

Lemma find_nodes_told net batch n target now :
  (find_nodes net n batch target now).1 = flat_map (told net (self_wire n) target) batch /\ keeps n (find_nodes net n batch target now).2.
Proof.
  revert n. induction batch as [|c batch IH]; intros n; cbn [find_nodes flat_map]; [split; [done|apply keeps_refl]|].
  unfold find_node. pose proof (request_answer net n c (FindNode (self_wire n) target) now) as Ea.
  pose proof (request_keeps net n c (FindNode (self_wire n) target) now) as Hk.
  destruct (request net n c _ now) as [reply n1]. cbn [fst snd] in *. destruct (IH n1) as [E Hk'].
  destruct (find_nodes net n1 batch target now) as [rest n2]. cbn [fst snd] in *. split; [|by eapply keeps_trans].
  assert (Ew : self_wire n1 = self_wire n) by (unfold self_wire; by rewrite (kp_me _ _ Hk)).
  rewrite E, Ew. f_equal. unfold told. by rewrite <- Ea.
Qed.

(** ** Searches *)

(** Everything asked has had its answer taken in. *)
Definition absorbed (tell : Contact -> list Contact) (known : gmap key Contact) (queried : gset key) : Prop :=
  forall q, q ∈ queried -> exists c, id c = q /\ forall c', c' ∈ tell c -> id c' ∈ dom known.

Lemma absorbed_step tell known queried batch cs :
  absorbed tell known queried -> (forall c c', c ∈ batch -> c' ∈ tell c -> c' ∈ cs) ->
  absorbed tell (add_known known cs) (list_to_set (map id batch) ∪ queried).
Proof.
  intros Ha Hb q [Hq|Hq]%elem_of_union.
  - apply elem_of_list_to_set, list_elem_of_fmap in Hq as (c & -> & Hc). exists c. split; [done|]. intros c' Hc'.
    apply add_known_dom. right. apply list_elem_of_fmap. exists c'. split; [done|]. by eapply Hb.
  - destruct (Ha q Hq) as (c & Ec & Hc). exists c. split; [done|]. intros c' Hc'. apply add_known_dom. left. auto.
Qed.

(** What the ids of a search range over. *)
Record within (U : gset key) (known : gmap key Contact) (queried : gset key) : Prop := {
  wi_keyed : keyed known;
  wi_known : dom known ⊆ U;
  wi_queried : queried ⊆ U
}.

Lemma within_step U known queried target batch cs :
  within U known queried -> next_batch (shortlist known target) queried = batch -> batch <> [] ->
  (forall c, c ∈ cs -> id c ∈ U) ->
  within U (add_known known cs) (list_to_set (map id batch) ∪ queried) /\
  (size (U ∖ (list_to_set (map id batch) ∪ queried)) < size (U ∖ queried))%nat.
Proof.
  intros [Hk Hd Hq] <- Hne Hcs. destruct (shortlist_spec known target Hk) as (_ & _ & _ & Hin & _). split.
  - constructor; [by apply add_known_keyed| |].
    + intros x [Hx|Hx]%add_known_dom; [auto|]. apply list_elem_of_fmap in Hx as (c & -> & Hc). auto.
    + apply union_subseteq. split; [|done]. intros x Hx. apply elem_of_list_to_set, list_elem_of_fmap in Hx as (c & -> & Hc).
      apply next_batch_mem in Hc as [Hc _]. auto.
  - apply subset_size. destruct (next_batch (shortlist known target) queried) as [|c rest] eqn:E; [done|].
    assert (Hc : c ∈ next_batch (shortlist known target) queried) by (rewrite E; set_solver).
    apply next_batch_mem in Hc as [Hc Hn]. apply Hin, Hd in Hc. split; [set_solver|]. intros Hsub.
    assert (Hx : id c ∈ U ∖ queried) by set_solver. apply Hsub in Hx. cbn in Hx. set_solver.
Qed.

(** A search that has stopped: its shortlist is asked, and everything known is
    in it or no nearer than all of it. *)
Definition settled (tell : Contact -> list Contact) (target : key) (init sl : list Contact) : Prop :=
  NoDup (map id sl) /\ (length sl <= K)%nat /\ StronglySorted (fun a b => nearer target (id a) (id b)) sl /\
  let covered c := id c ∈ map id sl \/ (length sl = K /\ forall x, x ∈ sl -> nearer target (id x) (id c)) in
  (forall c, c ∈ init -> covered c) /\
  (forall x, x ∈ sl -> exists c, id c = id x /\ forall c', c' ∈ tell c -> covered c').

Lemma search_settled tell target known queried (init : list Contact) :
  keyed known -> absorbed tell known queried -> (forall c, c ∈ init -> id c ∈ dom known) ->
  next_batch (shortlist known target) queried = [] -> settled tell target init (shortlist known target).
Proof.
  intros Hk Ha Hi Hn. destruct (shortlist_spec known target Hk) as (Hnd & Hl & Hs & _ & Hcov).
  unfold settled. cbv zeta. do 3 (split; [done|]). split.
  - intros c Hc. apply Hcov. auto.
  - intros x Hx. destruct (Ha (id x) (next_batch_nil _ _ Hn x Hx)) as (c & Ec & Hc). exists c. split; [done|].
    intros c' Hc'. apply Hcov. auto.
Qed.

Lemma lookup_loop_settles (net : Network) (clock : nat -> Z) (target : key) (w : WireContact) (U : gset key) (init : list Contact)
  (fuel i : nat) (known : gmap key Contact) (queried : gset key) (n : DhtNode) :
  self_wire n = w -> (forall c c', c' ∈ told net w target c -> id c' ∈ U) ->
  within U known queried -> absorbed (told net w target) known queried -> (forall c, c ∈ init -> id c ∈ dom known) ->
  (size (U ∖ queried) < fuel)%nat ->
  exists sl n', lookup_loop fuel net clock i target known queried n = Some (sl, n') /\
    settled (told net w target) target init sl /\ keeps n n'.
Proof.
  intros Hw HU. revert i known queried n Hw. induction fuel as [|fuel IH]; intros i known queried n Hw Hin Ha Hi Hf; [lia|].
  cbn [lookup_loop]. destruct (next_batch (shortlist known target) queried) as [|c0 rest] eqn:Eb.
  - exists (shortlist known target), n. split; [done|]. split; [|apply keeps_refl]. eapply search_settled; [apply Hin|done..].
  - set (batch := c0 :: rest) in *. destruct (find_nodes_told net batch n target (clock i)) as [Ef Hk].
    destruct (find_nodes net n batch target (clock i)) as [discovered n1]. cbn [fst snd] in *. rewrite Hw in Ef.
    pose proof (learn_keeps n1 discovered (clock i)) as Hk1. set (n2 := learn n1 discovered (clock i)) in *.
    assert (Hmem : forall c, c ∈ discovered <-> exists b, b ∈ batch /\ c ∈ told net w target b).
    { intros c. rewrite Ef, list_elem_of_In, in_flat_map. split; intros (b & ? & ?); exists b; by rewrite <- !list_elem_of_In in *. }
    destruct (within_step U known queried target batch discovered Hin Eb) as [Hin' Hsz]; [done| |].
    { intros c (b & _ & Hc)%Hmem. by eapply HU. }
    destruct (IH (S i) (add_known known discovered) (list_to_set (map id batch) ∪ queried) n2) as (sl & n' & E & Hset & Hk').
    + unfold self_wire. rewrite (kp_me _ _ Hk1), (kp_me _ _ Hk). exact Hw.
    + done.
    + apply absorbed_step; [done|]. intros c c' Hc Hc'. apply Hmem. eauto.
    + intros c Hc. apply add_known_dom. left. auto.
    + lia.
    + exists sl, n'. split; [exact E|]. split; [done|]. eapply keeps_trans; [exact Hk|]. by eapply keeps_trans.
Qed.

(** C38: A lookup ends, and ends converged.  When the peers name contacts out
    of a finite set of ids, as many passes as there are ids are enough for
    [lookup] to return, whatever they answer and whoever fails.  What it
    returns is at most K contacts, none twice, in order of distance; every one
    of them has been asked; and every contact the node started from or that
    one of them named is in the result or is no nearer to the target than all
    K of it.  Meanwhile no seed of the node has left the routing table. *)
Theorem lookup_converges (net : Network) (clock : nat -> Z) (n : DhtNode) (target : key) (U : gset key) (fuel : nat) :
  (forall c c', c' ∈ told net (self_wire n) target c -> id c' ∈ U) ->
  (forall c, c ∈ closest_local n target -> id c ∈ U) -> (size U < fuel)%nat ->
  exists sl n', lookup fuel net clock n target = Some (sl, n') /\
    settled (told net (self_wire n) target) target (closest_local n target) sl /\ keeps n n'.
Proof.
  intros HU Hc Hf. unfold lookup. apply lookup_loop_settles with (U := U); try done.
  - constructor; [apply add_known_keyed; intros k c; by rewrite lookup_empty| |set_solver].
    intros x [Hx|Hx]%add_known_dom; [set_solver|]. apply list_elem_of_fmap in Hx as (c & -> & Hx). auto.
  - intros c Hin. apply add_known_dom. right. apply list_elem_of_fmap. by exists c.
  - by rewrite difference_empty_L.
Qed.

(** ** Records *)

(** The contacts and the records a peer gives for a key. *)
Definition told_value (net : Network) (w : WireContact) (k : key) (c : Contact) : list Contact :=
  match answer net c (FindValue w k) with Some (Value _ closer) => omap into_contact closer | _ => [] end.
Definition given (net : Network) (w : WireContact) (k : key) (c : Contact) : list StoredRecord :=
  match answer net c (FindValue w k) with Some (Value rs _) => filter (fun r => usable k r = true) rs | _ => [] end.

(** The best record of every publisher among those offered. *)
Record best_of (best : gmap key StoredRecord) (offered : StoredRecord -> Prop) : Prop := {
  bo_mem : forall p r, best !! p = Some r -> publisher r = p /\ offered r;
  bo_max : forall r, offered r -> exists r', best !! publisher r = Some r' /\ rseq r <= rseq r'
}.

Lemma merge_best_step best offered r :
  best_of best offered -> best_of (merge_best best r) (fun x => offered x \/ x = r).
Proof.
  intros [Hm Hx]. unfold merge_best. destruct (best !! publisher r) as [e|] eqn:E; [destruct (Z.leb_spec (rseq r) (rseq e)) as [Hle|Hlt]|].
  - constructor; [intros p x Hp; destruct (Hm p x Hp); tauto|]. intros x [Ho| ->]; [auto|]. by exists e.
  - constructor.
    + intros p x [[<- <-]|[_ Hp]]%lookup_insert_Some; [tauto|]. destruct (Hm p x Hp). tauto.
    + intros x [Ho| ->]; [|exists r; rewrite lookup_insert_eq; split; [done|lia]].
      destruct (Hx x Ho) as (x' & Ex & Hle). destruct (decide (publisher r = publisher x)) as [Ep|Ep].
      * exists r. rewrite Ep, lookup_insert_eq. split; [done|]. rewrite Ep in E. rewrite E in Ex. injection Ex as ->. lia.
      * exists x'. by rewrite lookup_insert_ne.
  - constructor.
    + intros p x [[<- <-]|[_ Hp]]%lookup_insert_Some; [tauto|]. destruct (Hm p x Hp). tauto.
    + intros x [Ho| ->]; [|exists r; rewrite lookup_insert_eq; split; [done|lia]].
      destruct (Hx x Ho) as (x' & Ex & Hle). exists x'. rewrite lookup_insert_ne; [done|]. intros Ep. congruence.
Qed.

Lemma best_of_ext best P Q : best_of best P -> (forall r, P r <-> Q r) -> best_of best Q.
Proof. intros [Hm Hx] E. constructor; [intros p r Hp; destruct (Hm p r Hp); rewrite <- E; done|]. intros r Hr. apply Hx. by apply E. Qed.

Lemma merge_best_fold rs best offered :
  best_of best offered -> best_of (foldl merge_best best rs) (fun x => offered x \/ x ∈ rs).
Proof.
  revert best offered. induction rs as [|r rs IH]; intros best offered Hb; cbn [foldl].
  - eapply best_of_ext; [exact Hb|]. set_solver.
  - eapply best_of_ext; [apply IH, merge_best_step, Hb|]. set_solver.
Qed.

Lemma find_values_given net batch n k now :
  (find_values net n batch k now).1 = omap (fun c => answer net c (FindValue (self_wire n) k)) batch /\
  keeps n (find_values net n batch k now).2.
Proof.
  revert n. induction batch as [|c batch IH]; intros n; cbn [find_values omap list_omap]; [split; [done|apply keeps_refl]|].
  pose proof (request_answer net n c (FindValue (self_wire n) k) now) as Ea.
  pose proof (request_keeps net n c (FindValue (self_wire n) k) now) as Hk.
  destruct (request net n c _ now) as [reply n1]. cbn [fst snd] in *. destruct (IH n1) as [E Hk'].
  destruct (find_values net n1 batch k now) as [rest n2]. cbn [fst snd] in *. split; [|by eapply keeps_trans].
  assert (Ew : self_wire n1 = self_wire n) by (unfold self_wire; by rewrite (kp_me _ _ Hk)).
  rewrite <- Ea, E, Ew. by destruct reply.
Qed.

(** Folding the replies of a batch. *)
Lemma fold_values_spec k now ms best known n :
  let cs := flat_map (fun m => match m with Value _ closer => omap into_contact closer | _ => [] end) ms in
  exists n', foldl (fold_value k now) (best, known, n) ms =
    (foldl merge_best best (flat_map (fun m => match m with Value rs _ => filter (fun r => usable k r = true) rs | _ => [] end) ms),
     add_known known cs, n') /\ keeps n n'.
Proof.
  revert best known n. induction ms as [|m ms IH]; intros best known n; cbn [foldl flat_map].
  - exists n. split; [done|apply keeps_refl].
  - unfold fold_value at 2. destruct m as [?|?|?|?|?|?|?|rs closer]; cbn [app]; try apply IH.
    destruct (IH (foldl merge_best best (filter (fun r => usable k r = true) rs)) (add_known known (omap into_contact closer)) (learn n (omap into_contact closer) now))
      as (n' & -> & Hk). exists n'. split; [|by eapply keeps_trans; [apply learn_keeps|]].
    rewrite !foldl_app. unfold add_known. by rewrite foldl_app.
Qed.

(** Collecting from the replies of a batch is collecting from its peers. *)
Lemma replies_mem {A} (f : Contact -> option DhtMessage) (g : DhtMessage -> list A) batch replies :
  replies = omap f batch ->
  forall x, x ∈ flat_map g replies <-> exists b, b ∈ batch /\ x ∈ match f b with Some m => g m | None => [] end.
Proof.
  intros -> x. rewrite list_elem_of_In, in_flat_map. split.
  - intros (m & Hm%list_elem_of_In & Hx%list_elem_of_In). apply list_elem_of_omap in Hm as (b & Hb & E). exists b. by rewrite E.
  - intros (b & Hb & Hx). destruct (f b) as [m|] eqn:E; [|set_solver]. exists m. rewrite <- !list_elem_of_In.
    split; [|done]. apply list_elem_of_omap. by exists b.
Qed.

Lemma get_loop_settles (net : Network) (clock : nat -> Z) (k : key) (w : WireContact) (U : gset key) (init : list Contact)
  (fuel i : nat) (best : gmap key StoredRecord) (known : gmap key Contact) (queried : gset key) (n : DhtNode) (offered : StoredRecord -> Prop) :
  self_wire n = w -> (forall c c', c' ∈ told_value net w k c -> id c' ∈ U) ->
  within U known queried -> absorbed (told_value net w k) known queried -> (forall c, c ∈ init -> id c ∈ dom known) ->
  best_of best offered -> (size (U ∖ queried) < fuel)%nat ->
  exists best' n' sl (asked : list Contact), get_loop fuel net clock i k best known queried n = Some (best', n') /\
    settled (told_value net w k) k init sl /\ (forall c, c ∈ sl -> id c ∈ queried \/ exists c', c' ∈ asked /\ id c' = id c) /\
    best_of best' (fun r => offered r \/ exists c, c ∈ asked /\ r ∈ given net w k c) /\ keeps n n'.
Proof.
  intros Hw HU. revert i best known queried n offered Hw. induction fuel as [|fuel IH]; intros i best known queried n offered Hw Hin Ha Hi Hb Hf; [lia|].
  cbn [get_loop]. destruct (next_batch (shortlist known k) queried) as [|c0 rest] eqn:Eb.
  - exists best, n, (shortlist known k), []. split; [done|]. split; [eapply search_settled; [apply Hin|done..]|].
    split; [intros c Hc; left; by eapply next_batch_nil|]. split; [|apply keeps_refl].
    eapply best_of_ext; [exact Hb|]. intros r. split; [tauto|]. intros [?|(c & Hc & _)]; [done|set_solver].
  - set (batch := c0 :: rest) in *. destruct (find_values_given net batch n k (clock i)) as [Ef Hk].
    destruct (find_values net n batch k (clock i)) as [replies n1]. cbn [fst snd] in *. rewrite Hw in Ef.
    destruct (fold_values_spec k (clock i) replies best known n1) as (n2 & -> & Hk1).
    set (cs := flat_map (fun m => match m with Value _ closer => omap into_contact closer | _ => [] end) replies).
    set (rs := flat_map (fun m => match m with Value rs _ => filter (fun r => usable k r = true) rs | _ => [] end) replies).
    assert (Hcs : forall c, c ∈ cs <-> exists b, b ∈ batch /\ c ∈ told_value net w k b) by (apply replies_mem; exact Ef).
    assert (Hrs : forall r, r ∈ rs <-> exists b, b ∈ batch /\ r ∈ given net w k b) by (apply replies_mem; exact Ef).
    destruct (within_step U known queried k batch cs Hin Eb) as [Hin' Hsz]; [done|intros c (b & _ & Hc)%Hcs; by eapply HU|].
    destruct (IH (S i) (foldl merge_best best rs) (add_known known cs) (list_to_set (map id batch) ∪ queried) n2 (fun r => offered r \/ r ∈ rs))
      as (best' & n' & sl & asked & E & Hset & Hasked & Hb' & Hk').
    + unfold self_wire. rewrite (kp_me _ _ Hk1), (kp_me _ _ Hk). exact Hw.
    + done.
    + apply absorbed_step; [done|]. intros c c' Hc Hc'. apply Hcs. eauto.
    + intros c Hc. apply add_known_dom. left. auto.
    + by apply merge_best_fold.
    + lia.
    + exists best', n', sl, (batch ++ asked). split; [exact E|]. split; [done|]. split.
      { intros c Hc. destruct (Hasked c Hc) as [[Hq|Hq]%elem_of_union|(c' & Hc' & Ec)]; [right|by left|right].
        - apply elem_of_list_to_set, list_elem_of_fmap in Hq as (b & Eq & Hb0). exists b. split; [apply elem_of_app; by left|done].
        - exists c'. split; [apply elem_of_app; by right|done]. }
      split; [|eapply keeps_trans; [exact Hk|]; by eapply keeps_trans].
      eapply best_of_ext; [exact Hb'|]. intros r. cbv beta. specialize (Hrs r). setoid_rewrite elem_of_app. naive_solver.
Qed.

(** Fetching a key ends and keeps the freshest record of every publisher.
    When the peers name contacts out of a finite set of ids, as many passes as
    there are ids are enough for [get] to return.  By then a settled shortlist
    of the key has been asked.  The result has one record per publisher; each
    is the node's own live record or one an asked peer gave that is for the
    key and carries its publisher's signature; and no record so offered has a
    higher sequence number than the one returned for its publisher. *)
Theorem get_returns_freshest (net : Network) (clock : nat -> Z) (n : DhtNode) (k : key) (now : Z) (U : gset key) (fuel : nat) :
  let tell := told_value net (self_wire n) k in
  (forall c c', c' ∈ tell c -> id c' ∈ U) ->
  (forall c, c ∈ closest_local n k -> id c ∈ U) -> (size U < fuel)%nat ->
  exists rs n' sl asked, dht_get fuel net clock n k now = Some (rs, n') /\ keeps n n' /\
    settled tell k (closest_local n k) sl /\ (forall c, c ∈ sl -> id c ∈ map id asked) /\
    let offered r := r ∈ get (records n) k now \/ exists c, c ∈ asked /\ r ∈ given net (self_wire n) k c in
    NoDup (map publisher rs) /\ (forall r, r ∈ rs -> offered r) /\
    (forall r, offered r -> exists r', r' ∈ rs /\ publisher r' = publisher r /\ rseq r <= rseq r').
Proof.
  intros tell HU Hc Hf.
  destruct (get_loop_settles net clock k (self_wire n) U (closest_local n k) fuel 0 (foldl merge_best ∅ (get (records n) k now))
    (add_known ∅ (closest_local n k)) ∅ n (fun r => r ∈ get (records n) k now)) as (best & n' & sl & asked & E & Hset & Hask & [Hbm Hbx] & Hk).
  - done.
  - done.
  - constructor; [apply add_known_keyed; intros q c; by rewrite lookup_empty| |set_solver].
    intros x [Hx|Hx]%add_known_dom; [set_solver|]. apply list_elem_of_fmap in Hx as (c & -> & Hx). auto.
  - intros q Hq. by apply elem_of_empty in Hq.
  - intros c Hin. apply add_known_dom. right. apply list_elem_of_fmap. by exists c.
  - eapply best_of_ext; [apply (merge_best_fold _ _ (fun _ => False)); by constructor; [intros p r; rewrite lookup_empty|]|]. naive_solver.
  - by rewrite difference_empty_L.
  - exists (map snd (map_to_list best)), n', sl, asked. split; [unfold dht_get; by rewrite E|]. split; [done|]. split; [done|]. split.
    { intros c Hc'. destruct (Hask c Hc') as [Hq|(c' & Hin & <-)]; [by apply elem_of_empty in Hq|]. by apply (list_elem_of_fmap_2 id). }
    assert (Hin : forall r, r ∈ map snd (map_to_list best) <-> exists p, best !! p = Some r).
    { intros r. rewrite list_elem_of_fmap. split; [intros ([p x] & -> & Hp%elem_of_map_to_list); by exists p|].
      intros [p Hp]. exists (p, r). split; [done|]. by apply elem_of_map_to_list. }
    cbv zeta. split; [|split].
    + rewrite map_map, (map_ext_in _ fst); [apply NoDup_fst_map_to_list|].
      intros [p r] Hp%list_elem_of_In%elem_of_map_to_list. by apply Hbm.
    + intros r [p Hp]%Hin. by apply (Hbm p r).
    + intros r (r' & Hr' & Hle)%Hbx. exists r'. destruct (Hbm _ _ Hr') as [Hp _]. split; [|done]. apply Hin. by eexists.
Qed.
End lookup.
