(* ===== verification/DhtRuns.v ===== *)
(** Runs of the DHT node of [DhtNode]: a step is one public operation, and
    what holds of every node a run can reach. *)

From S2P Require Import Prelude Crypto DhtTable DhtRecord DhtNode DhtLookup.

Open Scope Z_scope.

Section runs.
Context `{Ed25519} `{DhtAddr} `{Postcard DhtMessage} `{Postcard (list WireContact)}.

Notation Contact := (DhtTable.Contact DAddr).

(** ** The invariant *)

(** No contact of the table has a tombstone, failure counts are below the
    threshold, and the records kept are signed. *)
Record node_ok (n : DhtNode) : Prop := {
  ok_apart : forall p, contains (table n) p = true -> tombstones n !! p = None;
  ok_counts : forall p f, failures n !! p = Some f -> 0 < f < EVICT_AFTER;
  ok_records : rstore_ok (inner (records n))
}.

Definition hits (b : list Contact) (p : key) : bool := existsb (fun c => bool_decide (id c = p)) b.

Lemma hits_spec b p : hits b p = true <-> p ∈ map id b.
Proof.
  unfold hits. rewrite existsb_exists, list_elem_of_fmap. split.
  - intros (c & Hin & E%bool_decide_eq_true). exists c. split; [done|]. by apply list_elem_of_In.
  - intros (c & -> & Hin). exists c. split; [by apply list_elem_of_In|]. by apply bool_decide_eq_true.
Qed.

Lemma contains_alter (t : RoutingTable DAddr) f i p (Q : Prop) :
  (bucket_index (self_id t) p = Some i -> forall b, p ∈ map id (f b) -> p ∈ map id b \/ Q) ->
  contains (mk_table (self_id t) (alter f i (buckets t))) p = true -> contains t p = true \/ Q.
Proof.
  intros Hf. unfold contains. cbn [self_id buckets]. destruct (bucket_index (self_id t) p) as [j|]; [|done].
  change (existsb _) with (fun b => hits b p). cbv beta. destruct (decide (i = j)) as [->|Hne].
  - rewrite list_lookup_alter_eq. destruct (buckets t !! j) as [b|]; [|done]. cbn. rewrite !hits_spec. by apply Hf.
  - rewrite list_lookup_alter_ne by done. by left.
Qed.

Lemma insert_only_adds (t : RoutingTable DAddr) c p : contains (insert t c) p = true -> contains t p = true \/ p = id c.
Proof.
  unfold insert. destruct (bucket_index (self_id t) (id c)) as [i|]; [|by left]. apply contains_alter.
  intros _ b. rewrite bucket_insert_ids. tauto.
Qed.

Lemma inserts_contains cs (t : RoutingTable DAddr) p : contains (foldl insert t cs) p = true -> contains t p = true \/ p ∈ map id cs.
Proof.
  revert t. induction cs as [|c cs IH]; intros t Ht; [by left|]. cbn in Ht. destruct (IH _ Ht) as [Hi|Hi]; [|set_solver].
  destruct (insert_only_adds t c p Hi) as [?| ->]; [by left|]. right. cbn. set_solver.
Qed.

Lemma remove_drops_only (t : RoutingTable DAddr) q p : contains (remove t q) p = true -> contains t p = true /\ p <> q.
Proof.
  unfold remove. destruct (bucket_index (self_id t) q) as [i|] eqn:Eq.
  - intros Hc. split.
    + eapply (contains_alter _ _ _ _ False) in Hc; [tauto|]. intros _ b (c & -> & [_ Hc']%list_elem_of_filter)%list_elem_of_fmap.
      left. by apply (list_elem_of_fmap_2 id).
    + intros ->. unfold contains in Hc. cbn [self_id buckets] in Hc. rewrite Eq, list_lookup_alter_eq in Hc. destruct (buckets t !! i) as [b|]; [|done].
      cbn in Hc. change (hits (filter (fun c : Contact => id c <> q) b) q = true) in Hc. apply hits_spec in Hc.
      apply list_elem_of_fmap in Hc as (c & -> & [Hn _]%list_elem_of_filter). done.
  - intros Hc. split; [done|]. intros ->. unfold contains in Hc. by rewrite Eq in Hc.
Qed.

(** ** Steps keep it *)

Lemma note_dead_ok n c now : node_ok n -> node_ok (note_dead n c now).
Proof.
  intros [Ha Hc Hr]. unfold note_dead. case_bool_decide; [by constructor|].
  destruct (Z.leb_spec EVICT_AFTER (default 0 (failures n !! id c) + 1)) as [Hge|Hlt]; constructor; cbn; try done.
  - intros p [Hp Hne]%remove_drops_only. rewrite lookup_insert_ne by done. auto.
  - intros p f [_ Hf]%lookup_delete_Some. by eapply Hc.
  - intros p f [[<- <-]|[_ Hf]]%lookup_insert_Some; [|by eapply Hc]. split; [|done].
    destruct (failures n !! id c) as [f0|] eqn:E; cbn; [|lia]. pose proof (Hc _ _ E). lia.
Qed.

Lemma request_ok net n c m now : node_ok n -> node_ok (request net n c m now).2.
Proof.
  intros Hok. assert (Hal : node_ok (note_alive n (id c))).
  { destruct Hok as [Ha Hc Hr]. constructor; cbn; try done. intros p f [_ Hf]%lookup_delete_Some. by eapply Hc. }
  unfold request. destruct (attempt net c m 0); [done|]. destruct (attempt net c m 1); [done|]. by apply note_dead_ok.
Qed.

(** The tombstone check only removes tombstones, that of the peer it lets
    through among them. *)
Lemma learn_fresh_clears cs n now fresh n' :
  learn_fresh n cs now = (fresh, n') ->
  tombstones n' ⊆ tombstones n /\ failures n' = failures n /\ records n' = records n /\ table n' = table n /\
  forall c, c ∈ fresh -> tombstones n' !! id c = None.
Proof.
  revert n fresh n'. induction cs as [|c cs IH]; intros n fresh n' E; cbn [learn_fresh] in E; [by injection E as <- <-; set_solver|].
  case_bool_decide; [by apply IH|].
  assert (Ht : exists dead n1, tombstoned n (id c) now = (dead, n1) /\ tombstones n1 ⊆ tombstones n /\ failures n1 = failures n /\
    records n1 = records n /\ table n1 = table n /\ (dead = false -> tombstones n1 !! id c = None)).
  { unfold tombstoned. destruct (tombstones n !! id c) as [e|] eqn:Et; [|by exists false, n].
    destruct (now <? e); [by exists true, n|]. eexists false, _. split; [done|]. cbn. split; [apply delete_subseteq|].
    repeat split. intros _. apply lookup_delete_eq. }
  destruct Ht as (dead & n1 & Ed & Hs & Hf & Hr & Htab & Hd). rewrite Ed in E. destruct (learn_fresh n1 cs now) as [rest n2] eqn:El.
  destruct (IH _ _ _ El) as (Hs' & Hf' & Hr' & Htab' & Hrest). injection E as <- <-.
  split; [by etrans|]. do 3 (split; [congruence|]). intros x Hx. destruct dead; [auto|].
  apply elem_of_cons in Hx as [->|Hx]; [|auto]. specialize (Hd eq_refl). by eapply lookup_weaken_None.
Qed.

Lemma learn_ok n cs now : node_ok n -> node_ok (learn n cs now).
Proof.
  intros [Ha Hc Hr]. unfold learn. destruct (learn_fresh n cs now) as [fresh n1] eqn:E.
  destruct (learn_fresh_clears _ _ _ _ _ E) as (Hs & Hf & Hr1 & Ht & Hcl). constructor; cbn.
  - intros p [Hp|Hp]%inserts_contains.
    + rewrite Ht in Hp. eapply lookup_weaken_None; [|exact Hs]. auto.
    + apply list_elem_of_fmap in Hp as (c & -> & Hc'). auto.
  - by rewrite Hf.
  - by rewrite Hr1.
Qed.

Lemma put_ok (s : RecordStore) r now : rstore_ok (inner s) -> rstore_ok (inner (put s r now).2).
Proof.
  intros Hok. unfold put. destruct (verify_record r) eqn:Hv; [|done]. destruct (upsert (inner s) r _) as [ok m] eqn:E. cbn.
  intros k p x t Hx. destruct (upsert_spec _ _ _ _ _ E) as [(_ & _ & Hs)|(_ & _ & Hs)].
  - apply Hok with t. by rewrite <- Hs.
  - rewrite Hs in Hx. case_decide as Ek; [|by apply Hok with t]. injection Hx as <- _. done.
Qed.

Lemma handle_ok n msg now : node_ok n -> node_ok (handle n msg now).2.
Proof.
  intros Hok. assert (Hl : forall w, node_ok (learn_sender n w now)).
  { intros w. unfold learn_sender. destruct (into_contact w); [by apply learn_ok|done]. }
  destruct msg; cbn [handle snd]; try done; try apply Hl.
  destruct Hok as [Ha Hc Hr]. pose proof (put_ok (records n) record now Hr). destruct (put (records n) record now). by constructor.
Qed.

Lemma find_nodes_ok net batch n target now : node_ok n -> node_ok (find_nodes net n batch target now).2.
Proof.
  revert n. induction batch as [|c batch IH]; intros n Hok; cbn [find_nodes]; [done|]. unfold find_node.
  pose proof (request_ok net n c (FindNode (self_wire n) target) now Hok) as Hr.
  destruct (request net n c _ now) as [reply n1]. specialize (IH n1 Hr). by destruct (find_nodes net n1 batch target now).
Qed.

Lemma find_values_ok net batch n k now : node_ok n -> node_ok (find_values net n batch k now).2.
Proof.
  revert n. induction batch as [|c batch IH]; intros n Hok; cbn [find_values]; [done|].
  pose proof (request_ok net n c (FindValue (self_wire n) k) now Hok) as Hr.
  destruct (request net n c _ now) as [reply n1]. specialize (IH n1 Hr). by destruct (find_values net n1 batch k now).
Qed.

Lemma fold_values_ok k now ms st : node_ok st.2 -> node_ok (foldl (fold_value k now) st ms).2.
Proof.
  revert st. induction ms as [|m ms IH]; intros [[best known] n] Hok; cbn [foldl]; [done|]. apply IH.
  destruct m; cbn [fold_value]; try done. by apply learn_ok.
Qed.

Lemma send_all_ok net cs n msg now : node_ok n -> node_ok (send_all net n cs msg now).
Proof. revert n. induction cs as [|c cs IH]; intros n Hok; [done|]. cbn [send_all]. by apply IH, request_ok. Qed.

Lemma send_all_keeps net cs n msg now : keeps n (send_all net n cs msg now).
Proof.
  revert n. induction cs as [|c cs IH]; intros n; [apply keeps_refl|]. cbn [send_all].
  eapply keeps_trans; [apply request_keeps|apply IH].
Qed.

Lemma lookup_loop_ok net clock fuel i target known queried n sl n' :
  lookup_loop fuel net clock i target known queried n = Some (sl, n') -> node_ok n -> keeps n n' /\ node_ok n'.
Proof.
  revert i known queried n. induction fuel as [|fuel IH]; intros i known queried n E Hok; [done|]. cbn [lookup_loop] in E.
  destruct (next_batch (shortlist known target) queried) as [|c0 rest]; [injection E as <- <-; split; [apply keeps_refl|done]|].
  destruct (find_nodes_told net (c0 :: rest) n target (clock i)) as [_ Hk].
  pose proof (find_nodes_ok net (c0 :: rest) n target (clock i) Hok) as Hok1.
  destruct (find_nodes net n (c0 :: rest) target (clock i)) as [discovered n1]. cbn [snd] in *.
  apply IH in E as [Hk' Hok']; [|by apply learn_ok]. split; [|done].
  eapply keeps_trans; [exact Hk|]. eapply keeps_trans; [apply learn_keeps|exact Hk'].
Qed.

Lemma get_loop_ok net clock fuel i k best known queried n best' n' :
  get_loop fuel net clock i k best known queried n = Some (best', n') -> node_ok n -> keeps n n' /\ node_ok n'.
Proof.
  revert i best known queried n. induction fuel as [|fuel IH]; intros i best known queried n E Hok; [done|]. cbn [get_loop] in E.
  destruct (next_batch (shortlist known k) queried) as [|c0 rest]; [injection E as <- <-; split; [apply keeps_refl|done]|].
  destruct (find_values_given net (c0 :: rest) n k (clock i)) as [_ Hk].
  pose proof (find_values_ok net (c0 :: rest) n k (clock i) Hok) as Hok1.
  destruct (find_values net n (c0 :: rest) k (clock i)) as [replies n1]. cbn [snd] in *.
  pose proof (fold_values_ok k (clock i) replies (best, known, n1) Hok1) as Hok2.
  destruct (fold_values_spec k (clock i) replies best known n1) as (n2 & E2 & Hk2). rewrite E2 in E, Hok2. cbn [snd] in *.
  apply IH in E as [Hk' Hok']; [|done]. split; [|done].
  eapply keeps_trans; [exact Hk|]. eapply keeps_trans; [exact Hk2|exact Hk'].
Qed.

(** ** Runs *)

(** One public operation, under any network and at any times.  The table file
    is read once, before the node has any tombstone. *)
Inductive node_step : DhtNode -> DhtNode -> Prop :=
  | step_handle n msg now : node_step n (handle n msg now).2
  | step_lookup fuel net clock n target sl n' : lookup fuel net clock n target = Some (sl, n') -> node_step n n'
  | step_bootstrap fuel net clock n ss now n' : bootstrap fuel net clock n ss now = Some n' -> node_step n n'
  | step_put fuel net clock n k s v now n' : dht_put fuel net clock n k s v now = Some n' -> node_step n n'
  | step_get fuel net clock n k now rs n' : dht_get fuel net clock n k now = Some (rs, n') -> node_step n n'
  | step_expire n now : node_step n (with_records n (expire (records n) now).2)
  | step_load n file : tombstones n = ∅ -> node_step n (load_table n file).2.

Lemma records_expire_ok (s : RecordStore) now : rstore_ok (inner s) -> rstore_ok (inner (expire s now).2).
Proof.
  intros Hok k p r t. unfold slot, expire. cbn. rewrite lookup_omap. destruct (inner s !! k) as [pk|] eqn:E; cbn; [|by rewrite lookup_empty].
  unfold retain_live. case_bool_decide; cbn; [by rewrite lookup_empty|]. intros [Hp _]%map_lookup_filter_Some.
  apply Hok with t. unfold slot. by rewrite E.
Qed.

Lemma handle_keeps n msg now : keeps n (handle n msg now).2.
Proof.
  assert (Hl : forall w, keeps n (learn_sender n w now)).
  { intros w. unfold learn_sender. destruct (into_contact w); [apply learn_keeps|apply keeps_refl]. }
  destruct msg; cbn [handle snd]; try apply Hl; try apply keeps_refl. destruct (put (records n) record now). by constructor.
Qed.

Lemma node_step_ok n n' : node_step n n' -> node_ok n -> keeps n n' /\ node_ok n'.
Proof.
  intros Hs Hok. destruct Hs as [n msg now|fuel net clock n target sl n' E|fuel net clock n ss now n' E|fuel net clock n k s v now n' E|
    fuel net clock n k now rs n' E|n now|n file Ht].
  - split; [apply handle_keeps|by apply handle_ok].
  - by eapply lookup_loop_ok.
  - unfold bootstrap in E. set (n1 := with_seeds n (list_to_set (map id ss) ∪ seeds n)) in E.
    assert (Hok1 : node_ok n1) by (destruct Hok; by constructor). assert (Hk1 : keeps n n1) by (constructor; [done|apply union_subseteq_r|done]).
    destruct (lookup fuel net clock (learn n1 ss now) _) as [[found n2]|] eqn:El; [|done]. injection E as <-.
    apply lookup_loop_ok in El as [Hk2 Hok2]; [|by apply learn_ok]. split; [|by apply learn_ok].
    eapply keeps_trans; [exact Hk1|]. eapply keeps_trans; [apply learn_keeps|]. eapply keeps_trans; [exact Hk2|apply learn_keeps].
  - unfold dht_put in E. set (n1 := with_records n _) in E.
    assert (Hok1 : node_ok n1) by (destruct Hok; constructor; [done..|by apply put_ok]). assert (Hk1 : keeps n n1) by by constructor.
    destruct (lookup fuel net clock n1 k) as [[targets n2]|] eqn:El; [|done]. injection E as <-.
    apply lookup_loop_ok in El as [Hk2 Hok2]; [|done]. split; [|by apply send_all_ok].
    eapply keeps_trans; [exact Hk1|]. eapply keeps_trans; [exact Hk2|apply send_all_keeps].
  - unfold dht_get in E. destruct (get_loop fuel net clock 0 k _ _ _ n) as [[best n1]|] eqn:El; [|done]. injection E as _ <-.
    by eapply get_loop_ok.
  - destruct Hok. split; [by constructor|]. constructor; [done..|by apply records_expire_ok].
  - unfold load_table. destruct (file ≫= from_bytes) as [wire|]; [|split; [apply keeps_refl|done]]. destruct Hok. cbn. split.
    + constructor; [done..|]. intros p _. apply inserts_keep.
    + constructor; cbn; [|done..]. intros p _. rewrite Ht. apply lookup_empty.
Qed.

Lemma node_run_ok n n' : rtc node_step n n' -> node_ok n -> keeps n n' /\ node_ok n'.
Proof.
  induction 1 as [n|n n1 n' Hs _ IH]; intros Hok; [split; [apply keeps_refl|done]|].
  destruct (node_step_ok _ _ Hs Hok) as [Hk Hok1]. destruct (IH Hok1) as [Hk' Hok']. split; [by eapply keeps_trans|done].
Qed.

Lemma node_new_ok i a ttl : node_ok (node_new i a ttl).
Proof.
  constructor; cbn; [done|intros p f; by rewrite lookup_empty|]. intros k p r t. unfold slot. cbn. rewrite lookup_empty. cbn.
  by rewrite lookup_empty.
Qed.

Lemma learn_refuses n cs now p e :
  tombstones n !! p = Some e -> now < e -> contains (table (learn n cs now)) p = true -> contains (table n) p = true.
Proof.
  intros He Hlt. unfold learn. destruct (learn_fresh n cs now) as [fresh n1] eqn:E.
  destruct (learn_fresh_clears _ _ _ _ _ E) as (_ & _ & _ & Ht & _). cbn. intros [Hp|Hp]%inserts_contains; [by rewrite <- Ht|].
  exfalso. clear Ht. revert n fresh n1 E He Hp. induction cs as [|c cs IH]; intros n fresh n1 E He Hp; cbn [learn_fresh] in E.
  - injection E as <- <-. set_solver.
  - case_bool_decide; [by eapply IH|]. destruct (tombstoned n (id c) now) as [dead n2] eqn:Et.
    destruct (learn_fresh n2 cs now) as [rest n3] eqn:El. injection E as <- <-.
    assert (Hn2 : tombstones n2 !! p = Some e /\ (id c = p -> dead = true)).
    { unfold tombstoned in Et. destruct (tombstones n !! id c) as [e'|] eqn:Ec.
      - destruct (Z.ltb_spec now e') as [?|Hge]; injection Et as <- <-; [done|]. cbn.
        assert (Hne : id c <> p) by (intros Ei; rewrite Ei, He in Ec; injection Ec as <-; lia).
        by rewrite lookup_delete_ne.
      - injection Et as <- <-. split; [done|]. intros Ei. congruence. }
    destruct Hn2 as [He2 Hd]. destruct dead; [by eapply IH|]. cbn in Hp. apply elem_of_cons in Hp as [Hp|Hp]; [|by eapply IH].
    discriminate Hd. done.
Qed.

(** Eviction and seeds over every run of the node's operations, whatever
    the network answers.  From a new node on, no contact of the routing table
    has a tombstone, every failure count is below the eviction threshold, and
    every record held is filed under its own key and publisher and carries
    the publisher's signature.  While a peer's tombstone is live, [learn] does not
    bring it back.  And a seed stays a seed: once in the table it never leaves
    it, however many requests to it fail. *)
Theorem evicted_stay_out_seeds_stay_in (i : NodeIdentity) (a : DAddr) (ttl : Z) (n n' : DhtNode) :
  rtc node_step (node_new i a ttl) n -> rtc node_step n n' ->
  node_ok n' /\
  (forall p cs now e, tombstones n' !! p = Some e -> now < e -> contains (table (learn n' cs now)) p = false) /\
  (forall p, p ∈ seeds n -> p ∈ seeds n' /\ (contains (table n) p = true -> contains (table n') p = true)).
Proof.
  intros Hr Hr'. destruct (node_run_ok _ _ Hr (node_new_ok i a ttl)) as [_ Hok]. destruct (node_run_ok _ _ Hr' Hok) as [Hk Hok'].
  split; [done|]. split.
  - intros p cs now e He Hlt. apply not_true_iff_false. intros Hc. apply (learn_refuses _ _ _ _ _ He Hlt) in Hc.
    apply (ok_apart _ Hok') in Hc. congruence.
  - intros p Hp. split; [by apply (kp_seeds _ _ Hk)|by apply (kp_table _ _ Hk)].
Qed.
End runs.

(** ** Instances *)

Definition toy_addr : DhtAddr := {| DAddr := bytes; addr_text := fun a => a; addr_of_text := Some |}.

#[local] Existing Instances toy_ed25519 toy_addr.

Definition peer (i : Z) : DhtTable.Contact DAddr := mk_contact (key_of i) [i].

(** A reply of one byte names that peer. *)
#[local] Instance one_name : Postcard DhtMessage := {|
  to_allocvec := fun _ => [];
  from_bytes := fun b => match b with [i] => Some (Nodes [mk_wire (key_of i) [i]]) | _ => None end
|}.
#[local] Instance one_list : Postcard (list WireContact) := {| to_allocvec := fun _ => []; from_bytes := fun _ => None |}.

(** Peer 1 names peer 2, and nobody else answers. *)
Definition one_net : Network := fun c _ _ => if bool_decide (id c = key_of 1) then Some [2] else None.

(** A node that has evicted peer 2 and knows peer 1. *)
Definition one_node : DhtNode := with_tombstones (with_table (node_new 9 [9] 1000) (insert (table_new (key_of 9)) (peer 1))) {[ key_of 2 := 5000 ]}.

Lemma one_net_told w target c c' : c' ∈ told one_net w target c -> id c' = key_of 2.
Proof.
  unfold told, answer, attempt, one_net. case_bool_decide; cbn; [|intros Hn; by apply elem_of_nil in Hn].
  intros Hc%list_elem_of_singleton. by rewrite Hc.
Qed.

Lemma one_node_local target : closest_local one_node target = [peer 1].
Proof. reflexivity. Qed.

Lemma lookup_converges_witness :
  exists sl n', lookup 3 one_net (fun _ => 0) one_node (key_of 2) = Some (sl, n') /\
    settled (told one_net (self_wire one_node) (key_of 2)) (key_of 2) (closest_local one_node (key_of 2)) sl /\ keeps one_node n'.
Proof.
  apply (lookup_converges one_net (fun _ => 0) one_node (key_of 2) {[ key_of 1; key_of 2 ]} 3).
  - intros c c' Hc. rewrite (one_net_told _ _ _ _ Hc). apply elem_of_union_r, elem_of_singleton_2. reflexivity.
  - intros c. rewrite one_node_local. intros ->%list_elem_of_singleton. apply elem_of_union_l, elem_of_singleton_2. reflexivity.
  - vm_compute. lia.
Defined.

Lemma one_net_told_value w k c c' : c' ∈ told_value one_net w k c -> id c' = key_of 2.
Proof.
  unfold told_value, answer, attempt, one_net. case_bool_decide; cbn; intros Hn; by apply elem_of_nil in Hn.
Qed.

Lemma get_returns_freshest_witness :
  let n := with_records one_node (put (rstore_new 1000) ex_record 0).2 in
  exists rs n', dht_get 3 one_net (fun _ => 0) n (key_of 5) 1 = Some (rs, n') /\ NoDup (map publisher rs) /\ keeps n n'.
Proof.
  intros n.
  destruct (get_returns_freshest one_net (fun _ => 0) n (key_of 5) 1 {[ key_of 1; key_of 2 ]} 3) as (rs & n' & sl & asked & E & Hk & _ & _ & Hnd & _).
  - intros c c' Hc. rewrite (one_net_told_value _ _ _ _ Hc). apply elem_of_union_r, elem_of_singleton_2. reflexivity.
  - intros c Hc. change (closest_local n (key_of 5)) with (closest_local one_node (key_of 5)) in Hc. rewrite one_node_local in Hc.
    apply list_elem_of_singleton in Hc as ->. apply elem_of_union_l, elem_of_singleton_2. reflexivity.
  - vm_compute. lia.
  - exists rs, n'. exact (conj E (conj Hnd Hk)).
Defined.

Definition new_node : DhtNode := node_new 9 [9] 1000.

Lemma boot_returns : is_Some (bootstrap 3 one_net (fun _ => 0) new_node [peer 1] 0).
Proof.
  assert (E : match bootstrap 3 one_net (fun _ => 0) new_node [peer 1] 0 with Some _ => true | None => false end = true) by by vm_compute.
  destruct (bootstrap 3 one_net (fun _ => 0) new_node [peer 1] 0); [by eexists|discriminate E].
Qed.

Lemma evicted_stay_out_seeds_stay_in_witness :
  exists n, bootstrap 3 one_net (fun _ => 0) new_node [peer 1] 0 = Some n /\ node_ok n /\
    node_ok (handle n (Ping (to_wire (peer 3))) 1).2.
Proof.
  destruct boot_returns as [n E].
  assert (Hr : rtc node_step new_node n) by (eapply rtc_once, step_bootstrap, E).
  assert (Hs : rtc node_step n (handle n (Ping (to_wire (peer 3))) 1).2) by apply rtc_once, step_handle.
  exists n. split; [exact E|]. split.
  - apply (@evicted_stay_out_seeds_stay_in toy_ed25519 toy_addr one_name one_list 9 [9] 1000 n n Hr (rtc_refl _ _)).
  - apply (@evicted_stay_out_seeds_stay_in toy_ed25519 toy_addr one_name one_list 9 [9] 1000 n _ Hr Hs).
Defined.

(** An evicted peer that another peer names is dialed again: [lookup] puts
    every contact it is told of in its own list, tombstone or not.  Here the
    tombstone of peer 2 is live until 5000, and at time 0 the lookup asks it,
    counts the failure and returns it. *)
Example tombstoned_peer_dialed_again :
  tombstones one_node !! key_of 2 = Some 5000 /\ failures one_node !! key_of 2 = None /\
  match lookup 3 one_net (fun _ => 0) one_node (key_of 2) with
  | Some (sl, n') => map id sl = [key_of 2; key_of 1] /\ failures n' !! key_of 2 = Some 1
  | None => False
  end.
Proof. split; [reflexivity|]. split; [reflexivity|]. vm_compute. auto. Qed.
