(* ===== verification/Sched.v ===== *)
(** The background job coordinator ([crates/sched/src/lib.rs]): priorities,
    job classes with their in-flight caps, coalescing of duplicate keys, the
    dispatcher's selection and the life of a job with its retries.

    The coordinator's tasks interleave.  A world holds the shared state, the
    submissions that have reserved their key but not yet pushed their job, the
    job the dispatcher holds while it waits for a permit, and the running
    jobs; each step is one task's move between two lock or atomic accesses
    that matter.  What a job's future returns, whether it panics, the time and
    the memory gauge's two readings are inputs of the steps. *)

From S2P Require Import Prelude.

Open Scope Z_scope.

Inductive Priority := PEviction | PHealthScan | PDistribution | PEncoding | PRepair.

#[export] Instance Priority_eq_dec : EqDecision Priority.
Proof. solve_decision. Defined.

(** The derived order: declaration order, low to high. *)
Definition prio_rank (p : Priority) : Z :=
  match p with PEviction => 0 | PHealthScan => 1 | PDistribution => 2 | PEncoding => 3 | PRepair => 4 end.

Inductive JobClass :=
| Repair | Publish | Distribute | Scan | Pushstate | Reannounce | Scale | Eviction | Other.

#[export] Instance JobClass_eq_dec : EqDecision JobClass.
Proof. solve_decision. Defined.

Definition ALL : list JobClass :=
  [Repair; Publish; Distribute; Scan; Pushstate; Reannounce; Scale; Eviction; Other].

Definition as_str (c : JobClass) : string :=
  match c with
  | Repair => "repair" | Publish => "publish" | Distribute => "distribute" | Scan => "scan"
  | Pushstate => "pushstate" | Reannounce => "reannounce" | Scale => "scale"
  | Eviction => "eviction" | Other => "other"
  end%string.

Definition from_key (k : string) : JobClass :=
  if String.prefix "repair:" k || String.prefix "reconcile:" k then Repair
  else if String.prefix "scan:" k then Scan
  else if String.prefix "publish:" k then Publish
  else if String.prefix "pushstate:" k then Pushstate
  else if String.prefix "reannounce" k then Reannounce
  else if String.prefix "scale" k then Scale
  else if bool_decide (k = "distribute_pending"%string) then Distribute
  else if bool_decide (k = "eviction"%string) then Eviction
  else Other.

Definition default_cap (cl : JobClass) (concurrency : Z) : Z :=
  let c := Z.max concurrency 1 in
  match cl with
  | Repair => c
  | Publish => Z.min c 4
  | Distribute => Z.min c 4
  | Scan => Z.max (c / 2) 1
  | Pushstate => Z.min c 2
  | Reannounce => Z.min c 2
  | Scale => Z.min c 2
  | Eviction => Z.min c 2
  | Other => Z.min c 2
  end.

(** A queued job; its factory is the source of the results its run is given. *)
Record QueuedJob := mk_job {
  priority : Priority;
  class : JobClass;
  jseq : Z;
  jkey : string;
  max_attempts : Z
}.

#[export] Instance QueuedJob_eq_dec : EqDecision QueuedJob.
Proof. solve_decision. Defined.

(** [Ord for QueuedJob]: higher priority first, then lower sequence number. *)
Definition job_cmp (a b : QueuedJob) : comparison :=
  match Z.compare (prio_rank (priority a)) (prio_rank (priority b)) with
  | Eq => Z.compare (jseq b) (jseq a)
  | c => c
  end.

(** [BinaryHeap] as the list of its jobs in the order [pop] returns them:
    [peek] is the head, [pop] the rest. *)
Definition heap_push (q : list QueuedJob) (j : QueuedJob) : list QueuedJob :=
  insert_by (fun a b => match job_cmp b a with Gt => false | _ => true end) j q.

Record Counters := mk_counters {
  submitted : Z; completed : Z; failed : Z; retried : Z; deduped : Z;
  in_flight : Z; deferred : Z; class_deferred : Z
}.

Record JobRecord := mk_jrec { rec_key : string; rec_ok : bool; rec_ms : Z }.

(** The shared state.  [inflight] maps the key of a queued or running job to
    [None] or to its start; the three arrays are indexed by class. *)
Record Inner := mk_inner {
  queue : list QueuedJob;
  inflight : gmap string (option Z);
  next_seq : Z;
  counters : Counters;
  concurrency : Z;
  recent : list JobRecord;
  active_cap : Z;
  class_inflight : JobClass -> Z;
  class_cap : JobClass -> Z;
  class_queued : JobClass -> Z
}.

Definition upd (f : JobClass -> Z) (c : JobClass) (v : Z) : JobClass -> Z :=
  fun c' => if decide (c = c') then v else f c'.

(** [fetch_add(1)], [fetch_sub(1)] on [AtomicU64] wrap around. *)
Definition wrap_inc (x : Z) : Z := as_u64 (x + 1).
Definition wrap_dec (x : Z) : Z := as_u64 (x - 1).

Definition coord_new (conc : Z) : Inner := {|
  queue := []; inflight := ∅; next_seq := 0;
  counters := mk_counters 0 0 0 0 0 0 0 0;
  concurrency := Z.max conc 1; recent := [];
  active_cap := Z.max conc 1;
  class_inflight := fun _ => 0;
  class_cap := fun c => default_cap c conc;
  class_queued := fun _ => 0
|}.

Definition set_class_cap (s : Inner) (c : JobClass) (cap : Z) : Inner :=
  mk_inner (queue s) (inflight s) (next_seq s) (counters s) (concurrency s) (recent s) (active_cap s)
    (class_inflight s) (upd (class_cap s) c (Z.max cap 1)) (class_queued s).

Definition set_active_cap (s : Inner) (n : Z) : Inner :=
  mk_inner (queue s) (inflight s) (next_seq s) (counters s) (concurrency s) (recent s) (Z.max n 1)
    (class_inflight s) (class_cap s) (class_queued s).

(** ** Submitting

    [submit] up to its push, and the push: a dispatch round may come between
    the two. *)

Definition submit_reserve (s : Inner) (k : string) (p : Priority) (attempts : Z)
  : option QueuedJob * Inner :=
  let c := counters s in
  match inflight s !! k with
  | Some _ =>
      (None, mk_inner (queue s) (inflight s) (next_seq s)
        (mk_counters (submitted c) (completed c) (failed c) (retried c) (wrap_inc (deduped c))
           (in_flight c) (deferred c) (class_deferred c))
        (concurrency s) (recent s) (active_cap s) (class_inflight s) (class_cap s) (class_queued s))
  | None =>
      let cl := from_key k in
      (Some (mk_job p cl (next_seq s) k (Z.max attempts 1)),
       mk_inner (queue s) (<[k := None]> (inflight s)) (wrap_inc (next_seq s)) c
         (concurrency s) (recent s) (active_cap s) (class_inflight s) (class_cap s)
         (upd (class_queued s) cl (wrap_inc (class_queued s cl))))
  end.

Definition submit_push (s : Inner) (j : QueuedJob) : Inner :=
  let c := counters s in
  mk_inner (heap_push (queue s) j) (inflight s) (next_seq s)
    (mk_counters (wrap_inc (submitted c)) (completed c) (failed c) (retried c) (deduped c)
       (in_flight c) (deferred c) (class_deferred c))
    (concurrency s) (recent s) (active_cap s) (class_inflight s) (class_cap s) (class_queued s).

(** ** The dispatcher's round *)

Definition under_cap (s : Inner) (j : QueuedJob) : bool :=
  class_inflight s (class j) <? class_cap s (class j).

Definition with_queue (s : Inner) (q : list QueuedJob) : Inner :=
  mk_inner q (inflight s) (next_seq s) (counters s) (concurrency s) (recent s) (active_cap s)
    (class_inflight s) (class_cap s) (class_queued s).

(** [reserve]: the class slot and the global count, and one job less queued. *)
Definition reserve (s : Inner) (j : QueuedJob) : Inner :=
  let c := counters s in
  mk_inner (queue s) (inflight s) (next_seq s)
    (mk_counters (submitted c) (completed c) (failed c) (retried c) (deduped c)
       (wrap_inc (in_flight c)) (deferred c) (class_deferred c))
    (concurrency s) (recent s) (active_cap s)
    (upd (class_inflight s) (class j) (wrap_inc (class_inflight s (class j))))
    (class_cap s)
    (upd (class_queued s) (class j) (wrap_dec (class_queued s (class j)))).

Definition bump_deferred (s : Inner) : Inner :=
  let c := counters s in
  mk_inner (queue s) (inflight s) (next_seq s)
    (mk_counters (submitted c) (completed c) (failed c) (retried c) (deduped c)
       (in_flight c) (wrap_inc (deferred c)) (class_deferred c))
    (concurrency s) (recent s) (active_cap s) (class_inflight s) (class_cap s) (class_queued s).

Definition bump_class_deferred (s : Inner) : Inner :=
  let c := counters s in
  mk_inner (queue s) (inflight s) (next_seq s)
    (mk_counters (submitted c) (completed c) (failed c) (retried c) (deduped c)
       (in_flight c) (deferred c) (wrap_inc (class_deferred c)))
    (concurrency s) (recent s) (active_cap s) (class_inflight s) (class_cap s) (class_queued s).

(** [JobClass::ALL.iter().any(..)]: some class has queued work and a slot. *)
Definition any_eligible (s : Inner) : bool :=
  existsb (fun c => (0 <? class_queued s c) && (class_inflight s c <? class_cap s c)) ALL.

(** [while let Some(j) = q.pop()]: the first job under its cap, with the jobs
    skipped before it and those left in the heap. *)
Fixpoint walk (s : Inner) (q skipped : list QueuedJob)
  : option QueuedJob * list QueuedJob * list QueuedJob :=
  match q with
  | [] => (None, skipped, [])
  | j :: q' => if under_cap s j then (Some j, skipped, q') else walk s q' (skipped ++ [j])
  end.

(** One pass of the dispatcher's inner loop.  [gauge] is [None] when no gauge
    is wired, else what [critical()] and [high()] read. *)
Definition dispatch_round (s : Inner) (gauge : option (bool * bool)) : option QueuedJob * Inner :=
  if active_cap s <=? in_flight (counters s) then (None, s)
  else
    let critical := match gauge with Some (c, _) => c | None => false end in
    let high := match gauge with Some (_, h) => h | None => false end in
    match queue s with
    | [] => (None, s)
    | head :: rest =>
        if critical then (None, bump_deferred s)
        else if high && (prio_rank (priority head) <? prio_rank PRepair) then (None, bump_deferred s)
        else if under_cap s head then (Some head, reserve (with_queue s rest) head)
        else if negb (any_eligible s) then (Some head, reserve (with_queue s rest) head)
        else
          let '(chosen, skipped, below) := walk s (head :: rest) [] in
          let q := foldl heap_push below skipped in
          match chosen with
          | Some j => (Some j, reserve (with_queue s q) j)
          | None => (None, bump_class_deferred (with_queue s q))
          end
    end.

(** ** Running a job *)

(** [SlotGuard::drop]: two atomic decrements, then the removal of the key
    under its lock, here as one step.  Between them the counts are already down
    and the key is still reserved, so another thread could only find a slot
    free while this key still refuses a submission. *)
Definition slot_drop (s : Inner) (j : QueuedJob) : Inner :=
  let c := counters s in
  mk_inner (queue s) (delete (jkey j) (inflight s)) (next_seq s)
    (mk_counters (submitted c) (completed c) (failed c) (retried c) (deduped c)
       (wrap_dec (in_flight c)) (deferred c) (class_deferred c))
    (concurrency s) (recent s) (active_cap s)
    (upd (class_inflight s) (class j) (wrap_dec (class_inflight s (class j))))
    (class_cap s) (class_queued s).

Definition job_started (s : Inner) (j : QueuedJob) (now : Z) : Inner :=
  mk_inner (queue s) (<[jkey j := Some now]> (inflight s)) (next_seq s) (counters s) (concurrency s)
    (recent s) (active_cap s) (class_inflight s) (class_cap s) (class_queued s).

(** [while recent.len() > 20 { recent.pop_front(); }] after one push. *)
Definition push_recent (l : list JobRecord) (r : JobRecord) : list JobRecord :=
  drop (length (l ++ [r]) - 20) (l ++ [r]).

Definition job_done (s : Inner) (j : QueuedJob) (ok : bool) (ms : Z) : Inner :=
  let c := counters s in
  mk_inner (queue s) (inflight s) (next_seq s)
    (mk_counters (submitted c) (if ok then wrap_inc (completed c) else completed c)
       (if ok then failed c else wrap_inc (failed c)) (retried c) (deduped c)
       (in_flight c) (deferred c) (class_deferred c))
    (concurrency s) (push_recent (recent s) (mk_jrec (jkey j) ok ms)) (active_cap s)
    (class_inflight s) (class_cap s) (class_queued s).

Definition job_retry (s : Inner) : Inner :=
  let c := counters s in
  mk_inner (queue s) (inflight s) (next_seq s)
    (mk_counters (submitted c) (completed c) (failed c) (wrap_inc (retried c)) (deduped c)
       (in_flight c) (deferred c) (class_deferred c))
    (concurrency s) (recent s) (active_cap s) (class_inflight s) (class_cap s) (class_queued s).

(** The backoff before attempt [attempt + 1], in milliseconds. *)
Definition backoff_ms (attempt : Z) : Z := Z.shiftl 100 (Z.min (attempt - 1) 6).

(** What one call of the factory comes to. *)
Inductive Outcome := JobOk | JobErr | JobPanic.

(** One pass of [run_job]'s loop, the [attempt]-th: [None] goes round again. *)
Definition attempt_step (s : Inner) (j : QueuedJob) (attempt : Z) (o : Outcome) (ms : Z)
  : option unit * Inner :=
  match o with
  | JobOk => (Some tt, slot_drop (job_done s j true ms) j)
  | JobErr =>
      if max_attempts j <=? attempt then (Some tt, slot_drop (job_done s j false ms) j)
      else (None, job_retry s)
  | JobPanic => (Some tt, slot_drop s j)
  end.

(** [in_flight_jobs] and [recent_jobs]. *)
Definition in_flight_jobs (s : Inner) (now : Z) : list (string * Z) :=
  sort_by (fun a b => match Z.compare b.2 a.2 with Gt => false | _ => true end)
    (omap (fun kv : string * option Z =>
       match kv.2 with Some st => Some (kv.1, sat_sub now st) | None => None end) (map_to_list (inflight s))).

Definition recent_jobs (s : Inner) : list JobRecord := rev (recent s).

Record JobStats := mk_stats {
  st_submitted : Z; st_completed : Z; st_failed : Z; st_retried : Z; st_deduped : Z; st_in_flight : Z;
  queue_depth : Z; st_concurrency : Z; st_deferred : Z; st_class_deferred : Z;
  st_class_in_flight : gmap string Z; mem_load_pct : Z
}.

Definition class_in_flight (s : Inner) : list (string * Z) :=
  map (fun c => (as_str c, class_inflight s c)) ALL.

(** The [BTreeMap] is collected from the pairs in turn: a later one would win. *)
Definition stats (s : Inner) (load : option Z) : JobStats :=
  let c := counters s in
  mk_stats (submitted c) (completed c) (failed c) (retried c) (deduped c) (in_flight c)
    (Z.of_nat (length (queue s))) (concurrency s) (deferred c) (class_deferred c)
    (foldl (fun m p => <[p.1 := p.2]> m) ∅ (class_in_flight s))
    (match load with Some l => l | None => 0 end).

(** ** The tasks *)

Record World := mk_world {
  inner : Inner;
  pushing : list QueuedJob;
  holding : option QueuedJob;
  running : list (QueuedJob * Z)
}.

Definition world_new (conc : Z) : World := mk_world (coord_new conc) [] None [].

(** Moves that finish work. *)
Inductive work (w : World) : World -> Prop :=
| work_push pre j post s' : pushing w = pre ++ j :: post -> s' = submit_push (inner w) j ->
    work w (mk_world s' (pre ++ post) (holding w) (running w))
| work_dispatch gauge j s' : holding w = None -> dispatch_round (inner w) gauge = (Some j, s') ->
    work w (mk_world s' (pushing w) (Some j) (running w))
| work_start j now : holding w = Some j -> Z.of_nat (length (running w)) < concurrency (inner w) ->
    work w (mk_world (job_started (inner w) j now) (pushing w) None (running w ++ [(j, 0)]))
| work_attempt pre j a post o ms r s' : running w = pre ++ (j, a) :: post ->
    attempt_step (inner w) j (a + 1) o ms = (r, s') ->
    work w (mk_world s' (pushing w) (holding w)
      (match r with Some _ => pre ++ post | None => pre ++ (j, a + 1) :: post end)).

(** All moves: work, submissions, rounds that start nothing, and the caps. *)
Inductive step (w : World) : World -> Prop :=
| step_work w' : work w w' -> step w w'
| step_submit k p attempts r s' : 0 <= attempts <= U32_MAX ->
    submit_reserve (inner w) k p attempts = (r, s') ->
    step w (mk_world s' (pushing w ++ option_list r) (holding w) (running w))
| step_idle gauge s' : holding w = None -> dispatch_round (inner w) gauge = (None, s') ->
    step w (mk_world s' (pushing w) None (running w))
| step_class_cap c n : 0 <= n ->
    step w (mk_world (set_class_cap (inner w) c n) (pushing w) (holding w) (running w))
| step_active_cap n : 0 <= n ->
    step w (mk_world (set_active_cap (inner w) n) (pushing w) (holding w) (running w)).

Inductive steps (w0 : World) : World -> Prop :=
| steps_refl : steps w0 w0
| steps_step w w' : steps w0 w -> step w w' -> steps w0 w'.

(** ** The order of the heap *)

(** Jobs in pop order: by descending priority, then ascending sequence number. *)
Definition pop_key (j : QueuedJob) : Z * Z := (- prio_rank (priority j), jseq j).

Lemma job_cmp_le_on a b :
  (match job_cmp b a with Gt => false | _ => true end) = le_on pop_key a b.
Proof.
  unfold job_cmp, le_on, pop_key, cmp, Ord_pair, cmp, Ord_Z. cbn [fst snd].
  replace (- prio_rank (priority a) ?= - prio_rank (priority b))
    with (prio_rank (priority b) ?= prio_rank (priority a)) by (symmetry; apply Z.compare_opp).
  by destruct (prio_rank (priority b) ?= prio_rank (priority a)).
Qed.

Lemma insert_by_ext {A} (f g : A -> A -> bool) (x : A) (l : list A) :
  (forall a b, f a b = g a b) -> insert_by f x l = insert_by g x l.
Proof. intros E. induction l as [|y l IH]; cbn; [done|]. by rewrite E, IH. Qed.

Lemma heap_push_insert q j : heap_push q j = insert_by (le_on pop_key) j q.
Proof. apply insert_by_ext. intros a b. apply job_cmp_le_on. Qed.

Lemma heap_push_perm q j : heap_push q j ≡ₚ j :: q.
Proof. apply insert_by_perm. Qed.

Lemma heap_push_all_perm q l : foldl heap_push q l ≡ₚ l ++ q.
Proof.
  revert q. induction l as [|j l IH]; intros q; cbn; [done|].
  rewrite IH, heap_push_perm. by rewrite Permutation_middle.
Qed.

(** The heap is in pop order. *)
Definition heap_ok (q : list QueuedJob) : Prop := StronglySorted (fun a b => ole (pop_key a) (pop_key b)) q.

#[local] Instance pop_order_trans : Transitive (fun a b => ole (pop_key a) (pop_key b)).
Proof. intros x y z. apply transitivity. Qed.

Lemma heap_push_ok q j : heap_ok q -> heap_ok (heap_push q j).
Proof.
  intros Hq. rewrite heap_push_insert. apply Sorted_StronglySorted; [apply _|].
  eapply Sorted_impl; [intros a b; apply le_on_spec|]. apply insert_by_sorted; [apply le_on_total|].
  apply StronglySorted_Sorted in Hq. revert Hq. apply Sorted_impl. intros a b. by rewrite le_on_spec.
Qed.

Lemma heap_push_all_ok q l : heap_ok q -> heap_ok (foldl heap_push q l).
Proof. revert q. induction l as [|j l IH]; intros q Hq; cbn; [done|]. by apply IH, heap_push_ok. Qed.

Lemma heap_ok_head j q j' : heap_ok (j :: q) -> j' ∈ j :: q -> ole (pop_key j) (pop_key j').
Proof.
  intros Hs Hin. apply StronglySorted_inv in Hs as [_ Hf]. apply elem_of_cons in Hin as [->|Hin]; [reflexivity|].
  rewrite list.Forall_forall in Hf. by apply Hf.
Qed.

(** ** The selection of a round *)

Lemma walk_spec s q sk chosen skipped below :
  walk s q sk = (chosen, skipped, below) ->
  exists pre, skipped = sk ++ pre /\ Forall (fun j => under_cap s j = false) pre /\
    match chosen with
    | Some j => q = pre ++ j :: below /\ under_cap s j = true
    | None => q = pre /\ below = []
    end.
Proof.
  revert sk. induction q as [|j q IH]; intros sk; cbn.
  - intros [= <- <- <-]. exists []. by rewrite app_nil_r.
  - destruct (under_cap s j) eqn:Hu.
    + intros [= <- <- <-]. exists []. by rewrite app_nil_r.
    + intros (pre & -> & Hf & Hm)%IH. exists (j :: pre). rewrite <- app_assoc. split; [done|].
      split; [by constructor|]. destruct chosen; [by destruct Hm as [-> ?]|by destruct Hm as [-> ->]].
Qed.

(** The first job under its cap, in pop order. *)
Definition best_under_cap (s : Inner) (q : list QueuedJob) (j : QueuedJob) : Prop :=
  under_cap s j = true /\ forall j', j' ∈ q -> under_cap s j' = true -> ole (pop_key j) (pop_key j').

Lemma split_best s pre j post :
  heap_ok (pre ++ j :: post) -> Forall (fun j' => under_cap s j' = false) pre -> under_cap s j = true ->
  best_under_cap s (pre ++ j :: post) j.
Proof.
  intros Hs Hpre Hj. split; [done|]. intros j' Hin Hu. apply elem_of_app in Hin as [Hin|Hin].
  - rewrite list.Forall_forall in Hpre. rewrite (Hpre _ Hin) in Hu. done.
  - apply StronglySorted_app_1_r in Hs. by eapply heap_ok_head.
Qed.

(** What a started job leaves of the state, the queue apart. *)
Lemma dispatch_started s g j s' :
  dispatch_round s g = (Some j, s') ->
  exists q, s' = reserve (with_queue s q) j /\ queue s ≡ₚ j :: q /\ (heap_ok (queue s) -> heap_ok q) /\
    in_flight (counters s) < active_cap s.
Proof.
  unfold dispatch_round. destruct (Z.leb_spec (active_cap s) (in_flight (counters s))); [done|].
  destruct (queue s) as [|h rest] eqn:Hq; [done|].
  destruct (match g with Some (c, _) => c | None => false end); [done|].
  destruct (_ && _); [done|].
  assert (Hrest : heap_ok (h :: rest) -> heap_ok rest) by (by intros [? _]%StronglySorted_inv).
  destruct (under_cap s h); [intros [= <- <-]; by exists rest|].
  destruct (any_eligible s); cbn [negb]; [|intros [= <- <-]; by exists rest].
  destruct (walk s (h :: rest) []) as [[[c|] sk] below] eqn:Hw; [|done]. intros [= -> <-].
  apply walk_spec in Hw as (pre & -> & _ & -> & _). cbn [app].
  exists (foldl heap_push below pre). split; [done|]. split.
  - rewrite heap_push_all_perm. by rewrite Permutation_middle.
  - split; [|done]. intros Hs. apply heap_push_all_ok.
    apply StronglySorted_app_1_r in Hs. by apply StronglySorted_inv in Hs as [? _].
Qed.

Lemma elem_of_ALL c : c ∈ ALL.
Proof. destruct c; unfold ALL; set_solver. Qed.

Lemma any_eligible_spec s :
  any_eligible s = true <-> exists c, 0 < class_queued s c /\ class_inflight s c < class_cap s c.
Proof.
  unfold any_eligible. rewrite existsb_exists. setoid_rewrite andb_true_iff. setoid_rewrite Z.ltb_lt.
  split; [intros (c & _ & ?); by exists c|]. intros (c & ?). exists c. split; [|done].
  apply list_elem_of_In, elem_of_ALL.
Qed.

(** ** The invariant *)

Definition started (w : World) : list QueuedJob := option_list (holding w) ++ map fst (running w).
Definition waiting (w : World) : list QueuedJob := pushing w ++ queue (inner w).
Definition jobs (w : World) : list QueuedJob := waiting w ++ started w.

#[global] Arguments started : simpl never.
#[global] Arguments waiting : simpl never.
#[global] Arguments jobs : simpl never.

Definition class_count (c : JobClass) (l : list QueuedJob) : Z :=
  Z.of_nat (length (filter (fun j => class j = c) l)).

#[global] Instance class_count_perm c : Proper ((≡ₚ) ==> eq) (class_count c).
Proof. intros l k E. unfold class_count. by rewrite E. Qed.

Lemma class_count_cons c j l :
  class_count c (j :: l) = class_count c l + (if decide (class j = c) then 1 else 0).
Proof. unfold class_count. rewrite filter_cons. case_decide; cbn [length]; lia. Qed.

Lemma class_count_le c l : 0 <= class_count c l <= Z.of_nat (length l).
Proof. unfold class_count. pose proof (length_filter (fun j => class j = c) l). lia. Qed.

Lemma class_count_elem c l : (exists j, j ∈ l /\ class j = c) <-> 0 < class_count c l.
Proof.
  induction l as [|j l IH]; [split; [intros (? & []%not_elem_of_nil & _)|change (class_count c []) with 0; lia]|].
  rewrite class_count_cons. pose proof (class_count_le c l). split.
  - intros (j' & [->|Hin]%elem_of_cons & Hc); [rewrite decide_True by done; lia|].
    assert (0 < class_count c l) by (apply IH; by exists j'). case_decide; lia.
  - case_decide as Hd; [intros _; exists j; set_solver|]. rewrite Z.add_0_r.
    intros (j' & ? & ?)%IH. exists j'. set_solver.
Qed.

(** A job as [submit] builds it. *)
Definition job_ok (j : QueuedJob) : Prop := class j = from_key (jkey j) /\ 1 <= max_attempts j.

(** [Semaphore::MAX_PERMITS], beyond which [Semaphore::new] panics. *)
Definition MAX_PERMITS : Z := 2305843009213693951.

Record sched_inv (w : World) : Prop := {
  inv_nodup : NoDup (map jkey (jobs w));
  inv_dom : forall k, is_Some (inflight (inner w) !! k) <-> k ∈ map jkey (jobs w);
  inv_jobs : Forall job_ok (jobs w);
  inv_in_flight : in_flight (counters (inner w)) = Z.of_nat (length (started w));
  inv_class_inflight c : class_inflight (inner w) c = class_count c (started w);
  inv_class_queued c : class_queued (inner w) c = as_u64 (class_count c (waiting w));
  inv_conc : 1 <= concurrency (inner w) <= MAX_PERMITS;
  inv_running : Z.of_nat (length (running w)) <= concurrency (inner w);
  inv_caps c : 1 <= class_cap (inner w) c;
  inv_active : 1 <= active_cap (inner w);
  inv_heap : heap_ok (queue (inner w));
  inv_attempts : Forall (fun ja => 0 <= ja.2 < max_attempts ja.1) (running w)
}.

Lemma started_bound w : sched_inv w -> Z.of_nat (length (started w)) <= concurrency (inner w) + 1.
Proof.
  intros I. unfold started. rewrite length_app, length_map. pose proof (inv_running _ I).
  destruct (holding w); cbn; lia.
Qed.

Lemma default_cap_pos c n : 1 <= default_cap c n.
Proof. destruct c; cbn; lia. Qed.

Lemma world_new_inv conc : conc <= MAX_PERMITS -> sched_inv (world_new conc).
Proof.
  intros Hc. split; cbn; try done; try (unfold MAX_PERMITS in *; lia).
  - constructor.
  - intros k. rewrite lookup_empty. split; [by intros []|by intros ?%not_elem_of_nil].
  - intros c. apply default_cap_pos.
  - constructor.
Qed.

(** Two worlds whose jobs are arranged alike: the part of the invariant that
    depends on no order. *)
Lemma perm_inv_keys (l k : list QueuedJob) (m : gmap string (option Z)) :
  l ≡ₚ k -> NoDup (map jkey l) -> (forall x, is_Some (m !! x) <-> x ∈ map jkey l) -> Forall job_ok l ->
  NoDup (map jkey k) /\ (forall x, is_Some (m !! x) <-> x ∈ map jkey k) /\ Forall job_ok k.
Proof.
  intros E Hn Hd Hf. split; [by rewrite <- E|]. split; [intros x; by rewrite Hd, E|by rewrite <- E].
Qed.

Lemma as_u64_inc x y : x = as_u64 y -> wrap_inc x = as_u64 (y + 1).
Proof. intros ->. unfold wrap_inc, as_u64. by rewrite Zplus_mod_idemp_l. Qed.

Lemma as_u64_dec x y : x = as_u64 y -> wrap_dec x = as_u64 (y - 1).
Proof. intros ->. unfold wrap_dec, as_u64. by rewrite Zminus_mod_idemp_l. Qed.

Lemma upd_apply f c v c' : upd f c v c' = if decide (c = c') then v else f c'.
Proof. done. Qed.

Lemma submit_inv w k p n r s' :
  sched_inv w -> 0 <= n -> submit_reserve (inner w) k p n = (r, s') ->
  sched_inv (mk_world s' (pushing w ++ option_list r) (holding w) (running w)).
Proof.
  intros I Hn. unfold submit_reserve. destruct (inflight (inner w) !! k) eqn:Hk; intros [= <- <-].
  - cbn [option_list]. rewrite app_nil_r. destruct I. split; cbn; auto.
  - set (j := mk_job _ _ _ _ _).
    assert (Hw : waiting (mk_world (inner w) (pushing w ++ [j]) (holding w) (running w)) ≡ₚ j :: waiting w).
    { unfold waiting. cbn. rewrite <- app_assoc. cbn. symmetry. apply Permutation_middle. }
    assert (E : j :: jobs w ≡ₚ waiting (mk_world (inner w) (pushing w ++ [j]) (holding w) (running w)) ++ started w).
    { rewrite Hw. done. }
    assert (Hfresh : k ∉ map jkey (jobs w)).
    { intros ?%(inv_dom _ I). rewrite Hk in *. by destruct H. }
    edestruct (perm_inv_keys (j :: jobs w) _ (<[k := None]> (inflight (inner w))) E) as (H1 & H2 & H3).
    { cbn. apply list.NoDup_cons. split; [done|apply (inv_nodup _ I)]. }
    { intros x. cbn. rewrite lookup_insert_is_Some', (inv_dom _ I). set_solver. }
    { constructor; [split; [done|cbn; lia]|apply (inv_jobs _ I)]. }
    destruct I. split; cbn; auto. intros c. rewrite upd_apply.
    change (class_count c (waiting _)) with
      (class_count c (waiting (mk_world (inner w) (pushing w ++ [j]) (holding w) (running w)))).
    rewrite Hw, class_count_cons. cbn [class j]. case_decide; subst.
    + apply as_u64_inc, inv_class_queued0.
    + rewrite Z.add_0_r. apply inv_class_queued0.
Qed.

Lemma push_inv w pre j post :
  sched_inv w -> pushing w = pre ++ j :: post ->
  sched_inv (mk_world (submit_push (inner w) j) (pre ++ post) (holding w) (running w)).
Proof.
  intros I Hp. set (w' := mk_world _ _ _ _).
  assert (Hw : waiting w ≡ₚ waiting w').
  { unfold waiting, w'. cbn. rewrite Hp, heap_push_perm. cbn.
    rewrite <- !app_assoc. cbn. by rewrite <- !Permutation_middle. }
  assert (E : jobs w ≡ₚ jobs w') by (unfold jobs; by rewrite Hw).
  destruct (perm_inv_keys _ _ (inflight (inner w)) E) as (H1 & H2 & H3); [apply I..|].
  destruct I. split; auto.
  - intros c. rewrite <- Hw. apply inv_class_queued0.
  - by apply heap_push_ok.
Qed.

(** What a round that starts nothing can change. *)
Definition idle_state (s : Inner) (q : list QueuedJob) (n m : Z) : Inner :=
  let c := counters s in
  mk_inner q (inflight s) (next_seq s)
    (mk_counters (submitted c) (completed c) (failed c) (retried c) (deduped c) (in_flight c) n m)
    (concurrency s) (recent s) (active_cap s) (class_inflight s) (class_cap s) (class_queued s).

Lemma idle_state_id s : s = idle_state s (queue s) (deferred (counters s)) (class_deferred (counters s)).
Proof. by destruct s as [? ? ? []]. Qed.

Lemma dispatch_idle s g s' :
  dispatch_round s g = (None, s') ->
  exists q n m, s' = idle_state s q n m /\ q ≡ₚ queue s /\ (heap_ok (queue s) -> heap_ok q).
Proof.
  assert (Hsame : exists q n m, s = idle_state s q n m /\ q ≡ₚ queue s /\ (heap_ok (queue s) -> heap_ok q)).
  { eexists _, _, _. split; [apply idle_state_id|done]. }
  assert (Hdef : exists q n m, bump_deferred s = idle_state s q n m /\ q ≡ₚ queue s /\
    (heap_ok (queue s) -> heap_ok q)) by (eexists _, _, _; split; [reflexivity|done]).
  unfold dispatch_round. destruct (_ <=? _); [by intros [= <-]|].
  destruct (queue s) as [|h rest]; [by intros [= <-]|].
  destruct (match g with Some (c, _) => c | None => false end); [by intros [= <-]|].
  destruct (_ && _); [by intros [= <-]|].
  destruct (under_cap _ h); [done|]. destruct (negb _); [done|].
  destruct (walk s (h :: rest) []) as [[[j|] sk] below] eqn:Hw; [done|]. intros [= <-].
  apply walk_spec in Hw as (pre & -> & _ & Hq & ->). cbn [app].
  eexists (foldl heap_push [] pre), _, _. split; [reflexivity|].
  split; [by rewrite heap_push_all_perm, app_nil_r, Hq|]. intros _. apply heap_push_all_ok. constructor.
Qed.

Lemma idle_inv w g s' :
  sched_inv w -> dispatch_round (inner w) g = (None, s') ->
  sched_inv (mk_world s' (pushing w) (holding w) (running w)).
Proof.
  intros I (q & n & m & -> & Hq & Hh)%dispatch_idle. set (w' := mk_world _ _ _ _).
  assert (Hw : waiting w ≡ₚ waiting w') by (unfold waiting, w'; cbn; by rewrite Hq).
  assert (E : jobs w ≡ₚ jobs w') by (unfold jobs; by rewrite Hw).
  destruct (perm_inv_keys _ _ (inflight (inner w)) E) as (H1 & H2 & H3); [apply I..|].
  destruct I. split; auto.
  intros c. rewrite <- Hw. apply inv_class_queued0.
Qed.

Lemma wrap_inc_id x : 0 <= x < U64_MAX -> wrap_inc x = x + 1.
Proof. intros. unfold wrap_inc. apply as_u64_id. unfold is_u64. lia. Qed.

Lemma wrap_dec_id x : 0 < x <= U64_MAX -> wrap_dec x = x - 1.
Proof. intros. unfold wrap_dec. apply as_u64_id. unfold is_u64. lia. Qed.

Lemma dispatch_inv w g j s' :
  sched_inv w -> holding w = None -> dispatch_round (inner w) g = (Some j, s') ->
  sched_inv (mk_world s' (pushing w) (Some j) (running w)).
Proof.
  intros I Hh Hd. pose proof (started_bound _ I) as Hb. pose proof (inv_conc _ I) as Hc.
  apply dispatch_started in Hd as (q & -> & Hq & Hok & Hact). set (w' := mk_world _ _ _ _).
  assert (Hw : waiting w ≡ₚ j :: waiting w').
  { unfold waiting, w'. cbn. rewrite Hq. symmetry. apply Permutation_middle. }
  assert (Hs : started w' = j :: started w) by (unfold started, w'; by rewrite Hh).
  assert (E : jobs w ≡ₚ jobs w').
  { unfold jobs. rewrite Hs, Hw. cbn. apply Permutation_middle. }
  destruct (perm_inv_keys _ _ (inflight (inner w)) E) as (H1 & H2 & H3); [apply I..|].
  assert (Z.of_nat (length (started w)) < U64_MAX) by (unfold MAX_PERMITS, U64_MAX in *; lia).
  destruct I. split; auto.
  - rewrite Hs. cbn. rewrite inv_in_flight0, wrap_inc_id; lia.
  - intros c. rewrite Hs, class_count_cons. cbn. rewrite upd_apply. case_decide; [subst c|rewrite Z.add_0_r; auto].
    rewrite inv_class_inflight0. pose proof (class_count_le (class j) (started w)).
    rewrite wrap_inc_id; lia.
  - intros c. cbn. rewrite upd_apply. specialize (inv_class_queued0 c). rewrite Hw, class_count_cons in inv_class_queued0.
    case_decide; [subst c|by rewrite inv_class_queued0, Z.add_0_r].
    erewrite as_u64_dec by apply inv_class_queued0. f_equal. apply Z.add_simpl_r.
Qed.

Lemma start_inv w j now :
  sched_inv w -> holding w = Some j -> Z.of_nat (length (running w)) < concurrency (inner w) ->
  sched_inv (mk_world (job_started (inner w) j now) (pushing w) None (running w ++ [(j, 0)])).
Proof.
  intros I Hh Hr. set (w' := mk_world _ _ _ _).
  assert (Hs : started w ≡ₚ started w').
  { unfold started, w'. rewrite Hh. cbn. rewrite map_app. cbn. by rewrite Permutation_cons_append. }
  assert (E : jobs w ≡ₚ jobs w').
  { unfold jobs. rewrite Hs. done. }
  destruct (perm_inv_keys _ _ (inflight (inner w)) E) as (H1 & H2 & H3); [apply I..|].
  assert (Hj : j ∈ jobs w').
  { rewrite <- E. unfold jobs, started. rewrite Hh. set_solver. }
  pose proof Hj as Hok. rewrite list.Forall_forall in H3. apply H3 in Hok as [_ Hmax].
  destruct I. split; auto.
  - intros k. cbn. rewrite lookup_insert_is_Some', H2. split; [|tauto].
    intros [<-|]; [|done]. by apply list_elem_of_fmap_2.
  - by rewrite list.Forall_forall.
  - cbn. by rewrite inv_in_flight0, Hs.
  - intros c. rewrite <- Hs. apply inv_class_inflight0.
  - cbn. rewrite length_app. cbn. lia.
  - cbn. apply Forall_app. split; [done|]. constructor; [cbn; lia|constructor].
Qed.

Lemma finish_inv w pre j a post s' :
  sched_inv w -> running w = pre ++ (j, a) :: post ->
  inflight s' = inflight (inner w) -> class_inflight s' = class_inflight (inner w) ->
  class_queued s' = class_queued (inner w) -> class_cap s' = class_cap (inner w) ->
  in_flight (counters s') = in_flight (counters (inner w)) -> queue s' = queue (inner w) ->
  concurrency s' = concurrency (inner w) -> active_cap s' = active_cap (inner w) ->
  sched_inv (mk_world (slot_drop s' j) (pushing w) (holding w) (pre ++ post)).
Proof.
  intros I Hr Ei Eci Ecq Ecap Eif Eq Ec Ea. set (w' := mk_world _ _ _ _).
  pose proof (started_bound _ I) as Hb. pose proof (inv_conc _ I) as Hc.
  assert (Hs : started w ≡ₚ j :: started w').
  { unfold started, w'. rewrite Hr. cbn. rewrite !map_app. cbn.
    rewrite !app_assoc. symmetry. apply Permutation_middle. }
  assert (Hw : waiting w' = waiting w) by (unfold waiting, w'; cbn; by rewrite Eq).
  assert (E : jobs w ≡ₚ j :: jobs w').
  { unfold jobs. rewrite Hs, Hw. symmetry. apply Permutation_middle. }
  destruct (perm_inv_keys _ _ (inflight (inner w)) E) as (H1 & H2 & H3); [apply I..|].
  cbn in H1. apply list.NoDup_cons in H1 as [Hj H1].
  pose proof (Permutation_length Hs) as Hlen. cbn in Hlen.
  destruct I. split; cbn; rewrite ?Eci, ?Ecq, ?Ecap, ?Eif, ?Eq, ?Ec, ?Ea, ?Ei; auto.
  - intros k. rewrite lookup_delete_is_Some, H2. cbn. rewrite elem_of_cons. split; [naive_solver|].
    intros Hk. split; [intros <-; done|by right].
  - by apply list.Forall_cons in H3 as [_ ?].
  - rewrite inv_in_flight0, wrap_dec_id; unfold MAX_PERMITS, U64_MAX in *; lia.
  - intros c. rewrite upd_apply. pose proof (class_count_le c (started w')).
    case_decide; [subst c|]; rewrite inv_class_inflight0, Hs, class_count_cons.
    + rewrite decide_True by done. rewrite wrap_dec_id; unfold MAX_PERMITS, U64_MAX in *; lia.
    + rewrite decide_False by done. lia.
  - intros c. rewrite Hw. apply inv_class_queued0.
  - rewrite Hr, length_app in inv_running0. rewrite length_app. cbn in inv_running0. lia.
  - rewrite Hr in inv_attempts0. apply Forall_app in inv_attempts0 as [? [_ ?]%list.Forall_cons].
    by apply Forall_app.
Qed.

Lemma retry_inv w pre j a post :
  sched_inv w -> running w = pre ++ (j, a) :: post -> a + 1 < max_attempts j ->
  sched_inv (mk_world (job_retry (inner w)) (pushing w) (holding w) (pre ++ (j, a + 1) :: post)).
Proof.
  intros I Hr Ha. set (w' := mk_world _ _ _ _).
  assert (Hs : started w' = started w) by (unfold started, w'; rewrite Hr; cbn; by rewrite !map_app).
  assert (Hj : jobs w' = jobs w) by (unfold jobs; by rewrite Hs).
  destruct I. split; rewrite ?Hs, ?Hj; cbn; auto.
  - rewrite Hr, length_app in inv_running0. by rewrite length_app.
  - rewrite Hr in inv_attempts0. apply Forall_app in inv_attempts0 as [? [[? ?] ?]%list.Forall_cons].
    apply Forall_app. split; [done|]. constructor; [cbn in *; lia|done].
Qed.

Lemma attempt_inv w pre j a post o ms r s' :
  sched_inv w -> running w = pre ++ (j, a) :: post -> attempt_step (inner w) j (a + 1) o ms = (r, s') ->
  sched_inv (mk_world s' (pushing w) (holding w)
    (match r with Some _ => pre ++ post | None => pre ++ (j, a + 1) :: post end)).
Proof.
  intros I Hr. unfold attempt_step. destruct o; [| |].
  - intros [= <- <-]. by eapply finish_inv.
  - destruct (Z.leb_spec (max_attempts j) (a + 1)); intros [= <- <-]; [by eapply finish_inv|by apply retry_inv].
  - intros [= <- <-]. by eapply finish_inv.
Qed.

Lemma work_inv w w' : work w w' -> sched_inv w -> sched_inv w'.
Proof.
  intros [] I; subst.
  - by apply push_inv.
  - by eapply dispatch_inv.
  - by apply start_inv.
  - by eapply attempt_inv.
Qed.

Lemma sched_step_inv w w' : step w w' -> sched_inv w -> sched_inv w'.
Proof.
  intros [] I.
  - by eapply work_inv.
  - eapply submit_inv; [done| |done]. lia.
  - rewrite <- H. by eapply idle_inv.
  - destruct I. split; auto. intros c'. cbn. rewrite upd_apply. case_decide; [lia|auto].
  - destruct I. split; auto. cbn. lia.
Qed.

Lemma sched_steps_inv w w' : steps w w' -> sched_inv w -> sched_inv w'.
Proof. induction 1; eauto using sched_step_inv. Qed.

(** ** Theorems *)

(** C10: Whatever the interleaving of submissions, rounds, starts, attempts,
    panics and cap changes, at most one job per key is reserved, queued or
    running and [inflight] holds exactly those keys; at most [concurrency]
    jobs run; and the atomics [in_flight] and [class_inflight] are exactly the
    number of started jobs, in all and per class, with no wrap-around. *)
Theorem scheduler_single_flight conc w :
  conc <= MAX_PERMITS -> steps (world_new conc) w ->
  NoDup (map jkey (jobs w)) /\
  (forall k, is_Some (inflight (inner w) !! k) <-> k ∈ map jkey (jobs w)) /\
  Z.of_nat (length (running w)) <= concurrency (inner w) /\
  in_flight (counters (inner w)) = Z.of_nat (length (started w)) /\
  (forall c, class_inflight (inner w) c = class_count c (started w)) /\
  (forall c, class_queued (inner w) c = as_u64 (class_count c (waiting w))) /\
  (forall j, j ∈ jobs w -> class j = from_key (jkey j)).
Proof.
  intros Hc Hs. apply sched_steps_inv in Hs as []; [|by apply world_new_inv].
  repeat split; try done; [by apply inv_dom0..|]. intros j Hj.
  rewrite list.Forall_forall in inv_jobs0. by apply inv_jobs0.
Qed.

Lemma any_eligible_queue w j :
  sched_inv w -> Z.of_nat (length (waiting w)) <= U64_MAX ->
  j ∈ queue (inner w) -> under_cap (inner w) j = true -> any_eligible (inner w) = true.
Proof.
  intros I Hb Hin Hu. apply any_eligible_spec. exists (class j). unfold under_cap in Hu.
  apply Z.ltb_lt in Hu. split; [|done]. rewrite (inv_class_queued _ I).
  pose proof (class_count_le (class j) (waiting w)). rewrite as_u64_id by (unfold is_u64; lia).
  apply class_count_elem. exists j. split; [|done]. unfold waiting. set_solver.
Qed.

(** Among the queued jobs under their cap the best, or the head when there is none. *)
Definition selects (s : Inner) (j : QueuedJob) : Prop :=
  best_under_cap s (queue s) j \/
  (Forall (fun j' => under_cap s j' = false) (queue s) /\
   forall j', j' ∈ queue s -> ole (pop_key j) (pop_key j')).

Lemma dispatch_some_selects w g j s' :
  sched_inv w -> Z.of_nat (length (waiting w)) <= U64_MAX -> dispatch_round (inner w) g = (Some j, s') ->
  selects (inner w) j.
Proof.
  intros I Hb Hd. pose proof (inv_heap _ I) as Hh.
  unfold selects, dispatch_round in *. destruct (_ <=? _); [done|].
  destruct (queue (inner w)) as [|h rest] eqn:Hqu; [done|].
  destruct (match g with Some (c, _) => c | None => false end); [done|]. destruct (_ && _); [done|].
  destruct (under_cap (inner w) h) eqn:Hu.
  { injection Hd as <-. left. split; [done|]. intros j' ? _. by eapply heap_ok_head. }
  destruct (any_eligible (inner w)) eqn:Hel; cbn [negb] in Hd.
  - destruct (walk (inner w) (h :: rest) []) as [[[c|] sk] below] eqn:Hw; [|done]. injection Hd as -> _.
    apply walk_spec in Hw as (pre & -> & Hpre & E & Hc). left. rewrite E in *. by apply split_best.
  - injection Hd as <- _. right. split; [|intros j' ?; by eapply heap_ok_head].
    apply list.Forall_forall. intros j' Hj'. destruct (under_cap (inner w) j') eqn:Hu'; [|done].
    rewrite <- Hqu in Hj'. by rewrite (any_eligible_queue w j' I Hb Hj' Hu') in Hel.
Qed.

Lemma dispatch_none_reason w s' :
  sched_inv w -> Z.of_nat (length (waiting w)) <= U64_MAX -> dispatch_round (inner w) None = (None, s') ->
  active_cap (inner w) <= in_flight (counters (inner w)) \/ queue (inner w) = [] \/
  (Forall (fun j' => under_cap (inner w) j' = false) (queue (inner w)) /\
   exists j', j' ∈ pushing w /\ under_cap (inner w) j' = true).
Proof.
  intros I Hb Hd. unfold dispatch_round in Hd.
  destruct (Z.leb_spec (active_cap (inner w)) (in_flight (counters (inner w)))); [by left|].
  right. destruct (queue (inner w)) as [|h rest] eqn:Hqu; [by left|]. right. cbn [andb] in Hd.
  destruct (under_cap (inner w) h) eqn:Hu; [done|].
  destruct (any_eligible (inner w)) eqn:Hel; cbn [negb] in Hd; [|done].
  destruct (walk (inner w) (h :: rest) []) as [[[c|] sk] below] eqn:Hw; [done|].
  apply walk_spec in Hw as (pre & _ & Hpre & Epre & _). rewrite Epre. split; [done|].
  apply any_eligible_spec in Hel as (c & Hc & Hcap). rewrite (inv_class_queued _ I) in Hc.
  pose proof (class_count_le c (waiting w)). rewrite as_u64_id in Hc by (unfold is_u64; lia).
  apply class_count_elem in Hc as (j' & Hj' & <-). exists j'.
  assert (Hj : under_cap (inner w) j' = true) by (by apply Z.ltb_lt). split; [|done].
  unfold waiting in Hj'. apply elem_of_app in Hj' as [?|Hj']; [done|].
  rewrite Hqu, Epre in Hj'. rewrite list.Forall_forall in Hpre. rewrite (Hpre _ Hj') in Hj. done.
Qed.

(** The job a round starts is waiting in the queue, and it is the one with
    the highest priority, then the oldest, among the queued jobs whose class
    is under its cap; when no queued job is under its cap it is the head of
    the queue, so a free slot is never left idle; a round that starts nothing
    with no gauge wired has no slot left, no job queued, or only capped jobs
    while a class with a free slot has a job on its way to the queue. *)
Theorem dispatch_selects_best w g r s' :
  sched_inv w -> Z.of_nat (length (waiting w)) <= U64_MAX -> dispatch_round (inner w) g = (r, s') ->
  match r with
  | Some j =>
      j ∈ queue (inner w) /\ queue (inner w) ≡ₚ j :: queue s' /\
      in_flight (counters (inner w)) < active_cap (inner w) /\
      selects (inner w) j
  | None =>
      g = None ->
      active_cap (inner w) <= in_flight (counters (inner w)) \/ queue (inner w) = [] \/
      (Forall (fun j' => under_cap (inner w) j' = false) (queue (inner w)) /\
       exists j', j' ∈ pushing w /\ under_cap (inner w) j' = true)
  end.
Proof.
  intros I Hb Hd. destruct r as [j|]; [|intros ->; by eapply dispatch_none_reason].
  pose proof Hd as (q & -> & Hq & _ & Hact)%dispatch_started. cbn.
  split; [rewrite Hq; set_solver|]. split; [done|]. split; [done|]. by eapply dispatch_some_selects.
Qed.

(** ** Draining *)

(** What is left to do of a job, by where it stands. *)
Definition remaining (w : World) : Z :=
  sum_Z (map (fun j => max_attempts j + 3) (pushing w)) +
  sum_Z (map (fun j => max_attempts j + 2) (queue (inner w))) +
  sum_Z (map (fun j => max_attempts j + 1) (option_list (holding w))) +
  sum_Z (map (fun ja => max_attempts ja.1 - ja.2) (running w)).

Lemma remaining_nonneg w : sched_inv w -> 0 <= remaining w.
Proof.
  intros I. pose proof (inv_jobs _ I) as Hj. unfold jobs, waiting, started in Hj.
  rewrite !Forall_app in Hj. destruct Hj as [[Hp Hq] [Hh _]].
  assert (Hsum : forall l n, 0 <= n -> Forall job_ok l -> 0 <= sum_Z (map (fun j => max_attempts j + n) l)).
  { intros l n Hn Hl. apply sum_Z_nonneg, Forall_map. revert Hl. apply Forall_impl. intros j [_ ?]. lia. }
  assert (0 <= sum_Z (map (fun ja => max_attempts ja.1 - ja.2) (running w))).
  { apply sum_Z_nonneg, Forall_map. generalize (inv_attempts _ I). apply Forall_impl. intros [j a]; cbn. lia. }
  unfold remaining. pose proof (Hsum _ 3 ltac:(lia) Hp). pose proof (Hsum _ 2 ltac:(lia) Hq).
  pose proof (Hsum _ 1 ltac:(lia) Hh). lia.
Qed.

Lemma sum_Z_map_perm {A} (f : A -> Z) l k : l ≡ₚ k -> sum_Z (map f l) = sum_Z (map f k).
Proof. intros E. apply sum_Z_perm. by rewrite E. Qed.

Lemma work_decreases w w' : sched_inv w -> work w w' -> remaining w' < remaining w.
Proof.
  intros I [pre j post s' Hp ->|g j s' Hh Hd|j now Hh Hr|pre j a post o ms r s' Hr Ha]; unfold remaining; cbn.
  - rewrite (sum_Z_map_perm _ _ _ (heap_push_perm _ _)), Hp, !map_app, !sum_Z_app. unfold sum_Z; cbn; lia.
  - apply dispatch_started in Hd as (q & -> & Hq & _). cbn.
    rewrite Hh, (sum_Z_map_perm _ _ _ Hq). unfold sum_Z; cbn; lia.
  - rewrite Hh, map_app, sum_Z_app. unfold sum_Z; cbn; lia.
  - pose proof (inv_attempts _ I) as Hat. rewrite Hr in Hat.
    apply Forall_app in Hat as [_ [[? ?] _]%list.Forall_cons]. cbn in *.
    assert (Hq : queue s' = queue (inner w)).
    { unfold attempt_step in Ha. destruct o; [injection Ha as _ <-; done| |injection Ha as _ <-; done].
      destruct (_ <=? _); injection Ha as _ <-; done. }
    rewrite Hq, Hr. destruct r; rewrite !map_app, !sum_Z_app; unfold sum_Z; cbn; lia.
Qed.

(** While a job is reserved, queued or running, some task can move it on. *)
Lemma work_enabled w : sched_inv w -> jobs w <> [] -> exists w', work w w'.
Proof.
  intros I Hj. destruct (running w) as [|[j a] run] eqn:Hr.
  2:{ eexists. eapply (work_attempt w [] j a run JobPanic 0); [done|reflexivity]. }
  destruct (holding w) as [j|] eqn:Hh.
  { eexists. apply (work_start w j 0 Hh). rewrite Hr. pose proof (inv_conc _ I). cbn. lia. }
  destruct (pushing w) as [|j p] eqn:Hp; [|eexists; by apply (work_push w [] j p)].
  assert (Hs : started w = []) by (unfold started; by rewrite Hh, Hr).
  pose proof (inv_in_flight _ I) as Hif. pose proof (inv_active _ I). rewrite Hs in Hif. cbn in Hif.
  unfold jobs, waiting in Hj. rewrite Hp, Hs in Hj.
  destruct (queue (inner w)) as [|h rest] eqn:Hq; [done|].
  eexists. eapply (work_dispatch w None h _ Hh). unfold dispatch_round.
  destruct (Z.leb_spec (active_cap (inner w)) (in_flight (counters (inner w)))); [lia|]. rewrite Hq.
  cbn [andb]. replace (under_cap (inner w) h) with true; [done|]. symmetry. apply Z.ltb_lt.
  rewrite (inv_class_inflight _ I), Hs. pose proof (inv_caps _ I (class h)).
  change (class_count (class h) []) with 0. lia.
Qed.

Lemma rtc_work_inv w w' : rtc work w w' -> sched_inv w -> sched_inv w'.
Proof. induction 1; eauto using work_inv. Qed.

Lemma work_run_bound w w' n : sched_inv w -> nsteps work n w w' -> Z.of_nat n + remaining w' <= remaining w.
Proof.
  intros I Hn. revert I. induction Hn as [|n w w1 w' Hw Hn IH]; intros I; [lia|].
  pose proof (work_decreases _ _ I Hw). specialize (IH (work_inv _ _ Hw I)). lia.
Qed.

(** Once submissions stop, the coordinator drains: whatever its jobs
    return, a run of pushes, dispatches, starts and attempts from a reachable
    world has at most [remaining] moves, and a run that cannot go on has
    finished every job, freed every key and returned every slot. *)
Theorem scheduler_drains conc w :
  conc <= MAX_PERMITS -> steps (world_new conc) w ->
  (forall n w', nsteps work n w w' -> Z.of_nat n <= remaining w) /\
  (forall w', rtc work w w' -> (forall w'', ~ work w' w'') ->
    jobs w' = [] /\ inflight (inner w') = ∅ /\ in_flight (counters (inner w')) = 0 /\
    forall c, class_inflight (inner w') c = 0).
Proof.
  intros Hc Hs. assert (I : sched_inv w) by (apply (sched_steps_inv _ _ Hs), world_new_inv, Hc). split.
  - intros n w' Hn. pose proof (work_run_bound _ _ _ I Hn).
    apply rtc_nsteps_2, rtc_work_inv, remaining_nonneg in Hn; [lia|done].
  - intros w' Hw Hstop. pose proof (rtc_work_inv _ _ Hw I) as I'.
    assert (Hj : jobs w' = []).
    { destruct (decide (jobs w' = [])) as [|Hne]; [done|]. destruct (work_enabled _ I' Hne) as [w'' Hw'']. by apply Hstop in Hw''. }
    assert (Hst : started w' = []) by (unfold jobs in Hj; by apply app_nil in Hj as [_ ?]).
    split; [done|]. split; [|split; [by rewrite (inv_in_flight _ I'), Hst|]].
    + apply map_eq. intros k. rewrite lookup_empty. apply eq_None_not_Some. intros Hk%(inv_dom _ I').
      rewrite Hj in Hk. by apply not_elem_of_nil in Hk.
    + intros c. by rewrite (inv_class_inflight _ I'), Hst.
Qed.

(** ** Runs *)

(** A submission and its push; a dispatch with no gauge and the start of its job. *)
Lemma steps_submit w0 w k p n j s' :
  steps w0 w -> 0 <= n <= U32_MAX -> pushing w = [] -> submit_reserve (inner w) k p n = (Some j, s') ->
  steps w0 (mk_world (submit_push s' j) [] (holding w) (running w)).
Proof.
  intros Hs Hn Hp E. eapply steps_step; [eapply steps_step; [exact Hs|by eapply step_submit]|].
  apply step_work. rewrite Hp. by eapply (work_push (mk_world _ _ _ _) []).
Qed.

Lemma steps_run w0 w j s' :
  steps w0 w -> holding w = None -> dispatch_round (inner w) None = (Some j, s') ->
  Z.of_nat (length (running w)) < concurrency s' ->
  steps w0 (mk_world (job_started s' j 0) (pushing w) None (running w ++ [(j, 0)])).
Proof.
  intros Hs Hh E Hr. eapply steps_step; [eapply steps_step; [exact Hs|]|];
    apply step_work; [by eapply work_dispatch|by eapply (work_start (mk_world _ _ _ _))].
Qed.

(** A schedule with its moves in sequence, to run on concrete inputs. *)
Inductive Op := OpSubmit (k : string) (p : Priority) (n : Z) | OpRun | OpClassCap (c : JobClass) (n : Z).

Definition run_op (w : World) (o : Op) : option World :=
  match o with
  | OpSubmit k p n =>
      match pushing w, submit_reserve (inner w) k p n with
      | [], (Some j, s') => Some (mk_world (submit_push s' j) [] (holding w) (running w))
      | _, _ => None
      end
  | OpRun =>
      match holding w, dispatch_round (inner w) None with
      | None, (Some j, s') =>
          if Z.of_nat (length (running w)) <? concurrency s'
          then Some (mk_world (job_started s' j 0) (pushing w) None (running w ++ [(j, 0)])) else None
      | _, _ => None
      end
  | OpClassCap c n => Some (mk_world (set_class_cap (inner w) c n) (pushing w) (holding w) (running w))
  end.

Definition op_ok (o : Op) : Prop :=
  match o with OpSubmit _ _ n => 0 <= n <= U32_MAX | OpRun => True | OpClassCap _ n => 0 <= n end.

Fixpoint run_ops (w : World) (l : list Op) : option World :=
  match l with [] => Some w | o :: l' => match run_op w o with Some w' => run_ops w' l' | None => None end end.

Lemma run_ops_steps w0 w l w' : Forall op_ok l -> steps w0 w -> run_ops w l = Some w' -> steps w0 w'.
Proof.
  intros Hf. revert w. induction Hf as [|o l Ho Hf IH]; intros w Hs; cbn; [by intros [= <-]|].
  destruct (run_op w o) as [v|] eqn:Hr; [|done]. apply IH. destruct o; cbn in Hr.
  - destruct (pushing w) eqn:Hp; [|done]. destruct (submit_reserve _ _ _ _) as [[j|] s'] eqn:He; [|done].
    injection Hr as <-. by eapply steps_submit.
  - destruct (holding w) eqn:Hh; [done|]. destruct (dispatch_round _ _) as [[j|] s'] eqn:He; [|done].
    destruct (Z.ltb_spec (Z.of_nat (length (running w))) (concurrency s')); [|done].
    injection Hr as <-. by eapply steps_run.
  - injection Hr as <-. eapply steps_step; [done|]. by apply step_class_cap.
Qed.

(** The end of a schedule, with the job the next round starts under gauge [g]. *)
Lemma run_ops_dispatch conc l g j n :
  Forall op_ok l ->
  (match run_ops (world_new conc) l with
   | Some w => (length (jobs w), fst (dispatch_round (inner w) g)) | None => (n, None) end) = (n, Some j) ->
  exists w s', steps (world_new conc) w /\ length (jobs w) = n /\ dispatch_round (inner w) g = (Some j, s').
Proof.
  intros Hl. destruct (run_ops (world_new conc) l) as [w|] eqn:Hr; [|done]. intros [= Hn Hj].
  exists w, (snd (dispatch_round (inner w) g)).
  split; [by eapply run_ops_steps; [|apply steps_refl|]|]. split; [done|]. by rewrite <- Hj, <- surjective_pairing.
Qed.

(** A scan and then a repair queued, one slot. *)
Lemma demo_queued : exists w s', steps (world_new 1) w /\ length (jobs w) = 2%nat /\
  dispatch_round (inner w) None = (Some (mk_job PRepair Repair 1 "repair:b" 2), s').
Proof.
  apply (run_ops_dispatch 1 [OpSubmit "scan:a" PHealthScan 3; OpSubmit "repair:b" PRepair 2]);
    [by repeat constructor|vm_compute; reflexivity].
Qed.

Lemma scheduler_single_flight_witness :
  exists w, steps (world_new 1) w /\ length (jobs w) = 2%nat /\ NoDup (map jkey (jobs w)).
Proof.
  destruct demo_queued as (w & s' & Hs & Hl & _). exists w. split; [done|]. split; [done|].
  apply (scheduler_single_flight 1 w); [done|exact Hs].
Defined.

Lemma dispatch_selects_best_witness :
  exists w s', sched_inv w /\ length (jobs w) = 2%nat /\
    dispatch_round (inner w) None = (Some (mk_job PRepair Repair 1 "repair:b" 2), s') /\
    selects (inner w) (mk_job PRepair Repair 1 "repair:b" 2).
Proof.
  destruct demo_queued as (w & s' & Hs & Hl & Hd). exists w, s'.
  assert (I : sched_inv w) by (apply (sched_steps_inv _ _ Hs), world_new_inv; done).
  split; [done|]. split; [done|]. split; [done|].
  apply (dispatch_selects_best w None (Some _) s' I); [|exact Hd].
  unfold jobs in Hl. rewrite length_app in Hl. unfold U64_MAX. lia.
Defined.

Lemma scheduler_drains_witness :
  exists w, steps (world_new 1) w /\ length (jobs w) = 2%nat /\
    forall n w', nsteps work n w w' -> Z.of_nat n <= remaining w.
Proof.
  destruct demo_queued as (w & s' & Hs & Hl & _). exists w. split; [done|]. split; [done|].
  apply (scheduler_drains 1 w); [done|exact Hs].
Defined.

(** Above the HIGH mark a routine job still starts when a repair heads the
    queue and the repair class is at its cap: two repairs run under the
    node's cap of two, a third and a scan wait, and the round starts the scan. *)
Example high_pressure_starts_scan :
  exists w s', steps (world_new 8) w /\ length (jobs w) = 4%nat /\
    dispatch_round (inner w) (Some (false, true)) = (Some (mk_job PHealthScan Scan 3 "scan:d" 1), s').
Proof.
  apply (run_ops_dispatch 8 [OpClassCap Repair 2; OpSubmit "repair:a" PRepair 1; OpRun;
    OpSubmit "repair:b" PRepair 1; OpRun; OpSubmit "repair:c" PRepair 1; OpSubmit "scan:d" PHealthScan 1]);
    [by repeat constructor|vm_compute; reflexivity].
Qed.
