(* ===== verification/Wire.v ===== *)
(** The wire protocol ([crates/wire/src/lib.rs]): every message type, the
    17-byte frame header with its big-endian integers, encoding, decoding with
    each of its errors, and the clock-skew policy.

    The payload of a frame is postcard's encoding of the message body, an
    instance of [Postcard] per body type; [WireCodec] collects them.  A
    constructor [M_x] is the variant [Message::x]; a field carries its
    struct's prefix. *)

From S2P Require Import Prelude Crypto Hlc.

Open Scope Z_scope.

Definition VERSION : Z := 1.
Definition HEADER_LEN : nat := 17.
Definition MAX_MESSAGE_SIZE : Z := 4194304.

(** [mod tag]. *)
Module tag.
Definition PING : Z := 1.
Definition PONG : Z := 2.
Definition JOIN : Z := 256.
Definition FORWARD_JOIN : Z := 257.
Definition NEIGHBOR : Z := 258.
Definition NEIGHBOR_REPLY : Z := 259.
Definition DISCONNECT : Z := 260.
Definition SHUFFLE : Z := 261.
Definition SHUFFLE_REPLY : Z := 262.
Definition MEMBER_SYNC : Z := 263.
Definition DIGEST : Z := 266.
Definition PING_REQ : Z := 264.
Definition PING_REQ_ACK : Z := 265.
Definition PIECE_PUSH : Z := 18.
Definition PIECE_PUSH_ACK : Z := 19.
Definition OFFER : Z := 20.
Definition GRANT : Z := 21.
Definition PIECE_REQUEST : Z := 16.
Definition PIECE_RESPONSE : Z := 17.
Definition TRACKER_ANNOUNCE : Z := 512.
Definition TRACKER_ANNOUNCE_ACK : Z := 513.
Definition TRACKER_RESOLVE : Z := 514.
Definition TRACKER_RESOLVE_REPLY : Z := 515.
Definition TRACKER_WITHDRAW : Z := 516.
Definition AVAILABILITY_PROBE : Z := 65.
Definition AVAILABILITY_ACK : Z := 66.
Definition RELEASE_SYSTEM : Z := 67.

(** Every tag above. *)
Definition all : list Z :=
  [PING; PONG; JOIN; FORWARD_JOIN; NEIGHBOR; NEIGHBOR_REPLY; DISCONNECT; SHUFFLE; SHUFFLE_REPLY; MEMBER_SYNC; DIGEST; PING_REQ; PING_REQ_ACK; PIECE_PUSH; PIECE_PUSH_ACK; OFFER; GRANT; PIECE_REQUEST; PIECE_RESPONSE; TRACKER_ANNOUNCE; TRACKER_ANNOUNCE_ACK; TRACKER_RESOLVE; TRACKER_RESOLVE_REPLY; TRACKER_WITHDRAW; AVAILABILITY_PROBE; AVAILABILITY_ACK; RELEASE_SYSTEM].
End tag.

(** ** Message bodies *)

Record SignedRecord := mk_SignedRecord { sr_kind : Z; sr_node_id : key; sr_payload : bytes; sr_hlc_ts : Z; sr_signature : bytes }.
Record TrackerAck := mk_TrackerAck { ta_ok : bool; ta_reason : string }.
Record TrackerResolve := mk_TrackerResolve { tr_query_kind : Z; tr_cid : key; tr_max : Z }.
Record TrackerResolveReply := mk_TrackerResolveReply { trr_records : list SignedRecord }.
Record PeerInfo := mk_PeerInfo { pi_addr : string }.
Record Ping := mk_Ping { ping_nonce : key }.
Record Pong := mk_Pong { pong_nonce : key }.
Record WirePiece := mk_WirePiece { wp_coding_vector : bytes; wp_data : bytes }.
Record PiecePush := mk_PiecePush { pp_cid : key; pp_k : Z; pp_piece_len : Z; pp_total_len : Z; pp_vtags : bytes; pp_piece : WirePiece; pp_system : bool; pp_class : Z }.
Record PiecePushAck := mk_PiecePushAck { ppa_ok : bool; ppa_reason : string }.
Record Offer := mk_Offer { offer_class : Z; offer_cid : key; offer_items : Z; offer_bytes : Z }.
Record Grant := mk_Grant { grant_accept : Z; grant_retry_after_ms : Z }.
Record PieceRequest := mk_PieceRequest { preq_cid : key; preq_exclude : list key; preq_max_pieces : Z }.
Record PieceResponse := mk_PieceResponse { presp_found : bool; presp_k : Z; presp_piece_len : Z; presp_total_len : Z; presp_vtags : bytes; presp_pieces : list WirePiece }.
Record Join := mk_Join { join_origin : PeerInfo }.
Record ForwardJoin := mk_ForwardJoin { fj_origin : PeerInfo; fj_ttl : Z }.
Record Neighbor := mk_Neighbor { nb_origin : PeerInfo; nb_high_priority : bool }.
Record NeighborReply := mk_NeighborReply { nbr_accepted : bool }.
Record MemberEntry := mk_MemberEntry { me_id : key; me_addr : string; me_last_heard_ms : Z; me_incarnation : Z; me_state : Z }.
Record Shuffle := mk_Shuffle { sh_origin : PeerInfo; sh_sample : list PeerInfo; sh_members : list MemberEntry }.
Record ShuffleReply := mk_ShuffleReply { shr_sample : list PeerInfo; shr_members : list MemberEntry }.
Record MemberSync := mk_MemberSync { ms_members : list MemberEntry }.
Record Digest := mk_Digest { dg_hash : key }.
Record PingReq := mk_PingReq { pr_target_id : key; pr_target_addr : string }.
Record PingReqAck := mk_PingReqAck { pra_target_id : key; pra_alive : bool }.
Record AvailabilityProbe := mk_AvailabilityProbe { ap_cid : key }.
Record AvailabilityAck := mk_AvailabilityAck { aa_has : bool; aa_piece_count : Z; aa_pinned : bool }.
Record ReleaseSystem := mk_ReleaseSystem { rs_cid : key }.

Inductive Message :=
| M_Ping (p : Ping)
| M_Pong (p : Pong)
| M_Join (p : Join)
| M_ForwardJoin (p : ForwardJoin)
| M_Neighbor (p : Neighbor)
| M_NeighborReply (p : NeighborReply)
| M_Disconnect
| M_Shuffle (p : Shuffle)
| M_ShuffleReply (p : ShuffleReply)
| M_MemberSync (p : MemberSync)
| M_Digest (p : Digest)
| M_PingReq (p : PingReq)
| M_PingReqAck (p : PingReqAck)
| M_PiecePush (p : PiecePush)
| M_PiecePushAck (p : PiecePushAck)
| M_Offer (p : Offer)
| M_Grant (p : Grant)
| M_PieceRequest (p : PieceRequest)
| M_PieceResponse (p : PieceResponse)
| M_TrackerAnnounce (p : SignedRecord)
| M_TrackerAnnounceAck (p : TrackerAck)
| M_TrackerResolve (p : TrackerResolve)
| M_TrackerResolveReply (p : TrackerResolveReply)
| M_TrackerWithdraw (p : SignedRecord)
| M_AvailabilityProbe (p : AvailabilityProbe)
| M_AvailabilityAck (p : AvailabilityAck)
| M_ReleaseSystem (p : ReleaseSystem).

Definition type_tag (m : Message) : Z :=
  match m with
  | M_Ping _ => tag.PING
  | M_Pong _ => tag.PONG
  | M_Join _ => tag.JOIN
  | M_ForwardJoin _ => tag.FORWARD_JOIN
  | M_Neighbor _ => tag.NEIGHBOR
  | M_NeighborReply _ => tag.NEIGHBOR_REPLY
  | M_Disconnect => tag.DISCONNECT
  | M_Shuffle _ => tag.SHUFFLE
  | M_ShuffleReply _ => tag.SHUFFLE_REPLY
  | M_MemberSync _ => tag.MEMBER_SYNC
  | M_Digest _ => tag.DIGEST
  | M_PingReq _ => tag.PING_REQ
  | M_PingReqAck _ => tag.PING_REQ_ACK
  | M_PiecePush _ => tag.PIECE_PUSH
  | M_PiecePushAck _ => tag.PIECE_PUSH_ACK
  | M_Offer _ => tag.OFFER
  | M_Grant _ => tag.GRANT
  | M_PieceRequest _ => tag.PIECE_REQUEST
  | M_PieceResponse _ => tag.PIECE_RESPONSE
  | M_TrackerAnnounce _ => tag.TRACKER_ANNOUNCE
  | M_TrackerAnnounceAck _ => tag.TRACKER_ANNOUNCE_ACK
  | M_TrackerResolve _ => tag.TRACKER_RESOLVE
  | M_TrackerResolveReply _ => tag.TRACKER_RESOLVE_REPLY
  | M_TrackerWithdraw _ => tag.TRACKER_WITHDRAW
  | M_AvailabilityProbe _ => tag.AVAILABILITY_PROBE
  | M_AvailabilityAck _ => tag.AVAILABILITY_ACK
  | M_ReleaseSystem _ => tag.RELEASE_SYSTEM
  end.

Record Frame := mk_frame { fr_version : Z; fr_hlc_ts : Z; fr_message : Message }.

(** [Malformed] without its text, which is postcard's. *)
Inductive WireError :=
| TooShort (n : Z)
| BadVersion (v : Z)
| LengthMismatch (declared actual : Z)
| TooLarge (n : Z)
| UnknownType (t : Z)
| Malformed (t : Z).

(** postcard on every body type. *)
Class WireCodec := {
  wc_Ping :: Postcard Ping;
  wc_Pong :: Postcard Pong;
  wc_Join :: Postcard Join;
  wc_ForwardJoin :: Postcard ForwardJoin;
  wc_Neighbor :: Postcard Neighbor;
  wc_NeighborReply :: Postcard NeighborReply;
  wc_Shuffle :: Postcard Shuffle;
  wc_ShuffleReply :: Postcard ShuffleReply;
  wc_MemberSync :: Postcard MemberSync;
  wc_Digest :: Postcard Digest;
  wc_PingReq :: Postcard PingReq;
  wc_PingReqAck :: Postcard PingReqAck;
  wc_PiecePush :: Postcard PiecePush;
  wc_PiecePushAck :: Postcard PiecePushAck;
  wc_Offer :: Postcard Offer;
  wc_Grant :: Postcard Grant;
  wc_PieceRequest :: Postcard PieceRequest;
  wc_PieceResponse :: Postcard PieceResponse;
  wc_SignedRecord :: Postcard SignedRecord;
  wc_TrackerAck :: Postcard TrackerAck;
  wc_TrackerResolve :: Postcard TrackerResolve;
  wc_TrackerResolveReply :: Postcard TrackerResolveReply;
  wc_AvailabilityProbe :: Postcard AvailabilityProbe;
  wc_AvailabilityAck :: Postcard AvailabilityAck;
  wc_ReleaseSystem :: Postcard ReleaseSystem
}.

Class WireCodecLaws `{WireCodec} := {
  wcl_Ping :: PostcardLaws Ping;
  wcl_Pong :: PostcardLaws Pong;
  wcl_Join :: PostcardLaws Join;
  wcl_ForwardJoin :: PostcardLaws ForwardJoin;
  wcl_Neighbor :: PostcardLaws Neighbor;
  wcl_NeighborReply :: PostcardLaws NeighborReply;
  wcl_Shuffle :: PostcardLaws Shuffle;
  wcl_ShuffleReply :: PostcardLaws ShuffleReply;
  wcl_MemberSync :: PostcardLaws MemberSync;
  wcl_Digest :: PostcardLaws Digest;
  wcl_PingReq :: PostcardLaws PingReq;
  wcl_PingReqAck :: PostcardLaws PingReqAck;
  wcl_PiecePush :: PostcardLaws PiecePush;
  wcl_PiecePushAck :: PostcardLaws PiecePushAck;
  wcl_Offer :: PostcardLaws Offer;
  wcl_Grant :: PostcardLaws Grant;
  wcl_PieceRequest :: PostcardLaws PieceRequest;
  wcl_PieceResponse :: PostcardLaws PieceResponse;
  wcl_SignedRecord :: PostcardLaws SignedRecord;
  wcl_TrackerAck :: PostcardLaws TrackerAck;
  wcl_TrackerResolve :: PostcardLaws TrackerResolve;
  wcl_TrackerResolveReply :: PostcardLaws TrackerResolveReply;
  wcl_AvailabilityProbe :: PostcardLaws AvailabilityProbe;
  wcl_AvailabilityAck :: PostcardLaws AvailabilityAck;
  wcl_ReleaseSystem :: PostcardLaws ReleaseSystem
}.

(** [u32::from_be_bytes], [u64::from_be_bytes]. *)
Definition from_be (l : bytes) : Z := foldl (fun a b => a * 256 + b) 0 l.

(** ** Frames *)

Section frames.
Context `{WireCodec}.

Definition encode_payload (m : Message) : bytes :=
  match m with
  | M_Ping p => to_allocvec p
  | M_Pong p => to_allocvec p
  | M_Join p => to_allocvec p
  | M_ForwardJoin p => to_allocvec p
  | M_Neighbor p => to_allocvec p
  | M_NeighborReply p => to_allocvec p
  | M_Disconnect => []
  | M_Shuffle p => to_allocvec p
  | M_ShuffleReply p => to_allocvec p
  | M_MemberSync p => to_allocvec p
  | M_Digest p => to_allocvec p
  | M_PingReq p => to_allocvec p
  | M_PingReqAck p => to_allocvec p
  | M_PiecePush p => to_allocvec p
  | M_PiecePushAck p => to_allocvec p
  | M_Offer p => to_allocvec p
  | M_Grant p => to_allocvec p
  | M_PieceRequest p => to_allocvec p
  | M_PieceResponse p => to_allocvec p
  | M_TrackerAnnounce p => to_allocvec p
  | M_TrackerAnnounceAck p => to_allocvec p
  | M_TrackerResolve p => to_allocvec p
  | M_TrackerResolveReply p => to_allocvec p
  | M_TrackerWithdraw p => to_allocvec p
  | M_AvailabilityProbe p => to_allocvec p
  | M_AvailabilityAck p => to_allocvec p
  | M_ReleaseSystem p => to_allocvec p
  end.

(** [debug_assertions] tells a build with [debug_assert!] checked, in which a
    frame over the maximum panics: [None]. *)
Definition encode (debug_assertions : bool) (m : Message) (hlc_ts : Z) : option bytes :=
  let payload := encode_payload m in
  if debug_assertions && (MAX_MESSAGE_SIZE <? Z.of_nat (HEADER_LEN + length payload)) then None
  else Some (be_bytes 4 (type_tag m) ++ [VERSION] ++ be_bytes 8 hlc_ts ++
             be_bytes 4 (as_u32 (Z.of_nat (length payload))) ++ payload).

(** [postcard::from_bytes(payload).map_err(malformed)?]. *)
Definition body {A} `{Postcard A} (con : A -> Message) (t : Z) (payload : bytes) : result Message WireError :=
  match from_bytes payload with Some p => Ok (con p) | None => Err (Malformed t) end.

Definition decode_payload (t : Z) (payload : bytes) : result Message WireError :=
  if t =? tag.PING then body M_Ping t payload
  else if t =? tag.PONG then body M_Pong t payload
  else if t =? tag.JOIN then body M_Join t payload
  else if t =? tag.FORWARD_JOIN then body M_ForwardJoin t payload
  else if t =? tag.NEIGHBOR then body M_Neighbor t payload
  else if t =? tag.NEIGHBOR_REPLY then body M_NeighborReply t payload
  else if t =? tag.DISCONNECT then Ok M_Disconnect
  else if t =? tag.SHUFFLE then body M_Shuffle t payload
  else if t =? tag.SHUFFLE_REPLY then body M_ShuffleReply t payload
  else if t =? tag.MEMBER_SYNC then body M_MemberSync t payload
  else if t =? tag.DIGEST then body M_Digest t payload
  else if t =? tag.PING_REQ then body M_PingReq t payload
  else if t =? tag.PING_REQ_ACK then body M_PingReqAck t payload
  else if t =? tag.PIECE_PUSH then body M_PiecePush t payload
  else if t =? tag.PIECE_PUSH_ACK then body M_PiecePushAck t payload
  else if t =? tag.OFFER then body M_Offer t payload
  else if t =? tag.GRANT then body M_Grant t payload
  else if t =? tag.PIECE_REQUEST then body M_PieceRequest t payload
  else if t =? tag.PIECE_RESPONSE then body M_PieceResponse t payload
  else if t =? tag.TRACKER_ANNOUNCE then body M_TrackerAnnounce t payload
  else if t =? tag.TRACKER_ANNOUNCE_ACK then body M_TrackerAnnounceAck t payload
  else if t =? tag.TRACKER_RESOLVE then body M_TrackerResolve t payload
  else if t =? tag.TRACKER_RESOLVE_REPLY then body M_TrackerResolveReply t payload
  else if t =? tag.TRACKER_WITHDRAW then body M_TrackerWithdraw t payload
  else if t =? tag.AVAILABILITY_PROBE then body M_AvailabilityProbe t payload
  else if t =? tag.AVAILABILITY_ACK then body M_AvailabilityAck t payload
  else if t =? tag.RELEASE_SYSTEM then body M_ReleaseSystem t payload
  else Err (UnknownType t).

Definition slice (a b : nat) (l : bytes) : bytes := take (b - a) (drop a l).

Definition decode (b : bytes) : result Frame WireError :=
  if MAX_MESSAGE_SIZE <? Z.of_nat (length b) then Err (TooLarge (Z.of_nat (length b)))
  else if (length b <? HEADER_LEN)%nat then Err (TooShort (Z.of_nat (length b)))
  else
    let t := from_be (slice 0 4 b) in
    let version := nth 4 b 0 in
    if negb (version =? VERSION) then Err (BadVersion version)
    else
      let hlc_ts := from_be (slice 5 13 b) in
      let declared := from_be (slice 13 17 b) in
      let payload := drop HEADER_LEN b in
      if negb (declared =? Z.of_nat (length payload))
      then Err (LengthMismatch declared (Z.of_nat (length payload)))
      else
        match decode_payload t payload with
        | Ok m => Ok (mk_frame version hlc_ts m)
        | Err e => Err e
        end.

(** [p] is the payload of a frame that carries [m]. *)
Definition payload_of (m : Message) (p : bytes) : Prop :=
  match m with
  | M_Ping x => from_bytes p = Some x
  | M_Pong x => from_bytes p = Some x
  | M_Join x => from_bytes p = Some x
  | M_ForwardJoin x => from_bytes p = Some x
  | M_Neighbor x => from_bytes p = Some x
  | M_NeighborReply x => from_bytes p = Some x
  | M_Disconnect => True
  | M_Shuffle x => from_bytes p = Some x
  | M_ShuffleReply x => from_bytes p = Some x
  | M_MemberSync x => from_bytes p = Some x
  | M_Digest x => from_bytes p = Some x
  | M_PingReq x => from_bytes p = Some x
  | M_PingReqAck x => from_bytes p = Some x
  | M_PiecePush x => from_bytes p = Some x
  | M_PiecePushAck x => from_bytes p = Some x
  | M_Offer x => from_bytes p = Some x
  | M_Grant x => from_bytes p = Some x
  | M_PieceRequest x => from_bytes p = Some x
  | M_PieceResponse x => from_bytes p = Some x
  | M_TrackerAnnounce x => from_bytes p = Some x
  | M_TrackerAnnounceAck x => from_bytes p = Some x
  | M_TrackerResolve x => from_bytes p = Some x
  | M_TrackerResolveReply x => from_bytes p = Some x
  | M_TrackerWithdraw x => from_bytes p = Some x
  | M_AvailabilityProbe x => from_bytes p = Some x
  | M_AvailabilityAck x => from_bytes p = Some x
  | M_ReleaseSystem x => from_bytes p = Some x
  end.
End frames.

(** ** Clock skew *)

Inductive Skew := SkewOk | WarnAccept (skew_ms : Z) | Reject (skew_ms : Z).

Definition check_skew (local_hlc remote_hlc : Z) (strict : bool) : Skew :=
  let local_ms := Z.shiftr local_hlc 16 in
  let remote_ms := Z.shiftr remote_hlc 16 in
  let skew_ms := Z.abs (local_ms - remote_ms) in
  if skew_ms <=? MAX_SKEW_MS then SkewOk
  else if strict then Reject skew_ms else WarnAccept skew_ms.

(** A concrete codec for the evaluations: a body by its fields. *)
#[local] Instance SignedRecord_eq_dec : EqDecision SignedRecord.
Proof. solve_decision. Defined.
#[local] Instance SignedRecord_countable : Countable SignedRecord.
Proof.
  refine (inj_countable' (fun r => (sr_kind r, sr_node_id r, sr_payload r, sr_hlc_ts r, sr_signature r)) (fun q => let '(a0, a1, a2, a3, a4) := q in mk_SignedRecord a0 a1 a2 a3 a4) _).
  by intros [].
Defined.
#[local] Instance TrackerAck_eq_dec : EqDecision TrackerAck.
Proof. solve_decision. Defined.
#[local] Instance TrackerAck_countable : Countable TrackerAck.
Proof.
  refine (inj_countable' (fun r => (ta_ok r, ta_reason r)) (fun q => let '(a0, a1) := q in mk_TrackerAck a0 a1) _).
  by intros [].
Defined.
#[local] Instance TrackerResolve_eq_dec : EqDecision TrackerResolve.
Proof. solve_decision. Defined.
#[local] Instance TrackerResolve_countable : Countable TrackerResolve.
Proof.
  refine (inj_countable' (fun r => (tr_query_kind r, tr_cid r, tr_max r)) (fun q => let '(a0, a1, a2) := q in mk_TrackerResolve a0 a1 a2) _).
  by intros [].
Defined.
#[local] Instance TrackerResolveReply_eq_dec : EqDecision TrackerResolveReply.
Proof. solve_decision. Defined.
#[local] Instance TrackerResolveReply_countable : Countable TrackerResolveReply.
Proof.
  refine (inj_countable' (fun r => trr_records r) (fun a0 => mk_TrackerResolveReply a0) _).
  by intros [].
Defined.
#[local] Instance PeerInfo_eq_dec : EqDecision PeerInfo.
Proof. solve_decision. Defined.
#[local] Instance PeerInfo_countable : Countable PeerInfo.
Proof.
  refine (inj_countable' (fun r => pi_addr r) (fun a0 => mk_PeerInfo a0) _).
  by intros [].
Defined.
#[local] Instance Ping_eq_dec : EqDecision Ping.
Proof. solve_decision. Defined.
#[local] Instance Ping_countable : Countable Ping.
Proof.
  refine (inj_countable' (fun r => ping_nonce r) (fun a0 => mk_Ping a0) _).
  by intros [].
Defined.
#[local] Instance Pong_eq_dec : EqDecision Pong.
Proof. solve_decision. Defined.
#[local] Instance Pong_countable : Countable Pong.
Proof.
  refine (inj_countable' (fun r => pong_nonce r) (fun a0 => mk_Pong a0) _).
  by intros [].
Defined.
#[local] Instance WirePiece_eq_dec : EqDecision WirePiece.
Proof. solve_decision. Defined.
#[local] Instance WirePiece_countable : Countable WirePiece.
Proof.
  refine (inj_countable' (fun r => (wp_coding_vector r, wp_data r)) (fun q => let '(a0, a1) := q in mk_WirePiece a0 a1) _).
  by intros [].
Defined.
#[local] Instance PiecePush_eq_dec : EqDecision PiecePush.
Proof. solve_decision. Defined.
#[local] Instance PiecePush_countable : Countable PiecePush.
Proof.
  refine (inj_countable' (fun r => (pp_cid r, pp_k r, pp_piece_len r, pp_total_len r, pp_vtags r, pp_piece r, pp_system r, pp_class r)) (fun q => let '(a0, a1, a2, a3, a4, a5, a6, a7) := q in mk_PiecePush a0 a1 a2 a3 a4 a5 a6 a7) _).
  by intros [].
Defined.
#[local] Instance PiecePushAck_eq_dec : EqDecision PiecePushAck.
Proof. solve_decision. Defined.
#[local] Instance PiecePushAck_countable : Countable PiecePushAck.
Proof.
  refine (inj_countable' (fun r => (ppa_ok r, ppa_reason r)) (fun q => let '(a0, a1) := q in mk_PiecePushAck a0 a1) _).
  by intros [].
Defined.
#[local] Instance Offer_eq_dec : EqDecision Offer.
Proof. solve_decision. Defined.
#[local] Instance Offer_countable : Countable Offer.
Proof.
  refine (inj_countable' (fun r => (offer_class r, offer_cid r, offer_items r, offer_bytes r)) (fun q => let '(a0, a1, a2, a3) := q in mk_Offer a0 a1 a2 a3) _).
  by intros [].
Defined.
#[local] Instance Grant_eq_dec : EqDecision Grant.
Proof. solve_decision. Defined.
#[local] Instance Grant_countable : Countable Grant.
Proof.
  refine (inj_countable' (fun r => (grant_accept r, grant_retry_after_ms r)) (fun q => let '(a0, a1) := q in mk_Grant a0 a1) _).
  by intros [].
Defined.
#[local] Instance PieceRequest_eq_dec : EqDecision PieceRequest.
Proof. solve_decision. Defined.
#[local] Instance PieceRequest_countable : Countable PieceRequest.
Proof.
  refine (inj_countable' (fun r => (preq_cid r, preq_exclude r, preq_max_pieces r)) (fun q => let '(a0, a1, a2) := q in mk_PieceRequest a0 a1 a2) _).
  by intros [].
Defined.
#[local] Instance PieceResponse_eq_dec : EqDecision PieceResponse.
Proof. solve_decision. Defined.
#[local] Instance PieceResponse_countable : Countable PieceResponse.
Proof.
  refine (inj_countable' (fun r => (presp_found r, presp_k r, presp_piece_len r, presp_total_len r, presp_vtags r, presp_pieces r)) (fun q => let '(a0, a1, a2, a3, a4, a5) := q in mk_PieceResponse a0 a1 a2 a3 a4 a5) _).
  by intros [].
Defined.
#[local] Instance Join_eq_dec : EqDecision Join.
Proof. solve_decision. Defined.
#[local] Instance Join_countable : Countable Join.
Proof.
  refine (inj_countable' (fun r => join_origin r) (fun a0 => mk_Join a0) _).
  by intros [].
Defined.
#[local] Instance ForwardJoin_eq_dec : EqDecision ForwardJoin.
Proof. solve_decision. Defined.
#[local] Instance ForwardJoin_countable : Countable ForwardJoin.
Proof.
  refine (inj_countable' (fun r => (fj_origin r, fj_ttl r)) (fun q => let '(a0, a1) := q in mk_ForwardJoin a0 a1) _).
  by intros [].
Defined.
#[local] Instance Neighbor_eq_dec : EqDecision Neighbor.
Proof. solve_decision. Defined.
#[local] Instance Neighbor_countable : Countable Neighbor.
Proof.
  refine (inj_countable' (fun r => (nb_origin r, nb_high_priority r)) (fun q => let '(a0, a1) := q in mk_Neighbor a0 a1) _).
  by intros [].
Defined.
#[local] Instance NeighborReply_eq_dec : EqDecision NeighborReply.
Proof. solve_decision. Defined.
#[local] Instance NeighborReply_countable : Countable NeighborReply.
Proof.
  refine (inj_countable' (fun r => nbr_accepted r) (fun a0 => mk_NeighborReply a0) _).
  by intros [].
Defined.
#[local] Instance MemberEntry_eq_dec : EqDecision MemberEntry.
Proof. solve_decision. Defined.
#[local] Instance MemberEntry_countable : Countable MemberEntry.
Proof.
  refine (inj_countable' (fun r => (me_id r, me_addr r, me_last_heard_ms r, me_incarnation r, me_state r)) (fun q => let '(a0, a1, a2, a3, a4) := q in mk_MemberEntry a0 a1 a2 a3 a4) _).
  by intros [].
Defined.
#[local] Instance Shuffle_eq_dec : EqDecision Shuffle.
Proof. solve_decision. Defined.
#[local] Instance Shuffle_countable : Countable Shuffle.
Proof.
  refine (inj_countable' (fun r => (sh_origin r, sh_sample r, sh_members r)) (fun q => let '(a0, a1, a2) := q in mk_Shuffle a0 a1 a2) _).
  by intros [].
Defined.
#[local] Instance ShuffleReply_eq_dec : EqDecision ShuffleReply.
Proof. solve_decision. Defined.
#[local] Instance ShuffleReply_countable : Countable ShuffleReply.
Proof.
  refine (inj_countable' (fun r => (shr_sample r, shr_members r)) (fun q => let '(a0, a1) := q in mk_ShuffleReply a0 a1) _).
  by intros [].
Defined.
#[local] Instance MemberSync_eq_dec : EqDecision MemberSync.
Proof. solve_decision. Defined.
#[local] Instance MemberSync_countable : Countable MemberSync.
Proof.
  refine (inj_countable' (fun r => ms_members r) (fun a0 => mk_MemberSync a0) _).
  by intros [].
Defined.
#[local] Instance Digest_eq_dec : EqDecision Digest.
Proof. solve_decision. Defined.
#[local] Instance Digest_countable : Countable Digest.
Proof.
  refine (inj_countable' (fun r => dg_hash r) (fun a0 => mk_Digest a0) _).
  by intros [].
Defined.
#[local] Instance PingReq_eq_dec : EqDecision PingReq.
Proof. solve_decision. Defined.
#[local] Instance PingReq_countable : Countable PingReq.
Proof.
  refine (inj_countable' (fun r => (pr_target_id r, pr_target_addr r)) (fun q => let '(a0, a1) := q in mk_PingReq a0 a1) _).
  by intros [].
Defined.
#[local] Instance PingReqAck_eq_dec : EqDecision PingReqAck.
Proof. solve_decision. Defined.
#[local] Instance PingReqAck_countable : Countable PingReqAck.
Proof.
  refine (inj_countable' (fun r => (pra_target_id r, pra_alive r)) (fun q => let '(a0, a1) := q in mk_PingReqAck a0 a1) _).
  by intros [].
Defined.
#[local] Instance AvailabilityProbe_eq_dec : EqDecision AvailabilityProbe.
Proof. solve_decision. Defined.
#[local] Instance AvailabilityProbe_countable : Countable AvailabilityProbe.
Proof.
  refine (inj_countable' (fun r => ap_cid r) (fun a0 => mk_AvailabilityProbe a0) _).
  by intros [].
Defined.
#[local] Instance AvailabilityAck_eq_dec : EqDecision AvailabilityAck.
Proof. solve_decision. Defined.
#[local] Instance AvailabilityAck_countable : Countable AvailabilityAck.
Proof.
  refine (inj_countable' (fun r => (aa_has r, aa_piece_count r, aa_pinned r)) (fun q => let '(a0, a1, a2) := q in mk_AvailabilityAck a0 a1 a2) _).
  by intros [].
Defined.
#[local] Instance ReleaseSystem_eq_dec : EqDecision ReleaseSystem.
Proof. solve_decision. Defined.
#[local] Instance ReleaseSystem_countable : Countable ReleaseSystem.
Proof.
  refine (inj_countable' (fun r => rs_cid r) (fun a0 => mk_ReleaseSystem a0) _).
  by intros [].
Defined.

Definition toy_wire_codec : WireCodec := {|
  wc_Ping := countable_codec;
  wc_Pong := countable_codec;
  wc_Join := countable_codec;
  wc_ForwardJoin := countable_codec;
  wc_Neighbor := countable_codec;
  wc_NeighborReply := countable_codec;
  wc_Shuffle := countable_codec;
  wc_ShuffleReply := countable_codec;
  wc_MemberSync := countable_codec;
  wc_Digest := countable_codec;
  wc_PingReq := countable_codec;
  wc_PingReqAck := countable_codec;
  wc_PiecePush := countable_codec;
  wc_PiecePushAck := countable_codec;
  wc_Offer := countable_codec;
  wc_Grant := countable_codec;
  wc_PieceRequest := countable_codec;
  wc_PieceResponse := countable_codec;
  wc_SignedRecord := countable_codec;
  wc_TrackerAck := countable_codec;
  wc_TrackerResolve := countable_codec;
  wc_TrackerResolveReply := countable_codec;
  wc_AvailabilityProbe := countable_codec;
  wc_AvailabilityAck := countable_codec;
  wc_ReleaseSystem := countable_codec
|}.

Lemma toy_wire_codec_laws : @WireCodecLaws toy_wire_codec.
Proof. split; apply countable_codec_laws. Qed.

(** ** Big-endian integers *)

Lemma from_be_app l k : from_be (l ++ k) = from_be l * 256 ^ Z.of_nat (length k) + from_be k.
Proof.
  unfold from_be. rewrite foldl_app. generalize (foldl (fun a b => a * 256 + b) 0 l) as a.
  assert (G : forall k a, foldl (fun a b => a * 256 + b) a k
    = a * 256 ^ Z.of_nat (length k) + foldl (fun a b => a * 256 + b) 0 k).
  { clear. induction k as [|b k IH]; intros a; cbn [foldl length]; [lia|].
    rewrite (IH (a * 256 + b)), (IH (0 * 256 + b)), Nat2Z.inj_succ, Z.pow_succ_r by lia. lia. }
  intros a. apply G.
Qed.

Lemma from_be_be n x : 0 <= x < 256 ^ Z.of_nat n -> from_be (be_bytes n x) = x.
Proof.
  unfold be_bytes. revert x. induction n as [|n IH]; intros x Hx; cbn [le_bytes rev]; [cbn in *; lia|].
  rewrite Nat2Z.inj_succ, Z.pow_succ_r in Hx by lia. rewrite from_be_app, IH.
  - change (from_be [x mod 256]) with (0 * 256 + x mod 256). cbn [length].
    change (256 ^ Z.of_nat 1) with 256. rewrite (Z.div_mod x 256) at 3 by lia. lia.
  - split; [apply Z.div_pos; lia|]. apply Z.div_lt_upper_bound; lia.
Qed.

Lemma from_be_snoc l b : from_be (l ++ [b]) = from_be l * 256 + b.
Proof. unfold from_be. by rewrite foldl_app. Qed.

Lemma be_from_be l : is_bytes l -> be_bytes (length l) (from_be l) = l.
Proof.
  unfold is_bytes, be_bytes. induction l as [|b l IH] using rev_ind; [done|].
  rewrite Forall_app, list.Forall_singleton. intros [Hl Hb]. rewrite length_app, Nat.add_1_r, from_be_snoc.
  cbn [le_bytes rev]. unfold is_u8, U8_MAX in Hb.
  replace ((from_be l * 256 + b) mod 256) with b by (rewrite Z.add_comm, Z_mod_plus_full, Z.mod_small; lia).
  replace ((from_be l * 256 + b) / 256) with (from_be l); [by rewrite IH|].
  rewrite Z.add_comm, Z_div_plus_full, Z.div_small by lia. lia.
Qed.

Lemma be_from_be_n n l : is_bytes l -> length l = n -> be_bytes n (from_be l) = l.
Proof. intros Hl <-. by apply be_from_be. Qed.

Lemma from_be_range l : is_bytes l -> 0 <= from_be l < 256 ^ Z.of_nat (length l).
Proof.
  unfold is_bytes. induction l as [|b l IH] using rev_ind; [done|].
  rewrite Forall_app, list.Forall_singleton. intros [Hl Hb]. specialize (IH Hl).
  rewrite length_app, Nat.add_1_r, Nat2Z.inj_succ, Z.pow_succ_r, from_be_snoc by lia.
  unfold is_u8, U8_MAX in Hb. lia.
Qed.

(** ** Frames *)

Section frame_lemmas.
Context `{WireCodec}.

Lemma type_tag_u32 m : 0 <= type_tag m < 256 ^ Z.of_nat 4.
Proof. destruct m; by vm_compute. Qed.

Lemma decode_payload_ok t p m : decode_payload t p = Ok m <-> type_tag m = t /\ payload_of m p.
Proof.
  split.
  - unfold decode_payload, body. repeat case_match; intros [= <-]; split; try done;
      symmetry; by apply Z.eqb_eq.
  - intros [<- Hp]. destruct m; cbn in *; unfold body; by rewrite ?Hp.
Qed.

Lemma type_tag_known m : type_tag m ∈ tag.all.
Proof. destruct m; apply (bool_decide_unpack _); by vm_compute. Qed.

Lemma decode_payload_unknown t p : t ∉ tag.all -> decode_payload t p = Err (UnknownType t).
Proof.
  unfold tag.all. rewrite !not_elem_of_cons. intros Hn. unfold decode_payload.
  repeat (destruct Hn as [Hne Hn]; rewrite (proj2 (Z.eqb_neq _ _) Hne); clear Hne). done.
Qed.

Lemma decode_payload_known t p :
  t ∈ tag.all -> decode_payload t p = Err (Malformed t) \/ exists m, decode_payload t p = Ok m.
Proof.
  intros Ht. assert (Hb : forall A (PA : Postcard A) (con : A -> Message),
    body con t p = Err (Malformed t) \/ exists m, body con t p = Ok m).
  { intros. unfold body. destruct (from_bytes p); eauto. }
  unfold tag.all in Ht. rewrite !elem_of_cons in Ht.
  repeat destruct Ht as [->|Ht]; try apply Hb; [right; by eexists|]. by apply not_elem_of_nil in Ht.
Qed.

Lemma decode_payload_err t p e :
  decode_payload t p = Err e <->
  (e = UnknownType t /\ t ∉ tag.all) \/
  (e = Malformed t /\ t ∈ tag.all /\ forall m, type_tag m = t -> ~ payload_of m p).
Proof.
  destruct (decide (t ∈ tag.all)) as [Hin|Hin]; [|rewrite decode_payload_unknown by done; naive_solver].
  destruct (decode_payload_known t p Hin) as [He|[m He]]; rewrite He.
  - split; [|naive_solver]. intros [= <-]. right. split; [done|]. split; [done|]. intros m Ht Hp.
    assert (decode_payload t p = Ok m) by (by apply decode_payload_ok). congruence.
  - split; [done|]. apply decode_payload_ok in He. naive_solver.
Qed.

(** A frame by its five parts. *)
Definition frame_bytes (t4 : bytes) (v : Z) (h8 l4 p : bytes) : bytes := t4 ++ [v] ++ h8 ++ l4 ++ p.

Lemma frame_bytes_length t4 v h8 l4 p :
  length t4 = 4%nat -> length h8 = 8%nat -> length l4 = 4%nat ->
  length (frame_bytes t4 v h8 l4 p) = (17 + length p)%nat.
Proof. intros H4 H8 Hl. unfold frame_bytes. rewrite !length_app, H4, H8, Hl. cbn. lia. Qed.

Lemma frame_split b :
  (HEADER_LEN <= length b)%nat ->
  b = frame_bytes (slice 0 4 b) (nth 4 b 0) (slice 5 13 b) (slice 13 17 b) (drop HEADER_LEN b).
Proof. unfold HEADER_LEN. intros Hl. do 17 (destruct b as [|? b]; [cbn in Hl; lia|]). reflexivity. Qed.

Lemma slice_length a c (b : bytes) : (a <= c <= length b)%nat -> length (slice a c b) = (c - a)%nat.
Proof. intros. unfold slice. rewrite length_take, length_drop. lia. Qed.

Lemma slice_bytes a c (b : bytes) : is_bytes b -> is_bytes (slice a c b).
Proof. intros. unfold slice. by apply Forall_take, Forall_drop. Qed.

Lemma decode_parts t4 v h8 l4 p :
  length t4 = 4%nat -> length h8 = 8%nat -> length l4 = 4%nat -> 17 + Z.of_nat (length p) <= MAX_MESSAGE_SIZE ->
  decode (frame_bytes t4 v h8 l4 p) =
    if negb (v =? VERSION) then Err (BadVersion v)
    else if negb (from_be l4 =? Z.of_nat (length p)) then Err (LengthMismatch (from_be l4) (Z.of_nat (length p)))
    else match decode_payload (from_be t4) p with Ok m => Ok (mk_frame v (from_be h8) m) | Err e => Err e end.
Proof.
  intros H4 H8 Hl Hmax. pose proof (frame_bytes_length t4 v h8 l4 p H4 H8 Hl) as Hlen.
  assert (Hs : slice 0 4 (frame_bytes t4 v h8 l4 p) = t4 /\ nth 4 (frame_bytes t4 v h8 l4 p) 0 = v /\
    slice 5 13 (frame_bytes t4 v h8 l4 p) = h8 /\ slice 13 17 (frame_bytes t4 v h8 l4 p) = l4 /\
    drop HEADER_LEN (frame_bytes t4 v h8 l4 p) = p).
  { do 4 (destruct t4 as [|? t4]; [done|]). destruct t4; [|done].
    do 8 (destruct h8 as [|? h8]; [done|]). destruct h8; [|done].
    do 4 (destruct l4 as [|? l4]; [done|]). destruct l4; [|done]. done. }
  destruct Hs as (E1 & E2 & E3 & E4 & E5). unfold decode. rewrite Hlen, E1, E2, E3, E4, E5.
  destruct (Z.ltb_spec MAX_MESSAGE_SIZE (Z.of_nat (17 + length p))); [lia|]. done.
Qed.

Lemma payload_of_encode `{!WireCodecLaws} m : payload_of m (encode_payload m).
Proof. destruct m; cbn; try apply postcard_roundtrip. done. Qed.

(** C37: A message whose frame fits [MAX_MESSAGE_SIZE] is encoded by every
    build, and decoding its frame gives back its timestamp and the message
    itself.  A message whose frame does not fit panics in a build with debug
    assertions; without them it is encoded, and decoding the frame answers
    [TooLarge] with its exact size. *)
Theorem frames_round_trip `{!WireCodecLaws} (debug_assertions : bool) m ts :
  is_u64 ts ->
  let n := 17 + Z.of_nat (length (encode_payload m)) in
  (n <= MAX_MESSAGE_SIZE -> exists b, encode debug_assertions m ts = Some b /\ decode b = Ok (mk_frame VERSION ts m)) /\
  (MAX_MESSAGE_SIZE < n ->
   if debug_assertions then encode debug_assertions m ts = None
   else exists b, encode debug_assertions m ts = Some b /\ decode b = Err (TooLarge n)).
Proof.
  intros Hts n. unfold encode. set (b := be_bytes 4 (type_tag m) ++ _).
  change b with (frame_bytes (be_bytes 4 (type_tag m)) VERSION (be_bytes 8 ts)
    (be_bytes 4 (as_u32 (Z.of_nat (length (encode_payload m))))) (encode_payload m)).
  assert (En : Z.of_nat (HEADER_LEN + length (encode_payload m)) = n) by (unfold HEADER_LEN; lia). rewrite En. split; intros Hs.
  - destruct (Z.ltb_spec MAX_MESSAGE_SIZE n); [lia|]. rewrite andb_false_r. eexists. split; [done|].
    rewrite decode_parts by (rewrite ?be_bytes_length; done).
    unfold as_u32. rewrite Z.mod_small by (unfold MAX_MESSAGE_SIZE in Hs; lia).
    rewrite !from_be_be; [|unfold is_u64, U64_MAX in Hts; lia|apply type_tag_u32|unfold MAX_MESSAGE_SIZE in Hs; lia].
    rewrite !Z.eqb_refl. cbn [negb]. rewrite (proj2 (decode_payload_ok _ _ m)); [done|].
    split; [done|apply payload_of_encode].
  - destruct (Z.ltb_spec MAX_MESSAGE_SIZE n); [|lia]. destruct debug_assertions; cbn [andb]; [done|]. eexists. split; [done|].
    unfold decode. rewrite frame_bytes_length by apply be_bytes_length.
    destruct (Z.ltb_spec MAX_MESSAGE_SIZE (Z.of_nat (17 + length (encode_payload m)))); [|lia].
    do 2 f_equal. lia.
Qed.

(** The four integers of a frame's header, its version byte and its payload. *)
Definition frame_of (b : bytes) (t v ts declared : Z) (p : bytes) : Prop :=
  b = frame_bytes (be_bytes 4 t) v (be_bytes 8 ts) (be_bytes 4 declared) p /\
  is_u64 ts /\ 17 + Z.of_nat (length p) <= MAX_MESSAGE_SIZE.

(** C40: What [decode] answers on every byte string, in the order of its
    checks: a frame is accepted exactly when it is the big-endian header of a
    known tag, version 1, a timestamp and the true payload length, followed by
    a payload of the message; each error names the first check that fails. *)
Theorem decode_classifies b :
  is_bytes b ->
  match decode b with
  | Ok f => exists p, frame_of b (type_tag (fr_message f)) VERSION (fr_hlc_ts f) (Z.of_nat (length p)) p /\
      fr_version f = VERSION /\ payload_of (fr_message f) p
  | Err (TooLarge n) => n = Z.of_nat (length b) /\ MAX_MESSAGE_SIZE < n
  | Err (TooShort n) => n = Z.of_nat (length b) /\ n < 17
  | Err (BadVersion v) => exists t ts d p, frame_of b t v ts d p /\ v <> VERSION
  | Err (LengthMismatch d a) => exists t ts p, frame_of b t VERSION ts d p /\ a = Z.of_nat (length p) /\ d <> a
  | Err (UnknownType t) => exists ts p, frame_of b t VERSION ts (Z.of_nat (length p)) p /\ t ∉ tag.all
  | Err (Malformed t) => exists ts p, frame_of b t VERSION ts (Z.of_nat (length p)) p /\ t ∈ tag.all /\
      forall m, type_tag m = t -> ~ payload_of m p
  end.
Proof.
  intros Hb. destruct (Z.ltb_spec MAX_MESSAGE_SIZE (Z.of_nat (length b))) as [Hmax|Hmax].
  { unfold decode. by rewrite (proj2 (Z.ltb_lt _ _) Hmax). }
  destruct (Nat.ltb_spec (length b) HEADER_LEN) as [Hlen|Hlen].
  { unfold decode. rewrite (proj2 (Z.ltb_ge _ _) Hmax), (proj2 (Nat.ltb_lt _ _) Hlen).
    unfold HEADER_LEN in Hlen. lia. }
  unfold HEADER_LEN in Hlen.
  set (t4 := slice 0 4 b). set (h8 := slice 5 13 b). set (l4 := slice 13 17 b). set (p := drop HEADER_LEN b).
  assert (L4 : length t4 = 4%nat) by (apply slice_length; lia).
  assert (L8 : length h8 = 8%nat) by (apply slice_length; lia).
  assert (Ll : length l4 = 4%nat) by (apply slice_length; lia).
  assert (Hp : 17 + Z.of_nat (length p) <= MAX_MESSAGE_SIZE).
  { unfold p. rewrite length_drop. unfold HEADER_LEN. lia. }
  assert (Hf : frame_of b (from_be t4) (nth 4 b 0) (from_be h8) (from_be l4) p).
  { split; [|split; [|done]].
    - rewrite !be_from_be_n by (done || by apply slice_bytes). by apply frame_split.
    - pose proof (from_be_range h8 ltac:(by apply slice_bytes)) as Hr. rewrite L8 in Hr.
      unfold is_u64, U64_MAX. lia. }
  pose proof (decode_parts t4 (nth 4 b 0) h8 l4 p L4 L8 Ll Hp) as Hdec.
  pose proof (frame_split b Hlen) as Hb'. fold t4 h8 l4 p in Hb'. rewrite <- Hb' in Hdec.
  rewrite Hdec. clear Hdec Hb'.
  destruct (Z.eqb_spec (nth 4 b 0) VERSION) as [Ev|Ev]; cbn [negb]; [rewrite Ev in *|by eauto 10].
  destruct (Z.eqb_spec (from_be l4) (Z.of_nat (length p))) as [El|El]; cbn [negb]; [rewrite El in *|by eauto 10].
  destruct (decode_payload (from_be t4) p) as [m|e] eqn:Hd.
  - apply decode_payload_ok in Hd as [Ht Hm]. exists p. cbn. rewrite Ht. done.
  - apply decode_payload_err in Hd as [[-> Hn]|(-> & Hk & Hn)]; eauto 10.
Qed.
End frame_lemmas.

Lemma frames_round_trip_witness :
  is_u64 77 /\ exists b, @encode toy_wire_codec true (M_Grant (mk_Grant 3 40)) 77 = Some b /\
    @decode toy_wire_codec b = Ok (mk_frame VERSION 77 (M_Grant (mk_Grant 3 40))).
Proof.
  split; [done|]. apply (@frames_round_trip toy_wire_codec toy_wire_codec_laws true (M_Grant (mk_Grant 3 40)) 77); [done|].
  vm_compute. discriminate.
Defined.

Lemma decode_classifies_witness :
  is_bytes (be_bytes 4 9 ++ [1] ++ be_bytes 8 5 ++ be_bytes 4 0) /\
  exists ts p, frame_of (be_bytes 4 9 ++ [1] ++ be_bytes 8 5 ++ be_bytes 4 0) 9 VERSION ts (Z.of_nat (length p)) p /\
    9 ∉ tag.all.
Proof.
  assert (Hb : is_bytes (be_bytes 4 9 ++ [1] ++ be_bytes 8 5 ++ be_bytes 4 0)).
  { apply (bool_decide_unpack _). by vm_compute. }
  split; [exact Hb|]. exact (@decode_classifies toy_wire_codec _ Hb).
Defined.

(** Skew within the tolerance is accepted on every path; beyond it only a
    strict path rejects, and the reported skew is the distance in
    milliseconds. *)
Lemma check_skew_strict l r strict :
  check_skew l r strict = Reject (Z.abs (Z.shiftr l 16 - Z.shiftr r 16)) <->
  strict = true /\ MAX_SKEW_MS < Z.abs (Z.shiftr l 16 - Z.shiftr r 16).
Proof.
  unfold check_skew. destruct (Z.leb_spec (Z.abs (Z.shiftr l 16 - Z.shiftr r 16)) MAX_SKEW_MS).
  - split; [done|lia].
  - destruct strict; split; try done. by intros [? _].
Qed.
