(* ===== verification/Membership.v ===== *)
(** Membership ([crates/membership/src/lib.rs]): HyParView active and passive
    views, SWIM probing with suspicion and refutation, and the converged
    member map with its delta gossip, digests and censuses.

    What a method reads from outside (the clock, a random draw, a reply, the
    outcome of a ping, the node's own address) is a function of the class
    [Env], indexed by [tick], the number of such reads so far, so that no two
    reads need agree.  A method is a state transformer; the requests it makes
    are logged in [sent].  An address is a type of the class [Addrs] with its
    node id and its text form. *)

From S2P Require Import Prelude Crypto Wire.

Open Scope Z_scope.

(** [PeerAddr], an address of the iroh library. *)
Class Addrs := {
  PeerAddr : Type;
  PeerAddr_eq_dec :: EqDecision PeerAddr;
  addr_node_id : PeerAddr -> key;
  addr_to_string : PeerAddr -> string;
  addr_parse : string -> option PeerAddr
}.

(** The outside of one node. *)
Class Env `{Addrs} := {
  now_at : nat -> Z;
  draw_at : nat -> nat;
  shuffle_at : forall {A : Type}, nat -> list A -> list A;
  own_addr_at : nat -> PeerAddr;
  request_at : nat -> PeerAddr -> Message -> option Message;
  oneway_at : nat -> PeerAddr -> Message -> bool;
  ping_at : nat -> PeerAddr -> option (Z * Z);
  rebind_at : nat -> bool
}.

(** A shuffle permutes. *)
Class EnvLaws `{Env} := {
  shuffle_perm : forall {A} n (l : list A), shuffle_at n l ≡ₚ l
}.

Record Config := mk_cfg {
  active_size : Z; passive_size : Z; arwl : Z; prwl : Z;
  probe_failures : Z; indirect_probes : nat; suspect_timeout : Z;
  shuffle_sample : nat; dead_retention : Z; wedge_rebind : Z
}.

Definition config_default : Config := mk_cfg 5 30 6 3 2 3 6000 8 600000 120000.

Definition RECOVER_INTERVAL_MS : Z := 15000.
Definition EPIDEMIC_DEBOUNCE_MS : Z := 1000.
Definition EPIDEMIC_FANOUT : nat := 3.
Definition GOSSIP_REPEATS : Z := 6.

Inductive MemberState := Alive | Suspect | Dead.

#[export] Instance MemberState_eq_dec : EqDecision MemberState.
Proof. solve_decision. Defined.

Definition rank (s : MemberState) : Z := match s with Alive => 0 | Suspect => 1 | Dead => 2 end.
Definition to_u8 (s : MemberState) : Z := rank s.
Definition from_u8 (v : Z) : MemberState := if v =? 1 then Suspect else if v =? 2 then Dead else Alive.

Section membership.
Context `{Env}.

Record PeerState := mk_peer {
  ps_addr : PeerAddr; ps_alive : bool; rtt_us : option Z; skew_ms : option Z;
  last_seen_unix : option Z; consecutive_failures : Z
}.

Definition peer_new (a : PeerAddr) : PeerState := mk_peer a false None None None 0.

Record Member := mk_member {
  m_addr : PeerAddr; last_heard_ms : Z; incarnation : Z; mstate : MemberState; suspect_since_ms : option Z
}.

Definition member_alive (a : PeerAddr) (last_heard : Z) : Member := mk_member a last_heard 0 Alive None.

Definition set_liveness (m : Member) (inc : Z) (st : MemberState) (now : Z) : Member :=
  mk_member (m_addr m) (last_heard_ms m) inc st
    (match st with
     | Suspect => Some (match suspect_since_ms m with Some t => t | None => now end)
     | _ => None
     end).

Definition with_heard (m : Member) (t : Z) : Member :=
  mk_member (m_addr m) t (incarnation m) (mstate m) (suspect_since_ms m).
Definition with_addr (m : Member) (a : PeerAddr) : Member :=
  mk_member a (last_heard_ms m) (incarnation m) (mstate m) (suspect_since_ms m).

Record Views := mk_views {
  active : gmap key PeerState;
  passive : list PeerAddr;
  dead : gmap key (PeerState * Z);
  members : gmap key Member;
  dirty : gmap key Z
}.

Definition set_active (v : Views) x := mk_views x (passive v) (dead v) (members v) (dirty v).
Definition set_passive (v : Views) x := mk_views (active v) x (dead v) (members v) (dirty v).
Definition set_dead (v : Views) x := mk_views (active v) (passive v) x (members v) (dirty v).
Definition set_members (v : Views) x := mk_views (active v) (passive v) (dead v) x (dirty v).
Definition set_dirty (v : Views) x := mk_views (active v) (passive v) (dead v) (members v) x.

Record Membership := mk_ms {
  cfg : Config;
  my_id : key;
  views : Views;
  bootstrap : list PeerAddr;
  last_recover_ms : Z;
  isolated_since_ms : Z;
  last_epidemic_ms : Z;
  self_incarnation : Z;
  tick : nat;
  sent : list (PeerAddr * Message);
  epidemic_notified : bool
}.

Definition membership_new (id : key) (c : Config) : Membership :=
  mk_ms c id (mk_views ∅ [] ∅ ∅ ∅) [] 0 0 0 0 0%nat [] false.

(** ** State transformers *)

Definition M (A : Type) : Type := Membership -> A * Membership.

#[global] Instance M_ret : MRet M := fun A a s => (a, s).
#[global] Instance M_bind : MBind M := fun A B k m s => let '(a, s') := m s in k a s'.

Definition skip : M unit := fun s => (tt, s).
Definition fresh : M nat := fun s =>
  (tick s, mk_ms (cfg s) (my_id s) (views s) (bootstrap s) (last_recover_ms s) (isolated_since_ms s)
     (last_epidemic_ms s) (self_incarnation s) (S (tick s)) (sent s) (epidemic_notified s)).
Definition get_views : M Views := fun s => (views s, s).
Definition get_cfg : M Config := fun s => (cfg s, s).
Definition get_id : M key := fun s => (my_id s, s).
Definition get_self_inc : M Z := fun s => (self_incarnation s, s).
Definition put_views (v : Views) : M unit := fun s =>
  (tt, mk_ms (cfg s) (my_id s) v (bootstrap s) (last_recover_ms s) (isolated_since_ms s)
     (last_epidemic_ms s) (self_incarnation s) (tick s) (sent s) (epidemic_notified s)).
Definition put_self_inc (n : Z) : M unit := fun s =>
  (tt, mk_ms (cfg s) (my_id s) (views s) (bootstrap s) (last_recover_ms s) (isolated_since_ms s)
     (last_epidemic_ms s) n (tick s) (sent s) (epidemic_notified s)).
Definition put_bootstrap (l : list PeerAddr) : M unit := fun s =>
  (tt, mk_ms (cfg s) (my_id s) (views s) l (last_recover_ms s) (isolated_since_ms s)
     (last_epidemic_ms s) (self_incarnation s) (tick s) (sent s) (epidemic_notified s)).
Definition put_last_recover (n : Z) : M unit := fun s =>
  (tt, mk_ms (cfg s) (my_id s) (views s) (bootstrap s) n (isolated_since_ms s)
     (last_epidemic_ms s) (self_incarnation s) (tick s) (sent s) (epidemic_notified s)).
Definition put_isolated (n : Z) : M unit := fun s =>
  (tt, mk_ms (cfg s) (my_id s) (views s) (bootstrap s) (last_recover_ms s) n
     (last_epidemic_ms s) (self_incarnation s) (tick s) (sent s) (epidemic_notified s)).
Definition fire_epidemic (now : Z) : M unit := fun s =>
  (tt, mk_ms (cfg s) (my_id s) (views s) (bootstrap s) (last_recover_ms s) (isolated_since_ms s)
     now (self_incarnation s) (tick s) (sent s) true).
Definition log_sent (a : PeerAddr) (m : Message) : M unit := fun s =>
  (tt, mk_ms (cfg s) (my_id s) (views s) (bootstrap s) (last_recover_ms s) (isolated_since_ms s)
     (last_epidemic_ms s) (self_incarnation s) (tick s) (sent s ++ [(a, m)]) (epidemic_notified s)).

Fixpoint for_each {A} (f : A -> M unit) (l : list A) : M unit :=
  match l with [] => skip | x :: l' => _ ← f x; for_each f l' end.

Definition now_ms : M Z := n ← fresh; mret (now_at n).
Definition transport_addr : M PeerAddr := n ← fresh; mret (own_addr_at n).
Definition shuffle {A} (l : list A) : M (list A) := n ← fresh; mret (shuffle_at n l).
Definition choose {A} (l : list A) : M (option A) :=
  n ← fresh; mret (match l with [] => None | _ => l !! (draw_at n mod length l)%nat end).
Definition ping (a : PeerAddr) : M (option (Z * Z)) := n ← fresh; mret (ping_at n a).

(** [request(.., true)] and [send_oneway]. *)
Definition request (a : PeerAddr) (m : Message) : M (option Message) :=
  n ← fresh; _ ← log_sent a m; mret (request_at n a m).
Definition send_oneway (a : PeerAddr) (m : Message) : M bool :=
  n ← fresh; _ ← log_sent a m; mret (oneway_at n a m).

Definition me_info : M PeerInfo := a ← transport_addr; mret (mk_PeerInfo (addr_to_string a)).

(** ** Views *)

(** [swap_remove(i)]: the last element takes the place of the removed one. *)
Definition swap_remove {A} (i : nat) (l : list A) : list A :=
  match l !! (length l - 1)%nat with
  | Some x => let front := take (length l - 1) l in if (i =? length l - 1)%nat then front else <[i := x]> front
  | None => l
  end.

(** [gen_range(0..0)] panics: the caller's [cap] must not be zero. *)
Definition push_passive (passive : list PeerAddr) (peer : PeerAddr) (cap : Z) (draw : nat) : list PeerAddr :=
  let id := addr_node_id peer in
  if existsb (fun p => bool_decide (addr_node_id p = id)) passive then passive
  else
    (if cap <=? Z.of_nat (length passive) then swap_remove (draw mod length passive) passive else passive)
    ++ [peer].

(** [views.dead.remove(&id); views.passive.retain(..)]. *)
Definition forget (id : key) (v : Views) : Views :=
  set_passive (set_dead v (delete id (dead v))) (filter (fun p => addr_node_id p <> id) (passive v)).

(** The part of [add_active] under the lock: the address evicted, if any. *)
Definition add_active_views (c : Config) (peer : PeerAddr) (d1 d2 : nat) (v : Views) : option PeerAddr * Views :=
  let id := addr_node_id peer in
  let v := forget id v in
  match active v !! id with
  | Some st =>
      (None, set_active v (<[id := mk_peer peer (ps_alive st) (rtt_us st) (skew_ms st)
        (last_seen_unix st) (consecutive_failures st)]> (active v)))
  | None =>
      let ids := map fst (map_to_list (active v)) in
      let '(evicted, v) :=
        if active_size c <=? Z.of_nat (size (active v)) then
          match (match ids with [] => None | _ => ids !! (d1 mod length ids)%nat end) with
          | Some victim =>
              match active v !! victim with
              | Some st =>
                  (Some (ps_addr st),
                   set_passive (set_active v (delete victim (active v)))
                     (push_passive (passive v) (ps_addr st) (passive_size c) d2))
              | None => (None, v)
              end
          | None => (None, v)
          end
        else (None, v) in
      (evicted, set_active v (<[id := peer_new peer]> (active v)))
  end.

Definition add_active (peer : PeerAddr) : M unit :=
  me ← get_id;
  if bool_decide (addr_node_id peer = me) then skip
  else
    c ← get_cfg; n1 ← fresh; n2 ← fresh; v ← get_views;
    let '(evicted, v') := add_active_views c peer (draw_at n1) (draw_at n2) v in
    _ ← put_views v';
    match evicted with
    | Some victim => _ ← send_oneway victim M_Disconnect; skip
    | None => skip
    end.

Definition add_passive (peer : PeerAddr) : M unit :=
  me ← get_id;
  if bool_decide (addr_node_id peer = me) then skip
  else
    c ← get_cfg; n ← fresh; v ← get_views;
    match active v !! addr_node_id peer with
    | Some _ => skip
    | None => put_views (set_passive v (push_passive (passive v) peer (passive_size c) (draw_at n)))
    end.

(** ** The member map *)

Definition member_entry (id : key) (m : Member) : MemberEntry :=
  mk_MemberEntry id (addr_to_string (m_addr m)) (last_heard_ms m) (incarnation m) (to_u8 (mstate m)).

Definition incoming_wins (existing : Member) (inc : Z) (st : MemberState) : bool :=
  (incarnation existing <? inc) || ((inc =? incarnation existing) && (rank (mstate existing) <? rank st)).

Definition merge_one (ms : gmap key Member) (e : MemberEntry) (now : Z) : bool * gmap key Member :=
  match addr_parse (me_addr e) with
  | None => (false, ms)
  | Some addr =>
      let in_state := from_u8 (me_state e) in
      match ms !! me_id e with
      | Some existing =>
          let wins := incoming_wins existing (me_incarnation e) in_state in
          let m := if wins then set_liveness existing (me_incarnation e) in_state now else existing in
          let m := if last_heard_ms m <? me_last_heard_ms e
                   then mk_member addr (me_last_heard_ms e) (incarnation m) (mstate m) (suspect_since_ms m)
                   else m in
          (wins, <[me_id e := m]> ms)
      | None =>
          (true, <[me_id e := mk_member addr (me_last_heard_ms e) (me_incarnation e) in_state
             (match in_state with Suspect => Some now | _ => None end)]> ms)
      end
  end.

Definition refresh_views (me : key) (addr : PeerAddr) (inc now : Z) (v : Views) : Views :=
  set_members v (<[me := mk_member addr now inc Alive None]> (members v)).

Definition refresh_self : M unit :=
  addr ← transport_addr; id ← get_id; inc ← get_self_inc; now ← now_ms; v ← get_views;
  put_views (refresh_views id addr inc now v).

Definition entries_of (v : Views) : list MemberEntry :=
  map (fun p => member_entry p.1 p.2) (map_to_list (members v)).

Definition member_entries : M (list MemberEntry) := v ← get_views; mret (entries_of v).

(** One entry about another node: the map, and the entry's id dirty when its
    liveness changed. *)
Definition merge_views (e : MemberEntry) (now : Z) (v : Views) : bool * Views :=
  let '(changed, ms) := merge_one (members v) e now in
  let v := set_members v ms in
  (changed, if changed then set_dirty v (<[me_id e := GOSSIP_REPEATS]> (dirty v)) else v).

(** The loop of [merge_members]; its result is [(refute, dirtied)]. *)
Fixpoint merge_loop (me : key) (es : list MemberEntry) (acc : bool * bool) : M (bool * bool) :=
  match es with
  | [] => mret acc
  | e :: es' =>
      if bool_decide (me_id e = me) then
        if bool_decide (from_u8 (me_state e) <> Alive) then
          inc ← get_self_inc;
          _ ← put_self_inc (sat_add (Z.max (me_incarnation e) inc) 1);
          merge_loop me es' (true, acc.2)
        else merge_loop me es' acc
      else
        now ← now_ms; v ← get_views;
        let '(changed, v') := merge_views e now v in
        _ ← put_views v';
        merge_loop me es' (acc.1, acc.2 || changed)
  end.

Definition dirty_views (id : key) (v : Views) : Views := set_dirty v (<[id := GOSSIP_REPEATS]> (dirty v)).

Definition mark_dirty (id : key) : M unit := v ← get_views; put_views (dirty_views id v).

Definition get_last_epidemic : M Z := fun s => (last_epidemic_ms s, s).

(** [merge_members] after its loop. *)
Definition merge_finish (me : key) (before : Views) (r : bool * bool) : M unit :=
  after ← get_views;
  let '(refute, dirtied) := r in
  _ ← (if refute : bool then _ ← refresh_self; mark_dirty me else skip);
  if (size (members before) <? size (members after))%nat || dirtied || refute then
    now ← now_ms; last ← get_last_epidemic;
    if EPIDEMIC_DEBOUNCE_MS <=? sat_sub now last then fire_epidemic now else skip
  else skip.

Definition merge_members (es : list MemberEntry) : M unit :=
  me ← get_id;
  before ← get_views;
  r ← merge_loop me es (false, false);
  merge_finish me before r.

Definition heard_views (id : key) (now : Z) (v : Views) : Views :=
  match members v !! id with
  | Some m => set_members v (<[id := with_heard m now]> (members v))
  | None =>
      match active v !! id with
      | Some st =>
          let v := set_members v (<[id := member_alive (ps_addr st) now]> (members v)) in
          set_dirty v (<[id := GOSSIP_REPEATS]> (dirty v))
      | None => v
      end
  end.

Definition note_heard (id : key) : M unit :=
  me ← get_id;
  if bool_decide (id = me) then skip
  else now ← now_ms; v ← get_views; put_views (heard_views id now v).

Definition prune_views (c : Config) (me : key) (now : Z) (v : Views) : Views :=
  set_members v
    (filter (fun p => p.1 = me \/ sat_sub now (last_heard_ms p.2) < dead_retention c) (members v)).

Definition prune_members : M unit :=
  now ← now_ms; c ← get_cfg; me ← get_id; v ← get_views; put_views (prune_views c me now v).

Definition census (now : Z) (own : PeerAddr) (s : Membership) : list (key * PeerAddr) :=
  (my_id s, own) ::
  omap (fun p : key * Member =>
    if bool_decide (p.1 = my_id s) then None
    else if bool_decide (mstate p.2 <> Dead) && (sat_sub now (last_heard_ms p.2) <? dead_retention (cfg s))
    then Some (p.1, m_addr p.2) else None)
    (map_to_list (members (views s))).

Definition liveness_census (now : Z) (own : PeerAddr) (s : Membership) : list (key * PeerAddr) :=
  (my_id s, own) ::
  omap (fun p : key * Member =>
    if bool_decide (p.1 = my_id s) || bool_decide (is_Some (dead (views s) !! p.1)) || bool_decide (mstate p.2 <> Alive)
    then None
    else if sat_sub now (last_heard_ms p.2) <? dead_retention (cfg s) then Some (p.1, m_addr p.2) else None)
    (map_to_list (members (views s))).

Definition member_addr (own : PeerAddr) (s : Membership) (id : key) : option PeerAddr :=
  if bool_decide (id = my_id s) then Some own else m_addr <$> members (views s) !! id.

(** ** Digest *)

Definition digest_rows (v : Views) : list (key * (Z * Z)) :=
  sort_by (le_on id)
    (map (fun p => (p.1, (incarnation p.2, to_u8 (mstate p.2))))
       (map_to_list (filter (fun p => mstate p.2 <> Dead) (members v)))).

Definition digest_bytes (v : Views) : bytes :=
  concat (map (fun r => r.1 ++ le_bytes 8 r.2.1 ++ [r.2.2]) (digest_rows v)).

Definition members_digest `{Blake3} (v : Views) : key := Cid_of (digest_bytes v).

(** One [MemberSync] exchange with a peer. *)
Definition sync_members_with (peer : PeerAddr) : M unit :=
  _ ← refresh_self; es ← member_entries;
  r ← request peer (M_MemberSync (mk_MemberSync es));
  match r with
  | Some (M_MemberSync sync) => merge_members (ms_members sync)
  | _ => skip
  end.

Definition active_addrs (v : Views) : list PeerAddr := map (fun p => ps_addr p.2) (map_to_list (active v)).

Definition digest_round `{Blake3} : M unit :=
  v ← get_views; peer ← choose (active_addrs v);
  match peer with
  | None => skip
  | Some peer =>
      v ← get_views;
      let my_hash := members_digest v in
      r ← request peer (M_Digest (mk_Digest my_hash));
      match r with
      | Some (M_Digest d) => if bool_decide (dg_hash d <> my_hash) then sync_members_with peer else skip
      | _ => skip
      end
  end.

(** Each retransmission counter less one, and the spent ones retired. *)
Definition retire (dirty : gmap key Z) : gmap key Z :=
  omap (fun c => let c' := sat_sub c 1 in if c' =? 0 then None else Some c') dirty.

Definition delta_entries (v : Views) : list MemberEntry :=
  omap (fun p : key * Z => member_entry p.1 <$> members v !! p.1) (map_to_list (dirty v)).

Definition epidemic_push : M bool :=
  _ ← refresh_self; v ← get_views;
  if bool_decide (dirty v = ∅) then mret false
  else
    let delta := delta_entries v in
    _ ← put_views (set_dirty v (retire (dirty v)));
    match delta with
    | [] => mret false
    | _ =>
        v ← get_views; targets ← shuffle (active_addrs v);
        _ ← for_each (fun peer => _ ← send_oneway peer (M_MemberSync (mk_MemberSync delta)); skip)
              (take EPIDEMIC_FANOUT targets);
        mret true
    end.

(** ** Liveness *)

(** The addresses [indirect_probe] chooses its helpers from. *)
Definition helper_addrs (me target : key) (v : Views) : list PeerAddr :=
  omap (fun p : key * Member =>
    if bool_decide (p.1 <> me /\ p.1 <> target /\ mstate p.2 = Alive) then Some (m_addr p.2) else None)
    (map_to_list (members v)).

Definition ack_alive (target : key) (r : option Message) : bool :=
  match r with Some (M_PingReqAck ack) => bool_decide (pra_target_id ack = target) && pra_alive ack | _ => false end.

Fixpoint ask_helpers (target : key) (m : Message) (hs : list PeerAddr) : M bool :=
  match hs with
  | [] => mret false
  | h :: hs' => r ← request h m; b ← ask_helpers target m hs'; mret (ack_alive target r || b)
  end.

Definition indirect_probe (target : key) (target_addr : PeerAddr) : M bool :=
  c ← get_cfg;
  if (indirect_probes c =? 0)%nat then mret false
  else
    me ← get_id; v ← get_views;
    match helper_addrs me target v with
    | [] => mret false
    | helpers =>
        helpers ← shuffle helpers;
        ask_helpers target (M_PingReq (mk_PingReq target (addr_to_string target_addr)))
          (take (indirect_probes c) helpers)
    end.

Definition suspect_views (id : key) (now : Z) (v : Views) : Views :=
  match members v !! id with
  | Some m =>
      if bool_decide (mstate m = Alive) then
        let v := set_members v (<[id := set_liveness m (incarnation m) Suspect now]> (members v)) in
        set_dirty v (<[id := GOSSIP_REPEATS]> (dirty v))
      else v
  | None => v
  end.

Definition suspect (id : key) : M unit :=
  now ← now_ms; v ← get_views; put_views (suspect_views id now v).

(** [mark_dead] under the lock: the passive candidate to promote. *)
Definition mark_dead_views (id : key) (now : Z) (v : Views) (shuffled : list PeerAddr) : option PeerAddr * Views :=
  let v := match members v !! id with
    | Some m =>
        let v := set_members v (<[id := set_liveness m (incarnation m) Dead now]> (members v)) in
        set_dirty v (<[id := GOSSIP_REPEATS]> (dirty v))
    | None => v
    end in
  match active v !! id with
  | Some st =>
      let v := set_active v (delete id (active v)) in
      let v := set_dead v (<[id := (mk_peer (ps_addr st) false (rtt_us st) (skew_ms st)
        (last_seen_unix st) (consecutive_failures st), now)]> (dead v)) in
      (shuffled !! (length shuffled - 1)%nat, set_passive v (take (length shuffled - 1) shuffled))
  | None => (None, v)
  end.

Definition try_promote (candidate : PeerAddr) : M bool :=
  v ← get_views; info ← me_info;
  r ← request candidate (M_Neighbor (mk_Neighbor info (bool_decide (active v = ∅))));
  match r with
  | Some (M_NeighborReply reply) =>
      if nbr_accepted reply then
        _ ← add_active candidate; _ ← sync_members_with candidate; mret true
      else mret false
  | _ => mret false
  end.

Definition mark_dead (id : key) : M unit :=
  now ← now_ms; v ← get_views; sh ← shuffle (passive v);
  let '(candidate, v') := mark_dead_views id now v sh in
  _ ← put_views v';
  match candidate with Some c => _ ← try_promote c; skip | None => skip end.

Definition expired (now timeout : Z) (v : Views) : list key :=
  omap (fun p : key * Member =>
    match mstate p.2, suspect_since_ms p.2 with
    | Suspect, Some t => if timeout <=? sat_sub now t then Some p.1 else None
    | _, _ => None
    end) (map_to_list (members v)).

Definition promote_suspects : M unit :=
  now ← now_ms; c ← get_cfg; v ← get_views;
  for_each mark_dead (expired now (suspect_timeout c) v).

(** ** Joining and recovery *)

Definition join (contact : PeerAddr) : M unit :=
  info ← me_info; ok ← send_oneway contact (M_Join (mk_Join info));
  if ok : bool then _ ← add_active contact; sync_members_with contact else skip.

(** The bootstrap task of [start]. *)
Definition start_bootstrap (peers : list PeerAddr) : M unit :=
  _ ← put_bootstrap peers; for_each join peers.

Definition get_last_recover : M Z := fun s => (last_recover_ms s, s).
Definition get_isolated : M Z := fun s => (isolated_since_ms s, s).
Definition get_bootstrap : M (list PeerAddr) := fun s => (bootstrap s, s).

Definition recover_isolated : M unit :=
  now ← now_ms; last ← get_last_recover;
  if sat_sub now last <? RECOVER_INTERVAL_MS then skip
  else
    _ ← put_last_recover now; me ← get_id; peers ← get_bootstrap;
    seed ← choose (filter (fun p => addr_node_id p <> me) peers);
    match seed with Some seed => join seed | None => skip end.

Definition rebind : M bool := n ← fresh; mret (rebind_at n).

Definition maybe_rebind_wedged : M unit :=
  peers ← get_bootstrap;
  match peers with
  | [] => skip
  | _ =>
      now ← now_ms; since ← get_isolated; c ← get_cfg;
      if since =? 0 then put_isolated now
      else if sat_sub now since <? wedge_rebind c then skip
      else
        _ ← put_isolated now; ok ← rebind;
        if ok : bool then put_last_recover 0 else skip
  end.

(** One pass of [fill_active]'s loop per unit of fuel. *)
Fixpoint fill_active_loop (fuel : nat) : M unit :=
  match fuel with
  | O => skip
  | S fuel' =>
      c ← get_cfg; v ← get_views;
      if (active_size c <=? Z.of_nat (size (active v))) || bool_decide (passive v = []) then skip
      else
        sh ← shuffle (passive v);
        _ ← put_views (set_passive v (take (length sh - 1) sh));
        match sh !! (length sh - 1)%nat with
        | Some candidate => _ ← try_promote candidate; fill_active_loop fuel'
        | None => skip
        end
  end.

Definition fill_active : M unit := v ← get_views; fill_active_loop (S (length (passive v))).

Definition seed (peers : list PeerAddr) : M unit :=
  me ← get_id;
  _ ← for_each (fun p => if bool_decide (addr_node_id p <> me) then add_passive p else skip) peers;
  fill_active.

(** ** Probing *)

Definition swim_dead (v : Views) (id : key) : bool :=
  match members v !! id with Some m => bool_decide (mstate m = Dead) | None => false end.

(** Active peers that gossip has converged as dead move to the tombstones. *)
Definition drop_dead_active (now : Z) (v : Views) : Views :=
  let gone := filter (fun p => swim_dead v p.1 = true) (active v) in
  set_dead (set_active v (filter (fun p => swim_dead v p.1 = false) (active v)))
    (((fun st => (mk_peer (ps_addr st) false (rtt_us st) (skew_ms st) (last_seen_unix st)
        (consecutive_failures st), now)) <$> gone) ∪ dead v).

Definition probe_ok (id : key) (addr : PeerAddr) (rtt skew : Z) (now now_s : Z) (v : Views) : Views :=
  let v := match active v !! id with
    | Some st => set_active v (<[id := mk_peer (ps_addr st) true (Some rtt) (Some skew) (Some now_s) 0]> (active v))
    | None => v
    end in
  match members v !! id with
  | Some m =>
      let m := mk_member addr now (incarnation m) (mstate m) (suspect_since_ms m) in
      let m := if bool_decide (mstate m = Suspect) then set_liveness m (incarnation m) Alive now else m in
      set_members v (<[id := m]> (members v))
  | None =>
      set_dirty (set_members v (<[id := member_alive addr now]> (members v)))
        (<[id := GOSSIP_REPEATS]> (dirty v))
  end.

(** [consecutive_failures] is a u32 that one round raises by one. *)
Definition probe_failed (c : Config) (id : key) (v : Views) : bool * Views :=
  match active v !! id with
  | Some st =>
      let n := consecutive_failures st + 1 in
      (probe_failures c <=? n,
       set_active v (<[id := mk_peer (ps_addr st) (ps_alive st) (rtt_us st) (skew_ms st)
         (last_seen_unix st) n]> (active v)))
  | None => (false, v)
  end.

Definition reset_failures (id : key) (v : Views) : Views :=
  match active v !! id with
  | Some st => set_active v (<[id := mk_peer (ps_addr st) (ps_alive st) (rtt_us st) (skew_ms st)
      (last_seen_unix st) 0]> (active v))
  | None => v
  end.

Definition probe_target (t : key * PeerAddr) : M unit :=
  let '(id, addr) := t in
  r1 ← ping addr;
  outcome ← (match r1 with Some r => mret (Some r) | None => ping addr end);
  match outcome with
  | Some (rtt, skew) =>
      now ← now_ms; v ← get_views; put_views (probe_ok id addr rtt skew now (now / 1000) v)
  | None =>
      c ← get_cfg; v ← get_views;
      let '(hit, v') := probe_failed c id v in
      _ ← put_views v';
      if hit : bool then
        reached ← indirect_probe id addr;
        if reached : bool then
          v ← get_views; _ ← put_views (reset_failures id v); note_heard id
        else suspect id
      else skip
  end.

Definition probe_round : M unit :=
  _ ← promote_suspects;
  now ← now_ms; v ← get_views; _ ← put_views (drop_dead_active now v);
  _ ← fill_active;
  v ← get_views;
  _ ← (if bool_decide (active v = ∅) then _ ← recover_isolated; maybe_rebind_wedged else put_isolated 0);
  v ← get_views;
  for_each probe_target (map (fun p => (p.1, ps_addr p.2)) (map_to_list (active v))).

(** ** Shuffling *)

Definition add_parsed (l : list PeerInfo) : M unit :=
  for_each (fun i => match addr_parse (pi_addr i) with Some a => add_passive a | None => skip end) l.

Definition shuffle_round : M unit :=
  _ ← refresh_self; c ← get_cfg; v ← get_views;
  let actives := active_addrs v in
  n ← fresh;
  let mix_passive := negb (bool_decide (passive v = [])) && ((draw_at n) mod 3 =? 0)%nat in
  target ← choose (if mix_passive then passive v else actives);
  match target with
  | None => skip
  | Some target =>
      pool ← shuffle (filter (fun a => addr_node_id a <> addr_node_id target) actives ++ passive v);
      info ← me_info;
      r ← request target (M_Shuffle (mk_Shuffle info
            (map (fun a => mk_PeerInfo (addr_to_string a)) (take (shuffle_sample c) pool)) []));
      _ ← (match r with
           | Some (M_ShuffleReply reply) => _ ← add_parsed (shr_sample reply); merge_members (shr_members reply)
           | _ => skip
           end);
      prune_members
  end.

(** ** Snapshot *)

Record Snapshot := mk_snap { snap_active : list (key * PeerState); snap_dead : list (key * PeerState); passive_count : Z }.

Definition purge_dead (c : Config) (now : Z) (v : Views) : Views :=
  set_dead v (filter (fun p => sat_sub now p.2.2 < dead_retention c) (dead v)).

Definition snapshot : M Snapshot :=
  c ← get_cfg; now ← now_ms; v ← get_views;
  let v := purge_dead c now v in
  _ ← put_views v;
  let tombs := map (fun p => (p.1, p.2.1)) (map_to_list (dead v)) in
  let gossiped := omap (fun p : key * Member =>
    if bool_decide (mstate p.2 = Dead) && negb (bool_decide (p.1 ∈ map fst tombs))
    then Some (p.1, peer_new (m_addr p.2)) else None) (map_to_list (members v)) in
  mret (mk_snap (map_to_list (filter (fun p => swim_dead v p.1 = false) (active v)))
          (tombs ++ gossiped) (Z.of_nat (length (passive v)))).

(** ** Inbound *)

Definition handle_message `{Blake3} (msg : Message) : M (option Message) :=
  match msg with
  | M_Join j =>
      match addr_parse (pi_addr (join_origin j)) with
      | None => mret None
      | Some origin =>
          c ← get_cfg; v ← get_views;
          let targets := filter (fun a => addr_node_id a <> addr_node_id origin) (active_addrs v) in
          _ ← add_active origin;
          _ ← for_each (fun t => _ ← send_oneway t (M_ForwardJoin (mk_ForwardJoin (join_origin j) (arwl c))); skip) targets;
          mret None
      end
  | M_ForwardJoin fwd =>
      match addr_parse (pi_addr (fj_origin fwd)) with
      | None => mret None
      | Some origin =>
          me ← get_id;
          if bool_decide (addr_node_id origin = me) then mret None
          else
            c ← get_cfg; v ← get_views;
            if (fj_ttl fwd =? 0) || (Z.of_nat (size (active v)) <=? 1) then
              _ ← add_active origin; info ← me_info;
              _ ← request origin (M_Neighbor (mk_Neighbor info false));
              mret None
            else
              _ ← (if fj_ttl fwd =? prwl c then add_passive origin else skip);
              v ← get_views;
              next ← choose (filter (fun a => addr_node_id a <> addr_node_id origin) (active_addrs v));
              match next with
              | Some next => _ ← send_oneway next (M_ForwardJoin (mk_ForwardJoin (fj_origin fwd) (fj_ttl fwd - 1))); mret None
              | None => _ ← add_active origin; mret None
              end
      end
  | M_Neighbor nb =>
      match addr_parse (pi_addr (nb_origin nb)) with
      | None => mret None
      | Some origin =>
          c ← get_cfg; v ← get_views;
          let accept := nb_high_priority nb || (Z.of_nat (size (active v)) <? active_size c) in
          _ ← (if accept then add_active origin else add_passive origin);
          mret (Some (M_NeighborReply (mk_NeighborReply accept)))
      end
  | M_Disconnect => mret None
  | M_Shuffle sh =>
      v ← get_views; pool ← shuffle (passive v);
      let sample := map (fun a => mk_PeerInfo (addr_to_string a)) (take (Nat.max (length (sh_sample sh)) 1) pool) in
      _ ← add_parsed (sh_sample sh);
      _ ← (match addr_parse (pi_addr (sh_origin sh)) with Some o => add_passive o | None => skip end);
      _ ← merge_members (sh_members sh);
      _ ← refresh_self;
      mret (Some (M_ShuffleReply (mk_ShuffleReply sample [])))
  | M_MemberSync sync =>
      _ ← merge_members (ms_members sync); _ ← refresh_self; es ← member_entries;
      mret (Some (M_MemberSync (mk_MemberSync es)))
  | M_Digest _ => v ← get_views; mret (Some (M_Digest (mk_Digest (members_digest v))))
  | M_PingReq req =>
      match addr_parse (pr_target_addr req) with
      | Some a => r ← ping a; mret (Some (M_PingReqAck (mk_PingReqAck (pr_target_id req) (bool_decide (is_Some r)))))
      | None => mret (Some (M_PingReqAck (mk_PingReqAck (pr_target_id req) false)))
      end
  | _ => mret None
  end.

(** [handle_stream] on the bytes read: the sender is heard, then the message
    handled; a frame that does not decode is dropped. *)
Definition handle_stream `{Blake3, WireCodec} (sender : key) (b : bytes) : M (option Message) :=
  match decode b with
  | Ok frame => _ ← note_heard sender; handle_message (fr_message frame)
  | Err _ => mret None
  end.
End membership.
