(* ===== verification/MembershipViews.v ===== *)
(** The invariant of a node's views ([Membership]), kept by every interleaving
    of the sections that hold the views lock, and the methods as sequences of
    those sections. *)

From S2P Require Import Prelude Crypto Wire Membership.

Open Scope Z_scope.

Section views_invariant.
Context `{Env}.

(** ** Lists *)

Lemma swap_remove_perm {A} (i : nat) (l : list A) :
  (i < length l)%nat -> exists x, l ≡ₚ x :: swap_remove i l.
Proof.
  intros Hi. unfold swap_remove. destruct (l !! (length l - 1)%nat) as [x|] eqn:Hx.
  2:{ apply lookup_ge_None in Hx. lia. }
  assert (Hl : l = take (length l - 1) l ++ [x]).
  { rewrite <- (take_S_r _ _ _ Hx). rewrite take_ge; [done|lia]. }
  set (front := take (length l - 1) l) in *. destruct (Nat.eqb_spec i (length l - 1)).
  - exists x. rewrite Hl at 1. by rewrite Permutation_app_comm.
  - assert (Hf : length front = (length l - 1)%nat) by (unfold front; rewrite length_take; lia).
    destruct (lookup_lt_is_Some_2 front i ltac:(lia)) as [y Hy]. exists y.
    rewrite Hl at 1. rewrite insert_take_drop by lia.
    rewrite <- (take_drop_middle front i y Hy) at 1. rewrite <- app_assoc. cbn.
    etransitivity; [symmetry; apply Permutation_middle|]. apply perm_skip, Permutation_app_head.
    apply (Permutation_app_comm _ [x]).
Qed.

Lemma NoDup_map_filter {A B} (f : A -> B) (P : A -> Prop) `{forall x, Decision (P x)} l :
  NoDup (map f l) -> NoDup (map f (filter P l)).
Proof.
  induction l as [|x l IH]; [done|]. cbn [map]. intros [Hx Hl]%list.NoDup_cons. rewrite filter_cons.
  case_decide; [|auto]. cbn. apply list.NoDup_cons. split; [|auto].
  intros (y & Hy & [_ Hin]%list_elem_of_filter)%list_elem_of_fmap. apply Hx. rewrite Hy. by apply list_elem_of_fmap_2.
Qed.

Lemma push_passive_cases l peer cap d :
  1 <= cap ->
  push_passive l peer cap d = l \/
  (addr_node_id peer ∉ map addr_node_id l /\
   ((Z.of_nat (length l) < cap /\ push_passive l peer cap d = l ++ [peer]) \/
    (exists x r, l ≡ₚ x :: r /\ push_passive l peer cap d = r ++ [peer]))).
Proof.
  intros Hc. unfold push_passive. destruct (existsb _ l) eqn:He; [by left|]. right. split.
  - intros (p & Hp & Hin)%list_elem_of_fmap. assert (existsb (fun p => bool_decide (addr_node_id p = addr_node_id peer)) l = true); [|congruence].
    apply existsb_exists. exists p. split; [by apply list_elem_of_In|]. by apply bool_decide_eq_true.
  - destruct (Z.leb_spec cap (Z.of_nat (length l))); [|by left]. right.
    destruct (swap_remove_perm (d mod length l) l) as (x & Hx); [apply Nat.mod_upper_bound; lia|]. by eauto.
Qed.

(** ** The invariant *)

Definition ids (l : list PeerAddr) : list key := map addr_node_id l.

Record views_ok (c : Config) (me : key) (v : Views) : Prop := {
  vo_self : active v !! me = None;
  vo_active_id id st : active v !! id = Some st -> addr_node_id (ps_addr st) = id;
  vo_active_size : Z.of_nat (size (active v)) <= Z.max 1 (active_size c);
  vo_passive_ids : NoDup (ids (passive v));
  vo_passive_self : me ∉ ids (passive v);
  vo_passive_active id : id ∈ ids (passive v) -> active v !! id = None;
  vo_passive_size : Z.of_nat (length (passive v)) <= passive_size c;
  vo_dead_active id : is_Some (dead v !! id) -> active v !! id = None;
  vo_clock id m : members v !! id = Some m -> (is_Some (suspect_since_ms m) <-> mstate m = Suspect);
  vo_dirty id n : dirty v !! id = Some n -> 1 <= n <= GOSSIP_REPEATS
}.

(** The sections that hold the views lock, with whatever they read. *)
Inductive view_step (c : Config) (me : key) (v : Views) : Views -> Prop :=
| vs_add_active peer d1 d2 : addr_node_id peer <> me -> view_step c me v (add_active_views c peer d1 d2 v).2
| vs_add_passive peer d : addr_node_id peer <> me -> active v !! addr_node_id peer = None ->
    view_step c me v (set_passive v (push_passive (passive v) peer (passive_size c) d))
| vs_pop sh : sh ≡ₚ passive v -> view_step c me v (set_passive v (take (length sh - 1) sh))
| vs_mark_dead id now sh : sh ≡ₚ passive v -> view_step c me v (mark_dead_views id now v sh).2
| vs_merge e now : view_step c me v (merge_views e now v).2
| vs_refresh addr inc now : view_step c me v (refresh_views me addr inc now v)
| vs_dirty id : view_step c me v (dirty_views id v)
| vs_heard id now : view_step c me v (heard_views id now v)
| vs_prune now : view_step c me v (prune_views c me now v)
| vs_suspect id now : view_step c me v (suspect_views id now v)
| vs_drop_dead now : view_step c me v (drop_dead_active now v)
| vs_probe_ok id addr rtt skew now now_s : view_step c me v (probe_ok id addr rtt skew now now_s v)
| vs_probe_failed id : view_step c me v (probe_failed c id v).2
| vs_reset id : view_step c me v (reset_failures id v)
| vs_retire : view_step c me v (set_dirty v (retire (dirty v)))
| vs_purge now : view_step c me v (purge_dead c now v).

(** *** Members and counters *)

Definition clock_ok (m : Member) : Prop := is_Some (suspect_since_ms m) <-> mstate m = Suspect.

Lemma set_liveness_clock m i st now : clock_ok (set_liveness m i st now).
Proof. destruct st; (split; [by intros []|done]) || (split; [done|by eauto]). Qed.

Lemma merge_one_clock ms e now id m :
  (forall i x, ms !! i = Some x -> clock_ok x) -> (merge_one ms e now).2 !! id = Some m -> clock_ok m.
Proof.
  intros Hok. unfold merge_one. destruct (addr_parse _) as [a|]; [|apply Hok].
  destruct (ms !! me_id e) as [x|] eqn:Hx; cbn.
  - rewrite lookup_insert_Some. intros [[_ <-]|[_ Hm]]; [|by eapply Hok].
    pose proof (Hok _ _ Hx). pose proof (set_liveness_clock x (me_incarnation e) (from_u8 (me_state e)) now).
    destruct (incoming_wins _ _ _), (_ <? _); done.
  - rewrite lookup_insert_Some. intros [[_ <-]|[_ Hm]]; [|by eapply Hok].
    destruct (from_u8 _); (split; [by intros []|done]) || (split; [done|by eauto]).
Qed.

(** What a step that leaves the two views alone must show. *)
Lemma views_ok_members c me v ms d :
  views_ok c me v -> (forall id m, ms !! id = Some m -> clock_ok m) ->
  (forall id n, d !! id = Some n -> 1 <= n <= GOSSIP_REPEATS) ->
  views_ok c me (mk_views (active v) (passive v) (dead v) ms d).
Proof. intros [] Hm Hd. by split. Qed.

Lemma dirty_insert (d : gmap key Z) id :
  (forall i n, d !! i = Some n -> 1 <= n <= GOSSIP_REPEATS) ->
  forall i n, <[id := GOSSIP_REPEATS]> d !! i = Some n -> 1 <= n <= GOSSIP_REPEATS.
Proof. intros Hd i n. rewrite lookup_insert_Some. unfold GOSSIP_REPEATS in *. intros [[_ <-]|[_ ?]]; [lia|by eapply Hd]. Qed.

Lemma clock_insert (ms : gmap key Member) id x :
  (forall i m, ms !! i = Some m -> clock_ok m) -> clock_ok x ->
  forall i m, <[id := x]> ms !! i = Some m -> clock_ok m.
Proof. intros Hm Hx i m. rewrite lookup_insert_Some. intros [[_ <-]|[_ ?]]; [done|by eapply Hm]. Qed.

Lemma clock_alive a t i : clock_ok (mk_member a t i Alive None).
Proof. split; [by intros []|done]. Qed.

(** *** Peers *)

(** Replacing the state of an active peer by one with an address of its id. *)
Lemma views_ok_replace c me v id st st' :
  views_ok c me v -> active v !! id = Some st -> addr_node_id (ps_addr st') = id ->
  views_ok c me (set_active v (<[id := st']> (active v))).
Proof.
  intros [] Hid Ha. assert (Hnone : forall i, active v !! i = None -> <[id := st']> (active v) !! i = None).
  { intros i Hi. rewrite lookup_insert_ne; [done|]. intros <-. congruence. }
  split; cbn; auto.
  - intros i x. rewrite lookup_insert_Some. intros [[<- <-]|[_ ?]]; [done|by apply vo_active_id0].
  - rewrite map_size_insert_Some; [done|by eauto].
Qed.

(** Dropping an active peer to the tombstones. *)
Lemma views_ok_bury c me v id st t :
  views_ok c me v -> views_ok c me (set_dead (set_active v (delete id (active v))) (<[id := (st, t)]> (dead v))).
Proof.
  intros []. assert (Hnone : forall i, active v !! i = None -> delete id (active v) !! i = None).
  { intros i Hi. apply lookup_delete_None. by right. }
  split; cbn; auto.
  - intros i x. rewrite lookup_delete_Some. intros [_ ?]. by apply vo_active_id0.
  - pose proof (map_subseteq_size _ _ (delete_subseteq (active v) id)). lia.
  - intros i. rewrite lookup_insert_is_Some'. intros [<-|?]; [apply lookup_delete_eq|auto].
Qed.

(** Keeping a part of the passive view. *)
Lemma views_ok_passive_sub c me v p :
  views_ok c me v -> (forall id, id ∈ ids p -> id ∈ ids (passive v)) -> NoDup (ids p) ->
  Z.of_nat (length p) <= passive_size c -> views_ok c me (set_passive v p).
Proof. intros [] Hsub Hnd Hlen. split; cbn; auto. Qed.

Lemma NoDup_ids_perm p x r : NoDup (ids p) -> p ≡ₚ x :: r -> NoDup (ids r) /\ forall id, id ∈ ids r -> id ∈ ids p.
Proof.
  intros Hn E. unfold ids in *. rewrite E in *. cbn in *. apply list.NoDup_cons in Hn as [_ ?].
  split; [done|]. intros id Hid. rewrite E. cbn. apply elem_of_cons. by right.
Qed.

Lemma views_ok_push c me v peer d :
  1 <= passive_size c -> views_ok c me v -> addr_node_id peer <> me -> active v !! addr_node_id peer = None ->
  views_ok c me (set_passive v (push_passive (passive v) peer (passive_size c) d)).
Proof.
  intros Hc Hv Hme Hact. assert (Hadd : forall r, (forall id, id ∈ ids r -> id ∈ ids (passive v)) -> NoDup (ids r) ->
    addr_node_id peer ∉ ids r -> Z.of_nat (length r) < passive_size c -> views_ok c me (set_passive v (r ++ [peer]))).
  { intros r Hsub Hnd Hfr Hlen. destruct Hv. split; cbn; auto; unfold ids in *; rewrite ?map_app; cbn.
    - rewrite list.NoDup_app. split; [done|]. split; [|apply list.NoDup_singleton].
      intros x Hx ->%list_elem_of_singleton. done.
    - rewrite not_elem_of_app, list_elem_of_singleton. split; [intros ?%Hsub; done|done].
    - intros id. rewrite elem_of_app, list_elem_of_singleton. intros [?| ->]; auto.
    - rewrite length_app. cbn. lia. }
  destruct (push_passive_cases (passive v) peer (passive_size c) d Hc) as [E|(Hfr & [[Hlen E]|(x & r & Hr & E)])]; rewrite E.
  - by destruct v.
  - apply Hadd; auto. apply Hv.
  - destruct (NoDup_ids_perm _ _ _ (vo_passive_ids _ _ _ Hv) Hr) as [Hnd Hsub]. apply Hadd; auto.
    pose proof (vo_passive_size _ _ _ Hv) as Hs. rewrite Hr in Hs. cbn in Hs. lia.
Qed.

Lemma views_ok_pop c me v sh :
  views_ok c me v -> sh ≡ₚ passive v -> views_ok c me (set_passive v (take (length sh - 1) sh)).
Proof.
  intros Hv Hsh. pose proof (vo_passive_ids _ _ _ Hv) as Hn. pose proof (vo_passive_size _ _ _ Hv) as Hs.
  unfold ids in Hn. rewrite <- Hsh in Hn, Hs. apply views_ok_passive_sub; [done| | |].
  - intros id. unfold ids. rewrite <- Hsh. rewrite <- (take_drop (length sh - 1) sh) at 3.
    rewrite map_app, elem_of_app. by left.
  - unfold ids. rewrite <- (take_drop (length sh - 1) sh), map_app in Hn. by apply list.NoDup_app in Hn as [? _].
  - rewrite length_take. lia.
Qed.

(** Both views without [peer], then [peer] active. *)
Lemma views_ok_forget c me v id :
  views_ok c me v ->
  let v' := forget id v in
  views_ok c me v' /\ id ∉ ids (passive v') /\ dead v' !! id = None.
Proof.
  intros Hv v'. assert (Hids : forall i, i ∈ ids (passive v') -> i ∈ ids (passive v) /\ i <> id).
  { intros i (p & -> & Hp)%list_elem_of_fmap. apply list_elem_of_filter in Hp as [? Hp].
    split; [by apply list_elem_of_fmap_2|done]. }
  split; [|split].
  - unfold v'. apply (views_ok_passive_sub _ _ (set_dead v (delete id (dead v)))).
    + destruct Hv. split; cbn; auto. intros i. rewrite lookup_delete_is_Some. intros [_ ?]. auto.
    + intros i Hi. by apply Hids in Hi as [? _].
    + unfold ids. pose proof (vo_passive_ids _ _ _ Hv) as Hn. unfold ids in Hn.
      by apply NoDup_map_filter.
    + pose proof (vo_passive_size _ _ _ Hv). pose proof (length_filter (fun p => addr_node_id p <> id) (passive v)). cbn. lia.
  - intros Hi. by apply Hids in Hi as [_ ?].
  - apply lookup_delete_eq.
Qed.

Lemma views_ok_activate c me v peer :
  views_ok c me v -> addr_node_id peer <> me -> addr_node_id peer ∉ ids (passive v) ->
  dead v !! addr_node_id peer = None -> active v !! addr_node_id peer = None ->
  Z.of_nat (size (active v)) + 1 <= Z.max 1 (active_size c) ->
  views_ok c me (set_active v (<[addr_node_id peer := peer_new peer]> (active v))).
Proof.
  intros [] Hme Hp Hd Ha Hs. split; cbn; auto.
  - by rewrite lookup_insert_ne.
  - intros i st. rewrite lookup_insert_Some. intros [[<- <-]|[_ ?]]; [done|auto].
  - rewrite map_size_insert_None by done. lia.
  - intros i Hi. rewrite lookup_insert_ne; [auto|]. intros <-. done.
  - intros i Hi. rewrite lookup_insert_ne; [auto|]. intros <-. rewrite Hd in Hi. by destruct Hi.
Qed.

Lemma views_ok_evict c me v victim st d :
  1 <= passive_size c -> views_ok c me v -> active v !! victim = Some st ->
  views_ok c me (set_passive (set_active v (delete victim (active v)))
    (push_passive (passive v) (ps_addr st) (passive_size c) d)).
Proof.
  intros Hc Hv Hst. pose proof (vo_active_id _ _ _ Hv _ _ Hst) as Hid.
  apply (views_ok_push c me (set_active v (delete victim (active v)))); [done| | |].
  - destruct Hv. assert (Hnone : forall i, active v !! i = None -> delete victim (active v) !! i = None).
    { intros i Hi. apply lookup_delete_None. by right. }
    split; cbn; auto.
    + intros i x. rewrite lookup_delete_Some. intros [_ ?]. auto.
    + pose proof (map_subseteq_size _ _ (delete_subseteq (active v) victim)). lia.
  - rewrite Hid. intros ->. pose proof (vo_self _ _ _ Hv). congruence.
  - rewrite Hid. apply lookup_delete_eq.
Qed.

Lemma push_passive_elem l peer cap d id :
  1 <= cap -> id ∈ ids (push_passive l peer cap d) -> id = addr_node_id peer \/ id ∈ ids l.
Proof.
  intros Hc. destruct (push_passive_cases l peer cap d Hc) as [->|(_ & [[_ ->]|(x & r & Hr & ->)])]; [by right| |];
    unfold ids; rewrite map_app, elem_of_app; cbn; rewrite list_elem_of_singleton; [tauto|].
  intros [?|?]; [|by left]. right. rewrite Hr. cbn. apply elem_of_cons. by right.
Qed.

Lemma add_active_ok c me v peer d1 d2 :
  1 <= passive_size c -> views_ok c me v -> addr_node_id peer <> me ->
  views_ok c me (add_active_views c peer d1 d2 v).2.
Proof.
  intros Hc Hv0 Hme. destruct (views_ok_forget c me v (addr_node_id peer) Hv0) as (Hv & Hp & Hd).
  unfold add_active_views. set (v1 := forget _ _) in *. clearbody v1. clear Hv0 v. cbn zeta.
  destruct (active v1 !! addr_node_id peer) as [st|] eqn:Hst; [by eapply views_ok_replace|].
  destruct (Z.leb_spec (active_size c) (Z.of_nat (size (active v1)))) as [Hfull|Hfull].
  2:{ cbn. apply views_ok_activate; auto. lia. }
  destruct (map fst (map_to_list (active v1))) as [|i0 is0] eqn:Hids.
  { assert (He : active v1 = ∅).
    { apply map_to_list_empty_iff. by destruct (map_to_list (active v1)). }
    cbn. apply views_ok_activate; auto. rewrite He, map_size_empty. lia. }
  rewrite <- Hids. destruct (_ !! (d1 mod _)%nat) as [victim|] eqn:Hvic.
  2:{ apply lookup_ge_None in Hvic. pose proof (Nat.mod_upper_bound d1 (length (map fst (map_to_list (active v1))))) as Hm.
      rewrite Hids in *. cbn [length] in *. lia. }
  apply list_elem_of_lookup_2, list_elem_of_fmap in Hvic as ([k st] & -> & Hk%elem_of_map_to_list). cbn [fst].
  rewrite Hk. cbn [snd].
  pose proof (vo_active_id _ _ _ Hv _ _ Hk) as Hkid.
  assert (Hne : k <> addr_node_id peer) by (intros ->; congruence).
  apply (views_ok_activate c me (set_passive (set_active v1 (delete k (active v1))) _)); auto.
  - by apply views_ok_evict.
  - intros [E|E]%push_passive_elem; [congruence|done|done].
  - cbn. by apply lookup_delete_None; right.
  - cbn. rewrite map_size_delete_Some by eauto. pose proof (vo_active_size _ _ _ Hv). lia.
Qed.

Lemma mark_dead_ok c me v id now sh :
  views_ok c me v -> sh ≡ₚ passive v -> views_ok c me (mark_dead_views id now v sh).2.
Proof.
  intros Hv Hsh. unfold mark_dead_views.
  set (v1 := match members v !! id with Some _ => _ | None => v end).
  assert (Hv1 : views_ok c me v1 /\ passive v1 = passive v).
  { unfold v1. destruct (members v !! id) as [m|]; [|done]. split; [|done]. pose proof Hv as [].
    apply (views_ok_members c me v); [done| |by apply dirty_insert]. apply clock_insert; [done|apply set_liveness_clock]. }
  destruct Hv1 as [Hv1 Hp]. clearbody v1. destruct (active v1 !! id) as [st|]; cbn; [|done].
  refine (views_ok_pop c me (set_dead (set_active v1 (delete id (active v1))) _) sh _ _); [|cbn; by rewrite Hp].
  by apply views_ok_bury.
Qed.

Lemma drop_dead_ok c me v now : views_ok c me v -> views_ok c me (drop_dead_active now v).
Proof.
  intros []. unfold drop_dead_active.
  set (keep := filter (fun p : key * PeerState => swim_dead v p.1 = false) (active v)).
  assert (Hnone : forall i, active v !! i = None -> keep !! i = None).
  { intros i Hi. apply map_lookup_filter_None. by left. }
  split; cbn; auto.
  - intros i st [? _]%map_lookup_filter_Some. auto.
  - pose proof (map_subseteq_size _ _ (map_filter_subseteq (fun p : key * PeerState => swim_dead v p.1 = false) (active v))).
    unfold keep. lia.
  - intros i. rewrite lookup_union_is_Some, lookup_fmap, fmap_is_Some. intros [Hi|Hi]; [|auto].
    destruct Hi as [st [_ Hd]%map_lookup_filter_Some]. cbn in Hd. apply map_lookup_filter_None. right.
    intros x _. cbn. rewrite Hd. done.
Qed.

Lemma probe_ok_ok c me v id addr rtt skew now now_s :
  views_ok c me v -> views_ok c me (probe_ok id addr rtt skew now now_s v).
Proof.
  intros Hv. unfold probe_ok.
  set (v1 := match active v !! id with Some _ => _ | None => v end).
  assert (Hv1 : views_ok c me v1).
  { unfold v1. destruct (active v !! id) as [st|] eqn:Hst; [|done]. eapply views_ok_replace; [done..|].
    cbn. by apply (vo_active_id _ _ _ Hv). }
  clearbody v1. clear Hv v. pose proof Hv1 as [].
  destruct (members v1 !! id) as [m|] eqn:Hm; cbn; apply (views_ok_members c me v1); auto.
  - apply clock_insert; [done|]. cbn. destruct (decide (mstate m = Suspect)) as [E|E].
    + rewrite bool_decide_true by done. apply set_liveness_clock.
    + rewrite bool_decide_false by done. exact (vo_clock0 id m Hm).
  - apply clock_insert; [done|apply clock_alive].
  - by apply dirty_insert.
Qed.

Lemma retire_ok (d : gmap key Z) :
  (forall i n, d !! i = Some n -> 1 <= n <= GOSSIP_REPEATS) ->
  forall i n, retire d !! i = Some n -> 1 <= n <= GOSSIP_REPEATS.
Proof.
  intros Hd i n. unfold retire. rewrite lookup_omap. intros (x & Hx & E)%bind_Some. apply Hd in Hx. cbn in E.
  destruct (Z.eqb_spec (sat_sub x 1) 0); [done|]. injection E as <-. unfold sat_sub in *. lia.
Qed.

Lemma view_step_ok c me v v' : 1 <= passive_size c -> view_step c me v v' -> views_ok c me v -> views_ok c me v'.
Proof.
  intros Hc Hs Hv. pose proof Hv as []. destruct Hs.
  - by apply add_active_ok.
  - by apply views_ok_push.
  - by apply views_ok_pop.
  - by apply mark_dead_ok.
  - unfold merge_views. destruct (merge_one (members v) e now) as [ch ms] eqn:E. cbn.
    assert (Hms : forall i m, ms !! i = Some m -> clock_ok m).
    { intros i m Hi. apply (merge_one_clock (members v) e now i m vo_clock0). by rewrite E. }
    destruct ch; apply (views_ok_members c me v); auto. by apply dirty_insert.
  - apply (views_ok_members c me v); auto. apply clock_insert; [done|apply clock_alive].
  - apply (views_ok_members c me v); auto. by apply dirty_insert.
  - unfold heard_views. destruct (members v !! id) as [m|] eqn:Hm.
    { apply (views_ok_members c me v); auto. apply clock_insert; [done|]. exact (vo_clock0 id m Hm). }
    destruct (active v !! id); [|done]. apply (views_ok_members c me v); auto; [|by apply dirty_insert].
    apply clock_insert; [done|apply clock_alive].
  - apply (views_ok_members c me v); auto. intros i m. rewrite map_lookup_filter_Some. intros [? _]. by apply (vo_clock0 i).
  - unfold suspect_views. destruct (members v !! id) as [m|]; [|done]. destruct (bool_decide _); [|done].
    apply (views_ok_members c me v); auto; [|by apply dirty_insert]. apply clock_insert; [done|apply set_liveness_clock].
  - by apply drop_dead_ok.
  - by apply probe_ok_ok.
  - unfold probe_failed. destruct (active v !! id) as [st|] eqn:Hst; [|done]. eapply views_ok_replace; [done..|].
    by apply (vo_active_id0 id st).
  - unfold reset_failures. destruct (active v !! id) as [st|] eqn:Hst; [|done]. eapply views_ok_replace; [done..|].
    by apply (vo_active_id0 id st).
  - apply (views_ok_members c me v); auto. by apply retire_ok.
  - split; cbn; auto. intros i [x [? _]%map_lookup_filter_Some]. eauto.
Qed.

(** ** Sections and methods *)

(** One section: the rest of the node's state may change with it. *)
Definition section (s s' : Membership) : Prop :=
  cfg s' = cfg s /\ my_id s' = my_id s /\
  (views s' = views s \/ view_step (cfg s) (my_id s) (views s) (views s')).

(** A method runs as a sequence of sections, from any state. *)
Definition sections {A} (m : M A) : Prop := forall s, rtc section s (m s).2.

Lemma sections_bind {A B} (m : M A) (k : A -> M B) :
  sections m -> (forall a, sections (k a)) -> sections (m ≫= k).
Proof.
  intros Hm Hk s. specialize (Hm s). unfold mbind, M_bind. destruct (m s) as [a s']. cbn in Hm.
  etransitivity; [exact Hm|apply Hk].
Qed.

Lemma sections_quiet {A} (m : M A) :
  (forall s, cfg (m s).2 = cfg s /\ my_id (m s).2 = my_id s /\ views (m s).2 = views s) -> sections m.
Proof. intros Hq s. apply rtc_once. destruct (Hq s) as (? & ? & ?). split; [done|]. split; [done|]. by left. Qed.

Lemma sections_ret {A} (a : A) : sections (mret a).
Proof. by apply sections_quiet. Qed.
Lemma sections_skip : sections skip.
Proof. by apply sections_quiet. Qed.
Lemma sections_fresh : sections fresh.
Proof. by apply sections_quiet. Qed.

(** Reading what does not change the views. *)
Ltac quiet := intros; apply sections_quiet; intros; split; [done|split; done].

Lemma sections_get_cfg : sections get_cfg. Proof. quiet. Qed.
Lemma sections_get_id : sections get_id. Proof. quiet. Qed.
Lemma sections_get_views : sections get_views. Proof. quiet. Qed.
Lemma sections_get_inc : sections get_self_inc. Proof. quiet. Qed.
Lemma sections_put_inc n : sections (put_self_inc n). Proof. quiet. Qed.
Lemma sections_put_boot l : sections (put_bootstrap l). Proof. quiet. Qed.
Lemma sections_put_recover n : sections (put_last_recover n). Proof. quiet. Qed.
Lemma sections_put_isolated n : sections (put_isolated n). Proof. quiet. Qed.
Lemma sections_fire n : sections (fire_epidemic n). Proof. quiet. Qed.
Lemma sections_now : sections now_ms. Proof. quiet. Qed.
Lemma sections_addr : sections transport_addr. Proof. quiet. Qed.
Lemma sections_shuffle {A} (l : list A) : sections (shuffle l). Proof. quiet. Qed.
Lemma sections_choose {A} (l : list A) : sections (choose l). Proof. quiet. Qed.
Lemma sections_ping a : sections (ping a). Proof. quiet. Qed.
Lemma sections_request a m : sections (request a m). Proof. quiet. Qed.
Lemma sections_oneway a m : sections (send_oneway a m). Proof. quiet. Qed.
Lemma sections_me : sections me_info. Proof. quiet. Qed.
Lemma sections_epidemic : sections get_last_epidemic. Proof. quiet. Qed.
Lemma sections_recover : sections get_last_recover. Proof. quiet. Qed.
Lemma sections_isolated : sections get_isolated. Proof. quiet. Qed.
Lemma sections_boot : sections get_bootstrap. Proof. quiet. Qed.
Lemma sections_rebind : sections rebind. Proof. quiet. Qed.
Lemma sections_entries : sections member_entries. Proof. quiet. Qed.

Lemma sections_for_each {A} (f : A -> M unit) l : (forall x, sections (f x)) -> sections (for_each f l).
Proof. intros Hf. induction l as [|x l IH]; [apply sections_skip|]. by apply sections_bind. Qed.

(** A method that is one section. *)
Lemma sections_step {A} (m : M A) :
  (forall s, cfg (m s).2 = cfg s /\ my_id (m s).2 = my_id s /\
    (views (m s).2 = views s \/ view_step (cfg s) (my_id s) (views s) (views (m s).2))) -> sections m.
Proof. intros Hq s. apply rtc_once, Hq. Qed.

Lemma sections_refresh : sections refresh_self.
Proof. apply sections_step. intros s. split; [done|]. split; [done|]. right. apply vs_refresh. Qed.

Lemma sections_mark_dirty id : sections (mark_dirty id).
Proof. apply sections_step. intros s. split; [done|]. split; [done|]. right. apply vs_dirty. Qed.

Lemma sections_suspect id : sections (suspect id).
Proof. apply sections_step. intros s. split; [done|]. split; [done|]. right. apply vs_suspect. Qed.

Lemma sections_prune : sections prune_members.
Proof. apply sections_step. intros s. split; [done|]. split; [done|]. right. apply vs_prune. Qed.

Lemma sections_note_heard id : sections (note_heard id).
Proof.
  apply sections_step. intros s. unfold note_heard, mbind, M_bind. cbn. destruct (bool_decide (id = my_id s)); cbn.
  - split; [done|]. split; [done|]. by left.
  - split; [done|]. split; [done|]. right. apply vs_heard.
Qed.

Lemma sections_add_passive peer : sections (add_passive peer).
Proof.
  apply sections_step. intros s. unfold add_passive, mbind, M_bind. cbn.
  destruct (decide (addr_node_id peer = my_id s)); [rewrite bool_decide_true by done|rewrite bool_decide_false by done]; cbn.
  - split; [done|]. split; [done|]. by left.
  - destruct (active (views s) !! addr_node_id peer) eqn:Ha; cbn; (split; [done|]; split; [done|]); [by left|].
    right. by apply vs_add_passive.
Qed.

Lemma sections_add_active peer : sections (add_active peer).
Proof.
  intros s. unfold add_active, mbind, M_bind. cbn.
  destruct (decide (addr_node_id peer = my_id s)) as [|Hne]; [rewrite bool_decide_true by done|rewrite bool_decide_false by done]; cbn.
  { apply sections_skip. }
  pose proof (vs_add_active (cfg s) (my_id s) (views s) peer (draw_at (tick s)) (draw_at (S (tick s))) Hne) as Hs.
  destruct (add_active_views _ _ _ _ _) as [ev v']. cbn in *.
  eapply rtc_l; [|destruct ev; [apply (sections_bind (send_oneway _ _)); [apply sections_oneway|intros; apply sections_skip]|apply sections_skip]].
  split; [done|]. split; [done|]. by right.
Qed.

Create HintDb sections.
#[local] Hint Resolve sections_ret sections_skip sections_fresh sections_get_cfg sections_get_id
  sections_get_views sections_get_inc sections_put_inc sections_put_boot sections_put_recover
  sections_put_isolated sections_fire sections_now sections_addr sections_shuffle sections_choose
  sections_ping sections_request sections_oneway sections_me sections_epidemic sections_recover
  sections_isolated sections_boot sections_rebind sections_entries sections_refresh sections_mark_dirty
  sections_suspect sections_prune sections_note_heard sections_add_passive sections_add_active
  sections_for_each : sections.

(** Bind by bind, branch by branch. *)
Ltac by_sections :=
  repeat first
    [ solve [auto with sections]
    | apply sections_bind; [|intros ?]
    | apply sections_for_each; intros ?
    | case_match ].

(** The end of a lock section that was entered in state [s]. *)
Lemma sections_put {A} (k : M A) s s0 v' :
  cfg s0 = cfg s -> my_id s0 = my_id s -> view_step (cfg s) (my_id s) (views s) v' -> sections k ->
  rtc section s ((_ ← put_views v'; k) s0).2.
Proof. intros Hc Hi Hv Hk. eapply rtc_l; [|apply Hk]. split; [done|]. split; [done|]. by right. Qed.

(** Reads at the head of a method. *)
Definition ticked (s : Membership) : Membership := (fresh s).2.

Lemma bind_now {B} (k : Z -> M B) s : (now_ms ≫= k) s = k (now_at (tick s)) (ticked s).
Proof. done. Qed.
Lemma bind_shuffle {A B} (l : list A) (k : list A -> M B) s :
  (shuffle l ≫= k) s = k (shuffle_at (tick s) l) (ticked s).
Proof. done. Qed.
Lemma bind_views {B} (k : Views -> M B) s : (get_views ≫= k) s = k (views s) s.
Proof. done. Qed.
Lemma bind_cfg {B} (k : Config -> M B) s : (get_cfg ≫= k) s = k (cfg s) s.
Proof. done. Qed.

Lemma sections_merge_loop me es acc : sections (merge_loop me es acc).
Proof.
  revert acc. induction es as [|e es IH]; intros acc; cbn [merge_loop]; [apply sections_ret|].
  destruct (bool_decide (me_id e = me)); [by_sections|]. intros s.
  rewrite bind_now, bind_views. pose proof (vs_merge (cfg s) (my_id s) (views s) e (now_at (tick s))) as Hs.
  change (views (ticked s)) with (views s). destruct (merge_views e _ (views s)) as [ch v']. by apply sections_put.
Qed.
#[local] Hint Resolve sections_merge_loop : sections.

Lemma sections_merge_members es : sections (merge_members es).
Proof. unfold merge_members, merge_finish. by_sections. Qed.
#[local] Hint Resolve sections_merge_members : sections.

Lemma sections_sync peer : sections (sync_members_with peer).
Proof. unfold sync_members_with. by_sections. Qed.
#[local] Hint Resolve sections_sync : sections.

Lemma sections_try_promote a : sections (try_promote a).
Proof. unfold try_promote. by_sections. Qed.
#[local] Hint Resolve sections_try_promote : sections.

Lemma sections_join a : sections (join a).
Proof. unfold join. by_sections. Qed.
#[local] Hint Resolve sections_join : sections.

Lemma sections_start peers : sections (start_bootstrap peers).
Proof. unfold start_bootstrap. by_sections. Qed.

Lemma sections_recover_isolated : sections recover_isolated.
Proof. unfold recover_isolated. by_sections. Qed.

Lemma sections_wedged : sections maybe_rebind_wedged.
Proof. unfold maybe_rebind_wedged. by_sections. Qed.
#[local] Hint Resolve sections_recover_isolated sections_wedged : sections.

Lemma sections_ask_helpers t m hs : sections (ask_helpers t m hs).
Proof. induction hs; cbn [ask_helpers]; by_sections. Qed.
#[local] Hint Resolve sections_ask_helpers : sections.

Lemma sections_indirect t a : sections (indirect_probe t a).
Proof. unfold indirect_probe. by_sections. Qed.
#[local] Hint Resolve sections_indirect : sections.

Context `{!EnvLaws}.

Lemma sections_mark_dead id : sections (mark_dead id).
Proof.
  intros s. unfold mark_dead. rewrite bind_now, bind_views, bind_shuffle. change (views (ticked s)) with (views s).
  pose proof (vs_mark_dead (cfg s) (my_id s) (views s) id (now_at (tick s)) _
    (shuffle_perm (tick (ticked s)) (passive (views s)))) as Hs.
  destruct (mark_dead_views _ _ _ _) as [cand v']. apply sections_put; [done..|]. by_sections.
Qed.
#[local] Hint Resolve sections_mark_dead : sections.

Lemma sections_promote : sections promote_suspects.
Proof. unfold promote_suspects. by_sections. Qed.
#[local] Hint Resolve sections_promote : sections.

Lemma sections_fill_loop n : sections (fill_active_loop n).
Proof.
  induction n as [|n IH]; cbn [fill_active_loop]; [apply sections_skip|]. intros s. rewrite bind_cfg, bind_views.
  destruct (_ || _); [apply sections_skip|]. rewrite bind_shuffle.
  apply sections_put; [done..|apply vs_pop, shuffle_perm|]. by_sections.
Qed.

Lemma sections_fill : sections fill_active.
Proof. unfold fill_active. apply sections_bind; [by_sections|]. intros. apply sections_fill_loop. Qed.
#[local] Hint Resolve sections_fill : sections.

Lemma sections_seed peers : sections (seed peers).
Proof. unfold seed. by_sections. Qed.

Lemma sections_probe_target t : sections (probe_target t).
Proof.
  destruct t as [id addr]. unfold probe_target.
  apply sections_bind; [auto with sections|]. intros r1. apply sections_bind; [by_sections|]. intros [[rtt skew]|] s.
  - rewrite bind_now, bind_views. apply rtc_once. split; [done|]. split; [done|]. right.
    change (views (ticked s)) with (views s). apply vs_probe_ok.
  - rewrite bind_cfg, bind_views. pose proof (vs_probe_failed (cfg s) (my_id s) (views s) id) as Hs.
    destruct (probe_failed _ _ _) as [hit v']. apply sections_put; [done..|].
    destruct hit; [|apply sections_skip]. apply sections_bind; [auto with sections|]. intros [|]; [|auto with sections].
    intros s'. rewrite bind_views. apply sections_put; [done..|apply vs_reset|auto with sections].
Qed.
#[local] Hint Resolve sections_probe_target : sections.

Lemma sections_probe_round : sections probe_round.
Proof.
  unfold probe_round. apply sections_bind; [auto with sections|]. intros _ s. rewrite bind_now, bind_views.
  apply sections_put; [done..|apply vs_drop_dead|]. by_sections.
Qed.

Lemma sections_add_parsed l : sections (add_parsed l).
Proof. unfold add_parsed. by_sections. Qed.
#[local] Hint Resolve sections_add_parsed : sections.

Lemma sections_shuffle_round : sections shuffle_round.
Proof. unfold shuffle_round. by_sections. Qed.

Lemma sections_epidemic_push : sections epidemic_push.
Proof.
  unfold epidemic_push. apply sections_bind; [auto with sections|]. intros _ s. rewrite bind_views.
  destruct (bool_decide _); [apply sections_ret|]. apply sections_put; [done..|apply vs_retire|]. by_sections.
Qed.

Lemma sections_snapshot : sections snapshot.
Proof.
  intros s. unfold snapshot. rewrite bind_cfg, bind_now, bind_views.
  apply sections_put; [done..|apply vs_purge|auto with sections].
Qed.

Context `{Blake3, WireCodec}.

Lemma sections_digest_round : sections digest_round.
Proof. unfold digest_round. by_sections. Qed.

Lemma sections_handle_message msg : sections (handle_message msg).
Proof. destruct msg; cbn [handle_message]; by_sections. Qed.
#[local] Hint Resolve sections_handle_message : sections.

Lemma sections_handle_stream sender b : sections (handle_stream sender b).
Proof. unfold handle_stream. by_sections. Qed.

(** ** Theorem *)

(** A method a node's tasks run, or a part of one between two awaits. *)
Inductive runs : Membership -> Membership -> Prop :=
| runs_section s s' : section s s' -> runs s s'
| runs_bootstrap s peers : runs s (start_bootstrap peers s).2
| runs_seed s peers : runs s (seed peers s).2
| runs_probe_round s : runs s (probe_round s).2
| runs_shuffle_round s : runs s (shuffle_round s).2
| runs_digest_round s : runs s (digest_round s).2
| runs_epidemic_push s : runs s (epidemic_push s).2
| runs_snapshot s : runs s (snapshot s).2
| runs_stream s sender b : runs s (handle_stream sender b s).2.

Lemma runs_sections s s' : runs s s' -> rtc section s s'.
Proof.
  destruct 1; [by apply rtc_once|..].
  - apply sections_start.
  - apply sections_seed.
  - apply sections_probe_round.
  - apply sections_shuffle_round.
  - apply sections_digest_round.
  - apply sections_epidemic_push.
  - apply sections_snapshot.
  - apply sections_handle_stream.
Qed.

Lemma membership_new_ok id c : 1 <= passive_size c -> views_ok c id (views (membership_new id c)).
Proof.
  intros Hc. split; cbn; intros *; rewrite ?lookup_empty; try done; try lia; try (by intros []);
    try (by intros ?%not_elem_of_nil); [rewrite map_size_empty; lia|constructor].
Qed.

Lemma sections_ok s s' :
  rtc section s s' -> 1 <= passive_size (cfg s) -> views_ok (cfg s) (my_id s) (views s) ->
  cfg s' = cfg s /\ my_id s' = my_id s /\ views_ok (cfg s') (my_id s') (views s').
Proof.
  induction 1 as [s|s s1 s' (Hc & Hi & Hv) _ IH]; intros Hp Hok; [done|].
  assert (Hok1 : views_ok (cfg s1) (my_id s1) (views s1)).
  { rewrite Hc, Hi. destruct Hv as [->|Hv]; [done|]. by eapply view_step_ok. }
  destruct IH as (? & ? & ?); [by rewrite Hc|done|]. by rewrite <- Hc, <- Hi.
Qed.

(** C36: However a node's tasks interleave (bootstrap, seeding, probing,
    shuffling, digests, delta pushes, snapshots and inbound frames of any
    content, and each of their lock sections on its own), the node is in
    neither of its own views; an active peer is listed under the id of its
    address; the active view never outgrows [active_size] (or the one link it
    always takes) nor the passive view [passive_size]; the passive view holds
    no id twice and none that is active; no tombstone is active; a member has
    a suspicion clock exactly when it is suspect; and every gossip counter is
    between 1 and [GOSSIP_REPEATS]. *)
Theorem node_views_invariant id c s :
  1 <= passive_size c -> rtc runs (membership_new id c) s -> views_ok c id (views s).
Proof.
  intros Hc Hr. assert (Hs : rtc section (membership_new id c) s).
  { clear Hc. induction Hr as [|s1 s2 s3 Hrun _ IH]; [done|]. etransitivity; [by apply runs_sections|done]. }
  apply sections_ok in Hs as (E1 & E2 & Hok); [|done|by apply membership_new_ok].
  cbn in E1, E2. by rewrite E1, E2 in Hok.
Qed.
End views_invariant.

(** An environment for the evaluations: addresses are their own text, every
    peer accepts a neighbour and has no members to tell, nothing is shuffled. *)
Definition toy_addrs : Addrs := {|
  PeerAddr := string;
  addr_node_id := str_bytes;
  addr_to_string := fun a => a;
  addr_parse := fun s => match s with EmptyString => None | _ => Some s end
|}.

Definition toy_env : @Env toy_addrs := {|
  now_at := fun n => 1000 * Z.of_nat n;
  draw_at := fun n => n;
  shuffle_at := fun _ _ l => l;
  own_addr_at := fun _ => "me"%string : @PeerAddr toy_addrs;
  request_at := fun _ _ m =>
    match m with
    | M_Neighbor _ => Some (M_NeighborReply (mk_NeighborReply true))
    | M_MemberSync _ => Some (M_MemberSync (mk_MemberSync []))
    | _ => None
    end;
  oneway_at := fun _ _ _ => true;
  ping_at := fun _ _ => None;
  rebind_at := fun _ => false
|}.

Lemma toy_env_laws : @EnvLaws toy_addrs toy_env.
Proof. by split. Qed.

Definition ex_node : @Membership toy_addrs :=
  (@seed toy_addrs toy_env ["a"; "b"]%string (@membership_new toy_addrs (str_bytes "me") config_default)).2.

Lemma node_views_invariant_witness :
  size (active (views ex_node)) = 2%nat /\ @views_ok toy_addrs config_default (str_bytes "me") (views ex_node).
Proof.
  split; [vm_compute; reflexivity|].
  apply (@node_views_invariant toy_addrs toy_env toy_env_laws toy_blake3 toy_wire_codec (str_bytes "me") config_default); [done|].
  apply rtc_once, runs_seed.
Defined.
