(* ===== verification/MembershipMerge.v ===== *)
(** Convergence of the member map ([Membership]): merging is a join on
    (incarnation, rank), a full exchange makes two nodes agree on every third
    one, a node refutes a false suspicion, and equal digests mean equal
    censuses. *)

From S2P Require Import Prelude Crypto Wire Membership MembershipViews.

Open Scope Z_scope.

(** ** Claims: an incarnation and a state *)

Definition claim : Type := Z * MemberState.

(** The larger of two claims, the first one on a tie. *)
Definition claim_lt (a b : claim) : bool :=
  (a.1 <? b.1) || ((b.1 =? a.1) && (rank a.2 <? rank b.2)).

Definition claim_max (a b : claim) : claim := if claim_lt a b then b else a.

Lemma rank_inj s t : rank s = rank t -> s = t.
Proof. destruct s, t; cbn; congruence. Qed.

Lemma from_to_u8 s : from_u8 (to_u8 s) = s.
Proof. by destruct s. Qed.

Lemma claim_lt_spec a b : claim_lt a b = true <-> a.1 < b.1 \/ (a.1 = b.1 /\ rank a.2 < rank b.2).
Proof. unfold claim_lt. rewrite orb_true_iff, andb_true_iff, !Z.ltb_lt, Z.eqb_eq. intuition. Qed.

Lemma claim_ge_spec a b : claim_lt a b = false <-> b.1 < a.1 \/ (a.1 = b.1 /\ rank b.2 <= rank a.2).
Proof.
  destruct (claim_lt a b) eqn:E; [apply claim_lt_spec in E; split; [done|lia]|].
  split; [|done]. intros _. assert (~ (claim_lt a b = true)) as Hn by congruence. rewrite claim_lt_spec in Hn. lia.
Qed.

Lemma claim_eq (a b : claim) : a.1 = b.1 -> rank a.2 = rank b.2 -> a = b.
Proof. destruct a, b; cbn. by intros -> ->%rank_inj. Qed.

(** Case analysis on a [claim_max]. *)
Ltac claim_cases :=
  unfold claim_max in *;
  repeat match goal with
  | |- context [claim_lt ?a ?b] => is_var a; is_var b; destruct (claim_lt a b) eqn:?
  end;
  rewrite ?claim_lt_spec, ?claim_ge_spec in *.

Lemma claim_max_comm a b : claim_max a b = claim_max b a.
Proof. claim_cases; try done; try lia. apply claim_eq; lia. Qed.

Lemma claim_max_assoc a b c : claim_max a (claim_max b c) = claim_max (claim_max a b) c.
Proof. claim_cases; try done; try lia; try (apply claim_eq; lia). Qed.

Lemma claim_max_idem a : claim_max a a = a.
Proof. claim_cases; done. Qed.

(** With nothing known as the least claim. *)
Definition claim_join (a b : option claim) : option claim :=
  match a, b with Some x, Some y => Some (claim_max x y) | Some x, None => Some x | None, b => b end.

#[export] Instance claim_join_comm : Comm (=) claim_join.
Proof. intros [a|] [b|]; cbn; try done. by rewrite claim_max_comm. Qed.
#[export] Instance claim_join_assoc : Assoc (=) claim_join.
Proof. intros [a|] [b|] [c|]; cbn; try done. by rewrite claim_max_assoc. Qed.
#[export] Instance claim_join_idem : IdemP (=) claim_join.
Proof. intros [a|]; cbn; [|done]. by rewrite claim_max_idem. Qed.
#[export] Instance claim_join_none_l : LeftId (=) None claim_join.
Proof. by intros [a|]. Qed.

(** The join of a list does not see order or repetition. *)
Definition joins (l : list (option claim)) : option claim := foldr claim_join None l.

Lemma joins_cons x l : joins (x :: l) = claim_join x (joins l).
Proof. done. Qed.

Lemma joins_app l k : joins (l ++ k) = claim_join (joins l) (joins k).
Proof.
  induction l as [|x l IH]; [symmetry; apply (left_id None claim_join)|]. cbn [app].
  by rewrite !joins_cons, IH, (assoc claim_join).
Qed.

Lemma joins_absorb l x : x ∈ l -> claim_join x (joins l) = joins l.
Proof.
  induction l as [|y l IH]; [by intros ?%not_elem_of_nil|]. rewrite joins_cons. intros [->|Hin]%elem_of_cons.
  - by rewrite (assoc claim_join), (idemp claim_join).
  - by rewrite (assoc claim_join x y), (comm claim_join x y), <- (assoc claim_join), IH.
Qed.

Lemma joins_sub l k : (forall x, x ∈ l -> x ∈ k) -> claim_join (joins l) (joins k) = joins k.
Proof.
  induction l as [|x l IH]; intros Hs; [apply (left_id None claim_join)|]. rewrite joins_cons.
  rewrite <- (assoc claim_join), IH by set_solver. apply joins_absorb. set_solver.
Qed.

Lemma joins_set l k : (forall x, x ∈ l <-> x ∈ k) -> joins l = joins k.
Proof.
  intros E. rewrite <- (joins_sub l k) by (intros; by apply E).
  rewrite (comm claim_join). symmetry. apply joins_sub. intros x ?. by apply E.
Qed.

(** A list of one claim, and of nothing. *)
Lemma joins_unique c l : (forall x, x ∈ l -> x = None \/ x = c) -> c = None \/ c ∈ l -> joins l = c.
Proof.
  intros Hl Hc. assert (Hle : claim_join (joins l) c = c).
  { clear Hc. induction l as [|x l IH]; [apply (left_id None claim_join)|]. rewrite joins_cons, <- (assoc claim_join).
    rewrite IH by set_solver. destruct (Hl x) as [-> | ->]; [set_solver|apply (left_id None claim_join)|apply (idemp claim_join)]. }
  destruct Hc as [->|Hin]; [by rewrite (comm claim_join), (left_id None claim_join) in Hle|].
  by rewrite <- Hle, (comm claim_join), joins_absorb.
Qed.

Section merge.
Context `{Env}.

(** What a map knows of [id], and what an entry claims of it. *)
Definition live (ms : gmap key Member) (id : key) : option claim :=
  (fun m => (incarnation m, mstate m)) <$> ms !! id.

Definition claim_of (id : key) (e : MemberEntry) : option claim :=
  match addr_parse (me_addr e) with
  | Some _ => if bool_decide (me_id e = id) then Some (me_incarnation e, from_u8 (me_state e)) else None
  | None => None
  end.

Lemma merge_one_live ms e now id : live (merge_one ms e now).2 id = claim_join (live ms id) (claim_of id e).
Proof.
  unfold merge_one, claim_of, live. destruct (addr_parse (me_addr e)) as [a|].
  2:{ rewrite (comm claim_join). by rewrite (left_id None claim_join). }
  destruct (decide (me_id e = id)) as [<-|Hne].
  2:{ rewrite bool_decide_false, (comm claim_join), (left_id None claim_join) by done.
      destruct (ms !! me_id e); cbn; by rewrite lookup_insert_ne. }
  rewrite bool_decide_true by done. destruct (ms !! me_id e) as [m|]; cbn; rewrite lookup_insert_eq; [|done].
  cbn. unfold claim_max, claim_lt, incoming_wins. cbn. destruct (_ || _); cbn; destruct (_ <? _); done.
Qed.

(** ** A node's merge *)

Definition known (s : Membership) (id : key) : option claim := live (members (views s)) id.

Lemma merge_loop_known me es acc s id :
  id <> me ->
  known (merge_loop me es acc s).2 id = claim_join (known s id) (joins (map (claim_of id) es)) /\
  my_id (merge_loop me es acc s).2 = my_id s.
Proof.
  intros Hid. revert acc s. induction es as [|e es IH]; intros acc s; cbn [merge_loop map].
  { split; [|done]. by rewrite (comm claim_join). }
  rewrite joins_cons. destruct (decide (me_id e = me)) as [Heq|Hne].
  - rewrite bool_decide_true by done.
    assert (Hc : claim_of id e = None).
    { unfold claim_of. destruct (addr_parse _); [|done]. rewrite bool_decide_false; [done|]. congruence. }
    rewrite Hc, (left_id None claim_join). destruct (bool_decide _); [|apply IH].
    exact (IH (true, acc.2) (put_self_inc (sat_add (Z.max (me_incarnation e) (self_incarnation s)) 1) s).2).
  - rewrite bool_decide_false by done. rewrite bind_now, bind_views.
    change (views (ticked s)) with (views s).
    pose proof (merge_one_live (members (views s)) e (now_at (tick s)) id) as Hm.
    unfold merge_views. destruct (merge_one (members (views s)) e (now_at (tick s))) as [ch ms]. cbn in Hm.
    rewrite (assoc claim_join). unfold known at 2. rewrite <- Hm. unfold mbind, M_bind. cbn.
    destruct (IH (acc.1, acc.2 || ch) (put_views (if ch then set_dirty (set_members (views s) ms)
      (<[me_id e := GOSSIP_REPEATS]> (dirty (views s))) else set_members (views s) ms) (ticked s)).2) as [E1 E2].
    split; [etransitivity; [apply E1|]|etransitivity; [apply E2|done]]. by destruct ch.
Qed.

(** Methods that leave what is known of another node alone. *)
Definition keeps_known {A} (id : key) (m : M A) : Prop :=
  forall s, id <> my_id s -> known (m s).2 id = known s id /\ my_id (m s).2 = my_id s.

Lemma keeps_bind {A B} id (m : M A) (k : A -> M B) :
  keeps_known id m -> (forall a, keeps_known id (k a)) -> keeps_known id (m ≫= k).
Proof.
  intros Hm Hk s Hid. unfold mbind, M_bind. specialize (Hm s Hid). destruct (m s) as [a s']. cbn in *.
  destruct Hm as [E1 E2]. destruct (Hk a s') as [E3 E4]; [by rewrite E2|]. by rewrite E3, E4.
Qed.

(** The node's own record after [refresh_self]. *)
Lemma refresh_members s :
  members (views (refresh_self s).2) =
  <[my_id s := mk_member (own_addr_at (tick s)) (now_at (S (tick s))) (self_incarnation s) Alive None]>
    (members (views s)).
Proof. done. Qed.

Lemma keeps_refresh id : keeps_known id refresh_self.
Proof.
  intros s Hid. split; [|done]. unfold known, live. by rewrite refresh_members, lookup_insert_ne.
Qed.

Ltac keeps := repeat first [apply keeps_refresh | apply keeps_bind; [|intros ?] | case_match | by intros ? ?].

Lemma keeps_finish id me before r : keeps_known id (merge_finish me before r).
Proof. unfold merge_finish. destruct r as [refute dirtied]. keeps. Qed.

Lemma merge_members_run es s :
  merge_members es s = (let '(r, s') := merge_loop (my_id s) es (false, false) s in
    merge_finish (my_id s) (views s) r s').
Proof. done. Qed.

Lemma merge_members_known es s id :
  id <> my_id s ->
  known (merge_members es s).2 id = claim_join (known s id) (joins (map (claim_of id) es)) /\
  my_id (merge_members es s).2 = my_id s.
Proof.
  intros Hid. destruct (merge_loop_known (my_id s) es (false, false) s id Hid) as [E1 E2].
  rewrite merge_members_run. destruct (merge_loop _ es _ s) as [r s']. cbn in *.
  destruct (keeps_finish id (my_id s) (views s) r s') as [E3 E4]; [by rewrite E2|]. by rewrite E3, E4.
Qed.

(** Batches of entries merged one after another. *)
Definition merge_batches (bs : list (list MemberEntry)) : M unit := for_each merge_members bs.

Lemma merge_batches_known bs s id :
  id <> my_id s ->
  known (merge_batches bs s).2 id = claim_join (known s id) (joins (map (claim_of id) (concat bs))) /\
  my_id (merge_batches bs s).2 = my_id s.
Proof.
  unfold merge_batches. revert s. induction bs as [|b bs IH]; intros s Hid; cbn [for_each concat map].
  { split; [|done]. by rewrite (comm claim_join). }
  destruct (merge_members_known b s id Hid) as [E1 E2]. unfold mbind, M_bind.
  destruct (merge_members b s) as [u s']. cbn in *. destruct (IH s') as [E3 E4]; [by rewrite E2|].
  rewrite E3, E4, E1. split; [|done]. rewrite <- (assoc claim_join). f_equal. rewrite map_app.
  by rewrite joins_app.
Qed.
End merge.

(** C28: The member map converges: two nodes that know the same of a third one
    and then receive the same entries, in any order, in any batches and with
    any repetition, at any times, end with the same incarnation and state for
    it, the greatest claim by incarnation and then by rank. *)
Theorem gossip_converges `{A : Addrs} (Ea Eb : Env) (a b : Membership) (bas bbs : list (list MemberEntry)) (id : key) :
  id <> my_id a -> id <> my_id b -> known a id = known b id ->
  (forall e, e ∈ concat bas <-> e ∈ concat bbs) ->
  known (@merge_batches A Ea bas a).2 id = known (@merge_batches A Eb bbs b).2 id /\
  known (@merge_batches A Ea bas a).2 id = claim_join (known a id) (joins (map (claim_of id) (concat bas))).
Proof.
  intros Ha Hb E Hs. destruct (@merge_batches_known A Ea bas a id Ha) as [E1 _].
  destruct (@merge_batches_known A Eb bbs b id Hb) as [E2 _]. rewrite E1, E2, E. split; [|done]. f_equal.
  apply joins_set. intros x. rewrite !list_elem_of_fmap. by setoid_rewrite Hs.
Qed.

(** ** A full exchange *)

(** Every address of the map survives its text form. *)
Definition addrs_ok `{Addrs} (ms : gmap key Member) : Prop :=
  map_Forall (fun _ m => addr_parse (addr_to_string (m_addr m)) = Some (m_addr m)) ms.

Lemma claims_of_entries `{Addrs} (v : Views) id :
  addrs_ok (members v) -> joins (map (claim_of id) (entries_of v)) = live (members v) id.
Proof.
  intros Hok. unfold entries_of, live. rewrite map_map. set (f := fun p : key * Member => claim_of id (member_entry p.1 p.2)).
  assert (Hf : forall k m, members v !! k = Some m -> f (k, m) = if decide (k = id) then Some (incarnation m, mstate m) else None).
  { intros k m Hk. unfold f, claim_of. cbn. rewrite (Hok k m Hk), from_to_u8. case_decide.
    - by rewrite bool_decide_true.
    - by rewrite bool_decide_false. }
  apply joins_unique.
  - intros x ([k m] & -> & Hk%elem_of_map_to_list)%list_elem_of_fmap. rewrite (Hf k m Hk).
    case_decide; [subst; right; by rewrite Hk|by left].
  - destruct (members v !! id) as [m|] eqn:Hm; [right|by left]. apply list_elem_of_fmap. exists (id, m).
    split; [|by apply elem_of_map_to_list]. by rewrite (Hf id m Hm), decide_True.
Qed.

(** The answer to a [MemberSync] and the state after it. *)
Lemma handle_sync_run `{Env} `{Blake3} sync s :
  handle_message (M_MemberSync sync) s =
  let s' := (refresh_self (merge_members (ms_members sync) s).2).2 in
  (Some (M_MemberSync (mk_MemberSync (entries_of (views s')))), s').
Proof.
  unfold handle_message. unfold mbind, M_bind. destruct (merge_members _ s) as [u s1]. cbn [snd].
  by destruct (refresh_self s1) as [u2 s2].
Qed.

Lemma handle_sync_known `{Env} `{Blake3} (v : Views) s id :
  id <> my_id s -> addrs_ok (members v) ->
  let s' := (handle_message (M_MemberSync (mk_MemberSync (entries_of v))) s).2 in
  known s' id = claim_join (known s id) (live (members v) id) /\ my_id s' = my_id s.
Proof.
  intros Hid Hok. rewrite handle_sync_run. cbn zeta. cbn [snd ms_members].
  destruct (merge_members_known (entries_of v) s id Hid) as [E1 E2].
  destruct (keeps_refresh id (merge_members (entries_of v) s).2) as [E3 E4]; [by rewrite E2|].
  by rewrite E3, E4, E1, E2, claims_of_entries.
Qed.

(** [sync_members_with] when the peer answers [es]. *)
Lemma sync_run `{Env} peer s es :
  (forall n, request_at n peer (M_MemberSync (mk_MemberSync (entries_of (views (refresh_self s).2)))) =
    Some (M_MemberSync (mk_MemberSync es))) ->
  exists s1, sync_members_with peer s = merge_members es s1 /\
    members (views s1) = members (views (refresh_self s).2) /\ my_id s1 = my_id s.
Proof.
  intros Hreq. unfold sync_members_with. unfold mbind at 1, M_bind at 1.
  pose proof (eq_refl (my_id (refresh_self s).2) : my_id (refresh_self s).2 = my_id s) as Hme.
  destruct (refresh_self s) as [u s0]. cbn [snd] in *. unfold mbind at 1, M_bind at 1. cbn [member_entries].
  unfold request. unfold member_entries, mbind, M_bind. cbn. rewrite Hreq. by eexists.
Qed.

(** One full exchange makes two nodes agree on every third node: when [a]
    syncs with [b] and gets [b]'s answer, both end with the join of what the
    two knew, the greater claim by incarnation and rank. *)
Theorem full_sync_agrees `{A : Addrs} `{Blake3} (Ea Eb : Env) (a b : Membership) (peer : PeerAddr) (id : key) :
  let a1 := (@refresh_self A Ea a).2 in
  let msg := M_MemberSync (mk_MemberSync (entries_of (views a1))) in
  let b' := (@handle_message A Eb _ msg b).2 in
  let a' := (@sync_members_with A Ea peer a).2 in
  (forall n, @request_at A Ea n peer msg = (@handle_message A Eb _ msg b).1) ->
  addrs_ok (members (views a1)) -> addrs_ok (members (views b')) ->
  id <> my_id a -> id <> my_id b ->
  known a' id = known b' id /\ known b' id = claim_join (known a id) (known b id).
Proof.
  intros a1 msg b' a' Hreq Hoka Hokb Ha Hb.
  destruct (@handle_sync_known A Eb _ (views a1) b id Hb Hoka) as [E1 _]. fold msg b' in E1.
  destruct (@keeps_refresh A Ea id a Ha) as [E2 _]. fold a1 in E2. unfold known at 1 in E2. rewrite E2 in E1.
  rewrite (comm claim_join) in E1. split; [|done].
  assert (Hr : forall n, @request_at A Ea n peer msg = Some (M_MemberSync (mk_MemberSync (entries_of (views b'))))).
  { intros n. rewrite Hreq. unfold b', msg. rewrite handle_sync_run. done. }
  destruct (@sync_run A Ea peer a (entries_of (views b')) Hr) as (s1 & E3 & E4 & E5).
  unfold a'. rewrite E3. destruct (@merge_members_known A Ea (entries_of (views b')) s1 id) as [E6 _]; [by rewrite E5|].
  rewrite E6, claims_of_entries by done. unfold known at 1. rewrite E4. fold a1. rewrite E2.
  change (live (members (views b')) id) with (known b' id). rewrite E1.
  by rewrite (assoc claim_join), (idemp claim_join).
Qed.

(** ** Refutation *)

Section refutation.
Context `{Env}.

(** An entry that suspects or buries [me]. *)
Definition suspicion (me : key) (e : MemberEntry) : Prop := me_id e = me /\ from_u8 (me_state e) <> Alive.

Lemma merge_loop_refutes me es acc s :
  self_incarnation s <= U64_MAX ->
  let s' := (merge_loop me es acc s).2 in
  self_incarnation s <= self_incarnation s' <= U64_MAX /\
  (acc.1 = true -> (merge_loop me es acc s).1.1 = true) /\
  (forall e, e ∈ es -> suspicion me e ->
    Z.min (me_incarnation e + 1) U64_MAX <= self_incarnation s' /\ (merge_loop me es acc s).1.1 = true).
Proof.
  revert acc s. induction es as [|e es IH]; intros acc s Hs.
  { split; [cbn; lia|]. split; [done|]. by intros e ?%not_elem_of_nil. }
  destruct (decide (me_id e = me)) as [He|He]; [destruct (decide (from_u8 (me_state e) <> Alive)) as [Hst|Hst]|].
  - set (s1 := (put_self_inc (sat_add (Z.max (me_incarnation e) (self_incarnation s)) 1) s).2).
    assert (Eq : merge_loop me (e :: es) acc s = merge_loop me es (true, acc.2) s1)
      by (cbn [merge_loop]; by rewrite !bool_decide_true by done).
    assert (Hs1 : self_incarnation s <= self_incarnation s1 <= U64_MAX /\
      Z.min (me_incarnation e + 1) U64_MAX <= self_incarnation s1) by (unfold s1, sat_add; cbn; lia).
    destruct (IH (true, acc.2) s1) as (H1 & H2 & H3); [apply Hs1|]. rewrite Eq. cbn zeta in *.
    split; [lia|]. split; [intros _; by apply H2|].
    intros e' [->|Hin]%elem_of_cons Hsus; [split; [lia|by apply H2]|by apply H3].
  - assert (Eq : merge_loop me (e :: es) acc s = merge_loop me es acc s)
      by (cbn [merge_loop]; by rewrite bool_decide_true, bool_decide_false by done).
    destruct (IH acc s Hs) as (H1 & H2 & H3). rewrite Eq. cbn zeta in *. split; [lia|]. split; [done|].
    intros e' [->|Hin]%elem_of_cons Hsus; [by destruct Hsus|by apply H3].
  - destruct (merge_views e (now_at (tick s)) (views s)) as [ch v'] eqn:Hm.
    set (s1 := (put_views v' (ticked s)).2).
    assert (Eq : merge_loop me (e :: es) acc s = merge_loop me es (acc.1, acc.2 || ch) s1).
    { cbn [merge_loop]. rewrite bool_decide_false by done. rewrite bind_now, bind_views.
      change (views (ticked s)) with (views s). by rewrite Hm. }
    destruct (IH (acc.1, acc.2 || ch) s1 Hs) as (H1 & H2 & H3). rewrite Eq. cbn zeta in *.
    split; [done|]. split; [done|]. intros e' [->|Hin]%elem_of_cons Hsus; [by destruct Hsus|by apply H3].
Qed.

Lemma merge_loop_my_id me es acc s : my_id (merge_loop me es acc s).2 = my_id s.
Proof.
  assert (Hx : exists id : key, id <> me) by (exists (0 :: me); intros E; apply (f_equal length) in E; cbn in E; lia).
  destruct Hx as [id Hid]. by destruct (merge_loop_known me es acc s id Hid).
Qed.

(** The node's record and gossip counter after a batch that suspected it. *)
Lemma merge_members_refuted es s e :
  self_incarnation s <= U64_MAX -> e ∈ es -> suspicion (my_id s) e ->
  exists m, members (views (merge_members es s).2) !! my_id s = Some m /\ mstate m = Alive /\
    Z.min (me_incarnation e + 1) U64_MAX <= incarnation m /\
    dirty (views (merge_members es s).2) !! my_id s = Some GOSSIP_REPEATS.
Proof.
  intros Hs Hin Hsus. rewrite merge_members_run. pose proof (merge_loop_my_id (my_id s) es (false, false) s) as Hid.
  destruct (merge_loop_refutes (my_id s) es (false, false) s Hs) as (_ & _ & Hr).
  destruct (Hr e Hin Hsus) as [Hinc Href]. clear Hr. destruct (merge_loop _ es _ s) as [[refute dirtied] s']. cbn in *. subst refute.
  unfold merge_finish. rewrite bind_views.
  set (s2 := (mark_dirty (my_id s) (refresh_self s').2).2).
  assert (H2 : members (views s2) !! my_id s = Some (mk_member (own_addr_at (tick s')) (now_at (S (tick s'))) (self_incarnation s') Alive None)
    /\ dirty (views s2) !! my_id s = Some GOSSIP_REPEATS).
  { split; [|apply lookup_insert_eq]. change (members (views s2)) with (members (views (refresh_self s').2)).
    rewrite refresh_members, Hid. apply lookup_insert_eq. }
  match goal with |- context [((refresh_self ≫= fun _ => mark_dirty _) ≫= ?k) s'] =>
    change (((refresh_self ≫= fun _ => mark_dirty (my_id s)) ≫= k) s') with (k tt s2) end.
  rewrite orb_true_r. rewrite bind_now. unfold mbind, M_bind, get_last_epidemic. cbn zeta.
  destruct (_ <=? _); (eexists; split; [apply H2|]; split; [done|]; split; [done|apply H2]).
Qed.

(** A suspected node refutes: after merging any batch that calls it suspect
    or dead at an incarnation below [u64::MAX], its own record is alive at a
    higher incarnation and queued for gossip, and that record, merged by any
    node that knew it at most at the false incarnation, makes it alive there. *)
Theorem refutation_prevails es s e :
  self_incarnation s <= U64_MAX -> e ∈ es -> suspicion (my_id s) e -> me_incarnation e < U64_MAX ->
  exists m, members (views (merge_members es s).2) !! my_id s = Some m /\
    dirty (views (merge_members es s).2) !! my_id s = Some GOSSIP_REPEATS /\
    forall ms now c, live ms (my_id s) = Some c -> c.1 <= me_incarnation e ->
      addr_parse (addr_to_string (m_addr m)) <> None ->
      live (merge_one ms (member_entry (my_id s) m) now).2 (my_id s) = Some (incarnation m, Alive).
Proof.
  intros Hs Hin Hsus Hmax. destruct (merge_members_refuted es s e Hs Hin Hsus) as (m & Hm & Hal & Hinc & Hd).
  exists m. split; [done|]. split; [done|]. intros ms now c Hc Hle Hp. rewrite merge_one_live, Hc.
  unfold claim_of. cbn. destruct (addr_parse (addr_to_string (m_addr m))); [|done].
  rewrite bool_decide_true, from_to_u8, Hal by done. cbn. unfold claim_max.
  rewrite (proj2 (claim_lt_spec _ _)); [done|]. left. cbn. lia.
Qed.

(** At [u64::MAX] there is nothing above to re-assert: a death claimed there
    outranks the refutation for good. *)
Lemma death_at_max_is_final ms e' now id a :
  live ms id = Some (U64_MAX, Dead) -> me_id e' = id -> addr_parse (me_addr e') = Some a ->
  me_incarnation e' <= U64_MAX -> live (merge_one ms e' now).2 id = Some (U64_MAX, Dead).
Proof.
  intros Hl Hid Ha Hmax. rewrite merge_one_live, Hl. unfold claim_of. rewrite Ha, bool_decide_true by done. cbn.
  unfold claim_max. replace (claim_lt _ _) with false; [done|]. symmetry. apply claim_ge_spec. cbn.
  destruct (Z.eq_dec (me_incarnation e') U64_MAX) as [->|]; [|lia]. right. split; [done|]. by destruct (from_u8 _); cbn.
Qed.

(** A member last heard in the future is never pruned nor silent, whatever the clock reads before that. *)
Lemma future_member_stays c me v now id m :
  members v !! id = Some m -> now <= last_heard_ms m -> 0 < dead_retention c ->
  members (prune_views c me now v) !! id = Some m.
Proof.
  intros Hm Hf Hr. cbn. apply map_lookup_filter_Some. split; [done|]. right. cbn. unfold sat_sub. lia.
Qed.
End refutation.

(** ** Evaluations *)

Definition ex_entry (id : string) (inc : Z) (st : MemberState) : MemberEntry :=
  mk_MemberEntry (str_bytes id) id 10 inc (to_u8 st).

Definition ex_me : @Membership toy_addrs := @membership_new toy_addrs (str_bytes "me") config_default.
Definition ex_you : @Membership toy_addrs := @membership_new toy_addrs (str_bytes "you") config_default.

Lemma gossip_converges_witness :
  let b1 := [[ex_entry "x" 3 Suspect; ex_entry "x" 2 Dead]; [ex_entry "x" 3 Alive]] in
  let b2 := [[ex_entry "x" 3 Alive]; [ex_entry "x" 2 Dead]; [ex_entry "x" 3 Suspect; ex_entry "x" 2 Dead]] in
  known (@merge_batches toy_addrs toy_env b1 ex_me).2 (str_bytes "x") = Some (3, Suspect) /\
  known (@merge_batches toy_addrs toy_env b2 ex_you).2 (str_bytes "x") = Some (3, Suspect).
Proof.
  intros b1 b2. destruct (@gossip_converges toy_addrs toy_env toy_env ex_me ex_you b1 b2 (str_bytes "x")) as [E1 E2];
    [done|done|done|intros e; unfold b1, b2; cbn; set_solver|].
  assert (E3 : known (@merge_batches toy_addrs toy_env b1 ex_me).2 (str_bytes "x") = Some (3, Suspect)) by (rewrite E2; vm_compute; reflexivity).
  split; [exact E3|]. rewrite <- E1. exact E3.
Defined.

Definition ex_a : @Membership toy_addrs :=
  (@merge_members toy_addrs toy_env [ex_entry "x" 3 Alive; ex_entry "y" 1 Dead] ex_me).2.
Definition ex_b : @Membership toy_addrs :=
  (@merge_members toy_addrs toy_env [ex_entry "x" 3 Suspect; ex_entry "z" 5 Alive] ex_you).2.

(** The environment of [ex_a] when [ex_b] answers its requests. *)
Definition ex_answered : @Env toy_addrs := {|
  now_at := fun n => 1000 * Z.of_nat n;
  draw_at := fun n => n;
  shuffle_at := fun _ _ l => l;
  own_addr_at := fun _ => "me"%string : @PeerAddr toy_addrs;
  request_at := fun _ _ m => (@handle_message toy_addrs toy_env toy_blake3 m ex_b).1;
  oneway_at := fun _ _ _ => true;
  ping_at := fun _ _ => None;
  rebind_at := fun _ => false
|}.

Lemma full_sync_agrees_witness :
  known (@sync_members_with toy_addrs ex_answered "you"%string ex_a).2 (str_bytes "x") = Some (3, Suspect).
Proof.
  destruct (@full_sync_agrees toy_addrs toy_blake3 ex_answered toy_env ex_a ex_b "you"%string (str_bytes "x"))
    as [E1 E2]; [intros n; reflexivity|apply (bool_decide_unpack _); vm_compute; exact I|apply (bool_decide_unpack _); vm_compute; exact I|
    vm_compute; discriminate|vm_compute; discriminate|].
  rewrite E1, E2. vm_compute. reflexivity.
Defined.

Lemma refutation_prevails_witness :
  exists m : @Member toy_addrs, members (views (@merge_members toy_addrs toy_env [ex_entry "x" 1 Alive; ex_entry "me" 4 Dead] ex_me).2) !! str_bytes "me" = Some m /\
    forall (ms : gmap key (@Member toy_addrs)) now c, live ms (str_bytes "me") = Some c -> c.1 <= 4 ->
      @addr_parse toy_addrs (addr_to_string (m_addr m)) <> None ->
      live (merge_one ms (member_entry (str_bytes "me") m) now).2 (str_bytes "me") = Some (incarnation m, Alive).
Proof.
  destruct (@refutation_prevails toy_addrs toy_env [ex_entry "x" 1 Alive; ex_entry "me" 4 Dead] ex_me (ex_entry "me" 4 Dead))
    as (m & Hm & _ & Hall); [done|set_solver|by split|done|].
  exists m. split; [exact Hm|exact Hall].
Defined.

(** A death of the node claimed at [u64::MAX] is refuted at [u64::MAX], which
    every node that holds the claim ignores. *)
Example refutation_fails_at_max :
  let s := (@merge_members toy_addrs toy_env [ex_entry "me" U64_MAX Dead] ex_me).2 in
  let peer := (@merge_members toy_addrs toy_env [ex_entry "me" U64_MAX Dead] ex_you).2 in
  known s (str_bytes "me") = Some (U64_MAX, Alive) /\
  known (@merge_members toy_addrs toy_env (entries_of (views s)) peer).2 (str_bytes "me") = Some (U64_MAX, Dead).
Proof. vm_compute. done. Qed.
