(* ===== verification/MembershipCensus.v ===== *)
(** Digests and censuses of [Membership]: equal digests mean equal censuses,
    and the loop that fills the active view ends with it full or no candidate
    left. *)

From S2P Require Import Prelude Crypto Wire Membership MembershipViews MembershipMerge.

Open Scope Z_scope.

Lemma concat_chunks_inj {A} (n : nat) (l k : list (list A)) :
  (0 < n)%nat -> Forall (fun c => length c = n) l -> Forall (fun c => length c = n) k ->
  concat l = concat k -> l = k.
Proof.
  intros Hn Hl. revert k. induction Hl as [|x l Hx Hl IH]; intros [|y k] Hk E; cbn in E.
  - done.
  - apply list.Forall_cons in Hk as [Hy _]. apply (f_equal length) in E. rewrite length_app in E. cbn in E. lia.
  - apply (f_equal length) in E. rewrite length_app in E. cbn in E. lia.
  - apply list.Forall_cons in Hk as [Hy Hk]. apply app_inj_length in E as [-> E]; [|congruence]. f_equal. by apply IH.
Qed.

Section census.
Context `{Addrs} `{Blake3}.

(** Ids are 32 bytes and incarnations u64, as their types say. *)
Definition map_ok (ms : gmap key Member) : Prop :=
  map_Forall (fun id m => length id = 32%nat /\ is_u64 (incarnation m)) ms.

Lemma elem_of_digest_rows v id i st :
  (id, (i, st)) ∈ digest_rows v <->
  exists m, members v !! id = Some m /\ mstate m <> Dead /\ i = incarnation m /\ st = to_u8 (mstate m).
Proof.
  unfold digest_rows. rewrite elem_of_sort_by, list_elem_of_fmap. split.
  - intros ([k m] & E & Hin). injection E as -> -> ->. apply elem_of_map_to_list, map_lookup_filter_Some in Hin as [? ?].
    by exists m.
  - intros (m & Hm & Hd & -> & ->). exists (id, m). split; [done|].
    apply elem_of_map_to_list, map_lookup_filter_Some. done.
Qed.

Definition row_bytes (r : key * (Z * Z)) : bytes := r.1 ++ le_bytes 8 r.2.1 ++ [r.2.2].

Lemma rows_ok v :
  map_ok (members v) -> Forall (fun r => length r.1 = 32%nat /\ is_u64 r.2.1) (digest_rows v).
Proof.
  intros Hok. apply list.Forall_forall. intros [id [i st]] (m & Hm & _ & -> & ->)%elem_of_digest_rows.
  by apply (Hok id m Hm).
Qed.

Lemma rows_inj l k :
  Forall (fun r : key * (Z * Z) => length r.1 = 32%nat /\ is_u64 r.2.1) l ->
  Forall (fun r : key * (Z * Z) => length r.1 = 32%nat /\ is_u64 r.2.1) k ->
  map row_bytes l = map row_bytes k -> l = k.
Proof.
  intros Hl. revert k. induction Hl as [|[id [i st]] l [Hx Hi] Hl IH]; intros [|[id' [i' st']] k] Hk E; try done.
  apply list.Forall_cons in Hk as [[Hy Hi'] Hk]. cbn [map] in E. injection E as E Et.
  unfold row_bytes in E. cbn [fst snd] in *. apply app_inj_length in E as [-> E]; [|congruence].
  apply app_inj_length in E as [Ei Es]; [|done]. apply le_bytes8_inj in Ei as ->; [|done..].
  injection Es as ->. f_equal. by apply IH.
Qed.

Lemma digest_bytes_inj va vb :
  map_ok (members va) -> map_ok (members vb) -> digest_bytes va = digest_bytes vb -> digest_rows va = digest_rows vb.
Proof.
  intros Ha Hb E. pose proof (rows_ok va Ha) as Ra. pose proof (rows_ok vb Hb) as Rb. apply rows_inj; [done..|].
  apply (concat_chunks_inj 41); [lia| | |exact E]; apply Forall_map;
    [revert Ra|revert Rb]; apply Forall_impl; intros r [Hr _]; unfold row_bytes; rewrite !length_app, Hr; done.
Qed.

Lemma rows_known s id c :
  c.2 <> Dead -> (known s id = Some c <-> (id, (c.1, to_u8 c.2)) ∈ digest_rows (views s)).
Proof.
  intros Hc. rewrite elem_of_digest_rows. unfold known, live. rewrite fmap_Some. split.
  - intros (m & Hm & ->). by exists m.
  - intros (m & Hm & Hd & Ei & Es). exists m. split; [done|]. apply rank_inj in Es. destruct c; cbn in *. congruence.
Qed.

(** Every member that is not dead was heard within the retention time. *)
Definition none_silent (now : Z) (s : Membership) : Prop :=
  map_Forall (fun _ m => mstate m <> Dead -> sat_sub now (last_heard_ms m) < dead_retention (cfg s)) (members (views s)).

Lemma elem_of_census now own s id :
  none_silent now s ->
  id ∈ map fst (census now own s) <-> id = my_id s \/ exists c, known s id = Some c /\ c.2 <> Dead.
Proof.
  intros Hn. unfold census. cbn [map fst]. rewrite elem_of_cons, list_elem_of_fmap. unfold known, live. split.
  - intros [?|(p & -> & Hp)]; [by left|]. apply list_elem_of_omap in Hp as ([k m] & Hk%elem_of_map_to_list & E).
    cbn in E. destruct (bool_decide (k = my_id s)); [done|]. destruct (bool_decide_reflect (mstate m <> Dead)); [|done].
    destruct (_ <? _); [|done]. injection E as <-. right. exists (incarnation m, mstate m). cbn. by rewrite Hk.
  - intros [?|(c & (m & Hm & ->)%fmap_Some & Hd)]; [by left|]. destruct (decide (id = my_id s)) as [|Hne]; [by left|].
    right. exists (id, m_addr m). split; [done|]. apply list_elem_of_omap. exists (id, m).
    split; [by apply elem_of_map_to_list|]. cbn in *. rewrite bool_decide_false, bool_decide_true by done.
    rewrite (proj2 (Z.ltb_lt _ _)); [done|]. by apply (Hn id m Hm).
Qed.

(** Equal digests mean equal censuses: when two nodes' digests agree and
    BLAKE3 does not collide on the two digested byte strings, they know the
    same of every member that is not dead; and when each holds its own record
    and no member has been silent past the retention time, the two censuses
    list the same nodes, so an election over them has one result. *)
Theorem equal_digests_same_census (a b : Membership) (now_a now_b : Z) (own_a own_b : PeerAddr) :
  map_ok (members (views a)) -> map_ok (members (views b)) ->
  (blake3 (digest_bytes (views a)) = blake3 (digest_bytes (views b)) -> digest_bytes (views a) = digest_bytes (views b)) ->
  members_digest (views a) = members_digest (views b) ->
  (forall id c, c.2 <> Dead -> (known a id = Some c <-> known b id = Some c)) /\
  ((exists i, known a (my_id a) = Some (i, Alive)) -> (exists i, known b (my_id b) = Some (i, Alive)) ->
   none_silent now_a a -> none_silent now_b b ->
   forall id, id ∈ map fst (census now_a own_a a) <-> id ∈ map fst (census now_b own_b b)).
Proof.
  intros Ha Hb Hcoll Hdig. assert (Hk : forall id c, c.2 <> Dead -> (known a id = Some c <-> known b id = Some c)).
  { intros id c Hc. rewrite !rows_known by done. by rewrite (digest_bytes_inj (views a) (views b) Ha Hb (Hcoll Hdig)). }
  split; [exact Hk|]. intros [ia Hsa] [ib Hsb] Hna Hnb id. rewrite !elem_of_census by done.
  assert (Hex : (exists c, known a id = Some c /\ c.2 <> Dead) <-> exists c, known b id = Some c /\ c.2 <> Dead).
  { split; intros (c & Hc & Hd); exists c; split; try done; by apply Hk. }
  rewrite Hex. split.
  - intros [-> |?]; [|by right]. right. exists (ia, Alive). split; [by apply Hk|done].
  - intros [-> |?]; [|by right]. right. exists (ib, Alive). by split.
Qed.
End census.

(** ** Filling the active view *)

Section fill.
Context `{EnvLaws}.

(** The two views, which merging and gossip leave alone. *)
Definition same_views (s s' : Membership) : Prop :=
  active (views s') = active (views s) /\ passive (views s') = passive (views s) /\ cfg s' = cfg s.

Definition keeps_views {A} (m : M A) : Prop := forall s, same_views s (m s).2.

Lemma keeps_views_bind {A B} (m : M A) (k : A -> M B) :
  keeps_views m -> (forall a, keeps_views (k a)) -> keeps_views (m ≫= k).
Proof.
  intros Hm Hk s. unfold mbind, M_bind. destruct (Hm s) as (E1 & E2 & E3). destruct (m s) as [a s']. cbn in *.
  destruct (Hk a s') as (E4 & E5 & E6). repeat split; congruence.
Qed.

Lemma merge_loop_views me es acc : keeps_views (merge_loop me es acc).
Proof.
  revert acc. induction es as [|e es IH]; intros acc; cbn [merge_loop]; [by intros s|].
  destruct (bool_decide (me_id e = me)).
  - destruct (bool_decide _); [|apply IH]. apply keeps_views_bind; [by intros s|]. intros inc.
    apply keeps_views_bind; [by intros s|]. intros _. apply IH.
  - intros s. rewrite bind_now, bind_views. unfold merge_views. destruct (merge_one _ _ _) as [ch ms].
    destruct (IH (acc.1, acc.2 || ch) (put_views (if ch then set_dirty (set_members (views s) ms)
      (<[me_id e := GOSSIP_REPEATS]> (dirty (views s))) else set_members (views s) ms) (ticked s)).2) as (E1 & E2 & E3).
    split; [etransitivity; [apply E1|]; by destruct ch|]. split; [etransitivity; [apply E2|]; by destruct ch|exact E3].
Qed.

Ltac keep_views := repeat first [apply merge_loop_views | by intros ? | apply keeps_views_bind; [|intros ?] | case_match].

Lemma sync_views peer : keeps_views (sync_members_with peer).
Proof. unfold sync_members_with, merge_members, merge_finish. keep_views. Qed.

(** With room in the active view, promoting a candidate evicts nobody. *)
Lemma add_active_room s peer :
  Z.of_nat (size (active (views s))) < active_size (cfg s) ->
  (length (passive (views (add_active peer s).2)) <= length (passive (views s)))%nat /\
  cfg (add_active peer s).2 = cfg s.
Proof.
  intros Hroom. unfold add_active, mbind, M_bind. cbn. destruct (bool_decide _); [done|].
  unfold add_active_views. destruct (active (forget (addr_node_id peer) (views s)) !! addr_node_id peer) as [st|]; cbn.
  - split; [apply length_filter|done].
  - change (active (forget _ (views s))) with (active (views s)).
    destruct (Z.leb_spec (active_size (cfg s)) (Z.of_nat (size (active (views s))))); [lia|].
    split; [apply length_filter|done].
Qed.

Lemma try_promote_room s a :
  Z.of_nat (size (active (views s))) < active_size (cfg s) ->
  (length (passive (views (try_promote a s).2)) <= length (passive (views s)))%nat /\ cfg (try_promote a s).2 = cfg s.
Proof.
  intros Hroom. unfold try_promote. rewrite bind_views.
  match goal with |- context [(me_info ≫= ?k) s] => change ((me_info ≫= k) s) with (k (mk_PeerInfo (addr_to_string (own_addr_at (tick s)))) (ticked s)) end.
  cbn beta. set (msg := M_Neighbor _).
  set (s1 := (request a msg (ticked s)).2).
  match goal with |- context [(request a msg ≫= ?k) (ticked s)] =>
    change ((request a msg ≫= k) (ticked s)) with (k (request_at (tick (ticked s)) a msg) s1) end.
  cbn beta. destruct (request_at _ a msg) as [[]|]; try done. destruct (nbr_accepted p); [|done].
  destruct (add_active_room s1 a Hroom) as [E1 E2]. unfold mbind, M_bind. destruct (add_active a s1) as [u s2]. cbn in E1, E2.
  destruct (sync_views a s2) as (E3 & E4 & E5). destruct (sync_members_with a s2) as [u2 s3]. cbn in *.
  by rewrite E4, E5, E2.
Qed.

(** The loop of [fill_active] terminates: one pass more than there are
    passive candidates is always enough, whatever the candidates answer, and
    it stops with the active view at [active_size] or no candidate left. *)
Theorem fill_active_terminates s n :
  (length (passive (views s)) < n)%nat ->
  let s' := (fill_active_loop n s).2 in
  active_size (cfg s') <= Z.of_nat (size (active (views s'))) \/ passive (views s') = [].
Proof.
  revert s. induction n as [|n IH]; intros s Hn; [lia|]. cbn [fill_active_loop]. rewrite bind_cfg, bind_views.
  destruct (Z.leb_spec (active_size (cfg s)) (Z.of_nat (size (active (views s))))) as [|Hroom]; [by left|].
  destruct (bool_decide_reflect (passive (views s) = [])) as [|Hne]; [by right|]. cbn [orb]. rewrite bind_shuffle.
  pose proof (Permutation_length (shuffle_perm (tick s) (passive (views s)))) as Hsh.
  set (sh := shuffle_at (tick s) (passive (views s))) in *.
  assert (Hpos : (0 < length sh)%nat) by (rewrite Hsh; destruct (passive (views s)); [done|cbn; lia]).
  destruct (lookup_lt_is_Some_2 sh (length sh - 1) ltac:(lia)) as [cand Hc]. rewrite Hc.
  set (s1 := (put_views (set_passive (views s) (take (length sh - 1) sh)) (ticked s)).2).
  match goal with |- context [(put_views _ ≫= ?k) (ticked s)] =>
    change ((put_views (set_passive (views s) (take (length sh - 1) sh)) ≫= k) (ticked s)) with (k tt s1) end.
  cbn beta. destruct (try_promote_room s1 cand Hroom) as [E1 E2].
  unfold mbind, M_bind. destruct (try_promote cand s1) as [u s2]. apply IH.
  cbn [snd] in E1. change (passive (views s1)) with (take (length sh - 1) sh) in E1. rewrite length_take in E1. lia.
Qed.
End fill.

(** ** Evaluations *)

Definition name_a : string := "AAAAAAAAAAAAAAAAAAAAAAAAAAAAAAAA".
Definition name_b : string := "BBBBBBBBBBBBBBBBBBBBBBBBBBBBBBBB".

(** A node that knows itself and one other. *)
Definition ex_pair (me other : string) : @Membership toy_addrs :=
  (@merge_members toy_addrs toy_env [ex_entry other 0 Alive]
     (@refresh_self toy_addrs toy_env (@membership_new toy_addrs (str_bytes me) config_default)).2).2.

Lemma equal_digests_same_census_witness :
  str_bytes name_b ∈ map fst (@census toy_addrs 5000 "me"%string (ex_pair name_a name_b)).
Proof.
  destruct (@equal_digests_same_census toy_addrs toy_blake3 (ex_pair name_a name_b) (ex_pair name_b name_a)
    5000 5000 "me"%string "me"%string) as [_ Hc];
    [apply (bool_decide_unpack _); vm_compute; exact I|apply (bool_decide_unpack _); vm_compute; exact I|
     intros _; vm_compute; reflexivity|vm_compute; reflexivity|].
  apply Hc; [exists 0; vm_compute; reflexivity|exists 0; vm_compute; reflexivity| | |].
  - apply (bool_decide_unpack _). vm_compute. exact I.
  - apply (bool_decide_unpack _). vm_compute. exact I.
  - apply (bool_decide_unpack _). vm_compute. exact I.
Defined.

Definition ex_seeded : @Membership toy_addrs :=
  (@add_passive toy_addrs toy_env "b"%string (@add_passive toy_addrs toy_env "a"%string ex_me).2).2.

Lemma fill_active_terminates_witness :
  length (passive (views ex_seeded)) = 2%nat /\
  (let s' := (@fill_active_loop toy_addrs toy_env 3 ex_seeded).2 in
   active_size (cfg s') <= Z.of_nat (size (active (views s'))) \/ passive (views s') = []).
Proof.
  split; [vm_compute; reflexivity|].
  apply (@fill_active_terminates toy_addrs toy_env toy_env_laws ex_seeded 3). vm_compute. repeat constructor.
Defined.
