(* ===== verification/Verification.v ===== *)
(** Cross-node verification ([crates/com/src/verification.rs]): requests and
    their hashes, signed verdicts, the producer and verifier runs, the open
    board with its reads, gossip and merge, and the cooldown scheduler.

    The wasm engine is the parameter [run_program]: a run of a function of a
    module under the verifier grant, in verify mode, on the explicit inputs. *)

From S2P Require Import Prelude Crypto.

Open Scope Z_scope.

Definition VERDICT_DOMAIN : bytes := str_bytes "craftec/verify/verdict/1".

Record VerifyRequest := mk_vreq {
  program_cid : key; func : bytes; prev_state : bytes; vr_request : bytes; vr_now : Z; claimed_output : bytes
}.

#[export] Instance VerifyRequest_eq_dec : EqDecision VerifyRequest.
Proof. solve_decision. Defined.

Record Verdict := mk_verdict {
  verifier : key; vd_request_hash : key; vd_output_hash : key; agree : bool; signature : bytes
}.

#[export] Instance Verdict_eq_dec : EqDecision Verdict.
Proof. solve_decision. Defined.

Inductive VerifierSet := Open | Whitelist (set : list key).

#[export] Instance VerifierSet_eq_dec : EqDecision VerifierSet.
Proof. solve_decision. Defined.

Definition allows (s : VerifierSet) (node : key) : bool :=
  match s with Open => true | Whitelist l => bool_decide (node ∈ l) end.

Record VerifyPolicy := mk_policy { pk : Z; pset : VerifierSet }.
Record PostedRequest := mk_posted { producer : key; req : VerifyRequest; policy : VerifyPolicy }.
Record BoardSnapshot := mk_snapshot { s_requests : list PostedRequest; s_verdicts : list Verdict }.

Record Board := mk_board {
  requests : gmap key PostedRequest;
  verdicts : gmap key (gmap key Verdict)
}.

Definition board_new : Board := mk_board ∅ ∅.

Record Verifier := mk_verifier { node : key; cooldown_ms : Z; last_verified_ms : option Z }.

(** The engine under the verifier grant: module, function, previous state,
    request, consensus time and fuel; [None] is a trap, lack of fuel or a
    module that does not instantiate. *)
Class Engine := {
  run_program : bytes -> bytes -> bytes -> bytes -> Z -> Z -> option bytes
}.

(** ** Requests and verdicts *)

Section verdicts.
Context `{Ed25519} `{Blake3} `{Engine}.

Definition len_u32 (b : bytes) : bytes := be_bytes 4 (as_u32 (Z.of_nat (length b))).

Definition request_bytes (r : VerifyRequest) : bytes :=
  program_cid r ++ len_u32 (func r) ++ func r ++ len_u32 (prev_state r) ++ prev_state r ++
  len_u32 (vr_request r) ++ vr_request r ++ be_bytes 8 (vr_now r).

Definition request_hash (r : VerifyRequest) : key := Cid_of (request_bytes r).

Definition output_hash (r : VerifyRequest) : key := Cid_of (claimed_output r).

Definition verdict_signing_bytes (verifier rh oh : key) (agree : bool) : bytes :=
  VERDICT_DOMAIN ++ verifier ++ rh ++ oh ++ [if agree then 1 else 0].

Definition sign_verdict (identity : NodeIdentity) (rh oh : key) (agree : bool) : Verdict :=
  let v := node_id identity in
  mk_verdict v rh oh agree (sign identity (verdict_signing_bytes v rh oh agree)).

Definition verify_sig (v : Verdict) : bool :=
  verify_slice (verifier v)
    (verdict_signing_bytes (verifier v) (vd_request_hash v) (vd_output_hash v) (agree v)) (signature v).

Definition verify_locally (identity : NodeIdentity) (r : VerifyRequest) (wasm : bytes) (fuel : Z) : Verdict :=
  let agree :=
    if bool_decide (Cid_of wasm <> program_cid r) then false
    else
      match run_program wasm (func r) (prev_state r) (vr_request r) (vr_now r) fuel with
      | Some out => bool_decide (out = claimed_output r)
      | None => false
      end in
  sign_verdict identity (request_hash r) (output_hash r) agree.

Definition produce (wasm f prev request : bytes) (now fuel : Z) : option VerifyRequest :=
  out ← run_program wasm f prev request now fuel;
  Some (mk_vreq (Cid_of wasm) f prev request now out).

(** ** The board *)

Definition post_request (b : Board) (p : PostedRequest) : Board :=
  let h := request_hash (req p) in
  mk_board (match requests b !! h with Some _ => requests b | None => <[h := p]> (requests b) end) (verdicts b).

Definition post_verdict (b : Board) (v : Verdict) : Board :=
  let inner := default ∅ (verdicts b !! vd_request_hash v) in
  mk_board (requests b) (<[vd_request_hash v := <[verifier v := v]> inner]> (verdicts b)).

Definition counts (p : PostedRequest) (v : Verdict) : bool :=
  agree v && bool_decide (vd_request_hash v = request_hash (req p)) &&
  bool_decide (vd_output_hash v = output_hash (req p)) && bool_decide (verifier v <> producer p) &&
  allows (pset (policy p)) (verifier v) && verify_sig v.

Definition valid_verdicts (b : Board) (p : PostedRequest) : list Verdict :=
  match verdicts b !! request_hash (req p) with
  | None => []
  | Some vs => filter (fun v => counts p v = true) (map snd (map_to_list vs))
  end.

Definition valid_agreements (b : Board) (p : PostedRequest) : Z := Z.of_nat (length (valid_verdicts b p)).

Definition satisfied (b : Board) (p : PostedRequest) : bool := pk (policy p) <=? valid_agreements b p.

Definition collected (b : Board) (p : PostedRequest) : option (list Verdict) :=
  let vs := valid_verdicts b p in
  if pk (policy p) <=? Z.of_nat (length vs) then Some vs else None.

Definition has_verdict (b : Board) (rh n : key) : bool :=
  match verdicts b !! rh with Some m => bool_decide (is_Some (m !! n)) | None => false end.

Definition grabbable (b : Board) (n : key) (p : PostedRequest) : bool :=
  bool_decide (producer p <> n) && allows (pset (policy p)) n &&
  negb (has_verdict b (request_hash (req p)) n) && negb (satisfied b p).

Definition grabbable_by (b : Board) (n : key) : list PostedRequest :=
  filter (fun p => grabbable b n p = true) (map snd (map_to_list (requests b))).

Definition snapshot (b : Board) : BoardSnapshot :=
  mk_snapshot (map snd (map_to_list (requests b)))
    (concat (map (fun m => map snd (map_to_list m.2)) (map_to_list (verdicts b)))).

Definition merge (b : Board) (s : BoardSnapshot) : Board :=
  foldl post_verdict (foldl post_request b (s_requests s)) (s_verdicts s).

(** ** The scheduler *)

Definition rendezvous (n rh : key) : key := Cid_of (n ++ rh).

Definition verifier_new (n : key) (cooldown : Z) : Verifier := mk_verifier n cooldown None.

Definition ready (v : Verifier) (now : Z) : bool :=
  match last_verified_ms v with None => true | Some t => sat_add t (cooldown_ms v) <=? now end.

(** [min_by_key]: the first of the least keys. *)
Fixpoint min_by {A} (f : A -> key) (l : list A) : option A :=
  match l with
  | [] => None
  | x :: l' =>
      match min_by f l' with
      | Some y => Some (if le_on f x y then x else y)
      | None => Some x
      end
  end.

Definition select (v : Verifier) (b : Board) (now : Z) : option PostedRequest :=
  if negb (ready v now) then None
  else min_by (fun p => rendezvous (node v) (request_hash (req p))) (grabbable_by b (node v)).

Definition mark_verified (v : Verifier) (now : Z) : Verifier := mk_verifier (node v) (cooldown_ms v) (Some now).

(** ** Boards stay keyed *)

(** Entries sit under their own hashes and verifiers. *)
Record board_ok (b : Board) : Prop := {
  bo_requests h p : requests b !! h = Some p -> request_hash (req p) = h;
  bo_verdicts h m n v : verdicts b !! h = Some m -> m !! n = Some v -> vd_request_hash v = h /\ verifier v = n
}.

Lemma board_new_ok : board_ok board_new.
Proof. split; intros *; cbn; by rewrite lookup_empty. Qed.

Lemma post_request_ok b p : board_ok b -> board_ok (post_request b p).
Proof.
  intros []. unfold post_request. split; cbn; [|done]. intros h q.
  destruct (requests b !! request_hash (req p)); [auto|]. rewrite lookup_insert_Some. intros [[<- <-]|[_ ?]]; auto.
Qed.

Lemma post_verdict_ok b v : board_ok b -> board_ok (post_verdict b v).
Proof.
  intros []. unfold post_verdict. split; cbn; [done|]. intros h m n w.
  rewrite lookup_insert_Some. intros [[<- <-]|[_ Hm]]; [|by eapply bo_verdicts0].
  rewrite lookup_insert_Some. intros [[<- <-]|[_ Hw]]; [done|].
  destruct (verdicts b !! vd_request_hash v) as [m|] eqn:Hm; cbn in Hw; [by eapply bo_verdicts0|].
  by rewrite lookup_empty in Hw.
Qed.

Lemma merge_ok b s : board_ok b -> board_ok (merge b s).
Proof.
  intros Hb. unfold merge. assert (Hr : board_ok (foldl post_request b (s_requests s))).
  { revert b Hb. induction (s_requests s) as [|p l IH]; intros b Hb; cbn; [done|]. by apply IH, post_request_ok. }
  revert Hr. generalize (foldl post_request b (s_requests s)). induction (s_verdicts s) as [|v l IH]; intros b' Hb'; cbn; [done|].
  by apply IH, post_verdict_ok.
Qed.

(** Boards a node can reach by posting and merging anything. *)
Inductive board_reachable : Board -> Prop :=
| br_new : board_reachable board_new
| br_request b p : board_reachable b -> board_reachable (post_request b p)
| br_verdict b v : board_reachable b -> board_reachable (post_verdict b v)
| br_merge b s : board_reachable b -> board_reachable (merge b s).

Lemma board_reachable_ok b : board_reachable b -> board_ok b.
Proof. induction 1; auto using board_new_ok, post_request_ok, post_verdict_ok, merge_ok. Qed.
End verdicts.

(** ** Certificates *)

(** The verdict a board holds of a node on a request. *)
Definition vlookup (b : Board) (h n : key) : option Verdict := verdicts b !! h ≫= fun m => m !! n.

Section certificates.
Context `{Ed25519} `{Blake3} `{Engine}.

(** Sizes as the types and memory allow: a cid is 32 bytes, a length fits u32. *)
Record req_ok (r : VerifyRequest) : Prop := {
  rq_cid : length (program_cid r) = 32%nat;
  rq_func : Z.of_nat (length (func r)) < 4294967296;
  rq_prev : Z.of_nat (length (prev_state r)) < 4294967296;
  rq_request : Z.of_nat (length (vr_request r)) < 4294967296;
  rq_now : is_u64 (vr_now r)
}.

Lemma len_u32_inj a b :
  Z.of_nat (length a) < 4294967296 -> Z.of_nat (length b) < 4294967296 -> len_u32 a = len_u32 b -> length a = length b.
Proof.
  intros Ha Hb E. unfold len_u32, be_bytes in E. apply (f_equal (@rev Z)) in E. rewrite !rev_involutive in E.
  apply le_bytes_inj in E; unfold as_u32 in *; rewrite ?Z.mod_small in * by lia; [lia|cbn; lia..].
Qed.

(** A length-prefixed field read off the front. *)
Lemma field_inj a b k l :
  Z.of_nat (length a) < 4294967296 -> Z.of_nat (length b) < 4294967296 ->
  len_u32 a ++ a ++ k = len_u32 b ++ b ++ l -> a = b /\ k = l.
Proof.
  intros Ha Hb E. apply app_inj_length in E as [El E]; [|unfold len_u32; by rewrite !be_bytes_length].
  apply len_u32_inj in El; [|done..]. by apply app_inj_length.
Qed.

(** The hashed bytes determine the run: program, function, inputs and time. *)
Lemma request_bytes_inj r r' :
  req_ok r -> req_ok r' -> request_bytes r = request_bytes r' ->
  program_cid r = program_cid r' /\ func r = func r' /\ prev_state r = prev_state r' /\
  vr_request r = vr_request r' /\ vr_now r = vr_now r'.
Proof.
  intros [Hc Hf Hp Hq Hn] [Hc' Hf' Hp' Hq' Hn'] E. unfold request_bytes in E.
  apply app_inj_length in E as [Ec E]; [|congruence].
  apply field_inj in E as [Ef E]; [|done..]. apply field_inj in E as [Ep E]; [|done..].
  apply field_inj in E as [Eq E]; [|done..]. apply be_bytes8_inj in E; [|done..]. done.
Qed.

Lemma counts_spec p v :
  counts p v = true <->
  agree v = true /\ vd_request_hash v = request_hash (req p) /\ vd_output_hash v = output_hash (req p) /\
  verifier v <> producer p /\ allows (pset (policy p)) (verifier v) = true /\ verify_sig v = true.
Proof. unfold counts. rewrite !andb_true_iff, !bool_decide_eq_true. tauto. Qed.

Lemma elem_of_valid b p v :
  v ∈ valid_verdicts b p <->
  counts p v = true /\ exists m n, verdicts b !! request_hash (req p) = Some m /\ m !! n = Some v.
Proof.
  unfold valid_verdicts. destruct (verdicts b !! _) as [m|].
  - rewrite list_elem_of_filter, list_elem_of_fmap. split.
    + intros (Hc & [n w] & -> & Hin%elem_of_map_to_list). split; [done|]. by exists m, n.
    + intros (Hc & m' & n & [= <-] & Hn). split; [done|]. exists (n, v). split; [done|]. by apply elem_of_map_to_list.
  - split; [by intros ?%not_elem_of_nil|]. by intros (_ & m & n & ? & _).
Qed.

(** One verdict per verifier. *)
Lemma valid_verdicts_distinct b p : board_ok b -> NoDup (map verifier (valid_verdicts b p)).
Proof.
  intros Hb. unfold valid_verdicts. destruct (verdicts b !! _) as [m|] eqn:Hm; [|constructor].
  assert (E : map verifier (map snd (map_to_list m)) = map fst (map_to_list m)).
  { rewrite map_map. apply map_ext_in. intros [n v] Hin%list_elem_of_In%elem_of_map_to_list. cbn.
    by apply (bo_verdicts _ Hb _ _ _ _ Hm Hin). }
  assert (Hn : NoDup (map verifier (map snd (map_to_list m)))) by (rewrite E; apply NoDup_fst_map_to_list).
  revert Hn. generalize (map snd (map_to_list m)) as l. induction l as [|v l IH]; [done|]. cbn [map].
  intros [Hv Hl]%list.NoDup_cons. rewrite filter_cons. case_decide; [|auto]. cbn. apply list.NoDup_cons. split; [|auto].
  intros (w & E' & [_ Hw]%list_elem_of_filter)%list_elem_of_fmap. apply Hv. rewrite E'. by apply list_elem_of_fmap_2.
Qed.

(** More distinct verifiers than corrupt ones leave one that is not. *)
Lemma honest_verifier (vs : list Verdict) (corrupt : gset key) :
  NoDup (map verifier vs) -> (size corrupt < length vs)%nat -> exists v, v ∈ vs /\ verifier v ∉ corrupt.
Proof.
  intros Hn Hs. destruct (decide (Exists (fun v => verifier v ∉ corrupt) vs)) as [(v & Hv & Hc)%list.Exists_exists|Hno].
  { by exists v. }
  exfalso. rewrite <- Forall_Exists_neg in Hno. rewrite list.Forall_forall in Hno.
  assert (Hsub : list_to_set (map verifier vs) ⊆ corrupt).
  { intros n. rewrite elem_of_list_to_set, list_elem_of_fmap. intros (v & -> & Hv).
    destruct (decide (verifier v ∈ corrupt)); [done|]. exfalso. by apply (Hno v Hv). }
  apply subseteq_size in Hsub. rewrite size_list_to_set, length_map in Hsub by done. lia.
Qed.

Lemma verify_locally_agrees identity r wasm fuel :
  agree (verify_locally identity r wasm fuel) = true ->
  Cid_of wasm = program_cid r /\
  run_program wasm (func r) (prev_state r) (vr_request r) (vr_now r) fuel = Some (claimed_output r).
Proof.
  unfold verify_locally. cbn. destruct (bool_decide_reflect (Cid_of wasm <> program_cid r)) as [|Hc]; [done|].
  destruct (run_program _ _ _ _ _ _) as [out|]; [|done]. rewrite bool_decide_eq_true. intros ->.
  split; [|done]. destruct (decide (Cid_of wasm = program_cid r)); [done|]. by destruct Hc.
Qed.

(** What a verdict must be to stand in a certificate of [p], spelled out: it
    agrees, names this run and this output, is by an eligible node other than
    the producer, and carries that node's Ed25519 signature over all of it. *)
Definition certifies (p : PostedRequest) (v : Verdict) : Prop :=
  agree v = true /\ vd_request_hash v = Cid_of (request_bytes (req p)) /\
  vd_output_hash v = Cid_of (claimed_output (req p)) /\ verifier v <> producer p /\
  match pset (policy p) with Open => True | Whitelist l => verifier v ∈ l end /\
  verify_slice (verifier v)
    (VERDICT_DOMAIN ++ verifier v ++ vd_request_hash v ++ vd_output_hash v ++ [if agree v then 1 else 0])
    (signature v) = true.

Lemma counts_certifies p v : counts p v = true <-> certifies p v.
Proof.
  rewrite counts_spec. unfold certifies, allows, verify_sig, verdict_signing_bytes, request_hash, output_hash.
  destruct (pset (policy p)); [tauto|]. by rewrite bool_decide_eq_true.
Qed.

Lemma elem_of_certificate b p v :
  board_ok b -> v ∈ valid_verdicts b p <-> vlookup b (request_hash (req p)) (verifier v) = Some v /\ certifies p v.
Proof.
  intros Hb. rewrite elem_of_valid, counts_certifies. unfold vlookup. split.
  - intros (Hc & m & n & Hm & Hn). destruct (bo_verdicts _ Hb _ _ _ _ Hm Hn) as [_ <-]. by rewrite Hm.
  - intros [(m & Hm & Hv)%bind_Some Hc]. split; [done|]. by exists m, (verifier v).
Qed.


(** A producer's own request is agreed with by an honest re-run with its fuel. *)
Lemma produced_request_verifies wasm f prev request now fuel r id :
  produce wasm f prev request now fuel = Some r -> agree (verify_locally id r wasm fuel) = true.
Proof.
  unfold produce. intros (out & Hout & [= <-])%bind_Some. unfold verify_locally. cbn.
  rewrite bool_decide_false by (by intros []). rewrite Hout. by apply bool_decide_eq_true.
Qed.
End certificates.

(** ** Scheduling *)

Section scheduling.
Context `{Ed25519} `{Blake3} `{Engine}.

Lemma min_by_spec {A} (f : A -> key) l :
  match min_by f l with
  | Some x => x ∈ l /\ forall y, y ∈ l -> ole (f x) (f y)
  | None => l = []
  end.
Proof.
  induction l as [|x l IH]; cbn; [done|]. destruct (min_by f l) as [y|].
  - destruct IH as [Hy Hall]. destruct (le_on f x y) eqn:E.
    + apply le_on_spec in E. split; [set_solver|]. intros z [->|Hz]%elem_of_cons; [reflexivity|].
      etransitivity; [exact E|auto].
    + apply le_on_total, le_on_spec in E. split; [set_solver|]. intros z [->|Hz]%elem_of_cons; auto.
  - subst l. split; [set_solver|]. intros z ->%list_elem_of_singleton. reflexivity.
Qed.

Lemma elem_of_grabbable b n p :
  p ∈ grabbable_by b n <-> (exists h, requests b !! h = Some p) /\ producer p <> n /\
    allows (pset (policy p)) n = true /\ has_verdict b (request_hash (req p)) n = false /\ satisfied b p = false.
Proof.
  unfold grabbable_by, grabbable. rewrite list_elem_of_filter, !andb_true_iff, bool_decide_eq_true, !negb_true_iff.
  rewrite list_elem_of_fmap. split.
  - intros (Hg & [h q] & -> & Hin%elem_of_map_to_list). split; [by exists h|tauto].
  - intros ((h & Hh) & Hg). split; [tauto|]. exists (h, p). split; [done|]. by apply elem_of_map_to_list.
Qed.

(** What a verifier takes next: off cooldown it takes, of the requests it
    may grab, the one with the least rendezvous score, which it did not
    produce, may verify, has not voted on and is not yet satisfied; it takes
    none exactly when it is on cooldown or there is no such request; and once
    it has posted its verdict the request is not offered to it again and
    nothing is until its cooldown has passed. *)
Theorem verifier_takes_least_rendezvous v b now :
  match select v b now with
  | Some p =>
      ready v now = true /\ p ∈ grabbable_by b (node v) /\
      (forall q, q ∈ grabbable_by b (node v) ->
        ole (rendezvous (node v) (request_hash (req p))) (rendezvous (node v) (request_hash (req q)))) /\
      (forall w, verifier w = node v -> vd_request_hash w = request_hash (req p) ->
        p ∉ grabbable_by (post_verdict b w) (node v) /\
        forall b' t, t < sat_add now (cooldown_ms v) -> select (mark_verified v now) b' t = None)
  | None => ready v now = false \/ grabbable_by b (node v) = []
  end.
Proof.
  unfold select. destruct (ready v now); cbn [negb]; [|by left].
  pose proof (min_by_spec (fun p => rendezvous (node v) (request_hash (req p))) (grabbable_by b (node v))) as Hm.
  destruct (min_by _ _) as [p|]; [|by right]. destruct Hm as [Hp Hmin]. split; [done|]. split; [done|]. split; [done|].
  intros w Hw Hrh. split.
  - rewrite elem_of_grabbable. intros (_ & _ & _ & Hv & _). unfold has_verdict, post_verdict in Hv. cbn in Hv.
    rewrite Hrh, lookup_insert_eq, <- Hw, lookup_insert_eq in Hv. by rewrite bool_decide_true in Hv by eauto.
  - intros b' t Ht. unfold ready, mark_verified. cbn. destruct (Z.leb_spec (sat_add now (cooldown_ms v)) t); [lia|done].
Qed.

(** ** Gossip *)

Lemma vlookup_post b v h n :
  vlookup (post_verdict b v) h n =
  if decide (vd_request_hash v = h /\ verifier v = n) then Some v else vlookup b h n.
Proof.
  unfold vlookup, post_verdict. cbn. destruct (decide (vd_request_hash v = h)) as [<-|Hh].
  - rewrite lookup_insert_eq. cbn. destruct (decide (verifier v = n)) as [<-|Hn].
    + rewrite decide_True by done. apply lookup_insert_eq.
    + rewrite decide_False by naive_solver. rewrite lookup_insert_ne by done.
      destruct (verdicts b !! vd_request_hash v); cbn; [done|]. apply lookup_empty.
  - rewrite decide_False by naive_solver. by rewrite lookup_insert_ne.
Qed.

Lemma vlookup_post_request b p h n : vlookup (post_request b p) h n = vlookup b h n.
Proof. done. Qed.

(** The verdicts a fold of posts leaves, when there is one per verifier and request. *)
Lemma vlookup_fold (f : key -> key -> Verdict) l b h n :
  Forall (fun v => v = f (vd_request_hash v) (verifier v)) l ->
  vlookup (foldl post_verdict b l) h n =
  if decide (Exists (fun v => vd_request_hash v = h /\ verifier v = n) l) then Some (f h n) else vlookup b h n.
Proof.
  intros Hl. revert b. induction Hl as [|v l Hv Hl IH]; intros b; cbn.
  { rewrite decide_False; [done|]. by intros ?%Exists_nil. }
  rewrite IH, vlookup_post. destruct (decide (Exists _ l)) as [E|E].
  - rewrite decide_True; [done|]. by apply Exists_cons_tl.
  - destruct (decide (vd_request_hash v = h /\ verifier v = n)) as [[<- <-]|Hne].
    + rewrite decide_True; [by rewrite <- Hv|]. by apply Exists_cons_hd.
    + rewrite decide_False; [done|]. intros [?|?]%Exists_cons; done.
Qed.

Lemma vlookup_merge f b s h n :
  Forall (fun v => v = f (vd_request_hash v) (verifier v)) (s_verdicts s) ->
  vlookup (merge b s) h n =
  if decide (Exists (fun v => vd_request_hash v = h /\ verifier v = n) (s_verdicts s)) then Some (f h n) else vlookup b h n.
Proof.
  intros Hs. unfold merge. rewrite (vlookup_fold f) by done. case_decide; [done|].
  generalize b. induction (s_requests s) as [|p l IH]; intros b'; cbn; [done|]. by rewrite IH.
Qed.

(** Gossip converges when verdicts do not compete: with at most one verdict
    per verifier and request in circulation, merging two snapshots in either
    order, once or again, leaves the same verdict for every verifier and
    request, so the same certificates. *)
Theorem board_merge_commutes (f : key -> key -> Verdict) b s1 s2 h n :
  Forall (fun v => v = f (vd_request_hash v) (verifier v)) (s_verdicts s1) ->
  Forall (fun v => v = f (vd_request_hash v) (verifier v)) (s_verdicts s2) ->
  vlookup (merge (merge b s1) s2) h n = vlookup (merge (merge b s2) s1) h n /\
  vlookup (merge (merge b s1) s1) h n = vlookup (merge b s1) h n.
Proof.
  intros H1' H2'. rewrite !(vlookup_merge f) by done. split; repeat case_decide; done.
Qed.
End scheduling.

(** ** Evaluations *)

(** An engine whose every module doubles the first byte of the request. *)
Definition toy_engine : Engine := {|
  run_program := fun _ _ _ q _ _ => match q with x :: _ => Some [x * 2] | [] => None end
|}.

Definition ex_wasm : bytes := [9; 9].
Definition ex_vreq : VerifyRequest := mk_vreq (@Cid_of toy_blake3 ex_wasm) [100] [] [21] 7 [42].
Definition ex_posted : PostedRequest := mk_posted (key_of 1) ex_vreq (mk_policy 2 Open).
Definition ex_verdict (id : Z) : Verdict := @verify_locally toy_ed25519 toy_blake3 toy_engine id ex_vreq ex_wasm 10.

Definition ex_board : Board :=
  @post_verdict (@post_verdict (@post_request toy_blake3 board_new ex_posted) (ex_verdict 2)) (ex_verdict 3).

(** Two honest votes, an unsigned agreement in the name of a third node, and
    the producer's own vote, which is honest but does not count. *)
Definition ex_unsigned : Verdict :=
  mk_verdict (key_of 4) (@request_hash toy_blake3 ex_vreq) (@output_hash toy_blake3 ex_vreq) true [].

Definition ex_crowd : Board := @merge toy_blake3 ex_board (mk_snapshot [] [ex_unsigned; ex_verdict 1]).

Lemma ex_crowd_votes h n v :
  vlookup ex_crowd h n = Some v -> (exists id, v = ex_verdict id) \/ v = ex_unsigned.
Proof.
  unfold ex_crowd, merge, ex_board. cbn [s_requests s_verdicts foldl]. rewrite !vlookup_post.
  repeat case_decide; [intros [= <-]; eauto..|]. unfold vlookup. cbn. by rewrite lookup_empty.
Qed.


Lemma board_merge_commutes_witness :
  let f := fun h n : key => if bool_decide (n = key_of 2) then ex_verdict 2 else ex_verdict 3 in
  let s1 := mk_snapshot [] [ex_verdict 2] in
  let s2 := mk_snapshot [] [ex_verdict 3] in
  vlookup (@merge toy_blake3 (@merge toy_blake3 board_new s1) s2) (@request_hash toy_blake3 ex_vreq) (key_of 2) =
  vlookup (@merge toy_blake3 (@merge toy_blake3 board_new s2) s1) (@request_hash toy_blake3 ex_vreq) (key_of 2).
Proof.
  intros f s1 s2.
  assert (F1 : Forall (fun v => v = f (vd_request_hash v) (verifier v)) (s_verdicts s1))
    by (constructor; [vm_compute; reflexivity|constructor]).
  assert (F2 : Forall (fun v => v = f (vd_request_hash v) (verifier v)) (s_verdicts s2))
    by (constructor; [vm_compute; reflexivity|constructor]).
  exact (proj1 (@board_merge_commutes toy_blake3 f board_new s1 s2 (@request_hash toy_blake3 ex_vreq) (key_of 2) F1 F2)).
Defined.

(** A forged verdict with an empty signature, gossiped under the name of a
    verifier that had voted, takes the place of its vote: the request that was
    satisfied no longer is, and the two merge orders differ. *)
Definition ex_forged : Verdict :=
  mk_verdict (key_of 2) (@request_hash toy_blake3 ex_vreq) (@output_hash toy_blake3 ex_vreq) false [].

Example forged_verdict_displaces_vote :
  let junk := mk_snapshot [] [ex_forged] in
  let votes := mk_snapshot [] [ex_verdict 2; ex_verdict 3] in
  let b0 := @post_request toy_blake3 board_new ex_posted in
  @satisfied toy_ed25519 toy_blake3 ex_board ex_posted = true /\
  @satisfied toy_ed25519 toy_blake3 (@merge toy_blake3 ex_board junk) ex_posted = false /\
  @satisfied toy_ed25519 toy_blake3 (@merge toy_blake3 (@merge toy_blake3 b0 junk) votes) ex_posted = true /\
  @satisfied toy_ed25519 toy_blake3 (@merge toy_blake3 (@merge toy_blake3 b0 votes) junk) ex_posted = false.
Proof. vm_compute. done. Qed.

(** The request hash binds neither the claimed output nor the producer nor the
    policy, and the first post wins: another node's post of the same run with
    a false output keeps the true request off the board. *)
Definition ex_squat : PostedRequest :=
  mk_posted (key_of 9) (mk_vreq (program_cid ex_vreq) [100] [] [21] 7 [0]) (mk_policy 1 Open).

Example squatted_request_blocks_true_one :
  let b := @post_request toy_blake3 (@post_request toy_blake3 board_new ex_squat) ex_posted in
  @grabbable_by toy_ed25519 toy_blake3 b (key_of 2) = [ex_squat] /\
  @select toy_ed25519 toy_blake3 (verifier_new (key_of 2) 0) b 0 = Some ex_squat /\
  @select toy_ed25519 toy_blake3 (verifier_new (key_of 2) 0)
    (@post_verdict b (@verify_locally toy_ed25519 toy_blake3 toy_engine 2 (req ex_squat) ex_wasm 10)) 0 = None.
Proof. vm_compute. done. Qed.
