(* ===== verification/Host.v ===== *)
(** The program runtime's host interface ([crates/com/src/transition.rs],
    [capability.rs], the backend traits of [lib.rs]): capabilities and grants,
    the run context, every host function with its guards in the code's order,
    linking, and the run of a program.

    wasmtime is the class [Wasm].  A fuel-metered run of a module is a finite
    tree of host calls: at each call the guest hands over its exported memory,
    and goes on with the result and the memory the host left.  The services
    behind a run (databases, objects, boards, quorums, the random source) are
    functions on an abstract [World], so that what a run does to them is part
    of its result.  A string is its UTF-8 bytes. *)

From S2P Require Import Prelude Crypto Verification Sequencer.

Open Scope Z_scope.

(** ** Capabilities *)

Inductive Capability :=
  | Input | Caller | State | Commit | Crypto | Sql | Obj | Clock | WallClock | Random
  | Verify | Attest | Sequence | Pre | InvokeProgram.

#[export] Instance Capability_eq_dec : EqDecision Capability.
Proof. solve_decision. Defined.

Definition all_capabilities : list Capability :=
  [Input; Caller; State; Commit; Crypto; Sql; Obj; Clock; WallClock; Random; Verify; Attest; Sequence; Pre; InvokeProgram].

#[export] Instance Capability_finite : finite.Finite Capability.
Proof.
  refine (finite.Build_Finite _ _ all_capabilities _ _).
  - by apply (bool_decide_unpack _).
  - intros []; by apply (bool_decide_unpack _).
Defined.

Notation CapabilityGrant := (gset Capability).

Definition deterministic : CapabilityGrant :=
  list_to_set [Input; Caller; State; Commit; Crypto; Sql; Obj; Clock; InvokeProgram].

Definition full : CapabilityGrant := {[WallClock; Random; Verify; Attest; Sequence; Pre]} ∪ deterministic.

Definition verifier_grant : CapabilityGrant := {[Verify; Attest; Sequence; Pre]} ∪ deterministic.

Definition grant_allows (g : CapabilityGrant) (c : Capability) : bool := bool_decide (c ∈ g).

Definition without (g : CapabilityGrant) (c : Capability) : CapabilityGrant := g ∖ {[c]}.

(** ** Casts and strings *)

Definition I32_MAX : Z := 2147483647.

Definition as_i32 (x : Z) : Z := (x + 2147483648) mod 4294967296 - 2147483648.
Definition as_i64 (x : Z) : Z := (x + 9223372036854775808) mod 18446744073709551616 - 9223372036854775808.

Definition in_range (lo hi x : Z) : bool := (lo <=? x) && (x <=? hi).

(** Well-formed UTF-8, as [String::from_utf8] checks it. *)
Fixpoint utf8_valid (b : bytes) : bool :=
  let cont := in_range 128 191 in
  match b with
  | [] => true
  | x :: r =>
      if in_range 0 127 x then utf8_valid r
      else match r with
           | [] => false
           | y :: r1 =>
               if in_range 194 223 x then cont y && utf8_valid r1
               else match r1 with
                    | [] => false
                    | z :: r2 =>
                        if in_range 224 239 x then
                          (if x =? 224 then in_range 160 191 y else if x =? 237 then in_range 128 159 y else cont y) &&
                          cont z && utf8_valid r2
                        else match r2 with
                             | [] => false
                             | t :: r3 =>
                                 in_range 240 244 x &&
                                 (if x =? 240 then in_range 144 191 y else if x =? 244 then in_range 128 143 y else cont y) &&
                                 cont z && cont t && utf8_valid r3
                             end
                    end
           end
  end.

Definition from_utf8 (b : bytes) : option bytes := if utf8_valid b then Some b else None.

(** ** Guest memory *)

(** [data.get(s..e)] with [s = ptr], [e = ptr + len]; a [usize] holds the sum
    of two [i32]. *)
Definition det_read (mem : bytes) (ptr len : Z) : option bytes :=
  if (ptr <? 0) || (len <? 0) then None
  else if ptr + len <=? Z.of_nat (length mem) then Some (take (Z.to_nat len) (drop (Z.to_nat ptr) mem))
  else None.

Definition det_read_str (mem : bytes) (ptr len : Z) : option bytes := det_read mem ptr len ≫= from_utf8.

Definition write_at (mem : bytes) (p : nat) (data : bytes) : bytes := take p mem ++ data ++ drop (p + length data) mem.

Definition det_write (mem : bytes) (out cap : Z) (data : bytes) : Z * bytes :=
  if (out <? 0) || (cap <? 0) || (cap <? Z.of_nat (length data)) then (-1, mem)
  else if out + Z.of_nat (length data) <=? Z.of_nat (length mem) then
    (as_i32 (Z.of_nat (length data)), write_at mem (Z.to_nat out) data)
  else (-1, mem).

(** ** Imports *)

Inductive ValType := I32 | I64.

#[export] Instance ValType_eq_dec : EqDecision ValType.
Proof. solve_decision. Defined.

Record Import := mk_import { im_module : string; im_name : string; im_params : list ValType; im_result : ValType }.

#[export] Instance Import_eq_dec : EqDecision Import.
Proof. solve_decision. Defined.

Definition TRANSITION_HOST_MODULE : string := "craftcom".
Definition MAX_RANDOM : Z := Z.shiftl 1 16.

Definition host_import (name : string) (params : list ValType) (result : ValType) : Import :=
  mk_import TRANSITION_HOST_MODULE name params result.

(** A call to a host function, with its arguments. *)
Inductive HostCall :=
  | C_input (out cap : Z)
  | C_commit (ptr len : Z)
  | C_state (out cap : Z)
  | C_ed25519_verify (pk msg msg_len sig : Z)
  | C_caller (out cap : Z)
  | C_sql_execute (ptr len : Z)
  | C_sql_query (owner_ptr owner_len sql_ptr sql_len out cap : Z)
  | C_obj_put (ptr len out cap : Z)
  | C_obj_get (cid_ptr out cap : Z)
  | C_obj_get_range (cid_ptr offset len out cap : Z)
  | C_clock
  | C_wall_clock
  | C_random (out len : Z)
  | C_verify (fp fl ip il cp cl : Z)
  | C_attest (sp sl : Z)
  | C_sequence (ap nonce pp pl sp : Z)
  | C_pre_grant (rp rl threshold shares out cap : Z)
  | C_invoke_program (np nl fp fl ip il out cap : Z).

Definition import_of (c : HostCall) : Import :=
  match c with
  | C_input _ _ => host_import "input" [I32; I32] I32
  | C_commit _ _ => host_import "commit" [I32; I32] I32
  | C_state _ _ => host_import "state" [I32; I32] I32
  | C_ed25519_verify _ _ _ _ => host_import "ed25519_verify" [I32; I32; I32; I32] I32
  | C_caller _ _ => host_import "caller" [I32; I32] I32
  | C_sql_execute _ _ => host_import "sql_execute" [I32; I32] I64
  | C_sql_query _ _ _ _ _ _ => host_import "sql_query" [I32; I32; I32; I32; I32; I32] I32
  | C_obj_put _ _ _ _ => host_import "obj_put" [I32; I32; I32; I32] I32
  | C_obj_get _ _ _ => host_import "obj_get" [I32; I32; I32] I32
  | C_obj_get_range _ _ _ _ _ => host_import "obj_get_range" [I32; I64; I64; I32; I32] I32
  | C_clock => host_import "clock" [] I64
  | C_wall_clock => host_import "wall_clock" [] I64
  | C_random _ _ => host_import "random" [I32; I32] I32
  | C_verify _ _ _ _ _ _ => host_import "verify" [I32; I32; I32; I32; I32; I32] I32
  | C_attest _ _ => host_import "attest" [I32; I32] I32
  | C_sequence _ _ _ _ _ => host_import "sequence" [I32; I64; I32; I32; I32] I32
  | C_pre_grant _ _ _ _ _ _ => host_import "pre_grant" [I32; I32; I32; I32; I32; I32] I32
  | C_invoke_program _ _ _ _ _ _ _ _ => host_import "invoke_program" [I32; I32; I32; I32; I32; I32; I32; I32] I32
  end.

(** The functions each capability binds. *)
Definition bound_by (c : Capability) : list Import :=
  match c with
  | Input => [import_of (C_input 0 0)]
  | Commit => [import_of (C_commit 0 0)]
  | State => [import_of (C_state 0 0)]
  | Crypto => [import_of (C_ed25519_verify 0 0 0 0)]
  | Caller => [import_of (C_caller 0 0)]
  | Sql => [import_of (C_sql_execute 0 0); import_of (C_sql_query 0 0 0 0 0 0)]
  | Obj => [import_of (C_obj_put 0 0 0 0); import_of (C_obj_get 0 0 0); import_of (C_obj_get_range 0 0 0 0 0)]
  | Clock => [import_of C_clock]
  | WallClock => [import_of C_wall_clock]
  | Random => [import_of (C_random 0 0)]
  | Verify => [import_of (C_verify 0 0 0 0 0 0)]
  | Attest => [import_of (C_attest 0 0)]
  | Sequence => [import_of (C_sequence 0 0 0 0 0)]
  | Pre => [import_of (C_pre_grant 0 0 0 0 0 0)]
  | InvokeProgram => [import_of (C_invoke_program 0 0 0 0 0 0 0 0)]
  end.

(** The linker after [bind_granted]. *)
Definition bind_granted (g : CapabilityGrant) : list Import :=
  flat_map (fun c => if grant_allows g c then bound_by c else [])
    [Input; Commit; State; Crypto; Caller; Sql; Obj; Clock; WallClock; Random; Verify; Attest; Sequence; Pre; InvokeProgram].

(** Instantiation finds every import of the module, with its type. *)
Definition links (g : CapabilityGrant) (imports : list Import) : bool :=
  forallb (fun i => bool_decide (i ∈ bind_granted g)) imports.

(** ** wasmtime *)

Inductive Guest :=
  | G_return
  | G_trap
  | G_call (c : HostCall) (mem : option bytes) (k : Z -> option bytes -> Guest).

(** [module_imports] is [Module::new]; [start] is the run of the instance, up
    to and including the call of the export, within the fuel.  A trap, lack of
    fuel and a missing export all end in [G_trap]. *)
Class Wasm := {
  module_imports : bytes -> option (list Import);
  start : bytes -> bytes -> Z -> Guest
}.

(** Every call of a run satisfies [P], whatever the host answers. *)
Inductive calls_all (P : HostCall -> Prop) : Guest -> Prop :=
  | ca_return : calls_all P G_return
  | ca_trap : calls_all P G_trap
  | ca_call c mem k : P c -> (forall r m, calls_all P (k r m)) -> calls_all P (G_call c mem k).

(** An argument is within its type's range. *)
Definition args_ok (c : HostCall) : Prop :=
  let i32 x := -2147483648 <= x <= I32_MAX in
  match c with
  | C_input out cap | C_state out cap | C_caller out cap => i32 out /\ i32 cap
  | C_sql_query _ _ _ _ out cap | C_obj_put _ _ out cap | C_obj_get _ out cap | C_obj_get_range _ _ _ out cap
  | C_pre_grant _ _ _ _ out cap | C_invoke_program _ _ _ _ _ _ out cap => i32 out /\ i32 cap
  | C_random out len => i32 out /\ i32 len
  | C_commit ptr len => i32 ptr /\ i32 len
  | _ => True
  end.

(** A module calls only what it imports, with arguments of the import's types. *)
Class WasmLaws `{Wasm} := {
  calls_are_imports : forall wasm func fuel imports,
    module_imports wasm = Some imports ->
    calls_all (fun c => import_of c ∈ imports /\ args_ok c) (start wasm func fuel)
}.

(** ** Backends *)

Section host.
Context {World : Type} `{Ed25519}.

(** [None] is the [Err] of a fallible call. *)
Record AppBackend := mk_app {
  sql_execute : bytes -> bytes -> World -> option Z * World;
  sql_query : option key -> bytes -> bytes -> World -> option bytes * World;
  obj_put : bytes -> World -> option key * World;
  obj_get : key -> World -> option bytes * World;
  obj_get_range : key -> Z -> Z -> World -> option bytes * World;
  now_millis : World -> Z * World;
  pre_rekey : bytes -> Z -> Z -> World -> option (option bytes) * World
}.

(** The trait's default methods. *)
Definition default_obj_get_range (_ : key) (_ _ : Z) (w : World) : option bytes * World := (None, w).
Definition default_pre_rekey (_ : bytes) (_ _ : Z) (w : World) : option (option bytes) * World := (Some None, w).

Definition VerifyBackend := VerifyRequest -> World -> bool * World.
Definition AttestBackend := key -> key -> bytes -> World -> bool * World.
Definition SequenceBackend := key -> key -> SequencedWrite -> World -> bool * World.
Definition InvokeProgramBackend := bytes -> bytes -> bytes -> World -> option bytes * World.

(** ** The run context *)

Record TransitionCtx := mk_ctx {
  cx_prev_state : bytes;
  cx_input : bytes;
  cx_output : bytes;
  cx_caller : key;
  cx_app_ns : bytes;
  cx_now : Z;
  cx_backend : option AppBackend;
  cx_verify_mode : bool;
  cx_program_cid : key;
  cx_program_owner : option key;
  cx_verify_backend : option VerifyBackend;
  cx_attest_backend : option AttestBackend;
  cx_sequence_backend : option SequenceBackend;
  cx_invoke_backend : option InvokeProgramBackend
}.

Definition zero_key : key := replicate 32 0.

Definition ctx_new (prev input : bytes) (caller : key) (ns : bytes) (now : Z) (b : option AppBackend) : TransitionCtx :=
  mk_ctx prev input [] caller ns now b false zero_key None None None None None.

Definition ctx_deterministic (prev input : bytes) (now : Z) : TransitionCtx := ctx_new prev input zero_key [] now None.

Definition in_verify_mode (c : TransitionCtx) : TransitionCtx :=
  mk_ctx (cx_prev_state c) (cx_input c) (cx_output c) (cx_caller c) (cx_app_ns c) (cx_now c) (cx_backend c) true
    (cx_program_cid c) (cx_program_owner c) (cx_verify_backend c) (cx_attest_backend c) (cx_sequence_backend c) (cx_invoke_backend c).
Definition with_program_owner (c : TransitionCtx) (o : option key) : TransitionCtx :=
  mk_ctx (cx_prev_state c) (cx_input c) (cx_output c) (cx_caller c) (cx_app_ns c) (cx_now c) (cx_backend c) (cx_verify_mode c)
    (cx_program_cid c) o (cx_verify_backend c) (cx_attest_backend c) (cx_sequence_backend c) (cx_invoke_backend c).
Definition with_program (c : TransitionCtx) (p : key) : TransitionCtx :=
  mk_ctx (cx_prev_state c) (cx_input c) (cx_output c) (cx_caller c) (cx_app_ns c) (cx_now c) (cx_backend c) (cx_verify_mode c)
    p (cx_program_owner c) (cx_verify_backend c) (cx_attest_backend c) (cx_sequence_backend c) (cx_invoke_backend c).
Definition with_verify_backend (c : TransitionCtx) (b : option VerifyBackend) : TransitionCtx :=
  mk_ctx (cx_prev_state c) (cx_input c) (cx_output c) (cx_caller c) (cx_app_ns c) (cx_now c) (cx_backend c) (cx_verify_mode c)
    (cx_program_cid c) (cx_program_owner c) b (cx_attest_backend c) (cx_sequence_backend c) (cx_invoke_backend c).
Definition with_attest_backend (c : TransitionCtx) (b : option AttestBackend) : TransitionCtx :=
  mk_ctx (cx_prev_state c) (cx_input c) (cx_output c) (cx_caller c) (cx_app_ns c) (cx_now c) (cx_backend c) (cx_verify_mode c)
    (cx_program_cid c) (cx_program_owner c) (cx_verify_backend c) b (cx_sequence_backend c) (cx_invoke_backend c).
Definition with_sequence_backend (c : TransitionCtx) (b : option SequenceBackend) : TransitionCtx :=
  mk_ctx (cx_prev_state c) (cx_input c) (cx_output c) (cx_caller c) (cx_app_ns c) (cx_now c) (cx_backend c) (cx_verify_mode c)
    (cx_program_cid c) (cx_program_owner c) (cx_verify_backend c) (cx_attest_backend c) b (cx_invoke_backend c).
Definition with_invoke_backend (c : TransitionCtx) (b : option InvokeProgramBackend) : TransitionCtx :=
  mk_ctx (cx_prev_state c) (cx_input c) (cx_output c) (cx_caller c) (cx_app_ns c) (cx_now c) (cx_backend c) (cx_verify_mode c)
    (cx_program_cid c) (cx_program_owner c) (cx_verify_backend c) (cx_attest_backend c) (cx_sequence_backend c) b.
(** [caller.data_mut().output = bytes]. *)
Definition set_output (c : TransitionCtx) (o : bytes) : TransitionCtx :=
  mk_ctx (cx_prev_state c) (cx_input c) o (cx_caller c) (cx_app_ns c) (cx_now c) (cx_backend c) (cx_verify_mode c)
    (cx_program_cid c) (cx_program_owner c) (cx_verify_backend c) (cx_attest_backend c) (cx_sequence_backend c) (cx_invoke_backend c).

(** The operating system's random source. *)
Class OsRng := {
  fill_bytes : nat -> World -> bytes * World
}.
Class OsRngLaws `{OsRng} := {
  fill_bytes_length : forall n w, length (fill_bytes n w).1 = n
}.
Context {Rng : OsRng}.

(** ** Host functions

    Each takes the context, the exported memory if there is one, and the
    world, and returns its result with all three. *)

Notation Reply := (Z * option bytes * TransitionCtx * World)%type.

Definition write_back (cx : TransitionCtx) (m : bytes) (w : World) (out cap : Z) (data : bytes) : Reply :=
  let '(r, m') := det_write m out cap data in (r, Some m', cx, w).

(** [match det_read(.., 32) { Some(b) if b.len() == 32 => .., _ => .. }]. *)
Definition read_key (m : bytes) (ptr : Z) (len : Z) : option key :=
  b ← det_read m ptr len; if (length b =? 32)%nat then Some b else None.

Definition h_input (cx : TransitionCtx) (mem : option bytes) (w : World) (out cap : Z) : Reply :=
  match mem with
  | None => (-1, mem, cx, w)
  | Some m => write_back cx m w out cap (cx_input cx)
  end.

Definition h_commit (cx : TransitionCtx) (mem : option bytes) (w : World) (ptr len : Z) : Reply :=
  match mem with
  | None => (-1, mem, cx, w)
  | Some m =>
      match det_read m ptr len with
      | None => (-1, mem, cx, w)
      | Some b => (as_i32 (Z.of_nat (length b)), mem, set_output cx b, w)
      end
  end.

Definition h_state (cx : TransitionCtx) (mem : option bytes) (w : World) (out cap : Z) : Reply :=
  match mem with
  | None => (-1, mem, cx, w)
  | Some m => write_back cx m w out cap (cx_prev_state cx)
  end.

Definition h_ed25519_verify (cx : TransitionCtx) (mem : option bytes) (w : World) (pk msg msg_len sig : Z) : Reply :=
  match mem with
  | None => (0, mem, cx, w)
  | Some m =>
      match det_read m pk 32, det_read m msg msg_len, det_read m sig 64 with
      | Some p, Some b, Some s =>
          if (length p =? 32)%nat && (length s =? 64)%nat
          then ((if verify p b s then 1 else 0), mem, cx, w) else (0, mem, cx, w)
      | _, _, _ => (0, mem, cx, w)
      end
  end.

Definition h_caller (cx : TransitionCtx) (mem : option bytes) (w : World) (out cap : Z) : Reply :=
  match mem with
  | None => (-1, mem, cx, w)
  | Some m => write_back cx m w out cap (cx_caller cx)
  end.

Definition h_sql_execute (cx : TransitionCtx) (mem : option bytes) (w : World) (ptr len : Z) : Reply :=
  match mem with
  | None => (-1, mem, cx, w)
  | Some m =>
      match det_read_str m ptr len, cx_backend cx with
      | Some sql, Some b =>
          let '(r, w') := sql_execute b (cx_app_ns cx) sql w in
          (match r with Some n => as_i64 n | None => -1 end, mem, cx, w')
      | _, _ => (-1, mem, cx, w)
      end
  end.

Definition h_sql_query (cx : TransitionCtx) (mem : option bytes) (w : World) (owner_ptr owner_len sql_ptr sql_len out cap : Z) : Reply :=
  match mem with
  | None => (-1, mem, cx, w)
  | Some m =>
      match (if owner_len =? 0 then Some None else o ← read_key m owner_ptr owner_len; Some (Some o)) with
      | None => (-1, mem, cx, w)
      | Some owner =>
          match det_read_str m sql_ptr sql_len, cx_backend cx with
          | Some sql, Some b =>
              let '(r, w') := sql_query b owner (cx_app_ns cx) sql w in
              match r with Some res => write_back cx m w' out cap res | None => (-1, mem, cx, w') end
          | _, _ => (-1, mem, cx, w)
          end
      end
  end.

Definition h_obj_put (cx : TransitionCtx) (mem : option bytes) (w : World) (ptr len out cap : Z) : Reply :=
  match mem with
  | None => (-1, mem, cx, w)
  | Some m =>
      match det_read m ptr len, cx_backend cx with
      | Some data, Some b =>
          let '(r, w') := obj_put b data w in
          match r with Some cid => write_back cx m w' out cap cid | None => (-1, mem, cx, w') end
      | _, _ => (-1, mem, cx, w)
      end
  end.

Definition h_obj_get (cx : TransitionCtx) (mem : option bytes) (w : World) (cid_ptr out cap : Z) : Reply :=
  match mem with
  | None => (-1, mem, cx, w)
  | Some m =>
      match read_key m cid_ptr 32, cx_backend cx with
      | Some cid, Some b =>
          let '(r, w') := obj_get b cid w in
          match r with Some data => write_back cx m w' out cap data | None => (-1, mem, cx, w') end
      | _, _ => (-1, mem, cx, w)
      end
  end.

Definition h_obj_get_range (cx : TransitionCtx) (mem : option bytes) (w : World) (cid_ptr offset len out cap : Z) : Reply :=
  if (offset <? 0) || (len <? 0) then (-1, mem, cx, w)
  else
    match mem with
    | None => (-1, mem, cx, w)
    | Some m =>
        match read_key m cid_ptr 32, cx_backend cx with
        | Some cid, Some b =>
            let '(r, w') := obj_get_range b cid offset len w in
            match r with Some data => write_back cx m w' out cap data | None => (-1, mem, cx, w') end
        | _, _ => (-1, mem, cx, w)
        end
    end.

Definition h_clock (cx : TransitionCtx) (mem : option bytes) (w : World) : Reply := (as_i64 (cx_now cx), mem, cx, w).

Definition h_wall_clock (cx : TransitionCtx) (mem : option bytes) (w : World) : Reply :=
  match cx_backend cx with
  | Some b => let '(t, w') := now_millis b w in (as_i64 t, mem, cx, w')
  | None => (0, mem, cx, w)
  end.

Definition h_random (cx : TransitionCtx) (mem : option bytes) (w : World) (out len : Z) : Reply :=
  if negb (in_range 0 MAX_RANDOM len) then (-1, mem, cx, w)
  else
    match mem with
    | None => (-1, mem, cx, w)
    | Some m => let '(buf, w') := fill_bytes (Z.to_nat len) w in write_back cx m w' out len buf
    end.

Definition h_verify (cx : TransitionCtx) (mem : option bytes) (w : World) (fp fl ip il cp cl : Z) : Reply :=
  if cx_verify_mode cx then (2, mem, cx, w)
  else
    match mem with
    | None => (-1, mem, cx, w)
    | Some m =>
        match det_read_str m fp fl, det_read m ip il, det_read m cp cl, cx_verify_backend cx with
        | Some func, Some request, Some claimed, Some vb =>
            let r := mk_vreq (cx_program_cid cx) func (cx_prev_state cx) request (cx_now cx) claimed in
            let '(ok, w') := vb r w in ((if ok : bool then 1 else 0), mem, cx, w')
        | _, _, _, _ => (-1, mem, cx, w)
        end
    end.

Definition h_attest (cx : TransitionCtx) (mem : option bytes) (w : World) (sp sl : Z) : Reply :=
  if cx_verify_mode cx then (2, mem, cx, w)
  else
    match mem with
    | None => (-1, mem, cx, w)
    | Some m =>
        match det_read m sp sl, cx_attest_backend cx, cx_program_owner cx with
        | Some statement, Some ab, Some owner =>
            let '(ok, w') := ab owner (cx_program_cid cx) statement w in ((if ok : bool then 1 else 0), mem, cx, w')
        | _, _, _ => (-1, mem, cx, w)
        end
    end.

Definition h_sequence (cx : TransitionCtx) (mem : option bytes) (w : World) (ap nonce pp pl sp : Z) : Reply :=
  if cx_verify_mode cx then (2, mem, cx, w)
  else if nonce <? 0 then (-1, mem, cx, w)
  else
    match mem with
    | None => (-1, mem, cx, w)
    | Some m =>
        match det_read m ap 32, det_read m pp pl, det_read m sp 64 with
        | Some account, Some payload, Some owner_sig =>
            if negb (length account =? 32)%nat then (-1, mem, cx, w)
            else
              match cx_sequence_backend cx, cx_program_owner cx with
              | Some sb, Some owner =>
                  let '(ok, w') := sb owner (cx_program_cid cx) (mk_write account nonce payload owner_sig) w in
                  ((if ok : bool then 1 else 0), mem, cx, w')
              | _, _ => (-1, mem, cx, w)
              end
        | _, _, _ => (-1, mem, cx, w)
        end
    end.

Definition h_pre_grant (cx : TransitionCtx) (mem : option bytes) (w : World) (rp rl threshold shares out cap : Z) : Reply :=
  if cx_verify_mode cx then (2, mem, cx, w)
  else
    match mem with
    | None => (-1, mem, cx, w)
    | Some m =>
        match det_read m rp rl with
        | None => (-1, mem, cx, w)
        | Some recipient =>
            if (length recipient =? 0)%nat || (64 <? length recipient)%nat then (-1, mem, cx, w)
            else if (threshold <? 1) || (shares <? 1) || (shares <? threshold) then (-1, mem, cx, w)
            else
              match cx_backend cx with
              | None => (-1, mem, cx, w)
              | Some b =>
                  let '(r, w') := pre_rekey b recipient threshold shares w in
                  match r with Some (Some frags) => write_back cx m w' out cap frags | _ => (-1, mem, cx, w') end
              end
        end
    end.

Definition h_invoke_program (cx : TransitionCtx) (mem : option bytes) (w : World) (np nl fp fl ip il out cap : Z) : Reply :=
  match mem with
  | None => (-1, mem, cx, w)
  | Some m =>
      match det_read_str m np nl, det_read_str m fp fl, det_read m ip il, cx_invoke_backend cx with
      | Some name, Some func, Some input, Some b =>
          let '(r, w') := b name func input w in
          match r with Some output => write_back cx m w' out cap output | None => (-1, mem, cx, w') end
      | _, _, _, _ => (-1, mem, cx, w)
      end
  end.

Definition host_call (c : HostCall) (cx : TransitionCtx) (mem : option bytes) (w : World) : Reply :=
  match c with
  | C_input out cap => h_input cx mem w out cap
  | C_commit ptr len => h_commit cx mem w ptr len
  | C_state out cap => h_state cx mem w out cap
  | C_ed25519_verify pk msg msg_len sig => h_ed25519_verify cx mem w pk msg msg_len sig
  | C_caller out cap => h_caller cx mem w out cap
  | C_sql_execute ptr len => h_sql_execute cx mem w ptr len
  | C_sql_query owner_ptr owner_len sql_ptr sql_len out cap => h_sql_query cx mem w owner_ptr owner_len sql_ptr sql_len out cap
  | C_obj_put ptr len out cap => h_obj_put cx mem w ptr len out cap
  | C_obj_get cid_ptr out cap => h_obj_get cx mem w cid_ptr out cap
  | C_obj_get_range cid_ptr offset len out cap => h_obj_get_range cx mem w cid_ptr offset len out cap
  | C_clock => h_clock cx mem w
  | C_wall_clock => h_wall_clock cx mem w
  | C_random out len => h_random cx mem w out len
  | C_verify fp fl ip il cp cl => h_verify cx mem w fp fl ip il cp cl
  | C_attest sp sl => h_attest cx mem w sp sl
  | C_sequence ap nonce pp pl sp => h_sequence cx mem w ap nonce pp pl sp
  | C_pre_grant rp rl threshold shares out cap => h_pre_grant cx mem w rp rl threshold shares out cap
  | C_invoke_program np nl fp fl ip il out cap => h_invoke_program cx mem w np nl fp fl ip il out cap
  end.

(** ** Running a program *)

(** [true] when the export returned. *)
Fixpoint run_guest (g : Guest) (cx : TransitionCtx) (w : World) : bool * TransitionCtx * World :=
  match g with
  | G_return => (true, cx, w)
  | G_trap => (false, cx, w)
  | G_call c mem k =>
      let '(r, mem', cx', w') := host_call c cx mem w in run_guest (k r mem') cx' w'
  end.

Context {WM : Wasm}.

Definition run_under (wasm func : bytes) (cx : TransitionCtx) (fuel : Z) (g : CapabilityGrant) (w : World) : option bytes * World :=
  match module_imports wasm with
  | None => (None, w)
  | Some imports =>
      if links g imports then
        let '(ok, cx', w') := run_guest (start wasm func fuel) cx w in
        ((if ok : bool then Some (cx_output cx') else None), w')
      else (None, w)
  end.

Definition run_transition (wasm func prev request : bytes) (fuel : Z) (g : CapabilityGrant) (w : World) : option bytes * World :=
  run_under wasm func (ctx_deterministic prev request 0) fuel g w.

Definition run (wasm func request : bytes) (fuel : Z) (w : World) : option bytes * World :=
  run_transition wasm func [] request fuel deterministic w.

(** The engine a verifier and a producer use: the verifier grant, in verify
    mode, on a context with no backend. *)
Definition verify_engine (w : World) : Engine := {|
  run_program := fun wasm func prev request now fuel =>
    (run_under wasm func (in_verify_mode (ctx_deterministic prev request now)) fuel verifier_grant w).1
|}.
End host.

Arguments AppBackend : clear implicits.
Arguments TransitionCtx : clear implicits.
Arguments OsRng : clear implicits.
Arguments VerifyBackend : clear implicits.
Arguments AttestBackend : clear implicits.
Arguments SequenceBackend : clear implicits.
Arguments InvokeProgramBackend : clear implicits.

(** A program-derived account. *)
Definition PDA_DOMAIN : bytes := str_bytes "craftec/pda/v1".

Definition pda `{Blake3} (program_cid : key) (seed : bytes) : key := Cid_of (PDA_DOMAIN ++ program_cid ++ seed).
