(* ===== verification/HostRun.v ===== *)
(** What a program run can do ([Host]): where host functions write, which
    services a run reaches under a grant, when it is reproducible, and how the
    verifier re-run of [Verification] rests on that. *)

From S2P Require Import Prelude Crypto Verification Sequencer Host.

Open Scope Z_scope.

(** ** Guest memory *)

Lemma as_i32_id x : 0 <= x <= I32_MAX -> as_i32 x = x.
Proof. unfold as_i32, I32_MAX. intros. rewrite Z.mod_small; lia. Qed.

Lemma write_at_length m p d : (p + length d <= length m)%nat -> length (write_at m p d) = length m.
Proof. intros. unfold write_at. rewrite !length_app, length_take, length_drop. lia. Qed.

Lemma write_at_outside m p d i :
  (p + length d <= length m)%nat -> (i < p)%nat \/ (p + length d <= i)%nat -> write_at m p d !! i = m !! i.
Proof.
  intros Hb [Hi|Hi]; unfold write_at.
  - rewrite lookup_app_l by (rewrite length_take; lia). by rewrite lookup_take_lt.
  - rewrite lookup_app_r by (rewrite length_take; lia). rewrite lookup_app_r by (rewrite length_take; lia).
    rewrite lookup_drop, length_take. f_equal. lia.
Qed.

Lemma write_at_inside m p d : (p + length d <= length m)%nat -> take (length d) (drop p (write_at m p d)) = d.
Proof.
  intros. unfold write_at. rewrite drop_app_length' by (rewrite length_take; lia). by apply take_app_length'.
Qed.

(** What a write leaves behind: nothing moved, or [r] bytes of the buffer
    replaced by [data]. *)
Definition wrote (out cap : Z) (m : bytes) (r : Z) (m' data : bytes) : Prop :=
  0 <= out /\ r = Z.of_nat (length data) /\ r <= cap /\ out + r <= Z.of_nat (length m) /\ length m' = length m /\
  det_read m' out r = Some data /\
  forall i : nat, Z.of_nat i < out \/ out + r <= Z.of_nat i -> m' !! i = m !! i.

Lemma det_write_spec m out cap data r m' :
  cap <= I32_MAX -> det_write m out cap data = (r, m') ->
  (r = -1 /\ m' = m) \/ wrote out cap m r m' data.
Proof.
  unfold det_write. intros Hcap. destruct ((out <? 0) || (cap <? 0) || (cap <? Z.of_nat (length data))) eqn:Eg; [intros [= <- <-]; by left|].
  destruct (Z.leb_spec (out + Z.of_nat (length data)) (Z.of_nat (length m))); intros [= <- <-]; [|by left].
  right. rewrite as_i32_id by lia. unfold wrote. split; [lia|]. split; [done|]. split; [lia|]. split; [lia|].
  assert (Hl : (Z.to_nat out + length data <= length m)%nat) by lia. split; [by apply write_at_length|]. split.
  - unfold det_read. rewrite write_at_length by done.
    replace ((out <? 0) || (Z.of_nat (length data) <? 0)) with false by lia.
    replace (out + Z.of_nat (length data) <=? Z.of_nat (length m)) with true by lia.
    rewrite Nat2Z.id. by rewrite write_at_inside.
  - intros i Hi. apply write_at_outside; [done|lia].
Qed.

Lemma det_read_length m ptr len b : det_read m ptr len = Some b -> length b = Z.to_nat len /\ 0 <= len.
Proof.
  unfold det_read. destruct ((ptr <? 0) || (len <? 0)) eqn:E; [done|].
  destruct (Z.leb_spec (ptr + len) (Z.of_nat (length m))); [|done]. intros [= <-].
  rewrite length_take, length_drop. lia.
Qed.

Section run.
Context {World : Type} {Ed : Ed25519} {Rng : OsRng World}.
Notation Ctx := (TransitionCtx World).

(** The buffer a call may write. *)
Definition out_buffer (c : HostCall) : option (Z * Z) :=
  match c with
  | C_input out cap | C_state out cap | C_caller out cap => Some (out, cap)
  | C_sql_query _ _ _ _ out cap | C_obj_put _ _ out cap | C_obj_get _ out cap | C_obj_get_range _ _ _ out cap
  | C_pre_grant _ _ _ _ out cap | C_invoke_program _ _ _ _ _ _ out cap => Some (out, cap)
  | C_random out len => Some (out, len)
  | _ => None
  end.

(** The same context, its output aside. *)
Definition same_run (cx cx' : Ctx) : Prop := cx' = set_output cx (cx_output cx').

Lemma set_output_twice (cx : Ctx) a b : set_output (set_output cx a) b = set_output cx b.
Proof. done. Qed.

Lemma same_run_refl cx : same_run cx cx.
Proof. by destruct cx. Qed.

Lemma same_run_trans cx1 cx2 cx3 : same_run cx1 cx2 -> same_run cx2 cx3 -> same_run cx1 cx3.
Proof. unfold same_run. intros E1 E2. rewrite E2, E1 at 1. apply set_output_twice. Qed.

(** How memory and context come out of a call. *)
Definition tidy (c : HostCall) (cx : Ctx) (mem : option bytes) (r : Z) (mem' : option bytes) (cx' : Ctx) : Prop :=
  (mem' = mem /\ cx' = cx) \/
  (exists m m' data out cap, mem = Some m /\ mem' = Some m' /\ cx' = cx /\ out_buffer c = Some (out, cap) /\ wrote out cap m r m' data) \/
  (exists m ptr len b, c = C_commit ptr len /\ mem = Some m /\ mem' = mem /\ det_read m ptr len = Some b /\
    r = len /\ cx' = set_output cx b).

Lemma write_back_tidy c (cx : Ctx) m (w : World) out cap data :
  args_ok c -> out_buffer c = Some (out, cap) ->
  let '(r, mem', cx', w') := write_back cx m w out cap data in tidy c cx (Some m) r mem' cx' /\ w' = w.
Proof.
  intros Ha Hb. unfold write_back. destruct (det_write m out cap data) as [r m'] eqn:E. split; [|done].
  assert (Hcap : cap <= I32_MAX) by (destruct c; cbn in Hb; try done; injection Hb as <- <-; cbn in Ha; lia).
  destruct (det_write_spec _ _ _ _ _ _ Hcap E) as [[-> ->]|Hw]; [by left|]. right. left. by exists m, m', data, out, cap.
Qed.

(** Case analysis of a host function down to its replies. *)
Ltac host_cases :=
  repeat match goal with
  | |- context [match ?x with _ => _ end] =>
      lazymatch x with
      | write_back _ _ _ _ _ _ => fail
      | context [match _ with _ => _ end] => fail
      | _ => destruct x eqn:?
      end
  end.

Ltac host_unfold :=
  unfold host_call, h_input, h_commit, h_state, h_ed25519_verify, h_caller, h_sql_execute, h_sql_query, h_obj_put, h_obj_get,
    h_obj_get_range, h_clock, h_wall_clock, h_random, h_verify, h_attest, h_sequence, h_pre_grant, h_invoke_program.

Lemma host_call_tidy (c : HostCall) (cx : Ctx) (mem : option bytes) (w : World) :
  args_ok c -> let '(r, mem', cx', _) := host_call c cx mem w in tidy c cx mem r mem' cx'.
Proof.
  intros Ha.
  assert (Hwb : forall cx m w out cap data, out_buffer c = Some (out, cap) ->
    let '(r, mem', cx', _) := write_back cx m w out cap data in tidy c cx (Some m) r mem' cx').
  { intros. pose proof (write_back_tidy c cx0 m w0 out cap data Ha ltac:(done)) as Hw.
    destruct (write_back cx0 m w0 out cap data) as [[[? ?] ?] ?]. by destruct Hw. }
  destruct c; host_unfold; host_cases; try (by left); try (apply Hwb; reflexivity).
  right. right. cbn in Ha. unfold I32_MAX in Ha.
  match goal with E : det_read _ _ _ = Some _ |- _ => pose proof (det_read_length _ _ _ _ E) as [Hl ?] end.
  do 4 eexists. split; [done|]. split; [done|]. split; [done|]. split; [eassumption|]. split; [|done].
  rewrite Hl, as_i32_id; unfold I32_MAX; lia.
Qed.

(** C21: A host call writes only the buffer it was given: whatever the services
    answer, guest memory keeps its length, every byte that changed lies in the
    first [r] bytes at [out], [r] being the call's result and at most the
    stated capacity, and a call without an output buffer changes none.  Only
    [commit] touches the context, and what it stores is the slice it names. *)
Theorem host_call_confined (c : HostCall) (cx cx' : Ctx) (m : bytes) (mem' : option bytes) (w w' : World) (r : Z) :
  args_ok c -> host_call c cx (Some m) w = (r, mem', cx', w') ->
  exists m', mem' = Some m' /\ length m' = length m /\
    (forall i : nat, m' !! i <> m !! i ->
      exists out cap, out_buffer c = Some (out, cap) /\ out <= Z.of_nat i < out + r /\ r <= cap) /\
    same_run cx cx' /\
    (cx_output cx' <> cx_output cx -> exists ptr len, c = C_commit ptr len /\ det_read m ptr len = Some (cx_output cx')).
Proof.
  intros Ha E. pose proof (host_call_tidy c cx (Some m) w Ha) as Ht. rewrite E in Ht.
  destruct Ht as [[-> ->]|[(m0 & m' & data & out & cap & [= <-] & -> & -> & Hb & Ho & Hr & Hc & Hlen & Hl & _ & Hout)|
    (m0 & ptr & len & b & -> & [= <-] & -> & Hrd & -> & ->)]].
  - exists m. do 2 (split; [done|]). split; [done|]. split; [apply same_run_refl|done].
  - exists m'. do 2 (split; [done|]). split; [|split; [apply same_run_refl|done]].
    intros i Hi. exists out, cap. split; [done|]. split; [|done].
    destruct (decide (Z.of_nat i < out \/ out + r <= Z.of_nat i)) as [Hn|]; [by destruct (Hi (Hout i Hn))|lia].
  - exists m. do 2 (split; [done|]). split; [done|]. split; [done|]. intros _. by exists ptr, len.
Qed.

(** ** What a run may do *)

(** One call of a service, as the grant and the context allow it. *)
Inductive effect (g : CapabilityGrant) (cx : Ctx) : World -> World -> Prop :=
  | e_sql_execute b sql w : Sql ∈ g -> cx_backend cx = Some b -> effect g cx w (sql_execute b (cx_app_ns cx) sql w).2
  | e_sql_query b owner sql w : Sql ∈ g -> cx_backend cx = Some b -> effect g cx w (sql_query b owner (cx_app_ns cx) sql w).2
  | e_obj_put b data w : Obj ∈ g -> cx_backend cx = Some b -> effect g cx w (obj_put b data w).2
  | e_obj_get b cid w : Obj ∈ g -> cx_backend cx = Some b -> effect g cx w (obj_get b cid w).2
  | e_obj_get_range b cid off len w : Obj ∈ g -> cx_backend cx = Some b -> 0 <= off -> 0 <= len ->
      effect g cx w (obj_get_range b cid off len w).2
  | e_wall_clock b w : WallClock ∈ g -> cx_backend cx = Some b -> effect g cx w (now_millis b w).2
  | e_random n w : Random ∈ g -> Z.of_nat n <= MAX_RANDOM -> effect g cx w (fill_bytes n w).2
  | e_verify vb r w : Verify ∈ g -> cx_verify_mode cx = false -> cx_verify_backend cx = Some vb ->
      program_cid r = cx_program_cid cx -> prev_state r = cx_prev_state cx -> vr_now r = cx_now cx ->
      effect g cx w (vb r w).2
  | e_attest ab owner st w : Attest ∈ g -> cx_verify_mode cx = false -> cx_attest_backend cx = Some ab ->
      cx_program_owner cx = Some owner -> effect g cx w (ab owner (cx_program_cid cx) st w).2
  | e_sequence sb owner account nonce payload sig w : Sequence ∈ g -> cx_verify_mode cx = false ->
      cx_sequence_backend cx = Some sb -> cx_program_owner cx = Some owner -> 0 <= nonce -> length sig = 64%nat ->
      effect g cx w (sb owner (cx_program_cid cx) (mk_write account nonce payload sig) w).2
  | e_pre b recipient t s w : Pre ∈ g -> cx_verify_mode cx = false -> cx_backend cx = Some b ->
      1 <= t <= s -> effect g cx w (pre_rekey b recipient t s w).2
  | e_invoke b name func input w : InvokeProgram ∈ g -> cx_invoke_backend cx = Some b -> effect g cx w (b name func input w).2.

Lemma effect_same_run g cx cx' w w' : same_run cx cx' -> effect g cx' w w' -> effect g cx w w'.
Proof.
  unfold same_run. generalize (cx_output cx'). intros o -> He.
  destruct He; cbn in *; [eapply e_sql_execute|eapply e_sql_query|eapply e_obj_put|eapply e_obj_get|eapply e_obj_get_range|eapply e_wall_clock|
    eapply e_random|eapply e_verify|eapply e_attest|eapply e_sequence|eapply e_pre|eapply e_invoke]; eassumption.
Qed.

(** The capability that binds a call. *)
Definition cap_of (c : HostCall) : Capability :=
  match c with
  | C_input _ _ => Input | C_commit _ _ => Commit | C_state _ _ => State | C_ed25519_verify _ _ _ _ => Crypto
  | C_caller _ _ => Caller | C_sql_execute _ _ | C_sql_query _ _ _ _ _ _ => Sql
  | C_obj_put _ _ _ _ | C_obj_get _ _ _ | C_obj_get_range _ _ _ _ _ => Obj
  | C_clock => Clock | C_wall_clock => WallClock | C_random _ _ => Random | C_verify _ _ _ _ _ _ => Verify
  | C_attest _ _ => Attest | C_sequence _ _ _ _ _ => Sequence | C_pre_grant _ _ _ _ _ _ => Pre
  | C_invoke_program _ _ _ _ _ _ _ _ => InvokeProgram
  end.

Lemma bound_by_cap c cap : import_of c ∈ bound_by cap -> cap_of c = cap.
Proof.
  intros Hin. apply list_elem_of_In in Hin.
  destruct cap; cbn in Hin; repeat (destruct Hin as [Hin|Hin]; [destruct c; (discriminate Hin || reflexivity)|]); by destruct Hin.
Qed.

Lemma elem_of_bind_granted g i : i ∈ bind_granted g <-> exists cap, cap ∈ g /\ i ∈ bound_by cap.
Proof.
  unfold bind_granted. rewrite list_elem_of_In, in_flat_map. unfold grant_allows. split.
  - intros (cap & _ & Hin). exists cap. case_bool_decide; [|done]. split; [done|]. by apply list_elem_of_In.
  - intros (cap & Hg & Hin). exists cap. split; [|rewrite bool_decide_true by done; by apply list_elem_of_In].
    destruct cap; cbn; tauto.
Qed.

Lemma links_cap g imports c : links g imports = true -> import_of c ∈ imports -> cap_of c ∈ g.
Proof.
  unfold links. rewrite forallb_forall. intros Hl Hin. specialize (Hl _ (proj1 (list_elem_of_In _ _) Hin)).
  apply bool_decide_eq_true, elem_of_bind_granted in Hl as (cap & Hg & Hb). by rewrite (bound_by_cap _ _ Hb).
Qed.

Lemma write_back_world (cx : Ctx) m (w : World) out cap data : (write_back cx m w out cap data).2 = w.
Proof. unfold write_back. by destruct (det_write m out cap data). Qed.

Lemma host_call_effect g (c : HostCall) (cx : Ctx) mem (w : World) :
  cap_of c ∈ g -> let w' := (host_call c cx mem w).2 in w' = w \/ effect g cx w w'.
Proof.
  intros Hc. destruct c; cbn [cap_of] in Hc; host_unfold; host_cases; rewrite ?write_back_world; cbn; try (by left);
    right; match goal with E : _ = (?r, ?w') |- effect _ _ _ ?w' => change w' with (r, w').2; rewrite <- E end.
  all: try (by econstructor).
  all: lazymatch type of Hc with
    | Obj ∈ _ => eapply e_obj_get_range; (done || lia)
    | Random ∈ _ => unfold in_range in *; eapply e_random; [done|lia]
    | Pre ∈ _ => eapply e_pre; (done || lia)
    | Sequence ∈ _ => eapply e_sequence; try done; [lia|];
        match goal with E : det_read _ _ 64 = Some _ |- _ => by apply det_read_length in E as [-> _] end
    end.
Qed.

Lemma host_call_same_run (c : HostCall) (cx : Ctx) mem (w : World) : same_run cx (host_call c cx mem w).1.2.
Proof.
  assert (Hwb : forall cx m (w : World) out cap data, same_run cx (write_back cx m w out cap data).1.2).
  { intros. unfold write_back. destruct (det_write _ _ _ _). apply same_run_refl. }
  destruct c; host_unfold; host_cases; try apply Hwb; cbn; apply same_run_refl || reflexivity.
Qed.

Lemma run_guest_effects g gu (cx : Ctx) (w : World) :
  calls_all (fun c => cap_of c ∈ g) gu -> rtc (effect g cx) w (run_guest gu cx w).2.
Proof.
  intros Hgu. revert cx w. induction Hgu as [| |c mem k Hc _ IH]; intros cx w; cbn [run_guest]; [by apply rtc_refl..|].
  pose proof (host_call_effect g c cx mem w Hc) as He. pose proof (host_call_same_run c cx mem w) as Hs.
  destruct (host_call c cx mem w) as [[[r mem'] cx'] w']. cbn in He, Hs.
  assert (Hk : rtc (effect g cx) w' (run_guest (k r mem') cx' w').2).
  { eapply (rtc_subrel (effect g cx')); [|apply IH]. intros a b. by apply effect_same_run. }
  destruct He as [->|He]; [done|]. by eapply rtc_l.
Qed.

Lemma calls_all_impl (P Q : HostCall -> Prop) gu : (forall c, P c -> Q c) -> calls_all P gu -> calls_all Q gu.
Proof. intros HPQ. induction 1; constructor; auto. Qed.

Context {WM : Wasm} {WL : WasmLaws}.

Lemma linked_calls wasm func fuel g imports :
  module_imports wasm = Some imports -> links g imports = true ->
  calls_all (fun c => cap_of c ∈ g /\ args_ok c) (start wasm func fuel).
Proof.
  intros Hm Hl. eapply calls_all_impl; [|by apply calls_are_imports].
  intros c [Hin Ha]. split; [by eapply links_cap|done].
Qed.

Lemma run_effects (wasm func : bytes) (cx : Ctx) (fuel : Z) (g : CapabilityGrant) (w : World) :
  rtc (effect g cx) w (run_under wasm func cx fuel g w).2.
Proof.
  unfold run_under. destruct (module_imports wasm) as [imports|] eqn:Em; [|apply rtc_refl].
  destruct (links g imports) eqn:El; [|apply rtc_refl].
  pose proof (run_guest_effects g (start wasm func fuel) cx w) as He.
  destruct (run_guest (start wasm func fuel) cx w) as [[ok cx'] w']. cbn in *.
  apply He. eapply calls_all_impl; [|by eapply linked_calls]. by intros c [? _].
Qed.

(** C12: A program reaches a service only as its grant and its context allow:
    whatever the module does and the services answer, what a run leaves behind
    is the effect of a sequence of service calls, each behind a granted
    capability.  Database calls name the run's own namespace, [attest] and
    [sequence] run under the authenticated owner and are impossible without
    one, sequenced writes carry a 64-byte signature, delegation thresholds are
    sound, and in verify mode none of [verify], [attest], [sequence] and
    [pre_grant] reaches its service.  A module that imports anything else does
    not run. *)
Theorem run_within_grant (wasm func : bytes) (cx : Ctx) (fuel : Z) (g : CapabilityGrant) (w : World) :
  rtc (effect g cx) w (run_under wasm func cx fuel g w).2 /\
  ((run_under wasm func cx fuel g w).1 <> None ->
   exists imports, module_imports wasm = Some imports /\ forall i, i ∈ imports -> exists cap, cap ∈ g /\ i ∈ bound_by cap).
Proof.
  split; [apply run_effects|]. unfold run_under. destruct (module_imports wasm) as [imports|]; [|done].
  destruct (links g imports) eqn:El; [|done]. intros _. exists imports. split; [done|]. intros i Hi.
  unfold links in El. rewrite forallb_forall in El.
  apply elem_of_bind_granted, (bool_decide_eq_true_1 _), El. by apply list_elem_of_In.
Qed.

(** ** Reproducible runs *)

(** No service can be reached but the random source. *)
Definition closed (cx : Ctx) : Prop :=
  cx_backend cx = None /\ cx_invoke_backend cx = None /\
  (cx_verify_mode cx = true \/
   cx_verify_backend cx = None /\ (cx_program_owner cx = None \/ cx_attest_backend cx = None /\ cx_sequence_backend cx = None)).

Lemma closed_same_run cx cx' : same_run cx cx' -> closed cx -> closed cx'.
Proof. unfold same_run. intros ->. done. Qed.

Lemma closed_no_effect g cx w w' : closed cx -> Random ∉ g -> ~ effect g cx w w'.
Proof. intros (Hb & Hi & Hv) Hr He. destruct He; try congruence; naive_solver congruence. Qed.

(** A call that reaches no service answers the same in every world. *)
Lemma host_call_uniform (c : HostCall) (cx : Ctx) mem :
  closed cx -> cap_of c <> Random ->
  exists r mem' cx', same_run cx cx' /\ forall w : World, host_call c cx mem w = (r, mem', cx', w).
Proof.
  intros (Hb & Hi & Hv) Hc.
  assert (Hre : forall (r : Z) (mem' : option bytes), exists r1 mem1 cx1, same_run cx cx1 /\ forall w : World, (r, mem', cx, w) = (r1, mem1, cx1, w))
    by (intros r mem'; exists r, mem', cx; split; [apply same_run_refl|done]).
  assert (Hwb : forall m out cap data, exists r mem' cx', same_run cx cx' /\ forall w : World, write_back cx m w out cap data = (r, mem', cx', w)).
  { intros. unfold write_back. destruct (det_write _ _ _ _) as [r m']. apply Hre. }
  destruct c; cbn in Hc; try done; host_unfold; rewrite ?Hb, ?Hi;
    repeat match goal with
    | |- context [match ?x with _ => _ end] =>
        lazymatch x with context [match _ with _ => _ end] => fail | _ => destruct x eqn:? end
    end; try apply Hwb; try apply Hre; try (eexists _, _, _; split; [|reflexivity]; reflexivity);
    destruct Hv as [Hv|[Hv [Ho|[Ha Hs]]]]; congruence.
Qed.

Lemma run_guest_uniform gu (cx : Ctx) :
  closed cx -> calls_all (fun c => cap_of c <> Random) gu ->
  exists ok cx', forall w : World, run_guest gu cx w = (ok, cx', w).
Proof.
  intros Hcl Hgu. revert cx Hcl. induction Hgu as [| |c mem k Hc _ IH]; intros cx Hcl; [by eexists _, _..|].
  destruct (host_call_uniform c cx mem Hcl Hc) as (r & mem' & cx1 & Hs & E). cbn [run_guest].
  destruct (IH r mem' cx1) as (ok & cx2 & E2); [by eapply closed_same_run|].
  exists ok, cx2. intros w. by rewrite E.
Qed.

(** A closed run that cannot draw random bytes is a function of the program
    and its context. *)
Lemma closed_run_uniform (wasm func : bytes) (cx : Ctx) (fuel : Z) (g : CapabilityGrant) :
  closed cx -> Random ∉ g -> exists r, forall w : World, run_under wasm func cx fuel g w = (r, w).
Proof.
  intros Hcl Hr. unfold run_under. destruct (module_imports wasm) as [imports|] eqn:Em; [|by eexists].
  destruct (links g imports) eqn:El; [|by eexists].
  destruct (run_guest_uniform (start wasm func fuel) cx Hcl) as (ok & cx' & E).
  - eapply calls_all_impl; [|by eapply linked_calls]. intros c [Hc _] E. rewrite E in Hc. done.
  - eexists. intros w. by rewrite E.
Qed.

(** ** Verify mode *)

(** A context without the orchestration services. *)
Definition strip_backend (b : AppBackend World) : AppBackend World :=
  mk_app (sql_execute b) (sql_query b) (obj_put b) (obj_get b) (obj_get_range b) (now_millis b) default_pre_rekey.

Definition strip (cx : Ctx) : Ctx :=
  mk_ctx (cx_prev_state cx) (cx_input cx) (cx_output cx) (cx_caller cx) (cx_app_ns cx) (cx_now cx) (strip_backend <$> cx_backend cx)
    (cx_verify_mode cx) (cx_program_cid cx) None None None None (cx_invoke_backend cx).

Definition strip_reply (x : Z * option bytes * Ctx * World) : Z * option bytes * Ctx * World :=
  let '(r, mem, cx, w) := x in (r, mem, strip cx, w).

Lemma write_back_strip (cx : Ctx) m (w : World) out cap data :
  write_back (strip cx) m w out cap data = strip_reply (write_back cx m w out cap data).
Proof. unfold write_back. by destruct (det_write m out cap data). Qed.

Lemma host_call_strip (c : HostCall) (cx : Ctx) mem (w : World) :
  cx_verify_mode cx = true -> host_call c (strip cx) mem w = strip_reply (host_call c cx mem w).
Proof.
  intros Hv.
  destruct c; host_unfold; cbn [cx_verify_mode strip]; rewrite ?Hv;
    change (cx_backend (strip cx)) with (strip_backend <$> cx_backend cx);
    destruct (cx_backend cx) as [b|] eqn:Eb; cbn [fmap option_fmap option_map]; change (@cx_input _ (strip cx)) with (cx_input cx);
    change (cx_prev_state (strip cx)) with (cx_prev_state cx); change (cx_caller (strip cx)) with (cx_caller cx);
    change (cx_app_ns (strip cx)) with (cx_app_ns cx); change (cx_now (strip cx)) with (cx_now cx);
    change (cx_invoke_backend (strip cx)) with (cx_invoke_backend cx); cbn [strip_backend sql_execute sql_query obj_put obj_get obj_get_range now_millis];
    host_cases; try reflexivity; try apply write_back_strip.
Qed.

Lemma run_guest_strip gu (cx : Ctx) (w : World) :
  cx_verify_mode cx = true ->
  run_guest gu (strip cx) w = let '(ok, cx', w') := run_guest gu cx w in (ok, strip cx', w').
Proof.
  revert cx w. induction gu as [| |c mem k IH]; intros cx w Hv; [done..|]. cbn [run_guest].
  rewrite host_call_strip by done. pose proof (host_call_same_run c cx mem w) as Hs.
  destruct (host_call c cx mem w) as [[[r mem'] cx'] w']. cbn in Hs |- *. apply IH. by rewrite Hs.
Qed.

(** In verify mode a run cannot tell whether orchestration is wired: with
    the boards, quorums, the program's owner and the delegation key taken out
    of its context it commits the same output and leaves the services in the
    same state. *)
Theorem verify_mode_is_inert (wasm func : bytes) (cx : Ctx) (fuel : Z) (g : CapabilityGrant) (w : World) :
  run_under wasm func (strip (in_verify_mode cx)) fuel g w = run_under wasm func (in_verify_mode cx) fuel g w.
Proof.
  unfold run_under. destruct (module_imports wasm); [|done]. destruct (links g _); [|done].
  rewrite run_guest_strip by done. by destruct (run_guest _ (in_verify_mode cx) w) as [[ok cx'] w'].
Qed.

(** ** Verification rests on reproducible runs *)

Lemma rerun_uniform (wasm func prev request : bytes) (now fuel : Z) :
  exists r, forall w : World, run_under wasm func (in_verify_mode (ctx_deterministic prev request now)) fuel verifier_grant w = (r, w).
Proof. apply closed_run_uniform; [split; [done|]; split; [done|by left]|by apply (bool_decide_unpack _)]. Qed.

Context {B3 : Blake3} {EL : Ed25519Laws}.

(** C30: A produced claim verifies on every node: for a producer and a verifier
    in any two worlds, the request a producer packages is confirmed by the
    verifier's own re-run of the module within the same fuel, under a
    signature that checks; neither run touches a service. *)
Theorem produced_claim_verifies_anywhere (w1 w2 : World) (identity : NodeIdentity) (wasm func prev request : bytes) (now fuel : Z) (r : VerifyRequest) :
  @produce B3 (verify_engine w1) wasm func prev request now fuel = Some r ->
  let v := @verify_locally Ed B3 (verify_engine w2) identity r wasm fuel in
  agree v = true /\ verify_sig v = true /\ verifier v = node_id identity /\
  forall w, (run_under wasm func (in_verify_mode (ctx_deterministic prev request now)) fuel verifier_grant w).2 = w.
Proof.
  intros Hp v. destruct (rerun_uniform wasm func prev request now fuel) as [out E].
  split; [|split; [|split; [done|]]].
  - unfold produce in Hp. apply bind_Some in Hp as (o & Ho & [= <-]). cbn in Ho. rewrite E in Ho. cbn in Ho. subst out.
    unfold v, verify_locally. cbn. rewrite bool_decide_false by (by intros []). rewrite E. cbn. by apply bool_decide_eq_true.
  - unfold v, verify_locally, verify_sig, sign_verdict. cbn. apply verify_slice_sign.
  - intros w. by rewrite E.
Qed.
End run.

(** The three profiles. *)
Lemma verifier_is_full_without_host_varying :
  verifier_grant = without (without full WallClock) Random /\ deterministic ⊆ verifier_grant /\ verifier_grant ⊆ full.
Proof. split; [|split]; by apply (bool_decide_unpack _). Qed.

(** ** Evaluations *)

(** A run writes what it read back: the bytes of a successful write are what
    a read of the same range returns. *)
Definition echo : Guest := G_call (C_input 0 4) (Some (replicate 8 0)) (fun r m => G_call (C_commit 0 (as_i32 r)) m (fun _ _ => G_return)).

(** Asks the quorum about one byte and commits the answer's sign. *)
Definition ask : Guest :=
  G_call (C_attest 0 1) (Some [7]) (fun r _ => G_call (C_commit 0 (if r =? 1 then 1 else 0)) (Some [1]) (fun _ _ => G_return)).

(** Commits what the database of the run's namespace answers. *)
Definition query : Guest :=
  G_call (C_sql_query 0 0 0 1 0 4) (Some [65; 0; 0; 0]) (fun r m => G_call (C_commit 0 (as_i32 r)) m (fun _ _ => G_return)).

Definition toy_wasm : Wasm := {|
  module_imports := fun b => match b with
    | [1] => Some [import_of (C_input 0 0); import_of (C_commit 0 0)]
    | [2] => Some [import_of (C_attest 0 0); import_of (C_commit 0 0)]
    | [3] => Some [import_of (C_sql_query 0 0 0 0 0 0); import_of (C_commit 0 0)]
    | _ => None end;
  start := fun b _ _ => match b with [1] => echo | [2] => ask | [3] => query | _ => G_trap end
|}.

Lemma as_i32_range x : -2147483648 <= as_i32 x <= I32_MAX.
Proof. unfold as_i32, I32_MAX. pose proof (Z.mod_pos_bound (x + 2147483648) 4294967296). lia. Qed.

Lemma toy_wasm_laws : @WasmLaws toy_wasm.
Proof.
  split. intros wasm func fuel imports. cbn.
  assert (Hi : forall x, -2147483648 <= as_i32 x <= 2147483647) by apply as_i32_range.
  repeat case_match; intros; simplify_eq; unfold echo, ask, query;
    repeat (constructor; [split; [set_solver|cbn; unfold I32_MAX; repeat split; try case_match; try apply Hi; lia]|intros ? ?]); constructor.
Qed.

(** The services' state is a byte string: what the database answers, grown by
    one byte by each answered attestation. *)
Definition toy_rng : OsRng bytes := {| fill_bytes := fun n w => (replicate n 0, w) |}.

Definition toy_backend : AppBackend bytes :=
  mk_app (fun _ _ w => (None, w)) (fun _ _ _ w => (Some w, w)) (fun _ w => (None, w)) (fun _ w => (None, w))
    default_obj_get_range (fun w => (0, w)) default_pre_rekey.

Definition ask_ctx : TransitionCtx bytes :=
  with_attest_backend (with_program_owner (ctx_deterministic [] [9] 0) (Some (key_of 1))) (Some (fun _ _ st w => (true, st ++ w))).

#[local] Existing Instances toy_ed25519 toy_rng toy_wasm toy_blake3.

Lemma host_call_confined_witness :
  exists m', (host_call (C_input 1 4) (ctx_deterministic [] [5; 6] 0) (Some [0; 0; 0; 0]) ([] : bytes)).1.1.2 = Some m' /\
    length m' = 4%nat /\ m' = [0; 5; 6; 0].
Proof.
  destruct (host_call_confined (World := bytes) (C_input 1 4) (ctx_deterministic [] [5; 6] 0) (ctx_deterministic [] [5; 6] 0)
    [0; 0; 0; 0] (Some [0; 5; 6; 0]) [] [] 2) as (m' & E & Hl & _); [cbn; unfold I32_MAX; lia|reflexivity|].
  injection E as <-. exists [0; 5; 6; 0]. split; [reflexivity|]. split; [exact Hl|reflexivity].
Defined.

Lemma run_within_grant_witness :
  rtc (effect full ask_ctx) [] (run_under [2] [] ask_ctx 100 full []).2 /\ run_under [2] [] ask_ctx 100 full [] = (Some [1], [7]) /\
  run_under [2] [] ask_ctx 100 deterministic [] = (None, []).
Proof.
  split; [exact (proj1 (@run_within_grant bytes toy_ed25519 toy_rng toy_wasm toy_wasm_laws [2] [] ask_ctx 100 full []))|].
  split; vm_compute; reflexivity.
Defined.

(** The re-run of the same module commits nothing and asks nobody. *)
Example ask_is_inert : run_under [2] [] (in_verify_mode ask_ctx) 100 full [] = (Some [], []).
Proof. vm_compute. reflexivity. Qed.

Definition ex_claim : VerifyRequest := mk_vreq (Cid_of [1]) [114] [] [5; 6] 3 [5; 6].

Lemma produced_claim_verifies_anywhere_witness :
  @produce toy_blake3 (verify_engine [1]) [1] [114] [] [5; 6] 3 100 = Some ex_claim /\
  agree (@verify_locally toy_ed25519 toy_blake3 (verify_engine [2]) 4 ex_claim [1] 100) = true.
Proof.
  assert (E : @produce toy_blake3 (verify_engine [1]) [1] [114] [] [5; 6] 3 100 = Some ex_claim) by (vm_compute; reflexivity).
  split; [exact E|].
  exact (proj1 (@produced_claim_verifies_anywhere bytes toy_ed25519 toy_rng toy_wasm toy_wasm_laws toy_blake3 toy_ed25519_laws [1] [2] 4 [1] [114] [] [5; 6] 3 100 ex_claim E)).
Defined.

(** The deterministic grant binds the database: with a backend in its context
    the same program on the same state and input commits what the node's own
    database answers. *)
Example deterministic_grant_reads_the_backend :
  let cx := ctx_new [] [] (key_of 1) [] 0 (Some toy_backend) in
  run_under [3] [] cx 100 deterministic [1] = (Some [1], [1]) /\ run_under [3] [] cx 100 deterministic [2; 2] = (Some [2; 2], [2; 2]).
Proof. split; vm_compute; reflexivity. Qed.
