(* ===== verification/Invoke.v ===== *)
(** Application invocation ([crates/com/src/invoke.rs]): loading a program by
    its content id and running it for a caller, the handler of a remote
    invocation with its status byte, and the remote caller.

    [InvokeService] holds the object engine's
    [get_following_manifest(.., ConsumeMode::Drop)] as its field
    [is_fetch]; a request over the transport is a function from the request's
    bytes to the reply's. *)

From S2P Require Import Prelude Crypto Verification Sequencer Host HostRun.

Open Scope Z_scope.

Definition DEFAULT_FUEL : Z := 10000000.

(** The limit of [read_to_end] on both sides. *)
Definition INVOKE_LIMIT : Z := 64 * 1024.

Record InvokeRequest := mk_invoke { iq_app_ns : bytes; iq_wasm_cid : key; iq_func : bytes; iq_input : bytes }.

Section invoke.
Context {World : Type} {Ed : Ed25519} {B3 : Blake3} {Rng : OsRng World} {WM : Wasm} {PI : Postcard InvokeRequest}.

Record InvokeService := mk_invoke_service {
  is_fetch : key -> World -> option bytes * World;
  is_backend : AppBackend World;
  is_verify : option (VerifyBackend World);
  is_attest : option (AttestBackend World);
  is_sequence : option (SequenceBackend World)
}.

(** The context an invocation runs in. *)
Definition invoke_ctx (s : InvokeService) (q : InvokeRequest) (caller : key) (owner : option key) (now : Z) (wasm : bytes) : TransitionCtx World :=
  with_sequence_backend (with_attest_backend (with_verify_backend (with_program_owner (with_program
    (ctx_new [] (iq_input q) caller (iq_app_ns q) now (Some (is_backend s))) (Cid_of wasm)) owner) (is_verify s)) (is_attest s)) (is_sequence s).

Definition invoke (s : InvokeService) (q : InvokeRequest) (caller : key) (owner : option key) (w : World) : option bytes * World :=
  let '(fetched, w) := is_fetch s (iq_wasm_cid q) w in
  match fetched with
  | None => (None, w)
  | Some wasm =>
      let '(now, w) := now_millis (is_backend s) w in
      run_under wasm (iq_func q) (invoke_ctx s q caller owner now wasm) DEFAULT_FUEL full w
  end.

(** One stream of [serve_invocations]; [None] closes it without a reply. *)
Definition serve_invocation (s : InvokeService) (remote : key) (request : bytes) (w : World) : option bytes * World :=
  if INVOKE_LIMIT <? Z.of_nat (length request) then (None, w)
  else
    match from_bytes request with
    | None => (Some [0], w)
    | Some q =>
        let '(r, w) := invoke s q remote None w in
        (Some (match r with Some out => 1 :: out | None => [0] end), w)
    end.

(** [request] is the transport's tagged request to the address. *)
Definition invoke_remote (request : bytes -> World -> option bytes * World) (q : InvokeRequest) (w : World) : option bytes * World :=
  let '(resp, w) := request (to_allocvec q) w in
  (match resp with Some (1 :: out) => Some out | _ => None end, w).

(** A transport that carries bytes unchanged, up to the limit of the reply. *)
Definition direct (s : InvokeService) (caller : key) (b : bytes) (w : World) : option bytes * World :=
  let '(resp, w) := serve_invocation s caller b w in
  (match resp with Some r => if INVOKE_LIMIT <? Z.of_nat (length r) then None else Some r | None => None end, w).

Context {WL : WasmLaws} {PL : PostcardLaws InvokeRequest}.

(** Without an owner, attestation and sequencing are out of reach. *)
Lemma effect_without_owner g (cx : TransitionCtx World) w w' :
  cx_program_owner cx = None -> effect g cx w w' -> effect (g ∖ {[Attest; Sequence]}) cx w w'.
Proof.
  intros Ho He. destruct He; try congruence;
    [eapply e_sql_execute|eapply e_sql_query|eapply e_obj_put|eapply e_obj_get|eapply e_obj_get_range|eapply e_wall_clock|
     eapply e_random|eapply e_verify|eapply e_pre|eapply e_invoke]; try eassumption; set_solver.
Qed.

(** Invoking a program on another node gives what that node's run
    committed, and no more authority than the caller has: over a transport
    that carries the bytes, the caller gets an output exactly when the serving
    node's run for it, with no owner, commits that output and it fits the
    reply; an empty output and a failure are told apart.  The run sees the
    authenticated caller and the requested namespace, and whatever the program
    does it reaches the node's services only through the full grant without
    [attest] and [sequence]. *)
Theorem remote_invocation (s : InvokeService) (q : InvokeRequest) (caller : key) (w w' : World) (r : option bytes) :
  Z.of_nat (length (to_allocvec q)) <= INVOKE_LIMIT -> invoke_remote (direct s caller) q w = (r, w') ->
  (forall out, r = Some out <-> (invoke s q caller None w).1 = Some out /\ Z.of_nat (length out) < INVOKE_LIMIT) /\
  match is_fetch s (iq_wasm_cid q) w with
  | (None, w1) => r = None /\ w' = w1
  | (Some wasm, w1) =>
      let '(now, w2) := now_millis (is_backend s) w1 in
      let cx := invoke_ctx s q caller None now wasm in
      cx_caller cx = caller /\ cx_app_ns cx = iq_app_ns q /\ rtc (effect (full ∖ {[Attest; Sequence]}) cx) w2 w'
  end.
Proof.
  unfold invoke_remote, direct, serve_invocation. intros Hl.
  rewrite (proj2 (Z.ltb_ge _ _) Hl), postcard_roundtrip.
  destruct (invoke s q caller None w) as [ro wo] eqn:E. intros [= Er <-]. split.
  - intros out. cbn. rewrite <- Er. clear. destruct ro as [o|]; [|by split; [|intros [? _]]].
    cbn [length]. destruct (Z.ltb_spec INVOKE_LIMIT (Z.of_nat (S (length o)))); split; naive_solver lia.
  - unfold invoke in E. destruct (is_fetch s (iq_wasm_cid q) w) as [[wasm|] w1]; [|by injection E as <- <-].
    destruct (now_millis (is_backend s) w1) as [now w2]. split; [done|]. split; [done|].
    pose proof (run_effects wasm (iq_func q) (invoke_ctx s q caller None now wasm) DEFAULT_FUEL full w2) as He.
    rewrite E in He. eapply rtc_subrel; [|exact He]. intros a b. by apply effect_without_owner.
Qed.
End invoke.

(** ** Evaluations *)

#[local] Existing Instances toy_ed25519 toy_rng toy_wasm toy_blake3.

#[local] Instance InvokeRequest_eq_dec : EqDecision InvokeRequest.
Proof. solve_decision. Defined.

#[local] Instance InvokeRequest_countable : Countable InvokeRequest :=
  inj_countable' (fun q => (iq_app_ns q, iq_wasm_cid q, iq_func q, iq_input q)) (fun x => let '(a, b, c, d) := x in mk_invoke a b c d)
    (fun q => match q with mk_invoke _ _ _ _ => eq_refl end).

#[local] Instance toy_invoke_codec : Postcard InvokeRequest := countable_codec.

(** A node that serves every one-byte id as that module, and whose quorum
    always agrees. *)
Definition toy_service : InvokeService :=
  mk_invoke_service (fun cid w => (match cid with n :: _ => Some [n] | [] => None end, w)) toy_backend None
    (Some (fun _ _ st w => (true, st ++ w))) None.

Lemma remote_invocation_witness :
  let q := mk_invoke [65] (key_of 1) [114] [5; 6] in
  invoke_remote (direct toy_service (key_of 8)) q [] = (Some [5; 6], []) /\
  (invoke toy_service q (key_of 8) None []).1 = Some [5; 6].
Proof.
  intros q. assert (E : invoke_remote (direct toy_service (key_of 8)) q [] = (Some [5; 6], [])) by (vm_compute; reflexivity).
  split; [exact E|].
  exact (proj1 (proj1 (proj1 (@remote_invocation bytes toy_ed25519 toy_blake3 toy_rng toy_wasm toy_invoke_codec toy_wasm_laws
    countable_codec_laws toy_service q (key_of 8) [] [] (Some [5; 6]) ltac:(by vm_compute) E) [5; 6]) eq_refl)).
Defined.

(** The same program asks the quorum for the owner's own run and cannot for a
    remote caller. *)
Example remote_caller_cannot_attest :
  let q := mk_invoke [] (key_of 2) [] [] in
  invoke toy_service q (key_of 8) (Some (key_of 1)) [] = (Some [1], [7]) /\
  invoke_remote (direct toy_service (key_of 8)) q [] = (Some [], []).
Proof. split; vm_compute; reflexivity. Qed.
