(* ===== verification/Routing.v ===== *)
(** Content routing ([crates/routing/src/lib.rs], [records.rs],
    [dht_routing.rs]): the typed records and their signed envelopes, the
    freshness counter with its compare-and-swap loop, the key of each record
    kind, and every operation of the [ContentRouting] trait over the DHT node.

    An operation of [DhtRouting] is a function on the node and the counter; it
    takes the network, the clock of the DHT's loops and the times it reads.
    [None] is a lookup out of fuel or the overflow panic of the counter. *)

From S2P Require Import Prelude Crypto Wire DhtTable DhtRecord DhtNode.

Open Scope Z_scope.

(** ** Records *)

Definition KIND_PROVIDER : Z := 1.
Definition KIND_WANT : Z := 4.
Definition KIND_META : Z := 5.
Definition KIND_GRANT : Z := 8.
Definition KIND_APP : Z := 9.

Record GrantPayload := mk_grant_payload { gp_cid : key; gp_recipient : bytes; gp_kfrags : bytes; gp_seq : Z }.
Record ProviderPayload := mk_provider_payload { pp_cid : key; pp_piece_count : Z; pp_addr : bytes; pp_pinned : bool }.
Record WantPayload := mk_want_payload { wp_cid : key }.
Record MetaPayload := mk_meta_payload { mp_cid : key; mp_published_at : Z; mp_comment : option bytes }.
Record AppPayload := mk_app_payload { ap_name : bytes; ap_wasm_cid : key; ap_version : Z }.

Record MetaRecord := mk_meta_record { mr_publisher : key; mr_published_at : Z; mr_comment : option bytes }.
Record AppRecord := mk_app_record { ar_publisher : key; ar_name : bytes; ar_wasm_cid : key; ar_version : Z }.

Inductive RoutingError := NoTracker | Tracker (message : bytes) | Conflict (message : bytes).

Section envelope.
Context {Ed : Ed25519}.

Definition signing_bytes (kind : Z) (node_id : key) (payload : bytes) (hlc_ts : Z) : bytes :=
  [kind] ++ node_id ++ payload ++ be_bytes 8 hlc_ts.

Definition sign_payload {P} `{Postcard P} (identity : NodeIdentity) (kind : Z) (payload : P) (hlc_ts : Z) : SignedRecord :=
  let n := node_id identity in
  let p := to_allocvec payload in
  mk_SignedRecord kind n p hlc_ts (sign identity (signing_bytes kind n p hlc_ts)).

Definition verify_envelope (r : SignedRecord) : bool :=
  verify_slice (sr_node_id r) (signing_bytes (sr_kind r) (sr_node_id r) (sr_payload r) (sr_hlc_ts r)) (sr_signature r).

(** [provider], [want], [meta], [app]: the payload of a record of that kind. *)
Definition payload_of {P} `{Postcard P} (kind : Z) (r : SignedRecord) : option P :=
  if sr_kind r =? kind then from_bytes (sr_payload r) else None.

Definition provider `{Postcard ProviderPayload} (r : SignedRecord) : option ProviderPayload := payload_of KIND_PROVIDER r.
Definition want `{Postcard WantPayload} (r : SignedRecord) : option WantPayload := payload_of KIND_WANT r.
Definition meta `{Postcard MetaPayload} (r : SignedRecord) : option MetaPayload := payload_of KIND_META r.
Definition app_payload `{Postcard AppPayload} (r : SignedRecord) : option AppPayload := payload_of KIND_APP r.
End envelope.

(** ** The freshness counter *)

(** What the loop of [next_seq] writes over [cur]; [None] is the panic of
    [cur + 1]. *)
Definition next_value (cur now : Z) : option Z := n ← checked_add cur 1; Some (Z.max n now).

(** A call of [next_seq], between its steps. *)
Inductive Thread :=
  | T_start
  | T_loop (now cur : Z)
  | T_done (v : Z)
  | T_panic.

(** The counter, the calls in flight, and the values returned so far, latest
    first. *)
Record Shared := mk_shared { sh_seq : Z; sh_threads : list Thread; sh_returned : list Z }.

Inductive seq_step : Shared -> Shared -> Prop :=
  | ss_load s ts ret i now :
      ts !! i = Some T_start ->
      seq_step (mk_shared s ts ret) (mk_shared s (<[i := T_loop now s]> ts) ret)
  | ss_cas s ts ret i now next :
      ts !! i = Some (T_loop now s) -> next_value s now = Some next ->
      seq_step (mk_shared s ts ret) (mk_shared next (<[i := T_done next]> ts) (next :: ret))
  (** the exchange failed, because the counter moved or spuriously *)
  | ss_retry s ts ret i now cur next :
      ts !! i = Some (T_loop now cur) -> next_value cur now = Some next ->
      seq_step (mk_shared s ts ret) (mk_shared s (<[i := T_loop now s]> ts) ret)
  | ss_panic s ts ret i now cur :
      ts !! i = Some (T_loop now cur) -> next_value cur now = None ->
      seq_step (mk_shared s ts ret) (mk_shared s (<[i := T_panic]> ts) ret).

(** ** Keys *)

Section keys.
Context {B3 : Blake3}.

Definition cid_key (kind : Z) (cid : key) : key := Cid_of ([kind] ++ cid).

Definition owned_key (kind : Z) (owner : key) (name : bytes) : key := Cid_of ([kind] ++ owner ++ name).
End keys.

(** ** Operations *)

Definition filter_map {A B} (f : A -> option B) (l : list A) : list B := omap f l.

(** [max_by_key]: the last of the largest. *)
Definition max_by_key {A} (f : A -> Z) (l : list A) : option A :=
  foldl (fun best x => match best with Some b => if f b <=? f x then Some x else best | None => Some x end) None l.

Section routing.
Context {Ed : Ed25519} {B3 : Blake3} {AD : DhtAddr} {PM : Postcard DhtMessage} {PW : Postcard (list WireContact)}.
Context {PP : Postcard ProviderPayload} {PT : Postcard WantPayload} {PE : Postcard MetaPayload} {PA : Postcard AppPayload}.

Record ProviderRecord := mk_provider_record { pr_node_id : key; pr_addr : DAddr; pr_piece_count : Z; pr_pinned : bool }.

Record DhtRouting := mk_routing { rt_dht : DhtNode; rt_self_addr : bytes; rt_seq : Z }.

Definition routing_new (n : DhtNode) (now : Z) : DhtRouting := mk_routing n (addr_text (addr (me n))) now.

Definition with_dht (r : DhtRouting) (n : DhtNode) : DhtRouting := mk_routing n (rt_self_addr r) (rt_seq r).

(** The counter's loop without contention. *)
Definition next_seq (r : DhtRouting) (now : Z) : option (Z * DhtRouting) :=
  s ← next_value (rt_seq r) now; Some (s, mk_routing (rt_dht r) (rt_self_addr r) s).

Definition routing_me (r : DhtRouting) : key := id (me (rt_dht r)).

(** What every operation runs with: fuel and network of the DHT's lookups,
    the clock of their loops, the time the DHT reads and the time the counter
    reads. *)
Record Env := mk_env { e_fuel : nat; e_net : Network; e_clock : nat -> Z; e_now : Z; e_seq_now : Z }.

Definition routing_put (e : Env) (r : DhtRouting) (k : key) (value : bytes) (seq : Z) : option DhtRouting :=
  n ← dht_put (e_fuel e) (e_net e) (e_clock e) (rt_dht r) k seq value (e_now e); Some (with_dht r n).

(** [self.put(key, value, self.next_seq())]. *)
Definition put_fresh (e : Env) (r : DhtRouting) (k : key) (value : bytes) : option DhtRouting :=
  '(s, r) ← next_seq r (e_seq_now e); routing_put e r k value s.

Definition routing_get (e : Env) (r : DhtRouting) (k : key) : option (list StoredRecord * DhtRouting) :=
  '(rs, n) ← dht_get (e_fuel e) (e_net e) (e_clock e) (rt_dht r) k (e_now e); Some (rs, with_dht r n).

Definition announce (e : Env) (r : DhtRouting) (cid : key) (piece_count : Z) (pinned : bool) : option DhtRouting :=
  put_fresh e r (cid_key KIND_PROVIDER cid) (to_allocvec (mk_provider_payload cid piece_count (rt_self_addr r) pinned)).

Definition provider_of (rec : StoredRecord) : option ProviderRecord :=
  p ← from_bytes (rvalue rec);
  a ← addr_of_text (pp_addr p);
  Some (mk_provider_record (publisher rec) a (pp_piece_count p) (pp_pinned p)).

Definition resolve (e : Env) (r : DhtRouting) (cid : key) : option (list ProviderRecord * DhtRouting) :=
  '(rs, r) ← routing_get e r (cid_key KIND_PROVIDER cid); Some (filter_map provider_of rs, r).

Definition withdraw (e : Env) (r : DhtRouting) (cid : key) : option DhtRouting :=
  put_fresh e r (cid_key KIND_PROVIDER cid) [].

Definition announce_want (e : Env) (r : DhtRouting) (cid : key) : option DhtRouting :=
  put_fresh e r (cid_key KIND_WANT cid) (to_allocvec (mk_want_payload cid)).

Definition withdraw_want (e : Env) (r : DhtRouting) (cid : key) : option DhtRouting :=
  put_fresh e r (cid_key KIND_WANT cid) [].

Definition want_of (rec : StoredRecord) : option WantPayload := from_bytes (rvalue rec).

Definition is_wanted (e : Env) (r : DhtRouting) (cid : key) : option (bool * DhtRouting) :=
  '(rs, r) ← routing_get e r (cid_key KIND_WANT cid);
  Some (existsb (fun rec => match want_of rec with Some _ => true | None => false end) rs, r).

Definition announce_meta (e : Env) (r : DhtRouting) (cid : key) (published_at : Z) (comment : option bytes) : option DhtRouting :=
  put_fresh e r (cid_key KIND_META cid) (to_allocvec (mk_meta_payload cid published_at comment)).

Definition withdraw_meta (e : Env) (r : DhtRouting) (cid : key) : option DhtRouting :=
  put_fresh e r (cid_key KIND_META cid) [].

Definition meta_of (rec : StoredRecord) : option MetaRecord :=
  p ← from_bytes (rvalue rec); Some (mk_meta_record (publisher rec) (mp_published_at p) (mp_comment p)).

Definition metas (e : Env) (r : DhtRouting) (cid : key) : option (list MetaRecord * DhtRouting) :=
  '(rs, r) ← routing_get e r (cid_key KIND_META cid); Some (filter_map meta_of rs, r).

Definition announce_app (e : Env) (r : DhtRouting) (name : bytes) (wasm_cid : key) (version : Z) : option DhtRouting :=
  routing_put e r (owned_key KIND_APP (routing_me r) name) (to_allocvec (mk_app_payload name wasm_cid version)) version.

Definition app_of (rec : StoredRecord) : option AppPayload := from_bytes (rvalue rec).

Definition resolve_app (e : Env) (r : DhtRouting) (p : key) (name : bytes) : option (option AppRecord * DhtRouting) :=
  '(rs, r) ← routing_get e r (owned_key KIND_APP p name);
  Some ((fun a => mk_app_record p (ap_name a) (ap_wasm_cid a) (ap_version a)) <$>
        max_by_key ap_version (filter_map app_of (filter (fun rec => publisher rec = p) rs)), r).

(** The trait's defaults, for a backend without app heads. *)
Definition default_announce_app (_ : bytes) (_ : key) (_ : Z) : result unit RoutingError := Err NoTracker.
Definition default_resolve_app (_ : key) (_ : bytes) : result (option AppRecord) RoutingError := Ok None.
End routing.
