(* ===== verification/RoutingRuns.v ===== *)
(** Content routing ([Routing]): the freshness counter under contention, the
    separation of keys, and what reading through the DHT returns after a write
    and in general. *)

From S2P Require Import Prelude Crypto Wire DhtTable DhtRecord DhtNode DhtLookup DhtRuns Routing.

Open Scope Z_scope.

(** ** The freshness counter *)

Definition done_value (t : Thread) : option Z := match t with T_done v => Some v | _ => None end.

Definition done_values (ts : list Thread) : list Z := omap done_value ts.

Lemma done_values_insert ts i t t' :
  ts !! i = Some t -> done_value t = None ->
  done_values (<[i := t']> ts) ≡ₚ option_list (done_value t') ++ done_values ts.
Proof.
  intros Hi Ht. unfold done_values. pose proof (lookup_lt_Some _ _ _ Hi) as Hlt.
  rewrite insert_take_drop by done. rewrite <- (take_drop_middle ts i t Hi) at 3.
  rewrite !omap_app. cbn [omap list_omap]. rewrite Ht. destruct (done_value t') as [v|]; cbn; [|done].
  by rewrite <- Permutation_middle.
Qed.

Lemma done_values_index ts i j v :
  NoDup (done_values ts) -> ts !! i = Some (T_done v) -> ts !! j = Some (T_done v) -> i = j.
Proof.
  assert (Hin : forall ts j, ts !! j = Some (T_done v) -> v ∈ done_values ts).
  { intros l k Hk. unfold done_values. apply list_elem_of_omap. exists (T_done v). split; [by eapply list_elem_of_lookup_2|done]. }
  revert i j. induction ts as [|t ts IH]; intros i j Hn Hi Hj; [done|].
  unfold done_values in Hn. cbn [omap list_omap] in Hn. destruct i as [|i], j as [|j]; cbn in Hi, Hj; [done|..].
  - injection Hi as ->. cbn in Hn. apply list.NoDup_cons in Hn as [Hn _]. by destruct Hn; apply (Hin ts j).
  - injection Hj as ->. cbn in Hn. apply list.NoDup_cons in Hn as [Hn _]. by destruct Hn; apply (Hin ts i).
  - f_equal. apply IH; [|done..]. destruct (done_value t); [by apply list.NoDup_cons in Hn as [_ ?]|done].
Qed.

(** The returned values grow, the counter is the latest, and each is held by
    one finished call. *)
Record seq_inv (s0 : Z) (sh : Shared) : Prop := {
  si_sorted : StronglySorted Z.gt (sh_returned sh);
  si_above : Forall (fun v => s0 < v) (sh_returned sh);
  si_counter : sh_seq sh = default s0 (head (sh_returned sh));
  si_done : done_values (sh_threads sh) ≡ₚ sh_returned sh
}.

Lemma next_value_above cur now next : next_value cur now = Some next -> cur < next /\ now <= next.
Proof. unfold next_value. intros (n & [-> _]%checked_add_Some & [= <-])%bind_Some. lia. Qed.

Lemma seq_step_inv s0 sh sh' : seq_step sh sh' -> seq_inv s0 sh -> seq_inv s0 sh'.
Proof.
  intros Hs [H1 H2 H3 H4]. destruct Hs as [s ts ret i now Hi|s ts ret i now next Hi Hn|s ts ret i now cur next Hi Hn|s ts ret i now cur Hi Hn];
    cbn in *; try (constructor; cbn; [done..|]; by rewrite (done_values_insert _ _ _ _ Hi)).
  apply next_value_above in Hn as [Hlt _]. constructor; cbn; [..|done|by rewrite (done_values_insert _ _ _ _ Hi), H4].
  - constructor; [done|]. destruct ret as [|v ret]; [constructor|]. cbn in H3. subst s.
    apply StronglySorted_inv in H1 as [_ Hall]. constructor; [lia|]. eapply list.Forall_impl; [exact Hall|]. cbn. lia.
  - constructor; [|done]. destruct ret as [|v ret]; cbn in H3; subst s; [lia|]. apply Forall_cons_iff in H2 as [? _]. lia.
Qed.

Lemma seq_run_inv s0 sh sh' : rtc seq_step sh sh' -> seq_inv s0 sh -> seq_inv s0 sh'.
Proof. induction 1; eauto using seq_step_inv. Qed.

Lemma fresh_calls_inv s0 n : seq_inv s0 (mk_shared s0 (replicate n T_start) []).
Proof.
  constructor; cbn; [constructor..|done|]. unfold done_values. by induction n.
Qed.

Lemma gt_sorted_NoDup (l : list Z) : StronglySorted Z.gt l -> NoDup l.
Proof.
  induction 1 as [|v l Hs IH Hall]; constructor; [|done]. intros Hin. rewrite list.Forall_forall in Hall.
  specialize (Hall v Hin). lia.
Qed.

(** Freshness numbers never repeat: however the compare-and-swap loops of
    any number of concurrent calls interleave, spurious failures included, the
    numbers returned grow strictly in the order they are returned, all exceed
    the counter's first value, and no two calls get the same. *)
Theorem next_seq_strictly_advances (s0 : Z) (n : nat) (sh : Shared) :
  rtc seq_step (mk_shared s0 (replicate n T_start) []) sh ->
  StronglySorted Z.gt (sh_returned sh) /\ Forall (fun v => s0 < v) (sh_returned sh) /\
  (forall i v, sh_threads sh !! i = Some (T_done v) -> v ∈ sh_returned sh) /\
  (forall i j v, sh_threads sh !! i = Some (T_done v) -> sh_threads sh !! j = Some (T_done v) -> i = j).
Proof.
  intros Hr. destruct (seq_run_inv s0 _ _ Hr (fresh_calls_inv s0 n)) as [H1 H2 _ H4].
  split; [done|]. split; [done|]. split.
  - intros i v Hi. rewrite <- H4. unfold done_values. apply list_elem_of_omap. exists (T_done v).
    split; [by eapply list_elem_of_lookup_2|done].
  - intros i j v. apply done_values_index. rewrite H4. by apply gt_sorted_NoDup.
Qed.

(** ** Envelopes *)

Section envelopes.
Context {Ed : Ed25519} {EL : Ed25519Laws}.

Lemma signed_payload_checks {P} `{PostcardLaws P} (identity : NodeIdentity) (kind k : Z) (p : P) (ts : Z) :
  let r := sign_payload identity kind p ts in
  verify_envelope r = true /\ payload_of k r = if kind =? k then Some p else None.
Proof.
  cbn. split; [apply verify_slice_sign|]. unfold payload_of. cbn. destruct (kind =? k); [apply postcard_roundtrip|done].
Qed.
End envelopes.

(** ** Keys *)

Section key_laws.
Context {B3 : Blake3} (Hb : forall x y, blake3 x = blake3 y -> x = y).

(** Record kinds live under separate keys: unless BLAKE3 collides, a
    provider, want or meta key determines its kind and content id, an app key
    determines its owner and name, and no app key is one of the others. *)
Theorem routing_keys_are_separate (k1 k2 : Z) (c1 c2 o1 o2 : key) (n1 n2 : bytes) :
  length o1 = 32%nat -> length o2 = 32%nat ->
  (cid_key k1 c1 = cid_key k2 c2 -> k1 = k2 /\ c1 = c2) /\
  (owned_key k1 o1 n1 = owned_key k2 o2 n2 -> k1 = k2 /\ o1 = o2 /\ n1 = n2) /\
  (k1 <> k2 -> cid_key k1 c1 <> owned_key k2 o2 n2).
Proof.
  intros L1 L2. unfold cid_key, owned_key, Cid_of. split; [|split].
  - by intros [= ? ?]%Hb.
  - intros [= ? E]%Hb. apply app_inj_1 in E; [tauto|congruence].
  - by intros Hk [= ? _]%Hb.
Qed.
End key_laws.

(** ** The record store during a lookup *)

Section store.
Context {Ed : Ed25519} {AD : DhtAddr} {PM : Postcard DhtMessage} {PW : Postcard (list WireContact)}.

(** Neither the records nor the identity changed. *)
Definition same_store (n n' : DhtNode) : Prop := records n' = records n /\ identity n' = identity n /\ me n' = me n.

#[local] Instance same_store_preorder : PreOrder same_store.
Proof. split; [by intros n|]. intros a b c (? & ? & ?) (? & ? & ?). repeat split; congruence. Qed.

Lemma request_store net n c m now : same_store n (request net n c m now).2.
Proof. unfold request, note_alive, note_dead. repeat case_match; done. Qed.

Lemma learn_fresh_store cs n now : same_store n (learn_fresh n cs now).2.
Proof.
  revert n. induction cs as [|c cs IH]; intros n; cbn [learn_fresh]; [done|]. case_bool_decide; [apply IH|].
  unfold tombstoned. destruct (tombstones n !! id c) as [e|]; [destruct (now <? e)|];
    match goal with |- context [learn_fresh ?m cs now] => pose proof (IH m) as Hs; destruct (learn_fresh m cs now) as [rest n'] end;
    cbn in *; (etrans; [|exact Hs]); done.
Qed.

Lemma learn_store n cs now : same_store n (learn n cs now).
Proof. unfold learn. pose proof (learn_fresh_store cs n now) as Hs. by destruct (learn_fresh n cs now). Qed.

Lemma find_nodes_store net batch n target now : same_store n (find_nodes net n batch target now).2.
Proof.
  revert n. induction batch as [|c batch IH]; intros n; cbn [find_nodes]; [done|]. unfold find_node.
  pose proof (request_store net n c (FindNode (self_wire n) target) now) as Hr. destruct (request net n c _ now) as [reply n1].
  pose proof (IH n1) as Hs. destruct (find_nodes net n1 batch target now). cbn in *. by etrans.
Qed.

Lemma lookup_loop_store net clock target fuel i known queried n sl n' :
  lookup_loop fuel net clock i target known queried n = Some (sl, n') -> same_store n n'.
Proof.
  revert i known queried n. induction fuel as [|fuel IH]; intros i known queried n; cbn [lookup_loop]; [done|].
  destruct (next_batch (shortlist known target) queried) as [|b bs] eqn:Eb; [by intros [= _ <-]|].
  pose proof (find_nodes_store net (b :: bs) n target (clock i)) as Hf.
  destruct (find_nodes net n (b :: bs) target (clock i)) as [found n1]. cbn in Hf. intros H%IH.
  etrans; [exact Hf|]. etrans; [apply learn_store|exact H].
Qed.

Lemma send_all_store net cs n msg now : same_store n (send_all net n cs msg now).
Proof. revert n. induction cs as [|c cs IH]; intros n; cbn; [done|]. etrans; [apply request_store|apply IH]. Qed.

(** After [dht_put] the store is the local put, and nothing else. *)
Lemma dht_put_store fuel net clock n k s v now n' :
  dht_put fuel net clock n k s v now = Some n' ->
  records n' = (put (records n) (sign_record (identity n) k s v) now).2 /\ identity n' = identity n /\ me n' = me n.
Proof.
  unfold dht_put. intros ([targets n1] & Hl & [= <-])%bind_Some. apply lookup_loop_store in Hl as (E1 & E2 & E3).
  destruct (send_all_store net targets n1 (Store (sign_record (identity n) k s v)) now) as (F1 & F2 & F3).
  cbn in *. split; [congruence|]. split; congruence.
Qed.

Context {EL : Ed25519Laws}.

(** A record of a fresh sequence number is held until it expires, alone in its
    slot. *)
Lemma put_holds (st : RecordStore) (idn : NodeIdentity) k s v now now' :
  rstore_ok (inner st) ->
  (forall e t, slot (inner st) k (node_id idn) = Some (e, t) -> rseq e < s) -> now' < sat_add now (ttl_millis st) ->
  let rec := sign_record idn k s v in
  rec ∈ get (put st rec now).2 k now' /\
  forall r, r ∈ get (put st rec now).2 k now' -> publisher r = node_id idn -> r = rec.
Proof.
  intros Hok Hfr Hexp rec. unfold put. unfold rec at 1 4, verify_record, sign_record. cbn. rewrite verify_slice_sign. fold rec.
  destruct (upsert (inner st) rec (sat_add now (ttl_millis st))) as [ok m] eqn:E. cbn.
  destruct (upsert_spec _ _ _ _ _ E) as [(_ & (e & t & Es & Hle) & _)|(_ & _ & Hsl)].
  { cbn in Es. specialize (Hfr _ _ Es). cbn in Hle. lia. }
  assert (Hk : slot m k (node_id idn) = Some (rec, sat_add now (ttl_millis st))).
  { rewrite Hsl, decide_True; done. }
  split.
  - apply elem_of_get. eexists _, _. split; [exact Hk|done].
  - intros r (p & t & Hs & _)%elem_of_get Hp. cbn in Hs. destruct (decide (p = node_id idn)) as [->|Hne]; [rewrite Hk in Hs; by injection Hs|].
    rewrite Hsl, decide_False in Hs by (unfold slot_of, rec; cbn; congruence). apply Hok in Hs as [Ho _]. unfold slot_of in Ho. congruence.
Qed.
End store.

(** ** Reading through the DHT *)

Section reading.
Context {Ed : Ed25519} {B3 : Blake3} {AD : DhtAddr} {PM : Postcard DhtMessage} {PW : Postcard (list WireContact)}.
Context {PP : Postcard ProviderPayload} {PA : Postcard AppPayload}.

(** Peers name contacts out of a finite set of ids, and the fuel covers it. *)
Definition bounded_net (e : Env) (n : DhtNode) (k : key) : Prop :=
  exists U : gset key, (forall c c', c' ∈ told_value (e_net e) (self_wire n) k c -> id c' ∈ U) /\
    (forall c, c ∈ closest_local n k -> id c ∈ U) /\ (size U < e_fuel e)%nat.

(** The records a read may use: the node's own live ones and those a peer
    gave. *)
Definition offers (e : Env) (n : DhtNode) (k : key) (asked : list (DhtTable.Contact DAddr)) (r : StoredRecord) : Prop :=
  r ∈ get (records n) k (e_now e) \/ exists c, c ∈ asked /\ r ∈ given (e_net e) (self_wire n) k c.

(** One record per publisher, each the freshest offered. *)
Definition freshest_of (P : StoredRecord -> Prop) (rs : list StoredRecord) : Prop :=
  NoDup (map publisher rs) /\
  (forall r, r ∈ rs -> P r /\ forall o, P o -> publisher o = publisher r -> rseq o <= rseq r) /\
  (forall o, P o -> exists r, r ∈ rs /\ publisher r = publisher o).

Lemma NoDup_publisher (rs : list StoredRecord) r r' :
  NoDup (map publisher rs) -> r ∈ rs -> r' ∈ rs -> publisher r = publisher r' -> r = r'.
Proof.
  intros Hn Hr Hr' E. apply list_elem_of_lookup in Hr as [i Hi]. apply list_elem_of_lookup in Hr' as [j Hj].
  assert (i = j) as <-; [|congruence]. eapply NoDup_lookup; [exact Hn|..]; rewrite list_lookup_fmap; [by rewrite Hi|by rewrite Hj, E].
Qed.

Lemma routing_get_reads (e : Env) (r : DhtRouting) (k : key) :
  bounded_net e (rt_dht r) k ->
  exists rs r' asked, routing_get e r k = Some (rs, r') /\ rt_seq r' = rt_seq r /\ rt_self_addr r' = rt_self_addr r /\
    freshest_of (offers e (rt_dht r) k asked) rs.
Proof.
  intros (U & H1 & H2 & H3).
  destruct (get_returns_freshest (e_net e) (e_clock e) (rt_dht r) k (e_now e) U (e_fuel e) H1 H2 H3) as (rs & n' & sl & asked & E & _ & _ & _ & Hn & Hin & Hmax).
  exists rs, (with_dht r n'), asked. unfold routing_get. rewrite E. split; [done|]. split; [done|]. split; [done|].
  split; [done|]. split.
  - intros x Hx. split; [by apply Hin|]. intros o Ho Ep. destruct (Hmax o Ho) as (x' & Hx' & Ep' & Hle).
    by rewrite (NoDup_publisher rs x x') by congruence.
  - intros o Ho. destruct (Hmax o Ho) as (x' & Hx' & Ep' & _). by exists x'.
Qed.

(** Resolving a content id ends, and lists each provider by its freshest
    word: the result has at most one entry per node; an entry is decoded from
    a record for this very key, held by the reader or given by a peer it
    asked, under its node's own signature when a peer gave it, and no record
    of that node so offered is newer; and a node whose freshest records are
    tombstones or unreadable is not listed. *)
Theorem resolve_lists_freshest (e : Env) (r : DhtRouting) (cid : key) :
  bounded_net e (rt_dht r) (cid_key KIND_PROVIDER cid) ->
  exists ps r' asked, resolve e r cid = Some (ps, r') /\ NoDup (map pr_node_id ps) /\
    let P := offers e (rt_dht r) (cid_key KIND_PROVIDER cid) asked in
    (forall p, p ∈ ps -> exists rec, P rec /\ provider_of rec = Some p /\ publisher rec = pr_node_id p /\
       forall o, P o -> publisher o = pr_node_id p -> rseq o <= rseq rec) /\
    (forall id, (forall rec, P rec -> publisher rec = id -> (forall o, P o -> publisher o = id -> rseq o <= rseq rec) -> provider_of rec = None) ->
       id ∉ map pr_node_id ps) /\
    (forall rec c, c ∈ asked -> rec ∈ given (e_net e) (self_wire (rt_dht r)) (cid_key KIND_PROVIDER cid) c ->
       rkey rec = cid_key KIND_PROVIDER cid /\ verify_record rec = true).
Proof.
  intros Hb. destruct (routing_get_reads e r _ Hb) as (rs & r' & asked & E & _ & _ & Hn & Hin & _).
  assert (Hpub : forall rec p, provider_of rec = Some p -> pr_node_id p = publisher rec).
  { intros rec p. unfold provider_of. by intros (x & _ & (a & _ & [= <-])%bind_Some)%bind_Some. }
  assert (Hmem : forall p, p ∈ filter_map provider_of rs -> exists rec, rec ∈ rs /\ provider_of rec = Some p) by (intros p; by apply list_elem_of_omap).
  exists (filter_map provider_of rs), r', asked. unfold resolve. rewrite E. split; [done|]. split; [|split; [|split]].
  - apply (sublist_NoDup _ (map publisher rs)); [done|]. clear -Hpub. induction rs as [|x rs IH]; [constructor|].
    unfold filter_map. cbn [omap list_omap map]. destruct (provider_of x) as [p|] eqn:Ep; [|by constructor].
    cbn. rewrite (Hpub _ _ Ep). by constructor.
  - intros p (rec & Hrec & Ep)%Hmem. destruct (Hin rec Hrec) as [HP Hmax]. exists rec. rewrite (Hpub _ _ Ep). done.
  - intros i Hi (p & -> & (rec & Hrec & Ep)%Hmem)%list_elem_of_fmap. destruct (Hin rec Hrec) as [HP Hmax].
    rewrite (Hi rec HP) in Ep; [done|by rewrite (Hpub _ _ Ep)|]. intros o Ho Eo. apply Hmax; [done|]. by rewrite Eo, (Hpub _ _ Ep).
  - intros rec c _. unfold given. destruct (answer _ _ _) as [[| | | | | | |recs closer]|]; try (intros Hx; by apply elem_of_nil in Hx).
    intros [Hu _]%list_elem_of_filter. unfold usable in Hu. apply andb_true_iff in Hu as [Hu ?]. by apply bool_decide_eq_true in Hu.
Qed.

(** The reader's peers have nothing newer from this publisher, and nothing
    else under the same number. *)
Definition no_newer (e : Env) (n : DhtNode) (k : key) (rec : StoredRecord) : Prop :=
  forall c o, o ∈ given (e_net e) (self_wire n) k c -> publisher o = publisher rec -> rseq o < rseq rec \/ o = rec.

(** A node's record store as its operations leave it, under its own identity. *)
Record publishable (r : DhtRouting) : Prop := {
  pb_store : rstore_ok (inner (records (rt_dht r)));
  pb_id : id (me (rt_dht r)) = node_id (identity (rt_dht r))
}.

(** What the node itself stores of its own under [k] is numbered below [s]. *)
Definition own_record_older (r : DhtRouting) (k : key) (s : Z) : Prop :=
  forall x t, slot (inner (records (rt_dht r))) k (routing_me r) = Some (x, t) -> rseq x < s.

Context {EL : Ed25519Laws}.

(** Writing a fresh value and reading the key back. *)
Lemma put_fresh_reads_back (e e' : Env) (r r1 : DhtRouting) (k : key) (v : bytes) :
  publishable r -> put_fresh e r k v = Some r1 -> own_record_older r k (rt_seq r1) ->
  e_now e' < sat_add (e_now e) (ttl_millis (records (rt_dht r))) -> bounded_net e' (rt_dht r1) k ->
  no_newer e' (rt_dht r1) k (sign_record (identity (rt_dht r)) k (rt_seq r1) v) ->
  rt_seq r < rt_seq r1 /\ e_seq_now e <= rt_seq r1 /\
  exists rs r2, routing_get e' r1 k = Some (rs, r2) /\
    forall rec, rec ∈ rs /\ publisher rec = routing_me r <-> rec = sign_record (identity (rt_dht r)) k (rt_seq r1) v.
Proof.
  intros [Hok Hid] Hw Hold Hexp Hb Hnn. unfold put_fresh in Hw. apply bind_Some in Hw as ([s ra] & Hn & Hput).
  unfold next_seq in Hn. apply bind_Some in Hn as (s' & Hnv & [= <- <-]). apply next_value_above in Hnv as [Hlt Hnow].
  unfold routing_put in Hput. apply bind_Some in Hput as (n1 & Hdht & [= <-]). cbn in *.
  apply dht_put_store in Hdht as (Es & _ & Eme). set (rec0 := sign_record (identity (rt_dht r)) k s' v) in *.
  split; [done|]. split; [done|]. unfold routing_me in *.
  destruct (put_holds (records (rt_dht r)) (identity (rt_dht r)) k s' v (e_now e) (e_now e') Hok) as [Hin Honly]; [|done|].
  { intros x t Hx. rewrite <- Hid in Hx. exact (Hold _ _ Hx). }
  fold rec0 in Hin, Honly. rewrite <- Es in Hin, Honly.
  destruct (routing_get_reads e' (with_dht (mk_routing (rt_dht r) (rt_self_addr r) s') n1) k Hb) as (rs & r2 & asked & E & _ & _ & Hnd & Hfr & Hall).
  cbn in Hfr, Hall. exists rs, r2. split; [exact E|].
  assert (Hp0 : publisher rec0 = node_id (identity (rt_dht r))) by done.
  destruct (Hall rec0 (or_introl Hin)) as (x & Hx & Ex).
  assert (x = rec0) as ->.
  { destruct (Hfr x Hx) as [[Hl|(c & _ & Hg)] Hmax]; [apply Honly; congruence|].
    destruct (Hnn c x Hg Ex) as [Hl|]; [|done]. specialize (Hmax rec0 (or_introl Hin) ltac:(done)). cbn in Hl, Hmax. lia. }
  intros rec. split.
  - intros [Hr Ep]. apply (NoDup_publisher rs); [done..|]. congruence.
  - intros ->. split; [done|]. by rewrite Hid.
Qed.

Context {AL : DhtAddrLaws} {PL : PostcardLaws ProviderPayload}.

(** C17: A node's announcement and its withdrawal are what it reads next: a
    fresh announcement of a content id stands in the resolved list, with its
    address, count and pin, as the only entry of this node; after a withdrawal
    the node is not in the list.  Each uses a number above every one drawn since
    the node started, and not behind its clock.  This holds until the record
    expires, when neither the node's own store nor a peer holds a record of
    this node under the key with a number as high.  (A node restarted with its
    clock set back draws numbers below those of the records it still stores,
    and then its write is dropped: [withdrawal_behind_the_clock_is_dropped].) *)
Theorem announce_and_withdraw_read_back (e e' : Env) (r r1 : DhtRouting) (cid : key) (count : Z) (pinned : bool) (a : DAddr) (withdrawn : bool) :
  let k := cid_key KIND_PROVIDER cid in
  let v := if withdrawn then [] else to_allocvec (mk_provider_payload cid count (rt_self_addr r) pinned) in
  rt_self_addr r = addr_text a -> from_bytes (A := ProviderPayload) [] = None -> publishable r ->
  (if withdrawn then withdraw e r cid else announce e r cid count pinned) = Some r1 -> own_record_older r k (rt_seq r1) ->
  e_now e' < sat_add (e_now e) (ttl_millis (records (rt_dht r))) -> bounded_net e' (rt_dht r1) k ->
  no_newer e' (rt_dht r1) k (sign_record (identity (rt_dht r)) k (rt_seq r1) v) ->
  rt_seq r < rt_seq r1 /\ e_seq_now e <= rt_seq r1 /\
  exists ps r2, resolve e' r1 cid = Some (ps, r2) /\
    forall p, p ∈ ps /\ pr_node_id p = routing_me r <->
      withdrawn = false /\ p = mk_provider_record (routing_me r) a count pinned.
Proof.
  intros k v Ha Hnil Hpb Hw Hold Hexp Hb Hnn.
  assert (Hput : put_fresh e r k v = Some r1) by (destruct withdrawn; exact Hw).
  destruct (put_fresh_reads_back e e' r r1 k v Hpb Hput Hold Hexp Hb Hnn) as (H1 & H2 & rs & r2 & E & Hrs).
  split; [done|]. split; [done|]. exists (filter_map provider_of rs), r2. unfold resolve. fold k. rewrite E. split; [done|].
  set (rec0 := sign_record (identity (rt_dht r)) k (rt_seq r1) v) in *.
  assert (Hme : publisher rec0 = routing_me r) by (unfold routing_me; by rewrite (pb_id _ Hpb)).
  assert (H0 : provider_of rec0 = if withdrawn then None else Some (mk_provider_record (routing_me r) a count pinned)).
  { unfold provider_of. change (rvalue rec0) with v. rewrite Hme. unfold v. destruct withdrawn; [by rewrite Hnil|].
    rewrite postcard_roundtrip. cbn. by rewrite Ha, addr_text_parses. }
  assert (Hpub : forall rec p, provider_of rec = Some p -> pr_node_id p = publisher rec).
  { intros rec p. unfold provider_of. by intros (x & _ & (b & _ & [= <-])%bind_Some)%bind_Some. }
  intros p. unfold filter_map. rewrite list_elem_of_omap. split.
  - intros [(rec & Hr & Ep) Em]. rewrite (Hpub _ _ Ep) in Em. rewrite (proj1 (Hrs rec) (conj Hr Em)), H0 in Ep.
    destruct withdrawn; [done|]. by injection Ep as <-.
  - intros [-> ->]. split; [|done]. exists rec0. split; [by apply Hrs|done].
Qed.

(** An app head is its owner's: resolving a name under a publisher ends,
    and returns a head only from a record of that publisher, the freshest it
    offered under the key of that publisher and name; nobody else's records
    count, whatever peers return. *)
Theorem resolve_app_is_the_owners (e : Env) (r : DhtRouting) (p : key) (name : bytes) :
  bounded_net e (rt_dht r) (owned_key KIND_APP p name) ->
  exists h r' asked, resolve_app e r p name = Some (h, r') /\
    let P := offers e (rt_dht r) (owned_key KIND_APP p name) asked in
    match h with
    | Some h => ar_publisher h = p /\ exists rec a, P rec /\ publisher rec = p /\ app_of rec = Some a /\
        h = mk_app_record p (ap_name a) (ap_wasm_cid a) (ap_version a) /\ forall o, P o -> publisher o = p -> rseq o <= rseq rec
    | None => forall rec, P rec -> publisher rec = p -> (forall o, P o -> publisher o = p -> rseq o <= rseq rec) ->
        exists o, P o /\ publisher o = p /\ rseq o = rseq rec /\ app_of o = None
    end.
Proof.
  intros Hb. destruct (routing_get_reads e r _ Hb) as (rs & r' & asked & E & _ & _ & Hn & Hin & Hall).
  unfold resolve_app. rewrite E. eexists _, r', asked. split; [reflexivity|].
  set (own := filter (fun rec => publisher rec = p) rs).
  assert (Hown : forall x, x ∈ own <-> publisher x = p /\ x ∈ rs) by (intros x; unfold own; by rewrite list_elem_of_filter).
  assert (Hone : forall x y, x ∈ own -> y ∈ own -> x = y).
  { intros x y [Ex Hx]%Hown [Ey Hy]%Hown. apply (NoDup_publisher rs); [done..|congruence]. }
  assert (Hndo : NoDup own) by (unfold own; apply list.NoDup_filter; by eapply NoDup_fmap_1).
  destruct own as [|x [|y l]] eqn:Eo.
  - cbn. intros rec HP Ep Hmax. destruct (Hall rec HP) as (z & Hz & Ez).
    assert (Hz' : z ∈ ([] : list StoredRecord)) by (apply Hown; split; [congruence|done]). by apply elem_of_nil in Hz'.
  - assert (Hx : publisher x = p /\ x ∈ rs) by (apply Hown; by left). destruct Hx as [Ex Hx]. destruct (Hin x Hx) as [HP Hmax].
    unfold filter_map. cbn [omap list_omap]. destruct (app_of x) as [a|] eqn:Ea; cbn.
    + split; [done|]. exists x, a. split; [done|]. split; [done|]. split; [done|]. split; [done|].
      intros o Ho Eq. apply Hmax; congruence.
    + intros rec HPr Ep Hmr. exists x. split; [done|]. split; [done|]. split; [|done].
      assert (rseq rec <= rseq x) by (apply Hmax; [done|congruence]). assert (rseq x <= rseq rec) by (apply Hmr; [done|congruence]). lia.
  - exfalso. assert (x = y) by (apply Hone; [by left|by right; left]). subst y.
    apply list.NoDup_cons in Hndo as [Hni _]. apply Hni. by left.
Qed.
End reading.

(** ** Evaluations *)

#[local] Existing Instances toy_ed25519 toy_addr toy_blake3 one_name one_list.

#[local] Instance ProviderPayload_eq_dec : EqDecision ProviderPayload.
Proof. solve_decision. Defined.
#[local] Instance ProviderPayload_countable : Countable ProviderPayload :=
  inj_countable' (fun p => (pp_cid p, pp_piece_count p, pp_addr p, pp_pinned p)) (fun x => let '(a, b, c, d) := x in mk_provider_payload a b c d)
    (fun p => match p with mk_provider_payload _ _ _ _ => eq_refl end).
#[local] Instance AppPayload_eq_dec : EqDecision AppPayload.
Proof. solve_decision. Defined.
#[local] Instance AppPayload_countable : Countable AppPayload :=
  inj_countable' (fun p => (ap_name p, ap_wasm_cid p, ap_version p)) (fun x => let '(a, b, c) := x in mk_app_payload a b c)
    (fun p => match p with mk_app_payload _ _ _ => eq_refl end).

#[local] Instance provider_codec : Postcard ProviderPayload := countable_codec.
#[local] Instance app_codec : Postcard AppPayload := countable_codec.
#[local] Instance toy_addr_laws : DhtAddrLaws.
Proof. by split. Qed.

(** A node alone, and the times it reads. *)
Definition alone (now : Z) : Env := mk_env 1 (fun _ _ _ => None) (fun _ => now) now now.
Definition ex_routing : DhtRouting := routing_new new_node 100.

Lemma alone_bounded now n k : closest_local n k = [] -> bounded_net (alone now) n k.
Proof.
  intros Hc. exists ∅. split; [|split; [|cbn; rewrite size_empty; lia]].
  - intros c c' Hx. unfold told_value, answer, attempt in Hx. cbn in Hx. by apply elem_of_nil in Hx.
  - intros c. rewrite Hc. intros Hx. by apply elem_of_nil in Hx.
Qed.

Lemma alone_no_newer now n k rec : no_newer (alone now) n k rec.
Proof. intros c o Ho. unfold given, answer, attempt in Ho. cbn in Ho. by apply elem_of_nil in Ho. Qed.

Lemma ex_bounded now k : bounded_net (alone now) (rt_dht ex_routing) k.
Proof. apply alone_bounded. reflexivity. Qed.

Lemma ex_slots k p : slot (inner (records (rt_dht ex_routing))) k p = None.
Proof. unfold slot. change (inner (records (rt_dht ex_routing))) with (∅ : gmap key PerKey). by rewrite lookup_empty. Qed.

Lemma ex_publishable : publishable ex_routing.
Proof. constructor; [intros k' p r t; by rewrite ex_slots|done]. Qed.

Lemma ex_older k s : own_record_older ex_routing k s.
Proof. intros x t. by rewrite ex_slots. Qed.

Lemma next_seq_strictly_advances_witness :
  let sh := mk_shared 6 [T_done 5; T_done 6] [6; 5] in
  StronglySorted Z.gt (sh_returned sh) /\ Forall (fun v => 4 < v) (sh_returned sh).
Proof.
  intros sh. assert (Hr : rtc seq_step (mk_shared 4 (replicate 2 T_start) []) sh).
  { eapply rtc_l; [exact (ss_load 4 [T_start; T_start] [] 0 3 eq_refl)|].
    eapply rtc_l; [exact (ss_load 4 [T_loop 3 4; T_start] [] 1 3 eq_refl)|].
    eapply rtc_l; [exact (ss_cas 4 [T_loop 3 4; T_loop 3 4] [] 0 3 5 eq_refl eq_refl)|].
    eapply rtc_l; [exact (ss_retry 5 [T_done 5; T_loop 3 4] [5] 1 3 4 5 eq_refl eq_refl)|].
    apply rtc_once. exact (ss_cas 5 [T_done 5; T_loop 3 5] [5] 1 3 6 eq_refl eq_refl). }
  destruct (next_seq_strictly_advances 4 2 sh Hr) as (H1 & H2 & _). exact (conj H1 H2).
Defined.

Lemma routing_keys_are_separate_witness :
  @cid_key {| blake3 := fun b => b |} KIND_WANT (key_of 1) <> @owned_key {| blake3 := fun b => b |} KIND_APP (key_of 2) [65].
Proof.
  exact (proj2 (proj2 (@routing_keys_are_separate {| blake3 := fun b => b |} (fun x y E => E) KIND_WANT KIND_APP (key_of 1) (key_of 1) (key_of 2) (key_of 2)
    [65] [65] eq_refl eq_refl)) ltac:(discriminate)).
Defined.

Lemma resolve_lists_freshest_witness :
  exists ps r', resolve (alone 200) ex_routing (key_of 3) = Some (ps, r') /\ NoDup (map pr_node_id ps).
Proof.
  destruct (resolve_lists_freshest (alone 200) ex_routing (key_of 3) (ex_bounded _ _)) as (ps & r' & asked & E & Hn & _).
  exact (ex_intro _ ps (ex_intro _ r' (conj E Hn))).
Defined.

Lemma resolve_app_is_the_owners_witness :
  exists h r', resolve_app (alone 200) ex_routing (key_of 9) [65] = Some (h, r').
Proof.
  destruct (resolve_app_is_the_owners (alone 200) ex_routing (key_of 9) [65] (ex_bounded _ _)) as (h & r' & asked & E & _).
  exact (ex_intro _ h (ex_intro _ r' E)).
Defined.

Definition announced : option DhtRouting := announce (alone 200) ex_routing (key_of 3) 5 true.

Lemma announced_known : exists r1, announced = Some r1 /\ closest_local (rt_dht r1) (cid_key KIND_PROVIDER (key_of 3)) = [].
Proof.
  assert (Hc : match announced with Some r1 => bool_decide (length (closest_local (rt_dht r1) (cid_key KIND_PROVIDER (key_of 3))) = 0%nat) | None => false end = true)
    by (vm_compute; reflexivity).
  destruct announced as [r1|]; [|discriminate Hc]. exists r1. split; [done|]. by apply bool_decide_eq_true, nil_length_inv in Hc.
Qed.

Lemma announce_and_withdraw_read_back_witness :
  exists r1 ps r2, announced = Some r1 /\ resolve (alone 300) r1 (key_of 3) = Some (ps, r2) /\
    mk_provider_record (key_of 9) [9] 5 true ∈ ps.
Proof.
  destruct announced_known as (r1 & E & Hc).
  destruct (announce_and_withdraw_read_back (PL := countable_codec_laws) (EL := toy_ed25519_laws) (alone 200) (alone 300) ex_routing r1 (key_of 3) 5 true [9] false
    eq_refl eq_refl ex_publishable E (ex_older _ _) ltac:(vm_compute; reflexivity) (alone_bounded _ _ _ Hc) (alone_no_newer _ _ _ _)) as (_ & _ & ps & r2 & Er & Hp).
  exists r1, ps, r2. split; [exact E|]. split; [exact Er|]. exact (proj1 (proj2 (Hp _) (conj eq_refl eq_refl))).
Defined.

(** An app head announced at a version that does not advance is dropped, and
    the announcement reports success. *)
Example stale_app_announce_reports_success :
  match announce_app (alone 200) ex_routing [65] (key_of 1) 2 ≫= fun r => announce_app (alone 201) r [65] (key_of 7) 2 with
  | Some r => fst <$> resolve_app (alone 202) r (key_of 9) [65] = Some (Some (mk_app_record (key_of 9) [65] (key_of 1) 2))
  | None => False
  end.
Proof. vm_compute. reflexivity. Qed.

(** After a restart behind the clock a withdrawal is dropped, and reports
    success: the node's record of time 1000 outlives a tombstone stamped 51. *)
Example withdrawal_behind_the_clock_is_dropped :
  match announce (alone 1000) (routing_new new_node 999) (key_of 3) 5 true ≫= fun r => withdraw (alone 50) (routing_new (rt_dht r) 50) (key_of 3) with
  | Some r => map pr_node_id <$> (fst <$> resolve (alone 60) r (key_of 3)) = Some [key_of 9]
  | None => False
  end.
Proof. vm_compute. reflexivity. Qed.
