(* ===== verification/Pager.v ===== *)
(** CraftSQL's page store: content-addressed objects
    ([crates/sql/src/store.rs]), the pager with its fanout-256 index tree
    ([pager.rs]), page generations ([gen.rs]) and the file handle SQLite sees
    ([vfs.rs]).

    An [ObjectStore] is the content of its two directories; a failing disk is
    not modelled.  The cipher is a class of two operations on a data key, and
    the network fetcher a function.  Levels are [nat], page numbers and node
    keys [Z] (u32). *)

From S2P Require Import Prelude Crypto.

Open Scope Z_scope.

Definition PAGE_SIZE : Z := 16384.
Definition FANOUT : Z := 256.

Inductive SqlError := RootNotFound (cid : key) | CorruptIndex | Serde.

(** zeph_cipher's data-key operations. *)
Class DekCipher := {
  Dek : Type;
  seal_deterministic : Dek -> bytes -> bytes;
  dek_open : Dek -> bytes -> option bytes
}.

Class DekCipherLaws `{DekCipher} := {
  open_seal : forall d p, dek_open d (seal_deterministic d p) = Some p
}.

(** ** Object store *)

Record ObjectStore := mk_store { root_dir : gmap key bytes; fallback : gmap key bytes }.

Section store.
Context `{Blake3}.

Definition store_put (s : ObjectStore) (data : bytes) : key * ObjectStore :=
  let cid := Cid_of data in
  match root_dir s !! cid with
  | Some _ => (cid, s)
  | None => (cid, mk_store (<[cid := data]> (root_dir s)) (fallback s))
  end.

Definition store_get (s : ObjectStore) (cid : key) : option bytes :=
  match root_dir s !! cid with Some b => Some b | None => fallback s !! cid end.

Definition store_has (s : ObjectStore) (cid : key) : bool :=
  bool_decide (is_Some (root_dir s !! cid)) || bool_decide (is_Some (fallback s !! cid)).

Definition store_delete (s : ObjectStore) (cid : key) : ObjectStore :=
  mk_store (delete cid (root_dir s)) (fallback s).
End store.

(** ** The index *)

Notation NodeMap := (gmap Z key).

Record RootIndex := mk_root { ri_page_count : Z; ri_depth : nat; root_cid : key; ri_wrapped_dek : bytes }.

Section pager.
Context `{Blake3} `{DekCipher} `{Postcard NodeMap} `{Postcard RootIndex}.

Definition decode_root (b : bytes) : result RootIndex SqlError :=
  match from_bytes b with Some r => Ok r | None => Err CorruptIndex end.

Definition decode_node (b : bytes) : result NodeMap SqlError :=
  match from_bytes b with Some n => Ok n | None => Err CorruptIndex end.

Definition seal_index (cipher : option Dek) (plain : bytes) : bytes :=
  match cipher with Some dek => seal_deterministic dek plain | None => plain end.

Definition open_index (cipher : option Dek) (stored : bytes) : result bytes SqlError :=
  match cipher with
  | Some dek => match dek_open dek stored with Some p => Ok p | None => Err CorruptIndex end
  | None => Ok stored
  end.

Definition decode_node_sealed (cipher : option Dek) (stored : bytes) : result NodeMap SqlError :=
  match open_index cipher stored with Ok p => decode_node p | Err e => Err e end.

(** [while cap < page_count { cap *= 256; d += 1 }]; a u32 count takes at most
    three passes. *)
Fixpoint depth_loop (fuel : nat) (d : nat) (cap page_count : Z) : nat :=
  match fuel with
  | O => d
  | S fuel' => if cap <? page_count then depth_loop fuel' (S d) (cap * FANOUT) page_count else d
  end.

Definition depth_for (page_count : Z) : nat :=
  if page_count =? 0 then O else depth_loop 4 1 FANOUT page_count.

Record Pager := mk_pager {
  store : ObjectStore;
  pages : gmap Z key;
  dirty : gmap Z bytes;
  dirty_index : gset Z;
  node_cids : gmap (nat * Z) key;
  page_count : Z;
  depth : nat;
  remote : option (key -> option bytes);
  cipher : option Dek;
  wrapped_dek : bytes
}.

Definition create (s : ObjectStore) : Pager := mk_pager s ∅ ∅ ∅ ∅ 0 0 None None [].

Definition set_remote (p : Pager) (f : key -> option bytes) : Pager :=
  mk_pager (store p) (pages p) (dirty p) (dirty_index p) (node_cids p) (page_count p) (depth p) (Some f) (cipher p) (wrapped_dek p).
Definition set_cipher (p : Pager) (d : Dek) : Pager :=
  mk_pager (store p) (pages p) (dirty p) (dirty_index p) (node_cids p) (page_count p) (depth p) (remote p) (Some d) (wrapped_dek p).
Definition set_wrapped_dek (p : Pager) (w : bytes) : Pager :=
  mk_pager (store p) (pages p) (dirty p) (dirty_index p) (node_cids p) (page_count p) (depth p) (remote p) (cipher p) w.
Definition with_store (p : Pager) (s : ObjectStore) : Pager :=
  mk_pager s (pages p) (dirty p) (dirty_index p) (node_cids p) (page_count p) (depth p) (remote p) (cipher p) (wrapped_dek p).

(** ** Opening *)

Definition child_key (nk idx : Z) : Z := as_u32 (nk * FANOUT + idx).

(** [load_subtree], over what it has gathered so far. *)
Fixpoint load_subtree (s : ObjectStore) (c : option Dek) (level : nat) (nk : Z) (ncid : key)
  (acc : gmap Z key * gmap (nat * Z) key) : result (gmap Z key * gmap (nat * Z) key) SqlError :=
  let acc := (acc.1, <[(level, nk) := ncid]> acc.2) in
  match store_get s ncid with
  | None => Err CorruptIndex
  | Some b =>
      match decode_node_sealed c b with
      | Err e => Err e
      | Ok node =>
          (fix go (cs : list (Z * key)) (acc : gmap Z key * gmap (nat * Z) key) :=
             match cs with
             | [] => Ok acc
             | (idx, child) :: cs' =>
                 match level with
                 | O => go cs' (<[child_key nk idx := child]> acc.1, acc.2)
                 | S l =>
                     match load_subtree s c l (child_key nk idx) child acc with
                     | Ok acc' => go cs' acc'
                     | Err e => Err e
                     end
                 end
             end) (btree_iter node) acc
      end
  end.

Definition open (s : ObjectStore) (root : key) (c : option Dek) : result Pager SqlError :=
  match store_get s root with
  | None => Err (RootNotFound root)
  | Some b =>
      match decode_root b with
      | Err e => Err e
      | Ok ri =>
          let loaded := match ri_depth ri with
            | O => Ok (∅, ∅)
            | S l => load_subtree s c l 0 (root_cid ri) (∅, ∅)
            end in
          match loaded with
          | Err e => Err e
          | Ok (ps, ns) => Ok (mk_pager s ps ∅ ∅ ns (ri_page_count ri) (ri_depth ri) None c (ri_wrapped_dek ri))
          end
      end
  end.

(** ** Pages *)

(** [v.resize(PAGE_SIZE, 0)]. *)
Definition pad (data : bytes) : bytes :=
  take (Z.to_nat PAGE_SIZE) data ++ replicate (Z.to_nat PAGE_SIZE - length data) 0.

Definition object (p : Pager) (cid : key) : option bytes * Pager :=
  match store_get (store p) cid with
  | Some d => (Some d, p)
  | None =>
      match remote p with
      | None => (None, p)
      | Some f =>
          match f cid with
          | None => (None, p)
          | Some b => (Some b, with_store p (store_put (store p) b).2)
          end
      end
  end.

(** A page object as stored, opened with the data key where there is one. *)
Definition open_page (c : option Dek) (data : bytes) : bytes :=
  match c with Some dek => default data (dek_open dek data) | None => data end.

Definition read_page (p : Pager) (n : Z) : bytes * Pager :=
  match dirty p !! n with
  | Some d => (pad d, p)
  | None =>
      match pages p !! n with
      | None => (replicate (Z.to_nat PAGE_SIZE) 0, p)
      | Some cid =>
          match object p cid with
          | (Some data, p') => (pad (open_page (cipher p) data), p')
          | (None, p') => (replicate (Z.to_nat PAGE_SIZE) 0, p')
          end
      end
  end.

(** [None] is the overflow of [n + 1] at [u32::MAX]. *)
Definition write_page (p : Pager) (n : Z) (data : bytes) : option Pager :=
  if n =? U32_MAX then None
  else Some (mk_pager (store p) (pages p) (<[n := data]> (dirty p)) ({[n]} ∪ dirty_index p) (node_cids p)
    (Z.max (page_count p) (n + 1)) (depth p) (remote p) (cipher p) (wrapped_dek p)).

Definition set_page_count (p : Pager) (n : Z) : Pager :=
  let dropped : gset Z := dom (filter (fun kv => n <= kv.1) (pages p)) in
  mk_pager (store p) (filter (fun kv => kv.1 < n) (pages p)) (filter (fun kv => kv.1 < n) (dirty p))
    (dropped ∪ dirty_index p) (node_cids p) n (depth p) (remote p) (cipher p) (wrapped_dek p).

Definition slice_at (b : bytes) (from n : Z) : bytes := take (Z.to_nat n) (drop (Z.to_nat from) b).

(** [read_at]: [len] is what is left to read, at least one byte per pass. *)
Fixpoint read_loop (fuel : nat) (p : Pager) (pos len : Z) : bytes * Pager :=
  match fuel with
  | O => ([], p)
  | S fuel' =>
      if len <=? 0 then ([], p)
      else
        let page := as_u32 (pos / PAGE_SIZE) in
        let within := pos mod PAGE_SIZE in
        let '(pdata, p) := read_page p page in
        let n := Z.min (PAGE_SIZE - within) len in
        let '(rest, p) := read_loop fuel' p (pos + n) (len - n) in
        (slice_at pdata within n ++ rest, p)
  end.

Definition read_at (p : Pager) (len offset : Z) : bytes * Pager := read_loop (Z.to_nat len) p offset len.

(** [dst[from..from + n].copy_from_slice(src)]. *)
Definition copy_into (dst : bytes) (from : Z) (src : bytes) : bytes :=
  take (Z.to_nat from) dst ++ src ++ drop (Z.to_nat from + length src) dst.

Fixpoint write_loop (fuel : nat) (p : Pager) (buf : bytes) (pos : Z) : option Pager :=
  match fuel with
  | O => Some p
  | S fuel' =>
      match buf with
      | [] => Some p
      | _ =>
          let page := as_u32 (pos / PAGE_SIZE) in
          let within := pos mod PAGE_SIZE in
          let '(pdata, p) := read_page p page in
          let n := Z.min (PAGE_SIZE - within) (Z.of_nat (length buf)) in
          p ← write_page p page (copy_into pdata within (take (Z.to_nat n) buf));
          write_loop fuel' p (drop (Z.to_nat n) buf) (pos + n)
      end
  end.

Definition write_at (p : Pager) (buf : bytes) (offset : Z) : option Pager := write_loop (length buf) p buf offset.

(** ** Committing *)

(** The children of a node in the maps below it. *)
Definition children_of (get : Z -> option key) (nk : Z) : NodeMap :=
  list_to_map (omap (fun i => c ← get (child_key nk i); Some (i, c)) (seqZ 0 FANOUT)).

Definition below (p : Pager) (level : nat) (k : Z) : option key :=
  match level with O => pages p !! k | S l => node_cids p !! (l, k) end.

Definition with_nodes (p : Pager) (s : ObjectStore) (ns : gmap (nat * Z) key) : Pager :=
  mk_pager s (pages p) (dirty p) (dirty_index p) ns (page_count p) (depth p) (remote p) (cipher p) (wrapped_dek p).

Definition rebuild_node (level : nat) (p : Pager) (nk : Z) : Pager :=
  let children := children_of (below p level) nk in
  if bool_decide (children = ∅) then with_nodes p (store p) (delete (level, nk) (node_cids p))
  else
    let '(cid, s) := store_put (store p) (seal_index (cipher p) (to_allocvec children)) in
    with_nodes p s (<[(level, nk) := cid]> (node_cids p)).

Fixpoint rebuild_levels (n : nat) (level : nat) (keys : gset Z) (p : Pager) : Pager :=
  match n with
  | O => p
  | S n' =>
      let p := foldl (rebuild_node level) p (sort (elements keys)) in
      rebuild_levels n' (S level) (set_map (fun k => k / FANOUT) keys) p
  end.

Definition rebuild (p : Pager) (changed : gset Z) : Pager :=
  match depth p with
  | O => with_nodes p (store p) ∅
  | d => rebuild_levels d 0 (set_map (fun k => k / FANOUT) changed) p
  end.

(** [for (n, data) in take(&mut self.dirty)]. *)
Definition flush_page (p : Pager) (nd : Z * bytes) : Pager :=
  let '(cid, s) := store_put (store p) (match cipher p with Some dek => seal_deterministic dek nd.2 | None => nd.2 end) in
  mk_pager s (<[nd.1 := cid]> (pages p)) (dirty p) (dirty_index p) (node_cids p) (page_count p) (depth p)
    (remote p) (cipher p) (wrapped_dek p).

Definition flush (p : Pager) : Pager :=
  let p' := foldl flush_page p (map_to_list (dirty p)) in
  mk_pager (store p') (pages p') ∅ (dirty_index p') (node_cids p') (page_count p') (depth p') (remote p') (cipher p') (wrapped_dek p').

Definition with_depth (p : Pager) (d : nat) (ns : gmap (nat * Z) key) : Pager :=
  mk_pager (store p) (pages p) (dirty p) ∅ ns (page_count p) d (remote p) (cipher p) (wrapped_dek p).

Definition commit (p : Pager) : key * Pager :=
  let p := flush p in
  let new_depth := depth_for (page_count p) in
  let '(changed, p) :=
    if bool_decide (new_depth <> depth p) then (dom (pages p), with_depth p new_depth ∅)
    else (dirty_index p, with_depth p (depth p) (node_cids p)) in
  let p := rebuild p changed in
  let root_cid := match depth p with
    | O => key_of 0
    | S l => default (key_of 0) (node_cids p !! (l, 0))
    end in
  let '(cid, s) := store_put (store p)
    (to_allocvec (mk_root (page_count p) (depth p) root_cid (wrapped_dek p))) in
  (cid, with_store p s).

(** ** The objects of a database *)

Fixpoint reach_loop (s : ObjectStore) (c : option Dek) (level : nat) (frontier : list key) : result (list key) SqlError :=
  (fix go (fr : list key) (next : list key) (out : list key) : result (list key) SqlError :=
     match fr with
     | [] =>
         match level with
         | O => Ok out
         | S l => match reach_loop s c l next with Ok r => Ok (out ++ r) | Err e => Err e end
         end
     | ncid :: fr' =>
         match store_get s ncid with
         | None => Err CorruptIndex
         | Some b =>
             match decode_node_sealed c b with
             | Err e => Err e
             | Ok node =>
                 let cs := map snd (btree_iter node) in
                 match level with
                 | O => go fr' next (out ++ ncid :: cs)
                 | S _ => go fr' (next ++ cs) (out ++ [ncid])
                 end
             end
         end
     end) frontier [] [].

Definition reachable (s : ObjectStore) (root : key) (c : option Dek) : result (list key) SqlError :=
  match store_get s root with
  | None => Err (RootNotFound root)
  | Some b =>
      match decode_root b with
      | Err e => Err e
      | Ok ri =>
          match ri_depth ri with
          | O => Ok [root]
          | S l => match reach_loop s c l [root_cid ri] with Ok r => Ok (root :: r) | Err e => Err e end
          end
      end
  end.
End pager.

(** ** Generations *)

Section gen.
Context `{Blake3} `{Postcard (list (key * bytes))}.

Definition pack (ps : list (key * bytes)) : bytes := to_allocvec ps.

Fixpoint unpack_loop (ps : list (key * bytes)) : result (list (key * bytes)) SqlError :=
  match ps with
  | [] => Ok []
  | (cid, data) :: ps' =>
      if bool_decide (Cid_of data <> cid) then Err CorruptIndex
      else match unpack_loop ps' with Ok out => Ok ((cid, data) :: out) | Err e => Err e end
  end.

Definition unpack (blob : bytes) : result (list (key * bytes)) SqlError :=
  match from_bytes blob with Some ps => unpack_loop ps | None => Err CorruptIndex end.
End gen.
