(* ===== verification/PagerIndex.v ===== *)
(** The index tree of [Pager]: the canonical tree of a page map, the
    incremental rebuild that keeps to it, and the load that reads it back. *)

From S2P Require Import Prelude Crypto Pager.

Open Scope Z_scope.

(** Pairs of an index and what a function has there. *)
Lemma elem_of_tagged {A} (g : Z -> option A) (ks : list Z) j c :
  (j, c) ∈ omap (fun i => c ← g i; Some (i, c)) ks <-> j ∈ ks /\ g j = Some c.
Proof.
  rewrite list_elem_of_omap. split.
  - intros (k & Hk & (c' & Hc & [= -> ->])%bind_Some). done.
  - intros [Hj Hc]. exists j. split; [done|]. by rewrite Hc.
Qed.

Lemma NoDup_tagged {A} (g : Z -> option A) (ks : list Z) : NoDup ks -> NoDup (map fst (omap (fun i => c ← g i; Some (i, c)) ks)).
Proof.
  induction 1 as [|k ks Hk Hks IH]; [constructor|]. cbn. destruct (g k) as [c|]; cbn; [|done].
  apply list.NoDup_cons. split; [|done]. intros ([j c'] & Hj & [Hin _]%elem_of_tagged)%list_elem_of_fmap. cbn in Hj. by subst.
Qed.

Section index.
Context `{Blake3} `{DekCipherLaws} `{PostcardLaws NodeMap} `{PostcardLaws RootIndex}.
Context (blake3_inj : forall a b, blake3 a = blake3 b -> a = b).

(** ** Stores *)

Definition store_ok (s : ObjectStore) : Prop :=
  (forall cid b, root_dir s !! cid = Some b -> cid = Cid_of b) /\
  (forall cid b, fallback s !! cid = Some b -> cid = Cid_of b).

Lemma store_get_cid s cid b : store_ok s -> store_get s cid = Some b -> cid = Cid_of b.
Proof. intros [Hr Hf]. unfold store_get. destruct (root_dir s !! cid) eqn:E; [intros [= <-]; auto|auto]. Qed.

Lemma store_put_cid s b : (store_put s b).1 = Cid_of b.
Proof. unfold store_put. by destruct (root_dir s !! Cid_of b). Qed.

Lemma store_put_get s b : store_ok s -> store_get (store_put s b).2 (Cid_of b) = Some b.
Proof.
  intros [Hr _]. unfold store_put. destruct (root_dir s !! Cid_of b) as [b'|] eqn:E; unfold store_get; cbn.
  - rewrite E. apply Hr, blake3_inj in E. by subst.
  - by rewrite lookup_insert_eq.
Qed.

Lemma store_put_ok s b : store_ok s -> store_ok (store_put s b).2.
Proof.
  intros [Hr Hf]. unfold store_put. destruct (root_dir s !! Cid_of b); [done|]. split; cbn; [|done].
  intros cid x. rewrite lookup_insert_Some. intros [[<- <-]|[_ ?]]; auto.
Qed.

Lemma store_put_mono s b cid x : store_ok s -> store_get s cid = Some x -> store_get (store_put s b).2 cid = Some x.
Proof.
  intros Hs Hx. destruct (decide (cid = Cid_of b)) as [->|Hne].
  - pose proof (store_get_cid _ _ _ Hs Hx) as E%blake3_inj. subst x. by apply store_put_get.
  - unfold store_put. destruct (root_dir s !! Cid_of b) eqn:E; [done|]. unfold store_get in *. cbn.
    by rewrite lookup_insert_ne.
Qed.

(** ** The canonical tree *)

Lemma children_lookup get nk i :
  children_of get nk !! i = if decide (0 <= i < FANOUT) then get (child_key nk i) else None.
Proof.
  unfold children_of.
  assert (Hin : forall j c, (j, c) ∈ omap (fun i => c ← get (child_key nk i); Some (i, c)) (seqZ 0 FANOUT) <->
    0 <= j < FANOUT /\ get (child_key nk j) = Some c).
  { intros j c. rewrite (elem_of_tagged (fun i => get (child_key nk i))), elem_of_seqZ. by rewrite Z.add_0_l. }
  assert (Hnd := NoDup_tagged (fun i => get (child_key nk i)) _ (NoDup_seqZ 0 FANOUT)). cbn beta in Hnd.
  revert Hin Hnd. generalize (omap (fun i => c ← get (child_key nk i); Some (i, c)) (seqZ 0 FANOUT)) as l.
  intros l Hin Hnd. destruct ((list_to_map l : NodeMap) !! i) as [c|] eqn:E.
  - apply elem_of_list_to_map_2, Hin in E as [Hi Hc]. by rewrite decide_True.
  - apply not_elem_of_list_to_map_2 in E. case_decide as Hd; [|done].
    destruct (get (child_key nk i)) as [c|] eqn:Hc; [|done]. exfalso. apply E.
    apply list_elem_of_fmap. exists (i, c). split; [done|]. by apply Hin.
Qed.

#[local] Arguments children_of : simpl never.
#[local] Opaque children_of.

(** How many pages a node of a level spans; the node keys of a level. *)
Definition span (l : nat) : Z := 256 ^ (Z.of_nat l + 1).
Definition valid (l : nat) (nk : Z) : Prop := (l <= 3)%nat /\ 0 <= nk < 256 ^ (3 - Z.of_nat l).

Lemma span_pos l : 0 < span l.
Proof. apply Z.pow_pos_nonneg; lia. Qed.

Lemma span_S l : span (S l) = span l * 256.
Proof. unfold span. rewrite Nat2Z.inj_succ. replace (Z.succ (Z.of_nat l) + 1) with ((Z.of_nat l + 1) + 1) by lia. rewrite Z.pow_add_r by lia. lia. Qed.

Lemma valid_u32 l nk : valid l nk -> 0 <= nk < 16777216.
Proof. intros [Hl Hn]. do 4 (destruct l as [|l]; [cbn in Hn; lia|]). lia. Qed.

Lemma child_key_val l nk i : valid l nk -> 0 <= i < FANOUT -> child_key nk i = nk * 256 + i.
Proof. intros Hv%valid_u32 Hi. unfold child_key, as_u32, FANOUT in *. apply Z.mod_small. lia. Qed.

Lemma valid_child l nk i : valid (S l) nk -> 0 <= i < FANOUT -> valid l (nk * 256 + i).
Proof.
  intros [Hl Hn] Hi. unfold FANOUT in Hi. split; [lia|].
  replace (3 - Z.of_nat l) with (3 - Z.of_nat (S l) + 1) by lia. rewrite Z.pow_add_r by lia. cbn. lia.
Qed.

Lemma div_span_S l k : k / span (S l) = k / span l / 256.
Proof. rewrite span_S. pose proof (span_pos l). by rewrite Z.div_div by lia. Qed.

Lemma div_child l k nk i : k / span l = nk * 256 + i -> 0 <= i < FANOUT -> k / span (S l) = nk.
Proof. intros E Hi. unfold FANOUT in Hi. rewrite div_span_S, E, Z.add_comm, Z.div_add by lia. rewrite Z.div_small; lia. Qed.

Lemma child_div l k nk : k / span (S l) = nk -> k / span l = nk * 256 + (k / span l) mod 256 /\ 0 <= (k / span l) mod 256 < FANOUT.
Proof. intros <-. rewrite div_span_S. unfold FANOUT. pose proof (Z.div_mod (k / span l) 256 ltac:(lia)). pose proof (Z.mod_pos_bound (k / span l) 256). lia. Qed.

(** The nodes of the tree of [ps]: the children of a node and its object id. *)
Fixpoint canon (c : option Dek) (ps : gmap Z key) (l : nat) (nk : Z) : option key :=
  let ch := children_of (match l with O => fun k => ps !! k | S l' => canon c ps l' end) nk in
  if bool_decide (ch = ∅) then None else Some (Cid_of (seal_index c (to_allocvec ch))).

Definition node_at (c : option Dek) (ps : gmap Z key) (l : nat) (nk : Z) : NodeMap :=
  children_of (match l with O => fun k => ps !! k | S l' => canon c ps l' end) nk.

Lemma canon_node c ps l nk :
  canon c ps l nk = if bool_decide (node_at c ps l nk = ∅) then None else Some (Cid_of (seal_index c (to_allocvec (node_at c ps l nk)))).
Proof. destruct l; reflexivity. Qed.

Lemma node_lookup_0 c ps nk i :
  valid 0 nk -> node_at c ps 0 nk !! i = if decide (0 <= i < FANOUT) then ps !! (nk * 256 + i) else None.
Proof. intros Hv. unfold node_at. rewrite children_lookup. case_decide; [|reflexivity]. by rewrite (child_key_val _ _ _ Hv). Qed.

Lemma node_lookup_S c ps l nk i :
  valid (S l) nk -> node_at c ps (S l) nk !! i = if decide (0 <= i < FANOUT) then canon c ps l (nk * 256 + i) else None.
Proof. intros Hv. unfold node_at. rewrite children_lookup. case_decide; [|reflexivity]. by rewrite (child_key_val _ _ _ Hv). Qed.

(** A node depends only on the pages it spans. *)
Lemma canon_ext c ps ps' l nk :
  valid l nk -> (forall k, k / span l = nk -> ps !! k = ps' !! k) ->
  node_at c ps l nk = node_at c ps' l nk /\ canon c ps l nk = canon c ps' l nk.
Proof.
  revert nk. induction l as [|l IH]; intros nk Hv Hext.
  - assert (E : node_at c ps 0 nk = node_at c ps' 0 nk).
    { apply map_eq. intros i. rewrite !node_lookup_0 by done. case_decide as Hd; [|done]. apply Hext.
      unfold span, FANOUT in *. cbn. rewrite Z.add_comm, Z.div_add, Z.div_small; lia. }
    split; [done|]. by rewrite !canon_node, E.
  - assert (E : node_at c ps (S l) nk = node_at c ps' (S l) nk).
    { apply map_eq. intros i. rewrite !node_lookup_S by done. case_decide as Hd; [|done].
      apply IH; [by apply valid_child|]. intros k Hk. apply Hext. by eapply div_child. }
    split; [done|]. by rewrite !canon_node, E.
Qed.

(** A node with no page under it is absent. *)
Lemma canon_none c ps l nk :
  valid l nk -> (forall k, k / span l = nk -> ps !! k = None) -> canon c ps l nk = None.
Proof.
  intros Hv Hn. assert (E : forall l nk, valid l nk -> node_at c ∅ l nk = ∅ /\ canon c ∅ l nk = None).
  { clear. intros l. induction l as [|l IH]; intros nk Hv.
    - assert (E : node_at c ∅ 0 nk = ∅); [|by rewrite canon_node, E].
      apply map_eq. intros i. rewrite node_lookup_0 by done. case_decide; by rewrite ?lookup_empty.
    - assert (E : node_at c ∅ (S l) nk = ∅); [|by rewrite canon_node, E].
      apply map_eq. intros i. rewrite node_lookup_S by done. rewrite lookup_empty. case_decide; [|done].
      apply IH. by apply valid_child. }
  destruct (canon_ext c ps ∅ l nk Hv) as [_ ->]; [|by apply E]. intros k Hk. rewrite lookup_empty. auto.
Qed.

(** A page under a node makes it present. *)
Lemma canon_some c ps l k :
  0 <= k -> valid l (k / span l) -> is_Some (ps !! k) -> is_Some (canon c ps l (k / span l)).
Proof.
  intros Hk. induction l as [|l IH]; intros Hv Hp; rewrite canon_node; rewrite bool_decide_false; try done.
  - intros E. apply (f_equal (fun m : NodeMap => m !! (k mod 256))) in E.
    rewrite node_lookup_0, lookup_empty, decide_True in E by (done || (unfold FANOUT; apply Z.mod_pos_bound; lia)).
    change (span 0) with 256 in E. replace (k / 256 * 256 + k mod 256) with k in E by (rewrite (Z.div_mod k 256) at 1; lia).
    rewrite E in Hp. by destruct Hp.
  - intros E. destruct (child_div l k _ eq_refl) as [Ec Hi].
    apply (f_equal (fun m : NodeMap => m !! ((k / span l) mod 256))) in E.
    rewrite node_lookup_S, lookup_empty, decide_True, <- Ec in E by done.
    assert (Hs : is_Some (canon c ps l (k / span l))).
    { apply IH; [|done]. rewrite Ec. by apply valid_child. }
    rewrite E in Hs. by destruct Hs.
Qed.

(** A present node has a present parent. *)
Lemma canon_up c ps l k :
  0 <= k -> valid (S l) (k / 256) -> is_Some (canon c ps l k) -> is_Some (canon c ps (S l) (k / 256)).
Proof.
  intros Hk Hv Hs. rewrite canon_node, bool_decide_false; [done|]. intros E.
  apply (f_equal (fun m : NodeMap => m !! (k mod 256))) in E.
  rewrite node_lookup_S, lookup_empty, decide_True in E by (done || (unfold FANOUT; apply Z.mod_pos_bound; lia)).
  replace (k / 256 * 256 + k mod 256) with k in E by (rewrite (Z.div_mod k 256) at 1; lia).
  rewrite E in Hs. by destruct Hs.
Qed.

Lemma valid_page l k : (l <= 3)%nat -> 0 <= k <= U32_MAX -> valid l (k / span l).
Proof.
  intros Hl Hk. pose proof (span_pos l). split; [done|]. split; [apply Z.div_pos; lia|].
  apply Z.div_lt_upper_bound; [lia|]. unfold span. rewrite <- Z.pow_add_r by lia.
  replace (Z.of_nat l + 1 + (3 - Z.of_nat l)) with 4 by lia. unfold U32_MAX in Hk. cbn. lia.
Qed.

(** ** Rebuilding *)

(** The cached node of a key is the canonical one, and its object is stored. *)
Definition node_good (p : Pager) (l : nat) (nk : Z) : Prop :=
  node_cids p !! (l, nk) = canon (cipher p) (pages p) l nk /\
  forall cid, canon (cipher p) (pages p) l nk = Some cid ->
    store_get (store p) cid = Some (seal_index (cipher p) (to_allocvec (node_at (cipher p) (pages p) l nk))).

Definition goods (p : Pager) (n : nat) : Prop := forall l nk, (l < n)%nat -> valid l nk -> node_good p l nk.

Lemma below_children p level nk :
  valid level nk -> goods p level -> children_of (below p level) nk = node_at (cipher p) (pages p) level nk.
Proof.
  intros Hv Hg. destruct level as [|l]; [reflexivity|]. apply map_eq. intros i.
  rewrite children_lookup, node_lookup_S by done. case_decide as Hi; [|done].
  rewrite (child_key_val _ _ _ Hv Hi). apply Hg; [lia|]. by apply valid_child.
Qed.

Record rebuilt (p p' : Pager) : Prop := {
  rb_eq : p' = with_nodes p (store p') (node_cids p');
  rb_ok : store_ok (store p');
  rb_mono : forall cid b, store_get (store p) cid = Some b -> store_get (store p') cid = Some b
}.

Lemma rebuilt_refl p : store_ok (store p) -> rebuilt p p.
Proof. by destruct p. Qed.

Lemma rebuilt_trans p1 p2 p3 : rebuilt p1 p2 -> rebuilt p2 p3 -> rebuilt p1 p3.
Proof. intros [E1 O1 M1] [E2 O2 M2]. constructor; [|done|auto]. rewrite E2 at 1. by rewrite E1. Qed.

Lemma good_transfer p p' l k :
  rebuilt p p' -> node_cids p' !! (l, k) = node_cids p !! (l, k) -> node_good p l k -> node_good p' l k.
Proof.
  intros [E _ M] En [Hn Hs]. unfold node_good.
  assert (Ec : cipher p' = cipher p) by by rewrite E. assert (Ep : pages p' = pages p) by by rewrite E.
  rewrite Ec, Ep, En. auto.
Qed.

Lemma rebuild_node_spec level p nk :
  store_ok (store p) -> valid level nk -> goods p level ->
  rebuilt p (rebuild_node level p nk) /\ node_good (rebuild_node level p nk) level nk /\
  forall l k, node_good p l k -> node_good (rebuild_node level p nk) l k.
Proof.
  intros Hs Hv Hg.
  assert (Hr : rebuilt p (rebuild_node level p nk) /\ node_good (rebuild_node level p nk) level nk /\
    forall l k, (l, k) <> (level, nk) -> node_cids (rebuild_node level p nk) !! (l, k) = node_cids p !! (l, k)).
  { unfold rebuild_node. rewrite below_children by done. case_bool_decide as He.
    - split; [by constructor|]. split; [|intros l k Hne; cbn; by rewrite lookup_delete_ne by congruence].
      split; cbn -[canon]; rewrite canon_node, bool_decide_true by done; [by rewrite lookup_delete_eq|done].
    - rewrite (surjective_pairing (store_put _ _)), store_put_cid.
      split; [constructor; cbn; [done|by apply store_put_ok|intros; by apply store_put_mono]|].
      split; [|intros l k Hne; cbn; by rewrite lookup_insert_ne by congruence].
      split; cbn -[canon]; rewrite canon_node, bool_decide_false by done; [by rewrite lookup_insert_eq|].
      intros cid [= <-]. by apply store_put_get. }
  destruct Hr as (Hr & Hn & Ho). split; [done|]. split; [done|]. intros l k Hgood.
  destruct (decide ((l, k) = (level, nk))) as [[= -> ->]|Hne]; [done|]. apply (good_transfer p); auto.
Qed.

Lemma rebuild_fold level ks p :
  store_ok (store p) -> Forall (valid level) ks -> goods p level ->
  let p' := foldl (rebuild_node level) p ks in
  rebuilt p p' /\ (forall k, k ∈ ks -> node_good p' level k) /\ (forall l k, node_good p l k -> node_good p' l k).
Proof.
  revert p. induction ks as [|k ks IH]; intros p Hs Hv Hg; cbn [foldl].
  - split; [by apply rebuilt_refl|]. split; [|done]. by intros k ?%elem_of_nil.
  - apply list.Forall_cons in Hv as [Hk Hks].
    destruct (rebuild_node_spec level p k Hs Hk Hg) as (Hr & Hn & Hp).
    destruct (IH (rebuild_node level p k)) as (Hr' & Hn' & Hp').
    { by apply Hr. } { done. } { intros l x Hl Hx. by apply Hp, Hg. }
    split; [by eapply rebuilt_trans|]. split; [|auto].
    intros x [->|Hx]%elem_of_cons; auto.
Qed.

(** No changed page under the node. *)
Definition clean (D : gset Z) (l : nat) (nk : Z) : Prop := forall k, k ∈ D -> k / span l <> nk.

Lemma rebuild_levels_good D n level keys p :
  store_ok (store p) -> (level + n <= 4)%nat ->
  (forall k, k ∈ D -> 0 <= k <= U32_MAX) ->
  (forall nk, nk ∈ keys <-> exists k, k ∈ D /\ k / span level = nk) ->
  goods p level ->
  (forall l nk, (l < level + n)%nat -> valid l nk -> clean D l nk -> node_good p l nk) ->
  rebuilt p (rebuild_levels n level keys p) /\ goods (rebuild_levels n level keys p) (level + n).
Proof.
  revert level keys p. induction n as [|n IH]; intros level keys p Hs Hn HD Hk Hg Hc; cbn [rebuild_levels].
  - rewrite Nat.add_0_r. split; [by apply rebuilt_refl|done].
  - assert (Hin : forall k, k ∈ sort (elements keys) <-> k ∈ keys) by (intros k; by rewrite sort_perm, elem_of_elements).
    destruct (rebuild_fold level (sort (elements keys)) p Hs) as (Hr & Hall & Hp); [|done|].
    { apply list.Forall_forall. intros nk Hnk. apply Hin, Hk in Hnk as (k & Hd & <-). apply valid_page; [lia|auto]. }
    set (p1 := foldl (rebuild_node level) p (sort (elements keys))) in *.
    destruct (IH (S level) (set_map (fun k => k / FANOUT) keys) p1) as [Hr' Hg'].
    + apply Hr. + lia. + done.
    + intros nk. rewrite elem_of_map. split.
      * intros (x & -> & (k & Hd & <-)%Hk). exists k. by rewrite div_span_S.
      * intros (k & Hd & <-). exists (k / span level). rewrite div_span_S. split; [done|]. apply Hk. eauto.
    + intros l nk Hl Hv. destruct (decide (l = level)) as [->|Hne].
      * destruct (decide (nk ∈ keys)) as [Hi|Hi]; [by apply Hall, Hin|]. apply Hp, Hc; [lia|done|].
        intros k Hd E. apply Hi, Hk. eauto.
      * apply Hp, Hg; [lia|done].
    + intros l nk Hl Hv Hcl. apply Hp, Hc; [lia|done..].
    + split; [by eapply rebuilt_trans|]. by rewrite Nat.add_succ_comm in Hg'.
Qed.

Lemma rebuild_good p D :
  store_ok (store p) -> (depth p <= 4)%nat -> (forall k, k ∈ D -> 0 <= k <= U32_MAX) ->
  (forall l nk, (l < depth p)%nat -> valid l nk -> clean D l nk -> node_good p l nk) ->
  rebuilt p (rebuild p D) /\ goods (rebuild p D) (depth p).
Proof.
  intros Hs Hd HD Hc. unfold rebuild. destruct (depth p) as [|d] eqn:Ed.
  - split; [by constructor|]. intros l nk Hl. lia.
  - rewrite <- Ed in *. apply (rebuild_levels_good D (depth p) 0); try done.
    + intros nk. rewrite elem_of_map. change (span 0) with FANOUT. split; intros (k & ? & ?); exists k; auto.
    + intros l nk Hl. lia.
Qed.

(** ** Loading *)

(** The key of the ancestor at level [l] of a node of level [l']. *)
Definition anc (l l' : nat) (k : Z) : Z := k / 256 ^ Z.of_nat (l - l').

Lemma anc_refl l k : anc l l k = k.
Proof. unfold anc. rewrite Nat.sub_diag. apply Z.div_1_r. Qed.

Lemma anc_S l l' k : (l' <= l)%nat -> anc (S l) l' k = anc l l' k / 256.
Proof.
  intros Hl. unfold anc. replace (S l - l')%nat with (S (l - l')) by lia.
  rewrite Nat2Z.inj_succ, Z.pow_succ_r, Z.mul_comm by lia. rewrite Z.div_div; [done|..|lia].
  apply Z.pow_nonzero; lia.
Qed.

(** Every node of the tree up to a level is stored. *)
Definition stored_upto (s : ObjectStore) (c : option Dek) (ps : gmap Z key) (l : nat) : Prop :=
  forall l' k cid, (l' <= l)%nat -> valid l' k -> canon c ps l' k = Some cid ->
    store_get s cid = Some (seal_index c (to_allocvec (node_at c ps l' k))).

Lemma decode_sealed c n : decode_node_sealed c (seal_index c (to_allocvec n)) = Ok n.
Proof.
  unfold decode_node_sealed, open_index, seal_index, decode_node.
  destruct c; rewrite ?open_seal; by rewrite postcard_roundtrip.
Qed.

Notation Loaded := (gmap Z key * gmap (nat * Z) key)%type.

(** What a load of a set of children adds to what was gathered. *)
Definition adds (ps : gmap Z key) (ns : nat -> Z -> option key) (Qp : Z -> Prop) (Qn : nat -> Z -> Prop) (acc out : Loaded) : Prop :=
  (forall k, Qp k -> out.1 !! k = ps !! k ∪ acc.1 !! k) /\ (forall k, ~ Qp k -> out.1 !! k = acc.1 !! k) /\
  (forall l k, Qn l k -> out.2 !! (l, k) = ns l k ∪ acc.2 !! (l, k)) /\ (forall l k, ~ Qn l k -> out.2 !! (l, k) = acc.2 !! (l, k)).

Lemma union_idem {A} (x y : option A) : x ∪ (x ∪ y) = x ∪ y.
Proof. by destruct x, y. Qed.

Lemma adds_trans ps ns Qp1 Qn1 Qp2 Qn2 Qp Qn a b d
  `{!forall k, Decision (Qp1 k)} `{!forall k, Decision (Qp2 k)}
  `{!forall l k, Decision (Qn1 l k)} `{!forall l k, Decision (Qn2 l k)} :
  adds ps ns Qp1 Qn1 a b -> adds ps ns Qp2 Qn2 b d ->
  (forall k, Qp k <-> Qp1 k \/ Qp2 k) -> (forall l k, Qn l k <-> Qn1 l k \/ Qn2 l k) ->
  adds ps ns Qp Qn a d.
Proof.
  intros (A1 & A2 & A3 & A4) (B1 & B2 & B3 & B4) Hp Hn. split_and!.
  - intros k Hq%Hp. destruct (decide (Qp2 k)) as [Hq2|Hq2]; destruct (decide (Qp1 k)) as [Hq1|Hq1].
    + rewrite B1, A1 by done. apply union_idem.
    + by rewrite B1, A2.
    + by rewrite B2, A1.
    + tauto.
  - intros k Hq. rewrite Hp in Hq. rewrite B2, A2; tauto.
  - intros l k Hq%Hn. destruct (decide (Qn2 l k)) as [Hq2|Hq2]; destruct (decide (Qn1 l k)) as [Hq1|Hq1].
    + rewrite B3, A3 by done. apply union_idem.
    + by rewrite B3, A4.
    + by rewrite B4, A3.
    + tauto.
  - intros l k Hq. rewrite Hn in Hq. rewrite B4, A4; tauto.
Qed.

Lemma adds_weaken ps ns Qp Qn Rp Rn a b `{!forall k, Decision (Qp k)} `{!forall l k, Decision (Qn l k)} :
  adds ps ns Qp Qn a b ->
  (forall k, Qp k -> Rp k) -> (forall l k, Qn l k -> Rn l k) ->
  (forall k, Rp k -> ~ Qp k -> ps !! k = None) -> (forall l k, Rn l k -> ~ Qn l k -> ns l k = None) ->
  adds ps ns Rp Rn a b.
Proof.
  intros (A1 & A2 & A3 & A4) Hp Hn Np Nn. split_and!.
  - intros k Hr. destruct (decide (Qp k)) as [Hq|Hq]; [auto|]. rewrite A2, Np by done. by destruct (a.1 !! k).
  - intros k Hr. apply A2. auto.
  - intros l k Hr. destruct (decide (Qn l k)) as [Hq|Hq]; [auto|]. rewrite A4, Nn by done. by destruct (a.2 !! (l, k)).
  - intros l k Hr. apply A4. auto.
Qed.

(** The loop over the children of a node, with the load of a child as a
    parameter. *)
Lemma load_children (f : Z -> key -> Loaded -> result Loaded SqlError) ps ns (Qp : Z -> Z -> Prop) (Qn : Z -> nat -> Z -> Prop)
  `{!forall i k, Decision (Qp i k)} `{!forall i l k, Decision (Qn i l k)} cs acc :
  (forall i ch acc, (i, ch) ∈ cs -> exists out, f i ch acc = Ok out /\ adds ps ns (Qp i) (Qn i) acc out) ->
  exists out,
    (fix go (cs : list (Z * key)) (acc : Loaded) := match cs with
      | [] => Ok acc
      | (i, ch) :: cs' => match f i ch acc with Ok acc' => go cs' acc' | Err e => Err e end
      end) cs acc = Ok out /\
    adds ps ns (fun k => Exists (fun i => Qp i k) cs.*1) (fun l k => Exists (fun i => Qn i l k) cs.*1) acc out.
Proof.
  revert acc. induction cs as [|[i ch] cs IH]; intros acc Hf.
  - exists acc. split; [done|]. split_and!; try done; by intros ? ?%Exists_nil || (intros ? ? ?%Exists_nil).
  - destruct (Hf i ch acc) as (out & -> & Ha); [by apply elem_of_cons; left|].
    destruct (IH out) as (out' & -> & Ha').
    { intros. apply Hf. by apply elem_of_cons; right. }
    exists out'. split; [done|]. apply (adds_trans ps ns (Qp i) (Qn i) _ _ _ _ acc out out' Ha Ha').
    + intros k. exact (Exists_cons (fun i => Qp i k) i cs.*1).
    + intros l k. exact (Exists_cons (fun i => Qn i l k) i cs.*1).
Qed.

Lemma load_level s c l nk cid acc :
  load_subtree s c l nk cid acc =
    match store_get s cid with
    | None => Err CorruptIndex
    | Some b =>
        match decode_node_sealed c b with
        | Err e => Err e
        | Ok node =>
            (fix go (cs : list (Z * key)) (acc : Loaded) := match cs with
              | [] => Ok acc
              | (i, ch) :: cs' =>
                  match match l with
                    | O => Ok (<[child_key nk i := ch]> acc.1, acc.2)
                    | S l' => load_subtree s c l' (child_key nk i) ch acc
                    end with Ok acc' => go cs' acc' | Err e => Err e end
              end) (btree_iter node) (acc.1, <[(l, nk) := cid]> acc.2)
        end
    end.
Proof.
  destruct l; reflexivity.
Qed.

Definition under_p (l : nat) (nk k : Z) : Prop := k / span l = nk.
Definition under_n (l : nat) (nk : Z) (l' : nat) (k : Z) : Prop := (l' <= l)%nat /\ anc l l' k = nk.

#[global] Instance under_p_dec l nk k : Decision (under_p l nk k).
Proof. unfold under_p. apply _. Defined.
#[global] Instance under_n_dec l nk l' k : Decision (under_n l nk l' k).
Proof. unfold under_n. apply _. Defined.

(** The load of a child of a node of level [l]. *)
Definition child_load (s : ObjectStore) (c : option Dek) (l : nat) (nk i : Z) (ch : key) (acc : Loaded) : result Loaded SqlError :=
  match l with
  | O => Ok (<[child_key nk i := ch]> acc.1, acc.2)
  | S l' => load_subtree s c l' (child_key nk i) ch acc
  end.
Definition child_p (l : nat) (nk i k : Z) : Prop :=
  match l with O => k = nk * 256 + i | S l' => under_p l' (nk * 256 + i) k end.
Definition child_n (l : nat) (nk i : Z) (l' : nat) (k : Z) : Prop :=
  match l with O => False | S m => under_n m (nk * 256 + i) l' k end.

#[global] Instance child_p_dec l nk i k : Decision (child_p l nk i k).
Proof. destruct l; cbn; apply _. Defined.
#[global] Instance child_n_dec l nk i l' k : Decision (child_n l nk i l' k).
Proof. destruct l; cbn; apply _. Defined.

Lemma split_256 k : k = k / 256 * 256 + k mod 256 /\ 0 <= k mod 256 < FANOUT.
Proof. unfold FANOUT. pose proof (Z.div_mod k 256 ltac:(lia)). pose proof (Z.mod_pos_bound k 256). lia. Qed.

Lemma valid_down l k : valid (S l) (k / 256) -> valid l k.
Proof. intros Hv. destruct (split_256 k) as [Ek Hm]. rewrite Ek. by apply valid_child. Qed.

Lemma valid_anc l l' k : (l' <= l)%nat -> valid l (anc l l' k) -> valid l' k.
Proof.
  induction 1 as [|l Hl IH]; [by rewrite anc_refl|]. rewrite anc_S by done. intros Hv. by apply IH, valid_down.
Qed.

Lemma canon_anc c ps l l' k :
  (l' <= l)%nat -> valid l (anc l l' k) -> is_Some (canon c ps l' k) -> is_Some (canon c ps l (anc l l' k)).
Proof.
  induction 1 as [|l Hl IH]; [by rewrite anc_refl|]. rewrite anc_S by done. intros Hv Hs.
  apply valid_down in Hv as Hd. apply canon_up; [by apply valid_u32 in Hd; lia|done|auto].
Qed.

Lemma child_p_under l nk i k : 0 <= i < FANOUT -> child_p l nk i k -> under_p l nk k.
Proof.
  intros Hi. unfold FANOUT in Hi. destruct l as [|l]; unfold under_p; cbn [child_p].
  - intros ->. change (span 0) with 256. rewrite Z.add_comm, Z.div_add, Z.div_small; lia.
  - intros Hq. by eapply div_child.
Qed.

Lemma child_n_under l nk i l' k : 0 <= i < FANOUT -> child_n l nk i l' k -> under_n l nk l' k.
Proof.
  intros Hi. unfold FANOUT in Hi. destruct l as [|l]; cbn [child_n]; [done|]. intros [Hl E]. split; [lia|].
  rewrite anc_S, E, Z.add_comm, Z.div_add, Z.div_small; lia.
Qed.

Lemma node_index c ps l nk i : is_Some (node_at c ps l nk !! i) -> 0 <= i < FANOUT.
Proof. unfold node_at. rewrite children_lookup. case_decide; [done|by intros []]. Qed.

Lemma page_child c ps l nk k :
  valid l nk -> is_Some (ps !! k) -> under_p l nk k -> exists i, is_Some (node_at c ps l nk !! i) /\ child_p l nk i k.
Proof.
  intros Hv Hs Hu. unfold under_p in Hu. destruct l as [|l]; cbn [child_p].
  - change (span 0) with 256 in Hu. destruct (split_256 k) as [Ek Hm]. exists (k mod 256).
    rewrite node_lookup_0, decide_True, <- Hu, <- Ek by (done || by rewrite Hu). done.
  - destruct (child_div l k nk Hu) as [Ek Hm]. exists ((k / span l) mod 256).
    rewrite node_lookup_S, decide_True, <- Ek by done. split; [|done].
    assert (Hvl : valid l (k / span l)) by (rewrite Ek; by apply valid_child).
    apply canon_some; [|done..]. apply valid_u32 in Hvl. pose proof (span_pos l).
    destruct (decide (0 <= k)) as [?|Hk]; [done|]. pose proof (Z.div_lt_upper_bound k (span l) 0). lia.
Qed.

Lemma node_child c ps l nk l' k :
  valid l nk -> l' <> l -> is_Some (canon c ps l' k) -> under_n l nk l' k ->
  exists i, is_Some (node_at c ps l nk !! i) /\ child_n l nk i l' k.
Proof.
  intros Hv Hne Hs [Hl E]. destruct l as [|l]; [lia|]. cbn [child_n]. rewrite anc_S in E by lia.
  destruct (split_256 (anc l l' k)) as [Ek Hm]. rewrite E in Ek. exists (anc l l' k mod 256).
  rewrite node_lookup_S, decide_True, <- Ek by done. split; [|split; [lia|done]].
  apply canon_anc; [lia| |done]. rewrite Ek. by apply valid_child.
Qed.

Lemma load_subtree_ok s c ps l nk cid acc :
  stored_upto s c ps l -> valid l nk -> canon c ps l nk = Some cid ->
  exists out, load_subtree s c l nk cid acc = Ok out /\ adds ps (canon c ps) (under_p l nk) (under_n l nk) acc out.
Proof.
  revert nk cid acc. induction l as [l IH] using lt_wf_ind. intros nk cid acc Hst Hv Hc.
  rewrite load_level, (Hst l nk cid) by done. rewrite decode_sealed.
  destruct (load_children (child_load s c l nk) ps (canon c ps) (child_p l nk) (child_n l nk)
    (btree_iter (node_at c ps l nk)) (acc.1, <[(l, nk) := cid]> acc.2)) as (out & Eo & Ha).
  { intros i ch a Hin. apply elem_of_btree_iter in Hin. destruct l as [|l]; cbn [child_load child_p child_n].
    - rewrite node_lookup_0 in Hin by done. case_decide as Hi; [|done]. eexists. split; [done|].
      rewrite (child_key_val _ _ _ Hv Hi). split_and!; cbn.
      + intros k ->. rewrite lookup_insert_eq, Hin. by destruct (a.1 !! _).
      + intros k Hk. by rewrite lookup_insert_ne by congruence.
      + done.
      + done.
    - rewrite node_lookup_S in Hin by done. case_decide as Hi; [|done].
      rewrite (child_key_val _ _ _ Hv Hi). apply IH; [lia| |by apply valid_child|done].
      intros l' k x Hl'. apply Hst. lia. }
  exists out. split; [exact Eo|].
  assert (Hex : forall (Q : Z -> Prop), Exists Q (btree_iter (node_at c ps l nk)).*1 <-> exists i, is_Some (node_at c ps l nk !! i) /\ Q i).
  { intros Q. rewrite list.Exists_exists. split.
    - intros (i & ([j ch] & -> & Hin%elem_of_btree_iter)%list_elem_of_fmap & Hq). exists j. split; [by eexists|done].
    - intros (i & [ch Hch] & Hq). exists i. split; [|done]. apply list_elem_of_fmap. exists (i, ch). by rewrite elem_of_btree_iter. }
  apply (adds_weaken _ _ (fun k => Exists (fun i => child_p l nk i k) (btree_iter (node_at c ps l nk)).*1)
    (fun l' k => (l' = l /\ k = nk) \/ Exists (fun i => child_n l nk i l' k) (btree_iter (node_at c ps l nk)).*1)); [apply _|apply _|..].
  - refine (adds_trans ps (canon c ps) (fun _ => False) (fun l' k => l' = l /\ k = nk) _ _ _ _ acc _ out _ Ha _ _).
    + split_and!; cbn; try done.
      * intros l' k [-> ->]. rewrite lookup_insert_eq, Hc. by destruct (acc.2 !! _).
      * intros l' k Hne. rewrite lookup_insert_ne; [done|]. intros [= -> ->]. by apply Hne.
    + tauto.
    + tauto.
  - intros k (i & Hi & Hq)%Hex. eapply child_p_under, Hq. by eapply node_index.
  - intros l' k [[-> ->]|(i & Hi & Hq)%Hex]; [split; [lia|apply anc_refl]|]. eapply child_n_under, Hq. by eapply node_index.
  - intros k Hu Hn. destruct (ps !! k) as [x|] eqn:Ex; [|done]. exfalso. apply Hn, Hex.
    eapply page_child; eauto.
  - intros l' k Hu Hn. destruct (canon c ps l' k) as [x|] eqn:Ex; [|done]. exfalso. apply Hn.
    destruct (decide (l' = l)) as [->|Hne]; [left|right; apply Hex].
    + split; [done|]. destruct Hu as [_ Hu]. by rewrite anc_refl in Hu.
    + eapply node_child; eauto.
Qed.
End index.
