(* ===== verification/PagerCommit.v ===== *)
(** What a commit of [Pager] leaves behind: the invariant every operation
    keeps, the root id as a function of the page map alone, and the pager that
    opening the root gives back. *)

From S2P Require Import Prelude Crypto Pager PagerIndex.

Open Scope Z_scope.

#[local] Arguments children_of : simpl never.
#[local] Opaque children_of.

Section commit.
Context `{Blake3} `{DekCipherLaws} `{PostcardLaws NodeMap} `{PostcardLaws RootIndex}.
Context (blake3_inj : forall a b, blake3 a = blake3 b -> a = b).

(** ** Invariant *)

Record pager_ok (p : Pager) : Prop := {
  po_store : store_ok (store p);
  po_depth : (depth p <= 4)%nat;
  po_count : 0 <= page_count p <= U32_MAX;
  po_pages : forall k, is_Some (pages p !! k) -> 0 <= k < page_count p;
  po_dirty : forall k, is_Some (dirty p !! k) -> 0 <= k < page_count p;
  po_index : forall k, k ∈ dirty_index p -> 0 <= k <= U32_MAX;
  po_marked : forall k, is_Some (dirty p !! k) -> k ∈ dirty_index p;
  po_nodes : forall l nk, (l < depth p)%nat -> valid l nk -> clean (dirty_index p) l nk -> node_good p l nk
}.

Lemma create_ok s : store_ok s -> pager_ok (create s).
Proof.
  intros Hs. constructor; cbn; try done; try (intros k; rewrite ?lookup_empty; by intros []).
  - lia.
  - intros l nk Hl. lia.
Qed.

Lemma node_good_ext p p' l nk :
  cipher p' = cipher p -> node_cids p' = node_cids p ->
  (forall cid b, store_get (store p) cid = Some b -> store_get (store p') cid = Some b) ->
  valid l nk -> (forall k, k / span l = nk -> pages p !! k = pages p' !! k) ->
  node_good p l nk -> node_good p' l nk.
Proof.
  intros Ec En Hs Hv Hp [Hn Hst]. unfold node_good.
  destruct (canon_ext (cipher p) (pages p) (pages p') l nk Hv Hp) as [Ea Eb]. rewrite Ec, En, <- Ea, <- Eb. auto.
Qed.

Lemma write_page_ok p n d p' : pager_ok p -> 0 <= n <= U32_MAX -> write_page p n d = Some p' -> pager_ok p'.
Proof.
  intros [] Hn. unfold write_page. destruct (Z.eqb_spec n U32_MAX); [done|]. intros [= <-].
  constructor; cbn; try done.
  - lia.
  - intros k Hk. specialize (po_pages0 k Hk). lia.
  - intros k. rewrite lookup_insert_is_Some'. intros [<-|Hk]; [lia|]. specialize (po_dirty0 k Hk). lia.
  - intros k [->%elem_of_singleton|Hk]%elem_of_union; [lia|auto].
  - intros k. rewrite lookup_insert_is_Some'. intros [<-|Hk]; set_solver.
  - intros l nk Hl Hv Hc. apply (node_good_ext p); try done. apply po_nodes0; [done..|].
    intros k Hk. apply Hc. set_solver.
Qed.

Lemma set_page_count_ok p n : pager_ok p -> 0 <= n <= U32_MAX -> pager_ok (set_page_count p n).
Proof.
  intros [] Hn. constructor; cbn; try done.
  - intros k [x [Hx Hk]%map_lookup_filter_Some]. cbn in Hk. destruct (po_pages0 k); [by eexists|lia].
  - intros k [x [Hx Hk]%map_lookup_filter_Some]. cbn in Hk. destruct (po_dirty0 k); [by eexists|lia].
  - intros k [Hk|Hk]%elem_of_union; [|auto].
    apply elem_of_dom in Hk as [x [Hx Hk]%map_lookup_filter_Some]. destruct (po_pages0 k); [by eexists|lia].
  - intros k [x [Hx Hk]%map_lookup_filter_Some]. apply elem_of_union_r, po_marked0. by eexists.
  - intros l nk Hl Hv Hc. apply (node_good_ext p); try done.
    + intros k Hk. cbn. destruct (pages p !! k) as [x|] eqn:Ex; symmetry.
      * apply map_lookup_filter_Some. split; [done|]. cbn. destruct (decide (k < n)) as [?|Hge]; [done|]. exfalso.
        eapply Hc, Hk. apply elem_of_union_l, elem_of_dom. exists x. apply map_lookup_filter_Some. cbn. split; [done|lia].
      * apply map_lookup_filter_None. by left.
    + apply po_nodes0; [done..|]. intros k Hk. apply Hc. set_solver.
Qed.

Lemma with_store_ok p s :
  pager_ok p -> store_ok s -> (forall cid b, store_get (store p) cid = Some b -> store_get s cid = Some b) ->
  pager_ok (with_store p s).
Proof.
  intros [] Hs Hm. constructor; cbn; try done. intros l nk Hl Hv Hc. by apply (node_good_ext p); auto.
Qed.

(** Reading fetches at most one object into the store. *)
Lemma read_page_state p n : let p' := (read_page p n).2 in p' = p \/ exists b, p' = with_store p (store_put (store p) b).2.
Proof.
  unfold read_page, object. destruct (dirty p !! n); [by left|]. destruct (pages p !! n) as [cid|]; [|by left].
  destruct (store_get _ _); [by left|]. destruct (remote p) as [f|]; [|by left].
  destruct (f cid) as [b|]; [right; by exists b|by left].
Qed.

Lemma read_page_ok p n : pager_ok p -> pager_ok (read_page p n).2.
Proof.
  intros Hp. destruct (read_page_state p n) as [->|[b ->]]; [done|]. pose proof (po_store p Hp) as Hs.
  apply with_store_ok; [done|by apply store_put_ok|]. intros. by apply store_put_mono.
Qed.

Lemma write_at_ok p buf off p' : pager_ok p -> write_at p buf off = Some p' -> pager_ok p'.
Proof.
  unfold write_at. generalize (length buf) as fuel. intros fuel. revert p buf off.
  induction fuel as [|fuel IH]; intros p buf off Hp; cbn [write_loop]; [by intros [= <-]|].
  destruct buf as [|b buf]; [by intros [= <-]|].
  pose proof (read_page_ok p (as_u32 (off / PAGE_SIZE)) Hp) as Hr.
  destruct (read_page p (as_u32 (off / PAGE_SIZE))) as [pd p1]. intros (p2 & Hw & He)%bind_Some.
  eapply IH, He. eapply write_page_ok, Hw; [done|]. unfold as_u32, U32_MAX. pose proof (Z.mod_pos_bound (off / PAGE_SIZE) 4294967296). lia.
Qed.

(** ** Flushing *)

(** The object of a page, and the page map a flush leaves. *)
Definition page_object (c : option Dek) (d : bytes) : bytes :=
  match c with Some dek => seal_deterministic dek d | None => d end.
Definition page_cid (p : Pager) (k : Z) : option key :=
  match dirty p !! k with Some d => Some (Cid_of (page_object (cipher p) d)) | None => pages p !! k end.

Record flushed (p p' : Pager) (ds : gmap Z bytes) : Prop := {
  fl_eq : p' = mk_pager (store p') (pages p') (dirty p) (dirty_index p) (node_cids p) (page_count p) (depth p) (remote p) (cipher p) (wrapped_dek p);
  fl_ok : store_ok (store p');
  fl_mono : forall cid b, store_get (store p) cid = Some b -> store_get (store p') cid = Some b;
  fl_pages : forall k, pages p' !! k = match ds !! k with Some d => Some (Cid_of (page_object (cipher p) d)) | None => pages p !! k end;
  fl_stored : forall k d, ds !! k = Some d ->
    store_get (store p') (Cid_of (page_object (cipher p) d)) = Some (page_object (cipher p) d)
}.

Lemma flush_page_flushed p k d : store_ok (store p) -> flushed p (flush_page p (k, d)) {[k := d]}.
Proof.
  intros Hs. unfold flush_page. rewrite (surjective_pairing (store_put _ _)), store_put_cid. cbn [fst snd].
  fold (page_object (cipher p) d). constructor; cbn.
  - done.
  - by apply store_put_ok.
  - intros. by apply store_put_mono.
  - intros x. destruct (decide (x = k)) as [->|Hne]; [by rewrite lookup_insert_eq, lookup_singleton_eq|].
    by rewrite lookup_insert_ne, lookup_singleton_ne by congruence.
  - intros x y [-> ->]%lookup_singleton_Some. by apply store_put_get.
Qed.

Lemma flush_fold p l :
  store_ok (store p) -> NoDup l.*1 -> flushed p (foldl flush_page p l) (list_to_map l).
Proof.
  revert p. induction l as [|[k d] l IH]; intros p Hs Hnd; cbn [foldl].
  - destruct p. constructor; cbn; try done; intros ? ?; by rewrite ?lookup_empty.
  - apply list.NoDup_cons in Hnd as [Hk Hnd].
    destruct (flush_page_flushed p k d Hs) as [E1 O1 M1 P1 S1].
    destruct (IH (flush_page p (k, d)) O1 Hnd) as [E2 O2 M2 P2 S2].
    assert (Ec : cipher (flush_page p (k, d)) = cipher p) by by rewrite E1. rewrite Ec in *.
    constructor; [by rewrite E2, E1|done|auto|..].
    + intros x. rewrite P2, P1, list_to_map_cons. destruct (decide (x = k)) as [->|Hne].
      * rewrite lookup_insert_eq, lookup_singleton_eq. apply not_elem_of_list_to_map_1 in Hk. cbn [fst] in Hk. by rewrite Hk.
      * by rewrite lookup_insert_ne, lookup_singleton_ne by congruence.
    + intros x y. rewrite list_to_map_cons. intros [[<- <-]|[Hne Hl]]%lookup_insert_Some; [|by apply (S2 x)].
      apply M2, (S1 k). apply lookup_singleton_eq.
Qed.

Lemma flush_spec p : store_ok (store p) -> flushed p (foldl flush_page p (map_to_list (dirty p))) (dirty p).
Proof.
  intros Hs. pose proof (flush_fold p (map_to_list (dirty p)) Hs (NoDup_fst_map_to_list _)) as Hf.
  by rewrite list_to_map_to_list in Hf.
Qed.

(** ** Depth *)

Lemma depth_for_spec n :
  0 <= n <= U32_MAX -> (depth_for n <= 4)%nat /\ n <= 256 ^ Z.of_nat (depth_for n) /\ (depth_for n = O <-> n = 0).
Proof.
  intros Hn. unfold U32_MAX in Hn. unfold depth_for. destruct (Z.eqb_spec n 0) as [->|H0']; [split_and!; cbn; lia|].
  cbn [depth_loop]. unfold FANOUT. do 4 (try case Z.ltb_spec; intros); split_and!; cbn; lia.
Qed.

(** ** Committing *)

(** The root object of a page map. *)
Definition top_cid (c : option Dek) (ps : gmap Z key) (d : nat) : key :=
  match d with O => key_of 0 | S l => default (key_of 0) (canon c ps l 0) end.
Definition root_of (c : option Dek) (ps : gmap Z key) (n : Z) (w : bytes) : RootIndex :=
  mk_root n (depth_for n) (top_cid c ps (depth_for n)) w.

Record committed (p p' : Pager) (root : key) : Prop := {
  cm_eq : p' = mk_pager (store p') (pages p') ∅ ∅ (node_cids p') (page_count p) (depth_for (page_count p))
    (remote p) (cipher p) (wrapped_dek p);
  cm_ok : store_ok (store p');
  cm_mono : forall cid b, store_get (store p) cid = Some b -> store_get (store p') cid = Some b;
  cm_pages : forall k, pages p' !! k = page_cid p k;
  cm_stored : forall k d, dirty p !! k = Some d ->
    store_get (store p') (Cid_of (page_object (cipher p) d)) = Some (page_object (cipher p) d);
  cm_goods : goods p' (depth_for (page_count p));
  cm_root : root = Cid_of (to_allocvec (root_of (cipher p) (pages p') (page_count p) (wrapped_dek p)));
  cm_get : store_get (store p') root = Some (to_allocvec (root_of (cipher p) (pages p') (page_count p) (wrapped_dek p)))
}.

Lemma goods_ext p p' n :
  cipher p' = cipher p -> node_cids p' = node_cids p -> pages p' = pages p ->
  (forall cid b, store_get (store p) cid = Some b -> store_get (store p') cid = Some b) ->
  goods p n -> goods p' n.
Proof. intros Ec En Ep Hs Hg l nk Hl Hv. apply (node_good_ext p); auto. by rewrite Ep. Qed.

(** The index a commit rebuilds from. *)
Definition start (p : Pager) : gset Z * Pager :=
  if bool_decide (depth_for (page_count p) <> depth p) then (dom (pages p), with_depth p (depth_for (page_count p)) ∅)
  else (dirty_index p, with_depth p (depth p) (node_cids p)).

Lemma start_eq p :
  (start p).2 = mk_pager (store p) (pages p) (dirty p) ∅ (node_cids (start p).2) (page_count p) (depth_for (page_count p))
    (remote p) (cipher p) (wrapped_dek p).
Proof. unfold start. case_bool_decide as E; [done|]. cbn. unfold with_depth. by destruct (decide (depth_for (page_count p) = depth p)) as [->|]. Qed.

Lemma start_clean p l nk :
  (forall l nk, (l < depth p)%nat -> valid l nk -> clean (dirty_index p) l nk -> node_good p l nk) ->
  (l < depth_for (page_count p))%nat -> valid l nk -> clean (start p).1 l nk -> node_good (start p).2 l nk.
Proof.
  intros Hn Hl Hv. unfold start. case_bool_decide as E; cbn [fst snd].
  - intros Hc. unfold node_good. cbn -[canon]. rewrite (canon_none (cipher p) (pages p) l nk Hv).
    + by rewrite lookup_empty.
    + intros k Hk. destruct (pages p !! k) eqn:Ek; [|done]. destruct (Hc k); [|done]. apply elem_of_dom. by eexists.
  - intros Hc. destruct (decide (depth_for (page_count p) = depth p)) as [Ed|]; [|done]. apply (node_good_ext p); try done.
    apply Hn; [lia|done..].
Qed.

Lemma top_of_goods p :
  (depth p <= 4)%nat -> goods p (depth p) ->
  match depth p with O => key_of 0 | S l => default (key_of 0) (node_cids p !! (l, 0)) end = top_cid (cipher p) (pages p) (depth p).
Proof.
  intros Hd Hg. unfold top_cid. destruct (depth p) as [|l] eqn:E; [done|].
  destruct (Hg l 0) as [-> _]; [lia| |done]. split; [lia|]. split; [done|]. apply Z.pow_pos_nonneg; lia.
Qed.

Lemma commit_spec p : pager_ok p -> committed p (commit p).2 (commit p).1.
Proof.
  intros Hp. pose proof (flush_spec p (po_store p Hp)) as Hf. unfold commit, flush. cbv zeta.
  set (p0 := foldl flush_page p (map_to_list (dirty p))) in *. destruct Hf as [E0 O0 M0 P0 S0].
  set (p1 := mk_pager _ _ ∅ _ _ _ _ _ _ _). fold (start p1).
  assert (E1 : p1 = mk_pager (store p0) (pages p0) ∅ (dirty_index p) (node_cids p) (page_count p) (depth p) (remote p) (cipher p) (wrapped_dek p)).
  { unfold p1. by rewrite E0. }
  assert (Hn : forall l nk, (l < depth p1)%nat -> valid l nk -> clean (dirty_index p1) l nk -> node_good p1 l nk).
  { rewrite E1. cbn. intros l nk Hl Hv Hc. apply (node_good_ext p); try done; [|by apply (po_nodes p Hp)].
    intros k Hk. cbn. rewrite P0. destruct (dirty p !! k) as [d|] eqn:Ed; [|done]. exfalso.
    apply (Hc k); [|done]. apply (po_marked p Hp). by eexists. }
  pose proof (start_clean p1) as Hc. specialize (start_eq p1) as Es.
  assert (Hb : forall k, k ∈ (start p1).1 -> 0 <= k <= U32_MAX).
  { intros k. unfold start. case_bool_decide; cbn [fst]; rewrite E1; cbn.
    - intros [x Hx]%elem_of_dom. rewrite P0 in Hx. pose proof (po_count p Hp).
      destruct (dirty p !! k) eqn:Ed; [destruct (po_dirty p Hp k)|destruct (po_pages p Hp k)]; try (by eexists); lia.
    - apply (po_index p Hp). }
  destruct (start p1) as [changed p2]. cbn [fst snd] in *.
  destruct (depth_for_spec (page_count p) (po_count p Hp)) as (Hd & _ & _).
  assert (Ep1 : page_count p1 = page_count p) by by rewrite E1.
  assert (Ed2 : depth p2 = depth_for (page_count p)) by by rewrite Es, E1.
  destruct (rebuild_good blake3_inj p2 changed) as [[Er Or Mr] Hg].
  { by rewrite Es, E1. } { by rewrite Ed2. } { done. }
  { intros l nk Hl Hv Hcl. apply Hc; [done| |done..]. rewrite Ep1. by rewrite Ed2 in Hl. }
  assert (E3 : rebuild p2 changed = mk_pager (store (rebuild p2 changed)) (pages p0) ∅ ∅ (node_cids (rebuild p2 changed)) (page_count p)
    (depth_for (page_count p)) (remote p) (cipher p) (wrapped_dek p)).
  { rewrite Er at 1. unfold with_nodes. by rewrite Es, E1. }
  generalize dependent (rebuild p2 changed). intros p3 Er Or Mr Hg E3.
  assert (Ed3 : depth p3 = depth p2) by by rewrite E3, Ed2.
  rewrite (top_of_goods p3) by (rewrite Ed3; first [done | by rewrite Ed2]).
  assert (M2 : forall cid b, store_get (store p) cid = Some b -> store_get (store p3) cid = Some b).
  { intros. apply Mr. rewrite Es, E1. by apply M0. }
  assert (S2 : forall k d, dirty p !! k = Some d -> store_get (store p3) (Cid_of (page_object (cipher p) d)) = Some (page_object (cipher p) d)).
  { intros k d Hk. apply Mr. rewrite Es, E1. by apply (S0 k). }
  clear - E3 Or M2 S2 Hg P0 Ed2 blake3_inj.
  rewrite (surjective_pairing (store_put _ _)), store_put_cid. cbn [fst snd]. rewrite Ed2 in Hg.
  assert (Eroot : mk_root (page_count p3) (depth p3) (top_cid (cipher p3) (pages p3) (depth p3)) (wrapped_dek p3) =
    root_of (cipher p) (pages p3) (page_count p) (wrapped_dek p)) by by rewrite E3.
  rewrite Eroot. constructor; cbn [with_store store pages node_cids].
  - rewrite E3. done.
  - by apply store_put_ok.
  - intros. by apply store_put_mono; auto.
  - intros k. rewrite E3. cbn. by rewrite P0.
  - intros k d Hk. apply store_put_mono; [done..|]. by apply (S2 k).
  - apply (goods_ext p3); try done. intros. by apply store_put_mono.
  - done.
  - by apply store_put_get.
Qed.

(** ** Reopening *)

Lemma anc_page l l' x : (l' <= l)%nat -> anc l l' (x / span l') = x / span l.
Proof.
  induction 1 as [|l Hl IH]; [apply anc_refl|]. rewrite anc_S, IH by done. by rewrite div_span_S.
Qed.

Lemma span_depth l : span l = 256 ^ Z.of_nat (S l).
Proof. unfold span. f_equal. lia. Qed.

Lemma load_root s c ps l cid :
  (l <= 3)%nat -> (forall k, is_Some (ps !! k) -> 0 <= k < span l) -> stored_upto s c ps l -> canon c ps l 0 = Some cid ->
  exists ns, load_subtree s c l 0 cid (∅, ∅) = Ok (ps, ns) /\
    forall l' k, (l' <= l)%nat -> valid l' k -> ns !! (l', k) = canon c ps l' k.
Proof.
  intros Hl Hps Hst Hc. assert (Hv : valid l 0) by (split; [done|]; split; [done|]; apply Z.pow_pos_nonneg; lia).
  destruct (load_subtree_ok s c ps l 0 cid (∅, ∅) Hst Hv Hc) as ([ps' ns] & -> & A1 & A2 & A3 & A4). cbn in *.
  assert (Hu : forall k, is_Some (ps !! k) -> under_p l 0 k) by (intros k Hk; apply Z.div_small; auto).
  exists ns. split.
  - do 2 f_equal. apply map_eq. intros k. destruct (decide (under_p l 0 k)) as [Hk|Hk].
    + rewrite A1, lookup_empty by done. by destruct (ps !! k).
    + rewrite A2, lookup_empty by done. destruct (ps !! k) eqn:E; [|done]. destruct Hk. apply Hu. by eexists.
  - intros l' k Hl' Hk. destruct (decide (under_n l 0 l' k)) as [Hn|Hn].
    + rewrite A3, lookup_empty by done. by destruct (canon c ps l' k).
    + rewrite A4, lookup_empty by done. symmetry. apply canon_none; [done|]. intros x <-.
      destruct (ps !! x) eqn:E; [|done]. destruct Hn. split; [done|]. rewrite anc_page by done. apply Hu. by eexists.
Qed.

(** A commit whose root can be opened: a database of no page, or with one. *)
Definition has_page (p : Pager) : Prop := page_count p = 0 \/ exists k, is_Some (page_cid p k).

Lemma page_cid_range p k : pager_ok p -> is_Some (page_cid p k) -> 0 <= k < page_count p.
Proof.
  intros Hp [x Hx]. unfold page_cid in Hx. destruct (dirty p !! k) eqn:E.
  - apply (po_dirty p Hp). by eexists.
  - apply (po_pages p Hp). by eexists.
Qed.

Lemma commit_pages_range p p' root l k :
  pager_ok p -> committed p p' root -> depth_for (page_count p) = S l -> is_Some (pages p' !! k) -> 0 <= k < span l.
Proof.
  intros Hp Hc El. rewrite (cm_pages _ _ _ Hc). intros Hk%page_cid_range; [|done].
  destruct (depth_for_spec (page_count p) (po_count p Hp)) as (_ & Hn & _). rewrite El, <- span_depth in Hn. lia.
Qed.

Lemma committed_stored p p' root l : committed p p' root -> depth_for (page_count p) = S l -> stored_upto (store p') (cipher p) (pages p') l.
Proof.
  intros Hc El l' k cid Hl Hv Hs. assert (Ec : cipher p = cipher p') by by rewrite (cm_eq _ _ _ Hc).
  destruct (cm_goods _ _ _ Hc l' k) as [_ Hg]; [lia|done|]. rewrite Ec in *. auto.
Qed.

Lemma committed_top p p' root l :
  pager_ok p -> has_page p -> committed p p' root -> depth_for (page_count p) = S l -> is_Some (canon (cipher p) (pages p') l 0).
Proof.
  intros Hp Hh Hc El. destruct (depth_for_spec (page_count p) (po_count p Hp)) as (Hd & _ & H0').
  destruct Hh as [E|[k Hk]]; [apply H0' in E; congruence|].
  rewrite <- (cm_pages _ _ _ Hc) in Hk. pose proof (commit_pages_range _ _ _ _ _ Hp Hc El Hk) as Hr.
  rewrite <- (Z.div_small k (span l)) by done. apply canon_some; [lia| |done].
  rewrite (Z.div_small k (span l)) by done. split; [lia|]. split; [done|]. apply Z.pow_pos_nonneg; lia.
Qed.

Lemma open_committed p :
  pager_ok p -> has_page p ->
  let p' := (commit p).2 in
  exists ns, open (store p') (commit p).1 (cipher p) =
    Ok (mk_pager (store p') (pages p') ∅ ∅ ns (page_count p) (depth_for (page_count p)) None (cipher p) (wrapped_dek p)) /\
    forall l k, (l < depth_for (page_count p))%nat -> valid l k -> ns !! (l, k) = canon (cipher p) (pages p') l k.
Proof.
  intros Hp Hh p'. pose proof (commit_spec p Hp) as Hc. fold p' in Hc. unfold open.
  rewrite (cm_get _ _ _ Hc). unfold decode_root. rewrite postcard_roundtrip. unfold root_of. cbn [ri_depth root_cid ri_page_count ri_wrapped_dek].
  destruct (depth_for_spec (page_count p) (po_count p Hp)) as (Hd & Hn & H0').
  destruct (depth_for (page_count p)) as [|l] eqn:El.
  - exists ∅. split; [|intros; lia]. do 2 f_equal. apply map_eq. intros k. rewrite lookup_empty.
    destruct (pages p' !! k) eqn:Ek; [|done]. rewrite (cm_pages _ _ _ Hc) in Ek.
    destruct (page_cid_range p k Hp); [by eexists|]. destruct H0' as [H0' _]. specialize (H0' eq_refl). lia.
  - destruct (committed_top p p' _ l Hp Hh Hc El) as [cid Ecid]. cbn [top_cid]. rewrite Ecid. change (default (key_of 0) (Some cid)) with cid.
    destruct (load_root (store p') (cipher p) (pages p') l cid) as (ns & El' & Hns); [lia| | |done|].
    + intros k. by eapply commit_pages_range.
    + by eapply committed_stored.
    + rewrite El'. exists ns. split; [done|]. intros l' k Hl. apply Hns. lia.
Qed.
End commit.
