(* ===== verification/PagerFile.v ===== *)
(** The theorems of [Pager]: what reopening a committed root gives, what the
    root id binds, the byte file that [read_at] and [write_at] implement, and
    page generations. *)

From S2P Require Import Prelude Crypto Pager PagerIndex PagerCommit.

Open Scope Z_scope.

#[local] Arguments children_of : simpl never.
#[local] Opaque children_of.

Section file.
Context `{Blake3} `{DekCipherLaws} `{PostcardLaws NodeMap} `{PostcardLaws RootIndex}.

(** Every page is in the store. *)
Definition local (p : Pager) : Prop := forall k cid, pages p !! k = Some cid -> is_Some (store_get (store p) cid).

(** The pagers a program gets by opening what it committed and by calling the
    operations; the key is set before the first page. *)
Inductive Running : Pager -> Prop :=
  | R_create s : store_ok s -> Running (create s)
  | R_open p q : Running p -> has_page p -> open (store (commit p).2) (commit p).1 (cipher p) = Ok q -> Running q
  | R_cipher p d : Running p -> depth p = O -> pages p = ∅ -> Running (set_cipher p d)
  | R_wrapped p w : Running p -> Running (set_wrapped_dek p w)
  | R_remote p f : Running p -> Running (set_remote p f)
  | R_read p n : Running p -> Running (read_page p n).2
  | R_write p n d p' : Running p -> 0 <= n <= U32_MAX -> write_page p n d = Some p' -> Running p'
  | R_resize p n : Running p -> 0 <= n <= U32_MAX -> Running (set_page_count p n)
  | R_commit p : Running p -> Running (commit p).2.

(** ** Reading *)

Lemma read_local p n : local p -> (read_page p n).2 = p.
Proof.
  intros Hl. unfold read_page, object. destruct (dirty p !! n); [done|]. destruct (pages p !! n) as [cid|] eqn:E; [|done].
  destruct (Hl n cid E) as [b ->]. done.
Qed.

(** The content of a page of a local pager. *)
Definition content (p : Pager) (n : Z) : bytes :=
  match dirty p !! n with
  | Some d => pad d
  | None => match pages p !! n ≫= store_get (store p) with
      | Some b => pad (open_page (cipher p) b)
      | None => replicate (Z.to_nat PAGE_SIZE) 0
      end
  end.

Lemma read_content p n : local p -> read_page p n = (content p n, p).
Proof.
  intros Hl. unfold read_page, object, content. destruct (dirty p !! n); [done|].
  destruct (pages p !! n) as [cid|] eqn:E; [|done]. destruct (Hl n cid E) as [b Hb]. cbn [mbind option_bind]. by rewrite Hb.
Qed.

Lemma open_object c d : open_page c (page_object c d) = d.
Proof. unfold open_page, page_object. destruct c; [by rewrite open_seal|done]. Qed.

Context (blake3_inj : forall a b, blake3 a = blake3 b -> a = b).

Lemma commit_content p p' root q n :
  committed p p' root -> local p -> store q = store p' -> pages q = pages p' -> dirty q = ∅ -> cipher q = cipher p ->
  content q n = content p n.
Proof.
  intros Hc Hl Es Ep Ed Ec. unfold content. rewrite Es, Ep, Ed, Ec, lookup_empty, (cm_pages _ _ _ Hc). unfold page_cid.
  destruct (dirty p !! n) as [d|] eqn:E; cbn [mbind option_bind].
  - rewrite (cm_stored _ _ _ Hc n d E). by rewrite open_object.
  - destruct (pages p !! n) as [cid|] eqn:Ecid; [|done]. cbn [mbind option_bind]. destruct (Hl n cid Ecid) as [b Hb].
    by rewrite Hb, (cm_mono _ _ _ Hc cid b Hb).
Qed.

Lemma commit_local p p' root : committed p p' root -> local p -> local p'.
Proof.
  intros Hc Hl k cid. rewrite (cm_pages _ _ _ Hc). unfold page_cid. destruct (dirty p !! k) as [d|] eqn:E.
  - intros [= <-]. eexists. by apply (cm_stored _ _ _ Hc k).
  - intros Hk. destruct (Hl k cid Hk) as [b Hb]. eexists. by apply (cm_mono _ _ _ Hc).
Qed.

(** ** The operations keep the invariant *)

Lemma committed_pager_ok p p' root ns :
  pager_ok p -> committed p p' root ->
  (forall l k, (l < depth_for (page_count p))%nat -> valid l k -> ns !! (l, k) = canon (cipher p) (pages p') l k) ->
  pager_ok (mk_pager (store p') (pages p') ∅ ∅ ns (page_count p) (depth_for (page_count p)) None (cipher p) (wrapped_dek p)).
Proof.
  intros Hp Hc Hns. constructor; cbn.
  - apply Hc.
  - by apply depth_for_spec, Hp.
  - apply Hp.
  - intros k. rewrite (cm_pages _ _ _ Hc). by apply page_cid_range.
  - intros k. rewrite lookup_empty. by intros [].
  - intros k. by intros ?%elem_of_empty.
  - intros k. rewrite lookup_empty. by intros [].
  - intros l nk Hl Hv _. split; cbn -[canon]; [by apply Hns|].
    destruct (cm_goods _ _ _ Hc l nk Hl Hv) as [_ Hg]. assert (Ec : cipher p' = cipher p) by by rewrite (cm_eq _ _ _ Hc).
    by rewrite Ec in Hg.
Qed.

Lemma committed_ok p p' root : pager_ok p -> committed p p' root -> pager_ok p'.
Proof.
  intros Hp Hc. pose proof (cm_eq _ _ _ Hc) as E.
  destruct (committed_pager_ok p p' root (node_cids p') Hp Hc) as [].
  { intros l k Hl Hv. assert (Ec : cipher p' = cipher p) by by rewrite E. rewrite <- Ec. by apply (cm_goods _ _ _ Hc). }
  rewrite E. by constructor.
Qed.

Lemma pager_ok_ext p p' :
  pager_ok p -> store p' = store p -> pages p' = pages p -> dirty p' = dirty p -> dirty_index p' = dirty_index p ->
  node_cids p' = node_cids p -> page_count p' = page_count p -> depth p' = depth p -> (depth p <> O -> cipher p' = cipher p) ->
  pager_ok p'.
Proof.
  intros [] E1 E2 E3 E4 E5 E6 E7 E8. constructor; rewrite ?E1, ?E2, ?E3, ?E4, ?E6, ?E7; try done.
  intros l nk Hl Hv Hc. assert (Hd : depth p <> O) by lia. apply (node_good_ext p); auto; [intros; by rewrite E1|by rewrite E2].
Qed.

Lemma running_ok p : Running p -> pager_ok p /\ local p.
Proof.
  induction 1 as [s Hs|p q _ [Hp Hl] Hh Ho|p d _ [Hp Hl] Hd He|p w _ [Hp Hl]|p f _ [Hp Hl]|p n _ [Hp Hl]|p n d p' _ [Hp Hl] Hn Hw|p n _ [Hp Hl] Hn|p _ [Hp Hl]].
  - split; [by apply create_ok|]. intros k cid. cbn. by rewrite lookup_empty.
  - destruct (open_committed blake3_inj p Hp Hh) as (ns & Eo & Hns). rewrite Eo in Ho. injection Ho as <-.
    split; [by eapply committed_pager_ok; [|apply commit_spec|]|]. pose proof (commit_local p _ _ (commit_spec blake3_inj p Hp) Hl) as Hl'. exact Hl'.
  - split; [by eapply pager_ok_ext; eauto|]. intros k cid. cbn. by rewrite He, lookup_empty.
  - split; [by eapply pager_ok_ext|done].
  - split; [by eapply pager_ok_ext|done].
  - rewrite read_local by done. done.
  - split; [by eapply write_page_ok|]. unfold write_page in Hw. destruct (n =? U32_MAX); [done|]. by injection Hw as <-.
  - split; [by apply set_page_count_ok|]. intros k cid [Hk _]%map_lookup_filter_Some. by apply Hl in Hk.
  - split; [by eapply committed_ok, commit_spec|by eapply commit_local; [apply commit_spec|]].
Qed.

(** C7: Committing and reopening gives the database back.  For every pager
    reached by creating, opening what was committed, writing, resizing,
    reading, keying and committing, whose page map is not a run of holes, the
    root [commit] returns can be opened with the data key, and the pager
    opened has the same page count and the same bytes on every page as the
    pager had before the commit. *)
Theorem commit_then_open (p : Pager) :
  Running p -> has_page p ->
  exists q, open (store (commit p).2) (commit p).1 (cipher p) = Ok q /\ Running q /\
    page_count q = page_count p /\ wrapped_dek q = wrapped_dek p /\
    forall n, (read_page q n).1 = (read_page p n).1.
Proof.
  intros Hr Hh. destruct (running_ok p Hr) as [Hp Hl].
  destruct (open_committed blake3_inj p Hp Hh) as (ns & Eo & Hns). eexists. split; [exact Eo|].
  pose proof (R_open p _ Hr Hh Eo) as Hq. split; [exact Hq|]. split; [done|]. split; [done|]. intros n.
  rewrite (read_content p n Hl), read_content by apply (running_ok _ Hq). cbn [fst].
  by eapply commit_content; [apply commit_spec|..].
Qed.

(** ** What the root binds *)

Lemma seal_index_inj c x y : seal_index c x = seal_index c y -> x = y.
Proof.
  unfold seal_index. destruct c as [d|]; [|done]. intros E%(f_equal (dek_open d)). rewrite !open_seal in E. congruence.
Qed.

Lemma node_at_inj c ps ps' l nk : canon c ps l nk = canon c ps' l nk -> node_at c ps l nk = node_at c ps' l nk.
Proof.
  rewrite !canon_node. do 2 case_bool_decide; try congruence.
  intros E%(inj Some). exact (to_allocvec_inj _ _ (seal_index_inj c _ _ (blake3_inj _ _ E))).
Qed.

Lemma canon_inj c ps ps' l nk :
  valid l nk -> canon c ps l nk = canon c ps' l nk -> forall k, k / span l = nk -> ps !! k = ps' !! k.
Proof.
  revert nk. induction l as [|l IH]; intros nk Hv E%node_at_inj k Hk.
  - change (span 0) with 256 in Hk. destruct (split_256 k) as [Ek Hm].
    apply (f_equal (fun m : NodeMap => m !! (k mod 256))) in E.
    rewrite !node_lookup_0, !decide_True, <- Hk, <- Ek in E by done. done.
  - destruct (child_div l k nk Hk) as [Ek Hm]. apply (f_equal (fun m : NodeMap => m !! ((k / span l) mod 256))) in E.
    rewrite !node_lookup_S, !decide_True, <- Ek in E by done. eapply IH; [|exact E|done].
    rewrite Ek. by apply valid_child.
Qed.

Lemma committed_pages_inj p1 p2 q1 q2 r1 r2 :
  pager_ok p1 -> pager_ok p2 -> has_page p1 -> has_page p2 -> committed p1 q1 r1 -> committed p2 q2 r2 ->
  page_count p1 = page_count p2 -> cipher p1 = cipher p2 ->
  top_cid (cipher p1) (pages q1) (depth_for (page_count p1)) = top_cid (cipher p1) (pages q2) (depth_for (page_count p1)) ->
  forall k, page_cid p1 k = page_cid p2 k.
Proof.
  intros Hp1 Hp2 Hh1 Hh2 C1 C2 En Ec Et k. rewrite <- (cm_pages _ _ _ C1), <- (cm_pages _ _ _ C2).
  destruct (depth_for_spec (page_count p1) (po_count p1 Hp1)) as (Hd & _ & Hz).
  destruct (depth_for (page_count p1)) as [|l] eqn:El.
  - rewrite (cm_pages _ _ _ C1), (cm_pages _ _ _ C2).
    assert (Hn : forall p, pager_ok p -> page_count p = 0 -> page_cid p k = None).
    { intros p Hp E0. destruct (page_cid p k) eqn:E; [|done]. destruct (page_cid_range p k Hp); [by eexists|lia]. }
    rewrite !Hn; try done; rewrite <- ?En; by apply Hz.
  - assert (El2 : depth_for (page_count p2) = S l) by by rewrite <- En.
    destruct (committed_top _ _ _ _ Hp1 Hh1 C1 El) as [c1 E1]. destruct (committed_top _ _ _ _ Hp2 Hh2 C2 El2) as [c2 E2].
    rewrite <- Ec in E2. unfold top_cid in Et. rewrite E1, E2 in Et. change (c1 = c2) in Et. subst c2.
    destruct (decide (0 <= k < span l)) as [Hk|Hk].
    + eapply (canon_inj (cipher p1) _ _ l 0); [|by rewrite E1, E2|by apply Z.div_small].
      split; [lia|]. split; [done|]. apply Z.pow_pos_nonneg; lia.
    + destruct (pages q1 !! k) eqn:Ea; [destruct Hk; eapply (commit_pages_range p1 q1); eauto; by eexists|].
      destruct (pages q2 !! k) eqn:Eb; [destruct Hk; eapply (commit_pages_range p2 q2); eauto; by eexists|done].
Qed.

(** The root id of a commit is the id of its contents.  Two pagers under
    the same data key (and neither a run of holes) commit to the same root id
    exactly when they have the same page count, the same wrapped key and the
    same page objects, whatever the operations and earlier commits that led to
    each; the id is that of the root of the tree built from the page map
    alone. *)
Theorem commit_root_binds_contents (p1 p2 : Pager) :
  Running p1 -> Running p2 -> has_page p1 -> has_page p2 -> cipher p1 = cipher p2 ->
  (commit p1).1 = Cid_of (to_allocvec (root_of (cipher p1) (pages (commit p1).2) (page_count p1) (wrapped_dek p1))) /\
  ((commit p1).1 = (commit p2).1 <->
    page_count p1 = page_count p2 /\ wrapped_dek p1 = wrapped_dek p2 /\ forall k, page_cid p1 k = page_cid p2 k).
Proof.
  intros R1 R2 Hh1 Hh2 Ec. destruct (running_ok p1 R1) as [Hp1 _]. destruct (running_ok p2 R2) as [Hp2 _].
  pose proof (commit_spec blake3_inj p1 Hp1) as C1. pose proof (commit_spec blake3_inj p2 Hp2) as C2.
  rewrite (cm_root _ _ _ C2). split; [exact (cm_root _ _ _ C1)|]. rewrite (cm_root _ _ _ C1), <- Ec. split.
  - intros [= En Ed Et Ew]%blake3_inj%to_allocvec_inj. split; [done|]. split; [done|]. rewrite Ed in Et.
    apply (committed_pages_inj p1 p2 _ _ _ _ Hp1 Hp2 Hh1 Hh2 C1 C2 En Ec). rewrite En. exact Et.
  - intros (En & Ew & Hk). rewrite En, Ew. do 3 f_equal. apply map_eq. intros k.
    by rewrite (cm_pages _ _ _ C1), (cm_pages _ _ _ C2).
Qed.

(** ** The byte file *)

(** The byte at an offset. *)
Definition byte_at (p : Pager) (o : Z) : Z := nth (Z.to_nat (o mod PAGE_SIZE)) (read_page p (o / PAGE_SIZE)).1 0.

#[local] Opaque PAGE_SIZE.

Lemma PAGE_SIZE_val : PAGE_SIZE = 16384.
Proof. reflexivity. Qed.

Lemma length_pad d : length (pad d) = Z.to_nat PAGE_SIZE.
Proof. unfold pad. rewrite length_app, length_take, length_replicate. lia. Qed.

Lemma pad_id d : length d = Z.to_nat PAGE_SIZE -> pad d = d.
Proof. intros E. unfold pad. rewrite <- E, Nat.sub_diag, firstn_all. apply app_nil_r. Qed.

Lemma nth_zeros i n : nth i (replicate n 0) 0 = 0.
Proof. revert i. induction n as [|n IH]; intros [|i]; try reflexivity. apply IH. Qed.

Lemma length_content p n : length (content p n) = Z.to_nat PAGE_SIZE.
Proof.
  unfold content. destruct (dirty p !! n); [apply length_pad|]. destruct (_ ≫= _); [apply length_pad|]. apply length_replicate.
Qed.

Lemma within_page pos i : 0 <= i -> pos mod PAGE_SIZE + i < PAGE_SIZE ->
  (pos + i) / PAGE_SIZE = pos / PAGE_SIZE /\ (pos + i) mod PAGE_SIZE = pos mod PAGE_SIZE + i.
Proof.
  intros Hi Hw. pose proof PAGE_SIZE_val as EP. pose proof (Z.mod_pos_bound pos PAGE_SIZE ltac:(lia)).
  pose proof (Z.div_mod pos PAGE_SIZE ltac:(lia)) as E.
  assert (Es : pos + i = PAGE_SIZE * (pos / PAGE_SIZE) + (pos mod PAGE_SIZE + i)) by lia.
  split; [symmetry; eapply Z.div_unique_pos; [|exact Es]; lia|symmetry; eapply Z.mod_unique_pos; [|exact Es]; lia].
Qed.

Lemma page_u32 o : 0 <= o < (U32_MAX + 1) * PAGE_SIZE -> as_u32 (o / PAGE_SIZE) = o / PAGE_SIZE.
Proof.
  intros Ho. pose proof PAGE_SIZE_val. unfold as_u32, U32_MAX in *. apply Z.mod_small. split; [apply Z.div_pos; lia|].
  apply Z.div_lt_upper_bound; lia.
Qed.

Lemma page_slice_bytes p pos n :
  local p -> 0 <= pos -> 0 <= n -> pos mod PAGE_SIZE + n <= PAGE_SIZE ->
  slice_at (content p (pos / PAGE_SIZE)) (pos mod PAGE_SIZE) n = map (byte_at p) (seqZ pos n).
Proof.
  intros Hl Hp Hn Hw. pose proof PAGE_SIZE_val. pose proof (Z.mod_pos_bound pos PAGE_SIZE ltac:(lia)).
  unfold slice_at. apply list_eq. intros i. rewrite list_lookup_fmap.
  destruct (decide (Z.of_nat i < n)) as [Hi|Hi].
  - rewrite lookup_take_lt, lookup_drop by lia. rewrite lookup_seqZ_lt by lia. cbn [fmap option_fmap option_map].
    unfold byte_at. destruct (within_page pos (Z.of_nat i)) as [-> ->]; [lia..|]. rewrite read_content by done. cbn [fst].
    replace (Z.to_nat (pos mod PAGE_SIZE + Z.of_nat i)) with (Z.to_nat (pos mod PAGE_SIZE) + i)%nat by lia.
    destruct (lookup_lt_is_Some_2 (content p (pos / PAGE_SIZE)) (Z.to_nat (pos mod PAGE_SIZE) + i)) as [x Hx].
    { rewrite length_content. lia. }
    rewrite Hx. f_equal. symmetry. by apply nth_lookup_Some.
  - rewrite lookup_take_ge by lia. by rewrite lookup_seqZ_ge by lia.
Qed.

Lemma read_loop_bytes fuel p pos len :
  local p -> 0 <= pos -> len <= Z.of_nat fuel -> 0 <= len -> pos + len <= (U32_MAX + 1) * PAGE_SIZE ->
  read_loop fuel p pos len = (map (byte_at p) (seqZ pos len), p).
Proof.
  intros Hl. pose proof PAGE_SIZE_val. revert pos len. induction fuel as [|fuel IH]; intros pos len Hp Hf Hn Hb; cbn [read_loop].
  - replace len with 0 by lia. done.
  - destruct (Z.leb_spec len 0) as [H0'|H0']; [replace len with 0 by lia; done|].
    pose proof (Z.mod_pos_bound pos PAGE_SIZE ltac:(lia)).
    rewrite page_u32, read_content by (done || lia). set (n := Z.min (PAGE_SIZE - pos mod PAGE_SIZE) len).
    rewrite (IH (pos + n) (len - n)) by lia. rewrite page_slice_bytes by (done || lia). f_equal.
    rewrite <- map_app. f_equal. rewrite <- seqZ_app by lia. f_equal. lia.
Qed.

Lemma nth_copy_into dst f src j :
  0 <= f -> f + Z.of_nat (length src) <= Z.of_nat (length dst) ->
  nth j (copy_into dst f src) 0 =
    if decide (f <= Z.of_nat j < f + Z.of_nat (length src)) then nth (Z.to_nat (Z.of_nat j - f)) src 0 else nth j dst 0.
Proof.
  intros Hf Hl. unfold copy_into. assert (El : length (take (Z.to_nat f) dst) = Z.to_nat f) by (rewrite length_take; lia).
  case_decide as Hd.
  - rewrite app_nth2, El by lia. rewrite app_nth1 by lia. f_equal. lia.
  - destruct (decide (Z.of_nat j < f)) as [Hj|Hj].
    + rewrite app_nth1 by lia. rewrite <- (firstn_skipn (Z.to_nat f) dst) at 2. by rewrite app_nth1 by lia.
    + rewrite app_nth2, El by lia. rewrite app_nth2 by lia.
      rewrite <- (firstn_skipn (Z.to_nat f + length src) dst) at 2. rewrite app_nth2; rewrite length_take; [|lia].
      f_equal. lia.
Qed.

Lemma length_copy_into dst f src :
  0 <= f -> f + Z.of_nat (length src) <= Z.of_nat (length dst) -> length (copy_into dst f src) = length dst.
Proof. intros Hf Hl. unfold copy_into. rewrite !length_app, length_take, length_drop. lia. Qed.

Lemma write_page_content p n d p' m :
  write_page p n d = Some p' -> length d = Z.to_nat PAGE_SIZE ->
  content p' m = if decide (m = n) then d else content p m.
Proof.
  unfold write_page. destruct (n =? U32_MAX); [done|]. intros [= <-] Hl. unfold content. cbn [dirty pages store cipher].
  case_decide as E; [subst; rewrite lookup_insert_eq; by apply pad_id|]. by rewrite lookup_insert_ne by congruence.
Qed.

(** One pass of the write loop. *)
Lemma write_chunk p pos chunk :
  Running p -> 0 <= pos -> pos / PAGE_SIZE < U32_MAX -> pos mod PAGE_SIZE + Z.of_nat (length chunk) <= PAGE_SIZE ->
  exists p', write_page p (pos / PAGE_SIZE) (copy_into (content p (pos / PAGE_SIZE)) (pos mod PAGE_SIZE) chunk) = Some p' /\
    Running p' /\ page_count p' = Z.max (page_count p) (pos / PAGE_SIZE + 1) /\
    forall o, byte_at p' o =
      if decide (pos <= o < pos + Z.of_nat (length chunk)) then nth (Z.to_nat (o - pos)) chunk 0 else byte_at p o.
Proof.
  intros Hr Hp Hu Hc. pose proof PAGE_SIZE_val. pose proof (Z.mod_pos_bound pos PAGE_SIZE ltac:(lia)) as Hm.
  pose proof (length_content p (pos / PAGE_SIZE)) as Hlen.
  set (d := copy_into _ _ _). assert (Hd : length d = Z.to_nat PAGE_SIZE) by (unfold d; rewrite length_copy_into; lia).
  destruct (write_page p (pos / PAGE_SIZE) d) as [p'|] eqn:Ew; [|unfold write_page in Ew; destruct (Z.eqb_spec (pos / PAGE_SIZE) U32_MAX); [lia|done]].
  assert (Hr' : Running p') by (eapply R_write, Ew; [done|]; split; [apply Z.div_pos; lia|lia]).
  exists p'. split; [done|]. split; [done|]. split.
  { unfold write_page in Ew. destruct (_ =? _); [done|]. by injection Ew as <-. }
  intros o. unfold byte_at. rewrite !read_content by (by apply running_ok). cbn [fst].
  rewrite (write_page_content _ _ _ _ _ Ew Hd). pose proof (Z.mod_pos_bound o PAGE_SIZE ltac:(lia)).
  pose proof (Z.div_mod o PAGE_SIZE ltac:(lia)) as Eo. pose proof (Z.div_mod pos PAGE_SIZE ltac:(lia)) as Ep.
  destruct (decide (o / PAGE_SIZE = pos / PAGE_SIZE)) as [E|E].
  - rewrite E. unfold d. rewrite nth_copy_into by lia. rewrite E in Eo.
    do 2 case_decide; try lia. f_equal. lia.
  - rewrite decide_False; [done|]. intros Ho. apply E.
    destruct (within_page pos (o - pos)) as [E' _]; [lia..|]. by replace (pos + (o - pos)) with o in E' by lia.
Qed.

Lemma write_loop_bytes fuel p buf pos :
  Running p -> 0 <= pos -> (length buf <= fuel)%nat -> pos + Z.of_nat (length buf) <= U32_MAX * PAGE_SIZE ->
  exists p', write_loop fuel p buf pos = Some p' /\ Running p' /\
    page_count p' = (if decide (buf = []) then page_count p else Z.max (page_count p) ((pos + Z.of_nat (length buf) - 1) / PAGE_SIZE + 1)) /\
    forall o, byte_at p' o =
      if decide (pos <= o < pos + Z.of_nat (length buf)) then nth (Z.to_nat (o - pos)) buf 0 else byte_at p o.
Proof.
  pose proof PAGE_SIZE_val as EP.
  revert p buf pos. induction fuel as [|fuel IH]; intros p buf pos Hr Hp Hf Hb; cbn [write_loop].
  - destruct buf; [|cbn in Hf; lia]. exists p. split_and!; try done. intros o. rewrite decide_False by (cbn; lia). done.
  - destruct buf as [|b bs].
    { exists p. split_and!; try done. intros o. rewrite decide_False by (cbn; lia). done. }
    assert (Hlen : (0 < length (b :: bs))%nat) by (cbn; lia). set (buf := b :: bs) in *. clearbody buf.
    rewrite decide_False by (intros ->; cbn in Hlen; lia).
    pose proof (Z.mod_pos_bound pos PAGE_SIZE ltac:(lia)) as Hm.
    assert (Hu : pos / PAGE_SIZE < U32_MAX) by (apply Z.div_lt_upper_bound; lia).
    rewrite page_u32, read_content by (first [by apply running_ok | lia]).
    set (n := Z.min (PAGE_SIZE - pos mod PAGE_SIZE) (Z.of_nat (length buf))).
    assert (Hn : length (take (Z.to_nat n) buf) = Z.to_nat n) by (rewrite length_take; lia).
    assert (Hrest : length (drop (Z.to_nat n) buf) = (length buf - Z.to_nat n)%nat) by apply length_drop.
    destruct (write_chunk p pos (take (Z.to_nat n) buf)) as (p1 & Ew & Hr1 & Hc1 & Hb1); [done..|lia|].
    rewrite Ew. cbn [mbind option_bind].
    destruct (IH p1 (drop (Z.to_nat n) buf) (pos + n)) as (p2 & -> & Hr2 & Hc2 & Hb2); [done|lia..|].
    exists p2. split; [done|]. split; [done|]. split.
    + rewrite Hc2, Hc1. case_decide as E.
      * rewrite E in Hrest. cbn in Hrest. f_equal. f_equal.
        destruct (within_page pos (Z.of_nat (length buf) - 1)) as [<- _]; [lia..|]. f_equal. lia.
      * assert (En : n = PAGE_SIZE - pos mod PAGE_SIZE).
        { destruct (decide (n = Z.of_nat (length buf))) as [Eq|]; [|lia]. destruct E. apply nil_length_inv. lia. }
        replace (pos + n + Z.of_nat (length (drop (Z.to_nat n) buf)) - 1) with (pos + Z.of_nat (length buf) - 1) by lia.
        assert (pos / PAGE_SIZE <= (pos + Z.of_nat (length buf) - 1) / PAGE_SIZE) by (apply Z.div_le_mono; lia). lia.
    + intros o. rewrite Hb2, Hb1, Hn, Hrest. repeat case_decide; try lia; try done;
        first [rewrite nth_skipn; f_equal; lia | rewrite <- (take_drop (Z.to_nat n) buf) at 2; by rewrite app_nth1 by lia].
Qed.

(** C35: A pager is a file of bytes.  A write of [buf] at an offset below the
    last page succeeds, changes exactly the bytes it covers (the partly
    covered pages at its ends keep the rest), and grows the page count to the
    page of its last byte; a read returns the bytes of the file and leaves the
    pager as it was; a resize keeps every byte below the new end and a page
    beyond it reads as zeros. *)
Theorem pager_is_byte_file (p : Pager) (buf : bytes) (off len o : Z) :
  Running p -> 0 <= off -> 0 <= o -> 0 <= len -> off + Z.of_nat (length buf) <= U32_MAX * PAGE_SIZE ->
  o + len <= (U32_MAX + 1) * PAGE_SIZE ->
  (exists p', write_at p buf off = Some p' /\ Running p' /\
    page_count p' = (if decide (buf = []) then page_count p
      else Z.max (page_count p) ((off + Z.of_nat (length buf) - 1) / PAGE_SIZE + 1)) /\
    forall x, byte_at p' x =
      if decide (off <= x < off + Z.of_nat (length buf)) then nth (Z.to_nat (x - off)) buf 0 else byte_at p x) /\
  read_at p len o = (map (byte_at p) (seqZ o len), p) /\
  (forall n x, 0 <= n <= U32_MAX -> byte_at (set_page_count p n) x = if decide (x / PAGE_SIZE < n) then byte_at p x else 0).
Proof.
  intros Hr Hoff Ho Hlen Hb Hl. split; [by apply write_loop_bytes|]. split.
  { apply read_loop_bytes; [by apply running_ok|lia..]. }
  intros n x Hn. pose proof (R_resize p n Hr Hn) as Hr'. unfold byte_at.
  rewrite !read_content by (by apply running_ok). cbn [fst]. unfold content. cbn [set_page_count dirty pages store cipher].
  destruct (decide (x / PAGE_SIZE < n)) as [Hx|Hx].
  - assert (Hk : forall A (m : gmap Z A), filter (fun kv => kv.1 < n) m !! (x / PAGE_SIZE) = m !! (x / PAGE_SIZE)).
    { intros A m. destruct (m !! (x / PAGE_SIZE)) eqn:E; [by apply map_lookup_filter_Some|]. apply map_lookup_filter_None. by left. }
    by rewrite !Hk.
  - assert (Hk : forall A (m : gmap Z A), filter (fun kv => kv.1 < n) m !! (x / PAGE_SIZE) = None).
    { intros A m. apply map_lookup_filter_None. right. by intros ? _. }
    rewrite !Hk. cbn [mbind option_bind]. apply nth_zeros.
Qed.
End file.

(** ** Instances *)

Definition toy_hash : Blake3 := {| blake3 := fun b => b |}.
Definition toy_dek : DekCipher := {|
  Dek := Z;
  seal_deterministic := fun d b => d :: b;
  dek_open := fun d b => match b with x :: b' => if x =? d then Some b' else None | [] => None end
|}.
Definition toy_dek_laws : @DekCipherLaws toy_dek.
Proof. split. intros d p. cbn. by rewrite Z.eqb_refl. Defined.

#[global] Instance RootIndex_eq_dec : EqDecision RootIndex.
Proof. solve_decision. Defined.
#[global] Instance RootIndex_countable : Countable RootIndex.
Proof.
  refine (inj_countable' (fun r => (ri_page_count r, ri_depth r, root_cid r, ri_wrapped_dek r))
    (fun '(n, d, c, w) => mk_root n d c w) _). by intros [].
Defined.

(** A sealed page on a fresh pager. *)
Definition toy_pager : @Pager toy_dek :=
  default (@create toy_dek (mk_store ∅ ∅)) (@write_page toy_dek (@set_cipher toy_dek (@create toy_dek (mk_store ∅ ∅)) 5) 300 [1; 2; 3]).

#[local] Existing Instances toy_hash toy_dek toy_dek_laws.
#[local] Existing Instances countable_codec countable_codec_laws.

Lemma toy_inj a b : @blake3 toy_hash a = @blake3 toy_hash b -> a = b.
Proof. done. Qed.

Lemma toy_running : Running toy_pager.
Proof.
  refine (R_write (set_cipher (create (mk_store ∅ ∅)) 5) 300 [1; 2; 3] toy_pager _ _ _).
  - apply R_cipher; try reflexivity. apply R_create. split; intros ? ?; cbn; by rewrite lookup_empty.
  - unfold U32_MAX. lia.
  - reflexivity.
Qed.

Lemma toy_has_page : has_page toy_pager.
Proof. right. exists 300. eexists. unfold page_cid, toy_pager. cbn. by rewrite lookup_insert_eq. Qed.

Lemma commit_then_open_witness :
  exists q, open (store (commit toy_pager).2) (commit toy_pager).1 (cipher toy_pager) = Ok q /\ Running q /\
    page_count q = 301 /\ wrapped_dek q = [] /\ forall n, (read_page q n).1 = (read_page toy_pager n).1.
Proof. exact (commit_then_open toy_inj toy_pager toy_running toy_has_page). Defined.

(** The same page, written over another. *)
Definition toy_pager' : Pager :=
  default (create (mk_store ∅ ∅)) (p ← write_page (set_cipher (create (mk_store ∅ ∅)) 5) 300 [9]; write_page p 300 [1; 2; 3]).

Lemma toy_running' : Running toy_pager'.
Proof.
  refine (R_write _ 300 [1; 2; 3] toy_pager' (R_write (set_cipher (create (mk_store ∅ ∅)) 5) 300 [9] _ _ _ eq_refl) _ eq_refl);
    [|unfold U32_MAX; lia..].
  apply R_cipher; try reflexivity. apply R_create. split; intros ? ?; cbn; by rewrite lookup_empty.
Qed.

Lemma toy_same_page k : page_cid toy_pager k = page_cid toy_pager' k.
Proof. unfold page_cid, toy_pager, toy_pager'. cbn. by rewrite insert_insert_eq. Qed.

Lemma commit_root_binds_contents_witness : (commit toy_pager).1 = (commit toy_pager').1.
Proof.
  apply (commit_root_binds_contents toy_inj toy_pager toy_pager').
  - exact toy_running.
  - exact toy_running'.
  - exact toy_has_page.
  - right. exists 300. rewrite <- toy_same_page. destruct toy_has_page as [E|[k Hk]]; [discriminate E|].
    eexists. unfold page_cid, toy_pager. cbn. by rewrite lookup_insert_eq.
  - reflexivity.
  - split; [reflexivity|]. split; [reflexivity|]. exact toy_same_page.
Defined.

Lemma pager_is_byte_file_witness :
  exists p', write_at toy_pager [7; 8] 16383 = Some p' /\ page_count p' = 301 /\ byte_at p' 16383 = 7 /\ byte_at p' 16384 = 8.
Proof.
  destruct (pager_is_byte_file toy_inj toy_pager [7; 8] 16383 0 0) as ((p' & Ew & _ & Hc & Hb) & _ & _);
    [exact toy_running|rewrite ?PAGE_SIZE_val; unfold U32_MAX; cbn [length]; lia..|].
  exists p'. split; [exact Ew|]. split; [rewrite Hc; reflexivity|]. rewrite !Hb. split; reflexivity.
Defined.

(** A database grown by [set_page_count] with no page written commits to a root
    whose tree has no top node, and the root does not open. *)
Example grown_empty_database_does_not_reopen :
  let p := set_page_count (create (mk_store ∅ ∅)) 1 in
  open (store (commit p).2) (commit p).1 None = Err CorruptIndex.
Proof. vm_compute. reflexivity. Qed.

(** ** Generations *)

Section generations.
Context `{Blake3} `{PostcardLaws (list (key * bytes))}.

Lemma unpack_loop_spec ps :
  unpack_loop ps = if decide (Forall (fun cd => Cid_of cd.2 = cd.1) ps) then Ok ps else Err CorruptIndex.
Proof.
  induction ps as [|[cid d] ps IH]; cbn [unpack_loop]; [by rewrite decide_True by constructor|].
  destruct (decide (Cid_of d = cid)) as [E|E].
  - rewrite bool_decide_false, IH by tauto. destruct (decide (Forall _ ps)) as [Hf|Hf].
    + by rewrite decide_True by (by constructor).
    + rewrite decide_False; [done|]. by intros [_ ?]%list.Forall_cons.
  - rewrite bool_decide_true, decide_False; [done| |done]. by intros [? _]%list.Forall_cons.
Qed.

(** A generation is self-authenticating.  Unpacking a packed batch gives
    the same pages in the same order exactly when every page hashes to its id,
    and fails with [CorruptIndex] otherwise; whatever blob unpacks, every page
    it yields hashes to its id. *)
Theorem generation_round_trip (ps : list (key * bytes)) (blob : bytes) :
  unpack (pack ps) = (if decide (Forall (fun cd => Cid_of cd.2 = cd.1) ps) then Ok ps else Err CorruptIndex) /\
  forall out, unpack blob = Ok out -> Forall (fun cd => Cid_of cd.2 = cd.1) out.
Proof.
  unfold unpack, pack. split; [rewrite postcard_roundtrip; apply unpack_loop_spec|].
  intros out. destruct (from_bytes blob) as [qs|]; [|done]. rewrite unpack_loop_spec. case_decide; [|done]. by intros [= <-].
Qed.
End generations.

Lemma generation_round_trip_witness :
  unpack (pack [([1; 2], [1; 2]); ([7], [7])]) = Ok [([1; 2], [1; 2]); ([7], [7])].
Proof.
  rewrite (proj1 (generation_round_trip [([1; 2], [1; 2]); ([7], [7])] [])).
  rewrite decide_True; [reflexivity|]. repeat constructor.
Defined.
