(* ===== verification/SqlReach.v ===== *)
(** The objects of a committed database ([Pager.reachable]): what the walk
    over the index finds, and that a store with those objects opens to the same
    pages. *)

From S2P Require Import Prelude Crypto Pager PagerIndex PagerCommit PagerFile.

Open Scope Z_scope.

#[local] Arguments children_of : simpl never.
#[local] Opaque children_of.

Section reach.
Context `{Blake3} `{DekCipherLaws} `{PostcardLaws NodeMap} `{PostcardLaws RootIndex}.

(** The values of a node, in the order of its keys. *)
Definition values (n : NodeMap) : list key := map snd (btree_iter n).

Definition node_stored (s : ObjectStore) (c : option Dek) (x : key * NodeMap) : Prop :=
  exists b, store_get s x.1 = Some b /\ decode_node_sealed c b = Ok x.2.

(** One level of the walk over nodes that are stored. *)
Lemma reach_frontier s c l nodes :
  Forall (node_stored s c) nodes ->
  reach_loop s c l (map fst nodes) =
    match l with
    | O => Ok (flat_map (fun x => x.1 :: values x.2) nodes)
    | S l' => match reach_loop s c l' (flat_map (fun x => values x.2) nodes) with Ok r => Ok (map fst nodes ++ r) | Err e => Err e end
    end.
Proof.
  intros Hn.
  assert (Hgo : forall next out, (fix go (fr next out : list key) : result (list key) SqlError :=
     match fr with
     | [] => match l with O => Ok out | S l => match reach_loop s c l next with Ok r => Ok (out ++ r) | Err e => Err e end end
     | ncid :: fr' =>
         match store_get s ncid with
         | None => Err CorruptIndex
         | Some b => match decode_node_sealed c b with
             | Err e => Err e
             | Ok node => match l with
                 | O => go fr' next (out ++ ncid :: map snd (btree_iter node))
                 | S _ => go fr' (next ++ map snd (btree_iter node)) (out ++ [ncid])
                 end
             end
         end
     end) (map fst nodes) next out =
    match l with
    | O => Ok (out ++ flat_map (fun x => x.1 :: values x.2) nodes)
    | S l' => match reach_loop s c l' (next ++ flat_map (fun x => values x.2) nodes) with Ok r => Ok ((out ++ map fst nodes) ++ r) | Err e => Err e end
    end).
  { induction Hn as [|[cid node] nodes (b & Eb & Ed) _ IH]; intros next out; cbn [map flat_map fst snd].
    - rewrite !app_nil_r. by destruct l.
    - cbn in Eb, Ed. rewrite Eb, Ed. destruct l; rewrite IH.
      + by rewrite <- app_assoc.
      + unfold values at 2. cbn [snd]. rewrite <- !app_assoc. by destruct (reach_loop s c l _). }
  specialize (Hgo [] []). destruct l; cbn [reach_loop]; exact Hgo.
Qed.

Lemma values_spec n x : x ∈ values n <-> exists i, n !! i = Some x.
Proof.
  unfold values. rewrite list_elem_of_fmap. split.
  - intros ([i y] & -> & Hin%elem_of_btree_iter). by exists i.
  - intros [i Hi]. exists (i, x). split; [done|]. by apply elem_of_btree_iter.
Qed.

(** The nodes of a list of keys, and the keys of their children. *)
Definition nodes_of (c : option Dek) (ps : gmap Z key) (l : nat) (nks : list Z) : list (key * NodeMap) :=
  omap (fun nk => cid ← canon c ps l nk; Some (cid, node_at c ps l nk)) nks.

Definition child_keys (c : option Dek) (ps : gmap Z key) (l : nat) (nks : list Z) : list Z :=
  flat_map (fun nk => match canon c ps l nk with Some _ => map (fun ic => nk * 256 + ic.1) (btree_iter (node_at c ps l nk)) | None => [] end) nks.

Lemma nodes_of_fst c ps l nks : map fst (nodes_of c ps l nks) = omap (canon c ps l) nks.
Proof.
  unfold nodes_of. induction nks as [|nk nks IH]; cbn [omap list_omap]; [done|].
  destruct (canon c ps l nk); cbn; [by f_equal|done].
Qed.

Lemma nodes_stored s c ps l nks : stored_upto s c ps l -> Forall (valid l) nks -> Forall (node_stored s c) (nodes_of c ps l nks).
Proof.
  intros Hst Hv. apply list.Forall_forall. intros [cid n] (nk & Hin & Hc)%list_elem_of_omap.
  apply bind_Some in Hc as (x & Hc & [= <- <-]). rewrite list.Forall_forall in Hv. eexists. split; [by apply (Hst l nk); [|apply Hv|]|].
  apply decode_sealed.
Qed.

Lemma omap_map_all {A B C} (f : B -> option C) (h : A -> B) (g : A -> C) l :
  (forall x, x ∈ l -> f (h x) = Some (g x)) -> omap f (map h l) = map g l.
Proof.
  induction l as [|x l IH]; intros Hf; cbn [omap list_omap map]; [done|]. rewrite Hf by (by left). f_equal. apply IH. intros y Hy. apply Hf. by right.
Qed.

Lemma child_values c ps l nks :
  Forall (valid (S l)) nks -> flat_map (fun x => values x.2) (nodes_of c ps (S l) nks) = omap (canon c ps l) (child_keys c ps (S l) nks).
Proof.
  induction 1 as [|nk nks Hv _ IH]; [done|]. unfold nodes_of, child_keys in *. cbn [omap list_omap flat_map]. rewrite omap_app, <- IH.
  destruct (canon c ps (S l) nk); [|done]. cbn [flat_map option_bind mbind snd]. f_equal. symmetry. unfold values.
  apply omap_map_all. intros [i ch] Hin%elem_of_btree_iter. cbn.
  rewrite node_lookup_S in Hin by done. by case_decide.
Qed.

Lemma child_keys_valid c ps l nks : Forall (valid (S l)) nks -> Forall (valid l) (child_keys c ps (S l) nks).
Proof.
  intros Hv. apply list.Forall_forall. intros k Hk. unfold child_keys in Hk. apply list_elem_of_In, in_flat_map in Hk as (nk & Hnk%list_elem_of_In & Hk).
  rewrite list.Forall_forall in Hv. specialize (Hv nk Hnk). destruct (canon c ps (S l) nk); [|done].
  apply list_elem_of_In, list_elem_of_fmap in Hk as ([i ch] & -> & Hin%elem_of_btree_iter). cbn.
  apply valid_child; [done|]. eapply (node_index c ps (S l) nk). by eexists.
Qed.

(** What the walk from a list of node keys finds: the nodes and the pages
    under them. *)
Definition found (c : option Dek) (ps : gmap Z key) (l : nat) (nks : list Z) (x : key) : Prop :=
  (exists l' k, (l' <= l)%nat /\ valid l' k /\ anc l l' k ∈ nks /\ canon c ps l' k = Some x) \/
  (exists k, k / span l ∈ nks /\ ps !! k = Some x).

Lemma elem_of_child_keys c ps l nks k :
  k ∈ child_keys c ps (S l) nks <-> exists nk i, nk ∈ nks /\ is_Some (node_at c ps (S l) nk !! i) /\ k = nk * 256 + i.
Proof.
  unfold child_keys. rewrite list_elem_of_In, in_flat_map. split.
  - intros (nk & Hnk%list_elem_of_In & Hk). destruct (canon c ps (S l) nk); [|done].
    apply list_elem_of_In, list_elem_of_fmap in Hk as ([i ch] & -> & Hin%elem_of_btree_iter). exists nk, i. split; [done|]. split; [by eexists|done].
  - intros (nk & i & Hnk & [ch Hch] & ->). exists nk. split; [by apply list_elem_of_In|]. rewrite canon_node, bool_decide_false.
    + apply list_elem_of_In, list_elem_of_fmap. exists (i, ch). split; [done|]. by apply elem_of_btree_iter.
    + intros E. by rewrite E, lookup_empty in Hch.
Qed.

(** A node below a list of nodes is one of them or below their children. *)
Lemma node_step c ps l nks l' k x :
  Forall (valid (S l)) nks -> (l' <= S l)%nat -> valid l' k -> anc (S l) l' k ∈ nks -> canon c ps l' k = Some x ->
  x ∈ omap (canon c ps (S l)) nks \/ ((l' <= l)%nat /\ anc l l' k ∈ child_keys c ps (S l) nks).
Proof.
  intros Hv Hl Hk Ha Hc. rewrite list.Forall_forall in Hv. destruct (decide (l' = S l)) as [->|Hne].
  - left. rewrite anc_refl in Ha. apply list_elem_of_omap. by exists k.
  - right. split; [lia|]. destruct (node_child c ps (S l) (anc (S l) l' k) l' k) as (i & Hi & Hch & Ei); [by apply Hv|done|by eexists|split; [lia|done]|].
    apply elem_of_child_keys. by exists (anc (S l) l' k), i.
Qed.

Lemma page_step c ps l nks k x :
  Forall (valid (S l)) nks -> k / span (S l) ∈ nks -> ps !! k = Some x -> k / span l ∈ child_keys c ps (S l) nks.
Proof.
  intros Hv Hk Hp. rewrite list.Forall_forall in Hv.
  destruct (page_child c ps (S l) (k / span (S l)) k) as (i & Hi & Hch); [by apply Hv|by eexists|done|].
  apply elem_of_child_keys. by exists (k / span (S l)), i.
Qed.

Lemma found_step c ps l nks x :
  Forall (valid (S l)) nks ->
  found c ps (S l) nks x <-> x ∈ omap (canon c ps (S l)) nks \/ found c ps l (child_keys c ps (S l) nks) x.
Proof.
  intros Hv. unfold found. split.
  - intros [(l' & k & Hl & Hk & Ha & Hc)|(k & Hk & Hp)].
    + destruct (node_step _ _ _ _ _ _ _ Hv Hl Hk Ha Hc) as [Hx|[Hl' Ha']]; [by left|right; left; by exists l', k].
    + right. right. exists k. split; [by eapply page_step|done].
  - rewrite list.Forall_forall in Hv. setoid_rewrite elem_of_child_keys. rewrite list_elem_of_omap.
    intros [(nk & Hnk & Hc)|[(l' & k & Hl & Hk & (nk & i & Hnk & Hi & Ea) & Hc)|(k & (nk & i & Hnk & Hi & Ek) & Hp)]].
    + left. exists (S l), nk. rewrite anc_refl. split; [lia|]. split; [by apply Hv|]. done.
    + left. exists l', k. split; [lia|]. split; [done|]. split; [|done]. rewrite anc_S, Ea by done.
      apply node_index in Hi. unfold FANOUT in Hi. by replace ((nk * 256 + i) / 256) with nk by (rewrite Z.div_add_l, Z.div_small by lia; lia).
    + right. exists k. split; [|done]. apply node_index in Hi. by rewrite (div_child l k nk i).
Qed.

Lemma found_leaf c ps nks x :
  Forall (valid 0) nks ->
  found c ps 0 nks x <-> x ∈ flat_map (fun y => y.1 :: values y.2) (nodes_of c ps 0 nks).
Proof.
  intros Hv. rewrite list.Forall_forall in Hv. rewrite list_elem_of_In, in_flat_map. unfold found, nodes_of. split.
  - intros [(l' & k & Hl & Hk & Ha & Hc)|(k & Hk & Hp)].
    + assert (l' = 0%nat) as -> by lia. rewrite anc_refl in Ha. exists (x, node_at c ps 0 k). split; [|by left].
      apply list_elem_of_In, list_elem_of_omap. exists k. by rewrite Hc.
    + remember (k / span 0) as nk eqn:Enk.
      destruct (page_child c ps 0 nk k) as (i & Hi & Hch); [by apply Hv|by eexists|done|]. cbn [child_p] in Hch.
      destruct (Hi) as [y Hy]. assert (y = x) as ->.
      { rewrite node_lookup_0, decide_True, <- Hch in Hy; [congruence|by eapply node_index|by apply Hv]. }
      eexists (_, node_at c ps 0 nk). split; [|right; by apply list_elem_of_In, values_spec; exists i].
      apply list_elem_of_In, list_elem_of_omap. exists nk. split; [done|]. rewrite canon_node, bool_decide_false; [done|].
      intros E. by rewrite E, lookup_empty in Hy.
  - intros ([cid n] & (nk & Hnk & (y & Hc & [= <- <-])%bind_Some)%list_elem_of_In%list_elem_of_omap & [<-|Hin%list_elem_of_In%values_spec]).
    + left. exists 0%nat, nk. rewrite anc_refl. split; [done|]. split; [by apply Hv|done].
    + right. destruct Hin as [i Hi]. cbn in Hi. assert (Hr : 0 <= i < FANOUT) by (eapply (node_index c ps 0 nk); by eexists).
      rewrite node_lookup_0, decide_True in Hi by (done || by apply Hv). exists (nk * 256 + i). split; [|done].
      unfold FANOUT in Hr. change (span 0) with 256. by replace ((nk * 256 + i) / 256) with nk by (rewrite Z.div_add_l, Z.div_small by lia; lia).
Qed.

(** The walk over a stored tree. *)
Lemma reach_tree s c ps l nks :
  stored_upto s c ps l -> Forall (valid l) nks ->
  exists out, reach_loop s c l (omap (canon c ps l) nks) = Ok out /\ forall x, x ∈ out <-> found c ps l nks x.
Proof.
  revert nks. induction l as [|l IH]; intros nks Hst Hv; rewrite <- nodes_of_fst, reach_frontier by (by apply nodes_stored).
  - eexists. split; [done|]. intros x. by rewrite found_leaf.
  - rewrite child_values by done. destruct (IH (child_keys c ps (S l) nks)) as (out & -> & Ho).
    + intros l' k cid Hl. apply Hst. lia.
    + by apply child_keys_valid.
    + eexists. split; [done|]. intros x. by rewrite elem_of_app, Ho, nodes_of_fst, found_step.
Qed.

(** ** Committed trees *)

(** A store that holds the root and the index of a database, *)
Record indexed (s : ObjectStore) (c : option Dek) (r : key) (ps : gmap Z key) (n : Z) (w : bytes) : Prop := {
  ro_root : store_get s r = Some (to_allocvec (root_of c ps n w));
  ro_count : 0 <= n <= U32_MAX;
  ro_pages : forall k, is_Some (ps !! k) -> 0 <= k < n;
  ro_some : n = 0 \/ exists k, is_Some (ps !! k);
  ro_nodes : forall l, depth_for n = S l -> stored_upto s c ps l
}.

(** and one that holds its pages too. *)
Record rooted (s : ObjectStore) (c : option Dek) (r : key) (ps : gmap Z key) (n : Z) (w : bytes) : Prop := {
  ro_indexed :> indexed s c r ps n w;
  ro_local : forall k cid, ps !! k = Some cid -> is_Some (store_get s cid)
}.

(** Its objects. *)
Definition object_of (c : option Dek) (r : key) (ps : gmap Z key) (n : Z) (x : key) : Prop :=
  x = r \/ (exists l k, (l < depth_for n)%nat /\ valid l k /\ canon c ps l k = Some x) \/ exists k, ps !! k = Some x.

Lemma rooted_span s c r ps n w l k : indexed s c r ps n w -> depth_for n = S l -> is_Some (ps !! k) -> 0 <= k < span l.
Proof.
  intros Hr El Hk. apply (ro_pages _ _ _ _ _ _ Hr) in Hk. destruct (depth_for_spec n (ro_count _ _ _ _ _ _ Hr)) as (_ & Hn & _).
  rewrite El, <- span_depth in Hn. lia.
Qed.

Lemma rooted_top s c r ps n w l : indexed s c r ps n w -> depth_for n = S l -> exists cid, canon c ps l 0 = Some cid.
Proof.
  intros Hr El. destruct (depth_for_spec n (ro_count _ _ _ _ _ _ Hr)) as (Hd & _ & H0').
  destruct (ro_some _ _ _ _ _ _ Hr) as [E|[k Hk]]; [apply H0' in E; congruence|].
  pose proof (rooted_span _ _ _ _ _ _ _ _ Hr El Hk) as Hs.
  assert (Hc : is_Some (canon c ps l (k / span l))).
  { apply canon_some; [lia| |done]. rewrite (Z.div_small k (span l)) by done. split; [lia|]. split; [done|]. apply Z.pow_pos_nonneg; lia. }
  rewrite Z.div_small in Hc by done. destruct Hc as [cid Hc]. by exists cid.
Qed.

Lemma valid_top l : (l <= 3)%nat -> valid l 0.
Proof. intros Hl. split; [done|]. split; [done|]. apply Z.pow_pos_nonneg; lia. Qed.

Lemma rooted_depth s c r ps n w l : indexed s c r ps n w -> depth_for n = S l -> (l <= 3)%nat.
Proof. intros Hr El. destruct (depth_for_spec n (ro_count _ _ _ _ _ _ Hr)) as (Hd & _). lia. Qed.

(** Every node of the index is below its top node. *)
Lemma index_anc s c r ps n w l l' k x :
  indexed s c r ps n w -> depth_for n = S l -> (l' <= l)%nat -> valid l' k -> canon c ps l' k = Some x -> anc l l' k = 0.
Proof.
  intros Hr El Hl Hv Hc. destruct (decide (anc l l' k = 0)) as [|Hne]; [done|]. exfalso. assert (canon c ps l' k = None) as Hnone; [|congruence].
  apply canon_none; [done|]. intros y <-. destruct (ps !! y) eqn:Ey; [|done]. destruct Hne. rewrite anc_page by lia.
  apply Z.div_small. eapply rooted_span; [exact Hr|done|by eexists].
Qed.

(** [reachable] lists exactly the objects. *)
Lemma reachable_rooted s c r ps n w :
  rooted s c r ps n w -> exists l, reachable s r c = Ok l /\ forall x, x ∈ l <-> object_of c r ps n x.
Proof.
  intros Hr. pose proof (ro_indexed _ _ _ _ _ _ Hr) as Hix. unfold reachable. rewrite (ro_root _ _ _ _ _ _ Hr). unfold decode_root. rewrite postcard_roundtrip. unfold root_of. cbn [ri_depth root_cid].
  destruct (depth_for n) as [|l] eqn:El.
  - exists [r]. split; [done|]. intros x. rewrite list_elem_of_singleton. unfold object_of. rewrite El. split; [by left|].
    intros [?|[(l & k & Hl & _)|[k Hk]]]; [done|lia|]. destruct (depth_for_spec n (ro_count _ _ _ _ _ _ Hr)) as (_ & _ & H0').
    assert (n = 0) by (by apply H0'). assert (0 <= k < n) by (apply (ro_pages _ _ _ _ _ _ Hr); by eexists). lia.
  - destruct (rooted_top _ _ _ _ _ _ _ Hr El) as [cid Ec]. cbn [top_cid]. rewrite Ec. change (default (key_of 0) (Some cid)) with cid.
    destruct (reach_tree s c ps l [0]) as (out & Eo & Ho).
    + by apply (ro_nodes _ _ _ _ _ _ Hr).
    + constructor; [|constructor]. apply valid_top. by eapply rooted_depth.
    + cbn [omap list_omap] in Eo. rewrite Ec in Eo. cbn in Eo. rewrite Eo. exists (r :: out). split; [done|].
      assert (Hu : forall k, is_Some (ps !! k) -> k / span l = 0) by (intros k Hk; apply Z.div_small; by eapply rooted_span).
      intros x. rewrite elem_of_cons, Ho. unfold object_of, found. rewrite El. setoid_rewrite list_elem_of_singleton.
      apply or_iff_compat_l. split.
      * intros [(l' & k & Hl & Hv & _ & Hc)|(k & _ & Hp)]; [left; exists l', k; split; [lia|done]|right; by exists k].
      * intros [(l' & k & Hl & Hv & Hc)|(k & Hp)]; [left; exists l', k; split; [lia|]; split; [done|]; split; [|done]|right; exists k; split; [|done]; apply Hu; by eexists].
        apply (index_anc s c r ps n w l l' k x); [done|done|lia|done|done].
Qed.

Lemma rooted_present s c r ps n w x : rooted s c r ps n w -> object_of c r ps n x -> is_Some (store_get s x).
Proof.
  intros Hr [->|[(l & k & Hl & Hv & Hc)|[k Hk]]].
  - rewrite (ro_root _ _ _ _ _ _ Hr). by eexists.
  - destruct (depth_for n) as [|d] eqn:Ed; [lia|]. erewrite (ro_nodes _ _ _ _ _ _ Hr d Ed l k); [by eexists|lia|done|done].
  - by eapply (ro_local _ _ _ _ _ _ Hr).
Qed.

Lemma indexed_agree s s' c r ps n w :
  indexed s c r ps n w -> store_get s' r = store_get s r ->
  (forall x, (exists l k, (l < depth_for n)%nat /\ valid l k /\ canon c ps l k = Some x) -> store_get s' x = store_get s x) -> indexed s' c r ps n w.
Proof.
  intros Hr Ht Ha. constructor; try apply Hr.
  - rewrite Ht. apply Hr.
  - intros l El l' k cid Hl Hv Hc. rewrite Ha; [by apply (ro_nodes _ _ _ _ _ _ Hr l El)|]. exists l', k. split; [lia|done].
Qed.

(** A store with the same objects holds the same database. *)
Lemma rooted_agree s s' c r ps n w :
  rooted s c r ps n w -> (forall x, object_of c r ps n x -> store_get s' x = store_get s x) -> rooted s' c r ps n w.
Proof.
  intros Hr Ha. split; [|intros k cid Hk; rewrite Ha by (right; right; by exists k); by eapply (ro_local _ _ _ _ _ _ Hr)].
  apply (indexed_agree s); [apply Hr|by apply Ha; left|]. intros x Hx. apply Ha. right. by left.
Qed.

Lemma open_rooted s c r ps n w :
  indexed s c r ps n w -> exists ns, Pager.open s r c = Ok (mk_pager s ps ∅ ∅ ns n (depth_for n) None c w).
Proof.
  intros Hr. unfold Pager.open. rewrite (ro_root _ _ _ _ _ _ Hr). unfold decode_root. rewrite postcard_roundtrip. unfold root_of.
  cbn [ri_depth root_cid ri_page_count ri_wrapped_dek]. destruct (depth_for n) as [|l] eqn:El.
  - exists ∅. do 2 f_equal. apply map_eq. intros k. rewrite lookup_empty. destruct (ps !! k) eqn:Ek; [|done].
    destruct (depth_for_spec n (ro_count _ _ _ _ _ _ Hr)) as (_ & _ & H0'). assert (n = 0) by (by apply H0').
    assert (0 <= k < n) by (apply (ro_pages _ _ _ _ _ _ Hr); by eexists). lia.
  - destruct (rooted_top _ _ _ _ _ _ _ Hr El) as [cid Ec]. cbn [top_cid]. rewrite Ec. change (default (key_of 0) (Some cid)) with cid.
    destruct (load_root s c ps l cid) as (ns & Eo & _); [by eapply rooted_depth|intros k; by eapply rooted_span|by apply (ro_nodes _ _ _ _ _ _ Hr)|done|].
    rewrite Eo. by exists ns.
Qed.

Context (blake3_inj : forall a b, blake3 a = blake3 b -> a = b).

(** A commit leaves its root's whole database in the store. *)
Lemma commit_rooted p :
  pager_ok p -> local p -> has_page p ->
  rooted (store (commit p).2) (cipher p) (commit p).1 (pages (commit p).2) (page_count p) (wrapped_dek p).
Proof.
  intros Hp Hl Hh. pose proof (commit_spec blake3_inj p Hp) as Hc. split; [constructor|].
  - apply (cm_get _ _ _ Hc).
  - apply (po_count p Hp).
  - intros k. rewrite (cm_pages _ _ _ Hc). by apply page_cid_range.
  - destruct Hh as [|[k Hk]]; [by left|right]. exists k. by rewrite (cm_pages _ _ _ Hc).
  - intros l El. by eapply committed_stored.
  - intros k cid Hk. eapply (commit_local p); eauto.
Qed.
End reach.
