(* ===== verification/SqlDb.v ===== *)
(** CraftSQL databases ([crates/sql/src/db.rs], [vfs.rs]): the file handle
    SQLite works on, opening a database at its head, syncing its objects from
    the network, writing, the durability sweep into page generations,
    compaction, and recovery.

    SQLite is the class [Sqlite]: the run of a batch of statements is a finite
    tree of calls on the database file and its journal.  The directories of a
    node (one per database, the legacy flat one, and the [.gens] sidecars) are
    maps; a failing disk is not modelled.  The head store, the page source, the
    durable store and the manifest store are functions on a [World].  What the
    code spawns and does not await is a task in [sq_tasks], run later, in any
    order, or never. *)

From S2P Require Import Prelude Crypto Pager.

Open Scope Z_scope.

Inductive DbError := E_io | E_serde | E_root_not_found | E_corrupt | E_sqlite | E_read_only | E_panic.

Definition of_pager (e : SqlError) : DbError :=
  match e with RootNotFound _ => E_root_not_found | CorruptIndex => E_corrupt | Serde => E_serde end.

(** ** Names *)

(** One normal component of a unix path. *)
Definition is_safe_component (s : bytes) : bool :=
  negb (bool_decide (s = [])) && negb (existsb (Z.eqb 47) s) && negb (existsb (Z.eqb 92) s) &&
  negb (bool_decide (s = [46])) && negb (bool_decide (s = [46; 46])).

Definition db_key (owner : key) (namespace : bytes) : bytes := take 16 (hex_encode owner) ++ [95] ++ namespace.

(** ** The file handle *)

Section vfs.
Context `{Blake3} `{DekCipher} `{Postcard NodeMap} `{Postcard RootIndex}.

Notation Roots := (gmap bytes key).

Inductive Inner := I_db (p : Pager) (name : bytes) | I_mem (data : bytes).

Definition handle_size (h : Inner) : Z :=
  match h with I_db p _ => page_count p * PAGE_SIZE | I_mem data => Z.of_nat (length data) end.

Definition read_exact_at (h : Inner) (len offset : Z) : bytes * Inner :=
  match h with
  | I_db p name => let '(b, p) := read_at p len offset in (b, I_db p name)
  | I_mem data => (map (fun i => nth (Z.to_nat (offset + i)) data 0) (seqZ 0 len), h)
  end.

Definition resize (data : bytes) (n : nat) : bytes := take n data ++ replicate (n - length data)%nat 0.

(** [None] is the pager's overflow panic. *)
Definition write_all_at (h : Inner) (buf : bytes) (offset : Z) : option Inner :=
  match h with
  | I_db p name => p ← write_at p buf offset; Some (I_db p name)
  | I_mem data =>
      let stop := (Z.to_nat offset + length buf)%nat in
      Some (I_mem (copy_into (if (length data <? stop)%nat then resize data stop else data) offset buf))
  end.

Definition handle_sync (h : Inner) (roots : Roots) : Inner * Roots :=
  match h with
  | I_db p name => let '(root, p) := commit p in (I_db p name, <[name := root]> roots)
  | I_mem _ => (h, roots)
  end.

Definition handle_set_len (h : Inner) (size : Z) : Inner :=
  match h with
  | I_db p name => I_db (set_page_count p (as_u32 (div_ceil size PAGE_SIZE))) name
  | I_mem data => I_mem (resize data (Z.to_nat size))
  end.

(** ** SQLite *)

Inductive SqlRun :=
  | Q_end (ok : bool)
  | Q_size (main : bool) (k : Z -> SqlRun)
  | Q_read (main : bool) (len offset : Z) (k : bytes -> SqlRun)
  | Q_write (main : bool) (buf : bytes) (offset : Z) (k : SqlRun)
  | Q_set_len (main : bool) (size : Z) (k : SqlRun)
  | Q_sync (main : bool) (k : SqlRun).

(** The run of a batch on an open database. *)
Class Sqlite := sql_batch : bytes -> SqlRun.

(** The two files of a connection. *)
Record Conn := mk_conn { c_main : Inner; c_journal : Inner }.

Definition pick (c : Conn) (main : bool) : Inner := if main then c_main c else c_journal c.
Definition put_back (c : Conn) (main : bool) (h : Inner) : Conn := if main then mk_conn h (c_journal c) else mk_conn (c_main c) h.

Fixpoint run_sql (q : SqlRun) (c : Conn) (roots : Roots) : bool * Conn * Roots :=
  match q with
  | Q_end ok => (ok, c, roots)
  | Q_size m k => run_sql (k (handle_size (pick c m))) c roots
  | Q_read m len off k => let '(b, h) := read_exact_at (pick c m) len off in run_sql (k b) (put_back c m h) roots
  | Q_write m buf off k =>
      match write_all_at (pick c m) buf off with
      | Some h => run_sql k (put_back c m h) roots
      | None => (false, c, roots)
      end
  | Q_set_len m size k => run_sql k (put_back c m (handle_set_len (pick c m) size)) roots
  | Q_sync m k => let '(h, roots) := handle_sync (pick c m) roots in run_sql k (put_back c m h) roots
  end.
End vfs.

Notation Roots := (gmap bytes key).

(** ** The durability manifest *)

Record GenManifest := mk_gens {
  gm_namespace : bytes;
  gm_last_root : option key;
  gm_seq : Z;
  gm_generations : list key;
  gm_manifest_cid : option key;
  gm_manifest_seq : Z;
  gm_releasing : list key
}.

Definition gens_default : GenManifest := mk_gens [] None 0 [] None 0 [].

Definition COMPACT_THRESHOLD : nat := 16.

(** ** Services *)

Inductive Task :=
  | T_publish_head (namespace : bytes) (root : key) (prev : option key) (seq : Z)
  | T_publish_manifest (namespace : bytes) (cid : key) (seq : Z)
  | T_drop_generation (cid : key).

Section db.
Context {World : Type}.
Context {B3 : Blake3} {DC : DekCipher} {PN : Postcard NodeMap} {PR : Postcard RootIndex}.
Context {PG : Postcard (list (key * bytes))} {PM : Postcard GenManifest} {PL : Postcard (list key)} {SQ : Sqlite}.

(** An [Err] of a service is [None]. *)
Record RootStore := mk_root_store {
  rs_resolve : key -> bytes -> World -> option (option (key * Z)) * World;
  rs_publish : bytes -> key -> option key -> Z -> World -> World
}.
Definition PageSource := key -> key -> World -> option (option bytes) * World.
Record DurableStore := mk_durable {
  put_generation : bytes -> World -> option key * World;
  get_generation : key -> World -> option (option bytes) * World;
  drop_generation : key -> World -> World
}.
Record ManifestStore := mk_manifest_store {
  ms_resolve : key -> bytes -> World -> option (option (key * Z)) * World;
  ms_publish : bytes -> key -> Z -> World -> World
}.

(** The keypair's two operations on a wrapped data key: decoding the capsule
    ([None] when the bytes are not one) and opening it, and a fresh key with
    its capsule. *)
Record EncKeypair := mk_enc { open_wrapped : bytes -> option (option Dek); fresh_wrapped : World -> (Dek * bytes) * World }.

Record CraftSql := mk_craft_sql {
  cs_heads : RootStore;
  cs_owner : key;
  cs_source : option PageSource;
  cs_durable : option DurableStore;
  cs_manifests : option ManifestStore;
  cs_enc : option EncKeypair
}.

Record Sql := mk_sql {
  sq_roots : Roots;
  sq_ciphers : gmap bytes (Dek * bytes);
  sq_fetchers : gmap bytes key;
  sq_dirs : gmap bytes (gmap key bytes);
  sq_flat : gmap key bytes;
  sq_gens : gmap bytes bytes;
  sq_tasks : list Task;
  sq_world : World
}.

Definition set_roots (s : Sql) (r : Roots) : Sql := mk_sql r (sq_ciphers s) (sq_fetchers s) (sq_dirs s) (sq_flat s) (sq_gens s) (sq_tasks s) (sq_world s).
Definition set_ciphers (s : Sql) (c : gmap bytes (Dek * bytes)) : Sql := mk_sql (sq_roots s) c (sq_fetchers s) (sq_dirs s) (sq_flat s) (sq_gens s) (sq_tasks s) (sq_world s).
Definition set_fetchers (s : Sql) (f : gmap bytes key) : Sql := mk_sql (sq_roots s) (sq_ciphers s) f (sq_dirs s) (sq_flat s) (sq_gens s) (sq_tasks s) (sq_world s).
Definition set_dir (s : Sql) (k : bytes) (d : gmap key bytes) : Sql := mk_sql (sq_roots s) (sq_ciphers s) (sq_fetchers s) (<[k := d]> (sq_dirs s)) (sq_flat s) (sq_gens s) (sq_tasks s) (sq_world s).
Definition set_world (s : Sql) (w : World) : Sql := mk_sql (sq_roots s) (sq_ciphers s) (sq_fetchers s) (sq_dirs s) (sq_flat s) (sq_gens s) (sq_tasks s) w.
Definition spawn (s : Sql) (t : Task) : Sql := mk_sql (sq_roots s) (sq_ciphers s) (sq_fetchers s) (sq_dirs s) (sq_flat s) (sq_gens s) (t :: sq_tasks s) (sq_world s).

(** [store_dir/<key>/], with reads falling back to the flat directory. *)
Definition db_store (s : Sql) (k : bytes) : ObjectStore := mk_store (default ∅ (sq_dirs s !! k)) (sq_flat s).

Definition open_db_store (s : Sql) (k : bytes) : result ObjectStore DbError :=
  if is_safe_component k then Ok (db_store s k) else Err E_io.

Definition load_manifest (s : Sql) (k : bytes) : GenManifest := default gens_default (sq_gens s !! k ≫= from_bytes).

Definition save_manifest (s : Sql) (k : bytes) (m : GenManifest) : Sql :=
  mk_sql (sq_roots s) (sq_ciphers s) (sq_fetchers s) (sq_dirs s) (sq_flat s) (<[k := to_allocvec m]> (sq_gens s)) (sq_tasks s) (sq_world s).

Definition run_task (cfg : CraftSql) (t : Task) (w : World) : World :=
  match t with
  | T_publish_head ns root prev seq => rs_publish (cs_heads cfg) ns root prev seq w
  | T_publish_manifest ns cid seq => match cs_manifests cfg with Some m => ms_publish m ns cid seq w | None => w end
  | T_drop_generation cid => match cs_durable cfg with Some d => drop_generation d cid w | None => w end
  end.

(** A spawned task runs, at any time, in any order. *)
Inductive task_step (cfg : CraftSql) : Sql -> Sql -> Prop :=
  | ts_run s l1 t l2 : sq_tasks s = l1 ++ t :: l2 ->
      task_step cfg s (mk_sql (sq_roots s) (sq_ciphers s) (sq_fetchers s) (sq_dirs s) (sq_flat s) (sq_gens s) (l1 ++ l2) (run_task cfg t (sq_world s))).

(** ** Syncing *)

Notation Fetching := (ObjectStore * World)%type.

Definition ensure (src : PageSource) (owner : key) (cid : key) (st : Fetching) : result bytes DbError * Fetching :=
  let '(s, w) := st in
  match store_get s cid with
  | Some b => (Ok b, (s, w))
  | None =>
      let '(r, w) := src owner cid w in
      match r with
      | None => (Err E_sqlite, (s, w))
      | Some None => (Err E_corrupt, (s, w))
      | Some (Some b) =>
          let '(c, s) := store_put s b in
          (if bool_decide (c = cid) then Ok b else Err E_corrupt, (s, w))
      end
  end.

Fixpoint ensure_all (src : PageSource) (owner : key) (cids : list key) (st : Fetching) : result unit DbError * Fetching :=
  match cids with
  | [] => (Ok tt, st)
  | cid :: cids' =>
      match ensure src owner cid st with
      | (Ok _, st) => ensure_all src owner cids' st
      | (Err e, st) => (Err e, st)
      end
  end.

(** The nodes of one level: the ids of the next one. *)
Fixpoint sync_frontier (src : PageSource) (owner : key) (c : option Dek) (leaf fetch_pages : bool) (fr : list key) (st : Fetching) :
  result (list key) DbError * Fetching :=
  match fr with
  | [] => (Ok [], st)
  | ncid :: fr' =>
      match ensure src owner ncid st with
      | (Err e, st) => (Err e, st)
      | (Ok b, st) =>
          match decode_node_sealed c b with
          | Err e => (Err (of_pager e), st)
          | Ok node =>
              let cs := map snd (btree_iter node) in
              match (if leaf && fetch_pages then ensure_all src owner cs st else (Ok tt, st)) with
              | (Err e, st) => (Err e, st)
              | (Ok _, st) =>
                  match sync_frontier src owner c leaf fetch_pages fr' st with
                  | (Ok next, st) => (Ok ((if leaf then [] else cs) ++ next), st)
                  | (Err e, st) => (Err e, st)
                  end
              end
          end
      end
  end.

Fixpoint sync_levels (src : PageSource) (owner : key) (c : option Dek) (fetch_pages : bool) (level : nat) (fr : list key) (st : Fetching) :
  result unit DbError * Fetching :=
  match sync_frontier src owner c (bool_decide (level = 0%nat)) fetch_pages fr st with
  | (Err e, st) => (Err e, st)
  | (Ok next, st) => match level with O => (Ok tt, st) | S l => sync_levels src owner c fetch_pages l next st end
  end.

Definition unwrap_dek (root_bytes : bytes) (enc : option EncKeypair) : option Dek :=
  match decode_root root_bytes with
  | Err _ => None
  | Ok ri => if bool_decide (ri_wrapped_dek ri = []) then None else kp ← enc; dek ← open_wrapped kp (ri_wrapped_dek ri); dek
  end.

Definition sync_reachable (cfg : CraftSql) (owner : key) (k : bytes) (root : key) (fetch_pages : bool) (s : Sql) : result unit DbError * Sql :=
  match cs_source cfg with
  | None => (Ok tt, s)
  | Some src =>
      match open_db_store s k with
      | Err e => (Err e, s)
      | Ok store =>
          let back st := set_world (set_dir s k (root_dir st.1)) st.2 in
          match ensure src owner root (store, sq_world s) with
          | (Err e, st) => (Err e, back st)
          | (Ok b, st) =>
              match decode_root b with
              | Err e => (Err (of_pager e), back st)
              | Ok ri =>
                  match ri_depth ri with
                  | O => (Ok tt, back st)
                  | S l =>
                      let '(r, st) := sync_levels src owner (unwrap_dek b (cs_enc cfg)) fetch_pages l [root_cid ri] st in (r, back st)
                  end
              end
          end
      end
  end.

(** ** Opening *)

Definition register_cipher_existing (cfg : CraftSql) (k : bytes) (root : key) (s : Sql) : result unit DbError * Sql :=
  match cs_enc cfg with
  | None => (Ok tt, s)
  | Some kp =>
      match open_db_store s k with
      | Err e => (Err e, s)
      | Ok store =>
          match store_get store root with
          | None => (Ok tt, s)
          | Some b =>
              match decode_root b with
              | Err e => (Err (of_pager e), s)
              | Ok ri =>
                  if bool_decide (ri_wrapped_dek ri = []) then (Ok tt, s)
                  else match open_wrapped kp (ri_wrapped_dek ri) with
                       | None => (Err E_serde, s)
                       | Some None => (Ok tt, s)
                       | Some (Some dek) => (Ok tt, set_ciphers s (<[k := (dek, ri_wrapped_dek ri)]> (sq_ciphers s)))
                       end
              end
          end
      end
  end.

Definition register_cipher_new (cfg : CraftSql) (k : bytes) (s : Sql) : Sql :=
  match cs_enc cfg with
  | None => s
  | Some kp => let '(d, w) := fresh_wrapped kp (sq_world s) in set_ciphers (set_world s w) (<[k := d]> (sq_ciphers s))
  end.

(** The handle of [spawn_fetcher]: it asks the source for the owner's object. *)
Definition fetcher (cfg : CraftSql) (owner : key) (w : World) (cid : key) : option bytes :=
  src ← cs_source cfg; mjoin (src owner cid w).1.

(** [CraftVfs::open] of the main file. *)
Definition vfs_open (cfg : CraftSql) (s : Sql) (k : bytes) : result Pager DbError :=
  match open_db_store s k with
  | Err e => Err e
  | Ok store =>
      let c := sq_ciphers s !! k in
      match (match sq_roots s !! k with
             | Some root => Pager.open store root (fst <$> c)
             | None => Ok (Pager.create store)
             end) with
      | Err e => Err (of_pager e)
      | Ok p =>
          let p := match sq_fetchers s !! k with Some owner => set_remote p (fetcher cfg owner (sq_world s)) | None => p end in
          Ok (match c with Some (dek, wrapped) => set_wrapped_dek (set_cipher p dek) wrapped | None => p end)
      end
  end.

Record CraftDb := mk_db {
  db_conn : Conn;
  db_writable : bool;
  db_durable : option DurableStore;
  db_manifests : option ManifestStore;
  db_name : bytes;
  db_namespace : bytes;
  db_seq : Z;
  db_dek : option Dek
}.

(** The authoritative head: the sidecar's for one's own database. *)
Definition open_head (cfg : CraftSql) (owner : key) (namespace k : bytes) (writable : bool) (s : Sql) : option (option (key * Z)) * Sql :=
  let m := load_manifest s k in
  match writable, gm_last_root m with
  | true, Some r => (Some (Some (r, gm_seq m)), s)
  | _, _ => let '(r, w) := rs_resolve (cs_heads cfg) owner namespace (sq_world s) in (r, set_world s w)
  end.

Definition open_at_head (cfg : CraftSql) (owner : key) (k : bytes) (writable private_hint : bool) (head : option (key * Z)) (s : Sql) : result Z DbError * Sql :=
  match head with
  | Some (root, seq) =>
      let lazy := negb writable && bool_decide (is_Some (cs_source cfg)) in
      match sync_reachable cfg owner k root (negb lazy) s with
      | (Err e, s) => (Err e, s)
      | (Ok _, s) =>
          let s := if lazy then set_fetchers s (<[k := owner]> (sq_fetchers s)) else s in
          match register_cipher_existing cfg k root (set_roots s (<[k := root]> (sq_roots s))) with
          | (Err e, s) => (Err e, s)
          | (Ok _, s) => (Ok seq, s)
          end
      end
  | None =>
      let s := set_roots s (delete k (sq_roots s)) in
      (Ok 0, if private_hint then register_cipher_new cfg k s else s)
  end.

(** The statements a connection opens with ([PRAGMA ..]). *)
Definition OPEN_BATCH : bytes := str_bytes "PRAGMA page_size=16384; PRAGMA synchronous=FULL;".

Definition open_as (cfg : CraftSql) (owner : key) (namespace : bytes) (writable private_hint : bool) (s : Sql) : result CraftDb DbError * Sql :=
  if negb (is_safe_component namespace) then (Err E_sqlite, s)
  else
    let k := db_key owner namespace in
    match open_head cfg owner namespace k writable s with
    | (None, s) => (Err E_sqlite, s)
    | (Some head, s) =>
        match open_at_head cfg owner k writable private_hint head s with
        | (Err e, s) => (Err e, s)
        | (Ok seq, s) =>
            match vfs_open cfg s k with
            | Err e => (Err e, s)
            | Ok p =>
                let '(ok, conn, roots) := run_sql (sql_batch OPEN_BATCH) (mk_conn (I_db p k) (I_mem [])) (sq_roots s) in
                let s := match c_main conn with I_db p _ => set_dir (set_roots s roots) k (root_dir (store p)) | I_mem _ => s end in
                if ok : bool then
                  (Ok (mk_db conn writable (if writable then cs_durable cfg else None) (if writable then cs_manifests cfg else None) k namespace seq
                    (fst <$> sq_ciphers s !! k)), s)
                else (Err E_sqlite, s)
            end
        end
    end.

Definition open_own (cfg : CraftSql) (namespace : bytes) (s : Sql) : result CraftDb DbError * Sql := open_as cfg (cs_owner cfg) namespace true false s.
Definition open_private (cfg : CraftSql) (namespace : bytes) (s : Sql) : result CraftDb DbError * Sql := open_as cfg (cs_owner cfg) namespace true true s.
Definition open_reader (cfg : CraftSql) (owner : key) (namespace : bytes) (s : Sql) : result CraftDb DbError * Sql := open_as cfg owner namespace false false s.

(** ** Compaction *)

(** The old generations but the base, dropped in the background. *)
Definition spawn_drops (s : Sql) (old : list key) (base : key) : Sql :=
  foldl (fun s g => if bool_decide (g = base) then s else spawn s (T_drop_generation g)) s old.

(** Publishing the generation list as an object, and its head in the
    background. *)
Definition publish_list (d : DurableStore) (ms : option ManifestStore) (namespace : bytes) (m : GenManifest) (s : Sql) : option GenManifest * Sql :=
  match ms with
  | None => (Some m, s)
  | Some _ =>
      let '(r, w) := put_generation d (to_allocvec (gm_generations m)) (sq_world s) in
      let s := set_world s w in
      match r with
      | None => (None, s)
      | Some cid =>
          let seq := gm_manifest_seq m + 1 in
          (Some (mk_gens (gm_namespace m) (gm_last_root m) (gm_seq m) (gm_generations m) (Some cid) seq (gm_releasing m)),
           spawn s (T_publish_manifest namespace cid seq))
      end
  end.

Definition set_generations (m : GenManifest) (gs : list key) : GenManifest :=
  mk_gens (gm_namespace m) (gm_last_root m) (gm_seq m) gs (gm_manifest_cid m) (gm_manifest_seq m) (gm_releasing m).

(** The objects of a list of ids that the store has. *)
Definition objects_of (st : ObjectStore) (cids : list key) : list (key * bytes) :=
  omap (fun c => b ← store_get st c; Some (c, b)) cids.

Definition run_compaction (d : DurableStore) (ms : option ManifestStore) (k namespace : bytes) (root : key) (c : option Dek) (s : Sql) : result nat DbError * Sql :=
  match open_db_store s k with
  | Err e => (Err e, s)
  | Ok store =>
      let m := load_manifest s k in
      if (length (gm_generations m) <=? 1)%nat then (Ok 0%nat, s)
      else
        match reachable store root c with
        | Err e => (Err (of_pager e), s)
        | Ok l =>
            let live : gset key := list_to_set l in
            let '(r, w) := put_generation d (pack (objects_of store (elements live))) (sq_world s) in
            let s := set_world s w in
            match r with
            | None => (Err E_sqlite, s)
            | Some base =>
                match publish_list d ms namespace (set_generations m [base]) s with
                | (None, s) => (Err E_sqlite, s)
                | (Some m', s) =>
                    let s := save_manifest (spawn_drops s (gm_generations m) base) k m' in
                    let kept := filter (fun kv => kv.1 ∈ live) (root_dir store) in
                    (Ok (size (root_dir store) - size kept)%nat, set_dir s k kept)
                end
            end
        end
  end.

Definition compact (cfg : CraftSql) (namespace : bytes) (s : Sql) : result nat DbError * Sql :=
  match cs_durable cfg with
  | None => (Err E_sqlite, s)
  | Some d =>
      let k := db_key (cs_owner cfg) namespace in
      let '(r, w) := rs_resolve (cs_heads cfg) (cs_owner cfg) namespace (sq_world s) in
      let s := set_world s w in
      match r with
      | None => (Err E_sqlite, s)
      | Some head =>
          match (match head with Some (root, _) => Some root | None => gm_last_root (load_manifest s k) end) with
          | None => (Err E_sqlite, s)
          | Some root =>
              let c := match open_db_store s k with
                | Ok st => b ← store_get st root; unwrap_dek b (cs_enc cfg)
                | Err _ => None
                end in
              run_compaction d (cs_manifests cfg) k namespace root c s
          end
      end
  end.

(** ** Writing *)

Definition sweep_durability (db : CraftDb) (root : key) (s : Sql) : result unit DbError * Sql :=
  match db_durable db with
  | None => (Ok tt, s)
  | Some d =>
      let k := db_name db in
      match open_db_store s k with
      | Err e => (Err e, s)
      | Ok store =>
          let m := load_manifest s k in
          if bool_decide (gm_last_root m = Some root) then (Ok tt, s)
          else
            match (match gm_last_root m with Some r => reachable store r (db_dek db) | None => Ok [] end) with
            | Err e => (Err (of_pager e), s)
            | Ok prev =>
                match reachable store root (db_dek db) with
                | Err e => (Err (of_pager e), s)
                | Ok l =>
                    let fresh := objects_of store (filter (fun c => c ∉ prev) l) in
                    let stored := match fresh with
                      | [] => (Some None, s)
                      | _ => let '(r, w) := put_generation d (pack fresh) (sq_world s) in
                             (match r with Some g => Some (Some g) | None => None end, set_world s w)
                      end in
                    match stored with
                    | (None, s) => (Err E_sqlite, s)
                    | (Some g, s) =>
                        let gens := gm_generations m ++ option_list g in
                        let m := mk_gens (db_namespace db) (Some root) (db_seq db) gens (gm_manifest_cid m) (gm_manifest_seq m) (gm_releasing m) in
                        match (match g with Some _ => publish_list d (db_manifests db) (db_namespace db) m s | None => (Some m, s) end) with
                        | (None, s) => (Err E_sqlite, s)
                        | (Some m, s) =>
                            let s := save_manifest s k m in
                            if (COMPACT_THRESHOLD <=? length (gm_generations m))%nat then
                              match run_compaction d (db_manifests db) k (db_namespace db) root (db_dek db) s with
                              | (Ok _, s) => (Ok tt, s)
                              | (Err e, s) => (Err e, s)
                              end
                            else (Ok tt, s)
                        end
                    end
                end
            end
      end
  end.

(** The connection's pager works on the database's directory. *)
Definition attach (s : Sql) (db : CraftDb) : Conn :=
  match c_main (db_conn db) with
  | I_db p name => mk_conn (I_db (with_store p (db_store s (db_name db))) name) (c_journal (db_conn db))
  | I_mem _ => db_conn db
  end.

Definition with_conn (db : CraftDb) (c : Conn) (seq : Z) : CraftDb :=
  mk_db c (db_writable db) (db_durable db) (db_manifests db) (db_name db) (db_namespace db) seq (db_dek db).

(** [execute_batch] on the connection. *)
Definition execute_batch (db : CraftDb) (sql : bytes) (s : Sql) : bool * CraftDb * Sql :=
  let '(ok, conn, roots) := run_sql (sql_batch sql) (attach s db) (sq_roots s) in
  let dir := match c_main conn with I_db p _ => root_dir (store p) | I_mem _ => default ∅ (sq_dirs s !! db_name db) end in
  (ok, with_conn db conn (db_seq db), set_dir (set_roots s roots) (db_name db) dir).

Definition write (db : CraftDb) (sql : bytes) (s : Sql) : result unit DbError * CraftDb * Sql :=
  if negb (db_writable db) then (Err E_read_only, db, s)
  else
    let prev := sq_roots s !! db_name db in
    match execute_batch db sql s with
    | (false, db, s) => (Err E_sqlite, db, s)
    | (true, db, s) =>
        match sq_roots s !! db_name db with
        | Some root =>
            if bool_decide (Some root = prev) then (Ok tt, db, s)
            else
              match checked_add (db_seq db) 1 with
              | None => (Err E_panic, db, s)
              | Some seq =>
                  let db := with_conn db (db_conn db) seq in
                  let s := spawn s (T_publish_head (db_namespace db) root prev seq) in
                  let '(r, s) := sweep_durability db root s in (r, db, s)
              end
        | None => (Ok tt, db, s)
        end
    end.

(** ** Recovery *)

(** The generation list: the published manifest's, or the sidecar's. *)
Definition generation_list (cfg : CraftSql) (d : DurableStore) (owner : key) (namespace k : bytes) (s : Sql) : result (list key) DbError * Sql :=
  match cs_manifests cfg with
  | None => (Ok (gm_generations (load_manifest s k)), s)
  | Some ms =>
      let '(r, w) := ms_resolve ms owner namespace (sq_world s) in
      let s := set_world s w in
      match r with
      | None => (Err E_sqlite, s)
      | Some None => (Ok (gm_generations (load_manifest s k)), s)
      | Some (Some (cid, _)) =>
          let '(b, w) := get_generation d cid (sq_world s) in
          let s := set_world s w in
          match b with
          | None => (Err E_sqlite, s)
          | Some None => (Err E_corrupt, s)
          | Some (Some b) => (match from_bytes b with Some l => Ok l | None => Err E_corrupt end, s)
          end
      end
  end.

Fixpoint restore_objects (objs : list (key * bytes)) (st : ObjectStore) (n : nat) : result nat DbError * ObjectStore :=
  match objs with
  | [] => (Ok n, st)
  | (cid, data) :: objs' =>
      if store_has st cid then restore_objects objs' st n
      else
        let '(c, st) := store_put st data in
        if bool_decide (c = cid) then restore_objects objs' st (S n) else (Err E_corrupt, st)
  end.

Fixpoint restore_generations (d : DurableStore) (gens : list key) (st : ObjectStore) (w : World) (n : nat) : result nat DbError * ObjectStore * World :=
  match gens with
  | [] => (Ok n, st, w)
  | g :: gens' =>
      let '(b, w) := get_generation d g w in
      match b with
      | None => (Err E_sqlite, st, w)
      | Some None => (Err E_corrupt, st, w)
      | Some (Some blob) =>
          match unpack blob with
          | Err e => (Err (of_pager e), st, w)
          | Ok objs =>
              match restore_objects objs st n with
              | (Ok n, st) => restore_generations d gens' st w n
              | (Err e, st) => (Err e, st, w)
              end
          end
      end
  end.

Definition recover_owner (cfg : CraftSql) (owner : key) (namespace : bytes) (s : Sql) : result nat DbError * Sql :=
  match cs_durable cfg with
  | None => (Err E_sqlite, s)
  | Some d =>
      let k := db_key owner namespace in
      match open_db_store s k with
      | Err e => (Err e, s)
      | Ok _ =>
          match generation_list cfg d owner namespace k s with
          | (Err e, s) => (Err e, s)
          | (Ok gens, s) =>
              let '(r, st, w) := restore_generations d gens (db_store s k) (sq_world s) 0 in
              (r, set_world (set_dir s k (root_dir st)) w)
          end
      end
  end.

Definition recover (cfg : CraftSql) (namespace : bytes) (s : Sql) : result nat DbError * Sql := recover_owner cfg (cs_owner cfg) namespace s.

(** ** Serving pages ([net.rs]) *)

(** The flat directory, then the directories of the databases, in the order
    the directory is listed. *)
Definition find_object (s : Sql) (listing : list bytes) (cid : key) : option bytes :=
  match sq_flat s !! cid with
  | Some b => Some b
  | None => head (omap (fun name => if (length name =? 2)%nat then None else d ← sq_dirs s !! name; d !! cid) listing)
  end.

(** One request of [serve_pages]: the reply, [None] where the stream is
    dropped. *)
Definition serve_page (s : Sql) (listing : list bytes) (req : bytes) : option bytes :=
  if (64 <? length req)%nat then None
  else if (length req =? 32)%nat then Some (default [] (find_object s listing req)) else Some [].

Definition owner_addr {A} (peers : list (key * A)) (owner : key) : option A := ix ← list_find (fun x => x.1 = owner) peers; Some ix.2.2.

(** [TransportPageSource::fetch]. *)
Definition page_fetch {A} (peers : list (key * A)) (request : A -> bytes -> World -> option bytes * World) : PageSource := fun owner cid w =>
  match owner_addr peers owner with
  | None => (None, w)
  | Some addr =>
      match request addr cid w with
      | (None, w) => (None, w)
      | (Some [], w) => (Some None, w)
      | (Some data, w) => (Some (Some data), w)
      end
  end.
End db.
