(* ===== verification/SqlDurable.v ===== *)
(** CraftSQL databases ([SqlDb]): what a batch of statements does to a
    connection, that every successful write leaves the whole database in the
    durable generations, through compaction too, and that recovery from them
    gives the database back. *)

From S2P Require Import Prelude Crypto Pager PagerIndex PagerCommit PagerFile SqlReach SqlDb.

Open Scope Z_scope.

#[local] Arguments children_of : simpl never.
#[local] Opaque children_of.

Section conn.
Context `{Blake3} `{DekCipherLaws} `{PostcardLaws NodeMap} `{PostcardLaws RootIndex}.
Context (blake3_inj : forall a b, blake3 a = blake3 b -> a = b).

(** ** The pager under a connection *)

Definition conn_ok (p : Pager) : Prop := pager_ok p /\ local p.

(** The same key, and a store that only grew. *)
Record grown (p p' : Pager) : Prop := {
  gr_cipher : cipher p' = cipher p;
  gr_fallback : fallback (store p') = fallback (store p);
  gr_mono : forall cid b, store_get (store p) cid = Some b -> store_get (store p') cid = Some b
}.

#[local] Instance grown_preorder : PreOrder grown.
Proof. split; [by intros p; constructor|]. intros a b c [] []. constructor; [congruence|congruence|auto]. Qed.

Lemma grown_same p p' : cipher p' = cipher p -> store p' = store p -> grown p p'.
Proof. intros Ec Es. by constructor; rewrite ?Es. Qed.

Lemma store_put_fallback s b : fallback (store_put s b).2 = fallback s.
Proof. unfold store_put. by destruct (root_dir s !! _). Qed.

Lemma flush_fallback l p : fallback (store (foldl flush_page p l)) = fallback (store p).
Proof.
  revert p. induction l as [|[k d] l IH]; intros p; cbn [foldl]; [done|]. rewrite IH. unfold flush_page.
  match goal with |- context [store_put ?s ?b] => pose proof (store_put_fallback s b); destruct (store_put s b) end. done.
Qed.

Lemma rebuild_node_fallback level p nk : fallback (store (rebuild_node level p nk)) = fallback (store p).
Proof.
  unfold rebuild_node. case_bool_decide; [done|].
  match goal with |- context [store_put ?s ?b] => pose proof (store_put_fallback s b); destruct (store_put s b) end. done.
Qed.

Lemma rebuild_levels_fallback n level ks p : fallback (store (rebuild_levels n level ks p)) = fallback (store p).
Proof.
  revert level ks p. induction n as [|n IH]; intros level ks p; cbn [rebuild_levels]; [done|]. rewrite IH.
  generalize (sort (elements ks)). intros l. revert p. induction l as [|k l IHl]; intros p; cbn [foldl]; [done|]. by rewrite IHl, rebuild_node_fallback.
Qed.

Lemma rebuild_fallback p ks : fallback (store (rebuild p ks)) = fallback (store p).
Proof. unfold rebuild. destruct (depth p) eqn:E; [done|]. apply rebuild_levels_fallback. Qed.

Lemma commit_fallback p : fallback (store (commit p).2) = fallback (store p).
Proof.
  assert (Hf : fallback (store (flush p)) = fallback (store p)) by (unfold flush; cbn; apply flush_fallback).
  unfold commit. case_bool_decide;
    match goal with |- context [store_put ?s ?b] => pose proof (store_put_fallback s b) as Hp; destruct (store_put s b) end;
    cbn [fst snd] in *; cbn [store with_store]; by rewrite Hp, rebuild_fallback.
Qed.

Lemma commit_grown p : pager_ok p -> grown p (commit p).2.
Proof.
  intros Hp. pose proof (commit_spec blake3_inj p Hp) as Hc. constructor; [by rewrite (cm_eq _ _ _ Hc)|apply commit_fallback|apply (cm_mono _ _ _ Hc)].
Qed.

Lemma commit_conn_ok p : conn_ok p -> conn_ok (commit p).2.
Proof. intros [Hp Hl]. split; [by eapply committed_ok, commit_spec|by eapply commit_local; [apply commit_spec|]]. Qed.

Lemma read_at_local p len off : local p -> (read_at p len off).2 = p.
Proof.
  intros Hl. unfold read_at. generalize (Z.to_nat len) as fuel. intros fuel. revert len off.
  induction fuel as [|fuel IH]; intros len off; cbn [read_loop]; [done|]. destruct (len <=? 0); [done|].
  pose proof (read_local p (as_u32 (off / PAGE_SIZE)) Hl) as E. destruct (read_page p _) as [b p1]. cbn in E. subst p1.
  specialize (IH (len - Z.min (PAGE_SIZE - off mod PAGE_SIZE) len) (off + Z.min (PAGE_SIZE - off mod PAGE_SIZE) len)).
  by destruct (read_loop fuel p _ _).
Qed.

Lemma write_at_keeps p buf off p' :
  local p -> write_at p buf off = Some p' -> store p' = store p /\ pages p' = pages p /\ cipher p' = cipher p.
Proof.
  unfold write_at. generalize (length buf) as fuel. intros fuel. revert p buf off.
  induction fuel as [|fuel IH]; intros p buf off Hl; cbn [write_loop]; [by intros [= <-]|].
  destruct buf as [|b buf]; [by intros [= <-]|].
  pose proof (read_local p (as_u32 (off / PAGE_SIZE)) Hl) as E. destruct (read_page p _) as [pd p1]. cbn in E. subst p1.
  intros (p2 & Hw & He)%bind_Some. unfold write_page in Hw. destruct (_ =? U32_MAX); [done|]. injection Hw as <-.
  apply IH in He; [done|]. exact Hl.
Qed.

Lemma write_conn_ok p buf off p' : conn_ok p -> write_at p buf off = Some p' -> conn_ok p' /\ grown p p'.
Proof.
  intros [Hp Hl] Hw. destruct (write_at_keeps p buf off p' Hl Hw) as (Es & Ep & Ec).
  split; [split; [by eapply write_at_ok|]|by apply grown_same]. intros k cid. rewrite Ep, Es. apply Hl.
Qed.

Lemma resize_conn_ok p n : conn_ok p -> 0 <= n <= U32_MAX -> conn_ok (set_page_count p n) /\ grown p (set_page_count p n).
Proof.
  intros [Hp Hl] Hn. split; [|by apply grown_same]. split; [by apply set_page_count_ok|].
  intros k cid [Hk _]%map_lookup_filter_Some. by apply Hl in Hk.
Qed.

(** ** A batch of statements *)

(** The pager as the last sync of the main file finds it. *)
Fixpoint last_sync (q : SqlRun) (c : Conn) (acc : option Pager) : option Pager :=
  match q with
  | Q_end _ => acc
  | Q_size m k => last_sync (k (handle_size (pick c m))) c acc
  | Q_read m len off k => let '(b, h) := read_exact_at (pick c m) len off in last_sync (k b) (put_back c m h) acc
  | Q_write m buf off k => match write_all_at (pick c m) buf off with Some h => last_sync k (put_back c m h) acc | None => acc end
  | Q_set_len m size k => last_sync k (put_back c m (handle_set_len (pick c m) size)) acc
  | Q_sync m k =>
      last_sync k (put_back c m (handle_sync (pick c m) ∅).1) (match pick c m with I_db p _ => Some p | I_mem _ => acc end)
  end.

(** The roots a batch leaves, given the pager of its last sync. *)
Definition roots_after (k : bytes) (acc : option Pager) (roots : Roots) : Roots :=
  match acc with Some p0 => <[k := (commit p0).1]> roots | None => roots end.

Lemma run_sql_ok (q : SqlRun) (k : bytes) (roots : Roots) (p : Pager) (j : bytes) (acc : option Pager) (start : Pager) :
  conn_ok p -> grown start p -> (forall p0, acc = Some p0 -> conn_ok p0 /\ grown start p0) ->
  let c := mk_conn (I_db p k) (I_mem j) in
  let '(_, c', roots') := run_sql q c (roots_after k acc roots) in
  exists p' j', c' = mk_conn (I_db p' k) (I_mem j') /\ conn_ok p' /\ grown start p' /\
    roots' = roots_after k (last_sync q c acc) roots /\ forall p0, last_sync q c acc = Some p0 -> conn_ok p0 /\ grown start p0.
Proof.
  revert p j acc. induction q as [ok|m f IH|m len off f IH|m buf off q IH|m size q IH|m q IH]; intros p j acc Hp Hg Hacc; cbn [run_sql last_sync].
  - by exists p, j.
  - by apply IH.
  - destruct m; cbn [pick c_main c_journal read_exact_at].
    + pose proof (read_at_local p len off (proj2 Hp)) as E. destruct (read_at p len off) as [b p1]. cbn in E. subst p1. by apply IH.
    + by apply IH.
  - destruct m; cbn [pick c_main c_journal write_all_at].
    + destruct (write_at p buf off) as [p1|] eqn:E; cbn [mbind option_bind]; [|by exists p, j].
      destruct (write_conn_ok p buf off p1 Hp E) as [Hp1 Hg1]. apply IH; [done|by etrans|done].
    + by apply IH.
  - destruct m; cbn [pick c_main c_journal handle_set_len]; [|by apply IH].
    destruct (resize_conn_ok p (as_u32 (div_ceil size PAGE_SIZE)) Hp) as [Hp1 Hg1].
    { unfold as_u32, U32_MAX. pose proof (Z.mod_pos_bound (div_ceil size PAGE_SIZE) 4294967296). lia. }
    apply IH; [done|by etrans|done].
  - destruct m; cbn [pick c_main c_journal handle_sync]; [|by apply IH].
    pose proof (commit_conn_ok p Hp) as Hp1. pose proof (commit_grown p (proj1 Hp)) as Hg1.
    assert (Hr : <[k := (commit p).1]> (roots_after k acc roots) = roots_after k (Some p) roots) by (destruct acc; cbn; by rewrite ?insert_insert_eq).
    destruct (commit p) as [r p1] eqn:Ec. cbn [fst snd] in *. rewrite Hr.
    specialize (IH p1 j (Some p) Hp1). cbn in IH. rewrite Ec in IH. cbn [fst] in IH. unfold roots_after. rewrite Ec. apply IH; [by etrans|].
    intros p0 [= <-]. done.
Qed.

(** A pager just committed works on any store with its objects. *)
Lemma swap_conn_ok p s :
  conn_ok p -> has_page p -> store_ok s ->
  (forall x, object_of (cipher p) (commit p).1 (pages (commit p).2) (page_count p) x -> store_get s x = store_get (store (commit p).2) x) ->
  conn_ok (with_store (commit p).2 s).
Proof.
  intros [Hp Hl] Hh Hs Ha. pose proof (commit_spec blake3_inj p Hp) as Hc. pose proof (commit_rooted blake3_inj p Hp Hl Hh) as Hr.
  pose proof (rooted_agree _ s _ _ _ _ _ Hr Ha) as Hr'. pose proof (committed_ok p _ _ Hp Hc) as Hok. pose proof (cm_eq _ _ _ Hc) as E.
  assert (Ed : depth (commit p).2 = depth_for (page_count p)) by by rewrite E.
  assert (Ei : dirty_index (commit p).2 = ∅) by by rewrite E. assert (Ec : cipher (commit p).2 = cipher p) by by rewrite E.
  split; [|intros k cid; apply (ro_local _ _ _ _ _ _ Hr')].
  destruct Hok. constructor; cbn; try done. intros l nk Hlt Hv Hcl. destruct (po_nodes l nk Hlt Hv Hcl) as [Hn _].
  split; [exact Hn|]. cbn. rewrite Ec. rewrite Ed in Hlt. destruct (depth_for (page_count p)) as [|d] eqn:Edp; [lia|].
  intros cid Hcid. apply (ro_nodes _ _ _ _ _ _ Hr' d Edp); [lia|done|done].
Qed.
End conn.

(** ** What the durable store promises *)

(** A generation it took is held, nothing else is lost by taking it, and a
    generation it holds can be fetched. *)
Class DurableLaws {World : Type} (d : DurableStore (World := World)) := {
  held : World -> gmap key bytes;
  put_held : forall blob w g w', put_generation d blob w = (Some g, w') -> held w' !! g = Some blob;
  put_keeps : forall blob w g b, held w !! g = Some b -> held (put_generation d blob w).2 !! g = Some b;
  get_held : forall g w b, held w !! g = Some b -> exists w', get_generation d g w = (Some (Some b), w') /\ held w' = held w
}.

Section durable.
Context {World : Type}.
Context {B3 : Blake3} {DC : DekCipher} {DL : DekCipherLaws}.
Context {PN : Postcard NodeMap} {PNL : PostcardLaws NodeMap} {PR : Postcard RootIndex} {PRL : PostcardLaws RootIndex}.
Context {PG : Postcard (list (key * bytes))} {PGL : PostcardLaws (list (key * bytes))}.
Context {PM : Postcard GenManifest} {PML : PostcardLaws GenManifest} {PL : Postcard (list key)}.
Context (blake3_inj : forall a b, blake3 a = blake3 b -> a = b).
Context (d : DurableStore (World := World)) {LD : DurableLaws d}.

Implicit Types (s : Sql (World := World)) (w : World) (k : bytes) (m : GenManifest).

(** ** Generations *)

Definition held_le w w' : Prop := forall g b, held w !! g = Some b -> held w' !! g = Some b.

#[local] Instance held_le_preorder : PreOrder held_le.
Proof. split; [by intros w g b|]. intros a b c H1 H2 g x Hg. auto. Qed.

(** A held generation that unpacks, with its objects. *)
Definition gen_holds w (g : key) (objs : list (key * bytes)) : Prop :=
  exists blob, held w !! g = Some blob /\ unpack blob = Ok objs.

(** Every generation of the list can be restored, and the objects are in
    them. *)
Record saved w (gens : list key) (P : key -> Prop) : Prop := {
  sv_gens : forall g, g ∈ gens -> exists objs, gen_holds w g objs;
  sv_objs : forall x, P x -> exists g objs, g ∈ gens /\ gen_holds w g objs /\ x ∈ map fst objs
}.

Lemma gen_holds_le w w' g objs : held_le w w' -> gen_holds w g objs -> gen_holds w' g objs.
Proof. intros Hle (blob & Hg & Hu). exists blob. auto. Qed.

Lemma saved_le w w' gens P : held_le w w' -> saved w gens P -> saved w' gens P.
Proof.
  intros Hle [Hg Ho]. split.
  - intros g Hin. destruct (Hg g Hin) as [objs Hh]. exists objs. by eapply gen_holds_le.
  - intros x Hx. destruct (Ho x Hx) as (g & objs & Hin & Hh & Hm). exists g, objs. split; [done|]. split; [by eapply gen_holds_le|done].
Qed.

Lemma saved_app w g1 g2 P1 P2 : saved w g1 P1 -> saved w g2 P2 -> saved w (g1 ++ g2) (fun x => P1 x \/ P2 x).
Proof.
  intros [Ha Hb] [Hc Hd]. split.
  - intros g [|]%elem_of_app; auto.
  - intros x [Hx|Hx]; [destruct (Hb x Hx) as (g & objs & Hin & ?)|destruct (Hd x Hx) as (g & objs & Hin & ?)];
      exists g, objs; (split; [apply elem_of_app; auto|done]).
Qed.

Lemma saved_weaken w gens (P Q : key -> Prop) : (forall x, Q x -> P x) -> saved w gens P -> saved w gens Q.
Proof. intros HQ [Hg Ho]. split; auto. Qed.

Lemma put_le blob w : held_le w (put_generation d blob w).2.
Proof. intros g b. apply put_keeps. Qed.

Lemma objects_of_verify st l : store_ok st -> Forall (fun cd => Cid_of cd.2 = cd.1) (objects_of st l).
Proof.
  intros Hs. apply list.Forall_forall. intros [x b] (y & _ & Hy)%list_elem_of_omap.
  apply bind_Some in Hy as (b' & Hb & [= <- <-]). cbn. symmetry. by eapply store_get_cid.
Qed.

Lemma objects_of_fst st l x : x ∈ map fst (objects_of st l) <-> x ∈ l /\ is_Some (store_get st x).
Proof.
  rewrite list_elem_of_fmap. unfold objects_of. setoid_rewrite list_elem_of_omap. split.
  - intros ([y b] & -> & z & Hz & (b' & Hb & [= -> ->])%bind_Some). cbn. split; [done|by eexists].
  - intros [Hx [b Hb]]. exists (x, b). split; [done|]. exists x. by rewrite Hb.
Qed.

(** One generation of a list of objects. *)
Lemma put_saved st l w g w' :
  store_ok st -> put_generation d (pack (objects_of st l)) w = (Some g, w') ->
  saved w' [g] (fun x => x ∈ l /\ is_Some (store_get st x)).
Proof.
  intros Hs Hp. assert (Hh : gen_holds w' g (objects_of st l)).
  { exists (pack (objects_of st l)). split; [by eapply put_held|]. unfold unpack, pack. rewrite postcard_roundtrip, unpack_loop_spec.
    by rewrite decide_True by (by apply objects_of_verify). }
  split; [intros g' ->%list_elem_of_singleton; by eexists|]. intros x Hx. exists g, (objects_of st l).
  split; [by left|]. split; [done|]. by apply objects_of_fst.
Qed.

(** ** Restoring *)

Lemma store_has_get st x : store_has st x = true <-> is_Some (store_get st x).
Proof.
  unfold store_has, store_get. rewrite orb_true_iff, !bool_decide_eq_true. destruct (root_dir st !! x); [|by destruct (fallback st !! x); intuition (by eexists || by destruct H)].
  split; [by eexists|]. intros _. left. by eexists.
Qed.

Definition store_le (st st' : ObjectStore) : Prop := forall x b, store_get st x = Some b -> store_get st' x = Some b.

Lemma restore_objects_ok objs st n :
  store_ok st -> Forall (fun cd => Cid_of cd.2 = cd.1) objs ->
  exists n' st', restore_objects objs st n = (Ok n', st') /\ store_ok st' /\ store_le st st' /\ fallback st' = fallback st /\ forall x, x ∈ map fst objs -> is_Some (store_get st' x).
Proof.
  revert st n. induction objs as [|[cid b] objs IH]; intros st n Hs Hf; cbn [restore_objects map fst].
  - exists n, st. split; [done|]. split; [done|]. split; [by intros x|]. split; [done|]. intros x Hx. by apply elem_of_nil in Hx.
  - apply Forall_cons_iff in Hf as [Hc Hf]. cbn in Hc. destruct (store_has st cid) eqn:Eh.
    + destruct (IH st n Hs Hf) as (n' & st' & E & Hs' & Hle & Hfb & Hx). exists n', st'. split; [done|]. split; [done|]. split; [done|]. split; [done|].
      intros x [->|Hin]%elem_of_cons; [|auto]. apply store_has_get in Eh as [y Hy]. exists y. auto.
    + pose proof (store_put_ok blake3_inj st b Hs) as Hs1. pose proof (store_put_get blake3_inj st b Hs) as Hg. rewrite Hc in Hg.
      assert (Hle1 : store_le st (store_put st b).2) by (intros x y; by apply store_put_mono).
      pose proof (store_put_fallback st b) as Ef. assert (Ec : (store_put st b).1 = cid) by (rewrite <- Hc; apply store_put_cid).
      destruct (store_put st b) as [c st1]. cbn [fst snd] in *. subst c. rewrite bool_decide_true by done.
      destruct (IH st1 (S n) Hs1 Hf) as (n' & st' & E & Hs' & Hle & Hfb & Hx). exists n', st'. split; [done|]. split; [done|].
      split; [intros x y Hy; auto|]. split; [by rewrite Hfb|]. intros x [->|Hin]%elem_of_cons; [|auto]. exists b. auto.
Qed.

Lemma unpack_verify blob objs : unpack blob = Ok objs -> Forall (fun cd => Cid_of cd.2 = cd.1) objs.
Proof. unfold unpack. destruct (from_bytes blob); [|done]. rewrite unpack_loop_spec. case_decide; [|done]. by intros [= <-]. Qed.

Lemma restore_generations_ok gens st w n :
  store_ok st -> (forall g, g ∈ gens -> exists objs, gen_holds w g objs) ->
  exists n' st' w', restore_generations d gens st w n = (Ok n', st', w') /\ store_ok st' /\ store_le st st' /\ fallback st' = fallback st /\
    forall g objs x, g ∈ gens -> gen_holds w g objs -> x ∈ map fst objs -> is_Some (store_get st' x).
Proof.
  revert st w n. induction gens as [|g gens IH]; intros st w n Hs Hg; cbn [restore_generations].
  - exists n, st, w. split; [done|]. split; [done|]. split; [by intros x|]. split; [done|]. intros g objs x Hin. by apply elem_of_nil in Hin.
  - destruct (Hg g) as (objs & blob & Hb & Hu); [by left|]. destruct (get_held g w blob Hb) as (w1 & -> & Ew). rewrite Hu.
    destruct (restore_objects_ok objs st n Hs (unpack_verify _ _ Hu)) as (n1 & st1 & -> & Hs1 & Hle1 & Hf1 & Hx1).
    destruct (IH st1 w1 n1 Hs1) as (n2 & st2 & w2 & E2 & Hs2 & Hle2 & Hf2 & Hx2).
    { intros g' Hin. destruct (Hg g') as (o & Hh); [by right|]. exists o. unfold gen_holds in *. by rewrite Ew. }
    exists n2, st2, w2. split; [done|]. split; [done|]. split; [intros x b Hxb; auto|]. split; [by rewrite Hf2|].
    intros g' o x [->|Hin]%elem_of_cons Hh Hx.
    + destruct Hh as (blob' & Hb' & Hu'). assert (o = objs) as -> by congruence. destruct (Hx1 x Hx) as [b Hxb]. exists b. auto.
    + eapply Hx2; [done| |done]. unfold gen_holds in *. by rewrite Ew.
Qed.

(** ** The sidecar and the directory *)

Record same_files s s' : Prop := {
  sf_roots : sq_roots s' = sq_roots s;
  sf_dirs : sq_dirs s' = sq_dirs s;
  sf_flat : sq_flat s' = sq_flat s;
  sf_gens : sq_gens s' = sq_gens s;
  sf_held : held_le (sq_world s) (sq_world s')
}.

Lemma same_files_world s w : held_le (sq_world s) w -> same_files s (set_world s w).
Proof. by constructor. Qed.

Lemma same_files_store s s' k : same_files s s' -> db_store s' k = db_store s k.
Proof. intros []. unfold db_store. congruence. Qed.

#[local] Instance same_files_preorder : PreOrder same_files.
Proof.
  split; [by intros s; constructor|]. intros a b c [E1 E2 E3 E4 H1] [F1 F2 F3 F4 H2].
  constructor; [congruence..|by etrans].
Qed.

Lemma load_save s k m : load_manifest (save_manifest s k m) k = m.
Proof. unfold load_manifest, save_manifest. cbn. rewrite lookup_insert_eq. cbn. by rewrite postcard_roundtrip. Qed.

Lemma publish_list_ok ms ns m s m' s' :
  publish_list d ms ns m s = (Some m', s') ->
  gm_generations m' = gm_generations m /\ gm_last_root m' = gm_last_root m /\ gm_seq m' = gm_seq m /\ same_files s s'.
Proof.
  unfold publish_list. destruct ms; [|by intros [= <- <-]].
  pose proof (put_le (to_allocvec (gm_generations m)) (sq_world s)) as Hle.
  destruct (put_generation d _ _) as [[cid|] w]; [|done]. cbn in Hle. intros [= <- <-]. split; [done|]. split; [done|]. split; [done|]. by constructor.
Qed.

Lemma spawn_drops_files s old base : same_files s (spawn_drops s old base).
Proof.
  unfold spawn_drops. revert s. induction old as [|g old IH]; intros s; cbn [foldl]; [done|].
  etrans; [|apply IH]. case_bool_decide; [done|]. by constructor.
Qed.

(** What the sidecar lists holds the whole database of the root it names. *)
Definition swept s k (c : option Dek) : Prop :=
  saved (sq_world s) (gm_generations (load_manifest s k))
    (fun x => exists r l, gm_last_root (load_manifest s k) = Some r /\ reachable (db_store s k) r c = Ok l /\ x ∈ l).

Record durable_at s k (c : option Dek) (r : key) (ps : gmap Z key) (n : Z) (wd : bytes) : Prop := {
  da_store : store_ok (db_store s k);
  da_rooted : rooted (db_store s k) c r ps n wd;
  da_root : gm_last_root (load_manifest s k) = Some r;
  da_saved : saved (sq_world s) (gm_generations (load_manifest s k)) (object_of c r ps n)
}.

Lemma durable_swept s k c r ps n wd : durable_at s k c r ps n wd -> swept s k c.
Proof.
  intros [_ Hr El Hs]. eapply saved_weaken; [|exact Hs]. intros x (r' & l & E & Hl & Hx). assert (r' = r) as -> by congruence.
  destruct (reachable_rooted _ _ _ _ _ _ Hr) as (l' & E' & Hin). assert (l' = l) as -> by congruence. by apply Hin.
Qed.

(** Keeping a set of objects of the directory. *)
Lemma kept_get s k (live : gset key) x :
  x ∈ live -> store_get (db_store (set_dir s k (filter (fun kv => kv.1 ∈ live) (root_dir (db_store s k)))) k) x = store_get (db_store s k) x.
Proof.
  intros Hx. unfold db_store, store_get, set_dir. cbn. rewrite lookup_insert_eq. cbn.
  rewrite map_lookup_filter. destruct (default ∅ (sq_dirs s !! k) !! x) as [b|]; [|done]. cbn.
  by rewrite option_guard_True.
Qed.

Lemma kept_ok s k (live : gset key) :
  store_ok (db_store s k) -> store_ok (db_store (set_dir s k (filter (fun kv => kv.1 ∈ live) (root_dir (db_store s k)))) k).
Proof.
  intros [Hr Hf]. unfold db_store, set_dir in *. cbn in *. rewrite lookup_insert_eq. cbn. split; [|done].
  intros cid b [Hb _]%map_lookup_filter_Some. auto.
Qed.

Lemma run_compaction_ok ms ns s k c r ps n wd x s' :
  durable_at s k c r ps n wd -> run_compaction d ms k ns r c s = (Ok x, s') ->
  durable_at s' k c r ps n wd /\ sq_roots s' = sq_roots s /\ sq_flat s' = sq_flat s /\
  (gm_seq (load_manifest s' k) = gm_seq (load_manifest s k)) /\
  forall y, object_of c r ps n y -> store_get (db_store s' k) y = store_get (db_store s k) y.
Proof.
  intros [Hok Hr El Hs]. unfold run_compaction, open_db_store. destruct (is_safe_component k); [|done].
  destruct (_ <=? 1)%nat; [by intros [= <- <-]|]. destruct (reachable_rooted _ _ _ _ _ _ Hr) as (l & -> & Hl).
  set (live := list_to_set l : gset key).
  assert (Hlive : forall y, y ∈ live <-> object_of c r ps n y) by (intros y; unfold live; rewrite elem_of_list_to_set; apply Hl).
  pose proof (put_saved (db_store s k) (elements live) (sq_world s)) as Hput.
  pose proof (put_le (pack (objects_of (db_store s k) (elements live))) (sq_world s)) as Hle.
  destruct (put_generation d _ _) as [[base|] w]; [|done]. specialize (Hput base w Hok eq_refl). cbn in Hle.
  destruct (publish_list d ms ns _ _) as [[m'|] s1] eqn:Ep; [|done]. apply publish_list_ok in Ep as (Eg & Er & Eq & Hf1).
  pose proof (spawn_drops_files s1 (gm_generations (load_manifest s k)) base) as Hf2.
  assert (Hf : same_files (set_world s w) (spawn_drops s1 (gm_generations (load_manifest s k)) base)) by (by etrans).
  set (s2 := spawn_drops _ _ _) in *. intros [= _ Es'].
  assert (s' = set_dir (save_manifest s2 k m') k (filter (fun kv => kv.1 ∈ live) (root_dir (db_store s k)))) as -> by exact (eq_sym Es').
  assert (Ed : db_store (save_manifest s2 k m') k = db_store s k) by (exact (same_files_store _ _ k Hf)).
  assert (Em : load_manifest (set_dir (save_manifest s2 k m') k (filter (fun kv => kv.1 ∈ live) (root_dir (db_store s k)))) k = m')
    by (exact (load_save s2 k m')).
  assert (Ha : forall y, object_of c r ps n y ->
    store_get (db_store (set_dir (save_manifest s2 k m') k (filter (fun kv => kv.1 ∈ live) (root_dir (db_store s k)))) k) y = store_get (db_store s k) y).
  { intros y Hy%Hlive. rewrite <- Ed. by apply kept_get. }
  split; [|split; [exact (sf_roots _ _ Hf)|split; [exact (sf_flat _ _ Hf)|split; [exact (eq_trans (f_equal gm_seq Em) Eq)|exact Ha]]]]. constructor.
  - rewrite <- Ed. apply kept_ok. by rewrite Ed.
  - by eapply rooted_agree.
  - exact (eq_trans (f_equal gm_last_root Em) (eq_trans Er El)).
  - rewrite (eq_trans (f_equal gm_generations Em) Eg : gm_generations (load_manifest (set_dir _ _ _) k) = _). eapply saved_le; [exact (sf_held _ _ Hf)|]. eapply saved_weaken; [|exact Hput].
    intros y Hy. split; [by apply elem_of_elements, Hlive|by eapply rooted_present].
Qed.

(** A root whose objects the sidecar covers. *)
Lemma swept_durable s k c r ps n wd :
  swept s k c -> store_ok (db_store s k) -> gm_last_root (load_manifest s k) = Some r -> rooted (db_store s k) c r ps n wd ->
  durable_at s k c r ps n wd.
Proof.
  intros Hs Hok El Hr. constructor; [done..|]. destruct (reachable_rooted _ _ _ _ _ _ Hr) as (l & E & Hin).
  eapply saved_weaken; [|exact Hs]. intros x Hx. exists r, l. split; [done|]. split; [done|]. by apply Hin.
Qed.

(** The new generation of a sweep, after the ones before it. *)
Lemma sweep_saved s k c l prev g w :
  swept s k c -> store_ok (db_store s k) -> (forall x, x ∈ l -> is_Some (store_get (db_store s k) x)) ->
  match gm_last_root (load_manifest s k) with Some r => reachable (db_store s k) r c | None => Ok [] end = Ok prev ->
  put_generation d (pack (objects_of (db_store s k) (filter (fun x => x ∉ prev) l))) (sq_world s) = (Some g, w) ->
  saved w (gm_generations (load_manifest s k) ++ [g]) (fun x => x ∈ l).
Proof.
  intros Hs Hok Hl Hprev Hp. pose proof (put_le (pack (objects_of (db_store s k) (filter (fun x => x ∉ prev) l))) (sq_world s)) as Hle.
  rewrite Hp in Hle. pose proof (put_saved _ _ _ _ _ Hok Hp) as Hg.
  eapply saved_weaken; [|exact (saved_app _ _ _ _ _ (saved_le _ _ _ _ Hle Hs) Hg)]. intros x Hx.
  destruct (decide (x ∈ prev)) as [Hin|Hin]; [left|right; split; [by apply list_elem_of_filter|auto]].
  destruct (gm_last_root _) as [r|]; [by exists r, prev|]. injection Hprev as <-. by apply elem_of_nil in Hin.
Qed.

(** Where there is nothing new, the generations before are enough. *)
Lemma sweep_nothing s k c l prev :
  swept s k c -> (forall x, x ∈ l -> is_Some (store_get (db_store s k) x)) ->
  match gm_last_root (load_manifest s k) with Some r => reachable (db_store s k) r c | None => Ok [] end = Ok prev ->
  objects_of (db_store s k) (filter (fun x => x ∉ prev) l) = [] ->
  saved (sq_world s) (gm_generations (load_manifest s k)) (fun x => x ∈ l).
Proof.
  intros Hs Hl Hprev He. eapply saved_weaken; [|exact Hs]. intros x Hx.
  destruct (decide (x ∈ prev)) as [Hin|Hin].
  - destruct (gm_last_root _) as [r|]; [by exists r, prev|]. injection Hprev as <-. by apply elem_of_nil in Hin.
  - assert (Hc : x ∈ map fst (objects_of (db_store s k) (filter (fun x => x ∉ prev) l))).
    { apply objects_of_fst. split; [by apply list_elem_of_filter|auto]. }
    rewrite He in Hc. by apply elem_of_nil in Hc.
Qed.

(** Saving the sidecar, and folding the generations where they pile up. *)
Lemma save_and_compact ms ns m s0 s k c r ps n wd (u : unit) s' :
  same_files s0 s -> store_ok (db_store s0 k) -> rooted (db_store s0 k) c r ps n wd -> gm_last_root m = Some r ->
  saved (sq_world s) (gm_generations m) (object_of c r ps n) ->
  (if (COMPACT_THRESHOLD <=? length (gm_generations m))%nat then
     match run_compaction d ms k ns r c (save_manifest s k m) with (Ok _, s) => (Ok tt, s) | (Err e, s) => (Err e, s) end
   else (Ok tt, save_manifest s k m)) = (Ok u, s') ->
  durable_at s' k c r ps n wd /\ sq_roots s' = sq_roots s0 /\ sq_flat s' = sq_flat s0 /\ gm_seq (load_manifest s' k) = gm_seq m /\
  forall y, object_of c r ps n y -> store_get (db_store s' k) y = store_get (db_store s0 k) y.
Proof.
  intros Hf Hok Hr El Hs. assert (Ed : db_store (save_manifest s k m) k = db_store s0 k) by exact (same_files_store _ _ k Hf).
  assert (Hd : durable_at (save_manifest s k m) k c r ps n wd).
  { constructor; rewrite ?Ed, ?load_save; try done. }
  pose proof (sf_roots _ _ Hf) as Hroots. pose proof (sf_flat _ _ Hf) as Hflat. destruct (_ <=? _)%nat.
  - destruct (run_compaction _ _ _ _ _ _ _) as [[x|e] s2] eqn:Ec; [|done]. intros [= _ <-].
    destruct (run_compaction_ok _ _ _ _ _ _ _ _ _ _ _ Hd Ec) as (Hd' & E1 & E2 & E3 & Ha).
    split; [done|]. split; [by rewrite E1|]. split; [by rewrite E2|]. split; [by rewrite E3, load_save|]. by rewrite <- Ed.
  - intros [= _ <-]. split; [done|]. split; [done|]. split; [done|]. split; [by rewrite load_save|]. intros y _. by rewrite Ed.
Qed.

Lemma sweep_ok db root ps n wd s s' :
  db_durable db = Some d -> store_ok (db_store s (db_name db)) -> swept s (db_name db) (db_dek db) ->
  gm_last_root (load_manifest s (db_name db)) <> Some root ->
  rooted (db_store s (db_name db)) (db_dek db) root ps n wd -> sweep_durability db root s = (Ok tt, s') ->
  durable_at s' (db_name db) (db_dek db) root ps n wd /\ sq_roots s' = sq_roots s /\ sq_flat s' = sq_flat s /\
  gm_seq (load_manifest s' (db_name db)) = db_seq db /\
  forall y, object_of (db_dek db) root ps n y -> store_get (db_store s' (db_name db)) y = store_get (db_store s (db_name db)) y.
Proof.
  intros Hdur Hok Hs Hne Hr. unfold sweep_durability, open_db_store. rewrite Hdur. set (k := db_name db) in *. set (c := db_dek db) in *.
  destruct (is_safe_component k); [|done]. rewrite bool_decide_false by done.
  destruct (match gm_last_root _ with Some r => _ | None => _ end) as [prev|e] eqn:Hprev; [|done].
  destruct (reachable_rooted _ _ _ _ _ _ Hr) as (l & -> & Hl).
  assert (Hpres : forall x, x ∈ l -> is_Some (store_get (db_store s k) x)) by (intros x Hx; by eapply rooted_present; [|apply Hl]).
  set (fresh := objects_of _ _). destruct fresh as [|o os] eqn:Ef.
  - apply save_and_compact; [done..|]. cbn [gm_generations option_list]. rewrite app_nil_r.
    eapply saved_weaken; [intros x; apply Hl|by eapply sweep_nothing].
  - rewrite <- Ef. destruct (put_generation d (pack fresh) (sq_world s)) as [[g|] w] eqn:Ep; [|done].
    pose proof (sweep_saved _ _ _ _ _ _ _ Hs Hok Hpres Hprev Ep) as Hsv.
    assert (Hle : held_le (sq_world s) w) by (pose proof (put_le (pack fresh) (sq_world s)) as Hle; by rewrite Ep in Hle).
    destruct (publish_list _ _ _ _ _) as [[m|] s1] eqn:Epl; [|done]. apply publish_list_ok in Epl as (Eg & Er & Eq & Hf1).
    intros E. assert (Hf : same_files s s1) by (etrans; [by apply same_files_world|done]).
    rewrite <- (Eq : gm_seq m = db_seq db). eapply save_and_compact; [exact Hf|done|done|by rewrite Er| |exact E].
    rewrite Eg. eapply saved_le; [exact (sf_held _ _ Hf1)|]. eapply saved_weaken; [intros x; apply Hl|exact Hsv].
Qed.

(** ** Recovery *)

Lemma recover_ok (cfg : CraftSql) (ns : bytes) s c r ps n wd s1 s2 :
  let k := db_key (cs_owner cfg) ns in
  durable_at s k c r ps n wd -> cs_durable cfg = Some d -> is_safe_component k = true -> store_ok (db_store s1 k) ->
  generation_list cfg d (cs_owner cfg) ns k s1 = (Ok (gm_generations (load_manifest s k)), s2) ->
  (forall g b, g ∈ gm_generations (load_manifest s k) -> held (sq_world s) !! g = Some b -> held (sq_world s2) !! g = Some b) ->
  exists x s3, recover cfg ns s1 = (Ok x, s3) /\ store_ok (db_store s3 k) /\
    forall y, object_of c r ps n y -> store_get (db_store s3 k) y = store_get (db_store s k) y.
Proof.
  intros k [Hok Hr _ [Hg Ho]] Hd Hsafe Hok1 Hgl Hheld. unfold recover, recover_owner. rewrite Hd. fold k. unfold open_db_store. rewrite Hsafe, Hgl.
  assert (Ed : db_store s2 k = db_store s1 k).
  { unfold generation_list in Hgl. destruct (cs_manifests cfg) as [ms|]; [|by injection Hgl as _ <-].
    destruct (ms_resolve _ _ _ _) as [[[[cid ?]|]|] w]; [|by injection Hgl as _ <-|done].
    destruct (get_generation _ _ _) as [[[b|]|] w']; [by injection Hgl as _ <-|done..]. }
  assert (Hmove : forall g objs, g ∈ gm_generations (load_manifest s k) -> gen_holds (sq_world s) g objs -> gen_holds (sq_world s2) g objs).
  { intros g objs Hin (blob & Hb & Hu). exists blob. auto. }
  destruct (restore_generations_ok (gm_generations (load_manifest s k)) (db_store s2 k) (sq_world s2) 0) as (x & st & w & -> & Hst & Hle & Hfs & Hx).
  { by rewrite Ed. }
  { intros g Hin. destruct (Hg g Hin) as [objs Hh]. exists objs. auto. }
  assert (Hfb : forall s0 : Sql (World := World), db_store (set_world (set_dir s0 k (root_dir st)) w) k = mk_store (root_dir st) (sq_flat s0)).
  { intros s0. unfold db_store, set_world, set_dir. cbn. by rewrite lookup_insert_eq. }
  eexists _, _. split; [done|]. rewrite Hfb. assert (Hst' : mk_store (root_dir st) (sq_flat s2) = st).
  { destruct st as [rd fb]. cbn in *. subst fb. done. }
  rewrite Hst'. split; [done|]. intros y Hy. destruct (rooted_present _ _ _ _ _ _ _ Hr Hy) as [b Hb]. rewrite Hb.
  destruct (Ho y Hy) as (g & objs & Hin & Hh & Hm). destruct (Hx g objs y Hin (Hmove g objs Hin Hh) Hm) as [b' Hb'].
  rewrite Hb'. f_equal. apply (store_get_cid _ _ _ Hok) in Hb. apply (store_get_cid _ _ _ Hst) in Hb'. apply blake3_inj. unfold Cid_of in *. congruence.
Qed.

(** ** Writing *)

Context {SQ : Sqlite}.

(** A batch that ends well has synced what it wrote: the main file is as its
    last sync left it, or as the batch found it ([PRAGMA synchronous=FULL]). *)
Definition synced (q : SqlRun) (c : Conn) (name : bytes) : Prop :=
  match last_sync q c None with
  | Some p0 => has_page p0 /\ c_main (run_sql q c ∅).1.2 = I_db (commit p0).2 name
  | None => c_main (run_sql q c ∅).1.2 = c_main c
  end.

Lemma run_sql_roots (q : SqlRun) (c : Conn) (roots roots' : Roots) : (run_sql q c roots).1 = (run_sql q c roots').1.
Proof.
  revert c roots roots'. induction q as [ok|m f IH|m len off f IH|m buf off q IH|m size q IH|m q IH]; intros c roots roots'; cbn [run_sql]; try done; try apply IH.
  - destruct (read_exact_at _ _ _). apply IH.
  - destruct (write_all_at _ _ _); [apply IH|done].
  - unfold handle_sync. destruct (pick c m) as [p name|b]; [destruct (commit p)|]; apply IH.
Qed.

(** The state of a writable database between two writes: the pager and the
    journal of its connection. *)
Record db_inv s (db : CraftDb (World := World)) (p : Pager) (j : bytes) : Prop := {
  di_durable : db_durable db = Some d;
  di_conn : db_conn db = mk_conn (I_db p (db_name db)) (I_mem j);
  di_cipher : cipher p = db_dek db;
  di_ok : conn_ok (with_store p (db_store s (db_name db)));
  di_head : sq_roots s !! db_name db = gm_last_root (load_manifest s (db_name db));
  di_swept :
    match gm_last_root (load_manifest s (db_name db)) with
    | Some r => durable_at s (db_name db) (db_dek db) r (pages p) (page_count p) (wrapped_dek p) /\ dirty p = ∅ /\
        gm_seq (load_manifest s (db_name db)) = db_seq db
    | None => swept s (db_name db) (db_dek db)
    end
}.

Lemma db_inv_swept s db p j : db_inv s db p j -> swept s (db_name db) (db_dek db).
Proof. intros Hi. pose proof (di_swept _ _ _ _ Hi) as Hs. destruct (gm_last_root _); [|done]. destruct Hs as [Hd _]. by eapply durable_swept. Qed.

(** A directory that only grew keeps what the sidecar covers. *)
Lemma swept_grow s s1 db p j :
  db_inv s db p j -> sq_gens s1 = sq_gens s -> sq_world s1 = sq_world s -> store_le (db_store s (db_name db)) (db_store s1 (db_name db)) ->
  swept s1 (db_name db) (db_dek db).
Proof.
  intros Hi Eg Ew Hle. assert (Em : load_manifest s1 (db_name db) = load_manifest s (db_name db)) by (unfold load_manifest; by rewrite Eg).
  pose proof (db_inv_swept _ _ _ _ Hi) as Hs. pose proof (di_swept _ _ _ _ Hi) as Hd. unfold swept in *. rewrite Em, Ew.
  destruct (gm_last_root _) as [r|] eqn:El.
  - destruct Hd as [Hd _]. eapply saved_weaken; [|exact (da_saved _ _ _ _ _ _ _ Hd)]. intros x (r' & l & [= <-] & Hl & Hx).
    destruct (reachable_rooted (db_store s1 (db_name db)) (db_dek db) r (pages p) (page_count p) (wrapped_dek p)) as (l' & E' & Hin).
    + eapply rooted_agree; [exact (da_rooted _ _ _ _ _ _ _ Hd)|]. intros y Hy.
      destruct (rooted_present _ _ _ _ _ _ _ (da_rooted _ _ _ _ _ _ _ Hd) Hy) as [b Hb]. rewrite Hb. auto.
    + assert (l' = l) as -> by congruence. by apply Hin.
  - eapply saved_weaken; [|exact Hs]. intros x (r' & l & ? & _). done.
Qed.

Lemma with_store_same p : with_store p (store p) = p.
Proof. by destruct p. Qed.

(** What a batch of statements leaves: nothing new, or a committed root whose
    database is in the directory. *)
Lemma execute_ok s db p j sql db1 s1 :
  db_inv s db p j -> synced (sql_batch sql) (attach s db) (db_name db) -> execute_batch db sql s = (true, db1, s1) ->
  exists p1 j1, db1 = with_conn db (mk_conn (I_db p1 (db_name db)) (I_mem j1)) (db_seq db) /\
    sq_gens s1 = sq_gens s /\ sq_world s1 = sq_world s /\
    ((p1 = with_store p (db_store s (db_name db)) /\ sq_roots s1 = sq_roots s /\ db_store s1 (db_name db) = db_store s (db_name db)) \/
     exists p0, p1 = (commit p0).2 /\ conn_ok p0 /\ has_page p0 /\ cipher p0 = db_dek db /\ db_store s1 (db_name db) = store p1 /\
       sq_roots s1 = <[db_name db := (commit p0).1]> (sq_roots s) /\ store_le (db_store s (db_name db)) (store p1)).
Proof.
  intros Hi Hsync. unfold execute_batch, synced in *. unfold attach in *. rewrite (di_conn _ _ _ _ Hi) in *. cbn [c_main c_journal] in *.
  set (k := db_name db) in *. set (pst := with_store p (db_store s k)) in *.
  pose proof (run_sql_ok blake3_inj (sql_batch sql) k (sq_roots s) pst j None pst (di_ok _ _ _ _ Hi)) as Hrun.
  pose proof (run_sql_roots (sql_batch sql) (mk_conn (I_db pst k) (I_mem j)) ∅ (sq_roots s)) as Er.
  cbn [roots_after] in Hrun. rewrite Er in Hsync. destruct (run_sql _ _ (sq_roots s)) as [[ok c'] roots']. cbn [fst snd] in *.
  destruct Hrun as (p1 & j1 & -> & Hp1 & Hg1 & -> & Hlast); [done|done|]. cbn [c_main] in *. intros [= -> <- <-].
  exists p1, j1. split; [done|]. split; [done|]. split; [done|].
  assert (Ed : forall r dir, db_store (set_dir (set_roots s r) k dir) k = mk_store dir (sq_flat s)).
  { intros r dir. unfold db_store, set_dir, set_roots. cbn. by rewrite lookup_insert_eq. }
  destruct (last_sync _ _ None) as [p0|]; cbn [roots_after].
  - destruct Hsync as [Hh [= ->]]. destruct (Hlast p0 eq_refl) as [Hp0 Hg0]. right. exists p0. split; [done|]. split; [done|]. split; [done|].
    split; [rewrite (gr_cipher _ _ Hg0); apply (di_cipher _ _ _ _ Hi)|]. split; [|split; [done|exact (gr_mono _ _ Hg1)]].
    rewrite Ed. pose proof (gr_fallback _ _ Hg1) as Ef. cbn in Ef. destruct (store (commit p0).2). cbn in *. by subst.
  - injection Hsync as ->. left. split; [done|]. split; [done|]. by rewrite Ed.
Qed.

(** The pager after a commit, on any directory that holds its root. *)
Lemma committed_inv s (db : CraftDb (World := World)) p0 j1 :
  db_durable db = Some d -> db_conn db = mk_conn (I_db (commit p0).2 (db_name db)) (I_mem j1) ->
  conn_ok p0 -> has_page p0 -> cipher p0 = db_dek db -> sq_roots s !! db_name db = Some (commit p0).1 ->
  gm_seq (load_manifest s (db_name db)) = db_seq db ->
  durable_at s (db_name db) (db_dek db) (commit p0).1 (pages (commit p0).2) (page_count p0) (wrapped_dek p0) ->
  (forall x, object_of (db_dek db) (commit p0).1 (pages (commit p0).2) (page_count p0) x ->
    store_get (db_store s (db_name db)) x = store_get (store (commit p0).2) x) ->
  db_inv s db (commit p0).2 j1.
Proof.
  intros Hd Hc Hp0 Hh Hk Hroot Hseq Hda Ha. pose proof (commit_spec blake3_inj p0 (proj1 Hp0)) as Hcm. pose proof (cm_eq _ _ _ Hcm) as E.
  constructor; [done|done|by rewrite E|..].
  - apply swap_conn_ok; [done..|apply (da_store _ _ _ _ _ _ _ Hda)|]. by rewrite Hk.
  - by rewrite Hroot, (da_root _ _ _ _ _ _ _ Hda).
  - rewrite (da_root _ _ _ _ _ _ _ Hda).
    assert (Ep : page_count (commit p0).2 = page_count p0) by (by rewrite E).
    assert (Ew : wrapped_dek (commit p0).2 = wrapped_dek p0) by (by rewrite E). rewrite Ep, Ew. split; [done|]. split; [by rewrite E|done].
Qed.

Lemma write_inv s db p j sql db' s' :
  db_inv s db p j -> synced (sql_batch sql) (attach s db) (db_name db) -> write db sql s = (Ok tt, db', s') ->
  exists p' j', db_inv s' db' p' j' /\ db_name db' = db_name db /\ db_dek db' = db_dek db.
Proof.
  intros Hi Hsync. unfold write. destruct (negb (db_writable db)); [done|].
  destruct (execute_batch db sql s) as [[[] db1] s1] eqn:Ee; [|done].
  destruct (execute_ok _ _ _ _ _ _ _ Hi Hsync Ee) as (p1 & j1 & -> & Eg & Ew & Hcase). cbn [with_conn db_name db_seq db_conn db_namespace].
  assert (Em : load_manifest s1 (db_name db) = load_manifest s (db_name db)) by (unfold load_manifest; by rewrite Eg).
  destruct Hcase as [(-> & Er & Ed)|(p0 & -> & Hp0 & Hh & Hk & Ed & Er & Hle)]; rewrite Er.
  - (* nothing was committed *)
    assert (Hi1 : db_inv s1 (with_conn db (mk_conn (I_db (with_store p (db_store s (db_name db))) (db_name db)) (I_mem j1)) (db_seq db)) (with_store p (db_store s (db_name db))) j1).
    { destruct Hi as [H1 H2 H3 H4 H5 H6]. constructor; cbn; try done.
      - by rewrite Ed.
      - by rewrite Er, Em.
      - rewrite Em. destruct (gm_last_root _) as [r|] eqn:El.
        + destruct H6 as ([X1 X2 X3 X4] & X5 & X6). split; [|done]. constructor; rewrite ?Ed, ?Em, ?Ew; done.
        + unfold swept in *. by rewrite Ed, Em, Ew. }
    destruct (sq_roots s !! db_name db) as [r|]; [rewrite bool_decide_true by done|]; intros [= <- <-]; by exists (with_store p (db_store s (db_name db))), j1.
  - (* a new commit *)
    rewrite lookup_insert_eq. rewrite <- Ed in Hle. pose proof (swept_grow s s1 db p j Hi Eg Ew Hle) as Hsw.
    pose proof (commit_rooted blake3_inj p0 (proj1 Hp0) (proj2 Hp0) Hh) as Hro. rewrite <- Ed, Hk in Hro.
    pose proof (cm_ok _ _ _ (commit_spec blake3_inj p0 (proj1 Hp0))) as Hok. rewrite <- Ed in Hok.
    case_bool_decide as Hprev.
    + intros [= <- <-]. exists (commit p0).2, j1. split; [|done]. symmetry in Hprev. rewrite (di_head _ _ _ _ Hi) in Hprev.
      pose proof (di_swept _ _ _ _ Hi) as Hs. rewrite Hprev in Hs. destruct Hs as (_ & _ & Hseq).
      apply committed_inv; cbn [with_conn db_durable db_name db_conn db_dek db_seq]; try done.
      * apply (di_durable _ _ _ _ Hi).
      * by rewrite Er, lookup_insert_eq.
      * by rewrite Em.
      * apply swept_durable; [done|done|by rewrite Em|done].
      * intros x _. by rewrite Ed.
    + rewrite (di_head _ _ _ _ Hi) in Hprev. destruct (checked_add (db_seq db) 1) as [seq|]; [|done].
      match goal with |- context [sweep_durability ?X ?Y ?Z] => set (db2 := X); set (s2 := Z); destruct (sweep_durability db2 Y s2) as [r s3] eqn:Esw end.
      intros [= -> <- <-]. assert (Es2 : db_store s2 (db_name db) = db_store s1 (db_name db)) by done.
      destruct (sweep_ok db2 (commit p0).1 (pages (commit p0).2) (page_count p0) (wrapped_dek p0) s2 s3 (di_durable _ _ _ _ Hi) Hok Hsw) as (Hda & E1 & E2 & E3 & Ha);
        [intros Hx; apply Hprev; rewrite <- Em; symmetry; exact Hx|done|done|].
      exists (commit p0).2, j1. split; [|done]. apply committed_inv; try done.
      * apply (di_durable _ _ _ _ Hi).
      * rewrite E1. cbn. by rewrite Er, lookup_insert_eq.
      * intros x Hx. rewrite <- Ed. by apply Ha.
Qed.

(** C8: After a write that returns [Ok], the database outlives its directory: the
    invariant of the open database holds again, and from the sidecar, a
    directory in which any of the objects are missing, and the generations the
    sidecar lists, [recover] succeeds and opening the last root gives as many
    pages, with the same bytes, as the connection reads; the head a reopen
    starts from is that root, at the sequence number of the write. *)
Theorem written_database_recovers s db p j sql db' s' r :
  db_inv s db p j -> synced (sql_batch sql) (attach s db) (db_name db) -> write db sql s = (Ok tt, db', s') ->
  sq_roots s' !! db_name db = Some r ->
  exists p' j', db_inv s' db' p' j' /\
    forall (cfg : CraftSql) ns s1 s2,
      db_key (cs_owner cfg) ns = db_name db -> is_safe_component (db_name db) = true -> cs_durable cfg = Some d ->
      sq_gens s1 = sq_gens s' -> store_ok (db_store s1 (db_name db)) ->
      generation_list cfg d (cs_owner cfg) ns (db_name db) s1 = (Ok (gm_generations (load_manifest s' (db_name db))), s2) ->
      (forall g b, g ∈ gm_generations (load_manifest s' (db_name db)) -> held (sq_world s') !! g = Some b -> held (sq_world s2) !! g = Some b) ->
      open_head cfg (cs_owner cfg) ns (db_name db) true s1 = (Some (Some (r, db_seq db')), s1) /\
      exists x s3 q, recover cfg ns s1 = (Ok x, s3) /\ Pager.open (db_store s3 (db_name db)) r (db_dek db') = Ok q /\
        page_count q = page_count p' /\
        forall i, (read_page q i).1 = (read_page (with_store p' (db_store s' (db_name db))) i).1.
Proof.
  intros Hi Hsync Hw Hroot. destruct (write_inv _ _ _ _ _ _ _ Hi Hsync Hw) as (p' & j' & Hi' & En & Ek).
  exists p', j'. split; [done|]. intros cfg ns s1 s2 Hname Hsafe Hd Eg Hok1 Hgl Hheld.
  pose proof (di_head _ _ _ _ Hi') as Hhead. pose proof (di_swept _ _ _ _ Hi') as Hsw. rewrite En, Hroot in Hhead. rewrite En, <- Hhead in Hsw.
  destruct Hsw as (Hda & Hdirty & Hseq). split.
  - unfold open_head. assert (Em : load_manifest s1 (db_name db) = load_manifest s' (db_name db)) by (unfold load_manifest; by rewrite Eg).
    by rewrite Em, <- Hhead, Hseq.
  - rewrite <- Hname in *. destruct (recover_ok cfg ns _ _ _ _ _ _ _ _ Hda Hd Hsafe Hok1 Hgl Hheld) as (x & s3 & Er & Hok3 & Ha).
    pose proof (rooted_agree _ _ _ _ _ _ _ (da_rooted _ _ _ _ _ _ _ Hda) Ha) as Hro. destruct (open_rooted _ _ _ _ _ _ Hro) as [nodes Ho].
    eexists x, s3, _. split; [done|]. split; [exact Ho|]. split; [done|]. intros i.
    assert (Hl : local (with_store p' (db_store s' (db_key (cs_owner cfg) ns)))) by (rewrite <- En; apply (di_ok _ _ _ _ Hi')).
    rewrite !read_content; [|done|exact (ro_local _ _ _ _ _ _ Hro)].
    unfold content. cbn. rewrite Hdirty, lookup_empty, (di_cipher _ _ _ _ Hi'). destruct (pages p' !! i) as [cid|] eqn:Ep; cbn; [|done].
    rewrite Ha; [done|]. right. right. by exists i.
Qed.
End durable.
