(* ===== verification/SqlSync.v ===== *)
(** CraftSQL readers: syncing a database from its owner's pages
    ([SqlDb.sync_reachable]), from any source and from one that serves them. *)

From S2P Require Import Prelude Crypto Pager PagerIndex PagerCommit PagerFile SqlReach SqlDb SqlDurable.

Open Scope Z_scope.

#[local] Arguments children_of : simpl never.
#[local] Opaque children_of.

Section sync.
Context {World : Type}.
Context {B3 : Blake3} {DC : DekCipher} {DL : DekCipherLaws}.
Context {PN : Postcard NodeMap} {PNL : PostcardLaws NodeMap} {PR : Postcard RootIndex} {PRL : PostcardLaws RootIndex}.
Context (blake3_inj : forall a b, blake3 a = blake3 b -> a = b).
Context (src : PageSource (World := World)) (owner : key).

(** The store of the database's owner. *)
Context (so : ObjectStore) (so_ok : store_ok so).

Implicit Types (st : ObjectStore) (w : World) (x : key) (b : bytes).

(** The source gives the owner's objects. *)
Definition honest : Prop := forall x b w, store_get so x = Some b -> exists w', src owner x w = (Some (Some b), w').

(** A reader's store, before and after fetching. *)
Record fetched (st st' : ObjectStore) : Prop := {
  fe_ok : store_ok st';
  fe_le : store_le st st';
  fe_fallback : fallback st' = fallback st
}.

Lemma fetched_refl st : store_ok st -> fetched st st.
Proof. intros Hs. constructor; [done|by intros x b|done]. Qed.

Lemma fetched_trans (a b c : ObjectStore) : fetched a b -> fetched b c -> fetched a c.
Proof. intros [] []. constructor; [done|intros x y Hx; auto|congruence]. Qed.

(** An object of the owner's, in a store that holds something under its id. *)
Lemma same_object st x b b' : store_ok st -> store_get so x = Some b -> store_get st x = Some b' -> b' = b.
Proof.
  intros Hs Hb Hb'. apply (store_get_cid _ _ _ so_ok) in Hb. apply (store_get_cid _ _ _ Hs) in Hb'. apply blake3_inj. unfold Cid_of in *. congruence.
Qed.

Lemma put_fetched st b : store_ok st -> fetched st (store_put st b).2.
Proof. intros Hs. constructor; [by apply store_put_ok|intros x y; by apply store_put_mono|apply store_put_fallback]. Qed.

Lemma ensure_spec x st w :
  store_ok st ->
  let '(r, (st', _)) := ensure src owner x (st, w) in
  fetched st st' /\ (forall b, r = Ok b -> store_get st' x = Some b) /\
  (honest -> is_Some (store_get so x) -> exists b, r = Ok b).
Proof.
  intros Hs. unfold ensure. destruct (store_get st x) as [b|] eqn:E.
  - split; [by apply fetched_refl|]. split; [by intros ? [= <-]|]. intros _ _. by exists b.
  - destruct (src owner x w) as [r w'] eqn:Er. destruct r as [[b|]|].
    + pose proof (put_fetched st b Hs) as Hf. pose proof (store_put_get blake3_inj st b Hs) as Hg. pose proof (store_put_cid st b) as Hc.
      destruct (store_put st b) as [c st']. cbn [fst snd] in *. subst c. split; [done|]. split.
      * intros b'. case_bool_decide as Hx; [|done]. intros [= <-]. by rewrite <- Hx.
      * intros Hh [b' Hb']. destruct (Hh x b' w Hb') as [w2 Hw]. rewrite Er in Hw. injection Hw as -> _.
        rewrite bool_decide_true by exact (eq_sym (store_get_cid _ _ _ so_ok Hb')). by exists b'.
    + split; [by apply fetched_refl|]. split; [done|]. intros Hh [b' Hb']. destruct (Hh x b' w Hb') as [w2 Hw]. congruence.
    + split; [by apply fetched_refl|]. split; [done|]. intros Hh [b' Hb']. destruct (Hh x b' w Hb') as [w2 Hw]. congruence.
Qed.

Lemma ensure_all_spec cids st w :
  store_ok st ->
  let '(r, (st', _)) := ensure_all src owner cids (st, w) in
  fetched st st' /\ (r = Ok tt -> forall x, x ∈ cids -> is_Some (store_get st' x)) /\
  (honest -> (forall x, x ∈ cids -> is_Some (store_get so x)) -> r = Ok tt).
Proof.
  revert st w. induction cids as [|x cids IH]; intros st w Hs; cbn [ensure_all].
  - split; [by apply fetched_refl|]. split; [|done]. intros _ x Hx. by apply elem_of_nil in Hx.
  - pose proof (ensure_spec x st w Hs) as He. destruct (ensure src owner x (st, w)) as [r [st1 w1]]. destruct He as (Hf & Hg & Hh).
    destruct r as [b|e].
    + specialize (IH st1 w1 (fe_ok _ _ Hf)). destruct (ensure_all src owner cids (st1, w1)) as [r [st2 w2]]. destruct IH as (Hf2 & Hg2 & Hh2).
      split; [by eapply fetched_trans|]. split.
      * intros Hr y [->|Hy]%elem_of_cons; [|by apply Hg2]. exists b. by apply (fe_le _ _ Hf2), Hg.
      * intros Hho Hall. apply Hh2; [done|]. intros y Hy. apply Hall. by right.
    + split; [done|]. split; [done|]. intros Hho Hall. destruct (Hh Hho) as [b Hb]; [apply Hall; by left|done].
Qed.

(** One level of nodes of the owner's. *)
Lemma sync_frontier_spec c leaf pgs nodes st w :
  store_ok st -> Forall (node_stored so c) nodes ->
  let '(r, (st', _)) := sync_frontier src owner c leaf pgs (map fst nodes) (st, w) in
  fetched st st' /\
  (forall next, r = Ok next -> next = (if leaf then [] else flat_map (fun nd => values nd.2) nodes) /\
    forall x, x ∈ map fst nodes \/ (leaf && pgs = true /\ x ∈ flat_map (fun nd => values nd.2) nodes) -> is_Some (store_get st' x)) /\
  (honest -> (leaf && pgs = true -> forall x, x ∈ flat_map (fun nd => values nd.2) nodes -> is_Some (store_get so x)) -> exists next, r = Ok next).
Proof.
  intros Hs Hn. revert st w Hs. induction Hn as [|[cid node] nodes (b & Eb & Ed) _ IH]; intros st w Hs; cbn [map fst sync_frontier flat_map snd].
  - split; [by apply fetched_refl|]. split; [|intros _ _; by eexists]. intros next [= <-]. split; [by destruct leaf|].
    intros x [Hx|[_ Hx]]; by apply elem_of_nil in Hx.
  - cbn in Eb, Ed. pose proof (ensure_spec cid st w Hs) as He. destruct (ensure src owner cid (st, w)) as [r [st1 w1]]. destruct He as (Hf & Hg & Hh).
    destruct r as [b1|e]; [|split; [done|]; split; [done|]; intros Hho _; destruct (Hh Hho) as [? ?]; [by eexists|done]].
    assert (b1 = b) as -> by (eapply same_object; [exact (fe_ok _ _ Hf)|done|by apply Hg]). rewrite Ed. fold (values node).
    set (pr := if leaf && pgs then _ else _).
    assert (Hpr : let '(r, (st', _)) := pr in fetched st1 st' /\
      (r = Ok tt -> leaf && pgs = true -> forall x, x ∈ values node -> is_Some (store_get st' x)) /\
      (honest -> (leaf && pgs = true -> forall x, x ∈ values node -> is_Some (store_get so x)) -> r = Ok tt)).
    { unfold pr. destruct (leaf && pgs).
      - pose proof (ensure_all_spec (values node) st1 w1 (fe_ok _ _ Hf)) as Ha. destruct (ensure_all _ _ _ _) as [r [st2 w2]].
        destruct Ha as (Ha1 & Ha2 & Ha3). split; [done|]. split; [by intros Hr _; apply Ha2|]. intros Hho Hx. apply Ha3; [done|]. by apply Hx.
      - split; [apply fetched_refl, (fe_ok _ _ Hf)|]. done. }
    destruct pr as [rp [st2 w2]]. destruct Hpr as (Hf2 & Hg2 & Hh2). destruct rp as [[]|e].
    + specialize (IH st2 w2 (fe_ok _ _ Hf2)). destruct (sync_frontier _ _ _ _ _ _ (st2, w2)) as [r [st3 w3]]. destruct IH as (Hf3 & Hg3 & Hh3).
      assert (Hall : fetched st st3) by (eapply fetched_trans; [done|by eapply fetched_trans]).
      destruct r as [next|e]; (split; [done|]; split).
      * intros ? [= <-]. destruct (Hg3 next eq_refl) as [-> Hp]. split; [by destruct leaf|].
        intros x [[->|Hx]%elem_of_cons|[El [Hx|Hx]%elem_of_app]].
        -- exists b. apply (fe_le _ _ Hf3), (fe_le _ _ Hf2). by apply Hg.
        -- apply Hp. by left.
        -- destruct (Hg2 eq_refl El x Hx) as [y Hy]. exists y. by apply (fe_le _ _ Hf3).
        -- apply Hp. by right.
      * intros _ _. by eexists.
      * done.
      * intros Hho Hx. destruct (Hh3 Hho) as [? ?]; [|done]. intros El x Hin. apply Hx; [done|]. apply elem_of_app. by right.
    + split; [by eapply fetched_trans|]. split; [done|]. intros Hho Hx. discriminate (Hh2 Hho). intros El x Hin. apply Hx; [done|]. apply elem_of_app. by left.
Qed.

(** What the walk from a list of node keys leaves in the reader's store. *)
Definition has_found (st : ObjectStore) (c : option Dek) (ps : gmap Z key) (l : nat) (nks : list Z) (pgs : bool) : Prop :=
  forall x, (exists l' k, (l' <= l)%nat /\ valid l' k /\ anc l l' k ∈ nks /\ canon c ps l' k = Some x) \/
    (pgs = true /\ exists k, k / span l ∈ nks /\ ps !! k = Some x) -> is_Some (store_get st x).

Lemma leaf_values c ps nks x :
  Forall (valid 0) nks -> x ∈ flat_map (fun nd => values nd.2) (nodes_of c ps 0 nks) <-> exists k, k / span 0 ∈ nks /\ ps !! k = Some x.
Proof.
  intros Hv. rewrite list_elem_of_In, in_flat_map. rewrite list.Forall_forall in Hv. split.
  - intros ([cid n] & (nk & Hnk & (y & Hc & [= <- <-])%bind_Some)%list_elem_of_In%list_elem_of_omap & [i Hi]%list_elem_of_In%values_spec).
    cbn in Hi. assert (Hr : 0 <= i < FANOUT) by (eapply (node_index c ps 0 nk); by eexists).
    rewrite node_lookup_0, decide_True in Hi by (done || by apply Hv). exists (nk * 256 + i). split; [|done].
    unfold FANOUT in Hr. change (span 0) with 256. by replace ((nk * 256 + i) / 256) with nk by (rewrite Z.div_add_l, Z.div_small by lia; lia).
  - intros (k & Hk & Hp). remember (k / span 0) as nk eqn:Enk.
    destruct (page_child c ps 0 nk k) as (i & Hi & Hch); [by apply Hv|by eexists|done|]. cbn [child_p] in Hch.
    destruct Hi as [y Hy]. assert (y = x) as ->.
    { pose proof Hy as Hy'. rewrite node_lookup_0, decide_True, <- Hch in Hy'; [congruence|eapply node_index; by eexists|by apply Hv]. }
    eexists (_, node_at c ps 0 nk). split; [|apply list_elem_of_In, values_spec; by exists i].
    apply list_elem_of_In, list_elem_of_omap. exists nk. split; [done|]. rewrite canon_node, bool_decide_false; [done|].
    intros E. by rewrite E, lookup_empty in Hy.
Qed.

Lemma sync_levels_spec c ps l nks pgs st w :
  store_ok st -> stored_upto so c ps l -> (forall k x, ps !! k = Some x -> is_Some (store_get so x)) -> Forall (valid l) nks ->
  let '(r, (st', _)) := sync_levels src owner c pgs l (omap (canon c ps l) nks) (st, w) in
  fetched st st' /\ (r = Ok tt -> has_found st' c ps l nks pgs) /\ (honest -> r = Ok tt).
Proof.
  intros Hs Hst Hpg. revert nks st w Hs Hst. induction l as [|l IH]; intros nks st w Hs Hst Hv;
    rewrite <- nodes_of_fst; cbn [sync_levels];
    match goal with |- context [sync_frontier src owner c ?lf pgs _ (st, w)] => pose proof (sync_frontier_spec c lf pgs _ st w Hs (nodes_stored so c ps _ nks Hst Hv)) as Hfr end;
    destruct (sync_frontier src owner c _ pgs _ (st, w)) as [r [st1 w1]]; destruct Hfr as (Hf & Hg & Hh).
  - rewrite bool_decide_true in Hg, Hh by done. assert (Hno : honest -> exists next, r = Ok next).
    { intros Hho. apply Hh; [done|]. intros _ x (k & _ & Hk)%leaf_values; [by eapply Hpg|done]. }
    destruct r as [next|e]; (split; [done|]; split); try done.
    + intros _. destruct (Hg next eq_refl) as [_ Hp]. intros x [(l' & k & Hl & Hk & Ha & Hc)|(-> & k & Hk & Hx)]; apply Hp.
      * left. assert (l' = 0%nat) as -> by lia. rewrite anc_refl in Ha. rewrite nodes_of_fst. apply list_elem_of_omap. by exists k.
      * right. split; [done|]. apply leaf_values; [done|]. by exists k.
    + intros Hho. by destruct (Hno Hho).
  - rewrite bool_decide_false in Hg, Hh by done. destruct r as [next|e].
    + destruct (Hg next eq_refl) as [-> Hp]. rewrite child_values by done.
      specialize (IH (child_keys c ps (S l) nks) st1 w1 (fe_ok _ _ Hf) ltac:(intros l' k cid Hl; apply Hst; lia) (child_keys_valid c ps l nks Hv)).
      destruct (sync_levels src owner c pgs l _ (st1, w1)) as [r2 [st2 w2]]. destruct IH as (Hf2 & Hg2 & Hh2).
      split; [by eapply fetched_trans|]. split; [|done]. intros Hr x Hx. rewrite nodes_of_fst in Hp.
      assert (Hstep : x ∈ omap (canon c ps (S l)) nks \/ ((exists l' k, (l' <= l)%nat /\ valid l' k /\ anc l l' k ∈ child_keys c ps (S l) nks /\ canon c ps l' k = Some x) \/
        (pgs = true /\ exists k, k / span l ∈ child_keys c ps (S l) nks /\ ps !! k = Some x))).
      { destruct Hx as [(l' & k & Hl & Hk & Ha & Hc)|(Hpgs & k & Hk & Hx)].
        - destruct (node_step _ _ _ _ _ _ _ Hv Hl Hk Ha Hc) as [|[? ?]]; [by left|right; left; by exists l', k].
        - right. right. split; [done|]. exists k. split; [by eapply page_step|done]. }
      destruct Hstep as [Hx'|Hx']; [|by apply (Hg2 Hr)]. destruct (Hp x) as [y Hy]; [by left|]. exists y. by apply (fe_le _ _ Hf2).
    + split; [done|]. split; [done|]. intros Hho. destruct (Hh Hho) as [? ?]; [done|done].
Qed.

(** The objects of the index. *)
Definition index_object (c : option Dek) (r : key) (ps : gmap Z key) (n : Z) (x : key) : Prop :=
  x = r \/ exists l k, (l < depth_for n)%nat /\ valid l k /\ canon c ps l k = Some x.

Lemma sync_reachable_spec (cfg : CraftSql) k root c ps n wd pgs s :
  cs_source cfg = Some src -> is_safe_component k = true -> store_ok (db_store s k) -> rooted so c root ps n wd ->
  unwrap_dek (to_allocvec (root_of c ps n wd)) (cs_enc cfg) = c ->
  let '(r, s') := sync_reachable cfg owner k root pgs s in
  store_ok (db_store s' k) /\ (honest -> r = Ok tt) /\
  (r = Ok tt -> forall x, index_object c root ps n x \/ (pgs = true /\ exists i, ps !! i = Some x) -> is_Some (store_get (db_store s' k) x)).
Proof.
  intros Hsrc Hsafe Hs Hr Hdek. pose proof (ro_indexed _ _ _ _ _ _ Hr) as Hix. unfold sync_reachable, open_db_store. rewrite Hsrc, Hsafe.
  pose proof (ensure_spec root (db_store s k) (sq_world s) Hs) as He. destruct (ensure src owner root _) as [r [st w]]. destruct He as (Hf & Hg & Hh).
  assert (Ed : forall (st : ObjectStore) w, fallback st = fallback (db_store s k) -> db_store (set_world (set_dir s k (root_dir st)) w) k = st).
  { intros [rd fb] w' E. unfold db_store, set_world, set_dir in *. cbn in *. rewrite lookup_insert_eq. by rewrite E. }
  assert (Hroot : is_Some (store_get so root)) by (rewrite (ro_root _ _ _ _ _ _ Hr); by eexists).
  destruct r as [b|e]; cbn [fst snd]; [|rewrite Ed by apply Hf; split; [apply Hf|split; [intros Hho; by destruct (Hh Hho Hroot)|done]]].
  assert (b = to_allocvec (root_of c ps n wd)) as -> by (eapply same_object; [exact (fe_ok _ _ Hf)|apply Hr|by apply Hg]).
  unfold decode_root. rewrite postcard_roundtrip, Hdek. unfold root_of. cbn [ri_depth root_cid]. destruct (depth_for n) as [|l] eqn:El.
  - cbn. rewrite Ed by apply Hf. split; [apply Hf|]. split; [done|]. intros _ x [[->|(l & j & Hl & _)]|[_ [i Hi]]].
    + eexists. by apply Hg.
    + lia.
    + destruct (depth_for_spec n (ro_count _ _ _ _ _ _ Hr)) as (_ & _ & H0'). assert (n = 0) by (by apply H0').
      assert (0 <= i < n) by (apply (ro_pages _ _ _ _ _ _ Hr); by eexists). lia.
  - destruct (rooted_top _ _ _ _ _ _ _ (ro_indexed _ _ _ _ _ _ Hr) El) as [cid Ec]. cbn [top_cid]. rewrite Ec. change (default (key_of 0) (Some cid)) with cid.
    assert (Hv : Forall (valid l) [0]) by (constructor; [apply valid_top; by eapply rooted_depth|constructor]).
    pose proof (sync_levels_spec c ps l [0] pgs st w (fe_ok _ _ Hf) (ro_nodes _ _ _ _ _ _ Hr l El) (ro_local _ _ _ _ _ _ Hr) Hv) as Hl.
    cbn [omap list_omap] in Hl. rewrite Ec in Hl. cbn in Hl. destruct (sync_levels src owner c pgs l [cid] (st, w)) as [r [st2 w2]]. destruct Hl as (Hf2 & Hg2 & Hh2).
    pose proof (fetched_trans _ _ _ Hf Hf2) as Hff. rewrite Ed by apply Hff. split; [apply Hf2|]. split; [done|]. intros Hr2 x Hx.
    assert (Hu : forall k, is_Some (ps !! k) -> k / span l = 0) by (intros i Hi; apply Z.div_small; by eapply rooted_span).
    destruct Hx as [[->|(l' & j & Hl & Hvj & Hc)]|[-> [i Hi]]].
    + eexists. apply (fe_le _ _ Hf2). by apply Hg.
    + apply (Hg2 Hr2). left. exists l', j. split; [lia|]. split; [done|]. split; [|done]. apply list_elem_of_singleton.
      apply (index_anc so c root ps n wd l l' j x Hix El); [lia|done|done].
    + apply (Hg2 Hr2). right. split; [done|]. exists i. split; [|done]. apply list_elem_of_singleton, Hu. by eexists.
Qed.

(** C14: A reader that syncs a root gets the owner's database or an error, whatever
    the source answers: when [sync_reachable] returns [Ok], opening the root
    gives the owner's page table, and, unless the pages were left for later, the
    owner's bytes in every page.  From a source that serves the owner's objects
    it does return [Ok]. *)
Theorem synced_database_is_the_owners (cfg : CraftSql) k root c ps n wd pgs s r s' :
  cs_source cfg = Some src -> is_safe_component k = true -> store_ok (db_store s k) -> rooted so c root ps n wd ->
  unwrap_dek (to_allocvec (root_of c ps n wd)) (cs_enc cfg) = c ->
  sync_reachable cfg owner k root pgs s = (r, s') ->
  (honest -> r = Ok tt) /\
  (r = Ok tt -> exists q qo, Pager.open (db_store s' k) root c = Ok q /\ Pager.open so root c = Ok qo /\
    page_count q = page_count qo /\ pages q = pages qo /\
    (pgs = true -> forall i, (read_page q i).1 = (read_page qo i).1)).
Proof.
  intros Hsrc Hsafe Hs Hr Hdek E. pose proof (sync_reachable_spec cfg k root c ps n wd pgs s Hsrc Hsafe Hs Hr Hdek) as Hsp. rewrite E in Hsp.
  destruct Hsp as (Hs' & Hh & Hx). split; [done|]. intros ->. specialize (Hx eq_refl).
  assert (Ha : forall x, (index_object c root ps n x \/ (pgs = true /\ exists i, ps !! i = Some x)) -> store_get (db_store s' k) x = store_get so x).
  { intros x Hin. destruct (Hx x Hin) as [b Hb]. assert (Ho : object_of c root ps n x) by (unfold object_of; destruct Hin as [[->|]|[_ ?]]; tauto).
    destruct (rooted_present _ _ _ _ _ _ _ Hr Ho) as [b' Hb']. rewrite Hb, Hb'. f_equal. by eapply same_object. }
  assert (Hix : indexed (db_store s' k) c root ps n wd).
  { apply (indexed_agree so); [apply Hr|apply Ha; left; by left|]. intros x Hi. apply Ha. left. by right. }
  destruct (open_rooted _ _ _ _ _ _ Hix) as [ns Eq]. destruct (open_rooted _ _ _ _ _ _ (ro_indexed _ _ _ _ _ _ Hr)) as [nso Eqo].
  eexists _, _. split; [exact Eq|]. split; [exact Eqo|]. split; [done|]. split; [done|]. intros -> i.
  assert (Hp : forall i cid, ps !! i = Some cid -> store_get (db_store s' k) cid = store_get so cid) by (intros j cid Hj; apply Ha; right; split; [done|by exists j]).
  rewrite !read_content; [|exact (ro_local _ _ _ _ _ _ Hr)|intros j cid Hj; cbn; rewrite (Hp j cid Hj); exact (ro_local _ _ _ _ _ _ Hr j cid Hj)].
  unfold content. cbn. rewrite lookup_empty. destruct (ps !! i) as [cid|] eqn:Ei; cbn; [|done]. by rewrite (Hp i cid Ei).
Qed.
End sync.

(** ** The owner's node as a source *)

Section served.
Context {World A : Type}.
Context {B3 : Blake3} {DC : DekCipher}.
Context {PN : Postcard NodeMap} {PR : Postcard RootIndex}.
Context (blake3_inj : forall a b, blake3 a = blake3 b -> a = b) (blake3_len : forall b, length (blake3 b) = 32%nat).

(** Every file of every directory is what its name says. *)
Definition files_ok (s : Sql (World := World)) : Prop :=
  (forall x b, sq_flat s !! x = Some b -> x = Cid_of b) /\
  (forall name d x b, sq_dirs s !! name = Some d -> d !! x = Some b -> x = Cid_of b).

Lemma files_store_ok s k : files_ok s -> store_ok (db_store s k).
Proof.
  intros [Hf Hd]. split; cbn; [|done]. intros x b. destruct (sq_dirs s !! k) as [d|] eqn:E; cbn; [by eapply Hd|by rewrite lookup_empty].
Qed.

Lemma find_object_ok s listing x b : files_ok s -> find_object s listing x = Some b -> x = Cid_of b.
Proof.
  intros [Hf Hd]. unfold find_object. destruct (sq_flat s !! x) as [y|] eqn:E; [intros [= <-]; by apply Hf|].
  intros Hh%head_Some_elem_of. apply list_elem_of_omap in Hh as (name & _ & Hn). destruct (_ =? 2)%nat; [done|].
  apply bind_Some in Hn as (d & Hdn & Hx). by eapply Hd.
Qed.

(** What a database's store has is found, whatever else is in the tree. *)
Lemma find_object_finds s listing k x b :
  files_ok s -> k ∈ listing -> length k <> 2%nat -> store_get (db_store s k) x = Some b -> find_object s listing x = Some b.
Proof.
  intros Hok Hk Hlen Hg. assert (Hsome : is_Some (find_object s listing x)).
  { unfold find_object. destruct (sq_flat s !! x) as [y|] eqn:E; [by eexists|]. apply head_is_Some. intros Hnil.
    assert (Hin : b ∈ omap (fun name => if (length name =? 2)%nat then None else d ← sq_dirs s !! name; d !! x) listing); [|rewrite Hnil in Hin; by apply elem_of_nil in Hin].
    apply list_elem_of_omap. exists k. split; [done|]. destruct (Nat.eqb_spec (length k) 2); [done|].
    unfold store_get, db_store in Hg. cbn in Hg. rewrite E in Hg. destruct (sq_dirs s !! k) as [d|]; cbn in *; [by destruct (d !! x)|by rewrite lookup_empty in Hg]. }
  destruct Hsome as [b' Hb']. rewrite Hb'. f_equal. apply find_object_ok in Hb'; [|done].
  apply (store_get_cid _ _ _ (files_store_ok s k Hok)) in Hg. apply blake3_inj. unfold Cid_of in *. congruence.
Qed.

(** An owner among the live peers whose node answers is an honest source of
    its databases. *)
Lemma served_is_honest (peers : list (key * A)) addr (request : A -> bytes -> World -> option bytes * World) owner s listing k :
  files_ok s -> k ∈ listing -> length k <> 2%nat -> owner_addr peers owner = Some addr ->
  (forall req w, request addr req w = (serve_page s listing req, w)) -> (forall x, store_get (db_store s k) x <> Some []) ->
  honest (page_fetch peers request) owner (db_store s k).
Proof.
  intros Hok Hk Hlen Ha Hreq Hne x b w Hg. exists w. unfold page_fetch. rewrite Ha, Hreq. unfold serve_page.
  assert (El : length x = 32%nat) by (apply (store_get_cid _ _ _ (files_store_ok s k Hok)) in Hg as ->; apply blake3_len).
  rewrite El. cbn. rewrite (find_object_finds s listing k x b Hok Hk Hlen Hg). cbn. destruct b as [|z b]; [by destruct (Hne x)|done].
Qed.
End served.
