(* ===== verification/SqlRuns.v ===== *)
(** CraftSQL databases on concrete states: a write and its recovery, a reader, and three
    runs in which the content is not what was written. *)

From S2P Require Import Prelude Crypto Pager PagerIndex PagerCommit PagerFile SqlReach SqlDb SqlDurable SqlSync.

Open Scope Z_scope.

#[global] Instance GenManifest_eq_dec : EqDecision GenManifest.
Proof. solve_decision. Defined.
#[global] Instance GenManifest_countable : Countable GenManifest.
Proof.
  refine (inj_countable' (fun m => (gm_namespace m, gm_last_root m, gm_seq m, gm_generations m, gm_manifest_cid m, gm_manifest_seq m, gm_releasing m))
    (fun '(a, b, c, d, e, f, g) => mk_gens a b c d e f g) _). by intros [].
Defined.

#[local] Existing Instances toy_hash toy_dek toy_dek_laws.
#[local] Existing Instances countable_codec countable_codec_laws.

(** The world is what the durable store holds. *)
Notation Held := (gmap key bytes).

Definition toy_durable : DurableStore (World := Held) := {|
  put_generation := fun blob w => (Some blob, <[blob := blob]> w);
  get_generation := fun g w => (Some (w !! g), w);
  drop_generation := fun g w => delete g w
|}.

#[local] Instance toy_durable_laws : DurableLaws toy_durable.
Proof.
  refine {| held := fun w => map_imap (fun g b => if decide (g = b) then Some b else None) w |}; cbn.
  - intros blob w g w' [= <- <-]. rewrite map_lookup_imap, lookup_insert_eq. cbn. by rewrite decide_True.
  - intros blob w g b. rewrite !map_lookup_imap. destruct (decide (g = blob)) as [->|Hne].
    + rewrite lookup_insert_eq. cbn. rewrite decide_True by done. destruct (w !! blob) as [x|]; [|done]. cbn. case_decide; congruence.
    + by rewrite lookup_insert_ne.
  - intros g w b. rewrite map_lookup_imap. destruct (w !! g) as [x|] eqn:E; [|done]. cbn. case_decide; [|done]. intros [= <-]. by exists w.
Defined.

Definition toy_sqlite : Sqlite := fun _ => Q_sync true (Q_end true).
#[local] Existing Instance toy_sqlite.

Definition toy_owner : key := replicate 32 7.
Definition toy_ns : bytes := str_bytes "notes".
Definition toy_key : bytes := db_key toy_owner toy_ns.

Definition toy_heads (head : option (key * Z)) : RootStore (World := Held) := {| rs_resolve := fun _ _ w => (Some head, w); rs_publish := fun _ _ _ _ w => w |}.
Definition toy_cfg (head : option (key * Z)) : CraftSql := mk_craft_sql (toy_heads head) toy_owner None (Some toy_durable) None None.

(** A private database with one page written and not yet synced. *)
Definition toy_db : CraftDb (World := Held) :=
  mk_db (mk_conn (I_db toy_pager toy_key) (I_mem [])) true (Some toy_durable) None toy_key toy_ns 0 (Some 5).
Definition toy_state : Sql (World := Held) := mk_sql ∅ ∅ ∅ ∅ ∅ ∅ [] ∅.

Lemma toy_inv : db_inv toy_durable toy_state toy_db toy_pager [].
Proof.
  constructor; cbn; try done.
  - exact (running_ok toy_inj _ toy_running).
  - split; [intros g Hg; by apply elem_of_nil in Hg|]. intros x (r & l & E & _). done.
Qed.

Lemma toy_synced : synced (sql_batch (str_bytes "INSERT")) (attach toy_state toy_db) toy_key.
Proof. split; [exact toy_has_page|]. cbn. by destruct (commit _). Qed.

(** The state after the write, and one whose directory is lost. *)
Definition toy_written : Sql := (write toy_db (str_bytes "INSERT") toy_state).2.
Definition toy_lost : Sql := set_dir toy_written toy_key ∅.

Definition is_ok {A E} (r : result A E) : bool := match r with Ok _ => true | Err _ => false end.

Lemma toy_write_ok : is_ok (write toy_db (str_bytes "INSERT") toy_state).1.1 = true.
Proof. vm_compute. reflexivity. Qed.

Lemma toy_flat : bool_decide (sq_flat toy_written = ∅) = true.
Proof. vm_compute. reflexivity. Qed.

Lemma toy_root : bool_decide (is_Some (sq_roots toy_written !! toy_key)) = true.
Proof. vm_compute. reflexivity. Qed.

Lemma empty_dir_ok (s : Sql (World := Held)) k : sq_flat s = ∅ -> store_ok (db_store (set_dir s k ∅) k).
Proof.
  intros E. unfold db_store, set_dir. cbn. rewrite lookup_insert_eq, E. split; cbn; intros x b; by rewrite lookup_empty.
Qed.

Lemma toy_lost_ok : store_ok (db_store toy_lost toy_key).
Proof. apply empty_dir_ok. exact (proj1 (bool_decide_eq_true _) toy_flat). Qed.

Lemma written_database_recovers_witness :
  exists db' s' p' j' root x s3 q, write toy_db (str_bytes "INSERT") toy_state = (Ok tt, db', s') /\ db_inv toy_durable s' db' p' j' /\
    sq_roots s' !! toy_key = Some root /\ recover (toy_cfg None) toy_ns (set_dir s' toy_key ∅) = (Ok x, s3) /\
    Pager.open (db_store s3 toy_key) root (db_dek db') = Ok q /\
    page_count q = page_count p' /\ forall i, (read_page q i).1 = (read_page (with_store p' (db_store s' toy_key)) i).1.
Proof.
  pose proof toy_write_ok as Hok. pose proof toy_lost_ok as Hlost. unfold toy_lost, toy_written in Hlost.
  pose proof (proj1 (bool_decide_eq_true _) toy_root) as [root Hr]. unfold toy_written in Hr.
  destruct (write toy_db (str_bytes "INSERT") toy_state) as [[[[]|e] db'] s'] eqn:E; [|discriminate Hok]. cbn [fst snd] in Hr, Hlost |- *.
  destruct (written_database_recovers toy_inj toy_durable toy_state toy_db toy_pager [] _ db' s' root toy_inv toy_synced E Hr) as (p' & j' & Hi & Hrec).
  clear E Hok. destruct (Hrec (toy_cfg None) toy_ns (set_dir s' toy_key ∅) (set_dir s' toy_key ∅)) as (_ & x & s3 & q & Hx & Ho & Hc & Hp);
    [reflexivity|vm_compute; reflexivity|reflexivity|reflexivity|exact Hlost|reflexivity|intros g b _ Hg; exact Hg|].
  exists db', s', p', j', root, x, s3, q. split; [reflexivity|]. split; [exact Hi|]. split; [exact Hr|]. split; [exact Hx|].
  split; [exact Ho|]. split; [exact Hc|exact Hp].
Defined.

(** ** Compaction behind the registry *)

(** Two commits of one page, and the state two writes leave: the first was
    published, the second is still waiting to be. *)
Definition page_one : Pager := default (create (mk_store ∅ ∅)) (write_page (create (mk_store ∅ ∅)) 0 [1]).
Definition first_commit : key * Pager := commit page_one.
Definition second_commit : key * Pager := commit (default page_one (write_page first_commit.2 0 [2])).
Definition root1 : key := first_commit.1.
Definition root2 : key := second_commit.1.

Definition gen_of (st : ObjectStore) (root : key) : bytes :=
  match reachable st root None with Ok l => pack (objects_of st l) | Err _ => [] end.

Definition two_writes : Sql (World := Held) :=
  let st := store second_commit.2 in
  let g1 := gen_of st root1 in
  let g2 := gen_of st root2 in
  let m := mk_gens toy_ns (Some root2) 2 [g1; g2] None 0 [] in
  mk_sql (<[toy_key := root2]> ∅) ∅ ∅ (<[toy_key := root_dir st]> ∅) ∅ (<[toy_key := to_allocvec m]> ∅)
    [T_publish_head toy_ns root2 (Some root1) 2] (<[g1 := g1]> (<[g2 := g2]> ∅)).

Definition opens (s : Sql (World := Held)) (root : key) : bool := is_ok (Pager.open (db_store s toy_key) root None).

(** [compact] asks the registry for the head, which is one write behind until
    the publication that [write] spawned has run: it keeps the older root's
    objects, and the newest commit is in neither the directory nor the
    generations, although the sidecar still names it as the head. *)
Example compact_behind_the_registry_loses_the_newest_write :
  let '(r, s) := compact (toy_cfg (Some (root1, 1))) toy_ns two_writes in
  let '(r', s') := recover (toy_cfg (Some (root1, 1))) toy_ns s in
  (opens two_writes root2, is_ok r, opens s root1, opens s root2, is_ok r', opens s' root2,
   bool_decide (gm_last_root (load_manifest s' toy_key) = Some root2)) = (true, true, true, false, true, false, true).
Proof. vm_compute. reflexivity. Qed.

(** ** Recovery of a damaged object *)

(** The root object's file has lost its content. *)
Definition damaged : Sql := set_dir two_writes toy_key (<[root2 := []]> (root_dir (store second_commit.2))).

(** [recover] skips an object whose file is there, whatever is in it: the
    database does not open before and does not open after. *)
Example recover_keeps_a_damaged_object :
  let '(r, s) := recover (toy_cfg None) toy_ns damaged in (opens damaged root2, is_ok r, opens s root2) = (false, true, false).
Proof. vm_compute. reflexivity. Qed.

(** ** Readers *)

Lemma page_one_running : Running page_one.
Proof.
  refine (R_write (create (mk_store ∅ ∅)) 0 [1] page_one _ _ eq_refl); [|unfold U32_MAX; lia].
  apply R_create. split; intros ? ?; cbn; by rewrite lookup_empty.
Qed.

Lemma page_one_has_page : has_page page_one.
Proof. right. exists 0. eexists. unfold page_cid, page_one. cbn. by rewrite lookup_insert_eq. Qed.

(** A source that answers from the owner's store, but for what it was told to
    say. *)
Definition toy_source (forged : gmap key bytes) : PageSource (World := Held) := fun _ x w =>
  (Some (match forged !! x with Some b => Some b | None => store_get (store first_commit.2) x end), w).

Definition reader_cfg (forged : gmap key bytes) : CraftSql :=
  mk_craft_sql (toy_heads (Some (root1, 1))) (replicate 32 9) (Some (toy_source forged)) None None None.

Lemma synced_database_is_the_owners_witness :
  exists s' q qo, sync_reachable (reader_cfg ∅) toy_owner toy_key root1 true toy_state = (Ok tt, s') /\ Pager.open (db_store s' toy_key) root1 None = Ok q /\ Pager.open (store first_commit.2) root1 None = Ok qo /\
    page_count q = page_count qo /\ forall i, (read_page q i).1 = (read_page qo i).1.
Proof.
  destruct (sync_reachable (reader_cfg ∅) toy_owner toy_key root1 true toy_state) as [r s'] eqn:E.
  destruct (running_ok toy_inj _ page_one_running) as [Hp Hl].
  destruct (synced_database_is_the_owners toy_inj (toy_source ∅) toy_owner (store first_commit.2)
    (cm_ok _ _ _ (commit_spec toy_inj page_one Hp)) (reader_cfg ∅) toy_key root1 None (pages first_commit.2) (page_count page_one) (wrapped_dek page_one)
    true toy_state r s') as [Hh Hok].
  - reflexivity.
  - vm_compute. reflexivity.
  - split; intros ? ?; cbn; by rewrite lookup_empty.
  - exact (commit_rooted toy_inj page_one Hp Hl page_one_has_page).
  - unfold unwrap_dek, decode_root. rewrite postcard_roundtrip. reflexivity.
  - exact E.
  - assert (Hr : r = Ok tt) by (apply Hh; intros x b w Hb; exists w; unfold toy_source; by rewrite lookup_empty, Hb).
    destruct (Hok Hr) as (q & qo & H1 & H2 & H3 & _ & H4). exists s', q, qo. split; [by rewrite Hr|]. split; [exact H1|]. split; [exact H2|]. split; [exact H3|].
    exact (H4 eq_refl).
Defined.

Definition page_cid_of_one : key := default [] (pages first_commit.2 !! 0).

(** The first byte of page 0, as a database opened by a reader reads it. *)
Definition first_byte (forged : gmap key bytes) : option Z :=
  match open_reader (reader_cfg forged) toy_owner toy_ns toy_state with
  | (Ok db, _) => match c_main (db_conn db) with I_db p _ => head (read_page p 0).1 | I_mem _ => None end
  | (Err _, _) => None
  end.

(** A reader pulls pages one by one, and what the source answers for a page is
    taken without checking its id: the forged byte is read as the owner's. *)
Example lazy_page_is_not_verified : (first_byte ∅, first_byte {[page_cid_of_one := [66]]}) = (Some 1, Some 66).
Proof. vm_compute. reflexivity. Qed.
