(* ===== verification/Holdings.v ===== *)
(** Signed holdings manifests ([crates/noded/src/manifest.rs]): what a node
    publishes about the objects it holds, and how a reader resolves a peer's
    change against the version it already has.

    A [HashSet] is a [gset]; the object engine and the DHT record of the
    publisher are the maps [Net] holds, and the outcome of each call that can
    fail (storing, announcing, saving the version file) is an argument.
    Versions are not bounded: a u64 counts 2^64 publishes. *)

From S2P Require Import Prelude Crypto.

Open Scope Z_scope.

Definition SNAPSHOT_EVERY : Z := 16.

(** [sorted]. *)
Definition sorted_vec (set : gset key) : list key := bset_iter set.

Inductive Body := Snapshot (cids : list key) | Diff (added removed : list key) (prev : key).

Record HoldingsManifest := mk_manifest { hm_node : key; hm_version : Z; hm_body : Body; hm_sig : bytes }.

Definition signing_bytes (node : key) (version : Z) (body : Body) : bytes :=
  node ++ le_bytes 8 version ++
  match body with
  | Snapshot cids => [0] ++ concat cids
  | Diff added removed prev => [1] ++ prev ++ [2] ++ concat added ++ [3] ++ concat removed
  end.

(** [v.windows(2).all(|w| w[0] < w[1])]. *)
Fixpoint canonical (v : list key) : bool :=
  match v with
  | x :: (y :: _) as v' => match cmp x y with Lt => canonical v' | _ => false end
  | _ => true
  end.

Inductive Changes :=
  | Delta (version : Z) (head : key) (added removed : list key)
  | Reset (version : Z) (head : key) (set : list key).

Record Published := mk_published { pb_version : Z; pb_cids : gset key; pb_cid : key }.

(** The publisher's state: its last publish and the version file. *)
Record ManifestStore := mk_ms { last : option Published; version_file : option Z }.

(** What the network serves: published objects and the announced head. *)
Record Net := mk_net { objects : gmap key bytes; app_head : option (key * Z) }.

Record Outcome := mk_outcome { stored : bool; announced : bool; saved : bool }.

Definition resume_version (ms : ManifestStore) : Z := default 0 (version_file ms).

(** ** Walking a chain *)

(** [chain] is what the walk returns, head first; [n] its length so far.  A
    walk stops at length 33, so 34 passes are enough. *)
Fixpoint walk_loop (fuel : nat) (fetch : key -> option HoldingsManifest) (known_cid : option key) (n : Z)
  (m : HoldingsManifest) : option (list HoldingsManifest * bool) :=
  match fuel with
  | O => None
  | S fuel' =>
      match hm_body m with
      | Snapshot _ => Some ([m], false)
      | Diff _ _ prev =>
          if bool_decide (Some prev = known_cid) then Some ([m], true)
          else if SNAPSHOT_EVERY * 2 <? n then None
          else
            m' ← fetch prev;
            '(rest, b) ← walk_loop fuel' fetch known_cid (n + 1) m';
            Some (m :: rest, b)
      end
  end.

Definition walk_chain (head : HoldingsManifest) (known_cid : option key) (fetch : key -> option HoldingsManifest) :
  option (list HoldingsManifest * bool) := walk_loop 34 fetch known_cid 1 head.

(** One diff on the net sets: a removal leaves [added], an addition leaves
    [removed]. *)
Definition delta_step (st : gset key * gset key) (m : HoldingsManifest) : gset key * gset key :=
  match hm_body m with
  | Snapshot _ => st
  | Diff a r _ =>
      let added := st.1 ∖ list_to_set r in
      let removed := st.2 ∪ list_to_set r in
      (added ∪ list_to_set a, removed ∖ list_to_set a)
  end.

Definition net_delta (chain : list HoldingsManifest) : list key * list key :=
  let '(added, removed) := foldl delta_step (∅, ∅) (rev chain) in (sorted_vec added, sorted_vec removed).

Definition set_step (set : gset key) (m : HoldingsManifest) : gset key :=
  match hm_body m with
  | Snapshot _ => set
  | Diff a r _ => set ∖ list_to_set r ∪ list_to_set a
  end.

Definition fold_set (chain : list HoldingsManifest) : option (list key) :=
  match rev chain with
  | [] => None
  | m :: ms =>
      match hm_body m with
      | Snapshot cids => Some (sorted_vec (foldl set_step (list_to_set cids) ms))
      | Diff _ _ _ => None
      end
  end.

Section holdings.
Context `{Ed25519} `{Blake3} `{Postcard HoldingsManifest}.

Definition manifest_verify (m : HoldingsManifest) : bool :=
  match hm_body m with
  | Snapshot cids => canonical cids
  | Diff added removed _ =>
      canonical added && canonical removed &&
      negb (existsb (fun a => bool_decide (is_Some (binary_search removed a))) added)
  end && verify_slice (hm_node m) (signing_bytes (hm_node m) (hm_version m) (hm_body m)) (hm_sig m).

(** ** Publishing *)

(** The version and body [publish] settles on; [None] when nothing changed. *)
Definition next_body (ms : ManifestStore) (now : gset key) : option (Z * Body) :=
  match last ms with
  | None => Some (resume_version ms + 1, Snapshot (sorted_vec now))
  | Some p =>
      let added := now ∖ pb_cids p in
      let removed := pb_cids p ∖ now in
      if bool_decide (added = ∅) && bool_decide (removed = ∅) then None
      else
        let version := pb_version p + 1 in
        if version mod SNAPSHOT_EVERY =? 0 then Some (version, Snapshot (sorted_vec now))
        else Some (version, Diff (sorted_vec added) (sorted_vec removed) (pb_cid p))
  end.

Definition signed (id : NodeIdentity) (version : Z) (body : Body) : HoldingsManifest :=
  mk_manifest (node_id id) version body (sign id (signing_bytes (node_id id) version body)).

(** [announce_app] keeps the record of the highest version. *)
Definition announce_app (net : Net) (cid : key) (version : Z) : Net :=
  match app_head net with
  | Some (_, v) => if version <=? v then net else mk_net (objects net) (Some (cid, version))
  | None => mk_net (objects net) (Some (cid, version))
  end.

Definition publish (id : NodeIdentity) (ms : ManifestStore) (net : Net) (cids : list key) (o : Outcome) :
  option Z * ManifestStore * Net :=
  let now : gset key := list_to_set cids in
  match next_body ms now with
  | None => (None, ms, net)
  | Some (version, body) =>
      let bytes := to_allocvec (signed id version body) in
      let cid := Cid_of bytes in
      if negb (stored o) then (None, ms, net)
      else
        let net := mk_net (<[cid := bytes]> (objects net)) (app_head net) in
        if negb (announced o) then (None, ms, net)
        else (Some version,
              mk_ms (Some (mk_published version now cid)) (if saved o then Some version else version_file ms),
              announce_app net cid version)
  end.

(** A restart keeps the version file alone. *)
Definition restart (ms : ManifestStore) : ManifestStore := mk_ms None (version_file ms).

(** ** Reading *)

Definition peer_head (net : Net) : option (key * Z) := app_head net.

Definition fetch_at (net : Net) (peer cid : key) : option HoldingsManifest :=
  bytes ← objects net !! cid;
  m ← from_bytes bytes;
  if bool_decide (hm_node m <> peer) || negb (manifest_verify m) then None else Some m.

(** [if let Some((kv, kc)) = known { if kc == head_cid { .. } }]. *)
Definition unchanged (known : option (Z * key)) (head_cid : key) : option Z :=
  match known with
  | Some (kv, kc) => if bool_decide (kc = head_cid) then Some kv else None
  | None => None
  end.

Definition changes_since (net : Net) (peer : key) (known : option (Z * key)) : option Changes :=
  '(head_cid, head_version) ← peer_head net;
  match unchanged known head_cid with
  | Some kv => Some (Delta kv head_cid [] [])
  | None =>
      head ← fetch_at net peer head_cid;
      '(chain, reached_baseline) ← walk_chain head (snd <$> known) (fetch_at net peer);
      if (reached_baseline : bool) then
        let '(added, removed) := net_delta chain in Some (Delta head_version head_cid added removed)
      else
        set ← fold_set chain; Some (Reset head_version head_cid set)
  end.
End holdings.
