(* ===== verification/Repair.v ===== *)
(** Death-driven repair ([crates/noded/src/repair.rs]): the index of who holds
    what, kept from peers' manifests; the window of net provider changes; and
    the election of the node that repairs an object.

    The cids of our own store and the alive census are arguments of the
    operations that read them.  The async tasks are modelled by the operations
    they run under the lock they take; an i32 net counts fewer than 2^31
    changes in a window. *)

From S2P Require Import Prelude Crypto Holdings.

Open Scope Z_scope.

Notation HolderIndex := (gmap key (gset key)).
Notation PeerHeads := (gmap key (Z * key)).

Definition accrue_into (map : gmap key Z) (cid : key) (delta : Z) : gmap key Z :=
  let net := default 0 (map !! cid) + delta in
  if net =? 0 then delete cid map else <[cid := net]> map.

Record DeathRepair := mk_repair { me : key; heads : PeerHeads; holders : HolderIndex; pending : gmap key Z }.

Definition with_heads (d : DeathRepair) (h : PeerHeads) : DeathRepair := mk_repair (me d) h (holders d) (pending d).
Definition with_holders (d : DeathRepair) (h : HolderIndex) : DeathRepair := mk_repair (me d) (heads d) h (pending d).

Definition accrue (d : DeathRepair) (cid : key) (delta : Z) : DeathRepair :=
  mk_repair (me d) (heads d) (holders d) (accrue_into (pending d) cid delta).

(** One window of [run_reconcile]: the cids handed to the engine. *)
Definition drain (d : DeathRepair) : list key * DeathRepair :=
  (map fst (map_to_list (pending d)), mk_repair (me d) (heads d) (holders d) ∅).

(** ** The holder index *)

(** [holders.entry(c).or_default().insert(peer)] and what it returned. *)
Definition add_holder (peer : key) (st : HolderIndex * list key) (c : key) : HolderIndex * list key :=
  let hs := default ∅ (st.1 !! c) in
  (<[c := {[peer]} ∪ hs]> st.1, if bool_decide (peer ∈ hs) then st.2 else st.2 ++ [c]).

(** A removal, and the list of the objects it took the peer from. *)
Definition drop_holder (peer : key) (st : HolderIndex * list key) (c : key) : HolderIndex * list key :=
  match st.1 !! c with
  | None => st
  | Some hs =>
      if bool_decide (peer ∈ hs) then (<[c := hs ∖ {[peer]}]> st.1, st.2 ++ [c]) else st
  end.

(** [holders.retain(|c, hs| mine.contains(c) && !hs.is_empty())]. *)
Definition retain_mine (mine : gset key) (h : HolderIndex) : HolderIndex :=
  filter (fun chs : key * gset key => chs.1 ∈ mine /\ chs.2 <> ∅) h.

Definition apply_delta (d : DeathRepair) (mine : gset key) (peer : key) (added removed : list key) :
  (list key * list key) * DeathRepair :=
  let '(h, gained) := foldl (add_holder peer) (holders d, []) (filter (fun c => c ∈ mine) added) in
  let '(h, lost) := foldl (drop_holder peer) (h, []) (filter (fun c => c ∈ mine) removed) in
  ((lost, gained), with_holders d (retain_mine mine h)).

Definition apply_reset (d : DeathRepair) (mine : gset key) (peer : key) (set : list key) :
  (list key * list key) * DeathRepair :=
  let claimed : gset key := list_to_set (filter (fun c => c ∈ mine) set) in
  let '(h, gained) := foldl (add_holder peer) (holders d, []) (elements claimed) in
  let '(h, lost) := foldl (drop_holder peer) (h, [])
    (filter (fun c => c ∈ mine /\ c ∉ claimed) (map fst (map_to_list h))) in
  ((lost, gained), with_holders d (retain_mine mine h)).

Definition accrue_all (d : DeathRepair) (cids : list key) (delta : Z) : DeathRepair :=
  foldl (fun d c => accrue d c delta) d cids.

(** [check_peer] on what [changes_since] answered. *)
Definition check_peer (d : DeathRepair) (mine : gset key) (peer : key) (changes : option Changes) : bool * DeathRepair :=
  let first_sight := bool_decide (heads d !! peer = None) in
  match changes with
  | None => (false, d)
  | Some (Delta version head [] []) => (true, with_heads d (<[peer := (version, head)]> (heads d)))
  | Some ch =>
      let '((version, head), ((lost, gained), d)) :=
        match ch with
        | Delta version head added removed => ((version, head), apply_delta d mine peer added removed)
        | Reset version head set => ((version, head), apply_reset d mine peer set)
        end in
      let d := with_heads d (<[peer := (version, head)]> (heads d)) in
      if first_sight then (true, d)
      else (true, accrue_all (accrue_all d lost (-1)) gained 1)
  end.

(** ** Deaths *)

Section election.
Context `{Blake3}.

(** [min_by_key]: the first of the least keys. *)
Definition repairer_for (cid : key) (hs : list key) : option key :=
  match hs with
  | [] => None
  | h :: hs' => Some (foldl (fun b x => match cmp (Cid_of (cid ++ x)) (Cid_of (cid ++ b)) with Lt => x | _ => b end) h hs')
  end.

(** The candidates of an object that lost the holder [gone]. *)
Definition candidates (d : DeathRepair) (alive : gset key) (gone c : key) : list key :=
  dedup (sort (elements (filter (fun h => h <> gone /\ h ∈ alive) (default ∅ (holders d !! c))) ++ [me d])).

Definition our_share (d : DeathRepair) (alive : gset key) (gone : key) (cids : list key) : list (key * nat) :=
  omap (fun c =>
    let cands := candidates d alive gone c in
    if bool_decide (repairer_for c cands = Some (me d)) then Some (c, length cands) else None) cids.

(** [sort_by_key] is stable. *)
Definition repair_our_share (d : DeathRepair) (alive : gset key) (gone : key) (cids : list key) : DeathRepair :=
  let mine := sort_by (fun x y => (x.2 <=? y.2)%nat) (our_share d alive gone cids) in
  accrue_all d (map fst mine) (-1).

Definition on_death (d : DeathRepair) (alive : gset key) (dead : key) : DeathRepair :=
  let shared := map fst (filter (fun chs : key * gset key => dead ∈ chs.2) (map_to_list (holders d))) in
  match shared with
  | [] => d
  | _ =>
      let h := foldl (fun h c => match h !! c with Some hs => <[c := hs ∖ {[dead]}]> h | None => h end) (holders d) shared in
      repair_our_share (mk_repair (me d) (delete dead (heads d)) h (pending d)) alive dead shared
  end.
End election.

(** ** The census watch *)

(** One tick of [run]: the nodes [on_death] is spawned for, and what is known
    after; the first non-empty census is a baseline. *)
Definition watch_tick (st : gset key * bool) (now : gset key) : gset key * (gset key * bool) :=
  if bool_decide (now = ∅) then (∅, st)
  else if st.2 then (st.1 ∖ now, (now, true))
  else (∅, (now, true)).
