(* ===== verification/RepairIndex.v ===== *)
(** What the holder index of [Repair] records, what a window of provider
    changes nets to, and who repairs an object that lost a holder. *)

From S2P Require Import Prelude Crypto Holdings Repair.

Open Scope Z_scope.

(** ** The index *)

Definition holds (h : HolderIndex) (c q : key) : Prop := q ∈ default ∅ (h !! c).

#[global] Instance holds_dec h c q : Decision (holds h c q).
Proof. unfold holds. apply _. Defined.

Lemma holds_insert h c hs x q : holds (<[c := hs]> h) x q <-> if decide (x = c) then q ∈ hs else holds h x q.
Proof. unfold holds. case_decide as E; [subst; by rewrite lookup_insert_eq|by rewrite lookup_insert_ne by congruence]. Qed.

Lemma holds_key h c q : holds h c q -> exists hs, h !! c = Some hs /\ q ∈ hs.
Proof. unfold holds. destruct (h !! c) as [hs|]; [by eexists|]. cbn. set_solver. Qed.

Lemma add_holders peer l h g :
  let '(h', g') := foldl (add_holder peer) (h, g) l in
  (forall c q, holds h' c q <-> holds h c q \/ (q = peer /\ c ∈ l)) /\
  (exists n, g' = g ++ n /\ NoDup n /\ forall c, c ∈ n <-> c ∈ l /\ ~ holds h c peer).
Proof.
  revert h g. induction l as [|x l IH]; intros h g; cbn [foldl].
  - split; [set_solver|]. exists []. rewrite app_nil_r. split; [done|]. split; [constructor|set_solver].
  - unfold add_holder at 2. cbn [fst snd]. set (hs := default ∅ (h !! x)).
    assert (Hx : forall c q, holds (<[x := {[peer]} ∪ hs]> h) c q <-> holds h c q \/ (q = peer /\ c = x)).
    { intros c q. rewrite holds_insert. case_decide as E; [subst|]; [|naive_solver].
      rewrite elem_of_union, elem_of_singleton. unfold hs, holds. naive_solver. }
    specialize (IH (<[x := {[peer]} ∪ hs]> h) (if bool_decide (peer ∈ hs) then g else g ++ [x])).
    destruct (foldl _ _ _) as [h' g']. destruct IH as [Ih (n & -> & Hn & Hin)]. split.
    + intros c q. rewrite Ih, Hx, elem_of_cons. naive_solver.
    + assert (Hh : peer ∈ hs <-> holds h x peer) by done. case_bool_decide as Hb.
      * exists n. split; [done|]. split; [done|]. intros c. rewrite Hin, Hx, elem_of_cons. naive_solver.
      * exists (x :: n). split; [by rewrite <- app_assoc|]. split.
        { apply list.NoDup_cons. split; [|done]. intros [_ Hf]%Hin. apply Hf, Hx. by right. }
        intros c. rewrite !elem_of_cons, Hin, Hx. destruct (decide (c = x)); naive_solver.
Qed.

Lemma drop_holders peer l h g :
  let '(h', g') := foldl (drop_holder peer) (h, g) l in
  (forall c q, holds h' c q <-> holds h c q /\ ~ (q = peer /\ c ∈ l)) /\
  (exists n, g' = g ++ n /\ NoDup n /\ forall c, c ∈ n <-> c ∈ l /\ holds h c peer).
Proof.
  revert h g. induction l as [|x l IH]; intros h g; cbn [foldl].
  - split; [set_solver|]. exists []. rewrite app_nil_r. split; [done|]. split; [constructor|set_solver].
  - destruct (decide (holds h x peer)) as [Hp|Hp].
    + destruct (holds_key h x peer Hp) as (hs & Ehs & Hin0).
      assert (E : drop_holder peer (h, g) x = (<[x := hs ∖ {[peer]}]> h, g ++ [x])).
      { unfold drop_holder. cbn [fst snd]. by rewrite Ehs, bool_decide_true. }
      assert (Hx : forall c q, holds (<[x := hs ∖ {[peer]}]> h) c q <-> holds h c q /\ ~ (q = peer /\ c = x)).
      { intros c q. rewrite holds_insert. case_decide as Ec; [subst|naive_solver].
        rewrite elem_of_difference, elem_of_singleton. unfold holds. rewrite Ehs. cbn. naive_solver. }
      rewrite E. specialize (IH (<[x := hs ∖ {[peer]}]> h) (g ++ [x])).
      destruct (foldl _ _ _) as [h' g']. destruct IH as [Ih (n & -> & Hn & Hin)]. split.
      * intros c q. rewrite Ih, Hx, elem_of_cons. naive_solver.
      * exists (x :: n). split; [by rewrite <- app_assoc|]. split.
        { apply list.NoDup_cons. split; [|done]. intros [_ Hf]%Hin. apply Hx in Hf. naive_solver. }
        intros c. rewrite !elem_of_cons, Hin, Hx. destruct (decide (c = x)); naive_solver.
    + assert (E : drop_holder peer (h, g) x = (h, g)).
      { unfold drop_holder. cbn [fst snd]. destruct (h !! x) as [hs|] eqn:Eh; [|done].
        rewrite bool_decide_false; [done|]. unfold holds in Hp. by rewrite Eh in Hp. }
      rewrite E. specialize (IH h g). destruct (foldl _ _ _) as [h' g']. destruct IH as [Ih (n & -> & Hn & Hin)]. split.
      * intros c q. rewrite Ih, elem_of_cons. naive_solver.
      * exists n. split; [done|]. split; [done|]. intros c. rewrite Hin, elem_of_cons. naive_solver.
Qed.

Lemma holds_retain mine h c q : holds (retain_mine mine h) c q <-> c ∈ mine /\ holds h c q.
Proof.
  unfold retain_mine, holds. destruct (filter _ h !! c) as [hs|] eqn:E.
  - apply map_lookup_filter_Some in E as [-> [Hm _]]. naive_solver.
  - apply map_lookup_filter_None in E as [->|E]; [set_solver|]. destruct (h !! c) as [hs|]; [|set_solver].
    cbn. split; [set_solver|]. intros [Hm Hq]. destruct (E hs eq_refl). split; [done|]. set_solver.
Qed.

(** The outcome of folding a peer's change into the index. *)
Record applied (mine : gset key) (peer : key) (d : DeathRepair) (lg : list key * list key) (d' : DeathRepair) : Prop := {
  ap_others : forall c q, q <> peer -> holds (holders d') c q <-> c ∈ mine /\ holds (holders d) c q;
  ap_mine : forall c, holds (holders d') c peer -> c ∈ mine;
  ap_lost : NoDup lg.1 /\ forall c, c ∈ lg.1 <-> c ∈ mine /\ holds (holders d) c peer /\ ~ holds (holders d') c peer;
  ap_gained : NoDup lg.2 /\ forall c, c ∈ lg.2 <-> c ∈ mine /\ ~ holds (holders d) c peer /\ holds (holders d') c peer;
  ap_rest : d' = with_holders d (holders d')
}.

Lemma apply_delta_spec d mine peer added removed :
  (forall c, c ∈ added -> c ∉ removed) ->
  let '(lg, d') := apply_delta d mine peer added removed in
  applied mine peer d lg d' /\
  forall c, holds (holders d') c peer <-> c ∈ mine /\ ((holds (holders d) c peer /\ c ∉ removed) \/ c ∈ added).
Proof.
  intros Hd. unfold apply_delta. pose proof (add_holders peer (filter (fun c => c ∈ mine) added) (holders d) []) as Ha.
  destruct (foldl (add_holder peer) _ _) as [h1 gained]. destruct Ha as [Ha (n & -> & Hn & Hg)].
  pose proof (drop_holders peer (filter (fun c => c ∈ mine) removed) h1 []) as Hr.
  destruct (foldl (drop_holder peer) _ _) as [h2 lost]. destruct Hr as [Hr (n' & -> & Hn' & Hl)].
  assert (Hp : forall c, holds (retain_mine mine h2) c peer <-> c ∈ mine /\ ((holds (holders d) c peer /\ c ∉ removed) \/ c ∈ added)).
  { intros c. specialize (Hd c). rewrite holds_retain, Hr, Ha. rewrite !list_elem_of_filter.
    destruct (decide (c ∈ removed)), (decide (c ∈ added)); tauto. }
  split; [|exact Hp]. constructor; cbn [holders with_holders fst snd app].
  - intros c q Hq. rewrite holds_retain, Hr, Ha. naive_solver.
  - intros c [? _]%holds_retain. done.
  - split; [done|]. intros c. specialize (Hd c). rewrite Hl, Hp, Ha, !list_elem_of_filter.
    destruct (decide (c ∈ removed)), (decide (c ∈ added)), (decide (c ∈ mine)), (decide (holds (holders d) c peer)); tauto.
  - split; [done|]. intros c. specialize (Hd c). rewrite Hg, Hp, !list_elem_of_filter.
    destruct (decide (c ∈ removed)), (decide (c ∈ added)), (decide (c ∈ mine)), (decide (holds (holders d) c peer)); tauto.
  - done.
Qed.

Lemma apply_reset_spec d mine peer set :
  let '(lg, d') := apply_reset d mine peer set in
  applied mine peer d lg d' /\ forall c, holds (holders d') c peer <-> c ∈ mine /\ c ∈ set.
Proof.
  unfold apply_reset. set (claimed := list_to_set (filter (fun c => c ∈ mine) set) : gset key).
  assert (Hcl : forall c, c ∈ claimed <-> c ∈ mine /\ c ∈ set) by (intros c; unfold claimed; by rewrite elem_of_list_to_set, list_elem_of_filter).
  pose proof (add_holders peer (elements claimed) (holders d) []) as Ha.
  destruct (foldl (add_holder peer) _ _) as [h1 gained]. destruct Ha as [Ha (n & -> & Hn & Hg)].
  set (ks := filter (fun c => c ∈ mine /\ c ∉ claimed) (map fst (map_to_list h1))).
  assert (Hks : forall c, holds h1 c peer -> c ∈ ks <-> c ∈ mine /\ c ∉ claimed).
  { intros c (hs & Eh & _)%holds_key. unfold ks. rewrite list_elem_of_filter. split; [naive_solver|]. intros Hc. split; [done|].
    apply list_elem_of_fmap. exists (c, hs). split; [done|]. by apply elem_of_map_to_list. }
  pose proof (drop_holders peer ks h1 []) as Hr.
  destruct (foldl (drop_holder peer) _ _) as [h2 lost]. destruct Hr as [Hr (n' & -> & Hn' & Hl)].
  assert (Hp : forall c, holds (retain_mine mine h2) c peer <-> c ∈ mine /\ c ∈ set).
  { intros c. rewrite holds_retain, Hr. specialize (Hks c). specialize (Hcl c). specialize (Ha c peer). rewrite elem_of_elements in Ha.
    destruct (decide (holds h1 c peer)), (decide (c ∈ claimed)), (decide (c ∈ mine)), (decide (c ∈ ks)); tauto. }
  split; [|exact Hp]. constructor; cbn [holders with_holders fst snd app].
  - intros c q Hq. rewrite holds_retain, Hr, Ha. naive_solver.
  - intros c [? _]%holds_retain. done.
  - split; [done|]. intros c. rewrite Hl, Hp. specialize (Hks c). specialize (Hcl c). specialize (Ha c peer). rewrite elem_of_elements in Ha.
    destruct (decide (holds h1 c peer)), (decide (c ∈ claimed)), (decide (c ∈ mine)), (decide (holds (holders d) c peer)); tauto.
  - split; [done|]. intros c. rewrite Hg, Hp, elem_of_elements, Hcl. naive_solver.
  - done.
Qed.

(** ** The window *)

Definition net (m : gmap key Z) (c : key) : Z := default 0 (m !! c).
Definition no_zero (m : gmap key Z) : Prop := forall c, m !! c <> Some 0.

Lemma accrue_net m x e c : net (accrue_into m x e) c = net m c + if decide (c = x) then e else 0.
Proof.
  unfold accrue_into, net. destruct (Z.eqb_spec (default 0 (m !! x) + e) 0) as [E|E]; case_decide as Hc; subst.
  - rewrite lookup_delete_eq. cbn. lia.
  - rewrite lookup_delete_ne by congruence. lia.
  - rewrite lookup_insert_eq. cbn. lia.
  - rewrite lookup_insert_ne by congruence. lia.
Qed.

Lemma accrue_no_zero m x e : no_zero m -> no_zero (accrue_into m x e).
Proof.
  intros Hm c. unfold accrue_into. destruct (Z.eqb_spec (default 0 (m !! x) + e) 0) as [E|E].
  - intros [_ ?]%lookup_delete_Some. by apply (Hm c).
  - intros [[_ ?]|[_ ?]]%lookup_insert_Some; [done|by apply (Hm c)].
Qed.

Lemma accrue_all_spec l d e :
  NoDup l -> no_zero (pending d) ->
  let d' := accrue_all d l e in
  heads d' = heads d /\ holders d' = holders d /\ me d' = me d /\ no_zero (pending d') /\
  forall c, net (pending d') c = net (pending d) c + if decide (c ∈ l) then e else 0.
Proof.
  intros Hnd. revert d. induction Hnd as [|x l Hx Hl IH]; intros d Hz; cbn.
  - split_and!; try done. intros c. rewrite decide_False by set_solver. lia.
  - destruct (IH (accrue d x e)) as (E1 & E2 & E3 & E4 & E5); [by apply accrue_no_zero|].
    split_and!; try done. intros c. rewrite E5. cbn [accrue pending]. rewrite accrue_net.
    destruct (decide (c = x)) as [->|Hne].
    + rewrite (decide_False (P := x ∈ l)), decide_True by set_solver. lia.
    + destruct (decide (c ∈ l)); [rewrite decide_True by set_solver|rewrite decide_False by set_solver]; lia.
Qed.

Lemma size_change (X Y : gset key) (p : key) :
  (forall q, q <> p -> q ∈ Y <-> q ∈ X) ->
  Z.of_nat (size Y) = Z.of_nat (size X) + (if decide (p ∉ X /\ p ∈ Y) then 1 else 0) - (if decide (p ∈ X /\ p ∉ Y) then 1 else 0).
Proof.
  intros Hq. destruct (decide (p ∈ X)) as [Hx|Hx], (decide (p ∈ Y)) as [Hy|Hy];
    (do 2 (case_decide; [try tauto|try tauto])).
  - assert (Y = X) as ->; [|lia]. apply set_eq. intros q. destruct (decide (q = p)) as [->|]; [tauto|auto].
  - assert (X = {[p]} ∪ Y) as ->.
    { apply set_eq. intros q. rewrite elem_of_union, elem_of_singleton. destruct (decide (q = p)) as [->|Hne]; [tauto|]. rewrite Hq by done. tauto. }
    rewrite size_union, size_singleton by set_solver. lia.
  - assert (Y = {[p]} ∪ X) as ->.
    { apply set_eq. intros q. rewrite elem_of_union, elem_of_singleton. destruct (decide (q = p)) as [->|Hne]; [tauto|]. rewrite <- Hq by done. tauto. }
    rewrite size_union, size_singleton by set_solver. lia.
  - assert (Y = X) as ->; [|lia]. apply set_eq. intros q. destruct (decide (q = p)) as [->|]; [tauto|auto].
Qed.

(** How many holders the index has for an object. *)
Definition holder_count (d : DeathRepair) (c : key) : Z := Z.of_nat (size (default ∅ (holders d !! c) : gset key)).

Definition wf_changes (ch : option Changes) : Prop :=
  match ch with Some (Delta _ _ a r) => forall c, c ∈ a -> c ∉ r | _ => True end.

(** What [check_peer] does to the index, to the heads and to the window. *)
Record checked (mine : gset key) (peer : key) (d : DeathRepair) (ch : Changes) (d' : DeathRepair) : Prop := {
  ck_others : forall c q, c ∈ mine -> q <> peer -> holds (holders d') c q <-> holds (holders d) c q;
  ck_peer : forall c, c ∈ mine -> holds (holders d') c peer <->
    match ch with
    | Delta _ _ a r => (holds (holders d) c peer /\ c ∉ r) \/ c ∈ a
    | Reset _ _ set => c ∈ set
    end;
  ck_heads : heads d' = <[peer := match ch with Delta v h _ _ | Reset v h _ => (v, h) end]> (heads d);
  ck_zero : no_zero (pending d');
  ck_net : heads d !! peer <> None -> forall c, c ∈ mine ->
    net (pending d') c - net (pending d) c = holder_count d' c - holder_count d c;
  ck_first : heads d !! peer = None -> pending d' = pending d
}.

Lemma applied_count mine peer d lg d1 d2 c :
  applied mine peer d lg d1 -> holders d2 = holders d1 -> c ∈ mine ->
  holder_count d2 c = holder_count d c + (if decide (c ∈ lg.2) then 1 else 0) - (if decide (c ∈ lg.1) then 1 else 0).
Proof.
  intros [Ho _ [_ Hl] [_ Hg] _] E Hc. unfold holder_count. rewrite E.
  rewrite (size_change (default ∅ (holders d !! c)) (default ∅ (holders d1 !! c)) peer).
  2:{ intros q Hq. specialize (Ho c q Hq). unfold holds in Ho. tauto. }
  specialize (Hl c). specialize (Hg c). unfold holds in Hl, Hg. repeat case_decide; tauto || lia.
Qed.

Lemma check_applied mine peer d ch v h lg d1 :
  no_zero (pending d) -> applied mine peer d lg d1 ->
  (forall c, c ∈ mine -> holds (holders d1) c peer <->
    match ch with Delta _ _ a r => (holds (holders d) c peer /\ c ∉ r) \/ c ∈ a | Reset _ _ set => c ∈ set end) ->
  match ch with Delta v h _ _ | Reset v h _ => (v, h) end = (v, h) ->
  checked mine peer d ch
    (let d2 := with_heads d1 (<[peer := (v, h)]> (heads d1)) in
     if bool_decide (heads d !! peer = None) then d2 else accrue_all (accrue_all d2 lg.1 (-1)) lg.2 1).
Proof.
  intros Hz Ha Hp Ev. pose proof Ha as [Ho Hm [Nl Hl] [Ng Hg] Er]. cbv zeta.
  assert (Eh : heads d1 = heads d) by by rewrite Er. assert (Epd : pending d1 = pending d) by by rewrite Er.
  set (d2 := with_heads d1 _).
  destruct (accrue_all_spec lg.1 d2 (-1) Nl) as (A1 & A2 & A3 & A4 & A5); [by unfold d2; cbn; rewrite Epd|].
  destruct (accrue_all_spec lg.2 (accrue_all d2 lg.1 (-1)) 1 Ng A4) as (B1 & B2 & B3 & B4 & B5).
  set (d3 := if bool_decide (heads d !! peer = None) then d2 else accrue_all (accrue_all d2 lg.1 (-1)) lg.2 1).
  assert (H3 : holders d3 = holders d1 /\ heads d3 = heads d2) by (unfold d3; case_bool_decide; [done|split; [by rewrite B2, A2|by rewrite B1, A1]]).
  destruct H3 as [H3 H4]. constructor.
  - intros c q Hc Hq. rewrite H3, Ho by done. tauto.
  - intros c Hc. rewrite H3. by apply Hp.
  - rewrite H4, Ev. unfold d2. cbn. by rewrite Eh.
  - unfold d3. case_bool_decide; [|done]. unfold d2. cbn. by rewrite Epd.
  - intros Hk c Hc. rewrite (applied_count mine peer d lg d1 d3 c Ha H3 Hc). unfold d3. rewrite bool_decide_false by done.
    rewrite B5, A5. unfold d2. cbn [pending with_heads]. rewrite Epd. repeat case_decide; lia.
  - intros Hk. unfold d3. rewrite bool_decide_true by done. unfold d2. cbn. done.
Qed.

Lemma check_peer_spec d mine peer ch :
  wf_changes (Some ch) -> no_zero (pending d) ->
  (check_peer d mine peer (Some ch)).1 = true /\ checked mine peer d ch (check_peer d mine peer (Some ch)).2.
Proof.
  intros Hw Hz. unfold check_peer. destruct ch as [v h a r|v h set].
  - pose proof (apply_delta_spec d mine peer a r Hw) as Ha.
    assert (Hgen : checked mine peer d (Delta v h a r)
      (let '(lg, d1) := apply_delta d mine peer a r in
       let d2 := with_heads d1 (<[peer := (v, h)]> (heads d1)) in
       if bool_decide (heads d !! peer = None) then d2 else accrue_all (accrue_all d2 lg.1 (-1)) lg.2 1)).
    { destruct (apply_delta d mine peer a r) as [lg d1]. destruct Ha as [Ha Hp]. apply check_applied; try done.
      intros c Hc. rewrite Hp. tauto. }
    destruct a as [|x a]; [destruct r as [|y r]|].
    + split; [done|]. constructor; cbn; try done.
      * intros c Hc. set_solver.
      * intros _ c Hc. unfold holder_count. cbn. lia.
    + destruct (apply_delta _ _ _ _ _) as [[lost gained] d1]. cbn [fst snd] in *. case_bool_decide; done.
    + destruct (apply_delta _ _ _ _ _) as [[lost gained] d1]. cbn [fst snd] in *. case_bool_decide; done.
  - pose proof (apply_reset_spec d mine peer set) as Ha. destruct (apply_reset d mine peer set) as [[lost gained] d1].
    destruct Ha as [Ha Hp]. pose proof (check_applied mine peer d (Reset v h set) v h (lost, gained) d1 Hz Ha) as Hc.
    cbn [fst snd] in Hc. cbv zeta in *. case_bool_decide; (split; [done|]; apply Hc; [|done]; intros c Hm; rewrite Hp; tauto).
Qed.

(** A pass of anti-entropy: the peers checked, with what each answered. *)
Definition check_all (d : DeathRepair) (mine : gset key) (l : list (key * option Changes)) : DeathRepair :=
  foldl (fun d pc => (check_peer d mine pc.1 pc.2).2) d l.

Lemma check_all_net l d mine :
  Forall (fun pc => wf_changes pc.2 /\ heads d !! pc.1 <> None) l -> no_zero (pending d) ->
  no_zero (pending (check_all d mine l)) /\
  forall c, c ∈ mine -> net (pending (check_all d mine l)) c - net (pending d) c = holder_count (check_all d mine l) c - holder_count d c.
Proof.
  revert d. induction l as [|[p ch] l IH]; intros d Hl Hz; cbn [check_all foldl fst snd].
  - split; [done|]. intros. lia.
  - apply list.Forall_cons in Hl as [[Hw Hk] Hl]. cbn in Hw, Hk.
    destruct ch as [ch|]; [|by apply IH]. destruct (check_peer_spec d mine p ch Hw Hz) as [_ Hc].
    destruct (IH (check_peer d mine p (Some ch)).2) as [Hz' Hn'].
    { revert Hl. apply Forall_impl. intros [q c'] [Hw' Hk']. split; [done|]. cbn in *. rewrite (ck_heads _ _ _ _ _ Hc).
      destruct (decide (q = p)) as [->|Hne]; [by rewrite lookup_insert_eq|by rewrite lookup_insert_ne by congruence]. }
    { apply Hc. }
    split; [exact Hz'|]. intros c Hm. specialize (Hn' c Hm). pose proof (ck_net _ _ _ _ _ Hc Hk c Hm). unfold check_all in *. lia.
Qed.

(** A window of provider changes nets to the change of the holder count.
    Over any sequence of checks of known peers, starting from an empty window,
    the net the window holds for an object of ours is the number of holders
    the index has for it after the checks less the number it had before; and
    the batch drained when the window closes contains the object exactly when
    the two differ, so that a holder that left and one that came back in the
    same window start nothing. *)
Theorem window_nets_holder_change (d : DeathRepair) (mine : gset key) (l : list (key * option Changes)) (c : key) :
  Forall (fun pc => wf_changes pc.2 /\ heads d !! pc.1 <> None) l -> pending d = ∅ -> c ∈ mine ->
  let d' := check_all d mine l in
  default 0 (pending d' !! c) = holder_count d' c - holder_count d c /\
  (c ∈ (drain d').1 <-> holder_count d' c <> holder_count d c) /\ pending (drain d').2 = ∅.
Proof.
  intros Hl He Hc d'. destruct (check_all_net l d mine Hl) as [Hz Hn]; [intros x; rewrite He; by rewrite lookup_empty|].
  specialize (Hn c Hc). fold d' in Hz, Hn. unfold net in Hn. rewrite He, lookup_empty in Hn. cbn [default] in Hn.
  change (default 0 None) with 0 in Hn. split; [lia|]. split; [|done].
  unfold drain. cbn [fst]. rewrite list_elem_of_fmap. split.
  - intros ([x z] & -> & Hx%elem_of_map_to_list). cbn in *. rewrite Hx in Hn. cbn in Hn. intros E. apply (Hz x). rewrite Hx. f_equal. lia.
  - intros Hne. destruct (pending d' !! c) as [z|] eqn:E; [|cbn in Hn; lia]. exists (c, z). split; [done|]. by apply elem_of_map_to_list.
Qed.

(** ** The election *)

Section election.
Context `{Blake3}.

Lemma foldl_pick {A} (f : A -> A -> comparison) b (l : list A) :
  foldl (fun b x => match f x b with Lt => x | _ => b end) b l ∈ b :: l.
Proof.
  revert b. induction l as [|x l IH]; intros b; cbn [foldl]; [set_solver|].
  specialize (IH (match f x b with Lt => x | _ => b end)). destruct (f x b); set_solver.
Qed.

Lemma repairer_mem c hs : hs <> [] -> exists w, repairer_for c hs = Some w /\ w ∈ hs.
Proof.
  destruct hs as [|h hs]; [done|]. intros _. eexists. split; [done|].
  apply (foldl_pick (fun x b => cmp (Cid_of (c ++ x)) (Cid_of (c ++ b)))).
Qed.

Lemma ascending_ext (l k : list key) : ascending l -> ascending k -> (forall x, x ∈ l <-> x ∈ k) -> l = k.
Proof.
  intros Hl Hk E. rewrite <- (sort_id l Hl), <- (sort_id k Hk). apply sort_canonical.
  apply NoDup_Permutation; [by apply ascending_NoDup..|done].
Qed.

(** The candidates are the survivors in ascending order, ourselves included. *)
Lemma candidates_survivors (d : DeathRepair) (alive : gset key) (gone c : key) (S : gset key) :
  filter (fun h => h <> gone /\ h ∈ alive) (default ∅ (holders d !! c)) ∪ {[me d]} = S -> candidates d alive gone c = bset_iter S.
Proof.
  intros <-. unfold candidates. set (X := filter _ _). rewrite <- bset_iter_canonical.
  apply ascending_ext; [apply dedup_ascending, sort_sorted..|]. intros x. rewrite !elem_of_dedup, !sort_perm. unfold bset_iter.
  rewrite sort_perm, elem_of_elements, elem_of_app, elem_of_elements. set_solver.
Qed.

(** Removing a dead holder from the objects it held. *)
Definition forget (dead : key) (h : HolderIndex) (c : key) : HolderIndex :=
  match h !! c with Some hs => <[c := hs ∖ {[dead]}]> h | None => h end.

Lemma forget_lookup dead h x c :
  default ∅ (forget dead h x !! c) = if decide (c = x) then default ∅ (h !! c) ∖ {[dead]} else (default ∅ (h !! c) : gset key).
Proof.
  unfold forget. destruct (h !! x) as [hs|] eqn:E.
  - case_decide as Hc; [subst; by rewrite lookup_insert_eq, E|by rewrite lookup_insert_ne by congruence].
  - case_decide as Hc; [subst; rewrite E; cbn; set_solver|done].
Qed.

Lemma forget_all_lookup dead l h c :
  default ∅ (foldl (forget dead) h l !! c) = if decide (c ∈ l) then default ∅ (h !! c) ∖ {[dead]} else (default ∅ (h !! c) : gset key).
Proof.
  revert h. induction l as [|x l IH]; intros h; cbn [foldl]; [by rewrite decide_False by set_solver|].
  rewrite IH, forget_lookup. destruct (decide (c = x)) as [->|Hne].
  - rewrite (decide_True (P := x ∈ x :: l)) by set_solver. case_decide; set_solver.
  - destruct (decide (c ∈ l)); [rewrite decide_True by set_solver|rewrite decide_False by set_solver]; done.
Qed.

Lemma our_share_mem d alive gone cids c :
  c ∈ map fst (our_share d alive gone cids) <-> c ∈ cids /\ repairer_for c (candidates d alive gone c) = Some (me d).
Proof.
  unfold our_share. rewrite list_elem_of_fmap. split.
  - intros ([x n] & -> & (y & Hy & E)%list_elem_of_omap). case_bool_decide; [|done]. simplify_eq. done.
  - intros [Hc E]. exists (c, length (candidates d alive gone c)). split; [done|]. apply list_elem_of_omap. exists c.
    split; [done|]. by rewrite bool_decide_true.
Qed.

Lemma our_share_NoDup d alive gone cids : NoDup cids -> NoDup (map fst (our_share d alive gone cids)).
Proof.
  induction 1 as [|x l Hx Hl IH]; [constructor|]. unfold our_share in *. cbn [omap list_omap]. case_bool_decide; [|done].
  cbn [map fst]. apply list.NoDup_cons. split; [|done]. intros Hin. apply (our_share_mem d alive gone l) in Hin. tauto.
Qed.

Lemma repair_our_share_spec d alive gone cids c :
  NoDup cids -> no_zero (pending d) ->
  net (pending (repair_our_share d alive gone cids)) c = net (pending d) c +
    if decide (c ∈ cids /\ repairer_for c (candidates d alive gone c) = Some (me d)) then -1 else 0.
Proof.
  intros Hnd Hz. unfold repair_our_share. cbv zeta. set (s := sort_by _ _).
  assert (Hp : s ≡ₚ our_share d alive gone cids) by apply sort_by_perm.
  assert (Hm : map fst s ≡ₚ map fst (our_share d alive gone cids)) by by rewrite Hp.
  destruct (accrue_all_spec (map fst s) d (-1)) as (_ & _ & _ & _ & ->); [by rewrite Hm; apply our_share_NoDup|done|].
  f_equal. apply decide_ext. rewrite Hm. apply our_share_mem.
Qed.

(** C34: Exactly one survivor repairs an object whose holder died.  Let the
    survivors of a death be the alive holders of an object, each with its own
    index that lists the dead node and the other survivors for it.  Then there
    is one survivor whose window takes the loss of the object when it learns
    of the death, and every other survivor's window is left as it was for it:
    no message is exchanged and no object is left without a repairer. *)
Theorem one_survivor_repairs (S alive : gset key) (dead c : key) (node : key -> DeathRepair) :
  S <> ∅ ->
  (forall s, s ∈ S -> me (node s) = s /\ no_zero (pending (node s)) /\ holds (holders (node s)) c dead /\
    filter (fun h => h <> dead /\ h ∈ alive) (default ∅ (holders (node s) !! c)) ∪ {[s]} = S) ->
  exists w, w ∈ S /\ forall s, s ∈ S ->
    net (pending (on_death (node s) alive dead)) c = net (pending (node s)) c + if decide (s = w) then -1 else 0.
Proof.
  intros HS Hn. destruct (repairer_mem c (bset_iter S)) as (w & Ew & Hw).
  { intros E. apply HS. apply set_eq. intros x. rewrite <- (elem_of_elements S), <- (sort_perm (elements S)).
    change (sort (elements S)) with (bset_iter S). rewrite E. set_solver. }
  exists w. split; [by unfold bset_iter in Hw; rewrite sort_perm, elem_of_elements in Hw|]. intros s Hs.
  destruct (Hn s Hs) as (Hme & Hz & (hs & Ehs & Hin)%holds_key & Hsv). unfold on_death.
  set (shared := map fst _).
  assert (Hc : c ∈ shared).
  { apply list_elem_of_fmap. exists (c, hs). split; [done|]. apply list_elem_of_filter. split; [done|]. by apply elem_of_map_to_list. }
  assert (Hnd : NoDup shared).
  { eapply sublist_NoDup; [exact (NoDup_fst_map_to_list (holders (node s)))|]. apply fmap_sublist, sublist_filter. }
  destruct shared as [|x l] eqn:El; [set_solver|]. rewrite <- El in *. clear El x l.
  fold (forget dead). set (d := mk_repair _ _ _ _).
  rewrite (repair_our_share_spec d alive dead shared c Hnd Hz). cbn [pending d me]. f_equal. apply decide_ext.
  rewrite (candidates_survivors d alive dead c S), Ew, Hme.
  - split; [intros [_ [= ->]]; done|]. intros ->. done.
  - unfold d. cbn [holders me]. rewrite forget_all_lookup, decide_True by done. rewrite Hme, <- Hsv. f_equal.
    apply set_eq. intros y. rewrite !elem_of_filter. set_solver.
Qed.
End election.

(** ** Instances *)

Definition window_start : DeathRepair := mk_repair [0] {[ [9] := (1, [1]) ]} {[ [5] := {[ [9] ]} ]} ∅.

Lemma window_nets_holder_change_witness :
  let d' := check_all window_start {[ [5]; [6] ]} [([9], Some (Delta 2 [2] [[6]] [[5]])); ([9], Some (Delta 3 [3] [[5]] []))] in
  default 0 (pending d' !! [6]) = holder_count d' [6] - holder_count window_start [6] /\
  ([6] ∈ (drain d').1 <-> holder_count d' [6] <> holder_count window_start [6]) /\ pending (drain d').2 = ∅.
Proof.
  apply (window_nets_holder_change window_start {[ [5]; [6] ]}
    [([9], Some (Delta 2 [2] [[6]] [[5]])); ([9], Some (Delta 3 [3] [[5]] []))] [6]).
  - apply list.Forall_cons. split; [|apply list.Forall_singleton]; (split; [cbn; intros c Hc%list_elem_of_singleton; set_solver|]);
      cbn [fst window_start heads]; rewrite lookup_singleton_eq; discriminate.
  - reflexivity.
  - set_solver.
Defined.

(** The object whose holder left and came back is not in the batch. *)
Example offset_in_window :
  (drain (check_all window_start {[ [5]; [6] ]} [([9], Some (Delta 2 [2] [[6]] [[5]])); ([9], Some (Delta 3 [3] [[5]] []))])).1 = [[6]].
Proof. vm_compute. reflexivity. Qed.

(** Two survivors, [1] and [2], of the death of [9]. *)
Definition survivor (s : key) : DeathRepair := mk_repair s ∅ {[ [5] := {[ [1]; [2]; [9] ]} ]} ∅.

Lemma one_survivor_repairs_witness :
  exists w, w ∈ ({[ [1]; [2] ]} : gset key) /\ forall s, s ∈ ({[ [1]; [2] ]} : gset key) ->
    net (pending (@on_death toy_blake3 (survivor s) {[ [1]; [2] ]} [9])) [5] = net (pending (survivor s)) [5] + if decide (s = w) then -1 else 0.
Proof.
  apply (@one_survivor_repairs toy_blake3 {[ [1]; [2] ]} {[ [1]; [2] ]} [9] [5] survivor).
  - set_solver.
  - intros s Hs. split; [reflexivity|]. split; [intros c; cbn; by rewrite lookup_empty|].
    unfold holds, survivor. cbn [holders]. rewrite lookup_singleton_eq. cbn [default].
    split; [set_solver|]. apply set_eq. intros x. change (default ∅ (Some ?y)) with y. rewrite elem_of_union, elem_of_filter. set_solver.
Defined.

(** An object that enters our store after a peer was first read is not
    attributed to that peer: the peer's head has not changed, so its answer is
    the empty delta, and its death then records no loss for the object. *)
Example late_object_not_indexed :
  let first := (check_peer (mk_repair [0] ∅ ∅ ∅) ∅ [9] (Some (Reset 1 [1] [[5]]))).2 in
  let later := (check_peer first {[ [5] ]} [9] (Some (Delta 1 [1] [] []))).2 in
  ~ holds (holders later) [5] [9] /\ pending (@on_death toy_blake3 later {[ [0] ]} [9]) = ∅.
Proof. split; [|vm_compute; reflexivity]. apply (bool_decide_unpack _). vm_compute. exact I. Qed.
