(* ===== verification/HoldingsTrack.v ===== *)
(** A reader of holdings manifests follows its publisher: the chain of
    published versions, the walk that reads it, and the index of [Repair] kept
    from it. *)

From S2P Require Import Prelude Crypto Holdings Repair RepairIndex.

Open Scope Z_scope.

(** ** Sets and diffs *)

Lemma elem_of_sorted_vec (X : gset key) c : c ∈ sorted_vec X <-> c ∈ X.
Proof. unfold sorted_vec, bset_iter. by rewrite sort_perm, elem_of_elements. Qed.

Lemma sorted_vec_set (X : gset key) : list_to_set (sorted_vec X) = X.
Proof. apply set_eq. intros c. by rewrite elem_of_list_to_set, elem_of_sorted_vec. Qed.

Lemma canonical_ascending l : ascending l -> canonical l = true.
Proof.
  induction 1 as [|x l Hs IH Hx]; [done|]. destruct l as [|y l]; [done|].
  apply Forall_cons_iff in Hx as [Hx _]. cbn in Hx |- *. by rewrite Hx.
Qed.

(** Applying the diffs one by one is applying the net of them. *)
Lemma delta_steps_net ms T :
  let '(A, R) := foldl delta_step (∅, ∅) ms in
  A ## R /\ (Forall (fun m => match hm_body m with Diff _ _ _ => True | _ => False end) ms -> foldl set_step T ms = T ∖ R ∪ A).
Proof.
  induction ms as [|m ms IH] using rev_ind; [split; [done|]; intros _; cbn; set_solver|].
  rewrite !foldl_app. cbn [foldl]. destruct (foldl delta_step (∅, ∅) ms) as [A R]. destruct IH as [Hd IH].
  unfold delta_step. destruct (hm_body m) as [cids|a r prev] eqn:Eb; cbn [fst snd].
  - split; [done|]. intros Hf. apply list.Forall_app in Hf as [_ Hm]. apply Forall_cons_iff in Hm as [Hm _]. by rewrite Eb in Hm.
  - split; [set_solver|]. intros [Hf _]%list.Forall_app. rewrite (IH Hf). unfold set_step. rewrite ?Eb.
    apply set_eq. intros x. destruct (decide (x ∈ (list_to_set a : gset key))); set_solver.
Qed.

Section track.
Context `{Ed25519Laws} `{Blake3} `{PostcardLaws HoldingsManifest}.
Context (blake3_inj : forall a b, blake3 a = blake3 b -> a = b) (id : NodeIdentity).

Definition mcid (m : HoldingsManifest) : key := Cid_of (to_allocvec m).

Lemma mcid_inj m m' : mcid m = mcid m' -> m = m'.
Proof. intros E%blake3_inj. by apply to_allocvec_inj. Qed.

(** ** The published chain *)

(** Announced versions, newest first, each with the set it describes. *)
Notation log := (list (HoldingsManifest * gset key)).

Inductive wf_log : log -> Prop :=
  | wl_nil : wf_log []
  | wl_snap v S rest : wf_log rest -> (forall e, e ∈ rest -> hm_version e.1 < v) ->
      wf_log ((signed id v (Snapshot (sorted_vec S)), S) :: rest)
  | wl_diff v S S' m' rest : wf_log ((m', S') :: rest) -> hm_version m' = v - 1 -> v mod SNAPSHOT_EVERY <> 0 ->
      wf_log ((signed id v (Diff (sorted_vec (S ∖ S')) (sorted_vec (S' ∖ S)) (mcid m')), S) :: (m', S') :: rest).

Lemma wf_versions m S rest : wf_log ((m, S) :: rest) -> forall e, e ∈ rest -> hm_version e.1 < hm_version m.
Proof.
  remember ((m, S) :: rest) as l eqn:El. intros Hw. revert m S rest El.
  induction Hw as [|v T rest' Hw IH Hv|v T T' m' rest' Hw IH Hv Hm]; intros m S rest [= <- <- <-]; [done|].
  intros e [->|He]%elem_of_cons; cbn; [lia|]. specialize (IH m' T' rest' eq_refl e He). lia.
Qed.

Lemma wf_tail e rest : wf_log (e :: rest) -> wf_log rest.
Proof. inversion 1; subst; [done|]. done. Qed.

Lemma wf_unique l e e' : wf_log l -> e ∈ l -> e' ∈ l -> mcid e.1 = mcid e'.1 -> e = e'.
Proof.
  induction l as [|x l IH]; [set_solver|]. intros Hw [->|He]%elem_of_cons [->|He']%elem_of_cons E%mcid_inj; [done|..].
  - destruct x as [m S]. pose proof (wf_versions m S l Hw e' He'). cbn in *. rewrite E in *. lia.
  - destruct x as [m S]. pose proof (wf_versions m S l Hw e He). cbn in *. rewrite E in *. lia.
  - apply IH; [by eapply wf_tail|done..|by rewrite E].
Qed.

(** The diffs at the head of a chain. *)
Fixpoint run (l : log) : Z :=
  match l with
  | [] => 0
  | (m, _) :: rest => match hm_body m with Snapshot _ => 0 | Diff _ _ _ => 1 + run rest end
  end.

Lemma run_bound m S rest : wf_log ((m, S) :: rest) -> 0 <= run ((m, S) :: rest) <= hm_version m mod SNAPSHOT_EVERY.
Proof.
  remember ((m, S) :: rest) as l eqn:El. intros Hw. revert m S rest El.
  induction Hw as [|v T rest' Hw IH Hv|v T T' m' rest' Hw IH Hv Hm]; intros m S rest [= <- <- <-].
  - cbn [run hm_body signed hm_version]. pose proof (Z.mod_pos_bound v SNAPSHOT_EVERY). unfold SNAPSHOT_EVERY in *. lia.
  - specialize (IH m' T' rest' eq_refl). cbn [run hm_body signed hm_version] in *. rewrite Hv in IH. unfold SNAPSHOT_EVERY in *.
    assert (v mod 16 = (v - 1) mod 16 + 1); [|lia].
    pose proof (Z.div_mod v 16 ltac:(lia)). pose proof (Z.mod_pos_bound v 16 ltac:(lia)).
    symmetry. pose proof (Z.mod_unique_pos (v - 1) 16 (v / 16) (v mod 16 - 1)). lia.
Qed.

Lemma signed_verifies l e : wf_log l -> e ∈ l -> hm_node e.1 = node_id id /\ manifest_verify e.1 = true.
Proof.
  induction 1 as [|v S rest Hw IH Hv|v S S' m' rest Hw IH Hv Hm]; [set_solver|..]; intros [->|He]%elem_of_cons; auto.
  - split; [done|]. unfold manifest_verify. cbn. rewrite verify_slice_sign, canonical_ascending by apply bset_iter_ascending. done.
  - split; [done|]. unfold manifest_verify. cbn [hm_body fst signed hm_node hm_version hm_sig].
    rewrite verify_slice_sign, !canonical_ascending by apply bset_iter_ascending. cbn [andb]. rewrite andb_true_r.
    apply negb_true_iff. apply not_true_iff_false. intros (c & Hc%list_elem_of_In & Hb%bool_decide_eq_true)%existsb_exists.
    apply binary_search_is_Some in Hb; [|apply bset_iter_ascending]. apply elem_of_sorted_vec in Hc. apply elem_of_sorted_vec in Hb. set_solver.
Qed.

Definition served (net : Net) (l : log) : Prop := forall e, e ∈ l -> objects net !! mcid e.1 = Some (to_allocvec e.1).

Lemma fetch_served net l e : wf_log l -> served net l -> e ∈ l -> fetch_at net (node_id id) (mcid e.1) = Some e.1.
Proof.
  intros Hw Hs He. unfold fetch_at. rewrite (Hs e He). cbn [mbind option_bind]. rewrite postcard_roundtrip. cbn [mbind option_bind].
  destruct (signed_verifies l e Hw He) as [-> ->]. by rewrite bool_decide_false by tauto.
Qed.

Lemma diff_steps (S S' : gset key) : S' ∖ list_to_set (sorted_vec (S' ∖ S)) ∪ list_to_set (sorted_vec (S ∖ S')) = S.
Proof. rewrite !sorted_vec_set. apply set_eq. intros x. destruct (decide (x ∈ S)), (decide (x ∈ S')); set_solver. Qed.

(** A walk down the chain reaches the reader's baseline or a snapshot, and
    what it returns rebuilds the head's set. *)
Lemma walk_log net known fuel n m S rest :
  wf_log ((m, S) :: rest) -> served net ((m, S) :: rest) ->
  run ((m, S) :: rest) < Z.of_nat fuel -> n + run ((m, S) :: rest) <= 33 ->
  exists chain b, walk_loop fuel (fetch_at net (node_id id)) known n m = Some (chain, b) /\
    if (b : bool) then
      exists e, e ∈ rest /\ known = Some (mcid e.1) /\ foldl set_step e.2 (rev chain) = S /\
        Forall (fun m => match hm_body m with Diff _ _ _ => True | _ => False end) (rev chain)
    else exists s ms cids, rev chain = s :: ms /\ hm_body s = Snapshot cids /\ foldl set_step (list_to_set cids) ms = S.
Proof.
  revert n m S rest. induction fuel as [|fuel IH]; intros n m S rest Hw Hs Hf Hn; [pose proof (run_bound _ _ _ Hw); lia|].
  cbn [walk_loop]. inversion Hw as [|v T rest' Hw' Hv|v T S' m' rest' Hw' Hv Hm]; subst; cbn [signed hm_body].
  - exists [signed id v (Snapshot (sorted_vec S))], false. split; [done|]. exists (signed id v (Snapshot (sorted_vec S))), [], (sorted_vec S).
    split; [done|]. split; [done|]. apply sorted_vec_set.
  - set (d := signed id v _) in *. assert (Er : run ((d, S) :: (m', S') :: rest') = 1 + run ((m', S') :: rest')) by reflexivity.
    rewrite Er in Hf, Hn. pose proof (run_bound _ _ _ Hw'). case_bool_decide as Ek.
    + exists [d], true. split; [done|]. exists (m', S'). split; [set_solver|]. split; [done|]. split; [|by constructor].
      cbn [rev app foldl]. apply diff_steps.
    + destruct (Z.ltb_spec (SNAPSHOT_EVERY * 2) n) as [Hx|Hx].
      { exfalso. unfold SNAPSHOT_EVERY in *. lia. }
      pose proof (fetch_served net _ (m', S') Hw Hs ltac:(set_solver)) as Ef. cbn [fst] in Ef. rewrite Ef. cbn [mbind option_bind].
      destruct (IH (n + 1) m' S' rest' Hw') as (chain & b & E & Hc).
      { intros e He. apply Hs. set_solver. } { lia. } { lia. }
      rewrite E. cbn [mbind option_bind]. exists (d :: chain), b. split; [done|]. cbn [rev]. destruct b.
      * destruct Hc as (e & He & Hk & Hset & Hall). exists e. split; [set_solver|]. split; [done|]. split.
        { rewrite foldl_app, Hset. apply diff_steps. }
        apply list.Forall_app. split; [done|]. by constructor.
      * destruct Hc as (s & ms & cids & Erev & Eb & Hset). exists s, (ms ++ [d]), cids. rewrite Erev. split; [done|]. split; [done|].
        rewrite foldl_app, Hset. apply diff_steps.
Qed.

(** ** The reader's answer *)

Lemma changes_since_log net m S rest known :
  wf_log ((m, S) :: rest) -> served net ((m, S) :: rest) -> app_head net = Some (mcid m, hm_version m) ->
  (forall kv kc, known = Some (kv, kc) -> exists e, e ∈ (m, S) :: rest /\ mcid e.1 = kc /\ hm_version e.1 = kv) ->
  exists ch, changes_since net (node_id id) known = Some ch /\ wf_changes (Some ch) /\
    match ch with
    | Delta v h a r => v = hm_version m /\ h = mcid m /\
        exists e, e ∈ (m, S) :: rest /\ snd <$> known = Some (mcid e.1) /\ forall c, c ∈ S <-> (c ∈ e.2 /\ c ∉ r) \/ c ∈ a
    | Reset v h set => v = hm_version m /\ h = mcid m /\ forall c, c ∈ S <-> c ∈ set
    end.
Proof.
  intros Hw Hs Hh Hk. unfold changes_since, peer_head. rewrite Hh. cbn [mbind option_bind].
  assert (Hsame : unchanged known (mcid m) = Some (hm_version m) /\ snd <$> known = Some (mcid m) \/ unchanged known (mcid m) = None).
  { unfold unchanged. destruct known as [[kv kc]|]; [|by right]. case_bool_decide as E; [|by right]. left.
    destruct (Hk kv kc eq_refl) as (e & He & Ec & Ev). rewrite <- Ec in E.
    pose proof (wf_unique _ e (m, S) Hw He ltac:(set_solver) E) as ->. cbn in *. by rewrite <- Ev, <- Ec. }
  destruct Hsame as [[-> Ek]| ->].
  - eexists. split; [done|]. split; [cbn; set_solver|]. split; [done|]. split; [done|]. exists (m, S). split; [set_solver|]. split; [done|]. set_solver.
  - pose proof (fetch_served net _ (m, S) Hw Hs ltac:(set_solver)) as Ef. cbn [fst] in Ef. rewrite Ef. cbn [mbind option_bind].
    unfold walk_chain. pose proof (run_bound _ _ _ Hw) as Hb. pose proof (Z.mod_pos_bound (hm_version m) SNAPSHOT_EVERY ltac:(done)) as Hm.
    destruct (walk_log net (snd <$> known) 34 1 m S rest Hw Hs) as (chain & b & -> & Hc); [unfold SNAPSHOT_EVERY in *; lia..|].
    cbn [mbind option_bind]. destruct b.
    + destruct Hc as (e & He & Ek & Hset & Hall). pose proof (delta_steps_net (rev chain) e.2) as Hn. unfold net_delta.
      destruct (foldl delta_step (∅, ∅) (rev chain)) as [A R]. destruct Hn as [Hd Hn]. rewrite (Hn Hall) in Hset.
      eexists. split; [done|]. split; [intros c; rewrite !elem_of_sorted_vec; set_solver|]. split; [done|]. split; [done|].
      exists e. split; [set_solver|]. split; [done|]. intros c. rewrite <- Hset, !elem_of_sorted_vec. set_solver.
    + destruct Hc as (s & ms & cids & Er & Eb & Hset). unfold fold_set. rewrite Er, Eb, Hset. cbn [mbind option_bind].
      eexists. split; [done|]. split; [done|]. split; [done|]. split; [done|]. intros c. by rewrite elem_of_sorted_vec.
Qed.

(** ** Publisher and reader together *)

(** [said] is the set of the last announced version. *)
Record Sys := mk_sys { ms : ManifestStore; nt : Net; said : gset key; rd : DeathRepair }.

Definition peer : key := node_id id.

(** The version file covers what was announced: the last write of it that
    followed an announcement succeeded. *)
Definition file_current (s : Sys) : Prop := forall k v, app_head (nt s) = Some (k, v) -> v <= resume_version (ms s).

(** The reader's own objects may differ from check to check; [mine] are some it
    holds at all of them. *)
Inductive sys_step (mine : gset key) : Sys -> Sys -> Prop :=
  | sys_publish s cids o r ms' net' : publish id (ms s) (nt s) cids o = (r, ms', net') ->
      sys_step mine s (mk_sys ms' net' (match r with Some _ => list_to_set cids | None => said s end) (rd s))
  | sys_restart s : file_current s -> sys_step mine s (mk_sys (restart (ms s)) (nt s) (said s) (rd s))
  | sys_check s ours : mine ⊆ ours -> sys_step mine s (mk_sys (ms s) (nt s) (said s)
      (check_peer (rd s) ours peer (changes_since (nt s) peer (heads (rd s) !! peer))).2)
  | sys_other s ours q ch : mine ⊆ ours -> q <> peer -> wf_changes ch ->
      sys_step mine s (mk_sys (ms s) (nt s) (said s) (check_peer (rd s) ours q ch).2)
  | sys_death s alive dead : sys_step mine s (mk_sys (ms s) (nt s) (said s) (on_death (rd s) alive dead)).

(** A fresh publisher, and a reader that has not met it. *)
Definition sys_init (s : Sys) : Prop :=
  ms s = mk_ms None None /\ app_head (nt s) = None /\ heads (rd s) !! peer = None /\ no_zero (pending (rd s)).

Inductive reached (mine : gset key) : Sys -> Prop :=
  | reached_init s : sys_init s -> reached mine s
  | reached_step s s' : reached mine s -> sys_step mine s s' -> reached mine s'.

Record sys_inv (mine : gset key) (s : Sys) (l : log) : Prop := {
  si_wf : wf_log l;
  si_served : served (nt s) l;
  si_head : app_head (nt s) = match l with e :: _ => Some (mcid e.1, hm_version e.1) | [] => None end;
  si_said : forall e, head l = Some e -> e.2 = said s;
  si_file : last (ms s) = None -> forall e, e ∈ l -> hm_version e.1 <= resume_version (ms s);
  si_last : forall p, last (ms s) = Some p -> exists e rest, l = e :: rest /\ p = mk_published (hm_version e.1) e.2 (mcid e.1);
  si_known : forall kv kc, heads (rd s) !! peer = Some (kv, kc) ->
    exists e, e ∈ l /\ mcid e.1 = kc /\ hm_version e.1 = kv /\ forall c, c ∈ mine -> holds (holders (rd s)) c peer <-> c ∈ e.2;
  si_zero : no_zero (pending (rd s))
}.

Lemma init_inv mine s : sys_init s -> sys_inv mine s [].
Proof.
  intros (Em & Eh & Ek & Hz). constructor; try done; try (intros e He; set_solver).
  - constructor.
  - by rewrite Em.
Qed.

Lemma served_put net l m : served net l -> served (mk_net (<[mcid m := to_allocvec m]> (objects net)) (app_head net)) l.
Proof.
  intros Hs e He. cbn. destruct (decide (mcid m = mcid e.1)) as [E|E]; [|by rewrite lookup_insert_ne; auto].
  rewrite E, lookup_insert_eq. apply mcid_inj in E. by rewrite E.
Qed.

Lemma next_log mine s l now version body :
  sys_inv mine s l -> next_body (ms s) now = Some (version, body) ->
  wf_log ((signed id version body, now) :: l) /\ forall e, e ∈ l -> hm_version e.1 < version.
Proof.
  intros Hi. unfold next_body. destruct (last (ms s)) as [p|] eqn:El.
  - destruct (si_last _ _ _ Hi p El) as ([m S] & rest & -> & ->). cbn [pb_cids pb_version pb_cid fst snd] in *.
    assert (Hlt : forall e, e ∈ (m, S) :: rest -> hm_version e.1 < hm_version m + 1).
    { intros e [->|He]%elem_of_cons; [cbn; lia|]. pose proof (wf_versions _ _ _ (si_wf _ _ _ Hi) e He). lia. }
    destruct (bool_decide _ && bool_decide _); [done|].
    destruct (Z.eqb_spec ((hm_version m + 1) mod SNAPSHOT_EVERY) 0) as [E|E]; intros [= <- <-]; (split; [|done]).
    + constructor; [apply Hi|done].
    + constructor; [apply Hi|lia|done].
  - intros [= <- <-]. assert (Hlt : forall e, e ∈ l -> hm_version e.1 < resume_version (ms s) + 1).
    { intros e He. pose proof (si_file _ _ _ Hi El e He). lia. }
    split; [|done]. constructor; [apply Hi|done].
Qed.

Lemma publish_inv mine s l cids o r ms' net' :
  publish id (ms s) (nt s) cids o = (r, ms', net') -> sys_inv mine s l ->
  exists l', sys_inv mine (mk_sys ms' net' (match r with Some _ => list_to_set cids | None => said s end) (rd s)) l'.
Proof.
  unfold publish. cbv zeta. intros Hp Hi.
  destruct (next_body (ms s) (list_to_set cids)) as [[version body]|] eqn:En; [|injection Hp as <- <- <-; exists l; by destruct Hi].
  destruct (stored o); cbn [negb] in Hp; [|injection Hp as <- <- <-; exists l; by destruct Hi].
  destruct (next_log _ _ _ _ _ _ Hi En) as [Hw Hv]. set (m := signed id version body) in *. fold (mcid m) in Hp.
  pose proof (served_put (nt s) l m (si_served _ _ _ Hi)) as Hs.
  destruct (announced o); cbn [negb] in Hp; [|injection Hp as <- <- <-; exists l; by destruct Hi].
  set (now := list_to_set cids : gset key) in *.
  assert (Ea : announce_app (mk_net (<[mcid m := to_allocvec m]> (objects (nt s))) (app_head (nt s))) (mcid m) version =
    mk_net (<[mcid m := to_allocvec m]> (objects (nt s))) (Some (mcid m, version))).
  { unfold announce_app. cbn [app_head objects]. rewrite (si_head _ _ _ Hi). destruct l as [|e l']; [done|].
    pose proof (Hv e ltac:(set_solver)). destruct (Z.leb_spec version (hm_version e.1)); [lia|done]. }
  rewrite Ea in Hp. injection Hp as <- <- <-. exists ((m, now) :: l). constructor; cbn [ms nt rd said app_head].
  - done.
  - intros e [->|He]%elem_of_cons; [cbn; by rewrite lookup_insert_eq|]. apply (Hs e He).
  - done.
  - by intros e [= <-].
  - done.
  - intros p [= <-]. by exists (m, now), l.
  - intros kv kc Hk. destruct (si_known _ _ _ Hi kv kc Hk) as (e & He & Hrest). exists e. split; [set_solver|done].
  - apply Hi.
Qed.

Lemma restart_inv mine s l : file_current s -> sys_inv mine s l -> sys_inv mine (mk_sys (restart (ms s)) (nt s) (said s) (rd s)) l.
Proof.
  intros Hf Hi. destruct Hi as [Hw Hs Hh Hsd _ _ Hk Hz]. constructor; cbn [ms nt rd said restart last]; try done.
  intros _ e He. change (hm_version e.1 <= resume_version (ms s)).
  destruct l as [|[m S] rest]; [by apply not_elem_of_nil in He|]. pose proof (Hf _ _ Hh) as Hle. cbn [fst] in Hle.
  apply elem_of_cons in He as [->|He]; [done|]. pose proof (wf_versions _ _ _ Hw e He). lia.
Qed.

(** One check of the publisher by the reader. *)
Lemma check_inv mine ours s l :
  mine ⊆ ours -> sys_inv mine s l ->
  let '(ok, d') := check_peer (rd s) ours peer (changes_since (nt s) peer (heads (rd s) !! peer)) in
  sys_inv mine (mk_sys (ms s) (nt s) (said s) d') l /\
  (app_head (nt s) = None -> ok = false /\ d' = rd s) /\
  forall k v, app_head (nt s) = Some (k, v) -> ok = true /\ heads d' !! peer = Some (v, k) /\
    forall c, c ∈ mine -> holds (holders d') c peer <-> c ∈ said s.
Proof.
  intros Hsub Hi. destruct l as [|[m S] rest].
  - pose proof (si_head _ _ _ Hi) as Eh. cbn in Eh. assert (Ec : changes_since (nt s) peer (heads (rd s) !! peer) = None).
    { unfold changes_since, peer_head. by rewrite Eh. }
    rewrite Ec. cbn. split; [by destruct Hi|]. split; [done|]. by rewrite Eh.
  - pose proof (si_head _ _ _ Hi) as Eh. cbn [fst] in Eh.
    destruct (changes_since_log (nt s) m S rest (heads (rd s) !! peer) (si_wf _ _ _ Hi) (si_served _ _ _ Hi) Eh) as (ch & Ec & Hwf & Hch).
    { intros kv kc Hk. destruct (si_known _ _ _ Hi kv kc Hk) as (e & He & E1 & E2 & _). by exists e. }
    fold peer in Ec. rewrite Ec. destruct (check_peer_spec (rd s) ours peer ch Hwf (si_zero _ _ _ Hi)) as [Hok Hck].
    destruct (check_peer (rd s) ours peer (Some ch)) as [ok d']. cbn [fst snd] in *. subst ok.
    assert (Hhd : heads d' !! peer = Some (hm_version m, mcid m)).
    { rewrite (ck_heads _ _ _ _ _ Hck), lookup_insert_eq. destruct ch; by destruct Hch as (-> & -> & _). }
    assert (HS : forall c, c ∈ mine -> holds (holders d') c peer <-> c ∈ S).
    { intros c Hc. rewrite (ck_peer _ _ _ _ _ Hck c (Hsub c Hc)). destruct ch as [v h a r|v h set]; destruct Hch as (_ & _ & Hset); [|by rewrite Hset].
      destruct Hset as (e & He & Hk & Hset). rewrite Hset. destruct (heads (rd s) !! peer) as [[kv kc]|] eqn:Ek; [|done].
      injection Hk as ->. destruct (si_known _ _ _ Hi kv _ Ek) as (e' & He' & E1 & _ & Hin).
      apply (wf_unique _ _ _ (si_wf _ _ _ Hi) He' He) in E1. subst e'. by rewrite (Hin c Hc). }
    split; [|split; [by rewrite Eh|]].
    + destruct Hi. constructor; cbn [ms nt rd said]; try done.
      * intros kv kc E. rewrite Hhd in E. injection E as <- <-. exists (m, S). split; [set_solver|]. done.
      * apply Hck.
    + intros k v E. rewrite Eh in E. injection E as <- <-. split; [done|]. split; [done|].
      intros c Hc. rewrite (HS c Hc). by rewrite <- (si_said _ _ _ Hi (m, S) eq_refl).
Qed.

Lemma accrue_all_frame l d e :
  no_zero (pending d) -> heads (accrue_all d l e) = heads d /\ holders (accrue_all d l e) = holders d /\ no_zero (pending (accrue_all d l e)).
Proof.
  revert d. induction l as [|x l IH]; intros d Hz; [done|].
  exact (IH (accrue d x e) (accrue_no_zero _ _ _ Hz)).
Qed.

(** Taking a dead node out of the index leaves the others in it. *)
Lemma bury_others (l : list key) (dead : key) (h : HolderIndex) (c q : key) : q <> dead ->
  holds (foldl (fun h c => match h !! c with Some hs => <[c := hs ∖ {[dead]}]> h | None => h end) h l) c q <-> holds h c q.
Proof.
  intros Hq. revert h. induction l as [|x l IH]; intros h; [done|]. cbn [foldl]. rewrite IH. destruct (h !! x) as [hs|] eqn:E; [|done].
  unfold holds. destruct (decide (x = c)) as [->|Hne]; [|by rewrite lookup_insert_ne]. rewrite lookup_insert_eq, E. cbn. set_solver.
Qed.

Lemma on_death_frame d alive dead :
  no_zero (pending d) -> no_zero (pending (on_death d alive dead)) /\
  (on_death d alive dead = d \/ heads (on_death d alive dead) = delete dead (heads d) /\
   forall c q, q <> dead -> holds (holders (on_death d alive dead)) c q <-> holds (holders d) c q).
Proof.
  intros Hz. unfold on_death. cbv zeta. destruct (map fst _) as [|x l] eqn:El; [by split; [|left]|].
  unfold repair_our_share. cbv zeta. set (d1 := mk_repair _ _ _ _).
  destruct (accrue_all_frame (map fst (sort_by (fun x y => (x.2 <=? y.2)%nat) (our_share d1 alive dead (x :: l)))) d1 (-1) Hz) as (E1 & E2 & E3).
  split; [exact E3|]. right. rewrite E1, E2. split; [done|]. intros c q Hq. apply (bury_others (x :: l) dead (holders d) c q Hq).
Qed.

Lemma sys_step_inv mine s s' : (exists l, sys_inv mine s l) -> sys_step mine s s' -> exists l, sys_inv mine s' l.
Proof.
  intros [l Hi]. destruct 1 as [s cids o r ms' net' Hp|s Hf|s ours Hsub|s ours q ch Hsub Hq Hw|s alive dead].
  - by eapply publish_inv.
  - exists l. by apply restart_inv.
  - exists l. pose proof (check_inv mine ours s l Hsub Hi) as Hc. destruct (check_peer _ _ _ _) as [ok d']. apply Hc.
  - exists l. destruct ch as [ch|]; [|by destruct Hi].
    destruct (check_peer_spec (rd s) ours q ch Hw (si_zero _ _ _ Hi)) as [_ Hck].
    destruct Hi. constructor; cbn [ms nt rd said]; try done; [|apply Hck].
    intros kv kc. rewrite (ck_heads _ _ _ _ _ Hck), lookup_insert_ne by done. intros Hk.
    destruct (si_known0 kv kc Hk) as (e & He & E1 & E2 & Hin). exists e. split_and!; try done.
    intros c Hc. rewrite (ck_others _ _ _ _ _ Hck c peer (Hsub c Hc)) by congruence. auto.
  - exists l. destruct (on_death_frame (rd s) alive dead (si_zero _ _ _ Hi)) as [Hz [E|[Eh Ho]]].
    + rewrite E. by destruct Hi.
    + destruct Hi. constructor; cbn [ms nt rd said]; try done. rewrite Eh. intros kv kc [Hne Hk]%lookup_delete_Some.
      destruct (si_known0 kv kc Hk) as (e & He & E1 & E2 & Hin). exists e. split_and!; try done.
      intros c Hc. rewrite Ho by congruence. auto.
Qed.

Lemma reached_inv mine s : reached mine s -> exists l, sys_inv mine s l.
Proof.
  induction 1 as [s Hs|s s' _ IH Hst]; [exists []; by apply init_inv|]. by eapply sys_step_inv.
Qed.

(** C9: A reader follows its publisher.  Take any run of a publisher (changed
    sets, unchanged sets, a publish whose store, announcement or version file
    write failed) interleaved with a reader's checks of it, its checks of other
    peers and deaths of any node.  The publisher restarts, keeping the version
    file alone, only when that file covers what it announced; the reader's own
    objects may come and go between its checks, and [mine] are objects it holds
    at each of them (one it comes to hold between two checks is not picked up
    from a head that did not move: [RepairIndex.late_object_not_indexed]).
    Whenever the publisher has announced a head, a check finds its manifest
    readable, records that head, and leaves the index attributing to the
    publisher exactly the objects of [mine] that are in the last set it
    announced, whether it took the unchanged, the diff or the snapshot path. *)
Theorem reader_tracks_publisher (mine ours : gset key) (s : Sys) (k : key) (v : Z) :
  reached mine s -> mine ⊆ ours -> app_head (nt s) = Some (k, v) ->
  let '(ok, d') := check_peer (rd s) ours peer (changes_since (nt s) peer (heads (rd s) !! peer)) in
  ok = true /\ heads d' !! peer = Some (v, k) /\ forall c, c ∈ mine -> holds (holders d') c peer <-> c ∈ said s.
Proof.
  intros Hr Hsub Hh. destruct (reached_inv mine s Hr) as [l Hi]. pose proof (check_inv mine ours s l Hsub Hi) as Hc.
  destruct (check_peer _ _ _ _) as [ok d']. destruct Hc as (_ & _ & Hc). by apply Hc.
Qed.
End track.

(** ** Instances *)

#[global] Instance Body_eq_dec : EqDecision Body.
Proof. solve_decision. Defined.
#[global] Instance HoldingsManifest_eq_dec : EqDecision HoldingsManifest.
Proof. solve_decision. Defined.
#[global] Instance Body_countable : Countable Body.
Proof.
  refine (inj_countable' (fun b => match b with Snapshot l => inl l | Diff a r p => inr (a, r, p) end)
    (fun x => match x with inl l => Snapshot l | inr (a, r, p) => Diff a r p end) _). by intros [].
Defined.
#[global] Instance HoldingsManifest_countable : Countable HoldingsManifest.
Proof.
  refine (inj_countable' (fun m => (hm_node m, hm_version m, hm_body m, hm_sig m)) (fun '(n, v, b, s) => mk_manifest n v b s) _).
  by intros [].
Defined.

Definition id_hash : Blake3 := {| blake3 := fun b => b |}.

#[local] Existing Instances toy_ed25519 toy_ed25519_laws id_hash countable_codec countable_codec_laws.

Definition toy_id : @NodeIdentity toy_ed25519 := 7.

Lemma id_hash_inj a b : @blake3 id_hash a = @blake3 id_hash b -> a = b.
Proof. done. Qed.

Definition all_ok : Outcome := mk_outcome true true true.
Definition track0 : Sys := mk_sys (mk_ms None None) (mk_net ∅ None) ∅ (mk_repair [0] ∅ ∅ ∅).
Definition track_publish (s : Sys) (cids : list key) : Sys :=
  let '(r, m, n) := publish toy_id (ms s) (nt s) cids all_ok in
  mk_sys m n (match r with Some _ => list_to_set cids | None => said s end) (rd s).
Definition track_check (s : Sys) (mine : gset key) : Sys :=
  mk_sys (ms s) (nt s) (said s) (check_peer (rd s) mine (peer toy_id) (changes_since (nt s) (peer toy_id) (heads (rd s) !! peer toy_id))).2.

Lemma track_publish_reached mine s cids : reached toy_id mine s -> reached toy_id mine (track_publish s cids).
Proof.
  intros Hs. unfold track_publish. destruct (publish toy_id (ms s) (nt s) cids all_ok) as [[r m] n] eqn:E.
  eapply reached_step; [exact Hs|]. exact (sys_publish toy_id mine s cids all_ok r m n E).
Qed.

Lemma track_publish_head s cids version body :
  next_body (ms s) (list_to_set cids) = Some (version, body) ->
  match app_head (nt s) with Some (_, v) => v < version | None => True end ->
  app_head (nt (track_publish s cids)) = Some (mcid (signed toy_id version body), version) /\
  last (ms (track_publish s cids)) = Some (mk_published version (list_to_set cids) (mcid (signed toy_id version body))).
Proof.
  intros En Hv. unfold track_publish, publish. rewrite En. cbn [all_ok stored announced saved negb]. unfold announce_app. cbn [app_head].
  destruct (app_head (nt s)) as [[k v]|]; [|done]. cbn. destruct (Z.leb_spec version v); [lia|done].
Qed.

(** Two versions, the second a diff the reader applies to the first. *)
Definition track1 : Sys := track_publish track0 [[1]; [2]].
Definition track2 (mine : gset key) : Sys := track_publish (track_check track1 mine) [[2]; [3]].

Lemma track2_changed : (list_to_set [[2]; [3]] : gset key) ∖ list_to_set [[1]; [2]] <> ∅.
Proof.
  intros E. assert (Hin : [3] ∈ (list_to_set [[2]; [3]] : gset key) ∖ list_to_set [[1]; [2]]) by (apply (bool_decide_unpack _); reflexivity).
  rewrite E in Hin. by apply elem_of_empty in Hin.
Qed.

Lemma track2_head mine : exists k, app_head (nt (track2 mine)) = Some (k, 2).
Proof.
  destruct (track_publish_head track0 [[1]; [2]] 1 _ eq_refl I) as [E1 L1]. fold track1 in E1, L1.
  eexists. apply (track_publish_head (track_check track1 mine) [[2]; [3]] 2).
  - unfold next_body. change (ms (track_check track1 mine)) with (ms track1). rewrite L1. cbn [pb_cids pb_version pb_cid].
    rewrite (bool_decide_false _ track2_changed). cbn [andb].
    change ((1 + 1) mod SNAPSHOT_EVERY =? 0) with false. cbv iota. change (1 + 1) with 2. exact eq_refl.
  - change (nt (track_check track1 mine)) with (nt track1). rewrite E1. done.
Qed.

(** The reader holds 2 and 3 all along, 4 only at the first check. *)
Lemma reader_tracks_publisher_witness :
  let s := track2 {[ [2]; [3]; [4] ]} in
  exists k,
    let '(ok, d') := check_peer (rd s) {[ [2]; [3] ]} (peer toy_id) (changes_since (nt s) (peer toy_id) (heads (rd s) !! peer toy_id)) in
    ok = true /\ heads d' !! peer toy_id = Some (2, k) /\
    forall c, c ∈ ({[ [2]; [3] ]} : gset key) -> holds (holders d') c (peer toy_id) <-> c ∈ said s.
Proof.
  intros s. destruct (track2_head {[ [2]; [3]; [4] ]}) as [k Hk]. exists k.
  apply (reader_tracks_publisher id_hash_inj toy_id {[ [2]; [3] ]} {[ [2]; [3] ]} s); [|set_solver|exact Hk].
  apply track_publish_reached. eapply reached_step; [|apply (sys_check toy_id _ _ {[ [2]; [3]; [4] ]}); set_solver].
  apply track_publish_reached. apply reached_init.
  split_and!; try reflexivity. intros c. cbn. by rewrite lookup_empty.
Defined.

(** The bytes signed do not fix which side of a diff an object is on: a diff
    that adds the object of thirty-two bytes 3 and one that removes it are
    signed alike, and each is a manifest that verifies. *)
Example diff_sides_confused (node prev : key) (v : Z) :
  let c := replicate 32 3 in
  signing_bytes node v (Diff [c] [] prev) = signing_bytes node v (Diff [] [c] prev) /\
  manifest_verify (mk_manifest (node_id toy_id) v (Diff [] [c] prev) (sign toy_id (signing_bytes (node_id toy_id) v (Diff [c] [] prev)))) = true.
Proof.
  intros c. assert (E : forall n, signing_bytes n v (Diff [c] [] prev) = signing_bytes n v (Diff [] [c] prev)) by reflexivity.
  split; [apply E|]. rewrite E. unfold manifest_verify. cbn [hm_body hm_node hm_version hm_sig]. by rewrite verify_slice_sign.
Qed.
