(* ===== verification/HeadReg.v ===== *)
(** The node's sharded head registry ([crates/noded/src/headreg.rs]) and its
    wire protocol ([registry_net.rs]): routing of a name to its shard, the
    writer election, the per-shard tables, replication, the online reshard, the
    resolve path with its cache, and the reply to every request.

    A shard is a SQLite database with the one table [heads]; the three
    statements the code runs on it are the interface [HeadsDb].  The presence
    of a shard in [shards] is that of its published root.  Every operation
    takes a [View] of the rest of the node: the census, the clock, the governed
    shard count, the pressure gate, and what other nodes answer.  Writes to
    the local disk succeed. *)

From S2P Require Import Prelude Crypto SortedVec Registry Epoch.

Open Scope Z_scope.

Definition MAX_NAME_LEN : nat := 32.
Definition DEFAULT_SHARD_BITS : Z := 8.
Definition MAX_SHARD_BITS : Z := 12.
Definition MIGRATE_STABLE_TICKS : Z := 3.
Definition DRAIN_TICKS : Z := 18.
Definition RT_PROGRAM : Z := 0.
Definition RT_DBROOT : Z := 1.
Definition RT_MANIFEST : Z := 2.
Definition REPLICATION_FACTOR : nat := 3.
Definition RESOLVE_CACHE_TTL_MS : Z := 3000.
Definition GRACE_MILLIS : Z := 2000.
Definition I64_MAX : Z := 9223372036854775807.

(** ** SQL literals *)

(** ['], the quote of a SQL text literal. *)
Definition QUOTE : Z := 39.

Definition hexlit_bytes (b : bytes) : bytes := str_bytes "X'" ++ hex_encode b ++ [QUOTE].

Definition textlit (s : bytes) : bytes :=
  [QUOTE] ++ flat_map (fun c => if c =? QUOTE then [QUOTE; QUOTE] else [c]) s ++ [QUOTE].

(** ** The table of a shard *)

Class HeadsDb := {
  Db : Type;
  (* a database with a new [heads] table *)
  db_empty : Db;
  (* SELECT cid, version, sig FROM heads WHERE owner = ?1 AND name = ?2 *)
  db_get : Db -> key -> bytes -> option (bytes * Z * bytes);
  (* INSERT INTO heads .. ON CONFLICT(owner,name) DO UPDATE .. WHERE excluded.version > heads.version *)
  db_upsert : Db -> HeadEntry -> Db;
  (* SELECT owner, name, cid, version, sig FROM heads *)
  db_rows : Db -> list (bytes * bytes * bytes * Z * bytes);
  db_root : Db -> key
}.

(** What the statements mean, for versions an INTEGER column can hold. *)
Class HeadsDbLaws `{HeadsDb} := {
  get_empty : forall o n, db_get db_empty o n = None;
  get_upsert : forall d e o n, 0 <= version e <= I64_MAX ->
    db_get (db_upsert d e) o n =
      if bool_decide ((o, n) = (owner e, name e)) then
        match db_get d o n with
        | Some (c, v, s) => if v <? version e then Some (cid e, version e, signature e) else Some (c, v, s)
        | None => Some (cid e, version e, signature e)
        end
      else db_get d o n;
  rows_get : forall d o n c v s, (o, n, c, v, s) ∈ db_rows d <-> db_get d o n = Some (c, v, s);
  rows_nodup : forall d, NoDup (map (fun '(o, n, _, _, _) => (o, n)) (db_rows d))
}.

(** ** Routing and election *)

Record ShardKey := mk_sk { rtype : Z; bits : Z; shard : Z }.

#[global] Instance ShardKey_eq_dec : EqDecision ShardKey.
Proof. solve_decision. Defined.
#[global] Instance ShardKey_countable : Countable ShardKey.
Proof. refine (inj_countable' (fun k => (rtype k, bits k, shard k)) (fun '(t, b, s) => mk_sk t b s) _). by intros []. Defined.

(** [u64::from_le_bytes]. *)
Fixpoint le_value (b : bytes) : Z := match b with [] => 0 | x :: b' => x + 256 * le_value b' end.

Section routing.
Context `{Blake3}.

Definition shard_of (o : key) (n : bytes) (b : Z) : Z :=
  let h := blake3 (o ++ n) in
  let mask := Z.shiftl 1 b - 1 in
  Z.land (le_value (take 8 h)) mask.

Definition resolve_shard_bits (governed : option Z) : Z :=
  match governed with
  | Some v => if v <? 1 then 1 else if MAX_SHARD_BITS <? v then MAX_SHARD_BITS else v
  | None => DEFAULT_SHARD_BITS
  end.

Definition rebucket_entries (es : list HeadEntry) (new_bits : Z) : gmap Z (list HeadEntry) :=
  foldl (fun m e => let s := shard_of (owner e) (name e) new_bits in <[s := default [] (m !! s) ++ [e]]> m) ∅ es.

Definition replica_rank (sk : ShardKey) (i : key) : key := blake3 ([rtype sk] ++ le_bytes 8 (shard sk) ++ i).

Definition replicas (sk : ShardKey) (eligible : list key) : list key :=
  take (Nat.min REPLICATION_FACTOR (length eligible)) (sort_by (le_on (replica_rank sk)) eligible).

Definition writer_of (sk : ShardKey) (eligible : list key) (eff : Z) (self : key) : key :=
  let reps := replicas sk eligible in
  if bool_decide (reps = []) then self else default self (reps !! Z.to_nat (eff mod Z.of_nat (length reps))).
End routing.

Definition effective_epoch (now : Z) : Z :=
  let e := now / EPOCH_MILLIS in
  if (now mod EPOCH_MILLIS <? GRACE_MILLIS) && (0 <? e) then e - 1 else e.

Definition eligible_of (self : key) (census : list key) : list key := self :: filter (fun n => n <> self) census.

(** ** The resolve cache *)

Notation ResolveCache := (gmap (Z * key * bytes) ((key * Z) * Z)).

Definition cache_get (c : ResolveCache) (rt : Z) (o : key) (n : bytes) (now : Z) : option (key * Z) :=
  match c !! (rt, o, n) with Some (entry, expiry) => if now <? expiry then Some entry else None | None => None end.
Definition cache_put (c : ResolveCache) (rt : Z) (o : key) (n : bytes) (entry : key * Z) (now : Z) : ResolveCache :=
  <[(rt, o, n) := (entry, now + RESOLVE_CACHE_TTL_MS)]> c.
Definition cache_invalidate (c : ResolveCache) (rt : Z) (o : key) (n : bytes) : ResolveCache := delete (rt, o, n) c.

(** ** Requests and replies *)

Record HeadRowWire := mk_row { row_rtype : Z; row_owner : key; row_hname : bytes; row_cid : key; row_version : Z }.

Inductive RegistryReq :=
  | Submit (rt b : Z) (sub : bytes)
  | Resolve (rt b : Z) (o : key) (n : bytes)
  | GetState (rt b s : Z)
  | CurrentVersion (rt b : Z) (o : key) (n : bytes)
  | PushState (rt b s : Z) (state : bytes)
  | ListEntries.

(** Why a request failed, in place of the text of the error. *)
Inductive RegFail := BadSubmission | RejectedSignature | NameTooLong | Busy | NoAnswer | WriterRejected | UnexpectedResponse.

Inductive RegistryResp :=
  | SubmitAck (root : key)
  | Resolved (e : option HeadEntry)
  | State (b : bytes)
  | Version (v : Z)
  | Ack
  | Entries (rows : list HeadRowWire)
  | RespErr (e : RegFail).

(** [addr_of] and [request_registry] together: [None] when the peer has no
    known address or the round trip fails. *)
Record View := mk_view {
  census : list key;
  now : Z;
  governed : option Z;
  shed : bool;
  ask : key -> RegistryReq -> option RegistryResp
}.

(** ** The node's registry *)

Section registry.
Context `{Ed25519} `{Blake3} `{HeadsDb} `{Postcard RegistryState} `{Postcard HeadSubmission} `{Postcard (list (Z * Z * Z))}.

Record HeadRegistry := mk_headreg {
  identity : NodeIdentity;
  shards : gmap ShardKey Db;
  held : option (gset ShardKey);
  held_marker : bytes;
  gen_marker : bytes;
  last_epoch : gmap ShardKey Z;
  last_census : option (key * Z);
  resolve_cache : ResolveCache;
  draining : option (Z * Z);
  push_dirty : gmap ShardKey Z
}.

Definition open_registry (i : NodeIdentity) (shards : gmap ShardKey Db) (held_marker gen_marker : bytes) : HeadRegistry :=
  mk_headreg i shards None held_marker gen_marker ∅ None ∅ None ∅.

Definition self_id (r : HeadRegistry) : key := node_id (identity r).

Definition set_shards r x := mk_headreg (identity r) x (held r) (held_marker r) (gen_marker r) (last_epoch r) (last_census r) (resolve_cache r) (draining r) (push_dirty r).
Definition set_held r x := mk_headreg (identity r) (shards r) x (held_marker r) (gen_marker r) (last_epoch r) (last_census r) (resolve_cache r) (draining r) (push_dirty r).
Definition set_held_marker r x := mk_headreg (identity r) (shards r) (held r) x (gen_marker r) (last_epoch r) (last_census r) (resolve_cache r) (draining r) (push_dirty r).
Definition set_gen_marker r x := mk_headreg (identity r) (shards r) (held r) (held_marker r) x (last_epoch r) (last_census r) (resolve_cache r) (draining r) (push_dirty r).
Definition set_last_epoch r x := mk_headreg (identity r) (shards r) (held r) (held_marker r) (gen_marker r) x (last_census r) (resolve_cache r) (draining r) (push_dirty r).
Definition set_last_census r x := mk_headreg (identity r) (shards r) (held r) (held_marker r) (gen_marker r) (last_epoch r) x (resolve_cache r) (draining r) (push_dirty r).
Definition set_cache r x := mk_headreg (identity r) (shards r) (held r) (held_marker r) (gen_marker r) (last_epoch r) (last_census r) x (draining r) (push_dirty r).
Definition set_draining r x := mk_headreg (identity r) (shards r) (held r) (held_marker r) (gen_marker r) (last_epoch r) (last_census r) (resolve_cache r) x (push_dirty r).
Definition set_dirty r x := mk_headreg (identity r) (shards r) (held r) (held_marker r) (gen_marker r) (last_epoch r) (last_census r) (resolve_cache r) (draining r) x.

(** *** The held-shards index *)

(** The index [with_held] works on: loaded from the marker the first time. *)
Definition held_set (r : HeadRegistry) : gset ShardKey :=
  match held r with
  | Some h => h
  | None => match from_bytes (held_marker r) with
            | Some v => list_to_set (map (fun '(t, b, s) => mk_sk t b s) v)
            | None => ∅
            end
  end.

Definition save_held (r : HeadRegistry) : HeadRegistry :=
  let h := held_set r in
  set_held_marker (set_held r (Some h)) (to_allocvec (map (fun sk => (rtype sk, bits sk, shard sk)) (elements h))).

Definition held_add (r : HeadRegistry) (sk : ShardKey) : HeadRegistry :=
  let h := held_set r in
  if bool_decide (sk ∈ h) then set_held r (Some h) else save_held (set_held r (Some ({[sk]} ∪ h))).

(** The shards held of a kind ([None]: every kind) at a generation. *)
Definition held_shards (r : HeadRegistry) (rt : option Z) (b : Z) : list ShardKey :=
  filter (fun sk => (bits sk =? b) && match rt with Some t => rtype sk =? t | None => true end = true) (elements (held_set r)).

Definition shard_bits (w : View) : Z := resolve_shard_bits (governed w).

Definition backfill_held_if_needed (r : HeadRegistry) (w : View) : HeadRegistry :=
  if negb (bool_decide (held_marker r = [])) then r
  else
    let b := shard_bits w in
    let probe := flat_map (fun t => map (fun s => mk_sk t b (Z.of_nat s)) (seq 0 (Z.to_nat (2 ^ b)))) [RT_PROGRAM; RT_DBROOT; RT_MANIFEST] in
    save_held (set_held r (Some (list_to_set (filter (fun sk => is_Some (shards r !! sk)) probe)))).

(** *** The shard tables *)

Definition sql_resolve (r : HeadRegistry) (sk : ShardKey) (o : key) (n : bytes) : option HeadEntry :=
  db ← shards r !! sk;
  '(c, v, s) ← db_get db o n;
  if negb (bool_decide (length c = 32%nat)) then None
  else let entry := mk_entry o n c (as_u64 v) s in if verify_entry entry then Some entry else None.

Definition sql_upsert (r : HeadRegistry) (sk : ShardKey) (e : HeadEntry) : key * HeadRegistry :=
  let db := db_upsert (default db_empty (shards r !! sk)) e in
  (db_root db, held_add (set_shards r (<[sk := db]> (shards r))) sk).

Definition table_entries (d : Db) : list HeadEntry :=
  map (fun '(o, n, c, v, s) => mk_entry o n c (as_u64 v) s)
    (filter (fun '(o, n, c, v, s) => length o = 32%nat /\ length c = 32%nat) (db_rows d)).

Definition sql_state (r : HeadRegistry) (sk : ShardKey) : RegistryState :=
  match shards r !! sk with
  | None => registry_default
  | Some db => merge_entries registry_default (table_entries db)
  end.

Definition sql_merge_entry (sk : ShardKey) (r : HeadRegistry) (e : HeadEntry) : HeadRegistry :=
  if negb (verify_entry e) then r else (sql_upsert r sk e).2.

Definition sql_merge (r : HeadRegistry) (sk : ShardKey) (state : RegistryState) : HeadRegistry :=
  foldl (sql_merge_entry sk) r (entries state).

Definition sql_count (r : HeadRegistry) (sk : ShardKey) : nat :=
  match shards r !! sk with Some db => length (db_rows db) | None => 0%nat end.

(** *** Election as this node sees it *)

Definition eligible (r : HeadRegistry) (w : View) : list key := eligible_of (self_id r) (census w).

Definition current_writer (r : HeadRegistry) (w : View) (sk : ShardKey) : key :=
  writer_of sk (eligible r w) (effective_epoch (now w)) (self_id r).

Definition is_writer (r : HeadRegistry) (w : View) (sk : ShardKey) : bool := bool_decide (current_writer r w sk = self_id r).

Definition is_replica (r : HeadRegistry) (w : View) (sk : ShardKey) : bool := bool_decide (self_id r ∈ replicas sk (eligible r w)).

(** *** Replication *)

(** A write marks its shard dirty and submits the job [pushstate:<shard>]. *)
Definition replicate (r : HeadRegistry) (sk : ShardKey) : HeadRegistry :=
  set_dirty r (<[sk := default 0 (push_dirty r !! sk) + 1]> (push_dirty r)).

(** One round of that job: what it sends to whom, from the state it reads, and
    whether the shard was dirtied while it sent ([after] is the registry
    then). *)
Definition push_shard_state_once (r after : HeadRegistry) (w : View) (sk : ShardKey) : list (key * RegistryReq) * bool :=
  let state := sql_state r sk in
  let sends := if bool_decide (entries state = []) then []
    else map (fun i => (i, PushState (rtype sk) (bits sk) (shard sk) (to_allocvec state)))
           (filter (fun i => i <> self_id r) (replicas sk (eligible r w))) in
  (sends, negb (default 0 (push_dirty after !! sk) =? default 0 (push_dirty r !! sk))).

(** *** Taking over, writing, reading *)

Definition takeover_merge (w : View) (sk : ShardKey) (r : HeadRegistry) (i : key) : HeadRegistry :=
  if bool_decide (i = self_id r) then r
  else match ask w i (GetState (rtype sk) (bits sk) (shard sk)) with
       | Some (State b) => match decode_or registry_default b with Some other => sql_merge r sk other | None => r end
       | _ => r
       end.

Definition ensure_current (r : HeadRegistry) (w : View) (sk : ShardKey) : HeadRegistry :=
  if negb (is_writer r w sk) then r
  else
    let eff := effective_epoch (now w) in
    if eff <=? default 0 (last_epoch r !! sk) then r
    else
      let r := foldl (takeover_merge w sk) r (replicas sk (eligible r w)) in
      set_last_epoch r (<[sk := eff]> (last_epoch r)).

Definition advance_local (r : HeadRegistry) (w : View) (sk : ShardKey) (sub_bytes : bytes) : result key RegFail * HeadRegistry :=
  let r := ensure_current r w sk in
  match from_bytes sub_bytes with
  | None => (Err BadSubmission, r)
  | Some sub =>
      if negb (verify_submission sub) then (Err RejectedSignature, r)
      else if (MAX_NAME_LEN <? length (sub_name sub))%nat then (Err NameTooLong, r)
      else
        let entry := mk_entry (sub_owner sub) (sub_name sub) (sub_cid sub) (sub_version sub) (sub_signature sub) in
        let '(root, r) := sql_upsert r sk entry in
        (Ok root, replicate r sk)
  end.

Definition resolve_local (r : HeadRegistry) (w : View) (sk : ShardKey) (o : key) (n : bytes) : option HeadEntry * HeadRegistry :=
  let r := ensure_current r w sk in (sql_resolve r sk o n, r).

Definition register (r : HeadRegistry) (w : View) (rt : Z) (n : bytes) (c : key) (v : Z) : result key RegFail * HeadRegistry :=
  let sub := sign_head (identity r) n c v in
  let b := shard_bits w in
  let sk := mk_sk rt b (shard_of (self_id r) n b) in
  let '(out, r) :=
    if is_writer r w sk then advance_local r w sk (to_allocvec sub)
    else (match ask w (current_writer r w sk) (Submit rt b (to_allocvec sub)) with
          | Some (SubmitAck root) => Ok root
          | Some (RespErr _) => Err WriterRejected
          | Some _ => Err UnexpectedResponse
          | None => Err NoAnswer
          end, r) in
  match out with
  | Ok root => (Ok root, set_cache r (cache_invalidate (resolve_cache r) rt (self_id r) n))
  | Err e => (Err e, r)
  end.

(** The first remote answer that verifies. *)
Fixpoint ask_targets (w : View) (req : RegistryReq) (targets : list key) : option (key * Z) :=
  match targets with
  | [] => None
  | t :: targets' =>
      match ask w t req with
      | Some (Resolved (Some entry)) => if verify_entry entry then Some (cid entry, version entry) else ask_targets w req targets'
      | _ => ask_targets w req targets'
      end
  end.

Definition add_target (self : key) (targets : list key) (i : key) : list key :=
  if bool_decide (i = self) || bool_decide (i ∈ targets) then targets else targets ++ [i].

Definition resolve_at_bits (r : HeadRegistry) (w : View) (rt b : Z) (o : key) (n : bytes) : option (key * Z) :=
  let sk := mk_sk rt b (shard_of o n b) in
  let reps := replicas sk (eligible r w) in
  let remote :=
    let wr := current_writer r w sk in
    let targets := foldl (add_target (self_id r)) (if bool_decide (wr = self_id r) then [] else [wr]) reps in
    ask_targets w (Resolve rt b o n) targets in
  if bool_decide (self_id r ∈ reps) then
    match sql_resolve r sk o n with Some e => Some (cid e, version e) | None => remote end
  else remote.

(** [bits.wrapping_sub(1)] is 0 at least: the live count is at least 1. *)
Definition adjacent (b : Z) : list Z := filter (fun a => 1 <= a <= MAX_SHARD_BITS /\ a <> b) [b - 1; b + 1].

Fixpoint first_some {A B} (f : A -> option B) (l : list A) : option B :=
  match l with [] => None | x :: l' => match f x with Some y => Some y | None => first_some f l' end end.

Definition resolve_entry (r : HeadRegistry) (w : View) (rt : Z) (o : key) (n : bytes) : option (key * Z) * HeadRegistry :=
  let b := shard_bits w in
  let sk := mk_sk rt b (shard_of o n b) in
  let is_replica_now := is_replica r w sk in
  match (if is_replica_now then None else cache_get (resolve_cache r) rt o n (now w)) with
  | Some entry => (Some entry, r)
  | None =>
      match resolve_at_bits r w rt b o n with
      | Some entry => (Some entry, if is_replica_now then r else set_cache r (cache_put (resolve_cache r) rt o n entry (now w)))
      | None => (first_some (fun alt => resolve_at_bits r w rt alt o n) (adjacent b), r)
      end
  end.

Definition resolve (r : HeadRegistry) (w : View) (o : key) (n : bytes) : option key * HeadRegistry :=
  let '(e, r) := resolve_entry r w RT_PROGRAM o n in (fst <$> e, r).

Definition version_of (e : option HeadEntry) : Z := match e with Some e => version e | None => 0 end.

Definition current_version (r : HeadRegistry) (w : View) (rt : Z) (o : key) (n : bytes) : Z :=
  let b := shard_bits w in
  let sk := mk_sk rt b (shard_of o n b) in
  if is_writer r w sk then version_of (sql_resolve r sk o n)
  else match ask w (current_writer r w sk) (CurrentVersion rt b o n) with Some (Version v) => v | _ => 0 end.

(** *** Rebalancing *)

(** What [migrate_round] does to the census record, and whether it migrates. *)
Definition migrate_tick (last : option (key * Z)) (digest : key) : option (key * Z) * bool :=
  match last with
  | Some (d, ticks) =>
      if bool_decide (d = digest) then
        if ticks <? MIGRATE_STABLE_TICKS then (Some (d, ticks + 1), ticks + 1 =? MIGRATE_STABLE_TICKS) else (last, false)
      else (Some (digest, 0), false)
  | None => (Some (digest, 0), false)
  end.

Definition census_digest (ids : list key) : key := blake3 (concat (sort_by (le_on (fun i : key => i)) ids)).

Definition migrate_round (r : HeadRegistry) (w : View) : HeadRegistry :=
  let '(last, fire) := migrate_tick (last_census r) (census_digest (eligible r w)) in
  let r := set_last_census r last in
  if (fire : bool) then
    foldl (fun r sk => if bool_decide (entries (sql_state r sk) = []) then r else replicate r sk) r (held_shards r None (shard_bits w))
  else r.

Definition load_gen (r : HeadRegistry) : option Z :=
  if bool_decide (length (gen_marker r) = 4%nat) then Some (le_value (gen_marker r)) else None.
Definition save_gen (r : HeadRegistry) (b : Z) : HeadRegistry := set_gen_marker r (le_bytes 4 b).

Definition sweep_group (rt to : Z) (r : HeadRegistry) (g : Z * list HeadEntry) : HeadRegistry :=
  let sk := mk_sk rt to g.1 in
  replicate (sql_merge r sk (merge_entries registry_default g.2)) sk.

Definition sweep_generation (r : HeadRegistry) (from to : Z) : HeadRegistry :=
  let collected := map (fun sk => (rtype sk, entries (sql_state r sk))) (held_shards r None from) in
  foldl (fun r '(rt, es) => foldl (sweep_group rt to) r (map_to_list (rebucket_entries es to))) r
    (filter (fun x : Z * list HeadEntry => x.2 <> []) collected).

Definition gc_generation (r : HeadRegistry) (b : Z) : HeadRegistry :=
  let doomed := held_shards r None b in
  let r := set_shards r (foldl (fun m sk => delete sk m) (shards r) doomed) in
  if bool_decide (doomed = []) then r
  else save_held (set_held r (Some (held_set r ∖ list_to_set doomed))).

Definition reshard_round (r : HeadRegistry) (w : View) : HeadRegistry :=
  let current := shard_bits w in
  match load_gen r with
  | None => save_gen r current
  | Some last =>
      if negb (last =? current) then set_draining (save_gen (sweep_generation r last current) current) (Some (last, 0))
      else
        match draining r with
        | None => r
        | Some (old, ticks) =>
            if old =? current then set_draining r None
            else
              let r := sweep_generation r old current in
              if DRAIN_TICKS <=? ticks + 1 then set_draining (gc_generation r old) None
              else set_draining r (Some (old, ticks + 1))
        end
  end.

(** *** Serving *)

Definition local_head_rows (r : HeadRegistry) (w : View) : list HeadRowWire :=
  flat_map (fun sk =>
    if bool_decide (writer_of sk (eligible r w) (effective_epoch (now w)) (self_id r) = self_id r)
    then map (fun e => mk_row (rtype sk) (owner e) (name e) (cid e) (version e)) (entries (sql_state r sk))
    else []) (held_shards r None (shard_bits w)).

Definition serve (r : HeadRegistry) (w : View) (req : RegistryReq) : RegistryResp * HeadRegistry :=
  match req with
  | Submit rt b sub =>
      match from_bytes sub with
      | Some s =>
          let '(out, r) := advance_local r w (mk_sk rt b (shard_of (sub_owner s) (sub_name s) b)) sub in
          (match out with Ok root => SubmitAck root | Err e => RespErr e end, r)
      | None => (RespErr BadSubmission, r)
      end
  | Resolve rt b o n => let '(e, r) := resolve_local r w (mk_sk rt b (shard_of o n b)) o n in (Resolved e, r)
  | GetState rt b s => (State (to_allocvec (sql_state r (mk_sk rt b s))), r)
  | CurrentVersion rt b o n => (Version (version_of (sql_resolve r (mk_sk rt b (shard_of o n b)) o n)), r)
  | PushState rt b s state =>
      if shed w then (RespErr Busy, r)
      else (Ack, match decode_or registry_default state with Some pushed => sql_merge r (mk_sk rt b s) pushed | None => r end)
  | ListEntries => (Entries (local_head_rows r w), r)
  end.

(** *** The dashboard's views *)

Notation Merged := (gmap (Z * key * bytes) HeadRowWire).

Definition absorb_row (m : Merged) (x : HeadRowWire) : Merged :=
  let k := (row_rtype x, row_owner x, row_hname x) in
  match m !! k with
  | Some ex => if row_version x <=? row_version ex then m else <[k := x]> m
  | None => <[k := x]> m
  end.

Definition absorb (m : Merged) (rows : list HeadRowWire) : Merged := foldl absorb_row m rows.

Record HeadRow := mk_hrow { hr_owner : bytes; hr_name : bytes; hr_cid : bytes; hr_version : Z }.
Record RegistryEntries := mk_rentries { r_programs : list HeadRow; r_dbroots : list HeadRow; r_manifests : list HeadRow; contributors : nat }.

Definition hrow (x : HeadRowWire) : HeadRow := mk_hrow (hex_encode (row_owner x)) (row_hname x) (hex_encode (row_cid x)) (row_version x).

Definition group_row (out : RegistryEntries) (x : HeadRowWire) : RegistryEntries :=
  if row_rtype x =? RT_PROGRAM then mk_rentries (r_programs out ++ [hrow x]) (r_dbroots out) (r_manifests out) (contributors out)
  else if row_rtype x =? RT_DBROOT then mk_rentries (r_programs out) (r_dbroots out ++ [hrow x]) (r_manifests out) (contributors out)
  else mk_rentries (r_programs out) (r_dbroots out) (r_manifests out ++ [hrow x]) (contributors out).

Definition group_rows (rows : list HeadRowWire) (n : nat) : RegistryEntries := foldl group_row (mk_rentries [] [] [] n) rows.

(** [replies]: the lists that peers returned before the deadline, in order. *)
Definition entries_global (r : HeadRegistry) (w : View) (replies : list (list HeadRowWire)) : RegistryEntries :=
  let merged := foldl absorb (absorb ∅ (local_head_rows r w)) replies in
  group_rows (map snd (map_to_list merged)) (1 + length replies)%nat.

Record RegistryStatus := mk_status {
  st_epoch : Z; st_eligible : nat; st_writer_shards : nat; st_shard_count : Z;
  st_program_heads : nat; st_dbroots : nat; st_manifests : nat
}.

Definition status_shard (r : HeadRegistry) (st : RegistryStatus) (sk : ShardKey) : RegistryStatus :=
  let n := sql_count r sk in
  if rtype sk =? RT_PROGRAM then
    mk_status (st_epoch st) (st_eligible st) (S (st_writer_shards st)) (st_shard_count st) (st_program_heads st + n) (st_dbroots st) (st_manifests st)
  else if rtype sk =? RT_DBROOT then
    mk_status (st_epoch st) (st_eligible st) (st_writer_shards st) (st_shard_count st) (st_program_heads st) (st_dbroots st + n) (st_manifests st)
  else
    mk_status (st_epoch st) (st_eligible st) (st_writer_shards st) (st_shard_count st) (st_program_heads st) (st_dbroots st) (st_manifests st + n).

Definition status (r : HeadRegistry) (w : View) : RegistryStatus :=
  let epoch := effective_epoch (now w) in
  let elig := eligible r w in
  let b := shard_bits w in
  foldl (status_shard r) (mk_status epoch (length elig) 0 (2 ^ b) 0 0 0)
    (filter (fun sk => writer_of sk elig epoch (self_id r) = self_id r) (held_shards r None b)).
End registry.
