(* ===== verification/HeadRegElect.v ===== *)
(** Routing, election and rebalancing of the head registry ([HeadReg]): the
    shard of a name under growth, the one writer of an epoch, when a settled
    census migrates, and the quoting of names in SQL. *)

From S2P Require Import Prelude Crypto SortedVec Registry Epoch HeadReg.

Open Scope Z_scope.

(** ** Routing *)

Section routing.
Context `{Blake3}.

Lemma shard_of_mod o n b : 0 <= b -> shard_of o n b = le_value (take 8 (blake3 (o ++ n))) mod 2 ^ b.
Proof.
  intros Hb. unfold shard_of. rewrite Z.shiftl_1_l. replace (2 ^ b - 1) with (Z.ones b) by (rewrite Z.ones_equiv; lia).
  by apply Z.land_ones.
Qed.

Lemma mod_pow2_succ x b : 0 <= b -> x mod 2 ^ (b + 1) = x mod 2 ^ b \/ x mod 2 ^ (b + 1) = x mod 2 ^ b + 2 ^ b.
Proof.
  intros Hb. replace (2 ^ (b + 1)) with (2 ^ b * 2) by (rewrite Z.pow_add_r by lia; lia).
  assert (0 < 2 ^ b) by (apply Z.pow_pos_nonneg; lia). rewrite Z.rem_mul_r by lia.
  pose proof (Z.mod_pos_bound (x / 2 ^ b) 2 ltac:(lia)). assert (x / 2 ^ b mod 2 = 0 \/ x / 2 ^ b mod 2 = 1) as [-> | ->] by lia; lia.
Qed.

(** Routing is in range and a split is local.  At a count of [2^b] every
    name is routed to a shard below [2^b]; at the next count it stays in that
    shard or goes to that shard's one new sibling.  So doubling the count moves
    the names of a shard only to its two children.  Whatever value governance
    sets, the exponent used is between 1 and 12. *)
Theorem shard_split_is_local (o : key) (n : bytes) (b : Z) (governed : option Z) :
  0 <= b ->
  0 <= shard_of o n b < 2 ^ b /\
  (shard_of o n (b + 1) = shard_of o n b \/ shard_of o n (b + 1) = shard_of o n b + 2 ^ b) /\
  1 <= resolve_shard_bits governed <= 12.
Proof.
  intros Hb. rewrite !shard_of_mod by lia. split; [apply Z.mod_pos_bound, Z.pow_pos_nonneg; lia|]. split; [by apply mod_pow2_succ|].
  unfold resolve_shard_bits, DEFAULT_SHARD_BITS, MAX_SHARD_BITS. destruct governed as [v|]; [|lia].
  destruct (Z.ltb_spec v 1); [lia|]. destruct (Z.ltb_spec 12 v); lia.
Qed.

(** ** Election *)

Lemma replicas_sub sk elig i : i ∈ replicas sk elig -> i ∈ elig.
Proof.
  unfold replicas. intros (j & Hj%list_elem_of_lookup_2 & _)%elem_of_take. by apply elem_of_sort_by in Hj.
Qed.

Lemma replicas_length sk elig : length (replicas sk elig) = Nat.min REPLICATION_FACTOR (length elig).
Proof. unfold replicas. rewrite length_take, (Permutation_length (sort_by_perm _ _)). lia. Qed.

Lemma replicas_canonical sk l k :
  l ≡ₚ k -> (forall x y, x ∈ l -> y ∈ l -> replica_rank sk x = replica_rank sk y -> x = y) -> replicas sk l = replicas sk k.
Proof. intros Hp Hinj. unfold replicas. by rewrite (sort_by_key_canonical _ l k Hp Hinj), (Permutation_length Hp). Qed.

Lemma writer_of_lookup sk elig eff self :
  elig <> [] -> 0 <= eff ->
  replicas sk elig !! Z.to_nat (eff mod Z.of_nat (length (replicas sk elig))) = Some (writer_of sk elig eff self).
Proof.
  intros Hne He. unfold writer_of. pose proof (replicas_length sk elig) as Hl.
  assert (0 < length elig)%nat by (destruct elig; [done|apply Nat.lt_0_succ]). unfold REPLICATION_FACTOR in Hl.
  case_bool_decide as E; [apply (f_equal length) in E; rewrite Hl in E; cbn [length] in E; lia|].
  assert (Hb : 0 <= eff mod Z.of_nat (length (replicas sk elig)) < Z.of_nat (length (replicas sk elig))) by (apply Z.mod_pos_bound; lia).
  destruct (lookup_lt_is_Some_2 (replicas sk elig) (Z.to_nat (eff mod Z.of_nat (length (replicas sk elig))))) as [x Hx]; [lia|].
  by rewrite Hx.
Qed.

(** A residue comes up in every run of that many numbers. *)
Lemma residue_in_window m k e : 0 <= k < m -> exists e', e <= e' < e + m /\ e' mod m = k.
Proof.
  intros Hk. exists (e + (k - e) mod m). pose proof (Z.mod_pos_bound (k - e) m ltac:(lia)). split; [lia|].
  rewrite Zplus_mod_idemp_r. replace (e + (k - e)) with k by lia. apply Z.mod_small. lia.
Qed.

(** One writer per shard and epoch.  When the live nodes see the same
    membership, each listing itself first, and their election ranks for a
    shard differ, all of them elect the same writer in an epoch, it is one of
    the shard's replicas, and exactly that node takes itself for the writer.
    The role reaches every replica within any three consecutive epochs. *)
Theorem one_writer_per_epoch (sk : ShardKey) (live : list key) (census : key -> list key) (eff : Z) :
  live <> [] -> 0 <= eff ->
  (forall x y, x ∈ live -> y ∈ live -> replica_rank sk x = replica_rank sk y -> x = y) ->
  (forall i, i ∈ live -> eligible_of i (census i) ≡ₚ live) ->
  let elects e i := writer_of sk (eligible_of i (census i)) e i in
  (exists w, w ∈ live /\ w ∈ replicas sk live /\ (forall i, i ∈ live -> elects eff i = w) /\
    forall i, i ∈ live -> (elects eff i = i <-> i = w)) /\
  (forall p i, p ∈ replicas sk live -> i ∈ live -> exists e, eff <= e < eff + 3 /\ elects e i = p).
Proof.
  intros Hne He Hinj Hview elects.
  assert (Hreps : forall i, i ∈ live -> replicas sk (eligible_of i (census i)) = replicas sk live).
  { intros i Hi. symmetry. apply replicas_canonical; [|done]. symmetry. auto. }
  assert (Hel : forall e i, 0 <= e -> i ∈ live -> replicas sk live !! Z.to_nat (e mod Z.of_nat (length (replicas sk live))) = Some (elects e i)).
  { intros e i H0 Hi. rewrite <- (Hreps i Hi). by apply writer_of_lookup. }
  split.
  - destruct live as [|i0 rest]; [done|]. set (live := i0 :: rest) in *. exists (elects eff i0).
    assert (Hi0 : i0 ∈ live) by left. assert (Hsame : forall i, i ∈ live -> elects eff i = elects eff i0).
    { intros i Hi. pose proof (Hel eff i He Hi) as E. rewrite (Hel eff i0 He Hi0) in E. congruence. }
    assert (Hin : elects eff i0 ∈ replicas sk live) by (eapply list_elem_of_lookup_2, Hel; done).
    split; [by eapply replicas_sub|]. split; [done|]. split; [done|]. intros i Hi. rewrite (Hsame i Hi). split; congruence.
  - intros p i Hp Hi. apply list_elem_of_lookup in Hp as [k Hk]. pose proof (lookup_lt_Some _ _ _ Hk) as Hlt.
    pose proof (replicas_length sk live) as Hl. unfold REPLICATION_FACTOR in Hl.
    destruct (residue_in_window (Z.of_nat (length (replicas sk live))) (Z.of_nat k) eff) as (e & He' & Em); [lia|].
    exists e. split; [lia|]. pose proof (Hel e i ltac:(lia) Hi) as E. rewrite Em, Nat2Z.id, Hk in E. congruence.
Qed.
End routing.

(** ** Epochs *)

(** The grace window moves the boundary: the epoch used is that of a clock
    [GRACE_MILLIS] behind. *)
Lemma effective_epoch_shift now : 0 <= now -> effective_epoch now = Z.max 0 ((now - GRACE_MILLIS) / EPOCH_MILLIS).
Proof.
  intros Hn. unfold effective_epoch, GRACE_MILLIS, EPOCH_MILLIS. pose proof (Z.div_mod now 300000 ltac:(lia)) as E.
  pose proof (Z.mod_pos_bound now 300000 ltac:(lia)). set (e := now / 300000) in *. set (m := now mod 300000) in *.
  assert (0 <= e) by (apply Z.div_pos; lia).
  destruct (Z.ltb_spec m 2000); cbn [andb].
  - replace ((now - 2000) / 300000) with (e - 1) by (apply Z.div_unique with (m + 298000); lia).
    destruct (Z.ltb_spec 0 e); lia.
  - replace ((now - 2000) / 300000) with e by (apply Z.div_unique with (m - 2000); lia). lia.
Qed.

(** So two clocks a millisecond apart, well within the grace, still disagree
    on the epoch when the shifted boundary passes between them. *)
Example grace_does_not_remove_the_race :
  effective_epoch (EPOCH_MILLIS + GRACE_MILLIS - 1) = 0 /\ effective_epoch (EPOCH_MILLIS + GRACE_MILLIS) = 1.
Proof. split; reflexivity. Qed.

(** ** Settling *)

Definition observe (l : option (key * Z)) (d : key) : option (key * Z) := (migrate_tick l d).1.

(** How many times the last element is repeated before the end. *)
Fixpoint trailing (d : key) (ds : list key) : Z :=
  match ds with
  | [] => 0
  | x :: ds' => if bool_decide (x = d) then 1 + trailing d ds' else 0
  end.

Lemma trailing_nonneg d ds : 0 <= trailing d ds.
Proof. induction ds as [|x ds IH]; cbn; [done|]. case_bool_decide; lia. Qed.

Lemma observe_trailing ds d : foldl observe None (rev (d :: ds)) = Some (d, Z.min MIGRATE_STABLE_TICKS (trailing d ds)).
Proof.
  revert d. induction ds as [|x ds IH]; intros d; [done|]. change (rev (d :: x :: ds)) with (rev (x :: ds) ++ [d]).
  rewrite foldl_app, IH. cbn [foldl]. unfold observe, migrate_tick, MIGRATE_STABLE_TICKS. cbn [trailing].
  destruct (decide (x = d)) as [->|Hne]; [rewrite !bool_decide_true by done|by rewrite !bool_decide_false].
  pose proof (trailing_nonneg d ds). destruct (Z.ltb_spec (Z.min 3 (trailing d ds)) 3); cbn; do 2 f_equal; lia.
Qed.

(** A settled census migrates once.  In a run of observations of the
    census digest, the round that migrates is the one that sees a digest for
    exactly the fourth time in a row: never while the census keeps changing,
    and never again until it has changed. *)
Theorem migrate_fires_once_per_settled_census (seen : list key) (d : key) :
  (migrate_tick (foldl observe None seen) d).2 = true <->
  exists before, seen = before ++ [d; d; d] /\ head (rev before) <> Some d.
Proof.
  destruct (rev seen) as [|x ds] eqn:E.
  { apply (f_equal (@rev _)) in E. rewrite rev_involutive in E. subst. split; [done|]. intros (b & Hb & _). by destruct b. }
  assert (seen = rev (x :: ds)) as -> by (rewrite <- E; by rewrite rev_involutive). clear E.
  rewrite observe_trailing. unfold migrate_tick, MIGRATE_STABLE_TICKS.
  assert (Hb : forall before, rev (x :: ds) = before ++ [d; d; d] <-> x :: ds = d :: d :: d :: rev before).
  { intros before. split; intros E.
    - apply (f_equal (@rev _)) in E. rewrite rev_involutive, rev_app_distr in E. exact E.
    - rewrite E. cbn [rev]. by rewrite rev_involutive, <- !app_assoc. }
  case_bool_decide as Ex; [subst x|].
  2:{ split; [done|]. intros (b & [= -> _]%Hb & _). done. }
  pose proof (trailing_nonneg d ds) as Hnn. split.
  - intros Hf. destruct (Z.ltb_spec (Z.min 3 (trailing d ds)) 3) as [Hlt|]; [|done]. cbn in Hf. apply Z.eqb_eq in Hf.
    assert (Ht : trailing d ds = 2) by lia. clear Hf Hlt.
    destruct ds as [|y [|z ds]]; cbn in Ht; [done|case_bool_decide; lia|].
    case_bool_decide; [subst y|lia]. case_bool_decide; [subst z|lia].
    exists (rev ds). split; [apply Hb; by rewrite rev_involutive|]. rewrite rev_involutive. destruct ds as [|w ds]; [done|]. cbn in *.
    case_bool_decide; [pose proof (trailing_nonneg d ds); lia|]. congruence.
  - intros (b & E%Hb & Hl). injection E as ->. cbn [trailing]. rewrite bool_decide_true by done.
    assert (trailing d (rev b) = 0) as ->; [|done].
    destruct (rev b) as [|w l]; [done|]. cbn in *. rewrite bool_decide_false; [done|congruence].
Qed.

(** ** Quoting *)

(** How SQL reads a text literal after its opening quote: two quotes are one
    quote of the text, a single one ends the literal. *)
Fixpoint sql_text (s : bytes) : option (bytes * bytes) :=
  match s with
  | [] => None
  | c :: rest =>
      if c =? QUOTE then
        match rest with
        | c' :: rest' => if c' =? QUOTE then '(t, out) ← sql_text rest'; Some (QUOTE :: t, out) else Some ([], rest)
        | [] => Some ([], rest)
        end
      else '(t, out) ← sql_text rest; Some (c :: t, out)
  end.

(** A name cannot break out of its literal.  Reading the SQL text after a
    name's opening quote gives back exactly the name and what was written
    after it, whatever bytes the name has and whatever follows, as long as it
    is not another quote. *)
Theorem quoted_name_reads_back (s rest : bytes) :
  head rest <> Some QUOTE -> exists body, textlit s = QUOTE :: body /\ sql_text (body ++ rest) = Some (s, rest).
Proof.
  intros Hr. eexists. split; [reflexivity|]. rewrite <- app_assoc. cbn [app].
  induction s as [|c s IH]; cbn [flat_map app].
  - cbn. destruct rest as [|c rest]; [done|]. destruct (Z.eqb_spec c QUOTE); [subst; by destruct Hr|done].
  - destruct (Z.eqb_spec c QUOTE) as [->|Hne].
    + cbn [app sql_text]. rewrite Z.eqb_refl. cbn [app]. by rewrite IH.
    + cbn [app sql_text]. apply Z.eqb_neq in Hne. rewrite Hne. by rewrite IH.
Qed.

(** ** Instances *)

#[local] Existing Instance toy_blake3.

Definition ex_sk : ShardKey := mk_sk RT_PROGRAM 8 5.
Definition ex_live : list key := [key_of 1; key_of 2].
Definition ex_census (i : key) : list key := if bool_decide (i = key_of 1) then [key_of 2; key_of 1] else [key_of 1].

Lemma shard_split_is_local_witness :
  shard_of (key_of 1) [97] 9 = shard_of (key_of 1) [97] 8 \/ shard_of (key_of 1) [97] 9 = shard_of (key_of 1) [97] 8 + 2 ^ 8.
Proof. apply (shard_split_is_local (key_of 1) [97] 8 (Some 99)). lia. Defined.

Lemma quoted_name_reads_back_witness :
  exists body, textlit [97; QUOTE; QUOTE] = QUOTE :: body /\ sql_text (body ++ [44]) = Some ([97; QUOTE; QUOTE], [44]).
Proof. apply (quoted_name_reads_back [97; QUOTE; QUOTE] [44]). discriminate. Defined.

Lemma ex_ranks_differ x y : x ∈ ex_live -> y ∈ ex_live -> replica_rank ex_sk x = replica_rank ex_sk y -> x = y.
Proof.
  assert (Hne : replica_rank ex_sk (key_of 1) <> replica_rank ex_sk (key_of 2)) by (apply (bool_decide_eq_false_1 _); vm_compute; reflexivity).
  intros Hx Hy E. apply elem_of_cons in Hx as [Hx|Hx%list_elem_of_singleton], Hy as [Hy|Hy%list_elem_of_singleton]; rewrite Hx, Hy in *;
    [reflexivity|destruct (Hne E)|destruct (Hne (eq_sym E))|reflexivity].
Qed.

Lemma ex_views i : i ∈ ex_live -> eligible_of i (ex_census i) ≡ₚ ex_live.
Proof.
  intros [->| ->%list_elem_of_singleton]%elem_of_cons; [|vm_compute; apply Permutation_swap].
  apply Permutation_refl'. vm_compute. reflexivity.
Qed.

Lemma one_writer_per_epoch_witness :
  exists w, w ∈ ex_live /\ forall i, i ∈ ex_live -> (writer_of ex_sk (eligible_of i (ex_census i)) 7 i = i <-> i = w).
Proof.
  destruct (one_writer_per_epoch ex_sk ex_live ex_census 7) as [(w & Hw & _ & _ & Hi) _].
  - discriminate.
  - lia.
  - apply ex_ranks_differ.
  - apply ex_views.
  - exists w. split; [exact Hw|exact Hi].
Defined.
