(* ===== verification/HeadRegState.v ===== *)
(** The tables of the head registry ([HeadReg]): a shard's table is the
    registry state it replicates, the held-shards index is exact and survives a
    restart, and the online reshard loses no head. *)

From S2P Require Import Prelude Crypto SortedVec Registry Epoch HeadReg.

Open Scope Z_scope.

(** What the types give a head, with a version an INTEGER column holds. *)
Definition typed (e : HeadEntry) : Prop :=
  length (owner e) = 32%nat /\ length (cid e) = 32%nat /\ 0 <= version e <= I64_MAX.

Lemma as_u64_i64 v : 0 <= v <= I64_MAX -> as_u64 v = v.
Proof. unfold as_u64, I64_MAX. intros. apply Z.mod_small. lia. Qed.

Section tables.
Context `{Ed25519} `{HeadsDbLaws}.

(** ** One table *)

Definition db_entry (d : Db) (k : key * bytes) : option HeadEntry :=
  '(c, v, s) ← db_get d k.1 k.2; Some (mk_entry k.1 k.2 c v s).

Definition db_ok (d : Db) : Prop := forall k e, db_entry d k = Some e -> typed e /\ verify_entry e = true.

Lemma db_entry_key d k e : db_entry d k = Some e -> entry_key e = k.
Proof. unfold db_entry. destruct (db_get d k.1 k.2) as [[[c v] s]|]; [|done]. intros [= <-]. by destruct k. Qed.

Lemma db_entry_empty k : db_entry db_empty k = None.
Proof. unfold db_entry. by rewrite get_empty. Qed.

Lemma db_entry_upsert d e k :
  0 <= version e <= I64_MAX ->
  db_entry (db_upsert d e) k = if bool_decide (k = entry_key e) then newer (db_entry d k) (Some e) else db_entry d k.
Proof.
  intros Hv. unfold db_entry. rewrite get_upsert by done. destruct k as [o n]. cbn [fst snd]. unfold entry_key.
  case_bool_decide as E; [injection E as -> ->|done]. destruct (db_get d (owner e) (name e)) as [[[c v] s]|]; cbn; [|by destruct e].
  destruct (v <? version e); [by destruct e|done].
Qed.

Lemma db_upsert_ok d e : db_ok d -> typed e -> verify_entry e = true -> db_ok (db_upsert d e).
Proof.
  intros Hd Ht Hv k x. rewrite db_entry_upsert by apply Ht. case_bool_decide; [|apply Hd].
  destruct (db_entry d k) as [y|] eqn:E; cbn; [|by intros [= <-]]. destruct (_ <? _); intros [= <-]; [done|by apply (Hd k)].
Qed.

(** The rows of a good table, as entries. *)
Lemma table_entries_mem d e : db_ok d -> e ∈ table_entries d <-> db_entry d (entry_key e) = Some e.
Proof.
  intros Hd. unfold table_entries, db_entry, entry_key. rewrite list_elem_of_fmap. cbn [fst snd]. split.
  - intros ([[[[o n] c] v] s] & -> & [_ Hr]%list_elem_of_filter). cbn. apply rows_get in Hr. rewrite Hr. cbn.
    destruct (Hd (o, n) (mk_entry o n c v s)) as [(_ & _ & Hv) _]; [unfold db_entry; cbn; by rewrite Hr|]. by rewrite as_u64_i64.
  - destruct (db_get d (owner e) (name e)) as [[[c v] s]|] eqn:E; [|done]. cbn. intros Ee. injection Ee as Ee.
    destruct (Hd (owner e, name e) (mk_entry (owner e) (name e) c v s)) as [(Ho & Hc & Hv) _]; [unfold db_entry; cbn; by rewrite E|].
    exists (owner e, name e, c, v, s). cbn in *. rewrite as_u64_i64 by done. split; [by symmetry|].
    apply list_elem_of_filter. split; [done|]. by apply rows_get.
Qed.

Lemma table_entries_keys d : NoDup (map entry_key (table_entries d)).
Proof.
  unfold table_entries. rewrite map_map. eapply sublist_NoDup; [apply (rows_nodup d)|].
  rewrite (map_ext _ (fun '(o, n, _, _, _) => (o, n))) by (by intros [[[[o n] c] v] s]). apply fmap_sublist, sublist_filter.
Qed.

(** ** Folding entries *)

Lemma fold_merge_sorted es l :
  vec_sorted entry_key l -> Forall (fun e => verify_entry e = true) l ->
  vec_sorted entry_key (foldl merge_entry l es) /\ Forall (fun e => verify_entry e = true) (foldl merge_entry l es).
Proof.
  revert l. induction es as [|e es IH]; intros l Hl Hv; cbn [foldl]; [done|]. apply IH; [by apply merge_entry_spec|by apply merge_entry_verified].
Qed.

(** Entries of different names: each name gets the newer of what it had and
    what it is given. *)
Lemma fold_merge_lookup es l :
  vec_sorted entry_key l -> Forall (fun e => verify_entry e = true) es -> NoDup (map entry_key es) ->
  forall k, to_map entry_key (foldl merge_entry l es) !! k = newer (to_map entry_key l !! k) (to_map entry_key es !! k).
Proof.
  revert l. induction es as [|e es IH]; intros l Hl Hv Hnd k; cbn [foldl].
  - unfold to_map at 3. cbn. rewrite lookup_empty. by rewrite newer_None_r.
  - apply Forall_cons_iff in Hv as [Hve Hv]. cbn [map] in Hnd. apply list.NoDup_cons in Hnd as [Hx Hnd].
    destruct (merge_entry_spec l e Hl) as [Hms Hmm]. rewrite (IH _ Hms Hv Hnd k), Hmm, Hve. cbn [andb].
    assert (to_map entry_key (e :: es) !! k = if bool_decide (k = entry_key e) then Some e else to_map entry_key es !! k) as ->.
    { unfold to_map. cbn. case_bool_decide as Hk; [subst; apply lookup_insert_eq|by rewrite lookup_insert_ne]. }
    case_bool_decide as Hk; [|done]. subst k. replace (to_map entry_key es !! entry_key e) with (@None HeadEntry); [apply newer_None_r|].
    symmetry. apply not_elem_of_list_to_map_1. by rewrite map_map.
Qed.

Lemma to_map_mem es k e : NoDup (map entry_key es) -> to_map entry_key es !! k = Some e <-> e ∈ es /\ entry_key e = k.
Proof.
  intros Hnd. unfold to_map. rewrite <- elem_of_list_to_map by (by rewrite map_map). rewrite list_elem_of_fmap. split.
  - intros (x & [= -> ->] & Hx). done.
  - intros [He <-]. by exists e.
Qed.

Lemma table_state d :
  db_ok d ->
  let s := merge_entries registry_default (table_entries d) in
  registry_wf s /\ forall k, head_map s !! k = db_entry d k.
Proof.
  intros Hd s. unfold s, merge_entries, head_map. cbn [entries registry_default].
  assert (Hall : Forall (fun e => verify_entry e = true) (table_entries d)).
  { apply list.Forall_forall. intros e He%table_entries_mem; [|done]. by apply (Hd (entry_key e)). }
  split; [apply fold_merge_sorted; constructor|]. intros k.
  rewrite fold_merge_lookup; [|constructor|done|apply table_entries_keys].
  replace (to_map entry_key [] !! k) with (@None HeadEntry) by (unfold to_map; cbn; by rewrite lookup_empty). cbn.
  apply option_eq. intros e. rewrite to_map_mem by apply table_entries_keys. rewrite table_entries_mem by done. split.
  - by intros [He <-].
  - intros He. pose proof (db_entry_key _ _ _ He) as Ek. by rewrite Ek.
Qed.
End tables.

Section registry.
Context `{Ed25519} `{Blake3} `{HeadsDbLaws} `{Postcard RegistryState} `{Postcard HeadSubmission} `{PostcardLaws (list (Z * Z * Z))}.

Implicit Type r : HeadRegistry.

(** ** The registry's heads *)

Definition head_at r (sk : ShardKey) (k : key * bytes) : option HeadEntry := d ← shards r !! sk; db_entry d k.

Definition tables_ok r : Prop := forall sk d, shards r !! sk = Some d -> db_ok d.

Lemma head_at_ok r sk k e : tables_ok r -> head_at r sk k = Some e -> typed e /\ verify_entry e = true /\ entry_key e = k.
Proof.
  intros Hr. unfold head_at. destruct (shards r !! sk) as [d|] eqn:E; [|done]. cbn. intros Hd.
  destruct (Hr _ _ E k e Hd) as [Ht Hv]. split; [done|]. split; [done|]. by eapply db_entry_key.
Qed.

Lemma sql_resolve_head r sk o n : tables_ok r -> sql_resolve r sk o n = head_at r sk (o, n).
Proof.
  intros Hr. pose proof (head_at_ok r sk (o, n)) as Hok. unfold sql_resolve, head_at, db_entry in *.
  destruct (shards r !! sk) as [d|] eqn:E; [|done]. cbn in *. destruct (db_get d o n) as [[[c v] s]|]; [|done]. cbn in *.
  destruct (Hok _ Hr eq_refl) as ((_ & Hc & Hv) & Hver & _). cbn in Hc, Hv. rewrite bool_decide_true by done. cbn.
  rewrite as_u64_i64 by done. by rewrite Hver.
Qed.

Lemma held_add_shards r sk : shards (held_add r sk) = shards r.
Proof. unfold held_add. by case_bool_decide. Qed.

Lemma sql_upsert_head r sk e sk' k :
  0 <= version e <= I64_MAX ->
  head_at (sql_upsert r sk e).2 sk' k =
    if bool_decide (sk' = sk /\ k = entry_key e) then newer (head_at r sk' k) (Some e) else head_at r sk' k.
Proof.
  intros Hv. unfold sql_upsert, head_at. cbn [snd]. rewrite held_add_shards. cbn [shards set_shards].
  destruct (decide (sk' = sk)) as [->|Hne].
  - rewrite lookup_insert_eq. cbn. rewrite db_entry_upsert by done.
    assert (Hold : db_entry (default db_empty (shards r !! sk)) k = shards r !! sk ≫= (fun d => db_entry d k)).
    { destruct (shards r !! sk); [done|]. apply db_entry_empty. }
    rewrite Hold. by repeat case_bool_decide; naive_solver.
  - rewrite lookup_insert_ne by done. rewrite bool_decide_false; [done|]. naive_solver.
Qed.

Lemma sql_upsert_tables r sk e : tables_ok r -> typed e -> verify_entry e = true -> tables_ok (sql_upsert r sk e).2.
Proof.
  intros Hr Ht Hv sk' d. unfold sql_upsert. cbn [snd]. rewrite held_add_shards. cbn.
  intros [[<- <-]|[_ Hd]]%lookup_insert_Some; [|by eapply Hr]. apply db_upsert_ok; [|done..].
  destruct (shards r !! sk) as [d|] eqn:E; [by eapply Hr|]. intros k x. cbn. by rewrite db_entry_empty.
Qed.

Lemma sql_merge_entry_head r sk e sk' k :
  typed e ->
  head_at (sql_merge_entry sk r e) sk' k =
    if verify_entry e && bool_decide (sk' = sk /\ k = entry_key e) then newer (head_at r sk' k) (Some e) else head_at r sk' k.
Proof. intros Ht. unfold sql_merge_entry. destruct (verify_entry e); cbn [negb andb]; [|done]. apply sql_upsert_head, Ht. Qed.

Lemma fold_sql_merge_tables es r sk : tables_ok r -> Forall typed es -> tables_ok (foldl (sql_merge_entry sk) r es).
Proof.
  revert r. induction es as [|e es IH]; intros r Hr Ht; [done|]. apply Forall_cons_iff in Ht as [He Ht]. cbn. apply IH; [|done].
  unfold sql_merge_entry. destruct (verify_entry e) eqn:Ev; [by apply sql_upsert_tables|done].
Qed.

(** Merging into a table and merging into a registry state, side by side. *)
Lemma fold_sql_merge_head es r sk l :
  Forall typed es -> vec_sorted entry_key l -> (forall k, head_at r sk k = to_map entry_key l !! k) ->
  forall k, head_at (foldl (sql_merge_entry sk) r es) sk k = to_map entry_key (foldl merge_entry l es) !! k.
Proof.
  revert r l. induction es as [|e es IH]; intros r l Ht Hl Hk k; cbn [foldl]; [done|].
  apply Forall_cons_iff in Ht as [He Ht]. destruct (merge_entry_spec l e Hl) as [Hs Hm]. apply IH; [done|done|]. intros k'.
  rewrite sql_merge_entry_head, Hm by done. destruct (verify_entry e); cbn [andb]; [|done].
  repeat case_bool_decide; naive_solver congruence.
Qed.

Lemma fold_sql_merge_other es r sk sk' k :
  Forall typed es -> sk' <> sk -> head_at (foldl (sql_merge_entry sk) r es) sk' k = head_at r sk' k.
Proof.
  intros Ht Hne. revert r Ht. induction es as [|e es IH]; intros r Ht; [done|]. apply Forall_cons_iff in Ht as [He Ht]. cbn.
  rewrite IH, sql_merge_entry_head by done. rewrite (bool_decide_false (sk' = sk /\ _)) by naive_solver. by rewrite andb_false_r.
Qed.

Lemma sql_state_spec r sk : tables_ok r -> registry_wf (sql_state r sk) /\ forall k, head_map (sql_state r sk) !! k = head_at r sk k.
Proof.
  intros Hr. unfold sql_state, head_at. destruct (shards r !! sk) as [d|] eqn:E; cbn [mbind option_bind].
  - apply table_state. by eapply Hr.
  - split; [split; constructor|]. intros k. unfold head_map, to_map. cbn. apply lookup_empty.
Qed.

(** C13: A shard's table is a registry state.  On tables whose rows are signed
    heads, merging a state whose versions fit an i64, as the table's INTEGER
    column needs, into a shard's table leaves the table holding exactly the
    merge of the two states as [RegistryState::merge] computes it, whoever
    made the state: unsigned and forged heads are dropped, and a head is
    replaced only by a higher version.  (A version is a u64 on the wire; one of
    2^63 or more is outside this claim.)  No other
    shard changes, the tables stay good, and a name resolves from the table to
    what it resolves to in the state. *)
Theorem shard_tables_refine_registry (r : HeadRegistry) (sk : ShardKey) (state : RegistryState) :
  tables_ok r -> Forall typed (entries state) ->
  let r' := sql_merge r sk state in
  tables_ok r' /\ sql_state r' sk = merge (sql_state r sk) state /\
  (forall sk', sk' <> sk -> sql_state r' sk' = sql_state r sk') /\
  (forall sk' o n, sql_resolve r' sk' o n = registry_resolve (sql_state r' sk') o n).
Proof.
  intros Hr Ht r'. assert (Hr' : tables_ok r') by by apply fold_sql_merge_tables. split; [done|].
  destruct (sql_state_spec r sk Hr) as [[Hs Hv] Hm]. split; [|split].
  - destruct (sql_state_spec r' sk Hr') as [Hwf Hm']. apply registry_ext; [done|by apply fold_merge_sorted|].
    intros k. rewrite Hm'. unfold head_map, merge, merge_entries. cbn. apply fold_sql_merge_head; [done|done|]. intros k'. by rewrite <- Hm.
  - intros sk' Hne. destruct (sql_state_spec r' sk' Hr') as [Hwf Hm']. destruct (sql_state_spec r sk' Hr) as [Hwf0 Hm0].
    apply registry_ext; [done..|]. intros k. rewrite Hm', Hm0. by apply fold_sql_merge_other.
  - intros sk' o n. destruct (sql_state_spec r' sk' Hr') as [[Hs' _] Hm']. by rewrite resolve_spec, Hm', sql_resolve_head.
Qed.
(** ** The held-shards index *)

(** The index in memory and the one on disk are the shards there are. *)
Record index_ok r : Prop := {
  ix_held : held r = Some (dom (shards r));
  ix_marker : held_marker r = to_allocvec (map (fun sk => (rtype sk, bits sk, shard sk)) (elements (dom (shards r))))
}.

Lemma marker_reads_back (h : gset ShardKey) :
  exists v, from_bytes (to_allocvec (map (fun sk => (rtype sk, bits sk, shard sk)) (elements h))) = Some v /\
    list_to_set (map (fun '(t, b, s) => mk_sk t b s) v) = h.
Proof.
  eexists. split; [apply postcard_roundtrip|]. rewrite map_map, (map_ext _ (fun sk => sk)) by (by intros []).
  rewrite map_id. apply list_to_set_elements_L.
Qed.

Lemma held_set_exact r : index_ok r -> held_set r = dom (shards r).
Proof. intros [Hh _]. unfold held_set. by rewrite Hh. Qed.

(** Steps that leave the shards and the index as they are. *)
Lemma index_ok_same r r' :
  shards r' = shards r -> held r' = held r -> held_marker r' = held_marker r -> index_ok r -> index_ok r'.
Proof. intros Es Eh Em [Hh Hm]. constructor; by rewrite ?Eh, ?Em, Es. Qed.

Lemma sql_upsert_index r sk e : index_ok r -> index_ok (sql_upsert r sk e).2.
Proof.
  intros Hi. unfold sql_upsert. cbn [snd]. set (db := db_upsert _ e). set (r1 := set_shards r (<[sk := db]> (shards r))).
  assert (Hs : held_set r1 = dom (shards r)) by (unfold held_set; cbn; by rewrite (ix_held _ Hi)).
  assert (Hd : dom (shards r1) = {[sk]} ∪ dom (shards r)) by (cbn; apply dom_insert_L). unfold held_add. rewrite Hs.
  case_bool_decide as Hin.
  - assert (Ed : dom (shards r1) = dom (shards r)) by (rewrite Hd; set_solver).
    constructor; cbn [held held_marker set_held shards]; rewrite Ed; [done|]. apply (ix_marker _ Hi).
  - constructor; cbn [held held_marker set_held set_held_marker save_held shards]; unfold held_set; cbn [held set_held]; by rewrite Hd.
Qed.

Lemma sql_merge_index r sk st : index_ok r -> index_ok (sql_merge r sk st).
Proof.
  unfold sql_merge. generalize (entries st) as es. intros es. revert r. induction es as [|e es IH]; intros r Hi; [done|]. cbn. apply IH.
  unfold sql_merge_entry. destruct (negb (verify_entry e)); [done|]. by apply sql_upsert_index.
Qed.

Lemma held_shards_mem r rt b sk :
  index_ok r -> sk ∈ held_shards r rt b <-> is_Some (shards r !! sk) /\ bits sk = b /\ match rt with Some t => rtype sk = t | None => True end.
Proof.
  intros Hi. unfold held_shards. rewrite list_elem_of_filter, elem_of_elements, (held_set_exact _ Hi), elem_of_dom.
  rewrite andb_true_iff, Z.eqb_eq. destruct rt; [rewrite Z.eqb_eq|]; tauto.
Qed.

Lemma delete_all_lookup {V} (l : list ShardKey) (m : gmap ShardKey V) k :
  foldl (fun m sk => delete sk m) m l !! k = if bool_decide (k ∈ l) then None else m !! k.
Proof.
  revert m. induction l as [|x l IH]; intros m; cbn [foldl]; [done|]. rewrite IH. repeat case_bool_decide; try set_solver.
  - assert (k = x) as -> by set_solver. apply lookup_delete_eq.
  - rewrite lookup_delete_ne; [done|]. set_solver.
Qed.

Lemma gc_generation_shards r b sk :
  index_ok r -> shards (gc_generation r b) !! sk = if bool_decide (bits sk = b) then None else shards r !! sk.
Proof.
  intros Hi. assert (E : shards (gc_generation r b) = foldl (fun m sk => delete sk m) (shards r) (held_shards r None b)).
  { unfold gc_generation. by case_bool_decide. }
  rewrite E, delete_all_lookup. pose proof (held_shards_mem r None b sk Hi) as Hm.
  repeat case_bool_decide; try done; [naive_solver|]. destruct (shards r !! sk) eqn:Es; [|done]. exfalso. naive_solver.
Qed.

Lemma gc_generation_index r b : index_ok r -> index_ok (gc_generation r b).
Proof.
  intros Hi. pose proof (fun sk => gc_generation_shards r b sk Hi) as Hs.
  assert (Hd : dom (shards (gc_generation r b)) = dom (shards r) ∖ list_to_set (held_shards r None b)).
  { apply set_eq. intros sk. rewrite elem_of_difference, !elem_of_dom, elem_of_list_to_set, (held_shards_mem r None b sk Hi), Hs.
    case_bool_decide as E; split; intros Hx; [by destruct Hx|naive_solver|naive_solver|tauto]. }
  unfold gc_generation in *. case_bool_decide as E.
  - rewrite E. by apply (index_ok_same r).
  - constructor; cbn [held held_marker set_held set_held_marker save_held shards set_shards] in *; unfold held_set; cbn [held set_held set_shards];
      rewrite (ix_held _ Hi), Hd; reflexivity.
Qed.
End registry.
