(* ===== verification/HeadRegReshard.v ===== *)
(** The online reshard of the head registry ([HeadReg]): no head is lost
    between the old and the new shard count, writes that still arrive at the
    old count included; and the held-shards index over every operation. *)

From S2P Require Import Prelude Crypto SortedVec Registry Epoch HeadReg HeadRegState.

Open Scope Z_scope.

(** ** Versions only grow *)

Definition at_least (x y : option HeadEntry) : Prop :=
  forall e, y = Some e -> exists e', x = Some e' /\ version e <= version e'.

#[local] Instance at_least_preorder : PreOrder at_least.
Proof.
  split; [intros x e ->; exists e; split; [done|lia]|]. intros x y z Hxy Hyz e (e1 & (e2 & -> & Hle)%Hxy & Hle')%Hyz.
  exists e2. split; [done|lia].
Qed.

Lemma newer_at_least x e : at_least (newer x (Some e)) x /\ at_least (newer x (Some e)) (Some e).
Proof.
  split; intros y; [intros ->|intros [= <-]]; cbn.
  - destruct (Z.ltb_spec (version y) (version e)); eexists; (split; [done|lia]).
  - destruct x as [p|]; cbn; [|exists e; split; [done|lia]]. destruct (Z.ltb_spec (version p) (version e)); eexists; (split; [done|lia]).
Qed.

Section reshard.
Context `{Ed25519} `{Blake3} `{HeadsDbLaws} `{Postcard RegistryState} `{Postcard HeadSubmission} `{PostcardLaws (list (Z * Z * Z))}.

Implicit Type r : HeadRegistry.

(** Folding heads with last-writer-wins, for any state that has such a step. *)
Lemma fold_newer {S} (Inv : S -> Prop) (P : HeadEntry -> Prop) (step : S -> HeadEntry -> S) (look : S -> option HeadEntry) (k : key * bytes) :
  (forall s e, Inv s -> P e -> Inv (step s e) /\
    look (step s e) = if verify_entry e && bool_decide (k = entry_key e) then newer (look s) (Some e) else look s) ->
  forall es s, Inv s -> Forall P es ->
  at_least (look (foldl step s es)) (look s) /\
  forall e, e ∈ es -> verify_entry e = true -> entry_key e = k -> at_least (look (foldl step s es)) (Some e).
Proof.
  intros Hstep. induction es as [|x es IH]; intros s Hs HP; cbn [foldl]; [split; [done|set_solver]|].
  apply Forall_cons_iff in HP as [Hx HP]. destruct (Hstep s x Hs Hx) as [Hs' Hl]. destruct (IH _ Hs' HP) as [Hg Hc]. split.
  - etrans; [exact Hg|]. rewrite Hl. destruct (_ && _); [apply newer_at_least|done].
  - intros e [->|He]%elem_of_cons Hv Hk; [|by apply Hc]. etrans; [exact Hg|]. rewrite Hl, Hv, bool_decide_true by done. apply newer_at_least.
Qed.

Definition grows r r' : Prop := forall sk k, at_least (head_at r' sk k) (head_at r sk k).

#[local] Instance grows_preorder : PreOrder grows.
Proof. split; [by intros r sk k|]. intros r1 r2 r3 Ha Hb sk k. etrans; [apply Hb|apply Ha]. Qed.

Lemma sql_merge_spec r sk st :
  tables_ok r -> Forall typed (entries st) ->
  tables_ok (sql_merge r sk st) /\ grows r (sql_merge r sk st) /\
  forall e, e ∈ entries st -> verify_entry e = true -> at_least (head_at (sql_merge r sk st) sk (entry_key e)) (Some e).
Proof.
  intros Hr Ht. split; [by apply fold_sql_merge_tables|].
  assert (Hf : forall k, at_least (head_at (sql_merge r sk st) sk k) (head_at r sk k) /\
    forall e, e ∈ entries st -> verify_entry e = true -> entry_key e = k -> at_least (head_at (sql_merge r sk st) sk k) (Some e)).
  { intros k. apply (fold_newer (fun _ => True) typed (sql_merge_entry sk) (fun r => head_at r sk k) k); [|done|done].
    intros s e _ He. split; [done|]. rewrite sql_merge_entry_head by done. by repeat case_bool_decide; try naive_solver. }
  split.
  - intros sk' k. destruct (decide (sk' = sk)) as [->|Hne]; [apply Hf|]. unfold sql_merge. by rewrite fold_sql_merge_other.
  - intros e He Hv. by apply (Hf (entry_key e)).
Qed.

(** Merging into an empty state: its entries are those given, one per name,
    none older. *)
Lemma merge_entries_spec es :
  Forall typed es -> Forall typed (entries (merge_entries registry_default es)) /\
  Forall (fun e => verify_entry e = true) (entries (merge_entries registry_default es)) /\
  forall e, e ∈ es -> verify_entry e = true ->
    exists e', e' ∈ entries (merge_entries registry_default es) /\ entry_key e' = entry_key e /\ version e <= version e'.
Proof.
  intros Ht. unfold merge_entries. cbn [entries registry_default].
  assert (Hsub : forall l, Forall typed l -> Forall typed (foldl merge_entry l es)).
  { clear -Ht. induction Ht as [|e es He Ht IH]; intros l Hl; cbn; [done|]. apply IH. unfold merge_entry.
    destruct (negb (verify_entry e)); [done|]. destruct (find entry_key l _) as [i|i].
    - destruct (l !! i); [|done]. destruct (_ <? _); [|done]. by apply Forall_insert.
    - unfold vec_insert. apply Forall_app. split; [by apply Forall_take|]. constructor; [done|by apply Forall_drop]. }
  split; [apply Hsub; constructor|]. split; [apply fold_merge_sorted; constructor|]. intros e He Hv.
  destruct (fold_newer (vec_sorted entry_key) (fun _ => True) merge_entry (fun l => to_map entry_key l !! entry_key e) (entry_key e)) with (es := es) (s := @nil HeadEntry) as [_ Hc].
  { intros l x Hl _. destruct (merge_entry_spec l x Hl) as [Hs Hm]. split; [done|]. by rewrite Hm. }
  { constructor. }
  { by apply list.Forall_true. }
  destruct (Hc e He Hv eq_refl e eq_refl) as (e' & Hl & Hle). exists e'.
  unfold to_map in Hl. apply elem_of_list_to_map_2, list_elem_of_fmap in Hl as (x & Ex & Hx).
  pose proof (f_equal fst Ex) as Ek. pose proof (f_equal snd Ex) as Ev. cbn [fst snd] in Ek, Ev. by subst e'.
Qed.

(** ** Sweeping a generation *)

Lemma rebucket_spec es b :
  (forall s l, rebucket_entries es b !! s = Some l -> forall e, e ∈ l -> e ∈ es /\ shard_of (owner e) (name e) b = s) /\
  (forall e, e ∈ es -> exists l, rebucket_entries es b !! shard_of (owner e) (name e) b = Some l /\ e ∈ l).
Proof.
  induction es as [|x es [IH1 IH2]] using rev_ind; [split; [intros s l; cbn; by rewrite lookup_empty|set_solver]|].
  unfold rebucket_entries in *. rewrite foldl_app. cbn [foldl]. set (m := foldl _ ∅ es) in *. set (sx := shard_of (owner x) (name x) b). split.
  - intros s l [[<- <-]|[_ Hl]]%lookup_insert_Some e He.
    + apply elem_of_app in He as [He|He%list_elem_of_singleton]; [|subst; set_solver].
      destruct (m !! sx) as [l|] eqn:El; cbn in He; [|set_solver]. destruct (IH1 _ _ El e He). set_solver.
    + destruct (IH1 _ _ Hl e He). set_solver.
  - intros e [He|He%list_elem_of_singleton]%elem_of_app.
    + destruct (IH2 e He) as (l & Hl & Hin). destruct (decide (sx = shard_of (owner e) (name e) b)) as [E|E].
      * rewrite <- E in *. rewrite lookup_insert_eq. eexists. split; [done|]. rewrite Hl. cbn. set_solver.
      * rewrite lookup_insert_ne by done. by exists l.
    + subst e. rewrite lookup_insert_eq. eexists. split; [done|]. set_solver.
Qed.

(** Where a head of a kind goes at a count. *)
Definition moved (to rt : Z) (k : key * bytes) : ShardKey := mk_sk rt to (shard_of k.1 k.2 to).

Lemma replicate_head r sk sk' k : head_at (replicate r sk) sk' k = head_at r sk' k.
Proof. done. Qed.

Definition good (e : HeadEntry) : Prop := typed e /\ verify_entry e = true.

Lemma sweep_group_spec rt to r g :
  tables_ok r -> Forall good g.2 ->
  tables_ok (sweep_group rt to r g) /\ grows r (sweep_group rt to r g) /\
  forall e, e ∈ g.2 -> at_least (head_at (sweep_group rt to r g) (mk_sk rt to g.1) (entry_key e)) (Some e).
Proof.
  intros Hr Hg. assert (Ht : Forall typed g.2) by (revert Hg; apply Forall_impl; by intros e []).
  destruct (merge_entries_spec g.2 Ht) as (Ht' & Hv' & Hc).
  destruct (sql_merge_spec r (mk_sk rt to g.1) (merge_entries registry_default g.2) Hr Ht') as (Hr' & Hgr & Hcov).
  split; [done|]. split; [done|]. intros e He. rewrite list.Forall_forall in Hg. destruct (Hg e He) as [_ Hv].
  destruct (Hc e He Hv) as (e' & He' & Hk & Hle). rewrite list.Forall_forall in Hv'. specialize (Hcov e' He' (Hv' e' He')).
  rewrite Hk in Hcov. intros x [= <-]. destruct (Hcov e' eq_refl) as (y & Hy & Hle'). exists y. split; [exact Hy|lia].
Qed.

(** Folding a step that keeps the tables good, grows them and covers what it
    is given. *)
Lemma fold_covers {A} (step : HeadRegistry -> A -> HeadRegistry) (P : A -> Prop) (cov : A -> HeadEntry -> ShardKey -> Prop) :
  (forall r a, tables_ok r -> P a -> tables_ok (step r a) /\ grows r (step r a) /\
    forall e sk, cov a e sk -> at_least (head_at (step r a) sk (entry_key e)) (Some e)) ->
  forall l r, tables_ok r -> Forall P l ->
  tables_ok (foldl step r l) /\ grows r (foldl step r l) /\
  forall a e sk, a ∈ l -> cov a e sk -> at_least (head_at (foldl step r l) sk (entry_key e)) (Some e).
Proof.
  intros Hstep. induction l as [|a l IH]; intros r Hr HP; cbn [foldl]; [split; [done|split; [done|set_solver]]|].
  apply Forall_cons_iff in HP as [Ha HP]. destruct (Hstep r a Hr Ha) as (Hr1 & Hg1 & Hc1). destruct (IH _ Hr1 HP) as (Hr2 & Hg2 & Hc2).
  split; [done|]. split; [by etrans|]. intros b e sk [->|Hb]%elem_of_cons Hcov; [|by eapply Hc2].
  etrans; [apply Hg2|by apply Hc1].
Qed.

Lemma sweep_entries_spec rt to es r :
  tables_ok r -> Forall good es ->
  let r' := foldl (sweep_group rt to) r (map_to_list (rebucket_entries es to)) in
  tables_ok r' /\ grows r r' /\ forall e, e ∈ es -> at_least (head_at r' (moved to rt (entry_key e)) (entry_key e)) (Some e).
Proof.
  intros Hr Hes r'. destruct (rebucket_spec es to) as [Hb1 Hb2]. rewrite list.Forall_forall in Hes.
  destruct (fold_covers (sweep_group rt to) (fun g => Forall good g.2) (fun g e sk => e ∈ g.2 /\ sk = mk_sk rt to g.1))
    with (l := map_to_list (rebucket_entries es to)) (r := r) as (Hr' & Hg & Hc).
  - intros r0 g Hr0 Hg. destruct (sweep_group_spec rt to r0 g Hr0 Hg) as (? & ? & Hcov). split; [done|]. split; [done|].
    intros e sk [He ->]. by apply Hcov.
  - done.
  - apply list.Forall_forall. intros [s l] Hl%elem_of_map_to_list. apply list.Forall_forall. intros e He. apply Hes. by eapply Hb1.
  - split; [done|]. split; [done|]. intros e He. destruct (Hb2 e He) as (l & Hl & Hel).
    apply (Hc (shard_of (owner e) (name e) to, l)); [by apply elem_of_map_to_list|done].
Qed.

Lemma sweep_generation_spec r from to :
  tables_ok r -> index_ok r ->
  tables_ok (sweep_generation r from to) /\ grows r (sweep_generation r from to) /\
  forall sk k, bits sk = from -> at_least (head_at (sweep_generation r from to) (moved to (rtype sk) k) k) (head_at r sk k).
Proof.
  intros Hr Hi. unfold sweep_generation. set (collected := filter _ _).
  assert (Hgood : forall sk, Forall good (entries (sql_state r sk)) /\ forall e, head_at r sk (entry_key e) = Some e <-> e ∈ entries (sql_state r sk)).
  { intros sk. destruct (sql_state_spec r sk Hr) as [[Hs Hv] Hm].
    assert (Hnd : NoDup (map entry_key (entries (sql_state r sk)))).
    { clear -Hs. induction Hs as [|x l Hs IH Hx]; [constructor|]. cbn. apply list.NoDup_cons. split; [|done].
      intros (y & E & Hy)%list_elem_of_fmap. rewrite list.Forall_forall in Hx. specialize (Hx y Hy). by rewrite E, cmp_refl in Hx. }
    assert (Hiff : forall e, head_at r sk (entry_key e) = Some e <-> e ∈ entries (sql_state r sk)).
    { intros e. rewrite <- Hm. unfold head_map. rewrite to_map_mem by done. tauto. }
    split; [|done]. apply list.Forall_forall. intros e He. apply Hiff in He. destruct (head_at_ok _ _ _ _ Hr He) as (? & ? & _). done. }
  destruct (fold_covers (fun r '(rt, es) => foldl (sweep_group rt to) r (map_to_list (rebucket_entries es to)))
    (fun a : Z * list HeadEntry => Forall good a.2) (fun a e sk => e ∈ a.2 /\ sk = moved to a.1 (entry_key e)))
    with (l := collected) (r := r) as (Hr' & Hg & Hc).
  - intros r0 [rt es] Hr0 Hes. destruct (sweep_entries_spec rt to es r0 Hr0 Hes) as (? & ? & Hcov). split; [done|]. split; [done|].
    intros e sk [He ->]. by apply Hcov.
  - done.
  - apply list.Forall_forall. intros a [_ (sk & -> & _)%list_elem_of_fmap]%list_elem_of_filter. apply Hgood.
  - split; [done|]. split; [done|]. intros sk k Hb e He. pose proof (head_at_ok _ _ _ _ Hr He) as (_ & _ & <-).
    destruct (Hgood sk) as [_ Hiff]. apply Hiff in He as Hin.
    refine (Hc (rtype sk, entries (sql_state r sk)) e _ _ (conj Hin eq_refl) e eq_refl).
    apply list_elem_of_filter. split; [intros En; cbn in En; rewrite En in Hin; set_solver|]. apply list_elem_of_fmap. exists sk. split; [done|].
    apply held_shards_mem; [done|]. split; [|done]. unfold head_at in He. destruct (shards r !! sk); [by eexists|done].
Qed.
(** ** The index over every operation *)

Lemma fold_index {A} (step : HeadRegistry -> A -> HeadRegistry) :
  (forall r a, index_ok r -> index_ok (step r a)) -> forall l r, index_ok r -> index_ok (foldl step r l).
Proof. intros Hs. induction l as [|a l IH]; intros r Hr; [done|]. cbn. by apply IH, Hs. Qed.

Lemma replicate_index r sk : index_ok r -> index_ok (replicate r sk).
Proof. by apply index_ok_same. Qed.

Lemma sweep_generation_index r from to : index_ok r -> index_ok (sweep_generation r from to).
Proof.
  apply fold_index. intros r1 [rt es]. apply fold_index. intros r2 g Hi. by apply replicate_index, sql_merge_index.
Qed.

Lemma ensure_current_index r w sk : index_ok r -> index_ok (ensure_current r w sk).
Proof.
  intros Hi. unfold ensure_current. destruct (negb _); [done|]. destruct (_ <=? _); [done|].
  apply (index_ok_same (foldl (takeover_merge w sk) r (replicas sk (eligible r w)))); [done..|]. apply fold_index; [|done]. intros r1 i Hi1. unfold takeover_merge.
  case_bool_decide; [done|]. destruct (ask w i _) as [[]|]; try done. destruct (decode_or _ _); [by apply sql_merge_index|done].
Qed.

Lemma advance_local_index r w sk b : index_ok r -> index_ok (advance_local r w sk b).2.
Proof.
  intros Hi%(fun x => ensure_current_index r w sk x). unfold advance_local. destruct (from_bytes b) as [sub|]; [|done].
  destruct (negb _); [done|]. destruct (_ <? _)%nat; [done|]. set (e := mk_entry _ _ _ _ _).
  pose proof (sql_upsert_index _ sk e Hi) as Hu. destruct (sql_upsert (ensure_current r w sk) sk e). by apply replicate_index.
Qed.

Lemma reshard_round_index r w : index_ok r -> index_ok (reshard_round r w).
Proof.
  intros Hi. unfold reshard_round. destruct (load_gen r) as [last|]; [|by apply (index_ok_same r)].
  destruct (negb _); [by apply (index_ok_same (sweep_generation r last (shard_bits w))), sweep_generation_index|].
  destruct (draining r) as [[old ticks]|]; [|done]. destruct (old =? _); [by apply (index_ok_same r)|].
  pose proof (sweep_generation_index r old (shard_bits w) Hi) as Hs. destruct (_ <=? _).
  - by apply (index_ok_same (gc_generation (sweep_generation r old (shard_bits w)) old)), gc_generation_index.
  - by apply (index_ok_same (sweep_generation r old (shard_bits w))).
Qed.

Lemma migrate_round_index r w : index_ok r -> index_ok (migrate_round r w).
Proof.
  intros Hi. unfold migrate_round. destruct (migrate_tick _ _) as [last fire]. assert (Hl : index_ok (set_last_census r last)) by by apply (index_ok_same r).
  destruct fire; [|done]. apply fold_index; [|done]. intros r1 sk Hi1. case_bool_decide; [done|]. by apply replicate_index.
Qed.

Lemma register_index r w rt n c v : index_ok r -> index_ok (register r w rt n c v).2.
Proof.
  intros Hi. unfold register. set (sk := mk_sk _ _ _). destruct (is_writer r w sk).
  - pose proof (advance_local_index r w sk (to_allocvec (sign_head (identity r) n c v)) Hi) as Ha.
    destruct (advance_local r w sk _) as [[root|e] r1]; [by apply (index_ok_same r1)|done].
  - destruct (match ask w _ _ with Some _ => _ | None => _ end); [by apply (index_ok_same r)|done].
Qed.

Lemma serve_index r w req : index_ok r -> index_ok (serve r w req).2.
Proof.
  intros Hi. destruct req; cbn [serve].
  - destruct (from_bytes sub) as [s|]; [|done]. pose proof (advance_local_index r w (mk_sk rt b (shard_of (sub_owner s) (sub_name s) b)) sub Hi) as Ha.
    by destruct (advance_local r w _ sub).
  - unfold resolve_local. by apply ensure_current_index.
  - done.
  - done.
  - destruct (shed w); [done|]. cbn. destruct (decode_or _ _); [by apply sql_merge_index|done].
  - done.
Qed.

Lemma resolve_entry_index r w rt o n : index_ok r -> index_ok (resolve_entry r w rt o n).2.
Proof.
  intros Hi. unfold resolve_entry. destruct (if is_replica _ _ _ then _ else _); [done|]. destruct (resolve_at_bits _ _ _ _ _ _); [|done]. cbn.
  destruct (is_replica _ _ _); [done|]. by apply (index_ok_same r).
Qed.

(** One operation of the node on its registry, under any view. *)
Inductive reg_step : HeadRegistry -> HeadRegistry -> Prop :=
  | step_register r w rt n c v : reg_step r (register r w rt n c v).2
  | step_serve r w req : reg_step r (serve r w req).2
  | step_resolve r w rt o n : reg_step r (resolve_entry r w rt o n).2
  | step_reshard r w : reg_step r (reshard_round r w)
  | step_migrate r w : reg_step r (migrate_round r w).

Lemma reg_step_index r r' : reg_step r r' -> index_ok r -> index_ok r'.
Proof.
  intros Hs. destruct Hs; [apply register_index|apply serve_index|apply resolve_entry_index|apply reshard_round_index|apply migrate_round_index].
Qed.

(** What a first boot writes for the index. *)
Lemma backfill_index i w gen : let r := backfill_held_if_needed (open_registry i ∅ [] gen) w in index_ok r /\ shards r = ∅.
Proof.
  cbv zeta. unfold backfill_held_if_needed. cbn [held_marker open_registry]. rewrite bool_decide_true by done. cbn [negb].
  set (probe := flat_map _ _). split; [|done].
  assert (E : filter (fun sk => is_Some (shards (open_registry i ∅ [] gen) !! sk)) probe = []).
  { induction probe as [|x l IH]; [done|]. rewrite filter_cons. cbn [shards open_registry].
    rewrite decide_False; [exact IH|]. rewrite lookup_empty. by intros []. }
  rewrite E. constructor; cbn; unfold held_set; cbn; by rewrite dom_empty_L.
Qed.

(** The held-shards index is exact and survives a restart.  From a first
    boot on, after any run of registrations, served requests, resolves,
    reshard and migration rounds, whatever the peers send, the index names
    exactly the shards the node has a table for; and a node that restarts from
    what is on disk then reads back that same index, so its loops over held
    shards miss none. *)
Theorem held_index_survives_restart (i : NodeIdentity) (w : View) (gen : bytes) (r : HeadRegistry) :
  rtc reg_step (backfill_held_if_needed (open_registry i ∅ [] gen) w) r ->
  let restarted := open_registry i (shards r) (held_marker r) (gen_marker r) in
  held_set r = dom (shards r) /\ held_set restarted = dom (shards r) /\
  forall rt b sk, sk ∈ held_shards restarted rt b <->
    is_Some (shards r !! sk) /\ bits sk = b /\ match rt with Some t => rtype sk = t | None => True end.
Proof.
  intros Hr restarted. destruct (backfill_index i w gen) as [H0i _].
  assert (Hi : index_ok r) by (clear restarted; induction Hr as [|? ? ? Hs _ IH]; [done|]; by apply IH, (reg_step_index _ _ Hs)).
  assert (Hh : held_set restarted = dom (shards r)).
  { unfold held_set. cbn. rewrite (ix_marker _ Hi). destruct (marker_reads_back (dom (shards r))) as (v & -> & E). exact E. }
  split; [by apply held_set_exact|]. split; [done|]. intros rt b sk. unfold held_shards. rewrite Hh.
  rewrite list_elem_of_filter, elem_of_elements, elem_of_dom, andb_true_iff, Z.eqb_eq. destruct rt; [rewrite Z.eqb_eq|]; tauto.
Qed.
(** ** The whole reshard *)

Lemma fold_field {A F} (f : HeadRegistry -> F) (step : HeadRegistry -> A -> HeadRegistry) :
  (forall r a, f (step r a) = f r) -> forall l r, f (foldl step r l) = f r.
Proof. intros Hs. induction l as [|a l IH]; intros r; [done|]. cbn. by rewrite IH, Hs. Qed.

(** What merges do not touch. *)
Definition gen_state r := (gen_marker r, draining r).

Lemma sql_merge_gen r sk st : gen_state (sql_merge r sk st) = gen_state r.
Proof.
  apply (fold_field gen_state). intros r1 e. unfold sql_merge_entry. destruct (negb _); [done|]. unfold sql_upsert. cbn [snd].
  unfold held_add. by case_bool_decide.
Qed.

Lemma sql_merge_load_gen r sk st : load_gen (sql_merge r sk st) = load_gen r.
Proof. pose proof (sql_merge_gen r sk st) as [= Em _]. unfold load_gen. by rewrite Em. Qed.

Lemma sweep_generation_gen r from to : gen_state (sweep_generation r from to) = gen_state r.
Proof.
  apply (fold_field gen_state). intros r1 [rt es]. apply (fold_field gen_state). intros r2 g. apply sql_merge_gen.
Qed.

Lemma le_value_le_bytes n x : 0 <= x < 256 ^ Z.of_nat n -> le_value (le_bytes n x) = x.
Proof.
  revert x. induction n as [|n IH]; intros x Hx; [cbn in *; lia|]. rewrite Nat2Z.inj_succ, Z.pow_succ_r in Hx by lia. cbn [le_bytes le_value].
  rewrite IH; [pose proof (Z.div_mod x 256); lia|]. split; [apply Z.div_pos; lia|]. apply Z.div_lt_upper_bound; lia.
Qed.

Lemma load_save_gen r b : 1 <= b <= 12 -> load_gen (save_gen r b) = Some b.
Proof.
  intros Hb. unfold load_gen, save_gen. cbn [gen_marker set_gen_marker]. rewrite bool_decide_true by apply le_bytes_length.
  rewrite le_value_le_bytes; [done|cbn; lia].
Qed.

(** Writes that arrive between two rounds: states merged into shards. *)
Definition apply_writes r (ws : list (ShardKey * RegistryState)) : HeadRegistry := foldl (fun r x => sql_merge r x.1 x.2) r ws.

Definition typed_writes (ws : list (ShardKey * RegistryState)) : Prop := Forall (fun x => Forall typed (entries x.2)) ws.

Fixpoint rounds (w : View) r (batches : list (list (ShardKey * RegistryState))) : HeadRegistry :=
  match batches with [] => r | ws :: bs => rounds w (reshard_round (apply_writes r ws) w) bs end.

Lemma apply_writes_spec r ws :
  tables_ok r -> index_ok r -> typed_writes ws ->
  let r' := apply_writes r ws in
  tables_ok r' /\ index_ok r' /\ gen_state r' = gen_state r /\ grows r r' /\
  forall sk st e, (sk, st) ∈ ws -> e ∈ entries st -> verify_entry e = true -> at_least (head_at r' sk (entry_key e)) (Some e).
Proof.
  intros Hr Hi Ht r'.
  destruct (fold_covers (fun r x => sql_merge r x.1 x.2) (fun x => Forall typed (entries x.2))
    (fun x e sk => sk = x.1 /\ e ∈ entries x.2 /\ verify_entry e = true)) with (l := ws) (r := r) as (Hr' & Hg & Hc).
  - intros r0 x Hr0 Hx. destruct (sql_merge_spec r0 x.1 x.2 Hr0 Hx) as (? & ? & Hcov). split; [done|]. split; [done|].
    intros e sk (-> & He & Hv). by apply Hcov.
  - done.
  - done.
  - split; [done|]. split; [apply fold_index; [|done]; intros; by apply sql_merge_index|].
    split; [apply (fold_field gen_state); intros; apply sql_merge_gen|]. split; [done|].
    intros sk st e Hw He Hv. by apply (Hc (sk, st)).
Qed.

(** The state of the reshard after [j] rounds of the new count. *)
Record phase (from to : Z) (j : nat) r : Prop := {
  ph_tables : tables_ok r;
  ph_index : index_ok r;
  ph_gen : load_gen r = Some (if (j =? 0)%nat then from else to);
  ph_drain : (0 < j < 19)%nat -> draining r = Some (from, Z.of_nat j - 1);
  ph_done : j = 19%nat -> draining r = None /\ forall sk, bits sk = from -> shards r !! sk = None
}.

Lemma phase_writes from to j r ws : (j < 19)%nat -> phase from to j r -> typed_writes ws -> phase from to j (apply_writes r ws).
Proof.
  intros Hj [Hr Hi Hg Hd Hf] Ht. destruct (apply_writes_spec r ws Hr Hi Ht) as (Hr' & Hi' & Hgen & _).
  injection Hgen as Em Ed. constructor; [done|done| | |lia].
  - unfold load_gen. by rewrite Em.
  - intros Hj'. rewrite Ed. auto.
Qed.

(** One round: the next phase, every head of the old count covered at the new
    one, nothing of the new count lost, and nothing at all before the last. *)
Lemma phase_round from to w j r :
  from <> to -> shard_bits w = to -> 1 <= to <= 12 -> (j < 19)%nat -> phase from to j r ->
  let r' := reshard_round r w in
  phase from to (S j) r' /\
  (forall sk k, bits sk = from -> at_least (head_at r' (moved to (rtype sk) k) k) (head_at r sk k)) /\
  (forall sk k, bits sk = to -> at_least (head_at r' sk k) (head_at r sk k)) /\ ((S j < 19)%nat -> grows r r').
Proof.
  intros Hne Hw Hto Hj [Hr Hi Hg Hd _] r'. unfold r', reshard_round. rewrite Hg, Hw.
  destruct (sweep_generation_spec r from to Hr Hi) as (Hr' & Hgr & Hcov). pose proof (sweep_generation_index r from to Hi) as Hi'.
  pose proof (sweep_generation_gen r from to) as [= Em Ed]. destruct j as [|j]; cbn [Nat.eqb] in *.
  - destruct (Z.eqb_spec from to); [done|]. cbn [negb]. split; [|split; [exact Hcov|split; [intros sk k _; apply Hgr|intros _; exact Hgr]]].
    constructor; [done|by apply (index_ok_same (sweep_generation r from to))|by apply load_save_gen|done|done].
  - rewrite Z.eqb_refl. cbn [negb]. rewrite Hd by lia. destruct (Z.eqb_spec from to); [done|].
    assert (Hlg : load_gen (sweep_generation r from to) = Some to) by (unfold load_gen in *; by rewrite Em).
    unfold DRAIN_TICKS. destruct (Z.leb_spec 18 (Z.of_nat (S j) - 1 + 1)) as [Hlast|Hmore].
    + set (g := gc_generation (sweep_generation r from to) from).
      assert (Hsh : forall sk, shards g !! sk = if bool_decide (bits sk = from) then None else shards (sweep_generation r from to) !! sk)
        by (intros; by apply gc_generation_shards).
      assert (Hat : forall sk k, bits sk = to -> head_at g sk k = head_at (sweep_generation r from to) sk k).
      { intros sk k Hb. unfold head_at. rewrite Hsh, bool_decide_false; [done|congruence]. }
      assert (Hgen : gen_marker g = gen_marker (sweep_generation r from to)) by (unfold g, gc_generation; by case_bool_decide).
      split; [|split; [|split; [|lia]]].
      * constructor; cbn [draining set_draining shards]; [|by apply (index_ok_same g), gc_generation_index|unfold load_gen in *; cbn; by rewrite Hgen|lia|].
        -- intros sk d. cbn. rewrite Hsh. case_bool_decide; [done|]. apply Hr'.
        -- intros _. split; [done|]. intros sk Hb. by rewrite Hsh, bool_decide_true.
      * intros sk k Hb. change (head_at (set_draining g None) (moved to (rtype sk) k) k) with (head_at g (moved to (rtype sk) k) k).
        rewrite Hat by done. by apply Hcov.
      * intros sk k Hb. change (head_at (set_draining g None) sk k) with (head_at g sk k). rewrite Hat by done. apply Hgr.
    + split; [|split; [exact Hcov|split; [intros sk k _; apply Hgr|intros _; exact Hgr]]].
      constructor; cbn [draining set_draining]; [done|by apply (index_ok_same (sweep_generation r from to))|done| |lia].
      intros _. f_equal. f_equal. lia.
Qed.

(** Several rounds, each with the writes that came before it. *)
Lemma rounds_cover from to w : from <> to -> shard_bits w = to -> 1 <= to <= 12 ->
  forall batches j r, (j + length batches <= 19)%nat -> phase from to j r -> Forall typed_writes batches ->
  let r' := rounds w r batches in
  phase from to (j + length batches) r' /\ (forall sk k, bits sk = to -> at_least (head_at r' sk k) (head_at r sk k)) /\
  (batches <> [] -> forall sk k, bits sk = from -> at_least (head_at r' (moved to (rtype sk) k) k) (head_at r sk k)) /\
  (forall ws sk st e, ws ∈ batches -> (sk, st) ∈ ws -> e ∈ entries st -> verify_entry e = true ->
    let home := if bool_decide (bits sk = from) then moved to (rtype sk) (entry_key e) else sk in
    bits home = to -> at_least (head_at r' home (entry_key e)) (Some e)) /\
  ((j + length batches < 19)%nat -> grows r r' /\
   forall ws sk st e, ws ∈ batches -> (sk, st) ∈ ws -> e ∈ entries st -> verify_entry e = true -> at_least (head_at r' sk (entry_key e)) (Some e)).
Proof.
  intros Hne Hw Hto. induction batches as [|ws bs IH]; intros j r Hj Hp Ht; cbn [rounds length] in *.
  - rewrite Nat.add_0_r. split_and!; [done|done|done|intros ws sk st e Hin; set_solver|]. intros _. split; [done|]. intros ws sk st e Hin; set_solver.
  - apply Forall_cons_iff in Ht as [Hws Ht]. destruct (apply_writes_spec r ws (ph_tables _ _ _ _ Hp) (ph_index _ _ _ _ Hp) Hws) as (_ & _ & _ & Hgr & Hcw).
    pose proof (phase_writes from to j r ws ltac:(lia) Hp Hws) as Hp1.
    destruct (phase_round from to w j (apply_writes r ws) Hne Hw Hto ltac:(lia) Hp1) as (Hp2 & Hc2 & Hg2 & Hall2).
    destruct (IH (S j) (reshard_round (apply_writes r ws) w) ltac:(lia) Hp2 Ht) as (Hp3 & Hg3 & Hc3 & Hw3 & Hall3).
    assert (Hto2 : forall sk k, bits sk = to -> at_least (head_at (rounds w (reshard_round (apply_writes r ws) w) bs) sk k) (head_at (apply_writes r ws) sk k)).
    { intros sk k Hb. etrans; [by apply Hg3|by apply Hg2]. }
    assert (Hfrom : forall sk k, bits sk = from -> at_least (head_at (rounds w (reshard_round (apply_writes r ws) w) bs) (moved to (rtype sk) k) k) (head_at (apply_writes r ws) sk k)).
    { intros sk k Hb. etrans; [by apply Hg3|by apply Hc2]. }
    split; [by replace (j + S (length bs))%nat with (S j + length bs)%nat by lia|]. split; [intros sk k Hb; etrans; [by apply Hto2|apply Hgr]|].
    split; [intros _ sk k Hb; etrans; [by apply Hfrom|apply Hgr]|]. split.
    + intros ws' sk st e [->|Hin]%elem_of_cons Hst He Hv; cbv zeta; intros Hb; [|by eapply Hw3].
      case_bool_decide as Eb; (etrans; [|by eapply Hcw]); [by apply Hfrom|by apply Hto2].
    + intros Hlt. destruct Hall3 as [Hga Hwa]; [lia|]. specialize (Hall2 ltac:(lia)).
      assert (Hg1 : grows (apply_writes r ws) (rounds w (reshard_round (apply_writes r ws) w) bs)) by (by etrans).
      split; [by etrans|]. intros ws' sk st e [->|Hin]%elem_of_cons Hst He Hv; [|by eapply Hwa]. etrans; [apply Hg1|by eapply Hcw].
Qed.

(** C11: The online reshard loses no head, at any point.  A registry at one
    shard count that sees governance set another runs a round per tick: a
    first, and then eighteen of the drain.  Let any writes, with versions that
    fit an i64, arrive before each round at the old or the new count.  After
    every one of these rounds the node records the new count, and every signed
    head it held at the old count, and every one written to it so far, is in
    the shard the new count routes its name to, at that version or a higher
    one; heads written at the new count stay.  Before the last round the drain
    is under way and no table has lost a head, those of the old count
    included; with the last one the old count's tables are gone and the drain
    is over. *)
Theorem reshard_keeps_every_head (r : HeadRegistry) (w : View) (from to : Z) (batches : list (list (ShardKey * RegistryState))) :
  tables_ok r -> index_ok r -> load_gen r = Some from -> shard_bits w = to -> from <> to ->
  (0 < length batches <= 19)%nat -> Forall typed_writes batches ->
  let r' := rounds w r batches in
  load_gen r' = Some to /\
  (forall sk k, bits sk = from -> at_least (head_at r' (moved to (rtype sk) k) k) (head_at r sk k)) /\
  (forall ws sk st e, ws ∈ batches -> (sk, st) ∈ ws -> e ∈ entries st -> verify_entry e = true ->
    let home := if bool_decide (bits sk = from) then moved to (rtype sk) (entry_key e) else sk in
    bits home = to -> at_least (head_at r' home (entry_key e)) (Some e)) /\
  if (length batches =? 19)%nat then draining r' = None /\ forall sk, bits sk = from -> shards r' !! sk = None
  else draining r' = Some (from, Z.of_nat (length batches) - 1) /\
    (forall sk k, at_least (head_at r' sk k) (head_at r sk k)) /\
    (forall ws sk st e, ws ∈ batches -> (sk, st) ∈ ws -> e ∈ entries st -> verify_entry e = true -> at_least (head_at r' sk (entry_key e)) (Some e)).
Proof.
  intros Hr Hi Hg Hw Hne Hl Ht r'.
  assert (Hto : 1 <= to <= 12).
  { subst to. unfold shard_bits, resolve_shard_bits, DEFAULT_SHARD_BITS, MAX_SHARD_BITS. destruct (governed w) as [v|]; [|lia].
    destruct (Z.ltb_spec v 1); [lia|]. destruct (Z.ltb_spec 12 v); lia. }
  assert (Hp : phase from to 0 r) by (constructor; try done; lia).
  destruct (rounds_cover from to w Hne Hw Hto batches 0 r ltac:(lia) Hp Ht) as ([_ _ Hlg Hdr Hdone] & _ & Hc & Hws & Hall). cbn [Nat.add] in *.
  assert (Hnil : batches <> []) by (intros ->; cbn in Hl; lia).
  split; [unfold r'; rewrite Hlg; destruct (Nat.eqb_spec (length batches) 0); [lia|done]|]. split; [by apply Hc|]. split; [exact Hws|].
  destruct (Nat.eqb_spec (length batches) 19) as [E|E]; [by apply Hdone|]. split; [apply Hdr; lia|]. destruct Hall as [Hgr Hw']; [lia|]. split; [exact Hgr|exact Hw'].
Qed.

(** What becomes of a submission.  A writer refuses one that does not
    decode, one whose owner's signature fails and one whose name is over 32
    bytes, each for that reason and without writing it.  Any other is
    acknowledged, and its name then holds the newer of the head it had and the
    one submitted; so one with a version that does not advance is acknowledged
    too, and changes nothing. *)
Theorem submission_outcomes (r : HeadRegistry) (w : View) (sk : ShardKey) (b : bytes) :
  let r1 := ensure_current r w sk in
  match from_bytes b with
  | None => advance_local r w sk b = (Err BadSubmission, r1)
  | Some sub =>
      if negb (verify_submission sub) then advance_local r w sk b = (Err RejectedSignature, r1)
      else if (MAX_NAME_LEN <? length (sub_name sub))%nat then advance_local r w sk b = (Err NameTooLong, r1)
      else exists root r2, advance_local r w sk b = (Ok root, r2) /\
        (0 <= sub_version sub <= I64_MAX ->
         let e := mk_entry (sub_owner sub) (sub_name sub) (sub_cid sub) (sub_version sub) (sub_signature sub) in
         forall sk' k, head_at r2 sk' k = if bool_decide (sk' = sk /\ k = entry_key e) then newer (head_at r1 sk' k) (Some e) else head_at r1 sk' k)
  end.
Proof.
  cbv zeta. unfold advance_local. destruct (from_bytes b) as [sub|]; [|done]. destruct (negb (verify_submission sub)); [done|].
  destruct (_ <? _)%nat; [done|]. set (e := mk_entry _ _ _ _ _). pose proof (sql_upsert_head (ensure_current r w sk) sk e) as Hu.
  destruct (sql_upsert (ensure_current r w sk) sk e) as [root r2]. exists root, (replicate r2 sk). split; [done|].
  intros Hv sk' k. rewrite replicate_head. by apply Hu.
Qed.
End reshard.

(** ** Instances *)

(** The table as a map from owner and name. *)
Definition map_db : HeadsDb := {|
  Db := gmap (key * bytes) (bytes * Z * bytes);
  db_empty := ∅;
  db_get := fun d o n => d !! (o, n);
  db_upsert := fun d e =>
    match d !! (owner e, name e) with
    | Some (_, v, _) => if v <? version e then <[(owner e, name e) := (cid e, version e, signature e)]> d else d
    | None => <[(owner e, name e) := (cid e, version e, signature e)]> d
    end;
  db_rows := fun d => map (fun '(o, n, (c, v, s)) => (o, n, c, v, s)) (map_to_list d);
  db_root := fun d => key_of (Z.of_nat (size d) mod 256)
|}.

Lemma map_db_laws : @HeadsDbLaws map_db.
Proof.
  constructor; cbn.
  - intros o n. apply lookup_empty.
  - intros d e o n _. destruct (d !! (owner e, name e)) as [[[c v] s]|] eqn:E.
    + destruct (v <? version e) eqn:Ev; case_bool_decide as Hk; try done.
      * injection Hk as -> ->. by rewrite lookup_insert_eq, E, Ev.
      * by rewrite lookup_insert_ne.
      * injection Hk as -> ->. by rewrite E, Ev.
    + case_bool_decide as Hk; [injection Hk as -> ->; by rewrite lookup_insert_eq, E|by rewrite lookup_insert_ne].
  - intros d o n c v s. rewrite list_elem_of_fmap. split.
    + intros ([[o' n'] [[c' v'] s']] & [= -> -> -> -> ->] & Hin). by apply elem_of_map_to_list in Hin.
    + intros Hin. exists ((o, n), (c, v, s)). split; [done|]. by apply elem_of_map_to_list.
  - intros d. rewrite map_map, (map_ext _ fst) by (by intros [[o n] [[c v] s]]). apply NoDup_fst_map_to_list.
Qed.

#[local] Existing Instances toy_ed25519 toy_blake3 map_db map_db_laws countable_codec countable_codec_laws.

(** The submission of one name, known by its version; states do not travel. *)
#[local] Instance sub_codec : Postcard HeadSubmission := {|
  to_allocvec := fun s => [sub_version s];
  from_bytes := fun b => match b with [v] => Some (@sign_head toy_ed25519 1 [110] (key_of 5) v) | _ => None end
|}.
#[local] Instance state_codec : Postcard RegistryState := {| to_allocvec := fun _ => []; from_bytes := fun _ => None |}.

(** A peer, key 2, answers every question about a name with a head it signed
    itself. *)
Definition own_head : HeadEntry :=
  let s := @sign_head toy_ed25519 2 [120] (key_of 66) 9 in mk_entry (sub_owner s) (sub_name s) (sub_cid s) (sub_version s) (sub_signature s).

Definition ex_view (b : Z) : View := mk_view [key_of 2] 0 (Some b) false
  (fun i req => match req with Resolve _ _ _ _ => Some (Resolved (Some own_head)) | _ => None end).

Definition ex_id : @NodeIdentity toy_ed25519 := 3.
Definition ex_boot : HeadRegistry := backfill_held_if_needed (open_registry ex_id ∅ [] (le_bytes 4 8)) (ex_view 8).
Definition ex_old : ShardKey := mk_sk RT_PROGRAM 8 (shard_of (key_of 1) [110] 8).
Definition ex_reg : HeadRegistry := sql_merge ex_boot ex_old (mk_registry [ex_head 1]).

Lemma ex_head_good : typed (ex_head 1) /\ verify_entry (ex_head 1) = true.
Proof. split; [split; [reflexivity|split; [reflexivity|vm_compute; split; discriminate]]|vm_compute; reflexivity]. Qed.

Lemma ex_boot_ok : tables_ok ex_boot /\ index_ok ex_boot.
Proof. destruct (backfill_index ex_id (ex_view 8) (le_bytes 4 8)) as [Hi Hs]. split; [|exact Hi]. intros sk d. unfold ex_boot. by rewrite Hs. Qed.

Lemma ex_reg_ok :
  tables_ok ex_reg /\ index_ok ex_reg /\ load_gen ex_reg = Some 8 /\ exists e, head_at ex_reg ex_old (entry_key (ex_head 1)) = Some e /\ 7 <= version e.
Proof.
  destruct ex_boot_ok as [Ht Hi]. destruct ex_head_good as [Hty Hv].
  destruct (sql_merge_spec ex_boot ex_old (mk_registry [ex_head 1]) Ht) as (Ht' & _ & Hc); [by apply Forall_singleton|].
  split; [exact Ht'|]. split; [by apply sql_merge_index|]. split.
  - unfold ex_reg. rewrite sql_merge_load_gen. reflexivity.
  - destruct (Hc (ex_head 1) ltac:(by apply list_elem_of_singleton) Hv _ eq_refl) as (e & He & Hle). exists e. split; [exact He|exact Hle].
Qed.

Lemma shard_tables_refine_registry_witness :
  sql_state (sql_merge ex_boot ex_old (mk_registry [ex_head 1])) ex_old = merge (sql_state ex_boot ex_old) (mk_registry [ex_head 1]).
Proof.
  destruct (shard_tables_refine_registry ex_boot ex_old (mk_registry [ex_head 1])) as (_ & E & _).
  - exact (proj1 ex_boot_ok).
  - apply Forall_singleton. exact (proj1 ex_head_good).
  - exact E.
Defined.

(** The head moves to the new count; after eighteen rounds it is still at the
    old one too, after nineteen the old table is gone. *)
Lemma reshard_keeps_every_head_witness :
  (exists e, head_at (rounds (ex_view 9) ex_reg (repeat [] 19)) (moved 9 RT_PROGRAM (entry_key (ex_head 1))) (entry_key (ex_head 1)) = Some e /\ 7 <= version e) /\
  shards (rounds (ex_view 9) ex_reg (repeat [] 19)) !! ex_old = None /\
  exists e, head_at (rounds (ex_view 9) ex_reg (repeat [] 18)) ex_old (entry_key (ex_head 1)) = Some e /\ 7 <= version e.
Proof.
  destruct ex_reg_ok as (Ht & Hi & Hg & e & He & Hv).
  destruct (reshard_keeps_every_head ex_reg (ex_view 9) 8 9 (repeat [] 19) Ht Hi Hg eq_refl ltac:(lia) ltac:(cbn; lia) ltac:(repeat constructor)) as (_ & Hc & _ & _ & Hgone).
  destruct (reshard_keeps_every_head ex_reg (ex_view 9) 8 9 (repeat [] 18) Ht Hi Hg eq_refl ltac:(lia) ltac:(cbn; lia) ltac:(repeat constructor)) as (_ & _ & _ & _ & Hstay & _).
  split; [|split].
  - destruct (Hc ex_old (entry_key (ex_head 1)) eq_refl e He) as (e' & He' & Hle). exists e'. split; [exact He'|lia].
  - apply Hgone. reflexivity.
  - destruct (Hstay ex_old (entry_key (ex_head 1)) e He) as (e' & He' & Hle). exists e'. split; [exact He'|lia].
Defined.

Lemma held_index_survives_restart_witness :
  let r := (serve ex_boot (ex_view 8) (Submit RT_PROGRAM 8 [7])).2 in
  held_set (open_registry ex_id (shards r) (held_marker r) (gen_marker r)) = dom (shards r).
Proof.
  intros r. apply (held_index_survives_restart ex_id (ex_view 8) (le_bytes 4 8) r). apply rtc_once, step_serve.
Defined.

Lemma submission_outcomes_witness : exists root r2, advance_local ex_boot (ex_view 8) ex_old [7] = (Ok root, r2).
Proof.
  pose proof (submission_outcomes ex_boot (ex_view 8) ex_old [7]) as Ho. cbv zeta in Ho.
  replace (from_bytes [7]) with (Some (@sign_head toy_ed25519 1 [110] (key_of 5) 7)) in Ho by reflexivity.
  replace (verify_submission (@sign_head toy_ed25519 1 [110] (key_of 5) 7)) with true in Ho by (vm_compute; reflexivity).
  cbn [negb] in Ho. replace (MAX_NAME_LEN <? _)%nat with false in Ho by (vm_compute; reflexivity).
  destruct Ho as (root & r2 & E & _). exists root, r2. exact E.
Defined.

(** A resolve accepts a head of another owner and another name: the answer of a
    remote replica is checked for its own owner's signature only, not against
    the owner and the name that were asked for. *)
Example remote_answer_for_another_owner_accepted :
  owner own_head = key_of 2 /\ name own_head = [120] /\
  (resolve_entry ex_boot (ex_view 8) RT_PROGRAM (key_of 1) [110]).1 = Some (key_of 66, 9).
Proof. split; [reflexivity|]. split; [reflexivity|]. vm_compute. reflexivity. Qed.
