(* ===== verification/PieceStore.v ===== *)
(** The piece store ([crates/store/src/lib.rs]): generations, coded pieces,
    whole content, pins and markers of each cid, with the index in memory and
    the files behind it; tombstones, wants, eviction and its cooldown.

    The disk is what [reload] can see of the directory tree: a record per cid
    directory and a set or map per marker directory, keyed by the cid the hex
    name stands for.  Disk operations succeed.  Clock readings ([now] in
    nanoseconds, [secs] in seconds) and the random tape are arguments; a sum
    of sizes beyond u64 panics, and is [None]. *)

From S2P Require Import Prelude Crypto Gf Linear Erasure Token.

Open Scope Z_scope.

Record Generation := mk_gen { g_k : Z; g_piece_len : Z; g_total_len : Z; g_vtags : bytes }.

#[global] Instance Generation_eq_dec : EqDecision Generation.
Proof. solve_decision. Defined.

Inductive StoreError := Tombstoned | NoGeneration | ErasureErr (e : ErasureError).

Record CidState := mk_cstate {
  gen : Generation;
  piece_ids : gset key;
  pinned : bool;
  system : bool;
  not_holdings : bool;
  has_content : bool;
  last_access : Z
}.

(** Plain [a * b] on u64: [None] is the overflow panic. *)
Definition mul_u64 (a b : Z) : option Z := if a * b <=? U64_MAX then Some (a * b) else None.

(** [CidState::bytes]. *)
Definition state_bytes (s : CidState) : option Z :=
  pb ← mul_u64 (Z.of_nat (size (piece_ids s))) (g_piece_len (gen s));
  checked_add pb (if has_content s then g_total_len (gen s) else 0).

(** The files of a cid's directory. *)
Record CidDir := mk_dir {
  f_meta : option bytes;
  f_pieces : gmap key bytes;
  f_content : option bytes;
  f_pinned : bool;
  f_system : bool;
  f_not_holdings : bool
}.

Definition new_dir : CidDir := mk_dir None ∅ None false false false.

Record Disk := mk_disk {
  d_cid : gmap key CidDir;
  d_tombstones : gset key;
  d_wanted : gset key;
  d_distributed : gset key;
  d_evicted : gmap key bytes
}.

Record Store := mk_store {
  disk : Disk;
  index : gmap key CidState;
  tombstones : gset key;
  wanted : gset key;
  distributed : gset key;
  evicted : gmap key Z
}.

(** ** Text of a timestamp *)

Definition is_space (c : Z) : bool := (c =? 32) || ((9 <=? c) && (c <=? 13)).

Fixpoint trim_start (s : bytes) : bytes :=
  match s with c :: s' => if is_space c then trim_start s' else s | [] => [] end.
Definition trim (s : bytes) : bytes := rev (trim_start (rev (trim_start s))).

(** [str::parse::<u64>]. *)
Definition parse_u64 (s : bytes) : option Z :=
  let d := match s with 43 :: d => d | _ => s end in
  if bool_decide (d = []) || negb (forallb (fun c => (48 <=? c) && (c <=? 57)) d) then None
  else let v := value d in if v <=? U64_MAX then Some v else None.

Definition read_ts (b : bytes) : Z := default 0 (parse_u64 (trim b)).

(** ** Content as sources *)

Fixpoint chunks (fuel n : nat) (l : bytes) : list bytes :=
  match fuel with
  | O => []
  | S fuel' => if bool_decide (l = []) then [] else take n l :: chunks fuel' n (drop n l)
  end.

(** [Vec::resize(n, 0)]. *)
Definition resize0 (n : nat) (l : bytes) : bytes := take n l ++ replicate (n - length l) 0.

(** A chunk is not empty, so there are at most as many as bytes. *)
Definition split_sources (content : bytes) (k piece_len : nat) : list bytes :=
  let sources := chunks (length content) (Nat.max piece_len 1) content in
  let sources := sources ++ replicate (k - length sources) (replicate piece_len 0) in
  map (resize0 piece_len) sources.

Section store.
Context `{Blake3} `{Postcard Generation}.

Definition piece_id (p : CodedPiece) : key := blake3 (coding_vector p ++ data p).

(** ** Opening *)

Definition entry_of (now : Z) (d : CidDir) : option CidState :=
  m ← f_meta d; g ← from_bytes m;
  Some (mk_cstate g (dom (f_pieces d)) (f_pinned d) (f_system d) (f_not_holdings d) (bool_decide (is_Some (f_content d))) now).

Definition reload (d : Disk) (now : Z) : Store :=
  mk_store d (omap (entry_of now) (d_cid d)) (d_tombstones d) (d_wanted d) (d_distributed d) (read_ts <$> d_evicted d).

Definition empty_disk : Disk := mk_disk ∅ ∅ ∅ ∅ ∅.

(** ** Updates of parts *)

Definition with_dir (s : Store) (c : key) (f : CidDir -> CidDir) : Store :=
  let d := disk s in
  mk_store (mk_disk (<[c := f (default new_dir (d_cid d !! c))]> (d_cid d)) (d_tombstones d) (d_wanted d) (d_distributed d) (d_evicted d))
    (index s) (tombstones s) (wanted s) (distributed s) (evicted s).
(** Removing a file does not create its directory. *)
Definition in_dir (s : Store) (c : key) (f : CidDir -> CidDir) : Store :=
  let d := disk s in
  mk_store (mk_disk (alter f c (d_cid d)) (d_tombstones d) (d_wanted d) (d_distributed d) (d_evicted d))
    (index s) (tombstones s) (wanted s) (distributed s) (evicted s).
Definition drop_dir (s : Store) (c : key) : Store :=
  let d := disk s in
  mk_store (mk_disk (delete c (d_cid d)) (d_tombstones d) (d_wanted d) (d_distributed d) (d_evicted d))
    (index s) (tombstones s) (wanted s) (distributed s) (evicted s).
Definition with_index (s : Store) (i : gmap key CidState) : Store :=
  mk_store (disk s) i (tombstones s) (wanted s) (distributed s) (evicted s).

Definition dir_meta (b : bytes) (d : CidDir) : CidDir := mk_dir (Some b) (f_pieces d) (f_content d) (f_pinned d) (f_system d) (f_not_holdings d).
Definition dir_pieces (p : gmap key bytes) (d : CidDir) : CidDir := mk_dir (f_meta d) p (f_content d) (f_pinned d) (f_system d) (f_not_holdings d).
Definition dir_content (b : bytes) (d : CidDir) : CidDir := mk_dir (f_meta d) (f_pieces d) (Some b) (f_pinned d) (f_system d) (f_not_holdings d).
Definition dir_pinned (b : bool) (d : CidDir) : CidDir := mk_dir (f_meta d) (f_pieces d) (f_content d) b (f_system d) (f_not_holdings d).
Definition dir_system (b : bool) (d : CidDir) : CidDir := mk_dir (f_meta d) (f_pieces d) (f_content d) (f_pinned d) b (f_not_holdings d).
Definition dir_not_holdings (d : CidDir) : CidDir := mk_dir (f_meta d) (f_pieces d) (f_content d) (f_pinned d) (f_system d) true.

Definition touch (now : Z) (st : CidState) : CidState := mk_cstate (gen st) (piece_ids st) (pinned st) (system st) (not_holdings st) (has_content st) now.
Definition st_pieces (p : gset key) (st : CidState) : CidState := mk_cstate (gen st) p (pinned st) (system st) (not_holdings st) (has_content st) (last_access st).
Definition st_pinned (b : bool) (st : CidState) : CidState := mk_cstate (gen st) (piece_ids st) b (system st) (not_holdings st) (has_content st) (last_access st).
Definition st_system (b : bool) (st : CidState) : CidState := mk_cstate (gen st) (piece_ids st) (pinned st) b (not_holdings st) (has_content st) (last_access st).
Definition st_not_holdings (st : CidState) : CidState := mk_cstate (gen st) (piece_ids st) (pinned st) (system st) true (has_content st) (last_access st).
Definition st_content (p : bool) (st : CidState) : CidState := mk_cstate (gen st) (piece_ids st) (pinned st || p) (system st) (not_holdings st) true (last_access st).

(** ** Operations *)

Definition is_tombstoned (s : Store) (c : key) : bool := bool_decide (c ∈ tombstones s).

Definition put_generation (s : Store) (c : key) (g : Generation) (now : Z) : result () StoreError * Store :=
  if is_tombstoned s c then (Err Tombstoned, s)
  else
    let s := with_dir s c (dir_meta (to_allocvec g)) in
    (Ok (), match index s !! c with
            | Some _ => s
            | None => with_index s (<[c := mk_cstate g ∅ false false false false now]> (index s))
            end).

Definition piece_bytes (p : CodedPiece) : bytes :=
  be_bytes 4 (as_u32 (Z.of_nat (length (coding_vector p)))) ++ coding_vector p ++ data p.

Definition put_piece (s : Store) (c : key) (p : CodedPiece) (now : Z) : result key StoreError * Store :=
  if is_tombstoned s c then (Err Tombstoned, s)
  else
    let pid := piece_id p in
    let s := with_dir s c (fun d => dir_pieces (<[pid := piece_bytes p]> (f_pieces d)) d) in
    (Ok pid, with_index s (alter (fun st => touch now (st_pieces ({[pid]} ∪ piece_ids st) st)) c (index s))).

Definition remove_piece (s : Store) (c pid : key) (now : Z) : bool * Store :=
  let existed := match d_cid (disk s) !! c with Some d => bool_decide (is_Some (f_pieces d !! pid)) | None => false end in
  let s := in_dir s c (fun d => dir_pieces (delete pid (f_pieces d)) d) in
  (existed, with_index s (alter (fun st => touch now (st_pieces (piece_ids st ∖ {[pid]}) st)) c (index s))).

Definition put_content (s : Store) (c : key) (content : bytes) (pin : bool) (now : Z) : result () StoreError * Store :=
  if is_tombstoned s c then (Err Tombstoned, s)
  else if negb (bool_decide (is_Some (index s !! c))) then (Err NoGeneration, s)
  else
    let s := with_dir s c (dir_content content) in
    let s := if pin then with_dir s c (dir_pinned true) else s in
    (Ok (), with_index s (alter (fun st => touch now (st_content pin st)) c (index s))).

Definition pin (s : Store) (c : key) (content : bytes) (now : Z) : result () StoreError * Store := put_content s c content true now.

Definition unpin (s : Store) (c : key) : Store :=
  let s := in_dir s c (dir_pinned false) in with_index s (alter (st_pinned false) c (index s)).

Definition mark_system (s : Store) (c : key) : Store :=
  let s := with_dir s c (dir_system true) in with_index s (alter (st_system true) c (index s)).
Definition unmark_system (s : Store) (c : key) : Store :=
  let s := in_dir s c (dir_system false) in with_index s (alter (st_system false) c (index s)).
Definition mark_not_holdings (s : Store) (c : key) : Store :=
  let s := with_dir s c dir_not_holdings in with_index s (alter st_not_holdings c (index s)).

Definition is_pinned (s : Store) (c : key) : bool := match index s !! c with Some st => pinned st | None => false end.
Definition is_system (s : Store) (c : key) : bool := match index s !! c with Some st => system st | None => false end.
Definition holds_content (s : Store) (c : key) : bool := match index s !! c with Some st => has_content st | None => false end.
Definition generation (s : Store) (c : key) : option Generation := gen <$> index s !! c.
Definition piece_count (s : Store) (c : key) : nat := match index s !! c with Some st => size (piece_ids st) | None => 0%nat end.
Definition cids (s : Store) : gset key := dom (index s).
Definition content_cids (s : Store) : gset key := dom (filter (fun e : key * CidState => not_holdings e.2 = false) (index s)).

(** [content] marks the access. *)
Definition content (s : Store) (c : key) (now : Z) : option bytes * Store :=
  match index s !! c with
  | None => (None, s)
  | Some st =>
      if negb (has_content st) then (None, s)
      else (d_cid (disk s) !! c ≫= f_content, with_index s (<[c := touch now st]> (index s)))
  end.

Definition read_piece (s : Store) (c pid : key) : option CodedPiece :=
  d ← d_cid (disk s) !! c; b ← f_pieces d !! pid;
  if (length b <? 4)%nat then None
  else
    let vlen := Z.to_nat (foldl (fun a x => a * 256 + x) 0 (take 4 b)) in
    if (length b <? 4 + vlen)%nat then None else Some (mk_piece (take vlen (drop 4 b)) (drop (4 + vlen) b)).

(** The loop over held pieces: stops as soon as [max] are in hand. *)
Fixpoint read_held (s : Store) (c : key) (max : nat) (pids : list key) (out : list CodedPiece) : list CodedPiece :=
  match pids with
  | [] => out
  | pid :: pids' =>
      if (max <=? length out)%nat then out
      else read_held s c max pids' (match read_piece s c pid with Some p => out ++ [p] | None => out end)
  end.

(** The top-up by fresh encodings; a draw consumes the tape. *)
Fixpoint top_up (fuel : nat) (sources : list bytes) (exclude : gset key) (max : nat) (t : tape) (out : list CodedPiece) : option (result (list CodedPiece) StoreError * tape) :=
  match fuel with
  | O => None
  | S fuel' =>
      if (max <=? length out)%nat then Some (Ok out, t)
      else match encode sources t with
           | None => None
           | Some (Err e, t) => Some (Err (ErasureErr e), t)
           | Some (Ok p, t) => top_up fuel' sources exclude max t (if bool_decide (piece_id p ∈ exclude) then out else out ++ [p])
           end
  end.

Definition serve_pieces (s : Store) (c : key) (exclude : gset key) (max : nat) (now : Z) (t : tape) : option (result (list CodedPiece) StoreError * Store * tape) :=
  match index s !! c with
  | None => Some (Ok [], s, t)
  | Some st =>
      let s := with_index s (<[c := touch now st]> (index s)) in
      let out := read_held s c max (elements (piece_ids st ∖ exclude)) [] in
      if (length out <? max)%nat && has_content st then
        match content s c now with
        | (Some b, s) =>
            '(r, t) ← top_up (S (max + length t)) (split_sources b (Z.to_nat (g_k (gen st))) (Z.to_nat (g_piece_len (gen st)))) exclude max t out;
            Some (r, s, t)
        | (None, s) => Some (Ok out, s, t)
        end
      else Some (Ok out, s, t)
  end.

Definition mint_from_content (s : Store) (c : key) (now : Z) (t : tape) : option (option CodedPiece * Store * tape) :=
  match generation s c with
  | None => Some (None, s, t)
  | Some g =>
      match content s c now with
      | (None, s) => Some (None, s, t)
      | (Some b, s) =>
          '(r, t) ← encode (split_sources b (Z.to_nat (g_k g)) (Z.to_nat (g_piece_len g))) t;
          Some (match r with Ok p => Some p | Err _ => None end, s, t)
      end
  end.

(** ** Deletion, wants, distribution *)

Definition with_marks (s : Store) (dt dw dd : gset key) (de : gmap key bytes) (t w d : gset key) (e : gmap key Z) : Store :=
  mk_store (mk_disk (d_cid (disk s)) dt dw dd de) (index s) t w d e.

Definition tombstone (s : Store) (c : key) : Store :=
  let d := disk s in
  let s := with_marks s ({[c]} ∪ d_tombstones d) (d_wanted d) (d_distributed d) (d_evicted d) ({[c]} ∪ tombstones s) (wanted s) (distributed s) (evicted s) in
  drop_dir (with_index s (delete c (index s))) c.
Definition untombstone (s : Store) (c : key) : Store :=
  let d := disk s in
  with_marks s (d_tombstones d ∖ {[c]}) (d_wanted d) (d_distributed d) (d_evicted d) (tombstones s ∖ {[c]}) (wanted s) (distributed s) (evicted s).
Definition forget (s : Store) (c : key) : Store :=
  let d := disk s in
  let s := with_index s (delete c (index s)) in
  let s := with_marks s (d_tombstones d) (d_wanted d ∖ {[c]}) (d_distributed d ∖ {[c]}) (d_evicted d) (tombstones s) (wanted s ∖ {[c]}) (distributed s ∖ {[c]}) (evicted s) in
  drop_dir s c.
Definition set_want (s : Store) (c : key) : Store :=
  let d := disk s in
  with_marks s (d_tombstones d) ({[c]} ∪ d_wanted d) (d_distributed d) (d_evicted d) (tombstones s) ({[c]} ∪ wanted s) (distributed s) (evicted s).
Definition unset_want (s : Store) (c : key) : Store :=
  let d := disk s in
  with_marks s (d_tombstones d) (d_wanted d ∖ {[c]}) (d_distributed d) (d_evicted d) (tombstones s) (wanted s ∖ {[c]}) (distributed s) (evicted s).
Definition set_distributed (s : Store) (c : key) : Store :=
  let d := disk s in
  with_marks s (d_tombstones d) (d_wanted d) ({[c]} ∪ d_distributed d) (d_evicted d) (tombstones s) (wanted s) ({[c]} ∪ distributed s) (evicted s).
Definition is_wanted (s : Store) (c : key) : bool := bool_decide (c ∈ wanted s).
Definition is_distributed (s : Store) (c : key) : bool := bool_decide (c ∈ distributed s).

(** ** Eviction *)

Definition is_in_cooldown (s : Store) (c : key) (ttl_secs secs : Z) : bool :=
  match evicted s !! c with Some ts => sat_sub secs ts <? ttl_secs | None => false end.
Definition record_eviction (s : Store) (c : key) (secs : Z) : Store :=
  let d := disk s in
  with_marks s (d_tombstones d) (d_wanted d) (d_distributed d) (<[c := digits secs]> (d_evicted d)) (tombstones s) (wanted s) (distributed s) (<[c := secs]> (evicted s)).
Definition clear_cooldown (s : Store) (c : key) : Store :=
  let d := disk s in
  with_marks s (d_tombstones d) (d_wanted d) (d_distributed d) (delete c (d_evicted d)) (tombstones s) (wanted s) (distributed s) (delete c (evicted s)).
Definition purge_cooldown (s : Store) (ttl_secs secs : Z) : Store :=
  let expired := filter (fun e : key * Z => ttl_secs <= sat_sub secs e.2) (evicted s) in
  foldl clear_cooldown s (map fst (map_to_list expired)).

(** The sum of the sizes, under overflow checks. *)
Fixpoint sum_bytes (l : list CidState) : option Z :=
  match l with [] => Some 0 | st :: l' => t ← sum_bytes l'; b ← state_bytes st; checked_add t b end.

Definition total_bytes (s : Store) : option Z := sum_bytes (map snd (map_to_list (index s))).

(** The candidates with their access time and size, and the choice. *)
Definition candidates (s : Store) : list (Z * Z * key) :=
  sort_by (le_on (fun x : Z * Z * key => x.1.1))
    (map (fun '(c, st) => (last_access st, default 0 (state_bytes st), c))
      (filter (fun e : key * CidState => pinned e.2 = false /\ system e.2 = false) (map_to_list (index s)))).

Fixpoint choose (target total : Z) (l : list (Z * Z * key)) : list key :=
  match l with
  | [] => []
  | (_, b, c) :: l' => if total <=? target then [] else c :: choose target (sat_sub total b) l'
  end.

Definition evict_one (secs : Z) (st : Z * Store) (c : key) : Z * Store :=
  let '(freed, s) := st in
  let freed := match index s !! c with Some e => freed + default 0 (state_bytes e) | None => freed end in
  (freed, record_eviction (drop_dir (with_index s (delete c (index s))) c) c secs).

Definition evict_to (s : Store) (target secs : Z) : option (Z * Store) :=
  total ← total_bytes s;
  if total <=? target then Some (0, s)
  else Some (foldl (evict_one secs) (0, s) (choose target total (candidates s))).

Record StoreStats := mk_stats { n_cids : nat; n_pieces : nat; n_pinned : nat; n_bytes : Z }.

Definition stats (s : Store) : option StoreStats :=
  let l := map snd (map_to_list (index s)) in
  b ← sum_bytes l;
  Some (mk_stats (length l) (sum_list_with (fun st => size (piece_ids st)) l) (length (filter (fun st => pinned st = true) l)) b).
End store.
