(* ===== verification/PieceStoreDisk.v ===== *)
(** The piece store's index and its files ([PieceStore]): what a reopened store
    sees, that tombstoned content stays out, and what eviction may take. *)

From S2P Require Import Prelude Crypto Gf Linear Erasure Token PieceStore.

Open Scope Z_scope.

(** ** Timestamps read back *)

Lemma digits_nonempty n : digits n <> [].
Proof.
  unfold digits. assert (Hl : forall fuel m acc, (0 < fuel)%nat \/ acc <> [] -> digits_loop fuel m acc <> []).
  { induction fuel as [|fuel IH]; intros m acc Ha; cbn; [destruct Ha; [lia|done]|]. destruct (_ =? _); [done|]. apply IH. by right. }
  apply Hl. left. lia.
Qed.

Lemma trim_digits d : is_digits d -> trim d = d.
Proof.
  intros Hd. assert (Ht : forall l, is_digits l -> trim_start l = l).
  { intros [|c l] Hl; [done|]. cbn. apply Forall_cons_iff in Hl as [Hc _]. unfold is_space.
    destruct (Z.eqb_spec c 32); [lia|]. destruct (Z.leb_spec 9 c), (Z.leb_spec c 13); try done; lia. }
  unfold trim. rewrite (Ht d Hd), Ht; [apply rev_involutive|]. unfold is_digits in *. by apply Forall_rev.
Qed.

Lemma read_ts_digits n : is_u64 n -> read_ts (digits n) = n.
Proof.
  intros Hn. destruct (digits_spec n) as (Hv & Hd & _); [unfold_int; lia|]. unfold read_ts. rewrite trim_digits by done. unfold parse_u64.
  assert (Hm : match digits n with 43 :: d => d | _ => digits n end = digits n).
  { destruct (digits n) as [|c l]; [done|]. apply Forall_cons_iff in Hd as [Hc _]. destruct (decide (c = 43)); [lia|].
    destruct c as [|p|p]; try done. repeat (destruct p as [p|p|]; try done). }
  rewrite Hm, bool_decide_false by apply digits_nonempty. cbn [orb].
  assert (forallb (fun c => (48 <=? c) && (c <=? 57)) (digits n) = true) as ->.
  { apply forallb_forall. intros c Hc. unfold is_digits in Hd. rewrite list.Forall_forall in Hd. apply list_elem_of_In, Hd in Hc. lia. }
  cbn [negb]. rewrite Hv. unfold is_u64 in Hn. destruct (Z.leb_spec n U64_MAX); [done|lia].
Qed.

Section disk.
Context `{Blake3} `{PostcardLaws Generation}.

Implicit Type s : Store.

(** ** The index mirrors the files *)

(** The entry with another generation. *)
Definition st_gen (g : Generation) (st : CidState) : CidState :=
  mk_cstate g (piece_ids st) (pinned st) (system st) (not_holdings st) (has_content st) (last_access st).

(** The entry the files give: without its access time, and with the generation
    [w] that was last written for it. *)
Definition on_disk (w : option Generation) (st : CidState) : CidState := touch 0 (st_gen (default (gen st) w) st).

(** Everything in memory is on disk and the other way round, but for access
    times and for the generations, which are those last written; every
    directory has its generation; nothing held is tombstoned. *)
Record mirror (W : key -> option Generation) s : Prop := {
  mi_index : forall c, on_disk (W c) <$> index s !! c = d_cid (disk s) !! c ≫= entry_of 0;
  mi_orphan : forall c d, d_cid (disk s) !! c = Some d -> is_Some (entry_of 0 d);
  mi_tombs : tombstones s = d_tombstones (disk s);
  mi_wanted : wanted s = d_wanted (disk s);
  mi_distributed : distributed s = d_distributed (disk s);
  mi_evicted : evicted s = read_ts <$> d_evicted (disk s);
  mi_out : forall c, c ∈ tombstones s -> index s !! c = None
}.

Lemma entry_of_now now d : entry_of now d = touch now <$> entry_of 0 d.
Proof. unfold entry_of. destruct (f_meta d) as [m|]; [|done]. cbn. by destruct (from_bytes m). Qed.

Lemma mirror_some W s c st : mirror W s -> index s !! c = Some st -> exists d, d_cid (disk s) !! c = Some d /\ entry_of 0 d = Some (on_disk (W c) st).
Proof.
  intros Hm Hi. pose proof (mi_index _ _ Hm c) as E. rewrite Hi in E. destruct (d_cid (disk s) !! c) as [d|]; [|done]. by exists d.
Qed.

Lemma with_dir_in_dir s c f d : d_cid (disk s) !! c = Some d -> with_dir s c f = in_dir s c f.
Proof.
  intros Hd. unfold with_dir, in_dir. rewrite Hd. cbn. do 2 f_equal. apply map_eq. intros k. destruct (decide (k = c)) as [->|Hne].
  - by rewrite lookup_insert_eq, lookup_alter_eq, Hd.
  - by rewrite lookup_insert_ne, lookup_alter_ne.
Qed.

(** A change of an entry that does not look at its generation or access time. *)
Definition entry_change (g : CidState -> CidState) : Prop := forall w st, on_disk w (g st) = touch 0 (g (on_disk w st)).

(** A change of a cid's files and of its index entry that agree. *)
Lemma mirror_alter W s c f g :
  mirror W s -> entry_change g -> (forall d st, entry_of 0 d = Some (touch 0 st) -> entry_of 0 (f d) = Some (touch 0 (g st))) ->
  mirror W (with_index (in_dir s c f) (alter g c (index s))).
Proof.
  intros Hm Hg Hf. pose proof Hm as [Hi Ho Ht Hw Hd He Hout]. constructor; cbn [disk index tombstones wanted distributed evicted with_index in_dir d_cid d_tombstones d_wanted d_distributed d_evicted]; try done.
  - intros k. destruct (decide (k = c)) as [->|Hne]; [|by rewrite !lookup_alter_ne].
    rewrite !lookup_alter_eq. specialize (Hi c). specialize (Ho c). destruct (d_cid (disk s) !! c) as [d|]; cbn in *.
    + destruct (Ho d eq_refl) as [e Ee]. destruct (index s !! c) as [st|]; cbn in *; [|by rewrite Ee in Hi].
      rewrite Hg. symmetry. apply Hf. by rewrite <- Hi.
    + by destruct (index s !! c).
  - intros k d. destruct (decide (k = c)) as [->|Hne]; [|rewrite lookup_alter_ne by done; apply Ho].
    rewrite lookup_alter_eq. destruct (d_cid (disk s) !! c) as [d0|] eqn:Ed; cbn; [|done]. intros [= <-].
    destruct (Ho c d0 Ed) as [e Ee]. assert (Et : touch 0 e = e) by (unfold entry_of in Ee; destruct (f_meta d0) as [m|]; [|done]; cbn in Ee; destruct (from_bytes m); [|done]; by injection Ee as <-).
    rewrite <- Et in Ee. rewrite (Hf d0 e Ee). by eexists.
  - intros k Hk. destruct (decide (k = c)) as [->|Hne]; [|rewrite lookup_alter_ne by done; auto]. rewrite lookup_alter_eq. by rewrite Hout.
Qed.

Lemma mirror_alter_dir W s c f g :
  mirror W s -> is_Some (index s !! c) -> entry_change g -> (forall d st, entry_of 0 d = Some (touch 0 st) -> entry_of 0 (f d) = Some (touch 0 (g st))) ->
  mirror W (with_index (with_dir s c f) (alter g c (index s))).
Proof.
  intros Hm [st Hst] Hg Hf. destruct (mirror_some _ _ _ _ Hm Hst) as (d & Hd & _). rewrite (with_dir_in_dir _ _ _ _ Hd). by apply mirror_alter.
Qed.

(** Dropping a cid from both. *)
Lemma mirror_drop W s c : mirror W s -> mirror W (drop_dir (with_index s (delete c (index s))) c).
Proof.
  intros [Hi Ho Ht Hw Hd He Hout]. constructor; cbn; try done.
  - intros k. destruct (decide (k = c)) as [->|Hne]; [by rewrite !lookup_delete_eq|by rewrite !lookup_delete_ne].
  - intros k d [_ Hk]%lookup_delete_Some. by eapply Ho.
  - intros k Hk. destruct (decide (k = c)) as [->|Hne]; [apply lookup_delete_eq|rewrite lookup_delete_ne by done; auto].
Qed.

(** Marker sets that change alike in memory and on disk. *)
Lemma mirror_marks W s t w d de e :
  mirror W s -> e = read_ts <$> de -> (forall c, c ∈ t -> index s !! c = None) ->
  mirror W (with_marks s t w d de t w d e).
Proof. intros [Hi Ho Ht Hw Hd He Hout] -> Hnew. by constructor. Qed.

Ltac entry_cases := let st := fresh in intros ? st E; destruct st; unfold entry_of, touch, st_pieces, st_pinned, st_system, st_not_holdings, st_content in *; cbn in *;
  match type of E with context [f_meta ?d] => destruct (f_meta d) as [?m|]; [|done] end; cbn in *;
  match type of E with context [from_bytes ?m] => destruct (from_bytes m) as [?g|]; [|done] end; cbn in *.

(** What was last written, after a write for [c]. *)
Definition written (W : key -> option Generation) (c : key) (g : Generation) : key -> option Generation := fun k => if decide (k = c) then Some g else W k.

Lemma put_generation_mirror W s c g now :
  mirror W s -> is_tombstoned s c = false -> mirror (written W c g) (put_generation s c g now).2.
Proof.
  intros Hm Et. unfold put_generation. rewrite Et. apply bool_decide_eq_false in Et. cbn [snd].
  change (index (with_dir s c (dir_meta (to_allocvec g)))) with (index s).
  assert (Hw' : forall k, k <> c -> written W c g k = W k) by (intros; unfold written; by rewrite decide_False).
  assert (Hc' : written W c g c = Some g) by (unfold written; by rewrite decide_True).
  destruct (index s !! c) as [st|] eqn:Ei.
  - destruct (mirror_some _ _ _ _ Hm Ei) as (d & Hd & He). rewrite (with_dir_in_dir _ _ _ _ Hd).
    pose proof Hm as [Hi Ho Ht Hw Hdi Hev Hout]. constructor; cbn; try done.
    + intros k. destruct (decide (k = c)) as [->|Hne]; [|by rewrite lookup_alter_ne, Hw'].
      rewrite lookup_alter_eq, Hc', Ei, Hd. cbn. unfold entry_of in *. cbn. rewrite postcard_roundtrip. cbn.
      destruct (f_meta d) as [m|]; [|done]. cbn in He. destruct (from_bytes m); [|done]. cbn in He. by injection He as _ -> -> -> -> ->.
    + intros k d'. destruct (decide (k = c)) as [->|Hne]; [|rewrite lookup_alter_ne by done; apply Ho].
      rewrite lookup_alter_eq, Hd. cbn. intros [= <-]. unfold entry_of. cbn. rewrite postcard_roundtrip. by eexists.
  - pose proof (mi_index _ _ Hm c) as Hic. rewrite Ei in Hic. assert (Hnone : d_cid (disk s) !! c = None).
    { destruct (d_cid (disk s) !! c) as [d|] eqn:Ed; [|done]. destruct (mi_orphan _ _ Hm c d Ed) as [e Ee]. cbn in Hic. by rewrite Ee in Hic. }
    pose proof Hm as [Hi Ho Ht Hw Hd He Hout]. constructor; cbn; try done; rewrite ?Hnone; cbn.
    + intros k. destruct (decide (k = c)) as [->|Hne]; [|by rewrite !lookup_insert_ne, Hw']. rewrite !lookup_insert_eq, Hc'. cbn.
      unfold entry_of. cbn. by rewrite postcard_roundtrip.
    + intros k d [[<- <-]|[_ Hk]]%lookup_insert_Some; [|by eapply Ho]. unfold entry_of. cbn. rewrite postcard_roundtrip. by eexists.
    + intros k Hk. rewrite lookup_insert_ne; [auto|]. intros ->. done.
Qed.

Ltac same_entry := let st := fresh in intros [] st; by destruct st.

Lemma put_piece_mirror W s c p now : mirror W s -> is_Some (index s !! c) -> mirror W (put_piece s c p now).2.
Proof.
  intros Hm Hc. unfold put_piece. destruct (is_tombstoned s c); [done|]. cbn [snd]. apply (mirror_alter_dir W s); [done|done|same_entry|].
  entry_cases. injection E as <- <- <- <- <- <-. by rewrite dom_insert_L.
Qed.

Lemma remove_piece_mirror W s c pid now : mirror W s -> mirror W (remove_piece s c pid now).2.
Proof.
  intros Hm. unfold remove_piece. cbn [snd]. apply (mirror_alter W s); [done|same_entry|]. entry_cases. injection E as <- <- <- <- <- <-. by rewrite dom_delete_L.
Qed.

Lemma put_content_mirror W s c b p now : mirror W s -> mirror W (put_content s c b p now).2.
Proof.
  intros Hm. unfold put_content. destruct (is_tombstoned s c); [done|]. destruct (bool_decide (is_Some (index s !! c))) eqn:Ec; [|done]. cbn [negb snd].
  apply bool_decide_eq_true in Ec. destruct p.
  - destruct Ec as [st Hst]. destruct (mirror_some _ _ _ _ Hm Hst) as (d & Hd & _).
    assert (E2 : with_dir (with_dir s c (dir_content b)) c (dir_pinned true) = with_dir s c (fun d => dir_pinned true (dir_content b d))).
    { unfold with_dir. cbn. rewrite lookup_insert_eq. cbn. by rewrite insert_insert_eq. }
    rewrite E2. change (index (with_dir s c (fun d => dir_pinned true (dir_content b d)))) with (index s).
    apply mirror_alter_dir; [done|by eexists|same_entry|]. entry_cases. injection E as <- <- <- <- <- <-. by rewrite orb_true_r.
  - change (index (with_dir s c (dir_content b))) with (index s). apply mirror_alter_dir; [done|done|same_entry|].
    entry_cases. injection E as <- <- <- <- <- <-. by rewrite orb_false_r.
Qed.

Lemma touch_mirror W s c now st : mirror W s -> index s !! c = Some st -> mirror W (with_index s (<[c := touch now st]> (index s))).
Proof.
  intros [Hi Ho Ht Hw Hd He Hout] Hc. constructor; cbn; try done.
  - intros k. destruct (decide (k = c)) as [->|Hne]; [|by rewrite lookup_insert_ne]. rewrite lookup_insert_eq. cbn. rewrite <- Hi, Hc. done.
  - intros k Hk. rewrite lookup_insert_ne; [auto|]. intros <-. rewrite Hout in Hc; done.
Qed.

Lemma content_mirror W s c now : mirror W s -> mirror W (content s c now).2.
Proof.
  intros Hm. unfold content. destruct (index s !! c) as [st|] eqn:E; [|done]. destruct (negb (has_content st)); [done|]. by apply touch_mirror.
Qed.

Lemma markers_mirror W s c :
  mirror W s -> mirror W (unpin s c) /\ mirror W (unmark_system s c) /\ (is_Some (index s !! c) -> mirror W (mark_system s c) /\ mirror W (mark_not_holdings s c)).
Proof.
  intros Hm. split; [|split]; [apply (mirror_alter W s)..|intros Hc; split; apply (mirror_alter_dir W s)]; try done; try same_entry; entry_cases; by injection E as <- <- <- <- <- <-.
Qed.

Lemma tombstone_mirror W s c : mirror W s -> mirror W (tombstone s c).
Proof.
  intros Hm. unfold tombstone.
  assert (Hd : mirror W (drop_dir (with_index s (delete c (index s))) c)) by by apply mirror_drop.
  pose proof Hm as [_ _ Ht Hw Hdi He Hout]. rewrite <- Ht, <- Hw, <- Hdi.
  pose proof (mirror_marks W (drop_dir (with_index s (delete c (index s))) c) ({[c]} ∪ tombstones s) (wanted s) (distributed s) (d_evicted (disk s)) (evicted s) Hd He) as Hx.
  apply Hx. cbn. intros k [->%elem_of_singleton|Hk]%elem_of_union; [apply lookup_delete_eq|].
  destruct (decide (k = c)) as [->|Hne]; [apply lookup_delete_eq|rewrite lookup_delete_ne by done; auto].
Qed.

Lemma forget_mirror W s c : mirror W s -> mirror W (forget s c).
Proof.
  intros Hm. unfold forget. assert (Hd : mirror W (drop_dir (with_index s (delete c (index s))) c)) by by apply mirror_drop.
  pose proof Hm as [_ _ Ht Hw Hdi He Hout]. rewrite <- Ht, <- Hw, <- Hdi.
  pose proof (mirror_marks W (drop_dir (with_index s (delete c (index s))) c) (tombstones s) (wanted s ∖ {[c]}) (distributed s ∖ {[c]}) (d_evicted (disk s)) (evicted s) Hd He) as Hx.
  apply Hx. apply (mi_out _ _ Hd).
Qed.

Lemma sets_mirror W s c :
  mirror W s -> mirror W (untombstone s c) /\ mirror W (set_want s c) /\ mirror W (unset_want s c) /\ mirror W (set_distributed s c) /\ mirror W (clear_cooldown s c).
Proof.
  intros Hm. pose proof Hm as [_ _ Ht Hw Hd He Hout]. unfold untombstone, set_want, unset_want, set_distributed, clear_cooldown.
  rewrite <- Ht, <- Hw, <- Hd. split_and!; apply mirror_marks; try done.
  - intros k [Hk _]%elem_of_difference. auto.
  - by rewrite He, fmap_delete.
Qed.

Lemma record_eviction_mirror W s c secs : mirror W s -> is_u64 secs -> mirror W (record_eviction s c secs).
Proof.
  intros Hm Hs. pose proof Hm as [_ _ Ht Hw Hd He Hout]. unfold record_eviction. rewrite <- Ht, <- Hw, <- Hd. apply mirror_marks; try done.
  by rewrite He, fmap_insert, read_ts_digits.
Qed.

Lemma evict_mirror W s target secs freed s' : mirror W s -> is_u64 secs -> evict_to s target secs = Some (freed, s') -> mirror W s'.
Proof.
  intros Hm Hs. unfold evict_to. destruct (total_bytes s) as [t|]; [|done]. cbn. destruct (t <=? target); [by intros [= _ <-]|].
  assert (Hf : forall l z s0, mirror W s0 -> mirror W (foldl (evict_one secs) (z, s0) l).2).
  { induction l as [|c l IH]; intros z s0 Hm0; [done|]. cbn [foldl]. unfold evict_one at 2. apply IH. apply record_eviction_mirror; [|done]. by apply mirror_drop. }
  intros [= E]. specialize (Hf (choose target t (candidates s)) 0 s Hm). by rewrite E in Hf.
Qed.

(** ** Runs *)

(** An operation of the store as its callers use it: the generation of a cid
    is set before its pieces and markers. The step tells the generation it
    wrote, if any: a tombstoned cid is refused. *)
Inductive store_step : option (key * Generation) -> Store -> Store -> Prop :=
  | st_put_generation s c g now : is_tombstoned s c = false -> store_step (Some (c, g)) s (put_generation s c g now).2
  | st_put_refused s c g now : is_tombstoned s c = true -> store_step None s (put_generation s c g now).2
  | st_put_piece s c p now : is_Some (index s !! c) -> store_step None s (put_piece s c p now).2
  | st_remove_piece s c pid now : store_step None s (remove_piece s c pid now).2
  | st_put_content s c b pin now : store_step None s (put_content s c b pin now).2
  | st_unpin s c : store_step None s (unpin s c)
  | st_mark_system s c : is_Some (index s !! c) -> store_step None s (mark_system s c)
  | st_unmark_system s c : store_step None s (unmark_system s c)
  | st_mark_not_holdings s c : is_Some (index s !! c) -> store_step None s (mark_not_holdings s c)
  | st_read_content s c now : store_step None s (content s c now).2
  | st_serve s c exclude max now t r s' t' : serve_pieces s c exclude max now t = Some (r, s', t') -> store_step None s s'
  | st_mint s c now t r s' t' : mint_from_content s c now t = Some (r, s', t') -> store_step None s s'
  | st_tombstone s c : store_step None s (tombstone s c)
  | st_untombstone s c : store_step None s (untombstone s c)
  | st_forget s c : store_step None s (forget s c)
  | st_set_want s c : store_step None s (set_want s c)
  | st_unset_want s c : store_step None s (unset_want s c)
  | st_set_distributed s c : store_step None s (set_distributed s c)
  | st_clear_cooldown s c : store_step None s (clear_cooldown s c)
  | st_purge s ttl secs : store_step None s (purge_cooldown s ttl secs)
  | st_evict s target secs freed s' : is_u64 secs -> evict_to s target secs = Some (freed, s') -> store_step None s s'.

(** A run, and the generations it wrote, the latest first. *)
Inductive store_run (t0 : Z) : list (key * Generation) -> Store -> Prop :=
  | sr_open : store_run t0 [] (reload empty_disk t0)
  | sr_step tr w s s' : store_run t0 tr s -> store_step w s s' -> store_run t0 (match w with Some x => x :: tr | None => tr end) s'.

Fixpoint last_written (tr : list (key * Generation)) (c : key) : option Generation :=
  match tr with [] => None | (k, g) :: tr' => if decide (c = k) then Some g else last_written tr' c end.

Lemma serve_mirror W s c exclude max now t r s' t' : mirror W s -> serve_pieces s c exclude max now t = Some (r, s', t') -> mirror W s'.
Proof.
  intros Hm. unfold serve_pieces. destruct (index s !! c) as [st|] eqn:Ei; [|by intros [= _ <- _]].
  set (s1 := with_index s (<[c := touch now st]> (index s))). assert (Hm1 : mirror W s1) by by apply touch_mirror.
  set (out := read_held _ _ _ _ _). destruct (_ && _); [|by intros [= _ <- _]].
  pose proof (content_mirror W s1 c now Hm1) as Hm2. destruct (content s1 c now) as [[b|] s2]; [|by intros [= _ <- _]].
  destruct (top_up _ _ _ _ _ _) as [[r0 t0]|]; [|done]. by intros [= _ <- _].
Qed.

Lemma mint_mirror W s c now t r s' t' : mirror W s -> mint_from_content s c now t = Some (r, s', t') -> mirror W s'.
Proof.
  intros Hm. unfold mint_from_content. destruct (generation s c) as [g|]; [|by intros [= _ <- _]].
  pose proof (content_mirror W s c now Hm) as Hm2. destruct (content s c now) as [[b|] s2]; [|by intros [= _ <- _]].
  destruct (encode _ t) as [[r0 t0]|]; [|done]. by intros [= _ <- _].
Qed.

Lemma store_step_mirror W w s s' :
  store_step w s s' -> mirror W s -> mirror (match w with Some (c, g) => written W c g | None => W end) s'.
Proof.
  intros Hs Hm. destruct Hs as [s c g now Ht|s c g now Ht| | | | | | | | | | | | | | | | | |s ttl secs|].
  - by apply put_generation_mirror.
  - unfold put_generation. by rewrite Ht.
  - by apply put_piece_mirror.
  - by apply remove_piece_mirror.
  - by apply put_content_mirror.
  - by apply markers_mirror.
  - by apply markers_mirror.
  - by apply markers_mirror.
  - by apply markers_mirror.
  - by apply content_mirror.
  - by eapply serve_mirror.
  - by eapply mint_mirror.
  - by apply tombstone_mirror.
  - by apply sets_mirror.
  - by apply forget_mirror.
  - by apply sets_mirror.
  - by apply sets_mirror.
  - by apply sets_mirror.
  - by apply sets_mirror.
  - unfold purge_cooldown. generalize (map fst (map_to_list (filter (fun e : key * Z => ttl <= sat_sub secs e.2) (evicted s)))) as l.
    intros l. revert s Hm. induction l as [|c l IH]; intros s Hm; [done|]. cbn. by apply IH, sets_mirror.
  - by eapply evict_mirror.
Qed.

Lemma mirror_ext W W' s : (forall c, W c = W' c) -> mirror W s -> mirror W' s.
Proof. intros E []. constructor; try done. intros c. by rewrite <- E. Qed.

Lemma store_run_mirror t0 tr s : store_run t0 tr s -> mirror (last_written tr) s.
Proof.
  induction 1 as [|tr w s s' _ IH Hs]; [by constructor|]. apply (store_step_mirror _ _ _ _ Hs) in IH.
  destruct w as [[k g]|]; [|done]. by eapply mirror_ext, IH.
Qed.

Lemma last_written_elem tr c g : last_written tr c = Some g -> (c, g) ∈ tr.
Proof.
  induction tr as [|[k h] tr IH]; cbn; [done|]. destruct (decide (c = k)) as [->|]; [intros [= ->]; left|intros ?; right; auto].
Qed.

End disk.
