(* ===== verification/PieceStoreEvict.v ===== *)
(** Eviction and serving of the piece store ([PieceStore]): which cids an
    eviction takes and when it stops, what a request for pieces is answered
    with, and where the index and the files part when the store is not used in
    the order it expects. *)

From S2P Require Import Prelude Crypto Gf Linear Erasure Token PieceStore PieceStoreDisk.

Open Scope Z_scope.

(** ** Sizes *)

Definition sz (st : CidState) : Z := default 0 (state_bytes st).

Definition sizes_typed (st : CidState) : Prop := 0 <= g_piece_len (gen st) /\ 0 <= g_total_len (gen st).

Lemma state_bytes_nonneg st b : sizes_typed st -> state_bytes st = Some b -> 0 <= b.
Proof.
  intros [Hp Ht]. unfold state_bytes, mul_u64, checked_add. destruct (_ <=? _); [|done]. cbn. destruct (_ <=? _); [|done]. intros [= <-].
  destruct (has_content st); nia.
Qed.

Lemma sz_nonneg st : sizes_typed st -> 0 <= sz st.
Proof. intros Hs. unfold sz. destruct (state_bytes st) eqn:E; cbn; [|done]. by eapply state_bytes_nonneg. Qed.

Definition sizes (l : list CidState) : Z := sum_Z (map sz l).

Lemma sizes_nonneg l : Forall sizes_typed l -> 0 <= sizes l.
Proof. unfold sizes, sum_Z. induction 1 as [|st l Hs _ IH]; cbn; [done|]. pose proof (sz_nonneg st Hs). lia. Qed.

Lemma sum_bytes_spec l t :
  Forall sizes_typed l -> sum_bytes l = Some t <-> Forall (fun st => is_Some (state_bytes st)) l /\ t = sizes l /\ t <= U64_MAX.
Proof.
  intros Hl. revert t. induction Hl as [|st l Hs Hl IH]; intros t; cbn [sum_bytes].
  - split; [intros [= <-]; split; [constructor|]; split; [done|unfold_int; lia]|]. by intros (_ & -> & _).
  - unfold sizes. cbn [map sum_Z foldr]. fold (sum_Z (map sz l)). fold (sizes l). rewrite Forall_cons_iff. pose proof (sizes_nonneg l Hl) as Hn.
    destruct (sum_bytes l) as [u|] eqn:Eu; cbn.
    + destruct (proj1 (IH u) eq_refl) as (Hall & -> & Hu). unfold sz. destruct (state_bytes st) as [b|] eqn:Eb; cbn.
      * pose proof (state_bytes_nonneg st b Hs Eb). unfold checked_add. destruct (Z.leb_spec (sizes l + b) U64_MAX); split.
        -- intros [= <-]. split; [split; [by eexists|done]|]. split; lia.
        -- intros (_ & -> & _). f_equal. lia.
        -- done.
        -- intros (_ & -> & Hmax). lia.
      * split; [done|]. intros ([[? ?] _] & _). done.
    + split; [done|]. intros ([_ Hall] & -> & Hmax). pose proof (sz_nonneg st Hs).
      assert (E : None = Some (sizes l)) by (apply IH; split; [done|]; split; [done|lia]). discriminate E.
Qed.

Section evict.
Context `{Blake3} `{Postcard Generation}.

Implicit Type s : Store.

Definition store_typed s : Prop := forall c st, index s !! c = Some st -> sizes_typed st.

Lemma index_values_typed s : store_typed s -> Forall sizes_typed (map snd (map_to_list (index s))).
Proof. intros Hs. apply list.Forall_forall. intros st ([c st'] & -> & Hin%elem_of_map_to_list)%list_elem_of_fmap. by eapply Hs. Qed.

Lemma total_bytes_sum s t : store_typed s -> total_bytes s = Some t -> t = map_sum sz (index s) /\ (forall c st, index s !! c = Some st -> is_Some (state_bytes st)) /\ t <= U64_MAX.
Proof.
  intros Hs Ht. apply sum_bytes_spec in Ht as (Hall & -> & Hm); [|by apply index_values_typed]. split; [by rewrite map_sum_list|]. split; [|done].
  intros c st Hc. rewrite list.Forall_forall in Hall. apply Hall. apply list_elem_of_fmap. exists (c, st). split; [done|]. by apply elem_of_map_to_list.
Qed.

Lemma total_bytes_some s : store_typed s -> (forall c st, index s !! c = Some st -> is_Some (state_bytes st)) -> map_sum sz (index s) <= U64_MAX ->
  total_bytes s = Some (map_sum sz (index s)).
Proof.
  intros Hs Hall Hm. apply sum_bytes_spec; [by apply index_values_typed|]. split; [|split; [by rewrite map_sum_list|done]].
  apply list.Forall_forall. intros st ([c st'] & -> & Hin%elem_of_map_to_list)%list_elem_of_fmap. by eapply Hall.
Qed.

(** ** The choice *)

Definition cand (e : key * CidState) : Z * Z * key := (last_access e.2, sz e.2, e.1).

Lemma candidates_sorted s :
  exists l, candidates s = map cand l /\ NoDup (map fst l) /\
    StronglySorted (fun x y => last_access x.2 <= last_access y.2) l /\
    forall c st, (c, st) ∈ l <-> index s !! c = Some st /\ pinned st = false /\ system st = false.
Proof.
  set (base := filter (fun e : key * CidState => pinned e.2 = false /\ system e.2 = false) (map_to_list (index s))).
  assert (Ec : candidates s = sort_by (le_on (fun x : Z * Z * key => x.1.1)) (map cand base)).
  { unfold candidates. f_equal. apply map_ext. by intros [c st]. }
  pose proof (sort_by_perm (le_on (fun x : Z * Z * key => x.1.1)) (map cand base)) as Hp.
  pose proof (sort_by_key_strongly_sorted (fun x : Z * Z * key => x.1.1) (map cand base)) as Hs. rewrite <- Ec in Hp, Hs.
  symmetry in Hp. destruct (Permutation_map_inv cand _ (Permutation_sym Hp)) as (l & El & Hl). exists l. split; [done|].
  assert (Hmem : forall c st, (c, st) ∈ l <-> index s !! c = Some st /\ pinned st = false /\ system st = false).
  { intros c st. rewrite <- Hl. unfold base. rewrite list_elem_of_filter, elem_of_map_to_list. tauto. }
  split; [|split; [|done]].
  - rewrite <- Hl. unfold base. eapply sublist_NoDup; [apply (NoDup_fst_map_to_list (index s))|]. apply fmap_sublist, sublist_filter.
  - rewrite El in Hs. clear -Hs. induction l as [|x l IH]; [constructor|]. cbn [map] in Hs. inversion_clear Hs as [|?? Hs' Hx].
    constructor; [by apply IH|]. apply list.Forall_forall. intros y Hy. rewrite list.Forall_forall in Hx. specialize (Hx (cand y) (list_elem_of_fmap_2 cand _ _ Hy)).
    exact Hx.
Qed.

Lemma choose_spec l total target :
  Forall (fun e => 0 <= sz e.2) l -> sum_Z (map (fun e => sz e.2) l) <= total ->
  exists n, choose target total (map cand l) = map fst (take n l) /\
    let left_over := total - sum_Z (map (fun e => sz e.2) (take n l)) in
    (left_over <= target \/ (length l <= n)%nat) /\
    (take n l = [] \/ exists e, e ∈ take n l /\ target < left_over + sz e.2).
Proof.
  revert total. induction l as [|[c st] l IH]; intros total Hn Hsum.
  - exists 0%nat. cbn. split; [done|]. split; [right; lia|by left].
  - apply Forall_cons_iff in Hn as [Hst Hn]. cbn in Hst. change (sz st + sum_Z (map (fun e : key * CidState => sz e.2) l) <= total) in Hsum.
    assert (Hl : 0 <= sum_Z (map (fun e : key * CidState => sz e.2) l)) by (clear -Hn; unfold sum_Z; induction Hn; cbn; lia).
    cbn [map choose cand fst snd]. destruct (Z.leb_spec total target) as [Hle|Hgt].
    + exists 0%nat. cbn. split; [done|]. split; [left; lia|by left].
    + assert (Es : sat_sub total (sz st) = total - sz st) by (unfold sat_sub; lia). rewrite Es.
      destruct (IH (total - sz st) Hn) as (n & En & Hstop & Hmin); [lia|]. exists (S n). cbn [take map snd]. rewrite En. split; [done|].
      change (sum_Z (sz st :: map (fun e : key * CidState => sz e.2) (take n l))) with (sz st + sum_Z (map (fun e : key * CidState => sz e.2) (take n l))).
      cbv zeta in *. split; [destruct Hstop as [Hs|Hs]; [left; lia|right; cbn; lia]|]. right. destruct Hmin as [E|(e & He & Hlt)].
      * exists (c, st). split; [left|]. rewrite E. cbn. lia.
      * exists e. split; [by right|]. lia.
Qed.

Lemma evict_fold l s z secs :
  NoDup (map fst l) -> (forall c st, (c, st) ∈ l -> index s !! c = Some st) ->
  let r := foldl (evict_one secs) (z, s) (map fst l) in
  r.1 = z + sum_Z (map (fun e => sz e.2) l) /\
  (forall c, index r.2 !! c = if bool_decide (c ∈ map fst l) then None else index s !! c) /\
  map_sum sz (index r.2) = map_sum sz (index s) - sum_Z (map (fun e => sz e.2) l) /\
  (forall c, c ∈ map fst l -> evicted r.2 !! c = Some secs).
Proof.
  revert s z. induction l as [|[c st] l IH]; intros s z Hnd Hin; cbn [map foldl].
  - cbn. split; [lia|]. split; [done|]. split; [unfold sum_Z; cbn; lia|]. set_solver.
  - cbn [map fst] in Hnd. apply list.NoDup_cons in Hnd as [Hc Hnd].
    assert (Est : index s !! c = Some st) by (apply Hin; left).
    change (evict_one secs (z, s) (fst (c, st))) with (match index s !! c with Some e => z + default 0 (state_bytes e) | None => z end, record_eviction (drop_dir (with_index s (delete c (index s))) c) c secs).
    rewrite Est. set (s1 := record_eviction (drop_dir (with_index s (delete c (index s))) c) c secs).
    assert (Ei : index s1 = delete c (index s)) by done.
    destruct (IH s1 (z + default 0 (state_bytes st)) Hnd) as (E1 & E2 & E3 & E4).
    { intros c' st' Hl. rewrite Ei, lookup_delete_ne; [apply Hin; by right|]. intros ->. apply Hc. apply list_elem_of_fmap. by exists (c', st'). }
    change (sum_Z (sz (c, st).2 :: map (fun e : key * CidState => sz e.2) l)) with (sz st + sum_Z (map (fun e : key * CidState => sz e.2) l)).
    split; [rewrite E1; unfold sz at 2; lia|]. split; [|split].
    + intros k. rewrite E2, Ei. cbn [fst]. destruct (decide (k = c)) as [->|Hne].
      * rewrite (bool_decide_true (c ∈ c :: _)) by left. case_bool_decide; [done|apply lookup_delete_eq].
      * rewrite lookup_delete_ne by done. assert (Hiff : k ∈ c :: map fst l <-> k ∈ map fst l) by (rewrite elem_of_cons; tauto).
        by rewrite (bool_decide_ext _ _ Hiff).
    + rewrite E3, Ei. pose proof (map_sum_delete sz (index s) c st Est). lia.
    + intros k Hk. destruct (decide (k ∈ map fst l)) as [Hkl|Hkl]; [by apply E4|]. cbn [fst] in Hk. apply elem_of_cons in Hk as [->|Hk]; [|done].
      assert (Hev : forall l' r0, evicted r0.2 !! c = Some secs -> c ∉ l' -> evicted (foldl (evict_one secs) r0 l').2 !! c = Some secs).
      { clear. induction l' as [|x l' IH]; intros [z0 s0] Hr Hx; [done|]. cbn [foldl]. apply IH; [|set_solver]. cbn. rewrite lookup_insert_ne; [done|]. set_solver. }
      apply Hev; [|done]. cbn. apply lookup_insert_eq.
Qed.

(** What an eviction takes.  When the held sizes can be added up, an
    eviction to a target returns how many bytes it freed, and then: no pinned
    and no system cid is gone and no surviving entry has changed; what is held
    is down by exactly the bytes freed; it is at the target or below, or
    nothing that may be evicted is left; no surviving candidate was accessed
    before one that was taken; it stopped as early as it could, since without
    one of the cids taken the target would be exceeded; and each cid taken
    starts its cooldown. *)
Theorem eviction_takes_oldest_until_target (s : Store) (target secs freed : Z) (s' : Store) :
  store_typed s -> evict_to s target secs = Some (freed, s') ->
  exists total, total_bytes s = Some total /\ total_bytes s' = Some (total - freed) /\
  (forall c st, index s !! c = Some st -> pinned st = true \/ system st = true -> index s' !! c = Some st) /\
  (forall c st, index s' !! c = Some st -> index s !! c = Some st) /\
  (total - freed <= target \/ forall c st, index s' !! c = Some st -> pinned st = true \/ system st = true) /\
  (forall c c' st st', index s !! c = Some st -> index s' !! c = None -> index s' !! c' = Some st' ->
    pinned st' = false -> system st' = false -> last_access st <= last_access st') /\
  (s' = s \/ exists c st, index s !! c = Some st /\ index s' !! c = None /\ target < total - freed + sz st) /\
  (forall c ttl, is_Some (index s !! c) -> index s' !! c = None -> 0 < ttl -> is_in_cooldown s' c ttl secs = true).
Proof.
  intros Ht He. unfold evict_to in He. destruct (total_bytes s) as [total|] eqn:Et; [|done]. cbn in He. exists total. split; [done|].
  destruct (total_bytes_sum s total Ht Et) as (Etot & Hsome & Hmax).
  destruct (Z.leb_spec total target) as [Hle|Hgt].
  { injection He as <- <-. rewrite Z.sub_0_r. split; [done|]. split; [done|]. split; [done|]. split; [left; lia|].
    split; [intros c c' st st' E1 E2; congruence|]. split; [by left|]. intros c ttl [st E1] E2. congruence. }
  injection He as He. destruct (candidates_sorted s) as (l & Ec & Hnd & Hsort & Hmem).
  assert (Hnn : Forall (fun e : key * CidState => 0 <= sz e.2) l).
  { apply list.Forall_forall. intros [c st] Hin. apply sz_nonneg. apply Hmem in Hin as [Hin _]. by eapply Ht. }
  assert (Hfit : sum_Z (map (fun e : key * CidState => sz e.2) l) <= total).
  { destruct (evict_fold l s 0 secs Hnd) as (_ & Hix & Hms & _); [intros c st Hin; by apply Hmem|]. rewrite Etot.
    assert (Hge : 0 <= map_sum sz (index (foldl (evict_one secs) (0, s) (map fst l)).2)); [|lia].
    apply map_sum_nonneg. intros c st. rewrite Hix. case_bool_decide; [done|]. intros Hst. apply sz_nonneg. by eapply Ht. }
  destruct (choose_spec l total target Hnn Hfit) as (n & En & Hstop & Hmin). rewrite Ec, En in He.
  assert (Hsub : forall e, e ∈ take n l -> e ∈ l) by (intros e (i & Hi%list_elem_of_lookup_2 & _)%elem_of_take; done).
  destruct (evict_fold (take n l) s 0 secs) as (E1 & E2 & E3 & E4).
  { eapply sublist_NoDup; [exact Hnd|]. apply fmap_sublist, sublist_take. }
  { intros c st Hin. by apply Hmem, Hsub. }
  rewrite He in E1, E2, E3, E4. cbn [fst snd] in *. rewrite Z.add_0_l in E1. subst freed.
  assert (Htaken : forall c st, index s !! c = Some st -> index s' !! c = None -> (c, st) ∈ take n l).
  { intros c st Hc Hn. rewrite E2 in Hn. case_bool_decide as Hin; [|congruence]. apply list_elem_of_fmap in Hin as ([c' st'] & -> & Hin).
    pose proof (proj1 (proj1 (Hmem _ _) (Hsub _ Hin))) as Hin'. cbn in Hc. rewrite Hc in Hin'. injection Hin' as ->. exact Hin. }
  assert (Hkept : forall c st, index s' !! c = Some st -> index s !! c = Some st /\ c ∉ map fst (take n l)).
  { intros c st. rewrite E2. by case_bool_decide. }
  split_and!.
  - rewrite Etot, <- E3. apply total_bytes_some; [|intros c st [Hc _]%Hkept; by eapply Hsome|rewrite E3; rewrite Etot in Hmax; lia || idtac].
    + intros c st [Hc _]%Hkept. by eapply Ht.
    + assert (0 <= sum_Z (map (fun e : key * CidState => sz e.2) (take n l))); [|lia].
      clear -Hnn. assert (Hf : Forall (fun e : key * CidState => 0 <= sz e.2) (take n l)) by by apply Forall_take.
      unfold sum_Z. induction Hf; cbn; lia.
  - intros c st Hc Hp. rewrite E2, bool_decide_false; [done|]. intros Hin. apply list_elem_of_fmap in Hin as ([c' st'] & -> & Hin).
    apply Hsub, Hmem in Hin as (Hc' & Hp' & Hs'). cbn in Hc. rewrite Hc in Hc'. injection Hc' as <-. destruct Hp; congruence.
  - intros c st [Hc _]%Hkept. done.
  - destruct Hstop as [Hs|Hs]; [left; lia|right]. intros c st [Hc Hout]%Hkept. rewrite take_ge in Hout by done.
    destruct (pinned st) eqn:Hp; [by left|]. destruct (system st) eqn:Hy; [by right|]. exfalso. apply Hout. apply list_elem_of_fmap. exists (c, st). split; [done|]. by apply Hmem.
  - intros c c' st st' Hc Hn Hc' Hp Hy. apply Htaken in Hc as Hin; [|done]. apply Hkept in Hc' as [Hc' Hout].
    assert (Hin' : (c', st') ∈ drop n l).
    { assert (Hl : (c', st') ∈ l) by by apply Hmem. rewrite <- (take_drop n l) in Hl. apply elem_of_app in Hl as [Hl|Hl]; [|done].
      exfalso. apply Hout. apply list_elem_of_fmap. by exists (c', st'). }
    rewrite <- (take_drop n l) in Hsort. by apply (StronglySorted_app_1_elem_of _ _ _ _ _ Hsort Hin Hin').
  - destruct Hmin as [E|([c st] & Hin & Hlt)].
    + left. rewrite E in He. cbn in He. by injection He.
    + right. exists c, st. split; [by apply Hmem, Hsub|]. split; [|done]. rewrite E2, bool_decide_true; [done|]. apply list_elem_of_fmap. by exists (c, st).
  - intros c ttl [st Hc] Hn Httl. apply Htaken in Hc as Hin; [|done]. unfold is_in_cooldown. rewrite E4; [|apply list_elem_of_fmap; by exists (c, st)].
    unfold sat_sub. apply Z.ltb_lt. lia.
Qed.
End evict.

(** ** Instances *)

#[global] Instance Generation_countable : Countable Generation.
Proof. refine (inj_countable' (fun g => (g_k g, g_piece_len g, g_total_len g, g_vtags g)) (fun '(k, p, t, v) => mk_gen k p t v) _). by intros []. Defined.

#[local] Existing Instances toy_blake3 countable_codec countable_codec_laws.

Definition ex_gen (v : Z) : Generation := mk_gen 2 1 2 [v].
Definition ex_empty : Store := reload empty_disk 0.
Definition ex_s1 : Store := (put_generation ex_empty (key_of 1) (ex_gen 1) 5).2.
Definition ex_s2 : Store := (put_content ex_s1 (key_of 1) [7; 8] false 6).2.
Definition ex_s3 : Store := (put_generation ex_s2 (key_of 2) (ex_gen 1) 7).2.
Definition ex_two : Store := (put_content ex_s3 (key_of 2) [7; 9] true 8).2.

(** The first cid is put again with another generation. *)
Definition ex_again : Store := (put_generation ex_two (key_of 1) (ex_gen 2) 9).2.


Definition typed_b (s : Store) : bool :=
  forallb (fun e => (0 <=? g_piece_len (gen e.2)) && (0 <=? g_total_len (gen e.2))) (map_to_list (index s)).

Lemma typed_b_ok s : typed_b s = true -> store_typed s.
Proof.
  unfold typed_b. rewrite forallb_forall. intros Ha c st Hc%elem_of_map_to_list%list_elem_of_In. specialize (Ha _ Hc). cbn in Ha. split; lia.
Qed.

Lemma ex_two_typed : store_typed ex_two.
Proof. apply typed_b_ok. vm_compute. reflexivity. Qed.

Lemma ex_two_evicts : exists s', evict_to ex_two 3 100 = Some (2, s').
Proof.
  assert (E : fst <$> evict_to ex_two 3 100 = Some 2) by (vm_compute; reflexivity).
  destruct (evict_to ex_two 3 100) as [[f s']|]; [|discriminate E]. injection E as ->. by exists s'.
Qed.

Lemma eviction_takes_oldest_until_target_witness :
  exists s' total, evict_to ex_two 3 100 = Some (2, s') /\ total_bytes s' = Some (total - 2).
Proof.
  destruct ex_two_evicts as [s' E]. pose proof (eviction_takes_oldest_until_target ex_two 3 100 2 s' ex_two_typed E) as Hev.
  generalize dependent ex_two. intros two E Hev. destruct Hev as (total & _ & Et & _). exists s', total. split; [exact E|exact Et].
Defined.

(** A generation set again with other tags, as every publish of the same
    content does, is written to the file but not to the index. *)
Example republished_generation_differs_on_disk :
  let s := (put_generation (put_generation ex_empty (key_of 1) (ex_gen 1) 5).2 (key_of 1) (ex_gen 2) 6).2 in
  generation s (key_of 1) = Some (ex_gen 1) /\ generation (reload (disk s) 9) (key_of 1) = Some (ex_gen 2).
Proof. cbv zeta. split; vm_compute; reflexivity. Qed.

(** A piece stored before its generation is acknowledged, written, and not
    counted until the store is reopened. *)
Example piece_before_generation_is_not_indexed :
  let s := (put_generation (put_piece ex_empty (key_of 1) (mk_piece [1; 0] [7]) 5).2 (key_of 1) (ex_gen 1) 6).2 in
  piece_count s (key_of 1) = 0%nat /\ piece_count (reload (disk s) 9) (key_of 1) = 1%nat.
Proof. cbv zeta. split; vm_compute; reflexivity. Qed.
