(* ===== verification/ActiveSet.v ===== *)
(** The choke of active transfers ([crates/obj/src/active_set.rs]): at most K
    distinct peers hold a transfer slot, and a peer that holds one admits more
    work for free.

    The semaphore is its number of free permits, the map of active peers keeps
    the reference count of each (an entry owns one permit), and a run
    interleaves the calls of any number of tasks.  [enter] is two locked parts
    with a wait between them; [holding] are the tasks that have their permit
    and not yet the lock.  The live guards are kept as a multiset, because the
    drop of a guard is an operation of its own. *)

From S2P Require Import Prelude.
From stdpp Require Import gmultiset.

Open Scope nat_scope.

Record ActiveSet := mk_active {
  slots : nat;
  active : gmap key nat;
  peak : nat
}.

Definition new (k : nat) : ActiveSet := mk_active (Nat.max k 1) ∅ 0.

(** [active.insert] with a permit, and the high-water mark. *)
Definition occupy (s : ActiveSet) (free : nat) (id : key) : ActiveSet :=
  let a := <[id := 1]> (active s) in mk_active free a (Nat.max (peak s) (size a)).

(** [enter], the part before the wait: whether the peer was active. *)
Definition enter_fast (s : ActiveSet) (id : key) : option ActiveSet :=
  match active s !! id with
  | Some r => Some (mk_active (slots s) (<[id := S r]> (active s)) (peak s))
  | None => None
  end.

(** [acquire_owned]: completes when a permit is free. *)
Definition acquire (s : ActiveSet) : option ActiveSet :=
  match slots s with
  | O => None
  | S n => Some (mk_active n (active s) (peak s))
  end.

(** [enter], the part after the wait, with the permit in hand. *)
Definition enter_slow (s : ActiveSet) (id : key) : ActiveSet :=
  match active s !! id with
  | Some r => mk_active (S (slots s)) (<[id := S r]> (active s)) (peak s)
  | None => occupy s (slots s) id
  end.

Definition try_enter (s : ActiveSet) (id : key) : bool * ActiveSet :=
  match active s !! id with
  | Some r => (true, mk_active (slots s) (<[id := S r]> (active s)) (peak s))
  | None =>
      match slots s with
      | S n => (true, occupy s n id)
      | O => (false, s)
      end
  end.

(** Dropping a guard; [refs -= 1] panics below zero, so the result is an
    option. *)
Definition guard_drop (s : ActiveSet) (id : key) : option ActiveSet :=
  match active s !! id with
  | None => Some s
  | Some O => None
  | Some 1 => Some (mk_active (S (slots s)) (delete id (active s)) (peak s))
  | Some (S r) => Some (mk_active (slots s) (<[id := r]> (active s)) (peak s))
  end.

Definition active_len (s : ActiveSet) : nat := size (active s).
Definition peak_active (s : ActiveSet) : nat := peak s.

(** ** Runs *)

Record World := mk_world {
  set : ActiveSet;
  guards : gmultiset key;
  waiting : gmultiset key;
  holding : gmultiset key
}.

Inductive step : World -> World -> Prop :=
  | s_enter_fast s s' g w h id : enter_fast s id = Some s' -> step (mk_world s g w h) (mk_world s' (g ⊎ {[+ id +]}) w h)
  | s_enter_wait s g w h id : enter_fast s id = None -> step (mk_world s g w h) (mk_world s g (w ⊎ {[+ id +]}) h)
  | s_cancel s g w h id : step (mk_world s g (w ⊎ {[+ id +]}) h) (mk_world s g w h)
  | s_acquire s s' g w h id : acquire s = Some s' -> step (mk_world s g (w ⊎ {[+ id +]}) h) (mk_world s' g w (h ⊎ {[+ id +]}))
  | s_enter_slow s g w h id : step (mk_world s g w (h ⊎ {[+ id +]})) (mk_world (enter_slow s id) (g ⊎ {[+ id +]}) w h)
  | s_try_enter s s' g w h id : try_enter s id = (true, s') -> step (mk_world s g w h) (mk_world s' (g ⊎ {[+ id +]}) w h)
  | s_drop s s' g w h id : guard_drop s id = Some s' -> step (mk_world s (g ⊎ {[+ id +]}) w h) (mk_world s' g w h).

Definition world0 (k : nat) : World := mk_world (new k) ∅ ∅ ∅.

(** Every permit is free, in the hand of a task or owned by an active peer,
    and the count of a peer is its number of live guards. *)
Record choke (k : nat) (w : World) : Prop := {
  ch_permits : slots (set w) + size (holding w) + size (active (set w)) = Nat.max k 1;
  ch_refs : forall id, multiplicity id (guards w) = default 0 (active (set w) !! id);
  ch_pos : forall id r, active (set w) !! id = Some r -> 0 < r;
  ch_peak : size (active (set w)) <= peak (set w) <= Nat.max k 1
}.

Lemma refs_insert (g : gmultiset key) (m : gmap key nat) p r' :
  (forall x, multiplicity x g = default 0 (m !! x)) -> r' = S (default 0 (m !! p)) ->
  forall x, multiplicity x (g ⊎ {[+ p +]}) = default 0 (<[p := r']> m !! x).
Proof.
  intros Hr -> x. rewrite multiplicity_disj_union, Hr. destruct (decide (x = p)) as [->|Hne].
  - rewrite lookup_insert_eq, multiplicity_singleton_eq. cbn. lia.
  - rewrite lookup_insert_ne, multiplicity_singleton_ne by done. lia.
Qed.

Lemma refs_remove (g : gmultiset key) (m m' : gmap key nat) p r :
  (forall x, multiplicity x (g ⊎ {[+ p +]}) = default 0 (m !! x)) -> m !! p = Some (S r) ->
  default 0 (m' !! p) = r -> (forall x, x <> p -> m' !! x = m !! x) ->
  forall x, multiplicity x g = default 0 (m' !! x).
Proof.
  intros Hr Hm Hid Hne x. specialize (Hr x). rewrite multiplicity_disj_union in Hr. destruct (decide (x = p)) as [->|Hx].
  - rewrite Hm, multiplicity_singleton_eq in Hr. cbn in Hr. lia.
  - rewrite multiplicity_singleton_ne in Hr by done. rewrite Hne by done. lia.
Qed.

Lemma size_bump (m : gmap key nat) id r r' : m !! id = Some r -> size (<[id := r']> m) = size m.
Proof. intros E. rewrite <- !size_dom, dom_insert_lookup_L; [done|by exists r]. Qed.

Ltac choke_cases H := destruct H as [Hp Hr Hpos Hk]; cbn [set guards waiting holding slots active peak] in *.

Lemma occupy_choke k s free g w h id :
  active s !! id = None -> (forall x, multiplicity x g = default 0 (active s !! x)) ->
  (forall x r, active s !! x = Some r -> 0 < r) -> size (active s) <= peak s <= Nat.max k 1 ->
  free + size h + S (size (active s)) = Nat.max k 1 ->
  choke k (mk_world (occupy s free id) (g ⊎ {[+ id +]}) w h).
Proof.
  intros En Hr Hpos Hk Hp. pose proof (map_size_insert_None id 1 (active s) En) as Es.
  constructor; cbn [set guards waiting holding slots active peak occupy]; rewrite ?Es; try lia.
  - apply refs_insert; [done|]. by rewrite En.
  - intros x r [[<- <-]|[_ Hx]]%lookup_insert_Some; [lia|]. by eapply Hpos.
Qed.

Lemma bump_choke k s free g w h h' id r :
  active s !! id = Some r -> choke k (mk_world s g w h) -> free + size h' = slots s + size h ->
  choke k (mk_world (mk_active free (<[id := S r]> (active s)) (peak s)) (g ⊎ {[+ id +]}) w h').
Proof.
  intros E H Hf. choke_cases H. constructor; cbn [set guards waiting holding slots active peak]; rewrite ?(size_bump _ _ _ _ E); try lia.
  - apply refs_insert; [done|]. by rewrite E.
  - intros x r' [[<- <-]|[_ Hx]]%lookup_insert_Some; [lia|]. by eapply Hpos.
Qed.

Lemma drop_choke k s s' g w h id :
  guard_drop s id = Some s' -> choke k (mk_world s (g ⊎ {[+ id +]}) w h) -> choke k (mk_world s' g w h).
Proof.
  intros E H. choke_cases H. unfold guard_drop in E. destruct (active s !! id) as [[|[|r]]|] eqn:Ea; [done| | |].
  - injection E as <-. constructor; cbn [set guards waiting holding slots active peak].
    + pose proof (map_size_delete_Some id (active s) (ex_intro _ _ Ea)). pose proof (map_size_ne_0_lookup_2 (active s) id (ex_intro _ _ Ea)). lia.
    + eapply refs_remove; [done|done|by rewrite lookup_delete_eq|]. intros x Hx. by rewrite lookup_delete_ne.
    + intros x r [_ Hx]%lookup_delete_Some. by eapply Hpos.
    + pose proof (map_size_delete_Some id (active s) (ex_intro _ _ Ea)). lia.
  - injection E as <-. constructor; cbn [set guards waiting holding slots active peak]; rewrite ?(size_bump _ _ _ _ Ea); try lia.
    + eapply refs_remove; [done|done|by rewrite lookup_insert_eq|]. intros x Hx. by rewrite lookup_insert_ne.
    + intros x r' [[<- <-]|[_ Hx]]%lookup_insert_Some; [lia|]. by eapply Hpos.
  - exfalso. specialize (Hr id). rewrite Ea, multiplicity_disj_union, multiplicity_singleton_eq in Hr. cbn in Hr. lia.
Qed.

Lemma step_choke k w w' : step w w' -> choke k w -> choke k w'.
Proof.
  destruct 1; intros Hc.
  - unfold enter_fast in H. destruct (active s !! id) as [r|] eqn:E; [|done]. injection H as <-. by eapply bump_choke.
  - by choke_cases Hc.
  - by choke_cases Hc.
  - choke_cases Hc. unfold acquire in H. destruct (slots s) as [|n] eqn:E; [done|]. injection H as <-. constructor; cbn [set guards waiting holding slots active peak]; try done.
    rewrite gmultiset_size_disj_union, gmultiset_size_singleton. lia.
  - unfold enter_slow. destruct (active s !! id) as [r|] eqn:E.
    + eapply bump_choke; [done|done|]. rewrite gmultiset_size_disj_union, gmultiset_size_singleton. lia.
    + choke_cases Hc. rewrite gmultiset_size_disj_union, gmultiset_size_singleton in Hp. apply occupy_choke; try done. lia.
  - unfold try_enter in H. destruct (active s !! id) as [r|] eqn:E; [injection H as <-; by eapply bump_choke|].
    destruct (slots s) as [|n] eqn:Es; [done|]. injection H as <-. choke_cases Hc. apply occupy_choke; try done. lia.
  - by eapply drop_choke.
Qed.

Lemma world0_choke k : choke k (world0 k).
Proof.
  constructor; cbn [set guards waiting holding slots active peak world0 new].
  - vm_compute (size _). lia.
  - intros id. by rewrite multiplicity_empty, lookup_empty.
  - intros id r. by rewrite lookup_empty.
  - rewrite map_size_empty. lia.
Qed.

(** The choke holds under any interleaving.  However tasks enter (waiting
    or not), are cancelled while they wait, and drop their guards: at most K
    distinct peers are active and the recorded peak never exceeds K (one, for
    K = 0); a peer is active exactly while it has live guards; no drop
    panics; an attempt to enter without waiting is refused exactly when the
    peer has no guard and every permit is taken; and no permit is lost, so
    with no guard left and no task between its permit and the lock all of
    them are free. *)
Theorem choke_bounds_active_peers (k : nat) (w : World) :
  rtc step (world0 k) w ->
  active_len (set w) <= Nat.max k 1 /\ peak_active (set w) <= Nat.max k 1 /\
  (forall id, is_Some (active (set w) !! id) <-> id ∈ guards w) /\
  (forall id, id ∈ guards w -> is_Some (guard_drop (set w) id)) /\
  (forall id, (try_enter (set w) id).1 = false <-> id ∉ guards w /\ size (holding w) + active_len (set w) = Nat.max k 1) /\
  (guards w = ∅ -> holding w = ∅ -> slots (set w) = Nat.max k 1).
Proof.
  intros Hrun. assert (Hc : choke k w).
  { pose proof (world0_choke k) as H0c. induction Hrun as [|? ? ? Hs _ IH]; [done|]. by apply IH, (step_choke _ _ _ Hs). }
  destruct Hc as [Hp Hr Hpos Hk]. unfold active_len, peak_active.
  assert (Hin : forall id, is_Some (active (set w) !! id) <-> id ∈ guards w).
  { intros id. rewrite elem_of_multiplicity, Hr. split.
    - intros [r E]. rewrite E. cbn. by eapply Hpos.
    - destruct (active (set w) !! id) as [r|]; [by eexists|cbn; lia]. }
  split_and!; [lia|lia|done| | |].
  - intros id [r E]%Hin. unfold guard_drop. rewrite E. apply Hpos in E. destruct r as [|[|r]]; [lia|by eexists|by eexists].
  - intros id. rewrite <- Hin. unfold try_enter. destruct (active (set w) !! id) as [r|] eqn:E.
    + cbn. split; [done|]. intros [[] _]. by eexists.
    + destruct (slots (set w)) as [|n] eqn:Es; cbn; (split; [|intros [_ H]; lia || done]); [|done]. intros _. split; [by intros [? ?]|lia].
  - intros Hg Hh. rewrite Hh, gmultiset_size_empty in Hp. assert (Ea : active (set w) = ∅).
    { apply map_empty. intros id. destruct (active (set w) !! id) as [r|] eqn:E; [|done]. exfalso.
      assert (Hi : id ∈ guards w) by (apply Hin; by eexists). rewrite Hg in Hi. by apply gmultiset_elem_of_empty in Hi. }
    rewrite Ea, map_size_empty in Hp. lia.
Qed.

(** Two peers enter a choke of two, the first one twice. *)
Lemma choke_bounds_active_peers_witness :
  rtc step (world0 2) (mk_world (mk_active 0 {[ key_of 1 := 2; key_of 2 := 1 ]} 2) ({[+ key_of 1; key_of 1; key_of 2 +]}) ∅ ∅) /\
  active_len (mk_active 0 {[ key_of 1 := 2; key_of 2 := 1 ]} 2) <= 2.
Proof.
  assert (Hr : rtc step (world0 2) (mk_world (mk_active 0 {[ key_of 1 := 2; key_of 2 := 1 ]} 2) ({[+ key_of 1; key_of 1; key_of 2 +]}) ∅ ∅)).
  { apply rtc_l with (mk_world (mk_active 1 {[ key_of 1 := 1 ]} 1) ({[+ key_of 1 +]}) ∅ ∅).
    { pose proof (s_try_enter (new 2) (mk_active 1 {[ key_of 1 := 1 ]} 1) ∅ ∅ ∅ (key_of 1) eq_refl) as Hs. by rewrite gmultiset_disj_union_left_id in Hs. }
    apply rtc_l with (mk_world (mk_active 1 {[ key_of 1 := 2 ]} 1) ({[+ key_of 1; key_of 1 +]}) ∅ ∅).
    { exact (s_try_enter (mk_active 1 {[ key_of 1 := 1 ]} 1) (mk_active 1 {[ key_of 1 := 2 ]} 1) ({[+ key_of 1 +]}) ∅ ∅ (key_of 1) eq_refl). }
    apply rtc_once.
    exact (s_try_enter (mk_active 1 {[ key_of 1 := 2 ]} 1) (mk_active 0 {[ key_of 1 := 2; key_of 2 := 1 ]} 2) ({[+ key_of 1; key_of 1 +]}) ∅ ∅ (key_of 2) eq_refl). }
  split; [exact Hr|]. exact (proj1 (choke_bounds_active_peers 2 _ Hr)).
Defined.
