(* ===== verification/Cipher.v ===== *)
(** Content encryption ([crates/cipher/src/lib.rs]): sealing under a data key,
    capsules for its owner, sealed objects and their sharing by proxy
    re-encryption.

    XChaCha20-Poly1305, keyed BLAKE3 and Umbral are not part of the repository:
    each is a class of operations with a class of the documented laws the code
    relies on.  Random draws are arguments.  The module discharges the
    interface [DekCipher] that the pages of a database are proved against. *)

From S2P Require Import Prelude Crypto Pager.

Open Scope Z_scope.

Definition DEK_LEN : nat := 32.
Definition XNONCE_LEN : nat := 24.

Inductive CipherError := Decrypt | Malformed (what : string).

(** XChaCha20-Poly1305: key, nonce, message. *)
Class Aead := {
  aead_encrypt : bytes -> bytes -> bytes -> bytes;
  aead_decrypt : bytes -> bytes -> bytes -> option bytes
}.
Class AeadLaws `{Aead} := {
  aead_decrypt_encrypt : forall k n m, aead_decrypt k n (aead_encrypt k n m) = Some m
}.

(** BLAKE3 keyed with a key, its output extended to a length. *)
Class KeyedXof := keyed_xof : bytes -> bytes -> nat -> bytes.
Class KeyedXofLaws `{KeyedXof} := keyed_xof_length : forall k m n, length (keyed_xof k m n) = n.

(** Umbral, a threshold proxy re-encryption.  A draw is an argument of the
    operations that use the generator. *)
Class Umbral := {
  SecretKey : Type;
  PublicKey : Type;
  Capsule : Type;
  KeyFrag : Type;
  VerifiedKeyFrag : Type;
  CapsuleFrag : Type;
  VerifiedCapsuleFrag : Type;
  public_key : SecretKey -> PublicKey;
  umbral_encrypt : bytes -> PublicKey -> bytes -> Capsule * bytes;
  decrypt_original : SecretKey -> Capsule -> bytes -> option bytes;
  generate_kfrags : bytes -> SecretKey -> PublicKey -> SecretKey -> nat -> nat -> bool -> bool -> list VerifiedKeyFrag;
  kfrag_unverify : VerifiedKeyFrag -> KeyFrag;
  kfrag_verify : KeyFrag -> PublicKey -> option PublicKey -> option PublicKey -> option VerifiedKeyFrag;
  umbral_reencrypt : Capsule -> VerifiedKeyFrag -> VerifiedCapsuleFrag;
  cfrag_unverify : VerifiedCapsuleFrag -> CapsuleFrag;
  cfrag_verify : CapsuleFrag -> Capsule -> PublicKey -> PublicKey -> PublicKey -> option VerifiedCapsuleFrag;
  decrypt_reencrypted : SecretKey -> PublicKey -> Capsule -> list VerifiedCapsuleFrag -> bytes -> option bytes
}.

Class UmbralLaws `{Umbral} := {
  decrypt_original_encrypt : forall r sk m c ct, umbral_encrypt r (public_key sk) m = (c, ct) -> decrypt_original sk c ct = Some m;
  (** a fragment verifies under the keys it was made and signed with *)
  kfrag_verifies : forall r sk pk t n kf, kf ∈ generate_kfrags r sk pk sk t n true true ->
    kfrag_verify (kfrag_unverify kf) (public_key sk) (Some (public_key sk)) (Some pk) = Some kf;
  kfrags_length : forall r sk pk t n, length (generate_kfrags r sk pk sk t n true true) = n;
  (** so does the capsule fragment made with it, for its capsule *)
  cfrag_verifies : forall r sk pk t n kf c, kf ∈ generate_kfrags r sk pk sk t n true true ->
    cfrag_verify (cfrag_unverify (umbral_reencrypt c kf)) c (public_key sk) (public_key sk) pk = Some (umbral_reencrypt c kf);
  (** a threshold of distinct fragments of a grant recovers the message *)
  decrypt_reencrypted_threshold : forall r r' sk rsk t n m c ct kfs,
    umbral_encrypt r (public_key sk) m = (c, ct) ->
    sublist kfs (generate_kfrags r' sk (public_key rsk) sk t n true true) -> (0 < t <= length kfs)%nat ->
    decrypt_reencrypted rsk (public_key sk) c (map (umbral_reencrypt c) kfs) ct = Some m
}.

(** ** Bulk *)

Section bulk.
Context `{Aead} `{KeyedXof}.

(** [seal]: the nonce is drawn. *)
Definition seal (nonce dek plaintext : bytes) : bytes := nonce ++ aead_encrypt dek nonce plaintext.

Definition det_nonce (dek plaintext : bytes) : bytes := keyed_xof dek (str_bytes "craftec/det-nonce/v1" ++ plaintext) XNONCE_LEN.

Definition seal_det (dek plaintext : bytes) : bytes := det_nonce dek plaintext ++ aead_encrypt dek (det_nonce dek plaintext) plaintext.

Definition open (dek sealed : bytes) : result bytes CipherError :=
  if (length sealed <? XNONCE_LEN)%nat then Err (Malformed "sealed blob shorter than nonce")
  else match aead_decrypt dek (take XNONCE_LEN sealed) (drop XNONCE_LEN sealed) with
       | Some m => Ok m
       | None => Err Decrypt
       end.

Lemma open_app nonce dek ct :
  length nonce = XNONCE_LEN -> open dek (nonce ++ ct) = match aead_decrypt dek nonce ct with Some m => Ok m | None => Err Decrypt end.
Proof.
  intros Hn. unfold open. rewrite length_app, (proj2 (Nat.ltb_ge _ _)) by lia. by rewrite take_app_length', drop_app_length'.
Qed.

(** Both ways of sealing open, and the deterministic one is a function of the
    key and the text. *)
Lemma open_seal_any `{!AeadLaws} `{!KeyedXofLaws} nonce dek p :
  length nonce = XNONCE_LEN -> open dek (seal nonce dek p) = Ok p /\ open dek (seal_det dek p) = Ok p.
Proof.
  intros Hn. unfold seal, seal_det. rewrite !open_app by (done || apply keyed_xof_length). by rewrite !aead_decrypt_encrypt.
Qed.

(** The interface the pages use. *)
#[export] Instance dek_cipher : DekCipher := {|
  Dek := bytes;
  seal_deterministic := seal_det;
  dek_open := fun d b => match open d b with Ok p => Some p | Err _ => None end
|}.

#[export] Instance dek_cipher_laws `{!AeadLaws} `{!KeyedXofLaws} : DekCipherLaws.
Proof. constructor. intros d p. cbn. by rewrite (proj2 (open_seal_any (replicate XNONCE_LEN 0) d p eq_refl)). Qed.
End bulk.

(** ** Capsules, sealed objects, sharing *)

Section capsule.
Context `{Aead} `{KeyedXof} `{Umbral}.

Record DekCapsule := mk_capsule { capsule : Capsule; enc_dek : bytes }.

Definition encapsulate (r : bytes) (pk : PublicKey) (dek : bytes) : DekCapsule :=
  let '(c, e) := umbral_encrypt r pk dek in mk_capsule c e.

(** [try_into] a 32-byte array. *)
Definition dek_of (b : bytes) : result bytes CipherError :=
  if (length b =? DEK_LEN)%nat then Ok b else Err (Malformed "dek length").

Definition open_capsule (sk : SecretKey) (cap : DekCapsule) : result bytes CipherError :=
  match decrypt_original sk (capsule cap) (enc_dek cap) with
  | None => Err Decrypt
  | Some b => dek_of b
  end.

Record SealedObject := mk_sealed { so_capsule : DekCapsule; ciphertext : bytes }.

(** The data key, the nonce and the capsule's draw come from the generator. *)
Definition encrypt (dek nonce r : bytes) (pk : PublicKey) (plaintext : bytes) : SealedObject :=
  mk_sealed (encapsulate r pk dek) (seal nonce dek plaintext).

Definition decrypt_self (sk : SecretKey) (obj : SealedObject) : result bytes CipherError :=
  match open_capsule sk (so_capsule obj) with Err e => Err e | Ok dek => open dek (ciphertext obj) end.

Definition grant (r : bytes) (owner : SecretKey) (recipient : PublicKey) (threshold shares : nat) : list KeyFrag :=
  map kfrag_unverify (generate_kfrags r owner recipient owner threshold shares true true).

Definition reencrypt (owner recipient : PublicKey) (obj : SealedObject) (kf : KeyFrag) : result CapsuleFrag CipherError :=
  match kfrag_verify kf owner (Some owner) (Some recipient) with
  | None => Err (Malformed "kfrag verify")
  | Some v => Ok (cfrag_unverify (umbral_reencrypt (capsule (so_capsule obj)) v))
  end.

Fixpoint verify_cfrags (cap : Capsule) (owner recipient : PublicKey) (cfs : list CapsuleFrag) : option (list VerifiedCapsuleFrag) :=
  match cfs with
  | [] => Some []
  | cf :: cfs' => v ← cfrag_verify cf cap owner owner recipient; vs ← verify_cfrags cap owner recipient cfs'; Some (v :: vs)
  end.

Definition decrypt_granted (recipient : SecretKey) (owner : PublicKey) (obj : SealedObject) (cfs : list CapsuleFrag) : result bytes CipherError :=
  match verify_cfrags (capsule (so_capsule obj)) owner (public_key recipient) cfs with
  | None => Err Decrypt
  | Some vs =>
      match decrypt_reencrypted recipient owner (capsule (so_capsule obj)) vs (enc_dek (so_capsule obj)) with
      | None => Err Decrypt
      | Some b => match dek_of b with Err e => Err e | Ok dek => open dek (ciphertext obj) end
      end
  end.

Context `{!AeadLaws} `{!KeyedXofLaws} `{!UmbralLaws}.

Lemma open_capsule_encapsulate r sk dek : length dek = DEK_LEN -> open_capsule sk (encapsulate r (public_key sk) dek) = Ok dek.
Proof.
  intros Hd. unfold encapsulate, open_capsule. destruct (umbral_encrypt r (public_key sk) dek) as [c e] eqn:E. cbn.
  rewrite (decrypt_original_encrypt _ _ _ _ _ E). unfold dek_of. by rewrite Hd, Nat.eqb_refl.
Qed.

(** The fragments proxies return for a part of a grant. *)
Lemma proxies_answer r owner recipient t n obj kfs :
  (forall kf, kf ∈ kfs -> kf ∈ generate_kfrags r owner recipient owner t n true true) ->
  map (reencrypt (public_key owner) recipient obj) (map kfrag_unverify kfs) = map (fun kf => Ok (cfrag_unverify (umbral_reencrypt (capsule (so_capsule obj)) kf))) kfs /\
  verify_cfrags (capsule (so_capsule obj)) (public_key owner) recipient (map (fun kf => cfrag_unverify (umbral_reencrypt (capsule (so_capsule obj)) kf)) kfs)
    = Some (map (umbral_reencrypt (capsule (so_capsule obj))) kfs).
Proof.
  induction kfs as [|kf kfs IH]; intros Hin; [done|]. destruct IH as [E1 E2]; [intros; apply Hin; by right|]. cbn [map verify_cfrags]. split.
  - rewrite E1. f_equal. unfold reencrypt. by rewrite (kfrag_verifies r owner recipient t n kf) by (apply Hin; left).
  - rewrite (cfrag_verifies r owner recipient t n kf) by (apply Hin; left). cbn. by rewrite E2.
Qed.

(** A sealed object opens for its owner, and for whoever a threshold of
    proxies serves.  With a 32-byte data key and a 24-byte nonce: the owner's
    key decrypts it; and when the owner grants it to a recipient in [shares]
    fragments, the proxies that hold any [threshold] of them or more accept
    their fragment and answer, and the recipient decrypts the object from the
    answers with its own key. *)
Theorem sealed_object_opens_for_grantees (dek nonce r r' : bytes) (owner recipient : SecretKey) (threshold shares : nat) (plaintext : bytes) (kfs : list VerifiedKeyFrag) :
  length dek = DEK_LEN -> length nonce = XNONCE_LEN ->
  sublist kfs (generate_kfrags r' owner (public_key recipient) owner threshold shares true true) -> (0 < threshold <= length kfs)%nat ->
  let obj := encrypt dek nonce r (public_key owner) plaintext in
  decrypt_self owner obj = Ok plaintext /\
  exists cfs, map (reencrypt (public_key owner) (public_key recipient) obj) (map kfrag_unverify kfs) = map Ok cfs /\
    decrypt_granted recipient (public_key owner) obj cfs = Ok plaintext.
Proof.
  intros Hd Hn Hsub Ht obj. pose proof (proj1 (open_seal_any nonce dek plaintext Hn)) as Ho. split.
  - unfold decrypt_self, obj. cbn [so_capsule encrypt ciphertext]. by rewrite open_capsule_encapsulate.
  - destruct (proxies_answer r' owner (public_key recipient) threshold shares obj kfs) as [E1 E2].
    { intros kf Hk. eapply elem_of_submseteq; [exact Hk|]. by apply sublist_submseteq. }
    exists (map (fun kf => cfrag_unverify (umbral_reencrypt (capsule (so_capsule obj)) kf)) kfs). split; [by rewrite E1, map_map|].
    unfold decrypt_granted. rewrite E2. unfold obj in *. cbn [so_capsule encrypt ciphertext] in *. unfold encapsulate in *.
    destruct (umbral_encrypt r (public_key owner) dek) as [c e] eqn:Ee. cbn [capsule enc_dek] in *.
    rewrite (decrypt_reencrypted_threshold _ _ _ _ _ _ _ _ _ _ Ee Hsub Ht). unfold dek_of. by rewrite Hd, Nat.eqb_refl.
Qed.
End capsule.

(** ** Instances *)

(** The "cipher" xors nothing and appends the key as its tag; a capsule names
    its owner; a fragment names its grant. *)
Definition toy_aead : Aead := {|
  aead_encrypt := fun k n m => m ++ k;
  aead_decrypt := fun k n c => if bool_decide (drop (length c - length k) c = k) then Some (take (length c - length k) c) else None
|}.
Definition toy_keyed_xof : KeyedXof := fun k m n => replicate n (toy_digest (k ++ m) mod 256).

Definition toy_kfrag : Type := Z * Z * nat * nat.
Definition toy_umbral : Umbral := {|
  SecretKey := Z; PublicKey := Z; Capsule := Z; KeyFrag := toy_kfrag; VerifiedKeyFrag := toy_kfrag;
  CapsuleFrag := Z * toy_kfrag; VerifiedCapsuleFrag := Z * toy_kfrag;
  public_key := fun s => s;
  umbral_encrypt := fun _ pk m => (pk, m);
  decrypt_original := fun sk c ct => if c =? sk then Some ct else None;
  generate_kfrags := fun _ sk pk _ t n _ _ => map (fun i => (sk, pk, t, i)) (seq 0 n);
  kfrag_unverify := fun k => k;
  kfrag_verify := fun k o _ r => if (k.1.1.1 =? o) && match r with Some r => k.1.1.2 =? r | None => true end then Some k else None;
  umbral_reencrypt := fun c k => (c, k);
  cfrag_unverify := fun v => v;
  cfrag_verify := fun f c o _ r => if (f.1 =? c) && (f.2.1.1.1 =? o) && (f.2.1.1.2 =? r) then Some f else None;
  decrypt_reencrypted := fun rsk o c vs ct =>
    match vs with
    | (_, k) :: _ => if (k.1.1.1 =? c) && (k.1.1.2 =? rsk) && (k.1.2 <=? length vs)%nat then Some ct else None
    | [] => None
    end
|}.

Lemma toy_aead_laws : @AeadLaws toy_aead.
Proof.
  constructor. intros k n m. unfold aead_decrypt, aead_encrypt, toy_aead. rewrite length_app.
  replace (length m + length k - length k)%nat with (length m) by lia. rewrite drop_app_length, take_app_length, bool_decide_true by done. done.
Qed.
Lemma toy_keyed_xof_laws : @KeyedXofLaws toy_keyed_xof.
Proof. intros k m n. apply length_replicate. Qed.

Lemma toy_umbral_laws : @UmbralLaws toy_umbral.
Proof.
  constructor.
  - intros r sk m c ct [= <- <-]. cbn. by rewrite Z.eqb_refl.
  - intros r sk pk t n kf (i & -> & _)%list_elem_of_fmap. cbn. by rewrite !Z.eqb_refl.
  - intros. cbn. by rewrite length_map, length_seq.
  - intros r sk pk t n kf c (i & -> & _)%list_elem_of_fmap. cbn. by rewrite !Z.eqb_refl.
  - intros r r' sk rsk t n m c ct kfs [= <- <-] Hs Ht. cbn in *. destruct kfs as [|kf kfs]; [cbn in Ht; lia|].
    assert (Hk : kf ∈ map (fun i : nat => (sk, rsk, t, i)) (seq 0 n)) by (eapply elem_of_submseteq; [left|by apply sublist_submseteq]).
    apply list_elem_of_fmap in Hk as (i & -> & _). cbn. rewrite !Z.eqb_refl, length_map. cbn in Ht. by rewrite (proj2 (Nat.leb_le t (S (length kfs)))) by lia.
Qed.

#[local] Existing Instances toy_aead toy_keyed_xof toy_umbral toy_aead_laws toy_keyed_xof_laws toy_umbral_laws.

(** Two of three fragments, the second one missing. *)
Lemma sealed_object_opens_for_grantees_witness :
  decrypt_self 3 (encrypt (replicate 32 7) (replicate 24 1) [] (public_key 3) [1; 2; 3]) = Ok [1; 2; 3].
Proof.
  refine (proj1 (sealed_object_opens_for_grantees (replicate 32 7) (replicate 24 1) [] [] 3 5 2 3 [1; 2; 3] [(3, 5, 2%nat, 0%nat); (3, 5, 2%nat, 2%nat)] eq_refl eq_refl _ _)).
  - cbn. by apply sublist_skip, sublist_cons, sublist_skip.
  - cbn. lia.
Defined.
