(* ===== verification/ObjManifest.v ===== *)
(** Content manifests and encrypted envelopes ([crates/obj/src/manifest.rs],
    [crates/obj/src/encrypted.rs]) and the links of an object to others
    ([chain_children] of [crates/obj/src/lib.rs]). *)

From S2P Require Import Prelude Crypto Pager Cipher.

Open Scope Z_scope.

Definition MANIFEST_MAGIC : bytes := str_bytes "ZMANIFS1".
Definition ENVELOPE_MAGIC : bytes := str_bytes "ZENVELP1".

Record Segment := mk_segment { seg_cid : key; seg_len : Z }.
Record Entry := mk_entry { e_name : string; e_size : Z; e_is_dir : bool; e_cid : key }.

Inductive Manifest :=
| File (name : string) (size : Z) (mime : string) (segments : list Segment)
| Dir (name : string) (entries : list Entry).

(** [slice::strip_prefix]. *)
Definition strip_prefix (p b : bytes) : option bytes :=
  if bool_decide (take (length p) b = p) then Some (drop (length p) b) else None.

Lemma strip_prefix_app p b : strip_prefix p (p ++ b) = Some b.
Proof. unfold strip_prefix. by rewrite take_app_length, bool_decide_true, drop_app_length. Qed.

Lemma strip_prefix_Some p b r : strip_prefix p b = Some r <-> b = p ++ r.
Proof.
  split; [|intros ->; apply strip_prefix_app]. unfold strip_prefix. case_bool_decide as E; [|done]. intros [= <-].
  transitivity (take (length p) b ++ drop (length p) b); [symmetry; apply take_drop|by rewrite E].
Qed.

Definition manifest_name (m : Manifest) : string := match m with File n _ _ _ | Dir n _ => n end.

(** The sum of the sizes, under overflow checks. *)
Fixpoint sum_sizes (l : list Entry) : option Z :=
  match l with [] => Some 0 | e :: l' => t ← sum_sizes l'; checked_add t (e_size e) end.
Definition manifest_size (m : Manifest) : option Z :=
  match m with File _ size _ _ => Some size | Dir _ entries => sum_sizes entries end.
Definition manifest_is_dir (m : Manifest) : bool := match m with Dir _ _ => true | File _ _ _ _ => false end.
Definition file_segments (m : Manifest) : option (list Segment) :=
  match m with File _ _ _ segs => Some segs | Dir _ _ => None end.

Section manifest.
Context `{Postcard Manifest}.

Definition manifest_encode (m : Manifest) : bytes := MANIFEST_MAGIC ++ to_allocvec m.
Definition manifest_decode (b : bytes) : option Manifest := r ← strip_prefix MANIFEST_MAGIC b; from_bytes r.

Lemma manifest_decode_encode `{!PostcardLaws Manifest} m : manifest_decode (manifest_encode m) = Some m.
Proof. unfold manifest_decode, manifest_encode. rewrite strip_prefix_app. apply postcard_roundtrip. Qed.
End manifest.

Record PlainMeta := mk_meta { m_name : string; m_mime : string }.
Record Recipient := mk_recipient { recipient : bytes; kfrags : bytes }.

Section envelope.
Context `{Umbral}.

Record EncryptedEnvelope := mk_envelope {
  env_capsule : DekCapsule;
  env_segments : list Segment;
  env_meta : bytes;
  env_size : Z;
  env_owner : key;
  env_recipients : list Recipient
}.

Context `{Postcard EncryptedEnvelope} `{Postcard Manifest} `{Postcard PlainMeta}.

Definition envelope_encode (e : EncryptedEnvelope) : bytes := ENVELOPE_MAGIC ++ to_allocvec e.
Definition envelope_decode (b : bytes) : option EncryptedEnvelope := r ← strip_prefix ENVELOPE_MAGIC b; from_bytes r.
Definition is_envelope (b : bytes) : bool := bool_decide (is_Some (strip_prefix ENVELOPE_MAGIC b)).

Definition meta_encode (m : PlainMeta) : bytes := to_allocvec m.
Definition meta_decode (b : bytes) : option PlainMeta := from_bytes b.

Definition chain_children (b : bytes) : list key :=
  match envelope_decode b with
  | Some env => map seg_cid (env_segments env)
  | None =>
      match manifest_decode b with
      | Some (File _ _ _ segs) => map seg_cid segs
      | Some (Dir _ entries) => map e_cid entries
      | None => []
      end
  end.

Lemma envelope_decode_encode `{!PostcardLaws EncryptedEnvelope} e : envelope_decode (envelope_encode e) = Some e.
Proof. unfold envelope_decode, envelope_encode. rewrite strip_prefix_app. apply postcard_roundtrip. Qed.

(** The two magics differ, so a manifest is never taken for an envelope. *)
Lemma chain_children_encode `{!PostcardLaws EncryptedEnvelope} `{!PostcardLaws Manifest} :
  (forall e, chain_children (envelope_encode e) = map seg_cid (env_segments e)) /\
  (forall m, chain_children (manifest_encode m) = match m with File _ _ _ segs => map seg_cid segs | Dir _ es => map e_cid es end).
Proof.
  unfold chain_children. split; [intros e; by rewrite envelope_decode_encode|]. intros m.
  assert (envelope_decode (manifest_encode m) = None) as ->; [|rewrite manifest_decode_encode; by destruct m].
  unfold envelope_decode. destruct (strip_prefix ENVELOPE_MAGIC (manifest_encode m)) as [r|] eqn:E; [|done].
  apply strip_prefix_Some in E. unfold manifest_encode in E. apply (f_equal (take 8)) in E.
  rewrite !take_app_le in E by (vm_compute; lia). vm_compute in E. discriminate E.
Qed.
End envelope.
