(* ===== verification/ObjCore.v ===== *)
(** The object engine ([crates/obj/src/lib.rs]), its state and its client side:
    publishing, fetching, pins, wants and deletions, walks over the objects a
    file or folder links to, files and ranges, private files.

    The outside of the node is the class [ObjNet]: what the clocks, the
    content routing, the peers and the wired gates answer at each point of
    time.  A point of time is a number that every use advances, so an answer
    may depend on everything that happened before.  Requests that the code
    issues together are answered in order.  An operation is a state
    transformer; [None] is a panic, an exhausted random tape or, in the walks,
    exhausted fuel.  What the node sends out without waiting for a result
    (announcements, jobs, metered bytes) is appended to [sent]. *)

From S2P Require Import Prelude Crypto Pager Cipher ObjManifest Wire Gf Linear Erasure ErasureDecode VTags Token PieceStore.

Open Scope Z_scope.

Definition FILE_SEGMENT_BYTES : Z := 8 * 1024 * 1024.
Definition FILE_K : Z := 32.
Definition FANOUT : nat := 16.
Definition ROUNDS : nat := 64.
Definition REPUBLISH_MS : Z := 22 * 3600 * 1000.
Definition CLASS_CRITICAL : Z := 0.
Definition CLASS_NORMAL : Z := 1.

Inductive ConsumeMode := Seed | Drop | Ephemeral.

#[export] Instance ConsumeMode_eq_dec : EqDecision ConsumeMode.
Proof. solve_decision. Defined.

(** Durations: [fade_grace] in the unit of the monotonic clock,
    [eviction_cooldown] in seconds. *)
Record ObjConfig := mk_config {
  c_k : Z;
  durability_threshold : nat;
  capacity_bytes : Z;
  scale_threshold : Z;
  degrade_threshold : Z;
  fade_grace : Z;
  eviction_cooldown : Z;
  active_set_k : nat;
  file_segment_bytes : Z;
  file_k : Z
}.

Definition config_default : ObjConfig :=
  mk_config 8 8 (10 * 1024 * 1024 * 1024) 20 5 (24 * 60 * 60 * 1000) (30 * 24 * 60 * 60) 4 FILE_SEGMENT_BYTES FILE_K.

Record ProviderRecord (P : Type) := mk_provider { pr_node_id : key; pr_addr : P; pr_piece_count : Z; pr_pinned : bool }.
Arguments mk_provider {P}.
Arguments pr_node_id {P}.
Arguments pr_addr {P}.
Arguments pr_piece_count {P}.
Arguments pr_pinned {P}.

Record MetaRecord := mk_meta_record { mr_publisher : key; mr_published_at : Z; mr_comment : option string }.

Inductive EngineWork := PublishDistribute (c : key) | Reconcile (c : key).

Inductive Sent :=
| Announced (c : key) (count : Z) (pinned : bool)
| Withdrawn (c : key)
| WantAnnounced (c : key)
| WantWithdrawn (c : key)
| MetaAnnounced (c : key) (published_at : Z) (comment : option string)
| MetaWithdrawn (c : key)
| Work (w : EngineWork)
| Spawned (w : EngineWork)
| ScaleTriggered (c : key)
| Metered (provider : key) (n : Z)
| RepairNeeded (c : key)
| DiskWatermarkHit (used cap : Z).

Inductive EngErr :=
| EmptyContent
| StoreErr (e : StoreError)
| CodecErr (e : ErasureError)
| MalformedTags
| FetchDeclined
| NoProviders
| Polluted
| NoPieces
| Insufficient
| Mismatch
| SystemObject
| NotAManifest
| IsAFolder (name : string)
| NoKeypair
| NotAnEnvelope
| CipherErr (e : CipherError)
| CorruptMeta
| RequestFailed
| PushRejected (reason : string)
| UnexpectedReply
| Choked
| RoutingErr.

Record CidHealth := mk_health {
  h_last_scan_ms : Z; h_effective : Z; h_floor : Z; h_live_providers : Z; h_decision : string; h_action : string
}.

(** The engine with its store and the rest of the random tape. *)
Record Engine := mk_engine {
  store : Store;
  rng : tape;
  time : nat;
  demand : gmap key Z;
  last_served : gmap key Z;
  pending : list (key * Z * Z);
  announced_at : gmap key Z;
  at_risk_ids : gset key;
  fading_ids : gset key;
  surplus_ids : gset key;
  alive_cache : option (Z * gset key);
  node_liveness : gmap key (Z * bool);
  health : gmap key CidHealth;
  scan_snapshot : gmap key (Z * list key);
  sent : list Sent
}.

Definition set_store (e : Engine) (s : Store) : Engine := mk_engine s (rng e) (time e) (demand e) (last_served e) (pending e) (announced_at e) (at_risk_ids e) (fading_ids e) (surplus_ids e) (alive_cache e) (node_liveness e) (health e) (scan_snapshot e) (sent e).
Definition set_rng (e : Engine) (t : tape) : Engine := mk_engine (store e) t (time e) (demand e) (last_served e) (pending e) (announced_at e) (at_risk_ids e) (fading_ids e) (surplus_ids e) (alive_cache e) (node_liveness e) (health e) (scan_snapshot e) (sent e).
Definition set_time (e : Engine) (n : nat) : Engine := mk_engine (store e) (rng e) n (demand e) (last_served e) (pending e) (announced_at e) (at_risk_ids e) (fading_ids e) (surplus_ids e) (alive_cache e) (node_liveness e) (health e) (scan_snapshot e) (sent e).
Definition set_sent (e : Engine) (l : list Sent) : Engine := mk_engine (store e) (rng e) (time e) (demand e) (last_served e) (pending e) (announced_at e) (at_risk_ids e) (fading_ids e) (surplus_ids e) (alive_cache e) (node_liveness e) (health e) (scan_snapshot e) l.

(** The outside. [instant_at] is the monotonic clock, [nanos_at] the wall
    clock the store reads; unwired gates are [None]. *)
Class ObjNet `{Umbral} := {
  PeerAddr : Type;
  addr_id : PeerAddr -> key;
  me : key;
  cfg : ObjConfig;
  enc_key : option SecretKey;
  hlc_at : nat -> Z;
  instant_at : nat -> Z;
  nanos_at : nat -> Z;
  request_at : nat -> PeerAddr -> Message -> option Message;
  connect_at : nat -> PeerAddr -> bool;
  slot_at : nat -> key -> bool;
  resolve_at : nat -> key -> option (list (ProviderRecord PeerAddr));
  shuffle_at : nat -> list (ProviderRecord PeerAddr) -> list (ProviderRecord PeerAddr);
  routing_ok_at : nat -> bool;
  wanted_at : nat -> key -> option bool;
  metas_at : nat -> key -> option (list MetaRecord);
  peers_at : nat -> list (key * PeerAddr);
  liveness : option (nat -> list (key * PeerAddr));
  pin_gate : option (nat -> Z -> bool);
  admission_gate : option (nat -> Z -> bool);
  serve_gate : option (nat -> key -> Z -> bool);
  shed_gate : option (nat -> bool);
  grant_gate : option (nat -> Z -> Z -> Z);
  work_wired : bool;
  scale_wired : bool;
  meter_wired : bool
}.

(** A shuffle permutes. *)
Class ObjNetLaws `{ObjNet} := {
  shuffle_perm : forall n l, shuffle_at n l ≡ₚ l
}.

(** ** The monad *)

Definition Eng (A : Type) : Type := Engine -> option (A * Engine).

#[global] Instance eng_ret : MRet Eng := fun A a e => Some (a, e).
#[global] Instance eng_bind : MBind Eng := fun A B f m e => match m e with Some (a, e') => f a e' | None => None end.

Definition try {A B} (m : Eng (result A EngErr)) (f : A -> Eng (result B EngErr)) : Eng (result B EngErr) :=
  r ← m; match r with Ok a => f a | Err x => mret (Err x) end.

Notation "x <-? m ; k" := (try m (fun x => k)) (at level 20, m at level 100, k at level 200, right associativity) : zeph_scope.
Notation "' x <-? m ; k" := (try m (fun x => k)) (at level 20, x pattern, m at level 100, k at level 200, only parsing) : zeph_scope.
Open Scope zeph_scope.

Definition fail {A} (x : EngErr) : Eng (result A EngErr) := mret (Err x).
Definition panic {A} : Eng A := fun _ => None.
Definition lift {A} (f : Engine -> option (A * Engine)) : Eng A := f.
Definition gets {A} (f : Engine -> A) : Eng A := fun e => Some (f e, e).
Definition with_store {A} (f : Store -> A * Store) : Eng A := fun e => let '(a, s) := f (store e) in Some (a, set_store e s).
Definition modify_store (f : Store -> Store) : Eng () := fun e => Some (tt, set_store e (f (store e))).
Definition tick : Eng nat := fun e => Some (time e, set_time e (S (time e))).
Definition send (x : Sent) : Eng () := fun e => Some (tt, set_sent e (sent e ++ [x])).
Definition when (b : bool) (m : Eng ()) : Eng () := if b then m else mret tt.

(** A draw from the generator. *)
Definition draw {A} (f : tape -> option (A * tape)) : Eng A :=
  fun e => match f (rng e) with Some (a, t) => Some (a, set_rng e t) | None => None end.

Definition of_store {A} (r : result A StoreError) : result A EngErr := match r with Ok a => Ok a | Err x => Err (StoreErr x) end.
Definition of_erasure {A} (r : result A ErasureError) : result A EngErr := match r with Ok a => Ok a | Err x => Err (CodecErr x) end.
Definition of_cipher {A} (r : result A CipherError) : result A EngErr := match r with Ok a => Ok a | Err x => Err (CipherErr x) end.

Fixpoint for_each {A B} (f : A -> Eng B) (l : list A) : Eng (list B) :=
  match l with [] => mret [] | x :: l' => y ← f x; ys ← for_each f l'; mret (y :: ys) end.

(** [try_collect]: the first error stops. *)
Fixpoint try_each {A B} (f : A -> Eng (result B EngErr)) (l : list A) : Eng (result (list B) EngErr) :=
  match l with [] => mret (Ok []) | x :: l' => y <-? f x; ys <-? try_each f l'; mret (Ok (y :: ys)) end.

Section engine.
Context `{Blake3} `{Xof} `{Aead} `{KeyedXof}.
Context `{Net : ObjNet}.
Context `{Postcard Generation} `{Postcard VTags} `{Postcard Manifest} `{Postcard EncryptedEnvelope} `{Postcard PlainMeta}.

(** ** What the outside answers *)

Definition nanos : Eng Z := n ← tick; mret (nanos_at n).
Definition secs : Eng Z := n ← tick; mret (nanos_at n / 1000000000).
Definition instant : Eng Z := n ← tick; mret (instant_at n).
Definition hlc : Eng Z := n ← tick; mret (hlc_at n).
Definition now_millis : Eng Z := t ← hlc; mret (Z.shiftr t 16).
Definition request (peer : PeerAddr) (msg : Message) : Eng (option Message) := n ← tick; mret (request_at n peer msg).
Definition resolve (c : key) : Eng (list (ProviderRecord PeerAddr)) := n ← tick; mret (default [] (resolve_at n c)).
Definition peers : Eng (list (key * PeerAddr)) := n ← tick; mret (peers_at n).

(** An announcement and the like: sent, and whether routing took it. *)
Definition routing (x : Sent) : Eng bool := n ← tick; _ ← send x; mret (routing_ok_at n).

Definition gate {A} (g : option (nat -> A -> bool)) (x : A) : Eng bool :=
  match g with Some f => n ← tick; mret (f n x) | None => mret true end.
Definition pin_allowed (n : Z) : Eng bool := gate pin_gate n.
Definition admit_fetch (n : Z) : Eng bool := gate admission_gate n.
Definition meter_bytes (provider : key) (n : Z) : Eng () := when meter_wired (send (Metered provider n)).

Definition s_content (c : key) : Eng (option bytes) := t ← nanos; with_store (fun s => content s c t).
Definition s_serve (c : key) (exclude : gset key) (max : nat) : Eng (result (list CodedPiece) StoreError) :=
  t ← nanos; lift (fun e => match serve_pieces (store e) c exclude max t (rng e) with
                            | Some (r, s, tp) => Some (r, set_rng (set_store e s) tp)
                            | None => None
                            end).

(** ** Publishing *)

Record PublishReport := mk_report { r_cid : key; pieces_pushed : nat; distinct_peers : nat; durable : bool; r_pinned : bool }.

(** The generation of some content in [k] sources: [None] is the division by
    zero. *)
Definition generation_of (b : bytes) (k : Z) : Eng (result Generation EngErr) :=
  if k <=? 0 then panic
  else
    let piece_len := Z.max (div_ceil (Z.of_nat (length b)) k) 1 in
    r ← draw (generate (split_sources b (Z.to_nat k) (Z.to_nat piece_len)));
    tags <-? mret (of_erasure r);
    mret (Ok (mk_gen (as_u32 k) piece_len (Z.of_nat (length b)) (to_allocvec tags))).

Definition publish_impl (b : bytes) (pin system : bool) (k : Z) : Eng (result PublishReport EngErr) :=
  if bool_decide (b = []) then fail EmptyContent
  else
    pin ← (if pin then pin_allowed (Z.of_nat (length b)) else mret false);
    let c := Cid_of b in
    g <-? generation_of b k;
    t ← nanos;
    r ← with_store (fun s => put_generation s c g t);
    _ <-? mret (of_store r);
    _ ← when system (modify_store (fun s => mark_system s c));
    t ← nanos;
    r ← (if pin then with_store (fun s => PieceStore.pin s c b t) else mret (Ok tt));
    _ <-? mret (of_store r);
    distributed ← gets (fun e => is_distributed (store e) c);
    if distributed : bool then
      _ ← when pin (_ ← routing (Announced c 0 true); mret tt);
      mret (Ok (mk_report c 0 0 true pin))
    else
      held ← gets (fun e => holds_content (store e) c);
      t ← nanos;
      r ← (if held : bool then mret (Ok tt) else with_store (fun s => put_content s c b false t));
      _ <-? mret (of_store r);
      _ ← when (negb system && negb pin) (modify_store (fun s => set_want s c));
      _ ← send (if work_wired then Work (PublishDistribute c) else Spawned (PublishDistribute c));
      mret (Ok (mk_report c 0 0 false pin)).

Definition publish (b : bytes) (pin : bool) : Eng (result PublishReport EngErr) := publish_impl b pin false (c_k cfg).

Definition publish_system (b : bytes) : Eng (result key EngErr) :=
  r <-? publish_impl b false true (c_k cfg); mret (Ok (r_cid r)).

Definition publish_local (b : bytes) : Eng (result key EngErr) :=
  if bool_decide (b = []) then fail EmptyContent
  else
    let c := Cid_of b in
    g <-? generation_of b (c_k cfg);
    t ← nanos;
    r ← with_store (fun s => put_generation s c g t);
    _ <-? mret (of_store r);
    _ ← modify_store (fun s => mark_not_holdings (mark_system s c) c);
    held ← gets (fun e => holds_content (store e) c);
    t ← nanos;
    r ← (if held : bool then mret (Ok tt) else with_store (fun s => put_content s c b false t));
    _ <-? mret (of_store r);
    _ ← routing (Announced c 1 false);
    mret (Ok c).

(** ** Fetching *)

Record Fetch := mk_fetch { f_decoder : option Decoder; f_tags : option VTags; f_total : Z; f_exclude : gset key }.

Definition complete (f : Fetch) : bool := match f_decoder f with Some d => is_complete d | None => false end.

(** The loop over pieces of our own: a piece that fails its tags, was seen or
    has the wrong shape is passed over. *)
Fixpoint add_local (t : VTags) (ps : list CodedPiece) (d : Decoder) (seen : gset key) : option (Decoder * gset key) :=
  match ps with
  | [] => Some (d, seen)
  | p :: ps' =>
      if verify t p && bool_decide (piece_id p ∉ seen) then
        '(_, d') ← add_piece d p; add_local t ps' d' ({[piece_id p]} ∪ seen)
      else add_local t ps' d seen
  end.

Definition feed_local (g : Generation) (t : VTags) (local : list CodedPiece) : Eng (Decoder * gset key) :=
  fun e => match add_local t local (Erasure.new (Z.to_nat (g_k g)) (Z.to_nat (g_piece_len g))) ∅ with
           | Some r => Some (r, e)
           | None => None
           end.

Definition local_start (c : key) : Eng Fetch :=
  let none := mk_fetch None None 0 ∅ in
  og ← gets (fun e => generation (store e) c);
  match og with
  | None => mret none
  | Some g =>
      match from_bytes (g_vtags g) with
      | None => mret none
      | Some t =>
          r ← s_serve c ∅ (Z.to_nat (g_k g * 3));
          match r with
          | Ok (p :: ps) => '(d, seen) ← feed_local g t (p :: ps); mret (mk_fetch (Some d) (Some t) (g_total_len g) seen)
          | _ => mret none
          end
      end
  end.

Definition coded (w : WirePiece) : CodedPiece := mk_piece (wp_coding_vector w) (wp_data w).

(** The pieces of one response; the flag is whether one was new. *)
Fixpoint add_remote (provider : key) (t : VTags) (ws : list WirePiece) (d : Decoder) (seen : gset key) (progressed : bool)
  : Eng (result (Decoder * gset key * bool) EngErr) :=
  match ws with
  | [] => mret (Ok (d, seen, progressed))
  | w :: ws' =>
      let p := coded w in
      if negb (verify t p) then fail Polluted
      else if bool_decide (piece_id p ∈ seen) then add_remote provider t ws' d seen progressed
      else
        match add_piece d p with
        | None => panic
        | Some (Err x, _) => fail (CodecErr x)
        | Some (Ok _, d') =>
            _ ← meter_bytes provider (Z.of_nat (length (wp_data w)));
            add_remote provider t ws' d' ({[piece_id p]} ∪ seen) true
        end
  end.

(** A response starts the decoder when there is none. *)
Definition start_remote (f : Fetch) (resp : PieceResponse) : result (VTags * Decoder * Z) EngErr :=
  match f_tags f, f_decoder f with
  | Some t, Some d => Ok (t, d, f_total f)
  | _, _ =>
      match from_bytes (presp_vtags resp) with
      | None => Err MalformedTags
      | Some t => Ok (t, Erasure.new (Z.to_nat (presp_k resp)) (Z.to_nat (presp_piece_len resp)), presp_total_len resp)
      end
  end.

Fixpoint take_results (rs : list (key * option Message)) (f : Fetch) (progressed : bool) : Eng (result (Fetch * bool) EngErr) :=
  match rs with
  | [] => mret (Ok (f, progressed))
  | (provider, Some (M_PieceResponse resp)) :: rs' =>
      if negb (presp_found resp) || bool_decide (presp_pieces resp = []) then take_results rs' f progressed
      else
        '(t, d, total) <-? mret (start_remote f resp);
        '(d, seen, progressed) <-? add_remote provider t (presp_pieces resp) d (f_exclude f) progressed;
        let f := mk_fetch (Some d) (Some t) total seen in
        if complete f then mret (Ok (f, progressed)) else take_results rs' f progressed
  | _ :: rs' => take_results rs' f progressed
  end.

Definition piece_request (c : key) (f : Fetch) : Message := M_PieceRequest (mk_PieceRequest c (elements (f_exclude f)) 1).

Fixpoint rounds (n : nat) (c : key) (providers : list (ProviderRecord PeerAddr)) (f : Fetch) : Eng (result Fetch EngErr) :=
  match n with
  | O => mret (Ok f)
  | S n' =>
      if complete f then mret (Ok f)
      else
        rs ← for_each (fun p => r ← request (pr_addr p) (piece_request c f); mret (pr_node_id p, r)) (take FANOUT providers);
        '(f, progressed) <-? take_results rs f false;
        if progressed : bool then rounds n' c providers f else mret (Ok f)
  end.

(** Decoding what was gathered, and the check against the id. *)
Definition finish (c : key) (f : Fetch) : result bytes EngErr :=
  match f_decoder f with
  | None => Err NoPieces
  | Some d =>
      if negb (is_complete d) then Err Insufficient
      else match Erasure.decode d with
           | Err x => Err (CodecErr x)
           | Ok sources =>
               let b := take (Z.to_nat (f_total f)) (concat sources) in
               if Cid_verifies c b then Ok b else Err Mismatch
           end
  end.

(** Becoming a transient provider. *)
Definition seed_store (c : key) (f : Fetch) (b : bytes) : Eng () :=
  match f_tags f with
  | None => mret tt
  | Some t =>
      n1 ← nanos; n2 ← nanos;
      _ ← modify_store (fun s => (put_content (put_generation s c (mk_gen (vt_k t) (vt_piece_len t) (f_total f) (to_allocvec t)) n1).2 c b false n2).2);
      _ ← routing (Announced c 0 false); mret tt
  end.

Definition fetch (c : key) (mode : ConsumeMode) : Eng (result bytes EngErr) :=
  f ← local_start c;
  providers ← (if complete f then mret [] else resolve c);
  admitted ← (if complete f then mret true else admit_fetch (f_total f));
  if negb admitted then fail FetchDeclined
  else if bool_decide (providers = []) && negb (complete f) then fail NoProviders
  else
    n ← tick;
    f <-? rounds ROUNDS c (shuffle_at n providers) f;
    b <-? mret (finish c f);
    _ ← when (bool_decide (mode = Seed)) (seed_store c f b);
    mret (Ok b).

Definition get (c : key) (mode : ConsumeMode) : Eng (result bytes EngErr) :=
  local ← s_content c;
  match local with
  | Some b => if Cid_verifies c b then mret (Ok b) else fetch c mode
  | None => fetch c mode
  end.

Definition decode_pieces (c : key) : Eng (option bytes) :=
  og ← gets (fun e => generation (store e) c);
  match og with
  | None => mret None
  | Some g =>
      match from_bytes (g_vtags g) with
      | None => mret None
      | Some t =>
          r ← s_serve c ∅ (Z.to_nat (g_k g * 3));
          match r with
          | Ok (p :: ps) =>
              '(d, _) ← feed_local g t (p :: ps);
              mret (match finish c (mk_fetch (Some d) (Some t) (g_total_len g) ∅) with Ok b => Some b | Err _ => None end)
          | _ => mret None
          end
      end
  end.

Definition decode_local (c : key) : Eng (option bytes) :=
  local ← s_content c;
  match local with
  | Some b => if Cid_verifies c b then mret (Some b) else decode_pieces c
  | None => decode_pieces c
  end.

Definition referenced_objects (c : key) : Eng (list key) :=
  r ← decode_local c; mret (match r with Some b => chain_children b | None => [] end).

(** ** Lifecycle of a cid *)

Definition guard_not_system (c : key) : Eng (result () EngErr) :=
  sys ← gets (fun e => is_system (store e) c); mret (if sys : bool then Err SystemObject else Ok tt).

Definition pin (c : key) : Eng (result () EngErr) :=
  _ <-? guard_not_system c;
  local ← s_content c;
  b <-? (match local with
         | Some b => if Cid_verifies c b then mret (Ok b) else get c Drop
         | None => get c Drop
         end);
  t ← nanos;
  r ← with_store (fun s => PieceStore.pin s c b t);
  _ <-? mret (of_store r);
  _ ← modify_store (fun s => clear_cooldown s c);
  _ ← routing (Announced c 0 true);
  mret (Ok tt).

Definition unpin (c : key) : Eng (result () EngErr) :=
  _ <-? guard_not_system c; _ ← modify_store (fun s => PieceStore.unpin s c); mret (Ok tt).

Definition want (c : key) : Eng (result () EngErr) :=
  _ <-? guard_not_system c;
  _ ← modify_store (fun s => clear_cooldown (set_want s c) c);
  _ ← routing (WantAnnounced c); mret (Ok tt).

Definition unwant (c : key) : Eng (result () EngErr) :=
  _ ← modify_store (fun s => unset_want s c); _ ← routing (WantWithdrawn c); mret (Ok tt).

Definition undelete (c : key) : Eng (result () EngErr) :=
  _ ← modify_store (fun s => untombstone s c); mret (Ok tt).

Definition delete_local (c : key) : Eng (result () EngErr) :=
  _ <-? guard_not_system c;
  _ ← modify_store (fun s => tombstone s c); _ ← routing (Withdrawn c); mret (Ok tt).

Definition forget_local (c : key) : Eng (result () EngErr) :=
  _ <-? guard_not_system c;
  _ ← modify_store (fun s => forget s c); _ ← routing (Withdrawn c); mret (Ok tt).

Definition release_system (c : key) : Eng nat :=
  _ ← modify_store (fun s => unmark_system s c);
  providers ← resolve c;
  let others := filter (fun p => pr_node_id p <> me) providers in
  _ ← for_each (fun p => request (pr_addr p) (M_ReleaseSystem (mk_ReleaseSystem c))) others;
  mret (length others).

Definition enforce_quota : Eng () :=
  fun e =>
    match stats (store e) with
    | None => None
    | Some st =>
        let cap := capacity_bytes cfg in
        (_ ← (if (0 <? cap) && (cap <? n_bytes st) then
                _ ← send (DiskWatermarkHit (n_bytes st) cap);
                now ← secs;
                lift (fun e => n ← mul_u64 cap 9; '(_, s) ← evict_to (store e) (n / 10) now; Some (tt, set_store e s))
              else mret tt);
         now ← secs;
         modify_store (fun s => purge_cooldown s (eviction_cooldown cfg) now)) e
    end.

(** ** Walks over linked objects

    A stack of cids; each is visited once, and the body returns what it adds
    to the count and the links to follow. *)

Fixpoint walk (fuel : nat) (body : key -> Eng (nat * list key)) (stack : list key) (seen : gset key) (n : nat) : Eng nat :=
  match fuel with
  | O => panic
  | S fuel' =>
      match rev stack with
      | [] => mret n
      | c :: r =>
          if bool_decide (c ∈ seen) then walk fuel' body (rev r) seen n
          else '(m, links) ← body c; walk fuel' body (rev r ++ links) ({[c]} ∪ seen) (n + m)%nat
      end
  end.

(** The links read from the content we hold. *)
Definition links_of (c : key) : Eng (list key) :=
  local ← s_content c; mret (match local with Some b => chain_children b | None => [] end).

(** The walks that read the links, then act whatever the outcome. *)
Definition local_walk (fuel : nat) (act : key -> Eng (result () EngErr)) (c : key) : Eng nat :=
  walk fuel (fun c => links ← links_of c; _ ← act c; mret (1%nat, links)) [c] ∅ 0.

Definition unpin_chain (fuel : nat) (c : key) : Eng nat := local_walk fuel unpin c.
Definition forget_chain (fuel : nat) (c : key) : Eng nat := local_walk fuel forget_local c.
Definition want_chain (fuel : nat) (c : key) : Eng nat := local_walk fuel want c.
Definition unwant_chain (fuel : nat) (c : key) : Eng nat := local_walk fuel unwant c.
Definition ban_chain (fuel : nat) (c : key) : Eng nat := local_walk fuel delete_local c.

(** A pin fetches first, so its links are read after it. *)
Definition pin_chain (fuel : nat) (c : key) : Eng nat :=
  walk fuel (fun c => r ← pin c; links ← links_of c; mret (match r with Ok _ => 1%nat | Err _ => 0%nat end, links)) [c] ∅ 0.

Definition unban_chain (fuel : nat) (c : key) : Eng nat :=
  walk fuel (fun c => _ ← undelete c; r ← get c Drop; mret (1%nat, match r with Ok b => chain_children b | Err _ => [] end)) [c] ∅ 0.

(** ** Files *)

Record FilePublish := mk_file_publish { manifest_cid : key; content_cid : key; fp_size : Z; fp_durable : bool; fp_pinned : bool }.

Definition segment_chunks (b : bytes) : list bytes := chunks (length b) (Z.to_nat (Z.max (file_segment_bytes cfg) 1)) b.

(** Each chunk published as its own object, with what its bytes become. *)
Definition publish_segments (f : bytes -> bytes) (pin : bool) (l : list bytes) : Eng (result (list (Segment * bool)) EngErr) :=
  try_each (fun chunk => r <-? publish_impl (f chunk) pin false (file_k cfg); mret (Ok (mk_segment (r_cid r) (Z.of_nat (length chunk)), durable r))) l.

Definition publish_file (name mime : string) (b : bytes) (pin : bool) : Eng (result FilePublish EngErr) :=
  segs <-? publish_segments (fun x => x) pin (segment_chunks b);
  let segments := map fst segs in
  mr <-? publish (manifest_encode (File name (Z.of_nat (length b)) mime segments)) pin;
  now ← now_millis;
  _ ← routing (MetaAnnounced (r_cid mr) now None);
  mret (Ok (mk_file_publish (r_cid mr) (match segments with s :: _ => seg_cid s | [] => replicate 32 0 end) (Z.of_nat (length b)) (forallb snd segs) pin)).

Definition publish_dir (name : string) (entries : list Entry) (pin : bool) : Eng (result key EngErr) :=
  r <-? publish (manifest_encode (Dir name entries)) pin;
  now ← now_millis;
  _ ← routing (MetaAnnounced (r_cid r) now None);
  mret (Ok (r_cid r)).

Definition fetch_manifest (c : key) : Eng (result Manifest EngErr) :=
  b <-? get c Drop; mret (match manifest_decode b with Some m => Ok m | None => Err NotAManifest end).

Definition get_all (mode : ConsumeMode) (segs : list Segment) : Eng (result (list bytes) EngErr) := try_each (fun s => get (seg_cid s) mode) segs.

Definition fetch_file (c : key) : Eng (result (string * string * bytes) EngErr) :=
  m <-? fetch_manifest c;
  match m with
  | File name _ mime segs => parts <-? get_all Seed segs; mret (Ok (name, mime, concat parts))
  | Dir name _ => fail (IsAFolder name)
  end.

Definition get_following_manifest (c : key) (mode : ConsumeMode) : Eng (result bytes EngErr) :=
  raw <-? get c mode;
  match manifest_decode raw with
  | Some (File _ _ _ segs) => parts <-? get_all mode segs; mret (Ok (concat parts))
  | _ => mret (Ok raw)
  end.

(** The loop over segments of a range: [seg_start + seg.len] panics past u64;
    [as usize] is the identity on 64 bits. *)
Fixpoint range_loop (read : Segment -> Eng (result bytes EngErr)) (segs : list Segment) (start offset finish : Z) (out : bytes) : Eng (result bytes EngErr) :=
  match segs with
  | [] => mret (Ok out)
  | s :: segs' =>
      match checked_add start (seg_len s) with
      | None => panic
      | Some stop =>
          out <-? (if (start <? finish) && (offset <? stop) then
                     b <-? read s;
                     let lo := Nat.min (Z.to_nat (sat_sub offset start)) (length b) in
                     let hi := Nat.min (Z.to_nat (finish - start)) (length b) in
                     mret (Ok (out ++ drop lo (take hi b)))
                   else mret (Ok out));
          if finish <=? stop then mret (Ok out) else range_loop read segs' stop offset finish out
      end
  end.

Definition fetch_file_range (c : key) (offset len : Z) : Eng (result bytes EngErr) :=
  m <-? fetch_manifest c;
  match m with
  | File _ _ _ segs => range_loop (fun s => get (seg_cid s) Seed) segs 0 offset (sat_add offset len) []
  | Dir name _ => fail (IsAFolder name)
  end.

Definition set_meta (c : key) (comment : option string) : Eng (result () EngErr) :=
  n ← tick;
  published_at ← (match list_find (fun m => mr_publisher m = me) (default [] (metas_at n c)) with
                  | Some (_, m) => mret (mr_published_at m)
                  | None => now_millis
                  end);
  ok ← routing (MetaAnnounced c published_at comment);
  mret (if ok : bool then Ok tt else Err RoutingErr).

Definition del_meta (c : key) : Eng (result () EngErr) :=
  ok ← routing (MetaWithdrawn c); mret (if ok : bool then Ok tt else Err RoutingErr).

(** ** Private files *)

Record PrivatePublish := mk_private { envelope_cid : key; pv_size : Z; pv_durable : bool }.

Definition publish_private (name mime : string) (b : bytes) (pin : bool) : Eng (result PrivatePublish EngErr) :=
  match enc_key with
  | None => fail NoKeypair
  | Some sk =>
      dek ← draw (fill_bytes DEK_LEN);
      r ← draw (fill_bytes 32);
      let cap := encapsulate r (public_key sk) dek in
      segs <-? publish_segments (seal_det dek) pin (segment_chunks b);
      let env := mk_envelope cap (map fst segs) (seal_det dek (meta_encode (mk_meta name mime))) (Z.of_nat (length b)) me [] in
      er <-? publish (envelope_encode env) pin;
      mret (Ok (mk_private (r_cid er) (Z.of_nat (length b)) (forallb snd segs)))
  end.

Definition open_private_envelope (c : key) : Eng (result (bytes * EncryptedEnvelope * PlainMeta) EngErr) :=
  match enc_key with
  | None => fail NoKeypair
  | Some sk =>
      b <-? get c Drop;
      match envelope_decode b with
      | None => fail NotAnEnvelope
      | Some env =>
          dek <-? mret (of_cipher (open_capsule sk (env_capsule env)));
          mb <-? mret (of_cipher (open dek (env_meta env)));
          match meta_decode mb with
          | None => fail CorruptMeta
          | Some meta => mret (Ok (dek, env, meta))
          end
      end
  end.

Definition read_sealed (dek : bytes) (s : Segment) : Eng (result bytes EngErr) :=
  ct <-? get (seg_cid s) Seed; mret (of_cipher (open dek ct)).

Definition get_private (c : key) : Eng (result (string * string * bytes) EngErr) :=
  '(dek, env, meta) <-? open_private_envelope c;
  parts <-? try_each (read_sealed dek) (env_segments env);
  mret (Ok (m_name meta, m_mime meta, concat parts)).

Definition get_private_range (c : key) (offset len : Z) : Eng (result bytes EngErr) :=
  '(dek, env, _) <-? open_private_envelope c;
  range_loop (read_sealed dek) (env_segments env) 0 offset (sat_add offset len) [].
End engine.
