(* ===== verification/ObjLogic.v ===== *)
(** Reasoning about operations of the object engine ([ObjCore]): what a run of
    a composed operation consists of, relations that every run respects, and
    the operations that leave what the store holds as it was. *)

From S2P Require Import Prelude Crypto Pager Cipher ObjManifest Wire Gf Linear Erasure ErasureDecode VTags Token PieceStore ObjCore.

Open Scope Z_scope.
Open Scope zeph_scope.

(** ** Runs of composed operations *)

Lemma bind_inv {A B} (m : Eng A) (f : A -> Eng B) e b e' :
  (m ≫= f) e = Some (b, e') -> exists a e1, m e = Some (a, e1) /\ f a e1 = Some (b, e').
Proof. unfold mbind, eng_bind. destruct (m e) as [[a e1]|]; [|done]. eauto. Qed.

Lemma bind_run {A B} (m : Eng A) (f : A -> Eng B) e a e1 : m e = Some (a, e1) -> (m ≫= f) e = f a e1.
Proof. unfold mbind, eng_bind. by intros ->. Qed.

Lemma try_inv {A B} (m : Eng (result A EngErr)) (f : A -> Eng (result B EngErr)) e b e' :
  try m f e = Some (b, e') ->
  (exists a e1, m e = Some (Ok a, e1) /\ f a e1 = Some (b, e')) \/ (exists x, m e = Some (Err x, e') /\ b = Err x).
Proof.
  unfold try. intros ([a|x] & e1 & Hm & Hf)%bind_inv; [left; eauto|right]. injection Hf as <- <-. eauto.
Qed.

Lemma try_run {A B} (m : Eng (result A EngErr)) (f : A -> Eng (result B EngErr)) e a e1 : m e = Some (Ok a, e1) -> try m f e = f a e1.
Proof. unfold try. intros Hm. by rewrite (bind_run _ _ _ _ _ Hm). Qed.

Lemma ret_inv {A} (a : A) e b e' : (mret a : Eng A) e = Some (b, e') -> b = a /\ e' = e.
Proof. by intros [= <- <-]. Qed.

(** Splits a run of a sequence into the runs of its parts. *)
Ltac run_inv H :=
  lazymatch type of H with
  | (_ ≫= _) _ = Some _ => let Hm := fresh "Hm" in apply bind_inv in H as (? & ? & Hm & H)
  | try _ _ _ = Some _ => let Hm := fresh "Hm" in apply try_inv in H as [(? & ? & Hm & H)|(? & Hm & H)]
  | mret _ _ = Some _ => apply ret_inv in H as [? ?]
  | fail _ _ = Some _ => unfold fail in H; apply ret_inv in H as [? ?]
  end.

(** ** Relations every run respects *)

Section ensures.
Context (R : relation Engine) `{!PreOrder R}.

Definition ensures {A} (m : Eng A) : Prop := forall e a e', m e = Some (a, e') -> R e e'.

Lemma ensures_ret {A} (a : A) : ensures (mret a).
Proof. intros e b e' [= _ <-]. reflexivity. Qed.
Lemma ensures_fail {A} x : ensures (@fail A x).
Proof. apply ensures_ret. Qed.
Lemma ensures_panic {A} : ensures (@panic A).
Proof. by intros e a e'. Qed.
Lemma ensures_gets {A} (f : Engine -> A) : ensures (gets f).
Proof. intros e b e' [= _ <-]. reflexivity. Qed.
Lemma ensures_bind {A B} (m : Eng A) (f : A -> Eng B) : ensures m -> (forall a, ensures (f a)) -> ensures (m ≫= f).
Proof. intros Hm Hf e b e' (a & e1 & E1 & E2)%bind_inv. transitivity e1; [by eapply Hm|by eapply Hf]. Qed.
Lemma ensures_try {A B} (m : Eng (result A EngErr)) (f : A -> Eng (result B EngErr)) : ensures m -> (forall a, ensures (f a)) -> ensures (try m f).
Proof. intros Hm Hf. apply ensures_bind; [done|]. intros [a|x]; [done|apply ensures_ret]. Qed.
Lemma ensures_when b m : ensures m -> ensures (when b m).
Proof. intros Hm. destruct b; [done|apply ensures_ret]. Qed.
Lemma ensures_for_each {A B} (f : A -> Eng B) l : (forall a, ensures (f a)) -> ensures (for_each f l).
Proof. intros Hf. induction l; [apply ensures_ret|]. repeat (apply ensures_bind; [done|intros ?]). apply ensures_ret. Qed.
Lemma ensures_try_each {A B} (f : A -> Eng (result B EngErr)) l : (forall a, ensures (f a)) -> ensures (try_each f l).
Proof. intros Hf. induction l; [apply ensures_ret|]. repeat (apply ensures_try; [done|intros ?]). apply ensures_ret. Qed.
Lemma ensures_walk fuel body stack seen n : (forall c, ensures (body c)) -> ensures (walk fuel body stack seen n).
Proof.
  intros Hb. revert stack seen n. induction fuel as [|fuel IH]; intros stack seen n; [apply ensures_panic|]. cbn. destruct (rev stack) as [|c r]; [apply ensures_ret|].
  case_bool_decide; [apply IH|]. apply ensures_bind; [apply Hb|]. intros [m links]. apply IH.
Qed.
End ensures.

Create HintDb eng.
#[export] Hint Resolve ensures_panic ensures_gets : eng.

(** Takes an operation apart down to the parts the database knows. *)
Ltac ens :=
  cbv beta;
  lazymatch goal with
  | |- ensures _ (_ ≫= _) => apply ensures_bind; [apply _|ens|intros ?; ens]
  | |- ensures _ (try _ _) => apply ensures_try; [apply _|ens|intros ?; ens]
  | |- ensures _ (mret _) => apply ensures_ret; apply _
  | |- ensures _ (fail _) => apply ensures_fail; apply _
  | |- ensures _ (when _ _) => apply ensures_when; [apply _|ens]
  | |- ensures _ (for_each _ _) => apply ensures_for_each; [apply _|intros ?; ens]
  | |- ensures _ (try_each _ _) => apply ensures_try_each; [apply _|intros ?; ens]
  | |- ensures _ (match ?x with _ => _ end) => destruct x; ens
  | |- _ => eauto with eng typeclass_instances
  end.

(** ** What the store holds *)

(** The same up to access times. *)
Record same (s s' : Store) : Prop := {
  sm_index : forall c, touch 0 <$> index s' !! c = touch 0 <$> index s !! c;
  sm_disk : disk s' = disk s;
  sm_tombstones : tombstones s' = tombstones s;
  sm_wanted : wanted s' = wanted s;
  sm_distributed : distributed s' = distributed s;
  sm_evicted : evicted s' = evicted s
}.

#[export] Instance same_preorder : PreOrder same.
Proof.
  split; [by intros s|]. intros s1 s2 s3 [] []. split; congruence.
Qed.

Lemma same_field {V} (f : CidState -> V) s s' c : (forall st, f (touch 0 st) = f st) -> same s s' -> f <$> index s' !! c = f <$> index s !! c.
Proof.
  intros Hf Hs. pose proof (sm_index _ _ Hs c) as E. destruct (index s' !! c), (index s !! c); try done. injection E as E. cbn. f_equal.
  rewrite <- (Hf c0), <- (Hf c1). unfold touch. congruence.
Qed.

Lemma touch_same s c now st : index s !! c = Some st -> same s (with_index s (<[c := touch now st]> (index s))).
Proof.
  intros Hst. split; try done. intros c'. cbn. destruct (decide (c' = c)) as [->|Hne]; [by rewrite lookup_insert_eq, Hst|by rewrite lookup_insert_ne].
Qed.

Lemma content_same s c now : same s (content s c now).2.
Proof. unfold content. destruct (index s !! c) as [st|] eqn:E; [|done]. destruct (has_content st); cbn; [by apply touch_same|done]. Qed.

Section store_reads.
Context `{Blake3}.

Lemma serve_same s c exclude max now t r s' t' : serve_pieces s c exclude max now t = Some (r, s', t') -> same s s'.
Proof.
  unfold serve_pieces. destruct (index s !! c) as [st|] eqn:E; [|by intros [= _ <- _]].
  pose proof (touch_same s c now st E) as H1. destruct (_ && _); [|by intros [= _ <- _]].
  destruct (content _ c now) as [[b|] s1] eqn:Ec.
  - destruct (top_up _ _ _ _ _ _) as [[r' t1]|]; [|done]. cbn. intros [= _ <- _]. etransitivity; [exact H1|].
    pose proof (content_same (with_index s (<[c := touch now st]> (index s))) c now) as H2. by rewrite Ec in H2.
  - intros [= _ <- _]. etransitivity; [exact H1|].
    pose proof (content_same (with_index s (<[c := touch now st]> (index s))) c now) as H2. by rewrite Ec in H2.
Qed.

Lemma mint_same s c now t r s' t' : mint_from_content s c now t = Some (r, s', t') -> same s s'.
Proof.
  unfold mint_from_content. destruct (generation s c); [|by intros [= _ <- _]]. pose proof (content_same s c now) as H2.
  destruct (content s c now) as [[b|] s1]; [|by intros [= _ <- _]]. destruct (encode _ _) as [[r' t1]|]; [|done]. by intros [= _ <- _].
Qed.
End store_reads.

(** Runs that leave the holdings as they were. *)
Definition keeps : relation Engine := fun e e' => same (store e) (store e').

#[export] Instance keeps_preorder : PreOrder keeps.
Proof. split; [intros e; apply same_preorder|]. intros e1 e2 e3 H1 H2. unfold keeps in *. by transitivity (store e2). Qed.

Section keeps.
Context `{Blake3} `{Xof} `{Aead} `{KeyedXof}.
Context `{Net : ObjNet}.
Context `{Postcard Generation} `{Postcard VTags} `{Postcard Manifest} `{Postcard EncryptedEnvelope} `{Postcard PlainMeta}.

Lemma keeps_tick : ensures keeps tick.
Proof. by intros e a e' [= _ <-]. Qed.
Lemma keeps_send x : ensures keeps (send x).
Proof. by intros e a e' [= _ <-]. Qed.
Lemma keeps_draw {A} (f : tape -> option (A * tape)) : ensures keeps (draw f).
Proof. intros e a e'. unfold draw. destruct (f (rng e)) as [[x t]|]; [|done]. by intros [= _ <-]. Qed.
#[local] Hint Resolve keeps_tick keeps_send keeps_draw : eng.

Lemma keeps_nanos : ensures keeps nanos.
Proof. unfold nanos. ens. Qed.
Lemma keeps_secs : ensures keeps secs.
Proof. unfold secs. ens. Qed.
Lemma keeps_instant : ensures keeps instant.
Proof. unfold instant. ens. Qed.
Lemma keeps_hlc : ensures keeps hlc.
Proof. unfold hlc. ens. Qed.
#[local] Hint Resolve keeps_hlc : eng.
Lemma keeps_now_millis : ensures keeps now_millis.
Proof. unfold now_millis. ens. Qed.
Lemma keeps_request p m : ensures keeps (request p m).
Proof. unfold request. ens. Qed.
Lemma keeps_resolve c : ensures keeps (resolve c).
Proof. unfold resolve. ens. Qed.
Lemma keeps_peers : ensures keeps peers.
Proof. unfold peers. ens. Qed.
Lemma keeps_routing x : ensures keeps (routing x).
Proof. unfold routing. ens. Qed.
Lemma keeps_gate {A} (g : option (nat -> A -> bool)) x : ensures keeps (gate g x).
Proof. unfold gate. ens. Qed.
Lemma keeps_admit n : ensures keeps (admit_fetch n).
Proof. apply keeps_gate. Qed.
Lemma keeps_meter k n : ensures keeps (meter_bytes k n).
Proof. unfold meter_bytes. ens. Qed.
#[local] Hint Resolve keeps_nanos keeps_request keeps_resolve keeps_peers keeps_routing keeps_gate keeps_admit keeps_meter : eng.

Lemma keeps_content c : ensures keeps (s_content c).
Proof.
  apply ensures_bind; [apply _|apply keeps_nanos|]. intros t e a e'. unfold with_store. pose proof (content_same (store e) c t) as Hs.
  destruct (content (store e) c t) as [b s]. by intros [= _ <-].
Qed.
Lemma keeps_serve c ex mx : ensures keeps (s_serve c ex mx).
Proof.
  apply ensures_bind; [apply _|apply keeps_nanos|]. intros t e a e'. unfold lift. destruct (serve_pieces _ _ _ _ _ _) as [[[r s] t']|] eqn:E; [|done].
  apply serve_same in E. by intros [= _ <-].
Qed.
#[local] Hint Resolve keeps_content keeps_serve : eng.

Lemma keeps_feed_local g t l : ensures keeps (feed_local g t l).
Proof. intros e a e'. unfold feed_local. destruct (add_local _ _ _ _); [|done]. by intros [= _ <-]. Qed.
#[local] Hint Resolve keeps_feed_local : eng.

Lemma keeps_local_start c : ensures keeps (local_start c).
Proof. unfold local_start. ens. Qed.

Lemma keeps_add_remote p t ws : forall d seen pr, ensures keeps (add_remote p t ws d seen pr).
Proof. induction ws as [|w ws IH]; intros d seen pr; cbn [add_remote]; ens. Qed.
#[local] Hint Resolve keeps_add_remote keeps_local_start : eng.

Lemma keeps_take_results rs : forall f pr, ensures keeps (take_results rs f pr).
Proof. induction rs as [|[p m] rs IH]; intros f pr; cbn [take_results]; ens. Qed.
#[local] Hint Resolve keeps_take_results : eng.

Lemma keeps_rounds n c ps : forall f, ensures keeps (rounds n c ps f).
Proof. induction n as [|n IH]; intros f; cbn [rounds]; ens. Qed.
#[local] Hint Resolve keeps_rounds : eng.

Lemma keeps_fetch c mode : mode <> Seed -> ensures keeps (fetch c mode).
Proof. intros Hmode. unfold fetch. rewrite bool_decide_false by done. cbn [when]. ens. Qed.

Lemma keeps_get c mode : mode <> Seed -> ensures keeps (get c mode).
Proof. intros Hmode. pose proof (keeps_fetch c mode Hmode). unfold get. ens. Qed.

Lemma keeps_decode_local c : ensures keeps (decode_local c).
Proof. assert (Hd : ensures keeps (decode_pieces c)) by (unfold decode_pieces; ens). unfold decode_local. ens. Qed.
End keeps.

#[export] Hint Resolve keeps_tick keeps_send keeps_draw keeps_nanos keeps_secs keeps_instant keeps_hlc keeps_now_millis keeps_request keeps_resolve keeps_peers keeps_routing keeps_gate keeps_admit keeps_meter keeps_content keeps_serve keeps_feed_local keeps_add_remote keeps_local_start keeps_take_results keeps_rounds keeps_decode_local : eng.
