(* ===== verification/ObjFetch.v ===== *)
(** Fetching in the object engine ([get], [pin] of [ObjCore]): what a fetch
    returns and what it leaves in the store. *)

From S2P Require Import Prelude Crypto Pager Cipher ObjManifest Wire Gf Linear Erasure ErasureDecode VTags Token PieceStore ObjCore ObjLogic.

Open Scope Z_scope.
Open Scope zeph_scope.

Section fetch.
Context {B3 : Blake3} {XF : Xof} {AE : Aead} {KX : KeyedXof} {UM : Umbral} {Net : ObjNet}.
Context {PG : Postcard Generation} {PV : Postcard VTags} {PM : Postcard Manifest} {PE : Postcard EncryptedEnvelope} {PP : Postcard PlainMeta}.

(** ** The tags come with the decoder *)

Definition paired (f : Fetch) : Prop := is_Some (f_decoder f) <-> is_Some (f_tags f).

Lemma local_start_paired c e f e' : local_start c e = Some (f, e') -> paired f.
Proof.
  unfold local_start. intros (og & e1 & _ & Hr)%bind_inv. assert (Hn : paired (mk_fetch None None 0 ∅)) by (split; by intros [? ?]).
  destruct og as [g|]; [|by apply ret_inv in Hr as [-> _]]. destruct (from_bytes (g_vtags g)) as [t|]; [|by apply ret_inv in Hr as [-> _]].
  apply bind_inv in Hr as (r & e2 & _ & Hr). destruct r as [[|p ps]|]; try by apply ret_inv in Hr as [-> _].
  apply bind_inv in Hr as ([d seen] & e3 & _ & Hr). apply ret_inv in Hr as [-> _]. split; by eexists.
Qed.

Lemma take_results_paired rs : forall f pr e f' pr' e', take_results rs f pr e = Some (Ok (f', pr'), e') -> paired f -> paired f'.
Proof.
  induction rs as [|[p m] rs IH]; intros f pr e f' pr' e' Hr Hp; cbn [take_results] in Hr.
  - apply ret_inv in Hr as [[= -> ->] _]. done.
  - destruct m as [[]|]; eauto. destruct (_ || _); [eauto|]. apply try_inv in Hr as [([[t d] total] & e1 & _ & Hr)|(? & _ & ?)]; [|done].
    apply try_inv in Hr as [([[d' seen] pr1] & e2 & _ & Hr)|(? & _ & ?)]; [|done]. destruct (complete _).
    + apply ret_inv in Hr as [[= -> ->] _]. split; by eexists.
    + eapply IH; [exact Hr|]. split; by eexists.
Qed.

Lemma rounds_paired n c ps : forall f e f' e', rounds n c ps f e = Some (Ok f', e') -> paired f -> paired f'.
Proof.
  induction n as [|n IH]; intros f e f' e' Hr Hp; cbn [rounds] in Hr; [by apply ret_inv in Hr as [[= ->] _]|].
  destruct (complete f); [by apply ret_inv in Hr as [[= ->] _]|]. apply bind_inv in Hr as (rs & e1 & _ & Hr).
  apply try_inv in Hr as [([f1 pr] & e2 & H1 & Hr)|(? & _ & ?)]; [|done]. apply take_results_paired in H1; [|done].
  destruct pr; [by eapply IH|by apply ret_inv in Hr as [[= ->] _]].
Qed.

Lemma finish_ok c f b : finish c f = Ok b -> Cid_of b = c /\ is_Some (f_decoder f).
Proof.
  unfold finish. destruct (f_decoder f) as [d|]; [|done]. destruct (negb _); [done|]. destruct (Erasure.decode d) as [S|]; [|done].
  unfold Cid_verifies. case_bool_decide as E; [|done]. intros [= <-]. split; [done|by eexists].
Qed.

(** ** What a seeding fetch stores *)

Definition content_file (s : Store) (c : key) : option bytes := d_cid (disk s) !! c ≫= f_content.

(** A cid other than [c] is as it was. *)
Definition others_same (c : key) (s s' : Store) : Prop :=
  forall c', c' <> c -> touch 0 <$> index s' !! c' = touch 0 <$> index s !! c' /\ d_cid (disk s') !! c' = d_cid (disk s) !! c'.

(** Storing a generation and then content that is not pinned. *)
Definition store_content (s : Store) (c : key) (g : Generation) (b : bytes) (n1 n2 : Z) : Store :=
  (put_content (put_generation s c g n1).2 c b false n2).2.

Lemma store_content_spec s c g b n1 n2 :
  let s' := store_content s c g b n1 n2 in
  others_same c s s' /\ tombstones s' = tombstones s /\
  (is_tombstoned s c = false -> holds_content s' c = true /\ content_file s' c = Some b /\ is_pinned s' c = is_pinned s c).
Proof.
  unfold store_content, put_generation. destruct (is_tombstoned s c) eqn:Et; [unfold put_content; cbn [snd]; rewrite Et; cbn [snd]; split; [by intros c' _|by split]|].
  cbn [snd]. match goal with |- context [put_content ?x c b false n2] => set (s1 := x) end.
  assert (H1 : others_same c s s1 /\ tombstones s1 = tombstones s /\ is_Some (index s1 !! c) /\ is_pinned s1 c = is_pinned s c).
  { unfold s1, is_pinned, others_same. change (index (with_dir s c (dir_meta (to_allocvec g)))) with (index s). destruct (index s !! c) as [st|] eqn:E; cbn.
    - split; [intros c' Hne; by rewrite lookup_insert_ne|]. rewrite E. by split_and!; [|eexists|].
    - split; [intros c' Hne; by rewrite !lookup_insert_ne|]. rewrite lookup_insert_eq. by split_and!; [|eexists|]. }
  destruct H1 as (Ho & Ets & [st Hst] & Hpin). unfold put_content. unfold is_tombstoned in *. rewrite Ets, Et, Hst, bool_decide_true by by eexists. cbn [negb snd].
  split; [|split; [done|]].
  - intros c' Hne. destruct (Ho c' Hne) as [E1 E2]. cbn. rewrite lookup_alter_ne, lookup_insert_ne by done. done.
  - intros _. unfold holds_content, content_file, is_pinned in *. cbn. rewrite lookup_alter_eq, lookup_insert_eq, Hst in *. cbn. by rewrite orb_false_r.
Qed.

Lemma seed_store_spec c f b e u e' :
  is_Some (f_tags f) -> seed_store c f b e = Some (u, e') -> exists g n1 n2, store e' = store_content (store e) c g b n1 n2.
Proof.
  intros [t Ht] Hr. unfold seed_store in Hr. rewrite Ht in Hr. apply bind_inv in Hr as (n1 & e1 & H1 & Hr). apply bind_inv in Hr as (n2 & e2 & H2 & Hr).
  apply bind_inv in Hr as ([] & e3 & H3 & Hr). apply bind_inv in Hr as (u' & e4 & H4 & Hr). apply ret_inv in Hr as [_ ->].
  injection H1 as <- <-. injection H2 as <- <-. injection H3 as <-. injection H4 as <- <-. cbn. by eexists _, _, _.
Qed.

Lemma fetch_ok c mode e b e' :
  fetch c mode e = Some (Ok b, e') ->
  Cid_of b = c /\ exists e1, keeps e e1 /\
    if bool_decide (mode = Seed) then exists g n1 n2, store e' = store_content (store e1) c g b n1 n2 else e' = e1.
Proof.
  unfold fetch. intros (f & e1 & H1 & Hr)%bind_inv. pose proof (local_start_paired _ _ _ _ H1) as Hp. apply keeps_local_start in H1.
  apply bind_inv in Hr as (ps & e2 & H2 & Hr). assert (K2 : keeps e1 e2) by (revert H2; destruct (complete f); [by intros [-> ->]%ret_inv|apply keeps_resolve]).
  apply bind_inv in Hr as (adm & e3 & H3 & Hr). assert (K3 : keeps e2 e3) by (revert H3; destruct (complete f); [by intros [-> ->]%ret_inv|apply keeps_admit]).
  destruct (negb adm); [by apply ret_inv in Hr as [? _]|]. destruct (_ && _); [by apply ret_inv in Hr as [? _]|].
  apply bind_inv in Hr as (n & e4 & H4%keeps_tick & Hr). apply try_inv in Hr as [(f' & e5 & H5 & Hr)|(? & _ & ?)]; [|done].
  pose proof (rounds_paired _ _ _ _ _ _ _ H5 Hp) as Hp'. apply keeps_rounds in H5.
  apply try_inv in Hr as [(b' & e6 & H6 & Hr)|(? & _ & ?)]; [|done]. apply ret_inv in H6 as [H6 ->]. symmetry in H6.
  apply bind_inv in Hr as (u & e7 & H7 & Hr). apply ret_inv in Hr as [[= ->] ->]. apply finish_ok in H6 as [Hc Hd]. split; [done|].
  exists e5. split; [do 4 (etransitivity; [eassumption|]); done|]. case_bool_decide; cbn [when] in H7.
  - eapply seed_store_spec; [|exact H7]. by apply Hp'.
  - by apply ret_inv in H7 as [_ ->].
Qed.

Lemma s_content_run c e r e' : s_content c e = Some (r, e') -> keeps e e' /\ r = (content (store e) c (nanos_at (time e))).1.
Proof.
  intros Hr. split; [by eapply keeps_content|]. unfold s_content in Hr. apply bind_inv in Hr as (t & e1 & H1 & Hr). injection H1 as <- <-.
  unfold with_store in Hr. cbn in Hr. destruct (content _ _ _) as [x s]. by injection Hr as <- _.
Qed.

Lemma content_Some s c now b : (content s c now).1 = Some b -> holds_content s c = true /\ content_file s c = Some b.
Proof.
  unfold content, holds_content, content_file. destruct (index s !! c) as [st|]; [|done]. destruct (has_content st); [|done]. done.
Qed.

Lemma same_holds s s' c : same s s' -> holds_content s' c = holds_content s c /\ is_pinned s' c = is_pinned s c /\ content_file s' c = content_file s c /\ is_tombstoned s' c = is_tombstoned s c.
Proof.
  intros Hs. pose proof (sm_index _ _ Hs c) as E. unfold holds_content, is_pinned, content_file, is_tombstoned. rewrite (sm_disk _ _ Hs), (sm_tombstones _ _ Hs).
  split_and!; try done; destruct (index s' !! c), (index s !! c); try done; injection E; intros; congruence.
Qed.

(** C5: A fetch returns the content of the id, whoever answered it, and keeps
    no more than asked.  Whatever the providers, the network and the local
    files say: bytes returned hash to the id; without the seed mode nothing
    in the store changes but access times; in the seed mode no other cid
    changes, and unless the id is tombstoned the content is then held, in
    its file, pinned only if it was. *)
Theorem fetched_content_matches_id (c : key) (mode : ConsumeMode) (e : Engine) (b : bytes) (e' : Engine) :
  get c mode e = Some (Ok b, e') ->
  Cid_of b = c /\ (mode <> Seed -> same (store e) (store e')) /\
  (mode = Seed -> others_same c (store e) (store e') /\ tombstones (store e') = tombstones (store e) /\
    (is_tombstoned (store e) c = false ->
     holds_content (store e') c = true /\ content_file (store e') c = Some b /\ is_pinned (store e') c = is_pinned (store e) c)).
Proof.
  intros Hg. assert (K : mode <> Seed -> same (store e) (store e')) by (intros Hm; by eapply (keeps_get c mode Hm)).
  unfold get in Hg. apply bind_inv in Hg as (local & e1 & H1 & Hr). apply s_content_run in H1 as [K1 El].
  assert (Hcase : fetch c mode e1 = Some (Ok b, e') \/ (e' = e1 /\ Cid_of b = c /\ local = Some b)).
  { destruct local as [x|]; [|by left]. destruct (Cid_verifies c x) eqn:Ev; [|by left]. right. apply ret_inv in Hr as [[= ->] ->].
    unfold Cid_verifies in Ev. by apply bool_decide_eq_true in Ev. }
  destruct Hcase as [Hf|(-> & Hc & ->)].
  - apply fetch_ok in Hf as (Hc & e2 & K2 & Hst). split; [done|]. split; [done|]. intros ->. rewrite bool_decide_true in Hst by done.
    destruct Hst as (g & n1 & n2 & Es). assert (K12 : same (store e) (store e2)) by (etransitivity; eassumption).
    destruct (store_content_spec (store e2) c g b n1 n2) as (Ho & Et & Hh). rewrite <- Es in *. destruct (same_holds _ _ c K12) as (_ & Ep & _ & Ets).
    split; [|split; [by rewrite Et, (sm_tombstones _ _ K12)|by rewrite <- Ets, <- Ep]]. intros c' Hne. destruct (Ho c' Hne) as [E1 E2]. rewrite E1, E2, (sm_disk _ _ K12). split; [|done]. apply (sm_index _ _ K12).
  - split; [done|]. split; [done|]. intros _. symmetry in El. apply content_Some in El as [Eh Ef]. destruct (same_holds _ _ c K1) as (E1 & E2 & E3 & _). rewrite E1, E2, E3.
    split; [|split; [apply (sm_tombstones _ _ K1)|done]]. intros c' _. split; [apply (sm_index _ _ K1)|by rewrite (sm_disk _ _ K1)].
Qed.

(** A pin of an object whose generation is not in the store fails, although
    the content was fetched: [put_content] wants a generation, and a fetch in
    the drop mode stores none. *)
Theorem pin_of_unheld_object_fails (c : key) (e : Engine) (r : result () EngErr) (e' : Engine) :
  index (store e) !! c = None -> pin c e = Some (r, e') -> exists x, r = Err x.
Proof.
  intros Hn Hp. destruct r as [[]|x]; [|by eexists]. exfalso. unfold pin in Hp.
  apply try_inv in Hp as [([] & e1 & H1 & Hp)|(? & _ & ?)]; [|done]. assert (e1 = e) as -> by (unfold guard_not_system in H1; by injection H1).
  apply bind_inv in Hp as (local & e2 & H2%keeps_content & Hp). apply try_inv in Hp as [(b & e3 & H3 & Hp)|(? & _ & ?)]; [|done].
  assert (K3 : keeps e2 e3). { destruct local as [x|]; [destruct (Cid_verifies c x)|]; try (by apply ret_inv in H3 as [_ ->]); by apply (keeps_get c Drop) in H3. }
  apply bind_inv in Hp as (t & e4 & H4%keeps_nanos & Hp). assert (K : same (store e) (store e4)) by (transitivity (store e2); [done|]; transitivity (store e3); done).
  assert (Hn4 : index (store e4) !! c = None). { pose proof (sm_index _ _ K c) as E. rewrite Hn in E. by destruct (index (store e4) !! c). }
  apply bind_inv in Hp as (r & e5 & H5 & Hp). unfold with_store, PieceStore.pin, put_content in H5. destruct (is_tombstoned (store e4) c).
  { injection H5 as <- <-. apply try_inv in Hp as [(? & ? & [= ] & _)|(? & _ & ?)]; done. }
  rewrite Hn4, bool_decide_false in H5 by (by intros [? ?]). injection H5 as <- <-. apply try_inv in Hp as [(? & ? & [= ] & _)|(? & _ & ?)]; done.
Qed.
End fetch.
