(* ===== verification/ObjRebuild.v ===== *)
(** Rebuilding content from coded pieces in the object engine: the sources of a
    generation, the pieces read back from their files, and the decoding of a
    spanning set of them ([decode_local], [get] of [ObjCore]). *)

From S2P Require Import Prelude Crypto Pager Cipher ObjManifest Wire Gf Linear Erasure ErasureDecode VTags Token PieceStore ObjCore ObjLogic ObjFetch.

Open Scope Z_scope.
Open Scope zeph_scope.

(** ** Sources *)

Lemma chunks_concat fuel n l : (0 < n)%nat -> (length l <= fuel)%nat -> concat (chunks fuel n l) = l.
Proof.
  intros Hn. revert l. induction fuel as [|fuel IH]; intros l Hl; cbn [chunks]; [by destruct l; cbn in *; [|lia]|].
  case_bool_decide as E; [by subst|]. cbn [concat]. rewrite IH; [apply take_drop|]. rewrite length_drop. destruct l; [done|cbn in *; lia].
Qed.

Lemma chunks_length fuel n k l : (length l <= k * n)%nat -> (length (chunks fuel n l) <= k)%nat.
Proof.
  revert k l. induction fuel as [|fuel IH]; intros k l Hl; cbn [chunks]; [cbn; lia|].
  case_bool_decide as E; [cbn; lia|]. destruct k as [|k]; [destruct l; [done|cbn in *; lia]|]. cbn [length].
  specialize (IH k (drop n l)). rewrite length_drop in IH. cbn in Hl. lia.
Qed.

Lemma chunks_spec fuel n l x : x ∈ chunks fuel n l -> x <> [] /\ (length x <= n)%nat \/ n = 0%nat.
Proof.
  destruct n as [|n]; [by right|]. left. revert l H. induction fuel as [|fuel IH]; intros l Hx; cbn [chunks] in Hx; [set_solver|].
  case_bool_decide as E; [set_solver|]. apply elem_of_cons in Hx as [->|Hx]; [|by eapply IH]. split; [by destruct l|]. rewrite length_take. lia.
Qed.

Lemma resize0_vec n l : is_bytes l -> is_vec n (resize0 n l).
Proof.
  intros Hl. unfold resize0, is_vec, is_bytes. rewrite length_app, length_take, length_replicate. split; [lia|]. apply Forall_app. split; [by apply Forall_take|].
  apply Forall_replicate. unfold_int. lia.
Qed.

(** The padded chunks are the content and zeros. *)
Lemma chunks_padded fuel n l :
  (0 < n)%nat -> (length l <= fuel)%nat -> exists z, concat (map (resize0 n) (chunks fuel n l)) = l ++ z.
Proof.
  intros Hn. revert l. induction fuel as [|fuel IH]; intros l Hl; cbn [chunks]; [destruct l; cbn in *; [by exists []|lia]|].
  case_bool_decide as E; [subst; by exists []|]. cbn [map concat].
  destruct (decide (n < length l)%nat) as [Hlt|Hge].
  - destruct (IH (drop n l)) as [z Ez]; [rewrite length_drop; lia|]. exists z. rewrite Ez. unfold resize0. rewrite length_take, take_take.
    rewrite Nat.min_id. replace (n - n `min` length l)%nat with 0%nat by lia. cbn [replicate]. by rewrite app_nil_r, app_assoc, take_drop.
  - rewrite drop_ge by lia. destruct fuel; cbn [chunks]; rewrite ?bool_decide_true by done; cbn [map concat]; rewrite app_nil_r;
      unfold resize0; rewrite take_take, Nat.min_id, take_ge by lia; by eexists.
Qed.

Lemma chunks_bytes fuel n l : is_bytes l -> Forall is_bytes (chunks fuel n l).
Proof.
  revert l. induction fuel as [|fuel IH]; intros l Hl; cbn [chunks]; [constructor|]. case_bool_decide; constructor; [by apply Forall_take|]. apply IH. by apply Forall_drop.
Qed.

Lemma split_sources_rows b k len :
  is_bytes b -> (0 < len)%nat -> (length b <= k * len)%nat ->
  is_rows k len (split_sources b k len) /\ take (length b) (concat (split_sources b k len)) = b.
Proof.
  intros Hb Hl Hk. unfold split_sources. rewrite Nat.max_l by lia. set (cs := chunks (length b) len b).
  pose proof (chunks_length (length b) len k b Hk) as Hc. fold cs in Hc. split.
  - split; [rewrite length_map, length_app, length_replicate; lia|]. apply Forall_fmap, Forall_app. split.
    + eapply Forall_impl; [|apply (chunks_bytes (length b) len b Hb)]. intros x Hx. by apply resize0_vec.
    + apply Forall_replicate, resize0_vec, Forall_replicate. unfold_int. lia.
  - rewrite map_app, concat_app. destruct (chunks_padded (length b) len b Hl (le_n _)) as [z Ez]. fold cs in Ez. rewrite Ez, <- app_assoc. apply take_app_length.
Qed.

(** ** A spanning set completes the decoder *)

Lemma full_span_complete d :
  dec_wf d -> (forall v, is_vec (dec_k d) v -> in_span (dec_k d) (row_vecs d) v) -> is_complete d = true.
Proof.
  intros Hwf Hspan. apply Nat.eqb_eq. pose proof (rank_le d Hwf) as Hr. destruct (decide (Forall (fun p => p ∈ pivots d) (seq 0 (dec_k d)))) as [Hall|Hn].
  - assert (Hle : (length (seq 0 (dec_k d)) <= length (pivots d))%nat).
    { apply NoDup_incl_length; [apply seq_NoDup|]. intros p Hp. rewrite list.Forall_forall in Hall. apply list_elem_of_In, Hall, list_elem_of_In. done. }
    rewrite length_seq in Hle. unfold rank in *. rewrite (wf_len d Hwf) in *. lia.
  - exfalso. apply not_Forall_Exists in Hn; [|apply _]. apply list.Exists_exists in Hn as (p & Hp & Hnp). apply elem_of_seq in Hp.
    pose proof (span_zero_at_pivots d Hwf (unit_vec (dec_k d) p) (Hspan _ (unit_vec_vec _ _))) as Hz.
    assert (E : unit_vec (dec_k d) p = zeros (dec_k d)).
    { apply Hz. intros q Hq. rewrite at_unit by lia. rewrite decide_False; [done|]. by intros ->. }
    apply (f_equal (fun v => at_ v p)) in E. rewrite at_unit, at_zeros, decide_True in E by (lia || done). discriminate E.
Qed.

Lemma fed_span_decodes k len S d ps :
  is_rows k len S -> fed k len S d ps -> (forall v, is_vec k v -> in_span k (map coding_vector ps) v) ->
  is_complete d = true /\ Erasure.decode d = Ok S.
Proof.
  intros HS Hf Hs. assert (Hc : is_complete d = true).
  { apply full_span_complete; [by apply Hf|]. rewrite (fed_k _ _ _ _ _ Hf). intros v Hv. by apply (fed_span _ _ _ _ _ Hf), Hs. }
  split; [done|]. by eapply complete_decodes.
Qed.

(** ** Pieces read back *)

Section rebuild.
Context {B3 : Blake3} {XF : Xof} {XL : XofLaws} {AE : Aead} {KX : KeyedXof} {UM : Umbral} {Net : ObjNet}.
Context {PG : Postcard Generation} {PV : Postcard VTags} {PL : PostcardLaws VTags} {PM : Postcard Manifest} {PE : Postcard EncryptedEnvelope} {PP : Postcard PlainMeta}.

Lemma read_piece_bytes s c d pid p :
  d_cid (disk s) !! c = Some d -> f_pieces d !! pid = Some (piece_bytes p) -> Z.of_nat (length (coding_vector p)) <= U32_MAX ->
  read_piece s c pid = Some p.
Proof.
  intros Hd Hp Hl. unfold read_piece. rewrite Hd. cbn [mbind option_bind]. rewrite Hp. cbn [mbind option_bind].
  assert (E : as_u32 (Z.of_nat (length (coding_vector p))) = Z.of_nat (length (coding_vector p))) by (apply Z.mod_small; unfold_int; lia).
  unfold piece_bytes. rewrite E. set (h := be_bytes 4 (Z.of_nat (length (coding_vector p)))). assert (Hh : length h = 4%nat) by apply be_bytes_length.
  rewrite length_app, (proj2 (Nat.ltb_ge _ _)) by lia. rewrite take_app_length' by done.
  assert (Ev : Z.to_nat (foldl (fun a x => a * 256 + x) 0 h) = length (coding_vector p)).
  { change (foldl (fun a x => a * 256 + x) 0 h) with (from_be h). unfold h. rewrite from_be_be; [apply Nat2Z.id|]. unfold_int. change (256 ^ Z.of_nat 4) with 4294967296. lia. }
  rewrite Ev, length_app, (proj2 (Nat.ltb_ge _ _)) by lia. rewrite drop_app_length' by done. rewrite take_app_length.
  rewrite app_assoc, drop_app_length' by (rewrite length_app; lia). by destruct p.
Qed.

Lemma read_held_all s c max pids qs out :
  Forall2 (fun pid q => read_piece s c pid = Some q) pids qs -> (length out + length pids <= max)%nat -> read_held s c max pids out = out ++ qs.
Proof.
  intros Hf. revert out. induction Hf as [|pid q pids qs Hq Hf IH]; intros out Hl; cbn [read_held]; [by rewrite app_nil_r|].
  cbn [length] in Hl. rewrite (proj2 (Nat.leb_gt _ _)) by lia. rewrite Hq, IH by (rewrite length_app; cbn; lia). by rewrite <- app_assoc.
Qed.

Lemma add_local_valid k len S t qs : forall d ps seen,
  is_rows k len S -> fed k len S d ps -> Forall (valid k len S) qs -> Forall (fun q => verify t q = true) qs ->
  NoDup (map piece_id qs) -> (forall q, q ∈ qs -> piece_id q ∉ seen) ->
  exists d' seen', add_local t qs d seen = Some (d', seen') /\ fed k len S d' (ps ++ qs).
Proof.
  induction qs as [|q qs IH]; intros d ps seen HS Hf Hv Ht Hnd Hseen; cbn [add_local]; [exists d, seen; by rewrite app_nil_r|].
  apply Forall_cons_iff in Hv as [Hq Hv], Ht as [Hqt Ht]. cbn in Hnd. apply list.NoDup_cons in Hnd as [Hnq Hnd].
  rewrite Hqt, bool_decide_true by (apply Hseen; left). cbn [andb].
  destruct (feed_step k len S HS d ps q Hf Hq) as (b' & d1 & Ea & Hf1 & _). rewrite Ea. cbn.
  destruct (IH d1 (ps ++ [q]) ({[piece_id q]} ∪ seen) HS Hf1 Hv Ht Hnd) as (d' & seen' & E & Hf').
  { intros q' Hq'. assert (piece_id q' <> piece_id q); [intros Ei; apply Hnq; rewrite <- Ei; apply list_elem_of_fmap; by exists q'|].
    assert (piece_id q' ∉ seen) by (apply Hseen; by right). set_solver. }
  exists d', seen'. by rewrite <- app_assoc in Hf'.
Qed.

(** ** The store of a node that holds pieces of [b] *)

(** [ps] are the pieces, by id: every one belongs to the generation of [b], in
    [k] sources of [len] bytes, and its file is there. *)
Record piece_holder (s : Store) (c : key) (b : bytes) (k len : nat) (ps : gmap key CodedPiece) : Prop := {
  ph_shape : (0 < k)%nat /\ (0 < len)%nat /\ (length b <= k * len)%nat /\ Z.of_nat k <= U32_MAX;
  ph_bytes : is_bytes b;
  ph_cid : Cid_of b = c;
  ph_state : exists st ts, index s !! c = Some st /\ has_content st = false /\ piece_ids st = dom ps /\
    gen st = mk_gen (Z.of_nat k) (Z.of_nat len) (Z.of_nat (length b)) (to_allocvec (mk_vtags SCHEME_NULL_SPACE_V1 (Z.of_nat k) (Z.of_nat len) ts)) /\
    Forall (tag_for len (split_sources b k len)) ts;
  ph_files : exists d, d_cid (disk s) !! c = Some d /\ f_pieces d = piece_bytes <$> ps;
  ph_pieces : forall pid p, ps !! pid = Some p -> piece_id p = pid /\ valid k len (split_sources b k len) p
}.

Lemma valid_verifies k len S ts p :
  is_rows k len S -> Z.of_nat k <= U32_MAX -> Forall (tag_for len S) ts -> valid k len S p ->
  verify (mk_vtags SCHEME_NULL_SPACE_V1 (Z.of_nat k) (Z.of_nat len) ts) p = true.
Proof.
  intros HS Hk Hts Hv. assert (E : as_u32 (Z.of_nat k) = Z.of_nat k) by (apply Z.mod_small; unfold_int; lia).
  apply (verify_tags k len S _ p ts HS Hk); [by rewrite E|done|by destruct Hv|by eapply valid_data_vec|].
  intros tag _. destruct Hv as [Hv Ed]. rewrite Ed, vadd_self. apply dsum_zeros_l.
Qed.

(** The pieces, in the order the store reads them. *)
Lemma holder_pieces s c b k len ps :
  piece_holder s c b k len ps ->
  exists qs, Forall2 (fun pid q => ps !! pid = Some q) (elements (dom ps ∖ (∅ : gset key))) qs /\
    Forall (valid k len (split_sources b k len)) qs /\ NoDup (map piece_id qs) /\ length qs = size ps /\
    (forall p, p ∈ map snd (map_to_list ps) -> p ∈ qs).
Proof.
  intros Hh. rewrite difference_empty_L. set (pids := elements (dom ps)).
  assert (Hex : exists qs, Forall2 (fun pid q => ps !! pid = Some q) pids qs).
  { assert (Hall : Forall (fun pid => is_Some (ps !! pid)) pids) by (apply list.Forall_forall; intros pid Hp; unfold pids in Hp; by apply elem_of_elements, elem_of_dom in Hp).
    induction Hall as [|pid l [q Hq] _ [qs IH]]; [by exists []|]. exists (q :: qs). by constructor. }
  destruct Hex as [qs Hqs]. exists qs. split; [done|].
  assert (Hid : map piece_id qs = pids).
  { clear -Hqs Hh. induction Hqs as [|pid q l qs Hq _ IH]; [done|]. cbn. f_equal; [|done]. by apply (ph_pieces _ _ _ _ _ _ Hh) in Hq as [? _]. }
  split_and!.
  - clear -Hqs Hh. induction Hqs as [|pid q l qs Hq _ IH]; constructor; [|done]. by apply (ph_pieces _ _ _ _ _ _ Hh) in Hq as [_ ?].
  - rewrite Hid. apply NoDup_elements.
  - rewrite <- (length_map piece_id), Hid. unfold pids. by rewrite <- size_dom.
  - intros p ([pid p'] & -> & Hp%elem_of_map_to_list)%list_elem_of_fmap. cbn.
    assert (Hin : pid ∈ pids) by (apply elem_of_elements, elem_of_dom; by eexists). apply list_elem_of_lookup in Hin as [i Hi].
    destruct (Forall2_lookup_l _ _ _ _ _ Hqs Hi) as (q & Hq & Eq). assert (q = p') as -> by congruence. by eapply list_elem_of_lookup_2.
Qed.

(** Serving all of them, without changing what is held. *)
Lemma holder_serve s c b k len ps now t :
  piece_holder s c b k len ps -> (size ps <= 3 * k)%nat ->
  exists qs s', serve_pieces s c ∅ (Z.to_nat (Z.of_nat k * 3)) now t = Some (Ok qs, s', t) /\
    Forall (valid k len (split_sources b k len)) qs /\ NoDup (map piece_id qs) /\ (forall p, p ∈ map snd (map_to_list ps) -> p ∈ qs).
Proof.
  intros Hh Hsz. pose proof (holder_pieces _ _ _ _ _ _ Hh) as (qs & Hqs & Hv & Hnd & Hlen & Hall).
  destruct (ph_state _ _ _ _ _ _ Hh) as (st & ts & Hst & Hc & Hids & _ & _). destruct (ph_files _ _ _ _ _ _ Hh) as (d & Hd & Hf).
  exists qs, (with_index s (<[c := touch now st]> (index s))). unfold serve_pieces. rewrite Hst, Hids, Hc.
  assert (Hread : Forall2 (fun pid q => read_piece (with_index s (<[c := touch now st]> (index s))) c pid = Some q) (elements (dom ps ∖ (∅ : gset key))) qs).
  { eapply Forall2_impl; [|exact Hqs]. intros pid q Hq. apply (read_piece_bytes _ _ d).
    - exact Hd.
    - by rewrite Hf, lookup_fmap, Hq.
    - apply (ph_pieces _ _ _ _ _ _ Hh) in Hq as [_ [[Hl _] _]]. rewrite Hl. by apply (ph_shape _ _ _ _ _ _ Hh). }
  rewrite (read_held_all _ _ _ _ qs []); [|exact Hread|].
  - cbn [app]. rewrite andb_false_r. by split_and!.
  - cbn [length]. rewrite (Forall2_length Hread), Hlen. lia.
Qed.

Lemma spanning_decodes b k len ps qs ts :
  (0 < k)%nat /\ (0 < len)%nat /\ (length b <= k * len)%nat /\ Z.of_nat k <= U32_MAX -> is_bytes b ->
  Forall (tag_for len (split_sources b k len)) ts ->
  Forall (valid k len (split_sources b k len)) qs -> NoDup (map piece_id qs) -> (forall p, p ∈ map snd (map_to_list ps) -> p ∈ qs) ->
  (forall v, is_vec k v -> in_span k (map coding_vector (map snd (map_to_list (ps : gmap key CodedPiece)))) v) ->
  exists d seen, add_local (mk_vtags SCHEME_NULL_SPACE_V1 (Z.of_nat k) (Z.of_nat len) ts) qs (Erasure.new k len) ∅ = Some (d, seen) /\
    is_complete d = true /\ Erasure.decode d = Ok (split_sources b k len).
Proof.
  intros (Hk & Hl & Hkl & Hku) Hb Hts Hv Hnd Hall Hspan. destruct (split_sources_rows b k len Hb Hl Hkl) as [HS _].
  destruct (add_local_valid k len _ (mk_vtags SCHEME_NULL_SPACE_V1 (Z.of_nat k) (Z.of_nat len) ts) qs (Erasure.new k len) [] ∅ HS (new_fed k len _) Hv) as (d & seen & Ea & Hf).
  { eapply Forall_impl; [|exact Hv]. intros q Hq. by apply (valid_verifies k len _ ts q HS). }
  { done. }
  { set_solver. }
  exists d, seen. split; [done|]. eapply fed_span_decodes; [done|exact Hf|]. intros v Hvec. cbn [app].
  apply (span_incl k (map coding_vector (map snd (map_to_list ps)))); [by eapply vectors_vec| |by apply Hspan].
  intros x (p & -> & Hp)%list_elem_of_fmap. apply list_elem_of_fmap. exists p. split; [done|by apply Hall].
Qed.

Lemma finish_rebuilds c b k len d tg seen :
  is_bytes b -> (0 < len)%nat -> (length b <= k * len)%nat -> Cid_of b = c -> is_complete d = true -> Erasure.decode d = Ok (split_sources b k len) ->
  finish c (mk_fetch (Some d) tg (Z.of_nat (length b)) seen) = Ok b.
Proof.
  intros Hb Hl Hkl Hc Hd1 Hd2. unfold finish. cbn. rewrite Hd1, Hd2. cbn. rewrite Nat2Z.id, (proj2 (split_sources_rows b k len Hb Hl Hkl)).
  unfold Cid_verifies. by rewrite bool_decide_true.
Qed.

(** A node that holds a spanning set of an object's pieces has the object.
    Let it hold between one and 3k coded pieces of the generation of [b], in
    any order and number, whose coding vectors span all k sources, and not the
    content itself.  Then decoding locally and fetching both return exactly
    [b], whatever the network answers; no provider is asked and nothing is
    sent or stored. *)
Theorem held_pieces_rebuild_content (e : Engine) (c : key) (b : bytes) (k len : nat) (ps : gmap key CodedPiece) :
  piece_holder (store e) c b k len ps -> (0 < size ps <= 3 * k)%nat ->
  (forall v, is_vec k v -> in_span k (map coding_vector (map snd (map_to_list ps))) v) ->
  exists e1 e2, decode_local c e = Some (Some b, e1) /\ get c Drop e = Some (Ok b, e2) /\ keeps e e2 /\ sent e2 = sent e /\ rng e2 = rng e.
Proof.
  intros Hh [Hpos Hsz] Hspan.
  destruct (ph_state _ _ _ _ _ _ Hh) as (st & ts & Hst & Hc & Hids & Hg & Hts).
  pose proof (ph_shape _ _ _ _ _ _ Hh) as Hshape. pose proof Hshape as (Hk & Hl & Hkl & Hku). pose proof (ph_bytes _ _ _ _ _ _ Hh) as Hb. pose proof (ph_cid _ _ _ _ _ _ Hh) as Hcid.
  set (e0 := set_time e (S (time e))).
  assert (H0 : s_content c e = Some (None, e0)).
  { unfold s_content. rewrite (bind_run _ _ e (nanos_at (time e)) e0) by done. unfold with_store, content. change (store e0) with (store e). rewrite Hst, Hc. unfold e0. by destruct e. }
  assert (Hgen : gets (fun e => generation (store e) c) e0 = Some (Some (gen st), e0)).
  { unfold gets, generation. change (store e0) with (store e). by rewrite Hst. }
  assert (Htags : from_bytes (g_vtags (gen st)) = Some (mk_vtags SCHEME_NULL_SPACE_V1 (Z.of_nat k) (Z.of_nat len) ts)) by (rewrite Hg; apply postcard_roundtrip).
  destruct (holder_serve _ _ _ _ _ _ (nanos_at (time e0)) (rng e0) Hh Hsz) as (qs & s' & Eserve & Hv & Hnd & Hall).
  set (e1 := set_rng (set_store (set_time e0 (S (time e0))) s') (rng e0)).
  assert (Hserve : s_serve c ∅ (Z.to_nat (g_k (gen st) * 3)) e0 = Some (Ok qs, e1)).
  { unfold s_serve. rewrite (bind_run _ _ e0 (nanos_at (time e0)) (set_time e0 (S (time e0)))) by done. unfold lift. cbn [store set_time rng]. rewrite Hg. cbn [g_k]. change (store e0) with (store e). by rewrite Eserve. }
  destruct (spanning_decodes b k len ps qs ts Hshape Hb Hts Hv Hnd Hall Hspan) as (d & seen & Eadd & Hd1 & Hd2).
  assert (Hqs : exists q qs', qs = q :: qs').
  { destruct qs as [|q qs']; [|by eexists _, _]. exfalso. destruct (map_to_list ps) as [|[pid p] l] eqn:El.
    - apply map_to_list_empty_iff in El. rewrite El, map_size_empty in Hpos. lia.
    - assert (p ∈ @nil CodedPiece) by (apply Hall; left). set_solver. }
  destruct Hqs as (q & qs' & ->).
  assert (Hfeed : feed_local (gen st) (mk_vtags SCHEME_NULL_SPACE_V1 (Z.of_nat k) (Z.of_nat len) ts) (q :: qs') e1 = Some ((d, seen), e1)).
  { unfold feed_local. rewrite Hg. cbn [g_k g_piece_len]. by rewrite !Nat2Z.id, Eadd. }
  assert (Hfin : forall sn, finish c (mk_fetch (Some d) (Some (mk_vtags SCHEME_NULL_SPACE_V1 (Z.of_nat k) (Z.of_nat len) ts)) (g_total_len (gen st)) sn) = Ok b).
  { intros sn. rewrite Hg. cbn [g_total_len]. by eapply finish_rebuilds. }
  assert (Hloc : local_start c e0 = Some (mk_fetch (Some d) (Some (mk_vtags SCHEME_NULL_SPACE_V1 (Z.of_nat k) (Z.of_nat len) ts)) (g_total_len (gen st)) seen, e1)).
  { unfold local_start. rewrite (bind_run _ _ _ _ _ Hgen), Htags, (bind_run _ _ _ _ _ Hserve), (bind_run _ _ _ _ _ Hfeed). done. }
  exists e1. eexists. split; [|split; [|split; [|split]]].
  - unfold decode_local. rewrite (bind_run _ _ _ _ _ H0). unfold decode_pieces. rewrite (bind_run _ _ _ _ _ Hgen), Htags, (bind_run _ _ _ _ _ Hserve), (bind_run _ _ _ _ _ Hfeed). by rewrite Hfin.
  - unfold get. rewrite (bind_run _ _ _ _ _ H0). unfold fetch. rewrite (bind_run _ _ _ _ _ Hloc). specialize (Hfin seen).
    set (f := mk_fetch _ _ _ seen) in *. assert (Hcf : complete f = true) by (unfold complete, f; cbn [f_decoder]; exact Hd1). rewrite Hcf.
    rewrite (bind_run _ _ e1 [] e1) by done. rewrite (bind_run _ _ e1 true e1) by done. cbn [negb]. rewrite andb_false_r.
    rewrite (bind_run tick _ e1 (time e1) (set_time e1 (S (time e1)))) by done.
    assert (Hr : rounds ROUNDS c (shuffle_at (time e1) []) f (set_time e1 (S (time e1))) = Some (Ok f, set_time e1 (S (time e1)))) by (unfold ROUNDS; cbn [rounds]; by rewrite Hcf).
    rewrite (try_run _ _ _ _ _ Hr), (try_run (mret (finish c f)) _ _ b (set_time e1 (S (time e1)))) by (by rewrite Hfin). reflexivity.
  - unfold keeps. cbn. by eapply serve_same.
  - done.
  - done.
Qed.
End rebuild.
