(* ===== verification/ObjHonest.v ===== *)
(** A fetch from honest providers ([fetch] of [ObjCore]): it does not panic, no
    answer is refused, and with one provider that always has something new to
    offer it completes within its rounds. *)

From S2P Require Import Prelude Crypto Pager Cipher ObjManifest Wire Gf Linear Erasure ErasureDecode VTags Token PieceStore ObjCore ObjLogic ObjFetch ObjRebuild.

Open Scope Z_scope.
Open Scope zeph_scope.

Notation vectors ps := (map coding_vector ps).

Section honest.
Context {B3 : Blake3} {XF : Xof} {XL : XofLaws} {AE : Aead} {KX : KeyedXof} {UM : Umbral} {Net : ObjNet} {NL : ObjNetLaws}.
Context {PG : Postcard Generation} {PV : Postcard VTags} {PL : PostcardLaws VTags} {PM : Postcard Manifest} {PE : Postcard EncryptedEnvelope} {PP : Postcard PlainMeta}.
Context (blake3_inj : forall x y, blake3 x = blake3 y -> x = y).
Context (c : key) (b : bytes) (k len : nat) (Hb : is_bytes b) (Hk : (0 < k)%nat) (Hl : (0 < len)%nat) (Hkl : (length b <= k * len)%nat) (Hku : Z.of_nat k <= U32_MAX).

Notation S := (split_sources b k len).
#[local] Notation succ := Datatypes.S.

Lemma sources_rows : is_rows k len S.
Proof. by apply split_sources_rows. Qed.

(** Tags made for the sources; every publisher makes its own. *)
Definition right_tags (t : VTags) : Prop :=
  exists ts, t = mk_vtags SCHEME_NULL_SPACE_V1 (Z.of_nat k) (Z.of_nat len) ts /\ Forall (tag_for len S) ts.

(** An answer of someone who holds pieces of [b]. *)
Record honest (resp : PieceResponse) : Prop := {
  hr_shape : presp_k resp = Z.of_nat k /\ presp_piece_len resp = Z.of_nat len /\ presp_total_len resp = Z.of_nat (length b);
  hr_tags : exists t, presp_vtags resp = to_allocvec t /\ right_tags t;
  hr_pieces : Forall (valid k len S) (map coded (presp_pieces resp))
}.

Definition honest_answer (m : option Message) : Prop :=
  match m with
  | Some (M_PieceResponse resp) => presp_found resp = false \/ presp_pieces resp = [] \/ honest resp
  | _ => True
  end.

Lemma piece_id_inj p q : valid k len S p -> valid k len S q -> piece_id p = piece_id q -> p = q.
Proof.
  intros [[Hp _] Ep] [[Hq _] Eq] E%blake3_inj. apply app_inj_1 in E as [E1 E2]; [|congruence]. destruct p, q. cbn in *. congruence.
Qed.

(** ** The state of a fetch that has been given the pieces [ps] *)

Definition gathered (f : Fetch) (ps : list CodedPiece) : Prop :=
  f_exclude f = list_to_set (map piece_id ps) /\
  match f_decoder f, f_tags f with
  | None, None => ps = []
  | Some d, Some t => fed k len S d ps /\ right_tags t /\ f_total f = Z.of_nat (length b)
  | _, _ => False
  end.

Definition rank_of (f : Fetch) : nat := match f_decoder f with Some d => rank d | None => 0 end.

Lemma gathered_valid f ps : gathered f ps -> Forall (valid k len S) ps.
Proof. intros [_ Hf]. destruct (f_decoder f), (f_tags f); try done; [by destruct Hf as [[] _]|by subst]. Qed.

(** The pieces [qs] add nothing to the span of [ps]. *)
Definition still (ps qs : list CodedPiece) : Prop := forall v, in_span k (vectors (ps ++ qs)) v -> in_span k (vectors ps) v.

Lemma still_snoc ps q : Forall (valid k len S) ps -> in_span k (vectors ps) (coding_vector q) -> still ps [q].
Proof.
  intros Hps Hq v. rewrite map_app. assert (Hvec : Forall (is_vec k) (vectors ps)) by by eapply vectors_vec.
  apply span_trans; [done|]. apply Forall_app. split; [|by apply Forall_singleton]. apply list.Forall_forall. intros x Hx. by apply span_elem.
Qed.

Lemma span_cases d ps q : fed k len S d ps -> valid k len S q -> in_span k (vectors ps) (coding_vector q) \/ ~ in_span k (vectors ps) (coding_vector q).
Proof.
  intros Hf Hq. pose proof (fed_k _ _ _ _ _ Hf) as Ek. pose proof (fed_len _ _ _ _ _ Hf) as El.
  destruct (add_piece_cases d q) as [[Hin _]|[Hn _]]; [by apply Hf|rewrite Ek; by destruct Hq|rewrite El; by eapply valid_data_vec, Hq; apply sources_rows| |]; rewrite Ek in *; [left|right]; by rewrite <- (fed_span _ _ _ _ _ Hf).
Qed.

(** So whether pieces of the object span a vector can be decided. *)
Lemma span_decided ps q : Forall (valid k len S) ps -> valid k len S q -> in_span k (vectors ps) (coding_vector q) \/ ~ in_span k (vectors ps) (coding_vector q).
Proof.
  intros Hps Hq. assert (Hf : exists d, fed k len S d ps); [|destruct Hf as [d Hf]; by apply (span_cases d)].
  induction ps as [|p ps IH] using rev_ind; [exists (Erasure.new k len); apply new_fed|].
  apply Forall_app in Hps as [Hps Hp]. apply Forall_cons_iff in Hp as [Hp _]. destruct (IH Hps) as [d Hf].
  destruct (feed_step k len S sources_rows d ps p Hf Hp) as (r & d1 & _ & Hf1 & _). by exists d1.
Qed.

(** The pieces of an honest answer are all taken. *)
Lemma add_remote_honest prov t ws : forall d ps pr e,
  fed k len S d ps -> right_tags t -> Forall (valid k len S) (map coded ws) ->
  exists d' qs pr' e', add_remote prov t ws d (list_to_set (map piece_id ps)) pr e = Some (Ok (d', list_to_set (map piece_id (ps ++ qs)), pr'), e') /\
    fed k len S d' (ps ++ qs) /\ (pr = true -> pr' = true) /\ (qs = [] \/ pr' = true) /\
    (forall w, w ∈ ws -> coded w ∈ ps ++ qs) /\ (rank d <= rank d')%nat /\ (rank d' = rank d -> still ps qs).
Proof.
  induction ws as [|w ws IH]; intros d ps pr e Hf Ht Hv; cbn [add_remote].
  { exists d, [], pr, e. rewrite app_nil_r. split_and!; try done; [by left|set_solver|]. intros _ v. by rewrite app_nil_r. }
  cbn [map] in Hv. apply Forall_cons_iff in Hv as [Hw Hv]. assert (Hver : verify t (coded w) = true).
  { destruct Ht as (ts & -> & Hts). apply (valid_verifies k len S); [apply sources_rows|done|done|done]. }
  rewrite Hver. cbn [negb]. case_bool_decide as Hin.
  - apply elem_of_list_to_set, list_elem_of_fmap in Hin as (q & Eq & Hq).
    assert (coded w = q) as Ew. { apply piece_id_inj; [done| |done]. pose proof (fed_pieces _ _ _ _ _ Hf) as Hps. rewrite list.Forall_forall in Hps. by apply Hps. }
    destruct (IH d ps pr e Hf Ht Hv) as (d' & qs & pr' & e' & E & Hf' & H1 & H2 & H3 & H4 & H5). exists d', qs, pr', e'. split_and!; try done.
    intros w' [->|Hw']%elem_of_cons; [|by apply H3]. apply elem_of_app. left. by rewrite Ew.
  - destruct (feed_step k len S sources_rows d ps (coded w) Hf Hw) as (r & d1 & Ea & Hf1 & Hr & Hsp). rewrite Ea.
    assert (Hm : exists e1, meter_bytes prov (Z.of_nat (length (wp_data w))) e = Some (tt, e1)) by (unfold meter_bytes; destruct meter_wired; by eexists).
    destruct Hm as [e1 Hm]. rewrite (bind_run _ _ _ _ _ Hm).
    assert (Es : {[piece_id (coded w)]} ∪ list_to_set (map piece_id ps) = (list_to_set (map piece_id (ps ++ [coded w])) : gset key)) by (rewrite map_app; set_solver).
    rewrite Es. destruct (IH d1 (ps ++ [coded w]) true e1 Hf1 Ht Hv) as (d' & qs & pr' & e' & E & Hf' & H1 & H2 & H3 & H4 & H5).
    exists d', (coded w :: qs), pr', e'. rewrite <- app_assoc in E, Hf', H3. cbn [app] in E, Hf', H3.
    split; [exact E|]. split; [exact Hf'|]. split; [by auto|]. split; [right; by apply H1|]. split; [|split].
    + intros w' [->|Hw']%elem_of_cons; [apply elem_of_app; right; left|by apply H3].
    + destruct r; lia.
    + intros Er. destruct r; [lia|]. assert (Hin' : in_span k (vectors ps) (coding_vector (coded w))).
      { destruct (span_cases d ps (coded w) Hf Hw) as [|Hn]; [done|]. by apply Hsp in Hn. }
      intros v. change (coded w :: qs) with ([coded w] ++ qs). rewrite app_assoc. intros Hv'. apply (still_snoc ps (coded w)); [by apply Hf|done|]. apply H5; [lia|done].
Qed.

Lemma start_remote_honest f ps resp :
  gathered f ps -> honest resp ->
  exists t d, start_remote f resp = Ok (t, d, Z.of_nat (length b)) /\ right_tags t /\ fed k len S d ps /\ rank d = rank_of f.
Proof.
  intros [_ Hg] Hr. unfold start_remote, rank_of. destruct (f_tags f) as [t|], (f_decoder f) as [d|]; try done.
  - destruct Hg as (Hf & Ht & Et). exists t, d. by rewrite Et.
  - subst ps. destruct (hr_tags _ Hr) as (t & Et & Ht). destruct (hr_shape _ Hr) as (E1 & E2 & E3). rewrite Et, postcard_roundtrip, E1, E2, E3, !Nat2Z.id.
    exists t, (Erasure.new k len). split_and!; done || apply new_fed.
Qed.

(** Once the results of a round are worked off, every piece in them has been
    taken, unless the decoder is complete. *)
Lemma take_results_honest rs : forall f ps pr e,
  gathered f ps -> Forall (fun r => honest_answer r.2) rs ->
  exists f' qs pr' e', take_results rs f pr e = Some (Ok (f', pr'), e') /\ gathered f' (ps ++ qs) /\ (pr = true -> pr' = true) /\ (qs = [] \/ pr' = true) /\
    (complete f' = true \/ forall prov resp w, (prov, Some (M_PieceResponse resp)) ∈ rs -> presp_found resp = true -> w ∈ presp_pieces resp -> coded w ∈ ps ++ qs) /\
    (rank_of f <= rank_of f')%nat /\ (rank_of f' = rank_of f -> still ps qs).
Proof.
  induction rs as [|[prov m] rs IH]; intros f ps pr e Hg Hrs; cbn [take_results].
  { exists f, [], pr, e. rewrite app_nil_r. split_and!; try done; [by left|right; set_solver|]. intros _ v. by rewrite app_nil_r. }
  apply Forall_cons_iff in Hrs as [Hm Hrs]. cbn in Hm.
  assert (Hskip : (forall resp w, m = Some (M_PieceResponse resp) -> presp_found resp = true -> w ∈ presp_pieces resp -> False) ->
    exists f' qs pr' e', take_results rs f pr e = Some (Ok (f', pr'), e') /\ gathered f' (ps ++ qs) /\ (pr = true -> pr' = true) /\ (qs = [] \/ pr' = true) /\
    (complete f' = true \/ forall prov0 resp w, (prov0, Some (M_PieceResponse resp)) ∈ (prov, m) :: rs -> presp_found resp = true -> w ∈ presp_pieces resp -> coded w ∈ ps ++ qs) /\
    (rank_of f <= rank_of f')%nat /\ (rank_of f' = rank_of f -> still ps qs)).
  { intros Hno. destruct (IH f ps pr e Hg Hrs) as (f' & qs & pr' & e' & E & H1 & H2 & H3 & H4 & H5 & H6). exists f', qs, pr', e'. split_and!; try done.
    destruct H4 as [H4|H4]; [by left|right]. intros prov0 resp w [E0|Hin]%elem_of_cons Hfo Hw; [|by eapply H4]. injection E0 as _ E0. exfalso. by eapply Hno. }
  destruct m as [[]|]; try (apply Hskip; by intros). destruct (negb (presp_found p) || bool_decide (presp_pieces p = [])) eqn:Esk.
  { apply Hskip. intros resp w [= <-] Hfo Hw. rewrite Hfo in Esk. cbn in Esk. apply bool_decide_eq_true in Esk. rewrite Esk in Hw. set_solver. }
  apply orb_false_iff in Esk as [Efo%negb_false_iff Epc%bool_decide_eq_false]. destruct Hm as [Hm|[Hm|Hm]]; [congruence|done|].
  destruct (start_remote_honest f ps p Hg Hm) as (t & d & Es & Ht & Hf & Hrk). rewrite (try_run (mret (start_remote f p)) _ e (t, d, Z.of_nat (length b)) e) by (by rewrite Es).
  destruct (add_remote_honest prov t (presp_pieces p) d ps pr e Hf Ht (hr_pieces _ Hm)) as (d' & qs & pr' & e1 & Ea & Hf' & H1 & H2 & H3 & H4 & H5).
  destruct Hg as [Eex Hg]. rewrite Eex, (try_run _ _ _ _ _ Ea). set (f1 := mk_fetch (Some d') (Some t) _ _).
  assert (Hg1 : gathered f1 (ps ++ qs)) by done. destruct (complete f1) eqn:Ec.
  { exists f1, qs, pr', e1. split_and!; try done; [by left| |]; change (rank_of f1) with (rank d'); rewrite <- Hrk; done. }
  destruct (IH f1 (ps ++ qs) pr' e1 Hg1 Hrs) as (f' & qs' & pr2 & e2 & E & G1 & G2 & G3 & G4 & G5 & G6). exists f', (qs ++ qs'), pr2, e2. rewrite app_assoc.
  change (rank_of f1) with (rank d') in G5, G6. split; [exact E|]. split; [exact G1|]. split; [by auto|]. split; [|split; [|split; [lia|]]].
  - destruct G3 as [->|G3]; [|by right]. destruct H2 as [->|H2]; [by left|right; by apply G2].
  - destruct G4 as [G4|G4]; [by left|right]. intros prov0 resp w [E0|Hin]%elem_of_cons Hfo Hw; [|by eapply G4]. injection E0 as _ ->. apply elem_of_app. left. by apply H3.
  - intros Er v. rewrite app_assoc. intros Hv. apply H5; [lia|]. apply G6; [lia|done].
Qed.

(** ** Rounds *)

Definition provider_honest (p : ProviderRecord PeerAddr) : Prop :=
  forall n ids max, honest_answer (request_at n (pr_addr p) (M_PieceRequest (mk_PieceRequest c ids max))).

(** Whatever valid pieces are excluded, as long as they do not span the
    sources, it answers with a piece outside their span. *)
Definition innovative (p : ProviderRecord PeerAddr) : Prop :=
  forall n ps, Forall (valid k len S) ps -> ~ (forall v, is_vec k v -> in_span k (vectors ps) v) ->
  exists resp w, request_at n (pr_addr p) (M_PieceRequest (mk_PieceRequest c (elements (list_to_set (map piece_id ps) : gset key)) 1)) = Some (M_PieceResponse resp) /\
    presp_found resp = true /\ w ∈ presp_pieces resp /\ ~ in_span k (vectors ps) (coding_vector (coded w)).

(** The answers of a round. *)
Lemma answers_of f ps l : forall e, gathered f ps -> Forall provider_honest l ->
  exists rs e', for_each (fun p => r ← request (pr_addr p) (piece_request c f); mret (pr_node_id p, r)) l e = Some (rs, e') /\
    Forall (fun r => honest_answer r.2) rs /\
    (~ (forall v, is_vec k v -> in_span k (vectors ps) v) -> Exists innovative l ->
      exists prov resp w, (prov, Some (M_PieceResponse resp)) ∈ rs /\ presp_found resp = true /\ w ∈ presp_pieces resp /\ ~ in_span k (vectors ps) (coding_vector (coded w))).
Proof.
  induction l as [|p l IH]; intros e Hg Hh; [exists [], e; split_and!; [done|done|by intros _ Hx%List.Exists_nil]|].
  apply Forall_cons_iff in Hh as [Hp Hh]. set (e1 := set_time e (succ (time e))). destruct (IH e1 Hg Hh) as (rs & e' & E & Hrs & Hin).
  exists ((pr_node_id p, request_at (time e) (pr_addr p) (piece_request c f)) :: rs), e'. split_and!.
  - cbn [for_each]. rewrite (bind_run _ _ e (pr_node_id p, request_at (time e) (pr_addr p) (piece_request c f)) e1) by done. by rewrite (bind_run _ _ _ _ _ E).
  - constructor; [apply Hp|done].
  - intros Hns Hex. apply List.Exists_cons in Hex as [Hi|Hex].
    + destruct (Hi (time e) ps (gathered_valid _ _ Hg) Hns) as (resp & w & Er & Hf & Hw & Hsp). exists (pr_node_id p), resp, w. split_and!; try done.
      unfold piece_request. rewrite (proj1 Hg), Er. left.
    + destruct (Hin Hns Hex) as (prov & resp & w & H1 & H2 & H3 & H4). exists prov, resp, w. split_and!; try done. by right.
Qed.

Lemma complete_spans f ps : gathered f ps -> complete f = true -> forall v, is_vec k v -> in_span k (vectors ps) v.
Proof.
  intros [_ Hg] Hc v Hv. unfold complete in Hc. destruct (f_decoder f) as [d|]; [|done]. destruct (f_tags f); [|done]. destruct Hg as [Hf _].
  apply (fed_span _ _ _ _ _ Hf). pose proof (fed_k _ _ _ _ _ Hf) as E. rewrite <- E in Hv |- *. by apply complete_span; [apply Hf|..].
Qed.

Lemma span_complete f ps : gathered f ps -> complete f = false -> ~ (forall v, is_vec k v -> in_span k (vectors ps) v).
Proof.
  intros [_ Hg] Hc Hall. unfold complete in Hc. destruct (f_decoder f) as [d|], (f_tags f); try done.
  - destruct Hg as [Hf _]. by rewrite (proj1 (fed_span_decodes _ _ _ _ _ sources_rows Hf Hall)) in Hc.
  - subst ps. specialize (Hall (unit_vec k 0) (unit_vec_vec _ _)) as (cs & Hcs & E). cbn in Hcs, E. apply (f_equal (fun v => at_ v 0)) in E.
    rewrite at_unit, at_zeros, decide_True in E by (done || lia). discriminate E.
Qed.

Lemma rounds_honest l : Forall provider_honest (take FANOUT l) -> forall n f ps e, gathered f ps ->
  exists f' ps' e', rounds n c l f e = Some (Ok f', e') /\ gathered f' ps' /\
    (Exists innovative (take FANOUT l) -> complete f' = true \/ (rank_of f + n <= rank_of f')%nat).
Proof.
  intros Hh n. induction n as [|n IH]; intros f ps e Hg; cbn [rounds]; [exists f, ps, e; split_and!; try done; intros _; right; lia|].
  destruct (complete f) eqn:Ec; [exists f, ps, e; split_and!; try done; intros _; by left|].
  destruct (answers_of f ps (take FANOUT l) e Hg Hh) as (rs & e1 & Er & Hrs & Hinn). rewrite (bind_run _ _ _ _ _ Er).
  destruct (take_results_honest rs f ps false e1 Hg Hrs) as (f1 & qs & pr & e2 & Et & Hg1 & _ & Hpr & Hall & Hle & Hst). rewrite (try_run _ _ _ _ _ Et).
  assert (Hgrow : Exists innovative (take FANOUT l) -> complete f1 = true \/ (rank_of f < rank_of f1)%nat /\ pr = true).
  { intros Hex. destruct Hall as [Hall|Hall]; [by left|right]. destruct (Hinn (span_complete f ps Hg Ec) Hex) as (prov & resp & w & H1 & H2 & H3 & H4).
    pose proof (Hall prov resp w H1 H2 H3) as Hin. assert (Hspan : in_span k (vectors (ps ++ qs)) (coding_vector (coded w))).
    { apply span_elem; [eapply vectors_vec; by eapply gathered_valid|]. apply list_elem_of_fmap. by exists (coded w). }
    split.
    - destruct (decide (rank_of f1 = rank_of f)) as [E|E]; [|lia]. exfalso. by apply H4, (Hst E).
    - destruct Hpr as [->|Hpr]; [|done]. exfalso. rewrite app_nil_r in Hspan. done. }
  destruct pr.
  - destruct (IH f1 (ps ++ qs) e2 Hg1) as (f' & ps' & e' & E & Hg' & Hc). exists f', ps', e'. split_and!; try done. intros Hex. destruct (Hc Hex) as [Hd|Hd]; [by left|].
    destruct (Hgrow Hex) as [Hd1|[Hd1 _]]; [|right; lia]. left. destruct n as [|n]; cbn [rounds] in E; [by injection E as <- _|]. rewrite Hd1 in E. by injection E as <- _.
  - exists f1, (ps ++ qs), e2. split_and!; try done. intros Hex. destruct (Hgrow Hex) as [Hd|[_ Hd]]; [by left|done].
Qed.

Lemma rank_bound f ps : gathered f ps -> (k <= rank_of f)%nat -> complete f = true.
Proof.
  intros [_ Hg] Hr. unfold rank_of, complete in *. destruct (f_decoder f) as [d|]; [|lia]. destruct (f_tags f); [|done]. destruct Hg as [Hf _].
  apply Nat.eqb_eq. pose proof (rank_le d (fed_wf _ _ _ _ _ Hf)). rewrite (fed_k _ _ _ _ _ Hf) in *. lia.
Qed.

Lemma finish_gathered f ps : Cid_of b = c -> gathered f ps -> complete f = true -> finish c f = Ok b.
Proof.
  intros Hc Hg Hcf. pose proof (complete_spans f ps Hg Hcf) as Hspan. destruct Hg as [_ Hg]. unfold complete in Hcf. destruct f as [[d|] [t|] total seen]; try done. cbn in *.
  destruct Hg as (Hf & _ & ->). destruct (fed_span_decodes _ _ _ _ _ sources_rows Hf Hspan) as [_ Hd]. exact (finish_rebuilds c b k len d (Some t) seen Hb Hl Hkl Hc Hcf Hd).
Qed.

(** What the admission gate answers to this fetch, which knows no length yet. *)
Definition admits (e : Engine) : bool := match admission_gate with None => true | Some f => f (succ (succ (time e))) 0 end.

(** C18: A fetch from honest providers.  Let nothing of the object be held,
    and let the resolved providers be honest: they do not answer, have
    nothing, or answer with pieces of the object and tags made for it; and let
    no two inputs hash alike.  Then the fetch does not panic and refuses no
    answer: when the admission gate, if one is wired, declines, that is the
    error; when there is no provider, that is; else it returns exactly the
    content, or reports that too few pieces came.  And when there are at most
    16 providers, one of them has, at each request, a piece outside the span
    of those already taken, and there are no more sources than rounds (64),
    an admitted fetch returns the content. *)
Theorem honest_fetch_returns_content (e : Engine) (mode : ConsumeMode) :
  let l := default [] (resolve_at (succ (time e)) c) in
  Cid_of b = c -> index (store e) !! c = None -> Forall provider_honest l ->
  exists r e', get c mode e = Some (r, e') /\
    if admits e then
      (l = [] -> r = Err NoProviders) /\
      (l <> [] -> r = Ok b \/ r = Err NoPieces \/ r = Err Insufficient) /\
      ((length l <= FANOUT)%nat -> Exists innovative l -> (k <= ROUNDS)%nat -> r = Ok b)
    else r = Err FetchDeclined.
Proof.
  intros l Hc Hn Hh. set (e0 := set_time e (succ (time e))). set (f0 := mk_fetch None None 0 ∅).
  assert (H0 : s_content c e = Some (None, e0)).
  { unfold s_content. rewrite (bind_run _ _ e (nanos_at (time e)) e0) by done. unfold with_store, content. change (store e0) with (store e). rewrite Hn. unfold e0. by destruct e. }
  assert (H1 : local_start c e0 = Some (f0, e0)).
  { unfold local_start, generation. rewrite (bind_run (gets _) _ e0 None e0); [done|]. unfold gets. change (store e0) with (store e). by rewrite Hn. }
  set (e1 := set_time e0 (succ (time e0))). assert (H2 : resolve c e0 = Some (l, e1)) by done.
  assert (Ha : exists e2, admit_fetch 0 e1 = Some (admits e, e2)) by (unfold admit_fetch, gate, admits; destruct admission_gate; by eexists).
  destruct Ha as [e2 Ha]. set (e3 := set_time e2 (succ (time e2))). set (l' := shuffle_at (time e2) l).
  assert (Hget : get c mode e = (if negb (admits e) then fail FetchDeclined else if bool_decide (l = []) && true then fail NoProviders else
      f <-? rounds ROUNDS c l' f0; b' <-? mret (finish c f); _ ← when (bool_decide (mode = Seed)) (seed_store c f b'); mret (Ok b')) (if admits e then if bool_decide (l = []) then e2 else e3 else e2)).
  { unfold get. rewrite (bind_run _ _ _ _ _ H0). unfold fetch. rewrite (bind_run _ _ _ _ _ H1). change (complete f0) with false.
    rewrite (bind_run _ _ _ _ _ H2), (bind_run _ _ _ _ _ Ha). destruct (admits e); cbn [negb]; [|done]. case_bool_decide; cbn [andb]; [done|].
    by rewrite (bind_run tick _ e2 (time e2) e3). }
  destruct (admits e); cbn [negb] in Hget; [|exists (Err FetchDeclined), e2; by rewrite Hget].
  destruct (bool_decide_reflect (l = [])) as [El|Hne]; cbn [andb] in Hget.
  { exists (Err NoProviders), e2. rewrite Hget, El. split_and!; try done. by intros _ ?%List.Exists_nil. }
  pose proof (shuffle_perm (time e2) l) as Hp. fold l' in Hp.
  destruct (rounds_honest l') with (n := ROUNDS) (f := f0) (ps := @nil CodedPiece) (e := e3) as (f' & ps & e4 & Er & Hg & Hc').
  { apply Forall_take. by rewrite Hp. }
  { split; done. }
  rewrite (try_run _ _ _ _ _ Er) in Hget. destruct (complete f') eqn:Ecf.
  - assert (Hrun : exists u e5, when (bool_decide (mode = Seed)) (seed_store c f' b) e4 = Some (u, e5)).
    { case_bool_decide; cbn [when]; [|by eexists _, _]. unfold seed_store. destruct (f_tags f'); by eexists _, _. }
    destruct Hrun as (u & e5 & Hrun). exists (Ok b), e5. rewrite Hget, (try_run (mret (finish c f')) _ e4 b e4) by (by rewrite (finish_gathered f' ps)).
    rewrite (bind_run _ _ _ _ _ Hrun). split_and!; [done|done|by left|done].
  - assert (Hfin : finish c f' = Err NoPieces \/ finish c f' = Err Insufficient).
    { unfold finish. unfold complete in Ecf. destruct (f_decoder f'); [right; by rewrite Ecf|by left]. }
    exists (finish c f'), e4. split_and!; [rewrite Hget; by destruct Hfin as [-> | ->]|done|by right|]. intros Hlen Hex Hk64.
    destruct Hc' as [Hd|Hd]; [by rewrite take_ge by (by rewrite Hp); rewrite Hp|congruence|].
    rewrite (rank_bound f' ps Hg) in Ecf; [done|]. cbn in Hd. unfold ROUNDS in *. lia.
Qed.
End honest.
