(* ===== verification/ObjWalk.v ===== *)
(** The walks over linked objects in the object engine ([unpin_chain],
    [forget_chain], [want_chain], [unwant_chain], [ban_chain] of [ObjCore]):
    they terminate, visit what is reachable through the content held, and act
    on that and nothing else. *)

From S2P Require Import Prelude Crypto Pager Cipher ObjManifest Wire Gf Linear Erasure ErasureDecode VTags Token PieceStore ObjCore ObjLogic ObjFetch.

Open Scope Z_scope.
Open Scope zeph_scope.

(** ** What the store says of one cid, access times left out *)

Record View := mk_view { v_entry : option CidState; v_dir : option CidDir; v_tomb : bool; v_want : bool; v_dist : bool }.

Definition view (s : Store) (c : key) : View :=
  mk_view (touch 0 <$> index s !! c) (d_cid (disk s) !! c) (bool_decide (c ∈ tombstones s)) (bool_decide (c ∈ wanted s)) (bool_decide (c ∈ distributed s)).

Definition v_system (v : View) : bool := match v_entry v with Some st => system st | None => false end.

Lemma same_view s s' c : same s s' -> view s' c = view s c.
Proof. intros [E1 E2 E3 E4 E5 _]. unfold view. by rewrite E1, E2, E3, E4, E5. Qed.

Lemma view_system s c : v_system (view s c) = is_system s c.
Proof. unfold v_system, view, is_system. cbn. by destruct (index s !! c). Qed.

(** What each operation makes of the cid it is applied to. *)
Definition unpinned (v : View) : View := if v_system v then v else mk_view (st_pinned false <$> v_entry v) (dir_pinned false <$> v_dir v) (v_tomb v) (v_want v) (v_dist v).
Definition forgotten (v : View) : View := if v_system v then v else mk_view None None (v_tomb v) false false.
Definition want_set (v : View) : View := if v_system v then v else mk_view (v_entry v) (v_dir v) (v_tomb v) true (v_dist v).
Definition want_unset (v : View) : View := mk_view (v_entry v) (v_dir v) (v_tomb v) false (v_dist v).
Definition banned (v : View) : View := if v_system v then v else mk_view None None true (v_want v) (v_dist v).

Section walk.
Context {B3 : Blake3} {XF : Xof} {AE : Aead} {KX : KeyedXof} {UM : Umbral} {Net : ObjNet}.
Context {PG : Postcard Generation} {PV : Postcard VTags} {PM : Postcard Manifest} {PE : Postcard EncryptedEnvelope} {PP : Postcard PlainMeta}.

(** The links of a cid, from the content held. *)
Definition v_links (v : View) : list key :=
  match v_entry v with
  | Some st => if has_content st then match v_dir v ≫= f_content with Some b => chain_children b | None => [] end else []
  | None => []
  end.

Definition links (s : Store) (c : key) : list key := v_links (view s c).

Lemma links_of_run c e : exists e', links_of c e = Some (links (store e) c, e') /\ keeps e e'.
Proof.
  assert (Hr : exists r e', s_content c e = Some (r, e')).
  { unfold s_content. rewrite (bind_run nanos _ e (nanos_at (time e)) (set_time e (S (time e)))) by done. unfold with_store. destruct (content _ _ _) as [x s]. by eexists _, _. }
  destruct Hr as (r & e' & Hr). pose proof (s_content_run _ _ _ _ Hr) as [Hk Er]. exists e'. unfold links_of. rewrite (bind_run _ _ _ _ _ Hr). split; [|done].
  do 2 f_equal. subst r. unfold links, v_links, view, content. cbn. destruct (index (store e) !! c) as [st|]; [|done]. cbn. by destruct (has_content st).
Qed.

(** ** Operations that act on one cid *)

Definition acts (act : key -> Eng (result () EngErr)) (F : View -> View) : Prop :=
  forall c e, exists r e', act c e = Some (r, e') /\ view (store e') c = F (view (store e) c) /\ forall c', c' <> c -> view (store e') c' = view (store e) c'.

Lemma routing_run x e : exists ok e', routing x e = Some (ok, e') /\ store e' = store e.
Proof. by eexists _, _. Qed.

Lemma guarded_acts (F : View -> View) (f : key -> Store -> Store) (msg : option (key -> Sent)) act :
  (forall v, v_system v = true -> F v = v) ->
  (forall c s, is_system s c = false -> view (f c s) c = F (view s c) /\ forall c', c' <> c -> view (f c s) c' = view s c') ->
  (forall c, act c = (_ <-? guard_not_system c; _ ← modify_store (f c); _ ← match msg with Some m => routing (m c) | None => mret true end; mret (Ok tt))) ->
  acts act F.
Proof.
  intros Hsys Hf Hact c e. rewrite Hact. destruct (is_system (store e) c) eqn:Es.
  - exists (Err SystemObject), e. split; [|rewrite Hsys; [done|by rewrite view_system]]. unfold try, guard_not_system, gets. unfold mbind, eng_bind, mret, eng_ret. by rewrite Es.
  - destruct (Hf c (store e) Es) as [E1 E2]. rewrite (try_run (guard_not_system c) _ e tt e) by (unfold guard_not_system, gets, mbind, eng_bind, mret, eng_ret; by rewrite Es).
    rewrite (bind_run (modify_store (f c)) _ e tt (set_store e (f c (store e)))) by done. destruct msg; by eexists _, _.
Qed.

Lemma view_delete s s' c :
  index s' = delete c (index s) -> d_cid (disk s') = delete c (d_cid (disk s)) ->
  (forall c', c' <> c -> (c' ∈ tombstones s' <-> c' ∈ tombstones s) /\ (c' ∈ wanted s' <-> c' ∈ wanted s) /\ (c' ∈ distributed s' <-> c' ∈ distributed s)) ->
  view s' c = mk_view None None (bool_decide (c ∈ tombstones s')) (bool_decide (c ∈ wanted s')) (bool_decide (c ∈ distributed s')) /\
  forall c', c' <> c -> view s' c' = view s c'.
Proof.
  intros Ei Ed Hm. unfold view. rewrite Ei, Ed, !lookup_delete_eq. split; [done|]. intros c' Hne. rewrite !lookup_delete_ne by done.
  destruct (Hm c' Hne) as (H1 & H2 & H3). by rewrite (bool_decide_ext _ _ H1), (bool_decide_ext _ _ H2), (bool_decide_ext _ _ H3).
Qed.

Lemma unpin_acts : acts unpin unpinned.
Proof.
  apply (guarded_acts _ (fun c s => PieceStore.unpin s c) None).
  - intros v Hv. unfold unpinned. by rewrite Hv.
  - intros c s Hs. unfold unpinned. rewrite view_system, Hs. split.
    + unfold view. cbn. rewrite !lookup_alter_eq. f_equal. by destruct (index s !! c).
    + intros c' Hne. unfold view. cbn. by rewrite !lookup_alter_ne.
  - done.
Qed.

Lemma forget_acts : acts forget_local forgotten.
Proof.
  apply (guarded_acts _ (fun c s => forget s c) (Some Withdrawn)).
  - intros v Hv. unfold forgotten. by rewrite Hv.
  - intros c s Hs. unfold forgotten. rewrite view_system, Hs. destruct (view_delete s (forget s c) c) as [E1 E2]; [done|done|cbn; set_solver|]. split; [|done].
    rewrite E1. cbn. rewrite (bool_decide_false (c ∈ wanted s ∖ _)) by set_solver. by rewrite (bool_decide_false (c ∈ distributed s ∖ _)) by set_solver.
  - done.
Qed.

Lemma ban_acts : acts delete_local banned.
Proof.
  apply (guarded_acts _ (fun c s => tombstone s c) (Some Withdrawn)).
  - intros v Hv. unfold banned. by rewrite Hv.
  - intros c s Hs. unfold banned. rewrite view_system, Hs. destruct (view_delete s (tombstone s c) c) as [E1 E2]; [done|done|cbn; set_solver|]. split; [|done].
    rewrite E1. cbn. by rewrite (bool_decide_true (c ∈ {[c]} ∪ _)) by set_solver.
  - done.
Qed.

Lemma want_acts : acts want want_set.
Proof.
  apply (guarded_acts _ (fun c s => clear_cooldown (set_want s c) c) (Some WantAnnounced)).
  - intros v Hv. unfold want_set. by rewrite Hv.
  - intros c s Hs. unfold want_set. rewrite view_system, Hs. unfold view. cbn. split.
    + by rewrite (bool_decide_true (c ∈ {[c]} ∪ _)) by set_solver.
    + intros c' Hne. assert (Hiff : c' ∈ {[c]} ∪ wanted s <-> c' ∈ wanted s) by set_solver. by rewrite (bool_decide_ext _ _ Hiff).
  - done.
Qed.

Lemma unwant_acts : acts unwant want_unset.
Proof.
  intros c e. eexists _, _. split; [done|]. unfold view, want_unset. cbn. split.
  - by rewrite (bool_decide_false (c ∈ wanted (store e) ∖ _)) by set_solver.
  - intros c' Hne. assert (Hiff : c' ∈ wanted (store e) ∖ {[c]} <-> c' ∈ wanted (store e)) by set_solver. by rewrite (bool_decide_ext _ _ Hiff).
Qed.

(** ** The walk *)

Section graph.
Context (s0 : Store) (root : key).

Definition edge (a b : key) : Prop := b ∈ links s0 a.

(** The links of the cids still to visit. *)
Definition left_over (seen : gset key) (l : list key) : nat := sum_list_with (fun c => if bool_decide (c ∈ seen) then 0%nat else length (links s0 c)) l.

Lemma left_over_notin seen c l : c ∉ l -> left_over ({[c]} ∪ seen) l = left_over seen l.
Proof.
  unfold left_over. induction l as [|x l IH]; intros Hx; [done|]. cbn. rewrite IH by set_solver. f_equal.
  assert (Hiff : x ∈ {[c]} ∪ seen <-> x ∈ seen) by set_solver. by rewrite (bool_decide_ext _ _ Hiff).
Qed.

Lemma left_over_visit seen c l : NoDup l -> c ∈ l -> c ∉ seen -> left_over seen l = (length (links s0 c) + left_over ({[c]} ∪ seen) l)%nat.
Proof.
  induction 1 as [|x l Hx Hnd IH]; intros Hc Hs; [set_solver|]. apply elem_of_cons in Hc as [<-|Hc].
  - pose proof (left_over_notin seen c l Hx) as E. unfold left_over in *. cbn. rewrite E, bool_decide_false, bool_decide_true by set_solver. lia.
  - specialize (IH Hc Hs). unfold left_over in *. cbn. assert (Hiff : x ∈ {[c]} ∪ seen <-> x ∈ seen) by set_solver. rewrite (bool_decide_ext _ _ Hiff). lia.
Qed.

Definition index_list : list key := elements (dom (index s0)).

Lemma unheld_links c : c ∉ index_list -> links s0 c = [].
Proof.
  intros Hc. unfold index_list in Hc. rewrite elem_of_elements, not_elem_of_dom in Hc. unfold links, v_links, view. cbn. by rewrite Hc.
Qed.

Lemma left_over_step seen c : c ∉ seen -> left_over seen index_list = (length (links s0 c) + left_over ({[c]} ∪ seen) index_list)%nat.
Proof.
  intros Hs. destruct (decide (c ∈ index_list)) as [Hin|Hn]; [apply left_over_visit; [apply NoDup_elements|done|done]|].
  by rewrite unheld_links, left_over_notin.
Qed.

(** Reached so far: [seen] is done, [stack] is to do. *)
Record frontier (stack : list key) (seen : gset key) : Prop := {
  fr_root : root ∈ seen \/ root ∈ stack;
  fr_closed : forall a b, a ∈ seen -> edge a b -> b ∈ seen \/ b ∈ stack;
  fr_reach : forall a, a ∈ seen \/ a ∈ stack -> rtc edge root a
}.

Lemma frontier_done seen a : frontier [] seen -> (a ∈ seen <-> rtc edge root a).
Proof.
  intros [H1 H2 H3]. split; [intros Ha; apply H3; by left|].
  assert (Hcl : forall x y, rtc edge x y -> x ∈ seen -> y ∈ seen).
  { induction 1 as [|x y z Hxy _ IH]; [done|]. intros Hx. apply IH. destruct (H2 x y Hx Hxy); [done|set_solver]. }
  intros Hr. apply (Hcl root); [done|]. destruct H1; [done|set_solver].
Qed.

Lemma frontier_skip stack c seen : frontier (stack ++ [c]) seen -> c ∈ seen -> frontier stack seen.
Proof.
  intros [H1 H2 H3] Hc. constructor.
  - destruct H1; set_solver.
  - intros a b Ha Hab. destruct (H2 a b Ha Hab); set_solver.
  - intros a Ha. apply H3. set_solver.
Qed.

Lemma frontier_visit stack c seen : frontier (stack ++ [c]) seen -> frontier (stack ++ links s0 c) ({[c]} ∪ seen).
Proof.
  intros [H1 H2 H3]. constructor.
  - destruct H1; set_solver.
  - intros a b [Ha|Ha]%elem_of_union Hab; [apply elem_of_singleton in Ha as ->; right; apply elem_of_app; by right|].
    destruct (H2 a b Ha Hab); set_solver.
  - assert (Hc : rtc edge root c) by (apply H3; right; set_solver).
    intros a [[Ha|Ha]%elem_of_union|[Ha|Ha]%elem_of_app]; [by apply elem_of_singleton in Ha as ->|apply H3; by left|apply H3; right; set_solver|].
    eapply rtc_r; [exact Hc|exact Ha].
Qed.

Context (act : key -> Eng (result () EngErr)) (F : View -> View) (Hact : acts act F).

Definition visited_view (seen : gset key) (s : Store) : Prop :=
  forall c, view s c = if bool_decide (c ∈ seen) then F (view s0 c) else view s0 c.

Lemma walk_visits fuel : forall stack seen n e,
  frontier stack seen -> visited_view seen (store e) -> n = size seen -> (length stack + left_over seen index_list < fuel)%nat ->
  exists (R : gset key) e', walk fuel (fun c => links ← links_of c; _ ← act c; mret (1%nat, links)) stack seen n e = Some (size R, e') /\
    frontier [] R /\ visited_view R (store e').
Proof.
  induction fuel as [|fuel IH]; intros stack seen n e Hfr Hv -> Hfuel; [lia|]. cbn [walk].
  destruct (rev stack) as [|c r] eqn:Er.
  { apply (f_equal (@rev key)) in Er. rewrite rev_involutive in Er. cbn in Er. subst stack. by exists seen, e. }
  assert (Es : stack = rev r ++ [c]) by (rewrite <- (rev_involutive stack), Er; done). rewrite Es in Hfr, Hfuel. rewrite length_app in Hfuel. cbn [length] in Hfuel.
  case_bool_decide as Hc.
  - apply IH; [by eapply frontier_skip|done|done|lia].
  - destruct (links_of_run c e) as (e1 & E1 & K1). rewrite (bind_run _ _ e (1%nat, links (store e) c) (match act c e1 with Some (_, e2) => e2 | None => e1 end)).
    + destruct (Hact c e1) as (x & e2 & E2 & V2 & O2). rewrite E2. assert (El : links (store e) c = links s0 c) by (unfold links; by rewrite Hv, bool_decide_false). rewrite El.
      apply IH.
      * by apply frontier_visit.
      * intros c'. destruct (decide (c' = c)) as [->|Hne].
        -- rewrite V2, (same_view _ _ c K1), Hv, bool_decide_false, bool_decide_true by set_solver. done.
        -- rewrite O2, (same_view _ _ c' K1), Hv by done. assert (Hiff : c' ∈ {[c]} ∪ seen <-> c' ∈ seen) by set_solver. by rewrite (bool_decide_ext _ _ Hiff).
      * rewrite size_union by set_solver. rewrite size_singleton. lia.
      * rewrite (left_over_step seen c Hc) in Hfuel. rewrite length_app. lia.
    + rewrite (bind_run _ _ _ _ _ E1). destruct (Hact c e1) as (x & e2 & E2 & _ & _). rewrite E2. by rewrite (bind_run _ _ _ _ _ E2).
Qed.
End graph.

(** The fuel a walk over the content held needs: one more than the pushes. *)
Definition walk_fuel (s : Store) : nat := 2 + left_over s ∅ (index_list s).

Lemma local_walk_visits act F c e fuel :
  acts act F -> (walk_fuel (store e) <= fuel)%nat ->
  exists (R : gset key) e', local_walk fuel act c e = Some (size R, e') /\ (forall c', c' ∈ R <-> rtc (edge (store e)) c c') /\
    forall c', view (store e') c' = if bool_decide (c' ∈ R) then F (view (store e) c') else view (store e) c'.
Proof.
  intros Hact Hfuel. destruct (walk_visits (store e) c act F Hact fuel [c] ∅ 0 e) as (R & e' & E & Hfr & Hv).
  - constructor; [right; left|set_solver|]. intros a [Ha|Ha%list_elem_of_singleton]; [set_solver|by subst].
  - intros c'. by rewrite bool_decide_false by set_solver.
  - by rewrite size_empty.
  - unfold walk_fuel in Hfuel. cbn [length]. lia.
  - exists R, e'. split; [exact E|]. split; [|done]. intros c'. by apply frontier_done.
Qed.

(** C22: A file or folder is treated as the whole chain of objects it links to.
    With fuel for the links held, each of the walks (unpin, forget, want,
    unwant, ban) returns, and for the set of cids reachable from the given one
    through the content held: it returns their number; each of them becomes
    what the operation on a single object makes of it (a system object is
    left alone, but by unwant), links and all being read before they go; and
    every other cid is as it was. *)
Theorem chain_walks_act_on_reachable_objects (c : key) (e : Engine) (fuel : nat) :
  (walk_fuel (store e) <= fuel)%nat ->
  Forall (fun '(run, F) => exists (R : gset key) e', run fuel c e = Some (size R, e') /\ (forall c', c' ∈ R <-> rtc (edge (store e)) c c') /\
      forall c', view (store e') c' = if bool_decide (c' ∈ R) then F (view (store e) c') else view (store e) c')
    [(unpin_chain, unpinned); (forget_chain, forgotten); (want_chain, want_set); (unwant_chain, want_unset); (ban_chain, banned)].
Proof.
  intros Hfuel. repeat constructor; by apply local_walk_visits; [first [apply unpin_acts|apply forget_acts|apply want_acts|apply unwant_acts|apply ban_acts]|].
Qed.
End walk.
