(* ===== verification/ObjFiles.v ===== *)
(** Publishing and reading back in the object engine: what a publish leaves in
    the store, files in segments with whole and range reads, private files
    ([publish_impl], [publish_file], [fetch_file], [fetch_file_range],
    [publish_private], [get_private], [get_private_range] of [ObjCore]). *)

From S2P Require Import Prelude Crypto Pager Cipher ObjManifest Wire Gf Linear Erasure ErasureDecode VTags Token PieceStore ObjCore ObjLogic ObjFetch ObjRebuild.

Open Scope Z_scope.
Open Scope zeph_scope.

Section files.
Context {B3 : Blake3} {XF : Xof} {AE : Aead} {KX : KeyedXof} {UM : Umbral} {Net : ObjNet}.
Context {PG : Postcard Generation} {PV : Postcard VTags} {PM : Postcard Manifest} {PE : Postcard EncryptedEnvelope} {PP : Postcard PlainMeta}.

(** ** Stores whose content is what its id says *)

(** The pin gate, if one is wired, lets every pin through. *)
Definition pins_granted : Prop := match pin_gate with None => True | Some f => forall n size, f n size = true end.

(** Publishing with the flag [Pin]. *)
Context (Pin : bool).

(** Content held is in its file and hashes to its id. *)
Definition content_ok (s : Store) : Prop := forall c, holds_content s c = true -> exists x, content_file s c = Some x /\ Cid_of x = c.

(** What is marked distributed is held, or what is published is pinned. A
    publish of an object that is marked and not held keeps no copy of it
    unless it pins it. *)
Definition marks_ok (s : Store) : Prop :=
  (forall c, is_distributed s c = true -> holds_content s c = true) \/ Pin = true /\ pins_granted.

Record good (s : Store) : Prop := { gd_content : content_ok s; gd_marks : marks_ok s }.

(** Runs that keep a good store good and lose no content. *)
Definition grows : relation Engine := fun e e' =>
  good (store e) -> good (store e') /\ forall c, holds_content (store e) c = true -> holds_content (store e') c = true.

#[export] Instance grows_preorder : PreOrder grows.
Proof.
  split; [by intros e H|]. intros e1 e2 e3 H12 H23 H1. destruct (H12 H1) as [H2 C2]. destruct (H23 H2) as [H3 C3]. split; auto.
Qed.

Lemma same_good s s' : same s s' -> good s -> good s' /\ forall c, holds_content s c = true -> holds_content s' c = true.
Proof.
  intros Hs [H1 H2]. assert (Hh : forall c, holds_content s' c = holds_content s c) by (intros c; by apply same_holds).
  split; [split|].
  - intros c. rewrite Hh. intros Hc. destruct (same_holds s s' c Hs) as (_ & _ & E & _). rewrite E. by apply H1.
  - destruct H2 as [H2|H2]; [left|by right]. intros c. unfold is_distributed. rewrite (sm_distributed _ _ Hs), Hh. apply H2.
  - intros c. by rewrite Hh.
Qed.

Lemma keeps_grows e e' : keeps e e' -> grows e e'.
Proof. intros K H. by apply same_good. Qed.

Lemma ensures_keeps_grows {A} (m : Eng A) : ensures keeps m -> ensures grows m.
Proof. intros Hm e a e' E. by apply keeps_grows, (Hm e a e'). Qed.

(** An update that keeps content and marks. *)
Lemma good_update s s' :
  good s -> distributed s' = distributed s -> (forall c, holds_content s' c = true <-> holds_content s c = true) ->
  (forall c, holds_content s c = true -> content_file s' c = content_file s c) ->
  good s' /\ forall c, holds_content s c = true -> holds_content s' c = true.
Proof.
  intros [H1 H2] Ed Hh Hf. split; [split|].
  - intros c Hc%Hh. rewrite Hf by done. by apply H1.
  - destruct H2 as [H2|H2]; [left|by right]. intros c. unfold is_distributed. rewrite Ed. intros Hc%H2. by apply Hh.
  - intros c. apply Hh.
Qed.

Lemma put_generation_good s c g now : good s -> good (put_generation s c g now).2 /\ forall c', holds_content s c' = true -> holds_content (put_generation s c g now).2 c' = true.
Proof.
  intros Hg. apply good_update; [done|..]; unfold put_generation; destruct (is_tombstoned s c); try done; cbn [snd].
  - by destruct (index _ !! c).
  - intros c'. unfold holds_content. change (index (with_dir s c (dir_meta (to_allocvec g)))) with (index s). destruct (index s !! c) as [st|] eqn:E; [done|]. cbn.
    destruct (decide (c' = c)) as [->|Hne]; [by rewrite lookup_insert_eq, E|by rewrite lookup_insert_ne].
  - intros c' _. unfold content_file. change (index (with_dir s c (dir_meta (to_allocvec g)))) with (index s). destruct (index s !! c) as [st|] eqn:E; cbn.
    all: destruct (decide (c' = c)) as [->|Hne]; [rewrite lookup_insert_eq; by destruct (d_cid (disk s) !! c)|by rewrite lookup_insert_ne].
Qed.

Lemma marker_good s c :
  good s -> good (mark_system s c) /\ forall c', holds_content s c' = true -> holds_content (mark_system s c) c' = true.
Proof.
  intros Hg. apply good_update; [done|done|..].
  - intros c'. unfold holds_content. cbn. destruct (decide (c' = c)) as [->|Hne]; [rewrite lookup_alter_eq; by destruct (index s !! c)|by rewrite lookup_alter_ne].
  - intros c' _. unfold content_file. cbn. destruct (decide (c' = c)) as [->|Hne]; [rewrite lookup_insert_eq; by destruct (d_cid (disk s) !! c)|by rewrite lookup_insert_ne].
Qed.

Lemma put_content_good s c b pin now : good s -> Cid_of b = c ->
  let s' := (put_content s c b pin now).2 in
  good s' /\ (forall c', holds_content s c' = true -> holds_content s' c' = true) /\ ((put_content s c b pin now).1 = Ok tt -> holds_content s' c = true).
Proof.
  intros Hg Hc s'. assert (Hcase : (put_content s c b pin now).1 = Ok tt /\ (forall c', c' <> c -> holds_content s' c' = holds_content s c' /\ content_file s' c' = content_file s c') /\
      holds_content s' c = true /\ content_file s' c = Some b /\ distributed s' = distributed s \/ s' = s /\ (put_content s c b pin now).1 <> Ok tt).
  { unfold s', put_content. destruct (is_tombstoned s c); [by right|]. destruct (bool_decide (is_Some (index s !! c))) eqn:Ei; [|by right]. left. cbn [negb fst snd].
    apply bool_decide_eq_true in Ei as [st Est]. split; [done|]. unfold holds_content, content_file.
    destruct pin; cbn; rewrite lookup_alter_eq, !lookup_insert_eq, Est; cbn; (split; [|by split_and!]); intros c' Hne; rewrite lookup_alter_ne, !lookup_insert_ne by done; done. }
  destruct Hcase as [(E & Ho & Hh & Hf & Ed)|[-> Hne]]; [|split_and!; done].
  split; [split|split; [|done]].
  - intros c' Hc'. destruct (decide (c' = c)) as [->|Hne]; [by exists b|]. destruct (Ho c' Hne) as [E1 E2]. rewrite E2. apply (gd_content _ Hg). by rewrite <- E1.
  - destruct (gd_marks _ Hg) as [Hm|Hm]; [left|by right]. intros c'. unfold is_distributed. rewrite Ed. intros Hd. apply Hm in Hd. destruct (decide (c' = c)) as [->|Hne]; [done|]. by rewrite (proj1 (Ho c' Hne)).
  - intros c' Hc'. destruct (decide (c' = c)) as [->|Hne]; [done|]. by rewrite (proj1 (Ho c' Hne)).
Qed.

Lemma set_want_good s c : good s -> good (set_want s c) /\ forall c', holds_content s c' = true -> holds_content (set_want s c) c' = true.
Proof. intros Hg. by apply good_update. Qed.

(** ** Publishing *)

Lemma grows_with_store {A} (f : Store -> A * Store) : (forall s, good s -> good (f s).2 /\ forall c, holds_content s c = true -> holds_content (f s).2 c = true) -> ensures grows (with_store f).
Proof. intros Hf e a e'. unfold with_store. specialize (Hf (store e)). destruct (f (store e)) as [x s]. by intros [= _ <-]. Qed.
Lemma grows_modify f : (forall s, good s -> good (f s) /\ forall c, holds_content s c = true -> holds_content (f s) c = true) -> ensures grows (modify_store f).
Proof. intros Hf e a e' [= _ <-] Hg. exact (Hf (store e) Hg). Qed.

Lemma grows_generation_of b k : ensures grows (generation_of b k).
Proof.
  apply ensures_keeps_grows. unfold generation_of. ens.
Qed.

(** A publish that succeeds leaves the content in the store. *)
Lemma publish_impl_ok b sys k e rep e' :
  publish_impl b Pin sys k e = Some (Ok rep, e') -> good (store e) ->
  r_cid rep = Cid_of b /\ good (store e') /\ holds_content (store e') (Cid_of b) = true /\ forall c, holds_content (store e) c = true -> holds_content (store e') c = true.
Proof.
  unfold publish_impl. case_bool_decide; [by intros [? _]%ret_inv|]. intros (pin' & e1 & H1 & Hr)%bind_inv Hg.
  assert (Hp : Pin = true -> pins_granted -> pin' = true).
  { intros -> Hp. unfold pin_allowed, gate, pins_granted in *. destruct pin_gate as [f|]; [|by apply ret_inv in H1 as [-> _]].
    injection H1 as <- _. apply Hp. }
  assert (K1 : grows e e1) by (apply keeps_grows; revert H1; destruct Pin; [apply keeps_gate|by intros [_ ->]%ret_inv]).
  apply try_inv in Hr as [(g & e2 & H2%grows_generation_of & Hr)|(? & _ & ?)]; [|done]. apply bind_inv in Hr as (t & e3 & H3%keeps_nanos%keeps_grows & Hr).
  apply bind_inv in Hr as (r & e4 & H4 & Hr). apply grows_with_store in H4; [|intros s Hs; by apply put_generation_good].
  apply try_inv in Hr as [(u & e5 & [_ ->]%ret_inv & Hr)|(? & _ & ?)]; [|done].
  apply bind_inv in Hr as (u' & e6 & H6 & Hr). assert (K6 : grows e4 e6) by (revert H6; apply (ensures_when grows), grows_modify; intros s Hs; by apply marker_good). clear H6.
  apply bind_inv in Hr as (t' & e7 & H7%keeps_nanos%keeps_grows & Hr). apply bind_inv in Hr as (r' & e8 & H8 & Hr).
  apply try_inv in Hr as [(u2 & e9 & [Eok ->]%ret_inv & Hr)|(? & _ & ?)]; [|done].
  assert (Hstored : Pin = true /\ pins_granted -> good (store e7) -> holds_content (store e8) (Cid_of b) = true).
  { intros [P1 P2] G7. rewrite (Hp P1 P2) in H8. unfold with_store, PieceStore.pin in H8.
    pose proof (put_content_good (store e7) (Cid_of b) b true t' G7 eq_refl) as (_ & _ & G). destruct (put_content (store e7) (Cid_of b) b true t') as [x s].
    injection H8 as <- <-. cbn in *. apply G. by destruct x as [[]|]. }
  assert (K8 : grows e7 e8).
  { revert H8. destruct pin'; [|by intros [_ ->]%ret_inv]. intros H8. eapply grows_with_store; [|exact H8]. intros s Hs. by destruct (put_content_good s (Cid_of b) b true t' Hs eq_refl) as (? & ? & _). }
  apply bind_inv in Hr as (dist & e10 & H10 & Hr). injection H10 as <- <-.
  assert (K7 : grows e e7) by (do 5 (etransitivity; [eassumption|]); done). destruct (K7 Hg) as [Hg7 _].
  assert (K : grows e e8) by (by transitivity e7). destruct (K Hg) as [Hg8 Hc8]. destruct (is_distributed (store e8) (Cid_of b)) eqn:Ed.
  - apply bind_inv in Hr as (u3 & e11 & H11 & Hr). apply ret_inv in Hr as [[= ->] ->].
    assert (K11 : grows e8 e11) by (apply keeps_grows; revert H11; apply (ensures_when keeps); ens). destruct (K11 Hg8) as [Hg11 Hc11].
    split_and!; [done|done| |by auto]. apply Hc11. destruct (gd_marks _ Hg8) as [Hm|Hm]; [by apply Hm|by apply Hstored].
  - apply bind_inv in Hr as (held & e11 & H11 & Hr). injection H11 as <- <-. apply bind_inv in Hr as (t3 & e12 & H12 & Hr). pose proof (keeps_nanos _ _ _ H12) as K12. apply keeps_grows in K12. destruct (K12 Hg8) as [Hg12 Hc12].
    apply bind_inv in Hr as (r3 & e13 & H13 & Hr). apply try_inv in Hr as [(u4 & e14 & [E14 ->]%ret_inv & Hr)|(? & _ & ?)]; [|done].
    assert (H13' : good (store e13) /\ (forall c, holds_content (store e12) c = true -> holds_content (store e13) c = true) /\ holds_content (store e13) (Cid_of b) = true).
    { destruct (holds_content (store e8) (Cid_of b)) eqn:Eh.
      - apply ret_inv in H13 as [_ ->]. split_and!; [done|done|by apply Hc12].
      - unfold with_store in H13. pose proof (put_content_good (store e12) (Cid_of b) b false t3 Hg12 eq_refl) as (G1 & G2 & G3).
        destruct (put_content (store e12) (Cid_of b) b false t3) as [x s]. injection H13 as <- <-. cbn in *. split_and!; [done|done|]. apply G3. destruct x as [[]|]; [done|done]. }
    destruct H13' as (Hg13 & Hc13 & Hh13). apply bind_inv in Hr as (u5 & e15 & H15 & Hr). assert (K15 : grows e13 e15) by (revert H15; apply (ensures_when grows), grows_modify; intros s Hs; by apply set_want_good).
    destruct (K15 Hg13) as [Hg15 Hc15]. apply bind_inv in Hr as (u6 & e16 & H16%keeps_send%keeps_grows & Hr). destruct (H16 Hg15) as [Hg16 Hc16]. apply ret_inv in Hr as [[= ->] ->].
    split_and!; auto 10.
Qed.

(** Content held is fetched without the network. *)
Lemma get_held c mode e :
  good (store e) -> holds_content (store e) c = true -> exists x e', get c mode e = Some (Ok x, e') /\ Cid_of x = c /\ keeps e e'.
Proof.
  intros Hg Hh. destruct (gd_content _ Hg c Hh) as (x & Hf & Hx). assert (Hr : exists r e', s_content c e = Some (r, e')).
  { unfold s_content. rewrite (bind_run nanos _ e (nanos_at (time e)) (set_time e (S (time e)))) by done. unfold with_store. destruct (content _ _ _) as [y s]. by eexists _, _. }
  destruct Hr as (r & e' & Hr). pose proof (s_content_run _ _ _ _ Hr) as [Hk Er]. exists x, e'. split_and!; [|done|done].
  unfold get. rewrite (bind_run _ _ _ _ _ Hr). unfold content, holds_content, content_file in *. destruct (index (store e) !! c) as [st|]; [|done]. rewrite Hh in Er. cbn in Er. rewrite Er, Hf.
  unfold Cid_verifies. by rewrite bool_decide_true.
Qed.

(** ** Segments *)

Lemma good_keeps e e' : keeps e e' -> good (store e) -> good (store e') /\ forall c, holds_content (store e) c = true -> holds_content (store e') c = true.
Proof. intros K. by apply keeps_grows. Qed.

(** The segments [segs] hold the bytes [xs]. *)
Definition segments_hold (s : Store) (segs : list Segment) (xs : list bytes) : Prop :=
  Forall2 (fun sg x => seg_cid sg = Cid_of x /\ holds_content s (seg_cid sg) = true) segs xs.

Lemma segments_hold_mono s s' segs xs :
  (forall c, holds_content s c = true -> holds_content s' c = true) -> segments_hold s segs xs -> segments_hold s' segs xs.
Proof. intros Hm. apply Forall2_impl. intros sg x [E Hc]. auto. Qed.

Lemma publish_segments_ok (f : bytes -> bytes) l : forall e segs e',
  publish_segments f Pin l e = Some (Ok segs, e') -> good (store e) ->
  good (store e') /\ segments_hold (store e') (map fst segs) (map f l) /\ map (fun sg => seg_len sg) (map fst segs) = map (fun x => Z.of_nat (length x)) l /\
  forall c, holds_content (store e) c = true -> holds_content (store e') c = true.
Proof.
  unfold publish_segments. induction l as [|x l IH]; intros e segs e' Hr Hg; cbn [try_each] in Hr.
  { apply ret_inv in Hr as [[= ->] ->]. split_and!; [done|constructor|done|done]. }
  apply try_inv in Hr as [(y & e1 & H1 & Hr)|(? & _ & ?)]; [|done]. apply try_inv in H1 as [(rep & e0 & H0 & H1)|(? & _ & ?)]; [|done].
  apply ret_inv in H1 as [[= ->] ->]. destruct (publish_impl_ok _ _ _ _ _ _ H0 Hg) as (Ec & Hg0 & Hh0 & Hm0).
  apply try_inv in Hr as [(ys & e2 & H2 & Hr)|(? & _ & ?)]; [|done]. apply ret_inv in Hr as [[= ->] ->].
  destruct (IH _ _ _ H2 Hg0) as (Hg2 & Hs2 & Hl2 & Hm2). split_and!; [done| | |by auto].
  - cbn. constructor; [|done]. cbn. rewrite Ec. auto.
  - cbn. by rewrite Hl2.
Qed.

Context (blake3_inj : forall x y, blake3 x = blake3 y -> x = y).

(** A reader that returns the bytes of each segment. *)
Definition reads (read : Segment -> Eng (result bytes EngErr)) (segs : list Segment) (xs : list bytes) (P : Engine -> Prop) : Prop :=
  Forall2 (fun sg x => forall e, P e -> exists e', read sg e = Some (Ok x, e') /\ P e') segs xs.

(** An engine whose store holds the segments. *)
Definition has (segs : list Segment) (xs : list bytes) (e : Engine) : Prop := good (store e) /\ segments_hold (store e) segs xs.

Lemma get_reads mode segs0 xs0 : forall segs xs, (forall s, segments_hold s segs0 xs0 -> segments_hold s segs xs) -> forall e, has segs0 xs0 e -> reads (fun s => get (seg_cid s) mode) segs xs (has segs0 xs0).
Proof.
  intros segs xs Hsub e [Hg Hs]. assert (Hall : forall e, has segs0 xs0 e -> segments_hold (store e) segs xs) by (intros e1 [_ Hs1]; by apply Hsub).
  pose proof (Hall e (conj Hg Hs)) as Hse. clear Hsub. apply Forall2_same_length_lookup_2.
  { by eapply Forall2_length. }
  intros i sg x Hsg Hx e1 He1. pose proof (Hall e1 He1) as Hs1. destruct (Forall2_lookup_lr _ _ _ _ _ _ Hs1 Hsg Hx) as [Ec Hh]. destruct He1 as [Hg1 Hs01].
  destruct (get_held (seg_cid sg) mode e1 Hg1 Hh) as (y & e2 & E2 & Ey & K2). assert (y = x) as -> by (apply blake3_inj; unfold Cid_of in *; congruence).
  exists e2. split; [done|]. destruct (good_keeps _ _ K2 Hg1) as [Hg2 Hm2]. split; [done|]. by eapply segments_hold_mono.
Qed.

Lemma try_each_reads read segs xs P e : reads read segs xs P -> P e -> exists e', try_each read segs e = Some (Ok xs, e') /\ P e'.
Proof.
  intros Hr. revert e. induction Hr as [|sg x segs xs Hx _ IH]; intros e He; cbn [try_each]; [by exists e|].
  destruct (Hx e He) as (e1 & E1 & P1). destruct (IH e1 P1) as (e2 & E2 & P2). exists e2. by rewrite (try_run _ _ _ _ _ E1), (try_run _ _ _ _ _ E2).
Qed.

(** ** Ranges *)

(** The bytes of [xs] from [offset] to [finish], when the first of them stands
    at [start]. *)
Lemma range_loop_reads read segs xs P :
  reads read segs xs P -> map seg_len segs = map (fun x => Z.of_nat (length x)) xs ->
  forall start offset finish out e, 0 <= start -> 0 <= offset <= finish -> start + Z.of_nat (length (concat xs)) <= U64_MAX -> P e ->
  exists e', range_loop read segs start offset finish out e =
    Some (Ok (out ++ drop (Z.to_nat (offset - start)) (take (Z.to_nat (finish - start)) (concat xs))), e') /\ P e'.
Proof.
  intros Hr. induction Hr as [|sg x segs xs Hx _ IH]; intros Hl start offset finish out e Hs Ho Hmax He; cbn [range_loop concat] in *.
  { exists e. rewrite take_nil, drop_nil, app_nil_r. done. }
  cbn [map] in Hl. injection Hl as Hlen Hl. rewrite length_app in Hmax. unfold checked_add. rewrite Hlen.
  destruct (Z.leb_spec (start + Z.of_nat (length x)) U64_MAX) as [_|Hbad]; [|lia]. set (stop := start + Z.of_nat (length x)).
  assert (Hread : exists e1, (if (start <? finish) && (offset <? stop) then
      b <-? read sg; let lo := Nat.min (Z.to_nat (sat_sub offset start)) (length b) in let hi := Nat.min (Z.to_nat (finish - start)) (length b) in
      mret (Ok (out ++ drop lo (take hi b))) else mret (Ok out)) e = Some (Ok (out ++ drop (Z.to_nat (offset - start)) (take (Z.to_nat (finish - start)) x)), e1) /\ P e1).
  { destruct (Z.ltb_spec start finish), (Z.ltb_spec offset stop); cbn [andb].
    - destruct (Hx e He) as (e1 & E1 & P1). exists e1. rewrite (try_run _ _ _ _ _ E1). split; [|done]. cbv zeta. unfold mret, eng_ret. do 3 f_equal.
      unfold sat_sub. replace (Z.to_nat (Z.max (offset - start) 0)) with (Z.to_nat (offset - start)) by lia.
      assert (Et : take (Z.to_nat (finish - start) `min` length x) x = take (Z.to_nat (finish - start)) x).
      { destruct (decide (Z.to_nat (finish - start) <= length x)%nat); [by rewrite Nat.min_l by lia|]. rewrite Nat.min_r by lia. by rewrite !take_ge by lia. }
      rewrite Et. f_equal. assert (Z.to_nat (offset - start) <= length x)%nat by (unfold stop in *; lia). by rewrite Nat.min_l by lia.
    - exists e. split; [|done]. rewrite drop_ge, app_nil_r; [done|]. rewrite length_take. unfold stop in *. lia.
    - exists e. split; [|done]. replace (Z.to_nat (finish - start)) with 0%nat by lia. by rewrite take_0, drop_nil, app_nil_r.
    - exists e. split; [|done]. replace (Z.to_nat (finish - start)) with 0%nat by lia. by rewrite take_0, drop_nil, app_nil_r. }
  destruct Hread as (e1 & E1 & P1). rewrite (try_run _ _ _ _ _ E1). destruct (Z.leb_spec finish stop) as [Hle|Hgt].
  - exists e1. split; [|done]. unfold mret, eng_ret. do 4 f_equal. rewrite take_app_le; [done|]. unfold stop in *. lia.
  - destruct (IH Hl stop offset finish (out ++ drop (Z.to_nat (offset - start)) (take (Z.to_nat (finish - start)) x)) e1) as (e2 & E2 & P2); [unfold stop; lia|done|unfold stop; lia|done|].
    exists e2. split; [|done]. rewrite E2. do 3 f_equal. rewrite <- app_assoc. f_equal.
    assert (Ha : Z.to_nat (finish - start) = (length x + Z.to_nat (finish - stop))%nat) by (unfold stop; lia). rewrite Ha, take_app_add, take_ge by lia.
    destruct (decide (offset <= stop)) as [Hos|Hos].
    + rewrite drop_app_le by (unfold stop in *; lia). f_equal. by replace (Z.to_nat (offset - stop)) with 0%nat by lia.
    + rewrite (drop_ge x) by (unfold stop in *; lia). rewrite drop_app_ge by (unfold stop in *; lia). cbn [app]. f_equal. unfold stop. lia.
Qed.

Lemma segment_chunks_concat b : concat (segment_chunks b) = b.
Proof. apply chunks_concat; [|done]. lia. Qed.

(** Reading a range of what a list of segments holds. *)
Lemma range_of_segments read segs b P e offset len :
  reads read segs (segment_chunks b) P -> map seg_len segs = map (fun x => Z.of_nat (length x)) (segment_chunks b) -> P e ->
  Z.of_nat (length b) <= U64_MAX -> is_u64 offset -> is_u64 len ->
  exists e', range_loop read segs 0 offset (sat_add offset len) [] e = Some (Ok (drop (Z.to_nat offset) (take (Z.to_nat (offset + len)) b)), e').
Proof.
  intros Hr Hl He Hmax Ho Hlen. unfold is_u64 in *.
  destruct (range_loop_reads read segs (segment_chunks b) P Hr Hl 0 offset (sat_add offset len) [] e) as (e' & E & _); [lia|unfold sat_add; lia|by rewrite segment_chunks_concat|done|].
  exists e'. rewrite E, segment_chunks_concat, !Z.sub_0_r. cbn [app]. do 4 f_equal. unfold sat_add. destruct (decide (offset + len <= U64_MAX)); [by rewrite Z.min_l|].
  rewrite Z.min_r by lia. by rewrite !take_ge by lia.
Qed.

(** An object we hold is fetched as published. *)
Lemma get_published b mode e P :
  (forall e1 e2, keeps e1 e2 -> P e1 -> P e2) -> good (store e) -> holds_content (store e) (Cid_of b) = true -> P e ->
  exists e', get (Cid_of b) mode e = Some (Ok b, e') /\ P e'.
Proof.
  intros HP Hg Hh He. destruct (get_held _ mode e Hg Hh) as (x & e' & E & Ex & K). apply blake3_inj in Ex as ->. exists e'. split; [done|by eapply HP].
Qed.

Lemma has_keeps segs xs e1 e2 : keeps e1 e2 -> has segs xs e1 -> has segs xs e2.
Proof. intros K [Hg Hs]. destruct (good_keeps _ _ K Hg) as [Hg2 Hm]. split; [done|]. by eapply segments_hold_mono. Qed.

(** What a file publish leaves behind: the segments, and the manifest. *)
Lemma publish_file_ok name mime b e fp e' :
  publish_file name mime b Pin e = Some (Ok fp, e') -> good (store e) ->
  exists segs, has segs (segment_chunks b) e' /\ map seg_len segs = map (fun x => Z.of_nat (length x)) (segment_chunks b) /\
    manifest_cid fp = Cid_of (manifest_encode (File name (Z.of_nat (length b)) mime segs)) /\ holds_content (store e') (manifest_cid fp) = true.
Proof.
  intros Hr Hg. unfold publish_file in Hr. apply try_inv in Hr as [(segs & e1 & H1 & Hr)|(? & _ & ?)]; [|done].
  destruct (publish_segments_ok _ _ _ _ _ H1 Hg) as (Hg1 & Hs1 & Hl1 & _). rewrite map_id in Hs1.
  apply try_inv in Hr as [(mr & e2 & H2 & Hr)|(? & _ & ?)]; [|done]. destruct (publish_impl_ok _ _ _ _ _ _ H2 Hg1) as (Ec & Hg2 & Hh2 & Hm2).
  apply bind_inv in Hr as (now & e3 & H3%keeps_now_millis & Hr). apply bind_inv in Hr as (ok & e4 & H4%keeps_routing & Hr). apply ret_inv in Hr as [[= ->] ->].
  assert (K : keeps e2 e4) by (etransitivity; eassumption). destruct (good_keeps _ _ K Hg2) as [Hg4 Hm4].
  exists (map fst segs). cbn [manifest_cid]. rewrite Ec. split_and!; [|done|done|by apply Hm4]. split; [done|]. eapply segments_hold_mono; [exact Hm4|]. by eapply segments_hold_mono.
Qed.

(** C16: A published file reads back.  Let the content a store holds match its
    ids, and let it hold every object it has marked as distributed (a mark can
    outlive its content, and publishing such an object again keeps no copy of
    it: [ObjRuns.republished_content_is_not_kept]), or else let the file be
    published with a pin that the pin gate grants, which always keeps one.
    With no two inputs hashing alike, when publishing a file succeeds,
    whatever the segment size: fetching the returned manifest
    gives the name, the type and exactly the bytes; following the manifest
    gives the bytes; and a range read gives exactly that part of them, past
    the end included, from the segments that cover it. *)
Theorem file_round_trip `{!PostcardLaws Manifest} (name mime : string) (b : bytes) (e : Engine) (fp : FilePublish) (e' : Engine) :
  content_ok (store e) -> (forall c, is_distributed (store e) c = true -> holds_content (store e) c = true) \/ Pin = true /\ pins_granted ->
  Z.of_nat (length b) <= U64_MAX -> publish_file name mime b Pin e = Some (Ok fp, e') ->
  (exists e1, fetch_file (manifest_cid fp) e' = Some (Ok (name, mime, b), e1)) /\
  (forall mode, exists e1, get_following_manifest (manifest_cid fp) mode e' = Some (Ok b, e1)) /\
  (forall offset len, is_u64 offset -> is_u64 len ->
    exists e1, fetch_file_range (manifest_cid fp) offset len e' = Some (Ok (drop (Z.to_nat offset) (take (Z.to_nat (offset + len)) b)), e1)).
Proof.
  intros Hok Hmk Hmax Hr. assert (Hg : good (store e)) by (by split). destruct (publish_file_ok _ _ _ _ _ _ Hr Hg) as (segs & Hhas & Hl & Ec & Hh). rewrite Ec in *. set (m := File name _ mime segs) in *.
  assert (Hman : forall mode, exists e1, get (Cid_of (manifest_encode m)) mode e' = Some (Ok (manifest_encode m), e1) /\ has segs (segment_chunks b) e1).
  { intros mode. apply get_published; [intros e1 e2; apply has_keeps|apply Hhas|done|done]. }
  assert (Hread : forall mode, reads (fun s => get (seg_cid s) mode) segs (segment_chunks b) (has segs (segment_chunks b))) by (intros mode; by eapply get_reads).
  split_and!.
  - destruct (Hman Drop) as (e1 & E1 & P1). destruct (try_each_reads _ _ _ _ e1 (Hread Seed) P1) as (e2 & E2 & _). exists e2.
    unfold fetch_file. rewrite (try_run (fetch_manifest _) _ e' m e1); [|unfold fetch_manifest; by rewrite (try_run _ _ _ _ _ E1), manifest_decode_encode].
    unfold m. rewrite (try_run (get_all Seed segs) _ _ _ _ E2). by rewrite segment_chunks_concat.
  - intros mode. destruct (Hman mode) as (e1 & E1 & P1). destruct (try_each_reads _ _ _ _ e1 (Hread mode) P1) as (e2 & E2 & _). exists e2.
    unfold get_following_manifest. rewrite (try_run _ _ _ _ _ E1), manifest_decode_encode. unfold m. rewrite (try_run (get_all mode segs) _ _ _ _ E2). by rewrite segment_chunks_concat.
  - intros offset len Ho Hlen. destruct (Hman Drop) as (e1 & E1 & P1).
    destruct (range_of_segments _ _ b _ e1 offset len (Hread Seed) Hl P1 Hmax Ho Hlen) as (e2 & E2). exists e2.
    unfold fetch_file_range. rewrite (try_run (fetch_manifest _) _ e' m e1); [|unfold fetch_manifest; by rewrite (try_run _ _ _ _ _ E1), manifest_decode_encode]. exact E2.
Qed.

(** ** Private files *)

Context {AL : AeadLaws} {KL : KeyedXofLaws} {UL : UmbralLaws} {EL : PostcardLaws EncryptedEnvelope} {ML : PostcardLaws PlainMeta}.

Lemma sealed_reads dek segs xs P :
  reads (fun s => get (seg_cid s) Seed) segs (map (seal_det dek) xs) P -> reads (read_sealed dek) segs xs P.
Proof.
  intros Hr. apply Forall2_fmap_r in Hr. eapply Forall2_impl; [|exact Hr]. intros sg x Hx e He. destruct (Hx e He) as (e1 & E1 & P1). exists e1.
  unfold read_sealed. rewrite (try_run _ _ _ _ _ E1). pose proof (proj2 (open_seal_any (replicate XNONCE_LEN 0) dek x eq_refl)) as Eo. by rewrite Eo.
Qed.

(** C32: A private file reads back for its owner.  Let the content a store
    holds match its ids, and let it hold every object it has marked as
    distributed, or else let the file be published with a pin that the pin
    gate grants. With the node's key, when publishing a private file succeeds: opening the returned envelope gives
    the name, the type and exactly the bytes, each segment decrypted on its
    own, and a range read gives exactly that part of them. *)
Theorem private_file_round_trip (name mime : string) (b : bytes) (e : Engine) (pv : PrivatePublish) (e' : Engine) :
  content_ok (store e) -> (forall c, is_distributed (store e) c = true -> holds_content (store e) c = true) \/ Pin = true /\ pins_granted ->
  Z.of_nat (length b) <= U64_MAX -> publish_private name mime b Pin e = Some (Ok pv, e') ->
  (exists e1, get_private (envelope_cid pv) e' = Some (Ok (name, mime, b), e1)) /\
  (forall offset len, is_u64 offset -> is_u64 len ->
    exists e1, get_private_range (envelope_cid pv) offset len e' = Some (Ok (drop (Z.to_nat offset) (take (Z.to_nat (offset + len)) b)), e1)).
Proof.
  intros Hok Hmk Hmax Hr. assert (Hg : good (store e)) by (by split). unfold publish_private in Hr. destruct enc_key as [sk|] eqn:Ek; [|by apply ret_inv in Hr as [? _]].
  apply bind_inv in Hr as (dek & e1 & H1 & Hr). assert (Hd : length dek = DEK_LEN).
  { unfold draw, fill_bytes in H1. destruct (DEK_LEN <=? length (rng e))%nat eqn:El; [|done]. injection H1 as <- _. apply Nat.leb_le in El. rewrite length_take. lia. }
  apply keeps_draw in H1. apply bind_inv in Hr as (r & e2 & H2%keeps_draw & Hr). destruct (good_keeps e e2) as [Hg2 _]; [etransitivity; eassumption|done|].
  apply try_inv in Hr as [(segs & e3 & H3 & Hr)|(? & _ & ?)]; [|done]. destruct (publish_segments_ok _ _ _ _ _ H3 Hg2) as (Hg3 & Hs3 & Hl3 & _).
  apply try_inv in Hr as [(er & e4 & H4 & Hr)|(? & _ & ?)]; [|done]. destruct (publish_impl_ok _ _ _ _ _ _ H4 Hg3) as (Ec & Hg4 & Hh4 & Hm4). apply ret_inv in Hr as [[= ->] ->].
  cbn [envelope_cid]. rewrite Ec. set (env := mk_envelope _ _ _ _ _ _) in *. set (sealed := map (seal_det dek) (segment_chunks b)) in *.
  assert (Hhas : has (map fst segs) sealed e4) by (split; [done|by eapply segments_hold_mono]).
  assert (Hopen : exists e5, open_private_envelope (Cid_of (envelope_encode env)) e4 = Some (Ok (dek, env, mk_meta name mime), e5) /\ has (map fst segs) sealed e5).
  { destruct (get_published (envelope_encode env) Drop e4 (has (map fst segs) sealed)) as (e5 & E5 & P5); [intros ? ?; apply has_keeps|done|done|done|].
    exists e5. split; [|done]. unfold open_private_envelope. rewrite Ek, (try_run _ _ _ _ _ E5), envelope_decode_encode. unfold env. cbn [env_capsule env_meta].
    rewrite open_capsule_encapsulate by done. rewrite (try_run (mret (of_cipher (Ok dek))) _ e5 dek e5) by done.
    rewrite (proj2 (open_seal_any (replicate XNONCE_LEN 0) dek _ eq_refl)). rewrite (try_run (mret (of_cipher (Ok _))) _ e5 (meta_encode (mk_meta name mime)) e5) by done.
    unfold meta_decode, meta_encode. by rewrite postcard_roundtrip. }
  destruct Hopen as (e5 & E5 & P5).
  assert (Hread : reads (read_sealed dek) (map fst segs) (segment_chunks b) (has (map fst segs) sealed)) by (apply sealed_reads; eapply get_reads; [done|exact Hhas]).
  split.
  - destruct (try_each_reads _ _ _ _ e5 Hread P5) as (e6 & E6 & _). exists e6. unfold get_private. rewrite (try_run _ _ _ _ _ E5). cbn [env_segments env].
    rewrite (try_run _ _ _ _ _ E6). by rewrite segment_chunks_concat.
  - intros offset len Ho Hlen. destruct (range_of_segments _ _ b _ e5 offset len Hread Hl3 P5 Hmax Ho Hlen) as (e6 & E6). exists e6.
    unfold get_private_range. by rewrite (try_run _ _ _ _ _ E5).
Qed.
End files.
