(* ===== verification/ObjServe.v ===== *)
(** The object engine's other side ([crates/obj/src/lib.rs]): answering pieces
    and pushes, announcing, and the maintenance of redundancy: health scan,
    repair, shedding, rebalancing, scaling and the spread after a publish.

    Pushes that the code runs together are run one after the other.  In
    [repair_one] several tasks draw from one shared cursor: an attempt is
    made for each candidate in order until as many tasks have ended as were
    started, which is what any interleaving of them does. *)

From S2P Require Import Prelude Crypto Pager Cipher ObjManifest Wire Gf Linear Erasure ErasureDecode VTags Token PieceStore ObjCore.

Open Scope Z_scope.
Open Scope zeph_scope.

Definition INGEST_ANNOUNCE_DEBOUNCE_MS : Z := 2000.
Definition ALIVE_CACHE : Z := 10000.
Definition PACE_CHUNK : nat := 5.
Definition HEALTH_EPOCH_MS : Z := 30000.
Definition REPAIR_BATCH : nat := 8.
Definition MAX_GRANT_PER_OFFER : Z := 4.
Definition GRANT_RETRY_MS : Z := 2000.
Definition REDIRECT_MARGIN : nat := 8.
Definition MOVE_BATCH : nat := 2.

Record HealthReport := mk_hreport { scanned : nat; at_risk : nat; repaired : nat; moved : nat; degraded : nat; fading : nat; offloaded : nat; surplus : nat }.
Record DistributeReport := mk_dreport { d_scanned : nat; d_moved : nat }.
Record ScaleReport := mk_sreport { hot : nat; scaled : nat }.

(** Updates of the engine's own fields. *)
Definition set_demand (d : gmap key Z) : Eng () := fun e => Some (tt, mk_engine (store e) (rng e) (time e) d (last_served e) (pending e) (announced_at e) (at_risk_ids e) (fading_ids e) (surplus_ids e) (alive_cache e) (node_liveness e) (health e) (scan_snapshot e) (sent e)).
Definition set_served (l : gmap key Z) : Eng () := fun e => Some (tt, mk_engine (store e) (rng e) (time e) (demand e) l (pending e) (announced_at e) (at_risk_ids e) (fading_ids e) (surplus_ids e) (alive_cache e) (node_liveness e) (health e) (scan_snapshot e) (sent e)).
Definition set_pending (p : list (key * Z * Z)) : Eng () := fun e => Some (tt, mk_engine (store e) (rng e) (time e) (demand e) (last_served e) p (announced_at e) (at_risk_ids e) (fading_ids e) (surplus_ids e) (alive_cache e) (node_liveness e) (health e) (scan_snapshot e) (sent e)).
Definition set_announced (a : gmap key Z) : Eng () := fun e => Some (tt, mk_engine (store e) (rng e) (time e) (demand e) (last_served e) (pending e) a (at_risk_ids e) (fading_ids e) (surplus_ids e) (alive_cache e) (node_liveness e) (health e) (scan_snapshot e) (sent e)).
Definition set_verdicts (r f s : gset key) : Eng () := fun e => Some (tt, mk_engine (store e) (rng e) (time e) (demand e) (last_served e) (pending e) (announced_at e) r f s (alive_cache e) (node_liveness e) (health e) (scan_snapshot e) (sent e)).
Definition set_alive (a : option (Z * gset key)) : Eng () := fun e => Some (tt, mk_engine (store e) (rng e) (time e) (demand e) (last_served e) (pending e) (announced_at e) (at_risk_ids e) (fading_ids e) (surplus_ids e) a (node_liveness e) (health e) (scan_snapshot e) (sent e)).
Definition set_liveness (m : gmap key (Z * bool)) : Eng () := fun e => Some (tt, mk_engine (store e) (rng e) (time e) (demand e) (last_served e) (pending e) (announced_at e) (at_risk_ids e) (fading_ids e) (surplus_ids e) (alive_cache e) m (health e) (scan_snapshot e) (sent e)).
Definition set_health (h : gmap key CidHealth) : Eng () := fun e => Some (tt, mk_engine (store e) (rng e) (time e) (demand e) (last_served e) (pending e) (announced_at e) (at_risk_ids e) (fading_ids e) (surplus_ids e) (alive_cache e) (node_liveness e) h (scan_snapshot e) (sent e)).
Definition set_snapshot (m : gmap key (Z * list key)) : Eng () := fun e => Some (tt, mk_engine (store e) (rng e) (time e) (demand e) (last_served e) (pending e) (announced_at e) (at_risk_ids e) (fading_ids e) (surplus_ids e) (alive_cache e) (node_liveness e) (health e) m (sent e)).

(** [max_by_key]: the last of the greatest; [min_by_key]: the first of the
    least. *)
Fixpoint max_by {A B} `{Ord B} (f : A -> B) (l : list A) : option A :=
  match l with
  | [] => None
  | x :: l' => match max_by f l' with
               | None => Some x
               | Some y => if bool_decide (cmp (f x) (f y) = Gt) then Some x else Some y
               end
  end.
Fixpoint min_by {A B} `{Ord B} (f : A -> B) (l : list A) : option A :=
  match l with
  | [] => None
  | x :: l' => match min_by f l' with
               | None => Some x
               | Some y => if bool_decide (cmp (f y) (f x) = Lt) then Some y else Some x
               end
  end.

Section serve.
Context {B3 : Blake3} {XF : Xof} {UM : Umbral} {Net : ObjNet}.
Context {PG : Postcard Generation} {PV : Postcard VTags}.

Definition count_u32 (s : Store) (c : key) : Z := as_u32 (Z.of_nat (piece_count s c)).

(** ** Announcing *)

Definition due (sched : gmap key Z) (now window : Z) (c : key) : bool :=
  match sched !! c with Some t => window <=? sat_sub now t | None => true end.

Definition due_records (e : Engine) (now : Z) : list (key * Z * bool) :=
  omap (fun c =>
    if negb (due (announced_at e) now REPUBLISH_MS c) then None
    else
      let s := store e in
      if (0 <? count_u32 s c) || holds_content s c then Some (c, count_u32 s c, is_pinned s c) else None)
  (elements (cids (store e))).

Definition due_announcements : Eng (list (key * Z * bool)) := now ← now_millis; gets (fun e => due_records e now).

(** One batch: every record that was taken is scheduled from [now]. *)
Definition announce_all (batch : list (key * Z * bool)) (now : Z) : Eng nat :=
  oks ← for_each (fun '(c, n, p) => ok ← routing (Announced c n p); mret (c, ok)) batch;
  let done := map fst (filter (fun x : key * bool => x.2 = true) oks) in
  sched ← gets announced_at;
  _ ← set_announced (foldl (fun m c => <[c := now]> m) sched done);
  mret (length done).

Definition announce_batch (batch : list (key * Z * bool)) : Eng nat := now ← now_millis; announce_all batch now.

Definition reannounce_wants : Eng () :=
  ws ← gets (fun e => elements (wanted (store e)));
  _ ← for_each (fun c => routing (WantAnnounced c)) ws; mret tt.

Fixpoint groups {A} (fuel n : nat) (l : list A) : list (list A) :=
  match fuel with
  | O => []
  | S fuel' => match l with [] => [] | _ => take n l :: groups fuel' n (drop n l) end
  end.

Definition reannounce_providers : Eng nat :=
  now ← now_millis;
  records ← gets (fun e => due_records e now);
  ns ← for_each (fun batch => announce_all batch now) (groups (length records) PACE_CHUNK records);
  _ ← reannounce_wants;
  mret (sum_list ns).

(** ** Pushes *)

Definition offer (peer : PeerAddr) (class : Z) (c : key) (items n : Z) : Eng Z :=
  r ← request peer (M_Offer (mk_Offer class c items n));
  mret (match r with Some (M_Grant g) => Z.min (grant_accept g) items | _ => 0 end).

Definition push_msg (c : key) (g : Generation) (p : CodedPiece) (system : bool) (class : Z) : Message :=
  M_PiecePush (mk_PiecePush c (g_k g) (g_piece_len g) (g_total_len g) (g_vtags g) (mk_WirePiece (coding_vector p) (data p)) system class).

Definition push_piece (peer : PeerAddr) (c : key) (g : Generation) (p : CodedPiece) (class : Z) (choke : bool) : Eng (result () EngErr) :=
  system ← gets (fun e => is_system (store e) c);
  admitted ← (if choke && (0 <? active_set_k cfg)%nat then n ← tick; mret (slot_at n (addr_id peer)) else mret true);
  if negb admitted then fail Choked
  else
    r ← request peer (push_msg c g p system class);
    mret (match r with
          | None => Err RequestFailed
          | Some (M_PiecePushAck a) => if ppa_ok a then Ok tt else Err (PushRejected (ppa_reason a))
          | Some _ => Err UnexpectedReply
          end).

Definition is_ok {A} (r : result A EngErr) : bool := match r with Ok _ => true | Err _ => false end.

(** ** Answering *)

Definition grant (o : Offer) : Eng Grant :=
  let c := offer_cid o in
  tomb ← gets (fun e => is_tombstoned (store e) c);
  if tomb : bool then mret (mk_Grant 0 0)
  else
    now ← secs;
    cooling ← gets (fun e => is_in_cooldown (store e) c (eviction_cooldown cfg) now);
    if cooling : bool then mret (mk_Grant 0 GRANT_RETRY_MS)
    else
      accept ← (match grant_gate with
                | Some f => n ← tick; mret (Z.min (f n (offer_class o) (offer_items o)) (offer_items o))
                | None => mret (offer_items o)
                end);
      mret (mk_Grant accept (if accept <? offer_items o then GRANT_RETRY_MS else 0)).

Definition reject (reason : string) : Eng PiecePushAck := mret (mk_PiecePushAck false reason).

(** The announcement after an ingest: at once for a first piece, else not
    more often than the debounce. *)
Definition ingest_announce (c : key) (was_empty : bool) : Eng () :=
  now ← now_millis;
  sched ← gets announced_at;
  if was_empty || due sched now INGEST_ANNOUNCE_DEBOUNCE_MS c then
    '(n, p) ← gets (fun e => (count_u32 (store e) c, is_pinned (store e) c));
    _ ← set_announced (<[c := now]> sched);
    send (Announced c n p)
  else mret tt.

Definition ingest (push : PiecePush) : Eng PiecePushAck :=
  shed ← (match shed_gate with Some f => n ← tick; mret (f n) | None => mret false end);
  if shed : bool then reject "busy — memory pressure"
  else
    refused ← (match grant_gate with Some f => n ← tick; mret (f n (pp_class push) 1 =? 0) | None => mret false end);
    if refused : bool then reject "busy — pressure (class-gated)"
    else
      let c := pp_cid push in
      tomb ← gets (fun e => is_tombstoned (store e) c);
      if tomb : bool then reject "tombstoned"
      else
        now ← secs;
        cooling ← gets (fun e => is_in_cooldown (store e) c (eviction_cooldown cfg) now);
        if cooling : bool then reject "in-cooldown"
        else
          match from_bytes (pp_vtags push) with
          | None => reject "vtags-malformed"
          | Some t =>
              let p := coded (pp_piece push) in
              if negb (verify t p) then reject "vtag-invalid"
              else
                let g := mk_gen (pp_k push) (pp_piece_len push) (pp_total_len push) (pp_vtags push) in
                was_empty ← gets (fun e => (piece_count (store e) c =? 0)%nat);
                t1 ← nanos;
                r1 ← with_store (fun s => put_generation s c g t1);
                t2 ← nanos;
                r2 ← (match r1 with Ok _ => with_store (fun s => put_piece s c p t2) | Err x => mret (Err x) end);
                match r2 with
                | Err _ => reject "store-error"
                | Ok _ =>
                    _ ← when (pp_system push) (modify_store (fun s => mark_system s c));
                    _ ← ingest_announce c was_empty;
                    mret (mk_PiecePushAck true "")
                end
          end.

Definition serve_allowed (requester : key) (n : Z) : Eng bool :=
  match serve_gate with Some f => t ← tick; mret (f t requester n) | None => mret true end.

(** Counting a pull: past the threshold a wired trigger fires and the count
    starts again; the count is a u32. *)
Definition count_pull (c : key) : Eng () :=
  d ← gets demand;
  let n := default 0 (d !! c) + 1 in
  if U32_MAX <? n then panic
  else if scale_wired && (scale_threshold cfg <=? n) then _ ← set_demand (<[c := 0]> d); send (ScaleTriggered c)
  else set_demand (<[c := n]> d).

Definition refusal : Message := M_PieceResponse (mk_PieceResponse false 0 0 0 [] []).

Definition answer_request (requester : key) (req : PieceRequest) : Eng Message :=
  let c := preq_cid req in
  g ← gets (fun e => generation (store e) c);
  r ← s_serve c (list_to_set (preq_exclude req)) (Z.to_nat (preq_max_pieces req));
  let ps := match r with Ok ps => ps | Err _ => [] end in
  allowed ← (if bool_decide (ps = []) then mret true else serve_allowed requester (sum_Z (map (fun p => Z.of_nat (length (data p))) ps)));
  if negb allowed then mret refusal
  else
    _ ← when (negb (bool_decide (ps = []))) (_ ← count_pull c; now ← instant; l ← gets last_served; set_served (<[c := now]> l));
    let '(k, len, total, tags) := match g with Some g => (g_k g, g_piece_len g, g_total_len g, g_vtags g) | None => (0, 0, 0, []) end in
    mret (M_PieceResponse (mk_PieceResponse (negb (bool_decide (ps = []))) k len total tags (map (fun p => mk_WirePiece (coding_vector p) (data p)) ps))).

Definition availability (s : Store) (c : key) : AvailabilityAck :=
  mk_AvailabilityAck ((0 <? count_u32 s c) || holds_content s c) (count_u32 s c) (is_pinned s c).

Definition handle (requester : key) (msg : Message) : Eng Message :=
  match msg with
  | M_PiecePush push => a ← ingest push; mret (M_PiecePushAck a)
  | M_Offer o => g ← grant o; mret (M_Grant g)
  | M_ReleaseSystem r => _ ← modify_store (fun s => unmark_system s (rs_cid r)); mret (M_PiecePushAck (mk_PiecePushAck true ""))
  | M_PieceRequest req => answer_request requester req
  | M_AvailabilityProbe p => a ← gets (fun e => availability (store e) (ap_cid p)); mret (M_AvailabilityAck a)
  | _ => mret (M_PiecePushAck (mk_PiecePushAck false "unexpected"))
  end.

(** ** Liveness and demand *)

Definition served_pulls (e : Engine) (c : key) : Z := default 0 (demand e !! c).

Definition is_alive (c : key) (provider_pinned : bool) : Eng bool :=
  s ← gets store;
  if is_pinned s c || is_system s c || is_wanted s c || provider_pinned then mret true
  else
    now ← instant;
    l ← gets last_served;
    if match l !! c with Some t => now - t <? fade_grace cfg | None => false end then mret true
    else n ← tick; mret (default false (wanted_at n c)).

Definition refresh_alive (f : nat -> list (key * PeerAddr)) : Eng (option (gset key)) :=
  n ← tick;
  let l : gset key := list_to_set (map fst (f n)) in
  now ← instant;
  _ ← set_alive (Some (now, l));
  mret (Some l).

Definition alive_peers : Eng (option (gset key)) :=
  match liveness with
  | None => mret None
  | Some f =>
      cache ← gets alive_cache;
      match cache with
      | Some (t, l) => now ← instant; if now - t <? ALIVE_CACHE then mret (Some l) else refresh_alive f
      | None => refresh_alive f
      end
  end.

(** With no census every node may be alive. *)
Definition in_census (alive : option (gset key)) (id : key) : bool :=
  match alive with Some l => bool_decide (id ∈ l) | None => true end.

Definition probe_fresh (id : key) (addr : PeerAddr) : Eng bool :=
  n ← tick;
  let alive := connect_at n addr in
  now ← instant;
  m ← gets node_liveness;
  _ ← set_liveness (<[id := (now, alive)]> m);
  mret alive.

Definition probe_alive (id : key) (addr : PeerAddr) : Eng bool :=
  m ← gets node_liveness;
  match m !! id with
  | Some (t, alive) => now ← instant; if now - t <? ALIVE_CACHE then mret alive else probe_fresh id addr
  | None => probe_fresh id addr
  end.

Definition probe_availability (c : key) (holder : PeerAddr) : Eng (option AvailabilityAck) :=
  r ← request holder (M_AvailabilityProbe (mk_AvailabilityProbe c));
  mret (match r with Some (M_AvailabilityAck a) => Some a | _ => None end).

(** ** Election *)

Definition rendezvous_score (c : key) (epoch : Z) (id : key) : key := Cid_of (id ++ c ++ le_bytes 8 epoch).

(** [clock().now().0 / HEALTH_EPOCH_MS]. *)
Definition epoch_of (ts : Z) : Z := ts / HEALTH_EPOCH_MS.

Definition elected (c : key) (epoch : Z) (l : list key) : bool := bool_decide (max_by (rendezvous_score c epoch) l = Some me).

Definition should_scan (c : key) (max_stale_ms : Z) : Eng bool :=
  held ← gets (fun e => holds_content (store e) c);
  if held : bool then mret true
  else
    snap ← gets (fun e => scan_snapshot e !! c);
    match snap with
    | None => mret true
    | Some (last, capable) =>
        ts ← hlc;
        if max_stale_ms <=? sat_sub (Z.shiftr ts 16) last then mret true
        else
          alive ← alive_peers;
          let cands := filter (fun id => id <> me /\ in_census alive id = true) capable in
          mret (elected c (epoch_of ts) (cands ++ [me]))
    end.

(** ** Minting, shedding, moving *)

Definition shed_one (c : key) : Eng bool :=
  r ← s_serve c ∅ 1;
  match r with
  | Ok (p :: _) => t ← nanos; with_store (fun s => remove_piece s c (piece_id p) t)
  | _ => mret false
  end.

Definition mint_piece (c : key) (g : Generation) : Eng (option CodedPiece) :=
  held ← gets (fun e => holds_content (store e) c);
  if held : bool then
    t ← nanos;
    lift (fun e => '(r, s, tp) ← mint_from_content (store e) c t (rng e); Some (r, set_rng (set_store e s) tp))
  else
    r ← s_serve c ∅ (Z.to_nat (g_k g));
    match r with
    | Ok (p :: ps) => r ← draw (recode (p :: ps)); mret (match r with Ok p => Some p | Err _ => None end)
    | _ => mret None
    end.

(** The peers with what they are believed to hold. *)
Definition believed (belief : gmap key Z) (peers : list (key * PeerAddr)) : list (key * PeerAddr * Z) :=
  map (fun '(id, addr) => (id, addr, default 0 (belief !! id))) peers.

Definition record_count (providers : list (ProviderRecord PeerAddr)) (id : key) : Z :=
  match list_find (fun p => pr_node_id p = id) providers with Some (_, p) => pr_piece_count p | None => 0 end.

Definition first_belief (providers : list (ProviderRecord PeerAddr)) (peers : list (key * PeerAddr)) : gmap key Z :=
  foldl (fun m '(id, _) => <[id := record_count providers id]> m) ∅ peers.

(** Pushing one held piece to a peer and removing it here on its ack. *)
Definition move_piece (c : key) (g : Generation) (addr : PeerAddr) : Eng (option bool) :=
  r ← s_serve c ∅ 1;
  match r with
  | Ok (p :: _) =>
      r ← push_piece addr c g p CLASS_NORMAL true;
      if is_ok r then t ← nanos; _ ← with_store (fun s => remove_piece s c (piece_id p) t); mret (Some true)
      else mret (Some false)
  | _ => mret None
  end.

(** The moves of one pass: each round moves a piece or excludes a peer, so the
    fuel is their number. *)
Fixpoint move_loop (fuel : nat) (c : key) (g : Generation) (peers : list (key * PeerAddr)) (belief : gmap key Z) (unreachable : gset key) (mine moved : nat) : Eng nat :=
  match fuel with
  | O => mret moved
  | S fuel' =>
      if (MOVE_BATCH <=? moved)%nat then mret moved
      else
        match min_by (fun x : key * PeerAddr * Z => x.2) (believed belief (filter (fun x : key * PeerAddr => x.1 <> me /\ x.1 ∉ unreachable) peers)) with
        | None => mret moved
        | Some (id, addr, n) =>
            if (Z.of_nat mine <=? n + 1) || (mine <=? 2)%nat then mret moved
            else
              r ← move_piece c g addr;
              match r with
              | None => mret moved
              | Some true => move_loop fuel' c g peers (<[id := n + 1]> belief) unreachable (pred mine) (S moved)
              | Some false => move_loop fuel' c g peers belief ({[id]} ∪ unreachable) mine moved
              end
        end
  end.

Definition rebalance_cid (c : key) (g : Generation) (providers : list (ProviderRecord PeerAddr)) (peers : list (key * PeerAddr)) : Eng nat :=
  mine ← gets (fun e => piece_count (store e) c);
  if (mine <=? 2)%nat || bool_decide (peers = []) then mret 0%nat
  else
    let others := filter (fun x : key * PeerAddr => x.1 <> me) peers in
    move_loop (S MOVE_BATCH + length peers) c g peers (first_belief providers others) ∅ mine 0.

(** [distribute], test only: moves until balanced; a failed push ends it. *)
Fixpoint spread_loop (fuel : nat) (c : key) (g : Generation) (peers : list (key * PeerAddr)) (belief : gmap key Z) (mine moved : nat) : Eng nat :=
  match fuel with
  | O => mret moved
  | S fuel' =>
      match min_by (fun x : key * PeerAddr * Z => x.2) (believed belief peers) with
      | None => mret moved
      | Some (id, addr, n) =>
          if (Z.of_nat mine <=? n + 1) || (mine <=? 2)%nat then mret moved
          else
            r ← move_piece c g addr;
            match r with
            | Some true => spread_loop fuel' c g peers (<[id := n + 1]> belief) (pred mine) (S moved)
            | _ => mret moved
            end
      end
  end.

Definition any_pinned (providers : list (ProviderRecord PeerAddr)) : bool := existsb pr_pinned providers.

Definition distribute_cid (peers : list (key * PeerAddr)) (rep : DistributeReport) (x : key * list (ProviderRecord PeerAddr)) : Eng DistributeReport :=
  let '(c, providers) := x in
  mine ← gets (fun e => piece_count (store e) c);
  og ← gets (fun e => generation (store e) c);
  if (mine <=? 2)%nat then mret rep
  else
    match og with
    | None => mret rep
    | Some g =>
        alive ← is_alive c (any_pinned providers);
        if negb alive then mret rep
        else
          n ← spread_loop mine c g peers (first_belief providers peers) mine 0;
          mret (mk_dreport (S (d_scanned rep)) (d_moved rep + n))
    end.

Fixpoint fold_eng {A B} (f : B -> A -> Eng B) (l : list A) (b : B) : Eng B :=
  match l with [] => mret b | x :: l' => b ← f b x; fold_eng f l' b end.

Definition distribute : Eng DistributeReport :=
  ps ← peers;
  let others := filter (fun x : key * PeerAddr => x.1 <> me) ps in
  cs ← gets (fun e => filter (fun c => is_tombstoned (store e) c = false /\ (2 < piece_count (store e) c)%nat) (elements (cids (store e))));
  resolved ← for_each (fun c => r ← resolve c; mret (c, r)) cs;
  fold_eng (distribute_cid others) resolved (mk_dreport 0 0).

(** ** Repair *)

Definition Holder : Type := key * PeerAddr * Z * bool.
Definition h_id (h : Holder) : key := h.1.1.1.
Definition h_addr (h : Holder) : PeerAddr := h.1.1.2.
Definition h_count (h : Holder) : Z := h.1.2.
Definition h_pinned (h : Holder) : bool := h.2.

(** Live holders, fewest pieces first, then recruits up to the cap. *)
Definition repair_targets (live : list Holder) (want : nat) : Eng (list PeerAddr) :=
  let targets := map snd (sort_by (le_on fst) (map (fun h => (h_count h, h_addr h)) (filter (fun h => h_id h <> me) live))) in
  let cap := (want + REDIRECT_MARGIN)%nat in
  if (length targets <? cap)%nat then
    ps ← peers;
    let recruits := map snd (filter (fun x : key * PeerAddr => x.1 <> me /\ x.1 ∉ map h_id live) ps) in
    mret (targets ++ take (cap - length targets) recruits)
  else mret targets.

Definition repair_plan (targets : list PeerAddr) (want : nat) : list PeerAddr :=
  let rounds := Nat.max (Z.to_nat (div_ceil (Z.of_nat (want + REDIRECT_MARGIN)) (Z.of_nat (length targets)))) 1 in
  concat (repeat targets rounds).

(** The attempts, in the order of the cursor; [tasks] are still running. *)
Fixpoint repair_attempts (c : key) (g : Generation) (plan : list PeerAddr) (tasks landed : nat) : Eng nat :=
  match plan, tasks with
  | _, O => mret landed
  | [], _ => mret landed
  | addr :: plan', S tasks' =>
      granted ← offer addr CLASS_CRITICAL c 1 (g_piece_len g);
      if granted =? 0 then repair_attempts c g plan' tasks landed
      else
        op ← mint_piece c g;
        match op with
        | None => repair_attempts c g plan' tasks' landed
        | Some p =>
            r ← push_piece addr c g p CLASS_CRITICAL true;
            if is_ok r then repair_attempts c g plan' tasks' (S landed) else repair_attempts c g plan' tasks landed
        end
  end.

Definition repair_one (c : key) (g : Generation) (live : list Holder) (deficit : Z) : Eng nat :=
  let want := Nat.min (Nat.max (Z.to_nat deficit) 1) REPAIR_BATCH in
  targets ← repair_targets live want;
  if bool_decide (targets = []) then mret 0%nat
  else repair_attempts c g (repair_plan targets want) want 0.

(** What a node may repair with. *)
Definition self_capable (s : Store) (c : key) : bool := (2 <=? piece_count s c)%nat || (holds_content s c && is_pinned s c).
Definition content_restorer (s : Store) (c : key) (k have : Z) (live : list Holder) : bool :=
  holds_content s c && (have <? 2 * k) && negb (existsb (fun h => k <=? h_count h) live).

(** The live provider records, with liveness from the census or a probe. *)
Fixpoint live_records (alive : option (gset key)) (l : list (ProviderRecord PeerAddr)) : Eng (list Holder) :=
  match l with
  | [] => mret []
  | p :: l' =>
      if bool_decide (pr_node_id p = me) then live_records alive l'
      else
        ok ← (match alive with Some a => mret (bool_decide (pr_node_id p ∈ a)) | None => probe_alive (pr_node_id p) (pr_addr p) end);
        rest ← live_records alive l';
        mret (if ok : bool then (pr_node_id p, pr_addr p, pr_piece_count p, pr_pinned p) :: rest else rest)
  end.

Definition repair_cid (c : key) : Eng nat :=
  tomb ← gets (fun e => is_tombstoned (store e) c);
  if tomb : bool then mret 0%nat
  else
    og ← gets (fun e => generation (store e) c);
    match og with
    | None => mret 0%nat
    | Some g =>
        ts ← hlc;
        providers ← resolve c;
        alive ← alive_peers;
        live ← live_records alive providers;
        s ← gets store;
        let have := Z.of_nat (piece_count s c) + sum_Z (map h_count live) in
        let capable := map h_id (filter (fun h => 2 <= h_count h \/ h_pinned h = true) live) in
        match target_pieces (g_k g) with
        | None => panic
        | Some floor =>
            wanted ← (if floor <=? have then mret false else is_alive c (existsb h_pinned live));
            if negb wanted then mret 0%nat
            else
              s ← gets store;
              let sole := negb (self_capable s c) && bool_decide (capable = []) && holds_content s c in
              let restorer := content_restorer s c (g_k g) have live in
              if negb (self_capable s c) && negb sole && negb restorer then mret 0%nat
              else if negb (elected c (epoch_of ts) (capable ++ [me])) && negb restorer then mret 0%nat
              else repair_one c g live (sat_sub floor have)
        end
    end.

(** ** Shedding and reconciling *)

(** The holders that confirm; whoever does not is counted as holding none. *)
Definition confirmed (c : key) (alive : option (gset key)) (providers : list (ProviderRecord PeerAddr)) : Eng (list (key * Z * bool)) :=
  let cands := filter (fun p => pr_node_id p <> me /\ in_census alive (pr_node_id p) = true) providers in
  for_each (fun p =>
    r ← probe_availability c (pr_addr p);
    mret (match r with Some a => if aa_has a then (pr_node_id p, aa_piece_count a, aa_pinned a) else (pr_node_id p, 0, false) | None => (pr_node_id p, 0, false) end)) cands.

Definition verified_have (c : key) : Eng Z :=
  providers ← resolve c;
  alive ← alive_peers;
  v ← confirmed c alive providers;
  s ← gets store;
  mret (Z.of_nat (piece_count s c) + sum_Z (map (fun x => x.1.2) v)).

Definition delta_of (floor : Z) : Z := Z.max (floor / 8) 2.

Definition shed_cid (c : key) : Eng nat :=
  og ← gets (fun e => generation (store e) c);
  s ← gets store;
  match og with
  | None => mret 0%nat
  | Some g =>
      if is_tombstoned s c || is_pinned s c || (piece_count s c <=? 2)%nat then mret 0%nat
      else
        ts ← hlc;
        providers ← resolve c;
        alive ← alive_peers;
        v ← confirmed c alive providers;
        s ← gets store;
        let counted := filter (fun x : key * Z * bool => ~ (x.1.2 = 0 /\ x.2 = false)) v in
        let have := Z.of_nat (piece_count s c) + sum_Z (map (fun x => x.1.2) counted) in
        let shedders := map (fun x => x.1.1) (filter (fun x : key * Z * bool => 2 < x.1.2 /\ x.2 = false) counted) in
        match target_pieces (g_k g) with
        | None => panic
        | Some floor =>
            cold ← gets (fun e => served_pulls e c <? degrade_threshold cfg);
            if negb cold || (have <=? floor + delta_of floor) then mret 0%nat
            else if (piece_count s c <=? 2)%nat then mret 0%nat
            else if negb (elected c (epoch_of ts) (shedders ++ [me])) then mret 0%nat
            else
              ok ← shed_one c;
              if negb ok then mret 0%nat
              else
                n ← gets (fun e => count_u32 (store e) c);
                _ ← routing (Announced c n false);
                mret 1%nat
        end
  end.

Definition reconcile_cid (c : key) : Eng nat :=
  og ← gets (fun e => generation (store e) c);
  tomb ← gets (fun e => is_tombstoned (store e) c);
  match og with
  | None => mret 0%nat
  | Some g =>
      if tomb : bool then mret 0%nat
      else
        match target_pieces (g_k g) with
        | None => panic
        | Some floor =>
            have ← verified_have c;
            pulls ← gets (fun e => served_pulls e c);
            if have <? floor then repair_cid c
            else if (floor + delta_of floor <? have) && (pulls <? degrade_threshold cfg) then _ ← shed_cid c; mret 0%nat
            else mret 0%nat
        end
  end.

Definition request_reconcile (c : key) : Eng () :=
  if work_wired then send (Work (Reconcile c)) else _ ← reconcile_cid c; mret tt.
End serve.
