(* ===== verification/ObjScan.v ===== *)
(** The object engine's health scan ([health_scan_chunk] in
    [crates/obj/src/lib.rs]), the spread of published content
    ([distribute_pending], [distribute_initial]) and scaling under demand.

    The probes of one scan, which the code runs up to a limit at a time and
    collects as they end, are answered in the order of the records: the order
    decides ties of the election only, and distinct nodes do not tie. *)

From S2P Require Import Prelude Crypto Pager Cipher ObjManifest Wire Gf Linear Erasure ErasureDecode VTags Token PieceStore ObjCore ObjServe.

Open Scope Z_scope.
Open Scope zeph_scope.

(** The verdicts of one chunk, with the report so far. *)
Record Tally := mk_tally { t_report : HealthReport; t_risk : gset key; t_fading : gset key; t_surplus : gset key }.

Definition hreport0 : HealthReport := mk_hreport 0 0 0 0 0 0 0 0.

Definition on_report (f : HealthReport -> HealthReport) (t : Tally) : Tally := mk_tally (f (t_report t)) (t_risk t) (t_fading t) (t_surplus t).
Definition add_scanned (r : HealthReport) : HealthReport := mk_hreport (S (scanned r)) (at_risk r) (repaired r) (moved r) (degraded r) (fading r) (offloaded r) (surplus r).
Definition add_risk (r : HealthReport) : HealthReport := mk_hreport (scanned r) (S (at_risk r)) (repaired r) (moved r) (degraded r) (fading r) (offloaded r) (surplus r).
Definition add_repaired (n : nat) (r : HealthReport) : HealthReport := mk_hreport (scanned r) (at_risk r) (repaired r + n) (moved r) (degraded r) (fading r) (offloaded r) (surplus r).
Definition add_moved (n : nat) (r : HealthReport) : HealthReport := mk_hreport (scanned r) (at_risk r) (repaired r) (moved r + n) (degraded r) (fading r) (offloaded r) (surplus r).
Definition add_degraded (r : HealthReport) : HealthReport := mk_hreport (scanned r) (at_risk r) (repaired r) (moved r) (S (degraded r)) (fading r) (offloaded r) (surplus r).
Definition add_fading (r : HealthReport) : HealthReport := mk_hreport (scanned r) (at_risk r) (repaired r) (moved r) (degraded r) (S (fading r)) (offloaded r) (surplus r).
Definition add_offloaded (r : HealthReport) : HealthReport := mk_hreport (scanned r) (at_risk r) (repaired r) (moved r) (degraded r) (fading r) (S (offloaded r)) (surplus r).

Section scan.
Context {B3 : Blake3} {XF : Xof} {UM : Umbral} {Net : ObjNet}.
Context {PG : Postcard Generation} {PV : Postcard VTags}.

Definition is_at_risk (e : Engine) (c : key) : bool := bool_decide (c ∈ at_risk_ids e).
Definition is_fading (e : Engine) (c : key) : bool := bool_decide (c ∈ fading_ids e).
Definition is_surplus (e : Engine) (c : key) : bool := bool_decide (c ∈ surplus_ids e).
Definition cid_health (e : Engine) (c : key) : option CidHealth := health e !! c.
Definition live_providers (e : Engine) (c : key) : Z := match cid_health e c with Some h => h_live_providers h | None => 0 end.

(** A u32 sum that overflows is the panic [None]. *)
Definition converging (e : Engine) (c : key) : option bool :=
  if is_at_risk e c || is_surplus e c then Some true
  else
    match cid_health e c with
    | Some h =>
        if 0 <? h_floor h then
          let high := h_floor h + delta_of (h_floor h) in
          if U32_MAX <? high then None
          else Some (if high <? h_effective h then served_pulls e c <? degrade_threshold cfg else false)
        else Some false
    | None => Some false
    end.

Definition record_health (c : key) (eff floor : Z) (live : nat) (decision action : string) : Eng () :=
  now ← now_millis;
  h ← gets health;
  set_health (<[c := mk_health now (as_u32 eff) (as_u32 floor) (as_u32 (Z.of_nat live)) decision action]> h).

(** ** What a scan sees *)

(** One candidate, as its probe shows it: an unanswered probe leaves the
    record standing only with a census. *)
Definition verify_holder (c : key) (has_census : bool) (p : ProviderRecord PeerAddr) : Eng Holder :=
  r ← probe_availability c (pr_addr p);
  let '(count, pinned) :=
    match r with
    | Some a => if aa_has a then (aa_piece_count a, aa_pinned a) else (0, false)
    | None => if has_census then (pr_piece_count p, pr_pinned p) else (0, false)
    end in
  mret (pr_node_id p, pr_addr p, count, pinned).

Definition verify_holders (c : key) (alive : option (gset key)) (providers : list (ProviderRecord PeerAddr)) : Eng (list Holder) :=
  v ← for_each (verify_holder c (match alive with Some _ => true | None => false end))
        (filter (fun p => pr_node_id p <> me /\ in_census alive (pr_node_id p) = true) providers);
  mret (filter (fun h : Holder => ~ (h_count h = 0 /\ h_pinned h = false)) v).

(** Our own share: counted, and a candidate when it can repair. *)
Definition self_share (s : Store) (c : key) : Z * list key :=
  let n := piece_count s c in
  if (0 <? n)%nat || holds_content s c then (Z.of_nat n, if self_capable s c then [me] else []) else (0, []).

(** [have], the capable holders and the live ones. We come first when our own
    record is among the providers, else last. *)
Definition observe (c : key) (alive : option (gset key)) (providers : list (ProviderRecord PeerAddr)) : Eng (Z * list key * list Holder) :=
  let seen := existsb (fun p => bool_decide (pr_node_id p = me)) providers in
  s ← gets store;
  let '(n1, c1) := if seen then self_share s c else (0, []) in
  live ← verify_holders c alive providers;
  s ← gets store;
  let '(n2, c2) := if seen then (0, []) else self_share s c in
  let caps := map h_id (filter (fun h : Holder => 2 <= h_count h \/ h_pinned h = true) live) in
  mret (n1 + sum_Z (map h_count live) + n2, c1 ++ caps ++ c2, live).

(** ** The branches *)

Definition may_offload (s : Store) (c : key) (floor : Z) (live : list Holder) : bool :=
  holds_content s c && negb (is_pinned s c) && negb (is_wanted s c) && (floor <=? sum_Z (map h_count live)).

Definition scan_offload (c : key) (have floor : Z) (live : list Holder) (t : Tally) : Eng Tally :=
  _ ← modify_store (fun s => forget s c);
  _ ← record_health c have floor (length live) "durable on peers — full erasure set present" "offloaded — dropped our retained copy";
  mret (on_report add_offloaded t).

Definition scan_shed (c : key) (epoch have floor : Z) (live : list Holder) (t : Tally) : Eng Tally :=
  s ← gets store;
  let shedders := map h_id (filter (fun h : Holder => 2 < h_count h /\ h_pinned h = false) live) ++
                  (if (2 <? piece_count s c)%nat && negb (is_pinned s c) then [me] else []) in
  shed ← (if elected c epoch shedders then shed_one c else mret false);
  _ ← record_health c have floor (length live) "surplus — shedding toward floor (cold)"
        (if shed : bool then "degraded — shed 1 piece toward the floor" else "none — not the elected shedder");
  let t := mk_tally (t_report t) (t_risk t) (t_fading t) ({[c]} ∪ t_surplus t) in
  mret (if shed : bool then on_report add_degraded t else t).

Definition scan_stable (c : key) (g : Generation) (have floor : Z) (providers : list (ProviderRecord PeerAddr)) (rebalance_peers : list (key * PeerAddr)) (live : list Holder) (t : Tally) : Eng Tally :=
  many ← gets (fun e => (2 <? piece_count (store e) c)%nat);
  move ← (if many : bool then is_alive c (any_pinned providers) else mret false);
  n ← (if move : bool then rebalance_cid c g providers rebalance_peers else mret 0%nat);
  _ ← record_health c have floor (length live) "within durability band (floor ± Δ)"
        (if (0 <? n)%nat then "rebalanced — moved piece(s) to least-full peer" else "none — stable");
  mret (on_report (add_moved n) t).

Definition under : string := "below band — under-replicated".

Definition scan_repair (c : key) (g : Generation) (epoch have floor : Z) (capable : list key) (live : list Holder) (t : Tally) : Eng Tally :=
  s ← gets store;
  let sole := negb (self_capable s c) && bool_decide (capable = []) && holds_content s c in
  let restorer := content_restorer s c (g_k g) have live in
  if negb (self_capable s c) && negb sole && negb restorer then
    _ ← record_health c have floor (length live) under "none — we can't repair (retained/passive copy)"; mret t
  else if negb (elected c epoch (if sole || restorer then capable ++ [me] else capable)) && negb restorer then
    _ ← record_health c have floor (length live) under "none — another holder is the elected repairer"; mret t
  else
    _ ← send (RepairNeeded c);
    if work_wired then
      _ ← send (Work (Reconcile c));
      _ ← record_health c have floor (length live) under "repair queued (Repair-priority job)";
      mret t
    else
      n ← repair_one c g live (sat_sub floor have);
      _ ← record_health c have floor (length live) under
            (if (0 <? n)%nat then "repaired — minted + pushed pieces (batched)" else "repair failed — no reachable target");
      mret (on_report (add_repaired n) t).

(** Below the band: content nothing wants fades, the rest is at risk. *)
Definition scan_low (c : key) (g : Generation) (epoch have floor : Z) (providers : list (ProviderRecord PeerAddr)) (capable : list key) (live : list Holder) (t : Tally) : Eng Tally :=
  alive ← is_alive c (any_pinned providers);
  if negb alive then
    _ ← record_health c have floor (length live) "below band but unwanted & undemanded" "none — left to fade";
    mret (on_report add_fading (mk_tally (t_report t) (t_risk t) ({[c]} ∪ t_fading t) (t_surplus t)))
  else
    scan_repair c g epoch have floor capable live (on_report add_risk (mk_tally (t_report t) ({[c]} ∪ t_risk t) (t_fading t) (t_surplus t))).

Definition scan_verdict (c : key) (g : Generation) (epoch have floor : Z) (providers : list (ProviderRecord PeerAddr)) (rebalance_peers : list (key * PeerAddr)) (capable : list key) (live : list Holder) (t : Tally) : Eng Tally :=
  e ← gets (fun e => e);
  if may_offload (store e) c floor live then scan_offload c have floor live t
  else
    let high := floor + delta_of floor in
    let low := sat_sub floor (delta_of floor) in
    let cold := served_pulls e c <? degrade_threshold cfg in
    if cold && ((high <? have) || (is_surplus e c && (floor <? have))) then scan_shed c epoch have floor live t
    else if high <? have then
      _ ← record_health c have floor (length live) "surplus above band — demand warm" "none — kept for serving bandwidth"; mret t
    else if (low <=? have) && negb (is_at_risk e c && (have <? floor)) then scan_stable c g have floor providers rebalance_peers live t
    else scan_low c g epoch have floor providers capable live t.

Definition scan_cid (epoch : Z) (alive : option (gset key)) (rebalance_peers : list (key * PeerAddr)) (t : Tally) (x : key * list (ProviderRecord PeerAddr)) : Eng Tally :=
  let '(c, providers) := x in
  '(tomb, og) ← gets (fun e => (is_tombstoned (store e) c, generation (store e) c));
  if tomb : bool then mret t
  else
    match og with
    | None => mret t
    | Some g =>
        match target_pieces (g_k g) with
        | None => panic
        | Some floor =>
            '(have, capable, live) ← observe c alive providers;
            now ← now_millis;
            m ← gets scan_snapshot;
            _ ← set_snapshot (<[c := (now, capable)]> m);
            scan_verdict c g epoch have floor providers rebalance_peers capable live (on_report add_scanned t)
        end
    end.

(** Rolling a chunk's verdicts into the sets that persist. *)
Definition roll (cs : list key) (chunk ids : gset key) : gset key :=
  foldl (fun s c => if bool_decide (c ∈ chunk) then {[c]} ∪ s else s ∖ {[c]}) ids cs.

Definition health_scan_chunk (cs : list key) : Eng HealthReport :=
  ts ← hlc;
  resolved ← for_each (fun c => r ← resolve c; mret (c, r)) cs;
  alive ← alive_peers;
  rp ← peers;
  t ← fold_eng (scan_cid (epoch_of ts) alive rp) resolved (mk_tally hreport0 ∅ ∅ ∅);
  '(ar, fd, su) ← gets (fun e => (roll cs (t_risk t) (at_risk_ids e), roll cs (t_fading t) (fading_ids e), roll cs (t_surplus t) (surplus_ids e)));
  _ ← set_verdicts ar fd su;
  held ← gets (fun e => size (content_cids (store e)));
  let r := t_report t in
  mret (mk_hreport held (size ar) (repaired r) (moved r) (degraded r) (size fd) (offloaded r) (size su)).

Definition health_scan : Eng HealthReport := cs ← gets (fun e => elements (content_cids (store e))); health_scan_chunk cs.

(** ** Spreading published content *)

(** The pushes of one object in order; the ids that acked. *)
Fixpoint push_round (c : key) (g : Generation) (cands : list PeerAddr) (i : nat) (ps : list CodedPiece) (acc : list key) : Eng (list key) :=
  match ps with
  | [] => mret acc
  | p :: ps' =>
      match cands !! (i mod length cands)%nat with
      | None => panic
      | Some peer =>
          r ← push_piece peer c g p CLASS_NORMAL false;
          push_round c g cands (S i) ps' (if is_ok r then acc ++ [addr_id peer] else acc)
      end
  end.

Definition other_addrs : Eng (list PeerAddr) := ps ← peers; mret (map snd (filter (fun x : key * PeerAddr => x.1 <> me) ps)).

Definition record_sum (providers : list (ProviderRecord PeerAddr)) : Z := sum_Z (map pr_piece_count (filter (fun p => pr_node_id p <> me) providers)).

Definition pending_cid (cands : list PeerAddr) (target : nat) (out : list (key * Z * Z)) (c : key) : Eng (list (key * Z * Z)) :=
  s ← gets store;
  if is_tombstoned s c || negb (holds_content s c) || is_distributed s c then mret out
  else
    match generation s c with
    | None => mret out
    | Some g =>
        match target_pieces (g_k g) with
        | None => panic
        | Some floor =>
            providers ← resolve c;
            let have_others := record_sum providers in
            if floor <=? have_others then _ ← modify_store (fun s => set_distributed s c); mret out
            else if bool_decide (length cands = 0%nat) then mret (out ++ [(c, as_u32 have_others, as_u32 floor)])
            else
              r ← s_serve c ∅ (Z.to_nat (Z.min (floor - have_others) floor));
              acked ← push_round c g cands 0 (match r with Ok ps => ps | Err _ => [] end) [];
              let distinct := size (list_to_set acked : gset key) in
              if (target <=? distinct)%nat then _ ← modify_store (fun s => set_distributed s c); mret out
              else mret (out ++ [(c, as_u32 (have_others + Z.of_nat distinct), as_u32 floor)])
        end
    end.

Definition distribute_pending : Eng () :=
  cands ← other_addrs;
  let target := Nat.min (durability_threshold cfg) (Nat.max (length cands) 1) in
  cs ← gets (fun e => elements (content_cids (store e)));
  out ← fold_eng (pending_cid cands target) cs [];
  set_pending (sort_by (le_on (fun x : key * Z * Z => x.1.2)) out).

Fixpoint encode_n (sources : list bytes) (n : nat) : Eng (result (list CodedPiece) ErasureError) :=
  match n with
  | O => mret (Ok [])
  | S n' =>
      r ← draw (encode sources);
      match r with
      | Err x => mret (Err x)
      | Ok p => r ← encode_n sources n'; mret (match r with Ok ps => Ok (p :: ps) | Err x => Err x end)
      end
  end.

Definition spread_initial (c : key) (g : Generation) (b : bytes) : Eng () :=
  let piece_len := Nat.max (Z.to_nat (g_piece_len g)) 1 in
  let k := Nat.max (Z.to_nat (g_k g)) 1 in
  let sources := split_sources b k piece_len in
  match target_pieces (Z.of_nat k) with
  | None => panic
  | Some n =>
      cands ← other_addrs;
      if bool_decide (length cands = 0%nat) then mret tt
      else
        r ← encode_n sources (Z.to_nat n);
        match r with
        | Err _ => mret tt
        | Ok ps =>
            acked ← push_round c g cands 0 ps [];
            let target := Nat.min (durability_threshold cfg) (length cands) in
            when ((Z.to_nat n <=? length acked)%nat || (target <=? size (list_to_set acked : gset key))%nat) (modify_store (fun s => set_distributed s c))
        end
  end.

Definition distribute_initial (c : key) : Eng () :=
  pinned ← gets (fun e => is_pinned (store e) c);
  distributed ← gets (fun e => is_distributed (store e) c);
  cont ← (if distributed : bool then mret true
          else
            ob ← s_content c;
            og ← gets (fun e => generation (store e) c);
            match ob, og with
            | Some b, Some g => _ ← spread_initial c g b; mret true
            | _, _ => mret false
            end);
  if (cont : bool) && (pinned : bool) then _ ← routing (Announced c 0 true); mret tt else mret tt.

(** ** Scaling *)

Fixpoint recruit (c : key) (g : Generation) (p : CodedPiece) (ids : gset key) (l : list (key * PeerAddr)) : Eng bool :=
  match l with
  | [] => mret false
  | (id, addr) :: l' =>
      if bool_decide (id = me) || bool_decide (id ∈ ids) then recruit c g p ids l'
      else r ← push_piece addr c g p CLASS_NORMAL true; if is_ok r then mret true else recruit c g p ids l'
  end.

Definition scale_one (c : key) : Eng bool :=
  s ← gets store;
  if is_tombstoned s c then mret false
  else if negb ((2 <=? piece_count s c)%nat || holds_content s c) then mret false
  else
    match generation s c with
    | None => mret false
    | Some g =>
        providers ← resolve c;
        match target_pieces (g_k g) with
        | None => panic
        | Some n =>
            if Z.max (n / 2) 1 <=? Z.of_nat (length providers) then mret false
            else
              op ← mint_piece c g;
              match op with
              | None => mret false
              | Some p => ps ← peers; recruit c g p (list_to_set (map pr_node_id providers)) ps
              end
        end
    end.

Definition scale_hot (rep : ScaleReport) (x : key * Z) : Eng ScaleReport :=
  if x.2 <? scale_threshold cfg then mret rep
  else
    ok ← scale_one x.1;
    mret (mk_sreport (S (hot rep)) (if ok : bool then S (scaled rep) else scaled rep)).

Definition scale : Eng ScaleReport :=
  d ← gets demand;
  _ ← set_demand ∅;
  fold_eng scale_hot (map_to_list d) (mk_sreport 0 0).
End scan.
