(* ===== verification/ObjMaint.v ===== *)
(** The maintenance of redundancy in the object engine ([ObjServe],
    [ObjScan]): what a scan, a repair, a shed, a rebalance and the rest may
    take away from the store. *)

From S2P Require Import Prelude Crypto Pager Cipher ObjManifest Wire Gf Linear Erasure ErasureDecode VTags Token PieceStore ObjCore ObjLogic ObjFetch ObjServe ObjScan.

Open Scope Z_scope.
Open Scope zeph_scope.

(** ** What maintenance spares *)

(** An object that was not there is not there; one that was is there with
    everything but some pieces, of which two are left (or all, if it had no
    more than two), or is gone, and then it was a whole copy that is neither
    pinned nor wanted. *)
Definition spared (s s' : Store) (c : key) : Prop :=
  match index s !! c, index s' !! c with
  | None, st' => st' = None
  | Some st, None => has_content st = true /\ pinned st = false /\ c ∉ wanted s
  | Some st, Some st' =>
      touch 0 (st_pieces ∅ st') = touch 0 (st_pieces ∅ st) /\ piece_ids st' ⊆ piece_ids st /\
      (Nat.min 2 (size (piece_ids st)) <= size (piece_ids st'))%nat /\ content_file s' c = content_file s c
  end.

Record spares (s s' : Store) : Prop := {
  sp_at : forall c, spared s s' c;
  sp_wanted : wanted s' = wanted s;
  sp_tombstones : tombstones s' = tombstones s;
  sp_evicted : evicted s' = evicted s
}.

Lemma spared_trans s1 s2 s3 c : wanted s2 = wanted s1 -> spared s1 s2 c -> spared s2 s3 c -> spared s1 s3 c.
Proof.
  unfold spared. intros Ew. destruct (index s1 !! c) as [st1|]; [|intros ->; done]. destruct (index s2 !! c) as [st2|]; [|intros H; destruct (index s3 !! c); [done|tauto]].
  intros (E1 & E2 & E3 & E4). destruct (index s3 !! c) as [st3|].
  - intros (F1 & F2 & F3 & F4). split_and!; [congruence|set_solver|lia|congruence].
  - intros (F1 & F2 & F3). unfold touch, st_pieces in E1. cbn in E1. injection E1 as _ E1 _ _ E5. rewrite Ew in F3. by rewrite <- E1, <- E5.
Qed.

#[export] Instance spares_preorder : PreOrder spares.
Proof.
  split.
  - intros s. split; try done. intros c. unfold spared. destruct (index s !! c); [|done]. split_and!; [done|done|lia|done].
  - intros s1 s2 s3 H1 H2. split; [|by rewrite (sp_wanted _ _ H2), (sp_wanted _ _ H1)|by rewrite (sp_tombstones _ _ H2), (sp_tombstones _ _ H1)|by rewrite (sp_evicted _ _ H2), (sp_evicted _ _ H1)].
    intros c. eapply spared_trans; [exact (sp_wanted _ _ H1)|by apply sp_at|by apply sp_at].
Qed.

Lemma same_spares s s' : same s s' -> spares s s'.
Proof.
  intros Hs. split; [|by destruct Hs..]. intros c. pose proof (sm_index _ _ Hs c) as E. unfold spared, content_file. rewrite (sm_disk _ _ Hs).
  destruct (index s !! c) as [st|], (index s' !! c) as [st'|]; try done. cbn in E. injection E as E1 E2 E3 E4 E5 E6.
  unfold touch, st_pieces. cbn [gen piece_ids pinned system not_holdings has_content last_access]. rewrite E1, E2, E3, E4, E5, E6. split_and!; [done|done|lia|done].
Qed.

Lemma forget_spares s c : holds_content s c = true -> is_pinned s c = false -> is_wanted s c = false -> spares s (forget s c).
Proof.
  unfold holds_content, is_pinned, is_wanted. intros Hh Hp Hw. apply bool_decide_eq_false in Hw. split; [|cbn; set_solver|done..].
  intros c'. unfold spared, forget, content_file. cbn -[Nat.min]. destruct (decide (c' = c)) as [->|Hne].
  - rewrite lookup_delete_eq. destruct (index s !! c); done.
  - rewrite !lookup_delete_ne by done. destruct (index s !! c'); [split_and!; try done; lia|done].
Qed.

Lemma size_without (X : gset key) x : (size X <= S (size (X ∖ {[x]})))%nat.
Proof.
  rewrite <- Nat.add_1_r, <- (size_singleton (C := gset key) x), <- size_union by set_solver. apply subseteq_size. intros y Hy. destruct (decide (y = x)); set_solver.
Qed.

Lemma remove_spares s c pid t : (2 < piece_count s c)%nat -> spares s (remove_piece s c pid t).2.
Proof.
  unfold piece_count. intros Hn. split; [|done..]. intros c'. unfold spared, remove_piece, content_file. cbn -[Nat.min]. destruct (decide (c' = c)) as [->|Hne].
  - rewrite !lookup_alter_eq. destruct (index s !! c) as [st|]; [cbn -[Nat.min]|done]. split_and!; [done|set_solver| |by destruct (d_cid (disk s) !! c)].
    pose proof (size_without (piece_ids st) pid). lia.
  - rewrite !lookup_alter_ne by done. destruct (index s !! c'); [split_and!; try done; lia|done].
Qed.

Lemma distributed_spares s c : spares s (set_distributed s c).
Proof. split; try done. intros c'. unfold spared. cbn -[Nat.min]. destruct (index s !! c'); [split_and!; try done; lia|done]. Qed.

(** A removal takes at most one piece of the object. *)
Lemma remove_count s c pid t : (piece_count s c <= S (piece_count (remove_piece s c pid t).2 c))%nat.
Proof.
  unfold piece_count, remove_piece. cbn. rewrite lookup_alter_eq. destruct (index s !! c) as [st|]; [cbn|lia].
  pose proof (size_without (piece_ids st) pid). lia.
Qed.

Lemma same_count s s' c : same s s' -> piece_count s' c = piece_count s c.
Proof.
  intros Hs. pose proof (sm_index _ _ Hs c) as E. unfold piece_count. destruct (index s' !! c), (index s !! c); try done. injection E; intros; congruence.
Qed.

(** Runs whose removals are spared. *)
Definition prunes : relation Engine := fun e e' => spares (store e) (store e').

#[export] Instance prunes_preorder : PreOrder prunes.
Proof. split; [intros e; apply spares_preorder|]. intros e1 e2 e3 H1 H2. unfold prunes in *. by transitivity (store e2). Qed.

Lemma keeps_prunes {A} (m : Eng A) : ensures keeps m -> ensures prunes m.
Proof. intros Hm e a e' Hr. by eapply same_spares, Hm. Qed.

(** [ens] with the tallies of a fold. *)
Lemma ensures_fold (R : relation Engine) `{!PreOrder R} {A B} (f : B -> A -> Eng B) l : forall b, (forall b a, ensures R (f b a)) -> ensures R (fold_eng f l b).
Proof. induction l as [|x l IH]; intros b Hf; cbn [fold_eng]; [apply ensures_ret; apply _|]. apply ensures_bind; [apply _|apply Hf|]. intros b'. by apply IH. Qed.

Section maint.
Context {B3 : Blake3} {XF : Xof} {UM : Umbral} {Net : ObjNet}.
Context {PG : Postcard Generation} {PV : Postcard VTags}.

Lemma keeps_set_demand d : ensures keeps (set_demand d).
Proof. by intros e a e' [= _ <-]. Qed.
Lemma keeps_set_served d : ensures keeps (set_served d).
Proof. by intros e a e' [= _ <-]. Qed.
Lemma keeps_set_pending d : ensures keeps (set_pending d).
Proof. by intros e a e' [= _ <-]. Qed.
Lemma keeps_set_announced d : ensures keeps (set_announced d).
Proof. by intros e a e' [= _ <-]. Qed.
Lemma keeps_set_verdicts x y z : ensures keeps (set_verdicts x y z).
Proof. by intros e a e' [= _ <-]. Qed.
Lemma keeps_set_alive d : ensures keeps (set_alive d).
Proof. by intros e a e' [= _ <-]. Qed.
Lemma keeps_set_liveness d : ensures keeps (set_liveness d).
Proof. by intros e a e' [= _ <-]. Qed.
Lemma keeps_set_health d : ensures keeps (set_health d).
Proof. by intros e a e' [= _ <-]. Qed.
Lemma keeps_set_snapshot d : ensures keeps (set_snapshot d).
Proof. by intros e a e' [= _ <-]. Qed.
#[local] Hint Resolve keeps_set_demand keeps_set_served keeps_set_pending keeps_set_announced keeps_set_verdicts keeps_set_alive keeps_set_liveness keeps_set_health keeps_set_snapshot : eng.

Lemma keeps_offer p cl c i n : ensures keeps (offer p cl c i n).
Proof. unfold offer. ens. Qed.
Lemma keeps_push p c g x cl ch : ensures keeps (push_piece p c g x cl ch).
Proof. unfold push_piece. ens. Qed.
Lemma keeps_is_alive c b : ensures keeps (is_alive c b).
Proof. unfold is_alive. ens. Qed.
Lemma keeps_alive_peers : ensures keeps alive_peers.
Proof. unfold alive_peers, refresh_alive. ens. Qed.
Lemma keeps_probe_alive id a : ensures keeps (probe_alive id a).
Proof. unfold probe_alive, probe_fresh. ens. Qed.
Lemma keeps_probe c a : ensures keeps (probe_availability c a).
Proof. unfold probe_availability. ens. Qed.
Lemma keeps_mint c g : ensures keeps (mint_piece c g).
Proof.
  unfold mint_piece. ens. intros e r e'. unfold lift. destruct (mint_from_content _ _ _ _) as [[[x s] t]|] eqn:E; [|done].
  apply mint_same in E. cbn. by intros [= _ <-].
Qed.
Lemma keeps_record c x y n d a : ensures keeps (record_health c x y n d a).
Proof. unfold record_health. ens. Qed.
#[local] Hint Resolve keeps_offer keeps_push keeps_is_alive keeps_alive_peers keeps_probe_alive keeps_probe keeps_mint keeps_record : eng.

Lemma keeps_live_records a l : ensures keeps (live_records a l).
Proof. induction l as [|p l IH]; cbn [live_records]; ens. Qed.
Lemma keeps_targets live w : ensures keeps (repair_targets live w).
Proof. unfold repair_targets. ens. Qed.
Lemma keeps_attempts c g plan : forall tasks landed, ensures keeps (repair_attempts c g plan tasks landed).
Proof. induction plan as [|a plan IH]; intros [|tasks] landed; cbn [repair_attempts]; ens. Qed.
Lemma keeps_push_round c g cands ps : forall i acc, ensures keeps (push_round c g cands i ps acc).
Proof. induction ps as [|p ps IH]; intros i acc; cbn [push_round]; ens. Qed.
Lemma keeps_encode_n src n : ensures keeps (encode_n src n).
Proof. induction n as [|n IH]; cbn [encode_n]; ens. Qed.
Lemma keeps_recruit c g p ids l : ensures keeps (recruit c g p ids l).
Proof. induction l as [|[id a] l IH]; cbn [recruit]; ens. Qed.
#[local] Hint Resolve keeps_live_records keeps_targets keeps_attempts keeps_push_round keeps_encode_n keeps_recruit : eng.

Lemma keeps_repair_one c g live d : ensures keeps (repair_one c g live d).
Proof. unfold repair_one. ens. Qed.
#[local] Hint Resolve keeps_repair_one : eng.
Lemma keeps_repair_cid c : ensures keeps (repair_cid c).
Proof. unfold repair_cid. ens. Qed.
Lemma keeps_confirmed c a ps : ensures keeps (confirmed c a ps).
Proof. unfold confirmed. ens. Qed.
#[local] Hint Resolve keeps_confirmed : eng.
Lemma keeps_verified_have c : ensures keeps (verified_have c).
Proof. unfold verified_have. ens. Qed.
Lemma keeps_observe c a ps : ensures keeps (observe c a ps).
Proof. unfold observe, verify_holders, verify_holder. ens. Qed.
Lemma keeps_scale_one c : ensures keeps (scale_one c).
Proof. unfold scale_one. ens. Qed.
#[local] Hint Resolve keeps_scale_one : eng.
Lemma keeps_scale : ensures keeps scale.
Proof. unfold scale. ens. apply ensures_fold; [apply _|]. intros b x. unfold scale_hot. ens. Qed.

(** ** Removals *)

Lemma max_by_elem {A B} `{Ord B} (f : A -> B) l x : max_by f l = Some x -> x ∈ l.
Proof.
  revert x. induction l as [|y l IH]; intros x; [done|]. cbn. destruct (max_by f l) as [z|].
  - case_bool_decide; intros [= <-]; [left|]. right. by apply IH.
  - intros [= <-]. left.
Qed.

Lemma elected_elem c ep l : elected c ep l = true -> me ∈ l.
Proof. unfold elected. intros E%bool_decide_eq_true. exact (max_by_elem _ _ _ E). Qed.

Lemma max_by_top {A B} `{OrdLaws B} (f : A -> B) l x y : max_by f l = Some x -> y ∈ l -> ole (f y) (f x).
Proof.
  revert x. induction l as [|z l IH]; intros x; [done|]. cbn. destruct (max_by f l) as [w|] eqn:Ew.
  - case_bool_decide as Hc; intros [= <-] [->|Hy]%elem_of_cons; [reflexivity| |done|by apply IH].
    etransitivity; [by apply IH|]. unfold ole. rewrite cmp_opp, Hc. done.
  - intros [= ->] [->|Hy]%elem_of_cons; [reflexivity|]. destruct l; [by apply not_elem_of_nil in Hy|]. cbn in Ew. by repeat case_match.
Qed.

Lemma elected_top c ep l k : elected c ep l = true -> k ∈ l -> ole (rendezvous_score c ep k) (rendezvous_score c ep me).
Proof. unfold elected. intros E%bool_decide_eq_true. by apply max_by_top. Qed.

Lemma with_store_run {A} (f : Store -> A * Store) e a e' : with_store f e = Some (a, e') -> a = (f (store e)).1 /\ e' = set_store e (f (store e)).2.
Proof. unfold with_store. destruct (f (store e)). by intros [= <- <-]. Qed.

Lemma move_piece_run c g a e r e' :
  move_piece c g a e = Some (r, e') ->
  (r <> Some true -> keeps e e') /\
  (r = Some true -> exists e1 pid t, keeps e e1 /\ store e' = (remove_piece (store e1) c pid t).2).
Proof.
  unfold move_piece. intros (x & e1 & H1%keeps_serve & Hr)%bind_inv. destruct x as [[|p ps]|]; try (apply ret_inv in Hr as [-> ->]; by split).
  apply bind_inv in Hr as (y & e2 & H2%keeps_push & Hr). assert (K : keeps e e2) by (by transitivity e1). destruct (is_ok y).
  - apply bind_inv in Hr as (t & e3 & H3%keeps_nanos & Hr). apply bind_inv in Hr as (b & e4 & [_ ->]%with_store_run & Hr). apply ret_inv in Hr as [-> ->].
    split; [done|]. intros _. exists e3, (piece_id p), t. split; [by transitivity e2|done].
  - apply ret_inv in Hr as [-> ->]. by split.
Qed.

(** A move takes a piece away only when it succeeded, and then one. *)
Lemma move_piece_spares c g a e r e' :
  move_piece c g a e = Some (r, e') -> (2 < piece_count (store e) c)%nat ->
  prunes e e' /\ (piece_count (store e) c <= piece_count (store e') c + (if bool_decide (r = Some true) then 1 else 0))%nat.
Proof.
  intros [H1 H2]%move_piece_run Hn. case_bool_decide as E.
  - destruct (H2 E) as (e1 & pid & t & K & Es). pose proof (same_count _ _ c K) as Ec. unfold prunes. rewrite Es. split.
    + transitivity (store e1); [by apply same_spares|]. apply remove_spares. lia.
    + pose proof (remove_count (store e1) c pid t). lia.
  - specialize (H1 E). split; [by apply same_spares|]. rewrite (same_count _ _ c H1). lia.
Qed.

Lemma move_loop_spares fuel c g ps : forall belief un mine n e r e',
  move_loop fuel c g ps belief un mine n e = Some (r, e') -> (mine <= piece_count (store e) c)%nat -> (n <= MOVE_BATCH)%nat ->
  prunes e e' /\ (n <= r <= MOVE_BATCH)%nat /\ (piece_count (store e) c <= piece_count (store e') c + (r - n))%nat.
Proof.
  induction fuel as [|fuel IH]; intros belief un mine n e r e' Hr Hm Hn; cbn [move_loop] in Hr.
  { apply ret_inv in Hr as [-> ->]. split; [reflexivity|lia]. }
  assert (Hend : forall e1, keeps e e1 -> prunes e e1 /\ (n <= n <= MOVE_BATCH)%nat /\ (piece_count (store e) c <= piece_count (store e1) c + (n - n))%nat).
  { intros e1 K. split; [by apply same_spares|]. rewrite (same_count _ _ c K). lia. }
  destruct (Nat.leb_spec MOVE_BATCH n) as [Hb|Hb]; [apply ret_inv in Hr as [-> ->]; by apply Hend|].
  destruct (min_by _ _) as [[[id a] m]|]; [|apply ret_inv in Hr as [-> ->]; by apply Hend].
  destruct (_ || _) eqn:Eg; [apply ret_inv in Hr as [-> ->]; by apply Hend|]. apply orb_false_iff in Eg as [_ Eg%Nat.leb_gt].
  apply bind_inv in Hr as (x & e1 & H1 & Hr). destruct (move_piece_spares _ _ _ _ _ _ H1 ltac:(lia)) as [P1 C1].
  destruct x as [[]|].
  - rewrite bool_decide_true in C1 by done. apply IH in Hr as (P2 & B2 & C2); [|lia|lia]. split; [by transitivity e1|lia].
  - rewrite bool_decide_false in C1 by done. apply IH in Hr as (P2 & B2 & C2); [|lia|lia]. split; [by transitivity e1|lia].
  - apply ret_inv in Hr as [-> ->]. apply Hend. by apply move_piece_run in H1 as [K _]; apply K.
Qed.

(** ** Enough fuel *)

Lemma min_by_elem {A B} `{Ord B} (f : A -> B) l x : min_by f l = Some x -> x ∈ l.
Proof.
  revert x. induction l as [|y l IH]; intros x; [done|]. cbn. destruct (min_by f l) as [z|].
  - case_bool_decide; intros [= <-]; [|left]. right. by apply IH.
  - intros [= <-]. left.
Qed.

Definition reachable (un : gset key) (ps : list (key * PeerAddr)) : list (key * PeerAddr) := filter (fun x : key * PeerAddr => x.1 <> me /\ x.1 ∉ un) ps.

Lemma reachable_shrinks un id a ps : (id, a) ∈ reachable un ps -> (length (reachable ({[id]} ∪ un) ps) < length (reachable un ps))%nat.
Proof.
  unfold reachable. induction ps as [|x ps IH]; [by intros ?%not_elem_of_nil|]. rewrite !list.filter_cons. intros Hin.
  assert (Hle : forall l : list (key * PeerAddr), (length (filter (fun x : key * PeerAddr => x.1 <> me /\ x.1 ∉ ({[id]} ∪ un : gset key)) l) <= length (filter (fun x : key * PeerAddr => x.1 <> me /\ x.1 ∉ un) l))%nat).
  { clear. induction l as [|y l IHl]; [done|]. rewrite !list.filter_cons. destruct (decide _) as [[H1 H2]|H1], (decide _) as [H3|H3]; cbn; try lia. destruct H3. set_solver. }
  destruct (decide (x.1 <> me /\ x.1 ∉ un)) as [Hx|Hx].
  - apply elem_of_cons in Hin as [E|Hin].
    + subst x. rewrite decide_False by (cbn; set_solver). specialize (Hle ps). cbn. lia.
    + specialize (IH Hin). destruct (decide _); cbn; lia.
  - specialize (IH Hin). rewrite decide_False; [done|]. intros [H1 H2]. apply Hx. set_solver.
Qed.

(** Every round moves a piece or rules a peer out, so more fuel than
    [rebalance_cid] gives changes nothing. *)
Lemma move_loop_fuel c g ps : forall f1 f2 belief un mine n e,
  (MOVE_BATCH - n + length (reachable un ps) < f1)%nat -> (MOVE_BATCH - n + length (reachable un ps) < f2)%nat ->
  move_loop f1 c g ps belief un mine n e = move_loop f2 c g ps belief un mine n e.
Proof.
  induction f1 as [|f1 IH]; intros [|f2] belief un mine n e H1 H2; try lia. cbn [move_loop]. destruct (Nat.leb_spec MOVE_BATCH n) as [Hn|Hn]; [done|].
  destruct (min_by _ _) as [[[id a] m]|] eqn:Em; [|done]. destruct (_ || _); [done|]. unfold mbind, eng_bind. destruct (move_piece c g a e) as [[[[]|] e1]|]; try done.
  - apply IH; lia.
  - apply min_by_elem in Em. unfold believed in Em. apply list_elem_of_fmap in Em as ([id' a'] & [= -> -> _] & Hin). pose proof (reachable_shrinks un id' a' ps Hin). apply IH; lia.
Qed.

Lemma spread_loop_fuel c g ps : forall f1 f2 belief mine n e,
  (mine <= f1)%nat -> (mine <= f2)%nat -> spread_loop f1 c g ps belief mine n e = spread_loop f2 c g ps belief mine n e.
Proof.
  induction f1 as [|f1 IH]; intros [|f2] belief mine n e H1 H2; cbn [spread_loop]; try done.
  - assert (mine = 0%nat) as -> by lia. destruct (min_by _ _) as [[[id a] m]|]; [|done]. by rewrite orb_true_r.
  - assert (mine = 0%nat) as -> by lia. destruct (min_by _ _) as [[[id a] m]|]; [|done]. by rewrite orb_true_r.
  - destruct (min_by _ _) as [[[id a] m]|]; [|done]. destruct (_ || _) eqn:Eg; [done|]. apply orb_false_iff in Eg as [_ Eg%Nat.leb_gt].
    unfold mbind, eng_bind. destruct (move_piece c g a e) as [[[[]|] e1]|]; try done. apply IH; lia.
Qed.

Lemma rebalance_spares c g prov ps e n e' :
  rebalance_cid c g prov ps e = Some (n, e') ->
  prunes e e' /\ (n <= MOVE_BATCH)%nat /\ (piece_count (store e) c <= piece_count (store e') c + n)%nat.
Proof.
  unfold rebalance_cid. intros (mine & e1 & H1 & Hr)%bind_inv. injection H1 as <- <-. destruct (_ || _).
  - apply ret_inv in Hr as [-> ->]. split; [reflexivity|lia].
  - apply move_loop_spares in Hr as (P & B & C); [|lia|lia]. split; [done|lia].
Qed.

Lemma spread_loop_spares fuel c g ps : forall belief mine n e r e',
  spread_loop fuel c g ps belief mine n e = Some (r, e') -> (mine <= piece_count (store e) c)%nat -> prunes e e'.
Proof.
  induction fuel as [|fuel IH]; intros belief mine n e r e' Hr Hm; cbn [spread_loop] in Hr; [by apply ret_inv in Hr as [-> ->]|].
  destruct (min_by _ _) as [[[id a] m]|]; [|by apply ret_inv in Hr as [-> ->]].
  destruct (_ || _) eqn:Eg; [by apply ret_inv in Hr as [-> ->]|]. apply orb_false_iff in Eg as [_ Eg%Nat.leb_gt].
  apply bind_inv in Hr as (x & e1 & H1 & Hr). destruct (move_piece_spares _ _ _ _ _ _ H1 ltac:(lia)) as [P1 C1].
  destruct x as [[]|]; try (by apply ret_inv in Hr as [-> ->]). rewrite bool_decide_true in C1 by done. apply IH in Hr; [by transitivity e1|lia].
Qed.

Lemma shed_one_run c e b e' :
  shed_one c e = Some (b, e') -> keeps e e' \/ (exists e1 pid t, keeps e e1 /\ store e' = (remove_piece (store e1) c pid t).2).
Proof.
  unfold shed_one. intros (x & e1 & H1%keeps_serve & Hr)%bind_inv. destruct x as [[|p ps]|]; try (apply ret_inv in Hr as [-> ->]; by left).
  apply bind_inv in Hr as (t & e2 & H2%keeps_nanos & Hr). apply with_store_run in Hr as [_ ->]. right. exists e2, (piece_id p), t. split; [by transitivity e1|done].
Qed.

Lemma shed_one_spares c e b e' :
  shed_one c e = Some (b, e') -> (2 < piece_count (store e) c)%nat ->
  prunes e e' /\ (piece_count (store e) c <= S (piece_count (store e') c))%nat.
Proof.
  intros [K|(e1 & pid & t & K & Es)]%shed_one_run Hn; pose proof (same_count _ _ c K) as Ec.
  - split; [by apply same_spares|lia].
  - unfold prunes. rewrite Es. pose proof (remove_count (store e1) c pid t). split; [|lia].
    transitivity (store e1); [by apply same_spares|]. apply remove_spares. lia.
Qed.
End maint.

#[export] Hint Resolve keeps_set_demand keeps_set_served keeps_set_pending keeps_set_announced keeps_set_verdicts keeps_set_alive keeps_set_liveness keeps_set_health keeps_set_snapshot keeps_offer keeps_push keeps_is_alive keeps_alive_peers keeps_probe_alive keeps_probe keeps_mint keeps_record keeps_live_records keeps_targets keeps_attempts keeps_push_round keeps_encode_n keeps_recruit keeps_repair_one keeps_repair_cid keeps_confirmed keeps_verified_have keeps_observe keeps_scale_one keeps_scale : eng.
