(* ===== verification/ObjJobs.v ===== *)
(** The jobs of the object engine's maintenance, in any order: what they leave
    of the store, the verdicts a scan keeps, and when a piece is shed. *)

From S2P Require Import Prelude Crypto Pager Cipher ObjManifest Wire Gf Linear Erasure ErasureDecode VTags Token PieceStore ObjCore ObjLogic ObjFetch ObjServe ObjScan ObjMaint.

Open Scope Z_scope.
Open Scope zeph_scope.

(** The engine's entry points that maintain redundancy; the node runs them as
    timers and events tell it. *)
Inductive Job :=
| HealthScan (cs : list key)
| RepairCid (c : key)
| ShedCid (c : key)
| ReconcileCid (c : key)
| Distribute
| DistributePending
| DistributeInitial (c : key)
| ScaleAll
| ScaleOne (c : key)
| Reannounce.

Section jobs.
Context {B3 : Blake3} {XF : Xof} {UM : Umbral} {Net : ObjNet}.
Context {PG : Postcard Generation} {PV : Postcard VTags}.

Definition discard {A} (m : Eng A) : Eng () := _ ← m; mret tt.

Definition run_job (j : Job) : Eng () :=
  match j with
  | HealthScan cs => discard (health_scan_chunk cs)
  | RepairCid c => discard (repair_cid c)
  | ShedCid c => discard (shed_cid c)
  | ReconcileCid c => discard (reconcile_cid c)
  | Distribute => discard distribute
  | DistributePending => distribute_pending
  | DistributeInitial c => distribute_initial c
  | ScaleAll => discard scale
  | ScaleOne c => discard (scale_one c)
  | Reannounce => discard reannounce_providers
  end.

Fixpoint run_jobs (js : list Job) : Eng () :=
  match js with [] => mret tt | j :: js' => _ ← run_job j; run_jobs js' end.

#[local] Hint Resolve keeps_prunes : eng.

(** ** Each job spares the store *)

Lemma prunes_set_distributed c : ensures prunes (modify_store (fun s => set_distributed s c)).
Proof. intros e a e' [= _ <-]. apply distributed_spares. Qed.
#[local] Hint Resolve prunes_set_distributed : eng.

(** No step of a shed before its decision touches the demand counts. *)
Definition calm : relation Engine := fun e e' => demand e' = demand e.

#[local] Instance calm_preorder : PreOrder calm.
Proof. split; [done|]. unfold calm. intros ??? -> ->. done. Qed.

Lemma calm_tick : ensures calm tick.
Proof. by intros e a e' [= _ <-]. Qed.
Lemma calm_set_alive d : ensures calm (set_alive d).
Proof. by intros e a e' [= _ <-]. Qed.
#[local] Hint Resolve calm_tick calm_set_alive : eng.
Lemma calm_hlc : ensures calm hlc.
Proof. unfold hlc. ens. Qed.
Lemma calm_alive_peers : ensures calm alive_peers.
Proof. unfold alive_peers, refresh_alive, instant. ens. Qed.
Lemma calm_confirmed c alive ps : ensures calm (confirmed c alive ps).
Proof. unfold confirmed, probe_availability, request. ens. Qed.

(** What a run of [shed_cid] that takes a piece away has seen: the records it
    resolved, the census, the confirmations [v] and the election. *)
Record shed_seen (c : key) (e e2 : Engine) (g : Generation) (floor : Z) (t : nat) (alive : option (gset key)) (v : list (key * Z * bool)) (ts : Z) : Prop := {
  ss_gen : generation (store e) c = Some g;
  ss_floor : target_pieces (g_k g) = Some floor;
  ss_allowed : is_tombstoned (store e) c = false /\ is_pinned (store e) c = false;
  ss_cold : served_pulls e c < degrade_threshold cfg;
  ss_many : (2 < piece_count (store e) c)%nat;
  ss_keeps : keeps e e2;
  ss_confirmed : exists e1, confirmed c alive (default [] (resolve_at t c)) e1 = Some (v, e2);
  ss_surplus : floor + delta_of floor < Z.of_nat (piece_count (store e) c) + sum_Z (map (fun x => x.1.2) (filter (fun x : key * Z * bool => ~ (x.1.2 = 0 /\ x.2 = false)) v));
  ss_elected : elected c (epoch_of ts) (map (fun x => x.1.1) (filter (fun x : key * Z * bool => 2 < x.1.2 /\ x.2 = false) (filter (fun x : key * Z * bool => ~ (x.1.2 = 0 /\ x.2 = false)) v)) ++ [me]) = true
}.

(** A run of [shed_cid] takes nothing, or one piece at the end of such a view. *)
Lemma shed_cid_run c e n e' :
  shed_cid c e = Some (n, e') ->
  (n = 0%nat /\ keeps e e') \/
  exists e2 g floor t alive v ts b e3, shed_seen c e e2 g floor t alive v ts /\
    shed_one c e2 = Some (b, e3) /\ keeps e3 e' /\ (n <= 1)%nat.
Proof.
  unfold shed_cid. intros (og & e0 & [= <- <-] & Hr)%bind_inv. apply bind_inv in Hr as (s & e0 & [= <- <-] & Hr).
  destruct (generation (store e) c) as [g|] eqn:Eg; [|apply ret_inv in Hr as [-> ->]; by left].
  destruct (_ || _) eqn:E1 in Hr; [apply ret_inv in Hr as [-> ->]; by left|]. apply orb_false_iff in E1 as [[Et Ep]%orb_false_iff E1%Nat.leb_gt].
  apply bind_inv in Hr as (ts & e1 & H1 & Hr). pose proof (calm_hlc _ _ _ H1) as D1. apply keeps_hlc in H1.
  apply bind_inv in Hr as (providers & e2 & H2 & Hr). pose proof (keeps_resolve _ _ _ _ H2) as K2. injection H2 as <- <-.
  apply bind_inv in Hr as (alive & e3 & H3 & Hr). pose proof (calm_alive_peers _ _ _ H3) as D3. apply keeps_alive_peers in H3.
  apply bind_inv in Hr as (v & e4 & H4 & Hr). pose proof (calm_confirmed _ _ _ _ _ _ H4) as D4.
  assert (K3 : keeps e e3) by (transitivity e1; [done|]; by transitivity (set_time e1 (S (time e1)))). pose proof (keeps_confirmed _ _ _ _ _ _ H4) as K4.
  apply bind_inv in Hr as (s & e5 & [= <- <-] & Hr). destruct (target_pieces (g_k g)) as [floor|] eqn:Ef; [|done].
  apply bind_inv in Hr as (cold & e5 & [= <- <-] & Hr). assert (K : keeps e e4) by (by transitivity e3).
  assert (Hc : piece_count (store e4) c = piece_count (store e) c) by (by apply same_count). rewrite !Hc in Hr.
  destruct (_ || _) eqn:E2 in Hr; [apply ret_inv in Hr as [-> ->]; by left|]. apply orb_false_iff in E2 as [Ec%negb_false_iff%Z.ltb_lt E2%Z.leb_gt].
  destruct (_ <=? 2)%nat eqn:E3 in Hr; [apply ret_inv in Hr as [-> ->]; by left|]. destruct (elected _ _ _) eqn:Ee in Hr; cbn [negb] in Hr; [|apply ret_inv in Hr as [-> ->]; by left].
  right. apply bind_inv in Hr as (ok & e5 & H5 & Hr). exists e4, g, floor, (time e1), alive, v, ts, ok, e5.
  assert (Hd : served_pulls e c < degrade_threshold cfg).
  { unfold served_pulls, calm in *. rewrite D4, D3 in Ec. cbn in Ec. by rewrite D1 in Ec. }
  split; [by split; eauto|]. split; [done|].
  destruct (negb ok); [apply ret_inv in Hr as [-> ->]; split; [done|lia]|]. apply bind_inv in Hr as (k & e6 & [= <- <-] & Hr).
  apply bind_inv in Hr as (b & e7 & H7%keeps_routing & Hr). apply ret_inv in Hr as [-> ->]. split; [done|lia].
Qed.

Lemma prunes_shed_cid c : ensures prunes (shed_cid c).
Proof.
  intros e n e' [[_ K]|(e2 & g & floor & t & alive & v & ts & b & e3 & Hs & H & K3 & _)]%shed_cid_run; [by apply same_spares|].
  pose proof (ss_keeps _ _ _ _ _ _ _ _ _ Hs) as K12. apply shed_one_spares in H as [P _]; [|rewrite (same_count _ _ c K12); apply Hs].
  transitivity e2; [by apply same_spares|]. transitivity e3; [done|by apply same_spares].
Qed.
#[local] Hint Resolve prunes_shed_cid : eng.

Lemma prunes_scan_offload c have floor live t e r e' :
  may_offload (store e) c floor live = true -> scan_offload c have floor live t e = Some (r, e') -> prunes e e'.
Proof.
  unfold may_offload, scan_offload. intros [[[E1 E2%negb_true_iff]%andb_true_iff E3%negb_true_iff]%andb_true_iff _]%andb_true_iff Hr.
  apply bind_inv in Hr as (u & e1 & [= _ <-] & Hr). apply bind_inv in Hr as (u' & e2 & H2%keeps_record & Hr). apply ret_inv in Hr as [-> ->].
  transitivity (set_store e (forget (store e) c)); [by apply forget_spares|by apply same_spares].
Qed.

(** Holders seen by a scan are others. *)
Lemma verify_holders_others c alive ps e live e' : verify_holders c alive ps e = Some (live, e') -> me ∉ map h_id live.
Proof.
  unfold verify_holders. intros (v & e1 & H1 & Hr)%bind_inv. apply ret_inv in Hr as [-> ->].
  assert (Hv : me ∉ map h_id v).
  { set (l := filter _ ps) in H1. assert (Hl : Forall (fun p => pr_node_id p <> me) l) by (apply list.Forall_forall; intros p [[? _] _]%list_elem_of_filter; done).
    clearbody l. revert v e1 e H1. induction l as [|p l IH]; intros v e1 e H1; cbn [for_each] in H1; [apply ret_inv in H1 as [-> ->]; by apply not_elem_of_nil|].
    apply Forall_cons_iff in Hl as [Hp Hl]. apply bind_inv in H1 as (h & e2 & H2 & H1). apply bind_inv in H1 as (hs & e3 & H3 & H1). apply ret_inv in H1 as [-> ->].
    unfold verify_holder in H2. apply bind_inv in H2 as (o & e4 & _ & H2). destruct (match o with Some a => _ | None => _ end) as [n q]. apply ret_inv in H2 as [-> ->].
    cbn [map h_id fst]. apply not_elem_of_cons. split; [by apply not_eq_sym|by eapply IH]. }
  intros (h & Eh & [_ Hin]%list_elem_of_filter)%list_elem_of_fmap. apply Hv. rewrite Eh. apply list_elem_of_fmap. by eexists.
Qed.

Lemma prunes_scan_shed c ep have floor live t e r e' : me ∉ map h_id live -> scan_shed c ep have floor live t e = Some (r, e') -> prunes e e'.
Proof.
  unfold scan_shed. intros Hl (s & e1 & [= <- <-] & Hr)%bind_inv. apply bind_inv in Hr as (sh & e2 & H2 & Hr). apply bind_inv in Hr as (u & e3 & H3%keeps_record & Hr).
  apply ret_inv in Hr as [-> ->]. transitivity e2; [|by apply same_spares]. destruct (elected c ep _) eqn:Ee; [|apply ret_inv in H2 as [-> ->]; reflexivity].
  apply elected_elem in Ee. apply elem_of_app in Ee as [(h & Eh & [_ Hin]%list_elem_of_filter)%list_elem_of_fmap|Ee].
  { destruct Hl. rewrite Eh. apply list_elem_of_fmap. by eexists. }
  destruct (_ && _) eqn:Eg in Ee; [|by apply not_elem_of_nil in Ee]. apply andb_true_iff in Eg as [Eg%Nat.ltb_lt _]. by apply shed_one_spares in H2 as [P _].
Qed.

Lemma prunes_rebalance c g prov ps : ensures prunes (rebalance_cid c g prov ps).
Proof. by intros e n e' [P _]%rebalance_spares. Qed.
#[local] Hint Resolve prunes_rebalance : eng.

Lemma prunes_scan_stable c g have floor prov ps live t : ensures prunes (scan_stable c g have floor prov ps live t).
Proof. unfold scan_stable. ens. Qed.
Lemma keeps_scan_repair c g ep have floor caps live t : ensures keeps (scan_repair c g ep have floor caps live t).
Proof. unfold scan_repair. ens. Qed.
#[local] Hint Resolve prunes_scan_stable keeps_scan_repair : eng.
Lemma prunes_scan_low c g ep have floor prov caps live t : ensures prunes (scan_low c g ep have floor prov caps live t).
Proof. unfold scan_low. ens. Qed.

Lemma observe_others c alive ps e have caps live e' : observe c alive ps e = Some ((have, caps, live), e') -> me ∉ map h_id live.
Proof.
  unfold observe. intros (s & e1 & [= <- <-] & Hr)%bind_inv. destruct (existsb _ ps); [destruct (self_share (store e) c) as [n1 c1]|].
  - apply bind_inv in Hr as (l & e2 & H2%verify_holders_others & Hr). apply bind_inv in Hr as (s & e3 & [= <- <-] & Hr). by apply ret_inv in Hr as [[= -> -> ->] _].
  - apply bind_inv in Hr as (l & e2 & H2%verify_holders_others & Hr). apply bind_inv in Hr as (s & e3 & [= <- <-] & Hr).
    destruct (self_share _ c) as [n2 c2]. by apply ret_inv in Hr as [[= -> -> ->] _].
Qed.

Lemma prunes_scan_verdict c g ep have floor prov ps caps live t e r e' :
  me ∉ map h_id live -> scan_verdict c g ep have floor prov ps caps live t e = Some (r, e') -> prunes e e'.
Proof.
  unfold scan_verdict. intros Hl (e0 & e1 & [= <- <-] & Hr)%bind_inv. destruct (may_offload _ _ _ _) eqn:Eo; [by eapply prunes_scan_offload|].
  cbv zeta in Hr. destruct (_ && _) in Hr; [by eapply prunes_scan_shed|]. revert Hr. destruct (_ <? _); [|destruct (_ && _)].
  - match goal with |- ?m e = _ -> _ => assert (H : ensures prunes m) by ens end. apply H.
  - apply prunes_scan_stable.
  - apply prunes_scan_low.
Qed.

Lemma prunes_scan_cid ep alive rp t x : ensures prunes (scan_cid ep alive rp t x).
Proof.
  destruct x as [c providers]. intros e r e' Hr. unfold scan_cid in Hr. apply bind_inv in Hr as ([tomb og] & e0 & [= <- <- <-] & Hr).
  destruct (is_tombstoned _ _); [by apply ret_inv in Hr as [-> ->]|]. destruct (generation _ _) as [g|]; [|by apply ret_inv in Hr as [-> ->]].
  destruct (target_pieces _) as [floor|]; [|done]. apply bind_inv in Hr as ([[have caps] live] & e1 & H1 & Hr). pose proof (observe_others _ _ _ _ _ _ _ _ H1) as Hl. apply keeps_observe in H1.
  apply bind_inv in Hr as (now & e2 & H2%keeps_now_millis & Hr). apply bind_inv in Hr as (m & e3 & [= <- <-] & Hr). apply bind_inv in Hr as (u & e4 & H4%keeps_set_snapshot & Hr).
  apply prunes_scan_verdict in Hr; [|done]. transitivity e4; [|done]. apply same_spares. transitivity (store e1); [done|]. by transitivity (store e2).
Qed.

Lemma prunes_health_scan cs : ensures prunes (health_scan_chunk cs).
Proof. unfold health_scan_chunk. ens. apply ensures_fold; [apply _|]. intros. apply prunes_scan_cid. Qed.

Lemma prunes_reconcile c : ensures prunes (reconcile_cid c).
Proof. unfold reconcile_cid. ens. Qed.

Lemma prunes_distribute_cid ps rep x : ensures prunes (distribute_cid ps rep x).
Proof.
  destruct x as [c providers]. intros e r e' Hr. unfold distribute_cid in Hr. apply bind_inv in Hr as (mine & e0 & [= <- <-] & Hr).
  apply bind_inv in Hr as (og & e0 & [= <- <-] & Hr). destruct (_ <=? 2)%nat; [by apply ret_inv in Hr as [-> ->]|]. destruct (generation _ _) as [g|]; [|by apply ret_inv in Hr as [-> ->]].
  apply bind_inv in Hr as (al & e1 & H1%keeps_is_alive & Hr). destruct (negb al); [apply ret_inv in Hr as [-> ->]; by apply same_spares|].
  apply bind_inv in Hr as (n & e2 & H2 & Hr). apply ret_inv in Hr as [-> ->]. apply spread_loop_spares in H2; [|by rewrite (same_count _ _ c H1)].
  transitivity e1; [by apply same_spares|done].
Qed.

Lemma prunes_distribute : ensures prunes distribute.
Proof. unfold distribute. ens. apply ensures_fold; [apply _|]. intros. apply prunes_distribute_cid. Qed.

Lemma keeps_other_addrs : ensures keeps other_addrs.
Proof. unfold other_addrs. ens. Qed.
#[local] Hint Resolve keeps_other_addrs : eng.

Lemma prunes_pending : ensures prunes distribute_pending.
Proof. unfold distribute_pending. ens. apply ensures_fold; [apply _|]. intros b c. unfold pending_cid. ens. Qed.

Lemma prunes_initial c : ensures prunes (distribute_initial c).
Proof. unfold distribute_initial, spread_initial. ens. Qed.

Lemma keeps_reannounce : ensures keeps reannounce_providers.
Proof. unfold reannounce_providers, announce_all, reannounce_wants. ens. Qed.
#[local] Hint Resolve prunes_health_scan prunes_reconcile prunes_distribute prunes_pending prunes_initial keeps_reannounce : eng.

Lemma prunes_job j : ensures prunes (run_job j).
Proof. destruct j; cbn [run_job]; unfold discard; ens. Qed.

Lemma prunes_jobs js : ensures prunes (run_jobs js).
Proof. induction js as [|j js IH]; cbn [run_jobs]; [apply ensures_ret; apply _|]. pose proof (prunes_job j). ens. Qed.

(** C6: Maintenance takes nothing from a node that it was asked to keep.
    After any sequence of health scans, repairs, sheds, reconciliations,
    spreads, scalings and announcements, whatever the peers answered: an
    object that is pinned or wanted still has its whole content, and keeps
    two of its pieces (or all it had, if fewer); the pieces of any object
    are among those it had; no object appears, and one disappears only if
    it was a whole copy neither pinned nor wanted; wants, bans and eviction
    marks are as they were. *)
Theorem maintenance_spares_pinned_and_wanted (js : list Job) (e e' : Engine) (c : key) (st : CidState) :
  run_jobs js e = Some (tt, e') ->
  wanted (store e') = wanted (store e) /\ tombstones (store e') = tombstones (store e) /\ evicted (store e') = evicted (store e) /\
  (index (store e) !! c = None -> index (store e') !! c = None) /\
  (index (store e) !! c = Some st ->
   match index (store e') !! c with
   | Some st' =>
       has_content st' = has_content st /\ pinned st' = pinned st /\ system st' = system st /\ gen st' = gen st /\
       piece_ids st' ⊆ piece_ids st /\ (Nat.min 2 (size (piece_ids st)) <= size (piece_ids st'))%nat /\
       content_file (store e') c = content_file (store e) c
   | None => has_content st = true /\ pinned st = false /\ is_wanted (store e) c = false
   end).
Proof.
  intros H%prunes_jobs. split_and!; [by apply H..| |]; intros E; pose proof (sp_at _ _ H c) as Hc; unfold spared in Hc; rewrite E in Hc; [done|].
  destruct (index (store e') !! c) as [st'|].
  - destruct Hc as (E1 & E2 & E3 & E4). unfold touch, st_pieces in E1. cbn in E1. injection E1 as -> -> -> _ ->. by split_and!.
  - destruct Hc as (-> & -> & Hw). split_and!; try done. by apply bool_decide_eq_false.
Qed.

(** ** When a piece is shed *)

(** The holder of record [p] answered a probe for [c] with the count [a]. *)
Definition answered (c : key) (p : ProviderRecord PeerAddr) (a : AvailabilityAck) : Prop :=
  exists n, request_at n (pr_addr p) (M_AvailabilityProbe (mk_AvailabilityProbe c)) = Some (M_AvailabilityAck a) /\ aa_has a = true.

(** A holder that says it has pieces to spare. *)
Definition spare (a : AvailabilityAck) : Prop := 2 < aa_piece_count a /\ aa_pinned a = false.

#[local] Instance spare_dec a : Decision (spare a).
Proof. unfold spare. apply _. Defined.

(** The confirmations are the answers of some of the other records in the
    census, each record asked once. *)
Lemma confirmed_answers c alive ps e v e' :
  confirmed c alive ps e = Some (v, e') ->
  exists acks : list (ProviderRecord PeerAddr * AvailabilityAck),
    map fst acks `sublist_of` ps /\
    Forall (fun x => pr_node_id x.1 <> me /\ in_census alive (pr_node_id x.1) = true /\ answered c x.1 x.2) acks /\
    sum_Z (map (fun x => x.1.2) v) = sum_Z (map (fun x => aa_piece_count x.2) acks) /\
    map (fun x => x.1.1) (filter (fun x : key * Z * bool => 2 < x.1.2 /\ x.2 = false) v) =
    map (fun x => pr_node_id x.1) (filter (fun x => spare x.2) acks).
Proof.
  unfold confirmed. revert v e. induction ps as [|p ps IH]; intros v e Hr.
  { cbn in Hr. apply ret_inv in Hr as [-> ->]. exists []. by split_and!. }
  rewrite list.filter_cons in Hr. destruct (decide _) as [[Hme Hce]|_].
  2: { apply IH in Hr as (acks & Hs & ?). exists acks. split; [by apply sublist_cons|done]. }
  cbn [for_each] in Hr. apply bind_inv in Hr as (x & e1 & H1 & Hr). apply bind_inv in Hr as (xs & e2 & H2 & Hr). apply ret_inv in Hr as [-> ->].
  apply IH in H2 as (acks & Hsub & Ha & Es & Ef). apply bind_inv in H1 as (o & e3 & H3 & H1). apply ret_inv in H1 as [-> ->].
  unfold probe_availability in H3. apply bind_inv in H3 as (m & e4 & H4 & H3). apply ret_inv in H3 as [-> ->]. injection H4 as <- <-.
  assert (Hskip : forall k : key, exists acks : list (ProviderRecord PeerAddr * AvailabilityAck),
    map fst acks `sublist_of` p :: ps /\ Forall (fun x => pr_node_id x.1 <> me /\ in_census alive (pr_node_id x.1) = true /\ answered c x.1 x.2) acks /\
    sum_Z (map (fun x => x.1.2) ((k, 0, false) :: xs)) = sum_Z (map (fun x => aa_piece_count x.2) acks) /\
    map (fun x => x.1.1) (filter (fun x : key * Z * bool => 2 < x.1.2 /\ x.2 = false) ((k, 0, false) :: xs)) = map (fun x => pr_node_id x.1) (filter (fun x => spare x.2) acks)).
  { intros k. exists acks. split_and!; [by apply sublist_cons|done|unfold sum_Z in *; cbn in *; lia|]. rewrite filter_cons_False; [done|cbn; lia]. }
  destruct (request_at _ _ _) as [m|] eqn:Em; [|apply Hskip]. destruct m; try apply Hskip. match goal with p0 : AvailabilityAck |- _ => rename p0 into a end. destruct (aa_has a) eqn:Eh; [|apply Hskip].
  exists ((p, a) :: acks). cbn [map fst snd]. split_and!; [by apply sublist_skip|apply Forall_cons_iff; split; [|done]; split_and!; [done|done|by eexists]|unfold sum_Z in *; cbn in *; lia|].
  rewrite !list.filter_cons. cbn [fst snd]. unfold spare at 1. destruct (decide (2 < aa_piece_count a /\ aa_pinned a = false)); cbn [map]; [|done]. by rewrite Ef.
Qed.

Lemma sum_counted (v : list (key * Z * bool)) :
  sum_Z (map (fun x => x.1.2) (filter (fun x : key * Z * bool => ~ (x.1.2 = 0 /\ x.2 = false)) v)) = sum_Z (map (fun x => x.1.2) v).
Proof.
  induction v as [|x v IH]; [done|]. rewrite list.filter_cons. destruct (decide _) as [_|H]; cbn [map]; unfold sum_Z in *; cbn; [lia|].
  destruct (decide (x.1.2 = 0 /\ x.2 = false)) as [[E _]|]; [lia|done].
Qed.

Lemma spare_counted (v : list (key * Z * bool)) :
  filter (fun x : key * Z * bool => 2 < x.1.2 /\ x.2 = false) (filter (fun x : key * Z * bool => ~ (x.1.2 = 0 /\ x.2 = false)) v) =
  filter (fun x : key * Z * bool => 2 < x.1.2 /\ x.2 = false) v.
Proof. rewrite list_filter_filter_l; [done|]. intros x [? ?] [? ?]. lia. Qed.


(** ** How much a repair sends *)

Lemma attempts_bound c g plan : forall tasks landed e n e', repair_attempts c g plan tasks landed e = Some (n, e') -> (landed <= n <= landed + tasks)%nat.
Proof.
  induction plan as [|a plan IH]; intros [|tasks] landed e n e' Hr; cbn [repair_attempts] in Hr; try (apply ret_inv in Hr as [-> _]; lia).
  apply bind_inv in Hr as (gr & e1 & _ & Hr). destruct (gr =? 0); [by apply IH in Hr|]. apply bind_inv in Hr as (op & e2 & _ & Hr).
  destruct op as [p|]; [|apply IH in Hr; lia]. apply bind_inv in Hr as (r & e3 & _ & Hr). destruct (is_ok r); apply IH in Hr; lia.
Qed.

Lemma repair_one_bound c g live d e n e' : 0 < d -> repair_one c g live d e = Some (n, e') -> (n <= REPAIR_BATCH)%nat /\ Z.of_nat n <= d.
Proof.
  unfold repair_one. intros Hd (targets & e1 & _ & Hr)%bind_inv. case_bool_decide; [apply ret_inv in Hr as [-> _]; lia|]. apply attempts_bound in Hr. lia.
Qed.

(** A repair sends no more than is missing.  The pieces a run of
    [repair_cid] lands are at most one batch and at most what the object
    lacks: it lands any only when the object is not banned, its live
    records and our own pieces are fewer than the floor, and then those
    records, our pieces and the landed ones together do not exceed the
    floor. *)
Theorem repair_lands_at_most_the_deficit (c : key) (e : Engine) (n : nat) (e' : Engine) :
  repair_cid c e = Some (n, e') ->
  same (store e) (store e') /\ (n <= REPAIR_BATCH)%nat /\
  ((0 < n)%nat -> is_tombstoned (store e) c = false /\
   exists g floor alive providers live e1 e2, generation (store e) c = Some g /\ target_pieces (g_k g) = Some floor /\
     live_records alive providers e1 = Some (live, e2) /\
     Z.of_nat (piece_count (store e) c) + sum_Z (map h_count live) + Z.of_nat n <= floor).
Proof.
  intros Hr. split; [by eapply keeps_repair_cid|]. assert (H0 : forall P : Prop, (0 <= REPAIR_BATCH)%nat /\ ((0 < 0)%nat -> P)) by (intros P; split; lia).
  unfold repair_cid in Hr. apply bind_inv in Hr as (tomb & e0 & [= <- <-] & Hr). destruct (is_tombstoned _ _) eqn:Et; [apply ret_inv in Hr as [-> _]; apply H0|].
  apply bind_inv in Hr as (og & e0 & [= <- <-] & Hr). destruct (generation _ _) as [g|] eqn:Eg; [|apply ret_inv in Hr as [-> _]; apply H0].
  apply bind_inv in Hr as (ts & e1 & H1%keeps_hlc & Hr). apply bind_inv in Hr as (providers & e2 & H2%keeps_resolve & Hr).
  apply bind_inv in Hr as (alive & e3 & H3%keeps_alive_peers & Hr). apply bind_inv in Hr as (live & e4 & H4 & Hr). pose proof (keeps_live_records _ _ _ _ _ H4) as K4.
  apply bind_inv in Hr as (s & e5 & [= <- <-] & Hr). destruct (target_pieces (g_k g)) as [floor|] eqn:Ef; [|done].
  assert (K : same (store e) (store e4)) by (transitivity (store e3); [|done]; transitivity (store e1); [done|]; by transitivity (store e2)). rewrite !(same_count _ _ c K) in Hr.
  apply bind_inv in Hr as (w & e5 & H5 & Hr). destruct (Z.leb_spec floor (Z.of_nat (piece_count (store e) c) + sum_Z (map h_count live))) as [Hf|Hf].
  { apply ret_inv in H5 as [-> ->]. cbn in Hr. apply ret_inv in Hr as [-> _]. apply H0. }
  destruct (negb w); [apply ret_inv in Hr as [-> _]; apply H0|]. apply bind_inv in Hr as (s & e6 & [= <- <-] & Hr).
  destruct (_ && _) in Hr; [apply ret_inv in Hr as [-> _]; apply H0|]. destruct (_ && _) in Hr; [apply ret_inv in Hr as [-> _]; apply H0|].
  apply repair_one_bound in Hr as [B1 B2]; [|unfold sat_sub; lia]. split; [done|]. intros _. split; [done|]. exists g, floor, alive, providers, live, e3, e4. split_and!; try done.
  unfold sat_sub in B2. lia.
Qed.
End jobs.
