(* ===== verification/ObjBand.v ===== *)
(** The verdicts of a health scan ([ObjScan]): on which side of the durability
    band a scan acts, the sets of verdicts it keeps, and the epoch of its
    elections. *)

From S2P Require Import Prelude Crypto Pager Cipher ObjManifest Wire Gf Linear Erasure ErasureDecode VTags Token PieceStore ObjCore ObjLogic ObjServe ObjScan ObjMaint.

Open Scope Z_scope.
Open Scope zeph_scope.

(** ** Runs that keep the verdicts and ask for no repair *)

Definition asks_repair (x : Sent) : bool := match x with RepairNeeded _ | Work _ | Spawned _ => true | _ => false end.
Definition requests (e : Engine) : list Sent := filter (fun x => asks_repair x = true) (sent e).
Definition verdict_sets (e : Engine) : gset key * gset key * gset key := (at_risk_ids e, fading_ids e, surplus_ids e).

Definition steady : relation Engine := fun e e' => verdict_sets e' = verdict_sets e.
Definition quiet : relation Engine := fun e e' => verdict_sets e' = verdict_sets e /\ requests e' = requests e.

#[export] Instance steady_preorder : PreOrder steady.
Proof. split; [done|]. unfold steady. intros ??? -> ->. done. Qed.
#[export] Instance quiet_preorder : PreOrder quiet.
Proof. split; [done|]. intros ??? [E1 E2] [F1 F2]. split; congruence. Qed.

Lemma quiet_steady {A} (m : Eng A) : ensures quiet m -> ensures steady m.
Proof. intros Hm e a e' Hr. by eapply Hm in Hr as [? _]. Qed.

Lemma quiet_tick : ensures quiet tick.
Proof. by intros e a e' [= _ <-]. Qed.
Lemma quiet_draw {A} (f : tape -> option (A * tape)) : ensures quiet (draw f).
Proof. intros e a e'. unfold draw. destruct (f (rng e)) as [[x t]|]; [|done]. by intros [= _ <-]. Qed.
Lemma quiet_with_store {A} (f : Store -> A * Store) : ensures quiet (with_store f).
Proof. intros e a e'. unfold with_store. destruct (f (store e)). by intros [= _ <-]. Qed.
Lemma quiet_modify_store f : ensures quiet (modify_store f).
Proof. by intros e a e' [= _ <-]. Qed.
Lemma quiet_set_health d : ensures quiet (set_health d).
Proof. by intros e a e' [= _ <-]. Qed.
Lemma quiet_set_snapshot d : ensures quiet (set_snapshot d).
Proof. by intros e a e' [= _ <-]. Qed.
Lemma quiet_set_alive d : ensures quiet (set_alive d).
Proof. by intros e a e' [= _ <-]. Qed.
Lemma quiet_set_liveness d : ensures quiet (set_liveness d).
Proof. by intros e a e' [= _ <-]. Qed.
Lemma steady_send x : ensures steady (send x).
Proof. by intros e a e' [= _ <-]. Qed.
#[export] Hint Resolve quiet_steady quiet_tick quiet_draw quiet_with_store quiet_modify_store quiet_set_health quiet_set_snapshot quiet_set_alive quiet_set_liveness steady_send : eng.

Section band.
Context {B3 : Blake3} {XF : Xof} {UM : Umbral} {Net : ObjNet}.
Context {PG : Postcard Generation} {PV : Postcard VTags}.

Lemma quiet_serve c ex mx : ensures quiet (s_serve c ex mx).
Proof. unfold s_serve, nanos. ens. intros e r e'. unfold lift. destruct (serve_pieces _ _ _ _ _ _) as [[[? ?] ?]|]; [|done]. by intros [= _ <-]. Qed.
Lemma quiet_instant : ensures quiet instant.
Proof. unfold instant. ens. Qed.
Lemma quiet_now_millis : ensures quiet now_millis.
Proof. unfold now_millis, hlc. ens. Qed.
Lemma quiet_request p m : ensures quiet (request p m).
Proof. unfold request. ens. Qed.
Lemma quiet_resolve c : ensures quiet (resolve c).
Proof. unfold resolve. ens. Qed.
Lemma quiet_peers : ensures quiet peers.
Proof. unfold peers. ens. Qed.
#[local] Hint Resolve quiet_serve quiet_instant quiet_now_millis quiet_request quiet_resolve quiet_peers : eng.

Lemma quiet_record c x y n d a : ensures quiet (record_health c x y n d a).
Proof. unfold record_health. ens. Qed.
Lemma quiet_push p c g x cl ch : ensures quiet (push_piece p c g x cl ch).
Proof. unfold push_piece. ens. Qed.
Lemma quiet_is_alive c b : ensures quiet (is_alive c b).
Proof. unfold is_alive. ens. Qed.
Lemma quiet_shed_one c : ensures quiet (shed_one c).
Proof. unfold shed_one, nanos. ens. Qed.
Lemma quiet_alive_peers : ensures quiet alive_peers.
Proof. unfold alive_peers, refresh_alive. ens. Qed.
Lemma quiet_mint c g : ensures quiet (mint_piece c g).
Proof. unfold mint_piece, nanos. ens. intros e r e'. unfold lift. destruct (mint_from_content _ _ _ _) as [[[? ?] ?]|]; [|done]. cbn. by intros [= _ <-]. Qed.
Lemma quiet_offer p cl c i n : ensures quiet (offer p cl c i n).
Proof. unfold offer. ens. Qed.
#[local] Hint Resolve quiet_record quiet_push quiet_is_alive quiet_shed_one quiet_alive_peers quiet_mint quiet_offer : eng.

Lemma quiet_move_loop fuel c g ps : forall belief un mine n, ensures quiet (move_loop fuel c g ps belief un mine n).
Proof. induction fuel as [|fuel IH]; intros; cbn [move_loop]; unfold move_piece, nanos; ens. Qed.
#[local] Hint Resolve quiet_move_loop : eng.
Lemma quiet_rebalance c g prov ps : ensures quiet (rebalance_cid c g prov ps).
Proof. unfold rebalance_cid. ens. Qed.
Lemma quiet_attempts c g plan : forall tasks landed, ensures quiet (repair_attempts c g plan tasks landed).
Proof. induction plan as [|a plan IH]; intros [|tasks] landed; cbn [repair_attempts]; ens. Qed.
#[local] Hint Resolve quiet_rebalance quiet_attempts : eng.
Lemma quiet_repair_one c g live d : ensures quiet (repair_one c g live d).
Proof. unfold repair_one, repair_targets. ens. Qed.
Lemma quiet_observe c a ps : ensures quiet (observe c a ps).
Proof. unfold observe, verify_holders, verify_holder, probe_availability. ens. Qed.
#[local] Hint Resolve quiet_repair_one quiet_observe : eng.

(** ** What each branch adds to the tally *)

Definition verdicts (t : Tally) : gset key * gset key * gset key := (t_risk t, t_fading t, t_surplus t).

(** The report's repair and shed counts. *)
Definition acts (t : Tally) : nat * nat := (repaired (t_report t), degraded (t_report t)).

Lemma quiet_offload c have floor live t : ensures quiet (scan_offload c have floor live t).
Proof. unfold scan_offload. ens. Qed.
Lemma quiet_shed c ep have floor live t : ensures quiet (scan_shed c ep have floor live t).
Proof. unfold scan_shed. ens. Qed.
Lemma quiet_stable c g have floor prov ps live t : ensures quiet (scan_stable c g have floor prov ps live t).
Proof. unfold scan_stable. ens. Qed.
Lemma steady_repair c g ep have floor caps live t : ensures steady (scan_repair c g ep have floor caps live t).
Proof. unfold scan_repair. ens. Qed.
#[local] Hint Resolve quiet_offload quiet_shed quiet_stable steady_repair : eng.
Lemma steady_low c g ep have floor prov caps live t : ensures steady (scan_low c g ep have floor prov caps live t).
Proof. unfold scan_low. ens. Qed.
#[local] Hint Resolve steady_low : eng.
Lemma steady_verdict c g ep have floor prov ps caps live t : ensures steady (scan_verdict c g ep have floor prov ps caps live t).
Proof. unfold scan_verdict. ens. Qed.
#[local] Hint Resolve steady_verdict : eng.
Lemma steady_scan_cid ep alive rp t x : ensures steady (scan_cid ep alive rp t x).
Proof. unfold scan_cid. ens. Qed.

Lemma offload_tally c have floor live t e t' e' : scan_offload c have floor live t e = Some (t', e') -> verdicts t' = verdicts t /\ acts t' = acts t.
Proof. unfold scan_offload. intros (u & e1 & _ & Hr)%bind_inv. apply bind_inv in Hr as (u' & e2 & _ & Hr). by apply ret_inv in Hr as [-> _]. Qed.

Lemma shed_tally c ep have floor live t e t' e' :
  scan_shed c ep have floor live t e = Some (t', e') ->
  verdicts t' = (t_risk t, t_fading t, {[c]} ∪ t_surplus t) /\ repaired (t_report t') = repaired (t_report t).
Proof.
  unfold scan_shed. intros (s & e1 & _ & Hr)%bind_inv. apply bind_inv in Hr as (sh & e2 & _ & Hr). apply bind_inv in Hr as (u & e3 & _ & Hr).
  apply ret_inv in Hr as [-> _]. by destruct sh.
Qed.

Lemma stable_tally c g have floor prov ps live t e t' e' : scan_stable c g have floor prov ps live t e = Some (t', e') -> verdicts t' = verdicts t /\ acts t' = acts t.
Proof.
  unfold scan_stable. intros (b & e1 & _ & Hr)%bind_inv. apply bind_inv in Hr as (m & e2 & _ & Hr). apply bind_inv in Hr as (n & e3 & _ & Hr).
  apply bind_inv in Hr as (u & e4 & _ & Hr). by apply ret_inv in Hr as [-> _].
Qed.

Lemma repair_tally c g ep have floor caps live t e t' e' :
  scan_repair c g ep have floor caps live t e = Some (t', e') -> verdicts t' = verdicts t /\ degraded (t_report t') = degraded (t_report t).
Proof.
  unfold scan_repair. intros (s & e1 & _ & Hr)%bind_inv. destruct (_ && _) in Hr; [apply bind_inv in Hr as (u & e2 & _ & Hr); by apply ret_inv in Hr as [-> _]|].
  destruct (_ && _) in Hr; [apply bind_inv in Hr as (u & e2 & _ & Hr); by apply ret_inv in Hr as [-> _]|]. apply bind_inv in Hr as (u & e2 & _ & Hr). destruct work_wired.
  - apply bind_inv in Hr as (u1 & e3 & _ & Hr). apply bind_inv in Hr as (u2 & e4 & _ & Hr). by apply ret_inv in Hr as [-> _].
  - apply bind_inv in Hr as (n & e3 & _ & Hr). apply bind_inv in Hr as (u2 & e4 & _ & Hr). by apply ret_inv in Hr as [-> _].
Qed.

Lemma low_tally c g ep have floor prov caps live t e t' e' :
  scan_low c g ep have floor prov caps live t e = Some (t', e') ->
  (verdicts t' = ({[c]} ∪ t_risk t, t_fading t, t_surplus t) \/ verdicts t' = (t_risk t, {[c]} ∪ t_fading t, t_surplus t)) /\
  degraded (t_report t') = degraded (t_report t).
Proof.
  unfold scan_low. intros (al & e1 & _ & Hr)%bind_inv. destruct (negb al).
  - apply bind_inv in Hr as (u & e2 & _ & Hr). apply ret_inv in Hr as [-> _]. split; [by right|done].
  - apply repair_tally in Hr as [E1 E2]. split; [by left|done].
Qed.

Definition band_low (floor : Z) : Z := sat_sub floor (delta_of floor).
Definition band_high (floor : Z) : Z := floor + delta_of floor.

Lemma delta_pos floor : 2 <= delta_of floor.
Proof. unfold delta_of. lia. Qed.

Lemma band_below floor have : 0 < floor -> have < band_low floor -> have < floor.
Proof. unfold band_low, sat_sub. pose proof (delta_pos floor). lia. Qed.

(** ** Who acts *)

Definition frozen : relation Engine := fun e e' => store e' = store e.

#[local] Instance frozen_preorder : PreOrder frozen.
Proof. split; [done|]. unfold frozen. intros ??? -> ->. done. Qed.

Lemma frozen_tick : ensures frozen tick.
Proof. by intros e a e' [= _ <-]. Qed.
Lemma frozen_set_health d : ensures frozen (set_health d).
Proof. by intros e a e' [= _ <-]. Qed.
#[local] Hint Resolve frozen_tick frozen_set_health : eng.
Lemma frozen_is_alive c b : ensures frozen (is_alive c b).
Proof. unfold is_alive, instant. ens. Qed.
Lemma frozen_record c x y n d a : ensures frozen (record_health c x y n d a).
Proof. unfold record_health, now_millis, hlc. ens. Qed.

Lemma keeps_repair_branch c g ep have floor caps live t : ensures keeps (scan_repair c g ep have floor caps live t).
Proof. unfold scan_repair. ens. Qed.

(** The holders with a piece to spare, ourselves last. *)
Definition shedders (s : Store) (c : key) (live : list Holder) : list key :=
  map h_id (filter (fun h : Holder => 2 < h_count h /\ h_pinned h = false) live) ++
  (if (2 <? piece_count s c)%nat && negb (is_pinned s c) then [me] else []).

(** We are the last holder of the content, or the one to rebuild it. *)
Definition sole_copy (s : Store) (c : key) (caps : list key) : bool :=
  negb (self_capable s c) && bool_decide (caps = []) && holds_content s c.

(** [k] does not outscore us for [c] in the epoch. *)
Definition outscored (c : key) (ep : Z) (k : key) : Prop := ole (rendezvous_score c ep k) (rendezvous_score c ep me).

(** A scan in the surplus branch takes at most one piece, only if we have one
    to spare and no other holder with one to spare outscores us, and counts
    it when it does. *)
Lemma shed_by_elected c ep have floor live t e t' e' :
  me ∉ map h_id live -> scan_shed c ep have floor live t e = Some (t', e') ->
  same (store e) (store e') /\ degraded (t_report t') = degraded (t_report t) \/
  Forall (outscored c ep) (shedders (store e) c live) /\ (2 < piece_count (store e) c)%nat /\ is_pinned (store e) c = false /\
  (piece_count (store e) c <= S (piece_count (store e') c))%nat /\ (degraded (t_report t') <= S (degraded (t_report t)))%nat.
Proof.
  unfold scan_shed. intros Hl (s & e1 & [= <- <-] & Hr)%bind_inv. fold (shedders (store e) c live) in Hr.
  apply bind_inv in Hr as (sh & e2 & H2 & Hr). apply bind_inv in Hr as (u & e3 & H3%frozen_record & Hr). apply ret_inv in Hr as [-> ->].
  unfold frozen in H3. destruct (elected c ep _) eqn:Ee; [|apply ret_inv in H2 as [-> ->]; left; rewrite H3; by split].
  right. pose proof (elected_elem _ _ _ Ee) as Hme. apply elem_of_app in Hme as [(h & Eh & [_ Hin]%list_elem_of_filter)%list_elem_of_fmap|Hme].
  { destruct Hl. rewrite Eh. apply list_elem_of_fmap. by eexists. }
  destruct (_ && _) eqn:Eg in Hme; [|by apply not_elem_of_nil in Hme]. apply andb_true_iff in Eg as [Eg%Nat.ltb_lt Ep%negb_true_iff].
  rewrite H3. apply shed_one_spares in H2 as [_ Hc]; [|done]. split_and!; try done.
  - apply list.Forall_forall. intros k. by apply elected_top.
  - destruct sh; cbn; lia.
Qed.

(** Below the band nothing is taken away, and only a node able to repair
    that no abler holder outscores asks for a repair or repairs. *)
Lemma repair_by_elected c g ep have floor caps live t e t' e' :
  scan_repair c g ep have floor caps live t e = Some (t', e') ->
  same (store e) (store e') /\
  (requests e' = requests e /\ repaired (t_report t') = repaired (t_report t) \/
   content_restorer (store e) c (g_k g) have live = true \/
   (self_capable (store e) c = true \/ sole_copy (store e) c caps = true) /\ Forall (outscored c ep) caps).
Proof.
  intros Hr. split; [by eapply keeps_repair_branch|]. unfold scan_repair in Hr. apply bind_inv in Hr as (s & e1 & [= <- <-] & Hr). fold (sole_copy (store e) c caps) in Hr.
  assert (Hq : forall m, ensures quiet (record_health c have floor (length live) under m)) by (intros; apply quiet_record).
  destruct (_ && _) eqn:E1 in Hr.
  { apply bind_inv in Hr as (u & e2 & [_ Q]%Hq & Hr). apply ret_inv in Hr as [-> ->]. by left. }
  destruct (_ && _) eqn:E2 in Hr.
  { apply bind_inv in Hr as (u & e2 & [_ Q]%Hq & Hr). apply ret_inv in Hr as [-> ->]. by left. }
  right. destruct (content_restorer (store e) c (g_k g) have live); [by left|right]. cbn [negb] in E1, E2. rewrite andb_true_r in E1, E2.
  rewrite orb_false_r in E2. apply negb_false_iff in E2. split.
  - apply andb_false_iff in E1 as [?%negb_false_iff|?%negb_false_iff]; auto.
  - apply list.Forall_forall. intros k Hk. eapply elected_top; [exact E2|]. destruct (sole_copy _ _ _); [apply elem_of_app; by left|done].
Qed.


(** ** The sets of verdicts *)

Definition exclusive (x : gset key * gset key * gset key) : Prop := x.1.1 ## x.1.2 /\ x.1.1 ## x.2 /\ x.1.2 ## x.2.
Definition within (X : gset key) (x : gset key * gset key * gset key) : Prop := x.1.1 ⊆ X /\ x.1.2 ⊆ X /\ x.2 ⊆ X.

Lemma scan_verdict_one c g ep have floor prov ps caps live t e t' e' :
  scan_verdict c g ep have floor prov ps caps live t e = Some (t', e') ->
  verdicts t' = verdicts t \/ verdicts t' = ({[c]} ∪ t_risk t, t_fading t, t_surplus t) \/
  verdicts t' = (t_risk t, {[c]} ∪ t_fading t, t_surplus t) \/ verdicts t' = (t_risk t, t_fading t, {[c]} ∪ t_surplus t).
Proof.
  unfold scan_verdict. intros (e0 & e1 & [= <- <-] & Hr)%bind_inv. destruct (may_offload _ _ _ _); [apply offload_tally in Hr as [? _]; by left|]. cbv zeta in Hr.
  destruct (_ && _) in Hr; [apply shed_tally in Hr as [? _]; by right; right; right|]. destruct (_ <? _).
  { apply bind_inv in Hr as (u & e1 & _ & Hr). apply ret_inv in Hr as [-> _]. by left. }
  destruct (_ && _) in Hr; [apply stable_tally in Hr as [? _]; by left|]. apply low_tally in Hr as [[?|?] _]; [by right; left|by right; right; left].
Qed.

Lemma scan_cid_one (ep : Z) (alive : option (gset key)) (rp : list (key * PeerAddr)) (t : Tally) (c : key) (prov : list (ProviderRecord PeerAddr)) (e : Engine) (t' : Tally) (e' : Engine) (X : gset key) :
  scan_cid ep alive rp t (c, prov) e = Some (t', e') -> c ∉ X -> within X (verdicts t) -> exclusive (verdicts t) ->
  within ({[c]} ∪ X) (verdicts t') /\ exclusive (verdicts t').
Proof.
  intros Hr Hc Hw He. assert (Hv : verdicts t' = verdicts t \/ verdicts t' = ({[c]} ∪ t_risk t, t_fading t, t_surplus t) \/
    verdicts t' = (t_risk t, {[c]} ∪ t_fading t, t_surplus t) \/ verdicts t' = (t_risk t, t_fading t, {[c]} ∪ t_surplus t)).
  { unfold scan_cid in Hr. apply bind_inv in Hr as ([tomb og] & e0 & _ & Hr). destruct tomb; [apply ret_inv in Hr as [-> _]; by left|].
    destruct og as [g|]; [|apply ret_inv in Hr as [-> _]; by left]. destruct (target_pieces _); [|done]. apply bind_inv in Hr as ([[have caps] live] & e1 & _ & Hr).
    apply bind_inv in Hr as (now & e2 & _ & Hr). apply bind_inv in Hr as (m & e3 & _ & Hr). apply bind_inv in Hr as (u & e4 & _ & Hr). by apply scan_verdict_one in Hr. }
  unfold within, exclusive, verdicts in *. cbn in *. destruct Hw as (W1 & W2 & W3), He as (E1 & E2 & E3).
  destruct Hv as [Hv|[Hv|[Hv|Hv]]]; injection Hv as -> -> ->; split; split_and!; set_solver.
Qed.

Lemma scan_fold_exclusive ep alive rp l : forall t (e : Engine) (t' : Tally) (e' : Engine) (X : gset key),
  fold_eng (scan_cid ep alive rp) l t e = Some (t', e') -> NoDup (map fst l) -> Forall (fun x => x.1 ∉ X) l ->
  within X (verdicts t) -> exclusive (verdicts t) -> exclusive (verdicts t').
Proof.
  induction l as [|[c prov] l IH]; intros t e t' e' X Hr Hn Hx Hw He; cbn [fold_eng] in Hr; [by apply ret_inv in Hr as [-> _]|].
  apply bind_inv in Hr as (t1 & e1 & H1 & Hr). cbn in Hn. apply list.NoDup_cons in Hn as [Hc Hn]. apply Forall_cons_iff in Hx as [Hcx Hx].
  destruct (scan_cid_one _ _ _ _ _ _ _ _ _ X H1 Hcx Hw He) as [W1 E1]. eapply (IH t1 e1 t' e' ({[c]} ∪ X)); try done.
  apply list.Forall_forall. intros y Hy. rewrite list.Forall_forall in Hx. specialize (Hx y Hy). assert (y.1 <> c) by (intros <-; apply Hc; by apply list_elem_of_fmap_2). set_solver.
Qed.

Lemma elem_of_roll cs chunk ids x : x ∈ roll cs chunk ids <-> x ∈ cs /\ x ∈ chunk \/ x ∉ cs /\ x ∈ ids.
Proof.
  unfold roll. revert ids. induction cs as [|c cs IH]; intros ids; cbn; [split; [intros H; right; split; [apply not_elem_of_nil|done]|intros [[H _]|[_ H]]; [by apply not_elem_of_nil in H|done]]|].
  rewrite IH, not_elem_of_cons, elem_of_cons. destruct (decide (x = c)) as [E|Hne]; case_bool_decide; destruct (decide (x ∈ cs)); set_solver.
Qed.

Lemma resolved_keys cs e l e' : for_each (fun c => r ← resolve c; mret (c, r)) cs e = Some (l, e') -> map fst l = cs.
Proof.
  revert e l e'. induction cs as [|c cs IH]; intros e l e' Hr; cbn [for_each] in Hr; [by apply ret_inv in Hr as [-> _]|].
  apply bind_inv in Hr as (x & e1 & H1 & Hr). apply bind_inv in Hr as (xs & e2 & H2 & Hr). apply ret_inv in Hr as [-> _].
  apply bind_inv in H1 as (r & e3 & _ & H1). apply ret_inv in H1 as [-> _]. cbn. by rewrite (IH _ _ _ H2).
Qed.

(** At risk, fading and surplus exclude each other.  If no object carries
    two of the three verdicts, none does after a scan of a chunk of distinct
    objects; the verdicts of objects outside the chunk stand, and the report
    counts the three sets over all objects. *)
Theorem scan_verdicts_exclusive (cs : list key) (e : Engine) (r : HealthReport) (e' : Engine) :
  NoDup cs -> health_scan_chunk cs e = Some (r, e') -> exclusive (verdict_sets e) ->
  exclusive (verdict_sets e') /\
  (forall c, c ∉ cs -> (is_at_risk e' c, is_fading e' c, is_surplus e' c) = (is_at_risk e c, is_fading e c, is_surplus e c)) /\
  (at_risk r = size (at_risk_ids e') /\ fading r = size (fading_ids e') /\ surplus r = size (surplus_ids e') /\ scanned r = size (content_cids (store e'))).
Proof.
  intros Hn Hr He. unfold health_scan_chunk in Hr. assert (S1 : forall f : key -> Eng (key * list (ProviderRecord PeerAddr)), (forall c, ensures steady (f c)) -> ensures steady (for_each f cs)) by (intros; by apply ensures_for_each; [apply _|]).
  apply bind_inv in Hr as (ts & e1 & H1 & Hr). injection H1 as <- <-. apply bind_inv in Hr as (l & e2 & H2 & Hr). pose proof (resolved_keys _ _ _ _ H2) as El. apply S1 in H2; [|intros; ens].
  apply bind_inv in Hr as (alive & e3 & H3 & Hr). apply quiet_alive_peers in H3 as [H3 _]. apply bind_inv in Hr as (rp & e4 & H4 & Hr). apply quiet_peers in H4 as [H4 _].
  apply bind_inv in Hr as (t & e5 & H5 & Hr). pose proof (scan_fold_exclusive _ _ _ _ _ _ _ _ ∅ H5) as Hx. apply (ensures_fold steady) in H5; [|intros; apply steady_scan_cid].
  assert (Ev : verdict_sets e5 = verdict_sets e) by (unfold steady in *; rewrite H5, H4, H3, H2; done).
  destruct Hx as (X1 & X2 & X3); [by rewrite El|apply list.Forall_forall; intros; apply not_elem_of_empty|done..|].
  apply bind_inv in Hr as ([[ar fd] su] & e6 & H6 & Hr). injection H6 as <- <- <- <-. apply bind_inv in Hr as (u & e7 & H7 & Hr). injection H7 as _ <-.
  apply bind_inv in Hr as (held & e8 & H8 & Hr). injection H8 as <- <-. apply ret_inv in Hr as [-> ->]. injection Ev as Ea Ef Es. unfold verdict_sets in He. rewrite <- Ea, <- Ef, <- Es in He.
  destruct He as (D1 & D2 & D3). cbn in *. split; [|split; [|done]].
  - unfold exclusive, verdict_sets. cbn. split_and!; intros x; rewrite !elem_of_roll; set_solver.
  - intros c Hc. unfold is_at_risk, is_fading, is_surplus. cbn. rewrite <- Ea, <- Ef, <- Es. f_equal; [f_equal|]; apply bool_decide_ext; rewrite elem_of_roll; set_solver.
Qed.

(** ** The epoch of an election *)

(** The epoch is computed from the raw timestamp, whose low sixteen bits are
    the logical counter: what is meant to last [HEALTH_EPOCH_MS] milliseconds
    lasts less than one.  Two readings of one counter value a millisecond or
    more apart are never of the same epoch. *)
Theorem health_epoch_shorter_than_a_millisecond (m1 m2 l : Z) :
  m1 < m2 -> epoch_of (Z.shiftl m1 16 + l) < epoch_of (Z.shiftl m2 16 + l).
Proof.
  unfold epoch_of, HEALTH_EPOCH_MS. rewrite !Z.shiftl_mul_pow2 by lia. intros H. change (2 ^ 16) with 65536.
  assert ((m1 * 65536 + l) / 30000 + 1 <= (m2 * 65536 + l) / 30000); [|lia]. rewrite <- (Z.div_add _ 1 30000) by lia. apply Z.div_le_mono; lia.
Qed.
End band.
