(* ===== verification/ObjIngest.v ===== *)
(** Taking in pushed pieces ([ingest] and [mint_piece] of [ObjServe]): what an
    accepted and a refused push leave in the store, and that a piece minted
    by a node that holds the content is accepted elsewhere. *)

From S2P Require Import Prelude Crypto Pager Cipher ObjManifest Wire Gf Linear Erasure ErasureDecode VTags Token PieceStore ObjCore ObjLogic ObjFetch ObjRebuild ObjServe ObjScan ObjMaint.

Open Scope Z_scope.
Open Scope zeph_scope.

Section ingest.
Context {B3 : Blake3} {XF : Xof} {UM : Umbral} {Net : ObjNet}.
Context {PG : Postcard Generation} {PV : Postcard VTags}.

Definition pushed_gen (push : PiecePush) : Generation := mk_gen (pp_k push) (pp_piece_len push) (pp_total_len push) (pp_vtags push).

(** Everything of [c] but its pieces, the mark of system data and its meta
    file stands; nothing else changes. *)
Record piece_added (s s' : Store) (c : key) (g : Generation) (p : CodedPiece) : Prop := {
  pa_others : others_same c s s';
  pa_tombstones : tombstones s' = tombstones s;
  pa_wanted : wanted s' = wanted s;
  pa_content : content_file s' c = content_file s c;
  pa_flags : holds_content s' c = holds_content s c /\ is_pinned s' c = is_pinned s c;
  pa_generation : generation s' c = Some (default g (generation s c));
  pa_pieces : piece_ids <$> index s' !! c = Some ({[piece_id p]} ∪ from_option piece_ids ∅ (index s !! c));
  pa_file : read_piece s' c (piece_id p) = Some p \/ U32_MAX < Z.of_nat (length (coding_vector p))
}.

Definition store_piece (s : Store) (c : key) (g : Generation) (p : CodedPiece) (n1 n2 : Z) : Store :=
  (put_piece (put_generation s c g n1).2 c p n2).2.

Lemma store_piece_added s c g p n1 n2 : is_tombstoned s c = false -> piece_added s (store_piece s c g p n1 n2) c g p.
Proof.
  intros Ht. unfold store_piece, put_generation. rewrite Ht. cbn [snd]. match goal with |- context [put_piece ?x c p n2] => set (s1 := x) end.
  assert (E1 : tombstones s1 = tombstones s /\ wanted s1 = wanted s /\ disk s1 = disk (with_dir s c (dir_meta (to_allocvec g))))
    by (unfold s1; cbn; destruct (index s !! c); done).
  assert (Ei : index s1 = <[c := default (mk_cstate g ∅ false false false false n1) (index s !! c)]> (index s)).
  { unfold s1. cbn. destruct (index s !! c) as [st|] eqn:E; cbn; [by rewrite insert_id|done]. }
  clearbody s1. destruct E1 as (Et & Ew & Ed). unfold put_piece, is_tombstoned in *. rewrite Et, Ht. cbn [snd]. split; cbn; rewrite ?Ed, ?Ei, ?Et, ?Ew; cbn.
  - intros c' Hne. cbn. rewrite ?Ed, ?Ei. cbn. by rewrite lookup_alter_ne, !lookup_insert_ne.
  - done.
  - done.
  - unfold content_file. cbn. rewrite ?Ed. cbn. rewrite !lookup_insert_eq. cbn. by destruct (d_cid (disk s) !! c).
  - unfold holds_content, is_pinned. cbn. rewrite ?Ei, lookup_alter_eq, lookup_insert_eq. by destruct (index s !! c).
  - unfold generation. cbn. rewrite ?Ei, lookup_alter_eq, lookup_insert_eq. by destruct (index s !! c).
  - rewrite lookup_alter_eq, lookup_insert_eq. by destruct (index s !! c).
  - destruct (decide (Z.of_nat (length (coding_vector p)) <= U32_MAX)) as [Hl|Hl]; [left|right; lia].
    eapply read_piece_bytes; [cbn; by rewrite lookup_insert_eq| |done]. cbn. by rewrite lookup_insert_eq.
Qed.

Lemma mark_system_added s s' c g p : piece_added s s' c g p -> piece_added s (mark_system s' c) c g p.
Proof.
  intros [Ho Et Ew Ec [Ef1 Ef2] Eg Ep Er]. split; try done.
  - intros c' Hne. destruct (Ho c' Hne) as [E1 E2]. cbn. by rewrite lookup_alter_ne, lookup_insert_ne.
  - unfold content_file in *. cbn. rewrite lookup_insert_eq, <- Ec. by destruct (d_cid (disk s') !! c).
  - unfold holds_content, is_pinned in *. cbn. rewrite lookup_alter_eq. by destruct (index s' !! c).
  - unfold generation in *. cbn. rewrite lookup_alter_eq. by destruct (index s' !! c).
  - cbn. rewrite lookup_alter_eq. by destruct (index s' !! c).
  - destruct Er as [Er|Er]; [left|by right]. unfold read_piece in *. cbn. rewrite lookup_insert_eq. by destruct (d_cid (disk s') !! c).
Qed.

Lemma same_added s s1 s' c g p : same s s1 -> piece_added s1 s' c g p -> piece_added s s' c g p.
Proof.
  intros Hs [Ho Et Ew Ec [Ef1 Ef2] Eg Ep Er]. destruct (same_holds _ _ c Hs) as (H1 & H2 & H3 & _). split.
  - intros c' Hne. destruct (Ho c' Hne) as [-> ->]. by rewrite (sm_index _ _ Hs), (sm_disk _ _ Hs).
  - by rewrite Et, (sm_tombstones _ _ Hs).
  - by rewrite Ew, (sm_wanted _ _ Hs).
  - congruence.
  - split; congruence.
  - unfold generation in *. rewrite Eg. by rewrite (same_field gen _ _ c ltac:(done) Hs).
  - rewrite Ep. pose proof (same_field piece_ids _ _ c ltac:(done) Hs) as E. destruct (index s1 !! c), (index s !! c); try done. cbn in *. by injection E as ->.
  - done.
Qed.

Lemma added_same s s1 s' c g p : piece_added s s1 c g p -> same s1 s' -> piece_added s s' c g p.
Proof.
  intros [Ho Etb Ew Ec [Ef1 Ef2] Eg Ep Er] Hs. destruct (same_holds _ _ c Hs) as (F1 & F2 & F3 & _). split.
  - intros c' Hne. destruct (Ho c' Hne) as [<- <-]. by rewrite (sm_index _ _ Hs), (sm_disk _ _ Hs).
  - by rewrite (sm_tombstones _ _ Hs).
  - by rewrite (sm_wanted _ _ Hs).
  - congruence.
  - split; congruence.
  - rewrite <- Eg. unfold generation. apply (same_field gen _ _ c); done.
  - rewrite <- Ep. apply (same_field piece_ids _ _ c); done.
  - destruct Er as [Er|Er]; [left|by right]. rewrite <- Er. unfold read_piece. by rewrite (sm_disk _ _ Hs).
Qed.

Lemma keeps_ingest_announce c b : ensures keeps (ingest_announce c b).
Proof. unfold ingest_announce. ens. Qed.

Lemma reject_run r e a e' : reject r e = Some (a, e') -> a = mk_PiecePushAck false r /\ e' = e.
Proof. apply ret_inv. Qed.

Lemma ingest_run push e a e' :
  ingest push e = Some (a, e') ->
  (ppa_ok a = false /\ same (store e) (store e')) \/
  (ppa_ok a = true /\ is_tombstoned (store e) (pp_cid push) = false /\
   (exists t, from_bytes (pp_vtags push) = Some t /\ verify t (coded (pp_piece push)) = true) /\
   piece_added (store e) (store e') (pp_cid push) (pushed_gen push) (coded (pp_piece push))).
Proof.
  unfold ingest. intros (shed & e1 & H1 & Hr)%bind_inv. assert (K1 : keeps e e1) by (revert H1; destruct shed_gate as [f|]; [|by intros [-> ->]%ret_inv]; intros (n & e0 & H0%keeps_tick & Hr')%bind_inv; by apply ret_inv in Hr' as [-> ->]). clear H1.
  destruct shed; [apply reject_run in Hr as [-> ->]; by left|].
  apply bind_inv in Hr as (refused & e2 & H2 & Hr). assert (K2 : keeps e e2) by (transitivity e1; [done|]; revert H2; destruct grant_gate as [f|]; [|by intros [-> ->]%ret_inv]; intros (n & e0 & H0%keeps_tick & Hr')%bind_inv; by apply ret_inv in Hr' as [-> ->]). clear H2.
  destruct refused; [apply reject_run in Hr as [-> ->]; by left|]. cbv zeta in Hr. set (c := pp_cid push) in *.
  apply bind_inv in Hr as (tomb & e3 & [= <- <-] & Hr). destruct (is_tombstoned (store e2) c) eqn:Et; [apply reject_run in Hr as [-> ->]; by left|].
  apply bind_inv in Hr as (now & e3 & H3%keeps_secs & Hr). assert (K3 : keeps e e3) by (by transitivity e2). apply bind_inv in Hr as (cooling & e4 & [= <- <-] & Hr).
  destruct (is_in_cooldown _ _ _ _); [apply reject_run in Hr as [-> ->]; by left|]. destruct (from_bytes (pp_vtags push)) as [t|] eqn:Ev; [|apply reject_run in Hr as [-> ->]; by left].
  destruct (verify t (coded (pp_piece push))) eqn:Evf; cbn [negb] in Hr; [|apply reject_run in Hr as [-> ->]; by left]. right.
  apply bind_inv in Hr as (we & e4 & [= <- <-] & Hr). apply bind_inv in Hr as (t1 & e4 & H4%keeps_nanos & Hr). apply bind_inv in Hr as (r1 & e5 & [Er1 ->]%with_store_run & Hr).
  assert (K4 : same (store e) (store e4)) by (by transitivity (store e3)). assert (Et0 : is_tombstoned (store e) c = false) by (destruct (same_holds _ _ c K2) as (_ & _ & _ & <-); done).
  assert (Et4 : is_tombstoned (store e4) c = false) by (destruct (same_holds _ _ c K4) as (_ & _ & _ & ->); done).
  apply bind_inv in Hr as (t2 & e6 & H6 & Hr). injection H6 as <- <-. apply bind_inv in Hr as (r2 & e7 & H7 & Hr).
  assert (Er : r1 = Ok ()) by (rewrite Er1; unfold put_generation; by rewrite Et4). rewrite Er in H7. apply with_store_run in H7 as [Er2 Es].
  assert (Ea : piece_added (store e) (store e7) c (pushed_gen push) (coded (pp_piece push))).
  { rewrite Es. eapply same_added; [exact K4|]. by apply store_piece_added. }
  assert (Er2' : exists k, r2 = Ok k).
  { rewrite Er2. unfold put_piece, is_tombstoned in *. cbn. unfold put_generation, is_tombstoned. rewrite Et4. cbn. destruct (index (store e4) !! c); cbn; rewrite Et4; by eexists. }
  destruct Er2' as [k ->]. clear Es Er2. apply bind_inv in Hr as (u & e8 & H8 & Hr). apply bind_inv in Hr as (u' & e9 & H9%keeps_ingest_announce & Hr). apply ret_inv in Hr as [-> ->].
  split; [done|]. split; [done|]. split; [by exists t|].
  assert (Ea8 : piece_added (store e) (store e8) c (pushed_gen push) (coded (pp_piece push))).
  { destruct (pp_system push); cbn [when] in H8; [|by apply ret_inv in H8 as [_ ->]]. injection H8 as _ <-. by apply mark_system_added. }
  by eapply added_same.
Qed.

(** The node takes pushes of the class in: no gate refuses them. *)
Definition gates_open (class : Z) : Prop :=
  (forall f n, shed_gate = Some f -> f n = false) /\ (forall f n, grant_gate = Some f -> f n class 1 <> 0).

Lemma ingest_announce_runs c b e : exists e', ingest_announce c b e = Some (tt, e').
Proof.
  unfold ingest_announce. rewrite (bind_run _ _ _ _ _ eq_refl), (bind_run _ _ _ _ _ eq_refl).
  match goal with |- context [if ?x then _ else _] => destruct x end; by eexists.
Qed.

Lemma ingest_accepts push t e :
  gates_open (pp_class push) -> is_tombstoned (store e) (pp_cid push) = false -> evicted (store e) !! pp_cid push = None ->
  from_bytes (pp_vtags push) = Some t -> verify t (coded (pp_piece push)) = true ->
  exists a e', ingest push e = Some (a, e') /\ ppa_ok a = true.
Proof.
  intros [G1 G2] Ht Hev Htags Hv.
  assert (R1 : exists e1, (match shed_gate with Some f => n ← tick; mret (f n) | None => mret false end) e = Some (false, e1) /\ store e1 = store e).
  { destruct shed_gate as [f|] eqn:Ef; [|by eexists]. rewrite (bind_run _ _ _ _ _ eq_refl), (G1 f _ eq_refl). by eexists. }
  destruct R1 as (e1 & R1 & S1).
  assert (R2 : exists e2, (match grant_gate with Some f => n ← tick; mret (f n (pp_class push) 1 =? 0) | None => mret false end) e1 = Some (false, e2) /\ store e2 = store e).
  { destruct grant_gate as [f|] eqn:Ef; [|by eexists]. rewrite (bind_run _ _ _ _ _ eq_refl), (proj2 (Z.eqb_neq _ _) (G2 f _ eq_refl)). by eexists. }
  destruct R2 as (e2 & R2 & S2). unfold ingest. rewrite (bind_run _ _ _ _ _ R1), (bind_run _ _ _ _ _ R2). cbv zeta.
  rewrite (bind_run _ _ e2 false e2) by (unfold gets; by rewrite S2, Ht). rewrite (bind_run _ _ e2 _ (set_time e2 (S (time e2)))) by (unfold secs; done).
  rewrite (bind_run _ _ _ false (set_time e2 (S (time e2)))) by (unfold gets, is_in_cooldown; cbn; by rewrite S2, Hev). rewrite Htags, Hv. cbn [negb].
  rewrite (bind_run _ _ _ _ _ eq_refl), (bind_run _ _ _ _ _ eq_refl). cbn [time set_time]. set (e3 := set_time (set_time e2 _) _).
  assert (S3 : store e3 = store e) by done. clearbody e3. set (g := mk_gen _ _ _ _). set (t1 := nanos_at _).
  assert (R4 : with_store (fun s => put_generation s (pp_cid push) g t1) e3 = Some (Ok (), set_store e3 (put_generation (store e) (pp_cid push) g t1).2)).
  { unfold with_store. rewrite S3. unfold put_generation. by rewrite Ht. }
  rewrite (bind_run _ _ _ _ _ R4), (bind_run _ _ _ _ _ eq_refl). set (e4 := set_time (set_store e3 _) _).
  assert (S4 : is_tombstoned (store e4) (pp_cid push) = false).
  { change (is_tombstoned (put_generation (store e) (pp_cid push) g t1).2 (pp_cid push) = false). unfold put_generation. rewrite Ht. unfold is_tombstoned in *. cbn. destruct (index (store e) !! pp_cid push); cbn; done. }
  clearbody e4. set (t2 := nanos_at _).
  assert (R5 : with_store (fun s => put_piece s (pp_cid push) (coded (pp_piece push)) t2) e4 = Some (Ok (piece_id (coded (pp_piece push))), set_store e4 (put_piece (store e4) (pp_cid push) (coded (pp_piece push)) t2).2)).
  { unfold with_store, put_piece. by rewrite S4. }
  rewrite (bind_run _ _ _ _ _ R5).
  assert (R6 : forall e5, exists e6, when (pp_system push) (modify_store (fun s => mark_system s (pp_cid push))) e5 = Some (tt, e6)) by (intros; destruct (pp_system push); by eexists).
  destruct (R6 (set_store e4 (put_piece (store e4) (pp_cid push) (coded (pp_piece push)) t2).2)) as [e6 R6']. rewrite (bind_run _ _ _ _ _ R6').
  match goal with |- context [ingest_announce _ ?b] => destruct (ingest_announce_runs (pp_cid push) b e6) as [e7 R7] end. rewrite (bind_run _ _ _ _ _ R7). by eexists _, _.
Qed.

(** A push is stored exactly when it checks out.  A refused push leaves
    the store as it was up to access times.  An accepted one is of an object
    that is not banned and fits the tags it came with; then the object has
    the piece, readable under its id, besides those it had, the generation
    it had or else the pushed one, the same content and pin, and nothing
    else in the store changed.  While the gates are open, a fitting piece of
    an object neither banned nor recently evicted is accepted. *)
Theorem ingest_stores_fitting_pieces (push : PiecePush) (e : Engine) :
  (forall a e', ingest push e = Some (a, e') ->
     if ppa_ok a
     then is_tombstoned (store e) (pp_cid push) = false /\
          (exists t, from_bytes (pp_vtags push) = Some t /\ verify t (coded (pp_piece push)) = true) /\
          piece_added (store e) (store e') (pp_cid push) (pushed_gen push) (coded (pp_piece push))
     else same (store e) (store e')) /\
  (forall t, gates_open (pp_class push) -> is_tombstoned (store e) (pp_cid push) = false -> evicted (store e) !! pp_cid push = None ->
     from_bytes (pp_vtags push) = Some t -> verify t (coded (pp_piece push)) = true ->
     exists a e', ingest push e = Some (a, e') /\ ppa_ok a = true).
Proof.
  split; [|intros; by eapply ingest_accepts]. intros a e' [[-> H]|(-> & H)]%ingest_run; [done|]. tauto.
Qed.
End ingest.

(** ** Minting *)

(** An honest copy of [b]: its generation with tags of its sources, the
    content itself if it is marked, and pieces that belong to it. *)
Record honest_copy `{Blake3} `{Xof} `{Postcard VTags} (s : Store) (c : key) (b : bytes) (k len : nat) (st : CidState) (ts : list VTag) : Prop := {
  hc_shape : (0 < k)%nat /\ (0 < len)%nat /\ (length b <= k * len)%nat /\ Z.of_nat k <= U32_MAX;
  hc_bytes : is_bytes b;
  hc_state : index s !! c = Some st;
  hc_gen : gen st = mk_gen (Z.of_nat k) (Z.of_nat len) (Z.of_nat (length b)) (to_allocvec (mk_vtags SCHEME_NULL_SPACE_V1 (Z.of_nat k) (Z.of_nat len) ts));
  hc_tags : Forall (tag_for len (split_sources b k len)) ts;
  hc_content : has_content st = true -> content_file s c = Some b;
  hc_pieces : forall pid p, pid ∈ piece_ids st -> read_piece s c pid = Some p -> valid k len (split_sources b k len) p
}.

Lemma read_held_sound s c max pids : forall out p, p ∈ read_held s c max pids out -> p ∈ out \/ exists pid, pid ∈ pids /\ read_piece s c pid = Some p.
Proof.
  induction pids as [|pid pids IH]; intros out p; cbn [read_held]; [by left|]. destruct (_ <=? _)%nat; [by left|]. intros [Hp|(pid' & Hin & Hr)]%IH.
  - destruct (read_piece s c pid) as [q|] eqn:Er; [|by left]. apply elem_of_app in Hp as [Hp|Hp%list_elem_of_singleton]; [by left|]. subst. right. exists pid. split; [left|done].
  - right. exists pid'. split; [by right|done].
Qed.

Section mint.
Context {B3 : Blake3} {XF : Xof} {UM : Umbral} {Net : ObjNet}.
Context {PG : Postcard Generation} {PV : Postcard VTags}.

Lemma mint_valid c b k len st ts e p e' :
  honest_copy (store e) c b k len st ts -> is_bytes (rng e) -> mint_piece c (gen st) e = Some (Some p, e') ->
  valid k len (split_sources b k len) p.
Proof.
  intros Hc Ht Hr. pose proof (hc_shape _ _ _ _ _ _ _ Hc) as (Hk & Hl & Hkl & Hku). destruct (split_sources_rows b k len (hc_bytes _ _ _ _ _ _ _ Hc) Hl Hkl) as [HS _].
  unfold mint_piece in Hr. apply bind_inv in Hr as (held & e1 & [= <- <-] & Hr). unfold holds_content in Hr. rewrite (hc_state _ _ _ _ _ _ _ Hc) in Hr.
  destruct (has_content st) eqn:Eh.
  - apply bind_inv in Hr as (now & e1 & H1 & Hr). injection H1 as <- <-. unfold lift, mint_from_content, generation, content in Hr. cbn [store set_time] in Hr.
    rewrite (hc_state _ _ _ _ _ _ _ Hc), Eh in Hr. cbn [fmap option_fmap option_map negb] in Hr. pose proof (hc_content _ _ _ _ _ _ _ Hc Eh) as Ec. unfold content_file in Ec. rewrite Ec in Hr.
    rewrite (hc_gen _ _ _ _ _ _ _ Hc) in Hr. cbn [g_k g_piece_len] in Hr. rewrite !Nat2Z.id in Hr. cbn [rng set_time] in Hr.
    destruct (encode _ _) as [[r t']|] eqn:Ee; [|done]. cbn in Hr. destruct r as [q|x]; [|done]. injection Hr as <- _. by eapply encode_valid in Ee as [? _].
  - apply bind_inv in Hr as (r & e1 & H1 & Hr). unfold s_serve in H1. apply bind_inv in H1 as (now & e2 & H2 & H1). injection H2 as <- <-. unfold lift, serve_pieces in H1. cbn [store set_time] in H1.
    rewrite (hc_state _ _ _ _ _ _ _ Hc), Eh, andb_false_r in H1. injection H1 as <- <-. set (out := read_held _ _ _ _ _) in Hr.
    assert (Hv : Forall (valid k len (split_sources b k len)) out).
    { apply list.Forall_forall. intros q [Hq|(pid & Hin & Hq)]%read_held_sound; [by apply not_elem_of_nil in Hq|]. apply (hc_pieces _ _ _ _ _ _ _ Hc pid); [|exact Hq]. apply elem_of_elements in Hin. set_solver. }
    clearbody out. destruct out as [|q qs]; [done|]. apply bind_inv in Hr as (r & e3 & H3 & Hr). unfold draw in H3. cbn [rng set_rng set_store set_time] in H3.
    rewrite (recode_unfold k len (split_sources b k len)) in H3 by done. destruct (recode_loop _ _ _ _ _) as [[q' t']|] eqn:Er; [|done]. injection H3 as <- <-. apply ret_inv in Hr as [[= <-] _].
    by eapply recode_loop_valid in Er as [? _].
Qed.
End mint.

Section land.
Context {B3 : Blake3} {XF : Xof} {XL : XofLaws} {UM : Umbral}.
Context {PG : Postcard Generation} {PV : Postcard VTags} {PL : PostcardLaws VTags}.

(** A minted piece is of use to whoever takes it in.  A node with an
    honest copy of an object, whole or in pieces, mints a piece that belongs
    to the object; a second node, whatever it holds, that does not refuse
    the class by its gates and has neither banned nor lately evicted the
    object, accepts the push that carries it and then has it. *)
Theorem minted_piece_is_accepted (Net1 Net2 : ObjNet) (c : key) (b : bytes) (k len : nat) (st : CidState) (ts : list VTag) (e1 e1' e2 : Engine)
    (p : CodedPiece) (sys : bool) (class : Z) (push : PiecePush) :
  honest_copy (store e1) c b k len st ts -> is_bytes (rng e1) ->
  mint_piece (Net := Net1) c (gen st) e1 = Some (Some p, e1') -> push_msg c (gen st) p sys class = M_PiecePush push ->
  gates_open (Net := Net2) class -> is_tombstoned (store e2) c = false -> evicted (store e2) !! c = None ->
  valid k len (split_sources b k len) p /\
  exists a e2', ingest (Net := Net2) push e2 = Some (a, e2') /\ ppa_ok a = true /\ piece_added (store e2) (store e2') c (gen st) p.
Proof.
  intros Hc Ht Hm Hp Hg Htomb Hev. pose proof (mint_valid _ _ _ _ _ _ _ _ _ Hc Ht Hm) as Hv. split; [done|]. pose proof (hc_shape _ _ _ _ _ _ _ Hc) as (Hk & Hl & Hkl & Hku).
  destruct (split_sources_rows b k len (hc_bytes _ _ _ _ _ _ _ Hc) Hl Hkl) as [HS _]. injection Hp as <-. unfold push_msg.
  assert (Hver := valid_verifies k len _ ts p HS Hku (hc_tags _ _ _ _ _ _ _ Hc) Hv).
  set (push := mk_PiecePush _ _ _ _ _ _ _ _). assert (Etags : from_bytes (pp_vtags push) = Some (mk_vtags SCHEME_NULL_SPACE_V1 (Z.of_nat k) (Z.of_nat len) ts)).
  { unfold push. cbn. rewrite (hc_gen _ _ _ _ _ _ _ Hc). apply postcard_roundtrip. }
  assert (Ep : coded (pp_piece push) = p) by (unfold push; by destruct p).
  destruct (ingest_accepts (Net := Net2) push _ e2 Hg Htomb Hev Etags) as (a & e2' & Ha & Hok); [by rewrite Ep|].
  exists a, e2'. split; [done|]. split; [done|]. apply ingest_run in Ha as [[Hf _]|(_ & _ & _ & Hadd)]; [congruence|]. rewrite Ep in Hadd.
  assert (Eg : pushed_gen push = gen st) by (unfold pushed_gen, push; cbn; by destruct (gen st)). by rewrite Eg in Hadd.
Qed.
End land.
