(* ===== verification/ObjRuns.v ===== *)
(** Runs of the object engine on small inputs: a network to evaluate it on,
    the claims of the [Obj] files at concrete inputs, and what the engine does
    where its documentation says otherwise. *)

From S2P Require Import Prelude Crypto Pager Cipher ObjManifest Wire Gf Linear Erasure ErasureDecode VTags Token PieceStore PieceStoreEvict.
From S2P Require Import ObjCore ObjLogic ObjFetch ObjRebuild ObjHonest ObjWalk ObjFiles ObjServe ObjScan ObjMaint ObjJobs ObjBand ObjIngest HoldingsTrack.

Open Scope Z_scope.
Open Scope zeph_scope.

(** ** A network *)

(** Addresses are node ids, content ids the content itself; [req] answers
    requests, [recs] is what every resolution returns. *)
Definition toy_net (cf : ObjConfig) (req : key -> Message -> option Message) (recs : list (@ProviderRecord key)) (census : option (nat -> list (key * key)))
    (ps : list (key * key)) : @ObjNet toy_umbral :=
  @Build_ObjNet toy_umbral key (fun a => a) [99] cf (Some 3) (fun n => Z.of_nat n * 65536) (fun n => Z.of_nat n) (fun n => Z.of_nat n * 1000000000)
    (fun _ => req) (fun _ _ => true) (fun _ _ => true) (fun _ _ => Some recs) (fun _ l => l) (fun _ => true) (fun _ _ => Some true) (fun _ _ => Some [])
    (fun _ => ps) census None None None None None false false false.

Lemma toy_net_laws cf req recs census ps : @ObjNetLaws _ (toy_net cf req recs census ps).
Proof. by constructor. Qed.

Definition empty_store : Store := mk_store empty_disk ∅ ∅ ∅ ∅ ∅.
Definition engine_with (s : Store) (t : tape) : Engine := mk_engine s t 0 ∅ ∅ [] ∅ ∅ ∅ ∅ None ∅ ∅ ∅ [].

(** A codec that gives one value a one-byte code. *)
Definition short_codec {A} `{Countable A} (a0 : A) : Postcard A := {|
  to_allocvec := fun a => if bool_decide (a = a0) then [7] else [8; Zpos (countable.encode a)];
  from_bytes := fun b => match b with [7] => Some a0 | [8; Zpos n] => countable.decode n | _ => None end
|}.
Lemma short_codec_laws {A} `{Countable A} (a0 : A) : @PostcardLaws A (short_codec a0).
Proof. split. intros a. cbn. case_bool_decide; [by subst|]. apply decode_encode. Qed.

#[global] Instance VTag_eq_dec : EqDecision VTag.
Proof. solve_decision. Defined.
#[global] Instance VTag_countable : Countable VTag.
Proof. refine (inj_countable' (fun t => (seed t, coeff_part t)) (fun '(a, b) => mk_vtag a b) _). by intros []. Defined.
#[global] Instance VTags_eq_dec : EqDecision VTags.
Proof. solve_decision. Defined.
#[global] Instance VTags_countable : Countable VTags.
Proof. refine (inj_countable' (fun t => (scheme t, vt_k t, vt_piece_len t, tags t)) (fun '(a, b, c, d) => mk_vtags a b c d) _). by intros []. Defined.
#[global] Instance Segment_eq_dec : EqDecision Segment.
Proof. solve_decision. Defined.
#[global] Instance Segment_countable : Countable Segment.
Proof. refine (inj_countable' (fun s => (seg_cid s, seg_len s)) (fun '(a, b) => mk_segment a b) _). by intros []. Defined.
#[global] Instance Entry_eq_dec : EqDecision Entry.
Proof. solve_decision. Defined.
#[global] Instance Manifest_eq_dec : EqDecision Manifest.
Proof. solve_decision. Defined.
#[global] Instance Entry_countable : Countable Entry.
Proof. refine (inj_countable' (fun x => (e_name x, e_size x, e_is_dir x, e_cid x)) (fun '(a, b, c, d) => mk_entry a b c d) _). by intros []. Defined.
#[global] Instance Manifest_countable : Countable Manifest.
Proof.
  refine (inj_countable' (fun m => match m with File a b c d => inl (a, b, c, d) | Dir a b => inr (a, b) end)
    (fun x => match x with inl (a, b, c, d) => File a b c d | inr (a, b) => Dir a b end) _). by intros [].
Defined.
#[global] Instance PlainMeta_eq_dec : EqDecision PlainMeta.
Proof. solve_decision. Defined.
#[global] Instance PlainMeta_countable : Countable PlainMeta.
Proof. refine (inj_countable' (fun m => (m_name m, m_mime m)) (fun '(a, b) => mk_meta a b) _). by intros []. Defined.
#[global] Instance Recipient_eq_dec : EqDecision Recipient.
Proof. solve_decision. Defined.
#[global] Instance Recipient_countable : Countable Recipient.
Proof. refine (inj_countable' (fun m => (recipient m, kfrags m)) (fun '(a, b) => mk_recipient a b) _). by intros []. Defined.

(** Capsules of the toy cipher are numbers. *)
Definition capsule_pair (c : @DekCapsule toy_umbral) : Z * bytes := (@capsule toy_umbral c, @enc_dek toy_umbral c).
Definition envelope_tuple (e : @EncryptedEnvelope toy_umbral) : Z * bytes * list Segment * bytes * Z * key * list Recipient :=
  (capsule_pair (env_capsule e), env_segments e, env_meta e, env_size e, env_owner e, env_recipients e).
Definition tuple_envelope (x : Z * bytes * list Segment * bytes * Z * key * list Recipient) : @EncryptedEnvelope toy_umbral :=
  let '(a, b, c, d, e, f, g) := x in @mk_envelope toy_umbral (@mk_capsule toy_umbral a b) c d e f g.
Lemma tuple_envelope_tuple e : tuple_envelope (envelope_tuple e) = e.
Proof. by destruct e as [[]]. Qed.
#[global] Instance envelope_eq_dec : EqDecision (@EncryptedEnvelope toy_umbral).
Proof. refine (fun x y => cast_if (decide (envelope_tuple x = envelope_tuple y))); abstract (first [intros; congruence|rewrite <- (tuple_envelope_tuple x), <- (tuple_envelope_tuple y); congruence]). Defined.
#[global] Instance envelope_countable : Countable (@EncryptedEnvelope toy_umbral).
Proof. exact (inj_countable' envelope_tuple tuple_envelope tuple_envelope_tuple). Defined.

(** ** One small object *)

(** The object [[5]], in one source of one byte; [tags0] has no tags. *)
Definition b0 : bytes := [5].
Definition tags0 : VTags := mk_vtags SCHEME_NULL_SPACE_V1 1 1 [].
Definition file0 : Manifest := File "a" 1 "t" [mk_segment b0 1].
Definition gen0 : Generation := mk_gen 1 1 1 [7].
Definition meta0 : PlainMeta := mk_meta "a" "t".

#[local] Existing Instances id_hash const_xof const_xof_laws toy_aead toy_keyed_xof toy_umbral toy_aead_laws toy_keyed_xof_laws toy_umbral_laws.
#[local] Instance tags_codec : Postcard VTags := short_codec tags0.
#[local] Instance gen_codec : Postcard Generation := short_codec gen0.
#[local] Instance meta_codec : Postcard PlainMeta := short_codec meta0.
#[local] Instance manifest_codec : Postcard Manifest := short_codec file0.
#[local] Instance tags_codec_laws : PostcardLaws VTags := short_codec_laws tags0.
#[local] Instance manifest_codec_laws : PostcardLaws Manifest := short_codec_laws file0.

Definition small_config : ObjConfig := mk_config 1 1 1000000 20 5 1000 100 0 1 1.

(** The run of an operation, split: its result is computed, its state named. *)
Definition after {A} (m : Eng A) (e : Engine) : Engine := match m e with Some (_, e') => e' | None => e end.

Lemma after_run {A} (m : Eng A) (e : Engine) (a : A) : fst <$> m e = Some a -> m e = Some (a, after m e).
Proof. unfold after. destruct (m e) as [[x e']|]; [|done]. cbn. by intros [= ->]. Qed.

(** A provider that answers every request with the one source piece. *)
Definition one_piece (_ : key) (m : Message) : option Message :=
  match m with
  | M_PieceRequest _ => Some (M_PieceResponse (mk_PieceResponse true 1 1 1 [7] [mk_WirePiece [1] [5]]))
  | _ => None
  end.

Definition net1 : ObjNet := toy_net small_config one_piece [mk_provider [1] [1] 1 false] None [].
Definition fresh : Engine := engine_with empty_store [].

Lemma piece0_valid : valid 1 1 (split_sources b0 1 1) (mk_piece [1] [5]).
Proof. split; [split; [done|repeat constructor; unfold_int; lia]|reflexivity]. Qed.

Lemma b0_bytes : is_bytes b0.
Proof. repeat constructor; unfold_int; lia. Qed.

(** Any vector of one byte is a multiple of [[1]]. *)
Lemma span_unit ps v : Forall (is_vec 1) ps -> in_span 1 ps [1] -> is_vec 1 v -> in_span 1 ps v.
Proof.
  intros Hps H1 [Hl Hv]. destruct v as [|x [|y v]]; try done. apply Forall_cons_iff in Hv as [Hx _]. pose proof (span_vscale 1 ps x [1] Hps Hx H1) as H.
  replace [x] with (vscale x [1]); [done|]. change (vscale x [1]) with [mul x 1]. by rewrite mul_comm, mul_1_l.
Qed.

(** An object of two sources, with a real tag, from one provider of two mixed
    pieces, through an admission gate. *)
Definition b2 : bytes := [5; 6].
Definition tags2 : VTags := mk_vtags SCHEME_NULL_SPACE_V1 2 1 [mk_vtag (replicate 32 7) [15; 10]].
Definition two_pieces : PieceResponse := mk_PieceResponse true 2 1 2 (to_allocvec tags2) [mk_WirePiece [1; 0] [5]; mk_WirePiece [1; 1] [3]].
Definition net2 : @ObjNet toy_umbral :=
  @Build_ObjNet toy_umbral key (fun a => a) [99] small_config (Some 3) (fun n => Z.of_nat n) (fun n => Z.of_nat n) (fun n => Z.of_nat n)
    (fun _ _ m => match m with M_PieceRequest _ => Some (M_PieceResponse two_pieces) | _ => None end) (fun _ _ => true) (fun _ _ => true)
    (fun _ _ => Some [mk_provider [1] [1] 2 false]) (fun _ l => l) (fun _ => true) (fun _ _ => Some true) (fun _ _ => Some [])
    (fun _ => []) None None (Some (fun _ n => n <=? 100)) None None None false false false.

Lemma two_pieces_honest : honest b2 2 1 two_pieces.
Proof.
  split; [by split_and!|exists tags2; split; [done|]|].
  - exists [mk_vtag (replicate 32 7) [15; 10]]. split; [done|]. constructor; [vm_compute; reflexivity|constructor].
  - constructor; [|constructor; [|constructor]]; (split; [split; [done|repeat constructor; unfold_int; lia]|vm_compute; reflexivity]).
Qed.

(** The vectors [1 0] and [1 1] span all of them. *)
Lemma span_two ps v : Forall (is_vec 2) ps -> in_span 2 ps [1; 0] -> in_span 2 ps [1; 1] -> is_vec 2 v -> in_span 2 ps v.
Proof.
  intros Hps H1 H2 [Hl Hv]. destruct v as [|x [|y [|z v]]]; try done. apply Forall_cons_iff in Hv as [Hx Hv]. apply Forall_cons_iff in Hv as [Hy _].
  assert (Hxy : is_u8 (Z.lxor x y)) by (by apply lxor_u8).
  pose proof (span_vadd 2 ps _ _ Hps (span_vscale 2 ps _ _ Hps Hxy H1) (span_vscale 2 ps _ _ Hps Hy H2)) as H.
  replace [x; y] with (vadd (vscale (Z.lxor x y) [1; 0]) (vscale y [1; 1])); [done|].
  change (vadd (vscale (Z.lxor x y) [1; 0]) (vscale y [1; 1])) with [Z.lxor (mul (Z.lxor x y) 1) (mul y 1); Z.lxor (mul (Z.lxor x y) 0) (mul y 1)].
  rewrite mul_0_r, !(mul_comm _ 1), !mul_1_l by done. by rewrite Z.lxor_assoc, Z.lxor_nilpotent, Z.lxor_0_r, Z.lxor_0_l.
Qed.

Lemma honest_fetch_returns_content_witness :
  verify tags2 (mk_piece [1; 1] [4]) = false /\ exists e', get (Net := net2) b2 Drop fresh = Some (Ok b2, e').
Proof.
  split; [vm_compute; reflexivity|].
  assert (Hb : is_bytes b2) by (repeat constructor; unfold_int; lia).
  destruct (honest_fetch_returns_content (Net := net2) (NL := ltac:(by constructor)) id_hash_inj b2 b2 2 1 Hb ltac:(lia) ltac:(lia) ltac:(cbn; lia) ltac:(unfold_int; lia) fresh Drop)
    as (r & e' & Hg & _ & _ & Hr).
  - reflexivity.
  - reflexivity.
  - constructor; [|constructor]. intros n ids mx. right. right. apply two_pieces_honest.
  - exists e'. rewrite Hg, Hr; [reflexivity|cbn; unfold FANOUT; lia| |unfold ROUNDS; lia]. apply List.Exists_cons. left. intros n ps Hps Hns.
    pose proof (vectors_vec _ _ _ _ Hps) as Hvec. pose proof (hr_pieces _ _ _ _ two_pieces_honest) as Hok. apply Forall_cons_iff in Hok as [Hok _].
    destruct (span_decided b2 2 1 Hb ltac:(lia) ltac:(cbn; lia) ps _ Hps Hok) as [H1|H1].
    + exists two_pieces, (mk_WirePiece [1; 1] [3]). split; [reflexivity|]. split; [reflexivity|]. split; [right; left|].
      intros H2. apply Hns. intros v Hv. by apply span_two.
    + exists two_pieces, (mk_WirePiece [1; 0] [5]). split; [reflexivity|]. split; [reflexivity|]. split; [left|exact H1].
Defined.

Lemma fetched_content_matches_id_witness :
  Cid_of b0 = b0 /\ same (store fresh) (store (after (get (Net := net1) b0 Drop) fresh)).
Proof.
  destruct (fetched_content_matches_id (Net := net1) b0 Drop fresh b0
    (after (get (Net := net1) b0 Drop) fresh)) as (Hc & Hs & _).
  - apply after_run. vm_compute. reflexivity.
  - split; [exact Hc|apply Hs; discriminate].
Defined.

(** ** A node that holds the one piece *)

Definition piece0 : CodedPiece := mk_piece [1] [5].
Definition pid0 : key := [1; 5].
Definition state0 : CidState := mk_cstate gen0 {[pid0]} false false false false 0.
Definition dir0 : CidDir := mk_dir (Some [7]) {[pid0 := piece_bytes piece0]} None false false false.
Definition holder_store : Store := mk_store (mk_disk {[b0 := dir0]} ∅ ∅ ∅ ∅) {[b0 := state0]} ∅ ∅ ∅ ∅.
Definition holder : Engine := engine_with holder_store [].

Lemma holder_holds : piece_holder holder_store b0 b0 1 1 {[pid0 := piece0]}.
Proof.
  split.
  - unfold_int. cbn. lia.
  - apply b0_bytes.
  - reflexivity.
  - exists state0, []. split_and!; [reflexivity|reflexivity|by rewrite dom_singleton_L|reflexivity|constructor].
  - exists dir0. split; [reflexivity|]. by rewrite map_fmap_singleton.
  - intros pid p [<- <-]%lookup_singleton_Some. split; [reflexivity|apply piece0_valid].
Qed.

Lemma held_pieces_rebuild_content_witness :
  exists e1, decode_local (Net := net1) b0 holder = Some (Some b0, e1).
Proof.
  destruct (held_pieces_rebuild_content (Net := net1) holder b0 b0 1 1 {[pid0 := piece0]})
    as (e1 & e2 & H & _).
  - apply holder_holds.
  - rewrite map_size_singleton. lia.
  - intros v Hv. rewrite map_to_list_singleton. cbn. apply span_unit; [repeat constructor; unfold_int; lia| |exact Hv]. apply span_elem; [repeat constructor; unfold_int; lia|left].
  - exists e1. exact H.
Defined.

(** ** A file *)

Definition writer : Engine := engine_with empty_store (replicate 700 1).
Definition write_file : Eng (result FilePublish EngErr) := publish_file (Net := net1) "a" "t" b0 false.
Definition file0_cid : key := Cid_of (manifest_encode file0).

Lemma writer_content : content_ok (store writer).
Proof. intros c H. unfold holds_content in H. change (index (store writer)) with (∅ : gmap key CidState) in H. by rewrite lookup_empty in H. Qed.
Lemma writer_marks c : is_distributed (store writer) c = true -> holds_content (store writer) c = true.
Proof. intros H. unfold is_distributed in H. apply bool_decide_eq_true in H. change (distributed (store writer)) with (∅ : gset key) in H. set_solver. Qed.

Lemma file_round_trip_witness : exists e1, fetch_file (Net := net1) file0_cid (after write_file writer) = Some (Ok ("a"%string, "t"%string, b0), e1).
Proof.
  apply (file_round_trip (Net := net1) false id_hash_inj "a" "t" b0 writer (mk_file_publish file0_cid b0 1 false false) (after write_file writer)).
  - apply writer_content.
  - left. apply writer_marks.
  - cbn. unfold_int. lia.
  - apply after_run. vm_compute. reflexivity.
Defined.

Definition dek0 : bytes := replicate 32 1.
Definition env0 : EncryptedEnvelope :=
  mk_envelope (encapsulate (replicate 32 1) (public_key (3 : SecretKey)) dek0) [mk_segment (Cid_of (seal_det dek0 b0)) 1] (seal_det dek0 (meta_encode meta0)) 1 [99] [].
#[local] Instance envelope_codec : Postcard EncryptedEnvelope := short_codec env0.
#[local] Instance envelope_codec_laws : PostcardLaws EncryptedEnvelope := short_codec_laws env0.
#[local] Instance meta_codec_laws : PostcardLaws PlainMeta := short_codec_laws meta0.

Definition write_private : Eng (result PrivatePublish EngErr) := publish_private (Net := net1) "a" "t" b0 false.
Definition env0_cid : key := Cid_of (envelope_encode env0).

Lemma private_file_round_trip_witness : exists e1, get_private (Net := net1) env0_cid (after write_private writer) = Some (Ok ("a"%string, "t"%string, b0), e1).
Proof.
  apply (private_file_round_trip (Net := net1) false id_hash_inj "a" "t" b0 writer (mk_private env0_cid 1 false) (after write_private writer)).
  - apply writer_content.
  - left. apply writer_marks.
  - cbn. unfold_int. lia.
  - apply after_run. vm_compute. reflexivity.
Defined.

(** ** Walks *)

Lemma chain_walks_act_on_reachable_objects_witness :
  exists (R : gset key) e', unpin_chain (Net := net1) 9 file0_cid (after write_file writer) = Some (size R, e') /\
    forall c', c' ∈ R <-> rtc (edge (store (after write_file writer))) file0_cid c'.
Proof.
  pose proof (chain_walks_act_on_reachable_objects (Net := net1) file0_cid (after write_file writer) 9) as H.
  assert (Hf : (walk_fuel (store (after write_file writer)) <= 9)%nat) by (apply Nat.leb_le; vm_compute; reflexivity).
  specialize (H Hf). apply Forall_cons_iff in H as [(R & e' & H1 & H2 & _) _]. exists R, e'. exact (conj H1 H2).
Defined.

(** ** Maintenance *)

(** Three pieces held, and a peer that says it has thirty. *)
Definition pieces3 : gmap key CodedPiece := {[ [1; 5] := mk_piece [1] [5]; [2; 10] := mk_piece [2] [10]; [4; 20] := mk_piece [4] [20] ]}.
Definition state3 : CidState := mk_cstate gen0 (dom pieces3) false false false false 0.
Definition store3 : Store := mk_store (mk_disk {[b0 := mk_dir (Some [7]) (piece_bytes <$> pieces3) None false false false]} ∅ ∅ ∅ ∅) {[b0 := state3]} ∅ ∅ ∅ ∅.
Definition holder3 : Engine := engine_with store3 [].

Definition says (n : Z) (_ : key) (m : Message) : option Message :=
  match m with
  | M_AvailabilityProbe _ => Some (M_AvailabilityAck (mk_AvailabilityAck true n false))
  | M_Offer o => Some (M_Grant (mk_Grant (offer_items o) 0))
  | M_PiecePush _ => Some (M_PiecePushAck (mk_PiecePushAck true ""))
  | _ => None
  end.

Definition net_of (n : Z) : ObjNet := toy_net small_config (says n) [mk_provider [1] [1] n false] None [([1], [1])].

(** Two holders of ten pieces each: neither alone makes the surplus. *)
Definition net_two : ObjNet := toy_net small_config (says 10) [mk_provider [1] [1] 10 false; mk_provider [2] [2] 10 false] None [([1], [1]); ([2], [2])].


Lemma repair_lands_at_most_the_deficit_witness :
  fst <$> repair_cid (Net := net_of 4) b0 (engine_with store3 (replicate 40 1)) = Some 8%nat /\
  same store3 (store (after (repair_cid (Net := net_of 4) b0) (engine_with store3 (replicate 40 1)))).
Proof.
  assert (E : fst <$> repair_cid (Net := net_of 4) b0 (engine_with store3 (replicate 40 1)) = Some 8%nat) by (vm_compute; reflexivity). split; [exact E|].
  refine (proj1 (repair_lands_at_most_the_deficit (Net := net_of 4) b0 (engine_with store3 (replicate 40 1)) 8 (after (repair_cid (Net := net_of 4) b0) (engine_with store3 (replicate 40 1))) _)).
  apply after_run. exact E.
Defined.

Definition jobs3 : list Job := [HealthScan [b0]; ReconcileCid b0; DistributePending; ScaleAll].

Lemma maintenance_spares_pinned_and_wanted_witness :
  wanted (store (after (run_jobs (Net := net_of 30) jobs3) holder3)) = wanted store3.
Proof.
  refine (proj1 (maintenance_spares_pinned_and_wanted (Net := net_of 30) jobs3 holder3 (after (run_jobs (Net := net_of 30) jobs3) holder3) b0 state3 _)).
  apply after_run. vm_compute. reflexivity.
Defined.

(** A count of thirty is above the band of floor 18: the object is marked
    surplus. *)
Definition tally0 : Tally := mk_tally hreport0 ∅ ∅ ∅.
Definition verdict3 : Eng Tally := scan_verdict (Net := net_of 30) b0 gen0 0 33 18 [] [] [[1]] [([1], [1], 30, false)] tally0.
Definition tally3 : Tally := match verdict3 holder3 with Some (t, _) => t | None => tally0 end.


Definition scan3 : Eng HealthReport := health_scan_chunk (Net := net_of 30) [b0].

Lemma scan_verdicts_exclusive_witness : surplus (mk_hreport 1 0 0 0 1 0 0 1) = size (surplus_ids (after scan3 holder3)).
Proof.
  destruct (scan_verdicts_exclusive (Net := net_of 30) [b0] holder3 (mk_hreport 1 0 0 0 1 0 0 1) (after scan3 holder3)) as (_ & _ & _ & _ & H & _).
  - apply NoDup_singleton.
  - apply after_run. vm_compute. reflexivity.
  - cbn. split_and!; apply disjoint_empty_l.
  - exact H.
Defined.

(** A node with the content mints a piece that an empty node takes in. *)
Definition content_state : CidState := mk_cstate gen0 ∅ false false false true 0.
Definition content_store : Store := mk_store (mk_disk {[b0 := mk_dir (Some [7]) ∅ (Some b0) false false false]} ∅ ∅ ∅ ∅) {[b0 := content_state]} ∅ ∅ ∅ ∅.
Definition content_holder : Engine := engine_with content_store [3; 3; 3; 3].
Definition minted : CodedPiece := mk_piece [3] [15].
Definition push3 : PiecePush := mk_PiecePush b0 1 1 1 [7] (mk_WirePiece [3] [15]) false 0.

Lemma content_honest : honest_copy content_store b0 b0 1 1 content_state [].
Proof.
  split.
  - unfold_int. cbn. lia.
  - apply b0_bytes.
  - reflexivity.
  - reflexivity.
  - constructor.
  - reflexivity.
  - intros pid p H. cbn in H. by apply not_elem_of_empty in H.
Qed.

Lemma minted_piece_is_accepted_witness : exists a e2', ingest (Net := net_of 0) push3 fresh = Some (a, e2') /\ ppa_ok a = true.
Proof.
  destruct (minted_piece_is_accepted (net_of 0) (net_of 0) b0 b0 1 1 content_state [] content_holder (after (mint_piece (Net := net_of 0) b0 gen0) content_holder) fresh minted false 0 push3)
    as (_ & a & e2' & H1 & H2 & _).
  - apply content_honest.
  - repeat constructor; unfold_int; lia.
  - apply after_run. vm_compute. reflexivity.
  - reflexivity.
  - split; discriminate.
  - reflexivity.
  - reflexivity.
  - exists a, e2'. exact (conj H1 H2).
Defined.

(** ** Where the code and its documentation part *)

(** [k] of a push is not compared with its tags: a push with [k = 0] is
    accepted, and from then on every scan of the object panics in
    [target_pieces]. *)
Definition zero_push : PiecePush := mk_PiecePush b0 0 1 1 [7] (mk_WirePiece [1] [5]) false 0.

Example zero_k_push_stops_scans :
  let e := after (ingest (Net := net_of 0) zero_push) fresh in
  (ppa_ok <$> (fst <$> ingest (Net := net_of 0) zero_push fresh)) = Some true /\ health_scan_chunk (Net := net_of 0) [b0] e = None.
Proof. vm_compute. split; reflexivity. Qed.

(** The tags that check a push come with the push: a piece that does not
    belong to the object held is accepted beside those that do. *)
Definition forged_push : PiecePush := mk_PiecePush b0 1 1 1 [7] (mk_WirePiece [1] [9]) false 0.

Example forged_push_is_accepted :
  (ppa_ok <$> (fst <$> ingest (Net := net_of 0) forged_push holder)) = Some true /\
  read_piece (store (after (ingest (Net := net_of 0) forged_push) holder)) b0 [1; 9] = Some (mk_piece [1] [9]).
Proof. vm_compute. split; reflexivity. Qed.

(** A ban and its revocation leave the mark of distribution: publishing the
    content again then reports it durable, and neither keeps nor sends any. *)
Definition published_store : Store :=
  mk_store (mk_disk {[b0 := mk_dir (Some [7]) ∅ (Some b0) false false false]} ∅ ∅ {[b0]} ∅) {[b0 := content_state]} ∅ ∅ {[b0]} ∅.
Definition ban_and_return : Eng (result PublishReport EngErr) :=
  _ ← delete_local (Net := net1) b0; _ ← undelete b0; publish (Net := net1) b0 false.

Example republished_content_is_not_kept :
  let e := engine_with published_store (replicate 256 1) in
  fst <$> ban_and_return e = Some (Ok (mk_report b0 0 0 true false)) /\
  holds_content (store (after ban_and_return e)) b0 = false /\ piece_count (store (after ban_and_return e)) b0 = 0%nat /\
  sent (after ban_and_return e) = [Withdrawn b0].
Proof. vm_compute. split_and!; reflexivity. Qed.

(** One provider whose piece fails its tags ends the fetch, with an honest one
    at hand. *)
Definition liar_and_honest (p : key) (m : Message) : option Message :=
  if bool_decide (p = [1]) then Some (M_PieceResponse (mk_PieceResponse true 1 1 1 [7] [mk_WirePiece [1; 1] [5]])) else one_piece p m.
Definition net_liar : ObjNet := toy_net small_config liar_and_honest [mk_provider [1] [1] 1 false; mk_provider [2] [2] 1 false] None [].
Definition net_honest : ObjNet := toy_net small_config liar_and_honest [mk_provider [2] [2] 1 false] None [].

Example one_liar_fails_the_fetch :
  fst <$> get (Net := net_liar) b0 Drop fresh = Some (Err Polluted) /\ fst <$> get (Net := net_honest) b0 Drop fresh = Some (Ok b0).
Proof. vm_compute. split; reflexivity. Qed.

(** With a census, holders that answer no probe are counted as their records
    say: the only whole copy is dropped on records alone. *)
Definition net_silent : ObjNet := toy_net small_config (fun _ _ => None) [mk_provider [1] [1] 30 false] (Some (fun _ => [([1], [1])])) [].

Example unconfirmed_records_offload_the_copy :
  let e := after (health_scan_chunk (Net := net_silent) [b0]) (engine_with content_store []) in
  (offloaded <$> (fst <$> health_scan_chunk (Net := net_silent) [b0] (engine_with content_store []))) = Some 1%nat /\
  holds_content (store e) b0 = false /\ content_file (store e) b0 = None.
Proof. vm_compute. split_and!; reflexivity. Qed.

(** Lengths in a manifest are added unchecked: a crafted file panics a range
    read, a crafted folder its size. *)
Example crafted_lengths_overflow :
  range_loop (fun _ => mret (Ok [])) [mk_segment b0 1; mk_segment b0 U64_MAX] 0 0 5 [] fresh = None /\
  manifest_size (Dir "d" [mk_entry "x" U64_MAX false b0; mk_entry "y" 1 false b0]) = None.
Proof. vm_compute. split; reflexivity. Qed.

(** Two clocks a millisecond apart elect two repairers. *)
Example clocks_a_millisecond_apart_disagree : epoch_of (Z.shiftl 1000 16) = 2184 /\ epoch_of (Z.shiftl 1001 16) = 2186.
Proof. vm_compute. split; reflexivity. Qed.
